(* ===== verification/_CoqProject ===== *)
-Q . S2P
Prelude.v
GoText.v
RulesModel.v
RulesPattern.v
RulesEngine.v
RulesEval.v
RulesValidate.v
RulesApply.v
Sieve.v
SieveLex.v
SieveRoundtrip.v
SieveParse.v
SieveTheorems.v
RulesWitness.v
FileStore.v
RulesStore.v
Groups.v
SendAs.v
Mfa.v
StateTables.v
ScheduledSends.v
ContactsModel.v
UnionFind.v
Dedupe.v
Contacts.v
ContactsSpec.v
ContactsRefine.v
ContactsTheorems.v
StoreWitness.v
GoCodec.v
UsersModel.v
UsersStore.v
UsersAuth.v
UsersPGP.v
UsersOps.v
UsersRun.v
UsersShape.v
UsersInvariant.v
UsersSafety.v
UsersKeys.v
UsersAccess.v
UsersReads.v
Lockout.v
Pow.v
UsersWitness.v
Transaction.v
AccountState.v
AccountTheorems.v
Poller.v
PollerFetch.v
PollerTheorems.v
AccountWitness.v
MailboxModel.v
Mailbox.v
MailboxIncoming.v
Outbox.v
MailboxRun.v
MailboxInvariant.v
MailboxFeed.v
MailboxHistory.v
OutboxDelivery.v
OutboxDurable.v
ScheduledWorker.v
ScheduledWorkerTheorems.v
MailboxWitness.v
Wire.v
IngressModel.v
Ingress.v
Blocks.v
BlocksTheorems.v
BlocksEvidence.v
IngressRun.v
IngressInvariant.v
IngressMoves.v
IngressFate.v
IngressAdmission.v
IngressWorld.v
IngressDeliver.v
IngressClaims.v
IngressWitness.v
