(* ===== verification/Prelude.v ===== *)
(** * KyPost server: a verification development

    KyPost is a self-hosted mail server: a Go backend (src/backend) with a web
    API and a daemon that polls mailboxes, sorts mail, and keeps each user's
    settings, address book and queues.  The two processes share no memory; they
    meet in per-user JSON files, each guarded by an inter-process lock, and in a
    SQLite database.  This library models the backend's own decision logic and
    proves what its users and its operators rely on.

    ** Parts and files

    Foundations.
    - Prelude: results of fallible calls, slices, Go's stable and unstable sorts,
      iteration order of maps, runs of a system; tactics and the hint base.
    - GoText: the Go strings, unicode and textproto functions the code calls.
    - FileStore: fsutil's JSON files.  A store operation is a computation in a
      state-and-error monad over the process's cached copy and the file, under
      an [io] that says which of the lock, the read and the write fail (a write
      can fail before or after the file was replaced); what the stores with
      numbered records share.
    - Transaction: transactions that commit or leave the database alone, weakest
      preconditions, and what a transaction keeps.

    Mail rules (internal/rules).
    - RulesModel, RulesPattern, RulesEngine: the match tree, the bounded cache of
      compiled patterns, Evaluate, HeaderNames and ApplyOutcome; Go's regexp is
      the class [RegexEngine].  RulesEval, RulesValidate, RulesApply: evaluation
      is Kleene's logic and respects the deadline; ValidateRule accepts exactly
      the well-formed rules; a failed action stays retryable.
    - Sieve, SieveLex, SieveRoundtrip, SieveParse, SieveTheorems: the compiler to
      Sieve text, the lexer and the parser; round trip, stability of parsed
      rules, termination, and the loss of a negation at the root.
    - RulesStore: rules.json.  RulesWitness, StoreWitness: concrete instances.

    Groups (internal/groups): Groups, with EnsureByName's idempotence.

    Send-as aliases (internal/sendas): SendAs, as a refinement of the state
    machine of one alias; the mailed code cannot be searched.

    Second factor (internal/mfa): Mfa, the in-memory challenge store; an approval
    needs the shown number and is redeemed once.  StoreWitness: instances.

    Database tables (internal/state): StateTables (modules Snoozes and
    AgentTokens, and the ledger of the sending quota), ScheduledSends (scheduled mail).  A table is the list of its rows and a statement a function on
    it; a transaction of several statements interleaves with other callers
    where the code does not hold a lock.  StoreWitness: instances.

    Address book (internal/contacts).
    - ContactsModel, UnionFind, Dedupe, Contacts: the Contact record, duplicate
      detection and merging, and every operation of the store; the gopenpgp
      library is the class [OpenPGP], time.Parse the class [GoTime].
    - ContactsSpec: the abstract machine (replace under a fresh revision, add,
      purge), its invariant, and what a sync client can rely on.
      ContactsRefine: the store's operations are runs of that machine.
    - ContactsTheorems: the invariant of the file, convergence of
      sync, atomic batches, pinned keys, no address lost to deduplication.
      StoreWitness: instances.

    Accounts (internal/users).
    - GoCodec: hexadecimal, base64, decimal numbers, strings.Split.
    - UsersModel, UsersStore: the account record, users.json behind its lock and
      its read cache, the guarded mutation every writer goes through.
    - UsersAuth, UsersOps, UsersPGP: password and derived
      credentials; every operation on an account; OpenPGP identities, keyrings
      and sealings; the native batch writers and access epochs.
    - UsersRun: calls and runs.  UsersShape, UsersInvariant, UsersSafety: what
      every write preserves; an active administrator remains; a TOTP step and a
      recovery code are spent once.  UsersKeys, UsersAccess: a retired key never
      returns, browser custody is never downgraded, an access change fences
      prepared work.  UsersReads: lookups agree with a scan of the file; failed
      password checks cost alike.  UsersWitness: instances.

    Sign-in defences (internal/api, internal/captcha): Lockout (strikes and
    reservations), Pow (proof-of-work challenges, and the price per address).
    UsersWitness: instances.

    One account's state database and the poll loop (internal/state,
    internal/processor, parts of internal/adapters).
    - AccountState (store.go, sorter.go, mail_source.go, native_send.go): the
      tables and every operation on them, one transaction each; times and JSON
      columns are their decoded values.
    - AccountTheorems: calls and runs; a paired device as its own state machine
      (pairing, approval, enrollment), what follows for approvers and key
      rotations; the queue that devices poll has no gaps.
    - Poller (poller.go, presort.go, retry.go, unread listing and checkpoints of
      imap/client.go, SelectLabelFromText): one tick of a mailbox as a
      computation over the two databases, the rate window, a trace of what was
      written and sent, and the world.  The record [pollEnv] holds every answer
      the world may give: mail server, classifier, clocks, shutdown, whether the
      database takes a transaction.
    - PollerFetch: what a fetch covers, under [PollLaws] (UIDs are machine
      integers, UIDVALIDITY is a number).  PollerTheorems: the checkpoint passes
      no unread message over, a label is on record only once applied, a failing
      message is settled in the end, the classifier's budget.
      AccountWitness: instances.

    The permanent mail store (internal/mailbox).
    - MailboxModel: the SQLite tables with keys, foreign keys and triggers.
    - Mailbox (store.go, client_store.go, import.go), MailboxIncoming
      (incoming_encryption.go), Outbox (outbox.go, cryptutil's envelopes,
      NormalizeSMTPMessage): the operations, one transaction each.
    - MailboxRun: calls, runs, weakest preconditions; [EditFrame], [MailFrame] and
      [Frame] say what a property must survive, statement by statement, to
      survive every call.
    - MailboxInvariant: keys, usage counters, foreign keys.  MailboxFeed: the
      change log converges.  MailboxHistory: a delivery is taken in once and mail
      loses its bytes only on request; deleting a folder into its parent ends.
      OutboxDelivery: a delivery follows its automaton and is not submitted
      twice.  OutboxDurable: a queued job stays readable and its Sent copy is
      filed once.  MailboxWitness: instances.

    Scheduled mail on its way out (internal/api, internal/sso).
    - ScheduledWorker (scheduled_send.go, deliverIMAP, the authority checks of
      native_outbound.go): the workers, the draft sweep and the cancel handler
      are values of [prog], one constructor per call that leaves the process; a
      [history] interleaves any number of them, call by call, with new messages,
      pruning, stops and restarts.
    - ScheduledWorkerTheorems: [ok] types a program by what it may still do to
      one message and [fate] keeps those types consistent with the table, so a
      message is sent or given back, never both or twice; a worker alone settles
      the row it claimed.  MailboxWitness: instances, and the two ways around.

    Incoming mail (internal/ingress).
    - IngressModel, Ingress (store.go, capacity.go): the holding store's tables,
      the admission by disk space, and its operations.
    - IngressRun: calls on opened handles; [moves] lists what a call can do to
      the tables.  IngressInvariant, IngressMoves: the tables stay well formed,
      and every call makes one of the moves.  IngressFate: one delivery as an
      automaton, over any run.  IngressAdmission: the admission at the width of
      the machine's integers.
    - IngressWorld (import.go), IngressDeliver: importers, the holding store and
      the mailboxes together, every transaction an event.
      IngressClaims: accepted mail is kept, imported once for every owner, never
      for an owner the address has left, and an undisturbed import ends.
      IngressWitness: instances.
    - Wire (internal/cfreceiving/wire.go): senders, addresses and the routing
      table of the contract with the edge Worker, to the byte; blocks never stop
      the publication of routes.
    - Blocks (blocks.go, autoblocks.go): the sender block list and the evidence
      for automatic blocks, two files under two locks, the evidence's edit
      reading and writing the list others change meanwhile.  BlocksTheorems:
      the list reads back, manual blocks stand, our own senders are never
      blocked.  BlocksEvidence: the evidence reads back, automatic blocks are
      earned, unblocks stand, accepted domains are safe.  IngressWitness: instances.

    ** Interfaces

    Code outside the repository, and choices Go leaves open, are classes:
    [Unicode] and [UnicodeUpper] (case and letter tables), [RegexEngine],
    [OpenPGP] and [KeyInspection] (gopenpgp), [GoTime] and [GoTimeFormat],
    [PasswordLib] (Argon2id), [KeyDerivation] (PBKDF2, HKDF), [EnvelopeJSON],
    [PowCrypto] (HMAC, SHA-256, JSON), [MailLib] (net/mail, SHA-256),
    [OutboxLib] (JSON, AES-GCM, HKDF), [TickJSON] (the tick record's JSON), [BlockLib] (SHA-256, the size of a
    document's JSON), [SortSlice] (any sort sort.Slice may be)
    and [RangeOrder] (any order a map may be visited in).  Where a theorem needs
    a documented property of them it takes the class of laws ([UnicodeLaws],
    [RegexLaws], [OpenPGPLaws], [BlockLibLaws], [SortSliceLaws], [RangeOrderLaws]) or names it as
    a hypothesis; each has an instance in a witness file.  The clock, random
    bytes, UUIDs, free disk space and the outcomes of system calls are arguments
    of the operations.

    ** Bounds and fuel

    Strings are lists of code points, message bytes lists of numbers; integers
    are unbounded [Z], the counters and timestamps being far from 64 bits in any
    run; the byte counts of the admission, which may come near, are proved to
    fit (admission_arithmetic_exact).  The Sieve lexer and parser carry fuel from the length of the input,
    and [parseRuleText] never runs out of it (parseRuleText_terminates);
    union-find's [find] has the number of nodes as fuel, which a path never
    reaches (find_spec); the paging loop of [deleteFolderToParent] has the number
    of message rows, and ends before (delete_to_parent_moves_all in MailboxHistory);
    eviction from the block list and [trim] have the size of what they shrink
    (evict_manual, trim_spec); the pages of a fetch have the number of unread
    messages (collect_covers).  An ending Go
    context is the number of checks it still passes.

    ** Not modelled

    HTTP handlers, IMAP and SMTP, MIME, the classifier's model, OpenPGP messages
    and key discovery, sign-in with OpenID Connect, backup archives, configuration
    and the TypeScript front end: I/O, cryptography and protocol libraries around
    the logic modelled here.  Of internal/mfa the TOTP arithmetic, sealing and
    recovery codes are left out; of internal/users the slots around key
    derivation and the timing samples of the dummy hash; of the login lockout
    the floating-point budget; of internal/mailbox the MIME views, preparation
    for restore and export; of internal/cfreceiving the client and its state; of
    internal/state opening, migration and backup; of the poll loop the delivery of
    notifications, the phishing scan, key harvest, invitations and the encryption
    journal, which are answers of the world, and the goroutines over users;
    of scheduled mail the composition of a message, its sealing, and the outbox
    worker that talks to the relay;
    of internal/sorter the floating-point classifier.
    JSON encoding is the identity on decoded values except in Wire, which counts
    its bytes, and where it is a class. *)

From stdpp Require Export base list gmap strings sorting.
From Stdlib Require Export ZArith Lia.

(** ** Results of fallible Go functions *)

(** A Go function returning [(T, error)] returns one of these: the value when
    the error is nil, the error otherwise. *)
Inductive res (E A : Type) : Type :=
  | Ok (a : A)
  | Err (e : E).
Arguments Ok {E A} a.
Arguments Err {E A} e.

#[export] Instance res_ret {E} : MRet (res E) := fun A a => Ok a.
#[export] Instance res_bind {E} : MBind (res E) := fun A B f m =>
  match m with Ok a => f a | Err e => Err e end.

Declare Scope go_scope.
Delimit Scope go_scope with go.

Lemma res_bind_ok {E A B} (m : res E A) (f : A -> res E B) b :
  m ≫= f = Ok b <-> exists a, m = Ok a /\ f a = Ok b.
Proof.
  destruct m as [x|e]; simpl; split.
  - by exists x.
  - by intros (? & [= ->] & ?).
  - done.
  - by intros (? & [=] & _).
Qed.

(** ** Tactics *)

Create HintDb kypost.

(** Case analysis on every [match] and [if] in the goal and hypotheses,
    innermost scrutinee first. *)
Ltac break_match :=
  repeat match goal with
  | |- context [match ?x with _ => _ end] =>
      match x with context [match _ with _ => _ end] => fail 1 | _ => idtac end;
      destruct x eqn:?
  | H : context [match ?x with _ => _ end] |- _ =>
      match x with context [match _ with _ => _ end] => fail 1 | _ => idtac end;
      destruct x eqn:?
  end.

(** Turn boolean connectives and comparisons into propositions. *)
Ltac to_prop :=
  repeat match goal with
  | H : _ && _ = true |- _ => apply andb_true_iff in H as [? ?]
  | H : _ || _ = false |- _ => apply orb_false_iff in H as [? ?]
  | H : negb _ = true |- _ => apply negb_true_iff in H
  | H : negb _ = false |- _ => apply negb_false_iff in H
  | H : bool_decide _ = true |- _ => apply bool_decide_eq_true in H
  | H : bool_decide _ = false |- _ => apply bool_decide_eq_false in H
  | H : (_ <? _)%Z = true |- _ => apply Z.ltb_lt in H
  | H : (_ <? _)%Z = false |- _ => apply Z.ltb_ge in H
  | H : (_ <=? _)%Z = true |- _ => apply Z.leb_le in H
  | H : (_ <=? _)%Z = false |- _ => apply Z.leb_gt in H
  | H : (_ =? _)%Z = true |- _ => apply Z.eqb_eq in H
  | H : (_ =? _)%Z = false |- _ => apply Z.eqb_neq in H
  end.

(** The setter of one field of a record, from the record's eta-expansion
    [eta r = mk (f1 r) (f2 r) ...]: the projection is abstracted there and
    replaced by the new value. *)
Ltac setter_of eta proj v :=
  let e := eval unfold eta in eta in
  let e := eval pattern proj in e in
  lazymatch e with
  | ?body _ => let t := eval cbv beta in (body (fun _ => v)) in exact t
  end.

Ltac crush := intros; break_match; simplify_eq/=; try done; eauto with kypost.

(** ** Slices *)

(** [for _, x := range l { if p(x) { return x, true } }]. *)
Fixpoint find_first {A} (p : A -> bool) (l : list A) : option A :=
  match l with
  | [] => None
  | x :: l' => if p x then Some x else find_first p l'
  end.

(** [for i, x := range l { if p(x) { l[i] = f(x); break } }]. *)
Fixpoint update_first {A} (p : A -> bool) (f : A -> A) (l : list A) : list A :=
  match l with
  | [] => []
  | x :: l' => if p x then f x :: l' else x :: update_first p f l'
  end.

(** [for i, x := range l { if p(x) { l = append(l[:i], l[i+1:]...); break } }]. *)
Fixpoint remove_first {A} (p : A -> bool) (l : list A) : list A :=
  match l with
  | [] => []
  | x :: l' => if p x then l' else x :: remove_first p l'
  end.

Section Slices.
Context {A : Type}.
Implicit Types (p : A -> bool) (f : A -> A) (l : list A).

Lemma find_first_Some p l x : find_first p l = Some x -> x ∈ l /\ p x = true.
Proof.
  induction l as [|y l IH]; simpl; [done|]. destruct (p y) eqn:E; intros; simplify_eq.
  - split; [left|done].
  - destruct IH; [done|]. split; [by right|done].
Qed.

Lemma find_first_None p l : find_first p l = None <-> forall x, x ∈ l -> p x = false.
Proof.
  induction l as [|y l IH]; simpl.
  - split; [intros _ x Hx; by apply elem_of_nil in Hx|done].
  - destruct (p y) eqn:E; [split; [done|]|].
    + intros H. specialize (H y). rewrite H in E; [done|left].
    + rewrite IH. split.
      * intros H x [->|Hx]%elem_of_cons; auto.
      * intros H x Hx. apply H. by right.
Qed.

Lemma find_first_is_Some p l : is_Some (find_first p l) <-> exists x, x ∈ l /\ p x = true.
Proof.
  split.
  - intros [x Hx]. exists x. by apply find_first_Some.
  - intros (x & Hx & Hp). destruct (find_first p l) eqn:E; [done|].
    rewrite find_first_None in E. by rewrite E in Hp.
Qed.

Lemma update_first_length p f l : length (update_first p f l) = length l.
Proof. induction l as [|x l IH]; simpl; [done|]. destruct (p x); simpl; by rewrite ?IH. Qed.

Lemma update_first_id p f l : find_first p l = None -> update_first p f l = l.
Proof. induction l as [|x l IH]; simpl; [done|]. destruct (p x); intros; [done|]. by rewrite IH. Qed.

Lemma update_first_elem p f l y :
  y ∈ update_first p f l -> y ∈ l \/ exists x, find_first p l = Some x /\ y = f x.
Proof.
  induction l as [|x l IH]; simpl; [by left|].
  destruct (p x) eqn:E; intros [->|H]%elem_of_cons.
  - right. by exists x.
  - left. by right.
  - left. left.
  - destruct IH as [?|?]; [done|left; by right|by right].
Qed.

(** An update that keeps a projection fixed where it applies keeps the list of
    projections. *)
Lemma update_first_map {B} (g : A -> B) p f l :
  (forall x, find_first p l = Some x -> g (f x) = g x) -> g <$> update_first p f l = g <$> l.
Proof.
  induction l as [|x l IH]; simpl; intros H; [done|].
  destruct (p x) eqn:E; csimpl; f_equal; auto.
Qed.

Lemma find_first_update p f l x :
  find_first p l = Some x -> p (f x) = true -> find_first p (update_first p f l) = Some (f x).
Proof.
  induction l as [|y l IH]; simpl; [done|]. destruct (p y) eqn:E; intros; simplify_eq/=.
  - by case_match.
  - rewrite E. auto.
Qed.

Lemma find_first_update_ne p q f l :
  (forall x, p x = true -> q x = false) -> (forall x, p x = true -> q (f x) = false) ->
  find_first q (update_first p f l) = find_first q l.
Proof.
  intros H1 H2. induction l as [|y l IH]; simpl; [done|].
  destruct (p y) eqn:E; simpl; [rewrite (H1 y), (H2 y) by done|rewrite IH]; done.
Qed.

Lemma update_first_at p f l x :
  find_first p l = Some x -> update_first p f l = update_first p (fun _ => f x) l.
Proof.
  induction l as [|y l IH]; simpl; [done|]. destruct (p y); [by intros [= ->]|]. intros H. by rewrite IH.
Qed.

Lemma find_first_remove_ne p q l :
  (forall x, p x = true -> q x = false) -> find_first q (remove_first p l) = find_first q l.
Proof.
  intros H. induction l as [|y l IH]; simpl; [done|]. destruct (p y) eqn:E; simpl; [by rewrite H|by rewrite IH].
Qed.

Lemma remove_first_sublist p l : remove_first p l `sublist_of` l.
Proof. induction l as [|x l IH]; simpl; [done|]. destruct (p x); by constructor. Qed.

Lemma remove_first_id p l : find_first p l = None -> remove_first p l = l.
Proof. induction l as [|x l IH]; simpl; [done|]. destruct (p x); intros; [done|]. by rewrite IH. Qed.

Lemma remove_first_length p l x :
  find_first p l = Some x -> S (length (remove_first p l)) = length l.
Proof.
  induction l as [|y l IH]; simpl; [done|]. destruct (p y); intros H; [done|].
  simpl. f_equal. by apply IH.
Qed.

Lemma find_first_app p l1 l2 :
  find_first p (l1 ++ l2) = match find_first p l1 with Some x => Some x | None => find_first p l2 end.
Proof. induction l1 as [|x l1 IH]; simpl; [done|]. by destruct (p x). Qed.
End Slices.

Lemma filter_sublist {A} (p : A -> bool) l : List.filter p l `sublist_of` l.
Proof. induction l as [|x l IH]; simpl; [done|]. destruct (p x); by constructor. Qed.

(** ** Stable sorting: [sort.SliceStable] *)

(** Insertion from the right, before every element that is not strictly less:
    elements that compare equal keep their order. *)
Fixpoint insert_stable {A} (less : A -> A -> bool) (x : A) (l : list A) : list A :=
  match l with
  | [] => [x]
  | y :: l' => if less y x then y :: insert_stable less x l' else x :: l
  end.
Definition sortStable {A} (less : A -> A -> bool) (l : list A) : list A :=
  foldr (insert_stable less) [] l.

Section Sorting.
Context {A : Type} (less : A -> A -> bool).
Let le (a b : A) : Prop := less b a = false.

Lemma insert_stable_perm x l : insert_stable less x l ≡ₚ x :: l.
Proof.
  induction l as [|y l IH]; simpl; [done|]. destruct (less y x); [|done].
  rewrite IH. apply Permutation_swap.
Qed.

Lemma sortStable_perm l : sortStable less l ≡ₚ l.
Proof. induction l as [|x l IH]; simpl; [done|]. by rewrite insert_stable_perm, IH. Qed.

Lemma insert_stable_sorted x l :
  (forall a b, less a b = true -> less b a = false) ->
  Sorted le l -> Sorted le (insert_stable less x l).
Proof.
  intros Hasym. induction 1 as [|y l Hs IH Hd]; simpl; [repeat constructor|].
  destruct (less y x) eqn:E.
  - constructor; [done|]. destruct l as [|z l]; simpl; [constructor; by apply Hasym|].
    destruct (less z x); constructor; [by inversion Hd|by apply Hasym].
  - constructor; [by constructor|]. by constructor.
Qed.

Lemma sortStable_sorted l :
  (forall a b, less a b = true -> less b a = false) -> Sorted le (sortStable less l).
Proof. intros. induction l; simpl; [constructor|]. by apply insert_stable_sorted. Qed.

(** Stability: on elements the order does not separate, the sort is the
    identity. *)
Lemma insert_stable_filter (p : A -> bool) x l :
  (forall y, p x = true -> p y = true -> less y x = false) ->
  List.filter p (insert_stable less x l) = List.filter p (x :: l).
Proof.
  intros H. induction l as [|y l IH]; simpl; [done|].
  destruct (less y x) eqn:E; [|done]. simpl in *. rewrite IH.
  destruct (p x) eqn:Hx, (p y) eqn:Hy; try done.
  by rewrite H in E.
Qed.

Lemma sortStable_filter (p : A -> bool) l :
  (forall x y, p x = true -> p y = true -> less y x = false) ->
  List.filter p (sortStable less l) = List.filter p l.
Proof.
  intros H. induction l as [|x l IH]; simpl; [done|].
  rewrite insert_stable_filter by auto. simpl. by rewrite IH.
Qed.
End Sorting.

(** ** Sublists and tests *)

Lemma Forall_sub {A} (P : A -> Prop) l l' : l' `sublist_of` l -> Forall P l -> Forall P l'.
Proof. induction 1; inversion 1; subst; auto. Qed.
Lemma existsb_Forall {A} (p : A -> bool) l : existsb p l = false <-> Forall (fun x => p x = false) l.
Proof. induction l as [|x l IH]; simpl; [done|]. by rewrite orb_false_iff, Forall_cons, IH. Qed.

Lemma filter_none {A} (p : A -> bool) l : (forall x, x ∈ l -> p x = false) -> List.filter p l = [].
Proof.
  intros H. apply elem_of_nil_inv. intros x Hx. apply list_elem_of_In, filter_In in Hx as [Hx Hp]. rewrite H in Hp; [done|by apply list_elem_of_In].
Qed.

(** ** Runs of a system *)

(** A sequence of calls on a shared state, and the log of calls and answers. *)
Fixpoint run_trace {I S A} (step : I -> S -> A * S) (tr : list I) (s : S) : list (I * A) * S :=
  match tr with
  | [] => ([], s)
  | i :: tr' =>
      let '(a, s') := step i s in
      let '(log, s'') := run_trace step tr' s' in ((i, a) :: log, s'')
  end.

Lemma run_trace_app {I S A} (step : I -> S -> A * S) l1 l2 s :
  run_trace step (l1 ++ l2) s = let '(log1, s1) := run_trace step l1 s in let '(log2, s2) := run_trace step l2 s1 in (log1 ++ log2, s2).
Proof.
  revert s. induction l1 as [|i l1 IH]; intros s; simpl; [by destruct (run_trace step l2 s)|]. destruct (step i s) as [a s1]. rewrite IH.
  destruct (run_trace step l1 s1) as [log1 s2]. by destruct (run_trace step l2 s2).
Qed.
(** Induction on a run from its end: the log so far and the state. *)
Lemma run_trace_ind {I S A} (step : I -> S -> A * S) (Q : I -> Prop) (P : list (I * A) -> S -> Prop) s0 : P [] s0 ->
  (forall log s e a s', Q e -> P log s -> step e s = (a, s') -> P (log ++ [(e, a)]) s') ->
  forall tr, Forall Q tr -> P (run_trace step tr s0).1 (run_trace step tr s0).2.
Proof.
  intros H0 HS tr. induction tr as [|e tr IH] using rev_ind; intros HQ; [done|]. apply Forall_app in HQ as [HQ He]. apply Forall_cons in He as [He _].
  specialize (IH HQ). rewrite run_trace_app. destruct (run_trace step tr s0) as [log s]. simpl in *. destruct (step e s) as [a s'] eqn:E. simpl. by eapply HS.
Qed.
Lemma run_trace_events {I S A} (step : I -> S -> A * S) tr s : (run_trace step tr s).1.*1 = tr.
Proof. revert s. induction tr as [|e tr IH]; intros s; simpl; [done|]. destruct (step e s) as [a s']. specialize (IH s'). destruct (run_trace step tr s'). simpl in *. by f_equal. Qed.

(** How many entries of a log satisfy a test. *)
Definition count_log {I A} (p : I -> A -> bool) (log : list (I * A)) : Z :=
  foldr (fun '(i, a) n => if p i a then n + 1 else n)%Z 0%Z log.

(** A quantity that never grows, and drops by one with every counted entry,
    bounds how often the entry occurs. *)
Lemma run_trace_bound {I S A} (step : I -> S -> A * S) (p : I -> A -> bool) (ok : I -> Prop)
    (Inv : S -> Prop) (phi : S -> Z) tr s :
  (forall s, 0 <= phi s)%Z ->
  (forall i s, ok i -> Inv s -> Inv (step i s).2 /\ (phi (step i s).2 + (if p i (step i s).1 then 1 else 0) <= phi s)%Z) ->
  Forall ok tr -> Inv s -> (count_log p (run_trace step tr s).1 <= phi s)%Z.
Proof.
  intros Hpos Hstep Hok. revert s. induction Hok as [|i tr Hi _ IH]; intros s Hs; simpl; [apply Hpos|].
  destruct (Hstep i s Hi Hs) as [Hs' Hle]. destruct (step i s) as [a s'] eqn:E. simpl in *.
  specialize (IH s' Hs'). destruct (run_trace step tr s') as [log s'']. simpl in *.
  destruct (p i a); lia.
Qed.

(** ** Unstable sorting: [sort.Slice] *)

(** Go's [sort.Slice] promises a permutation that is sorted when [less] is a
    strict weak order, and nothing about the order of equal elements; the
    theorems hold for every such function. *)
Class SortSlice := sort_slice : forall A : Type, (A -> A -> bool) -> list A -> list A.
Class SortSliceLaws `{SortSlice} : Prop := {
  sort_slice_perm A (less : A -> A -> bool) l : sort_slice A less l ≡ₚ l;
  sort_slice_sorted A (less : A -> A -> bool) l :
    (forall a b, less a b = true -> less b a = false) ->
    (forall a b c, less a b = false -> less b c = false -> less a c = false) ->
    Sorted (fun a b => less b a = false) (sort_slice A less l);
}.

(** The stable sort is one instance. *)
#[export] Instance sort_slice_stable : SortSlice := @sortStable.
#[export] Instance sort_slice_stable_laws : SortSliceLaws.
Proof.
  split.
  - intros. apply sortStable_perm.
  - intros. by apply sortStable_sorted.
Qed.

Lemma Sorted_weaken {A} (R R' : A -> A -> Prop) l : (forall a b, R a b -> R' a b) -> Sorted R l -> Sorted R' l.
Proof. intros H. induction 1 as [|x l _ IH Hd]; constructor; [done|]. destruct Hd; constructor. auto. Qed.

(** ** Iteration over a Go map *)

(** [for k, v := range m] visits the entries in an unspecified order; the
    theorems hold for every order. *)
Class RangeOrder := range_order : forall A : Type, list A -> list A.
Class RangeOrderLaws `{RangeOrder} : Prop := range_order_perm A (l : list A) : range_order A l ≡ₚ l.
#[export] Instance range_order_id : RangeOrder := fun A l => l.
#[export] Instance range_order_id_laws : RangeOrderLaws.
Proof. by intros A l. Qed.
