(* ===== verification/GoText.v ===== *)
(** * GoText: the Go strings library as the server uses it

    A Go string holding valid UTF-8 is modelled by the list of its code points
    (runes), each a [Z].  [utf8Len] gives back the byte length [len(s)]
    measures.  The ASCII behaviour of [strings.ToLower], [strings.EqualFold],
    [strings.TrimSpace] and [textproto.CanonicalMIMEHeaderKey] is written out,
    as is [unicode.IsSpace]; the Unicode tables Go consults beyond ASCII are the
    fields of the class [Unicode], so every theorem holds for whatever those
    tables contain. *)

From S2P Require Import Prelude.

Abbreviation gostr := (list Z).

(** String literals of the source. *)
Definition lit (s : string) : gostr :=
  (fun a => Z.of_N (Ascii.N_of_ascii a)) <$> String.list_ascii_of_string s.
Notation "'$' s" := (lit s%string) (at level 1, format "'$' s") : go_scope.
Open Scope go_scope.

Notation "a =s? b" := (bool_decide (@eq gostr a b)) (at level 70) : go_scope.

(** Go's tables outside ASCII: [unicode.ToLower], the smallest rune of the
    [unicode.SimpleFold] orbit (which may be ASCII: the Kelvin sign folds to K),
    [unicode.IsLetter] and [unicode.IsDigit]. *)
Class Unicode := {
  uni_lower : Z -> Z;
  uni_fold : Z -> Z;
  uni_letter : Z -> bool;
  uni_digit : Z -> bool;
}.

(** A small concrete table, used by the witnesses: Latin-1 letters, the Kelvin
    sign and the long s. *)
#[export] Instance latin1 : Unicode := {|
  uni_lower r :=
    if (Z.leb 192 r && Z.leb r 222 && negb (r =? 215))%Z then (r + 32)%Z
    else if (r =? 8490)%Z then 107%Z else r;
  uni_fold r :=
    if (Z.leb 224 r && Z.leb r 254 && negb (r =? 247))%Z then (r - 32)%Z
    else if (r =? 8490)%Z then 75%Z else if (r =? 383)%Z then 83%Z else r;
  uni_letter r :=
    (Z.leb 192 r && Z.leb r 255 && negb (r =? 215) && negb (r =? 247))%Z
    || bool_decide (r ∈ [170; 181; 186; 383; 8490]%Z);
  uni_digit _ := false;
|}.

(** Two facts of the Unicode data: outside ASCII only the dotted capital I and
    the Kelvin sign lower to ASCII (to i and k), and only the Kelvin sign and
    the long s fold to ASCII (to K and S). *)
Class UnicodeLaws `{Unicode} : Prop := {
  uni_lower_ascii r : (128 ≤ r)%Z -> (uni_lower r < 128)%Z -> uni_lower r = 105%Z \/ uni_lower r = 107%Z;
  uni_fold_ascii r : (128 ≤ r)%Z -> (uni_fold r < 128)%Z -> uni_fold r = 75%Z \/ uni_fold r = 83%Z;
}.

#[export] Instance latin1_laws : UnicodeLaws.
Proof. split; intros r; simpl; break_match; to_prop; lia. Qed.

(** [unicode.IsSpace]. *)
Definition isSpace (r : Z) : bool :=
  ((Z.leb 9 r && Z.leb r 13) || (r =? 32) || (r =? 133) || (r =? 160) || (r =? 5760)
   || (Z.leb 8192 r && Z.leb r 8202) || (r =? 8232) || (r =? 8233) || (r =? 8239)
   || (r =? 8287) || (r =? 12288))%Z%bool.

Fixpoint trimLeft (s : gostr) : gostr :=
  match s with
  | r :: s' => if isSpace r then trimLeft s' else s
  | [] => []
  end.

(** [strings.TrimSpace]. *)
Definition trimSpace (s : gostr) : gostr := reverse (trimLeft (reverse (trimLeft s))).

(** [len(s)] of the UTF-8 encoding. *)
Definition utf8LenRune (r : Z) : Z :=
  if (r <? 128)%Z then 1 else if (r <? 2048)%Z then 2 else if (r <? 65536)%Z then 3 else 4.
Definition utf8Len (s : gostr) : Z := foldr (fun r n => utf8LenRune r + n)%Z 0%Z s.

Definition isUpperA (r : Z) : bool := (Z.leb 65 r && Z.leb r 90)%Z.
Definition isLowerA (r : Z) : bool := (Z.leb 97 r && Z.leb r 122)%Z.

(** [strings.HasPrefix], [strings.Contains]. *)
Fixpoint hasPrefix (p s : gostr) : bool :=
  match p, s with
  | [], _ => true
  | a :: p', b :: s' => (a =? b)%Z && hasPrefix p' s'
  | _, [] => false
  end.
Fixpoint contains (s sub : gostr) : bool :=
  hasPrefix sub s || match s with [] => false | _ :: s' => contains s' sub end.

(** [strings.Join]. *)
Fixpoint join (sep : gostr) (l : list gostr) : gostr :=
  match l with
  | [] => []
  | [s] => s
  | s :: l' => s ++ sep ++ join sep l'
  end.

(** [textproto.CanonicalMIMEHeaderKey]: a name with a byte that is not an RFC
    7230 token character is returned unchanged; otherwise the first letter and
    every letter after a hyphen is upper case, the rest lower case. *)
Definition validHeaderFieldByte (r : Z) : bool :=
  isUpperA r || isLowerA r || (Z.leb 48 r && Z.leb r 57)%Z
  || bool_decide (r ∈ lit "!#$%&'*+-.^_`|~").
Fixpoint canonFrom (upper : bool) (s : gostr) : gostr :=
  match s with
  | [] => []
  | c :: s' =>
      let c' := if upper && isLowerA c then (c - 32)%Z
                else if negb upper && isUpperA c then (c + 32)%Z else c in
      c' :: canonFrom (c' =? 45)%Z s'
  end.
Definition canonicalMIMEHeaderKey (s : gostr) : gostr :=
  if forallb validHeaderFieldByte s then canonFrom true s else s.

(** String order: [<] on Go strings; byte order of UTF-8 is code point order. *)
Fixpoint strLtb (a b : gostr) : bool :=
  match a, b with
  | [], _ :: _ => true
  | _, [] => false
  | x :: a', y :: b' => (x <? y)%Z || ((x =? y)%Z && strLtb a' b')
  end.

Section WithUnicode.
Context {U : Unicode}.

(** [unicode.ToLower] and [strings.ToLower]. *)
Definition lowerRune (r : Z) : Z :=
  if (r <? 128)%Z then (if isUpperA r then r + 32 else r)%Z else uni_lower r.
Definition toLower (s : gostr) : gostr := lowerRune <$> s.

(** [strings.EqualFold]: equality up to [unicode.SimpleFold]; the orbit of an
    ASCII letter is represented by its upper-case form. *)
Definition foldRune (r : Z) : Z :=
  if (r <? 128)%Z then (if isLowerA r then r - 32 else r)%Z else uni_fold r.
Definition equalFold (s t : gostr) : bool := bool_decide (foldRune <$> s = foldRune <$> t).

(** [unicode.IsLetter], [unicode.IsDigit]. *)
Definition isLetter (r : Z) : bool :=
  if (r <? 128)%Z then isUpperA r || isLowerA r else uni_letter r.
Definition isDigit (r : Z) : bool :=
  if (r <? 128)%Z then (Z.leb 48 r && Z.leb r 57)%Z else uni_digit r.

End WithUnicode.

(** [strings.FieldsFunc]: the maximal runs of runes that are not separators;
    [cur] is the run being read, reversed. *)
Fixpoint fieldsFrom (sep : Z -> bool) (cur s : gostr) : list gostr :=
  let flush := match cur with [] => [] | _ => [reverse cur] end in
  match s with
  | [] => flush
  | r :: s' => if sep r then flush ++ fieldsFrom sep [] s' else fieldsFrom sep (r :: cur) s'
  end.
Definition fieldsFunc (sep : Z -> bool) (s : gostr) : list gostr := fieldsFrom sep [] s.

(** [strings.ReplaceAll(s, old, "")] for a one-rune [old]. *)
Definition removeAll (r : Z) (s : gostr) : gostr := List.filter (fun c => negb (c =? r)%Z) s.

(** [strconv.FormatInt], base ten: a number needs no more decimal digits than
    binary ones. *)
Fixpoint decimalFuel (fuel : nat) (n : Z) : gostr :=
  match fuel with
  | O => []
  | S fuel' => (if (n <? 10)%Z then [] else decimalFuel fuel' (n / 10)) ++ [(48 + n mod 10)%Z]
  end.
Definition formatInt (n : Z) : gostr :=
  if (n <? 0)%Z then 45%Z :: decimalFuel (Z.to_nat (Z.log2 (- n)) + 1) (- n)
  else decimalFuel (Z.to_nat (Z.log2 n) + 1) n.

(** ** Lemmas *)

Lemma utf8Len_nonneg s : (0 ≤ utf8Len s)%Z.
Proof.
  induction s as [|r s IH]; simpl; [lia|].
  enough (0 ≤ utf8LenRune r)%Z by lia. unfold utf8LenRune. break_match; lia.
Qed.

Lemma utf8Len_app s t : utf8Len (s ++ t) = (utf8Len s + utf8Len t)%Z.
Proof. induction s as [|r s IH]; simpl; [done|]. rewrite IH. lia. Qed.

Lemma equalFold_refl {U : Unicode} s : equalFold s s = true.
Proof. unfold equalFold. by rewrite bool_decide_eq_true. Qed.

Lemma equalFold_spec {U : Unicode} s t :
  equalFold s t = true <-> foldRune <$> s = foldRune <$> t.
Proof. unfold equalFold. apply bool_decide_eq_true. Qed.

(** A rune an ASCII letter other than i, k and s is compared with: lowering to
    it and folding to it are the same test. *)
Definition plainLower (c : Z) : bool :=
  (0 <=? c)%Z && (c <? 128)%Z && negb (isUpperA c) && negb (bool_decide (c ∈ [105; 107; 115]%Z)).

Lemma lower_plain_fold `{UnicodeLaws} r c :
  plainLower c = true -> lowerRune r = c <-> foldRune r = foldRune c.
Proof.
  unfold plainLower, lowerRune, foldRune. intros Hc. to_prop.
  rewrite !elem_of_cons, elem_of_nil in *.
  destruct (r <? 128)%Z eqn:E; to_prop; split; intros E2.
  - subst c. destruct (isUpperA r) eqn:?; unfold isUpperA, isLowerA in *; break_match; lia.
  - unfold isUpperA, isLowerA in *. break_match; lia.
  - exfalso. destruct (uni_lower_ascii r); lia.
  - exfalso. unfold isUpperA, isLowerA in *. break_match; destruct (uni_fold_ascii r); lia.
Qed.

(** On such a word, [strings.ToLower(s) == word] and [strings.EqualFold(s, word)]
    agree. *)
Lemma lower_equalFold `{UnicodeLaws} s t :
  forallb plainLower t = true -> (toLower s =s? t) = equalFold s t.
Proof.
  intros Ht. unfold equalFold. apply bool_decide_ext. unfold toLower.
  revert t Ht. induction s as [|r s IH]; intros [|c t] Ht; csimpl; try (split; done).
  simpl in Ht. apply andb_true_iff in Ht as [Hc Ht].
  pose proof (proj1 (IH t Ht)). pose proof (proj2 (IH t Ht)).
  pose proof (lower_plain_fold r c Hc) as [??].
  split; intros [= ??]; f_equal; auto.
Qed.

Lemma hasPrefix_spec p s : hasPrefix p s = true <-> exists t, s = p ++ t.
Proof.
  revert s. induction p as [|a p IH]; intros s; simpl; [split; eauto|].
  destruct s as [|b s]; [split; [done|intros [t [=]]]|].
  rewrite andb_true_iff, IH. split.
  - intros [->%Z.eqb_eq [t ->]]. by exists t.
  - intros [t [=-> ->]]. split; [apply Z.eqb_refl|by exists t].
Qed.

Lemma contains_spec s sub : contains s sub = true <-> exists a b, s = a ++ sub ++ b.
Proof.
  induction s as [|x s IH]; cbn [contains]; rewrite orb_true_iff, hasPrefix_spec.
  - split; [|intros (a & b & E); left].
    + intros [[t Ht]|[=]]. by exists [], t.
    + symmetry in E. apply app_nil in E as [-> E]. simpl in *. exists b. done.
  - rewrite IH. split.
    + intros [[t ->]|(a & b & ->)]; [by exists [], t|by exists (x :: a), b].
    + intros ([|y a] & b & E); simplify_eq/=; [left; by exists b|right; by exists a, b].
Qed.

Lemma strLtb_irrefl s : strLtb s s = false.
Proof. induction s as [|x s IH]; simpl; [done|]. rewrite IH, Z.eqb_refl, Z.ltb_irrefl. done. Qed.

Lemma strLtb_trans a b c : strLtb a b = true -> strLtb b c = true -> strLtb a c = true.
Proof.
  revert b c. induction a as [|x a IH]; intros [|y b] [|z c]; simpl; try done.
  rewrite !orb_true_iff, !andb_true_iff, !Z.ltb_lt, !Z.eqb_eq.
  intros [?|[-> ?]] [?|[-> ?]]; [left; lia|by left|by left|right; eauto].
Qed.

Lemma strLtb_total a b : strLtb a b = true \/ a = b \/ strLtb b a = true.
Proof.
  revert b. induction a as [|x a IH]; intros [|y b]; simpl; auto.
  destruct (Z.lt_trichotomy x y) as [?|[->|?]].
  - left. apply orb_true_iff. left. by apply Z.ltb_lt.
  - rewrite Z.ltb_irrefl, Z.eqb_refl. simpl.
    destruct (IH b) as [?|[->|?]]; auto.
  - right; right. apply orb_true_iff. left. by apply Z.ltb_lt.
Qed.

Lemma trimLeft_prefix s : exists p, s = p ++ trimLeft s /\ forallb isSpace p = true.
Proof.
  induction s as [|r s (p & E & Hp)]; simpl; [by exists []|].
  destruct (isSpace r) eqn:Hr; [|by exists []].
  exists (r :: p). simpl. rewrite Hr. split; [by f_equal|done].
Qed.

Lemma trimLeft_fix s : trimLeft s = [] \/ exists r t, trimLeft s = r :: t /\ isSpace r = false.
Proof. induction s as [|r s IH]; simpl; [by left|]. destruct (isSpace r) eqn:?; eauto. Qed.

(** A string with no space at either end is its own trim. *)
Lemma trimSpace_nospace s :
  forallb (fun r => negb (isSpace r)) s = true -> trimSpace s = s.
Proof.
  assert (trimLeft_ns : forall l, forallb (fun r => negb (isSpace r)) l = true -> trimLeft l = l).
  { intros [|r l]; simpl; [done|]. intros [->%negb_true_iff _]%andb_true_iff. done. }
  intros H. unfold trimSpace. rewrite (trimLeft_ns s H).
  rewrite trimLeft_ns; [apply reverse_involutive|].
  rewrite forallb_forall in *. intros x Hx. apply H.
  rewrite <- list_elem_of_In in *. by apply elem_of_reverse.
Qed.

Lemma canonFrom_length u s : length (canonFrom u s) = length s.
Proof. revert u. induction s as [|c s IH]; intros u; simpl; [done|]. by rewrite IH. Qed.

Lemma canonFrom_idem u s : canonFrom u (canonFrom u s) = canonFrom u s.
Proof.
  revert u. induction s as [|c s IH]; intros u; simpl; [done|].
  set (c' := if u && isLowerA c then (c - 32)%Z
             else if negb u && isUpperA c then (c + 32)%Z else c).
  assert (E : (if u && isLowerA c' then (c' - 32)%Z
               else if negb u && isUpperA c' then (c' + 32)%Z else c') = c').
  { unfold c', isLowerA, isUpperA. destruct u; simpl; break_match; lia. }
  rewrite E. by rewrite IH.
Qed.

Lemma validHeaderFieldByte_canon u s :
  forallb validHeaderFieldByte s = true -> forallb validHeaderFieldByte (canonFrom u s) = true.
Proof.
  revert u. induction s as [|c s IH]; intros u; simpl; [done|].
  rewrite !andb_true_iff. intros [Hc Hs]. split; [|by apply IH].
  assert (forall r, isUpperA r = true -> validHeaderFieldByte r = true) as HU.
  { intros r H. unfold validHeaderFieldByte. by rewrite H. }
  assert (forall r, isLowerA r = true -> validHeaderFieldByte r = true) as HL.
  { intros r H. unfold validHeaderFieldByte. rewrite H. by rewrite orb_true_r. }
  destruct (u && isLowerA c) eqn:E1; [|destruct (negb u && isUpperA c) eqn:E2; [|done]].
  - apply HU. apply andb_true_iff in E1 as [_ E1]. revert E1. unfold isLowerA, isUpperA. lia.
  - apply HL. apply andb_true_iff in E2 as [_ E2]. revert E2. unfold isLowerA, isUpperA. lia.
Qed.

(** Canonicalising a header name twice is canonicalising it once. *)
Lemma canonicalMIMEHeaderKey_idem s :
  canonicalMIMEHeaderKey (canonicalMIMEHeaderKey s) = canonicalMIMEHeaderKey s.
Proof.
  unfold canonicalMIMEHeaderKey. destruct (forallb validHeaderFieldByte s) eqn:E.
  - rewrite validHeaderFieldByte_canon by done. apply canonFrom_idem.
  - by rewrite E.
Qed.
