(* ===== verification/RulesModel.v ===== *)
(** * RulesModel: the filter-rule data model (backend/internal/rules/model.go)

    The match tree is a pair of mutually nested types: a [MatchGroup] holds
    [Condition]s, and a [Condition] is a leaf test or, when [Group] is set, a
    nested group.  The file gives the tree its induction principle and the two
    measures validation bounds. *)

From S2P Require Import Prelude GoText.

Inductive MatchGroup : Type :=
  | mkGroup (Op : gostr) (Conditions : list Condition)
with Condition : Type :=
  | mkCondition (Negate : bool) (Group : option MatchGroup)
                (Field Header Comparator Value : gostr).

Definition Op (g : MatchGroup) : gostr := let 'mkGroup op _ := g in op.
Definition Conditions (g : MatchGroup) : list Condition := let 'mkGroup _ cs := g in cs.
Definition Negate (c : Condition) : bool := let 'mkCondition n _ _ _ _ _ := c in n.
Definition Group (c : Condition) : option MatchGroup := let 'mkCondition _ g _ _ _ _ := c in g.
Definition Field (c : Condition) : gostr := let 'mkCondition _ _ f _ _ _ := c in f.
Definition Header (c : Condition) : gostr := let 'mkCondition _ _ _ h _ _ := c in h.
Definition Comparator (c : Condition) : gostr := let 'mkCondition _ _ _ _ k _ := c in k.
Definition Value (c : Condition) : gostr := let 'mkCondition _ _ _ _ _ v := c in v.

(** Action is one effect to apply when a rule matches. *)
Record Action := mkAction { aType : gostr; aValue : gostr }.

(** RuleScope restricts which mailboxes a rule applies to; no folder means all. *)
Record RuleScope := mkScope { Folders : list gostr }.

Record Rule := mkRule {
  ruleID : gostr;
  ruleName : gostr;
  Enabled : bool;
  Order : Z;
  Scope : RuleScope;
  Match : MatchGroup;
  Actions : list Action;
  Rev : Z;
  CreatedAt : gostr;
  UpdatedAt : gostr;
}.

#[export] Instance Action_eq_dec : EqDecision Action.
Proof. solve_decision. Defined.

(** ** Induction on match trees *)

Section Induction.
Context (P : Condition -> Prop).
Context (Hleaf : forall n f h k v, P (mkCondition n None f h k v)).
Context (Hgroup : forall n op cs f h k v,
  Forall P cs -> P (mkCondition n (Some (mkGroup op cs)) f h k v)).

Fixpoint Condition_tree_ind (c : Condition) : P c :=
  match c with
  | mkCondition n None f h k v => Hleaf n f h k v
  | mkCondition n (Some (mkGroup op cs)) f h k v =>
      Hgroup n op cs f h k v
        ((fix go cs : Forall P cs :=
            match cs with
            | [] => Forall_nil_2 P
            | c :: cs' => Forall_cons_2 P c cs' (Condition_tree_ind c) (go cs')
            end) cs)
  end.
End Induction.

(** Induction over a condition's tree, keeping the hypotheses that mention it. *)
Ltac tree_induction c :=
  induction c as [?n ?f ?h ?k ?v | ?n ?op ?cs ?f ?h ?k ?v ?IH] using Condition_tree_ind.

(** ** The two measures of a match tree *)

Definition list_max (l : list nat) : nat := foldr Nat.max 0%nat l.
Definition list_sum (l : list nat) : nat := foldr Nat.add 0%nat l.

(** Nodes of a tree: every condition counts, group or leaf. *)
Fixpoint condNodes (c : Condition) : nat :=
  match c with
  | mkCondition _ (Some (mkGroup _ cs)) _ _ _ _ => S (list_sum (condNodes <$> cs))
  | mkCondition _ None _ _ _ _ => 1
  end.
Definition groupNodes (g : MatchGroup) : nat := list_sum (condNodes <$> Conditions g).

(** Group levels below and including a condition. *)
Fixpoint condDepth (c : Condition) : nat :=
  match c with
  | mkCondition _ (Some (mkGroup _ cs)) _ _ _ _ => S (list_max (condDepth <$> cs))
  | mkCondition _ None _ _ _ _ => 0
  end.
Definition groupDepth (g : MatchGroup) : nat := S (list_max (condDepth <$> Conditions g)).

Lemma list_max_le l n : list_max l ≤ n <-> Forall (fun x => x ≤ n) l.
Proof.
  induction l as [|x l IH]; simpl; [split; [constructor|lia]|].
  rewrite Forall_cons, <- IH. lia.
Qed.

Lemma list_sum_elem x l : x ∈ l -> x ≤ list_sum l.
Proof. induction 1; simpl; lia. Qed.
