(* ===== verification/RulesPattern.v ===== *)
(** * RulesPattern: compiled match patterns (backend/internal/rules/regexcache.go)

    The "matches" and "regex" comparators turn a condition's value into a
    regular expression, refuse one that does not compile or that compiles to
    too many instructions, and keep the compiled forms in a process-wide map
    bounded by [maxCompiledPatterns].  Go's [regexp] package is the class
    [RegexEngine]; [GlobEngine] is an executable instance for the fragment
    that [wildcardToRegexp] produces. *)

From S2P Require Import Prelude GoText.

Definition maxCompiledPatterns : Z := 4096.
Definition maxPatternProgramInsts : Z := 8192.

(** Go's regexp package: [reInsts p] is the length of the program that
    [syntax.Parse], [Simplify] and [syntax.Compile] produce, [reCompile] is
    [regexp.Compile], [reMatch] is [MatchString]. *)
Class RegexEngine := {
  regexp : Type;
  reInsts : gostr -> option Z;
  reCompile : gostr -> option regexp;
  reMatch : regexp -> gostr -> bool;
}.

(** [regexp.Compile] is documented as parsing with [syntax.Perl], simplifying
    and compiling: it fails exactly when those steps do. *)
Class RegexLaws `{RegexEngine} : Prop := {
  reCompile_defined p : is_Some (reCompile p) <-> is_Some (reInsts p);
}.

(** [regexp.QuoteMeta] of one rune. *)
Definition regexSpecials : gostr := lit "\.+*?()|[]{}^$".
Definition quoteMetaRune (r : Z) : gostr :=
  if bool_decide (r ∈ regexSpecials) then [92%Z; r] else [r].

(** wildcardToRegexp: Sieve's glob as a regular expression. *)
Definition wildcardToRegexp (pattern : gostr) : gostr :=
  r ← pattern;
  if (r =? 42)%Z then $".*" else if (r =? 63)%Z then $"." else quoteMetaRune r.

Inductive pattern_error := PatternInvalid | PatternTooLarge (insts : Z).

Section Patterns.
Context {U : Unicode} {R : RegexEngine}.

(** patternFor: the regexp source a comparator evaluates, if it uses one. *)
Definition patternFor (comparator value : gostr) : gostr * bool :=
  let k := toLower (trimSpace comparator) in
  if k =s? $"matches" then ($"(?is)^" ++ wildcardToRegexp value ++ $"$", true)
  else if k =s? $"regex" then ($"(?is)" ++ value, true)
  else ($"", false).

(** ValidatePattern: nil is [None]. *)
Definition validatePattern (comparator value : gostr) : option pattern_error :=
  let '(pattern, ok) := patternFor comparator value in
  if negb ok then None
  else match reInsts pattern with
       | None => Some PatternInvalid
       | Some n => if (maxPatternProgramInsts <? n)%Z then Some (PatternTooLarge n) else None
       end.

(** compilePattern, with the process-wide map it reads and updates. *)
Definition compilePattern (pattern : gostr) (compiled : gmap gostr regexp) :
    option regexp * gmap gostr regexp :=
  match compiled !! pattern with
  | Some re => (Some re, compiled)
  | None =>
      match reInsts pattern with
      | None => (None, compiled)
      | Some n =>
          if (maxPatternProgramInsts <? n)%Z then (None, compiled)
          else match reCompile pattern with
               | None => (None, compiled)
               | Some re =>
                   let compiled := if (maxCompiledPatterns <=? Z.of_nat (size compiled))%Z
                                   then ∅ else compiled in
                   (Some re, <[pattern := re]> compiled)
               end
      end
  end.

(** ** Specification: compilation without a cache *)

Definition compileUncached (pattern : gostr) : option regexp :=
  match reInsts pattern with
  | None => None
  | Some n => if (maxPatternProgramInsts <? n)%Z then None else reCompile pattern
  end.

(** Invariant of the map: bounded, and every entry is what compiling its key
    gives. *)
Definition CacheOk (compiled : gmap gostr regexp) : Prop :=
  (Z.of_nat (size compiled) ≤ maxCompiledPatterns)%Z /\
  map_Forall (fun p re => compileUncached p = Some re) compiled.

Lemma CacheOk_empty : CacheOk ∅.
Proof. split; [by rewrite map_size_empty|apply map_Forall_empty]. Qed.

Lemma CacheOk_insert c p re :
  CacheOk c -> c !! p = None -> (Z.of_nat (size c) < maxCompiledPatterns)%Z ->
  compileUncached p = Some re -> CacheOk (<[p := re]> c).
Proof.
  intros [Hs Hc] Hp Hlt Hre. split.
  - rewrite map_size_insert_None by done. lia.
  - by apply map_Forall_insert_2.
Qed.

Lemma compilePattern_uncached p c :
  CacheOk c -> (compilePattern p c).1 = compileUncached p /\ CacheOk (compilePattern p c).2.
Proof.
  intros Hc. unfold compilePattern. destruct (c !! p) as [re|] eqn:E.
  { split; [|done]. destruct Hc as [_ Hc]. symmetry. exact (Hc _ _ E). }
  assert (Hu : compileUncached p = compileUncached p) by done.
  unfold compileUncached at 1.
  destruct (reInsts p) as [n|] eqn:E1; [|done].
  destruct (maxPatternProgramInsts <? n)%Z eqn:E2; [done|].
  destruct (reCompile p) as [re|] eqn:E3; [|done]. split; [done|]. simpl.
  assert (compileUncached p = Some re) by (unfold compileUncached; by rewrite E1, E2).
  destruct (Z.leb_spec maxCompiledPatterns (Z.of_nat (size c))); apply CacheOk_insert;
    rewrite ?map_size_empty; try done; try apply CacheOk_empty; apply lookup_empty.
Qed.

Lemma validatePattern_compiles `{!RegexLaws} comparator value pattern :
  patternFor comparator value = (pattern, true) ->
  validatePattern comparator value = None -> is_Some (compileUncached pattern).
Proof.
  unfold validatePattern, compileUncached. intros ->. simpl.
  destruct (reInsts pattern) as [n|] eqn:E; [|done].
  destruct (maxPatternProgramInsts <? n)%Z; [done|]. intros _.
  apply reCompile_defined. by rewrite E.
Qed.

End Patterns.

#[export] Hint Resolve CacheOk_empty : kypost.

(** ** An executable engine for the glob fragment *)

Module GlobEngine.

(** Literal, any rune, any run of runes. *)
Inductive item := ILit (r : Z) | IAny | IStar.
Record glob_re := mkRe { anchorStart : bool; items : list item; anchorEnd : bool }.

(** Items up to the end of the pattern or a final dollar; [None] outside the
    fragment. *)
Fixpoint parseItems (s : gostr) : option (list item * bool) :=
  match s with
  | [] => Some ([], false)
  | 36 :: [] => Some ([], true)
  | 92 :: c :: s' => prod_map (cons (ILit c)) id <$> parseItems s'
  | 46 :: 42 :: s' => prod_map (cons IStar) id <$> parseItems s'
  | 46 :: s' => prod_map (cons IAny) id <$> parseItems s'
  | c :: s' => if bool_decide (c ∈ regexSpecials) then None
               else prod_map (cons (ILit c)) id <$> parseItems s'
  end%Z.

Definition parseRe (p : gostr) : option glob_re :=
  if hasPrefix ($"(?is)") p then
    let p := drop 5 p in
    let '(a, p) := match p with 94%Z :: p' => (true, p') | _ => (false, p) end in
    '(its, e) ← parseItems p; Some (mkRe a its e)
  else None.

Section Match.
Context {U : Unicode}.

Fixpoint matchItems (its : list item) (e : bool) (s : gostr) : bool :=
  match its with
  | [] => match s with [] => true | _ => negb e end
  | ILit r :: its => match s with c :: s' => (foldRune c =? foldRune r)%Z && matchItems its e s' | [] => false end
  | IAny :: its => match s with _ :: s' => matchItems its e s' | [] => false end
  | IStar :: its =>
      (fix star (s : gostr) : bool :=
         matchItems its e s || match s with _ :: s' => star s' | [] => false end) s
  end.

Fixpoint matchAnywhere (its : list item) (e : bool) (s : gostr) : bool :=
  matchItems its e s || match s with _ :: s' => matchAnywhere its e s' | [] => false end.

#[export] Instance engine : RegexEngine := {|
  regexp := glob_re;
  reInsts p := (fun re => Z.of_nat (length (items re)) + 2)%Z <$> parseRe p;
  reCompile := parseRe;
  reMatch re s := if anchorStart re then matchItems (items re) (anchorEnd re) s
                  else matchAnywhere (items re) (anchorEnd re) s;
|}.

#[export] Instance engine_laws : RegexLaws.
Proof. split. intros p. unfold reInsts, reCompile, engine. destruct (parseRe p); split; intros [? [=]]; eauto. Qed.

(** Sieve's [:matches]: [*] is any run of runes, [?] exactly one, the rest are
    themselves up to case. *)
Fixpoint globMatch (pattern s : gostr) : bool :=
  match pattern with
  | [] => match s with [] => true | _ => false end
  | r :: pat =>
      if (r =? 42)%Z then
        (fix star (s : gostr) : bool :=
           globMatch pat s || match s with _ :: s' => star s' | [] => false end) s
      else match s with
           | c :: s' => ((r =? 63)%Z || (foldRune c =? foldRune r)%Z) && globMatch pat s'
           | [] => false
           end
  end.

Definition globItem (r : Z) : item :=
  if (r =? 42)%Z then IStar else if (r =? 63)%Z then IAny else ILit r.

Lemma parseItems_lit c s :
  c ∉ regexSpecials -> parseItems (c :: s) = prod_map (cons (ILit c)) id <$> parseItems s.
Proof.
  intros Hc. assert (c ≠ 92 /\ c ≠ 46 /\ c ≠ 36)%Z as (H1 & H2 & H3).
  { split_and!; intros ->; apply Hc; vm_compute; set_solver. }
  simpl. case_bool_decide as E; [done|].
  repeat (case_match; simplify_eq; try done).
Qed.

Lemma dot_not_star s : head s ≠ Some 42%Z ->
  parseItems (46%Z :: s) = prod_map (cons IAny) id <$> parseItems s.
Proof. simpl. intros H. destruct s as [|x s]; [done|]. repeat (case_match; simplify_eq; try done). Qed.

Lemma wildcardToRegexp_cons r p :
  wildcardToRegexp (r :: p) =
  (if (r =? 42)%Z then $".*" else if (r =? 63)%Z then $"." else quoteMetaRune r) ++ wildcardToRegexp p.
Proof. done. Qed.

Lemma wildcard_head p : head (wildcardToRegexp p ++ $"$") ≠ Some 42%Z.
Proof.
  destruct p as [|r p]; [done|]. rewrite wildcardToRegexp_cons.
  unfold quoteMetaRune. destruct (r =? 42)%Z eqn:E; [done|].
  destruct (r =? 63)%Z; [done|]. case_bool_decide; [done|].
  simpl. intros [= ->]. done.
Qed.

(** wildcardToRegexp escapes exactly the metacharacters: the engine reads back
    one item per rune of the glob, anchored at the end. *)
Lemma parse_wildcard p : parseItems (wildcardToRegexp p ++ $"$") = Some (globItem <$> p, true).
Proof.
  induction p as [|r p IH]; [done|].
  rewrite wildcardToRegexp_cons, <- app_assoc. csimpl. unfold globItem at 1.
  destruct (r =? 42)%Z eqn:E1; [|destruct (r =? 63)%Z eqn:E2].
  - change (parseItems (46%Z :: 42%Z :: (wildcardToRegexp p ++ $"$")) = Some (IStar :: (globItem <$> p), true)).
    cbn [parseItems]. by rewrite IH.
  - change (parseItems (46%Z :: (wildcardToRegexp p ++ $"$")) = Some (IAny :: (globItem <$> p), true)).
    rewrite dot_not_star by apply wildcard_head. by rewrite IH.
  - unfold quoteMetaRune. case_bool_decide.
    + change (parseItems (92%Z :: r :: (wildcardToRegexp p ++ $"$")) = Some (ILit r :: (globItem <$> p), true)).
      cbn [parseItems]. by rewrite IH.
    + change (parseItems (r :: (wildcardToRegexp p ++ $"$")) = Some (ILit r :: (globItem <$> p), true)).
      rewrite parseItems_lit by done. by rewrite IH.
Qed.

Lemma matchItems_glob p s : matchItems (globItem <$> p) true s = globMatch p s.
Proof.
  revert s. induction p as [|r p IH]; intros s; [by destruct s|].
  csimpl. unfold globItem at 1.
  destruct (r =? 42)%Z eqn:E1.
  - cbn [matchItems].
    induction s as [|c s IHs]; rewrite IH; [done|]. f_equal. exact IHs.
  - destruct (r =? 63)%Z eqn:E2; destruct s; simpl; rewrite ?E1, ?E2; simpl; by rewrite ?IH.
Qed.

(** The "matches" comparator's pattern always compiles in this engine, and
    matches exactly the glob. *)
Lemma wildcard_pattern_matches value s :
  (utf8Len value <= 512)%Z ->
  let '(pattern, _) := patternFor ($"matches") value in
  exists re, compileUncached pattern = Some re /\ reMatch re s = globMatch value s.
Proof.
  intros Hlen. change (patternFor ($"matches") value) with ($"(?is)^" ++ wildcardToRegexp value ++ $"$", true).
  cbv beta iota.
  assert (E : parseRe ($"(?is)^" ++ wildcardToRegexp value ++ $"$") = Some (mkRe true (globItem <$> value) true)).
  { unfold parseRe. change (hasPrefix ($"(?is)") ($"(?is)^" ++ wildcardToRegexp value ++ $"$")) with true.
    cbv iota. change (drop 5 ($"(?is)^" ++ wildcardToRegexp value ++ $"$")) with (94%Z :: (wildcardToRegexp value ++ $"$")).
    cbv iota zeta. by rewrite parse_wildcard. }
  assert (Hn : (Z.of_nat (length value) <= utf8Len value)%Z).
  { clear. induction value as [|r v IH]; simpl; [lia|].
    unfold utf8LenRune. break_match; lia. }
  exists (mkRe true (globItem <$> value) true). split.
  - unfold compileUncached, reInsts, reCompile, engine. rewrite E. csimpl.
    rewrite length_fmap. destruct (maxPatternProgramInsts <? _)%Z eqn:L; [|done].
    apply Z.ltb_lt in L. unfold maxPatternProgramInsts in L. lia.
  - simpl. apply matchItems_glob.
Qed.

End Match.
End GlobEngine.
