(* ===== verification/RulesEngine.v ===== *)
(** * RulesEngine: rule evaluation and execution (backend/internal/rules/engine.go)

    [evaluate] walks the enabled rules in order and [applyOutcome] runs the
    resulting actions against the mail client.  The evaluator is written as the
    code is: short-circuiting loops that thread the context and the pattern
    cache.  [evalCond] is what it is meant to compute, Kleene's three-valued
    logic over the match tree, with no context and no cache.

    A Go context is modelled by the number of [ctx.Err()] checks that still
    return nil ([None]: it never ends); a deadline and a cancellation both end
    it for good at some check, so every run of the code is one such number. *)

From S2P Require Import Prelude GoText RulesModel RulesPattern.

Record EvalInput := {
  UID : Z;
  MessageID : gostr;
  From : gostr;
  To : gostr;
  CC : gostr;
  BCC : gostr;
  Subject : gostr;
  Body : gostr;
  Keywords : list gostr;
  Folder : gostr;
  Headers : option (gmap gostr (list gostr));   (* nil: never fetched *)
}.

Record Outcome := { Matched : list gostr; Applied : list Action; Stopped : bool }.
Definition noOutcome : Outcome := {| Matched := []; Applied := []; Stopped := false |}.

(** A context: whether it carries a deadline, and how many checks it passes. *)
Record context := { hasDeadline : bool; ctxLeft : option nat }.

(** [ctx.Err() != nil], and the context afterwards. *)
Definition ctxErr (left : option nat) : bool * option nat :=
  match left with
  | None => (false, None)
  | Some 0%nat => (true, Some 0%nat)
  | Some (S n) => (false, Some n)
  end.

Definition minLeft (a b : option nat) : option nat :=
  match a, b with
  | Some x, Some y => Some (Nat.min x y)
  | Some x, None | None, Some x => Some x
  | None, None => None
  end.

Section Engine.
Context {U : Unicode} {R : RegexEngine}.

(** The evaluator's state: the context and the compiled-pattern map. *)
Record est := mkEst { left : option nat; cache : gmap gostr regexp }.

Definition fieldValue (input : EvalInput) (field : gostr) : gostr :=
  let f := toLower (trimSpace field) in
  if f =s? $"from" then From input
  else if f =s? $"to" then To input
  else if f =s? $"cc" then CC input
  else if f =s? $"bcc" then BCC input
  else if f =s? $"subject" then Subject input
  else if f =s? $"body" then Body input
  else [].

(** matchesValue: (matched, evaluable). *)
Definition matchesValue (comparator candidate value : gostr) (c : gmap gostr regexp) :
    (bool * bool) * gmap gostr regexp :=
  let k := toLower (trimSpace comparator) in
  if k =s? $"exists" then ((negb (trimSpace candidate =s? []), true), c)
  else if k =s? $"is" then ((equalFold (trimSpace candidate) (trimSpace value), true), c)
  else if (k =s? $"matches") || (k =s? $"regex") then
    let '(pattern, _) := patternFor comparator value in
    let '(re, c) := compilePattern pattern c in
    match re with
    | None => ((false, false), c)
    | Some re => ((reMatch re candidate, true), c)
    end
  else ((contains (toLower candidate) (toLower value), true), c).

(** The loop over a multi-valued field's values. *)
Fixpoint valuesLoop (comparator value : gostr) (values : list gostr) (c : gmap gostr regexp) :
    (bool * bool) * gmap gostr regexp :=
  match values with
  | [] => ((false, true), c)
  | v :: values' =>
      let '((matched, ok), c) := matchesValue comparator v value c in
      if negb ok then ((false, false), c)
      else if matched then ((true, true), c)
      else valuesLoop comparator value values' c
  end.

Definition isAnyof (op : gostr) : bool := toLower (trimSpace op) =s? $"anyof".

(** The loop of matchGroup over its conditions, the condition test given. *)
Definition groupLoop (cond : Condition -> est -> (bool * bool) * est) (anyof : bool) :
    bool -> list Condition -> est -> (bool * bool) * est :=
  fix loop (known : bool) (cs : list Condition) (st : est) : (bool * bool) * est :=
    match cs with
    | [] => (if known then (negb anyof, true) else (false, false), st)
    | c :: cs' =>
        let '(cancelled, l) := ctxErr (left st) in
        let st := mkEst l (cache st) in
        if cancelled then ((false, false), st)
        else
          let '((m, ok), st) := cond c st in
          if negb ok then loop false cs' st
          else if Bool.eqb m anyof then ((m, true), st)
          else loop known cs' st
    end.

Definition leafMatches (input : EvalInput) (field header comparator value : gostr) (st : est) :
    (bool * bool) * est :=
  let f := toLower (trimSpace field) in
  let lift '(r, c) := (r, mkEst (left st) c) in
  if (f =s? $"keyword") || (f =s? $"header") then
    if f =s? $"header" then
      match Headers input with
      | None => ((false, false), st)
      | Some hs =>
          lift (valuesLoop comparator value
                  (default [] (hs !! canonicalMIMEHeaderKey (trimSpace header))) (cache st))
      end
    else lift (valuesLoop comparator value (Keywords input) (cache st))
  else lift (matchesValue comparator (fieldValue input field) value (cache st)).

(** conditionMatches: (matched, known). *)
Fixpoint conditionMatches (input : EvalInput) (c : Condition) (st : est) : (bool * bool) * est :=
  match c with
  | mkCondition negate group field header comparator value =>
      let '((result, evaluable), st) :=
        match group with
        | Some (mkGroup op cs) => groupLoop (conditionMatches input) (isAnyof op) true cs st
        | None => leafMatches input field header comparator value st
        end in
      if negb evaluable then ((false, false), st) else ((xorb result negate, true), st)
  end.

(** matchGroup: (matched, known). *)
Definition matchGroup (input : EvalInput) (g : MatchGroup) (st : est) : (bool * bool) * est :=
  groupLoop (conditionMatches input) (isAnyof (Op g)) true (Conditions g) st.

Definition folderInScope (scope : RuleScope) (folder : gostr) : bool :=
  match Folders scope with
  | [] => true
  | fs => existsb (fun f => equalFold (trimSpace f) (trimSpace folder)) fs
  end.

Definition hasStop (actions : list Action) : bool :=
  existsb (fun a => aType a =s? $"stop") actions.

(** The rule loop of Evaluate. *)
Fixpoint evaluateLoop (input : EvalInput) (sorted : list Rule) (outcome : Outcome) (st : est) :
    Outcome * est :=
  match sorted with
  | [] => (outcome, st)
  | r :: rest =>
      let '(cancelled, l) := ctxErr (left st) in
      let st := mkEst l (cache st) in
      if cancelled then (outcome, st)
      else if negb (Enabled r) then evaluateLoop input rest outcome st
      else if negb (folderInScope (Scope r) (Folder input)) then evaluateLoop input rest outcome st
      else
        let '((matched, known), st) := matchGroup input (Match r) st in
        if negb matched || negb known then evaluateLoop input rest outcome st
        else
          let outcome := {| Matched := Matched outcome ++ [ruleName r];
                            Applied := Applied outcome ++ Actions r;
                            Stopped := Stopped outcome || hasStop (Actions r) |} in
          if Stopped outcome then (outcome, st) else evaluateLoop input rest outcome st
  end.

Definition orderLess (a b : Rule) : bool := (Order a <? Order b)%Z.

(** Evaluate.  [budget] is the number of checks that pass before
    [maxEvaluationBudget] elapses; it bounds only a context without a deadline. *)
Definition evaluate (ctx : context) (budget : option nat) (input : EvalInput)
    (activeRules : list Rule) (c : gmap gostr regexp) : Outcome * est :=
  let l := if hasDeadline ctx then ctxLeft ctx else minLeft (ctxLeft ctx) budget in
  evaluateLoop input (sortStable orderLess activeRules) noOutcome (mkEst l c).

(** HeaderNames: the canonical names of the headers the enabled rules test. *)
Fixpoint walkHeaders (c : Condition) (seen : gset gostr) : gset gostr :=
  match c with
  | mkCondition _ (Some (mkGroup _ cs)) _ _ _ _ => foldl (fun s c => walkHeaders c s) seen cs
  | mkCondition _ None field header _ _ =>
      if equalFold (trimSpace field) ($"header")
      then {[ canonicalMIMEHeaderKey (trimSpace header) ]} ∪ seen else seen
  end.
Definition headerNames (rs : list Rule) : list gostr :=
  let seen := foldl (fun s r => if Enabled r
                                then foldl (fun s c => walkHeaders c s) s (Conditions (Match r))
                                else s) (∅ : gset gostr) rs in
  sortStable strLtb (elements seen).

(** ** Reference semantics: three-valued logic, no context, no cache *)

Definition testValue (comparator candidate value : gostr) : option bool :=
  let k := toLower (trimSpace comparator) in
  if k =s? $"exists" then Some (negb (trimSpace candidate =s? []))
  else if k =s? $"is" then Some (equalFold (trimSpace candidate) (trimSpace value))
  else if (k =s? $"matches") || (k =s? $"regex") then
    (fun re => reMatch re candidate) <$> compileUncached (patternFor comparator value).1
  else Some (contains (toLower candidate) (toLower value)).

(** Some value matches; unknown when there is one to test and it cannot be. *)
Fixpoint testValues (comparator value : gostr) (values : list gostr) : option bool :=
  match values with
  | [] => Some false
  | v :: values' =>
      match testValue comparator v value with
      | None => None
      | Some true => Some true
      | Some false => testValues comparator value values'
      end
  end.

Definition evalLeaf (input : EvalInput) (field header comparator value : gostr) : option bool :=
  let f := toLower (trimSpace field) in
  if f =s? $"header" then
    hs ← Headers input;
    testValues comparator value (default [] (hs !! canonicalMIMEHeaderKey (trimSpace header)))
  else if f =s? $"keyword" then testValues comparator value (Keywords input)
  else testValue comparator (fieldValue input field) value.

(** Kleene disjunction ([anyof]) and conjunction of truth values; [unk] says an
    unknown was already met. *)
Definition kleene (anyof unk : bool) (l : list (option bool)) : option bool :=
  if existsb (fun t => bool_decide (t = Some anyof)) l then Some anyof
  else if unk || existsb (fun t => bool_decide (t = None)) l then None
  else Some (negb anyof).

Fixpoint evalCond (input : EvalInput) (c : Condition) : option bool :=
  match c with
  | mkCondition negate group field header comparator value =>
      (fun b => xorb b negate) <$>
      match group with
      | Some (mkGroup op cs) => kleene (isAnyof op) false (evalCond input <$> cs)
      | None => evalLeaf input field header comparator value
      end
  end.
Definition evalGroup (input : EvalInput) (g : MatchGroup) : option bool :=
  kleene (isAnyof (Op g)) false (evalCond input <$> Conditions g).

(** A rule fires on a message. *)
Definition fires (input : EvalInput) (r : Rule) : bool :=
  Enabled r && folderInScope (Scope r) (Folder input)
  && bool_decide (evalGroup input (Match r) = Some true).

(** The rules that fire, in order, up to and including the first that stops. *)
Fixpoint throughStop (l : list Rule) : list Rule :=
  match l with
  | [] => []
  | r :: l' => r :: (if hasStop (Actions r) then [] else throughStop l')
  end.
Definition firedRules (input : EvalInput) (rs : list Rule) : list Rule :=
  throughStop (List.filter (fires input) (sortStable orderLess rs)).
Definition outcomeOf (fired : list Rule) : Outcome :=
  {| Matched := ruleName <$> fired;
     Applied := fired ≫= Actions;
     Stopped := existsb (fun r => hasStop (Actions r)) fired |}.

(** ** The evaluator computes the reference semantics *)

(** Relation between what the code returned and the truth value: a known answer
    is the truth value; an unknown one is reported as no match, and either the
    truth value is unknown or the context has ended. *)
Definition Agrees (st' : est) (r : bool * bool) (t : option bool) : Prop :=
  match r with
  | (m, true) => t = Some m
  | (m, false) => m = false /\ (t = None \/ left st' = Some 0%nat)
  end.

(** What one evaluation step does to the state. *)
Definition StepOk (st st' : est) : Prop :=
  (CacheOk (cache st) -> CacheOk (cache st')) /\ (left st = None -> left st' = None) /\
  (left st = Some 0%nat -> left st' = Some 0%nat).

Lemma StepOk_trans a b c : StepOk a b -> StepOk b c -> StepOk a c.
Proof. unfold StepOk. naive_solver. Qed.

Lemma ctxErr_step st : StepOk st (mkEst (ctxErr (left st)).2 (cache st)).
Proof. unfold StepOk, ctxErr. destruct st as [[[|]|] ?]; naive_solver. Qed.

Lemma matchesValue_ok k cand v c :
  CacheOk c ->
  (matchesValue k cand v c).1 = match testValue k cand v with Some b => (b, true) | None => (false, false) end
  /\ CacheOk (matchesValue k cand v c).2.
Proof.
  intros Hc. unfold matchesValue, testValue.
  destruct (_ =s? $"exists"); [done|]. destruct (_ =s? $"is"); [done|].
  destruct (_ || _); [|done]. destruct (patternFor k v) as [p b]. simpl.
  pose proof (compilePattern_uncached p c Hc) as [E1 E2].
  destruct (compilePattern p c) as [re c']. simpl in *. subst re.
  by destruct (compileUncached p).
Qed.

Lemma valuesLoop_ok k v vs c :
  CacheOk c ->
  (valuesLoop k v vs c).1 = match testValues k v vs with Some b => (b, true) | None => (false, false) end
  /\ CacheOk (valuesLoop k v vs c).2.
Proof.
  revert c. induction vs as [|x vs IH]; intros c Hc; simpl; [done|].
  pose proof (matchesValue_ok k x v c Hc) as [E1 E2].
  destruct (matchesValue k x v c) as [[m ok] c']. simpl in *.
  destruct (testValue k x v) as [[|]|]; simplify_eq; simpl; auto.
Qed.

Lemma leafMatches_ok input f h k v st :
  CacheOk (cache st) ->
  let '(r, st') := leafMatches input f h k v st in
  Agrees st' r (evalLeaf input f h k v) /\ StepOk st st'.
Proof.
  intros Hc.
  assert (key : forall x t, x.1 = match t with Some b => (b, true) | None => (false, false) end ->
    CacheOk x.2 -> let '(r, st') := (let '(r, c) := x in (r, mkEst (left st) c)) in Agrees st' r t /\ StepOk st st').
  { intros [[m ok] c'] t E Hc'. simpl in *. split; [|unfold StepOk; naive_solver].
    destruct t as [b|]; simplify_eq; simpl; auto. }
  unfold leafMatches, evalLeaf.
  destruct (_ =s? $"header") eqn:Eh; [rewrite orb_true_r|rewrite orb_false_r].
  - destruct (Headers input) as [hs|]; simpl.
    + apply key; by apply valuesLoop_ok.
    + split; [auto|]. unfold StepOk; naive_solver.
  - destruct (_ =s? $"keyword"); apply key; by first [apply valuesLoop_ok|apply matchesValue_ok].
Qed.

Lemma groupLoop_ended cond anyof known cs st :
  left st = Some 0%nat -> known = false \/ cs ≠ [] ->
  groupLoop cond anyof known cs st = ((false, false), st).
Proof.
  destruct st as [l c]. simpl. intros -> Hk. destruct cs as [|x cs]; simpl; [|done].
  by destruct Hk as [->|].
Qed.

Lemma kleene_cons anyof unk t l :
  kleene anyof unk (t :: l) =
  if bool_decide (t = Some anyof) then Some anyof
  else kleene anyof (unk || bool_decide (t = None)) l.
Proof.
  unfold kleene. simpl. destruct (bool_decide (t = Some anyof)); [done|]. simpl.
  destruct (existsb _ l); [done|]. by rewrite orb_assoc.
Qed.

Lemma groupLoop_ok input anyof cs known st :
  Forall (fun c => forall st, CacheOk (cache st) ->
    let '(r, st') := conditionMatches input c st in
    Agrees st' r (evalCond input c) /\ StepOk st st') cs ->
  CacheOk (cache st) ->
  let '(r, st') := groupLoop (conditionMatches input) anyof known cs st in
  Agrees st' r (kleene anyof (negb known) (evalCond input <$> cs)) /\ StepOk st st'.
Proof.
  intros Hcs. revert known st. induction Hcs as [|c cs Hc Hcs IH]; intros known st Hst.
  { simpl. split; [|unfold StepOk; naive_solver]. destruct known; simpl; auto. }
  pose proof (ctxErr_step st) as Hstep. csimpl.
  destruct (ctxErr (left st)) as [cancelled l] eqn:El. destruct cancelled.
  { split; [|done]. simpl. split; [done|right].
    unfold ctxErr in El. destruct (left st) as [[|]|]; simplify_eq; done. }
  specialize (Hc (mkEst l (cache st))). simpl in Hc, Hstep.
  destruct (conditionMatches input c (mkEst l (cache st))) as [[m ok] st2].
  destruct (Hc Hst) as [Ha Hs2].
  assert (Hst2 : CacheOk (cache st2)) by (apply Hs2; done).
  pose proof (StepOk_trans _ _ _ Hstep Hs2) as Hs.
  rewrite kleene_cons. destruct ok; simpl in *.
  - rewrite Ha, (bool_decide_eq_false_2 (Some m = None)), orb_false_r by done.
    destruct (Bool.eqb m anyof) eqn:Em.
    + apply Bool.eqb_prop in Em as ->. by rewrite bool_decide_eq_true_2.
    + apply Bool.eqb_false_iff in Em. rewrite bool_decide_eq_false_2 by congruence.
      specialize (IH known st2 Hst2). destruct (groupLoop _ _ known cs st2) as [r st3].
      destruct IH. eauto using StepOk_trans.
  - destruct Ha as [-> [Ht|Hend]].
    + rewrite Ht, bool_decide_eq_false_2, bool_decide_eq_true_2, orb_true_r by done.
      specialize (IH false st2 Hst2). destruct (groupLoop _ _ false cs st2) as [r st3].
      destruct IH. eauto using StepOk_trans.
    + rewrite groupLoop_ended by auto. split; [|done]. simpl. auto.
Qed.

Lemma conditionMatches_ok input c st :
  CacheOk (cache st) ->
  let '(r, st') := conditionMatches input c st in
  Agrees st' r (evalCond input c) /\ StepOk st st'.
Proof.
  revert st. tree_induction c; intros st Hst; simpl.
  - pose proof (leafMatches_ok input f h k v st Hst) as Hl.
    destruct (leafMatches input f h k v st) as [[m ok] st']. destruct Hl as [Ha Hs].
    destruct ok; simpl in *; [by rewrite Ha|].
    split; [|done]. destruct Ha as [_ [->|?]]; auto.
  - pose proof (groupLoop_ok input (isAnyof op) cs true st IH Hst) as Hl.
    destruct (groupLoop _ _ true cs st) as [[m ok] st']. destruct Hl as [Ha Hs].
    destruct ok; simpl in *; [by rewrite Ha|].
    split; [|done]. destruct Ha as [_ [->|?]]; auto.
Qed.

Lemma matchGroup_ok input g st :
  CacheOk (cache st) ->
  let '(r, st') := matchGroup input g st in
  Agrees st' r (evalGroup input g) /\ StepOk st st'.
Proof.
  intros Hst. unfold matchGroup, evalGroup.
  apply (groupLoop_ok input (isAnyof (Op g)) (Conditions g) true st); [|done].
  apply Forall_forall. intros c _ st'. apply conditionMatches_ok.
Qed.

End Engine.
