(* ===== verification/RulesValidate.v ===== *)
(** * RulesValidate: the gate every rule passes (backend/internal/rules/validate.go)

    [validateMatchShape] bounds a match tree (sieve.go), [validateRule] adds the
    checks on the name and the action list, [filterRunnable] applies it to a
    stored list.  The specifications [ShapeOk] and [ActionsOk] say which rules
    pass; the theorems show that the gate accepts exactly those. *)

From S2P Require Import Prelude GoText RulesModel RulesPattern RulesEngine.

(** ** Header names (backend/internal/adapters/imap/protocol_safety.go) *)

Definition atomSpecials : gostr := [40; 41; 123; 32; 37; 42; 34; 92; 93]%Z.
Definition maxHeaderFieldNameLen : Z := 76.

(** ValidateHeaderFieldName returns nil. *)
Definition validHeaderFieldName (name : gostr) : bool :=
  negb (name =s? []) && (utf8Len name <=? maxHeaderFieldNameLen)%Z
  && forallb (fun r => negb ((r <? 33)%Z || (126 <? r)%Z || (r =? 58)%Z || bool_decide (r ∈ atomSpecials))) name.

Definition maxTestNestingDepth : Z := 32.
Definition maxMatchConditions : Z := 300.
Definition maxConditionValueBytes : Z := 512.
Definition maxActionsPerRule : Z := 20.
Definition maxRuleNameBytes : Z := 200.
Definition maxActionValueBytes : Z := 512.

Definition validHeaderAddressFields (f : gostr) : bool :=
  bool_decide (f ∈ [$"from"; $"to"; $"cc"; $"bcc"; $"subject"]).

Definition knownActionTypes (t : gostr) : bool :=
  bool_decide (t ∈ [$"keyword"; $"unkeyword"; $"move"; $"read"; $"archive"; $"spam"; $"delete"; $"stop"]).
Definition actionsNeedingValue (t : gostr) : bool :=
  bool_decide (t ∈ [$"keyword"; $"unkeyword"; $"move"]).

Inductive shape_error :=
  | NestingTooDeep
  | TooManyConditions
  | InvalidHeaderName (h : gostr)
  | ConditionValueTooLong
  | BadPattern (e : pattern_error).

Inductive rule_error :=
  | NameRequired
  | NameTooLong
  | BadShape (e : shape_error)
  | TooManyActions
  | UnsupportedActionType (t : gostr)
  | ActionValueTooLong (t : gostr)
  | ActionNeedsValue (t : gostr)
  | TwoVisibilityActions (second : gostr)
  | VisibilityNotLast.

Section Validate.
Context {U : Unicode} {R : RegexEngine}.

Definition normalizeField (f : gostr) : gostr := toLower (trimSpace f).

Definition validCustomHeader (f : gostr) : bool :=
  let n := normalizeField f in
  negb (n =s? $"body") && negb (n =s? $"keyword") && negb (validHeaderAddressFields n)
  && validHeaderFieldName (trimSpace f).

(** The loop over a group's conditions, threading the shared counter. *)
Definition shapeLoop (cond : Condition -> Z -> res shape_error Z) :
    list Condition -> Z -> res shape_error Z :=
  fix loop (cs : list Condition) (count : Z) : res shape_error Z :=
    match cs with
    | [] => Ok count
    | c :: cs' => n ← cond c count; loop cs' n
    end.

Definition validateLeafShape (field header comparator value : gostr) (count : Z) : res shape_error Z :=
  if equalFold (trimSpace field) ($"header") && negb (validCustomHeader header)
  then Err (InvalidHeaderName header)
  else if (maxConditionValueBytes <? utf8Len value)%Z then Err ConditionValueTooLong
  else match validatePattern comparator value with
       | Some e => Err (BadPattern e)
       | None => Ok count
       end.

(** The loop body of validateMatchGroupShape for one condition of a group at
    [depth]; the depth check of the recursive call is the one on a nested group. *)
Fixpoint validateConditionShape (depth : Z) (c : Condition) (count : Z) : res shape_error Z :=
  let count := (count + 1)%Z in
  if (maxMatchConditions <? count)%Z then Err TooManyConditions
  else match c with
       | mkCondition _ (Some (mkGroup _ cs)) _ _ _ _ =>
           if (maxTestNestingDepth <? depth + 1)%Z then Err NestingTooDeep
           else shapeLoop (validateConditionShape (depth + 1)) cs count
       | mkCondition _ None field header comparator value =>
           validateLeafShape field header comparator value count
       end.

Definition validateMatchGroupShape (m : MatchGroup) (depth count : Z) : res shape_error Z :=
  if (maxTestNestingDepth <? depth)%Z then Err NestingTooDeep
  else shapeLoop (validateConditionShape depth) (Conditions m) count.

Definition validateMatchShape (m : MatchGroup) : option shape_error :=
  match validateMatchGroupShape m 1 0 with Ok _ => None | Err e => Some e end.

Definition isVisibilityChanging (actionType : gostr) : bool :=
  bool_decide (toLower (trimSpace actionType) ∈ [$"read"; $"move"; $"archive"; $"spam"; $"delete"]).

(** The action loop of ValidateRule; [visibilityAt] is -1 until one is seen. *)
Fixpoint validateActions (i visibilityAt : Z) (actions : list Action) : res rule_error Z :=
  match actions with
  | [] => Ok visibilityAt
  | a :: rest =>
      if negb (knownActionTypes (aType a)) then Err (UnsupportedActionType (aType a))
      else if (maxActionValueBytes <? utf8Len (aValue a))%Z then Err (ActionValueTooLong (aType a))
      else if actionsNeedingValue (aType a) && (trimSpace (aValue a) =s? []) then Err (ActionNeedsValue (aType a))
      else if negb (isVisibilityChanging (aType a)) then validateActions (i + 1) visibilityAt rest
      else if (0 <=? visibilityAt)%Z then Err (TwoVisibilityActions (aType a))
      else validateActions (i + 1) i rest
  end.

(** ValidateRule: nil is [None]. *)
Definition validateRule (r : Rule) : option rule_error :=
  if trimSpace (ruleName r) =s? [] then Some NameRequired
  else if (maxRuleNameBytes <? utf8Len (ruleName r))%Z then Some NameTooLong
  else match validateMatchShape (Match r) with
  | Some e => Some (BadShape e)
  | None =>
    if (maxActionsPerRule <? Z.of_nat (length (Actions r)))%Z then Some TooManyActions
    else match validateActions 0 (-1) (Actions r) with
    | Err e => Some e
    | Ok visibilityAt =>
        if (0 <=? visibilityAt)%Z then
          let last_ := (Z.of_nat (length (Actions r)) - 1)%Z in
          let trailingStop := (last_ =? visibilityAt + 1)%Z
            && match last (Actions r) with Some a => aType a =s? $"stop" | None => false end in
          if negb (visibilityAt =? last_)%Z && negb trailingStop then Some VisibilityNotLast
          else None
        else None
    end
  end.

(** ruleLabel names a rule in a log line. *)
Definition ruleLabel (r : Rule) : gostr :=
  let name := trimSpace (ruleName r) in
  if negb (name =s? []) then name
  else let id := trimSpace (ruleID r) in
       if negb (id =s? []) then $"rule " ++ id else $"(unnamed rule)".

(** FilterRunnable: the rules safe to execute, and the label and reason of each
    rejected one. *)
Fixpoint filterRunnable (list_ : list Rule) : list Rule * list (gostr * rule_error) :=
  match list_ with
  | [] => ([], [])
  | r :: rest =>
      let '(out, rejected) := filterRunnable rest in
      match validateRule r with
      | Some e => (out, (ruleLabel r, e) :: rejected)
      | None => (r :: out, rejected)
      end
  end.

(** ** Specifications *)

Definition LeafOk (field header comparator value : gostr) : Prop :=
  (equalFold (trimSpace field) ($"header") = true -> validCustomHeader header = true) /\
  (utf8Len value <= maxConditionValueBytes)%Z /\
  validatePattern comparator value = None.

Fixpoint LeavesOk (c : Condition) : Prop :=
  match c with
  | mkCondition _ (Some (mkGroup _ cs)) _ _ _ _ => foldr (fun c P => LeavesOk c /\ P) True cs
  | mkCondition _ None field header comparator value => LeafOk field header comparator value
  end.

Lemma LeavesOk_group n op cs f h k v :
  LeavesOk (mkCondition n (Some (mkGroup op cs)) f h k v) <-> Forall LeavesOk cs.
Proof.
  simpl. induction cs as [|c cs IH]; simpl; [split; [constructor|done]|].
  by rewrite Forall_cons, IH.
Qed.

Definition ShapeOk (m : MatchGroup) : Prop :=
  (Z.of_nat (groupDepth m) <= maxTestNestingDepth)%Z /\
  (Z.of_nat (groupNodes m) <= maxMatchConditions)%Z /\
  Forall LeavesOk (Conditions m).

Definition ActionOk (a : Action) : Prop :=
  knownActionTypes (aType a) = true /\ (utf8Len (aValue a) <= maxActionValueBytes)%Z /\
  (actionsNeedingValue (aType a) = true -> trimSpace (aValue a) ≠ []).

Definition Visible (a : Action) : Prop := isVisibilityChanging (aType a) = true.

(** At most one visibility-changing action, last or followed by one stop. *)
Definition VisibilityLast (as_ : list Action) : Prop :=
  Forall (fun a => ~ Visible a) as_ \/
  exists pre v post, as_ = pre ++ v :: post /\ Forall (fun a => ~ Visible a) pre /\ Visible v /\
    (post = [] \/ exists s, post = [s] /\ aType s = $"stop").

Definition ActionsOk (as_ : list Action) : Prop :=
  (Z.of_nat (length as_) <= maxActionsPerRule)%Z /\ Forall ActionOk as_ /\ VisibilityLast as_.

(** ** The shape gate accepts exactly the bounded trees *)

Lemma validateLeafShape_ok f h k v count n :
  validateLeafShape f h k v count = Ok n <-> n = count /\ LeafOk f h k v.
Proof.
  unfold validateLeafShape, LeafOk.
  destruct (equalFold _ _) eqn:E1, (validCustomHeader h) eqn:E2, (Z.ltb_spec maxConditionValueBytes (utf8Len v)),
    (validatePattern k v) eqn:E4; simpl; try naive_solver lia.
Qed.

Lemma shapeLoop_ok (cond : Condition -> Z -> res shape_error Z) (P : Condition -> Prop) cs count n :
  Forall (fun c => forall count n, (0 <= count <= maxMatchConditions)%Z ->
    cond c count = Ok n <-> n = (count + Z.of_nat (condNodes c))%Z /\ (n <= maxMatchConditions)%Z /\ P c) cs ->
  (0 <= count <= maxMatchConditions)%Z ->
  shapeLoop cond cs count = Ok n <->
  n = (count + Z.of_nat (list_sum (condNodes <$> cs)))%Z /\ (n <= maxMatchConditions)%Z /\ Forall P cs.
Proof.
  intros H. revert count. induction H as [|c cs Hc Hcs IH]; intros count Hr.
  { simpl. split; [intros [= ->]|intros (-> & _)]; [split_and!; [lia|lia|constructor]|f_equal; lia]. }
  simpl shapeLoop. rewrite res_bind_ok. csimpl. rewrite Forall_cons. split.
  - intros (a & Ha & Hl). apply Hc in Ha as (-> & ? & ?); [|done].
    apply IH in Hl as (-> & ? & ?); [|lia]. split_and!; [lia|lia|done|done].
  - intros (-> & ? & ? & ?). exists (count + Z.of_nat (condNodes c))%Z. split.
    + apply Hc; [done|]. split_and!; [done|lia|done].
    + apply IH; [lia|]. split_and!; [lia|lia|done].
Qed.

(** A condition fits below a group at [depth]. *)
Definition FitsAt (depth : Z) (c : Condition) : Prop :=
  (depth + Z.of_nat (condDepth c) <= maxTestNestingDepth)%Z /\ LeavesOk c.

Lemma FitsAt_group n op cs f h k v depth :
  (depth + 1 <= maxTestNestingDepth)%Z ->
  FitsAt depth (mkCondition n (Some (mkGroup op cs)) f h k v) <-> Forall (FitsAt (depth + 1)) cs.
Proof.
  intros Hd. unfold FitsAt. rewrite LeavesOk_group, Forall_and. f_equiv.
  assert (G : forall m, (depth + 1 + Z.of_nat m <= maxTestNestingDepth)%Z <-> (m <= Z.to_nat (maxTestNestingDepth - depth - 1))%nat) by lia.
  simpl condDepth. split.
  - intros H. assert (list_max (condDepth <$> cs) <= Z.to_nat (maxTestNestingDepth - depth - 1))%nat as Hm by lia.
    rewrite list_max_le, Forall_fmap in Hm. eapply Forall_impl; [exact Hm|]. intros x Hx. simpl in Hx. lia.
  - intros H. assert (list_max (condDepth <$> cs) <= Z.to_nat (maxTestNestingDepth - depth - 1))%nat; [|lia].
    rewrite list_max_le, Forall_fmap. eapply Forall_impl; [exact H|]. intros x Hx. simpl in *. lia.
Qed.

Lemma validateConditionShape_ok c depth count n :
  (depth <= maxTestNestingDepth)%Z -> (0 <= count <= maxMatchConditions)%Z ->
  validateConditionShape depth c count = Ok n <->
  n = (count + Z.of_nat (condNodes c))%Z /\ (n <= maxMatchConditions)%Z /\ FitsAt depth c.
Proof.
  revert depth count n. tree_induction c; intros depth count m Hd Hr; cbn [validateConditionShape].
  - destruct (Z.ltb_spec maxMatchConditions (count + 1)); [simpl; split; [done|lia]|].
    rewrite validateLeafShape_ok. unfold FitsAt. simpl. split; naive_solver lia.
  - destruct (Z.ltb_spec maxMatchConditions (count + 1)); [simpl; split; [done|lia]|].
    destruct (Z.ltb_spec maxTestNestingDepth (depth + 1)).
    { unfold FitsAt. simpl. split; [done|lia]. }
    rewrite FitsAt_group by done.
    rewrite (shapeLoop_ok _ (FitsAt (depth + 1))); [simpl; split; naive_solver lia| |lia].
    eapply Forall_impl; [exact IH|]. intros c Hc count' n' Hr'. by apply Hc.
Qed.

Lemma validateMatchShape_iff m : validateMatchShape m = None <-> ShapeOk m.
Proof.
  unfold validateMatchShape, validateMatchGroupShape, ShapeOk.
  change (maxTestNestingDepth <? 1)%Z with false. cbv iota.
  assert (HL : Forall (fun c => forall count n, (0 <= count <= maxMatchConditions)%Z ->
    validateConditionShape 1 c count = Ok n <->
    n = (count + Z.of_nat (condNodes c))%Z /\ (n <= maxMatchConditions)%Z /\ FitsAt 1 c) (Conditions m)).
  { apply Forall_forall. intros c _ count n Hr. by apply validateConditionShape_ok. }
  assert (Hroot : Forall (FitsAt 1) (Conditions m) <->
    (Z.of_nat (groupDepth m) <= maxTestNestingDepth)%Z /\ Forall LeavesOk (Conditions m)).
  { destruct m as [op cs]. rewrite <- (FitsAt_group false op cs [] [] [] [] 0) by done.
    unfold FitsAt, groupDepth. rewrite LeavesOk_group. simpl. done. }
  pose proof (shapeLoop_ok (validateConditionShape 1) (FitsAt 1) (Conditions m) 0) as HS.
  unfold groupNodes. destruct (shapeLoop _ _ 0) as [n|e] eqn:E.
  - split; [intros _|done]. destruct (HS n HL) as [HS1 _]; [done|].
    destruct (HS1 eq_refl) as (-> & ? & ?). tauto.
  - split; [done|]. intros (H1 & H2 & H3).
    destruct (HS (Z.of_nat (list_sum (condNodes <$> Conditions m))) HL) as [_ HS2]; [done|].
    discriminate HS2. tauto.
Qed.

(** ** The action gate *)

Lemma actionChecks (a : Action) {A} (k : res rule_error A) (v : A) :
  (if negb (knownActionTypes (aType a)) then Err (UnsupportedActionType (aType a))
   else if (maxActionValueBytes <? utf8Len (aValue a))%Z then Err (ActionValueTooLong (aType a))
   else if actionsNeedingValue (aType a) && (trimSpace (aValue a) =s? []) then Err (ActionNeedsValue (aType a))
   else k) = Ok v <-> ActionOk a /\ k = Ok v.
Proof.
  unfold ActionOk. destruct (knownActionTypes _); simpl; [|naive_solver].
  destruct (Z.ltb_spec maxActionValueBytes (utf8Len (aValue a))); [split; [done|lia]|].
  destruct (actionsNeedingValue _); simpl; [case_bool_decide|]; naive_solver.
Qed.

Lemma validateActions_seen i vis as_ v :
  (0 <= vis)%Z ->
  validateActions i vis as_ = Ok v <->
  Forall ActionOk as_ /\ Forall (fun a => ~ Visible a) as_ /\ v = vis.
Proof.
  intros Hv. revert i. induction as_ as [|a as_ IH]; intros i; cbn [validateActions].
  { split; [intros [= ->]|intros (_ & _ & ->)]; [split_and!; done|done]. }
  rewrite actionChecks, !Forall_cons. unfold Visible.
  destruct (isVisibilityChanging (aType a)); simpl; [|rewrite IH; naive_solver].
  destruct (Z.leb_spec 0 vis); [naive_solver|lia].
Qed.

Lemma validateActions_unseen i vis as_ v :
  (vis < 0)%Z -> (0 <= i)%Z ->
  validateActions i vis as_ = Ok v <->
  Forall ActionOk as_ /\
  ((Forall (fun a => ~ Visible a) as_ /\ v = vis) \/
   exists pre x post, as_ = pre ++ x :: post /\ Forall (fun a => ~ Visible a) pre /\ Visible x /\
     Forall (fun a => ~ Visible a) post /\ v = (i + Z.of_nat (length pre))%Z).
Proof.
  intros Hv. revert i. induction as_ as [|a as_ IH]; intros i Hi; cbn [validateActions].
  { split; [intros [= ->]; auto|]. intros (_ & [[_ ->]|(pre & x & post & E & _)]); [done|].
    by destruct pre. }
  rewrite actionChecks, !Forall_cons.
  destruct (isVisibilityChanging (aType a)) eqn:Ea; simpl.
  - destruct (Z.leb_spec 0 vis); [lia|]. rewrite validateActions_seen by done.
    unfold Visible at 2. split.
    + intros (? & ? & ? & ->). split; [done|right]. exists [], a, as_. split_and!; try done. simpl. lia.
    + intros ([? ?] & [[[Hn _] _]|(pre & x & post & E & Hp & Hx & Hq & ->)]); [done|].
      destruct pre as [|y pre]; simplify_eq/=; [split_and!; try done; lia|].
      apply Forall_cons in Hp as [Hp _]. done.
  - rewrite IH by lia. split.
    + intros (? & ? & [[? ->]|(pre & x & post & -> & Hp & Hx & Hq & ->)]); (split; [done|]).
      * left. unfold Visible at 1. rewrite Ea. auto.
      * right. exists (a :: pre), x, post. split_and!; try done; [|simpl; lia].
        constructor; [|done]. unfold Visible. by rewrite Ea.
    + intros ([? ?] & [[[_ Hn] ->]|(pre & x & post & E & Hp & Hx & Hq & ->)]); (split; [done|]; split; [done|]).
      * by left.
      * right. destruct pre as [|y pre]; simplify_eq/=; [unfold Visible in Hx; congruence|].
        apply Forall_cons in Hp as [_ Hp]. exists pre, x, post. split_and!; try done. lia.
Qed.

Lemma stop_not_visible s : aType s = $"stop" -> ~ Visible s.
Proof. unfold Visible. intros ->. done. Qed.

(** The check after the loop, for a visibility-changing action at its index. *)
Lemma trailing_check pre (x : Action) post :
  let as_ := pre ++ x :: post in
  let last_ := (Z.of_nat (length as_) - 1)%Z in
  let at_ := Z.of_nat (length pre) in
  negb (at_ =? last_)%Z && negb ((last_ =? at_ + 1)%Z &&
    match last as_ with Some a => aType a =s? $"stop" | None => false end) = false <->
  post = [] \/ exists s, post = [s] /\ aType s = $"stop".
Proof.
  simpl. rewrite length_app. destruct post as [|s [|s' post]]; simpl.
  - rewrite (proj2 (Z.eqb_eq _ _)) by lia. naive_solver.
  - rewrite (proj2 (Z.eqb_neq _ _)), (proj2 (Z.eqb_eq _ _)) by lia.
    rewrite last_app. simpl. case_bool_decide; naive_solver.
  - rewrite !(proj2 (Z.eqb_neq _ _)) by lia. naive_solver.
Qed.

Lemma validateRule_iff (r : Rule) :
  validateRule r = None <->
  trimSpace (ruleName r) ≠ [] /\ (utf8Len (ruleName r) <= maxRuleNameBytes)%Z /\
  ShapeOk (Match r) /\ ActionsOk (Actions r).
Proof.
  unfold validateRule, ActionsOk. rewrite <- validateMatchShape_iff.
  case_bool_decide; [naive_solver|].
  destruct (Z.ltb_spec maxRuleNameBytes (utf8Len (ruleName r))); [split; [done|lia]|].
  destruct (validateMatchShape (Match r)); [naive_solver|].
  destruct (Z.ltb_spec maxActionsPerRule (Z.of_nat (length (Actions r)))); [split; [done|lia]|].
  unfold VisibilityLast. split.
  - destruct (validateActions 0 (-1) (Actions r)) as [v|] eqn:E; [|done].
    apply validateActions_unseen in E as (Hok & [[Hn ->]|(pre & x & post & Ea & Hp & Hx & Hq & ->)]); try done.
    + intros _. split_and!; auto.
    + rewrite (proj2 (Z.leb_le _ _)) by lia. simpl (0 + _)%Z.
      intros Hc. rewrite Ea in Hc. split_and!; try done.
      right. exists pre, x, post. split_and!; try done. apply (trailing_check pre x post).
      simpl in Hc |- *. by case_match.
  - intros (_ & _ & _ & _ & Hok & [Hn|(pre & x & post & Ea & Hp & Hx & Hq)]).
    + assert (validateActions 0 (-1) (Actions r) = Ok (-1)%Z) as ->; [|done].
      apply validateActions_unseen; [lia..|]. auto.
    + assert (Hpost : Forall (fun a => ~ Visible a) post).
      { destruct Hq as [->|(s & -> & Hs)]; repeat constructor. by apply stop_not_visible. }
      assert (validateActions 0 (-1) (Actions r) = Ok (Z.of_nat (length pre))) as ->.
      { apply validateActions_unseen; [lia..|]. split; [done|right]. exists pre, x, post. auto. }
      rewrite (proj2 (Z.leb_le _ _)) by lia. rewrite Ea.
      pose proof (proj2 (trailing_check pre x post) Hq) as Hc. simpl in Hc |- *. by rewrite Hc.
Qed.

(** ValidateRule accepts exactly the rules that have a non-blank name of
    at most 200 bytes, a match tree at most 32 groups deep with at most 300
    nodes and usable leaves, and at most 20 executable actions of which at most
    one changes the message's visibility, last but for one trailing "stop". *)
Lemma validateRule_exact (r : Rule) :
  validateRule r = None <->
  trimSpace (ruleName r) ≠ [] /\ (utf8Len (ruleName r) <= maxRuleNameBytes)%Z /\
  ShapeOk (Match r) /\ ActionsOk (Actions r).
Proof. apply validateRule_iff. Qed.

(** ** Validated rules are evaluable *)

Lemma patternFor_regex k v :
  (toLower (trimSpace k) =s? $"matches") || (toLower (trimSpace k) =s? $"regex") = true ->
  (patternFor k v).2 = true.
Proof. unfold patternFor. destruct (_ =s? $"matches"); [done|]. simpl. by intros ->. Qed.

Lemma testValue_known `{!RegexLaws} k cand v :
  validatePattern k v = None -> is_Some (testValue k cand v).
Proof.
  intros Hv. unfold testValue.
  destruct (_ =s? $"exists"); [done|]. destruct (_ =s? $"is"); [done|].
  destruct (_ || _) eqn:E; [|done]. apply (patternFor_regex _ v) in E.
  destruct (patternFor k v) as [p b] eqn:Ep. simpl in *. subst b.
  destruct (validatePattern_compiles k v p Ep Hv) as [re ->]. done.
Qed.

Lemma testValues_known `{!RegexLaws} k v vs :
  validatePattern k v = None -> is_Some (testValues k v vs).
Proof.
  intros Hv. induction vs as [|x vs IH]; simpl; [done|].
  destruct (testValue_known k x v Hv) as [[] ->]; done.
Qed.

Lemma evalCond_known `{!RegexLaws} input c :
  is_Some (Headers input) -> LeavesOk c -> is_Some (evalCond input c).
Proof.
  intros [hs Hh]. tree_induction c; intros Hok; simpl.
  - apply fmap_is_Some. destruct Hok as (_ & _ & Hp). unfold evalLeaf.
    destruct (_ =s? $"header"); [rewrite Hh; by apply testValues_known|].
    destruct (_ =s? $"keyword"); [by apply testValues_known|by apply testValue_known].
  - apply fmap_is_Some. rewrite LeavesOk_group in Hok.
    unfold kleene. destruct (existsb _ _); [done|]. simpl.
    destruct (existsb _ (evalCond input <$> cs)) eqn:E; [|done]. exfalso.
    apply existsb_exists in E as (t & Ht & Hn). apply bool_decide_eq_true in Hn as ->.
    rewrite <- list_elem_of_In in Ht. apply list_elem_of_fmap in Ht as (c & Hc & Hin).
    rewrite !Forall_forall in *. destruct (IH c Hin (Hok c Hin)). congruence.
Qed.

(** A rule that passed validation always has a truth value once the
    message's headers were fetched: evaluating its match tree under a live
    context never reports unknown. *)
Lemma validated_rule_is_evaluable `{!RegexLaws} (r : Rule) (input : EvalInput) (st : est) :
  validateRule r = None -> is_Some (Headers input) -> CacheOk (cache st) -> left st = None ->
  exists matched st', matchGroup input (Match r) st = ((matched, true), st').
Proof.
  intros Hr Hh Hc Hl. apply validateRule_iff in Hr as (_ & _ & (_ & _ & Hleaves) & _).
  pose proof (matchGroup_ok input (Match r) st Hc) as Hm.
  destruct (matchGroup input (Match r) st) as [[m [|]] st'] eqn:E; [eauto|].
  destruct Hm as [[-> Ha] (_ & H2 & _)]. exfalso. destruct Ha as [Ha|Ha]; [|by rewrite H2 in Ha].
  destruct (evalCond_known input (mkCondition false (Some (Match r)) [] [] [] [])) as [b Hb]; [done| |].
  - destruct (Match r) as [op cs]. by apply LeavesOk_group.
  - destruct (Match r) as [op cs]. simpl in Hb. unfold evalGroup in Ha. simpl in Ha.
    by rewrite Ha in Hb.
Qed.

(** FilterRunnable keeps exactly the rules that pass validation, in their
    stored order, and reports one labelled reason for each of the others. *)
Lemma filterRunnable_exact (rs : list Rule) :
  let '(out, rejected) := filterRunnable rs in
  out = List.filter (fun r => match validateRule r with None => true | Some _ => false end) rs /\
  rejected = omap (fun r => (fun e => (ruleLabel r, e)) <$> validateRule r) rs.
Proof.
  induction rs as [|r rs IH]; simpl; [done|].
  destruct (filterRunnable rs) as [out rejected]. destruct IH as [-> ->].
  by destruct (validateRule r) as [e|]; simpl.
Qed.

End Validate.
