(* ===== verification/RulesApply.v ===== *)
(** * RulesApply: running a rule's actions (ApplyOutcome of engine.go)

    The mail client is the [imapadapter.Client] interface: a function from a
    call to its error and the mailbox after it, given as a parameter.  The
    theorems say where execution stops and, with the validation gate, that a
    failed action leaves the message where the poller's retry can find it. *)

From S2P Require Import Prelude GoText RulesModel RulesPattern RulesEngine RulesValidate.

(** The client calls ApplyOutcome makes. *)
Inductive client_call :=
  | ApplyLabel (messageID label : gostr)
  | RemoveLabel (messageID label : gostr)
  | ApplyInboxAction (messageID action mailbox target : gostr).

Section Apply.
Context {U : Unicode} {R : RegexEngine}.
Context {E W : Type} (client : client_call -> W -> option E * W).

Inductive action_error :=
  | CtxEnded
  | ClientFailed (e : E)
  | UnsupportedAction (t : gostr).

Record ActionResult := { arAction : Action; arErr : option action_error }.

(** The switch of ApplyOutcome: the client call an action makes, if any. *)
Inductive dispatch := DCall (c : client_call) | DNone | DUnsupported.
Definition actionCall (mailbox messageID : gostr) (a : Action) : dispatch :=
  let t := aType a in
  if t =s? $"keyword" then DCall (ApplyLabel messageID (aValue a))
  else if t =s? $"unkeyword" then DCall (RemoveLabel messageID (aValue a))
  else if t =s? $"move" then DCall (ApplyInboxAction messageID ($"move") mailbox (aValue a))
  else if t =s? $"read" then DCall (ApplyInboxAction messageID ($"read") mailbox [])
  else if t =s? $"archive" then DCall (ApplyInboxAction messageID ($"archive") mailbox [])
  else if t =s? $"spam" then DCall (ApplyInboxAction messageID ($"spam") mailbox [])
  else if t =s? $"delete" then DCall (ApplyInboxAction messageID ($"delete") mailbox [])
  else if t =s? $"stop" then DNone
  else DUnsupported.

Definition runAction (mailbox messageID : gostr) (a : Action) (w : W) : option action_error * W :=
  match actionCall mailbox messageID a with
  | DCall c => let '(e, w') := client c w in (ClientFailed <$> e, w')
  | DNone => (None, w)
  | DUnsupported => (Some (UnsupportedAction (aType a)), w)
  end.

(** The loop of ApplyOutcome. *)
Fixpoint applyActions (lft : option nat) (mailbox messageID : gostr) (actions : list Action) (w : W) :
    list ActionResult * W :=
  match actions with
  | [] => ([], w)
  | a :: rest =>
      let '(cancelled, lft) := ctxErr lft in
      if cancelled then ([{| arAction := a; arErr := Some CtxEnded |}], w)
      else
        let '(e, w) := runAction mailbox messageID a w in
        let r := {| arAction := a; arErr := e |} in
        match e with
        | Some _ => ([r], w)
        | None => let '(rs, w) := applyActions lft mailbox messageID rest w in (r :: rs, w)
        end
  end.

Definition applyOutcome (ctx : context) (mailbox : gostr) (input : EvalInput) (outcome : Outcome) (w : W) :
    list ActionResult * W :=
  applyActions (ctxLeft ctx) mailbox (MessageID input) (Applied outcome) w.

(** ** Where execution stops *)

(** The results name a prefix of the actions; only the last can carry an error,
    and when none does every action ran. *)
Definition StopsAtFailure (actions : list Action) (rs : list ActionResult) : Prop :=
  (arAction <$> rs = actions /\ Forall (fun r => arErr r = None) rs) \/
  exists ok bad rest, rs = ok ++ [bad] /\ Forall (fun r => arErr r = None) ok /\ is_Some (arErr bad)
    /\ actions = (arAction <$> rs) ++ rest.

Lemma applyActions_stops lft mailbox id actions w :
  StopsAtFailure actions (applyActions lft mailbox id actions w).1.
Proof.
  unfold StopsAtFailure. revert lft w. induction actions as [|a rest IH]; intros lft w; simpl; [by left|].
  destruct (ctxErr lft) as [[|] lft'].
  { right. exists [], {| arAction := a; arErr := Some CtxEnded |}, rest. split_and!; done. }
  destruct (runAction mailbox id a w) as [[e|] w'].
  { right. exists [], {| arAction := a; arErr := Some e |}, rest. split_and!; done. }
  specialize (IH lft' w'). destruct (applyActions lft' mailbox id rest w') as [rs w2]. simpl in *.
  destruct IH as [[Ea Hf]|(ok & bad & rest' & -> & Hok & Hb & Ea)]; csimpl.
  - left. split; [by f_equal|by constructor].
  - right. exists ({| arAction := a; arErr := None |} :: ok), bad, rest'. split_and!; try done.
    + by constructor.
    + csimpl. by f_equal.
Qed.

(** ApplyOutcome stops at the first failed action or ended context: the
    results it returns name a prefix of the actions, every result but the last
    is a success, and a list without an error covers all of them. *)
Lemma applyOutcome_stops_at_failure (ctx : context) (mailbox : gostr) (input : EvalInput)
    (outcome : Outcome) (w : W) :
  StopsAtFailure (Applied outcome) (applyOutcome ctx mailbox input outcome w).1.
Proof. apply applyActions_stops. Qed.

Lemma known_not_unsupported mailbox id a :
  knownActionTypes (aType a) = true -> actionCall mailbox id a ≠ DUnsupported.
Proof.
  unfold knownActionTypes, actionCall. intros H. apply bool_decide_eq_true in H.
  rewrite !elem_of_cons, elem_of_nil in H.
  by destruct H as [->|[->|[->|[->|[->|[->|[->|[->|[]]]]]]]]].
Qed.

(** What one result says about how its action ended. *)
Definition Failed (r : ActionResult) : Prop := is_Some (arErr r).

Lemma applyActions_errors lft mailbox id actions w :
  Forall ActionOk actions ->
  Forall (fun r => ActionOk (arAction r) /\ (arErr r = None \/ arErr r = Some CtxEnded \/
    (aType (arAction r) ≠ $"stop" /\ exists e, arErr r = Some (ClientFailed e))))
    (applyActions lft mailbox id actions w).1.
Proof.
  intros H. revert lft w. induction H as [|a rest Ha Hrest IH]; intros lft w; simpl; [constructor|].
  destruct (ctxErr lft) as [[|] lft']; [constructor; [|constructor]; simpl; auto|].
  destruct (runAction mailbox id a w) as [e w'] eqn:Er.
  assert (He : e = None \/ aType a ≠ $"stop" /\ exists x, e = Some (ClientFailed x)).
  { unfold runAction in Er. destruct (actionCall mailbox id a) eqn:Ec.
    - destruct (client c w) as [[x|] ?]; simplify_eq/=; [right|by left]. split; [|eauto].
      intros Hs. unfold actionCall in Ec. rewrite Hs in Ec. done.
    - simplify_eq. by left.
    - exfalso. by apply (known_not_unsupported mailbox id a); [apply Ha|]. }
  destruct e as [e|].
  - constructor; [|constructor]. simpl. split; [done|]. destruct He as [?|?]; [done|auto].
  - specialize (IH lft' w'). destruct (applyActions lft' mailbox id rest w') as [rs w2].
    simpl in *. constructor; auto.
Qed.

(** The retry contract of one validated rule: when running its actions
    fails, either nothing before the failure changed the message's visibility,
    so the poller's next unread search still finds it, or the context ended
    exactly on the rule's trailing "stop", which owes the message nothing.  No
    action ever fails as unsupported. *)
Lemma validated_rule_failure_is_retryable (r : Rule) (ctx : context) (mailbox : gostr)
    (input : EvalInput) (w : W) (ok : list ActionResult) (bad : ActionResult) :
  validateRule r = None ->
  (applyOutcome ctx mailbox input (outcomeOf [r]) w).1 = ok ++ [bad] ->
  Failed bad ->
  (forall t, arErr bad ≠ Some (UnsupportedAction t)) /\
  (Forall (fun x => ~ Visible (arAction x)) ok \/
   (aType (arAction bad) = $"stop" /\ arErr bad = Some CtxEnded)).
Proof.
  intros Hr Hres Hbad. apply validateRule_iff in Hr as (_ & _ & _ & _ & Hok & Hvis).
  unfold applyOutcome in Hres. simpl in Hres. rewrite app_nil_r in Hres.
  pose proof (applyActions_stops (ctxLeft ctx) mailbox (MessageID input) (Actions r) w) as Hs.
  pose proof (applyActions_errors (ctxLeft ctx) mailbox (MessageID input) (Actions r) w Hok) as He.
  rewrite Hres in Hs, He. apply Forall_app in He as [_ He]. apply Forall_cons in He as [[_ He] _].
  assert (Hpre : exists rest, Actions r = (arAction <$> ok) ++ arAction bad :: rest).
  { destruct Hs as [[Ea Hf]|(ok' & bad' & rest & _ & _ & _ & Ea)].
    - apply Forall_app in Hf as [_ Hf]. apply Forall_cons in Hf as [Hf _].
      destruct Hbad as [? Hb]. congruence.
    - exists rest. rewrite Ea, fmap_app. simpl. by rewrite <- app_assoc. }
  destruct Hpre as [rest Hpre]. split.
  { intros t Ht. rewrite Ht in He. destruct He as [[=]|[[=]|(_ & ? & [=])]]. }
  destruct Hvis as [Hn|(pre & v & post & Ea & Hp & Hv & Hq)].
  - left. rewrite Hpre in Hn. apply Forall_app in Hn as [Hn _]. rewrite Forall_fmap in Hn. exact Hn.
  - rewrite Hpre in Ea.
    destruct (app_eq_inv _ _ _ _ Ea) as [(k & E1 & E2)|(k & E1 & E2)].
    + destruct k as [|v' k]; simplify_eq/=.
      * left. rewrite app_nil_r in E1. rewrite <- E1 in Hp. rewrite Forall_fmap in Hp. exact Hp.
      * right. destruct Hq as [Hq|(s & Hq & Hst)]; [by destruct k|].
        destruct k as [|? [|]]; simplify_eq/=. split; [done|].
        destruct Hbad as [x Hx]. destruct He as [He|[He|(He & _)]]; [congruence|done|done].
    + left. rewrite E1 in Hp. apply Forall_app in Hp as [Hp _]. rewrite Forall_fmap in Hp. exact Hp.
Qed.

End Apply.

Arguments action_error : clear implicits.
Arguments ActionResult : clear implicits.
