(* ===== verification/Sieve.v ===== *)
(** * Sieve: the Sieve-subset printer, lexer and parser (backend/internal/rules/sieve.go)

    [compileRule] renders a rule as a script, [lexSieve] and the parser read one
    back.  The lexer's state is the runes still to read and the line number, the
    parser's the tokens still to read: [peek] looks at the first and [next]
    never moves past the last, which is the end-of-input token.

    parseTest descends only through not, allof and anyof, and enterTest refuses
    the descent past [maxTestNestingDepth]; it is therefore written by recursion
    on the levels left, so its depth needs no artificial bound.  The loops over
    a token list carry fuel, one unit per token: [SFuel] is their answer when it
    runs out, which no call of [parseRuleText] ever reaches (SieveTheorems). *)

From S2P Require Import Prelude GoText RulesModel RulesPattern RulesEngine RulesValidate.

Definition allowedCapabilities (c : gostr) : bool :=
  bool_decide (c ∈ [$"fileinto"; $"body"; $"regex"; $"imap4flags"; $"kymail"]).

Inductive compile_error := UnsupportedField (f : gostr) | UnsupportedActionT (t : gostr).

(** ** Printer *)

(** sieveQuote: only the double quote and the backslash are escaped. *)
Definition sieveEscape (s : gostr) : gostr :=
  r ← s; if (r =? 92)%Z || (r =? 34)%Z then [92%Z; r] else [r].
Definition sieveQuote (s : gostr) : gostr := [34%Z] ++ sieveEscape s ++ [34%Z].

Section Printer.
Context {U : Unicode} {R : RegexEngine}.

Fixpoint condUsesField (field : gostr) (c : Condition) : bool :=
  match c with
  | mkCondition _ (Some (mkGroup _ cs)) _ _ _ _ => existsb (condUsesField field) cs
  | mkCondition _ None f _ _ _ => equalFold f field
  end.
Definition matchGroupUsesField (g : MatchGroup) (field : gostr) : bool :=
  existsb (condUsesField field) (Conditions g).

Fixpoint condUsesComparator (comparator : gostr) (c : Condition) : bool :=
  match c with
  | mkCondition _ (Some (mkGroup _ cs)) _ _ _ _ => existsb (condUsesComparator comparator) cs
  | mkCondition _ None _ _ k _ => k =s? comparator
  end.
Definition matchGroupUsesComparator (g : MatchGroup) (comparator : gostr) : bool :=
  existsb (condUsesComparator comparator) (Conditions g).

Definition usesCapability (r : Rule) (capability : gostr) : bool :=
  let anyAction ts := existsb (fun a => bool_decide (aType a ∈ ts)) (Actions r) in
  if capability =s? $"fileinto" then anyAction [$"move"]
  else if capability =s? $"imap4flags" then
    anyAction [$"keyword"; $"unkeyword"] || matchGroupUsesField (Match r) ($"keyword")
  else if capability =s? $"kymail" then anyAction [$"read"; $"archive"; $"spam"]
  else if capability =s? $"body" then matchGroupUsesField (Match r) ($"body")
  else if capability =s? $"regex" then matchGroupUsesComparator (Match r) ($"regex")
  else false.

(** The capabilities of the require line, in the order CompileRule tests them. *)
Definition ruleCapabilities (r : Rule) : list gostr :=
  List.filter (usesCapability r) [$"fileinto"; $"body"; $"regex"; $"imap4flags"; $"kymail"].

Definition comparatorTag (comparator : gostr) : gostr :=
  if bool_decide (toLower (trimSpace comparator) ∈ [$"contains"; $"is"; $"matches"; $"regex"])
  then toLower comparator else $"is".

Definition compileLeafCondition (c_field c_header c_comparator c_value : gostr) : res compile_error gostr :=
  let field := toLower (trimSpace c_field) in
  let headerTest name :=
    if equalFold c_comparator ($"exists") then $"exists [" ++ name ++ $"]"
    else $"header :" ++ comparatorTag c_comparator ++ $" [" ++ name ++ $"] " ++ sieveQuote c_value in
  if validHeaderAddressFields field then Ok (headerTest (sieveQuote field))
  else if field =s? $"header" then
    Ok (headerTest (sieveQuote (canonicalMIMEHeaderKey (trimSpace c_header))))
  else if field =s? $"body" then
    Ok ($"body :" ++ comparatorTag c_comparator ++ $" " ++ sieveQuote c_value)
  else if field =s? $"keyword" then
    Ok ($"hasflag :" ++ comparatorTag c_comparator ++ $" " ++ sieveQuote c_value)
  else Err (UnsupportedField c_field).

(** compileMatchGroup's op and its loop over the conditions. *)
Definition groupOp (op : gostr) : gostr :=
  let o := toLower (trimSpace op) in
  if (o =s? $"anyof") || (o =s? $"allof") then o else $"allof".

Definition compileParts (cond : Condition -> res compile_error gostr) :
    list Condition -> res compile_error (list gostr) :=
  fix loop (cs : list Condition) : res compile_error (list gostr) :=
    match cs with
    | [] => Ok []
    | c :: cs' => part ← cond c; parts ← loop cs'; Ok (part :: parts)
    end.

Definition groupText (op : gostr) (parts : list gostr) : gostr :=
  groupOp op ++ $"(" ++ join ($", ") parts ++ $")".

Fixpoint compileCondition (c : Condition) : res compile_error gostr :=
  match c with
  | mkCondition negate group field header comparator value =>
      inner ← match group with
              | Some (mkGroup op cs) => parts ← compileParts compileCondition cs; Ok (groupText op parts)
              | None => compileLeafCondition field header comparator value
              end;
      Ok (if negate : bool then $"not " ++ inner else inner)
  end.

Definition compileMatchGroup (g : MatchGroup) : res compile_error gostr :=
  parts ← compileParts compileCondition (Conditions g); Ok (groupText (Op g) parts).

Definition compileAction (a : Action) : res compile_error gostr :=
  let t := aType a in
  if t =s? $"keyword" then Ok ($"addflag " ++ sieveQuote (aValue a) ++ $";")
  else if t =s? $"unkeyword" then Ok ($"removeflag " ++ sieveQuote (aValue a) ++ $";")
  else if t =s? $"move" then Ok ($"fileinto " ++ sieveQuote (aValue a) ++ $";")
  else if t =s? $"read" then Ok ($"markread;")
  else if t =s? $"archive" then Ok ($"archive;")
  else if t =s? $"spam" then Ok ($"markspam;")
  else if t =s? $"delete" then Ok ($"discard;")
  else if t =s? $"stop" then Ok ($"stop;")
  else Err (UnsupportedActionT t).

Fixpoint compileActions (as_ : list Action) : res compile_error gostr :=
  match as_ with
  | [] => Ok []
  | a :: rest => line ← compileAction a; more ← compileActions rest;
                 Ok ($"    " ++ line ++ [10%Z] ++ more)
  end.

Definition requireLine (caps : list gostr) : gostr :=
  match caps with
  | [] => []
  | _ => $"require [" ++ join ($", ") (sieveQuote <$> caps) ++ $"];" ++ [10; 10]%Z
  end.

(** CompileRule. *)
Definition compileRule (r : Rule) : res compile_error gostr :=
  testSrc ← compileMatchGroup (Match r);
  body ← compileActions (Actions r);
  Ok (requireLine (ruleCapabilities r) ++ $"if " ++ testSrc ++ $" {" ++ [10%Z]
      ++ (match Actions r with [] => $"    keep;" ++ [10%Z] | _ => [] end) ++ body ++ $"}" ++ [10%Z]).

End Printer.

(** ** Lexer *)

Inductive tokKind :=
  | tokWord | tokString | tokLBracket | tokRBracket | tokLParen | tokRParen
  | tokLBrace | tokRBrace | tokSemicolon | tokComma | tokColonTag | tokEOF.
#[export] Instance tokKind_eq_dec : EqDecision tokKind.
Proof. solve_decision. Defined.

Record token := mkTok { kind : tokKind; text : gostr; line : Z }.

Inductive sieve_what :=
  | UnterminatedComment
  | UnterminatedString
  | UnexpectedCharacter (r : Z)
  | Expected (k : tokKind) (got : gostr)
  | ExpectedWord (w got : gostr)
  | ExpectedTest (got : gostr)
  | ExpectedAction (got : gostr)
  | NestingExceeded
  | UnknownTest (t : gostr)
  | UnknownAction (t : gostr)
  | UnsupportedCapability (c : gostr)
  | UnsupportedComparatorTag (t : gostr)
  | NoFields
  | UnsupportedTestField (f : gostr)
  | UnbalancedBraces
  | TrailingContent.
(** A syntax error with its 1-based line number. *)
Inductive sieve_error := SErr (line : Z) (what : sieve_what) | SFuel.

Definition isWordRune (r : Z) : bool :=
  ((r =? 95) || (Z.leb 97 r && Z.leb r 122) || (Z.leb 65 r && Z.leb r 90) || (Z.leb 48 r && Z.leb r 57))%Z.

(** advance: consuming a newline moves to the next line. *)
Definition bump (r line : Z) : Z := if (r =? 10)%Z then (line + 1)%Z else line.

(** skipWhitespaceAndComments. *)
Fixpoint skipWS (s : gostr) (ln : Z) {struct s} : res sieve_error (gostr * Z) :=
  match s with
  | [] => Ok ([], ln)
  | r :: s' =>
      if ((r =? 32) || (r =? 9) || (r =? 13) || (r =? 10))%Z then skipWS s' (bump r ln)
      else if (r =? 35)%Z then
        (fix hash (s : gostr) {struct s} : res sieve_error (gostr * Z) :=
           match s with
           | [] => Ok ([], ln)
           | c :: t => if (c =? 10)%Z then skipWS t (ln + 1)%Z else hash t
           end) s'
      else if (r =? 47)%Z then
        match s' with
        | c :: s'' =>
            if (c =? 42)%Z then
              (fix block (s : gostr) (l : Z) {struct s} : res sieve_error (gostr * Z) :=
                 match s with
                 | [] => Err (SErr ln UnterminatedComment)
                 | c :: t =>
                     if (c =? 42)%Z then
                       match t with
                       | d :: t' => if (d =? 47)%Z then skipWS t' l else block t l
                       | [] => Err (SErr ln UnterminatedComment)
                       end
                     else block t (bump c l)
                 end) s'' ln
            else Ok (s, ln)
        | [] => Ok (s, ln)
        end
      else Ok (s, ln)
  end.

(** The string-literal loop, after the opening quote; [None]: not closed. *)
Fixpoint lexString (s : gostr) (ln : Z) : option (gostr * gostr * Z) :=
  match s with
  | [] => None
  | c :: t =>
      if (c =? 34)%Z then Some ([], t, ln)
      else if (c =? 92)%Z then
        match t with
        | [] => None
        | c2 :: t' => '(sb, rest, l) ← lexString t' (bump c2 ln); Some (c2 :: sb, rest, l)
        end
      else '(sb, rest, l) ← lexString t (bump c ln); Some (c :: sb, rest, l)
  end.

(** The word loop: the longest run of word runes. *)
Fixpoint takeWord (s : gostr) : gostr * gostr :=
  match s with
  | [] => ([], [])
  | c :: t => if isWordRune c then let '(w, rest) := takeWord t in (c :: w, rest) else ([], s)
  end.

(** The single-rune tokens of lexSieve's switch. *)
Definition punct (r : Z) : option tokKind :=
  (if r =? 91 then Some tokLBracket else if r =? 93 then Some tokRBracket
   else if r =? 40 then Some tokLParen else if r =? 41 then Some tokRParen
   else if r =? 123 then Some tokLBrace else if r =? 125 then Some tokRBrace
   else if r =? 59 then Some tokSemicolon else if r =? 44 then Some tokComma else None)%Z.

Fixpoint lexLoop (fuel : nat) (s : gostr) (ln : Z) : res sieve_error (list token) :=
  match fuel with
  | 0%nat => Err SFuel
  | S fuel =>
      '(s, ln) ← skipWS s ln;
      match s with
      | [] => Ok [mkTok tokEOF [] ln]
      | r :: s' =>
          match punct r with
          | Some k => ts ← lexLoop fuel s' ln; Ok (mkTok k [r] ln :: ts)
          | None =>
              if (r =? 34)%Z then
                match lexString s' ln with
                | None => Err (SErr ln UnterminatedString)
                | Some (sb, rest, l) => ts ← lexLoop fuel rest l; Ok (mkTok tokString sb ln :: ts)
                end
              else if (r =? 58)%Z then
                let '(w, rest) := takeWord s' in
                ts ← lexLoop fuel rest ln; Ok (mkTok tokColonTag w ln :: ts)
              else if negb (isWordRune r) then Err (SErr ln (UnexpectedCharacter r))
              else
                let '(w, rest) := takeWord s in
                ts ← lexLoop fuel rest ln; Ok (mkTok tokWord w ln :: ts)
          end
      end
  end.
Definition lexFrom (s : gostr) (ln : Z) : res sieve_error (list token) := lexLoop (S (length s)) s ln.
Definition lexSieve (s : gostr) : res sieve_error (list token) := lexFrom s 1.

(** ** Parser *)

Section Parser.
Context {U : Unicode}.

Definition eofTok : token := mkTok tokEOF [] 0.
Definition peek (toks : list token) : token := default eofTok (head toks).
Definition next (toks : list token) : token * list token :=
  (peek toks, match toks with _ :: (_ :: _) as rest => rest | _ => toks end).

Definition tokenDisplay (t : token) : gostr :=
  if bool_decide (kind t = tokEOF) then $"end of input" else text t.

Abbreviation parsed A := (res sieve_error (A * list token)).

Definition expect (k : tokKind) (toks : list token) : parsed token :=
  let t := peek toks in
  if bool_decide (kind t = k) then Ok (next toks)
  else Err (SErr (line t) (Expected k (tokenDisplay t))).

Definition expectWord (word : gostr) (toks : list token) : parsed unit :=
  let t := peek toks in
  if negb (bool_decide (kind t = tokWord)) || negb (equalFold (text t) word)
  then Err (SErr (line t) (ExpectedWord word (tokenDisplay t)))
  else Ok (tt, (next toks).2).

Definition expectSemicolon (toks : list token) : parsed unit :=
  '(_, toks) ← expect tokSemicolon toks; Ok (tt, toks).

(** parseStringList and its loop. *)
Fixpoint stringListLoop (fuel : nat) (out : list gostr) (toks : list token) : parsed (list gostr) :=
  match fuel with
  | 0%nat => Err SFuel
  | S fuel =>
      if bool_decide (kind (peek toks) = tokRBracket) then Ok (out, toks)
      else
        '(s, toks) ← expect tokString toks;
        let out := out ++ [text s] in
        if bool_decide (kind (peek toks) = tokComma)
        then stringListLoop fuel out (next toks).2
        else Ok (out, toks)
  end.
Definition parseStringList (toks : list token) : parsed (list gostr) :=
  '(_, toks) ← expect tokLBracket toks;
  '(out, toks) ← stringListLoop (S (length toks)) [] toks;
  '(_, toks) ← expect tokRBracket toks;
  Ok (out, toks).

Definition parseComparatorTag (defaultComparator : gostr) (toks : list token) : parsed gostr :=
  if negb (bool_decide (kind (peek toks) = tokColonTag)) then Ok (defaultComparator, toks)
  else
    let '(tag, toks) := next toks in
    let k := toLower (text tag) in
    if bool_decide (k ∈ [$"contains"; $"is"; $"matches"; $"regex"]) then Ok (k, toks)
    else Err (SErr (line tag) (UnsupportedComparatorTag (text tag))).

(** A leaf condition, the way the parser builds every one. *)
Definition leafCond (field header comparator value : gostr) : Condition :=
  mkCondition false None field header comparator value.
Definition groupCond (op : gostr) (conds : list Condition) : Condition :=
  mkCondition false (Some (mkGroup op conds)) [] [] [] [].
Definition flipNegate (c : Condition) : Condition :=
  let 'mkCondition n g f h k v := c in mkCondition (negb n) g f h k v.

(** fieldsToCondition. *)
Definition fieldLeaf (comparator value f : gostr) : Condition :=
  if validHeaderAddressFields (normalizeField f)
  then leafCond (normalizeField f) [] comparator value
  else leafCond ($"header") (canonicalMIMEHeaderKey (trimSpace f)) comparator value.
Definition fieldsToCondition (fields : list gostr) (comparator value : gostr) : Condition :=
  match fields with
  | [f] => fieldLeaf comparator value f
  | _ => groupCond ($"anyof") (fieldLeaf comparator value <$> fields)
  end.

(** The field check of the header, address and exists tests. *)
Fixpoint checkFields (ln : Z) (custom : bool) (fields : list gostr) : res sieve_error unit :=
  match fields with
  | [] => Ok tt
  | f :: rest =>
      if negb (validHeaderAddressFields (normalizeField f)) && (negb custom || negb (validCustomHeader f))
      then Err (SErr ln (UnsupportedTestField f))
      else checkFields ln custom rest
  end.

(** The tests of parseTest's switch that hold no other test. *)
Definition parseLeafTest (toks : list token) : parsed Condition :=
  let t := peek toks in
  if equalFold (text t) ($"header") || equalFold (text t) ($"address") then
    let isHeader := equalFold (text t) ($"header") in
    '(comparator, toks) ← parseComparatorTag ($"is") (next toks).2;
    '(fields, toks) ← parseStringList toks;
    '(valueTok, toks) ← expect tokString toks;
    match fields with
    | [] => Err (SErr (line t) NoFields)
    | _ => _ ← checkFields (line t) isHeader fields;
           Ok (fieldsToCondition fields comparator (text valueTok), toks)
    end
  else if equalFold (text t) ($"exists") then
    '(fields, toks) ← parseStringList (next toks).2;
    match fields with
    | [] => Err (SErr (line t) NoFields)
    | _ => _ ← checkFields (line t) true fields;
           Ok (fieldsToCondition fields ($"exists") [], toks)
    end
  else if equalFold (text t) ($"body") then
    '(comparator, toks) ← parseComparatorTag ($"contains") (next toks).2;
    '(valueTok, toks) ← expect tokString toks;
    Ok (leafCond ($"body") [] comparator (text valueTok), toks)
  else if equalFold (text t) ($"hasflag") then
    '(comparator, toks) ← parseComparatorTag ($"is") (next toks).2;
    '(valueTok, toks) ← expect tokString toks;
    Ok (leafCond ($"keyword") [] comparator (text valueTok), toks)
  else Err (SErr (line t) (UnknownTest (text t))).

(** The allof/anyof loop over its tests. *)
Definition testsLoop (test : list token -> parsed Condition) :
    nat -> list Condition -> list token -> parsed (list Condition) :=
  fix loop (fuel : nat) (conds : list Condition) (toks : list token) : parsed (list Condition) :=
    match fuel with
    | 0%nat => Err SFuel
    | S fuel =>
        '(c, toks) ← test toks;
        let conds := conds ++ [c] in
        if bool_decide (kind (peek toks) = tokComma) then loop fuel conds (next toks).2
        else Ok (conds, toks)
    end.

(** parseTest; [levels] is how many more times enterTest succeeds. *)
Fixpoint parseTest (levels : nat) (toks : list token) : parsed Condition :=
  let t := peek toks in
  if negb (bool_decide (kind t = tokWord)) then Err (SErr (line t) (ExpectedTest (tokenDisplay t)))
  else if equalFold (text t) ($"not") then
    match levels with
    | 0%nat => Err (SErr (line t) NestingExceeded)
    | S levels =>
        '(inner, toks) ← parseTest levels (next toks).2;
        Ok (flipNegate inner, toks)
    end
  else if equalFold (text t) ($"allof") || equalFold (text t) ($"anyof") then
    let op := toLower (text t) in
    match levels with
    | 0%nat => Err (SErr (line t) NestingExceeded)
    | S levels =>
        '(_, toks) ← expect tokLParen (next toks).2;
        '(conds, toks) ← testsLoop (parseTest levels) (S (length toks)) [] toks;
        '(_, toks) ← expect tokRParen toks;
        Ok (groupCond op conds, toks)
    end
  else parseLeafTest toks.

Definition parseAction (toks : list token) : parsed Action :=
  let t := peek toks in
  if negb (bool_decide (kind t = tokWord)) then Err (SErr (line t) (ExpectedAction (tokenDisplay t)))
  else
    let name := toLower (text t) in
    let toks := (next toks).2 in
    let withValue ty :=
      '(v, toks) ← expect tokString toks;
      '(_, toks) ← expectSemicolon toks; Ok (mkAction ty (text v), toks) in
    let plain ty := '(_, toks) ← expectSemicolon toks; Ok (mkAction ty [], toks) in
    if name =s? $"fileinto" then withValue ($"move")
    else if name =s? $"discard" then plain ($"delete")
    else if name =s? $"keep" then plain ($"keep")
    else if name =s? $"stop" then plain ($"stop")
    else if name =s? $"addflag" then withValue ($"keyword")
    else if name =s? $"removeflag" then withValue ($"unkeyword")
    else if name =s? $"markread" then plain ($"read")
    else if name =s? $"archive" then plain ($"archive")
    else if name =s? $"markspam" then plain ($"spam")
    else Err (SErr (line t) (UnknownAction name)).

(** The action loop of ParseRuleText. *)
Fixpoint actionsLoop (fuel : nat) (actions : list Action) (toks : list token) : parsed (list Action) :=
  match fuel with
  | 0%nat => Err SFuel
  | S fuel =>
      if bool_decide (kind (peek toks) = tokRBrace) then Ok (actions, toks)
      else if bool_decide (kind (peek toks) = tokEOF) then Err (SErr (line (peek toks)) UnbalancedBraces)
      else
        '(a, toks) ← parseAction toks;
        actionsLoop fuel (if negb (aType a =s? $"keep") then actions ++ [a] else actions) toks
  end.

Fixpoint checkCapabilities (ln : Z) (caps : list gostr) : res sieve_error unit :=
  match caps with
  | [] => Ok tt
  | c :: rest => if negb (allowedCapabilities (toLower (trimSpace c)))
                 then Err (SErr ln (UnsupportedCapability c)) else checkCapabilities ln rest
  end.

(** The require loop of ParseRuleText. *)
Fixpoint requireLoop (fuel : nat) (toks : list token) : parsed unit :=
  match fuel with
  | 0%nat => Err SFuel
  | S fuel =>
      if bool_decide (kind (peek toks) = tokWord) && equalFold (text (peek toks)) ($"require") then
        let '(reqTok, toks) := next toks in
        '(caps, toks) ← parseStringList toks;
        '(_, toks) ← expectSemicolon toks;
        _ ← checkCapabilities (line reqTok) caps;
        requireLoop fuel toks
      else Ok (tt, toks)
  end.

(** What ParseRuleText reads from the token stream. *)
Definition parseTokens (toks : list token) : res sieve_error (MatchGroup * list Action) :=
  '(_, toks) ← requireLoop (S (length toks)) toks;
  '(_, toks) ← expectWord ($"if") toks;
  '(rootCond, toks) ← parseTest (Z.to_nat maxTestNestingDepth) toks;
  '(_, toks) ← expect tokLBrace toks;
  '(actions, toks) ← actionsLoop (S (length toks)) [] toks;
  '(_, toks) ← expect tokRBrace toks;
  if negb (bool_decide (kind (peek toks) = tokEOF)) then Err (SErr (line (peek toks)) TrailingContent)
  else Ok (match Group rootCond with
           | Some g => g
           | None => mkGroup ($"allof") [rootCond]
           end, actions).

(** ParseRuleText: [existing] with Match and Actions replaced. *)
Definition setMatchActions (r : Rule) (m : MatchGroup) (as_ : list Action) : Rule :=
  {| ruleID := ruleID r; ruleName := ruleName r; Enabled := Enabled r; Order := Order r;
     Scope := Scope r; Match := m; Actions := as_; Rev := Rev r;
     CreatedAt := CreatedAt r; UpdatedAt := UpdatedAt r |}.
Definition parseRuleText (s : gostr) (existing : Rule) : res sieve_error Rule :=
  toks ← lexSieve s;
  '(match_, actions) ← parseTokens toks;
  Ok (setMatchActions existing match_ actions).

End Parser.
