(* ===== verification/SieveLex.v ===== *)
(** * SieveLex: what the Sieve lexer reads

    The lexer never runs out of its fuel, and [LexTo s ks] gives the tokens a
    text lexes to in front of any other text: the lemmas below compute it for
    white space, punctuation, words, tags and quoted strings, and compose. *)

From S2P Require Import Prelude GoText RulesModel RulesPattern RulesEngine RulesValidate Sieve.

(** ** Lengths and fuel *)

Lemma takeWord_split s : s = (takeWord s).1 ++ (takeWord s).2.
Proof.
  induction s as [|c t IH]; simpl; [done|]. destruct (isWordRune c); [|done].
  destruct (takeWord t). simpl in *. by rewrite <- IH.
Qed.

Lemma takeWord_length s : (length (takeWord s).2 <= length s)%nat.
Proof. rewrite (takeWord_split s) at 2. rewrite length_app. lia. Qed.

Lemma takeWord_word_length r t : isWordRune r = true -> (length (takeWord (r :: t)).2 < length (r :: t))%nat.
Proof.
  intros H. simpl. rewrite H. pose proof (takeWord_length t).
  destruct (takeWord t) as [w rest]. simpl in *. lia.
Qed.

Lemma lexString_length s ln sb rest l :
  lexString s ln = Some (sb, rest, l) -> (length rest < length s)%nat.
Proof.
  assert (G : forall n s ln sb rest l, (length s <= n)%nat ->
    lexString s ln = Some (sb, rest, l) -> (length rest < length s)%nat).
  { clear. induction n as [|n IH]; intros s ln sb rest l Hn; destruct s as [|c t]; simpl in *; try done; [lia|].
    destruct (c =? 34)%Z; [intros; simplify_eq; lia|].
    destruct (c =? 92)%Z.
    - destruct t as [|c2 t]; simpl in *; [done|]. intros H. apply bind_Some in H as ([[sb' r'] l'] & H & E).
      simplify_eq. apply IH in H; lia.
    - intros H. apply bind_Some in H as ([[sb' r'] l'] & H & E). simplify_eq. apply IH in H; lia. }
  by eapply G.
Qed.

Lemma skipWS_length s ln s' l' : skipWS s ln = Ok (s', l') -> (length s' <= length s)%nat.
Proof.
  assert (G : forall n s ln s' l', (length s <= n)%nat ->
    skipWS s ln = Ok (s', l') -> (length s' <= length s)%nat).
  { clear. induction n as [|n IH]; intros s ln s' l' Hn; destruct s as [|r s]; simpl in Hn; try lia.
    { intros [= <- <-]. simpl. lia. } { intros [= <- <-]. simpl. lia. }
    cbn [skipWS]. destruct (_ || _); [intros H; apply IH in H; simpl; lia|].
    destruct (r =? 35)%Z.
    { assert (length s <= n)%nat as Hs by lia. clear Hn. revert Hs.
      induction s as [|c t IHt]; intros Hs; [intros [= <- <-]; simpl; lia|].
      destruct (c =? 10)%Z; [intros H; apply IH in H; simpl in *; lia|].
      intros H. apply IHt in H; simpl in *; lia. }
    destruct (r =? 47)%Z; [|intros [= <- <-]; simpl; lia].
    destruct s as [|c s]; [intros [= <- <-]; simpl; lia|].
    destruct (c =? 42)%Z; [|intros [= <- <-]; simpl; lia].
    assert (length s <= n)%nat as Hs by (simpl in Hn; lia). clear Hn. revert Hs. generalize ln at 3.
    induction s as [|d t IHt]; intros l Hs; [done|].
    destruct (d =? 42)%Z.
    - destruct t as [|e t]; [done|]. destruct (e =? 47)%Z.
      + intros H. apply IH in H; simpl in *; lia.
      + intros H. apply IHt in H; simpl in *; lia.
    - intros H. apply IHt in H; simpl in *; lia. }
  by eapply G.
Qed.

Lemma skipWS_fuel s ln : skipWS s ln ≠ Err SFuel.
Proof.
  assert (G : forall n s ln, (length s <= n)%nat -> skipWS s ln ≠ Err SFuel).
  { clear. induction n as [|n IH]; intros s ln Hn; destruct s as [|r s]; simpl in Hn; try lia; try done.
    cbn [skipWS]. destruct (_ || _); [apply IH; lia|].
    destruct (r =? 35)%Z.
    { assert (length s <= n)%nat as Hs by lia. clear Hn. revert Hs.
      induction s as [|c t IHt]; intros Hs; [done|].
      destruct (c =? 10)%Z; [apply IH|apply IHt]; simpl in *; lia. }
    destruct (r =? 47)%Z; [|done]. destruct s as [|c s]; [done|]. destruct (c =? 42)%Z; [|done].
    assert (length s <= n)%nat as Hs by (simpl in Hn; lia). clear Hn. revert Hs. generalize ln at 3.
    induction s as [|d t IHt]; intros l Hs; [done|].
    destruct (d =? 42)%Z; [|apply IHt; simpl in *; lia].
    destruct t as [|e t]; [done|]. destruct (e =? 47)%Z; [apply IH|apply IHt]; simpl in *; lia. }
  by eapply G.
Qed.

(** The answer does not depend on the fuel once there is one unit per rune. *)
Lemma lexLoop_fuel f f' s ln :
  (length s < f)%nat -> (length s < f')%nat -> lexLoop f s ln = lexLoop f' s ln.
Proof.
  revert f' s ln. induction f as [|f IH]; intros [|f'] s ln H1 H2; try lia.
  cbn [lexLoop]. destruct (skipWS s ln) as [[s1 l1]|] eqn:E; [|done]. cbn [mbind res_bind].
  apply skipWS_length in E. destruct s1 as [|r t]; [done|]. simpl in E.
  destruct (punct r); [rewrite (IH f') by lia; done|].
  destruct (r =? 34)%Z.
  { destruct (lexString t l1) as [[[sb rest] l]|] eqn:Es; [|done].
    apply lexString_length in Es. rewrite (IH f') by lia. done. }
  destruct (r =? 58)%Z.
  { pose proof (takeWord_length t). destruct (takeWord t) as [w rest]. simpl in *.
    rewrite (IH f') by lia. done. }
  destruct (isWordRune r) eqn:Ew; [|done]. cbn [negb].
  pose proof (takeWord_word_length r t Ew). destruct (takeWord (r :: t)) as [w rest].
  simpl in *. rewrite (IH f') by lia. done.
Qed.

Lemma lexLoop_enough f s ln : (length s < f)%nat -> lexLoop f s ln ≠ Err SFuel.
Proof.
  revert s ln. induction f as [|f IH]; intros s ln H1; [lia|].
  pose proof (skipWS_fuel s ln) as Hws. cbn [lexLoop].
  destruct (skipWS s ln) as [[s1 l1]|] eqn:E; [|intros [= ->]; done]. cbn [mbind res_bind].
  apply skipWS_length in E. destruct s1 as [|r t]; [done|]. simpl in E.
  assert (K : forall rest l tk, (length rest < f)%nat ->
    (ts ← lexLoop f rest l; Ok (tk :: ts)) ≠ Err SFuel).
  { intros rest l tk Hr. specialize (IH rest l Hr). destruct (lexLoop f rest l); [done|].
    simpl. intros [= ->]. done. }
  destruct (punct r); [apply K; lia|]. destruct (r =? 34)%Z.
  { destruct (lexString t l1) as [[[sb rest] l]|] eqn:Es; [|done].
    apply lexString_length in Es. apply K. lia. }
  destruct (r =? 58)%Z.
  { pose proof (takeWord_length t). destruct (takeWord t) as [w rest]. simpl in *. apply K. lia. }
  destruct (isWordRune r) eqn:Ew; [|done]. cbn [negb].
  pose proof (takeWord_word_length r t Ew). destruct (takeWord (r :: t)) as [w rest].
  simpl in *. apply K. lia.
Qed.

(** ** One step of the lexer, without fuel *)

Lemma lexFrom_step s ln :
  lexFrom s ln =
  ('(s, ln) ← skipWS s ln;
   match s with
   | [] => Ok [mkTok tokEOF [] ln]
   | r :: s' =>
       match punct r with
       | Some k => ts ← lexFrom s' ln; Ok (mkTok k [r] ln :: ts)
       | None =>
           if (r =? 34)%Z then
             match lexString s' ln with
             | None => Err (SErr ln UnterminatedString)
             | Some (sb, rest, l) => ts ← lexFrom rest l; Ok (mkTok tokString sb ln :: ts)
             end
           else if (r =? 58)%Z then
             let '(w, rest) := takeWord s' in
             ts ← lexFrom rest ln; Ok (mkTok tokColonTag w ln :: ts)
           else if negb (isWordRune r) then Err (SErr ln (UnexpectedCharacter r))
           else
             let '(w, rest) := takeWord s in
             ts ← lexFrom rest ln; Ok (mkTok tokWord w ln :: ts)
       end
   end).
Proof.
  unfold lexFrom at 1. cbn [lexLoop].
  destruct (skipWS s ln) as [[s1 l1]|] eqn:E; [|done]. cbn [mbind res_bind].
  apply skipWS_length in E. destruct s1 as [|r t]; [done|]. simpl in E. unfold lexFrom.
  destruct (punct r); [rewrite (lexLoop_fuel _ (S (length t))) by lia; done|].
  destruct (r =? 34)%Z.
  { destruct (lexString t l1) as [[[sb rest] l]|] eqn:Es; [|done]. apply lexString_length in Es.
    rewrite (lexLoop_fuel _ (S (length rest))) by lia. done. }
  destruct (r =? 58)%Z.
  { pose proof (takeWord_length t). destruct (takeWord t) as [w rest]. simpl in *.
    rewrite (lexLoop_fuel _ (S (length rest))) by lia. done. }
  destruct (isWordRune r) eqn:Ew; [|done]. cbn [negb].
  pose proof (takeWord_word_length r t Ew). destruct (takeWord (r :: t)) as [w rest].
  simpl in *. rewrite (lexLoop_fuel _ (S (length rest))) by lia. done.
Qed.

(** ** Lexing a text in front of any other *)

Abbreviation tok := (tokKind * gostr)%type.
Definition erase (t : token) : tok := (kind t, text t).

(** What follows a word must not continue it. *)
Definition NonWordStart (s : gostr) : Prop :=
  match s with r :: _ => isWordRune r = false | [] => True end.

Definition LexTo (s : gostr) (ks : list tok) : Prop :=
  forall rest ln, NonWordStart rest ->
  exists toks ln', erase <$> toks = ks /\
    lexFrom (s ++ rest) ln = (ts ← lexFrom rest ln'; Ok (toks ++ ts)).

Lemma LexTo_nil : LexTo [] [].
Proof. intros rest ln _. exists [], ln. split; [done|]. simpl. by destruct (lexFrom rest ln). Qed.

Lemma LexTo_app s1 s2 k1 k2 :
  LexTo s1 k1 -> LexTo s2 k2 -> NonWordStart s2 -> LexTo (s1 ++ s2) (k1 ++ k2).
Proof.
  intros H1 H2 Hw rest ln Hr.
  destruct (H1 (s2 ++ rest) ln) as (t1 & l1 & E1 & L1); [by destruct s2|].
  destruct (H2 rest l1 Hr) as (t2 & l2 & E2 & L2).
  exists (t1 ++ t2), l2. split; [by rewrite fmap_app, E1, E2|].
  rewrite <- app_assoc, L1, L2. destruct (lexFrom rest l2); [|done].
  simpl. by rewrite app_assoc.
Qed.

(** The shape of the one-token lemmas. *)
Lemma LexTo_cons_token pre s k x ks :
  LexTo s ks ->
  (forall rest ln, exists ln', lexFrom (pre ++ s ++ rest) ln =
     (ts ← lexFrom (s ++ rest) ln'; Ok (mkTok k x ln :: ts))) ->
  LexTo (pre ++ s) ((k, x) :: ks).
Proof.
  intros Hs Hp rest ln Hr. destruct (Hp rest ln) as (l1 & L1).
  destruct (Hs rest l1 Hr) as (t2 & l2 & E2 & L2).
  exists (mkTok k x ln :: t2), l2. split; [csimpl; by rewrite E2|].
  rewrite <- app_assoc, L1, L2. by destruct (lexFrom rest l2).
Qed.

Definition isWS (r : Z) : bool := ((r =? 32) || (r =? 9) || (r =? 13) || (r =? 10))%Z.

Lemma LexTo_ws r s ks : isWS r = true -> LexTo s ks -> LexTo (r :: s) ks.
Proof.
  intros Hr Hs rest ln Hn. destruct (Hs rest (bump r ln) Hn) as (t & l & E & L).
  exists t, l. split; [done|]. rewrite <- L. simpl.
  rewrite (lexFrom_step (r :: _)), (lexFrom_step (s ++ rest)). cbn [skipWS].
  unfold isWS in Hr. by rewrite Hr.
Qed.

(** A rune that neither starts white space nor a comment is where skipping stops. *)
Lemma skipWS_stop r s ln :
  isWS r = false -> (r =? 35)%Z = false -> (r =? 47)%Z = false -> skipWS (r :: s) ln = Ok (r :: s, ln).
Proof. intros H1 H2 H3. cbn [skipWS]. unfold isWS in H1. by rewrite H1, H2, H3. Qed.

Lemma punct_stop r k : punct r = Some k -> isWS r = false /\ (r =? 35)%Z = false /\ (r =? 47)%Z = false.
Proof. unfold punct, isWS. intros H. break_match; to_prop; subst; split_and!; done. Qed.

Lemma word_stop r : isWordRune r = true ->
  isWS r = false /\ (r =? 35)%Z = false /\ (r =? 47)%Z = false /\ punct r = None /\
  (r =? 34)%Z = false /\ (r =? 58)%Z = false.
Proof. unfold isWordRune, isWS, punct. intros H. split_and!; first [lia | break_match; first [done | exfalso; lia]]. Qed.

Lemma LexTo_punct r k s ks : punct r = Some k -> LexTo s ks -> LexTo (r :: s) ((k, [r]) :: ks).
Proof.
  intros Hk Hs. apply (LexTo_cons_token [r]); [done|]. intros rest ln. exists ln.
  simpl. rewrite lexFrom_step. destruct (punct_stop r k Hk) as (? & ? & ?).
  rewrite skipWS_stop by done. cbn [mbind res_bind]. by rewrite Hk.
Qed.

Lemma takeWord_app w s :
  forallb isWordRune w = true -> NonWordStart s -> takeWord (w ++ s) = (w, s).
Proof.
  intros Hw Hs. induction w as [|c w IH]; simpl in *.
  - destruct s as [|r s]; simpl in *; [done|]. by rewrite Hs.
  - apply andb_true_iff in Hw as [-> Hw]. by rewrite IH.
Qed.

Lemma LexTo_word w s ks :
  w ≠ [] -> forallb isWordRune w = true -> NonWordStart s -> LexTo s ks ->
  LexTo (w ++ s) ((tokWord, w) :: ks).
Proof.
  intros Hne Hw Hn Hs rest ln Hr. destruct (Hs rest ln Hr) as (t2 & l2 & E2 & L2).
  exists (mkTok tokWord w ln :: t2), l2. split; [csimpl; by rewrite E2|].
  destruct w as [|r w]; [done|].
  assert (Hr1 : isWordRune r = true) by (simpl in Hw; by apply andb_true_iff in Hw as [? ?]).
  destruct (word_stop r Hr1) as (? & ? & ? & Hp & Hq & Hc).
  assert (NonWordStart (s ++ rest)) as Hnr by (by destruct s).
  rewrite <- app_assoc, lexFrom_step. simpl app at 1.
  rewrite skipWS_stop by done. cbn [mbind res_bind]. rewrite Hp, Hq, Hc, Hr1. cbn [negb].
  change (r :: (w ++ s ++ rest)) with ((r :: w) ++ (s ++ rest)).
  rewrite takeWord_app by done. rewrite L2. by destruct (lexFrom rest l2).
Qed.

Lemma LexTo_tag w s ks :
  forallb isWordRune w = true -> NonWordStart s -> LexTo s ks ->
  LexTo (58%Z :: w ++ s) ((tokColonTag, w) :: ks).
Proof.
  intros Hw Hn Hs rest ln Hr. destruct (Hs rest ln Hr) as (t2 & l2 & E2 & L2).
  exists (mkTok tokColonTag w ln :: t2), l2. split; [csimpl; by rewrite E2|].
  assert (NonWordStart (s ++ rest)) as Hnr by (by destruct s).
  change ((58%Z :: w ++ s) ++ rest) with (58%Z :: ((w ++ s) ++ rest)).
  rewrite <- app_assoc, lexFrom_step, skipWS_stop by done. cbn [mbind res_bind].
  change (punct 58) with (@None tokKind). cbv iota. change (58 =? 34)%Z with false.
  change (58 =? 58)%Z with true. cbv iota.
  rewrite takeWord_app by done. rewrite L2. by destruct (lexFrom rest l2).
Qed.

Lemma sieveEscape_cons r s :
  sieveEscape (r :: s) = (if (r =? 92)%Z || (r =? 34)%Z then [92%Z; r] else [r]) ++ sieveEscape s.
Proof. done. Qed.

(** Reading back an escaped string gives the string, up to the closing quote. *)
Lemma lexString_escape s rest ln : exists l,
  lexString (sieveEscape s ++ [34%Z] ++ rest) ln = Some (s, rest, l).
Proof.
  revert ln. induction s as [|r s IH]; intros ln; [by exists ln|].
  rewrite sieveEscape_cons, <- app_assoc.
  destruct (r =? 92)%Z eqn:E1; [|destruct (r =? 34)%Z eqn:E2]; simpl orb; cbv iota.
  all: destruct (IH (bump r ln)) as [l Hl]; exists l; cbn [app lexString Z.eqb Pos.eqb] in Hl |- *;
    rewrite ?E1, ?E2, Hl; done.
Qed.

Lemma LexTo_quote v s ks : LexTo s ks -> LexTo (sieveQuote v ++ s) ((tokString, v) :: ks).
Proof.
  intros Hs. apply LexTo_cons_token; [done|]. intros rest ln.
  unfold sieveQuote. rewrite <- !app_assoc. cbn [app].
  destruct (lexString_escape v (s ++ rest) ln) as [l Hl]. cbn [app] in Hl. exists l.
  rewrite lexFrom_step, skipWS_stop by done. cbn [mbind res_bind].
  change (punct 34) with (@None tokKind). cbv iota. change (34 =? 34)%Z with true. cbv iota.
  by rewrite Hl.
Qed.

(** ** Literal texts without quotes: their tokens, computed *)

Fixpoint plainLex (fuel : nat) (s : gostr) : option (list tok) :=
  match fuel with
  | 0%nat => None
  | S fuel =>
      match s with
      | [] => Some []
      | r :: s' =>
          if isWS r then plainLex fuel s'
          else match punct r with
               | Some k => cons (k, [r]) <$> plainLex fuel s'
               | None => if isWordRune r then
                           let '(w, rest) := takeWord s in cons (tokWord, w) <$> plainLex fuel rest
                         else None
               end
      end
  end.

Lemma takeWord_word s : forallb isWordRune (takeWord s).1 = true /\ NonWordStart (takeWord s).2.
Proof.
  induction s as [|c t IH]; simpl; [done|]. destruct (isWordRune c) eqn:E; [|by simpl].
  destruct (takeWord t). simpl in *. by rewrite E.
Qed.

Lemma plainLex_app fuel s1 k1 s2 k2 :
  plainLex fuel s1 = Some k1 -> LexTo s2 k2 -> NonWordStart s2 -> LexTo (s1 ++ s2) (k1 ++ k2).
Proof.
  intros H1 H2 Hn. revert s1 k1 H1. induction fuel as [|fuel IH]; intros s1 k1 H1; [done|].
  destruct s1 as [|r t]; simpl in H1; [by simplify_eq|].
  destruct (isWS r) eqn:Ew; [apply LexTo_ws; auto|].
  destruct (punct r) eqn:Ep.
  { apply fmap_Some in H1 as (k' & H1 & ->). simpl. apply LexTo_punct; auto. }
  destruct (isWordRune r) eqn:Er; [|done].
  pose proof (takeWord_split (r :: t)) as Hs. pose proof (takeWord_word (r :: t)) as [Hw Hr].
  assert (Hne : (takeWord (r :: t)).1 ≠ []) by (simpl; rewrite Er; by destruct (takeWord t)).
  assert (Et : takeWord (r :: t) = (let '(w, rest) := takeWord t in (r :: w, rest))) by (simpl; by rewrite Er).
  rewrite <- Et in H1. destruct (takeWord (r :: t)) as [w rest]. simpl in *.
  apply fmap_Some in H1 as (k' & H1 & ->).
  change (r :: t ++ s2) with ((r :: t) ++ s2). rewrite Hs, <- app_assoc. simpl.
  apply LexTo_word; [done|done| |by apply IH]. destruct rest; [done|done].
Qed.
