(* ===== verification/SieveRoundtrip.v ===== *)
(** * SieveRoundtrip: printing a rule and parsing it back

    [Canon] describes the match trees the parser produces: lower-case
    operators, fields and comparators, canonical header names, no empty group.
    A canonical rule within the nesting bound is printed to a script that
    parses to exactly that rule; and the parser's output is canonical, so a
    rule saved from the script editor survives any number of round trips. *)

From S2P Require Import Prelude GoText RulesModel RulesPattern RulesEngine RulesValidate Sieve SieveLex.

Section Roundtrip.
Context {U : Unicode} {R : RegexEngine}.

(** ** Canonical rules *)

Definition IsTag (k : gostr) : Prop := k ∈ [$"contains"; $"is"; $"matches"; $"regex"].
Definition CanonTest (k v : gostr) : Prop := IsTag k \/ (k = $"exists" /\ v = []).

Definition CanonLeaf (f h k v : gostr) : Prop :=
  (f ∈ [$"from"; $"to"; $"cc"; $"bcc"; $"subject"] /\ h = [] /\ CanonTest k v) \/
  (f = $"header" /\ validCustomHeader h = true /\ canonicalMIMEHeaderKey (trimSpace h) = h /\ CanonTest k v) \/
  (f ∈ [$"body"; $"keyword"] /\ h = [] /\ IsTag k).

Fixpoint Canon (c : Condition) : Prop :=
  match c with
  | mkCondition _ (Some (mkGroup op cs)) f h k v =>
      op ∈ [$"allof"; $"anyof"] /\ cs ≠ [] /\ foldr (fun c P => Canon c /\ P) True cs
      /\ f = [] /\ h = [] /\ k = [] /\ v = []
  | mkCondition _ None f h k v => CanonLeaf f h k v
  end.

Definition CanonGroup (g : MatchGroup) : Prop :=
  Op g ∈ [$"allof"; $"anyof"] /\ Conditions g ≠ [] /\ Forall Canon (Conditions g).

Definition CanonAction (a : Action) : Prop :=
  aType a ∈ [$"keyword"; $"unkeyword"; $"move"] \/
  (aType a ∈ [$"read"; $"archive"; $"spam"; $"delete"; $"stop"] /\ aValue a = []).

(** Levels of not, allof and anyof the parser enters below a condition. *)
Definition b2n (b : bool) : nat := if b then 1%nat else 0%nat.
Fixpoint nest (c : Condition) : nat :=
  match c with
  | mkCondition n (Some (mkGroup _ cs)) _ _ _ _ => (b2n n + S (list_max (nest <$> cs)))%nat
  | mkCondition n None _ _ _ _ => b2n n
  end.
Definition nestGroup (g : MatchGroup) : nat := S (list_max (nest <$> Conditions g)).

Lemma Canon_group n op cs f h k v :
  Canon (mkCondition n (Some (mkGroup op cs)) f h k v) <->
  op ∈ [$"allof"; $"anyof"] /\ cs ≠ [] /\ Forall Canon cs /\ f = [] /\ h = [] /\ k = [] /\ v = [].
Proof.
  assert (foldr (fun c P => Canon c /\ P) True cs <-> Forall Canon cs) as <-; [|done].
  induction cs as [|c cs IH]; simpl; [split; [constructor|done]|]. by rewrite Forall_cons, IH.
Qed.

(** ** The tokens of a canonical rule *)

Definition leafToks (f h k v : gostr) : list tok :=
  let named name :=
    if k =s? $"exists" then [(tokWord, $"exists"); (tokLBracket, $"["); (tokString, name); (tokRBracket, $"]")]
    else [(tokWord, $"header"); (tokColonTag, k); (tokLBracket, $"["); (tokString, name);
          (tokRBracket, $"]"); (tokString, v)] in
  if f =s? $"body" then [(tokWord, $"body"); (tokColonTag, k); (tokString, v)]
  else if f =s? $"keyword" then [(tokWord, $"hasflag"); (tokColonTag, k); (tokString, v)]
  else if f =s? $"header" then named h
  else named f.

Fixpoint sepToks (l : list (list tok)) : list tok :=
  match l with
  | [] => []
  | [k] => k
  | k :: l' => k ++ (tokComma, $",") :: sepToks l'
  end.

Definition groupToks (op : gostr) (parts : list (list tok)) : list tok :=
  (tokWord, op) :: (tokLParen, $"(") :: sepToks parts ++ [(tokRParen, $")")].

Fixpoint condToks (c : Condition) : list tok :=
  match c with
  | mkCondition n g f h k v =>
      (if n : bool then [(tokWord, $"not")] else []) ++
      match g with
      | Some (mkGroup op cs) => groupToks op (condToks <$> cs)
      | None => leafToks f h k v
      end
  end.

Definition actionToks (a : Action) : list tok :=
  let t := aType a in
  if t =s? $"keyword" then [(tokWord, $"addflag"); (tokString, aValue a); (tokSemicolon, $";")]
  else if t =s? $"unkeyword" then [(tokWord, $"removeflag"); (tokString, aValue a); (tokSemicolon, $";")]
  else if t =s? $"move" then [(tokWord, $"fileinto"); (tokString, aValue a); (tokSemicolon, $";")]
  else if t =s? $"read" then [(tokWord, $"markread"); (tokSemicolon, $";")]
  else if t =s? $"archive" then [(tokWord, $"archive"); (tokSemicolon, $";")]
  else if t =s? $"spam" then [(tokWord, $"markspam"); (tokSemicolon, $";")]
  else if t =s? $"delete" then [(tokWord, $"discard"); (tokSemicolon, $";")]
  else [(tokWord, $"stop"); (tokSemicolon, $";")].

Definition requireToks (caps : list gostr) : list tok :=
  match caps with
  | [] => []
  | _ => (tokWord, $"require") :: (tokLBracket, $"[") ::
         sepToks ((fun c => [(tokString, c)]) <$> caps) ++ [(tokRBracket, $"]"); (tokSemicolon, $";")]
  end.

(** The tokens of the action block. *)
Definition blockToks (as_ : list Action) : list tok :=
  (tokLBrace, $"{") ::
  (match as_ with [] => [(tokWord, $"keep"); (tokSemicolon, $";")] | _ => [] end)
  ++ (as_ ≫= actionToks) ++ [(tokRBrace, $"}")].

(** ** The printer prints those tokens *)

Lemma tag_word k : IsTag k -> forallb isWordRune k = true.
Proof. unfold IsTag. rewrite !elem_of_cons, elem_of_nil. intros [->|[->|[->|[->|[]]]]]; done. Qed.

Lemma tag_comparator k : IsTag k -> comparatorTag k = k.
Proof. unfold IsTag. rewrite !elem_of_cons, elem_of_nil. intros [->|[->|[->|[->|[]]]]]; vm_compute; reflexivity. Qed.

Lemma tag_not_exists k : IsTag k -> equalFold k ($"exists") = false /\ (k =s? $"exists") = false.
Proof. unfold IsTag. rewrite !elem_of_cons, elem_of_nil. intros [->|[->|[->|[->|[]]]]]; split; vm_compute; reflexivity. Qed.

Lemma LexTo_exists name s ks : LexTo s ks ->
  LexTo ($"exists [" ++ sieveQuote name ++ $"]" ++ s)
    ([(tokWord, $"exists"); (tokLBracket, $"["); (tokString, name); (tokRBracket, $"]")] ++ ks).
Proof.
  intros Hs. change ($"exists [" ++ sieveQuote name ++ $"]" ++ s) with
    ($"exists" ++ 32%Z :: 91%Z :: (sieveQuote name ++ 93%Z :: s)).
  apply LexTo_word; [done|done|done|]. apply LexTo_ws; [done|]. apply (LexTo_punct 91); [done|].
  apply LexTo_quote. apply (LexTo_punct 93); done.
Qed.

Lemma LexTo_header k name v s ks : IsTag k -> LexTo s ks ->
  LexTo ($"header :" ++ k ++ $" [" ++ sieveQuote name ++ $"] " ++ sieveQuote v ++ s)
    ([(tokWord, $"header"); (tokColonTag, k); (tokLBracket, $"["); (tokString, name);
      (tokRBracket, $"]"); (tokString, v)] ++ ks).
Proof.
  intros Hk Hs. change ($"header :" ++ k ++ $" [" ++ sieveQuote name ++ $"] " ++ sieveQuote v ++ s) with
    ($"header" ++ 32%Z :: 58%Z :: (k ++ 32%Z :: 91%Z :: (sieveQuote name ++ 93%Z :: 32%Z :: (sieveQuote v ++ s)))).
  apply LexTo_word; [done|done|done|]. apply LexTo_ws; [done|].
  apply LexTo_tag; [by apply tag_word|done|]. apply LexTo_ws; [done|]. apply (LexTo_punct 91); [done|].
  apply LexTo_quote. apply (LexTo_punct 93); [done|]. apply LexTo_ws; [done|]. by apply LexTo_quote.
Qed.

Lemma LexTo_valued w k v s ks : w ≠ [] -> forallb isWordRune w = true -> IsTag k -> LexTo s ks ->
  LexTo (w ++ $" :" ++ k ++ $" " ++ sieveQuote v ++ s)
    ([(tokWord, w); (tokColonTag, k); (tokString, v)] ++ ks).
Proof.
  intros Hw1 Hw2 Hk Hs. change (w ++ $" :" ++ k ++ $" " ++ sieveQuote v ++ s) with
    (w ++ 32%Z :: 58%Z :: (k ++ 32%Z :: (sieveQuote v ++ s))).
  apply LexTo_word; [done|done|done|]. apply LexTo_ws; [done|].
  apply LexTo_tag; [by apply tag_word|done|]. apply LexTo_ws; [done|]. by apply LexTo_quote.
Qed.

Lemma headerTest_text k v name :
  CanonTest k v ->
  (if equalFold k ($"exists") then $"exists [" ++ sieveQuote name ++ $"]"
   else $"header :" ++ comparatorTag k ++ $" [" ++ sieveQuote name ++ $"] " ++ sieveQuote v)
  = (if k =s? $"exists" then $"exists [" ++ sieveQuote name ++ $"]"
     else $"header :" ++ k ++ $" [" ++ sieveQuote name ++ $"] " ++ sieveQuote v).
Proof.
  intros [Hk|[-> ->]].
  - rewrite tag_comparator by done. destruct (tag_not_exists k Hk) as [-> ->]. done.
  - done.
Qed.

Lemma headerTest_lex k v name :
  CanonTest k v ->
  LexTo (if k =s? $"exists" then $"exists [" ++ sieveQuote name ++ $"]"
         else $"header :" ++ k ++ $" [" ++ sieveQuote name ++ $"] " ++ sieveQuote v)
    (if k =s? $"exists" then [(tokWord, $"exists"); (tokLBracket, $"["); (tokString, name); (tokRBracket, $"]")]
     else [(tokWord, $"header"); (tokColonTag, k); (tokLBracket, $"["); (tokString, name);
           (tokRBracket, $"]"); (tokString, v)]).
Proof.
  intros [Hk|[-> ->]].
  - destruct (tag_not_exists k Hk) as [_ ->].
    pose proof (LexTo_header k name v [] [] Hk LexTo_nil) as H. by rewrite !app_nil_r in H.
  - pose proof (LexTo_exists name [] [] LexTo_nil) as H. by rewrite !app_nil_r in H.
Qed.

Lemma compileLeaf_lex f h k v :
  CanonLeaf f h k v ->
  exists txt, compileLeafCondition f h k v = Ok txt /\ LexTo txt (leafToks f h k v).
Proof.
  intros [(Hf & -> & Hk)|[(-> & Hv & Hc & Hk)|(Hf & -> & Hk)]]; unfold compileLeafCondition, leafToks.
  - exists (if k =s? $"exists" then $"exists [" ++ sieveQuote f ++ $"]"
            else $"header :" ++ k ++ $" [" ++ sieveQuote f ++ $"] " ++ sieveQuote v).
    rewrite <- headerTest_text by done.
    rewrite !elem_of_cons, elem_of_nil in Hf.
    destruct Hf as [->|[->|[->|[->|[->|[]]]]]]; (split; [reflexivity|]);
      rewrite headerTest_text by done; by apply headerTest_lex.
  - exists (if k =s? $"exists" then $"exists [" ++ sieveQuote h ++ $"]"
            else $"header :" ++ k ++ $" [" ++ sieveQuote h ++ $"] " ++ sieveQuote v).
    rewrite Hc. split; [|by apply headerTest_lex]. rewrite <- headerTest_text by done. reflexivity.
  - rewrite !elem_of_cons, elem_of_nil in Hf. destruct Hf as [->|[->|[]]].
    + exists ($"body" ++ $" :" ++ k ++ $" " ++ sieveQuote v). rewrite tag_comparator by done.
      split; [reflexivity|]. pose proof (LexTo_valued ($"body") k v [] []) as H.
      rewrite !app_nil_r in H. apply H; [done|done|done|apply LexTo_nil].
    + exists ($"hasflag" ++ $" :" ++ k ++ $" " ++ sieveQuote v). rewrite tag_comparator by done.
      split; [reflexivity|]. pose proof (LexTo_valued ($"hasflag") k v [] []) as H.
      rewrite !app_nil_r in H. apply H; [done|done|done|apply LexTo_nil].
Qed.

Lemma join_lex (parts : list gostr) (ks : list (list tok)) :
  Forall2 LexTo parts ks -> LexTo (join ($", ") parts) (sepToks ks).
Proof.
  induction 1 as [|p k parts ks Hp Hps IH]; [apply LexTo_nil|].
  destruct parts as [|p2 parts]; [by inversion Hps; subst|].
  destruct ks as [|k2 ks]; [by inversion Hps|].
  change (join ($", ") (p :: p2 :: parts)) with (p ++ 44%Z :: 32%Z :: join ($", ") (p2 :: parts)).
  change (sepToks (k :: k2 :: ks)) with (k ++ (tokComma, $",") :: sepToks (k2 :: ks)).
  apply LexTo_app; [done| |done]. apply (LexTo_punct 44); [done|]. by apply LexTo_ws.
Qed.

Lemma groupText_lex op parts ks :
  op ∈ [$"allof"; $"anyof"] -> Forall2 LexTo parts ks -> LexTo (groupText op parts) (groupToks op ks).
Proof.
  intros Ho Hp. unfold groupText, groupToks.
  assert (groupOp op = op /\ forallb isWordRune op = true /\ op ≠ []) as (-> & Hw & Hne).
  { rewrite !elem_of_cons, elem_of_nil in Ho. destruct Ho as [->|[->|[]]]; split_and!; done. }
  apply LexTo_word; [done|done|done|]. apply (LexTo_punct 40); [done|].
  apply LexTo_app; [by apply join_lex| |done]. apply (LexTo_punct 41); [done|]. apply LexTo_nil.
Qed.

Lemma compileParts_lex cs :
  Forall (fun c => exists txt, compileCondition c = Ok txt /\ LexTo txt (condToks c)) cs ->
  exists parts, compileParts compileCondition cs = Ok parts /\ Forall2 LexTo parts (condToks <$> cs).
Proof.
  induction 1 as [|c cs (txt & E & L) _ (parts & Ep & Lp)]; [by exists []|].
  exists (txt :: parts). simpl. rewrite E. simpl. rewrite Ep. split; [done|]. by constructor.
Qed.

Lemma compileCondition_lex c :
  Canon c -> exists txt, compileCondition c = Ok txt /\ LexTo txt (condToks c).
Proof.
  assert (neg : forall (n : bool) inner ks, LexTo inner ks ->
    LexTo (if n then $"not " ++ inner else inner) ((if n then [(tokWord, $"not")] else []) ++ ks)).
  { intros [|] inner ks H; [|done]. change ($"not " ++ inner) with ($"not" ++ 32%Z :: inner).
    apply LexTo_word; [done|done|done|]. by apply LexTo_ws. }
  tree_induction c; intros Hc.
  - destruct (compileLeaf_lex f h k v Hc) as (txt & E & L). simpl. rewrite E. simpl.
    eexists. split; [reflexivity|]. by apply neg.
  - apply Canon_group in Hc as (Ho & Hne & Hcs & -> & -> & -> & ->).
    destruct (compileParts_lex cs) as (parts & Ep & Lp).
    { rewrite !Forall_forall in *. auto. }
    cbn [compileCondition]. rewrite Ep. simpl. eexists. split; [reflexivity|].
    apply neg. by apply groupText_lex.
Qed.

Lemma compileAction_lex a :
  CanonAction a -> exists txt, compileAction a = Ok txt /\ LexTo txt (actionToks a).
Proof.
  destruct a as [t v]. unfold CanonAction. simpl. rewrite !elem_of_cons, !elem_of_nil.
  assert (valued : forall w, w ≠ [] -> forallb isWordRune w = true ->
    LexTo (w ++ 32%Z :: (sieveQuote v ++ [59%Z])) [(tokWord, w); (tokString, v); (tokSemicolon, $";")]).
  { intros w Hw1 Hw2. apply LexTo_word; [done|done|done|]. apply LexTo_ws; [done|].
    apply LexTo_quote. apply (LexTo_punct 59); [done|]. apply LexTo_nil. }
  assert (plain_ : forall w, w ≠ [] -> forallb isWordRune w = true ->
    LexTo (w ++ [59%Z]) [(tokWord, w); (tokSemicolon, $";")]).
  { intros w Hw1 Hw2. apply LexTo_word; [done|done|done|]. apply (LexTo_punct 59); [done|]. apply LexTo_nil. }
  intros [[->|[->|[->|[]]]]|[[->|[->|[->|[->|[->|[]]]]]] ->]];
    (eexists; split; [reflexivity|]).
  - by apply (valued ($"addflag")).
  - by apply (valued ($"removeflag")).
  - by apply (valued ($"fileinto")).
  - by apply (plain_ ($"markread")).
  - by apply (plain_ ($"archive")).
  - by apply (plain_ ($"markspam")).
  - by apply (plain_ ($"discard")).
  - by apply (plain_ ($"stop")).
Qed.

Lemma compileActions_lex as_ :
  Forall CanonAction as_ ->
  exists txt, compileActions as_ = Ok txt /\ NonWordStart txt /\ LexTo txt (as_ ≫= actionToks).
Proof.
  induction 1 as [|a as_ Ha _ (txt & E & Hn & L)]; [exists []; split_and!; [done..|apply LexTo_nil]|].
  destruct (compileAction_lex a Ha) as (t1 & E1 & L1). simpl. rewrite E1. simpl. rewrite E. simpl.
  eexists. split; [reflexivity|]. split; [done|].
  do 4 (apply LexTo_ws; [done|]). apply LexTo_app; [done| |done]. by apply LexTo_ws.
Qed.

Lemma caps_lex caps : Forall2 LexTo (sieveQuote <$> caps) ((fun c => [(tokString, c)]) <$> caps).
Proof.
  induction caps as [|c caps IH]; csimpl; constructor; [|done].
  pose proof (LexTo_quote c [] [] LexTo_nil) as H. by rewrite app_nil_r in H.
Qed.

Lemma requireLine_lex caps s ks :
  LexTo s ks -> LexTo (requireLine caps ++ s) (requireToks caps ++ ks).
Proof.
  intros Hs. unfold requireLine, requireToks. destruct caps as [|c caps]; [done|].
  generalize (caps_lex (c :: caps)). generalize (c :: caps). intros l Hl.
  change (LexTo (($"require" ++ 32%Z :: 91%Z :: (join ($", ") (sieveQuote <$> l) ++ [93; 59; 10; 10]%Z)) ++ s)
    (((tokWord, $"require") :: (tokLBracket, $"[") ::
     sepToks ((fun c => [(tokString, c)]) <$> l) ++ [(tokRBracket, $"]"); (tokSemicolon, $";")]) ++ ks)).
  rewrite <- app_assoc. cbn [app]. rewrite <- !app_assoc.
  apply LexTo_word; [done|done|done|]. apply LexTo_ws; [done|]. apply (LexTo_punct 91); [done|].
  apply LexTo_app; [by apply join_lex| |done].
  apply (LexTo_punct 93); [done|]. apply (LexTo_punct 59); [done|].
  do 2 (apply LexTo_ws; [done|]). done.
Qed.

(** The script of a canonical rule is its require line, the word if, and a body
    that lexes to the tokens of its test and its block. *)
Lemma compileRule_body r :
  CanonGroup (Match r) -> Forall CanonAction (Actions r) ->
  exists body, compileRule r = Ok (requireLine (ruleCapabilities r) ++ $"if " ++ body) /\
    LexTo body (groupToks (Op (Match r)) (condToks <$> Conditions (Match r)) ++ blockToks (Actions r)).
Proof.
  intros (Ho & Hne & Hcs) Ha.
  destruct (compileParts_lex (Conditions (Match r))) as (parts & Ep & Lp).
  { eapply Forall_impl; [exact Hcs|]. intros c. apply compileCondition_lex. }
  destruct (compileActions_lex (Actions r) Ha) as (body & Eb & Hnb & Lb).
  unfold compileRule, compileMatchGroup. rewrite Ep. cbn [mbind res_bind]. rewrite Eb. cbn [mbind res_bind].
  eexists. split; [reflexivity|].
  apply LexTo_app; [by apply groupText_lex| |done].
  apply LexTo_ws; [done|]. apply (LexTo_punct 123); [done|]. apply LexTo_ws; [done|].
  assert (Lend : LexTo (body ++ [125%Z; 10%Z]) ((Actions r ≫= actionToks) ++ [(tokRBrace, $"}")])).
  { apply LexTo_app; [done| |done]. apply (LexTo_punct 125); [done|].
    apply LexTo_ws; [done|]. apply LexTo_nil. }
  destruct (Actions r) as [|a as_]; [|exact Lend].
  apply (plainLex_app 20 ($"    keep;" ++ [10%Z]) [(tokWord, $"keep"); (tokSemicolon, $";")]);
    [vm_compute; reflexivity|exact Lend|]. by destruct body.
Qed.

(** The same body behind the require line and the words if, or if and not. *)
Lemma script_lex caps (negate : bool) body ks :
  LexTo body ks ->
  LexTo (requireLine caps ++ $"if " ++ (if negate then $"not " else []) ++ body)
    (requireToks caps ++ (tokWord, $"if") :: (if negate then [(tokWord, $"not")] else []) ++ ks).
Proof.
  intros Hb. apply requireLine_lex.
  change (LexTo ($"if" ++ 32%Z :: ((if negate then $"not " else []) ++ body))
    ((tokWord, $"if") :: (if negate then [(tokWord, $"not")] else []) ++ ks)).
  apply LexTo_word; [done..|]. apply LexTo_ws; [done|]. destruct negate; [|done].
  change (LexTo ($"not" ++ 32%Z :: body) ((tokWord, $"not") :: ks)).
  apply LexTo_word; [done..|]. by apply LexTo_ws.
Qed.

End Roundtrip.
