(* ===== verification/SieveParse.v ===== *)
(** * SieveParse: the parser reads back what the printer wrote

    The parser applied to the tokens of a canonical rule returns that rule
    ([parseTokens_canon]); with the lexer lemmas this gives the round trip.
    The second part bounds the parser's loops: no call runs out of fuel. *)

From S2P Require Import Prelude GoText RulesModel RulesPattern RulesEngine RulesValidate Sieve SieveLex SieveRoundtrip.

#[local] Arguments next : simpl never.
#[local] Arguments expect : simpl never.
#[local] Arguments lit : simpl never.

(** ** Token streams *)

Lemma erase_cons_inv ts k x ks :
  erase <$> ts = (k, x) :: ks ->
  exists t ts', ts = t :: ts' /\ kind t = k /\ text t = x /\ erase <$> ts' = ks.
Proof. destruct ts as [|t ts]; [done|]. intros [= <- <- <-]. by exists t, ts. Qed.

Lemma erase_app_inv ts k1 k2 :
  erase <$> ts = k1 ++ k2 -> exists t1 t2, ts = t1 ++ t2 /\ erase <$> t1 = k1 /\ erase <$> t2 = k2.
Proof. intros H. apply fmap_app_inv in H as (t1 & t2 & -> & -> & ->). by exists t1, t2. Qed.

Lemma erase_nil_inv ts : erase <$> ts = [] -> ts = [].
Proof. by destruct ts. Qed.

(** Split a token list along its erasure. *)
Ltac erase_inv :=
  repeat match goal with
  | H : erase <$> ?ts = (_, _) :: _ |- _ =>
      apply erase_cons_inv in H as (?t & ?ts' & -> & ? & ? & H)
  | H : erase <$> ?ts = [] |- _ => apply erase_nil_inv in H as ->
  end.

Lemma peek_cons t l : peek (t :: l) = t.
Proof. done. Qed.

Lemma next_cons t l : l ≠ [] -> next (t :: l) = (t, l).
Proof. by destruct l. Qed.

Lemma expect_cons k t l : kind t = k -> l ≠ [] -> expect k (t :: l) = Ok (t, l).
Proof.
  intros Hk Hl. unfold expect. simpl. rewrite bool_decide_eq_true_2 by done. by rewrite next_cons.
Qed.

Lemma app_ne_r {A} (l1 l2 : list A) : l2 ≠ [] -> l1 ++ l2 ≠ [].
Proof. by destruct l1, l2. Qed.

#[local] Hint Resolve app_ne_r : kypost.
#[local] Hint Extern 1 (_ :: _ ≠ []) => discriminate : kypost.

Section Parse.
Context {U : Unicode} {R : RegexEngine}.

Lemma expectSemicolon_cons t l : kind t = tokSemicolon -> l ≠ [] -> expectSemicolon (t :: l) = Ok (tt, l).
Proof. intros. unfold expectSemicolon. by rewrite expect_cons. Qed.

Lemma parseComparatorTag_cons d t l :
  kind t = tokColonTag -> IsTag (text t) -> l ≠ [] -> parseComparatorTag d (t :: l) = Ok (text t, l).
Proof.
  intros Hk Ht Hl. unfold parseComparatorTag. cbn [peek head default].
  rewrite (bool_decide_eq_true_2 (kind t = tokColonTag)) by done. cbn [negb].
  rewrite next_cons by done. cbv zeta iota.
  assert (toLower (text t) = text t) as ->.
  { unfold IsTag in Ht. rewrite !elem_of_cons, elem_of_nil in Ht.
    by destruct Ht as [->|[->|[->|[->|[]]]]]. }
  by rewrite bool_decide_eq_true_2.
Qed.

(** The list loop over strings separated by commas, up to the bracket. *)
Lemma stringListLoop_strings ss fuel out ts b l :
  ss ≠ [] -> (length ss <= fuel)%nat -> kind b = tokRBracket -> l ≠ [] ->
  erase <$> ts = sepToks ((fun c => [(tokString, c)]) <$> ss) ->
  stringListLoop fuel out (ts ++ b :: l) = Ok (out ++ ss, b :: l).
Proof.
  revert ss out ts. induction fuel as [|fuel IH]; intros ss out ts Hne Hf Hb Hl E.
  { destruct ss; simpl in *; [done|lia]. }
  destruct ss as [|s ss]; [done|]. simpl in Hf. destruct ss as [|s2 ss].
  - simpl in E. erase_inv. cbn [stringListLoop app]. rewrite peek_cons.
    rewrite bool_decide_eq_false_2 by congruence.
    rewrite expect_cons by auto with kypost. cbn [mbind res_bind]. rewrite peek_cons.
    rewrite bool_decide_eq_false_2 by congruence. congruence.
  - change (sepToks ((fun c => [(tokString, c)]) <$> s :: s2 :: ss)) with
      ((tokString, s) :: (tokComma, $",") :: sepToks ((fun c => [(tokString, c)]) <$> s2 :: ss)) in E.
    erase_inv. cbn [stringListLoop app]. rewrite peek_cons.
    rewrite bool_decide_eq_false_2 by congruence.
    rewrite expect_cons by auto with kypost. cbn [mbind res_bind]. rewrite peek_cons.
    rewrite bool_decide_eq_true_2 by done. rewrite next_cons by auto with kypost. simpl snd.
    rewrite (IH (s2 :: ss)); [|done|simpl in *; lia|done|done|done].
    rewrite <- app_assoc. simpl. congruence.
Qed.

Lemma sep_length {A} (f : A -> list tok) (l : list A) :
  (forall x, f x ≠ []) -> (length l <= length (sepToks (f <$> l)))%nat.
Proof.
  intros Hf. induction l as [|x [|y l] IH]; [simpl; lia|..].
  - simpl. specialize (Hf x). destruct (f x); simpl; [done|lia].
  - change (sepToks (f <$> x :: y :: l)) with (f x ++ (tokComma, $",") :: sepToks (f <$> y :: l)).
    rewrite length_app. cbn [length] in *. lia.
Qed.

Lemma parseStringList_strings ss a ts b l :
  ss ≠ [] -> kind a = tokLBracket -> kind b = tokRBracket -> l ≠ [] ->
  erase <$> ts = sepToks ((fun c => [(tokString, c)]) <$> ss) ->
  parseStringList (a :: ts ++ b :: l) = Ok (ss, l).
Proof.
  intros Hne Ha Hb Hl E. unfold parseStringList.
  rewrite expect_cons by auto with kypost. cbn [mbind res_bind].
  rewrite (stringListLoop_strings ss) by
    (try done; rewrite length_app; pose proof (sep_length (fun c => [(tokString, c)]) ss) as Hs;
     rewrite <- E, length_fmap in Hs; specialize (Hs ltac:(done)); lia).
  cbn [mbind res_bind]. by rewrite expect_cons.
Qed.

(** The list the printer writes for a header test: one string. *)
Lemma parseStringList_one a t b l :
  kind a = tokLBracket -> kind t = tokString -> kind b = tokRBracket -> l ≠ [] ->
  parseStringList (a :: t :: b :: l) = Ok ([text t], l).
Proof.
  intros Ha Ht Hb Hl. apply (parseStringList_strings [text t] a [t] b); try done.
  csimpl. by rewrite <- Ht.
Qed.

Lemma checkFields_one ln custom f :
  validHeaderAddressFields (normalizeField f) = true \/ (custom = true /\ validCustomHeader f = true) ->
  checkFields ln custom [f] = Ok tt.
Proof. simpl. intros [->|[-> ->]]; [done|]. simpl. by rewrite andb_false_r. Qed.

(** A field a header test may name, and the leaf it becomes. *)
Definition NamedField (name f h : gostr) : Prop :=
  (validHeaderAddressFields (normalizeField name) = true \/ validCustomHeader name = true) /\
  forall k v, fieldLeaf k v name = leafCond f h k v.

Lemma named_address f : f ∈ [$"from"; $"to"; $"cc"; $"bcc"; $"subject"] -> NamedField f f [].
Proof.
  rewrite !elem_of_cons, elem_of_nil.
  intros [->|[->|[->|[->|[->|[]]]]]]; (split; [left; reflexivity|reflexivity]).
Qed.

Lemma named_custom h :
  validCustomHeader h = true -> canonicalMIMEHeaderKey (trimSpace h) = h -> NamedField h ($"header") h.
Proof.
  intros Hv Hc. split; [by right|]. intros k v. unfold fieldLeaf. rewrite Hc.
  unfold validCustomHeader in Hv. to_prop.
  destruct (validHeaderAddressFields (normalizeField h)); done.
Qed.

(** The word that opens a test decides the branch. *)
Ltac word_branch :=
  cbn [parseTest app]; unfold parseLeafTest; rewrite ?peek_cons; cbv zeta;
  match goal with Hk : kind ?t = tokWord, Hx : text ?t = _ |- context [kind ?t] =>
    rewrite Hk, Hx; cbn [negb]; rewrite (bool_decide_eq_true_2 (tokWord = tokWord)) by done; cbn [negb];
    repeat match goal with
    | |- context [equalFold ($?a) ($?b)] =>
        let v := eval vm_compute in (equalFold (U := latin1) ($a) ($b)) in
        change (equalFold ($a) ($b)) with v; cbn [orb]; cbv iota
    end
  end.

Lemma parse_named name f h k v lv ts rest :
  NamedField name f h -> CanonTest k v -> rest ≠ [] ->
  erase <$> ts = (if k =s? $"exists" then [(tokWord, $"exists"); (tokLBracket, $"["); (tokString, name); (tokRBracket, $"]")]
     else [(tokWord, $"header"); (tokColonTag, k); (tokLBracket, $"["); (tokString, name);
           (tokRBracket, $"]"); (tokString, v)]) ->
  parseTest lv (ts ++ rest) = Ok (leafCond f h k v, rest).
Proof.
  intros [Hn Hl] Ht Hr E. destruct Ht as [Hk|[-> ->]].
  - destruct (tag_not_exists k Hk) as [_ Ek]. rewrite Ek in E. erase_inv. subst k name v.
    destruct lv; word_branch; rewrite next_cons by auto with kypost; cbn [snd];
      (rewrite parseComparatorTag_cons by auto with kypost; cbn [mbind res_bind]);
      rewrite parseStringList_one by auto with kypost;
      cbn [mbind res_bind]; rewrite expect_cons by auto with kypost; cbn [mbind res_bind];
      (rewrite checkFields_one by (destruct Hn; auto)); cbn [mbind res_bind fieldsToCondition]; by rewrite Hl.
  - change ($"exists" =s? $"exists") with true in E. cbv iota in E. erase_inv. subst name.
    destruct lv; word_branch; rewrite next_cons by auto with kypost; cbn [snd];
      rewrite parseStringList_one by auto with kypost;
      cbn [mbind res_bind]; (rewrite checkFields_one by (destruct Hn; auto));
      cbn [mbind res_bind fieldsToCondition]; by rewrite Hl.
Qed.

Lemma parse_valued w f k v lv ts rest :
  (w = $"body" /\ f = $"body") \/ (w = $"hasflag" /\ f = $"keyword") -> IsTag k -> rest ≠ [] ->
  erase <$> ts = [(tokWord, w); (tokColonTag, k); (tokString, v)] ->
  parseTest lv (ts ++ rest) = Ok (leafCond f [] k v, rest).
Proof.
  intros Hw Hk Hr E. erase_inv. subst k v.
  destruct Hw as [[-> ->]|[-> ->]]; destruct lv; word_branch; rewrite next_cons by auto with kypost; cbn [snd];
    rewrite parseComparatorTag_cons by auto with kypost; cbn [mbind res_bind];
    rewrite expect_cons by auto with kypost; done.
Qed.

Lemma parse_leaf f h k v lv ts rest :
  CanonLeaf f h k v -> rest ≠ [] -> erase <$> ts = leafToks f h k v ->
  parseTest lv (ts ++ rest) = Ok (leafCond f h k v, rest).
Proof.
  intros [(Hf & -> & Hk)|[(-> & Hv & Hc & Hk)|(Hf & -> & Hk)]] Hr E.
  - apply (parse_named f); [by apply named_address|done|done|]. rewrite E.
    rewrite !elem_of_cons, elem_of_nil in Hf. by destruct Hf as [->|[->|[->|[->|[->|[]]]]]].
  - apply (parse_named h); [by apply named_custom|done|done|]. by rewrite E.
  - rewrite !elem_of_cons, elem_of_nil in Hf. destruct Hf as [->|[->|[]]].
    + eapply parse_valued; eauto.
    + eapply (parse_valued ($"hasflag")); eauto.
Qed.

(** The comma-separated tests of a group, up to the closing parenthesis. *)
Lemma testsLoop_canon test cs fuel conds ts b l :
  cs ≠ [] -> (length cs <= fuel)%nat -> kind b = tokRParen ->
  (forall c ts rest, c ∈ cs -> rest ≠ [] -> erase <$> ts = condToks c -> test (ts ++ rest) = Ok (c, rest)) ->
  erase <$> ts = sepToks (condToks <$> cs) ->
  testsLoop test fuel conds (ts ++ b :: l) = Ok (conds ++ cs, b :: l).
Proof.
  revert cs conds ts. induction fuel as [|fuel IH]; intros cs conds ts Hne Hf Hb Ht E.
  { destruct cs; simpl in *; [done|lia]. }
  destruct cs as [|c cs]; [done|]. simpl in Hf. destruct cs as [|c2 cs].
  - cbn [testsLoop]. rewrite (Ht c ts) by (auto with kypost; left). cbn [mbind res_bind].
    rewrite peek_cons, bool_decide_eq_false_2 by congruence. done.
  - change (sepToks (condToks <$> c :: c2 :: cs)) with
      (condToks c ++ (tokComma, $",") :: sepToks (condToks <$> c2 :: cs)) in E.
    apply erase_app_inv in E as (t1 & t2 & -> & E1 & E2). erase_inv.
    rewrite <- app_assoc. cbn [testsLoop app]. rewrite (Ht c t1) by (auto with kypost; left).
    cbn [mbind res_bind]. rewrite peek_cons, bool_decide_eq_true_2, next_cons by auto with kypost. cbn [snd].
    rewrite (IH (c2 :: cs)); [by rewrite <- app_assoc|done|simpl in *; lia|done| |done].
    intros; apply Ht; [by right|done|done].
Qed.

Lemma condToks_nonempty c : condToks c ≠ [].
Proof.
  destruct c as [[] [[op cs]|] f h k v]; simpl; try done.
  unfold leafToks. by repeat case_match.
Qed.

Lemma nest_le cs c n : (list_max (nest <$> cs) <= n)%nat -> c ∈ cs -> (nest c <= n)%nat.
Proof.
  induction cs as [|x cs IH]; csimpl; intros H Hc; [by apply elem_of_nil in Hc|].
  apply elem_of_cons in Hc as [->|Hc]; [lia|]. apply IH; [lia|done].
Qed.

Lemma parse_group test_ok op cs lv ts rest :
  test_ok = parseTest lv -> op ∈ [$"allof"; $"anyof"] -> cs ≠ [] -> rest ≠ [] ->
  (forall c ts rest, c ∈ cs -> rest ≠ [] -> erase <$> ts = condToks c -> test_ok (ts ++ rest) = Ok (c, rest)) ->
  erase <$> ts = groupToks op (condToks <$> cs) ->
  parseTest (S lv) (ts ++ rest) = Ok (groupCond op cs, rest).
Proof.
  intros -> Ho Hne Hr Ht E. unfold groupToks in E. erase_inv.
  apply erase_app_inv in E as (t1 & t2 & -> & E1 & E2). erase_inv.
  assert (length cs <= length t1)%nat as Hlen.
  { rewrite <- (length_fmap erase t1), E1. apply sep_length, condToks_nonempty. }
  rewrite !elem_of_cons, elem_of_nil in Ho. destruct Ho as [->|[->|[]]]; word_branch.
  all: rewrite next_cons by auto with kypost; cbn [snd]; rewrite <- app_assoc; cbn [app].
  all: rewrite expect_cons by auto with kypost; cbn [mbind res_bind].
  all: rewrite (testsLoop_canon _ cs) by (try done; rewrite length_app; lia).
  all: cbn [mbind res_bind app]; rewrite expect_cons by auto with kypost; done.
Qed.

Lemma parse_neg (n : bool) lv ts rest c ks :
  (forall ts, erase <$> ts = ks -> parseTest lv (ts ++ rest) = Ok (c, rest)) ->
  ks ≠ [] -> erase <$> ts = (if n then [(tokWord, $"not")] else []) ++ ks ->
  parseTest (b2n n + lv) (ts ++ rest) = Ok (if n then flipNegate c else c, rest).
Proof.
  intros H Hk E. destruct n; [|by apply H].
  cbn [app] in E. erase_inv. change (b2n true + lv)%nat with (S lv). word_branch.
  destruct ts' as [|t0 ts']; [by simpl in E|]. rewrite next_cons by done. cbn [snd].
  by rewrite (H (t0 :: ts')).
Qed.

Lemma parseTest_canon c lv ts rest :
  Canon c -> (nest c <= lv)%nat -> rest ≠ [] -> erase <$> ts = condToks c ->
  parseTest lv (ts ++ rest) = Ok (c, rest).
Proof.
  revert lv ts rest. tree_induction c; intros lv ts rest Hc Hn Hr E.
  - simpl in Hn. replace lv with (b2n n + (lv - b2n n))%nat by lia.
    rewrite (parse_neg n _ ts rest (leafCond f h k v) (leafToks f h k v)); [by destruct n| |..|done].
    + intros. by apply parse_leaf.
    + apply (condToks_nonempty (leafCond f h k v)).
  - apply Canon_group in Hc as (Ho & Hne & Hcs & -> & -> & -> & ->).
    cbn [nest] in Hn. replace lv with (b2n n + S (lv - b2n n - 1))%nat by lia.
    rewrite (parse_neg n _ ts rest (groupCond op cs) (groupToks op (condToks <$> cs))); [by destruct n| |done|done].
    intros ts' E'. eapply parse_group; eauto. intros c ts0 rest0 Hin Hr0 E0.
    rewrite Forall_forall in IH, Hcs. apply IH; auto. apply (nest_le cs); [lia|done].
Qed.

(** ** Actions and the require line *)

Lemma parseAction_canon a ts rest :
  CanonAction a -> rest ≠ [] -> erase <$> ts = actionToks a -> parseAction (ts ++ rest) = Ok (a, rest).
Proof.
  intros Ha Hr E. destruct a as [ty v]. unfold CanonAction in Ha. cbn [aType aValue] in Ha.
  assert (valued : forall w, toLower w = w -> forall t t0 t1,
    kind t = tokWord -> text t = w -> kind t0 = tokString -> text t0 = v -> kind t1 = tokSemicolon ->
    w = $"addflag" /\ ty = $"keyword" \/ w = $"removeflag" /\ ty = $"unkeyword" \/ w = $"fileinto" /\ ty = $"move" ->
    parseAction (t :: t0 :: t1 :: rest) = Ok (mkAction ty v, rest)).
  { intros w Hw t t0 t1 K0 T0 K1 T1 K2 Hc. unfold parseAction. rewrite peek_cons, K0, T0. cbn [negb].
    rewrite bool_decide_eq_true_2 by done. cbn [negb]. rewrite next_cons by auto with kypost. cbn [snd].
    rewrite expect_cons by auto with kypost. cbn [mbind res_bind].
    rewrite expectSemicolon_cons by auto with kypost. cbn [mbind res_bind]. rewrite T1, Hw.
    by destruct Hc as [[-> ->]|[[-> ->]|[-> ->]]]. }
  assert (plain_ : forall w, toLower w = w -> forall t t0,
    kind t = tokWord -> text t = w -> kind t0 = tokSemicolon -> v = [] ->
    w = $"markread" /\ ty = $"read" \/ w = $"archive" /\ ty = $"archive" \/ w = $"markspam" /\ ty = $"spam" \/
    w = $"discard" /\ ty = $"delete" \/ w = $"stop" /\ ty = $"stop" ->
    parseAction (t :: t0 :: rest) = Ok (mkAction ty v, rest)).
  { intros w Hw t t0 K0 T0 K1 Hv Hc. unfold parseAction. rewrite peek_cons, K0, T0. cbn [negb].
    rewrite bool_decide_eq_true_2 by done. cbn [negb]. rewrite next_cons by auto with kypost. cbn [snd].
    rewrite expectSemicolon_cons by auto with kypost. cbn [mbind res_bind]. rewrite Hw, Hv.
    by destruct Hc as [[-> ->]|[[-> ->]|[[-> ->]|[[-> ->]|[-> ->]]]]]. }
  rewrite !elem_of_cons, !elem_of_nil in Ha.
  destruct Ha as [[->|[->|[->|[]]]]|[[->|[->|[->|[->|[->|[]]]]]] ->]];
    first
    [ change (actionToks _) with [(tokWord, $"addflag"); (tokString, v); (tokSemicolon, $";")] in E
    | change (actionToks _) with [(tokWord, $"removeflag"); (tokString, v); (tokSemicolon, $";")] in E
    | change (actionToks _) with [(tokWord, $"fileinto"); (tokString, v); (tokSemicolon, $";")] in E
    | change (actionToks _) with [(tokWord, $"markread"); (tokSemicolon, $";")] in E
    | change (actionToks _) with [(tokWord, $"archive"); (tokSemicolon, $";")] in E
    | change (actionToks _) with [(tokWord, $"markspam"); (tokSemicolon, $";")] in E
    | change (actionToks _) with [(tokWord, $"discard"); (tokSemicolon, $";")] in E
    | change (actionToks _) with [(tokWord, $"stop"); (tokSemicolon, $";")] in E ]; erase_inv; cbn [app];
    first [ eapply valued; [|eassumption|eassumption|..]; solve [done | tauto]
          | eapply plain_; [|eassumption|eassumption|..]; solve [done | tauto] ].
Qed.

Lemma actionToks_word a : exists w ks, actionToks a = (tokWord, w) :: ks.
Proof. unfold actionToks. repeat case_match; eauto. Qed.

Lemma canonAction_not_keep a : CanonAction a -> (aType a =s? $"keep") = false.
Proof.
  unfold CanonAction. rewrite !elem_of_cons, !elem_of_nil.
  by intros [[->|[->|[->|[]]]]|[[->|[->|[->|[->|[->|[]]]]]] _]].
Qed.

Lemma actionsLoop_canon as_ fuel acts ts b l :
  (length as_ < fuel)%nat -> Forall CanonAction as_ -> kind b = tokRBrace ->
  erase <$> ts = (as_ ≫= actionToks) ->
  actionsLoop fuel acts (ts ++ b :: l) = Ok (acts ++ as_, b :: l).
Proof.
  revert acts ts fuel. induction as_ as [|a as_ IH]; intros acts ts [|fuel] Hf Ha Hb E; simpl in Hf; try lia.
  - apply erase_nil_inv in E as ->. cbn [actionsLoop app]. rewrite peek_cons, bool_decide_eq_true_2 by done. by rewrite app_nil_r.
  - apply Forall_cons in Ha as [Ha Has]. change ((a :: as_) ≫= actionToks) with (actionToks a ++ (as_ ≫= actionToks)) in E.
    apply erase_app_inv in E as (t1 & t2 & -> & E1 & E2). rewrite <- app_assoc.
    destruct (actionToks_word a) as (w & ks & Ew). cbn [actionsLoop].
    assert (kind (peek (t1 ++ t2 ++ b :: l)) = tokWord) as Hk.
    { rewrite Ew in E1. by apply erase_cons_inv in E1 as (t & ts' & -> & Hk & _). }
    rewrite Hk, !bool_decide_eq_false_2 by done.
    rewrite parseAction_canon with (a := a) by auto with kypost. cbn [mbind res_bind].
    rewrite canonAction_not_keep by done. cbn [negb].
    rewrite IH by (done || lia). by rewrite <- app_assoc.
Qed.

Lemma caps_allowed r ln : checkCapabilities ln (ruleCapabilities r) = Ok tt.
Proof.
  assert (forall l, Forall (fun c => allowedCapabilities (toLower (trimSpace c)) = true) l ->
    checkCapabilities ln l = Ok tt) as K.
  { induction 1 as [|c l Hc _ IH]; simpl; [done|]. by rewrite Hc. }
  apply K. unfold ruleCapabilities. apply Forall_forall. intros c [Hc _]%list_elem_of_In%filter_In.
  simpl in Hc. by destruct Hc as [<-|[<-|[<-|[<-|[<-|[]]]]]].
Qed.

(** The require line is read past, up to the word if. *)
Lemma requireLoop_canon r ts t l fuel :
  (1 < fuel)%nat -> kind t = tokWord -> text t = $"if" -> erase <$> ts = requireToks (ruleCapabilities r) ->
  requireLoop fuel (ts ++ t :: l) = Ok (tt, t :: l).
Proof.
  intros Hf Hk Ht E. destruct fuel as [|[|fuel]]; [lia..|].
  assert (stop : forall fuel, requireLoop (S fuel) (t :: l) = Ok (tt, t :: l)).
  { intros n. cbn [requireLoop]. by rewrite peek_cons, Ht, andb_false_r. }
  unfold requireToks in E. destruct (ruleCapabilities r) as [|c caps] eqn:Ec.
  { erase_inv. apply stop. }
  rewrite <- Ec in E. apply erase_cons_inv in E as (t0 & ts0 & -> & K0 & T0 & E).
  apply erase_cons_inv in E as (t1 & ts1 & -> & K1 & T1 & E).
  apply erase_app_inv in E as (t2 & t3 & -> & E2 & E3). erase_inv.
  cbn [app]. rewrite <- app_assoc. cbn [app requireLoop].
  rewrite peek_cons, K0, T0, bool_decide_eq_true_2 by done.
  change (equalFold ($"require") ($"require")) with true. cbn [andb].
  rewrite next_cons by done.
  rewrite (parseStringList_strings (ruleCapabilities r)) by (auto with kypost; by rewrite Ec).
  cbn [mbind res_bind]. rewrite expectSemicolon_cons by done. cbn [mbind res_bind].
  rewrite caps_allowed. cbn [mbind res_bind]. apply stop.
Qed.

Lemma actions_length as_ ts :
  erase <$> ts = (as_ ≫= actionToks) -> (length as_ <= length ts)%nat.
Proof.
  revert ts. induction as_ as [|a as_ IH]; intros ts E; simpl; [lia|].
  change ((a :: as_) ≫= actionToks) with (actionToks a ++ (as_ ≫= actionToks)) in E.
  apply erase_app_inv in E as (t1 & t2 & -> & E1 & E2). specialize (IH _ E2). rewrite length_app.
  destruct (actionToks_word a) as (w & ks & Ew). rewrite Ew in E1.
  apply erase_cons_inv in E1 as (t & ts' & -> & _). simpl. lia.
Qed.

(** The block of a rule: keep alone when it has no action. *)
Lemma actionBlock_canon as_ ts b l :
  Forall CanonAction as_ -> kind b = tokRBrace ->
  erase <$> ts = (match as_ with [] => [(tokWord, $"keep"); (tokSemicolon, $";")] | _ => [] end)
     ++ (as_ ≫= actionToks) ->
  actionsLoop (S (length (ts ++ b :: l))) [] (ts ++ b :: l) = Ok (as_, b :: l).
Proof.
  intros Ha Hb E. destruct as_ as [|a as_].
  - change (erase <$> ts = [(tokWord, $"keep"); (tokSemicolon, $";")]) in E. erase_inv. cbn [app length actionsLoop].
    rewrite peek_cons. rewrite !(bool_decide_eq_false_2 (kind t = _)) by congruence.
    assert (parseAction (t :: t0 :: b :: l) = Ok (mkAction ($"keep") [], b :: l)) as ->.
    { unfold parseAction. rewrite peek_cons. rewrite bool_decide_eq_true_2 by done. cbn [negb].
      rewrite next_cons by done. cbn [snd]. rewrite expectSemicolon_cons by done. cbn [mbind res_bind].
      match goal with H : text t = _ |- _ => rewrite H end. done. }
    cbn [mbind res_bind]. rewrite peek_cons. by rewrite bool_decide_eq_true_2.
  - cbn [app] in E. rewrite (actionsLoop_canon (a :: as_)); try done. apply actions_length in E. rewrite length_app. simpl in *. lia.
Qed.

(** The parser reads the tokens of a canonical root test and a block back; of
    a root group it keeps the group. *)
Lemma parseTokens_canon r c ts ln :
  Canon c -> Forall CanonAction (Actions r) -> (nest c <= Z.to_nat maxTestNestingDepth)%nat ->
  erase <$> ts = requireToks (ruleCapabilities r) ++ (tokWord, $"if") :: condToks c ++ blockToks (Actions r) ->
  parseTokens (ts ++ [mkTok tokEOF [] ln]) =
    Ok (match Group c with Some g => g | None => mkGroup ($"allof") [c] end, Actions r).
Proof.
  unfold parseTokens. generalize (Z.to_nat maxTestNestingDepth). intros lv Hc Ha Hn E. unfold blockToks in E.
  apply erase_app_inv in E as (t1 & t2 & -> & E1 & E2).
  apply erase_cons_inv in E2 as (t & ts & -> & Kt & Tt & E2).
  apply erase_app_inv in E2 as (t3 & t4 & -> & E3 & E4).
  apply erase_cons_inv in E4 as (b1 & ts4 & -> & Kb1 & _ & E4).
  rewrite app_assoc in E4. apply erase_app_inv in E4 as (t5 & t6 & -> & E5 & E6). erase_inv.
  rewrite <- !app_assoc. cbn [app].
  rewrite requireLoop_canon with (r := r) by (try done; rewrite length_app; simpl; lia).
  cbn [mbind res_bind]. unfold expectWord. rewrite peek_cons, Tt, bool_decide_eq_true_2 by done.
  change (equalFold ($"if") ($"if")) with true. cbn [negb orb]. rewrite next_cons by auto with kypost.
  cbn [mbind res_bind snd]. rewrite <- app_assoc. cbn [app].
  rewrite (parseTest_canon c) by auto with kypost.
  cbn [mbind res_bind]. rewrite expect_cons by auto with kypost. cbn [mbind res_bind].
  rewrite <- app_assoc. cbn [app].
  rewrite (actionBlock_canon (Actions r)) by done. cbn [mbind res_bind].
  rewrite expect_cons by done. cbn [mbind res_bind]. by rewrite peek_cons, bool_decide_eq_true_2.
Qed.

End Parse.
