(* ===== verification/SieveTheorems.v ===== *)
(** * SieveTheorems: what the script editor may rely on

    The round trip of a canonical rule, the canonical form of whatever the
    parser accepts, the parser's termination, and the places where printing
    and parsing do not agree. *)

From S2P Require Import Prelude GoText RulesModel RulesPattern RulesEngine RulesValidate Sieve SieveLex SieveRoundtrip SieveParse.

#[local] Arguments next : simpl never.
#[local] Arguments expect : simpl never.
#[local] Arguments lit : simpl never.

(** ** Header names *)

(** Canonicalising touches letters only. *)
Definition CaseOf (c c' : Z) : Prop :=
  c' = c \/ (isLowerA c = true /\ c' = (c - 32)%Z) \/ (isUpperA c = true /\ c' = (c + 32)%Z).

Lemma canonFrom_case u s : Forall2 CaseOf s (canonFrom u s).
Proof.
  revert u. induction s as [|c s IH]; intros u; simpl; constructor; [|apply IH].
  unfold CaseOf. destruct u; simpl; break_match; auto.
Qed.

Lemma canonical_case s : Forall2 CaseOf s (canonicalMIMEHeaderKey s).
Proof.
  unfold canonicalMIMEHeaderKey. destruct (forallb _ s); [apply canonFrom_case|].
  induction s; constructor; [by left|done].
Qed.

Definition nameRune (r : Z) : bool :=
  negb ((r <? 33)%Z || (126 <? r)%Z || (r =? 58)%Z || bool_decide (r ∈ atomSpecials)).

Lemma letter_nameRune r : isLowerA r = true \/ isUpperA r = true -> nameRune r = true.
Proof.
  unfold isLowerA, isUpperA, nameRune, atomSpecials. intros H. apply negb_true_iff.
  rewrite !orb_false_iff. split_and!; [lia..|].
  apply bool_decide_eq_false_2. vm_compute lit. rewrite !elem_of_cons, elem_of_nil. lia.
Qed.

Lemma CaseOf_nameRune c c' : CaseOf c c' -> nameRune c = true -> nameRune c' = true.
Proof.
  unfold CaseOf. intros [->|[[H ->]|[H ->]]] Hc; [done| |]; apply letter_nameRune;
    unfold isLowerA, isUpperA in *; lia.
Qed.

Section Headers.
Context {U : Unicode}.

Lemma CaseOf_lower c c' : CaseOf c c' -> lowerRune c' = lowerRune c.
Proof.
  unfold CaseOf, lowerRune, isLowerA, isUpperA. intros [->|[[H ->]|[H ->]]]; [done| |]; break_match; lia.
Qed.

Lemma CaseOf_len c c' : CaseOf c c' -> utf8LenRune c' = utf8LenRune c.
Proof.
  unfold CaseOf, utf8LenRune, isLowerA, isUpperA. intros [->|[[H ->]|[H ->]]]; [done| |]; break_match; lia.
Qed.

Lemma nameRunes_trim s : forallb nameRune s = true -> trimSpace s = s.
Proof.
  intros H. apply trimSpace_nospace. rewrite forallb_forall in *. intros r Hr. specialize (H r Hr).
  unfold nameRune, isSpace in *. lia.
Qed.

Lemma canonical_name s :
  validHeaderFieldName s = true ->
  validHeaderFieldName (canonicalMIMEHeaderKey s) = true
  /\ trimSpace (canonicalMIMEHeaderKey s) = canonicalMIMEHeaderKey s
  /\ toLower (canonicalMIMEHeaderKey s) = toLower s.
Proof.
  pose proof (canonical_case s) as HC. generalize dependent (canonicalMIMEHeaderKey s). intros s' HC Hv.
  unfold validHeaderFieldName in *. fold nameRune in *. to_prop.
  assert (forallb nameRune s' = true) as Hs'.
  { clear -HC H0. revert H0. induction HC as [|c c' s s' Hc _ IH]; simpl; [done|].
    rewrite !andb_true_iff. intros [H1 H2]. split; [by eapply CaseOf_nameRune|auto]. }
  assert (utf8Len s' = utf8Len s /\ toLower s' = toLower s) as [-> ->].
  { clear -HC. induction HC as [|c c' s s' Hc _ [IH1 IH2]]; [done|]. unfold toLower in *. csimpl.
    by rewrite (CaseOf_len c c'), (CaseOf_lower c c'), IH1, IH2. }
  split_and!; [|by apply nameRunes_trim|done].
  rewrite Hs', andb_true_r. apply andb_true_iff. split; [|by apply Z.leb_le].
  apply negb_true_iff, bool_decide_eq_false_2. intros ->. inversion HC. by subst.
Qed.

End Headers.

(** ** Termination: the fuel of the loops is never used up *)

Section Termination.
Context {U : Unicode}.

(** A token stream as the lexer leaves it: its last token is the end of input. *)
Definition EndsEOF (toks : list token) : Prop := exists ts t, toks = ts ++ [t] /\ kind t = tokEOF.

(** A parsing step that stays within the stream, leaves less than [n] tokens
    and does not run out of fuel. *)
Definition Bound {A} (n : nat) (m : res sieve_error (A * list token)) : Prop :=
  match m with
  | Ok (_, toks) => EndsEOF toks /\ (length toks < n)%nat
  | Err e => e ≠ SFuel
  end.

Lemma Bound_bind {A B} n n' (m : res sieve_error (A * list token)) (f : A * list token -> res sieve_error (B * list token)) :
  Bound n m -> (forall a toks, EndsEOF toks -> (length toks < n)%nat -> Bound n' (f (a, toks))) ->
  Bound n' (m ≫= f).
Proof. destruct m as [[a toks]|e]; simpl; [intros [? ?] K; auto|auto]. Qed.

Lemma Bound_weaken {A} n n' (m : res sieve_error (A * list token)) :
  Bound n m -> (n <= n')%nat -> Bound n' m.
Proof. destruct m as [[a toks]|e]; simpl; [intros [? ?] ?; split; [done|lia]|done]. Qed.

Lemma next_bound toks :
  EndsEOF toks -> kind (peek toks) ≠ tokEOF ->
  EndsEOF (next toks).2 /\ (length (next toks).2 < length toks)%nat.
Proof.
  intros (ts & t & -> & Ht) Hk. destruct ts as [|a [|b ts]]; [done|..].
  - split; [by exists [], t|simpl; lia].
  - split; [by exists (b :: ts), t|simpl; lia].
Qed.

Lemma expect_bound k toks : k ≠ tokEOF -> EndsEOF toks -> Bound (length toks) (expect k toks).
Proof.
  intros Hk He. unfold expect. case_bool_decide as E; [|done].
  change (next toks) with (peek toks, (next toks).2). apply next_bound; [done|congruence].
Qed.

Lemma expectSemicolon_bound toks : EndsEOF toks -> Bound (length toks) (expectSemicolon toks).
Proof. intros. eapply Bound_bind; [by apply expect_bound|]. by intros. Qed.

Lemma stringListLoop_bound fuel out toks :
  EndsEOF toks -> (length toks < fuel)%nat -> Bound (S (length toks)) (stringListLoop fuel out toks).
Proof.
  revert out toks. induction fuel as [|fuel IH]; intros out toks He Hf; [lia|]. cbn [stringListLoop].
  case_bool_decide; [split; [done|lia]|]. eapply Bound_bind; [by apply expect_bound|].
  intros a ts He' Hl. case_bool_decide as Ek; [|split; [done|lia]].
  destruct (next_bound ts He') as [He2 Hl2]; [congruence|].
  eapply Bound_weaken; [apply IH; [done|lia]|lia].
Qed.

Lemma parseStringList_bound toks : EndsEOF toks -> Bound (length toks) (parseStringList toks).
Proof.
  intros He. eapply Bound_bind; [by apply expect_bound|]. intros _ t1 H1 L1.
  eapply Bound_bind; [apply stringListLoop_bound; [done|lia]|]. intros out t2 H2 L2.
  eapply Bound_bind; [by apply expect_bound|]. intros _ t3 H3 L3. split; [done|lia].
Qed.

Lemma parseComparatorTag_bound d toks : EndsEOF toks -> Bound (S (length toks)) (parseComparatorTag d toks).
Proof.
  intros He. unfold parseComparatorTag. case_bool_decide as Hk; cbn [negb]; [|split; [done|lia]].
  destruct (next_bound toks He) as [H1 L1]; [congruence|].
  change (next toks) with (peek toks, (next toks).2). cbv zeta iota.
  case_bool_decide; [split; [done|lia]|done].
Qed.

Lemma testsLoop_bound test fuel conds toks :
  (forall ts, EndsEOF ts -> Bound (length ts) (test ts)) ->
  EndsEOF toks -> (length toks <= fuel)%nat -> (0 < fuel)%nat -> Bound (length toks) (testsLoop test fuel conds toks).
Proof.
  intros Ht. revert conds toks. induction fuel as [|fuel IH]; intros conds toks He Hf Hf0; [lia|].
  cbn [testsLoop]. eapply Bound_bind; [by apply Ht|]. intros c ts H1 L1.
  case_bool_decide as Hk; [|split; [done|lia]].
  destruct (next_bound ts H1) as [H2 L2]; [congruence|].
  eapply Bound_weaken; [apply IH; [done|lia|lia]|lia].
Qed.

Lemma checkFields_fuel ln custom fields : checkFields ln custom fields ≠ Err SFuel.
Proof. induction fields as [|f fields IH]; simpl; [done|]. by case_match. Qed.

Lemma checked_bound {A B} n (m : res sieve_error B) (r : res sieve_error (A * list token)) :
  m ≠ Err SFuel -> Bound n r -> Bound n (_ ← m; r).
Proof. destruct m as [b|e]; simpl; [done|]. intros H _ ->. done. Qed.

Lemma parseLeafTest_bound toks :
  EndsEOF toks -> kind (peek toks) = tokWord -> Bound (length toks) (parseLeafTest toks).
Proof.
  intros He Hk. destruct (next_bound toks He) as [H1 L1]; [congruence|]. unfold parseLeafTest. cbv zeta.
  destruct (_ || _); [|destruct (equalFold _ ($"exists")); [|
      destruct (equalFold _ ($"body")); [|destruct (equalFold _ ($"hasflag")); [|done]]]].
  all: eapply Bound_bind; [by first [apply parseComparatorTag_bound|apply parseStringList_bound]|].
  - intros k t2 H2 L2. eapply Bound_bind; [by apply parseStringList_bound|]. intros fs t3 H3 L3.
    eapply Bound_bind; [by apply expect_bound|]. intros v t4 H4 L4.
    destruct fs; [done|]. apply checked_bound; [apply checkFields_fuel|]. split; [done|lia].
  - intros fs t2 H2 L2. destruct fs; [done|]. apply checked_bound; [apply checkFields_fuel|]. split; [done|lia].
  - intros k t2 H2 L2. eapply Bound_bind; [by apply expect_bound|]. intros v t3 H3 L3. split; [done|lia].
  - intros k t2 H2 L2. eapply Bound_bind; [by apply expect_bound|]. intros v t3 H3 L3. split; [done|lia].
Qed.

Lemma parseTest_bound lv toks : EndsEOF toks -> Bound (length toks) (parseTest lv toks).
Proof.
  revert toks. induction lv as [|lv IH]; intros toks He; cbn [parseTest]; cbv zeta.
  all: case_bool_decide as Hk; cbn [negb]; [|done].
  all: destruct (next_bound toks He) as [H1 L1]; [congruence|].
  all: destruct (equalFold _ ($"not")); [try done|destruct (_ || _); [try done|by apply parseLeafTest_bound]].
  - eapply Bound_bind; [by apply IH|]. intros c t2 H2 L2. split; [done|lia].
  - eapply Bound_bind; [by apply expect_bound|]. intros _ t2 H2 L2.
    eapply Bound_bind; [apply testsLoop_bound; [exact IH|done|lia|lia]|]. intros cs t3 H3 L3.
    eapply Bound_bind; [by apply expect_bound|]. intros _ t4 H4 L4. split; [done|lia].
Qed.

Lemma parseAction_bound toks : EndsEOF toks -> Bound (length toks) (parseAction toks).
Proof.
  intros He. unfold parseAction. cbv zeta. case_bool_decide as Hk; cbn [negb]; [|done].
  destruct (next_bound toks He) as [H1 L1]; [congruence|].
  assert (withValue : forall ty, Bound (length toks)
    ('(v, toks) ← expect tokString (next toks).2; '(_, toks) ← expectSemicolon toks; Ok (mkAction ty (text v), toks))).
  { intros ty. eapply Bound_bind; [by apply expect_bound|]. intros v t2 H2 L2.
    eapply Bound_bind; [by apply expectSemicolon_bound|]. intros _ t3 H3 L3. split; [done|lia]. }
  assert (plain : forall ty, Bound (length toks)
    ('(_, toks) ← expectSemicolon (next toks).2; Ok (mkAction ty [], toks))).
  { intros ty. eapply Bound_bind; [by apply expectSemicolon_bound|]. intros _ t2 H2 L2. split; [done|lia]. }
  repeat (destruct (_ =s? _); [auto|]). done.
Qed.

Lemma actionsLoop_bound fuel acts toks :
  EndsEOF toks -> (length toks < fuel)%nat -> Bound (S (length toks)) (actionsLoop fuel acts toks).
Proof.
  revert acts toks. induction fuel as [|fuel IH]; intros acts toks He Hf; [lia|]. cbn [actionsLoop].
  case_bool_decide; [split; [done|lia]|]. case_bool_decide; [done|].
  eapply Bound_bind; [by apply parseAction_bound|]. intros a ts H1 L1.
  eapply Bound_weaken; [apply IH; [done|lia]|lia].
Qed.

Lemma checkCapabilities_fuel ln caps : checkCapabilities ln caps ≠ Err SFuel.
Proof. induction caps as [|c caps IH]; simpl; [done|]. by case_match. Qed.

Lemma requireLoop_bound fuel toks :
  EndsEOF toks -> (length toks < fuel)%nat -> Bound (S (length toks)) (requireLoop fuel toks).
Proof.
  revert toks. induction fuel as [|fuel IH]; intros toks He Hf; [lia|]. cbn [requireLoop].
  destruct (_ && _) eqn:E; [|split; [done|lia]]. to_prop.
  destruct (next_bound toks He) as [H1 L1]; [congruence|].
  change (next toks) with (peek toks, (next toks).2). cbv zeta iota.
  eapply Bound_bind; [by apply parseStringList_bound|]. intros caps t2 H2 L2.
  eapply Bound_bind; [by apply expectSemicolon_bound|]. intros _ t3 H3 L3.
  apply checked_bound; [apply checkCapabilities_fuel|].
  eapply Bound_weaken; [apply IH; [done|lia]|lia].
Qed.

(** A step that finishes the parse. *)
Lemma Bound_finish {A B} n (m : res sieve_error (A * list token)) (f : A * list token -> res sieve_error B) :
  Bound n m -> (forall a toks, EndsEOF toks -> f (a, toks) ≠ Err SFuel) -> m ≫= f ≠ Err SFuel.
Proof. destruct m as [[a toks]|e]; simpl; [intros [? ?] K; auto|intros H _ [= ->]; done]. Qed.

Lemma expectWord_bound w toks : EndsEOF toks -> Bound (length toks) (expectWord w toks).
Proof.
  intros He. unfold expectWord. destruct (_ || _) eqn:E; [done|]. to_prop.
  destruct (next_bound toks He) as [H1 L1]; [congruence|]. by split.
Qed.

Lemma parseTokens_fuel toks : EndsEOF toks -> parseTokens toks ≠ Err SFuel.
Proof.
  intros He. unfold parseTokens. generalize (Z.to_nat maxTestNestingDepth). intros lv.
  eapply Bound_finish; [apply requireLoop_bound; [done|lia]|]. intros _ t1 H1.
  eapply Bound_finish; [by apply expectWord_bound|]. intros _ t2 H2.
  eapply Bound_finish; [by apply parseTest_bound|]. intros c t3 H3.
  eapply Bound_finish; [by apply expect_bound|]. intros _ t4 H4.
  eapply Bound_finish; [apply actionsLoop_bound; [done|lia]|]. intros acts t5 H5.
  eapply Bound_finish; [by apply expect_bound|]. intros _ t6 H6. by case_match.
Qed.

Lemma lexLoop_EOF fuel s ln toks : lexLoop fuel s ln = Ok toks -> EndsEOF toks.
Proof.
  revert s ln toks. induction fuel as [|fuel IH]; intros s ln toks; [done|]. cbn [lexLoop].
  assert (K : forall t rest l, (ts ← lexLoop fuel rest l; Ok (t :: ts)) = Ok toks -> EndsEOF toks).
  { intros t rest l H. apply res_bind_ok in H as (ts & H & [= <-]).
    apply IH in H as (ts' & e & -> & He). by exists (t :: ts'), e. }
  intros H. apply res_bind_ok in H as ([s1 l1] & _ & H). destruct s1 as [|r s'].
  { injection H as <-. by exists [], (mkTok tokEOF [] l1). }
  destruct (punct r); [by eapply K|]. destruct (r =? 34)%Z.
  { destruct (lexString s' l1) as [[[sb rest] l]|]; [|done]. by eapply K. }
  destruct (r =? 58)%Z; [destruct (takeWord s'); by eapply K|].
  destruct (negb (isWordRune r)); [done|]. destruct (takeWord (r :: s')). by eapply K.
Qed.

End Termination.

(** ** The parser's output is canonical *)

Section Output.
Context {U : Unicode} {R : RegexEngine} {UL : UnicodeLaws}.

(** A field name the header, address and exists tests let through. *)
Definition Testable (f : gostr) : Prop :=
  validHeaderAddressFields (normalizeField f) = true \/ validCustomHeader f = true.

Lemma checkFields_testable ln custom fields : checkFields ln custom fields = Ok tt -> Forall Testable fields.
Proof.
  induction fields as [|f fields IH]; simpl; [constructor|]. unfold Testable.
  destruct (validHeaderAddressFields (normalizeField f)) eqn:E1, (validCustomHeader f) eqn:E2;
    destruct custom; simpl; intros H; try done; constructor; auto.
Qed.

Lemma canonical_custom f :
  validCustomHeader f = true ->
  let h := canonicalMIMEHeaderKey (trimSpace f) in
  validCustomHeader h = true /\ canonicalMIMEHeaderKey (trimSpace h) = h.
Proof.
  unfold validCustomHeader, normalizeField. intros H. apply andb_true_iff in H as [H Hv].
  destruct (canonical_name (trimSpace f) Hv) as (Hv' & Ht & Hl). cbv zeta.
  rewrite Ht, Hl, H, Hv'. split; [done|]. apply canonicalMIMEHeaderKey_idem.
Qed.

Lemma fieldLeaf_canon f k v : Testable f -> CanonTest k v -> Canon (fieldLeaf k v f).
Proof.
  intros Hf Hk. unfold fieldLeaf. destruct (validHeaderAddressFields (normalizeField f)) eqn:E.
  - left. unfold validHeaderAddressFields in E. to_prop. done.
  - destruct Hf as [Hf|Hf]; [congruence|]. right; left. destruct (canonical_custom f Hf). by split_and!.
Qed.

Lemma nest_fieldLeaf k v f : nest (fieldLeaf k v f) = 0%nat.
Proof. unfold fieldLeaf. by case_match. Qed.

Lemma fieldsToCondition_canon fields k v :
  fields ≠ [] -> Forall Testable fields -> CanonTest k v ->
  Canon (fieldsToCondition fields k v) /\ (nest (fieldsToCondition fields k v) <= 1)%nat.
Proof.
  intros Hne Hf Hk. unfold fieldsToCondition. destruct fields as [|f [|g fields]]; [done|..].
  - inversion Hf as [|? ? Hf1 _]; subst; clear Hf; rename Hf1 into Hf. split; [exact (fieldLeaf_canon f k v Hf Hk)|]. rewrite nest_fieldLeaf. lia.
  - generalize dependent (f :: g :: fields). intros l Hl Hf. split.
    + apply Canon_group. split_and!; try done; [set_solver|by destruct l|].
      apply Forall_fmap. eapply Forall_impl; [exact Hf|]. intros x Hx. by apply fieldLeaf_canon.
    + cbn [nest groupCond b2n]. assert (list_max (nest <$> (fieldLeaf k v <$> l)) = 0%nat) as ->; [|lia].
      clear. induction l as [|x l IH]; csimpl; [done|]. by rewrite nest_fieldLeaf, IH.
Qed.

Lemma parseComparatorTag_tag d toks k rest :
  IsTag d -> parseComparatorTag d toks = Ok (k, rest) -> IsTag k.
Proof.
  intros Hd. unfold parseComparatorTag. destruct (negb _); [intros H; by simplify_eq|].
  destruct (next toks). case_bool_decide; [|done]. intros Hx. by simplify_eq.
Qed.

Lemma tag_is : IsTag ($"is"). Proof. unfold IsTag. set_solver. Qed.
Lemma tag_contains : IsTag ($"contains"). Proof. unfold IsTag. set_solver. Qed.

Lemma parseLeafTest_canon toks c rest :
  parseLeafTest toks = Ok (c, rest) -> Canon c /\ (nest c <= 1)%nat.
Proof.
  unfold parseLeafTest. cbv zeta. intros H.
  destruct (_ || _); [|destruct (equalFold _ ($"exists")); [|
      destruct (equalFold _ ($"body")); [|destruct (equalFold _ ($"hasflag")); [|done]]]].
  all: apply res_bind_ok in H as ([k t1] & E1 & H).
  - apply res_bind_ok in H as ([fs t2] & E2 & H). apply res_bind_ok in H as ([v t3] & E3 & H).
    destruct fs as [|f fs]; [done|]. apply res_bind_ok in H as ([] & E4 & [= <- <-]).
    apply (fieldsToCondition_canon (f :: fs) k (text v)); [done|by eapply checkFields_testable|].
    left. eapply parseComparatorTag_tag; [apply tag_is|done].
  - destruct k as [|f fs]; [done|]. apply res_bind_ok in H as ([] & E4 & [= <- <-]).
    apply (fieldsToCondition_canon (f :: fs) ($"exists") []); [done|by eapply checkFields_testable|by right].
  - apply res_bind_ok in H as ([v t2] & E2 & [= <- <-]). split; [|simpl; lia]. right; right.
    split_and!; [set_solver|done|]. eapply parseComparatorTag_tag; [apply tag_contains|done].
  - apply res_bind_ok in H as ([v t2] & E2 & [= <- <-]). split; [|simpl; lia]. right; right.
    split_and!; [set_solver|done|]. eapply parseComparatorTag_tag; [apply tag_is|done].
Qed.

Lemma flip_canon c : Canon c -> Canon (flipNegate c).
Proof. by destruct c as [n [[op cs]|] f h k v]. Qed.
Lemma flip_nest c : (nest (flipNegate c) <= S (nest c))%nat.
Proof. destruct c as [[] [[op cs]|] f h k v]; simpl; lia. Qed.

Lemma testsLoop_out test fuel conds toks cs rest (P : Condition -> Prop) :
  (forall ts c rest, test ts = Ok (c, rest) -> P c) ->
  testsLoop test fuel conds toks = Ok (cs, rest) -> Forall P conds -> Forall P cs /\ cs ≠ [].
Proof.
  intros Ht. revert conds toks. induction fuel as [|fuel IH]; intros conds toks; [done|]. cbn [testsLoop].
  intros H Hc. apply res_bind_ok in H as ([c ts] & E & H). apply Ht in E.
  assert (Forall P (conds ++ [c])) as Hc' by (apply Forall_app; by split; [|constructor]).
  case_bool_decide; [by eapply IH|]. injection H as <- <-. split; [done|]. by destruct conds.
Qed.

Lemma op_canon s : equalFold s ($"allof") || equalFold s ($"anyof") = true ->
  toLower s ∈ [$"allof"; $"anyof"].
Proof.
  intros H. rewrite <- !lower_equalFold in H by done. apply orb_true_iff in H as [H|H]; to_prop; rewrite H; set_solver.
Qed.

Lemma parseTest_out lv toks c rest :
  parseTest lv toks = Ok (c, rest) -> Canon c /\ (nest c <= S lv)%nat.
Proof.
  revert toks c rest. induction lv as [|lv IH]; intros toks c rest; cbn [parseTest]; cbv zeta.
  all: case_bool_decide as Hk; cbn [negb]; [|done].
  all: destruct (equalFold _ ($"not")); [try done|destruct (_ || _) eqn:Eop; [try done|]].
  - intros H%parseLeafTest_canon. naive_solver lia.
  - intros H. apply res_bind_ok in H as ([i t1] & E & [= <- <-]). apply IH in E as [Hc Hn].
    split; [by apply flip_canon|]. pose proof (flip_nest i). lia.
  - intros H. apply res_bind_ok in H as ([? t1] & E1 & H). apply res_bind_ok in H as ([cs t2] & E2 & H).
    apply res_bind_ok in H as ([? t3] & E3 & [= <- <-]).
    apply (testsLoop_out _ _ _ _ _ _ (fun c => Canon c /\ (nest c <= S lv)%nat)) in E2 as [Hcs Hne];
      [|eauto|constructor]. apply Forall_and in Hcs as [Hcs Hns]. split.
    + apply Canon_group. split_and!; try done. by apply op_canon.
    + simpl. apply le_n_S, list_max_le, Forall_fmap. done.
  - intros H%parseLeafTest_canon. naive_solver lia.
Qed.

Lemma parseAction_out toks a rest :
  parseAction toks = Ok (a, rest) -> CanonAction a \/ aType a = $"keep".
Proof.
  unfold parseAction. cbv zeta. destruct (negb _); [done|].
  repeat (destruct (_ =s? _); [intros H;
    repeat (apply res_bind_ok in H as ([? ?] & ? & H)); injection H as <- <-; unfold CanonAction; simpl;
    first [by right | left; rewrite !elem_of_cons; tauto]|]). done.
Qed.

Lemma actionsLoop_out fuel acts toks as_ rest :
  actionsLoop fuel acts toks = Ok (as_, rest) -> Forall CanonAction acts -> Forall CanonAction as_.
Proof.
  revert acts toks. induction fuel as [|fuel IH]; intros acts toks; [done|]. cbn [actionsLoop].
  case_bool_decide; [by intros [= <- <-]|]. case_bool_decide; [done|].
  intros Hl Ha. apply res_bind_ok in Hl as ([a ts] & E & Hl). apply IH in Hl; [done|].
  destruct (aType a =s? $"keep") eqn:Ek; cbn [negb]; [done|]. apply Forall_app. split; [done|].
  constructor; [|done]. apply parseAction_out in E as [|E]; [done|]. by rewrite E in Ek.
Qed.

Lemma parseTokens_out toks g as_ :
  parseTokens toks = Ok (g, as_) ->
  CanonGroup g /\ Forall CanonAction as_ /\ (nestGroup g <= S (Z.to_nat maxTestNestingDepth))%nat.
Proof.
  unfold parseTokens. assert (0 < Z.to_nat maxTestNestingDepth)%nat as Hpos by (unfold maxTestNestingDepth; lia).
  revert Hpos. generalize (Z.to_nat maxTestNestingDepth). intros lv Hpos H.
  apply res_bind_ok in H as ([? t1] & _ & H). apply res_bind_ok in H as ([? t2] & _ & H).
  apply res_bind_ok in H as ([c t3] & Ec & H). apply res_bind_ok in H as ([? t4] & _ & H).
  apply res_bind_ok in H as ([acts t5] & Ea & H). apply res_bind_ok in H as ([? t6] & _ & H).
  destruct (negb _); [done|]. injection H as <- <-.
  apply parseTest_out in Ec as [Hc Hn]. apply actionsLoop_out in Ea; [|constructor].
  destruct c as [n [[op cs]|] f h k v].
  - apply Canon_group in Hc as (? & ? & ? & _). split_and!; try done. simpl in *. unfold nestGroup. simpl. lia.
  - split_and!; try done; [|unfold nestGroup; cbn [Group Conditions]; destruct n; vm_compute list_max; lia].
    split_and!; [simpl; set_solver|done|]. constructor; [exact Hc|constructor].
Qed.

End Output.

(** ** The theorems *)

Section Theorems.
Context {U : Unicode} {R : RegexEngine}.

Lemma setMatchActions_id r : setMatchActions r (Match r) (Actions r) = r.
Proof. by destruct r. Qed.

(** The printed script, with or without a not in front of its test. *)
Lemma compile_parse r existing (negate : bool) :
  CanonGroup (Match r) -> Forall CanonAction (Actions r) ->
  (b2n negate + nestGroup (Match r) <= Z.to_nat maxTestNestingDepth)%nat ->
  exists body, compileRule r = Ok (requireLine (ruleCapabilities r) ++ $"if " ++ body) /\
    parseRuleText (requireLine (ruleCapabilities r) ++ $"if " ++ (if negate then $"not " else []) ++ body) existing
    = Ok (setMatchActions existing (Match r) (Actions r)).
Proof.
  intros Hg Ha Hn. destruct (compileRule_body r Hg Ha) as (body & Eb & L). exists body. split; [done|].
  apply (script_lex (ruleCapabilities r) negate) in L.
  destruct (L [] 1%Z) as (toks & ln & E & Hl); [done|]. rewrite app_nil_r in Hl.
  unfold parseRuleText, lexSieve. rewrite Hl.
  change (lexFrom [] ln) with (@Ok sieve_error _ [mkTok tokEOF [] ln]). cbn [mbind res_bind].
  destruct Hg as (Ho & Hne & Hcs), (Match r) as [op cs]. cbn [Op Conditions] in *.
  rewrite (parseTokens_canon r (mkCondition negate (Some (mkGroup op cs)) [] [] [] [])).
  - done.
  - apply Canon_group. by split_and!.
  - done.
  - exact Hn.
  - rewrite E. cbn [condToks]. by rewrite <- app_assoc.
Qed.

(** (C4) Round trip: a rule in canonical form whose match tree stays within the
    parser's nesting bound is printed by CompileRule, and ParseRuleText reads the
    printed script back to exactly the same match tree and the same actions,
    in the same order, keeping everything else of the rule it is given. *)
Theorem sieve_roundtrip (r existing : Rule) :
  CanonGroup (Match r) -> Forall CanonAction (Actions r) ->
  (nestGroup (Match r) <= Z.to_nat maxTestNestingDepth)%nat ->
  exists s, compileRule r = Ok s /\
            parseRuleText s existing = Ok (setMatchActions existing (Match r) (Actions r)).
Proof.
  intros Hg Ha Hn. destruct (compile_parse r existing false Hg Ha Hn) as (body & Hc & Hp).
  eexists. by split.
Qed.

(** Whatever script ParseRuleText accepts, the rule it returns is in
    canonical form and nested at most one level past the parser's bound; within
    the bound, the editor's cycle is stable: printing that rule and parsing the
    result again gives the same rule. *)
Lemma parsed_rule_is_stable {UL : UnicodeLaws} (s : gostr) (existing r : Rule) :
  parseRuleText s existing = Ok r ->
  CanonGroup (Match r) /\ Forall CanonAction (Actions r) /\
  (nestGroup (Match r) <= S (Z.to_nat maxTestNestingDepth))%nat /\
  ((nestGroup (Match r) <= Z.to_nat maxTestNestingDepth)%nat ->
   exists s', compileRule r = Ok s' /\ parseRuleText s' r = Ok r).
Proof.
  intros H. unfold parseRuleText in H. apply res_bind_ok in H as (toks & _ & H).
  apply res_bind_ok in H as ([g acts] & E & [= <-]). apply parseTokens_out in E as (Hg & Ha & Hn).
  split_and!; try done. intros Hb.
  destruct (compile_parse (setMatchActions existing g acts) (setMatchActions existing g acts) false Hg Ha Hb)
    as (body & Hc & Hp). eexists. split; [exact Hc|]. by rewrite setMatchActions_id in Hp.
Qed.

(** (C37) Termination: on every input the lexer and the parser return a rule or
    a syntax error with a line number; the bounds on their loops are never what
    stops them. *)
Theorem parseRuleText_terminates (s : gostr) (existing : Rule) :
  (exists r, parseRuleText s existing = Ok r) \/
  (exists ln what, parseRuleText s existing = Err (SErr ln what)).
Proof.
  enough (parseRuleText s existing ≠ Err SFuel) as Hf.
  { destruct (parseRuleText s existing) as [r|[ln w|]]; eauto; done. }
  unfold parseRuleText, lexSieve, lexFrom.
  destruct (lexLoop (S (length s)) s 1) as [toks|e] eqn:E; cbn [mbind res_bind].
  - apply lexLoop_EOF, parseTokens_fuel in E. destruct (parseTokens toks) as [[g acts]|e]; [done|].
    cbn [mbind res_bind]. intros [= ->]. done.
  - intros [= ->]. apply lexLoop_enough in E; [done|lia].
Qed.

(** A not in front of the root group is lost: ParseRuleText reads the
    script of a rule with its test negated to the same, un-negated rule, for
    every canonical rule one level below the bound.  (For a single test the
    negation is kept, on the condition the root becomes.) *)
Lemma root_negation_is_dropped (r existing : Rule) :
  CanonGroup (Match r) -> Forall CanonAction (Actions r) ->
  (nestGroup (Match r) < Z.to_nat maxTestNestingDepth)%nat ->
  exists body,
    compileRule r = Ok (requireLine (ruleCapabilities r) ++ $"if " ++ body) /\
    parseRuleText (requireLine (ruleCapabilities r) ++ $"if not " ++ body) existing
    = Ok (setMatchActions existing (Match r) (Actions r)).
Proof. intros Hg Ha Hn. by apply (compile_parse r existing true). Qed.

End Theorems.
