(* ===== verification/RulesWitness.v ===== *)
(** * RulesWitness: the rule theorems on concrete rules and messages

    Sample rules, messages and a sample mail client; each lemma applies one
    theorem of the rules files to them, with the pattern engine and the case
    tables instantiated. *)

From S2P Require Import Prelude GoText RulesModel RulesPattern RulesEngine RulesEval RulesValidate.
From S2P Require Import RulesApply Sieve SieveLex SieveRoundtrip SieveTheorems.

#[local] Existing Instances GlobEngine.engine GlobEngine.engine_laws.

(** ** Samples *)

Definition boss : Condition := mkCondition false None ($"from") [] ($"contains") ($"boss@").
Definition urgent : Condition := mkCondition false None ($"subject") [] ($"matches") ($"*urgent*").
Definition listed : Condition := mkCondition true None ($"header") ($"List-Id") ($"exists") [].
Definition sampleMatch : MatchGroup :=
  mkGroup ($"allof") [boss; mkCondition false (Some (mkGroup ($"anyof") [urgent; listed])) [] [] [] []].
Definition sampleRule : Rule :=
  mkRule ($"r1") ($"From the boss") true 1 (mkScope []) sampleMatch
    [mkAction ($"keyword") ($"work"); mkAction ($"archive") []; mkAction ($"stop") []] 1 [] [].
Definition lateRule : Rule :=
  mkRule ($"r2") ($"Everything else") true 2 (mkScope [$"INBOX"]) (mkGroup ($"allof") [])
    [mkAction ($"read") []] 1 [] [].
Definition sampleInput : EvalInput :=
  {| UID := 7; MessageID := $"m7"; From := $"The Boss <boss@example.org>"; To := []; CC := []; BCC := [];
     Subject := $"URGENT: numbers"; Body := []; Keywords := []; Folder := $"INBOX"; Headers := Some ∅ |}.

(** A mail client that fails every archive action and records its calls. *)
Definition sampleClient (c : client_call) (w : list client_call) : option unit * list client_call :=
  match c with
  | ApplyInboxAction _ action _ _ => if action =s? $"archive" then (Some tt, w) else (None, w ++ [c])
  | _ => (None, w ++ [c])
  end.

Definition liveCtx : context := {| hasDeadline := false; ctxLeft := None |}.

(** ** Evaluation *)

Lemma matchGroup_kleene_witness :
  (matchGroup sampleInput sampleMatch (mkEst None ∅)).1 = (true, true)
  /\ evalGroup sampleInput sampleMatch = Some true.
Proof.
  assert ((matchGroup sampleInput sampleMatch (mkEst None ∅)).1 = (true, true)) as E by (vm_compute; reflexivity).
  split; [exact E|].
  pose proof (matchGroup_kleene sampleInput sampleMatch (mkEst None ∅) CacheOk_empty) as H.
  destruct (matchGroup sampleInput sampleMatch (mkEst None ∅)) as [[m k] st'].
  injection E as -> ->. by apply H.
Defined.

Lemma evaluate_live_witness :
  Matched (outcomeOf (firedRules sampleInput [lateRule; sampleRule])) = [$"From the boss"] /\
  (evaluate {| hasDeadline := true; ctxLeft := None |} None sampleInput [lateRule; sampleRule] ∅).1
  = outcomeOf (firedRules sampleInput [lateRule; sampleRule]).
Proof. split; [vm_compute; reflexivity|]. apply (evaluate_live _ _ ∅ true CacheOk_empty). Defined.

Lemma evaluate_sound_prefix_witness :
  (evaluate {| hasDeadline := false; ctxLeft := Some 2%nat |} (Some 9%nat) sampleInput [lateRule; sampleRule] ∅).1 = noOutcome /\
  exists k, (evaluate {| hasDeadline := false; ctxLeft := Some 2%nat |} (Some 9%nat) sampleInput [lateRule; sampleRule] ∅).1
            = outcomeOf (take k (firedRules sampleInput [lateRule; sampleRule])).
Proof.
  split; [vm_compute; reflexivity|].
  apply (evaluate_sound_prefix _ (Some 9%nat) sampleInput [lateRule; sampleRule] ∅ CacheOk_empty).
Defined.

(** ** Headers *)

Definition headersA : gmap gostr (list gostr) := {[ $"List-Id" := [$"dev"]; $"X-Spam" := [$"1"] ]}.
Definition headersB : gmap gostr (list gostr) := {[ $"List-Id" := [$"dev"] ]}.

Lemma headerNames_sufficient_witness :
  headerNames [sampleRule; lateRule] = [$"List-Id"] /\
  (evaluate liveCtx None (withHeaders sampleInput headersA) [sampleRule; lateRule] ∅).1
  = (evaluate liveCtx None (withHeaders sampleInput headersB) [sampleRule; lateRule] ∅).1.
Proof.
  split; [vm_compute; reflexivity|].
  apply (headerNames_sufficient sampleInput [sampleRule; lateRule] headersA headersB ∅ CacheOk_empty).
  intros n Hn. replace (headerNames [sampleRule; lateRule]) with [$"List-Id"] in Hn by (vm_compute; reflexivity).
  apply list_elem_of_singleton in Hn as ->. vm_compute. reflexivity.
Defined.

(** ** Validation and execution *)

Lemma validated_rule_is_evaluable_witness :
  validateRule sampleRule = None /\
  exists matched st', matchGroup sampleInput (Match sampleRule) (mkEst None ∅) = ((matched, true), st').
Proof.
  split; [vm_compute; reflexivity|].
  apply (validated_rule_is_evaluable sampleRule sampleInput (mkEst None ∅));
    [vm_compute; reflexivity|by eexists|apply CacheOk_empty|reflexivity].
Defined.

Lemma validated_rule_failure_is_retryable_witness :
  let ok := [{| arAction := mkAction ($"keyword") ($"work"); arErr := None |}] in
  let bad := {| arAction := mkAction ($"archive") []; arErr := Some (ClientFailed tt) |} in
  (applyOutcome sampleClient liveCtx ($"INBOX") sampleInput (outcomeOf [sampleRule]) []).1 = ok ++ [bad] /\
  (forall t, arErr bad ≠ Some (UnsupportedAction t)) /\
  (Forall (fun x => ~ Visible (arAction x)) ok \/
   (aType (arAction bad) = $"stop" /\ arErr bad = Some CtxEnded)).
Proof.
  intros ok bad. split; [vm_compute; reflexivity|].
  apply (validated_rule_failure_is_retryable sampleClient sampleRule liveCtx ($"INBOX") sampleInput [] ok bad);
    [vm_compute; reflexivity..|by eexists].
Defined.

(** ** Scripts *)

Lemma sampleCanon : CanonGroup sampleMatch /\ Forall CanonAction (Actions sampleRule).
Proof.
  split.
  - split_and!; [set_solver|done|]. constructor; [|constructor; [|constructor]].
    + left. split_and!; [set_solver|done|]. left. unfold IsTag. set_solver.
    + apply Canon_group. split_and!; try done; [set_solver|]. constructor; [|constructor; [|constructor]].
      * left. split_and!; [set_solver|done|]. left. unfold IsTag. set_solver.
      * right; left. split_and!; [done|vm_compute; reflexivity|vm_compute; reflexivity|]. by right.
  - constructor; [|constructor; [|constructor; [|constructor]]]; unfold CanonAction; cbn [aType aValue];
      rewrite !elem_of_cons; tauto.
Qed.

Lemma sieve_roundtrip_witness :
  (nestGroup sampleMatch <= 32)%nat /\
  exists s, compileRule sampleRule = Ok s /\
    parseRuleText s lateRule = Ok (setMatchActions lateRule (Match sampleRule) (Actions sampleRule)).
Proof.
  split; [vm_compute; lia|].
  apply (sieve_roundtrip sampleRule lateRule); [apply sampleCanon..|vm_compute; lia].
Defined.

Definition sampleScript : gostr := $"if header :matches [`from`, `x-tag`] `a*` { discard; }".
Definition quoted (s : gostr) : gostr := (fun r => if (r =? 96)%Z then 34%Z else r) <$> s.

Lemma parsed_rule_is_stable_witness :
  exists r, parseRuleText (quoted sampleScript) lateRule = Ok r /\
  CanonGroup (Match r) /\ Forall CanonAction (Actions r) /\
  (nestGroup (Match r) <= S (Z.to_nat maxTestNestingDepth))%nat /\
  ((nestGroup (Match r) <= Z.to_nat maxTestNestingDepth)%nat ->
   exists s', compileRule r = Ok s' /\ parseRuleText s' r = Ok r).
Proof.
  eexists. split; [vm_compute; reflexivity|].
  apply (parsed_rule_is_stable (quoted sampleScript) lateRule). vm_compute. reflexivity.
Defined.

Lemma root_negation_is_dropped_witness :
  exists body,
    compileRule sampleRule = Ok (requireLine (ruleCapabilities sampleRule) ++ $"if " ++ body) /\
    parseRuleText (requireLine (ruleCapabilities sampleRule) ++ $"if not " ++ body) lateRule
    = Ok (setMatchActions lateRule sampleMatch (Actions sampleRule)).
Proof.
  apply (root_negation_is_dropped sampleRule lateRule); [apply sampleCanon..|vm_compute; lia].
Defined.
