(* ===== verification/FileStore.v ===== *)
(** * FileStore: the per-user JSON files

    The rules, groups, send-as and contacts stores keep one JSON file each
    (backend/internal/fsutil/fsutil.go).  The API and the daemon are two
    processes that share no memory: each holds a cached copy, every call
    re-reads the file first, and every mutation holds the inter-process file
    lock across its read-modify-write cycle.  A store operation is therefore
    modelled as one atomic step on [fstore], the process's cached copy and the
    file, run under [io], which says which of the system calls fail.

    JSON encoding is the identity on the decoded value: the file holds a [V],
    or bytes that do not decode. *)

From S2P Require Import Prelude GoText.

(** What is on disk under the store's path. *)
Inductive file (V : Type) : Type :=
  | FMissing
  | FCorrupt                       (* read, but json.Unmarshal fails *)
  | FData (v : V).
Arguments FMissing {V}.
Arguments FCorrupt {V}.
Arguments FData {V} v.

(** How one [AtomicWriteFile] ends: it replaces the file, fails before the
    rename and leaves the old file, or fails on the directory fsync after the
    rename has already replaced it. *)
Inductive write_outcome := WriteOk | WriteFailed | WriteSyncFailed.

(** The system-call outcomes one store operation meets. *)
Record io := { io_lock : bool; io_read : bool; io_write : write_outcome }.
Definition io_ok : io := {| io_lock := true; io_read := true; io_write := WriteOk |}.

(** Errors: the file system's, or one of the package's own. *)
Inductive err (E : Type) : Type :=
  | ErrLock | ErrRead | ErrJSON | ErrWrite
  | ErrApp (e : E).
Arguments ErrLock {E}.
Arguments ErrRead {E}.
Arguments ErrJSON {E}.
Arguments ErrWrite {E}.
Arguments ErrApp {E} e.

Record fstore (V : Type) := { mem : V; disk : file V }.
Arguments mem {V} _.
Arguments disk {V} _.

(** A store operation: state passing with errors.  The state survives an error,
    as the Go struct does. *)
Definition SM (E V A : Type) : Type := io -> fstore V -> res (err E) A * fstore V.

#[export] Instance SM_ret {E V} : MRet (SM E V) := fun A a _ s => (Ok a, s).
#[export] Instance SM_bind {E V} : MBind (SM E V) := fun A B f m i s =>
  match m i s with
  | (Ok a, s') => f a i s'
  | (Err e, s') => (Err e, s')
  end.

Section Ops.
Context {E V : Type}.

Definition throw {A} (e : E) : SM E V A := fun _ s => (Err (ErrApp e), s).
Definition getMem : SM E V V := fun _ s => (Ok (mem s), s).
Definition putMem (v : V) : SM E V unit := fun _ s => (Ok tt, {| mem := v; disk := disk s |}).

(** [fsutil.LockFile]; the lock is released when the operation returns. *)
Definition lockFile : SM E V unit := fun i s =>
  (if io_lock i then Ok tt else Err ErrLock, s).

(** [fsutil.PersistJSONFile] through [AtomicWriteFile]. *)
Definition persistJSONFile : SM E V unit := fun i s =>
  match io_write i with
  | WriteOk => (Ok tt, {| mem := mem s; disk := FData (mem s) |})
  | WriteFailed => (Err ErrWrite, s)
  | WriteSyncFailed => (Err ErrWrite, {| mem := mem s; disk := FData (mem s) |})
  end.

(** [fsutil.LoadJSONFile]: [onMissing] runs when the file does not exist. *)
Definition loadJSONFile (onMissing : SM E V unit) : SM E V unit := fun i s =>
  if io_read i then
    match disk s with
    | FMissing => onMissing i s
    | FCorrupt => (Err ErrJSON, s)
    | FData v => (Ok tt, {| mem := v; disk := disk s |})
    end
  else (Err ErrRead, s).

(** [refreshFromDiskLocked] of every store: a missing file keeps the cache. *)
Definition refreshFromDisk : SM E V unit := loadJSONFile (mret tt).

(** [load] of every store: a missing file is seeded with the empty contents. *)
Definition openStore (empty : V) : SM E V unit := fun i s =>
  loadJSONFile persistJSONFile i {| mem := empty; disk := disk s |}.

(** The end of a mutation: the new contents in memory, then on disk, then the
    answer. *)
Definition save {A} (v : V) (a : A) : SM E V A :=
  putMem v ;; persistJSONFile ;; mret a.

(** The read-modify-write cycle shared by the mutations. *)
Definition lockedUpdate {A} (k : SM E V A) : SM E V A :=
  lockFile ;; refreshFromDisk ;; k.

(** A read: refresh, then look. *)
Definition refreshed {A} (k : V -> A) : SM E V A :=
  refreshFromDisk ;; v ← getMem; mret (k v).

(** ** What every store inherits *)

(** An operation is determined by the file when its answer and the file it
    leaves do not depend on the calling process's cached copy. *)
Definition DiskDetermined {A} (m : SM E V A) : Prop :=
  forall i v m1 m2,
    let r1 := m i {| mem := m1; disk := FData v |} in
    let r2 := m i {| mem := m2; disk := FData v |} in
    r1.1 = r2.1 /\ disk r1.2 = disk r2.2.

Lemma lockedUpdate_run {A} (k : SM E V A) i v m0 :
  io_lock i = true -> io_read i = true ->
  lockedUpdate k i {| mem := m0; disk := FData v |} = k i {| mem := v; disk := FData v |}.
Proof.
  intros H1 H2. unfold lockedUpdate, refreshFromDisk, loadJSONFile, lockFile, mbind, SM_bind.
  simpl. by rewrite H1, H2.
Qed.

Lemma refreshed_run {A} (k : V -> A) i v m0 :
  io_read i = true ->
  refreshed k i {| mem := m0; disk := FData v |} = (Ok (k v), {| mem := v; disk := FData v |}).
Proof.
  intros H. unfold refreshed, refreshFromDisk, loadJSONFile, mbind, SM_bind. simpl. by rewrite H.
Qed.

Lemma lockedUpdate_disk_determined {A} (k : SM E V A) : DiskDetermined (lockedUpdate k).
Proof.
  intros i v m1 m2 r1 r2. subst r1 r2.
  destruct (io_lock i) eqn:E1, (io_read i) eqn:E2;
    [by rewrite !lockedUpdate_run|..];
    unfold lockedUpdate, refreshFromDisk, loadJSONFile, lockFile, mbind, SM_bind;
    by rewrite E1, ?E2.
Qed.

Lemma refreshed_disk_determined {A} (k : V -> A) : DiskDetermined (refreshed k).
Proof.
  intros i v m1 m2 r1 r2. subst r1 r2.
  destruct (io_read i) eqn:E2; [by rewrite !refreshed_run|].
  unfold refreshed, refreshFromDisk, loadJSONFile, mbind, SM_bind. by rewrite E2.
Qed.

(** A failed read or lock leaves the file alone and answers with the error. *)
Lemma lockedUpdate_io_error {A} (k : SM E V A) i s :
  io_lock i = false \/ io_read i = false \/ disk s = FCorrupt ->
  exists e, lockedUpdate k i s = (Err e, s) /\ (e = ErrLock \/ e = ErrRead \/ e = ErrJSON).
Proof.
  intros H. unfold lockedUpdate, refreshFromDisk, loadJSONFile, lockFile, mbind, SM_bind.
  destruct (io_lock i), (io_read i), (disk s), s; naive_solver.
Qed.

Lemma refreshed_io_error {A} (k : V -> A) i s :
  io_read i = false \/ disk s = FCorrupt ->
  exists e, refreshed k i s = (Err e, s) /\ (e = ErrRead \/ e = ErrJSON).
Proof.
  intros H. unfold refreshed, refreshFromDisk, loadJSONFile, mbind, SM_bind.
  destruct (io_read i), (disk s), s; naive_solver.
Qed.

(** A mutation keeps an invariant of the file when its body, run on the
    refreshed contents, does: a failed lock or read leaves the file alone. *)
Lemma lockedUpdate_keeps {A} (P : V -> Prop) (k : SM E V A) i m0 v :
  P v -> (exists v', disk (k i {| mem := v; disk := FData v |}).2 = FData v' /\ P v') ->
  exists v', disk (lockedUpdate k i {| mem := m0; disk := FData v |}).2 = FData v' /\ P v'.
Proof.
  intros Hv Hk. destruct (io_lock i) eqn:E1, (io_read i) eqn:E2; [by rewrite lockedUpdate_run by done|..];
    destruct (lockedUpdate_io_error k i {| mem := m0; disk := FData v |}) as (e & -> & _); eauto.
Qed.

Lemma save_run {A} (v : V) (a : A) i s :
  save v a i s =
  match io_write i with
  | WriteOk => (Ok a, {| mem := v; disk := FData v |})
  | WriteFailed => (Err ErrWrite, {| mem := v; disk := disk s |})
  | WriteSyncFailed => (Err ErrWrite, {| mem := v; disk := FData v |})
  end.
Proof. unfold save, putMem, persistJSONFile, mbind, SM_bind, mret, SM_ret. simpl. by destruct (io_write i). Qed.

(** The write at the end of a mutation leaves the old file or the new one. *)
Lemma save_keeps {A} (P : V -> Prop) v v' (a : A) i (m0 : V) :
  P v -> P v' ->
  exists v2, disk (save v' a i {| mem := m0; disk := FData v |}).2 = FData v2 /\ P v2.
Proof. intros H1 H2. rewrite save_run. destruct (io_write i); simpl; eauto. Qed.

(** When a save succeeds, the file and the cache hold the new contents. *)
Lemma save_ok {A} (v : V) (a b : A) i s s' :
  save v a i s = (Ok b, s') -> b = a /\ s' = {| mem := v; disk := FData v |} /\ io_write i = WriteOk.
Proof. rewrite save_run. destruct (io_write i); intros; by simplify_eq. Qed.

(** A successful mutation saw an unlocked, readable file. *)
Lemma lockedUpdate_ok {A} (k : SM E V A) i v m0 a s' :
  lockedUpdate k i {| mem := m0; disk := FData v |} = (Ok a, s') ->
  k i {| mem := v; disk := FData v |} = (Ok a, s').
Proof.
  intros H. destruct (io_lock i) eqn:E1, (io_read i) eqn:E2; [by rewrite lockedUpdate_run in H|..];
    destruct (lockedUpdate_io_error k i {| mem := m0; disk := FData v |}) as (e & Hk & _); auto; congruence.
Qed.

End Ops.

#[export] Hint Resolve lockedUpdate_disk_determined refreshed_disk_determined : kypost.

(** Run the file-store primitives in the goal. *)
Ltac sm_run :=
  unfold putMem, getMem, throw, persistJSONFile, mbind, SM_bind, mret, SM_ret in *; simpl in *.

(** ** Numbered records in a JSON file

    The rules and groups stores keep a list of records and a sequence number in
    one file, give every record they write a fresh revision, and find records
    by ID.  A record type of this kind is an [Entity]; the invariant [StoreOk]
    and the lemmas that the stores' operations keep it are stated once here. *)

Class Entity (A : Type) := { entID : A -> gostr; entRev : A -> Z }.

Record sfile (A : Type) := mkSfile { items : list A; seq_ : Z }.
Arguments mkSfile {A} _ _.
Arguments items {A} _.
Arguments seq_ {A} _.

(** The stores' own errors: no randomness for an ID, or a full store. *)
Inductive store_error := ErrRand | ErrTooMany.

Definition emptyFile {A} : sfile A := mkSfile [] 0.

Section Entities.
Context {A : Type} {EA : Entity A}.

Definition hasID (id : gostr) (r : A) : bool := entID r =s? id.

(** ** Invariant *)

(** Identifiers are distinct and not empty; revisions are distinct and none is
    past the sequence number. *)
Definition StoreOk (v : sfile A) : Prop :=
  NoDup (entID <$> items v) /\ [] ∉ (entID <$> items v) /\
  NoDup (entRev <$> items v) /\ Forall (fun r => (entRev r <= seq_ v)%Z) (items v).

Lemma StoreOk_empty : StoreOk emptyFile.
Proof. split_and!; try constructor. set_solver. Qed.

Lemma fresh_rev v : Forall (fun r => (entRev r <= seq_ v)%Z) (items v) -> (seq_ v + 1)%Z ∉ (entRev <$> items v).
Proof.
  rewrite Forall_forall. intros H (r & Hr & Hin)%list_elem_of_fmap. specialize (H r Hin). simpl in *. lia.
Qed.

Lemma StoreOk_append v r :
  StoreOk v -> entID r ∉ (entID <$> items v) -> entID r ≠ [] -> entRev r = (seq_ v + 1)%Z ->
  StoreOk (mkSfile (items v ++ [r]) (seq_ v + 1)).
Proof.
  intros (H1 & H2 & H3 & H4) Hid Hne Hr. unfold StoreOk. simpl. rewrite !fmap_app. simpl. split_and!.
  - apply NoDup_app. split_and!; [done|set_solver|apply NoDup_singleton].
  - set_solver.
  - apply NoDup_app. split_and!; [done| |apply NoDup_singleton]. rewrite Hr.
    pose proof (fresh_rev v H4). set_solver.
  - apply Forall_app. split; [eapply Forall_impl; [done|]; simpl; lia|]. constructor; [lia|done].
Qed.

Lemma update_first_NoDup {B} (g : A -> B) (p : A -> bool) (x : A) (l : list A) :
  NoDup (g <$> l) -> g x ∉ (g <$> l) -> NoDup (g <$> update_first p (fun _ => x) l).
Proof.
  induction l as [|y l IH]; simpl; [done|]. intros [Hy Hl]%NoDup_cons Hx.
  apply not_elem_of_cons in Hx as [Hxy Hx]. destruct (p y); csimpl; apply NoDup_cons; split; auto.
  intros (z & Hz & Hin)%list_elem_of_fmap.
  apply update_first_elem in Hin as [Hin|(w & _ & ->)]; [|congruence].
  apply Hy. rewrite Hz. by apply list_elem_of_fmap_2.
Qed.

Lemma StoreOk_replace v id r :
  StoreOk v -> is_Some (find_first (hasID id) (items v)) -> entID r = id -> entRev r = (seq_ v + 1)%Z ->
  StoreOk (mkSfile (update_first (hasID id) (fun _ => r) (items v)) (seq_ v + 1)).
Proof.
  intros (H1 & H2 & H3 & H4) [old Hold] <- Hr. unfold StoreOk. simpl.
  assert (E : entID <$> update_first (hasID (entID r)) (fun _ => r) (items v) = entID <$> items v).
  { apply update_first_map. intros x Hx. apply find_first_Some in Hx as [_ Hx]. unfold hasID in Hx. by to_prop. }
  rewrite E. split_and!; [done|done| |].
  - apply update_first_NoDup; [done|]. rewrite Hr. by apply fresh_rev.
  - apply Forall_forall. intros x Hx. rewrite Forall_forall in H4.
    apply update_first_elem in Hx as [Hx|(y & _ & ->)]; [|lia]. specialize (H4 x Hx). simpl in *. lia.
Qed.

Lemma StoreOk_sublist v l : StoreOk v -> l `sublist_of` items v -> StoreOk (mkSfile l (seq_ v)).
Proof.
  intros (H1 & H2 & H3 & H4) Hs. unfold StoreOk. simpl. split_and!.
  - eapply sublist_NoDup; [|by apply fmap_sublist]; done.
  - intros Hin. apply H2. eapply sublist_subseteq; [by apply fmap_sublist|done].
  - eapply sublist_NoDup; [|by apply fmap_sublist]; done.
  - rewrite Forall_forall in *. intros r Hr. apply H4. by eapply sublist_subseteq.
Qed.

Lemma hasID_find id rs r : find_first (hasID id) rs = Some r -> r ∈ rs /\ entID r = id.
Proof. intros [? H]%find_first_Some. unfold hasID in H. by to_prop. Qed.

Lemma hasID_none id rs : find_first (hasID id) rs = None <-> id ∉ (entID <$> rs).
Proof.
  rewrite find_first_None. split.
  - intros H (r & -> & Hr)%list_elem_of_fmap. specialize (H r Hr). unfold hasID in H. by to_prop.
  - intros H r Hr. apply bool_decide_eq_false_2. intros <-. apply H. by apply list_elem_of_fmap_2.
Qed.

Lemma find_first_append id rs r :
  id ∉ (entID <$> rs) -> entID r = id -> find_first (hasID id) (rs ++ [r]) = Some r.
Proof.
  intros Hn <-. apply hasID_none in Hn. rewrite find_first_app, Hn. simpl. unfold hasID.
  by rewrite bool_decide_eq_true_2.
Qed.

Lemma find_first_append_ne id rs r :
  id ≠ entID r -> find_first (hasID id) (rs ++ [r]) = find_first (hasID id) rs.
Proof.
  intros Hne. rewrite find_first_app. simpl. unfold hasID at 2.
  rewrite bool_decide_eq_false_2 by done. by destruct (find_first (hasID id) rs).
Qed.

Lemma find_first_replace id rs r old :
  find_first (hasID id) rs = Some old -> entID r = id ->
  find_first (hasID id) (update_first (hasID id) (fun _ => r) rs) = Some r.
Proof.
  intros Ho <-. erewrite find_first_update; [reflexivity|exact Ho|]. unfold hasID. by apply bool_decide_eq_true_2.
Qed.

Lemma find_first_replace_ne id id' rs r :
  id' ≠ id -> entID r = id ->
  find_first (hasID id') (update_first (hasID id) (fun _ => r) rs) = find_first (hasID id') rs.
Proof.
  intros Hne <-. apply find_first_update_ne; intros x Hx; unfold hasID in *; to_prop;
    apply bool_decide_eq_false_2; congruence.
Qed.

End Entities.
