(* ===== verification/RulesStore.v ===== *)
(** * RulesStore: the persisted rule list (backend/internal/rules/store.go)

    [rulesFile] is the contents of rules.json.  The clock's reading and the
    outcome of NewUUIDv4 are arguments of the operations that use them. *)

From S2P Require Import Prelude GoText FileStore RulesModel.

#[export] Instance Rule_entity : Entity Rule := {| entID := ruleID; entRev := Rev |}.

Definition rulesFile : Type := sfile Rule.
Abbreviation RS := (SM store_error rulesFile).
Abbreviation rules := items.
Abbreviation mkRulesFile := mkSfile.

Definition stampRule (r : Rule) (id : gostr) (order rev : Z) (created updated : gostr) : Rule :=
  {| ruleID := id; ruleName := ruleName r; Enabled := Enabled r; Order := order; Scope := Scope r;
     Match := Match r; Actions := Actions r; Rev := rev; CreatedAt := created; UpdatedAt := updated |}.

Section Store.
Context {SS : SortSlice}.

(** New on a base directory that exists. *)
Definition newStore : RS unit := openStore emptyFile.

Definition list_ : RS (list Rule) :=
  refreshed (fun v => sort_slice _ (fun a b => (Order a <? Order b)%Z) (rules v)).

Definition get (id : gostr) : RS (option Rule) :=
  refreshed (fun v => find_first (hasID id) (rules v)).

(** Upsert.  The sequence number moves before the branch, so a failed UUID
    leaves it advanced in memory. *)
Definition upsert (now : gostr) (uuid : option gostr) (r : Rule) : RS Rule :=
  lockedUpdate (
    v ← getMem;
    let seq' := (seq_ v + 1)%Z in
    putMem (mkRulesFile (rules v) seq') ;;
    if ruleID r =s? [] then
      match uuid with
      | None => throw ErrRand
      | Some id =>
          let order := if (Order r =? 0)%Z then Z.of_nat (length (rules v)) else Order r in
          let r' := stampRule r id order seq' now now in
          save (mkRulesFile (rules v ++ [r']) seq') r'
      end
    else
      match find_first (hasID (ruleID r)) (rules v) with
      | Some existing =>
          let created := if CreatedAt r =s? [] then CreatedAt existing else CreatedAt r in
          let r' := stampRule r (ruleID r) (Order r) seq' created now in
          save (mkRulesFile (update_first (hasID (ruleID r)) (fun _ => r') (rules v)) seq') r'
      | None =>
          let r' := stampRule r (ruleID r) (Order r) seq' now now in
          save (mkRulesFile (rules v ++ [r']) seq') r'
      end).

Definition delete_ (id : gostr) : RS bool :=
  lockedUpdate (
    v ← getMem;
    match find_first (hasID id) (rules v) with
    | None => mret false
    | Some _ => save (mkRulesFile (remove_first (hasID id) (rules v)) (seq_ v)) true
    end).

(** Reorder: the position map (a later occurrence of an ID wins) and the loop
    over the rules. *)
Definition positions (ids : list gostr) : gmap gostr Z :=
  foldl (fun m '(i, id) => <[id := i]> m) ∅ (imap (fun i id => (Z.of_nat i, id)) ids).

Fixpoint reorderLoop (position : gmap gostr Z) (now : gostr) (rs : list Rule) (seq : Z) : list Rule * Z :=
  match rs with
  | [] => ([], seq)
  | r :: rs' =>
      match position !! ruleID r with
      | None => let '(out, s) := reorderLoop position now rs' seq in (r :: out, s)
      | Some pos =>
          let seq := (seq + 1)%Z in
          let '(out, s) := reorderLoop position now rs' seq in
          (stampRule r (ruleID r) pos seq (CreatedAt r) now :: out, s)
      end
  end.

Definition reorder (now : gostr) (ids : list gostr) : RS unit :=
  lockedUpdate (
    v ← getMem;
    let '(rs, s) := reorderLoop (positions ids) now (rules v) (seq_ v) in
    save (mkRulesFile rs s) tt).

(** ** Invariant *)

(** Reorder keeps the identifiers and hands out increasing revisions. *)
Lemma reorderLoop_ok position now rs seq rs' seq' :
  reorderLoop position now rs seq = (rs', seq') ->
  (seq <= seq')%Z /\ ruleID <$> rs' = ruleID <$> rs /\
  Forall2 (fun r r' => r' = r /\ position !! ruleID r = None \/
    exists pos rev, position !! ruleID r = Some pos /\ (seq < rev <= seq')%Z /\
      r' = stampRule r (ruleID r) pos rev (CreatedAt r) now) rs rs' /\
  (NoDup (Rev <$> rs) -> Forall (fun r => (Rev r <= seq)%Z) rs -> NoDup (Rev <$> rs')).
Proof.
  revert seq rs' seq'. induction rs as [|r rs IH]; intros seq rs' seq'; simpl.
  { intros [= <- <-]. split_and!; done. }
  destruct (position !! ruleID r) as [pos|] eqn:Ep.
  - destruct (reorderLoop position now rs (seq + 1)) as [out s] eqn:El. intros [= <- <-].
    destruct (IH _ _ _ El) as (H1 & H2 & H3 & H4). csimpl. split_and!; [lia|by rewrite H2|..].
    + constructor; [right; exists pos, (seq + 1)%Z; split_and!; try done; lia|].
      eapply Forall2_impl; [exact H3|]. intros x y [?|(p & v & ? & ? & ?)]; [by left|right].
      exists p, v. split_and!; try done; lia.
    + intros [_ Hn]%NoDup_cons [Hr Hle]%Forall_cons. apply NoDup_cons. split.
      * intros (y & Hy & Hin)%list_elem_of_fmap. apply list_elem_of_lookup in Hin as [k Hk].
        destruct (Forall2_lookup_r _ _ _ _ _ H3 Hk) as (x & Hx & Hxy).
        rewrite Forall_forall in Hle. pose proof (Hle x (list_elem_of_lookup_2 _ _ _ Hx)).
        destruct Hxy as [[-> _]|(p & v & _ & ? & ->)]; simpl in *; lia.
      * apply H4; [done|]. eapply Forall_impl; [done|]. simpl. lia.
  - destruct (reorderLoop position now rs seq) as [out s] eqn:El. intros [= <- <-].
    destruct (IH _ _ _ El) as (H1 & H2 & H3 & H4). csimpl. split_and!; [lia|by rewrite H2|..].
    + constructor; [by left|done].
    + intros [Hnr Hn]%NoDup_cons [Hr Hle]%Forall_cons. apply NoDup_cons. split; [|auto].
      intros (y & Hy & Hin)%list_elem_of_fmap. apply list_elem_of_lookup in Hin as [k Hk].
      destruct (Forall2_lookup_r _ _ _ _ _ H3 Hk) as (x & Hx & Hxy).
      destruct Hxy as [[-> _]|(p & v & _ & ? & ->)]; simpl in *; [|lia].
      apply Hnr. rewrite Hy. apply list_elem_of_fmap_2. by eapply list_elem_of_lookup_2.
Qed.

(** The mutations of the store, with what they draw from their surroundings. *)
Inductive rule_op :=
  | OpUpsert (now : gostr) (uuid : option gostr) (r : Rule)
  | OpDelete (id : gostr)
  | OpReorder (now : gostr) (ids : list gostr).

Definition runOp (o : rule_op) (i : io) (s : fstore rulesFile) : fstore rulesFile :=
  match o with
  | OpUpsert now uuid r => (upsert now uuid r i s).2
  | OpDelete id => (delete_ id i s).2
  | OpReorder now ids => (reorder now ids i s).2
  end.

(** A generated identifier is new; everything else is arbitrary. *)
Definition FreshOp (o : rule_op) (s : fstore rulesFile) : Prop :=
  match o with
  | OpUpsert _ (Some id) _ => id ≠ [] /\ forall v, disk s = FData v -> id ∉ (ruleID <$> rules v)
  | _ => True
  end.

(** One step of the system: some process, with whatever it has cached, runs an
    operation on the shared file under some outcome of the system calls. *)
Inductive step : file rulesFile -> file rulesFile -> Prop :=
  | step_op o i m0 d : FreshOp o {| mem := m0; disk := d |} -> step d (disk (runOp o i {| mem := m0; disk := d |})).

Lemma upsert_keeps now uuid r m0 v i :
  FreshOp (OpUpsert now uuid r) {| mem := m0; disk := FData v |} -> StoreOk v ->
  exists v', disk (upsert now uuid r i {| mem := m0; disk := FData v |}).2 = FData v' /\ StoreOk v'.
Proof.
  intros Hf Hv. apply lockedUpdate_keeps; [done|].
  unfold getMem, putMem, throw, mbind, SM_bind. simpl.
  destruct (ruleID r =s? []) eqn:Eid; to_prop.
  - destruct uuid as [id|]; simpl; [|eauto]. destruct Hf as [Hne Hid].
    apply save_keeps; [done|]. apply StoreOk_append; auto.
  - destruct (find_first (hasID (ruleID r)) (rules v)) as [ex|] eqn:Ef.
    + apply save_keeps; [done|]. by apply StoreOk_replace.
    + apply save_keeps; [done|]. apply StoreOk_append; try done. by apply hasID_none.
Qed.

Lemma delete_keeps id m0 v i :
  StoreOk v -> exists v', disk (delete_ id i {| mem := m0; disk := FData v |}).2 = FData v' /\ StoreOk v'.
Proof.
  intros Hv. apply lockedUpdate_keeps; [done|].
  unfold getMem, mbind, SM_bind. simpl. destruct (find_first _ _); [|simpl; eauto].
  apply save_keeps; [done|]. apply StoreOk_sublist; [done|]. apply remove_first_sublist.
Qed.

Lemma StoreOk_reorder position now v rs s :
  StoreOk v -> reorderLoop position now (rules v) (seq_ v) = (rs, s) -> StoreOk (mkRulesFile rs s).
Proof.
  intros (H1 & H2 & H3 & H4) E. apply reorderLoop_ok in E as (L1 & L2 & L3 & L4).
  unfold StoreOk. simpl. rewrite L2. split_and!; auto.
  apply Forall_forall. intros y Hy. apply list_elem_of_lookup in Hy as [k Hk].
  destruct (Forall2_lookup_r _ _ _ _ _ L3 Hk) as (x & Hx & Hxy). rewrite Forall_forall in H4.
  pose proof (H4 x (list_elem_of_lookup_2 _ _ _ Hx)).
  destruct Hxy as [[-> _]|(p & w & _ & ? & ->)]; simpl in *; lia.
Qed.

Lemma reorder_keeps now ids m0 v i :
  StoreOk v -> exists v', disk (reorder now ids i {| mem := m0; disk := FData v |}).2 = FData v' /\ StoreOk v'.
Proof.
  intros Hv. apply lockedUpdate_keeps; [done|].
  unfold getMem, mbind, SM_bind. simpl. destruct (reorderLoop _ _ _ _) as [rs s] eqn:E.
  apply save_keeps; [done|]. by eapply StoreOk_reorder.
Qed.

Lemma step_keeps d d' v : step d d' -> d = FData v -> StoreOk v -> exists v', d' = FData v' /\ StoreOk v'.
Proof.
  intros [o i m0 d0 Hf] -> Hv. destruct o; simpl.
  - by apply upsert_keeps.
  - by apply delete_keeps.
  - by apply reorder_keeps.
Qed.

(** Whatever sequence of Upsert, Delete and Reorder any number of
    processes run on a fresh rules.json, each with its own stale cache and with
    any lock, read, write or fsync failing, the file stays decodable, its rule
    IDs stay distinct and non-empty, and its revisions stay distinct and bounded
    by the sequence number. *)
Lemma rules_store_invariant (d : file rulesFile) :
  rtc step (FData emptyFile) d -> exists v, d = FData v /\ StoreOk v.
Proof.
  intros H. assert (forall d0, rtc step d0 d -> (exists v, d0 = FData v /\ StoreOk v) ->
    exists v, d = FData v /\ StoreOk v) as K.
  { clear. induction 1 as [|x y z Hs _ IH]; [done|]. intros (v & -> & Hv).
    apply IH. by eapply step_keeps. }
  apply (K _ H). exists emptyFile. split; [done|apply StoreOk_empty].
Qed.

(** ** Upsert, then Get *)

(** What a successful Upsert did to the file. *)
Lemma upsert_effect now uuid r m0 v i r' s' :
  FreshOp (OpUpsert now uuid r) {| mem := m0; disk := FData v |} ->
  upsert now uuid r i {| mem := m0; disk := FData v |} = (Ok r', s') ->
  exists v', disk s' = FData v' /\ seq_ v' = (seq_ v + 1)%Z /\ Rev r' = seq_ v' /\ UpdatedAt r' = now /\
    (ruleID r ≠ [] -> ruleID r' = ruleID r) /\
    find_first (hasID (ruleID r')) (rules v') = Some r' /\
    forall id, id ≠ ruleID r' -> find_first (hasID id) (rules v') = find_first (hasID id) (rules v).
Proof.
  intros Hf H. apply lockedUpdate_ok in H. unfold getMem, putMem, throw, mbind, SM_bind in H. simpl in H.
  destruct (ruleID r =s? []) eqn:Eid; to_prop.
  - destruct uuid as [id|]; [|done]. apply save_ok in H as (-> & -> & _). destruct Hf as [Hne Hid].
    eexists. split; [reflexivity|]. split_and!; try done; [|intros; by apply find_first_append_ne].
    simpl. apply find_first_append; auto.
  - destruct (find_first (hasID (ruleID r)) (rules v)) as [ex|] eqn:Ef.
    + apply save_ok in H as (-> & -> & _). eexists. split; [reflexivity|]. split_and!; try done; simpl.
      * by eapply find_first_replace.
      * intros id Hne. by apply find_first_replace_ne.
    + apply save_ok in H as (-> & -> & _). eexists. split; [reflexivity|]. split_and!; try done; simpl; [|intros; by apply find_first_append_ne].
      apply find_first_append; [|done]. by apply hasID_none.
Qed.

(** A successful Upsert is visible to every process: Get of the rule's ID
    then returns exactly the rule Upsert returned, with the new revision and the
    caller's ID if it gave one, and Get of every other ID is unchanged. *)
Lemma upsert_then_get (now : gostr) (uuid : option gostr) (r r' : Rule) (m0 m1 : rulesFile)
    (v : rulesFile) (i i' : io) (s' : fstore rulesFile) :
  FreshOp (OpUpsert now uuid r) {| mem := m0; disk := FData v |} ->
  upsert now uuid r i {| mem := m0; disk := FData v |} = (Ok r', s') ->
  io_read i' = true ->
  (get (ruleID r') i' {| mem := m1; disk := disk s' |}).1 = Ok (Some r') /\
  Rev r' = (seq_ v + 1)%Z /\ (ruleID r ≠ [] -> ruleID r' = ruleID r) /\
  forall id, id ≠ ruleID r' ->
    (get id i' {| mem := m1; disk := disk s' |}).1 = (get id i' {| mem := m1; disk := FData v |}).1.
Proof.
  intros Hf H Hr. destruct (upsert_effect _ _ _ _ _ _ _ _ Hf H) as (v' & -> & Hs & Hrev & _ & Hid & Hfind & Hother).
  unfold get. rewrite !refreshed_run by done. simpl. rewrite Hfind. split_and!; [done|lia|done|].
  intros id Hne. rewrite !refreshed_run by done. simpl. by rewrite Hother.
Qed.

(** ** Reorder, then List *)

(** Without repetitions an ID's position is its index. *)
Lemma positions_lookup ids i id :
  NoDup ids -> ids !! i = Some id -> positions ids !! id = Some (Z.of_nat i).
Proof.
  unfold positions. revert i. induction ids as [|x ids IH] using rev_ind; intros i Hn Hi; [done|].
  rewrite imap_app, foldl_app. cbn [imap foldl]. simpl.
  apply NoDup_app in Hn as (Hn & Hx & _). apply lookup_app_Some in Hi as [Hi|[Hle Hi]].
  - rewrite lookup_insert_ne; [by apply IH|]. intros ->. apply (Hx id); [by eapply list_elem_of_lookup_2|set_solver].
  - apply list_lookup_singleton_Some in Hi as [Hi ->]. rewrite lookup_insert_eq. f_equal. f_equal. simpl. lia.
Qed.

Lemma reorder_positions ids now rs seq rs' s :
  reorderLoop (positions ids) now rs seq = (rs', s) -> NoDup ids -> ruleID <$> rs ≡ₚ ids ->
  forall r', r' ∈ rs' -> exists i, ids !! i = Some (ruleID r') /\ Order r' = Z.of_nat i.
Proof.
  intros E Hn Hp r' Hr'. apply reorderLoop_ok in E as (_ & _ & H2 & _).
  apply list_elem_of_lookup in Hr' as [k Hk].
  destruct (Forall2_lookup_r _ _ _ _ _ H2 Hk) as (x & Hx & Hxy).
  assert (ruleID x ∈ ids) as Hin.
  { rewrite <- Hp. apply list_elem_of_fmap_2. by eapply list_elem_of_lookup_2. }
  apply list_elem_of_lookup in Hin as [i Hi]. pose proof (positions_lookup ids i _ Hn Hi) as Hpos.
  destruct Hxy as [[-> Hnone]|(p & w & Hp' & _ & ->)]; [congruence|]. simpl. exists i. split; [done|congruence].
Qed.

Lemma Sorted_seqZ a n : Sorted Z.le (seqZ a (Z.of_nat n)).
Proof.
  revert a. induction n as [|n IH]; intros a; [constructor|].
  rewrite seqZ_cons by lia. replace (Z.pred (Z.of_nat (S n))) with (Z.of_nat n) by lia.
  constructor; [apply IH|]. destruct n; [constructor|]. rewrite seqZ_cons by lia. constructor. lia.
Qed.

(** Rules whose Order is their ID's index in [ids] are sorted by Order exactly
    when their IDs are [ids]. *)
Lemma sorted_by_position ids l :
  NoDup ids -> ruleID <$> l ≡ₚ ids ->
  (forall r, r ∈ l -> exists i, ids !! i = Some (ruleID r) /\ Order r = Z.of_nat i) ->
  Sorted (fun a b => (Order b <? Order a)%Z = false) l -> ruleID <$> l = ids.
Proof.
  intros Hn Hp Hpos Hs.
  assert (E : Order <$> l = seqZ 0 (Z.of_nat (length ids))).
  { apply (Sorted_unique Z.le).
    - clear -Hs. induction Hs as [|x l Hl IH Hd]; csimpl; constructor; [done|].
      destruct Hd; csimpl; constructor. to_prop. done.
    - apply Sorted_seqZ.
    - apply NoDup_Permutation.
      + apply NoDup_fmap_2_strong; [|rewrite <- Hp in Hn; by eapply NoDup_fmap_1].
        intros x y Hx Hy Hxy. destruct (Hpos x Hx) as (i & Hi & Ei), (Hpos y Hy) as (j & Hj & Ej).
        assert (i = j) as -> by lia. rewrite Hi in Hj. injection Hj as Hxy'.
        apply list_elem_of_lookup in Hx as [a Ha], Hy as [b Hb].
        rewrite <- Hp in Hn. assert (a = b) as ->; [|congruence].
        eapply (NoDup_lookup _ _ _ (ruleID x)); [exact Hn|..]; rewrite list_lookup_fmap, ?Ha, ?Hb; simpl; congruence.
      + apply NoDup_seqZ.
      + intros z. rewrite elem_of_seqZ, list_elem_of_fmap. split.
        * intros (r & -> & Hr). destruct (Hpos r Hr) as (i & Hi & ->). apply lookup_lt_Some in Hi. lia.
        * intros Hz. destruct (lookup_lt_is_Some_2 ids (Z.to_nat z)) as [id Hid]; [lia|].
          assert (id ∈ (ruleID <$> l)) as Hin by (rewrite Hp; by eapply list_elem_of_lookup_2).
          apply list_elem_of_fmap in Hin as (r & -> & Hr). exists r. split; [|done].
          destruct (Hpos r Hr) as (i & Hi & ->). pose proof (NoDup_lookup _ _ _ _ Hn Hid Hi). lia. }
  apply list_eq. intros k. rewrite list_lookup_fmap.
  assert (length l = length ids) as Hlen by (rewrite <- Hp; by rewrite length_fmap).
  destruct (l !! k) as [r|] eqn:Hk; simpl.
  - destruct (Hpos r (list_elem_of_lookup_2 _ _ _ Hk)) as (i & Hi & Ei).
    assert (Order <$> l !! k = seqZ 0 (Z.of_nat (length ids)) !! k) as Hko by (rewrite <- E, list_lookup_fmap; done).
    rewrite Hk in Hko. simpl in Hko. symmetry in Hko. apply lookup_seqZ in Hko as [? _].
    assert (i = k) as -> by lia. done.
  - symmetry. apply lookup_ge_None. apply lookup_ge_None in Hk. lia.
Qed.

(** Reorder does what the drag-and-drop list shows: after a successful
    Reorder with every rule ID once, List in any process returns the rules in
    exactly the order of the given IDs, whatever the unstable sort does with
    equal keys. *)
Lemma reorder_then_list {L : SortSliceLaws} (now : gostr) (ids : list gostr) (m0 m1 v : rulesFile) (i i' : io)
    (s' : fstore rulesFile) :
  StoreOk v -> ruleID <$> rules v ≡ₚ ids ->
  reorder now ids i {| mem := m0; disk := FData v |} = (Ok tt, s') -> io_read i' = true ->
  exists l, (list_ i' {| mem := m1; disk := disk s' |}).1 = Ok l /\ ruleID <$> l = ids.
Proof.
  intros Hv Hp H Hr. apply lockedUpdate_ok in H. unfold getMem, mbind, SM_bind in H. simpl in H.
  destruct (reorderLoop (positions ids) now (rules v) (seq_ v)) as [rs s] eqn:E.
  apply save_ok in H as (_ & -> & _). unfold list_. simpl. rewrite refreshed_run by done. simpl.
  eexists. split; [reflexivity|]. destruct Hv as (Hn & _).
  assert (NoDup ids) as Hni by (by rewrite <- Hp).
  apply sorted_by_position; [done|..].
  - rewrite sort_slice_perm. by rewrite (proj1 (proj2 (reorderLoop_ok _ _ _ _ _ _ E))).
  - intros r Hin. rewrite sort_slice_perm in Hin. by eapply reorder_positions.
  - apply sort_slice_sorted; intros; to_prop; lia.
Qed.

End Store.
