(* ===== verification/Groups.v ===== *)
(** * Groups: contact groups (backend/internal/groups)

    The groups store has the shape of the rules store plus a ceiling on the
    number of groups and [ensureByName], which resolves a contact's category
    names to group IDs in one read-modify-write cycle.  NewUUIDv4 is an
    argument: one outcome for Upsert, one per created group for EnsureByName. *)

From S2P Require Import Prelude GoText FileStore.

Record GroupRec := mkGroupRec { gID : gostr; gName : gostr; gRev : Z; gCreatedAt : gostr; gUpdatedAt : gostr }.
#[export] Instance GroupRec_entity : Entity GroupRec := {| entID := gID; entRev := gRev |}.

Definition groupsFile : Type := sfile GroupRec.
Abbreviation GS := (SM store_error groupsFile).

Definition MaxGroupsPerUser : Z := 1000.

Section Groups.
Context {U : Unicode} {SS : SortSlice}.

Definition newGroups : GS unit := openStore emptyFile.

Definition listGroups : GS (list GroupRec) :=
  refreshed (fun v => sort_slice _ (fun a b => strLtb (gName a) (gName b)) (items v)).

Definition getGroup (id : gostr) : GS (option GroupRec) :=
  refreshed (fun v => find_first (hasID id) (items v)).

Definition stampGroup (g : GroupRec) (id : gostr) (rev : Z) (created updated : gostr) : GroupRec :=
  mkGroupRec id (gName g) rev created updated.

Definition full (gs : list GroupRec) : bool := (MaxGroupsPerUser <=? Z.of_nat (length gs))%Z.

(** Upsert. *)
Definition upsertGroup (now : gostr) (uuid : option gostr) (g : GroupRec) : GS GroupRec :=
  lockedUpdate (
    v ← getMem;
    let seq' := (seq_ v + 1)%Z in
    putMem (mkSfile (items v) seq') ;;
    if gID g =s? [] then
      if full (items v) then throw ErrTooMany
      else match uuid with
           | None => throw ErrRand
           | Some id =>
               let g' := stampGroup g id seq' now now in
               save (mkSfile (items v ++ [g']) seq') g'
           end
    else
      match find_first (hasID (gID g)) (items v) with
      | Some existing =>
          let created := if gCreatedAt g =s? [] then gCreatedAt existing else gCreatedAt g in
          let g' := stampGroup g (gID g) seq' created now in
          save (mkSfile (update_first (hasID (gID g)) (fun _ => g') (items v)) seq') g'
      | None =>
          let g' := stampGroup g (gID g) seq' now now in
          save (mkSfile (items v ++ [g']) seq') g'
      end).

Definition deleteGroup (id : gostr) : GS bool :=
  lockedUpdate (
    v ← getMem;
    match find_first (hasID id) (items v) with
    | None => mret false
    | Some _ => save (mkSfile (remove_first (hasID id) (items v)) (seq_ v)) true
    end).

(** byName: lower-cased name to ID; a later group wins. *)
Definition nameKey (name : gostr) : gostr := toLower name.
Definition byNameOf (gs : list GroupRec) : gmap gostr gostr :=
  foldl (fun m g => <[nameKey (gName g) := gID g]> m) ∅ gs.

(** The locals of EnsureByName's loop: the store's fields, byName, ids, seen
    and created. *)
Record ens := mkEns {
  ensFile : groupsFile;
  ensByName : gmap gostr gostr;
  ensIds : list gostr;
  ensSeen : gset gostr;
  ensCreated : nat;
}.

Fixpoint ensureLoop (uuid : nat -> option gostr) (now : gostr) (names : list gostr) (st : ens) :
    res store_error unit * ens :=
  match names with
  | [] => (Ok tt, st)
  | raw :: names' =>
      let name := trimSpace raw in
      let key := nameKey name in
      if name =s? [] then ensureLoop uuid now names' st
      else if bool_decide (key ∈ ensSeen st) then ensureLoop uuid now names' st
      else
        let seen := {[ key ]} ∪ ensSeen st in
        match ensByName st !! key with
        | Some id =>
            ensureLoop uuid now names' (mkEns (ensFile st) (ensByName st) (ensIds st ++ [id]) seen (ensCreated st))
        | None =>
            if full (items (ensFile st)) then (Err ErrTooMany, st)
            else match uuid (ensCreated st) with
                 | None => (Err ErrRand, st)
                 | Some id =>
                     let seq' := (seq_ (ensFile st) + 1)%Z in
                     let g := mkGroupRec id name seq' now now in
                     ensureLoop uuid now names'
                       (mkEns (mkSfile (items (ensFile st) ++ [g]) seq') (<[key := id]> (ensByName st))
                          (ensIds st ++ [id]) seen (S (ensCreated st)))
                 end
        end
  end.

(** EnsureByName; on an error the groups appended so far stay in memory only. *)
Definition ensureByName (uuid : nat -> option gostr) (now : gostr) (names : list gostr) : GS (list gostr) :=
  lockedUpdate (
    v ← getMem;
    let '(r, st) := ensureLoop uuid now names (mkEns v (byNameOf (items v)) [] ∅ 0) in
    match r with
    | Err e => putMem (ensFile st) ;; throw e
    | Ok _ => if bool_decide (ensCreated st = 0%nat) then mret (ensIds st)
              else save (ensFile st) (ensIds st)
    end).

(** ** What EnsureByName resolves *)

(** The keys a batch asks for: trimmed and lower-cased, blanks dropped, each at
    its first appearance. *)
Fixpoint batchKeys (seen : gset gostr) (names : list gostr) : list gostr :=
  match names with
  | [] => []
  | raw :: names' =>
      let name := trimSpace raw in
      let key := nameKey name in
      if name =s? [] then batchKeys seen names'
      else if bool_decide (key ∈ seen) then batchKeys seen names'
      else key :: batchKeys ({[ key ]} ∪ seen) names'
  end.

Lemma batchKeys_NoDup seen names : NoDup (batchKeys seen names) /\ forall k, k ∈ batchKeys seen names -> k ∉ seen.
Proof.
  revert seen. induction names as [|raw names IH]; intros seen; simpl; [split; [constructor|set_solver]|].
  case_bool_decide; [apply IH|]. case_bool_decide; [apply IH|].
  destruct (IH ({[nameKey (trimSpace raw)]} ∪ seen)) as [IH1 IH2]. split.
  - constructor; [|done]. intros Hin. apply (IH2 _ Hin). set_solver.
  - intros k [->|Hk]%elem_of_cons; [done|]. specialize (IH2 k Hk). set_solver.
Qed.

Lemma byNameOf_app gs g : byNameOf (gs ++ [g]) = <[nameKey (gName g) := gID g]> (byNameOf gs).
Proof. unfold byNameOf. by rewrite foldl_app. Qed.

Lemma byNameOf_Some gs k id :
  byNameOf gs !! k = Some id -> exists g, g ∈ gs /\ nameKey (gName g) = k /\ gID g = id.
Proof.
  induction gs as [|g gs IH] using rev_ind; [unfold byNameOf; simpl; by rewrite lookup_empty|]. rewrite byNameOf_app.
  destruct (decide (nameKey (gName g) = k)) as [<-|Hne].
  - rewrite lookup_insert_eq. intros [= <-]. exists g. split; [apply elem_of_app; right; left|done].
  - rewrite lookup_insert_ne by done. intros (g' & ? & ?)%IH. exists g'. split; [apply elem_of_app; by left|done].
Qed.

(** One run of the loop: groups are only appended, under keys that were not
    there; every requested key is resolved, in order. *)
Lemma ensureLoop_ok uuid now names st st' :
  ensureLoop uuid now names st = (Ok tt, st') -> ensByName st = byNameOf (items (ensFile st)) ->
  ensByName st' = byNameOf (items (ensFile st')) /\
  (exists new, items (ensFile st') = items (ensFile st) ++ new /\
     length new = (ensCreated st' - ensCreated st)%nat /\ (ensCreated st <= ensCreated st')%nat) /\
  (forall k id, ensByName st !! k = Some id -> ensByName st' !! k = Some id) /\
  exists ids, ensIds st' = ensIds st ++ ids /\
    Forall2 (fun k id => ensByName st' !! k = Some id) (batchKeys (ensSeen st) names) ids.
Proof.
  revert st. induction names as [|raw names IH]; intros st; simpl.
  { intros [= <-] Hb. split_and!; [done| |done|].
    - exists []. rewrite app_nil_r. split_and!; [done|simpl; lia|lia].
    - exists []. by rewrite app_nil_r. }
  case_bool_decide; [apply IH|]. case_bool_decide; [apply IH|].
  destruct (ensByName st !! nameKey (trimSpace raw)) as [id|] eqn:Ek.
  - intros E Hb. destruct (IH _ E) as (H1 & H2 & H3 & ids & E4 & H4); [done|]. simpl in *.
    split_and!; [done|done|done|]. exists (id :: ids). rewrite E4, <- app_assoc. split; [done|].
    constructor; [auto|done].
  - destruct (full _); [done|]. destruct (uuid (ensCreated st)) as [id|]; [|done].
    intros E Hb. destruct (IH _ E) as (H1 & (new & H2 & H2' & H2'') & H3 & ids & E4 & H4); simpl in *.
    { rewrite byNameOf_app, Hb. done. }
    split_and!; [done| | |].
    + eexists (_ :: new). rewrite H2, <- app_assoc. split_and!; [reflexivity|simpl; lia|lia].
    + intros k id' Hk. apply H3. rewrite lookup_insert_ne; [done|]. intros <-. congruence.
    + exists (id :: ids). rewrite E4, <- app_assoc. split; [done|].
      constructor; [apply H3, lookup_insert_eq|done].
Qed.

(** With every key already known the loop creates nothing. *)
Lemma ensureLoop_known uuid now names st ids :
  Forall2 (fun k id => ensByName st !! k = Some id) (batchKeys (ensSeen st) names) ids ->
  exists seen, ensureLoop uuid now names st
    = (Ok tt, mkEns (ensFile st) (ensByName st) (ensIds st ++ ids) seen (ensCreated st)).
Proof.
  revert st ids. induction names as [|raw names IH]; intros st ids; simpl.
  { inversion 1; subst. exists (ensSeen st). rewrite app_nil_r. by destruct st. }
  case_bool_decide; [apply IH|]. case_bool_decide; [apply IH|].
  inversion 1 as [|? id ? ids' Hk Hrest]; subst. rewrite Hk.
  destruct (IH (mkEns (ensFile st) (ensByName st) (ensIds st ++ [id])
    ({[nameKey (trimSpace raw)]} ∪ ensSeen st) (ensCreated st)) ids') as [seen E]; [done|].
  exists seen. rewrite E. simpl. by rewrite <- app_assoc.
Qed.

Lemma ensureByName_effect uuid now names i m0 v ids s' :
  ensureByName uuid now names i {| mem := m0; disk := FData v |} = (Ok ids, s') ->
  exists v', disk s' = FData v' /\ (exists new, items v' = items v ++ new) /\
    Forall2 (fun k id => byNameOf (items v') !! k = Some id) (batchKeys ∅ names) ids.
Proof.
  intros H. apply lockedUpdate_ok in H. unfold getMem, putMem, throw, mbind, SM_bind in H. simpl in H.
  destruct (ensureLoop uuid now names _) as [r st] eqn:E. destruct r as [[]|e]; [|done].
  destruct (ensureLoop_ok _ _ _ _ _ E) as (H1 & (new & H2 & H2' & _) & H3 & ids' & E4 & H4); [done|].
  simpl in *. case_bool_decide as Hc.
  - injection H as <- <-. exists v. assert (new = []) as -> by (destruct new; [done|simpl in *; lia]).
    rewrite app_nil_r in H2. split_and!; [done|by exists []; rewrite app_nil_r|]. rewrite E4, <- H2, <- H1. done.
  - apply save_ok in H as (-> & -> & _). exists (ensFile st). split_and!; [done|by exists new|]. by rewrite E4, <- H1.
Qed.

(** EnsureByName resolves a batch of names: the result lists, for every
    non-blank name in order of first appearance and up to case and surrounding
    space, the ID of a stored group of that name; existing groups are kept and
    new ones appended; and with distinct IDs in the file the result has no
    repetition. *)
Lemma ensureByName_resolves (uuid : nat -> option gostr) (now : gostr) (names : list gostr) (i : io)
    (m0 v : groupsFile) (ids : list gostr) (s' : fstore groupsFile) :
  ensureByName uuid now names i {| mem := m0; disk := FData v |} = (Ok ids, s') ->
  exists v', disk s' = FData v' /\ (exists new, items v' = items v ++ new) /\
    Forall2 (fun k id => exists g, g ∈ items v' /\ nameKey (gName g) = k /\ gID g = id) (batchKeys ∅ names) ids /\
    (NoDup (gID <$> items v') -> NoDup ids).
Proof.
  intros H. destruct (ensureByName_effect _ _ _ _ _ _ _ _ H) as (v' & Hd & Hn & Hf).
  exists v'. split_and!; [done|done| |].
  - eapply Forall2_impl; [exact Hf|]. simpl. intros k id. apply byNameOf_Some.
  - intros Hnd. pose proof (proj1 (batchKeys_NoDup ∅ names)) as Hk.
    apply NoDup_alt. intros a b x Ha Hb.
    destruct (Forall2_lookup_r _ _ _ _ _ Hf Ha) as (ka & Hka & Ea), (Forall2_lookup_r _ _ _ _ _ Hf Hb) as (kb & Hkb & Eb).
    apply byNameOf_Some in Ea as (ga & Hga & <- & Ia), Eb as (gb & Hgb & <- & Ib).
    apply list_elem_of_lookup in Hga as [ja Hja], Hgb as [jb Hjb].
    assert (ja = jb) as ->.
    { apply (NoDup_lookup (gID <$> items v') ja jb x); [done|..]; rewrite list_lookup_fmap; [rewrite Hja|rewrite Hjb]; simpl; congruence. }
    assert (ga = gb) as -> by congruence. by eapply (NoDup_lookup _ _ _ _ Hk).
Qed.

(** EnsureByName is idempotent: after it succeeded, the same batch from
    any process creates nothing, leaves the file as it is and returns the same
    IDs in the same order, whatever UUIDs and clock it would draw. *)
Lemma ensureByName_idempotent (uuid uuid' : nat -> option gostr) (now now' : gostr) (names : list gostr)
    (i i' : io) (m0 m1 v : groupsFile) (ids : list gostr) (s' : fstore groupsFile) :
  ensureByName uuid now names i {| mem := m0; disk := FData v |} = (Ok ids, s') ->
  io_lock i' = true -> io_read i' = true ->
  let r := ensureByName uuid' now' names i' {| mem := m1; disk := disk s' |} in
  r.1 = Ok ids /\ disk r.2 = disk s'.
Proof.
  intros H Hl Hr. destruct (ensureByName_effect _ _ _ _ _ _ _ _ H) as (v' & -> & _ & Hf).
  unfold ensureByName. rewrite lockedUpdate_run by done. unfold getMem, mbind, SM_bind. simpl.
  destruct (ensureLoop_known uuid' now' names (mkEns v' (byNameOf (items v')) [] ∅ 0) ids) as [seen E]; [done|].
  rewrite E. done.
Qed.

(** ** Invariants *)

Definition Capped (v : groupsFile) : Prop := (Z.of_nat (length (items v)) <= MaxGroupsPerUser)%Z.

(** IDs drawn during one EnsureByName: non-empty, new, and never repeated. *)
Definition FreshSupply (uuid : nat -> option gostr) (from : nat) (gs : list GroupRec) : Prop :=
  (forall n id, (from <= n)%nat -> uuid n = Some id -> id ≠ [] /\ id ∉ (gID <$> gs)) /\
  (forall n m id, uuid n = Some id -> uuid m = Some id -> n = m).

(** Every state the loop passes through, failed or not, is a good file. *)
Lemma ensureLoop_keeps uuid now names st :
  StoreOk (ensFile st) -> FreshSupply uuid (ensCreated st) (items (ensFile st)) ->
  StoreOk (ensFile (ensureLoop uuid now names st).2).
Proof.
  revert st. induction names as [|raw names IH]; intros st Hs Hf; simpl; [done|].
  case_bool_decide; [by apply IH|]. case_bool_decide; [by apply IH|].
  destruct (ensByName st !! _) as [id|]; [by apply IH|].
  destruct (full _); [done|]. destruct (uuid (ensCreated st)) as [id|] eqn:Eu; [|done].
  destruct Hf as [Hf Hinj]. destruct (Hf _ _ (Nat.le_refl _) Eu) as [Hne Hid]. apply IH; simpl.
  - by apply StoreOk_append.
  - split; [|done]. intros n id' Hn Hu. destruct (Hf n id') as [? Hid']; [lia|done|]. split; [done|].
    rewrite fmap_app. simpl. intros [?|Hx]%elem_of_app; [done|].
    apply list_elem_of_singleton in Hx as ->. pose proof (Hinj _ _ _ Eu Hu). lia.
Qed.

Lemma full_false gs : full gs = false -> (Z.of_nat (length gs) < MaxGroupsPerUser)%Z.
Proof. unfold full. intros. by to_prop. Qed.

Lemma ensureLoop_capped uuid now names st :
  Capped (ensFile st) -> Capped (ensFile (ensureLoop uuid now names st).2).
Proof.
  revert st. induction names as [|raw names IH]; intros st Hc; simpl; [done|].
  case_bool_decide; [by apply IH|]. case_bool_decide; [by apply IH|].
  destruct (ensByName st !! _); [by apply IH|]. destruct (full _) eqn:Ef; [done|].
  destruct (uuid _); [|done]. apply IH. apply full_false in Ef. unfold Capped in *. simpl in *.
  rewrite length_app. simpl. lia.
Qed.

Inductive group_op :=
  | GUpsert (now : gostr) (uuid : option gostr) (g : GroupRec)
  | GDelete (id : gostr)
  | GEnsure (uuid : nat -> option gostr) (now : gostr) (names : list gostr).

Definition runGroupOp (o : group_op) (i : io) (s : fstore groupsFile) : fstore groupsFile :=
  match o with
  | GUpsert now uuid g => (upsertGroup now uuid g i s).2
  | GDelete id => (deleteGroup id i s).2
  | GEnsure uuid now names => (ensureByName uuid now names i s).2
  end.

Definition FreshGroupOp (o : group_op) (v : groupsFile) : Prop :=
  match o with
  | GUpsert _ (Some id) _ => id ≠ [] /\ id ∉ (gID <$> items v)
  | GEnsure uuid _ _ => FreshSupply uuid 0 (items v)
  | _ => True
  end.

(** The operation creates groups, if at all, with an ID of the server's. *)
Definition ServerNamed (o : group_op) (v : groupsFile) : Prop :=
  match o with
  | GUpsert _ _ g => gID g = [] \/ gID g ∈ (gID <$> items v)
  | _ => True
  end.

Lemma upsertGroup_keeps now uuid g i m0 v (P : groupsFile -> Prop) :
  P v ->
  (forall id, gID g = [] -> uuid = Some id -> full (items v) = false ->
     P (mkSfile (items v ++ [stampGroup g id (seq_ v + 1) now now]) (seq_ v + 1))) ->
  (forall ex created, gID g ≠ [] -> find_first (hasID (gID g)) (items v) = Some ex ->
     P (mkSfile (update_first (hasID (gID g)) (fun _ => stampGroup g (gID g) (seq_ v + 1) created now) (items v)) (seq_ v + 1))) ->
  (gID g ≠ [] -> gID g ∉ (gID <$> items v) ->
     P (mkSfile (items v ++ [stampGroup g (gID g) (seq_ v + 1) now now]) (seq_ v + 1))) ->
  exists v', disk (upsertGroup now uuid g i {| mem := m0; disk := FData v |}).2 = FData v' /\ P v'.
Proof.
  intros Hv H1 H2 H3. apply lockedUpdate_keeps; [done|].
  unfold getMem, putMem, throw, mbind, SM_bind. simpl. destruct (gID g =s? []) eqn:Eid; to_prop.
  - destruct (full (items v)) eqn:Ef; [simpl; eauto|]. destruct uuid as [id|]; [|simpl; eauto].
    apply save_keeps; auto.
  - destruct (find_first (hasID (gID g)) (items v)) as [ex|] eqn:Ef; apply save_keeps; eauto.
    apply H3; [done|]. exact (proj1 (hasID_none _ _) Ef).
Qed.

(** The groups file under any mutation by any process and any failure of
    the system calls: IDs stay distinct and non-empty and revisions distinct and
    bounded; and when groups are created only under IDs the server drew, the
    account never holds more than MaxGroupsPerUser groups. *)
Lemma groups_store_invariant (o : group_op) (i : io) (m0 v : groupsFile) :
  StoreOk v -> FreshGroupOp o v ->
  exists v', disk (runGroupOp o i {| mem := m0; disk := FData v |}) = FData v' /\ StoreOk v' /\
    (Capped v -> ServerNamed o v -> Capped v').
Proof.
  intros Hs Hf. destruct o as [now uuid g|id|uuid now names]; simpl in *.
  - apply upsertGroup_keeps; [done|..].
    + intros id _ -> Hfull. destruct Hf. split; [by apply StoreOk_append|]. intros _ _.
      apply full_false in Hfull. unfold Capped. simpl. rewrite length_app. simpl. lia.
    + intros ex created Hne Hex. split; [by apply StoreOk_replace|]. intros Hc _.
      unfold Capped in *. simpl. by rewrite update_first_length.
    + intros Hne Hid. split; [by apply StoreOk_append|]. intros _ [?|?]; done.
  - apply lockedUpdate_keeps; [done|]. unfold getMem, mbind, SM_bind. simpl.
    destruct (find_first _ _) eqn:E; [|simpl; eauto]. apply save_keeps; [done|]. split.
    + apply StoreOk_sublist; [done|]. apply remove_first_sublist.
    + intros Hc _. unfold Capped in *. simpl. apply remove_first_length in E. lia.
  - apply lockedUpdate_keeps; [done|]. unfold getMem, mbind, SM_bind. simpl.
    pose proof (ensureLoop_keeps uuid now names (mkEns v (byNameOf (items v)) [] ∅ 0) Hs Hf) as H1.
    pose proof (ensureLoop_capped uuid now names (mkEns v (byNameOf (items v)) [] ∅ 0)) as H2.
    destruct (ensureLoop uuid now names _) as [[[]|e] st]; simpl in *; [|eauto].
    case_bool_decide; [simpl; eauto|]. apply save_keeps; auto.
Qed.

(** The cap has a way around it: Upsert under an ID of the caller's that
    no group has creates a group whatever the number already stored. *)
Lemma upsertGroup_unknown_id_bypasses_cap (now : gostr) (uuid : option gostr) (g : GroupRec) (m0 v : groupsFile) :
  gID g ≠ [] -> gID g ∉ (gID <$> items v) ->
  exists g' v', upsertGroup now uuid g io_ok {| mem := m0; disk := FData v |}
    = (Ok g', {| mem := v'; disk := FData v' |}) /\ length (items v') = S (length (items v)).
Proof.
  intros Hne Hid. unfold upsertGroup. rewrite lockedUpdate_run by done.
  unfold getMem, putMem, mbind, SM_bind. simpl. rewrite bool_decide_eq_false_2 by done.
  rewrite (proj2 (hasID_none (EA := GroupRec_entity) (gID g) (items v)) Hid). rewrite save_run. simpl.
  eexists _, _. split; [reflexivity|]. simpl. rewrite length_app. simpl. lia.
Qed.

End Groups.
