(* ===== verification/SendAs.v ===== *)
(** * SendAs: send-as aliases and the proofs that verify them (backend/internal/sendas)

    A user claims a secondary address; the record is pending until the daemon
    sees the probe message come back signed (MarkVerified) or the user types
    the mailed code (Confirm), and fails on expiry or after too many wrong
    codes.  [alias_step] is the state machine of one record and [file_step] what
    one operation may do to the file: the operations refine it under every
    outcome of the system calls, and the security theorems are proved on it.

    A [time.Time] is a number of nanoseconds.  A stored timestamp is the text
    [Format(time.RFC3339)] wrote, which keeps whole seconds, or text that does
    not parse.  The clock and the random draws are arguments. *)

From S2P Require Import Prelude GoText FileStore.

(** ** Timestamps *)

Definition second : Z := 1000000000.
Inductive stamp := NoStamp | BadStamp | At (unixSeconds : Z).
#[export] Instance stamp_eq_dec : EqDecision stamp.
Proof. solve_decision. Defined.

Definition formatRFC3339 (t : Z) : stamp := At (t / second).
Definition parseRFC3339 (s : stamp) : option Z :=
  match s with At secs => Some (secs * second)%Z | _ => None end.

(** ** Records *)

Record Alias := mkAlias {
  aliasID : gostr;
  aliasUserID : gostr;
  aliasEmail : gostr;
  DisplayName : gostr;
  VerificationCode : gostr;
  ProbeMessageID : gostr;
  ConfirmAttempts : Z;
  Status : gostr;
  aliasCreatedAt : stamp;
  ExpiresAt : stamp;
  VerifiedAt : stamp;
  FailedAt : stamp;
  VerifiedBy : gostr;
  Auto : bool;
}.

Definition VerifiedByDKIM : gostr := $"dkim".
Definition VerifiedByCode : gostr := $"code".

Definition domainProven (a : Alias) : bool :=
  (Status a =s? $"verified") && negb (VerifiedBy a =s? VerifiedByCode).

Definition pendingExpiry : Z := 30 * 60 * second.
Definition maxConfirmAttempts : Z := 5.

Inductive sendas_error := NotPending | CodeMismatch | TooManyAttempts | NoAlias | WrongStatus (status : gostr) | SRand.

Definition aliasesFile : Type := list Alias.
Abbreviation AS := (SM sendas_error aliasesFile).

Definition aliasIs (id : gostr) (a : Alias) : bool := aliasID a =s? id.

(** The field assignments of the operations. *)
Definition setVerified (by_ : gostr) (now : Z) (a : Alias) : Alias :=
  mkAlias (aliasID a) (aliasUserID a) (aliasEmail a) (DisplayName a) (VerificationCode a) (ProbeMessageID a)
    (ConfirmAttempts a) ($"verified") (aliasCreatedAt a) (ExpiresAt a) (formatRFC3339 now) (FailedAt a) by_ (Auto a).
Definition setFailed (now : Z) (a : Alias) : Alias :=
  mkAlias (aliasID a) (aliasUserID a) (aliasEmail a) (DisplayName a) (VerificationCode a) (ProbeMessageID a)
    (ConfirmAttempts a) ($"failed") (aliasCreatedAt a) (ExpiresAt a) (VerifiedAt a) (formatRFC3339 now)
    (VerifiedBy a) (Auto a).
Definition countAttempt (a : Alias) : Alias :=
  mkAlias (aliasID a) (aliasUserID a) (aliasEmail a) (DisplayName a) (VerificationCode a) (ProbeMessageID a)
    (ConfirmAttempts a + 1) (Status a) (aliasCreatedAt a) (ExpiresAt a) (VerifiedAt a) (FailedAt a)
    (VerifiedBy a) (Auto a).

Section SendAs.
Context {U : Unicode}.

(** ** Reads *)

Definition newAliases : AS unit := openStore [].
Definition listAliases : AS (list Alias) := refreshed (fun v => v).
Definition listVerified : AS (list Alias) :=
  refreshed (List.filter (fun a => Status a =s? $"verified")).
Definition findVerifiedByEmail (email : gostr) : AS (option Alias) :=
  refreshed (find_first (fun a => (Status a =s? $"verified") && (toLower (aliasEmail a) =s? toLower email))).
Definition getAlias (id : gostr) : AS (option Alias) := refreshed (find_first (aliasIs id)).

Definition pendingNotExpired (now : Z) : AS (list Alias) :=
  refreshed (List.filter (fun a =>
    (Status a =s? $"pending") &&
    match parseRFC3339 (ExpiresAt a) with
    | None => false
    | Some expiresAt => negb (expiresAt <? now)%Z
    end)).

(** ** Mutations *)

(** newVerificationCode: [bytes] is what rand.Read filled in, if it succeeded. *)
Definition hexDigit (n : Z) : Z := (if n <? 10 then 48 + n else 87 + n)%Z.
Definition hexEncode (bytes : list Z) : gostr := b ← bytes; [hexDigit (b / 16); hexDigit (b mod 16)].
Definition newVerificationCode (bytes : option (list Z)) : option gostr :=
  (fun b => $"kp-" ++ hexEncode b) <$> bytes.

(** [email[strings.LastIndex(email, "@")+1:]]. *)
Fixpoint afterLastAt (s : gostr) : option gostr :=
  match s with
  | [] => None
  | c :: s' => match afterLastAt s' with
               | Some t => Some t
               | None => if (c =? 64)%Z then Some s' else None
               end
  end.
Definition domainOf (email : gostr) : gostr := default email (afterLastAt email).

(** create, behind Create and CreateAuto. *)
Definition create (now : Z) (uuid : option gostr) (bytes : option (list Z)) (randText : gostr)
    (userID email displayName : gostr) (auto : bool) : AS Alias :=
  lockedUpdate (
    match uuid with
    | None => throw SRand
    | Some id =>
        match newVerificationCode bytes with
        | None => throw SRand
        | Some code =>
            let email := toLower email in
            let created :=
              mkAlias id userID email displayName code
                ($"<" ++ toLower randText ++ $"@" ++ domainOf email ++ $">")
                0 ($"pending") (formatRFC3339 now) (formatRFC3339 (now + pendingExpiry)) NoStamp NoStamp [] auto in
            v ← getMem; save (v ++ [created]) created
        end
    end).

Definition markVerified (now : Z) (id : gostr) : AS unit :=
  lockedUpdate (
    v ← getMem;
    match find_first (aliasIs id) v with
    | None => throw NoAlias
    | Some a =>
        if domainProven a then mret tt
        else save (update_first (aliasIs id) (setVerified VerifiedByDKIM now) v) tt
    end).

(** The expiry test of Confirm: the stamp parses and is strictly in the future. *)
Definition expiresAfter (a : Alias) (now : Z) : bool :=
  match parseRFC3339 (ExpiresAt a) with None => false | Some e => (now <? e)%Z end.

Definition confirm (now : Z) (id code : gostr) : AS unit :=
  lockedUpdate (
    v ← getMem;
    match find_first (aliasIs id) v with
    | None => throw NoAlias
    | Some a =>
        if negb (Status a =s? $"pending") || negb (expiresAfter a now) then throw NotPending
        else if negb (trimSpace code =s? VerificationCode a) then
          if (maxConfirmAttempts <=? ConfirmAttempts a + 1)%Z then
            save (update_first (aliasIs id) (fun a => setFailed now (countAttempt a)) v) tt ;; throw TooManyAttempts
          else save (update_first (aliasIs id) countAttempt v) tt ;; throw CodeMismatch
        else save (update_first (aliasIs id) (setVerified VerifiedByCode now) v) tt
    end).

Definition markFailed (now : Z) (id : gostr) : AS unit :=
  lockedUpdate (
    v ← getMem;
    match find_first (aliasIs id) v with
    | None => throw NoAlias
    | Some a =>
        if negb (Status a =s? $"pending") then throw (WrongStatus (Status a))
        else save (update_first (aliasIs id) (setFailed now) v) tt
    end).

Definition deleteAlias (id : gostr) : AS unit :=
  lockedUpdate (
    v ← getMem;
    match find_first (aliasIs id) v with
    | None => throw NoAlias
    | Some _ => save (remove_first (aliasIs id) v) tt
    end).

(** SweepTerminal's test: the record goes. *)
Definition swept (now retention : Z) (a : Alias) : bool :=
  (Status a =s? $"failed") && negb (Auto a) &&
  match parseRFC3339 (FailedAt a) with None => false | Some f => (f <? now - retention)%Z end.

Definition sweepTerminal (now retention : Z) : AS unit :=
  lockedUpdate (
    v ← getMem;
    let kept := List.filter (fun a => negb (swept now retention a)) v in
    if negb (existsb (swept now retention) v) then mret tt else save kept tt).

(** ** The state machine of a record *)

Inductive event := EvDKIM | EvCode (code : gostr) | EvWrong (code : gostr) | EvFail.

Inductive alias_step (now : Z) : event -> Alias -> Alias -> Prop :=
  | as_dkim a : domainProven a = false -> alias_step now EvDKIM a (setVerified VerifiedByDKIM now a)
  | as_code code a : Status a = $"pending" -> expiresAfter a now = true -> trimSpace code = VerificationCode a ->
      alias_step now (EvCode code) a (setVerified VerifiedByCode now a)
  | as_wrong code a : Status a = $"pending" -> expiresAfter a now = true -> trimSpace code ≠ VerificationCode a ->
      (ConfirmAttempts a + 1 < maxConfirmAttempts)%Z ->
      alias_step now (EvWrong code) a (countAttempt a)
  | as_lockout code a : Status a = $"pending" -> expiresAfter a now = true -> trimSpace code ≠ VerificationCode a ->
      (maxConfirmAttempts <= ConfirmAttempts a + 1)%Z ->
      alias_step now (EvWrong code) a (setFailed now (countAttempt a))
  | as_fail a : Status a = $"pending" -> alias_step now EvFail a (setFailed now a).

Inductive sendas_op :=
  | OCreate (uuid : option gostr) (bytes : option (list Z)) (randText userID email displayName : gostr) (auto : bool)
  | OMarkVerified (id : gostr)
  | OConfirm (id code : gostr)
  | OMarkFailed (id : gostr)
  | ODelete (id : gostr)
  | OSweep (retention : Z).

Definition runSendAs (now : Z) (o : sendas_op) : AS unit :=
  match o with
  | OCreate uuid bytes text userID email name auto => _ ← create now uuid bytes text userID email name auto; mret tt
  | OMarkVerified id => markVerified now id
  | OConfirm id code => confirm now id code
  | OMarkFailed id => markFailed now id
  | ODelete id => deleteAlias id
  | OSweep retention => sweepTerminal now retention
  end.

(** The records an operation addresses, and with which event. *)
Definition addresses (o : sendas_op) (id : gostr) (ev : event) : Prop :=
  match o, ev with
  | OMarkVerified id', EvDKIM => id' = id
  | OConfirm id' code', EvCode code => id' = id /\ code' = code
  | OConfirm id' code', EvWrong code => id' = id /\ code' = code
  | OMarkFailed id', EvFail => id' = id
  | _, _ => False
  end.

(** What one operation may make of the file. *)
Inductive file_step (now : Z) (o : sendas_op) (v : aliasesFile) : aliasesFile -> Prop :=
  | fs_same : file_step now o v v
  | fs_create id bytes text userID email name auto a :
      o = OCreate (Some id) bytes text userID email name auto ->
      aliasID a = id -> aliasEmail a = toLower email -> Status a = $"pending" -> ConfirmAttempts a = 0%Z ->
      VerifiedBy a = [] -> ExpiresAt a = formatRFC3339 (now + pendingExpiry) ->
      file_step now o v (v ++ [a])
  | fs_event id ev a a' :
      addresses o id ev -> find_first (aliasIs id) v = Some a -> alias_step now ev a a' ->
      file_step now o v (update_first (aliasIs id) (fun _ => a') v)
  | fs_delete id : o = ODelete id -> file_step now o v (remove_first (aliasIs id) v)
  | fs_sweep retention : o = OSweep retention ->
      file_step now o v (List.filter (fun a => negb (swept now retention a)) v).

Lemma save_step {A} (P : aliasesFile -> Prop) v v' (a : A) i :
  P v -> P v' -> exists v2, disk (save (E := sendas_error) v' a i {| mem := v; disk := FData v |}).2 = FData v2 /\ P v2.
Proof. intros. by apply save_keeps. Qed.

(** A save followed by an error answer. *)
Lemma save_throw_step (P : aliasesFile -> Prop) v v' e i :
  P v -> P v' ->
  exists v2, disk ((save v' tt ;; throw (A := unit) (e : sendas_error)) i {| mem := v; disk := FData v |}).2
             = FData v2 /\ P v2.
Proof.
  intros H1 H2. unfold throw, mbind, SM_bind. rewrite save_run. destruct (io_write i); simpl; eauto.
Qed.

Lemma fs_event_at now o v id ev a f :
  addresses o id ev -> find_first (aliasIs id) v = Some a -> alias_step now ev a (f a) ->
  file_step now o v (update_first (aliasIs id) f v).
Proof. intros Ho Ha Hs. rewrite (update_first_at _ f _ a Ha). by eapply fs_event. Qed.

Lemma sendas_refines now o i m0 v :
  exists v', disk (runSendAs now o i {| mem := m0; disk := FData v |}).2 = FData v' /\ file_step now o v v'.
Proof.
  pose proof (fs_same now o v) as Hsame.
  destruct o as [uuid bytes text uid email name auto|id|id code|id|id|ret]; simpl.
  - assert (exists v', disk (create now uuid bytes text uid email name auto i {| mem := m0; disk := FData v |}).2 = FData v'
      /\ file_step now (OCreate uuid bytes text uid email name auto) v v') as (v' & Hd & Hv').
    { apply lockedUpdate_keeps; [done|]. destruct uuid as [id|]; [|simpl; eauto].
      destruct (newVerificationCode bytes) as [code|]; [|simpl; eauto].
      unfold getMem, mbind, SM_bind. simpl. apply save_step; [done|]. by eapply fs_create. }
    exists v'. split; [|done]. unfold mbind, SM_bind. by destruct (create _ _ _ _ _ _ _ _ _ _) as [[]].
  - apply lockedUpdate_keeps; [done|]. unfold getMem, throw, mbind, SM_bind, mret, SM_ret. simpl.
    destruct (find_first (aliasIs id) v) as [a|] eqn:E; [|simpl; eauto].
    destruct (domainProven a) eqn:Ed; [simpl; eauto|]. apply save_step; [done|].
    eapply fs_event_at; [|done|by apply as_dkim]. done.
  - apply lockedUpdate_keeps; [done|]. unfold getMem, mbind at 1, SM_bind at 1. simpl.
    destruct (find_first (aliasIs id) v) as [a|] eqn:E; [|simpl; eauto].
    destruct (_ || _) eqn:Ep; [simpl; eauto|]. to_prop.
    destruct (trimSpace code =s? VerificationCode a) eqn:Ec; cbn [negb]; to_prop.
    + apply save_step; [done|]. eapply fs_event_at; [|done|by apply (as_code now code)]. done.
    + destruct (maxConfirmAttempts <=? ConfirmAttempts a + 1)%Z eqn:Em; to_prop; apply save_throw_step; try done;
        (eapply fs_event_at; [|done|]; [|by first [apply (as_lockout now code)|apply (as_wrong now code)]]; done).
  - apply lockedUpdate_keeps; [done|]. unfold getMem, mbind, SM_bind. simpl.
    destruct (find_first (aliasIs id) v) as [a|] eqn:E; [|simpl; eauto].
    destruct (Status a =s? $"pending") eqn:Ep; cbn [negb]; [|simpl; eauto]. to_prop.
    apply save_step; [done|]. eapply fs_event_at; [|done|by apply as_fail]. done.
  - apply lockedUpdate_keeps; [done|]. unfold getMem, mbind, SM_bind. simpl.
    destruct (find_first (aliasIs id) v) as [a|] eqn:E; [|simpl; eauto].
    apply save_step; [done|]. by apply fs_delete.
  - apply lockedUpdate_keeps; [done|]. unfold getMem, mbind, SM_bind. simpl.
    destruct (existsb _ v); cbn [negb]; [|simpl; eauto]. apply save_step; [done|]. by apply fs_sweep.
Qed.


(** ** What a proof authorises *)

Lemma aliasIs_spec id a : aliasIs id a = true <-> aliasID a = id.
Proof. unfold aliasIs. apply bool_decide_eq_true. Qed.

Lemma alias_step_id now ev a a' : alias_step now ev a a' -> aliasID a' = aliasID a.
Proof. by inversion 1. Qed.

Lemma find_alias id v a : find_first (aliasIs id) v = Some a -> a ∈ v /\ aliasID a = id.
Proof. intros [H1 H2]%find_first_Some. by rewrite aliasIs_spec in H2. Qed.

(** With distinct IDs, a record found after one step was there before, moved by
    an addressed event or not at all, or was just created. *)
Lemma file_step_find now o v v' id a' :
  NoDup (aliasID <$> v) -> file_step now o v v' -> find_first (aliasIs id) v' = Some a' ->
  (find_first (aliasIs id) v = None /\ Status a' = $"pending") \/
  exists a, find_first (aliasIs id) v = Some a /\
    (a' = a \/ exists ev, addresses o id ev /\ alias_step now ev a a').
Proof.
  intros Hn Hs Hf. destruct Hs as [|id0 bytes text uid email name auto c -> Hid _ Hst _ _ _|id0 ev a b Ho Ha Hs|id0 ->|ret ->].
  - right. eauto.
  - rewrite find_first_app in Hf. destruct (find_first (aliasIs id) v) as [x|] eqn:E.
    + injection Hf as ->. right. eauto.
    + simpl in Hf. destruct (aliasIs id c); [|done]. injection Hf as <-. left. done.
  - right. destruct (decide (id0 = id)) as [->|Hne].
    + apply find_alias in Ha as Ha'. destruct Ha' as [_ Hida].
      erewrite find_first_update in Hf; [|exact Ha|apply aliasIs_spec; by rewrite (alias_step_id _ _ _ _ Hs)].
      injection Hf as <-. exists a. split; [done|]. right. by exists ev.
    + rewrite find_first_update_ne in Hf; [eauto|..]; intros x Hx; rewrite aliasIs_spec in Hx; subst;
        apply not_true_iff_false; rewrite aliasIs_spec; [done|].
      apply find_alias in Ha as [_ Hida]. rewrite (alias_step_id _ _ _ _ Hs). congruence.
  - right. destruct (decide (id0 = id)) as [->|Hne].
    + exfalso. apply find_alias in Hf as [Hin Hid]. clear -Hn Hin Hid. induction v as [|x v IH]; simpl in *; [set_solver|].
      apply NoDup_cons in Hn as [Hx Hn]. destruct (aliasIs id x) eqn:E.
      * apply aliasIs_spec in E. apply Hx. rewrite E, <- Hid. by apply list_elem_of_fmap_2.
      * apply elem_of_cons in Hin as [->|Hin]; [|by apply IH].
        unfold aliasIs in E. by to_prop.
    + rewrite find_first_remove_ne in Hf; [eauto|]. intros x Hx. rewrite aliasIs_spec in Hx. subst.
      apply not_true_iff_false. by rewrite aliasIs_spec.
  - right. exists a'. split; [|by left]. apply find_alias in Hf as [Hin Hid].
    apply list_elem_of_In, filter_In in Hin as [Hin _]. apply list_elem_of_In in Hin. clear -Hn Hin Hid.
    induction v as [|x v IH]; simpl in *; [set_solver|]. apply NoDup_cons in Hn as [Hx Hn].
    destruct (aliasIs id x) eqn:E.
    + f_equal. apply elem_of_cons in Hin as [->|Hin]; [done|]. exfalso. apply Hx.
      apply aliasIs_spec in E. rewrite E, <- Hid. by apply list_elem_of_fmap_2.
    + apply elem_of_cons in Hin as [->|Hin]; [|by apply IH]. unfold aliasIs in E. by to_prop.
Qed.

(** An alias becomes verified only by a proof: if a record is verified
    after an operation and was not before, the operation was MarkVerified of
    that record, or Confirm of it with exactly its mailed code while it was
    pending and not expired; it becomes good for its domain (WKD, key user IDs)
    only by MarkVerified; and a verified record stays verified until deleted. *)
Lemma verified_only_by_proof (now : Z) (o : sendas_op) (i : io) (m0 v v' : aliasesFile) (id : gostr) (a' : Alias) :
  NoDup (aliasID <$> v) ->
  disk (runSendAs now o i {| mem := m0; disk := FData v |}).2 = FData v' ->
  find_first (aliasIs id) v' = Some a' ->
  let before := find_first (aliasIs id) v in
  (Status a' = $"verified" -> (forall a, before = Some a -> Status a ≠ $"verified") ->
     o = OMarkVerified id \/
     exists a code, before = Some a /\ o = OConfirm id code /\ trimSpace code = VerificationCode a /\
       Status a = $"pending" /\ expiresAfter a now = true) /\
  (domainProven a' = true -> (forall a, before = Some a -> domainProven a = false) -> o = OMarkVerified id) /\
  (forall a, before = Some a -> Status a = $"verified" -> Status a' = $"verified").
Proof.
  intros Hn Hd Hf before. destruct (sendas_refines now o i m0 v) as (v2 & Hd2 & Hs).
  rewrite Hd in Hd2. injection Hd2 as <-.
  destruct (file_step_find _ _ _ _ _ _ Hn Hs Hf) as [[Hb Hst]|(a & Hb & Hcase)]; subst before; rewrite Hb.
  { split_and!; [by rewrite Hst| |done]. unfold domainProven. rewrite Hst. done. }
  destruct Hcase as [->|(ev & Ho & Hev)].
  { split_and!; [by intros Hv Hno; destruct (Hno a)|intros Hv Hno; by rewrite Hno in Hv|by intros a0 [= <-]]. }
  destruct Hev as [a Hd1|code a H1 H2 H3|code a H1 H2 H3 H4|code a H1 H2 H3 H4|a H1]; destruct o; simpl in Ho; try done;
    destruct_and?; subst; try (split_and!; [by left|done|by intros a0 [= <-]]); split_and!;
    try (by intros a0 [= <-]; congruence); unfold domainProven; simpl; rewrite ?H1; try done.
  - right. eauto 10.
  - intros a0 [= <-] Hv. by rewrite H1 in Hv.
  - intros a0 [= <-] Hv. by rewrite H1 in Hv.
  - intros a0 [= <-] Hv. by rewrite H1 in Hv.
Qed.

(** ** The limit on guesses *)

(** Wrong codes a record still absorbs. *)
Definition guessesLeft (a : Alias) : Z :=
  if Status a =s? $"pending" then Z.max 1 (maxConfirmAttempts - ConfirmAttempts a) else 0.
Definition budget (id : gostr) (v : aliasesFile) : Z :=
  foldr (fun a n => if aliasIs id a then guessesLeft a + n else n)%Z 0%Z v.

Lemma guessesLeft_nonneg a : (0 <= guessesLeft a)%Z.
Proof. unfold guessesLeft. case_match; lia. Qed.

Lemma budget_nonneg id v : (0 <= budget id v)%Z.
Proof. induction v as [|a v IH]; simpl; [lia|]. pose proof (guessesLeft_nonneg a). case_match; lia. Qed.

Lemma budget_app id v w : budget id (v ++ w) = (budget id v + budget id w)%Z.
Proof. induction v as [|a v IH]; simpl; [done|]. case_match; lia. Qed.

Lemma budget_sublist id v w : v `sublist_of` w -> (budget id v <= budget id w)%Z.
Proof.
  induction 1 as [|a v w _ IH|a v w _ IH]; simpl; [lia|case_match; lia|].
  pose proof (guessesLeft_nonneg a). case_match; lia.
Qed.

Lemma budget_update id id0 v a a' :
  find_first (aliasIs id0) v = Some a -> aliasID a' = id0 ->
  budget id (update_first (aliasIs id0) (fun _ => a') v)
  = (budget id v - (if aliasIs id a then guessesLeft a else 0) + (if aliasIs id a' then guessesLeft a' else 0))%Z.
Proof.
  induction v as [|x v IH]; simpl; [done|]. destruct (aliasIs id0 x) eqn:E; intros H Hid.
  - injection H as ->. simpl. destruct (aliasIs id a), (aliasIs id a'); lia.
  - simpl. rewrite IH by done. destruct (aliasIs id x); lia.
Qed.

(** The answers that tell a caller its guess was wrong. *)
Definition wrongGuess (id : gostr) (o : sendas_op) (r : res (err sendas_error) unit) : bool :=
  match o, r with
  | OConfirm id' _, Err (ErrApp CodeMismatch) | OConfirm id' _, Err (ErrApp TooManyAttempts) => id' =s? id
  | _, _ => false
  end.

Definition DrawsOther (id : gostr) (o : sendas_op) : Prop :=
  match o with OCreate (Some id') _ _ _ _ _ _ => id' ≠ id | _ => True end.

Lemma file_step_budget now o v v' id :
  DrawsOther id o -> file_step now o v v' -> (budget id v' <= budget id v)%Z.
Proof.
  intros Hd Hs. destruct Hs as [|id0 bytes text uid email name auto c -> Hid _ Hst _ _ _|id0 ev a b Ho Ha Hs|id0 ->|ret ->].
  - lia.
  - rewrite budget_app. simpl. destruct (aliasIs id c) eqn:E; [|lia]. apply aliasIs_spec in E. simpl in Hd. congruence.
  - apply find_alias in Ha as Ha'. destruct Ha' as [_ Hida].
    rewrite (budget_update _ _ _ a) by (done || by rewrite (alias_step_id _ _ _ _ Hs)).
    assert (aliasIs id b = aliasIs id a) as -> by (unfold aliasIs; by rewrite (alias_step_id _ _ _ _ Hs)).
    destruct (aliasIs id a); [|lia].
    assert (guessesLeft b <= guessesLeft a)%Z; [|lia]. pose proof (guessesLeft_nonneg a).
    destruct Hs as [a Hd1|code a H1 H2 H3|code a H1 H2 H3 H4|code a H1 H2 H3 H4|a H1];
      unfold guessesLeft in *; simpl in *; rewrite ?H1 in *; simpl in *; lia.
  - apply budget_sublist, remove_first_sublist.
  - apply budget_sublist. clear. induction v as [|x v IH]; simpl; [constructor|].
    destruct (negb _); by constructor.
Qed.

(** A wrong guess that is reported was counted. *)
Lemma wrongGuess_counts now o i m0 v id :
  let '(r, s') := runSendAs now o i {| mem := m0; disk := FData v |} in
  wrongGuess id o r = true -> exists v', disk s' = FData v' /\ (budget id v' + 1 <= budget id v)%Z.
Proof.
  destruct o as [| |id' code| | |]; try (destruct (runSendAs _ _ _ _) as [r s']; destruct r as [|[]]; done).
  simpl runSendAs. unfold confirm. destruct (lockedUpdate _ i _) as [r s'] eqn:E. simpl wrongGuess.
  destruct (io_lock i) eqn:E1, (io_read i) eqn:E2.
  2-4: (match type of E with lockedUpdate ?k ?i ?s = _ =>
          destruct (lockedUpdate_io_error k i s) as (e & Hk & He); [auto|] end; rewrite Hk in E; simplify_eq;
          by destruct He as [->|[->| ->]]).
  rewrite lockedUpdate_run in E by done. unfold getMem, mbind at 1, SM_bind at 1 in E. simpl in E.
  destruct (find_first (aliasIs id') v) as [a|] eqn:Ea; [|injection E as <- <-; done].
  destruct (_ || _) eqn:Ep; [injection E as <- <-; done|]. to_prop. apply find_alias in Ea as Ha. destruct Ha as [_ Hida].
  destruct (trimSpace code =s? VerificationCode a) eqn:Ec; cbn [negb] in E.
  { rewrite save_run in E. destruct (io_write i); injection E as <- <-; done. }
  destruct (_ <=? _)%Z eqn:Em; to_prop; unfold throw, mbind, SM_bind in E; rewrite save_run in E;
    destruct (io_write i); simplify_eq/=; try done; intros Hid; to_prop; subst;
    (eexists; split; [reflexivity|]); rewrite (update_first_at _ _ _ a Ea), (budget_update _ _ _ a) by done;
    unfold aliasIs; simpl; rewrite bool_decide_eq_true_2 by done; unfold guessesLeft; simpl;
    match goal with H : Status a = _ |- _ => rewrite H end; simpl; lia.
Qed.

(** A call by some process on the shared file: the clock, the outcomes of the
    system calls, the process's cache and the operation. *)
Abbreviation call := (Z * io * aliasesFile * sendas_op)%type.
Definition runCall (c : call) (d : file aliasesFile) : res (err sendas_error) unit * file aliasesFile :=
  let '(now, i, m0, o) := c in
  let '(r, s) := runSendAs now o i {| mem := m0; disk := d |} in (r, disk s).
Definition callOp (c : call) : sendas_op := c.2.
Definition wrongCall (id : gostr) (c : call) : res (err sendas_error) unit -> bool := wrongGuess id (callOp c).

Definition fileBudget (id : gostr) (d : file aliasesFile) : Z :=
  match d with FData v => budget id v | _ => 0 end.

Lemma runCall_budget id c d :
  DrawsOther id (callOp c) -> (exists v, d = FData v) ->
  (exists v, (runCall c d).2 = FData v) /\
  (fileBudget id (runCall c d).2 + (if wrongCall id c (runCall c d).1 then 1 else 0) <= fileBudget id d)%Z.
Proof.
  destruct c as [[[now i] m0] o]. intros Hd [v ->]. unfold wrongCall, callOp in *. simpl in *.
  pose proof (wrongGuess_counts now o i m0 v id) as Hw. destruct (sendas_refines now o i m0 v) as (v' & Hd2 & Hs).
  destruct (runSendAs now o i {| mem := m0; disk := FData v |}) as [r s'] eqn:E. simpl in *. rewrite Hd2.
  pose proof (file_step_budget _ _ _ _ _ Hd Hs). split; [eauto|]. simpl.
  destruct (wrongGuess id o r); [|lia]. destruct Hw as (v2 & Hv2 & Hb); [done|]. rewrite Hd2 in Hv2. injection Hv2 as <-. lia.
Qed.

Lemma budget_single id v :
  NoDup (aliasID <$> v) -> Forall (fun a => (0 <= ConfirmAttempts a)%Z) v -> (budget id v <= maxConfirmAttempts)%Z.
Proof.
  assert (none : forall v, id ∉ (aliasID <$> v) -> budget id v = 0%Z).
  { clear. induction v as [|a v IH]; simpl; [done|]. intros H. apply not_elem_of_cons in H as [Hne H].
    unfold aliasIs. rewrite bool_decide_eq_false_2 by done. auto. }
  induction v as [|a v IH]; simpl; [done|]. intros [Hx Hn]%NoDup_cons [Ha Hv]%Forall_cons.
  destruct (aliasIs id a) eqn:E; [|auto]. apply aliasIs_spec in E. subst. rewrite none by done.
  unfold guessesLeft, maxConfirmAttempts. case_match; lia.
Qed.

(** The verification code cannot be searched: however many operations run
    on the shared file, from any processes with any caches and any failing system
    calls, at most maxConfirmAttempts of the Confirm calls on one record answer
    that the code was wrong, as long as no later record draws the same ID. *)
Lemma confirm_guesses_bounded (tr : list call) (v : aliasesFile) (id : gostr) :
  NoDup (aliasID <$> v) -> Forall (fun a => (0 <= ConfirmAttempts a)%Z) v ->
  Forall (fun c => DrawsOther id (callOp c)) tr ->
  (count_log (wrongCall id) (run_trace runCall tr (FData v)).1 <= maxConfirmAttempts)%Z.
Proof.
  intros Hn Ha Hd. transitivity (fileBudget id (FData v)); [|by apply budget_single].
  apply (run_trace_bound runCall _ (fun c => DrawsOther id (callOp c)) (fun d => exists v, d = FData v)); [| |done|eauto].
  - intros [| |w]; simpl; [lia..|apply budget_nonneg].
  - intros c d. apply runCall_budget.
Qed.

End SendAs.
