(* ===== verification/Mfa.v ===== *)
(** * Mfa: the second-factor challenge store (backend/internal/mfa)

    A challenge lives in memory between a correct password and a second factor.
    It is answered by TOTP (a bounded number of failed codes, one accepted code)
    or by a push approval: the device must send back the number the browser
    shows, one wrong number closes the push channel, and the approval is
    redeemed once, by the browser that holds the challenge's secret.

    The store is the map [m]; every method is one step under its mutex, with the
    clock's reading ([now], in nanoseconds) and the random draws as arguments. *)

From S2P Require Import Prelude GoText SendAs.

Definition MaxTOTPAttempts : Z := 5.
Definition challengeTTL : Z := 5 * 60 * second.

Definition PushPending : gostr := $"pending".
Definition PushApproved : gostr := $"approved".
Definition PushDenied : gostr := $"denied".
Definition PushLocked : gostr := $"locked".

Record Challenge := mkChallenge {
  chID : gostr;
  chUserID : gostr;
  Fence : Z;
  chCreatedAt : Z;
  chExpiresAt : Z;
  TOTPAttempts : Z;
  UsedTOTPStep : Z;
  PushStatus : gostr;
  RespondedBy : gostr;
  MatchDigits : gostr;
  DecoyDigits : list gostr;
  MatchAttempts : Z;
  FinishSecret : gostr;
}.

Inductive mfa_error :=
  | ErrRandom | ErrChallengeNotFound | ErrTooManyAttempts | ErrChallengeAlreadyUsed
  | ErrChallengeAlreadyResolved | ErrPushNotApproved | ErrMatchAttemptsExhausted.

Abbreviation mstore := (gmap gostr Challenge).

Definition expired (now : Z) (ch : Challenge) : bool := (chExpiresAt ch <? now)%Z.

Definition sweepExpired (now : Z) (m : mstore) : Z * mstore :=
  let kept := filter (fun '(_, ch) => expired now ch = false) m in
  (Z.of_nat (size m) - Z.of_nat (size kept), kept)%Z.

(** ** Number matching (number_match.go) *)

Definition decoyCount : nat := 2.
Definition twoDigits (n : Z) : gostr := [48 + n / 10; 48 + n mod 10]%Z.

(** The decoy loop over the draws of rand.Int: [None] is a failed draw.  The Go
    loop draws until it has enough; the list is the part of that stream it sees,
    and the answer is [None] when it ends first. *)
Fixpoint decoyLoop (draws : list (option Z)) (used : list gostr) (decoys : list gostr) :
    option (res mfa_error (list gostr)) :=
  if (decoyCount <=? length decoys)%nat then Some (Ok decoys)
  else match draws with
       | [] => None
       | None :: _ => Some (Err ErrRandom)
       | Some n :: draws' =>
           let candidate := twoDigits n in
           if bool_decide (candidate ∈ used) then decoyLoop draws' used decoys
           else decoyLoop draws' (candidate :: used) (decoys ++ [candidate])
       end.

Definition newNumberMatch (draws : list (option Z)) : option (res mfa_error (gostr * list gostr)) :=
  match draws with
  | [] => None
  | None :: _ => Some (Err ErrRandom)
  | Some n :: draws' =>
      let match_ := twoDigits n in
      (fun r => decoys ← r; Ok (match_, decoys)) <$> decoyLoop draws' [match_] []
  end.

(** ** Methods *)

(** CreateFenced: 24 random bytes each for the ID and the secret, and the
    number match, all drawn before the lock is taken. *)
Definition createFenced (now : Z) (idBytes secretBytes : option (list Z)) (numbers : res mfa_error (gostr * list gostr))
    (userID : gostr) (fence : Z) (m : mstore) : res mfa_error Challenge * mstore :=
  match idBytes with
  | None => (Err ErrRandom, m)
  | Some idb =>
      match secretBytes with
      | None => (Err ErrRandom, m)
      | Some sb =>
          match numbers with
          | Err e => (Err e, m)
          | Ok (matchDigits, decoyDigits) =>
              let ch := mkChallenge (hexEncode idb) userID fence now (now + challengeTTL) 0 0 [] []
                          matchDigits decoyDigits 0 (hexEncode sb) in
              (Ok ch, <[chID ch := ch]> m)
          end
      end
  end.

Definition getChallenge (now : Z) (id : gostr) (m : mstore) : option Challenge * mstore :=
  match m !! id with
  | None => (None, m)
  | Some ch => if expired now ch then (None, delete id m) else (Some ch, m)
  end.

(** The lookup every other method starts with. *)
Definition liveChallenge (now : Z) (id : gostr) (m : mstore) : option Challenge :=
  match m !! id with
  | Some ch => if expired now ch then None else Some ch
  | None => None
  end.

Definition setTOTPAttempts (n : Z) (c : Challenge) : Challenge :=
  mkChallenge (chID c) (chUserID c) (Fence c) (chCreatedAt c) (chExpiresAt c) n (UsedTOTPStep c) (PushStatus c)
    (RespondedBy c) (MatchDigits c) (DecoyDigits c) (MatchAttempts c) (FinishSecret c).
Definition setUsedStep (n : Z) (c : Challenge) : Challenge :=
  mkChallenge (chID c) (chUserID c) (Fence c) (chCreatedAt c) (chExpiresAt c) (TOTPAttempts c) n (PushStatus c)
    (RespondedBy c) (MatchDigits c) (DecoyDigits c) (MatchAttempts c) (FinishSecret c).
Definition setPush (status by_ : gostr) (attempts : Z) (c : Challenge) : Challenge :=
  mkChallenge (chID c) (chUserID c) (Fence c) (chCreatedAt c) (chExpiresAt c) (TOTPAttempts c) (UsedTOTPStep c) status
    by_ (MatchDigits c) (DecoyDigits c) attempts (FinishSecret c).

Definition recordTOTPAttempt (now : Z) (id : gostr) (m : mstore) : option mfa_error * mstore :=
  match liveChallenge now id m with
  | None => (Some ErrChallengeNotFound, delete id m)
  | Some ch =>
      let n := (TOTPAttempts ch + 1)%Z in
      if (MaxTOTPAttempts <? n)%Z then (Some ErrTooManyAttempts, delete id m)
      else (None, <[id := setTOTPAttempts n ch]> m)
  end.

Definition consumeTOTPStep (now : Z) (id : gostr) (step : Z) (m : mstore) : option mfa_error * mstore :=
  match liveChallenge now id m with
  | None => (Some ErrChallengeNotFound, delete id m)
  | Some ch =>
      if negb (UsedTOTPStep ch =? 0)%Z then (Some ErrChallengeAlreadyUsed, m)
      else (None, <[id := setUsedStep step ch]> m)
  end.

Definition deleteChallenge (id : gostr) (m : mstore) : mstore := delete id m.
Definition deleteByUser (userID : gostr) (m : mstore) : mstore :=
  filter (fun '(_, ch) => chUserID ch ≠ userID) m.

Definition isPushResolved (status : gostr) : bool :=
  bool_decide (status ∈ [PushApproved; PushDenied; PushLocked]).

Definition supersedeUnansweredPush (userID exceptID : gostr) (m : mstore) : Z * mstore :=
  let kept := filter (fun '(id, ch) =>
    chUserID ch ≠ userID \/ id = exceptID \/ isPushResolved (PushStatus ch) = true) m in
  (Z.of_nat (size m) - Z.of_nat (size kept), kept)%Z.

Definition pushStatus (now : Z) (id : gostr) (m : mstore) : option gostr * mstore :=
  match liveChallenge now id m with
  | None => (None, delete id m)
  | Some ch => (Some (if PushStatus ch =s? [] then PushPending else PushStatus ch), m)
  end.

Definition consumePushApproval (now : Z) (id secret : gostr) (m : mstore) : res mfa_error gostr * mstore :=
  match liveChallenge now id m with
  | None => (Err ErrChallengeNotFound, delete id m)
  | Some ch =>
      if negb (secret =s? FinishSecret ch) then (Err ErrChallengeNotFound, m)
      else if negb (PushStatus ch =s? PushApproved) then (Err ErrPushNotApproved, m)
      else (Ok (chUserID ch), delete id m)
  end.

(** ResolvePushWithMatch: the status it reports and its error. *)
Definition resolvePushWithMatch (now : Z) (id deviceID : gostr) (approve : bool) (matchDigits : gostr) (m : mstore) :
    (gostr * option mfa_error) * mstore :=
  match liveChallenge now id m with
  | None => (([], Some ErrChallengeNotFound), delete id m)
  | Some ch =>
      if isPushResolved (PushStatus ch) then
        if PushStatus ch =s? PushLocked then ((PushStatus ch, Some ErrMatchAttemptsExhausted), m)
        else ((PushStatus ch, Some ErrChallengeAlreadyResolved), m)
      else if approve then
        if negb (matchDigits =s? MatchDigits ch) then
          ((PushLocked, Some ErrMatchAttemptsExhausted),
           <[id := setPush PushLocked deviceID (MatchAttempts ch + 1) ch]> m)
        else ((PushApproved, None), <[id := setPush PushApproved deviceID (MatchAttempts ch) ch]> m)
      else ((PushDenied, None), <[id := setPush PushDenied deviceID (MatchAttempts ch) ch]> m)
  end.

(** ** Calls, answers and the life of one challenge *)

Inductive mop :=
  | MCreate (idBytes secretBytes : option (list Z)) (numbers : res mfa_error (gostr * list gostr)) (userID : gostr) (fence : Z)
  | MGet (id : gostr)
  | MRecordTOTP (id : gostr)
  | MConsumeTOTP (id : gostr) (step : Z)
  | MDelete (id : gostr)
  | MDeleteByUser (userID : gostr)
  | MSupersede (userID exceptID : gostr)
  | MStatus (id : gostr)
  | MConsumePush (id secret : gostr)
  | MResolve (id deviceID : gostr) (approve : bool) (matchDigits : gostr)
  | MSweep.

Inductive answer :=
  | ACreated (r : res mfa_error Challenge)
  | AGot (c : option Challenge)
  | AErr (e : option mfa_error)
  | ADone
  | ACount (n : Z)
  | AStatus (s : option gostr)
  | AUser (r : res mfa_error gostr)
  | AResolved (r : gostr * option mfa_error).

Definition runMfa (c : Z * mop) (m : mstore) : answer * mstore :=
  let '(now, o) := c in
  let on {A} (f : A -> answer) '(a, m') := (f a, m') in
  match o with
  | MCreate idb sb numbers u fence => on ACreated (createFenced now idb sb numbers u fence m)
  | MGet id => on AGot (getChallenge now id m)
  | MRecordTOTP id => on AErr (recordTOTPAttempt now id m)
  | MConsumeTOTP id step => on AErr (consumeTOTPStep now id step m)
  | MDelete id => (ADone, deleteChallenge id m)
  | MDeleteByUser u => (ADone, deleteByUser u m)
  | MSupersede u e => on ACount (supersedeUnansweredPush u e m)
  | MStatus id => on AStatus (pushStatus now id m)
  | MConsumePush id secret => on AUser (consumePushApproval now id secret m)
  | MResolve id dev approve digits => on AResolved (resolvePushWithMatch now id dev approve digits m)
  | MSweep => on ACount (sweepExpired now m)
  end.

(** The moves of one challenge. *)
Inductive ch_step (now : Z) (id : gostr) : mop -> Challenge -> Challenge -> Prop :=
  | cs_totp c : expired now c = false -> (TOTPAttempts c + 1 <= MaxTOTPAttempts)%Z ->
      ch_step now id (MRecordTOTP id) c (setTOTPAttempts (TOTPAttempts c + 1) c)
  | cs_used step c : expired now c = false -> UsedTOTPStep c = 0%Z ->
      ch_step now id (MConsumeTOTP id step) c (setUsedStep step c)
  | cs_approve dev c : expired now c = false -> isPushResolved (PushStatus c) = false ->
      ch_step now id (MResolve id dev true (MatchDigits c)) c (setPush PushApproved dev (MatchAttempts c) c)
  | cs_lock dev digits c : expired now c = false -> isPushResolved (PushStatus c) = false -> digits ≠ MatchDigits c ->
      ch_step now id (MResolve id dev true digits) c (setPush PushLocked dev (MatchAttempts c + 1) c)
  | cs_deny dev digits c : expired now c = false -> isPushResolved (PushStatus c) = false ->
      ch_step now id (MResolve id dev false digits) c (setPush PushDenied dev (MatchAttempts c) c).

(** The call creates a challenge under [id]. *)
Definition CreatesAs (id : gostr) (o : mop) : Prop :=
  match o with MCreate (Some idb) _ _ _ _ => hexEncode idb = id | _ => False end.

(** What a call may do to the challenge stored under an ID. *)
Definition LookupStep (now : Z) (id : gostr) (o : mop) (before after : option Challenge) : Prop :=
  after = None \/ after = before \/
  (exists c c', before = Some c /\ after = Some c' /\ ch_step now id o c c') \/
  (CreatesAs id o /\ exists c, after = Some c /\ PushStatus c = [] /\ TOTPAttempts c = 0%Z /\ UsedTOTPStep c = 0%Z).

Lemma lookup_delete_or (id id' : gostr) (m : mstore) : delete id' m !! id = None \/ delete id' m !! id = m !! id.
Proof. destruct (decide (id' = id)) as [->|]; [left; apply lookup_delete_eq|right; by apply lookup_delete_ne]. Qed.

Lemma lookup_filter_or (P : gostr * Challenge -> Prop) `{forall x, Decision (P x)} (id : gostr) (m : mstore) :
  filter P m !! id = None \/ filter P m !! id = m !! id.
Proof.
  destruct (filter P m !! id) as [c|] eqn:E; [|by left]. apply map_lookup_filter_Some in E as [-> _]. by right.
Qed.

Lemma LookupStep_delete (now : Z) (id id' : gostr) (o : mop) (m : mstore) : LookupStep now id o (m !! id) (delete id' m !! id).
Proof. destruct (lookup_delete_or id id' m) as [->| ->]; [by left|by right; left]. Qed.

Lemma LookupStep_filter (now : Z) (id : gostr) (o : mop) (P : gostr * Challenge -> Prop) `{forall x, Decision (P x)} (m : mstore) :
  LookupStep now id o (m !! id) (filter P m !! id).
Proof. destruct (lookup_filter_or P id m) as [->| ->]; [by left|by right; left]. Qed.

Lemma LookupStep_same (now : Z) (id : gostr) (o : mop) (m : mstore) : LookupStep now id o (m !! id) (m !! id).
Proof. by right; left. Qed.

(** A write at [id'] that is a move of the challenge there. *)
Lemma LookupStep_insert (now : Z) (id id' : gostr) (o : mop) (m : mstore) c c' :
  m !! id' = Some c -> ch_step now id' o c c' -> LookupStep now id o (m !! id) (<[id' := c']> m !! id).
Proof.
  intros Hc Hs. destruct (decide (id' = id)) as [->|Hne].
  - rewrite lookup_insert_eq. right; right; left. eauto.
  - rewrite lookup_insert_ne by done. apply LookupStep_same.
Qed.

Lemma live_Some (now : Z) (id : gostr) (m : mstore) c : liveChallenge now id m = Some c <-> m !! id = Some c /\ expired now c = false.
Proof.
  unfold liveChallenge. destruct (m !! id) as [c0|]; [|naive_solver].
  destruct (expired now c0) eqn:E; naive_solver congruence.
Qed.

#[local] Hint Resolve LookupStep_delete LookupStep_same : kypost.

Lemma runMfa_lookup (now : Z) (o : mop) (m : mstore) (id : gostr) : LookupStep now id o (m !! id) ((runMfa (now, o) m).2 !! id).
Proof.
  destruct o as [idb sb numbers u fence|id'|id'|id' st|id'|u|u e|id'|id' secret|id' dev approve digits|]; simpl.
  - unfold createFenced. destruct idb as [idb|]; simpl; auto with kypost. destruct sb as [sb|]; simpl; auto with kypost.
    destruct numbers as [[md dd]|]; simpl; auto with kypost.
    destruct (decide (hexEncode idb = id)) as [<-|Hne].
    + rewrite lookup_insert_eq. right; right; right. split; [done|]. by eexists.
    + rewrite lookup_insert_ne by done. auto with kypost.
  - unfold getChallenge. destruct (m !! id') as [c|]; simpl; auto with kypost. destruct (expired now c); simpl; auto with kypost.
  - unfold recordTOTPAttempt. destruct (liveChallenge now id' m) as [c|] eqn:E; simpl; auto with kypost.
    destruct (MaxTOTPAttempts <? TOTPAttempts c + 1)%Z eqn:El; simpl; auto with kypost.
    apply live_Some in E as [E1 E2]. to_prop. eapply LookupStep_insert; [done|by apply cs_totp].
  - unfold consumeTOTPStep. destruct (liveChallenge now id' m) as [c|] eqn:E; simpl; auto with kypost.
    destruct (UsedTOTPStep c =? 0)%Z eqn:El; simpl; auto with kypost.
    apply live_Some in E as [E1 E2]. to_prop. eapply LookupStep_insert; [done|by apply cs_used].
  - apply LookupStep_delete.
  - apply LookupStep_filter.
  - apply LookupStep_filter.
  - unfold pushStatus. destruct (liveChallenge now id' m); simpl; auto with kypost.
  - unfold consumePushApproval. destruct (liveChallenge now id' m) as [c|]; simpl; auto with kypost.
    destruct (negb _); simpl; auto with kypost. destruct (negb _); simpl; auto with kypost.
  - unfold resolvePushWithMatch. destruct (liveChallenge now id' m) as [c|] eqn:E; simpl; auto with kypost.
    apply live_Some in E as [E1 E2].
    destruct (isPushResolved (PushStatus c)) eqn:Er; [destruct (_ =s? _); simpl; auto with kypost|].
    destruct approve; [destruct (digits =s? MatchDigits c) eqn:Ed; to_prop|]; simpl.
    + subst digits. eapply LookupStep_insert; [done|by apply cs_approve].
    + eapply LookupStep_insert; [done|by apply cs_lock].
    + eapply LookupStep_insert; [done|by apply cs_deny].
  - apply LookupStep_filter.
Qed.

(** ** Push approval *)

(** A challenge becomes approved only by its own number: if it is approved
    after a call and was not before, the call was an approving response to that
    very challenge, unexpired and unanswered, carrying exactly the digits the
    browser shows; and an answer, once given, never changes. *)
Lemma approved_only_by_number (now : Z) (o : mop) (m : mstore) (id : gostr) (c' : Challenge) :
  (runMfa (now, o) m).2 !! id = Some c' -> ~ CreatesAs id o ->
  (PushStatus c' = PushApproved -> (forall c, m !! id = Some c -> PushStatus c ≠ PushApproved) ->
     exists c dev, m !! id = Some c /\ expired now c = false /\ isPushResolved (PushStatus c) = false /\
       o = MResolve id dev true (MatchDigits c)) /\
  (forall c, m !! id = Some c -> isPushResolved (PushStatus c) = true ->
     PushStatus c' = PushStatus c /\ RespondedBy c' = RespondedBy c).
Proof.
  intros Hl Hc. pose proof (runMfa_lookup now o m id) as H. rewrite Hl in H.
  destruct H as [[=]|[H|[(c & c2 & Hb & Ha & Hs)|[H _]]]]; [| |done].
  - rewrite <- H. split; [intros Ha Hno; by destruct (Hno c')|by intros c [= <-]].
  - injection Ha as <-. rewrite Hb.
    destruct Hs as [c He Hn|st c He Hn|dev c He Hn|dev digits c He Hn Hd|dev digits c He Hn]; simpl; split;
      try (intros Ha Hno; by destruct (Hno c)); try (by intros c0 [= <-]); try (by intros c0 [= <-]; rewrite Hn);
      try done. eauto 10.
Qed.

(** A successful redemption. *)
Definition redeemed (id : gostr) (c : Z * mop) (a : answer) : bool :=
  match c.2, a with MConsumePush id' _, AUser (Ok _) => id' =s? id | _, _ => false end.

Definition Redeemable (c : Challenge) : bool :=
  negb ((PushStatus c =s? PushLocked) || (PushStatus c =s? PushDenied)).
Definition redemptions (id : gostr) (m : mstore) : Z :=
  match m !! id with Some c => if Redeemable c then 1 else 0 | None => 0 end.

(** Every call on the store other than one that creates [id] again. *)
Definition KeepsID (id : gostr) (c : Z * mop) : Prop := ~ CreatesAs id c.2.

(** A measure of the challenge under [id] that no move increases. *)
Lemma measure_step (f : Challenge -> Z) (id : gostr) (c : Z * mop) (m : mstore) :
  (forall x, 0 <= f x)%Z -> (forall now x y, ch_step now id c.2 x y -> f y <= f x)%Z ->
  KeepsID id c ->
  (match (runMfa c m).2 !! id with Some x => f x | None => 0 end
   <= match m !! id with Some x => f x | None => 0 end)%Z.
Proof.
  intros Hpos Hf Hk. destruct c as [now o]. pose proof (runMfa_lookup now o m id) as H.
  destruct H as [->|[->|[(x & y & -> & -> & Hs)|[H _]]]]; [|lia| |done].
  - destruct (m !! id); [apply Hpos|lia].
  - by eapply Hf.
Qed.

Lemma redeemed_counts (id : gostr) (c : Z * mop) (m : mstore) :
  redeemed id c (runMfa c m).1 = true ->
  redemptions id m = 1%Z /\ redemptions id (runMfa c m).2 = 0%Z.
Proof.
  destruct c as [now o]. unfold redeemed. simpl. destruct o; try (break_match; done).
  unfold consumePushApproval. destruct (liveChallenge now id0 m) as [ch|] eqn:El; [|done].
  destruct (negb (secret =s? FinishSecret ch)) eqn:E1; [done|].
  destruct (negb (PushStatus ch =s? PushApproved)) eqn:E2; [done|]. simpl. intros Hid. to_prop. subst id0.
  apply live_Some in El as [Hm _]. unfold redemptions. rewrite Hm, lookup_delete_eq. split; [|done].
  unfold Redeemable. by rewrite E2.
Qed.

Lemma redemptions_step id c m :
  KeepsID id c ->
  (redemptions id (runMfa c m).2 + (if redeemed id c (runMfa c m).1 then 1 else 0) <= redemptions id m)%Z.
Proof.
  intros Hk. destruct (redeemed id c (runMfa c m).1) eqn:E.
  - apply redeemed_counts in E as [-> ->]. lia.
  - pose proof (measure_step (fun x => if Redeemable x then 1 else 0)%Z id c m) as H. unfold redemptions.
    enough (match (runMfa c m).2 !! id with Some x => if Redeemable x then 1 else 0 | None => 0 end
            <= match m !! id with Some x => if Redeemable x then 1 else 0 | None => 0 end)%Z by lia.
    apply H; [intros x; destruct (Redeemable x); lia| |done].
    intros now x y Hs. destruct Hs as [c0 He Hn|st c0 He Hn|dev c0 He Hn|dev digits c0 He Hn Hd|dev digits c0 He Hn];
      unfold Redeemable; simpl; try lia; try (destruct (negb _); lia).
    unfold isPushResolved in Hn. to_prop. rewrite !elem_of_cons in Hn.
    destruct (PushStatus c0 =s? PushLocked) eqn:E1, (PushStatus c0 =s? PushDenied) eqn:E2; to_prop; simpl; tauto || lia.
Qed.

(** One approval, one session: in any run of calls on the challenge store,
    a challenge is redeemed at most once, and never once a wrong number or a
    denial has closed it. *)
Lemma push_redeemed_at_most_once (tr : list (Z * mop)) (m : mstore) (id : gostr) :
  Forall (KeepsID id) tr ->
  (count_log (redeemed id) (run_trace runMfa tr m).1 <= 1)%Z /\
  (forall c, m !! id = Some c -> PushStatus c = PushLocked \/ PushStatus c = PushDenied ->
     count_log (redeemed id) (run_trace runMfa tr m).1 <= 0)%Z.
Proof.
  intros Hk. assert (count_log (redeemed id) (run_trace runMfa tr m).1 <= redemptions id m)%Z as H.
  { apply (run_trace_bound runMfa _ (KeepsID id) (fun _ => True)); [| |done|done].
    - intros s. unfold redemptions. repeat case_match; lia.
    - intros c s Hc _. split; [done|]. by apply redemptions_step. }
  split.
  - etrans; [exact H|]. unfold redemptions. repeat case_match; lia.
  - intros c Hc Hst. etrans; [exact H|]. unfold redemptions, Redeemable. rewrite Hc.
    by destruct Hst as [-> | ->].
Qed.

(** What a redemption proves: ConsumePushApproval answers with a user
    exactly when that user's challenge is stored under the ID, unexpired and
    approved, and the caller holds its FinishSecret; the challenge is then gone,
    and a call with a wrong secret changes nothing. *)
Lemma consumePushApproval_exact (now : Z) (id secret user : gostr) (m : mstore) :
  ((consumePushApproval now id secret m).1 = Ok user <->
   exists c, m !! id = Some c /\ expired now c = false /\ FinishSecret c = secret /\
     PushStatus c = PushApproved /\ chUserID c = user) /\
  ((consumePushApproval now id secret m).1 = Ok user -> (consumePushApproval now id secret m).2 = delete id m) /\
  (forall c, liveChallenge now id m = Some c -> secret ≠ FinishSecret c ->
     consumePushApproval now id secret m = (Err ErrChallengeNotFound, m)).
Proof.
  unfold consumePushApproval. destruct (liveChallenge now id m) as [c|] eqn:El.
  - pose proof El as Hl. apply live_Some in Hl as [Hm He].
    destruct (secret =s? FinishSecret c) eqn:E1, (PushStatus c =s? PushApproved) eqn:E2; simpl; to_prop; subst;
      split_and!; try done; try (intros c0 [= <-]; congruence); try (split; [done|intros (c0 & Hc0 & _ & ? & ? & _); congruence]);
      try (by intros c0 [= <-]).
    split; [intros [= <-]; eauto 10|]. intros (c0 & Hc0 & _ & _ & _ & <-). congruence.
  - split_and!; [|done|done]. split; [done|]. intros (c & Hm & He & _).
    assert (liveChallenge now id m = Some c) by (by apply live_Some). congruence.
Qed.

(** ** TOTP *)

Definition recorded (id : gostr) (c : Z * mop) (a : answer) : bool :=
  match c.2, a with MRecordTOTP id', AErr None => id' =s? id | _, _ => false end.
Definition attemptsLeft (id : gostr) (m : mstore) : Z :=
  match m !! id with Some c => Z.max 0 (MaxTOTPAttempts - TOTPAttempts c) | None => 0 end.

Lemma attempts_step id c m :
  KeepsID id c ->
  (attemptsLeft id (runMfa c m).2 + (if recorded id c (runMfa c m).1 then 1 else 0) <= attemptsLeft id m)%Z.
Proof.
  intros Hk. destruct (recorded id c (runMfa c m).1) eqn:E.
  - destruct c as [now o]. unfold recorded in E. simpl in *. destruct o; try (break_match; done).
    revert E. unfold recordTOTPAttempt. destruct (liveChallenge now id0 m) as [ch|] eqn:El; [|done].
    destruct (_ <? _)%Z eqn:E1; [done|]. simpl. intros Hid. to_prop. subst id0.
    apply live_Some in El as [Hm _]. unfold attemptsLeft. rewrite Hm, lookup_insert_eq. simpl. lia.
  - pose proof (measure_step (fun x => Z.max 0 (MaxTOTPAttempts - TOTPAttempts x)) id c m) as H. unfold attemptsLeft.
    enough (match (runMfa c m).2 !! id with Some x => Z.max 0 (MaxTOTPAttempts - TOTPAttempts x) | None => 0 end
            <= match m !! id with Some x => Z.max 0 (MaxTOTPAttempts - TOTPAttempts x) | None => 0 end)%Z by lia.
    apply H; [lia| |done]. intros now x y Hs. destruct Hs; simpl; lia.
Qed.

Definition stepUsed (id : gostr) (c : Z * mop) (a : answer) : bool :=
  match c.2, a with MConsumeTOTP id' _, AErr None => id' =s? id | _, _ => false end.
Definition stepsLeft (id : gostr) (m : mstore) : Z :=
  match m !! id with Some c => if (UsedTOTPStep c =? 0)%Z then 1 else 0 | None => 0 end.

(** A TOTP step is the Unix time over thirty seconds, never zero. *)
Definition RealStep (c : Z * mop) : Prop := match c.2 with MConsumeTOTP _ step => step ≠ 0%Z | _ => True end.

Lemma steps_step id c m :
  KeepsID id c -> RealStep c ->
  (stepsLeft id (runMfa c m).2 + (if stepUsed id c (runMfa c m).1 then 1 else 0) <= stepsLeft id m)%Z.
Proof.
  intros Hk Hr. destruct (stepUsed id c (runMfa c m).1) eqn:E.
  - destruct c as [now o]. unfold stepUsed in E. simpl in *. destruct o; try (break_match; done).
    revert E. unfold consumeTOTPStep. destruct (liveChallenge now id0 m) as [ch|] eqn:El; [|done].
    destruct (UsedTOTPStep ch =? 0)%Z eqn:E1; [|done]. simpl. intros Hid. to_prop. subst id0.
    apply live_Some in El as [Hm _]. unfold stepsLeft, RealStep in *. rewrite Hm, lookup_insert_eq. simpl in *.
    rewrite E1. simpl. destruct (step =? 0)%Z eqn:E0; to_prop; [done|lia].
  - pose proof (measure_step (fun x => if (UsedTOTPStep x =? 0)%Z then 1 else 0)%Z id c m) as H. unfold stepsLeft.
    enough (match (runMfa c m).2 !! id with Some x => if (UsedTOTPStep x =? 0)%Z then 1 else 0 | None => 0 end
            <= match m !! id with Some x => if (UsedTOTPStep x =? 0)%Z then 1 else 0 | None => 0 end)%Z by lia.
    apply H; [intros x; destruct (UsedTOTPStep x =? 0)%Z; lia| |done].
    intros now x y Hs. destruct Hs as [c0 He Hn|st c0 He Hn|dev c0 He Hn|dev digits c0 He Hn Hd|dev digits c0 He Hn];
      simpl; try lia. rewrite Hn. simpl. destruct (st =? 0)%Z; lia.
Qed.

(** TOTP on one challenge, over any run of calls: at most MaxTOTPAttempts
    failed codes are tolerated, and at most one accepted code is consumed. *)
Lemma totp_bounded (tr : list (Z * mop)) (m : mstore) (id : gostr) :
  Forall (fun c => KeepsID id c /\ RealStep c) tr ->
  (forall c, m !! id = Some c -> 0 <= TOTPAttempts c)%Z ->
  (count_log (recorded id) (run_trace runMfa tr m).1 <= MaxTOTPAttempts)%Z /\
  (count_log (stepUsed id) (run_trace runMfa tr m).1 <= 1)%Z.
Proof.
  intros Hk Ha. split.
  - transitivity (attemptsLeft id m).
    + apply (run_trace_bound runMfa _ (fun c => KeepsID id c /\ RealStep c) (fun _ => True)); [| |done|done].
      * intros s. unfold attemptsLeft. case_match; lia.
      * intros c s [Hc _] _. split; [done|]. by apply attempts_step.
    + unfold attemptsLeft, MaxTOTPAttempts. destruct (m !! id) eqn:E; [|lia]. specialize (Ha _ eq_refl). lia.
  - transitivity (stepsLeft id m).
    + apply (run_trace_bound runMfa _ (fun c => KeepsID id c /\ RealStep c) (fun _ => True)); [| |done|done].
      * intros s. unfold stepsLeft. repeat case_match; lia.
      * intros c s [Hc Hr] _. split; [done|]. by apply steps_step.
    + unfold stepsLeft. repeat case_match; lia.
Qed.

(** ** Superseding and the number draw *)

(** SupersedeUnansweredPush leaves exactly the other users' challenges, the
    excepted one and the answered ones, all unchanged: of the user's challenges
    at most the excepted one is still unanswered. *)
Lemma supersede_exact (userID exceptID id : gostr) (m : mstore) (c : Challenge) :
  (supersedeUnansweredPush userID exceptID m).2 !! id = Some c <->
  m !! id = Some c /\ (chUserID c ≠ userID \/ id = exceptID \/ isPushResolved (PushStatus c) = true).
Proof. unfold supersedeUnansweredPush. simpl. apply map_lookup_filter_Some. Qed.

Lemma decoyLoop_ok draws used decoys out :
  decoyLoop draws used decoys = Some (Ok out) ->
  NoDup decoys -> (forall d, d ∈ decoys -> d ∈ used) -> (length decoys <= decoyCount)%nat ->
  NoDup out /\ length out = decoyCount /\ (forall d, d ∈ decoys -> d ∈ out) /\
  (forall d, d ∈ out -> d ∈ decoys \/ (d ∉ used /\ exists n, Some n ∈ draws /\ d = twoDigits n)).
Proof.
  revert used decoys. induction draws as [|[n|] draws IH]; intros used decoys; cbn [decoyLoop];
    destruct (Nat.leb_spec decoyCount (length decoys)) as [Hle|Hlt]; try done;
    try (intros [= <-] Hn Hu Hl; split_and!; [done|lia|done|by left]).
  case_bool_decide as Hin.
  - intros E Hn Hu Hl. destruct (IH _ _ E Hn Hu Hl) as (H1 & H2 & H3 & H4). split_and!; try done.
    intros d Hd. destruct (H4 d Hd) as [?|(? & k & ? & ->)]; [by left|right].
    split; [done|]. exists k. split; [by right|done].
  - intros E Hn Hu Hl. destruct (IH _ _ E) as (H1 & H2 & H3 & H4).
    + apply NoDup_app. split_and!; [done| |apply NoDup_singleton].
      intros d Hd Hx. apply list_elem_of_singleton in Hx as ->. by apply Hin, Hu.
    + intros d [Hd|Hd]%elem_of_app; [right; auto|]. apply list_elem_of_singleton in Hd as ->. left.
    + rewrite length_app. simpl. lia.
    + split_and!; try done.
      * intros d Hd. apply H3. apply elem_of_app. by left.
      * intros d Hd. destruct (H4 d Hd) as [Hd'|(Hnu & k & Hk & ->)].
        -- apply elem_of_app in Hd' as [?|Hd']; [by left|]. apply list_elem_of_singleton in Hd' as ->.
           right. split; [done|]. exists n. split; [left|done].
        -- right. split; [by intros ?; apply Hnu; right|]. exists k. split; [by right|done].
Qed.

(** The loop ends: as soon as the draws have shown enough new numbers, it
    returns. *)
Lemma decoyLoop_returns draws used decoys ws :
  Forall is_Some draws -> NoDup ws ->
  (forall w, w ∈ ws -> w ∉ used /\ exists n, Some n ∈ draws /\ w = twoDigits n) ->
  (decoyCount <= length ws + length decoys)%nat ->
  exists out, decoyLoop draws used decoys = Some (Ok out).
Proof.
  intros Hd. revert used decoys ws. induction Hd as [|x draws [n ->] Hd IH]; intros used decoys ws Hn Hw Hl;
    cbn [decoyLoop]; destruct (Nat.leb_spec decoyCount (length decoys)) as [Hle|Hlt]; try by eexists.
  - destruct ws as [|w ws]; [simpl in *; lia|]. destruct (Hw w) as (_ & n & Hin & _); [left|]. set_solver.
  - case_bool_decide as Hin.
    + apply (IH _ _ ws); [done| |done]. intros w Hww. destruct (Hw w Hww) as (Hu & k & Hk & ->).
      split; [done|]. exists k. apply elem_of_cons in Hk as [[= ->]|Hk]; done.
    + apply (IH _ _ (List.filter (fun w => negb (w =s? twoDigits n)) ws)).
      * apply NoDup_ListNoDup, List.NoDup_filter. by apply NoDup_ListNoDup.
      * intros w Hww. apply list_elem_of_In, filter_In in Hww as [Hww Hne]. apply list_elem_of_In in Hww. to_prop.
        destruct (Hw w Hww) as (Hu & k & Hk & ->). split; [by intros [?|?]%elem_of_cons|].
        exists k. apply elem_of_cons in Hk as [[= ->]|Hk]; done.
      * rewrite length_app. simpl. enough (length ws <= S (length (List.filter (fun w => negb (w =s? twoDigits n)) ws)))%nat by lia.
        clear -Hn. induction ws as [|w ws IHw]; simpl; [lia|]. apply NoDup_cons in Hn as [Hw Hn].
        destruct (w =s? twoDigits n) eqn:E; simpl; [|specialize (IHw Hn); lia]. to_prop. subst w.
        assert (List.filter (fun w => negb (w =s? twoDigits n)) ws = ws) as ->; [|lia].
        clear -Hw. induction ws as [|w ws IHw]; simpl; [done|]. apply not_elem_of_cons in Hw as [Hne Hw].
        rewrite bool_decide_eq_false_2 by done. simpl. by rewrite IHw.
Qed.

(** The numbers a challenge offers are a real choice: whenever the draw
    succeeds, the matching number and its decoys are distinct, there are exactly
    decoyCount decoys, and every one of them is the two-digit form of a number
    that was drawn.  And the draw ends: it succeeds as soon as the random source,
    without failing, has produced decoyCount numbers that differ from each other
    and from the first. *)
Lemma newNumberMatch_distinct (draws : list (option Z)) :
  (forall match_ decoys, newNumberMatch draws = Some (Ok (match_, decoys)) ->
     NoDup (match_ :: decoys) /\ length decoys = decoyCount /\
     Forall (fun d => exists n, Some n ∈ draws /\ d = twoDigits n) (match_ :: decoys)) /\
  (forall n rest ws, draws = Some n :: rest -> Forall is_Some rest -> NoDup (twoDigits n :: ws) ->
     (forall w, w ∈ ws -> exists k, Some k ∈ rest /\ w = twoDigits k) -> (decoyCount <= length ws)%nat ->
     exists r, newNumberMatch draws = Some (Ok r)).
Proof.
  split.
  - intros match_ decoys. unfold newNumberMatch. destruct draws as [|[n|] draws]; [done| |done].
    destruct (decoyLoop draws [twoDigits n] []) as [[out|e]|] eqn:E; simpl; try done. intros [= <- <-].
    destruct (decoyLoop_ok _ _ _ _ E) as (H1 & H2 & _ & H4); [constructor|set_solver|simpl; lia|].
    split_and!; [|done|].
    + constructor; [|done]. intros Hin. destruct (H4 _ Hin) as [H|[H _]]; [set_solver|]. apply H. left.
    + constructor; [exists n; split; [left|done]|]. apply Forall_forall. intros d Hd.
      destruct (H4 d Hd) as [H|(_ & k & Hk & ->)]; [set_solver|]. exists k. split; [by right|done].
  - intros n rest ws -> Hs [Hn Hws]%NoDup_cons Hw Hl.
    destruct (decoyLoop_returns rest [twoDigits n] [] ws Hs Hws) as [out E].
    + intros w Hin. split; [|by apply Hw]. intros Hx. apply list_elem_of_singleton in Hx as ->. done.
    + simpl. lia.
    + unfold newNumberMatch. rewrite E. simpl. by eexists.
Qed.
