(* ===== verification/StateTables.v ===== *)
(** * StateTables: snoozed mail and agent tokens (backend/internal/state)

    Two tables of state.db whose methods are one statement, or one transaction,
    each: a table is a list of rows with distinct primary keys, and an operation
    a function on it.  Times are Unix seconds. *)

From S2P Require Import Prelude GoText.

(** ** Snoozes (snoozes.go) *)

Module Snoozes.

Record Snooze := mkSnooze { MessageID : gostr; WakeAt : Z; InboxID : gostr; WokenAt : Z }.
Abbreviation table := (list Snooze).

Definition MaxSnoozes : Z := 1000.
Definition WokenPinDays : Z := 30.

Definition isRow (id : gostr) (z : Snooze) : bool := MessageID z =s? id.

(** Store.Snooze: one transaction; [None] is ErrTooManySnoozes. *)
Definition snooze (messageID : gostr) (wakeAt : Z) (t : table) : option table :=
  let n := Z.of_nat (length (List.filter (fun z => negb (isRow messageID z)) t)) in
  if (MaxSnoozes <=? n)%Z then None
  else match find_first (isRow messageID) t with
       | Some _ => Some (update_first (isRow messageID) (fun _ => mkSnooze messageID wakeAt [] 0) t)
       | None => Some (t ++ [mkSnooze messageID wakeAt [] 0])
       end.

Section Queries.
Context {SS : SortSlice}.
Definition byWake (a b : Snooze) : bool := (WakeAt a <? WakeAt b)%Z.
Definition dueSnoozes (now : Z) (t : table) : table :=
  sort_slice _ byWake (List.filter (fun z => (WokenAt z =? 0)%Z && (WakeAt z <=? now)%Z) t).
Definition listSnoozes (t : table) : table := sort_slice _ byWake (List.filter (fun z => (WokenAt z =? 0)%Z) t).
Definition woken (t : table) : table :=
  sort_slice _ (fun a b => (WokenAt b <? WokenAt a)%Z)
    (List.filter (fun z => (0 <? WokenAt z)%Z && negb (InboxID z =s? [])) t).
Definition unpinned (t : table) : table := List.filter (fun z => (0 <? WokenAt z)%Z && (InboxID z =s? [])) t.
End Queries.

Definition markWoken (messageID inboxID : gostr) (at_ : Z) (t : table) : table :=
  (fun z => if isRow messageID z then mkSnooze (MessageID z) (WakeAt z) inboxID at_ else z) <$> t.
Definition dropSnooze (messageID : gostr) (t : table) : table := List.filter (fun z => negb (isRow messageID z)) t.
Definition pruneWoken (now : Z) (t : table) : table :=
  List.filter (fun z => negb ((0 <? WokenAt z)%Z && (WokenAt z <? now - WokenPinDays * 24 * 3600)%Z)) t.

Inductive snooze_op :=
  | OSnooze (messageID : gostr) (wakeAt : Z)
  | OMarkWoken (messageID inboxID : gostr) (at_ : Z)
  | ODrop (messageID : gostr)
  | OPrune (now : Z).
Definition runSnooze (o : snooze_op) (t : table) : table :=
  match o with
  | OSnooze id wakeAt => default t (snooze id wakeAt t)
  | OMarkWoken id inbox at_ => markWoken id inbox at_ t
  | ODrop id => dropSnooze id t
  | OPrune now => pruneWoken now t
  end.

Definition Ok_ (t : table) : Prop := NoDup (MessageID <$> t) /\ (Z.of_nat (length t) <= MaxSnoozes)%Z.

Lemma isRow_spec id z : isRow id z = true <-> MessageID z = id.
Proof. unfold isRow. apply bool_decide_eq_true. Qed.

Lemma not_row id t : find_first (isRow id) t = None <-> id ∉ (MessageID <$> t).
Proof.
  rewrite find_first_None. split.
  - intros H (z & -> & Hz)%list_elem_of_fmap. specialize (H z Hz). apply not_true_iff_false in H. apply H. by apply isRow_spec.
  - intros H z Hz. apply not_true_iff_false. rewrite isRow_spec. intros <-. apply H. by apply list_elem_of_fmap_2.
Qed.

Lemma others_length id t : NoDup (MessageID <$> t) ->
  length t = (length (List.filter (fun z => negb (isRow id z)) t) + (if decide (id ∈ MessageID <$> t) then 1 else 0))%nat.
Proof.
  induction t as [|z t IH]; [done|]. rewrite fmap_cons. intros [Hz Hn]%NoDup_cons. specialize (IH Hn). cbn [length List.filter].
  destruct (isRow id z) eqn:E; cbn [negb length].
  - apply isRow_spec in E. subst id. destruct (decide (MessageID z ∈ MessageID <$> t)); [done|].
    rewrite decide_True by left. lia.
  - apply not_true_iff_false in E. rewrite isRow_spec in E.
    destruct (decide (id ∈ MessageID <$> t)) as [Hin|Hin].
    + rewrite decide_True by (by right). lia.
    + rewrite decide_False by (intros [?|?]%elem_of_cons; congruence). lia.
Qed.

Lemma snooze_ok id wakeAt t t' : Ok_ t -> snooze id wakeAt t = Some t' ->
  Ok_ t' /\ find_first (isRow id) t' = Some (mkSnooze id wakeAt [] 0) /\
  forall id', id' ≠ id -> find_first (isRow id') t' = find_first (isRow id') t.
Proof.
  intros [Hn Hl]. unfold snooze. destruct (_ <=? _)%Z eqn:Em; [done|]. to_prop.
  destruct (find_first (isRow id) t) as [z|] eqn:E; intros [= <-].
  - assert (MessageID <$> update_first (isRow id) (fun _ => mkSnooze id wakeAt [] 0) t = MessageID <$> t) as Ids.
    { apply update_first_map. intros x Hx. apply find_first_Some in Hx as [_ Hx]. apply isRow_spec in Hx. done. }
    split_and!.
    + split; [by rewrite Ids|by rewrite update_first_length].
    + erewrite find_first_update; [reflexivity|exact E|by apply isRow_spec].
    + intros id' Hne. apply find_first_update_ne; intros x Hx; apply not_true_iff_false; rewrite isRow_spec;
        apply isRow_spec in Hx; simpl; congruence.
  - apply not_row in E as Hout. pose proof (others_length id t Hn) as Hlen. rewrite decide_False in Hlen by done.
    split_and!.
    + split; [|rewrite length_app; simpl; lia]. rewrite fmap_app. simpl. apply NoDup_app.
      split_and!; [done| |apply NoDup_singleton]. by intros x Hx ->%list_elem_of_singleton.
    + rewrite find_first_app, E. simpl. unfold isRow. by rewrite bool_decide_eq_true_2.
    + intros id' Hne. rewrite find_first_app. destruct (find_first (isRow id') t); [done|]. simpl.
      unfold isRow. by rewrite bool_decide_eq_false_2.
Qed.

Lemma Ok_sublist t u : u `sublist_of` t -> Ok_ t -> Ok_ u.
Proof.
  intros Hs [Hn Hl]. split; [eapply sublist_NoDup; [exact Hn|by apply fmap_sublist]|].
  apply sublist_length in Hs. lia.
Qed.

Lemma filter_sub (p : Snooze -> bool) t : List.filter p t `sublist_of` t.
Proof. induction t as [|x t IH]; simpl; [done|]. destruct (p x); by constructor. Qed.

Lemma runSnooze_ok o t : Ok_ t -> Ok_ (runSnooze o t).
Proof.
  intros Ht. destruct o as [id w|id inbox at_|id|now]; simpl.
  - destruct (snooze id w t) as [t'|] eqn:E; [|done]. simpl. by eapply snooze_ok.
  - destruct Ht as [Hn Hl]. unfold markWoken. split; [|by rewrite length_fmap].
    assert (MessageID <$> ((fun z => if isRow id z then mkSnooze (MessageID z) (WakeAt z) inbox at_ else z) <$> t) = MessageID <$> t) as ->; [|done].
    rewrite <- list_fmap_compose. apply list_fmap_ext. intros i z _. simpl. by destruct (isRow id z).
  - eapply Ok_sublist; [apply filter_sub|done].
  - eapply Ok_sublist; [apply filter_sub|done].
Qed.

(** A mailbox never holds more than MaxSnoozes snoozes, under any run of
    operations; a successful snooze makes the message due exactly from its wake
    time on, forgetting an earlier wake, leaves every other message's row alone,
    and is refused only when MaxSnoozes other messages are already stored. *)
Lemma snooze_contract {SS : SortSlice} {L : SortSliceLaws} (ops : list snooze_op) (id : gostr) (wakeAt : Z) :
  let t := foldl (fun t o => runSnooze o t) [] ops in
  (Z.of_nat (length t) <= MaxSnoozes)%Z /\
  match snooze id wakeAt t with
  | Some t' => (forall now, mkSnooze id wakeAt [] 0 ∈ dueSnoozes now t' <-> (wakeAt <= now)%Z) /\
               (forall id', id' ≠ id -> find_first (isRow id') t' = find_first (isRow id') t)
  | None => (MaxSnoozes <= Z.of_nat (length (List.filter (fun z => negb (isRow id z)) t)))%Z
  end.
Proof.
  intros t. assert (Ok_ t) as Ht.
  { subst t. assert (Ok_ []) as H by (split; [constructor|done]). revert H. generalize (@nil Snooze).
    induction ops as [|o ops IH]; intros t0 H; simpl; [done|]. by apply IH, runSnooze_ok. }
  split; [apply Ht|]. destruct (snooze id wakeAt t) as [t'|] eqn:E.
  - destruct (snooze_ok _ _ _ _ Ht E) as (_ & Hf & Ho). split; [|done]. intros now. unfold dueSnoozes.
    rewrite sort_slice_perm, list_elem_of_In, filter_In, <- list_elem_of_In. simpl.
    rewrite Z.leb_le. apply find_first_Some in Hf as [Hin _]. tauto.
  - unfold snooze in E. destruct (_ <=? _)%Z eqn:Em; [|by destruct (find_first _ _)]. by to_prop.
Qed.

End Snoozes.

(** ** Agent tokens (agent_tokens.go) *)

Module AgentTokens.

Record AgentToken := mkToken {
  tokID : gostr; tokUser : gostr; Label : gostr; Hash : gostr; TokScope : gostr; tokCreatedAt : Z; LastUsedAt : Z }.
Abbreviation table := (list AgentToken).

Definition AgentScopeRead : gostr := $"mcp:read".
Definition AgentScopeOrganize : gostr := $"mcp:organize".
Definition isAgentScope (scope : gostr) : bool := (scope =s? AgentScopeRead) || (scope =s? AgentScopeOrganize).

Definition lastActive (t : AgentToken) : Z := if (0 <? LastUsedAt t)%Z then LastUsedAt t else tokCreatedAt t.

Inductive token_error := UnknownScope | TokenLimit | TokenNotFound | TokenConflict.

Definition ofUser (user : gostr) (l : table) : table := List.filter (fun t => tokUser t =s? user) l.

(** CreateAgentToken. *)
Definition createAgentToken (t : AgentToken) (max_ : Z) (l : table) : option token_error * table :=
  if negb (isAgentScope (TokScope t)) then (Some UnknownScope, l)
  else if (Z.of_nat (length (ofUser (tokUser t) l)) <? max_)%Z then
    if existsb (fun x => tokID x =s? tokID t) l then (Some TokenConflict, l)
    else (None, l ++ [mkToken (tokID t) (tokUser t) (Label t) (Hash t) (TokScope t) (tokCreatedAt t) 0])
  else (Some TokenLimit, l).

Definition agentToken (id : gostr) (l : table) : option AgentToken := find_first (fun t => tokID t =s? id) l.

Definition owned (user id : gostr) (t : AgentToken) : bool := (tokID t =s? id) && (tokUser t =s? user).

(** oneAgentToken: exactly one row affected, or not found. *)
Definition oneAgentToken (hit : AgentToken -> bool) (l : table) : option token_error :=
  if (length (List.filter hit l) =? 1)%nat then None else Some TokenNotFound.

Definition setScope (scope : gostr) (t : AgentToken) : AgentToken :=
  mkToken (tokID t) (tokUser t) (Label t) (Hash t) scope (tokCreatedAt t) (LastUsedAt t).
Definition setAgentTokenScope (user id scope : gostr) (l : table) : option token_error * table :=
  if negb (isAgentScope scope) then (Some UnknownScope, l)
  else (oneAgentToken (owned user id) l, (fun t => if owned user id t then setScope scope t else t) <$> l).

Definition deleteAgentToken (user id : gostr) (l : table) : option token_error * table :=
  (oneAgentToken (owned user id) l, List.filter (fun t => negb (owned user id t)) l).
Definition deleteUserAgentTokens (user : gostr) (l : table) : table := List.filter (fun t => negb (tokUser t =s? user)) l.

Definition touch (now : Z) (t : AgentToken) : AgentToken :=
  mkToken (tokID t) (tokUser t) (Label t) (Hash t) (TokScope t) (tokCreatedAt t) now.
Definition touchAgentToken (id : gostr) (now : Z) (l : table) : table :=
  (fun t => if tokID t =s? id then touch now t else t) <$> l.

Definition idle (cutoff : Z) (id : gostr) (t : AgentToken) : bool :=
  (lastActive t <=? cutoff)%Z && ((id =s? []) || (tokID t =s? id)).
Definition expireIdleAgentTokens (cutoff : Z) (id : gostr) (l : table) : table * table :=
  (List.filter (idle cutoff id) l, List.filter (fun t => negb (idle cutoff id t)) l).

(** FenceRestoredAgentTokens on a database that has the table. *)
Definition fenceRestoredAgentTokens (l : table) : table := [].

Inductive token_op :=
  | OCreate (t : AgentToken)
  | OSetScope (user id scope : gostr)
  | ODelete (user id : gostr)
  | ODeleteUser (user : gostr)
  | OTouch (id : gostr) (now : Z)
  | OExpire (cutoff : Z) (id : gostr)
  | OFence.
Definition runToken (max_ : Z) (o : token_op) (l : table) : table :=
  match o with
  | OCreate t => (createAgentToken t max_ l).2
  | OSetScope user id scope => (setAgentTokenScope user id scope l).2
  | ODelete user id => (deleteAgentToken user id l).2
  | ODeleteUser user => deleteUserAgentTokens user l
  | OTouch id now => touchAgentToken id now l
  | OExpire cutoff id => (expireIdleAgentTokens cutoff id l).2
  | OFence => fenceRestoredAgentTokens l
  end.

Definition TokensOk (max_ : Z) (l : table) : Prop :=
  NoDup (tokID <$> l) /\ Forall (fun t => isAgentScope (TokScope t) = true) l /\
  forall user, (Z.of_nat (length (ofUser user l)) <= max_)%Z.

(** A rewriting that keeps owners and identities and only writes known scopes. *)
Lemma TokensOk_map max_ (f : AgentToken -> AgentToken) l :
  (forall t, tokID (f t) = tokID t /\ tokUser (f t) = tokUser t /\
     (isAgentScope (TokScope t) = true -> isAgentScope (TokScope (f t)) = true)) ->
  TokensOk max_ l -> TokensOk max_ (f <$> l).
Proof.
  intros Hf (H1 & H2 & H3). split_and!.
  - assert (tokID <$> (f <$> l) = tokID <$> l) as ->; [|done].
    rewrite <- list_fmap_compose. apply list_fmap_ext. intros i t _. apply Hf.
  - apply Forall_fmap. eapply Forall_impl; [exact H2|]. intros t. apply Hf.
  - intros user. etrans; [|apply (H3 user)]. apply inj_le. unfold ofUser. clear -Hf.
    induction l as [|t l IH]; csimpl; [lia|]. destruct (Hf t) as (_ & -> & _). destruct (_ =s? _); simpl; lia.
Qed.

Lemma TokensOk_filter max_ (p : AgentToken -> bool) l : TokensOk max_ l -> TokensOk max_ (List.filter p l).
Proof.
  intros (H1 & H2 & H3). assert (List.filter p l `sublist_of` l) as Hs.
  { clear. induction l as [|x l IH]; simpl; [done|]. destruct (p x); by constructor. }
  split_and!.
  - eapply sublist_NoDup; [exact H1|by apply fmap_sublist].
  - rewrite Forall_forall in *. intros t Ht. apply H2. by eapply sublist_subseteq.
  - intros user. etrans; [|apply (H3 user)]. apply inj_le. unfold ofUser. clear.
    induction l as [|t l IH]; simpl; [lia|]. destruct (p t); simpl; destruct (_ =s? _); simpl; lia.
Qed.

Lemma runToken_ok max_ o l : (0 <= max_)%Z -> TokensOk max_ l -> TokensOk max_ (runToken max_ o l).
Proof.
  intros Hm Hl. destruct o as [t|user id scope|user id|user|id now|cutoff id|]; simpl.
  - unfold createAgentToken. destruct (isAgentScope (TokScope t)) eqn:Es; simpl; [|done].
    destruct (_ <? _)%Z eqn:En; simpl; [|done]. destruct (existsb _ l) eqn:Ee; simpl; [done|]. to_prop.
    destruct Hl as (H1 & H2 & H3). split_and!.
    + rewrite fmap_app. simpl. apply NoDup_app. split_and!; [done| |apply NoDup_singleton].
      intros x Hx ->%list_elem_of_singleton. apply list_elem_of_fmap in Hx as (y & Hy & Hin).
      apply not_true_iff_false in Ee. apply Ee, existsb_exists. exists y. split; [by apply list_elem_of_In|].
      by apply bool_decide_eq_true.
    + apply Forall_app. split; [done|]. by constructor.
    + intros user. specialize (H3 user). unfold ofUser in *. rewrite List.filter_app. simpl.
      destruct (tokUser t =s? user) eqn:Eu; simpl; [|by rewrite app_nil_r]. to_prop. subst. rewrite length_app. simpl. lia.
  - unfold setAgentTokenScope. destruct (isAgentScope scope) eqn:Es; simpl; [|done].
    apply TokensOk_map; [|done]. intros t. by destruct (owned user id t).
  - by apply TokensOk_filter.
  - by apply TokensOk_filter.
  - apply TokensOk_map; [|done]. intros t. by destruct (_ =s? _).
  - by apply TokensOk_filter.
  - split_and!; try constructor. simpl. lia.
Qed.

(** Under any run of operations every stored agent token carries one of the
    two known scopes, token IDs are distinct, and no user holds more than the
    limit CreateAgentToken enforces. *)
Lemma agent_tokens_invariant (max_ : Z) (ops : list token_op) :
  (0 <= max_)%Z -> TokensOk max_ (foldl (fun l o => runToken max_ o l) [] ops).
Proof.
  intros Hm. assert (TokensOk max_ []) as H by (split_and!; try constructor; simpl; lia). revert H.
  generalize (@nil AgentToken). induction ops as [|o ops IH]; intros l H; simpl; [done|]. by apply IH, runToken_ok.
Qed.

(** Expiry of idle tokens is exact: the call returns exactly the tokens last
    active at or before the cutoff (only the named one if an ID is given), removes
    exactly those, and a token touched after the cutoff survives. *)
Lemma expire_idle_exact (cutoff now : Z) (id tid : gostr) (l : table) (t : AgentToken) :
  (t ∈ (expireIdleAgentTokens cutoff id l).1 <-> t ∈ l /\ (lastActive t <= cutoff)%Z /\ (id = [] \/ tokID t = id)) /\
  (t ∈ (expireIdleAgentTokens cutoff id l).2 <-> t ∈ l /\ ~ ((lastActive t <= cutoff)%Z /\ (id = [] \/ tokID t = id))) /\
  (t ∈ l -> tokID t = tid -> (cutoff < now)%Z -> (0 < now)%Z ->
   touch now t ∈ (expireIdleAgentTokens cutoff id (touchAgentToken tid now l)).2).
Proof.
  assert (Hi : forall x, idle cutoff id x = true <-> (lastActive x <= cutoff)%Z /\ (id = [] \/ tokID x = id)).
  { intros x. unfold idle. by rewrite andb_true_iff, Z.leb_le, orb_true_iff, !bool_decide_eq_true. }
  unfold expireIdleAgentTokens. simpl. split_and!.
  - rewrite list_elem_of_In, filter_In, <- list_elem_of_In, Hi. done.
  - rewrite list_elem_of_In, filter_In, <- list_elem_of_In, negb_true_iff, <- not_true_iff_false, Hi. done.
  - intros Hin Hid Hc Hn. rewrite list_elem_of_In, filter_In, <- list_elem_of_In, negb_true_iff, <- not_true_iff_false, Hi. split.
    + unfold touchAgentToken. apply list_elem_of_fmap. exists t. rewrite bool_decide_eq_true_2 by done. done.
    + intros [Hl _]. unfold lastActive in Hl. simpl in Hl. rewrite (proj2 (Z.ltb_lt _ _) Hn) in Hl. lia.
Qed.

End AgentTokens.

(** ** The sending quota (backend/internal/state/send_ledger.go)

    The table send_ledger is a list of rows.  A SQL statement is one atomic step
    on it; AdmitSend runs up to four of them outside a transaction, any of which
    may fail, so the quota theorem is proved for every interleaving of the
    statements of any number of callers.  Times are Unix seconds. *)

Record ledger_row := mkLedger { lID : gostr; lUser : gostr; lAt : Z; lRecipients : Z }.
Abbreviation ledger := (list ledger_row).

Definition sendHour : Z := 3600.
Definition sendDay : Z := 86400.

(** The rows of one user inside a window that opens after [since]. *)
Definition userSince (user : gostr) (since : Z) (t : ledger) : ledger :=
  List.filter (fun r => (lUser r =s? user) && (since <? lAt r)%Z) t.
Definition sumRecipients (t : ledger) : Z := foldr (fun r n => lRecipients r + n)%Z 0%Z t.
Definition charged (id : gostr) (t : ledger) : bool := existsb (fun r => lID r =s? id) t.

(** DELETE FROM send_ledger WHERE user_id=? AND at<=?. *)
Definition purgeLedger (user : gostr) (now : Z) (t : ledger) : ledger :=
  List.filter (fun r => negb ((lUser r =s? user) && (lAt r <=? now - sendDay)%Z)) t.

(** INSERT ... SELECT ... WHERE n < ? AND r + ? <= ? AND NOT EXISTS (...): the
    rows affected, and the table. *)
Definition insertSend (id user : gostr) (recipients messagesPerHour recipientsPerDay now : Z) (t : ledger) : Z * ledger :=
  let window := userSince user (now - sendDay) t in
  let n := Z.of_nat (length (List.filter (fun r => (now - sendHour <? lAt r)%Z) window)) in
  if (n <? messagesPerHour)%Z && (sumRecipients window + recipients <=? recipientsPerDay)%Z && negb (charged id t)
  then (1, t ++ [mkLedger id user now recipients])%Z
  else (0%Z, t).

Section Ledger.
Context {SS : SortSlice}.

(** The loop over the day's rows, oldest first. *)
Fixpoint waitLoop (excess until : Z) (day : ledger) : Z :=
  match day with
  | [] => until
  | r :: day' => if (excess <=? 0)%Z then until
                 else waitLoop (excess - lRecipients r) (Z.max until (lAt r + sendDay)) day'
  end.

(** sendQuotaWait, in seconds. *)
Definition sendQuotaWait (user : gostr) (recipients messagesPerHour recipientsPerDay now : Z) (t : ledger) : Z :=
  let day := sort_slice _ (fun a b => (lAt a <? lAt b)%Z) (userSince user (now - sendDay) t) in
  let hour := lAt <$> List.filter (fun r => (now - sendHour <? lAt r)%Z) day in
  let total := sumRecipients day in
  let over := (Z.of_nat (length hour) - messagesPerHour)%Z in
  let until := if (0 <=? over)%Z then Z.max now (default now (hour !! Z.to_nat over) + sendHour) else now in
  let until := waitLoop (total + recipients - recipientsPerDay) until day in
  Z.max (until - now) 1.

(** Which of the statements fail. *)
Inductive stmt := SPurge | SInsert | SCharged | SWait.

Inductive admit_answer := SendAdmitted | TooLarge | OverQuota (wait : Z) | DBError.

(** AdmitSend. *)
Definition admitSend (fails : stmt -> bool) (id user : gostr)
    (recipients messagesPerHour recipientsPerDay now : Z) (t : ledger) : admit_answer * ledger :=
  if fails SPurge then (DBError, t) else
  let t := purgeLedger user now t in
  if fails SInsert then (DBError, t) else
  let '(n, t) := insertSend id user recipients messagesPerHour recipientsPerDay now t in
  if (n =? 1)%Z then (SendAdmitted, t)
  else if fails SCharged then (DBError, t)
  else if charged id t then (SendAdmitted, t)
  else if (recipientsPerDay <? recipients)%Z then (TooLarge, t)
  else if fails SWait then (DBError, t)
  else (OverQuota (sendQuotaWait user recipients messagesPerHour recipientsPerDay now t), t).

(** ** The quota *)

Lemma sumRecipients_app t u : sumRecipients (t ++ u) = (sumRecipients t + sumRecipients u)%Z.
Proof. induction t as [|r t IH]; simpl; [done|]. rewrite IH. lia. Qed.

Lemma sumRecipients_perm t u : t ≡ₚ u -> sumRecipients t = sumRecipients u.
Proof. induction 1; simpl; lia. Qed.

Definition NonNeg (t : ledger) : Prop := Forall (fun r => (0 <= lRecipients r)%Z) t.

(** A narrower selection has fewer rows and fewer recipients. *)
Lemma filter_mono (p q : ledger_row -> bool) t :
  (forall r, p r = true -> q r = true) -> NonNeg t ->
  (length (List.filter p t) <= length (List.filter q t))%nat /\
  (sumRecipients (List.filter p t) <= sumRecipients (List.filter q t))%Z.
Proof.
  intros H. induction 1 as [|r t Hr _ [IH1 IH2]]; simpl; [lia|].
  destruct (p r) eqn:E; [rewrite (H r E); simpl; lia|]. destruct (q r); simpl; lia.
Qed.

(** In any window of an hour, resp. a day, that ends at or after the last row. *)
Definition QuotaOk (user : gostr) (messagesPerHour recipientsPerDay : Z) (t : ledger) : Prop :=
  NonNeg t /\ forall since,
  (Z.of_nat (length (List.filter (fun r => (lAt r <=? since + sendHour)%Z) (userSince user since t))) <= messagesPerHour)%Z /\
  (sumRecipients (List.filter (fun r => (lAt r <=? since + sendDay)%Z) (userSince user since t)) <= recipientsPerDay)%Z.

(** No row is later than the clock. *)
Definition Before (clock : Z) (t : ledger) : Prop := Forall (fun r => (lAt r <= clock)%Z) t.

Lemma filter_filter {A} (p q : A -> bool) l : List.filter p (List.filter q l) = List.filter (fun x => q x && p x) l.
Proof. induction l as [|x l IH]; simpl; [done|]. destruct (q x); simpl; [|done]. destruct (p x); by rewrite IH. Qed.

Lemma QuotaOk_filter user n m (p : ledger_row -> bool) t : QuotaOk user n m t -> QuotaOk user n m (List.filter p t).
Proof.
  intros [Hn H]. split.
  - unfold NonNeg in *. rewrite Forall_forall in *. intros r Hr. apply Hn. apply list_elem_of_In, filter_In in Hr as [Hr _].
    by apply list_elem_of_In.
  - intros since. destruct (H since) as [H1 H2]. unfold userSince in *. rewrite !filter_filter in *. split.
    + etrans; [|exact H1]. apply inj_le. apply filter_mono; [|done]. intros r Hr. rewrite !andb_true_iff in *. tauto.
    + etrans; [|exact H2]. apply filter_mono; [|done]. intros r Hr. rewrite !andb_true_iff in *. tauto.
Qed.

Lemma QuotaOk_insert user n m id user' recipients now t :
  QuotaOk user n m t -> Before now t -> (0 <= recipients)%Z ->
  QuotaOk user n m (insertSend id user' recipients n m now t).2.
Proof.
  intros [Hnn H] Hb Hr. unfold insertSend. destruct (_ && _) eqn:E; [|done]. to_prop. simpl. split.
  { apply Forall_app. split; [done|]. by constructor. }
  intros since. destruct (H since) as [Q1 Q2]. unfold userSince in *. rewrite !List.filter_app. simpl.
  destruct (user' =s? user) eqn:Eu; simpl; [|by rewrite !app_nil_r]. to_prop. subst user'.
  destruct (since <? now)%Z eqn:Es; simpl; [|by rewrite !app_nil_r]. to_prop.
  rewrite ?List.filter_app. simpl. rewrite !filter_filter in *. rewrite !sumRecipients_app, length_app. split.
  - destruct (now <=? since + sendHour)%Z eqn:Ew; simpl; [|rewrite Nat.add_0_r; done]. to_prop.
    enough (length (List.filter (fun x => (lUser x =s? user) && (since <? lAt x)%Z && (lAt x <=? since + sendHour)%Z) t)
      <= length (List.filter (fun x => (lUser x =s? user) && (now - sendDay <? lAt x)%Z && (now - sendHour <? lAt x)%Z) t))%nat by lia.
    apply filter_mono; [|done]. intros r Hx. to_prop. unfold sendDay, sendHour in *. rewrite !andb_true_iff, !Z.ltb_lt.
    split_and!; [by apply bool_decide_eq_true|lia|lia].
  - destruct (now <=? since + sendDay)%Z eqn:Ew; simpl; [|rewrite Z.add_0_r; done]. to_prop.
    enough (sumRecipients (List.filter (fun x => (lUser x =s? user) && (since <? lAt x)%Z && (lAt x <=? since + sendDay)%Z) t)
      <= sumRecipients (List.filter (fun x => (lUser x =s? user) && (now - sendDay <? lAt x)%Z) t))%Z by lia.
    apply filter_mono; [|done]. intros r Hx. to_prop. rewrite andb_true_iff, Z.ltb_lt.
    split; [by apply bool_decide_eq_true|lia].
Qed.

(** One statement of some caller, at a time not before the clock. *)
Inductive ledger_step (messagesPerHour recipientsPerDay : Z) : Z * ledger -> Z * ledger -> Prop :=
  | ls_purge clock now user t : (clock <= now)%Z ->
      ledger_step messagesPerHour recipientsPerDay (clock, t) (now, purgeLedger user now t)
  | ls_insert clock now id user recipients t : (clock <= now)%Z -> (0 <= recipients)%Z ->
      ledger_step messagesPerHour recipientsPerDay (clock, t)
        (now, (insertSend id user recipients messagesPerHour recipientsPerDay now t).2).

Lemma Before_le c c' t : (c <= c')%Z -> Before c t -> Before c' t.
Proof. intros H Hb. eapply Forall_impl; [exact Hb|]. simpl. lia. Qed.

Lemma ledger_step_ok user n m s s' :
  ledger_step n m s s' -> QuotaOk user n m s.2 /\ Before s.1 s.2 -> QuotaOk user n m s'.2 /\ Before s'.1 s'.2.
Proof.
  intros [clock now u t Hc|clock now id u rec t Hc Hr] [Hq Hb]; simpl in *; apply (Before_le _ now) in Hb; try done.
  - split; [by apply QuotaOk_filter|]. unfold Before, purgeLedger in *. rewrite Forall_forall in *. intros r Hin.
    apply Hb. apply list_elem_of_In, filter_In in Hin as [Hin _]. by apply list_elem_of_In.
  - split; [by apply QuotaOk_insert|]. unfold insertSend. destruct (_ && _); simpl; [|done].
    apply Forall_app. split; [done|]. by constructor.
Qed.


(** ** The wait *)

Lemma waitLoop_until excess until day :
  NonNeg day -> (until <= waitLoop excess until day)%Z.
Proof.
  intros Hn. revert excess until. induction Hn as [|r day _ _ IH]; intros excess until; simpl; [lia|].
  case_match; [lia|]. etrans; [|apply IH]. lia.
Qed.

(** When the loop has covered the excess, what is left of the window at its
    answer fits. *)
Lemma waitLoop_covers excess until day :
  NonNeg day -> (excess <= sumRecipients day)%Z ->
  (excess <= sumRecipients day
     - sumRecipients (List.filter (fun r => (waitLoop excess until day - sendDay <? lAt r)%Z) day))%Z.
Proof.
  intros Hn. revert excess until. induction Hn as [|r day Hr Hn IH]; intros excess until He; simpl in *; [lia|].
  assert (Hall : forall w, (sumRecipients (List.filter (fun r => (w <? lAt r)%Z) day) <= sumRecipients day)%Z).
  { intros w. clear -Hn. induction Hn as [|x l Hx _ IH]; simpl; [lia|]. case_match; simpl; lia. }
  destruct (excess <=? 0)%Z eqn:E; to_prop.
  - specialize (Hall (until - sendDay)%Z). case_match; simpl; lia.
  - pose proof (waitLoop_until (excess - lRecipients r) (Z.max until (lAt r + sendDay)) day Hn) as Hu.
    destruct (_ <? lAt r)%Z eqn:Ew; to_prop; [lia|].
    specialize (IH (excess - lRecipients r)%Z (Z.max until (lAt r + sendDay))). lia.
Qed.

Lemma NonNeg_perm t u : t ≡ₚ u -> NonNeg t -> NonNeg u.
Proof. unfold NonNeg. by intros ->. Qed.

Lemma NonNeg_filter p t : NonNeg t -> NonNeg (List.filter p t).
Proof.
  unfold NonNeg. rewrite !Forall_forall. intros H r Hr. apply list_elem_of_In, filter_In in Hr as [Hr _].
  apply H. by apply list_elem_of_In.
Qed.

Lemma filter_perm {A} (p : A -> bool) l k : l ≡ₚ k -> List.filter p l ≡ₚ List.filter p k.
Proof.
  induction 1 as [|x l k _ IH|x y l|l k j _ IH1 _ IH2]; simpl; [done| | |by etrans].
  - destruct (p x); by rewrite IH.
  - destruct (p x), (p y); try done. apply Permutation_swap.
Qed.

(** In a sorted list, the elements past the one at [i] are fewer than those
    from [i] on. *)
Lemma sorted_tail (hour : list Z) i x bound :
  Sorted Z.le hour -> hour !! i = Some x -> (x <= bound)%Z ->
  (length (List.filter (fun a => (bound <? a)%Z) hour) <= length hour - S i)%nat.
Proof.
  intros Hs. revert i. assert (Hss : StronglySorted Z.le hour) by (apply Sorted_StronglySorted; [intros ???; lia|done]).
  clear Hs. induction Hss as [|a hour Hs IH Ha]; intros i Hi Hx; [done|].
  destruct i as [|i]; simpl in Hi.
  - injection Hi as ->. simpl. rewrite (proj2 (Z.ltb_ge _ _) Hx). rewrite Nat.sub_0_r. apply filter_length_le.
  - simpl. assert (a <= x)%Z as Hax.
    { rewrite Forall_forall in Ha. apply Ha. by eapply list_elem_of_lookup_2. }
    rewrite (proj2 (Z.ltb_ge bound a)) by lia. by apply IH.
Qed.

Lemma fmap_filter_length {A} (f : A -> Z) (p : Z -> bool) (l : list A) :
  length (List.filter p (f <$> l)) = length (List.filter (fun x => p (f x)) l).
Proof. induction l as [|x l IH]; csimpl; [done|]. destruct (p (f x)); simpl; by rewrite IH. Qed.

Context {L : SortSliceLaws}.

Abbreviation dayRows user now t :=
  (sort_slice _ (fun a b => (lAt a <? lAt b)%Z) (userSince user (now - sendDay) t)).

Lemma dayRows_sorted user now t : Sorted Z.le (lAt <$> dayRows user now t).
Proof.
  assert (Sorted (fun a b => (lAt b <? lAt a)%Z = false) (dayRows user now t)) as Hs.
  { apply sort_slice_sorted; intros; to_prop; lia. }
  induction Hs as [|x l _ IH Hd]; csimpl; constructor; [done|].
  destruct Hd; csimpl; constructor. by to_prop.
Qed.

Lemma sorted_filter (p : Z -> bool) l : Sorted Z.le l -> Sorted Z.le (List.filter p l).
Proof.
  intros Hs. apply StronglySorted_Sorted. apply Sorted_StronglySorted in Hs; [|intros ???; lia].
  induction Hs as [|x l Hs IH Hx]; simpl; [constructor|]. destruct (p x); [|done]. constructor; [done|].
  rewrite Forall_forall in *. intros y Hy. apply list_elem_of_In, filter_In in Hy as [Hy _]. apply Hx. by apply list_elem_of_In.
Qed.

Lemma fmap_filter {A} (f : A -> Z) (p : Z -> bool) (l : list A) :
  f <$> List.filter (fun x => p (f x)) l = List.filter p (f <$> l).
Proof. induction l as [|x l IH]; csimpl; [done|]. destruct (p (f x)); csimpl; by rewrite IH. Qed.

(** Of the user's last day, the rows later than a given time. *)
Lemma dayRows_later user now since t :
  (now - sendDay <= since)%Z ->
  List.filter (fun r => (since <? lAt r)%Z) (dayRows user now t) ≡ₚ userSince user since t.
Proof.
  intros Hw. rewrite (filter_perm _ _ _ (sort_slice_perm _ _ _)). unfold userSince. rewrite filter_filter.
  match goal with |- ?a ≡ₚ ?b => replace b with a; [done|] end.
  induction t as [|r t IH]; simpl; [done|]. rewrite IH. destruct (lUser r =s? user); simpl; [|done].
  destruct (now - sendDay <? lAt r)%Z eqn:E1, (since <? lAt r)%Z eqn:E2; to_prop; try done; lia.
Qed.

Lemma dayRows_nonneg user now t : NonNeg t -> NonNeg (dayRows user now t).
Proof. intros H. eapply NonNeg_perm; [symmetry; apply sort_slice_perm|]. by apply NonNeg_filter. Qed.

(** At [now + wait] fewer than [n] messages are left in the hour, and the
    recipients left in the day leave room. *)
Lemma wait_hour user recipients n m now t w :
  NonNeg t -> (0 < n)%Z -> (now + sendQuotaWait user recipients n m now t <= w)%Z ->
  (Z.of_nat (length (userSince user (w - sendHour) t)) < n)%Z.
Proof.
  intros Hn Hpos Hw. unfold sendQuotaWait in Hw. cbv zeta in Hw. set (day := dayRows user now t) in *.
  set (hour := lAt <$> List.filter (fun r => (now - sendHour <? lAt r)%Z) day) in *.
  assert (Hhour : hour = List.filter (fun a => (now - sendHour <? a)%Z) (lAt <$> day))
    by apply (fmap_filter lAt (fun a => (now - sendHour <? a)%Z)).
  assert (Hdn : NonNeg day) by (by apply dayRows_nonneg).
  match type of Hw with context [waitLoop ?e ?u day] => pose proof (waitLoop_until e u day Hdn) as Hu end.
  rewrite <- (dayRows_later user now) by (unfold sendHour, sendDay in *; repeat case_match; lia).
  fold day. rewrite <- (fmap_filter_length lAt (fun a => (w - sendHour <? a)%Z)).
  assert (List.filter (fun a => (w - sendHour <? a)%Z) (lAt <$> day)
          = List.filter (fun a => (w - sendHour <? a)%Z) hour) as ->.
  { rewrite Hhour, filter_filter. apply filter_ext. intros a.
    destruct (w - sendHour <? a)%Z eqn:E1, (now - sendHour <? a)%Z eqn:E2; to_prop; try done.
    repeat case_match; lia. }
  destruct (0 <=? Z.of_nat (length hour) - n)%Z eqn:Eo; to_prop.
  - destruct (lookup_lt_is_Some_2 hour (Z.to_nat (Z.of_nat (length hour) - n))) as [x Hx]; [lia|].
    rewrite Hx in *. simpl in *.
    assert (length (List.filter (fun a => (w - sendHour <? a)%Z) hour) <= length hour - S (Z.to_nat (Z.of_nat (length hour) - n)))%nat.
    { apply (sorted_tail hour _ x); [|done|lia]. rewrite Hhour. apply sorted_filter, dayRows_sorted. }
    lia.
  - pose proof (filter_length_le (fun a => (w - sendHour <? a)%Z) hour). lia.
Qed.

Lemma wait_day user recipients n m now t w :
  NonNeg t -> (recipients <= m)%Z -> (now + sendQuotaWait user recipients n m now t <= w)%Z ->
  (sumRecipients (userSince user (w - sendDay) t) + recipients <= m)%Z.
Proof.
  intros Hn Hrec Hw. unfold sendQuotaWait in Hw. cbv zeta in Hw. set (day := dayRows user now t) in *.
  assert (Hdn : NonNeg day) by (by apply dayRows_nonneg).
  match type of Hw with context [waitLoop ?e ?u day] =>
    set (wl := waitLoop e u day) in *; pose proof (waitLoop_covers e u day Hdn) as Hc; fold wl in Hc end.
  rewrite <- (sumRecipients_perm _ _ (dayRows_later user now (w - sendDay) t ltac:(lia))). fold day.
  assert (sumRecipients (List.filter (fun r => (w - sendDay <? lAt r)%Z) day)
          <= sumRecipients (List.filter (fun r => (wl - sendDay <? lAt r)%Z) day))%Z.
  { apply filter_mono; [|done]. intros r Hr. to_prop. apply Z.ltb_lt. lia. }
  lia.
Qed.

(** The wait AdmitSend reports is enough: if it refuses a send for quota and
    nothing else is charged, the same send is admitted once that many seconds
    have passed. *)
Lemma quota_wait_is_enough (fails : stmt -> bool) (id user : gostr)
    (recipients messagesPerHour recipientsPerDay now wait : Z) (t t' : ledger) :
  NonNeg t -> (0 < messagesPerHour)%Z ->
  admitSend fails id user recipients messagesPerHour recipientsPerDay now t = (OverQuota wait, t') ->
  (0 < wait)%Z /\
  forall w, (now + wait <= w)%Z ->
    (insertSend id user recipients messagesPerHour recipientsPerDay w t').1 = 1%Z.
Proof.
  intros Hn Hpos H. unfold admitSend in H. destruct (fails SPurge); [done|]. destruct (fails SInsert); [done|].
  assert (Hn' : NonNeg (purgeLedger user now t)) by (by apply NonNeg_filter).
  assert (Hi : (exists t2, insertSend id user recipients messagesPerHour recipientsPerDay now (purgeLedger user now t) = (1%Z, t2))
    \/ insertSend id user recipients messagesPerHour recipientsPerDay now (purgeLedger user now t) = (0%Z, purgeLedger user now t)).
  { unfold insertSend. destruct (_ && _); eauto. }
  destruct Hi as [[t2 E]|E]; rewrite E in H; [done|]. simpl in H.
  destruct (fails SCharged); [done|]. destruct (charged id (purgeLedger user now t)) eqn:Ec; [done|].
  destruct (recipientsPerDay <? recipients)%Z eqn:Er; [done|]. destruct (fails SWait); [done|]. to_prop.
  injection H as <- <-. split; [unfold sendQuotaWait; lia|]. intros w Hw. unfold insertSend. rewrite Ec.
  pose proof (wait_hour user recipients _ _ now _ w Hn' Hpos Hw).
  pose proof (wait_day user recipients _ _ now _ w Hn' Er Hw).
  assert (Hlen : (length (List.filter (fun r => (w - sendHour <? lAt r)%Z) (userSince user (w - sendDay) (purgeLedger user now t)))
    <= length (userSince user (w - sendHour) (purgeLedger user now t)))%nat).
  { unfold userSince. rewrite filter_filter. apply filter_mono; [|done].
    intros r Hr. rewrite !andb_true_iff in *. tauto. }
  match goal with |- (if ?b then _ else _).1 = _ => assert (b = true) as -> end; [|done].
  rewrite !andb_true_iff, Z.ltb_lt, Z.leb_le. split_and!; [lia|done|done].
Qed.

End Ledger.
