(* ===== verification/ScheduledSends.v ===== *)
(** * ScheduledSends: the scheduled-mail table (backend/internal/state/scheduled_sends.go)

    The table scheduled_sends is a list of rows; every method is one SQL
    statement, so one atomic step, whatever processes share the database.
    [sealed = None] is SQL NULL.  ORDER BY leaves ties open: the claim takes the
    head of some sort of the due rows. *)

From S2P Require Import Prelude GoText.

Record sched := mkSched {
  schID : gostr;
  schUser : gostr;
  schMailbox : gostr;
  schStatus : gostr;
  schReason : gostr;
  SendAt : Z;
  schCreatedAt : Z;
  ReturningSince : Z;
  NextAttempt : Z;
  Sealed : option (list Z);
  Summary : list Z;
}.
Abbreviation schedTable := (list sched).

Definition ScheduledWaiting : gostr := $"scheduled".
Definition ScheduledSending : gostr := $"sending".
Definition ScheduledReturning : gostr := $"returning".

Definition scheduledFinal (status : gostr) : bool :=
  negb (status =s? ScheduledWaiting) && negb (status =s? ScheduledSending) && negb (status =s? ScheduledReturning).

Definition sealedLen (s : option (list Z)) : Z := match s with Some b => Z.of_nat (length b) | None => 0 end.

(** The pending rows of a user: their number and their sealed bytes. *)
Definition pendingOf (user : gostr) (t : schedTable) : schedTable :=
  List.filter (fun r => (schUser r =s? user) && negb (scheduledFinal (schStatus r))) t.
Definition sealedBytes (t : schedTable) : Z := foldr (fun r n => sealedLen (Sealed r) + n)%Z 0%Z t.

Inductive add_answer := AddOk | ErrScheduledFull | AddConflict.

(** AddScheduledSend: the INSERT fails on a repeated primary key. *)
Definition addScheduledSend (r : sched) (limit maxBytes : Z) (t : schedTable) : add_answer * schedTable :=
  let pending := pendingOf (schUser r) t in
  if (Z.of_nat (length pending) <? limit)%Z && (sealedBytes pending + sealedLen (Sealed r) <=? maxBytes)%Z then
    if existsb (fun x => schID x =s? schID r) t then (AddConflict, t)
    else (AddOk, t ++ [mkSched (schID r) (schUser r) (schMailbox r) ScheduledWaiting [] (SendAt r) (schCreatedAt r)
                         0 0 (Sealed r) (Summary r)])
  else (ErrScheduledFull, t).

Definition setStatus (status : gostr) (r : sched) : sched :=
  mkSched (schID r) (schUser r) (schMailbox r) status (schReason r) (SendAt r) (schCreatedAt r)
    (ReturningSince r) (NextAttempt r) (Sealed r) (Summary r).

Section Scheduled.
Context {SS : SortSlice}.

(** The rows ClaimScheduledSend may take at [now]. *)
Definition due (now : Z) (t : schedTable) : schedTable :=
  let busy := schUser <$> List.filter (fun r => schStatus r =s? ScheduledSending) t in
  List.filter (fun r => (schStatus r =s? ScheduledWaiting) && (SendAt r <=? now)%Z && (NextAttempt r <=? now)%Z
                        && negb (bool_decide (schUser r ∈ busy))) t.
Definition claimLess (a b : sched) : bool :=
  (NextAttempt a <? NextAttempt b)%Z || ((NextAttempt a =? NextAttempt b)%Z && (SendAt a <? SendAt b)%Z).

Definition claimScheduledSend (now : Z) (t : schedTable) : option sched * schedTable :=
  match sort_slice _ claimLess (due now t) with
  | [] => (None, t)
  | r :: _ =>
      (Some (setStatus ScheduledSending r),
       (fun x => if (schID x =s? schID r) && (schStatus x =s? ScheduledWaiting) then setStatus ScheduledSending x else x) <$> t)
  end.

(** The SET clause of MoveScheduledSend; [clock] is unixepoch(). *)
Definition moved (from to reason : gostr) (nextAttempt clock : Z) (r : sched) : sched :=
  mkSched (schID r) (schUser r) (schMailbox r) to reason (SendAt r) (schCreatedAt r)
    (if (to =s? ScheduledReturning) && negb (from =s? ScheduledReturning) then clock else ReturningSince r)
    nextAttempt (if scheduledFinal to then None else Sealed r) (Summary r).

Definition moveScheduledSend (id from to reason : gostr) (nextAttempt clock : Z) (t : schedTable) : bool * schedTable :=
  let hit r := (schID r =s? id) && (schStatus r =s? from) in
  ((length (List.filter hit t) =? 1)%nat, (fun r => if hit r then moved from to reason nextAttempt clock r else r) <$> t).

Definition ScheduledInterrupted : gostr :=
  $"the server stopped while sending; check with your recipients before sending again".
Definition ScheduledRestored : gostr := $"restored from a backup; review it and send again".

Definition interrupted (r : sched) : sched :=
  if schStatus r =s? ScheduledSending
  then mkSched (schID r) (schUser r) (schMailbox r) ($"uncertain") ScheduledInterrupted (SendAt r) (schCreatedAt r)
         (ReturningSince r) (NextAttempt r) None (Summary r)
  else r.
Definition interruptScheduledSends (t : schedTable) : schedTable := interrupted <$> t.

Definition hasScheduledWork (t : schedTable) : bool :=
  existsb (fun r => (schStatus r =s? ScheduledWaiting) || (schStatus r =s? ScheduledReturning)) t.

Definition pruneScheduledSends (before : Z) (t : schedTable) : schedTable :=
  List.filter (fun r => negb ((schCreatedAt r <? before)%Z && scheduledFinal (schStatus r))) t.

Definition getScheduledSend (id : gostr) (t : schedTable) : option sched := find_first (fun r => schID r =s? id) t.

(** FenceRestoredScheduledSends on a database that has the table: two
    statements, of which the second may not run. *)
Definition restored (r : sched) : sched :=
  if schStatus r =s? ScheduledWaiting
  then mkSched (schID r) (schUser r) (schMailbox r) ScheduledReturning ScheduledRestored (SendAt r) (schCreatedAt r)
         (ReturningSince r) 0 (Sealed r) (Summary r)
  else r.
Definition fenceRestoredScheduledSends (second : bool) (t : schedTable) : schedTable :=
  let t := restored <$> t in if second then interruptScheduledSends t else t.

(** ** Runs *)

Inductive sched_op :=
  | SAdd (r : sched)
  | SClaim (now : Z)
  | SMove (id from to reason : gostr) (nextAttempt clock : Z)
  | SInterrupt
  | SPrune (before : Z)
  | SFence (second : bool).

Inductive sched_answer := ANothing | AClaimed (r : option sched) | AMoved (ok : bool) | AAdded (a : add_answer).

Definition runSched (limit maxBytes : Z) (o : sched_op) (t : schedTable) : sched_answer * schedTable :=
  match o with
  | SAdd r => let '(a, t) := addScheduledSend r limit maxBytes t in (AAdded a, t)
  | SClaim now => let '(a, t) := claimScheduledSend now t in (AClaimed a, t)
  | SMove id from to reason next clock => let '(a, t) := moveScheduledSend id from to reason next clock t in (AMoved a, t)
  | SInterrupt => (ANothing, interruptScheduledSends t)
  | SPrune before => (ANothing, pruneScheduledSends before t)
  | SFence second => (ANothing, fenceRestoredScheduledSends second t)
  end.

(** The calls the server makes: it adds sealed jobs, and moves only rows out of
    a pending status and never into sending, which is the claim's. *)
Definition Legal (o : sched_op) : Prop :=
  match o with
  | SAdd r => is_Some (Sealed r)
  | SMove _ from to _ _ _ => scheduledFinal from = false /\ to ≠ ScheduledSending
  | _ => True
  end.

Definition sending (t : schedTable) : list gostr :=
  schUser <$> List.filter (fun r => schStatus r =s? ScheduledSending) t.

Definition SchedOk (limit maxBytes : Z) (t : schedTable) : Prop :=
  NoDup (schID <$> t) /\
  NoDup (sending t) /\
  Forall (fun r => Sealed r = None <-> scheduledFinal (schStatus r) = true) t /\
  forall user, (Z.of_nat (length (pendingOf user t)) <= limit)%Z /\ (sealedBytes (pendingOf user t) <= maxBytes)%Z.

(** A rewriting of the rows that keeps identities, never enters sending and
    never leaves a final status. *)
Definition Tame (f : sched -> sched) : Prop :=
  forall r, schID (f r) = schID r /\ schUser (f r) = schUser r /\
    (schStatus (f r) = ScheduledSending -> schStatus r = ScheduledSending) /\
    (scheduledFinal (schStatus r) = true -> f r = r) /\
    ((Sealed r = None <-> scheduledFinal (schStatus r) = true) ->
     (Sealed (f r) = None <-> scheduledFinal (schStatus (f r)) = true)) /\
    (scheduledFinal (schStatus (f r)) = false -> Sealed (f r) = Sealed r).

Lemma sealedLen_nonneg s : (0 <= sealedLen s)%Z.
Proof. destruct s; simpl; lia. Qed.

Lemma sublist_pending user (t u : schedTable) : t `sublist_of` u ->
  (length (pendingOf user t) <= length (pendingOf user u))%nat /\
  (sealedBytes (pendingOf user t) <= sealedBytes (pendingOf user u))%Z.
Proof.
  induction 1 as [|r t u _ [IH1 IH2]|r t u _ [IH1 IH2]]; simpl; [lia|..].
  - destruct (_ && _); simpl; lia.
  - pose proof (sealedLen_nonneg (Sealed r)). destruct (_ && _); simpl; lia.
Qed.

Lemma tame_pending f user t : Tame f ->
  (length (pendingOf user (f <$> t)) <= length (pendingOf user t))%nat /\
  (sealedBytes (pendingOf user (f <$> t)) <= sealedBytes (pendingOf user t))%Z.
Proof.
  intros Hf. induction t as [|r t [IH1 IH2]]; csimpl; [lia|]. destruct (Hf r) as (_ & Hu & _ & Hfin & _ & Hs).
  unfold pendingOf in *. simpl. rewrite Hu. destruct (schUser r =s? user); simpl; [|done].
  pose proof (sealedLen_nonneg (Sealed r)).
  destruct (scheduledFinal (schStatus r)) eqn:E1; [rewrite (Hfin eq_refl), E1; simpl; done|].
  destruct (scheduledFinal (schStatus (f r))) eqn:E2; simpl; [lia|]. rewrite (Hs eq_refl). lia.
Qed.

Lemma tame_sending f t : Tame f -> sending (f <$> t) `sublist_of` sending t.
Proof.
  intros Hf. unfold sending. induction t as [|r t IH]; csimpl; [done|]. destruct (Hf r) as (_ & Hu & Hse & _).
  destruct (schStatus (f r) =s? ScheduledSending) eqn:E1; to_prop.
  - rewrite (bool_decide_eq_true_2 _ (Hse E1)). csimpl. rewrite Hu. by constructor.
  - destruct (schStatus r =s? ScheduledSending); csimpl; [by constructor|done].
Qed.

Lemma SchedOk_tame limit maxBytes f t : Tame f -> SchedOk limit maxBytes t -> SchedOk limit maxBytes (f <$> t).
Proof.
  intros Hf (H1 & H2 & H3 & H4). split_and!.
  - assert (schID <$> (f <$> t) = schID <$> t) as ->; [|done].
    rewrite <- list_fmap_compose. apply list_fmap_ext. intros i r _. apply Hf.
  - eapply sublist_NoDup; [|by apply tame_sending]. done.
  - apply Forall_fmap. eapply Forall_impl; [exact H3|]. intros r Hr. by apply Hf.
  - intros user. destruct (H4 user), (tame_pending f user t Hf). lia.
Qed.

Lemma moved_tame id from to reason next clock :
  Legal (SMove id from to reason next clock) ->
  Tame (fun r => if (schID r =s? id) && (schStatus r =s? from) then moved from to reason next clock r else r).
Proof.
  intros [Hfrom Hto] r. destruct (_ && _) eqn:E; [|by split_and!]. to_prop. subst. simpl.
  split_and!; try done.
  - intros Hf. congruence.
  - intros [H1 _]. destruct (scheduledFinal to) eqn:Et; [split; done|]. split; [|done].
    intros Hs. apply H1 in Hs. congruence.
  - intros Hf. by rewrite Hf.
Qed.

Lemma interrupted_tame : Tame interrupted.
Proof.
  intros r. unfold interrupted. destruct (_ =s? _) eqn:E; to_prop; [|by split_and!]. simpl. split_and!; try done.
  intros Hf. by rewrite E in Hf.
Qed.

Lemma restored_tame : Tame restored.
Proof.
  intros r. unfold restored. destruct (_ =s? _) eqn:E; to_prop; [|by split_and!]. simpl. split_and!; try done.
  - intros Hf. by rewrite E in Hf.
  - rewrite E. intros [H1 H2]. split; [intros Hs; by apply H1 in Hs|done].
Qed.

Lemma SchedOk_sublist limit maxBytes t u : u `sublist_of` t -> SchedOk limit maxBytes t -> SchedOk limit maxBytes u.
Proof.
  intros Hs (H1 & H2 & H3 & H4). split_and!.
  - eapply sublist_NoDup; [|by apply fmap_sublist]. done.
  - eapply sublist_NoDup; [exact H2|]. unfold sending. apply fmap_sublist. clear -Hs.
    induction Hs as [|r u t _ IH|r u t _ IH]; simpl; [done|..];
      destruct (_ =s? _); first [by constructor|done].
  - rewrite Forall_forall in *. intros r Hr. apply H3. by eapply sublist_subseteq.
  - intros user. destruct (H4 user), (sublist_pending user u t Hs). lia.
Qed.

Lemma sending_app t u : sending (t ++ u) = sending t ++ sending u.
Proof. unfold sending. by rewrite List.filter_app, fmap_app. Qed.

Lemma sealedBytes_app t u : sealedBytes (t ++ u) = (sealedBytes t + sealedBytes u)%Z.
Proof. induction t as [|r t IH]; simpl; [done|]. rewrite IH. lia. Qed.

(** The claim changes one row, of a user with none in sending. *)
Lemma claim_effect {L : SortSliceLaws} now t r t' :
  NoDup (schID <$> t) -> claimScheduledSend now t = (Some r, t') ->
  exists t1 r0 t2, t = t1 ++ r0 :: t2 /\ t' = t1 ++ r :: t2 /\ r = setStatus ScheduledSending r0 /\
    schStatus r0 = ScheduledWaiting /\ schUser r0 ∉ sending t /\ (SendAt r0 <= now)%Z /\ (NextAttempt r0 <= now)%Z.
Proof.
  intros Hn. unfold claimScheduledSend. destruct (sort_slice _ claimLess (due now t)) as [|r0 rest] eqn:E; [done|].
  intros [= <- <-].
  assert (Hin : r0 ∈ due now t).
  { rewrite <- (sort_slice_perm _ claimLess (due now t)), E. left. }
  unfold due in Hin. apply list_elem_of_In, filter_In in Hin as [Hin Hd]. apply list_elem_of_In in Hin. to_prop.
  apply list_elem_of_split in Hin as (t1 & t2 & ->). exists t1, r0, t2. split_and!; try done.
  rewrite fmap_app, fmap_cons in Hn. apply NoDup_app in Hn as (_ & Hx & [Hy _]%NoDup_cons).
  assert (Hid : forall l : list sched, schID r0 ∉ (schID <$> l) ->
    (fun x => if (schID x =s? schID r0) && (schStatus x =s? ScheduledWaiting) then setStatus ScheduledSending x else x) <$> l = l).
  { clear. induction l as [|x l IH]; csimpl; [done|]. intros H. apply not_elem_of_cons in H as [Hne H].
    rewrite bool_decide_eq_false_2 by done. simpl. by rewrite IH. }
  rewrite fmap_app, fmap_cons, !Hid; [|done|].
  - rewrite !bool_decide_eq_true_2 by done. done.
  - intros Hin. apply (Hx _ Hin). left.
Qed.

Lemma SchedOk_claim {L : SortSliceLaws} limit maxBytes now t :
  SchedOk limit maxBytes t -> SchedOk limit maxBytes (claimScheduledSend now t).2.
Proof.
  intros (H1 & H2 & H3 & H4). destruct (claimScheduledSend now t) as [[r|] t'] eqn:E.
  2: { unfold claimScheduledSend in E. destruct (sort_slice _ _ _); [|done]. injection E as <-. by split_and!. }
  destruct (claim_effect now t r t' H1 E) as (t1 & r0 & t2 & -> & -> & -> & Hw & Hbusy & _). simpl.
  unfold SchedOk, pendingOf in *. split_and!.
  - rewrite fmap_app, fmap_cons in *. done.
  - rewrite sending_app in *. assert (sending (r0 :: t2) = sending t2) as Hs by (unfold sending; simpl; by rewrite Hw).
    rewrite Hs in *. apply NoDup_app in H2 as (Ha & Hb & Hc). apply not_elem_of_app in Hbusy as [Hu1 Hu2].
    change (sending (setStatus ScheduledSending r0 :: t2)) with (schUser r0 :: sending t2).
    apply NoDup_app. split_and!; [done| |by constructor]. intros x Hx1 [->|Hx2]%elem_of_cons; [done|]. by eapply Hb.
  - apply Forall_app in H3 as [Ha [Hr Hb]%Forall_cons]. apply Forall_app. split; [done|]. constructor; [|done].
    simpl. rewrite Hw in Hr. exact Hr.
  - intros user. specialize (H4 user). rewrite List.filter_app in *. simpl in *. rewrite Hw in *. simpl in *.
    destruct (schUser r0 =s? user); simpl in *; [|done]. rewrite length_app in *. simpl in *.
    rewrite sealedBytes_app in *. simpl in *. lia.
Qed.

Lemma SchedOk_add limit maxBytes r t :
  is_Some (Sealed r) -> SchedOk limit maxBytes t -> SchedOk limit maxBytes (addScheduledSend r limit maxBytes t).2.
Proof.
  intros [b Hb] (H1 & H2 & H3 & H4). unfold addScheduledSend. destruct (_ && _) eqn:E; [|by split_and!].
  destruct (existsb _ t) eqn:Ee; [by split_and!|]. to_prop. simpl. unfold SchedOk, sending, pendingOf in *. split_and!.
  - rewrite fmap_app. simpl. apply NoDup_app. split_and!; [done| |apply NoDup_singleton].
    intros x Hx ->%list_elem_of_singleton. apply list_elem_of_fmap in Hx as (y & Hy & Hin).
    apply not_true_iff_false in Ee. apply Ee, existsb_exists. exists y. split; [by apply list_elem_of_In|].
    by apply bool_decide_eq_true.
  - rewrite List.filter_app. simpl. by rewrite app_nil_r.
  - apply Forall_app. split; [done|]. constructor; [|done]. simpl. rewrite Hb. by split.
  - intros user. destruct (H4 user). rewrite List.filter_app. simpl.
    destruct (schUser r =s? user) eqn:Eu; simpl; [|by rewrite app_nil_r]. to_prop. subst user.
    rewrite length_app, sealedBytes_app. simpl. lia.
Qed.

Lemma runSched_ok {L : SortSliceLaws} limit maxBytes o t :
  Legal o -> SchedOk limit maxBytes t -> SchedOk limit maxBytes (runSched limit maxBytes o t).2.
Proof.
  intros Hl Ht. destruct o as [r|now|id from to reason next clock| |before|second]; simpl.
  - pose proof (SchedOk_add limit maxBytes r t Hl Ht). by destruct (addScheduledSend r limit maxBytes t).
  - pose proof (SchedOk_claim limit maxBytes now t Ht). by destruct (claimScheduledSend now t).
  - apply SchedOk_tame; [by eapply moved_tame|done].
  - apply SchedOk_tame; [apply interrupted_tame|done].
  - eapply SchedOk_sublist; [|done]. apply filter_sublist.
  - unfold fenceRestoredScheduledSends.
    pose proof (SchedOk_tame limit maxBytes restored t restored_tame Ht). destruct second; [|done].
    apply SchedOk_tame; [apply interrupted_tame|done].
Qed.

(** The scheduled-mail table, after any run of the server's calls: row IDs
    are distinct, at most one message per user is being sent, exactly the final
    rows hold no sealed job, and no user has more pending rows or more pending
    sealed bytes than the limits given to AddScheduledSend. *)
Lemma scheduled_invariant {L : SortSliceLaws} (limit maxBytes : Z) (tr : list sched_op) :
  (0 <= limit)%Z -> (0 <= maxBytes)%Z -> Forall Legal tr ->
  SchedOk limit maxBytes (run_trace (runSched limit maxBytes) tr []).2.
Proof.
  intros Hl Hm Htr. assert (SchedOk limit maxBytes []) as H0.
  { split_and!; try constructor; simpl; lia. }
  revert H0. generalize (@nil sched). induction Htr as [|o tr Ho _ IH]; intros t Ht; simpl; [done|].
  pose proof (runSched_ok limit maxBytes o t Ho Ht) as Ht'. destruct (runSched limit maxBytes o t) as [a t'].
  specialize (IH t' Ht'). by destruct (run_trace (runSched limit maxBytes) tr t').
Qed.

(** ** No message is sent twice *)

Definition claims (id : gostr) (o : sched_op) (a : sched_answer) : bool :=
  match a with AClaimed (Some r) => schID r =s? id | _ => false end.

(** The call does not put the message back in the waiting queue. *)
Definition NoRequeue (id : gostr) (o : sched_op) : Prop :=
  Legal o /\
  match o with
  | SAdd r => schID r ≠ id
  | SMove id' _ to _ _ _ => id' = id -> to ≠ ScheduledWaiting
  | _ => True
  end.

Definition waiting (id : gostr) (t : schedTable) : Z :=
  Z.of_nat (length (List.filter (fun r => (schID r =s? id) && (schStatus r =s? ScheduledWaiting)) t)).

Lemma waiting_app id t u : waiting id (t ++ u) = (waiting id t + waiting id u)%Z.
Proof. unfold waiting. rewrite List.filter_app, length_app. lia. Qed.

Lemma waiting_fmap id f t :
  (forall r, schID (f r) = schID r /\ (schID r = id -> schStatus (f r) = ScheduledWaiting -> schStatus r = ScheduledWaiting)) ->
  (waiting id (f <$> t) <= waiting id t)%Z.
Proof.
  intros Hf. unfold waiting. induction t as [|r t IH]; csimpl; [lia|]. destruct (Hf r) as [-> Hs].
  destruct (schID r =s? id) eqn:E; simpl; [|lia]. to_prop.
  destruct (schStatus (f r) =s? ScheduledWaiting) eqn:E1; to_prop; simpl.
  - rewrite (bool_decide_eq_true_2 _ (Hs E E1)). simpl. lia.
  - destruct (schStatus r =s? ScheduledWaiting); simpl; lia.
Qed.

Lemma waiting_step {L : SortSliceLaws} limit maxBytes id o t :
  NoRequeue id o -> SchedOk limit maxBytes t ->
  (waiting id (runSched limit maxBytes o t).2 + (if claims id o (runSched limit maxBytes o t).1 then 1 else 0) <= waiting id t)%Z.
Proof.
  intros [Hl Ho] (Hn & _). destruct o as [r|now|id' from to reason next clock| |before|second]; simpl in *.
  - unfold addScheduledSend. destruct (_ && _); simpl; [|lia]. destruct (existsb _ t); simpl; [lia|].
    rewrite waiting_app. unfold waiting at 2. simpl. rewrite bool_decide_eq_false_2 by done. simpl. lia.
  - destruct (claimScheduledSend now t) as [[r|] t'] eqn:E; simpl.
    + destruct (claim_effect now t r t' Hn E) as (t1 & r0 & t2 & -> & -> & -> & Hw & _). rewrite !waiting_app.
      unfold waiting. simpl. rewrite Hw. destruct (schID r0 =s? id); simpl; lia.
    + unfold claimScheduledSend in E. destruct (sort_slice _ _ _); [|done]. injection E as <-. lia.
  - rewrite Z.add_0_r. apply waiting_fmap. intros r. destruct (_ && _) eqn:E; [|by split]. to_prop. simpl.
    split; [done|]. intros Hid Hto. exfalso. apply Ho; congruence.
  - rewrite Z.add_0_r. apply waiting_fmap. intros r. unfold interrupted. destruct (_ =s? _); split; done.
  - rewrite Z.add_0_r. unfold waiting, pruneScheduledSends. clear. induction t as [|r t IH]; simpl; [lia|].
    destruct (negb _); simpl; destruct (_ && _); simpl; lia.
  - rewrite Z.add_0_r. unfold fenceRestoredScheduledSends, interruptScheduledSends.
    assert (waiting id (restored <$> t) <= waiting id t)%Z.
    { apply waiting_fmap. intros r. unfold restored. destruct (_ =s? _) eqn:E; split; done. }
    destruct second; [|done]. etrans; [|done]. apply waiting_fmap. intros r. unfold interrupted.
    destruct (_ =s? _); split; done.
Qed.

(** A scheduled message is handed to a worker at most once: in any run of
    the server's calls that does not put it back in the waiting queue, whatever
    other rows do and however many workers claim, at most one claim returns it;
    after an interrupted send or a restore none does. *)
Lemma claimed_at_most_once {L : SortSliceLaws} (limit maxBytes : Z) (tr : list sched_op) (t : schedTable) (id : gostr) :
  SchedOk limit maxBytes t -> Forall (NoRequeue id) tr ->
  (count_log (claims id) (run_trace (runSched limit maxBytes) tr t).1 <= 1)%Z /\
  ((forall r, r ∈ t -> schID r = id -> schStatus r ≠ ScheduledWaiting) ->
   count_log (claims id) (run_trace (runSched limit maxBytes) tr t).1 <= 0)%Z.
Proof.
  intros Ht Htr.
  assert (count_log (claims id) (run_trace (runSched limit maxBytes) tr t).1 <= waiting id t)%Z as H.
  { apply (run_trace_bound (runSched limit maxBytes) _ (NoRequeue id) (SchedOk limit maxBytes)); [| |done|done].
    - intros s. unfold waiting. lia.
    - intros o s Ho Hs. split; [apply runSched_ok; [by destruct Ho|done]|by apply waiting_step]. }
  split.
  - etrans; [exact H|]. destruct Ht as [Hn _]. unfold waiting. clear -Hn. induction t as [|r t IH]; simpl; [lia|].
    rewrite fmap_cons in Hn. apply NoDup_cons in Hn as [Hr Hn]. destruct (_ && _) eqn:E; [|by apply IH]. to_prop. subst id.
    assert (List.filter (fun x => (schID x =s? schID r) && (schStatus x =s? ScheduledWaiting)) t = []) as ->; [|simpl; lia].
    clear -Hr. induction t as [|x t IH]; simpl; [done|]. rewrite fmap_cons in Hr. apply not_elem_of_cons in Hr as [Hne Hr].
    rewrite bool_decide_eq_false_2 by done. simpl. by apply IH.
  - intros Hno. etrans; [exact H|]. unfold waiting. clear -Hno. induction t as [|r t IH]; simpl; [lia|].
    destruct (_ && _) eqn:E; [|apply IH; intros x Hx; apply Hno; by right]. to_prop. exfalso.
    by apply (Hno r); [left|..].
Qed.

End Scheduled.
