(* ===== verification/ContactsModel.v ===== *)
(** * ContactsModel: address book entries (backend/internal/contacts/contacts.go)

    The [Contact] record with the source's fields, the field assignments the
    store makes, [tombstone], the entity tag, and the OpenPGP library the store
    calls (github.com/ProtonMail/gopenpgp) as the class [OpenPGP]. *)

From S2P Require Import Prelude GoText.

Definition PGPSourceManual : gostr := $"manual".
Definition PGPSourceQR : gostr := $"qr".
Definition PGPSourceWKD : gostr := $"wkd".
Definition PGPSourceKeyserver : gostr := $"keyserver".
Definition PGPSourceAutocrypt : gostr := $"autocrypt".

Definition etagForRev (rev : Z) : gostr := $"rev-" ++ formatInt rev.

Record ContactValue := mkContactValue { cvLabel : gostr; cvValue : gostr }.
Record ContactAddress := mkContactAddress {
  caLabel : gostr; Street : gostr; City : gostr; Region : gostr; PostalCode : gostr; Country : gostr;
}.
Record ContactIM := mkContactIM { imService : gostr; imLabel : gostr; imValue : gostr }.
Record ContactURL := mkContactURL { urlLabel : gostr; urlValue : gostr }.
Record ContactRelation := mkContactRelation { relLabel : gostr; relName : gostr }.
Record ContactEvent := mkContactEvent { evLabel : gostr; evDate : gostr }.
Record ContactCustomField := mkContactCustomField { cfLabel : gostr; cfValue : gostr }.

#[export] Instance ContactAddress_eq_dec : EqDecision ContactAddress.
Proof. solve_decision. Defined.
#[export] Instance ContactIM_eq_dec : EqDecision ContactIM.
Proof. solve_decision. Defined.
#[export] Instance ContactURL_eq_dec : EqDecision ContactURL.
Proof. solve_decision. Defined.
#[export] Instance ContactRelation_eq_dec : EqDecision ContactRelation.
Proof. solve_decision. Defined.
#[export] Instance ContactEvent_eq_dec : EqDecision ContactEvent.
Proof. solve_decision. Defined.
#[export] Instance ContactCustomField_eq_dec : EqDecision ContactCustomField.
Proof. solve_decision. Defined.

Record Contact := mkContact {
  UID : gostr;
  Rev : Z;
  Deleted : bool;
  CreatedAt : gostr;
  UpdatedAt : gostr;
  IsSelf : bool;
  FormattedName : gostr;
  GivenName : gostr;
  FamilyName : gostr;
  MiddleName : gostr;
  Prefix : gostr;
  Suffix : gostr;
  Nickname : gostr;
  Org : gostr;
  Title : gostr;
  Emails : list ContactValue;
  Phones : list ContactValue;
  Addresses : list ContactAddress;
  Notes : gostr;
  Birthday : gostr;
  PhotoRef : gostr;
  GroupIDs : list gostr;
  PGPKey : gostr;
  PGPKeySource : gostr;
  PGPKeyFingerprint : gostr;
  PGPKeyVerified : bool;
  PGPKeyAutocryptDate : gostr;
  IMs : list ContactIM;
  Websites : list ContactURL;
  Relations : list ContactRelation;
  Events : list ContactEvent;
  PhoneticGivenName : gostr;
  PhoneticFamilyName : gostr;
  Department : gostr;
  CustomFields : list ContactCustomField;
  Pronouns : gostr;
  PGPKeyRemovedAutocrypt : gostr;
  MergedUIDs : list gostr;
  MergedInto : gostr;
  DiscoveryCreated : bool;
}.

Definition Contact_eta (c : Contact) : Contact :=
  mkContact (UID c) (Rev c) (Deleted c) (CreatedAt c) (UpdatedAt c) (IsSelf c) (FormattedName c) (GivenName c)
    (FamilyName c) (MiddleName c) (Prefix c) (Suffix c) (Nickname c) (Org c) (Title c) (Emails c) (Phones c)
    (Addresses c) (Notes c) (Birthday c) (PhotoRef c) (GroupIDs c) (PGPKey c) (PGPKeySource c)
    (PGPKeyFingerprint c) (PGPKeyVerified c) (PGPKeyAutocryptDate c) (IMs c) (Websites c) (Relations c) (Events c)
    (PhoneticGivenName c) (PhoneticFamilyName c) (Department c) (CustomFields c) (Pronouns c)
    (PGPKeyRemovedAutocrypt c) (MergedUIDs c) (MergedInto c) (DiscoveryCreated c).

(** The zero value [Contact{}]. *)
Definition zeroContact : Contact :=
  mkContact [] 0 false [] [] false [] [] [] [] [] [] [] [] [] [] [] [] [] [] [] [] [] [] [] false [] [] [] [] []
    [] [] [] [] [] [] [] [] false.

(** Field assignments [c.F = v]. *)
Definition setUID (v : gostr) : Contact -> Contact := ltac:(setter_of Contact_eta UID v).
Definition setRev (v : Z) : Contact -> Contact := ltac:(setter_of Contact_eta Rev v).
Definition setDeleted (v : bool) : Contact -> Contact := ltac:(setter_of Contact_eta Deleted v).
Definition setCreatedAt (v : gostr) : Contact -> Contact := ltac:(setter_of Contact_eta CreatedAt v).
Definition setUpdatedAt (v : gostr) : Contact -> Contact := ltac:(setter_of Contact_eta UpdatedAt v).
Definition setIsSelf (v : bool) : Contact -> Contact := ltac:(setter_of Contact_eta IsSelf v).
Definition setPhoto (v : gostr) : Contact -> Contact := ltac:(setter_of Contact_eta PhotoRef v).
Definition setPGPKey (v : gostr) : Contact -> Contact := ltac:(setter_of Contact_eta PGPKey v).
Definition setPGPKeySource (v : gostr) : Contact -> Contact := ltac:(setter_of Contact_eta PGPKeySource v).
Definition setPGPKeyFingerprint (v : gostr) : Contact -> Contact :=
  ltac:(setter_of Contact_eta PGPKeyFingerprint v).
Definition setPGPKeyVerified (v : bool) : Contact -> Contact := ltac:(setter_of Contact_eta PGPKeyVerified v).
Definition setPGPKeyAutocryptDate (v : gostr) : Contact -> Contact :=
  ltac:(setter_of Contact_eta PGPKeyAutocryptDate v).
Definition setPGPKeyRemovedAutocrypt (v : gostr) : Contact -> Contact :=
  ltac:(setter_of Contact_eta PGPKeyRemovedAutocrypt v).
Definition setMergedInto (v : gostr) : Contact -> Contact := ltac:(setter_of Contact_eta MergedInto v).
Definition setDiscoveryCreated (v : bool) : Contact -> Contact := ltac:(setter_of Contact_eta DiscoveryCreated v).

Definition contactETag (c : Contact) : gostr := etagForRev (Rev c).

Definition tombstone (c : Contact) : Contact := {|
  UID := UID c; Rev := Rev c; Deleted := true; CreatedAt := CreatedAt c; UpdatedAt := UpdatedAt c;
  IsSelf := false;
  FormattedName := []; GivenName := []; FamilyName := []; MiddleName := []; Prefix := []; Suffix := [];
  Nickname := []; Org := []; Title := [];
  Emails := []; Phones := []; Addresses := [];
  Notes := []; Birthday := []; PhotoRef := []; GroupIDs := [];
  PGPKey := [];
  PGPKeySource := PGPKeySource c; PGPKeyFingerprint := PGPKeyFingerprint c; PGPKeyVerified := PGPKeyVerified c;
  PGPKeyAutocryptDate := [];
  IMs := []; Websites := []; Relations := []; Events := [];
  PhoneticGivenName := []; PhoneticFamilyName := []; Department := []; CustomFields := []; Pronouns := [];
  PGPKeyRemovedAutocrypt := [];
  MergedUIDs := []; MergedInto := MergedInto c; DiscoveryCreated := false;
|}.

(** ** The OpenPGP library *)

Class OpenPGP := {
  pgp_key : Type;
  newKeyFromArmored : gostr -> option pgp_key;
  getFingerprint : pgp_key -> gostr;
  getArmoredPublicKey : pgp_key -> option gostr;
  isPrivate : pgp_key -> bool;
}.

(** The library's documented behaviour the store relies on: the armored public
    part of a key is not empty and parses, to a key without secret material and
    with the same fingerprint; a key's fingerprint is not empty. *)
Class OpenPGPLaws `{OpenPGP} : Prop := {
  armored_public k a :
    getArmoredPublicKey k = Some a ->
    exists k', newKeyFromArmored a = Some k' /\ isPrivate k' = false /\ getFingerprint k' = getFingerprint k;
  armored_nonempty k a : getArmoredPublicKey k = Some a -> a ≠ [];
  fingerprint_nonempty k : getFingerprint k ≠ [];
}.

(** A toy keyring for the witnesses: [PUB:fp] and [SEC:fp] are the armored
    public and secret forms of the key with fingerprint [fp]. *)
Definition toyParse (s : gostr) : option (bool * gostr) :=
  if hasPrefix ($"PUB:") s && negb (drop 4 s =s? []) then Some (false, drop 4 s)
  else if hasPrefix ($"SEC:") s && negb (drop 4 s =s? []) then Some (true, drop 4 s)
  else None.
#[export] Instance toyPGP : OpenPGP := {|
  pgp_key := bool * { fp : gostr | bool_decide (fp ≠ []) };
  newKeyFromArmored s :=
    match toyParse s with
    | Some (sec, fp) =>
        match decide (bool_decide (fp ≠ [])) with left H => Some (sec, exist _ fp H) | right _ => None end
    | None => None
    end;
  getFingerprint k := proj1_sig k.2;
  getArmoredPublicKey k := Some ($"PUB:" ++ proj1_sig k.2);
  isPrivate k := k.1;
|}.
#[export] Instance toyPGP_laws : OpenPGPLaws.
Proof.
  split; simpl.
  - intros [sec [fp Hfp]] a [= <-]. simpl. pose proof (bool_decide_unpack _ Hfp) as Hn.
    unfold toyParse. simpl. rewrite drop_0, (bool_decide_eq_false_2 (fp = [])) by done. simpl.
    destruct (decide _) as [H'|H']; [|done]. eexists. done.
  - by intros k a [= <-].
  - intros [sec [fp Hfp]]. simpl. by apply bool_decide_unpack in Hfp.
Qed.

Section Keys.
Context {P : OpenPGP}.

Definition pgpKeyFingerprint (armored : gostr) : gostr :=
  match newKeyFromArmored armored with
  | None => []
  | Some key => getFingerprint key
  end.

Definition publicPGPKey (armored : gostr) : gostr :=
  if armored =s? [] then []
  else match newKeyFromArmored armored with
       | None => armored
       | Some key => match getArmoredPublicKey key with None => armored | Some pub => pub end
       end.

(** Text that the library would parse as a private key. *)
Definition isSecretKey (armored : gostr) : bool :=
  match newKeyFromArmored armored with Some key => isPrivate key | None => false end.

Lemma publicPGPKey_not_secret `{!OpenPGPLaws} s :
  (forall k, is_Some (getArmoredPublicKey k)) -> s ≠ [] -> isSecretKey (publicPGPKey s) = false.
Proof.
  intros Ha Hs. unfold publicPGPKey, isSecretKey. rewrite bool_decide_eq_false_2 by done.
  destruct (newKeyFromArmored s) as [k|] eqn:E; [|by rewrite E].
  destruct (Ha k) as [a Hk]. rewrite Hk. by destruct (armored_public k a Hk) as (k' & -> & ? & _).
Qed.

(** Stripping the secret part keeps the fingerprint. *)
Lemma publicPGPKey_fingerprint `{!OpenPGPLaws} s :
  s ≠ [] -> pgpKeyFingerprint (publicPGPKey s) = pgpKeyFingerprint s.
Proof.
  intros Hs. unfold publicPGPKey, pgpKeyFingerprint. rewrite bool_decide_eq_false_2 by done.
  destruct (newKeyFromArmored s) as [k|] eqn:E; [|by rewrite E].
  destruct (getArmoredPublicKey k) as [a|] eqn:Ea; [|by rewrite E].
  by destruct (armored_public k a Ea) as (k' & -> & _ & ?).
Qed.

Lemma publicPGPKey_empty `{!OpenPGPLaws} s : publicPGPKey s = [] <-> s = [].
Proof.
  unfold publicPGPKey. case_bool_decide; [done|]. destruct (newKeyFromArmored s) as [k|]; [|done].
  destruct (getArmoredPublicKey k) eqn:E; [|done]. apply armored_nonempty in E. done.
Qed.

End Keys.
