(* ===== verification/UnionFind.v ===== *)
(** * UnionFind: disjoint sets with path halving (backend/internal/contacts/dedupe.go)

    [parent] is the slice of the source; [find] halves the path as it walks and
    [union] hangs the second root below the first, without ranks.  [find] has
    the number of nodes as fuel: a path to a root visits each node at most once,
    so the fuel never runs out on a forest ([find_spec]). *)

From S2P Require Import Prelude.

Abbreviation parents := (list nat).

Definition newUnionFind (n : nat) : parents := seq 0 n.

Fixpoint findFuel (fuel : nat) (p : parents) (x : nat) : nat * parents :=
  match fuel with
  | O => (x, p)
  | S fuel' =>
      if bool_decide (p !!! x = x) then (x, p)
      else
        let p' := <[x := p !!! (p !!! x)]> p in
        findFuel fuel' p' (p' !!! x)
  end.
Definition find (p : parents) (x : nat) : nat * parents := findFuel (length p) p x.

Definition union (p : parents) (a b : nat) : parents :=
  let '(ra, p1) := find p a in
  let '(rb, p2) := find p1 b in
  if bool_decide (ra = rb) then p2 else <[rb := ra]> p2.

(** ** Forests *)

(** [rootn p k x r]: walking [k] parent links from [x] reaches the root [r]. *)
Inductive rootn (p : parents) : nat -> nat -> nat -> Prop :=
  | root_here x : p !! x = Some x -> rootn p 0 x x
  | root_step k x y r : p !! x = Some y -> x ≠ y -> rootn p k y r -> rootn p (S k) x r.
Definition root (p : parents) (x r : nat) : Prop := exists k, rootn p k x r.
Definition Forest (p : parents) : Prop := forall x, (x < length p)%nat -> exists r, root p x r.
Definition same (p : parents) (x y : nat) : Prop := exists r, root p x r /\ root p y r.

Lemma rootn_det p k x r : rootn p k x r -> forall k' r', rootn p k' x r' -> k = k' /\ r = r'.
Proof.
  induction 1 as [x Hx|k x y r Hx Hne _ IH]; intros k' r' H'.
  - inversion H' as [|????? Hne]; simplify_eq. done.
  - inversion H' as [|? ? y' ? Hx' ? H'']; simplify_eq. by destruct (IH _ _ H'') as [-> ->].
Qed.

Lemma root_det p x r r' : root p x r -> root p x r' -> r = r'.
Proof. intros [k H] [k' H']. by destruct (rootn_det _ _ _ _ H _ _ H'). Qed.

Lemma rootn_lt p k x r : rootn p k x r -> (x < length p)%nat.
Proof. destruct 1; by eapply lookup_lt_Some. Qed.

Lemma rootn_root p k x r : rootn p k x r -> p !! r = Some r.
Proof. by induction 1. Qed.

(** The nodes of a path are distinct, so a path is shorter than the forest. *)
Lemma rootn_nodes p k x r :
  rootn p k x r -> exists l, length l = S k /\ NoDup l /\ forall y, y ∈ l -> exists j, (j <= k)%nat /\ rootn p j y r.
Proof.
  induction 1 as [x Hx|k x y r Hx Hne Hy (l & Hl & Hnd & Hin)].
  - exists [x]. split_and!; [done|apply NoDup_singleton|]. intros y ->%list_elem_of_singleton. exists 0. split; [lia|by constructor].
  - exists (x :: l). split_and!; [by simpl; rewrite Hl| |].
    + constructor; [|done]. intros Hx'. destruct (Hin _ Hx') as (j & Hj & Hr).
      assert (rootn p (S k) x r) as Hs by (by eapply root_step). destruct (rootn_det _ _ _ _ Hr _ _ Hs). lia.
    + intros z [->|Hz]%elem_of_cons; [exists (S k); split; [lia|by eapply root_step]|].
      destruct (Hin z Hz) as (j & ? & ?). exists j. split; [lia|done].
Qed.

Lemma rootn_bound p k x r : rootn p k x r -> (k < length p)%nat.
Proof.
  intros H. destruct (rootn_nodes _ _ _ _ H) as (l & Hl & Hnd & Hin).
  enough (length l <= length (seq 0 (length p)))%nat as Hle by (rewrite length_seq in Hle; lia).
  apply submseteq_length, NoDup_submseteq; [done|]. intros y Hy. destruct (Hin y Hy) as (j & _ & Hj).
  apply elem_of_seq. apply rootn_lt in Hj. lia.
Qed.

(** ** Path halving *)

(** Pointing a node at its grandparent lengthens no path and moves no root. *)
Lemma halve_rootn p x y g k :
  p !! x = Some y -> p !! y = Some g -> x ≠ y ->
  forall z r, rootn p k z r -> exists k', (k' <= k)%nat /\ rootn (<[x := g]> p) k' z r.
Proof.
  intros Hx Hy Hne. assert (Hlk : forall z, z ≠ x -> <[x := g]> p !! z = p !! z).
  { intros z ?. by apply list_lookup_insert_ne. }
  assert (Hat : <[x := g]> p !! x = Some g) by (apply list_lookup_insert_eq; by eapply lookup_lt_Some).
  induction (lt_wf k) as [k _ IH]. intros z r Hz. destruct (decide (z = x)) as [->|Hzx].
  - inversion Hz as [|k0 ? y' ? Hx' ? Hy']; subst; [congruence|]. assert (y' = y) as -> by congruence.
    inversion Hy' as [|k1 ? g' ? Hyg ? Hg]; subst.
    + assert (g = r) as -> by congruence. exists 1. split; [lia|]. eapply root_step; [done|done|].
      constructor. by rewrite Hlk.
    + assert (g' = g) as -> by congruence.
      destruct (IH k1 ltac:(lia) g r Hg) as (k' & ? & Hk'). exists (S k'). split; [lia|].
      eapply root_step; [done| |done]. intros <-. destruct (rootn_det _ _ _ _ Hz _ _ Hg). lia.
  - inversion Hz as [? Hr|k0 ? w ? Hw ? Hw']; subst.
    + exists 0. split; [lia|]. constructor. by rewrite Hlk.
    + destruct (IH k0 ltac:(lia) w r Hw') as (k' & ? & Hk'). exists (S k'). split; [lia|].
      eapply root_step; [by rewrite Hlk|done|done].
Qed.

(** Two forests with the same roots. *)
Definition equiroot (p q : parents) : Prop := length q = length p /\ forall z r, root p z r -> root q z r.

Lemma equiroot_trans p q r : equiroot p q -> equiroot q r -> equiroot p r.
Proof. intros [? ?] [? ?]. split; [congruence|auto]. Qed.

Lemma equiroot_forest p q : Forest p -> equiroot p q -> Forest q.
Proof. intros Hf [El Hr] x Hx. rewrite El in Hx. destruct (Hf x Hx) as [r ?]. eauto. Qed.

Lemma equiroot_back p q z r : Forest p -> equiroot p q -> root q z r -> root p z r.
Proof.
  intros Hf [El Hr] [k Hz]. destruct (Hf z) as [r0 Hr0]; [rewrite <- El; by eapply rootn_lt|].
  by rewrite (root_det q z r r0) by (eauto; by exists k).
Qed.

Lemma equiroot_same p q x y : Forest p -> equiroot p q -> same q x y <-> same p x y.
Proof.
  intros Hf Hq. split; intros (r & H1 & H2); exists r; split;
    eauto using equiroot_back; by apply Hq.
Qed.

Lemma same_root p x y r : same p x y -> root p x r -> root p y r.
Proof. intros (r' & H1 & H2) Hr. by rewrite (root_det _ _ _ _ Hr H1). Qed.

Lemma same_sym p x y : same p x y -> same p y x.
Proof. intros (r & ? & ?). by exists r. Qed.

Lemma same_trans p x y z : same p x y -> same p y z -> same p x z.
Proof. intros (r & H1 & H2) Hyz. exists r. split; [done|by eapply same_root]. Qed.

(** [find] returns the root, and moves no node to another tree. *)
Lemma findFuel_spec fuel : forall p x k r, rootn p k x r -> Forest p -> (k < fuel)%nat ->
  (findFuel fuel p x).1 = r /\ equiroot p (findFuel fuel p x).2.
Proof.
  induction fuel as [|fuel IH]; intros p x k r Hk Hf Hlt; [lia|]. simpl.
  inversion Hk as [? Hx|k0 ? y ? Hx Hne Hy]; subst.
  - rewrite (list_lookup_total_correct _ _ _ Hx), bool_decide_eq_true_2 by done. by split.
  - rewrite !(list_lookup_total_correct _ _ _ Hx), bool_decide_eq_false_2 by done.
    assert (exists g k1, p !! y = Some g /\ rootn p k1 g r /\ (k1 <= k0)%nat) as (g & k1 & Hg & Hgr & Hle).
    { inversion Hy as [? Hy'|k1 ? g ? Hy' ? Hg]; subst; [exists r, 0|exists g, k1]; (split_and!; [done|by eauto|lia]). }
    rewrite (list_lookup_total_correct _ _ _ Hg).
    assert (Hlen : (x < length p)%nat) by (by eapply lookup_lt_Some).
    rewrite list_lookup_total_insert_eq by done.
    assert (Hq : equiroot p (<[x:=g]> p)).
    { split; [apply length_insert|]. intros z rz [kz Hz].
      destruct (halve_rootn p x y g kz Hx Hg Hne z rz Hz) as (k' & _ & ?). by exists k'. }
    destruct (halve_rootn p x y g k1 Hx Hg Hne g r Hgr) as (k' & ? & Hk').
    destruct (IH (<[x:=g]> p) g k' r Hk') as [H1 H2]; [by eapply equiroot_forest|lia|].
    split; [done|by eapply equiroot_trans].
Qed.

Lemma find_spec p x :
  Forest p -> (x < length p)%nat -> root p x (find p x).1 /\ equiroot p (find p x).2.
Proof.
  intros Hf Hx. destruct (Hf x Hx) as [r [k Hr]].
  destruct (findFuel_spec (length p) p x k r Hr Hf) as [H1 H2]; [by eapply rootn_bound|].
  unfold find. rewrite H1. split; [by exists k|done].
Qed.

Lemma newUnionFind_lookup n x : (x < n)%nat -> newUnionFind n !! x = Some x.
Proof. intros. unfold newUnionFind. rewrite lookup_seq. split; [lia|done]. Qed.

Lemma newUnionFind_root n x r : root (newUnionFind n) x r -> r = x /\ (x < n)%nat.
Proof.
  intros [k H]. pose proof (rootn_lt _ _ _ _ H) as Hlt. unfold newUnionFind in Hlt. rewrite length_seq in Hlt.
  pose proof (newUnionFind_lookup n x Hlt). split; [|done]. inversion H; simplify_eq; done.
Qed.

Lemma newUnionFind_forest n : Forest (newUnionFind n).
Proof.
  intros x Hx. unfold newUnionFind in Hx. rewrite length_seq in Hx. exists x, 0. constructor. by apply newUnionFind_lookup.
Qed.

(** Hanging root [rb] below root [ra]. *)
Lemma link_root p ra rb z r :
  p !! ra = Some ra -> p !! rb = Some rb -> ra ≠ rb -> root p z r ->
  root (<[rb := ra]> p) z (if decide (r = rb) then ra else r).
Proof.
  intros Ha Hb Hne [k Hz]. assert (Hl : (rb < length p)%nat) by (by eapply lookup_lt_Some).
  assert (Hra : root (<[rb:=ra]> p) ra ra) by (exists 0; constructor; by rewrite list_lookup_insert_ne).
  induction Hz as [x Hx|k x y r Hx Hxy Hy IH].
  - destruct (decide (x = rb)) as [->|Hn].
    + exists 1. eapply root_step; [by apply list_lookup_insert_eq|done|]. constructor. by rewrite list_lookup_insert_ne.
    + exists 0. constructor. by rewrite list_lookup_insert_ne.
  - destruct IH as [k' IH]. exists (S k'). eapply root_step; [|exact Hxy|exact IH].
    rewrite list_lookup_insert_ne; [done|]. intros ->. congruence.
Qed.

Section Union.
Context (p : parents) (a b : nat) (Hf : Forest p) (Ha : (a < length p)%nat) (Hb : (b < length p)%nat).

(** The two finds, and then at most one link. *)
Lemma union_cases : exists p2 ra rb,
  equiroot p p2 /\ Forest p2 /\ root p2 a ra /\ root p2 b rb /\ p2 !! ra = Some ra /\ p2 !! rb = Some rb /\
  union p a b = if decide (ra = rb) then p2 else <[rb := ra]> p2.
Proof.
  destruct (find_spec p a Hf Ha) as [Hra Hp1]. destruct (find p a) as [ra p1] eqn:Ea. simpl in *.
  assert (Hf1 : Forest p1) by (by eapply equiroot_forest).
  assert (Hb1 : (b < length p1)%nat) by (by destruct Hp1 as [-> _]).
  destruct (find_spec p1 b Hf1 Hb1) as [Hrb Hp2]. destruct (find p1 b) as [rb p2] eqn:Eb. simpl in *.
  exists p2, ra, rb. assert (Hf2 : Forest p2) by (by eapply equiroot_forest).
  assert (Ha2 : root p2 a ra) by (apply Hp2, Hp1, Hra). assert (Hb2 : root p2 b rb) by (by apply Hp2).
  split_and!; [by eapply equiroot_trans|done|done|done| | |].
  - destruct Ha2 as [? ?]. by eapply rootn_root.
  - destruct Hb2 as [? ?]. by eapply rootn_root.
  - unfold union. rewrite Ea, Eb. by do 2 case_decide || case_bool_decide.
Qed.

Lemma union_length : length (union p a b) = length p.
Proof.
  destruct union_cases as (p2 & ra & rb & [E _] & _ & _ & _ & _ & _ & ->).
  case_decide; [done|]. by rewrite length_insert.
Qed.

Lemma union_forest : Forest (union p a b).
Proof.
  destruct union_cases as (p2 & ra & rb & Heq & Hf2 & _ & _ & Hra & Hrb & ->). case_decide; [done|].
  intros x Hx. rewrite length_insert in Hx. destruct (Hf2 x Hx) as [r Hr]. eexists. by apply link_root.
Qed.

(** The trees of the union: those of [p], with [a]'s and [b]'s merged. *)
Lemma union_same x y :
  same (union p a b) x y <->
  same p x y \/ (same p x a /\ same p b y) \/ (same p x b /\ same p a y).
Proof.
  destruct union_cases as (p2 & ra & rb & Heq & Hf2 & Ha2 & Hb2 & Hra & Hrb & ->).
  rewrite <- !(equiroot_same p p2) by done. case_decide as Hd.
  - subst rb. split; [by left|]. intros [?|[[? ?]|[? ?]]]; [done|..].
    + eapply same_trans; [done|]. eapply same_trans; [|done]. by exists ra.
    + eapply same_trans; [done|]. eapply same_trans; [|done]. by exists ra.
  - split.
    + intros (r & [kx Hx] & [ky Hy]).
      destruct (Hf2 x) as [rx Hrx]; [apply rootn_lt in Hx; by rewrite length_insert in Hx|].
      destruct (Hf2 y) as [ry Hry]; [apply rootn_lt in Hy; by rewrite length_insert in Hy|].
      pose proof (link_root p2 ra rb x rx Hra Hrb Hd Hrx) as Hx'. pose proof (link_root p2 ra rb y ry Hra Hrb Hd Hry) as Hy'.
      pose proof (root_det _ _ _ _ (ex_intro _ kx Hx) Hx') as E1. pose proof (root_det _ _ _ _ (ex_intro _ ky Hy) Hy') as E2.
      rewrite E1 in E2. unfold same. repeat case_decide; subst; naive_solver.
    + assert (Hl : forall x y, same p2 x y -> same (<[rb:=ra]> p2) x y).
      { intros x' y' (r & H1 & H2). eexists. split; by eapply (link_root p2 ra rb). }
      assert (Hab : same (<[rb:=ra]> p2) a b).
      { pose proof (link_root p2 ra rb _ _ Hra Hrb Hd Ha2) as H1. pose proof (link_root p2 ra rb _ _ Hra Hrb Hd Hb2) as H2.
        rewrite decide_False in H1 by done. rewrite decide_True in H2 by done. by exists ra. }
      intros [?|[[H1 H2]|[H1 H2]]]; [auto|..]; apply Hl in H1, H2; eauto using same_trans, same_sym.
Qed.
End Union.
