(* ===== verification/Dedupe.v ===== *)
(** * Dedupe: duplicate detection and merging (backend/internal/contacts/dedupe.go)

    [findDuplicateGroups] and [mergeGroup] with their helpers.  The three Go maps
    are finite maps, visited in an unspecified order ([RangeOrder]); Go's
    [sort.Slice] is any sort ([SortSlice]).

    The groups are shown to be the connected components of the relation the
    source documents ([joined]), whatever the map order, and a merge is shown to
    keep the group's addresses and to move a key only with its provenance. *)

From S2P Require Import Prelude GoText ContactsModel UnionFind.

Section Dedupe.
Context {U : Unicode} {SS : SortSlice} {RO : RangeOrder}.

Definition normalizeEmail (s : gostr) : gostr := toLower (trimSpace s).

Definition normalizePhone (s : gostr) : gostr :=
  let d := List.filter (fun r => Z.leb 48 r && Z.leb r 57)%Z s in
  if (10 <=? length d)%nat then drop (length d - 10) d else d.

Definition normalizeName (c : Contact) : gostr :=
  let tokens := fieldsFunc (fun r => negb (isLetter r) && negb (isDigit r)) (toLower (FormattedName c)) in
  join ($" ") (sortStable strLtb tokens).

Definition otherwiseEmpty (c : Contact) : bool :=
  (length (Emails c) =? 0)%nat && (length (Phones c) =? 0)%nat.

Definition matchKeys (c : Contact) : list gostr :=
  omap (fun e => let v := normalizeEmail (cvValue e) in if v =s? [] then None else Some ($"e:" ++ v)) (Emails c) ++
  omap (fun p => let v := normalizePhone (cvValue p) in if v =s? [] then None else Some ($"p:" ++ v)) (Phones c).

(** ** findDuplicateGroups *)

(** The first loop: [byKey] maps a key to the first contact that has it. *)
Definition keyStep (i : nat) (st : parents * gmap gostr nat) (k : gostr) : parents * gmap gostr nat :=
  let '(uf, byKey) := st in
  match byKey !! k with
  | Some j => (union uf i j, byKey)
  | None => (uf, <[k := i]> byKey)
  end.
Fixpoint keyLoop (i : nat) (cs : list Contact) (st : parents * gmap gostr nat) : parents * gmap gostr nat :=
  match cs with
  | [] => st
  | c :: cs' => keyLoop (S i) cs' (foldl (keyStep i) st (matchKeys c))
  end.

(** The second: [byName] collects the indices of each non-empty name. *)
Fixpoint nameIndex (i : nat) (cs : list Contact) (byName : gmap gostr (list nat)) : gmap gostr (list nat) :=
  match cs with
  | [] => byName
  | c :: cs' =>
      let n := normalizeName c in
      nameIndex (S i) cs'
        (if n =s? [] then byName else <[n := default [] (byName !! n) ++ [i]]> byName)
  end.

(** The pairs [a < b] of one name's indices. *)
Definition emptyAt (cs : list Contact) (i : nat) : bool :=
  match cs !! i with Some c => otherwiseEmpty c | None => false end.
Fixpoint pairLoop (cs : list Contact) (idxs : list nat) (uf : parents) : parents :=
  match idxs with
  | [] => uf
  | a :: rest =>
      pairLoop cs rest
        (foldl (fun uf b => if emptyAt cs a || emptyAt cs b then union uf a b else uf) uf rest)
  end.

(** The third: indices collected by root. *)
Definition compStep (st : parents * gmap nat (list nat)) (i : nat) : parents * gmap nat (list nat) :=
  let '(uf, comps) := st in
  let '(r, uf') := find uf i in
  (uf', <[r := default [] (comps !! r) ++ [i]]> comps).

Definition findDuplicateGroups (cs : list Contact) : list (list nat) :=
  let uf0 := newUnionFind (length cs) in
  let '(uf1, _) := keyLoop 0 cs (uf0, ∅) in
  let byName := nameIndex 0 cs ∅ in
  let uf2 := foldl (fun uf idxs => pairLoop cs idxs uf) uf1 (range_order _ (map_to_list byName).*2) in
  let '(_, comps) := foldl compStep (uf2, ∅) (seq 0 (length cs)) in
  let groups := sortStable Nat.ltb <$> List.filter (fun m => 2 <=? length m)%nat (range_order _ (map_to_list comps).*2) in
  sort_slice _ (fun a b => (hd 0 a <? hd 0 b)%nat) groups.

Definition groupShouldMerge (members : list Contact) : bool :=
  match members with
  | [] | [_] => false
  | [_; _] => true
  | m0 :: rest =>
      let name := normalizeName m0 in
      if name =s? [] then false
      else forallb (fun m => normalizeName m =s? name) rest
  end.

(** ** mergeGroup *)

(** olderThan and newerThan. *)
Definition olderThan (a b : Contact) : bool :=
  if negb (CreatedAt a =s? CreatedAt b) then strLtb (CreatedAt a) (CreatedAt b)
  else if negb (Rev a =? Rev b)%Z then (Rev a <? Rev b)%Z
  else strLtb (UID a) (UID b).
Definition newerThan (a b : Contact) : bool :=
  if negb (UpdatedAt a =s? UpdatedAt b) then strLtb (UpdatedAt b) (UpdatedAt a)
  else (Rev b <? Rev a)%Z.

Fixpoint firstNonEmpty (cs : list Contact) (get : Contact -> gostr) : gostr :=
  match cs with
  | [] => []
  | c :: cs' => if get c =s? [] then firstNonEmpty cs' get else get c
  end.

(** The [seen]-guarded unions: [key] says what a value is de-duplicated on, or
    that it is skipped. *)
Fixpoint unionLoop {A K} `{EqDecision K} (key : A -> option K) (seen : list K) (l : list A) : list A :=
  match l with
  | [] => []
  | v :: l' =>
      match key v with
      | None => unionLoop key seen l'
      | Some k => if bool_decide (k ∈ seen) then unionLoop key seen l' else v :: unionLoop key (k :: seen) l'
      end
  end.
Definition nonEmptyKey (k : gostr) : option gostr := if k =s? [] then None else Some k.

Definition unionValues (members : list Contact) (get : Contact -> list ContactValue) (norm : gostr -> gostr) :
    list ContactValue :=
  unionLoop (fun v => nonEmptyKey (norm (cvValue v))) [] (members ≫= get).
Definition unionStrings (members : list Contact) (get : Contact -> list gostr) : list gostr :=
  unionLoop nonEmptyKey [] (members ≫= get).
Definition unionComparable {T} `{EqDecision T} (members : list Contact) (get : Contact -> list T) : list T :=
  unionLoop Some [] (members ≫= get).
Definition unionAddresses (members : list Contact) : list ContactAddress :=
  unionLoop Some [] (members ≫= Addresses).

Definition mergedUIDs (survivor : Contact) (members : list Contact) (absorbed : list gostr) : list gostr :=
  let keep := List.filter (fun u => negb (u =s? []) && negb (u =s? UID survivor)) in
  let set : gset gostr := list_to_set (keep absorbed ++ keep (members ≫= MergedUIDs)) in
  sortStable strLtb (range_order _ (elements set)).

Definition mergePGPProvenance (survivor : Contact) (byNewest : list Contact) : Contact :=
  if negb (PGPKey survivor =s? []) then survivor
  else default zeroContact (find_first (fun c => negb (PGPKey c =s? [])) byNewest).

Definition mergeGroup (members : list Contact) : Contact * list gostr :=
  let ordered := sort_slice _ olderThan members in
  let survivor := hd zeroContact ordered in
  let absorbed := sortStable strLtb (UID <$> tl ordered) in
  let byNewest := sort_slice _ newerThan members in
  let k := mergePGPProvenance survivor byNewest in
  ({| UID := UID survivor; Rev := Rev survivor; Deleted := Deleted survivor;
      CreatedAt := CreatedAt survivor; UpdatedAt := UpdatedAt survivor; IsSelf := IsSelf survivor;
      FormattedName := firstNonEmpty byNewest FormattedName;
      GivenName := firstNonEmpty byNewest GivenName;
      FamilyName := firstNonEmpty byNewest FamilyName;
      MiddleName := firstNonEmpty byNewest MiddleName;
      Prefix := firstNonEmpty byNewest Prefix;
      Suffix := firstNonEmpty byNewest Suffix;
      Nickname := firstNonEmpty byNewest Nickname;
      Org := firstNonEmpty byNewest Org;
      Title := firstNonEmpty byNewest Title;
      Emails := unionValues members Emails normalizeEmail;
      Phones := unionValues members Phones normalizePhone;
      Addresses := unionAddresses members;
      Notes := firstNonEmpty byNewest Notes;
      Birthday := firstNonEmpty byNewest Birthday;
      PhotoRef := firstNonEmpty byNewest PhotoRef;
      GroupIDs := unionStrings members GroupIDs;
      PGPKey := PGPKey k; PGPKeySource := PGPKeySource k; PGPKeyFingerprint := PGPKeyFingerprint k;
      PGPKeyVerified := PGPKeyVerified k; PGPKeyAutocryptDate := PGPKeyAutocryptDate k;
      IMs := unionComparable members IMs;
      Websites := unionComparable members Websites;
      Relations := unionComparable members Relations;
      Events := unionComparable members Events;
      PhoneticGivenName := firstNonEmpty byNewest PhoneticGivenName;
      PhoneticFamilyName := firstNonEmpty byNewest PhoneticFamilyName;
      Department := firstNonEmpty byNewest Department;
      CustomFields := unionComparable members CustomFields;
      Pronouns := firstNonEmpty byNewest Pronouns;
      PGPKeyRemovedAutocrypt := PGPKeyRemovedAutocrypt survivor;
      MergedUIDs := mergedUIDs survivor members absorbed;
      MergedInto := [];
      DiscoveryCreated := DiscoveryCreated survivor; |}, absorbed).

(** ** The groups are the connected components *)

(** Two contacts are joined when they share a normalized email or phone, or a
    non-empty normalized name while one of them has neither email nor phone. *)
Definition joinedBy (a b : Contact) : Prop :=
  (exists k, k ∈ matchKeys a /\ k ∈ matchKeys b) \/
  (normalizeName a ≠ [] /\ normalizeName a = normalizeName b /\ (otherwiseEmpty a || otherwiseEmpty b) = true).
Definition joined (cs : list Contact) (i j : nat) : Prop :=
  exists a b, cs !! i = Some a /\ cs !! j = Some b /\ joinedBy a b.

(** [i] and [j] are linked by a chain of joined contacts. *)
Definition connected (cs : list Contact) : nat -> nat -> Prop := rtc (joined cs).

Lemma joined_sym cs i j : joined cs i j -> joined cs j i.
Proof.
  intros (a & b & Ha & Hb & [(k & ? & ?)|(? & E & ?)]); exists b, a; split_and!; [done|done| |done|done|].
  - left. by exists k.
  - right. rewrite <- E, orb_comm. done.
Qed.

Lemma connected_sym cs i j : connected cs i j -> connected cs j i.
Proof. induction 1 as [|i k j H _ IH]; [constructor|]. eapply rtc_r; [done|]. by apply joined_sym. Qed.

(** The state of the union-find while the loops run: a forest on the contacts
    whose trees are connected. *)
Definition Sound (cs : list Contact) (uf : parents) : Prop :=
  Forest uf /\ length uf = length cs /\ forall x y, same uf x y -> connected cs x y.

(** Later states only merge trees. *)
Definition Grows (uf uf' : parents) : Prop := forall x y, same uf x y -> same uf' x y.

Lemma Sound_new cs : Sound cs (newUnionFind (length cs)).
Proof.
  split_and!; [apply newUnionFind_forest|apply length_seq|].
  intros x y (r & [-> _]%newUnionFind_root & [-> _]%newUnionFind_root). constructor.
Qed.

Lemma Sound_union cs uf i j :
  Sound cs uf -> (i < length cs)%nat -> (j < length cs)%nat -> connected cs i j ->
  Sound cs (union uf i j) /\ Grows uf (union uf i j) /\ same (union uf i j) i j.
Proof.
  intros (Hf & Hl & Hs) Hi Hj Hc. rewrite <- Hl in Hi, Hj. split; [split_and!|split].
  - by apply union_forest.
  - by rewrite union_length.
  - intros x y [?|[[? ?]|[? ?]]]%union_same; [auto|..|done|done|done].
    + etrans; [by apply Hs|]. etrans; [done|]. by apply Hs.
    + etrans; [by apply Hs|]. etrans; [by apply connected_sym|]. by apply Hs.
  - intros x y Hxy. apply union_same; auto.
  - apply union_same; [done..|]. right; left.
    destruct (Hf i Hi) as [ri ?], (Hf j Hj) as [rj ?]. split; [by exists ri|by exists rj].
Qed.

(** *** Keys *)

Definition KeyInv (cs : list Contact) (done_ : nat -> gostr -> Prop) (st : parents * gmap gostr nat) : Prop :=
  Sound cs st.1 /\
  (forall k j, st.2 !! k = Some j -> exists c, cs !! j = Some c /\ k ∈ matchKeys c) /\
  (forall i k, done_ i k -> exists j, st.2 !! k = Some j /\ same st.1 i j).

Lemma KeyInv_weaken cs (d d' : nat -> gostr -> Prop) st :
  (forall i k, d' i k -> d i k) -> KeyInv cs d st -> KeyInv cs d' st.
Proof. intros Hd (H1 & H2 & H3). split_and!; auto. Qed.

Lemma keyStep_inv cs d i c k st :
  cs !! i = Some c -> k ∈ matchKeys c -> KeyInv cs d st ->
  KeyInv cs (fun i' k' => d i' k' \/ (i' = i /\ k' = k)) (keyStep i st k).
Proof.
  intros Hc Hk. destruct st as [uf m]. intros (Hs & Hm & Hd). unfold keyStep. simpl in *.
  assert (Hi : (i < length cs)%nat) by (by eapply lookup_lt_Some).
  destruct (m !! k) as [j|] eqn:Ek.
  - destruct (Hm k j Ek) as (cj & Hcj & Hkj).
    destruct (Sound_union cs uf i j) as (H1 & H2 & H3); [done|done|by eapply lookup_lt_Some| |].
    { apply rtc_once. exists c, cj. split_and!; [done|done|]. left. by exists k. }
    split_and!; simpl; [done|done|]. intros i' k' [H|[-> ->]]; [|by exists j].
    destruct (Hd i' k' H) as (j' & ? & ?). exists j'. auto.
  - split_and!; simpl; [done| |].
    + intros k' j. destruct (decide (k = k')) as [<-|Hne].
      * rewrite lookup_insert_eq. intros [= <-]. by exists c.
      * rewrite lookup_insert_ne by done. apply Hm.
    + intros i' k' [H|[-> ->]].
      * destruct (Hd i' k' H) as (j' & Hj & ?). exists j'. split; [|done].
        rewrite lookup_insert_ne; [done|]. intros <-. congruence.
      * exists i. rewrite lookup_insert_eq. split; [done|]. destruct Hs as (Hf & Hl & _).
        destruct (Hf i) as [r ?]; [by rewrite Hl|]. by exists r.
Qed.

Lemma keySteps_inv cs d i c ks st :
  cs !! i = Some c -> ks ⊆ matchKeys c -> KeyInv cs d st ->
  KeyInv cs (fun i' k' => d i' k' \/ (i' = i /\ k' ∈ ks)) (foldl (keyStep i) st ks).
Proof.
  intros Hc. revert d st. induction ks as [|k ks IH]; intros d st Hks Hst; simpl.
  - eapply KeyInv_weaken; [|done]. set_solver.
  - pose proof (keyStep_inv cs d i c k st Hc ltac:(set_solver) Hst) as Hst'.
    eapply KeyInv_weaken; [|apply (IH _ _ ltac:(set_solver) Hst')].
    intros i' k' [?|[? [->|?]%elem_of_cons]]; auto.
Qed.

Lemma keyLoop_inv cs cs1 cs2 st :
  cs = cs1 ++ cs2 ->
  KeyInv cs (fun i k => exists c, cs1 !! i = Some c /\ k ∈ matchKeys c) st ->
  KeyInv cs (fun i k => exists c, cs !! i = Some c /\ k ∈ matchKeys c) (keyLoop (length cs1) cs2 st).
Proof.
  revert cs1 st. induction cs2 as [|c cs2 IH]; intros cs1 st E Hst; simpl.
  - rewrite app_nil_r in E. by subst.
  - replace (S (length cs1)) with (length (cs1 ++ [c])) by (rewrite length_app; simpl; lia).
    assert (Hc : cs !! length cs1 = Some c) by (subst; rewrite lookup_app_r, Nat.sub_diag by lia; done).
    apply IH; [by rewrite <- app_assoc|].
    eapply KeyInv_weaken; [|exact (keySteps_inv cs _ _ c (matchKeys c) st Hc (fun _ H => H) Hst)].
    intros i k (c' & [Hi|[? Hi]]%lookup_app_Some & Hk); [left; by exists c'|].
    apply list_lookup_singleton_Some in Hi as [? ->]. right. split; [lia|done].
Qed.

(** *** Names *)

Definition NameInv (cs : list Contact) (upto : nat) (m : gmap gostr (list nat)) : Prop :=
  (forall n l i, m !! n = Some l -> i ∈ l -> n ≠ [] /\ exists c, cs !! i = Some c /\ normalizeName c = n) /\
  (forall i c, (i < upto)%nat -> cs !! i = Some c -> normalizeName c ≠ [] ->
     exists l, m !! normalizeName c = Some l /\ i ∈ l).

Lemma nameIndex_inv cs cs1 cs2 m :
  cs = cs1 ++ cs2 -> NameInv cs (length cs1) m -> NameInv cs (length cs) (nameIndex (length cs1) cs2 m).
Proof.
  revert cs1 m. induction cs2 as [|c cs2 IH]; intros cs1 m E Hm; simpl.
  { rewrite app_nil_r in E. by subst. }
  assert (Hc : cs !! length cs1 = Some c) by (subst; rewrite lookup_app_r, Nat.sub_diag by lia; done).
  replace (S (length cs1)) with (length (cs1 ++ [c])) by (rewrite length_app; simpl; lia).
  apply IH; [by rewrite <- app_assoc|]. rewrite length_app. simpl. destruct Hm as [H1 H2].
  case_bool_decide as Hn.
  { split; [done|]. intros i c' Hi Hc' Hne. apply H2; [|done|done].
    destruct (decide (i = length cs1)) as [->|]; [congruence|lia]. }
  split.
  - intros n l i. destruct (decide (normalizeName c = n)) as [<-|Hne].
    + rewrite lookup_insert_eq. intros [= <-] [Hi| ->%list_elem_of_singleton]%elem_of_app.
      * destruct (m !! normalizeName c) as [l|] eqn:El; [by eapply H1|by apply elem_of_nil in Hi].
      * split; [done|]. by exists c.
    + rewrite lookup_insert_ne by done. apply H1.
  - intros i c' Hi Hc' Hne. destruct (decide (i = length cs1)) as [->|Hil].
    + assert (c' = c) as -> by congruence. eexists. rewrite lookup_insert_eq. split; [done|]. set_solver.
    + destruct (H2 i c') as (l & Hl & Hin); [lia|done|done|].
      destruct (decide (normalizeName c = normalizeName c')) as [En|En].
      * eexists. rewrite En, lookup_insert_eq, Hl. split; [done|]. set_solver.
      * exists l. by rewrite lookup_insert_ne.
Qed.

Lemma pairInner_spec cs a rest uf :
  Sound cs uf -> (a < length cs)%nat -> Forall (fun b => b < length cs)%nat rest ->
  (forall b, b ∈ rest -> emptyAt cs a || emptyAt cs b = true -> connected cs a b) ->
  let uf' := foldl (fun uf b => if emptyAt cs a || emptyAt cs b then union uf a b else uf) uf rest in
  Sound cs uf' /\ Grows uf uf' /\ forall b, b ∈ rest -> emptyAt cs a || emptyAt cs b = true -> same uf' a b.
Proof.
  intros Hs Ha Hr. revert uf Hs. induction Hr as [|b rest Hb _ IH]; intros uf Hs Hc; simpl.
  { split_and!; [done|by intros ??|set_solver]. }
  assert (exists uf1, (if emptyAt cs a || emptyAt cs b then union uf a b else uf) = uf1 /\ Sound cs uf1 /\ Grows uf uf1 /\
    (emptyAt cs a || emptyAt cs b = true -> same uf1 a b)) as (uf1 & -> & H1 & H2 & H3).
  { destruct (emptyAt cs a || emptyAt cs b) eqn:E; eexists; (split; [reflexivity|]).
    - destruct (Sound_union cs uf a b) as (? & ? & ?); [done..| |by split_and!]. apply Hc; [left|done].
    - split_and!; [done|by intros ??|done]. }
  destruct (IH uf1 H1) as (H4 & H5 & H6); [intros b' Hb'; apply Hc; by right|].
  split_and!; [done|intros x y Hxy; auto|]. intros b' [->|Hb']%elem_of_cons; auto.
Qed.

Lemma pairLoop_spec cs idxs uf :
  Sound cs uf -> Forall (fun b => b < length cs)%nat idxs ->
  (forall a b, a ∈ idxs -> b ∈ idxs -> emptyAt cs a || emptyAt cs b = true -> connected cs a b) ->
  Sound cs (pairLoop cs idxs uf) /\ Grows uf (pairLoop cs idxs uf) /\
  forall a b, a ∈ idxs -> b ∈ idxs -> a ≠ b -> emptyAt cs a || emptyAt cs b = true -> same (pairLoop cs idxs uf) a b.
Proof.
  intros Hs Hr. revert uf Hs. induction Hr as [|a rest Ha Hrest IH]; intros uf Hs Hc; simpl.
  { split_and!; [done|by intros ??|set_solver]. }
  destruct (pairInner_spec cs a rest uf Hs Ha Hrest) as (H1 & H2 & H3).
  { intros b Hb. apply Hc; [left|by right]. }
  destruct (IH _ H1) as (H4 & H5 & H6); [intros x y Hx Hy; apply Hc; by right|].
  split_and!; [done|intros x y Hxy; auto|].
  intros x y [->|Hx]%elem_of_cons [->|Hy]%elem_of_cons Hne He; [done|auto| |auto].
  apply same_sym, H5, H3; [done|]. by rewrite orb_comm.
Qed.

Lemma pairLoops_spec cs lists uf :
  Sound cs uf ->
  (forall l, l ∈ lists -> Forall (fun b => b < length cs)%nat l /\
     forall a b, a ∈ l -> b ∈ l -> emptyAt cs a || emptyAt cs b = true -> connected cs a b) ->
  let uf' := foldl (fun uf idxs => pairLoop cs idxs uf) uf lists in
  Sound cs uf' /\ Grows uf uf' /\
  forall l a b, l ∈ lists -> a ∈ l -> b ∈ l -> a ≠ b -> emptyAt cs a || emptyAt cs b = true -> same uf' a b.
Proof.
  revert uf. induction lists as [|l lists IH]; intros uf Hs Hl; simpl; [split_and!; [done|by intros ??|set_solver]|].
  destruct (Hl l) as [Hl1 Hl2]; [left|]. destruct (pairLoop_spec cs l uf Hs Hl1 Hl2) as (H1 & H2 & H3).
  destruct (IH _ H1) as (H4 & H5 & H6); [intros l' ?; apply Hl; by right|].
  split_and!; [done|intros x y Hxy; auto|]. intros l' a b [->|Hl']%elem_of_cons; eauto.
Qed.

(** *** Components *)

(** While the third loop runs: [comps] lists the visited indices by root, in
    order. *)
Definition CompInv (uf0 : parents) (upto : nat) (st : parents * gmap nat (list nat)) : Prop :=
  equiroot uf0 st.1 /\
  (forall r l, st.2 !! r = Some l -> NoDup l /\ forall i, i ∈ l -> (i < upto)%nat /\ root uf0 i r) /\
  (forall i r, (i < upto)%nat -> root uf0 i r -> exists l, st.2 !! r = Some l /\ i ∈ l).

Lemma compStep_inv uf0 n st :
  Forest uf0 -> (n < length uf0)%nat -> CompInv uf0 n st -> CompInv uf0 (S n) (compStep st n).
Proof.
  intros Hf Hn. destruct st as [uf m]. intros (He & H1 & H2). unfold compStep. simpl in *.
  destruct (find_spec uf n) as [Hr Hq]; [by eapply equiroot_forest|by destruct He as [-> _]|].
  destruct (find uf n) as [r uf']. simpl in *. apply (equiroot_back _ _ _ _ Hf He) in Hr.
  split_and!; simpl; [by eapply equiroot_trans|..].
  - intros r' l. destruct (decide (r = r')) as [<-|Hne].
    + rewrite lookup_insert_eq. intros [= <-]. destruct (m !! r) as [l|] eqn:El; simpl.
      * destruct (H1 r l El) as [Hnd Hl]. split.
        -- apply NoDup_app. split_and!; [done| |apply NoDup_singleton].
           intros i Hi ->%list_elem_of_singleton. destruct (Hl n Hi). lia.
        -- intros i [Hi| ->%list_elem_of_singleton]%elem_of_app; [|split; [lia|done]]. destruct (Hl i Hi). split; [lia|done].
      * split; [apply NoDup_singleton|]. intros i ->%list_elem_of_singleton. split; [lia|done].
    + rewrite lookup_insert_ne by done. intros Hl. destruct (H1 r' l Hl) as [? Hl']. split; [done|].
      intros i Hi. destruct (Hl' i Hi). split; [lia|done].
  - intros i r' Hi Hir. destruct (decide (i = n)) as [->|Hin].
    + rewrite (root_det _ _ _ _ Hir Hr). eexists. rewrite lookup_insert_eq. split; [done|set_solver].
    + destruct (H2 i r') as (l & Hl & Hil); [lia|done|]. destruct (decide (r = r')) as [->|Hne].
      * eexists. rewrite lookup_insert_eq, Hl. split; [done|set_solver].
      * exists l. by rewrite lookup_insert_ne.
Qed.

Lemma compLoop_inv uf0 n :
  Forest uf0 -> (n <= length uf0)%nat -> CompInv uf0 n (foldl compStep (uf0, ∅) (seq 0 n)).
Proof.
  intros Hf. induction n as [|n IH]; intros Hn.
  - split_and!; simpl; [by split|intros r l; by rewrite lookup_empty|intros; lia].
  - rewrite seq_S, foldl_app. simpl. apply compStep_inv; [done|lia|]. apply IH. lia.
Qed.

(** After the first two loops two contacts are in one tree exactly when they
    are connected. *)
Lemma loops_exact {RL : RangeOrderLaws} cs :
  let uf1 := (keyLoop 0 cs (newUnionFind (length cs), ∅)).1 in
  let uf2 := foldl (fun uf idxs => pairLoop cs idxs uf) uf1 (range_order _ (map_to_list (nameIndex 0 cs ∅)).*2) in
  Forest uf2 /\ length uf2 = length cs /\
  forall i j, (i < length cs)%nat -> same uf2 i j <-> connected cs i j.
Proof.
  intros uf1 uf2.
  destruct (keyLoop_inv cs [] cs (newUnionFind (length cs), ∅)) as (K1 & K2 & K3); [done| |].
  { split_and!; simpl; [apply Sound_new|intros k j; by rewrite lookup_empty|]. intros i k (c & Hc & _). by rewrite lookup_nil in Hc. }
  destruct (nameIndex_inv cs [] cs ∅) as [N1 N2]; [done| |].
  { split; [intros n l i; by rewrite lookup_empty|simpl; intros; lia]. }
  simpl in *. fold uf1 in K1, K3.
  assert (Hrange : forall l, l ∈ range_order _ (map_to_list (nameIndex 0 cs ∅)).*2 <-> exists n, nameIndex 0 cs ∅ !! n = Some l).
  { intros l. rewrite (range_order_perm _ _), list_elem_of_fmap. split.
    - intros ([n l'] & -> & ?%elem_of_map_to_list). by exists n.
    - intros [n ?%elem_of_map_to_list]. by exists (n, l). }
  destruct (pairLoops_spec cs (range_order _ (map_to_list (nameIndex 0 cs ∅)).*2) uf1 K1) as (P1 & P2 & P3).
  { intros l [n Hl]%Hrange. split.
    - apply Forall_forall. intros b Hb. destruct (N1 n l b Hl Hb) as (_ & c & Hc & _). by eapply lookup_lt_Some.
    - intros a b Ha Hb He. destruct (N1 n l a Hl Ha) as (Hn & ca & Hca & Ea), (N1 n l b Hl Hb) as (_ & cb & Hcb & Eb).
      apply rtc_once. exists ca, cb. split_and!; [done..|]. right. unfold emptyAt in He. rewrite Hca, Hcb in He. naive_solver. }
  fold uf2 in P1, P2, P3. destruct P1 as (F & L & S). split_and!; [done|done|]. intros i j Hi. split; [apply S|].
  intros Hc. induction Hc as [x|x y z (a & b & Ha & Hb & Hj) _ IH].
  { destruct (F x) as [r ?]; [by rewrite L|]. by exists r. }
  eapply same_trans; [|apply IH; by eapply lookup_lt_Some]. destruct Hj as [(k & Hka & Hkb)|(Hn & En & He)].
  - apply P2. destruct (K3 x k) as (jx & Hx & Sx); [by exists a|]. destruct (K3 y k) as (jy & Hy & Sy); [by exists b|].
    assert (jy = jx) as -> by congruence. eapply same_trans; [done|by apply same_sym].
  - destruct (decide (x = y)) as [<-|Hxy]; [destruct (F x) as [r ?]; [by rewrite L|by exists r]|].
    destruct (N2 x a) as (l & Hl & Hx); [done|done|done|].
    destruct (N2 y b) as (l' & Hl' & Hy); [by eapply lookup_lt_Some|done|congruence|].
    assert (l' = l) as -> by congruence. apply (P3 l); [apply Hrange; by eexists|done|done|done|].
    unfold emptyAt. by rewrite Ha, Hb.
Qed.

(** The groups before the final sort: the component lists with two members or
    more, sorted. *)
Lemma groups_elem {RL : RangeOrderLaws} {SL : SortSliceLaws} (comps : gmap nat (list nat)) g :
  g ∈ sort_slice _ (fun a b => (hd 0 a <? hd 0 b)%nat)
        (sortStable Nat.ltb <$> List.filter (fun m => 2 <=? length m)%nat (range_order _ (map_to_list comps).*2)) <->
  exists r l, comps !! r = Some l /\ (2 <= length l)%nat /\ g = sortStable Nat.ltb l.
Proof.
  rewrite (sort_slice_perm _ _ _), list_elem_of_fmap. split.
  - intros (l & -> & Hl). apply list_elem_of_In, filter_In in Hl as [Hl Hlen]. apply list_elem_of_In in Hl.
    rewrite (range_order_perm _ _), list_elem_of_fmap in Hl. destruct Hl as ([r l'] & -> & ?%elem_of_map_to_list).
    exists r, l'. split_and!; [done|by apply Nat.leb_le|done].
  - intros (r & l & Hr & Hl & ->). exists l. split; [done|]. apply list_elem_of_In, filter_In. split; [|by apply Nat.leb_le].
    apply list_elem_of_In. rewrite (range_order_perm _ _), list_elem_of_fmap. exists (r, l). split; [done|by apply elem_of_map_to_list].
Qed.

(** (C21) findDuplicateGroups returns exactly the connected components with two
    members or more of the relation "share a normalized email or phone, or a
    name while one of them has neither": each group is ascending and closed under
    connection, every connected pair is in one group, and the groups are ordered
    by first index, whatever order Go visits its maps in. *)
Theorem duplicate_groups_are_components {RL : RangeOrderLaws} {SL : SortSliceLaws} (cs : list Contact) :
  let gs := findDuplicateGroups cs in
  (forall g, g ∈ gs -> (2 <= length g)%nat /\ NoDup g /\ Sorted le g) /\
  (forall g i j, g ∈ gs -> i ∈ g -> (i < length cs)%nat /\ (j ∈ g <-> connected cs i j)) /\
  (forall i j, connected cs i j -> i ≠ j -> exists g, g ∈ gs /\ i ∈ g /\ j ∈ g) /\
  Sorted (fun a b => hd 0 a <= hd 0 b)%nat gs.
Proof.
  pose proof (loops_exact cs) as (F & L & HS). unfold findDuplicateGroups.
  destruct (keyLoop 0 cs (newUnionFind (length cs), ∅)) as [uf1 m]. cbn [fst snd] in F, L, HS.
  set (uf2 := foldl _ uf1 _) in *. pose proof (compLoop_inv uf2 (length cs) F ltac:(lia)) as (_ & C1 & C2).
  destruct (foldl compStep (uf2, ∅) (seq 0 (length cs))) as [uf3 comps]. cbn [fst snd] in *. split_and!.
  - intros g (r & l & Hr & Hl & ->)%groups_elem. rewrite (Permutation_length (sortStable_perm Nat.ltb l)). split_and!; [done| |].
    + rewrite sortStable_perm. by apply (C1 r l).
    + eapply Sorted_weaken; [|apply sortStable_sorted]; intros a b; simpl; rewrite ?Nat.ltb_lt, ?Nat.ltb_ge; lia.
  - intros g i j (r & l & Hr & Hl & ->)%groups_elem Hi. rewrite sortStable_perm in Hi |- *.
    destruct (C1 r l Hr) as [_ Hin]. destruct (Hin i Hi) as [Hlt Hir]. split; [done|]. rewrite <- HS by done. split.
    + intros Hj. destruct (Hin j Hj). by exists r.
    + intros Hs. assert (Hjr : root uf2 j r) by (by eapply same_root). destruct (C2 j r) as (l' & Hl' & ?); [|done|congruence].
      destruct Hjr as [k Hk]. apply rootn_lt in Hk. lia.
  - intros i j Hc Hne. assert (Hi : (i < length cs)%nat).
    { inversion Hc as [|? ? ? (a & b & Ha & _)]; [done|]. by eapply lookup_lt_Some. }
    apply HS in Hc as (r & Hi' & Hj'); [|done]. destruct (C2 i r) as (l & Hl & Hil); [done|done|].
    destruct (C2 j r) as (l' & Hl' & Hjl); [destruct Hj' as [k Hk]; apply rootn_lt in Hk; lia|done|].
    assert (l' = l) as -> by congruence. exists (sortStable Nat.ltb l).
    split_and!; [apply groups_elem|by rewrite sortStable_perm|by rewrite sortStable_perm].
    exists r, l. split_and!; [done| |done]. destruct l as [|a [|b l]]; simpl; [by apply elem_of_nil in Hil| |lia].
    apply list_elem_of_singleton in Hil, Hjl. congruence.
  - eapply Sorted_weaken; [|apply sort_slice_sorted]; intros a b; simpl; intros; rewrite ?Nat.ltb_lt, ?Nat.ltb_ge in *; lia.
Qed.

(** No index is in two groups. *)
Lemma NoDup_values (m : gmap nat (list nat)) :
  (forall r l, m !! r = Some l -> NoDup l) ->
  (forall r r' l l' i, m !! r = Some l -> m !! r' = Some l' -> i ∈ l -> i ∈ l' -> r = r') ->
  NoDup ((map_to_list m).*2 ≫= id).
Proof.
  intros Hnd Hdis. assert (Hin : forall r l, (r, l) ∈ map_to_list m -> m !! r = Some l) by (intros ??; by rewrite elem_of_map_to_list).
  pose proof (NoDup_fst_map_to_list m) as Hk. revert Hin Hk.
  induction (map_to_list m) as [|[r l] ls IH]; intros Hin Hk; csimpl; [constructor|].
  csimpl in Hk. apply NoDup_cons in Hk as [Hr Hk]. apply NoDup_app. split_and!.
  - apply (Hnd r). apply Hin. left.
  - intros i Hi (l' & Hi' & Hl')%list_elem_of_bind. unfold id in *. apply list_elem_of_fmap in Hl' as ([r' l''] & -> & Hl').
    apply Hr. rewrite (Hdis r r' l l'' i); [by apply (list_elem_of_fmap_2' fst _ (r', l''))|..]; [apply Hin; left|apply Hin; by right|done|done].
  - apply IH; [|done]. intros r' l' ?. apply Hin. by right.
Qed.

Lemma bind_filter_sublist {A} (p : list A -> bool) (ls : list (list A)) : (List.filter p ls ≫= id) `sublist_of` (ls ≫= id).
Proof. induction ls as [|l ls IH]; csimpl; [done|]. destruct (p l); csimpl; [by apply sublist_app|by apply sublist_inserts_l]. Qed.

Lemma bind_fmap_perm {A} (f : list A -> list A) (ls : list (list A)) :
  (forall l, f l ≡ₚ l) -> (f <$> ls) ≫= id ≡ₚ ls ≫= id.
Proof. intros H. induction ls as [|l ls IH]; csimpl; [done|]. by apply Permutation_app; [apply H|]. Qed.

Lemma findDuplicateGroups_NoDup {RL : RangeOrderLaws} {SL : SortSliceLaws} cs : NoDup (findDuplicateGroups cs ≫= id).
Proof.
  pose proof (loops_exact cs) as (F & L & _). unfold findDuplicateGroups.
  destruct (keyLoop 0 cs (newUnionFind (length cs), ∅)) as [uf1 m]. cbn [fst snd] in F, L.
  set (uf2 := foldl _ uf1 _) in *. pose proof (compLoop_inv uf2 (length cs) F ltac:(lia)) as (_ & C1 & _).
  destruct (foldl compStep (uf2, ∅) (seq 0 (length cs))) as [uf3 comps]. cbn [fst snd] in *.
  rewrite (sort_slice_perm _ _ _), bind_fmap_perm by apply sortStable_perm.
  eapply sublist_NoDup; [|apply bind_filter_sublist]. rewrite (range_order_perm _ _). apply NoDup_values.
  - intros r l Hl. by apply (C1 r l).
  - intros r r' l l' i Hl Hl' Hi Hi'. destruct (C1 r l Hl) as [_ H1], (C1 r' l' Hl') as [_ H2].
    destruct (H1 i Hi) as [_ R1], (H2 i Hi') as [_ R2]. by eapply root_det.
Qed.

(** ** A merge keeps the group's addresses *)

Lemma unionLoop_covers {A K} `{EqDecision K} (key : A -> option K) l k x : forall seen,
  x ∈ l -> key x = Some k -> k ∈ seen \/ exists y, y ∈ unionLoop key seen l /\ key y = Some k.
Proof.
  induction l as [|z l IH]; intros seen Hx Hk; [by apply elem_of_nil in Hx|]. simpl.
  apply elem_of_cons in Hx as [<-|Hx].
  - rewrite Hk. case_bool_decide; [by left|]. right. exists x. split; [left|done].
  - destruct (key z) as [kz|] eqn:Ez; [|auto]. case_bool_decide as Hs; [auto|].
    destruct (IH (kz :: seen) Hx Hk) as [[->|?]%elem_of_cons|(y & Hy & ?)].
    + right. exists z. split; [left|done].
    + by left.
    + right. exists y. split; [by right|done].
Qed.

Lemma unionValues_covers members get norm m x k :
  m ∈ members -> x ∈ get m -> nonEmptyKey (norm (cvValue x)) = Some k ->
  exists y, y ∈ unionValues members get norm /\ nonEmptyKey (norm (cvValue y)) = Some k.
Proof.
  intros Hm Hx Hk. unfold unionValues.
  destruct (unionLoop_covers (fun v => nonEmptyKey (norm (cvValue v))) (members ≫= get) k x []) as [H|H];
    [apply list_elem_of_bind; by exists m|done|by apply elem_of_nil in H|done].
Qed.

Lemma omap_key_elem (pre : gostr) (norm : gostr -> gostr) (l : list ContactValue) k :
  k ∈ omap (fun e => let v := norm (cvValue e) in if v =s? [] then None else Some (pre ++ v)) l <->
  exists e w, e ∈ l /\ nonEmptyKey (norm (cvValue e)) = Some w /\ k = pre ++ w.
Proof.
  rewrite list_elem_of_omap. unfold nonEmptyKey. split.
  - intros (e & He & Hk). exists e. case_bool_decide; simplify_eq. by eexists.
  - intros (e & w & He & Hw & ->). exists e. split; [done|]. by case_bool_decide; simplify_eq.
Qed.

(** Every normalized email and phone of a member is one of the survivor's. *)
Lemma mergeGroup_keys ms m k : m ∈ ms -> k ∈ matchKeys m -> k ∈ matchKeys (mergeGroup ms).1.
Proof.
  intros Hm. unfold matchKeys. rewrite !elem_of_app, !omap_key_elem. cbn [mergeGroup fst Emails Phones].
  intros [(e & w & He & Hw & ->)|(e & w & He & Hw & ->)]; [left|right].
  - destruct (unionValues_covers ms Emails normalizeEmail m e w) as (y & ? & ?); [done..|]. by exists y, w.
  - destruct (unionValues_covers ms Phones normalizePhone m e w) as (y & ? & ?); [done..|]. by exists y, w.
Qed.

(** ** A merge moves a key only with its provenance *)

(** The survivor's key, its pin, source, verified flag and Autocrypt date all come
    from one member, the survivor itself when it had a key. *)
Lemma mergeGroup_provenance {SL : SortSliceLaws} ms :
  let s := (mergeGroup ms).1 in
  PGPKey s ≠ [] ->
  exists m, m ∈ ms /\ PGPKey s = PGPKey m /\ PGPKeyFingerprint s = PGPKeyFingerprint m /\
    PGPKeySource s = PGPKeySource m /\ PGPKeyVerified s = PGPKeyVerified m /\
    PGPKeyAutocryptDate s = PGPKeyAutocryptDate m.
Proof.
  cbn zeta. unfold mergeGroup. cbn [fst PGPKey PGPKeyFingerprint PGPKeySource PGPKeyVerified PGPKeyAutocryptDate].
  unfold mergePGPProvenance. pose proof (sort_slice_perm _ olderThan ms) as Hp.
  destruct (sort_slice _ olderThan ms) as [|m0 rest]; cbn [hd].
  - rewrite bool_decide_eq_true_2 by done. cbn [negb]. destruct (find_first _ _) as [m|] eqn:E; [|done]. intros _. exists m.
    apply find_first_Some in E as [Hm _]. rewrite (sort_slice_perm _ _ _) in Hm. done.
  - case_bool_decide; cbn [negb]; [|intros _; exists m0; split; [rewrite <- Hp; left|done]].
    destruct (find_first _ _) as [m|] eqn:E; [|done]. intros _. exists m.
    apply find_first_Some in E as [Hm _]. rewrite (sort_slice_perm _ _ _) in Hm. done.
Qed.

End Dedupe.
