(* ===== verification/Contacts.v ===== *)
(** * Contacts: the address book store (backend/internal/contacts/store.go)

    contacts.json holds the contacts, tombstones included, the revision counter
    [seq], the tombstone watermark [gcHighWaterRev] and the key generation
    [pgpKeyGen].  Every operation of the source is one definition in the
    file-store monad.  The clock is an argument (the text
    [time.Now().UTC().Format(time.RFC3339)] gives, or nanoseconds for GC), as are
    the UUIDs drawn; [time.Parse] of RFC 3339 text is the class [GoTime]. *)

From S2P Require Import Prelude GoText FileStore ContactsModel UnionFind Dedupe.

Class GoTime := parseTime : gostr -> option Z.

Record contactsFile := mkCF { contacts : list Contact; cseq : Z; gcHighWaterRev : Z; pgpKeyGen : Z }.
Definition emptyContacts : contactsFile := mkCF [] 0 0 0.

Inductive contacts_error := ContactLimit | ErrPreconditionFailed | ErrPGPKeyMismatch | CRand.
Abbreviation CS := (SM contacts_error contactsFile).

Definition MaxContactsPerUser : Z := 10000.
Definition defaultTombstoneRetention : Z := 30 * 24 * 3600 * 1000000000.

Record ContactPrecondition := mkPre { RequireAbsent : bool; RequireETag : gostr; KeepAbsentPGPKey : bool }.
Record BatchOp := mkBatchOp { bDelete : bool; bUID : gostr; bContact : Contact }.
Record DedupeMerge := mkDedupeMerge { dmSurvivor : gostr; dmAbsorbed : list gostr }.
Record DedupeReport := mkDedupeReport { MergedCount : Z; dedupeGroups : list DedupeMerge }.

Definition hasUID (uid : gostr) (c : Contact) : bool := UID c =s? uid.
Definition live (c : Contact) : bool := negb (Deleted c).

Section Contacts.
Context {U : Unicode} {SS : SortSlice} {RO : RangeOrder} {P : OpenPGP} {T : GoTime}.

(** ** PGP provenance *)

Definition carryPGPProvenance (c existing : Contact) : Contact :=
  if (PGPKey c =s? []) || (PGPKey existing =s? []) then c
  else if negb (PGPKey c =s? PGPKey existing) &&
          ((pgpKeyFingerprint (PGPKey c) =s? [])
           || negb (equalFold (pgpKeyFingerprint (PGPKey c)) (pgpKeyFingerprint (PGPKey existing)))) then c
  else if negb (PGPKeyFingerprint c =s? []) || negb (PGPKeySource c =s? []) || PGPKeyVerified c then c
  else setPGPKeyAutocryptDate (PGPKeyAutocryptDate existing)
         (setPGPKeyVerified (PGPKeyVerified existing)
            (setPGPKeySource (PGPKeySource existing)
               (setPGPKeyFingerprint (PGPKeyFingerprint existing) c))).

Definition keepUnconfirmedAutocrypt (c existing : Contact) : Contact :=
  let remembered :=
    if negb (PGPKey existing =s? []) && (PGPKeySource existing =s? PGPSourceAutocrypt) && negb (PGPKeyVerified existing)
    then pgpKeyFingerprint (PGPKey existing) else PGPKeyRemovedAutocrypt existing in
  let c := setPGPKeyRemovedAutocrypt [] c in
  if PGPKey c =s? [] then setPGPKeyRemovedAutocrypt remembered c
  else if (PGPKey existing =s? []) && negb (remembered =s? []) && (PGPKeySource c =s? []) && negb (PGPKeyVerified c)
          && equalFold (pgpKeyFingerprint (PGPKey c)) remembered
  then setPGPKeyFingerprint remembered (setPGPKeySource PGPSourceAutocrypt c)
  else c.

Definition pinPGPKeyFingerprint (c : Contact) : Contact :=
  if (PGPKey c =s? []) || negb (PGPKeyFingerprint c =s? []) then c
  else setPGPKeyFingerprint (pgpKeyFingerprint (PGPKey c)) c.

Definition pgpBindingOf (c : Contact) : gostr :=
  let addrs := List.filter (fun v => negb (v =s? [])) ((fun e => toLower (trimSpace (cvValue e))) <$> Emails c) in
  PGPKey c ++ [0%Z] ++ PGPKeyFingerprint c ++ [0%Z] ++ join ($",") (sortStable strLtb addrs).

Definition bumpPGPKeyGenIfBindingChanged (before after : Contact) (gen : Z) : Z :=
  if pgpBindingOf before =s? pgpBindingOf after then gen else (gen + 1)%Z.

(** ** Upsert and delete on the contents *)

Definition getLocked (uid : gostr) (v : contactsFile) : option Contact := find_first (hasUID uid) (contacts v).
Definition liveContactCountLocked (v : contactsFile) : Z := Z.of_nat (length (List.filter live (contacts v))).

(** The write is admitted: it edits a live contact, or there is room. *)
Definition admitted (c : Contact) (v : contactsFile) : bool :=
  negb (((UID c =s? []) || match getLocked (UID c) v with None => true | Some existing => Deleted existing end)
        && (MaxContactsPerUser <=? liveContactCountLocked v)%Z).

(** The key part of a write: public only, provenance carried from the stored
    record, then pinned. *)
Definition preparePGP (c : Contact) (v : contactsFile) : Contact :=
  let c1 := setPGPKey (publicPGPKey (PGPKey c)) c in
  let c2 := match getLocked (UID c1) v with
            | Some existing => keepUnconfirmedAutocrypt (carryPGPProvenance c1 existing) existing
            | None => c1
            end in
  pinPGPKeyFingerprint c2.

(** The fields an edit takes from the stored record. *)
Definition keepServerFields (c existing : Contact) : Contact :=
  let c := if CreatedAt c =s? [] then setCreatedAt (CreatedAt existing) c else c in
  setDiscoveryCreated (DiscoveryCreated c || DiscoveryCreated existing)
    (setPhoto (PhotoRef existing) (setIsSelf (IsSelf existing) c)).

Definition applyUpsertLocked (now : gostr) (uuid : option gostr) (c : Contact) (v : contactsFile) :
    res contacts_error Contact * contactsFile :=
  if negb (admitted c v) then (Err ContactLimit, v)
  else
    let c := preparePGP c v in
    let gen' := match getLocked (UID c) v with
                | Some before => bumpPGPKeyGenIfBindingChanged before c (pgpKeyGen v)
                | None => if negb (PGPKey c =s? []) then (pgpKeyGen v + 1)%Z else pgpKeyGen v
                end in
    let seq' := (cseq v + 1)%Z in
    let c := setUpdatedAt now (setDeleted false (setRev seq' c)) in
    if UID c =s? [] then
      match uuid with
      | None => (Err CRand, mkCF (contacts v) seq' (gcHighWaterRev v) gen')
      | Some uid =>
          let c := setCreatedAt now (setUID uid c) in
          (Ok c, mkCF (contacts v ++ [c]) seq' (gcHighWaterRev v) gen')
      end
    else
      match getLocked (UID c) v with
      | Some existing =>
          let c' := keepServerFields c existing in
          (Ok c', mkCF (update_first (hasUID (UID c)) (fun _ => c') (contacts v)) seq' (gcHighWaterRev v) gen')
      | None =>
          let c := setCreatedAt now c in
          (Ok c, mkCF (contacts v ++ [c]) seq' (gcHighWaterRev v) gen')
      end.

Definition applyDeleteLocked (now : gostr) (uid : gostr) (v : contactsFile) : bool * contactsFile :=
  match getLocked uid v with
  | None => (false, v)
  | Some before =>
      let seq' := (cseq v + 1)%Z in
      let c := tombstone before in
      let gen' := bumpPGPKeyGenIfBindingChanged before c (pgpKeyGen v) in
      let c := setUpdatedAt now (setRev seq' c) in
      (true, mkCF (update_first (hasUID uid) (fun _ => c) (contacts v)) seq' (gcHighWaterRev v) gen')
  end.

(** ** Operations *)

Definition upsertLocked (now : gostr) (uuid : option gostr) (c : Contact) : CS Contact :=
  v ← getMem;
  match applyUpsertLocked now uuid c v with
  | (Err e, v') => putMem v' ;; throw e
  | (Ok out, v') => save v' out
  end.

Definition upsertContact (now : gostr) (uuid : option gostr) (c : Contact) : CS Contact :=
  lockedUpdate (upsertLocked now uuid c).

Definition upsertWithPrecondition (now : gostr) (uuid : option gostr) (c : Contact) (pre : ContactPrecondition) :
    CS Contact :=
  lockedUpdate (
    v ← getMem;
    let existing := getLocked (UID c) v in
    if RequireAbsent pre && match existing with Some e => live e | None => false end then throw ErrPreconditionFailed
    else if negb (RequireETag pre =s? []) &&
            match existing with Some e => negb (contactETag e =s? RequireETag pre) | None => true end
    then throw ErrPreconditionFailed
    else
      let c := match existing with
               | Some e => if KeepAbsentPGPKey pre && (PGPKey c =s? []) then setPGPKey (PGPKey e) c else c
               | None => c
               end in
      upsertLocked now uuid c).

Definition confirmPGPKey (now : gostr) (uid fingerprint : gostr) : CS (option Contact) :=
  lockedUpdate (
    v ← getMem;
    match getLocked uid v with
    | None => mret None
    | Some c =>
        if Deleted c then mret None
        else
          let pin := PGPKeyFingerprint c in
          if (pin =s? []) || negb (equalFold (removeAll 32 fingerprint) pin)
             || negb (equalFold (pgpKeyFingerprint (PGPKey c)) pin)
          then throw ErrPGPKeyMismatch
          else c' ← upsertLocked now None (setPGPKeyVerified true c); mret (Some c')
    end).

Definition setPhotoRef (now : gostr) (uid ref : gostr) : CS (option Contact) :=
  lockedUpdate (
    v ← getMem;
    match getLocked uid v with
    | None => mret None
    | Some c =>
        let c' := setRev (Rev c + 1) (setUpdatedAt now (setPhoto ref c)) in
        save (mkCF (update_first (hasUID uid) (fun _ => c') (contacts v)) (cseq v) (gcHighWaterRev v) (pgpKeyGen v))
          (Some c')
    end).

Definition deleteContact (now : gostr) (uid : gostr) : CS bool :=
  lockedUpdate (
    v ← getMem;
    match applyDeleteLocked now uid v with
    | (false, _) => mret false
    | (true, v') => save v' true
    end).

(** SetSelf: the flag cleared elsewhere, then set at [idx]; [restamp] is the
    assignment of the flag with a fresh revision. *)
Definition restamp (now : gostr) (self : bool) (rev : Z) (c : Contact) : Contact :=
  setUpdatedAt now (setRev rev (setIsSelf self c)).
Fixpoint clearSelf (now : gostr) (idx i : nat) (cs : list Contact) (seq : Z) : list Contact * Z :=
  match cs with
  | [] => ([], seq)
  | c :: cs' =>
      if negb (bool_decide (i = idx)) && IsSelf c then
        let '(out, seq') := clearSelf now idx (S i) cs' (seq + 1)%Z in
        (restamp now false (seq + 1) c :: out, seq')
      else
        let '(out, seq') := clearSelf now idx (S i) cs' seq in (c :: out, seq')
  end.
Fixpoint indexOf (uid : gostr) (cs : list Contact) : option nat :=
  match cs with
  | [] => None
  | c :: cs' => if hasUID uid c then Some 0%nat else S <$> indexOf uid cs'
  end.
Definition setSelf (now : gostr) (uid : gostr) (self : bool) : CS (option Contact) :=
  lockedUpdate (
    v ← getMem;
    match indexOf uid (contacts v) with
    | None => mret None
    | Some idx =>
        let '(cs1, seq1) := if self then clearSelf now idx 0 (contacts v) (cseq v) else (contacts v, cseq v) in
        let '(cs2, seq2) :=
          match cs1 !! idx with
          | Some c => if negb (Bool.eqb (IsSelf c) self)
                      then (<[idx := restamp now self (seq1 + 1) c]> cs1, (seq1 + 1)%Z) else (cs1, seq1)
          | None => (cs1, seq1)
          end in
        let v' := mkCF cs2 seq2 (gcHighWaterRev v) (pgpKeyGen v) in
        if bool_decide (seq2 = cseq v) then mret (cs2 !! idx) else save v' (cs2 !! idx)
    end).

(** The tombstones GC purges, and the watermark. *)
Definition purgeable (cutoff : Z) (c : Contact) : bool :=
  Deleted c && match parseTime (UpdatedAt c) with Some t => (t <? cutoff)%Z | None => false end.
Definition gc (now retention : Z) : CS unit :=
  let retention := if (retention <=? 0)%Z then defaultTombstoneRetention else retention in
  lockedUpdate (
    v ← getMem;
    let gone := purgeable (now - retention) in
    let mark := foldl (fun m c => if (m <? Rev c)%Z then Rev c else m) (gcHighWaterRev v)
                  (List.filter gone (contacts v)) in
    match List.filter gone (contacts v) with
    | [] => mret tt
    | _ => save (mkCF (List.filter (fun c => negb (gone c)) (contacts v)) (cseq v) mark (pgpKeyGen v)) tt
    end).

(** ** Batches *)

Fixpoint batchLoop (clock : nat -> gostr) (uuid : nat -> option gostr) (i : nat) (ops : list BatchOp)
    (v : contactsFile) : res contacts_error unit * contactsFile :=
  match ops with
  | [] => (Ok tt, v)
  | op :: ops' =>
      if bDelete op then batchLoop clock uuid (S i) ops' (applyDeleteLocked (clock i) (bUID op) v).2
      else match applyUpsertLocked (clock i) (uuid i) (bContact op) v with
           | (Err e, v') => (Err e, v')
           | (Ok _, v') => batchLoop clock uuid (S i) ops' v'
           end
  end.

(** The closure [rollback]: contacts and sequence number of the snapshot. *)
Definition rollback (prev cur : contactsFile) : contactsFile :=
  mkCF (contacts prev) (cseq prev) (gcHighWaterRev cur) (pgpKeyGen cur).

Definition saveOrRollback (prev v' : contactsFile) : CS unit := fun i s =>
  match save v' tt i s with
  | (Ok _, s') => (Ok tt, s')
  | (Err e, s') => (Err e, {| mem := rollback prev (mem s'); disk := disk s' |})
  end.

Definition applyBatch (clock : nat -> gostr) (uuid : nat -> option gostr) (ops : list BatchOp) : CS unit :=
  match ops with
  | [] => mret tt
  | _ =>
      lockedUpdate (
        prev ← getMem;
        match batchLoop clock uuid 0 ops prev with
        | (Err e, v') => putMem (rollback prev v') ;; throw e
        | (Ok _, v') => saveOrRollback prev v'
        end)
  end.

(** ** Dedupe *)

(** The live contacts with their positions. *)
Fixpoint liveFrom (i : nat) (cs : list Contact) : list (nat * Contact) :=
  match cs with
  | [] => []
  | c :: cs' => if Deleted c then liveFrom (S i) cs' else (i, c) :: liveFrom (S i) cs'
  end.

(** [byUID]: the position of the group member with that UID. *)
Definition byUID (members : list (nat * Contact)) (uid : gostr) : option nat :=
  fst <$> find_first (fun m => hasUID uid m.2) members.

Definition tombstoneLoser (now : gostr) (members : list (nat * Contact)) (survivor : gostr)
    (st : list Contact * Z) (uid : gostr) : list Contact * Z :=
  let '(cs, seq) := st in
  match byUID members uid with
  | None => st
  | Some i => (alter (fun loser => setUpdatedAt now (setRev (seq + 1) (setMergedInto survivor (tombstone loser)))) i cs,
               (seq + 1)%Z)
  end.

Record dedupeState := mkDD { ddContacts : list Contact; ddSeq : Z; ddMerges : list DedupeMerge }.

Definition dedupeStep (now : gostr) (lv : list (nat * Contact)) (st : dedupeState) (group : list nat) : dedupeState :=
  let members := omap (fun gi => lv !! gi) group in
  if negb (groupShouldMerge members.*2) then st
  else
    let '(survivor, absorbed) := mergeGroup members.*2 in
    let seq1 := (ddSeq st + 1)%Z in
    let survivor := setUpdatedAt now (setRev seq1 survivor) in
    let cs1 := match byUID members (UID survivor) with
               | Some i => <[i := survivor]> (ddContacts st)
               | None => ddContacts st
               end in
    let '(cs2, seq2) := foldl (tombstoneLoser now members (UID survivor)) (cs1, seq1) absorbed in
    mkDD cs2 seq2 (ddMerges st ++ [mkDedupeMerge (UID survivor) absorbed]).

Definition dedupeAll (now : gostr) (v : contactsFile) : dedupeState :=
  let lv := liveFrom 0 (contacts v) in
  foldl (dedupeStep now lv) (mkDD (contacts v) (cseq v) []) (findDuplicateGroups lv.*2).

Definition dedupe (now : gostr) : CS DedupeReport :=
  lockedUpdate (
    v ← getMem;
    let st := dedupeAll now v in
    let report := mkDedupeReport
      (foldr (fun m n => Z.of_nat (length (dmAbsorbed m)) + n)%Z 0%Z (ddMerges st)) (ddMerges st) in
    match ddMerges st with
    | [] => mret report
    | _ => save (mkCF (ddContacts st) (ddSeq st) (gcHighWaterRev v) (pgpKeyGen v)) report
    end).

(** ** Opening *)

Fixpoint stripLoop (now : gostr) (n i : nat) (v : contactsFile) (stripped : nat) :
    res contacts_error nat * contactsFile :=
  match n with
  | O => (Ok stripped, v)
  | S n' =>
      match contacts v !! i with
      | None => (Ok stripped, v)
      | Some c =>
          if Deleted c || (PGPKey c =s? []) || negb (isSecretKey (PGPKey c)) then stripLoop now n' (S i) v stripped
          else match applyUpsertLocked now None c v with
               | (Err e, v') => (Err e, v')
               | (Ok _, v') => stripLoop now n' (S i) v' (S stripped)
               end
      end
  end.
Definition stripPrivatePGPKeys (now : gostr) : CS unit :=
  lockedUpdate (
    v ← getMem;
    match stripLoop now (length (contacts v)) 0 v 0 with
    | (Err e, v') => putMem v' ;; throw e
    | (Ok 0%nat, v') => putMem v'
    | (Ok _, v') => save v' tt
    end).

Definition newContacts (now : gostr) : CS unit :=
  openStore emptyContacts ;; stripPrivatePGPKeys now.

(** ** Reads *)

Definition listContacts : CS (list Contact) := refreshed (fun v => List.filter live (contacts v)).
Definition getContact (uid : gostr) : CS (option Contact) := refreshed (getLocked uid).
Definition getSelf : CS (option Contact) :=
  refreshed (fun v => find_first (fun c => IsSelf c && live c) (contacts v)).
Definition pGPKeyGeneration : CS Z := refreshed pgpKeyGen.

Record delta := mkDelta { dChanged : list Contact; dDeleted : list Contact; dCursor : Z; dTooOld : bool }.
Definition changedSinceOf (rev : Z) (v : contactsFile) : delta :=
  let tooOld := (0 <? rev)%Z && (rev <? gcHighWaterRev v)%Z in
  let newer := if tooOld then [] else List.filter (fun c => negb (Rev c <=? rev)%Z) (contacts v) in
  mkDelta (List.filter live newer) (List.filter Deleted newer) (cseq v) tooOld.
Definition changedSince (rev : Z) : CS delta := refreshed (changedSinceOf rev).

(** The score of a contact against the lower-cased query; [None] is -1. *)
Definition searchScore (q : gostr) (c : Contact) : option Z :=
  if hasPrefix q (toLower (FormattedName c)) then Some 0%Z
  else if existsb (fun e => hasPrefix q (toLower (cvValue e))) (Emails c) then Some 1%Z
  else if contains (toLower (FormattedName c)) q then Some 2%Z
  else if contains (toLower (GivenName c)) q || contains (toLower (FamilyName c)) q then Some 3%Z
  else if existsb (fun e => contains (toLower (cvValue e)) q) (Emails c) then Some 4%Z
  else None.
Definition searchOf (query : gostr) (limit : Z) (v : contactsFile) : list Contact :=
  let query := trimSpace query in
  if (query =s? []) || (limit <=? 0)%Z then []
  else
    let results := omap (fun c => if Deleted c then None else (fun s => (c, s)) <$> searchScore (toLower query) c)
                     (contacts v) in
    (take (Z.to_nat limit) (sortStable (fun a b => (a.2 <? b.2)%Z) results)).*1.
Definition search (query : gostr) (limit : Z) : CS (list Contact) := refreshed (searchOf query limit).

End Contacts.
