(* ===== verification/ContactsSpec.v ===== *)
(** * ContactsSpec: what the address book promises

    The abstract machine of the address book: a change replaces one contact
    under a fresh revision, adds one, or purges tombstones ([cstep]).  The file's
    invariant [ContactsOk] and the relation [Since] between an earlier and a
    later file are proved on the machine; the operations of the store are shown
    to be runs of it in ContactsRefine. *)

From S2P Require Import Prelude GoText FileStore ContactsModel UnionFind Dedupe Contacts.

(** A tombstone keeps identity and bookkeeping only. *)
Definition scrubbed (c : Contact) : Prop := tombstone c = setIsSelf false c.

(** At most one contact is marked as the user's own. *)
Definition OneSelf (cs : list Contact) : Prop :=
  forall i j a b, cs !! i = Some a -> cs !! j = Some b -> IsSelf a = true -> IsSelf b = true -> i = j.

Definition uids (v : contactsFile) : list gostr := UID <$> contacts v.

Record ContactsOk (v : contactsFile) : Prop := {
  ok_uids : NoDup (uids v);
  ok_uid_nonempty : [] ∉ uids v;
  ok_revs : NoDup (Rev <$> contacts v);
  ok_rev_bounds c : c ∈ contacts v -> (0 < Rev c <= cseq v)%Z;
  ok_gc : (0 <= gcHighWaterRev v <= cseq v)%Z;
  ok_scrubbed c : c ∈ contacts v -> Deleted c = true -> scrubbed c;
  ok_self : OneSelf (contacts v);
  ok_cap : (liveContactCountLocked v <= MaxContactsPerUser)%Z;
}.

Lemma ContactsOk_empty : ContactsOk emptyContacts.
Proof.
  assert (Hn : forall A (x : A), x ∉ []) by (intros A x H; by apply elem_of_nil in H).
  split; simpl; try constructor; simpl; try done; try (by intros c ?%Hn); by destruct (Hn _ _ H).
Qed.

(** ** The abstract machine *)

Inductive cstep (v : contactsFile) : contactsFile -> Prop :=
  | CReplace i old new gen :
      contacts v !! i = Some old -> UID new = UID old -> Rev new = (cseq v + 1)%Z ->
      (Deleted new = true -> scrubbed new) ->
      (IsSelf new = true -> IsSelf old = true \/
         forall j c, j ≠ i -> contacts v !! j = Some c -> IsSelf c = false) ->
      (Deleted new = false -> Deleted old = true -> (liveContactCountLocked v < MaxContactsPerUser)%Z) ->
      cstep v (mkCF (<[i := new]> (contacts v)) (cseq v + 1) (gcHighWaterRev v) gen)
  | CAppend new gen :
      UID new ≠ [] -> UID new ∉ uids v -> Rev new = (cseq v + 1)%Z -> Deleted new = false ->
      (IsSelf new = true -> forall c, c ∈ contacts v -> IsSelf c = false) ->
      (liveContactCountLocked v < MaxContactsPerUser)%Z ->
      cstep v (mkCF (contacts v ++ [new]) (cseq v + 1) (gcHighWaterRev v) gen)
  | CPurge (gone : Contact -> bool) mark gen :
      (forall c, c ∈ contacts v -> gone c = true -> Deleted c = true /\ (Rev c <= mark)%Z) ->
      (gcHighWaterRev v <= mark)%Z -> mark = gcHighWaterRev v \/ (exists c, c ∈ contacts v /\ mark = Rev c) ->
      cstep v (mkCF (List.filter (fun c => negb (gone c)) (contacts v)) (cseq v) mark gen).

(** ** Replacing, adding and purging in a list *)

Lemma insert_elem {A} (l : list A) i x y : y ∈ <[i := x]> l -> y = x \/ y ∈ l.
Proof.
  intros [j Hj]%list_elem_of_lookup. apply list_lookup_insert_Some in Hj as [(-> & <- & _)|[_ Hj]]; [by left|].
  right. by eapply list_elem_of_lookup_2.
Qed.

Lemma insert_NoDup {A B} (f : A -> B) (l : list A) i x :
  NoDup (f <$> l) -> f x ∉ f <$> l -> NoDup (f <$> <[i := x]> l).
Proof.
  intros Hnd Hx. apply NoDup_alt. intros a b y. rewrite !list_lookup_fmap, !fmap_Some.
  intros (u & Hu & ->) (w & Hw & E).
  assert (Hin : forall j z, l !! j = Some z -> f z ∈ f <$> l).
  { intros j z Hz. apply list_elem_of_fmap_2. by eapply list_elem_of_lookup_2. }
  apply list_lookup_insert_Some in Hu as [(-> & <- & _)|[Ha Hu]], Hw as [(-> & <- & _)|[Hb Hw]]; [done|..].
  - destruct Hx. rewrite E. eauto.
  - destruct Hx. rewrite <- E. eauto.
  - apply (NoDup_lookup (f <$> l) a b (f u)); [done|..]; rewrite list_lookup_fmap; [by rewrite Hu|rewrite Hw; simpl; by rewrite E].
Qed.

Lemma insert_fmap_id {A B} (f : A -> B) (l : list A) i x y : l !! i = Some y -> f x = f y -> f <$> <[i := x]> l = f <$> l.
Proof. intros Hy E. rewrite list_fmap_insert, E. apply list_insert_id. by rewrite list_lookup_fmap, Hy. Qed.

Lemma filter_length_app {A} (p : A -> bool) l x :
  length (List.filter p (l ++ [x])) = (length (List.filter p l) + (if p x then 1 else 0))%nat.
Proof. rewrite List.filter_app, length_app. simpl. by destruct (p x). Qed.

Lemma filter_length_insert {A} (p : A -> bool) l i x y :
  l !! i = Some y ->
  (length (List.filter p (<[i := x]> l)) + (if p y then 1 else 0) = length (List.filter p l) + (if p x then 1 else 0))%nat.
Proof.
  revert i. induction l as [|z l IH]; intros [|i]; simpl; [done|done| |].
  - intros [= ->]. destruct (p x), (p y); simpl; lia.
  - intros Hy. specialize (IH i Hy). destruct (p z); simpl; lia.
Qed.

Lemma filter_elem {A} (p : A -> bool) l x : x ∈ List.filter p l <-> x ∈ l /\ p x = true.
Proof. by rewrite !list_elem_of_In, filter_In. Qed.

Lemma filter_filter_length {A} (p q : A -> bool) l :
  (length (List.filter p (List.filter q l)) <= length (List.filter p l))%nat.
Proof. induction l as [|x l IH]; simpl; [done|]. destruct (q x), (p x) eqn:E; simpl; rewrite ?E; simpl; lia. Qed.

(** Distinct UIDs: a contact is known by its UID. *)
Lemma uid_inj v a b : NoDup (uids v) -> a ∈ contacts v -> b ∈ contacts v -> UID a = UID b -> a = b.
Proof.
  intros Hnd [i Hi]%list_elem_of_lookup [j Hj]%list_elem_of_lookup E.
  assert (i = j) as ->; [|congruence].
  apply (NoDup_lookup (uids v) i j (UID a)); [done|..]; unfold uids; rewrite list_lookup_fmap; [by rewrite Hi|].
  rewrite Hj. simpl. by rewrite E.
Qed.

(** ** The machine keeps the invariant *)

Lemma rev_fresh v n : (forall c, c ∈ contacts v -> (0 < Rev c <= cseq v)%Z) -> (cseq v < n)%Z -> n ∉ Rev <$> contacts v.
Proof. intros H Hn (c & -> & Hc)%list_elem_of_fmap. specialize (H c Hc). lia. Qed.

Lemma replace_ok v i old new gen :
  ContactsOk v -> contacts v !! i = Some old -> UID new = UID old -> Rev new = (cseq v + 1)%Z ->
  (Deleted new = true -> scrubbed new) ->
  (IsSelf new = true -> IsSelf old = true \/ forall j c, j ≠ i -> contacts v !! j = Some c -> IsSelf c = false) ->
  (Deleted new = false -> Deleted old = true -> (liveContactCountLocked v < MaxContactsPerUser)%Z) ->
  ContactsOk (mkCF (<[i := new]> (contacts v)) (cseq v + 1) (gcHighWaterRev v) gen).
Proof.
  intros Hok Hi Hu Hr Hs Hself Hl. assert (Eu : UID <$> <[i:=new]> (contacts v) = uids v) by (by eapply insert_fmap_id).
  split; unfold uids in *; simpl in *; rewrite ?Eu; try apply Hok.
  - apply insert_NoDup; [apply Hok|]. rewrite Hr. apply rev_fresh; [apply Hok|lia].
  - intros c [->|Hc]%insert_elem; [pose proof (ok_gc _ Hok); lia|]. pose proof (ok_rev_bounds _ Hok c Hc). lia.
  - pose proof (ok_gc _ Hok). lia.
  - intros c [->|Hc]%insert_elem; [done|by apply Hok].
  - assert (Hx : forall j c, j ≠ i -> contacts v !! j = Some c -> IsSelf new = true -> IsSelf c = true -> False).
    { intros j c Hji Hj Hn Hc. destruct (Hself Hn) as [Ho|Hno]; [|by rewrite (Hno j c) in Hc].
      apply Hji. by apply (ok_self _ Hok j i c old). }
    intros a b ca cb Ha Hb Sa Sb.
    apply list_lookup_insert_Some in Ha as [(-> & <- & _)|[Hai Ha]], Hb as [(-> & <- & _)|[Hbi Hb]]; [done|..].
    + by destruct (Hx b cb).
    + by destruct (Hx a ca).
    + by eapply (ok_self _ Hok).
  - pose proof (ok_cap _ Hok). unfold liveContactCountLocked in *. simpl.
    pose proof (filter_length_insert live (contacts v) i new old Hi) as Hc. unfold live at 2 4 in Hc.
    destruct (Deleted new), (Deleted old); simpl in *; lia.
Qed.

Lemma append_ok v new gen :
  ContactsOk v -> UID new ≠ [] -> UID new ∉ uids v -> Rev new = (cseq v + 1)%Z -> Deleted new = false ->
  (IsSelf new = true -> forall c, c ∈ contacts v -> IsSelf c = false) ->
  (liveContactCountLocked v < MaxContactsPerUser)%Z ->
  ContactsOk (mkCF (contacts v ++ [new]) (cseq v + 1) (gcHighWaterRev v) gen).
Proof.
  intros Hok Hne Hu Hr Hd Hself Hl.
  assert (Hin : forall c, c ∈ contacts v ++ [new] -> c ∈ contacts v \/ c = new) by set_solver.
  split; unfold uids in *; simpl in *.
  - rewrite fmap_app. apply NoDup_app. split_and!; [apply Hok|set_solver|apply NoDup_singleton].
  - rewrite fmap_app. pose proof (ok_uid_nonempty _ Hok). unfold uids in *. set_solver.
  - rewrite fmap_app. apply NoDup_app. split_and!; [apply Hok| |apply NoDup_singleton].
    pose proof (rev_fresh v (Rev new) (ok_rev_bounds _ Hok) ltac:(lia)). set_solver.
  - intros c [Hc| ->]%Hin; [pose proof (ok_rev_bounds _ Hok c Hc); lia|pose proof (ok_gc _ Hok); lia].
  - pose proof (ok_gc _ Hok). lia.
  - intros c [Hc| ->]%Hin; [by apply Hok|congruence].
  - intros a b ca cb Ha Hb Sa Sb.
    apply lookup_app_Some in Ha as [Ha|[La [Ha ->]%list_lookup_singleton_Some]],
      Hb as [Hb|[Lb [Hb ->]%list_lookup_singleton_Some]]; [by eapply (ok_self _ Hok)| | |lia].
    + apply list_elem_of_lookup_2 in Ha. rewrite (Hself Sb ca Ha) in Sa. done.
    + apply list_elem_of_lookup_2 in Hb. rewrite (Hself Sa cb Hb) in Sb. done.
  - unfold liveContactCountLocked in *. simpl. rewrite filter_length_app. destruct (live new); lia.
Qed.

Lemma OneSelf_filter (p : Contact -> bool) cs : OneSelf cs -> OneSelf (List.filter p cs).
Proof.
  induction cs as [|c cs IH]; intros H; simpl; [done|].
  assert (H' : OneSelf cs) by (intros i j a b Ha Hb Sa Sb; pose proof (H (S i) (S j) a b Ha Hb Sa Sb); lia).
  specialize (IH H'). destruct (p c); [|done].
  assert (Hx : forall i a, List.filter p cs !! i = Some a -> IsSelf c = true -> IsSelf a = true -> False).
  { intros i a Ha Sc Sa. apply list_elem_of_lookup_2, filter_elem in Ha as [[j Hj]%list_elem_of_lookup _].
    by pose proof (H 0 (S j) c a eq_refl Hj Sc Sa). }
  intros [|i] [|j] a b; simpl; intros Ha Hb Sa Sb; simplify_eq; [done|by destruct (Hx j b)|by destruct (Hx i a)|].
  f_equal. by eapply IH.
Qed.

Lemma purge_ok v (gone : Contact -> bool) mark gen :
  ContactsOk v -> (gcHighWaterRev v <= mark)%Z -> mark = gcHighWaterRev v \/ (exists c, c ∈ contacts v /\ mark = Rev c) ->
  ContactsOk (mkCF (List.filter (fun c => negb (gone c)) (contacts v)) (cseq v) mark gen).
Proof.
  intros Hok Hle Hm. set (p := fun c => negb (gone c)). pose proof (filter_sublist p (contacts v)) as Hs.
  split; unfold uids; simpl.
  - eapply sublist_NoDup; [apply Hok|]. by apply fmap_sublist.
  - intros Hin. apply (ok_uid_nonempty _ Hok). eapply sublist_subseteq; [by apply fmap_sublist|done].
  - eapply sublist_NoDup; [apply Hok|]. by apply fmap_sublist.
  - intros c [Hc _]%filter_elem. by apply Hok.
  - pose proof (ok_gc _ Hok). destruct Hm as [->|(c & Hc & ->)]; [done|]. pose proof (ok_rev_bounds _ Hok c Hc). lia.
  - intros c [Hc _]%filter_elem. by apply Hok.
  - apply OneSelf_filter, Hok.
  - pose proof (ok_cap _ Hok). pose proof (filter_filter_length live p (contacts v)).
    unfold liveContactCountLocked in *. simpl. lia.
Qed.

Lemma cstep_ok v v' : ContactsOk v -> cstep v v' -> ContactsOk v'.
Proof. destruct 2; [by eapply replace_ok|by apply append_ok|by apply purge_ok]. Qed.

Lemma csteps_ok v v' : ContactsOk v -> rtc cstep v v' -> ContactsOk v'.
Proof. intros Hok H. revert Hok. induction H; eauto using cstep_ok. Qed.

(** ** What a sync client can rely on *)

(** A later file [v'] against an earlier one [v]: what is in [v'] was there
    unchanged or carries a revision past [v]'s counter; what was in [v] is still
    known by its UID, or was a tombstone the watermark has passed, or the
    watermark is past [v]'s counter. *)
Definition Since (v v' : contactsFile) : Prop :=
  (cseq v <= cseq v')%Z /\ (gcHighWaterRev v <= gcHighWaterRev v')%Z /\
  (forall c, c ∈ contacts v' -> c ∈ contacts v \/ (cseq v < Rev c)%Z) /\
  (forall c, c ∈ contacts v ->
     UID c ∈ uids v' \/ (Deleted c = true /\ (Rev c <= gcHighWaterRev v')%Z) \/ (cseq v < gcHighWaterRev v')%Z).

Lemma uid_in v c : c ∈ contacts v -> UID c ∈ uids v.
Proof. apply list_elem_of_fmap_2. Qed.

Lemma Since_refl v : Since v v.
Proof. split_and!; [lia|lia|by left|]. intros c Hc. left. by apply uid_in. Qed.

Lemma Since_step v v' : cstep v v' -> Since v v'.
Proof.
  destruct 1 as [i old new gen Hi Hu Hr _ _ _|new gen Hne Hu Hr _ _ _|gone mark gen Hg Hle _];
    (split_and!; simpl; [lia|lia|..]).
  - intros c [->|?]%insert_elem; [right; lia|by left].
  - intros c Hc. left. unfold uids. simpl. rewrite (insert_fmap_id _ _ _ _ _ Hi Hu). by apply uid_in.
  - intros c [?| ->%list_elem_of_singleton]%elem_of_app; [by left|right; lia].
  - intros c Hc. left. unfold uids. simpl. rewrite fmap_app. apply elem_of_app. left. by apply uid_in.
  - intros c [? _]%filter_elem. by left.
  - intros c Hc. destruct (gone c) eqn:E; [right; left; by apply Hg|]. left. unfold uids. simpl.
    apply list_elem_of_fmap_2, filter_elem. by rewrite E.
Qed.

Lemma Since_trans v v1 v2 : ContactsOk v -> Since v v1 -> Since v1 v2 -> Since v v2.
Proof.
  intros Hok (S1 & G1 & A1 & B1) (S2 & G2 & A2 & B2). split_and!; [lia|lia|..].
  - intros c Hc. destruct (A2 c Hc) as [Hc1|]; [|right; lia]. by apply A1.
  - intros c Hc. destruct (B1 c Hc) as [Hu|[[Hd Hr]|Hg]]; [|right; left; split; [done|lia]|right; right; lia].
    apply list_elem_of_fmap in Hu as (c1 & Eu & Hc1). rewrite Eu.
    destruct (B2 c1 Hc1) as [?|[[Hd Hr]|?]]; [by left| |right; right; lia].
    destruct (A1 c1 Hc1) as [Hc'|?]; [|right; right; lia].
    assert (c = c1) as <- by (eapply uid_inj; [apply Hok|done..]). by right; left.
Qed.

Lemma Since_steps v v' : ContactsOk v -> rtc cstep v v' -> Since v v'.
Proof.
  intros Hok H. revert Hok. induction H as [v|v v1 v2 H1 _ IH]; intros Hok; [apply Since_refl|].
  eapply Since_trans; [done|by apply Since_step|]. apply IH. by eapply cstep_ok.
Qed.

(** A client's copy of the address book: the live contacts by UID. *)
Definition byUIDMap (cs : list Contact) : gmap gostr Contact := list_to_map ((fun c => (UID c, c)) <$> cs).
Definition liveView (v : contactsFile) : gmap gostr Contact := byUIDMap (List.filter live (contacts v)).

(** What the client does with a delta: drop the deleted, take the changed. *)
Definition applyDelta (d : delta) (m : gmap gostr Contact) : gmap gostr Contact :=
  byUIDMap (dChanged d) ∪ filter (fun e => e.1 ∉ (UID <$> dDeleted d)) m.

Lemma byUIDMap_Some cs u c :
  NoDup (UID <$> cs) -> byUIDMap cs !! u = Some c <-> c ∈ cs /\ UID c = u.
Proof.
  intros Hnd. unfold byUIDMap. rewrite <- elem_of_list_to_map.
  - rewrite list_elem_of_fmap. split; [by intros (c' & [= -> ->] & ?)|]. intros [? <-]. by exists c.
  - rewrite <- list_fmap_compose. done.
Qed.

Lemma uids_filter (p : Contact -> bool) cs : NoDup (UID <$> cs) -> NoDup (UID <$> List.filter p cs).
Proof. intros H. eapply sublist_NoDup; [done|]. apply fmap_sublist, filter_sublist. Qed.

Lemma liveView_Some v u c :
  ContactsOk v -> liveView v !! u = Some c <-> c ∈ contacts v /\ live c = true /\ UID c = u.
Proof.
  intros Hok. unfold liveView. rewrite byUIDMap_Some by (apply uids_filter, Hok). rewrite filter_elem. tauto.
Qed.

(** A client at [v]'s cursor that applies the delta is at [v']. *)
Lemma delta_converges v v' :
  ContactsOk v -> ContactsOk v' -> Since v v' ->
  dTooOld (changedSinceOf (cseq v) v') = false ->
  applyDelta (changedSinceOf (cseq v) v') (liveView v) = liveView v'.
Proof.
  intros Hok Hok' (_ & _ & HA & HB) Ho. unfold changedSinceOf in *. simpl in Ho. rewrite Ho.
  unfold applyDelta. simpl. set (newer := List.filter _ (contacts v')).
  assert (Hnew : forall c, c ∈ newer <-> c ∈ contacts v' /\ (cseq v < Rev c)%Z).
  { intros c. unfold newer. rewrite filter_elem, negb_true_iff, Z.leb_gt. done. }
  assert (Hnd : NoDup (UID <$> List.filter live newer)) by (apply uids_filter, uids_filter, Hok').
  apply map_eq. intros u. destruct (liveView v' !! u) as [c|] eqn:E.
  - apply liveView_Some in E as (Hc & Hl & Hu); [|done]. apply lookup_union_Some_raw.
    destruct (decide (cseq v < Rev c)%Z) as [Hr|Hr].
    + left. apply byUIDMap_Some; [done|]. rewrite filter_elem, Hnew. done.
    + right. destruct (HA c Hc) as [Hcv|]; [|done]. split.
      * apply eq_None_not_Some. intros [c' (Hc' & Hu')%byUIDMap_Some]; [|done].
        apply filter_elem in Hc' as [[Hc' Hr']%Hnew _].
        apply Hr. by rewrite (uid_inj v' c c') by (try apply Hok'; congruence).
      * apply map_lookup_filter_Some. split; [by apply liveView_Some|]. simpl.
        intros (c' & Hu' & [[Hc' Hr']%Hnew Hd]%filter_elem)%list_elem_of_fmap.
        assert (c' = c) as -> by (eapply uid_inj; [apply Hok'|done|done|congruence]). unfold live in Hl. by rewrite Hd in Hl.
  - apply eq_None_not_Some. intros [c [Hc|[_ Hc]]%lookup_union_Some_raw].
    + apply byUIDMap_Some in Hc as (Hc & Hu); [|done]. apply filter_elem in Hc as [[Hc _]%Hnew Hl].
      assert (liveView v' !! u = Some c) by (by apply liveView_Some). congruence.
    + apply map_lookup_filter_Some in Hc as [Hc Hnd']. simpl in Hnd'. apply liveView_Some in Hc as (Hc & Hl & Hu); [|done].
      pose proof (ok_rev_bounds _ Hok c Hc).
      destruct (HB c Hc) as [Hin|[[Hd _]|Hg]]; [|unfold live in Hl; by rewrite Hd in Hl|].
      * apply list_elem_of_fmap in Hin as (c' & Eu & Hc'). destruct (live c') eqn:Hl'.
        { assert (liveView v' !! u = Some c') by (apply liveView_Some; [done|]; split_and!; congruence). congruence. }
        destruct (HA c' Hc') as [Hcv|Hr].
        { assert (c' = c) as -> by (eapply uid_inj; [apply Hok|done|done|congruence]). congruence. }
        apply Hnd'. rewrite <- Hu, Eu. apply list_elem_of_fmap_2, filter_elem. split; [by apply Hnew|].
        unfold live in Hl'. by apply negb_false_iff in Hl'.
      * apply andb_false_iff in Ho as [Ho|Ho]; to_prop; lia.
Qed.
