(* ===== verification/ContactsRefine.v ===== *)
(** * ContactsRefine: the store's operations are runs of the abstract machine

    Each operation's effect on the contents is a sequence of [cstep]s, and what
    it leaves on disk is the old file or the result, whichever system calls
    fail.  SetPhotoRef is the exception: it bumps the contact's revision
    without drawing one from the counter. *)

From S2P Require Import Prelude GoText FileStore ContactsModel UnionFind Dedupe Contacts ContactsSpec.

Lemma find_first_index {A} (p : A -> bool) l x :
  find_first p l = Some x -> exists i, l !! i = Some x /\ forall y, update_first p (fun _ => y) l = <[i := y]> l.
Proof.
  induction l as [|z l IH]; simpl; [done|]. destruct (p z); [intros [= ->]; by exists 0|].
  intros H. destruct (IH H) as (i & Hi & Hu). exists (S i). split; [done|]. intros y. simpl. by rewrite Hu.
Qed.

Lemma getLocked_Some uid v c : getLocked uid v = Some c -> c ∈ contacts v /\ UID c = uid.
Proof. intros [? H]%find_first_Some. unfold hasUID in H. by to_prop. Qed.

Lemma getLocked_None uid v : getLocked uid v = None <-> uid ∉ uids v.
Proof.
  unfold getLocked. rewrite find_first_None. split.
  - intros H (c & -> & Hc)%list_elem_of_fmap. specialize (H c Hc). unfold hasUID in H. by to_prop.
  - intros H c Hc. apply bool_decide_eq_false_2. intros <-. by apply H, uid_in.
Qed.

(** With distinct UIDs a contact is found under its own. *)
Lemma getLocked_self v c : ContactsOk v -> c ∈ contacts v -> getLocked (UID c) v = Some c.
Proof.
  intros Hok Hc. destruct (getLocked (UID c) v) as [c'|] eqn:E.
  - apply getLocked_Some in E as [? ?]. f_equal. eapply uid_inj; [apply Hok|done..].
  - apply getLocked_None in E. by destruct E; apply uid_in.
Qed.

Section Refine.
Context {U : Unicode} {SS : SortSlice} {RO : RangeOrder} {P : OpenPGP} {T : GoTime}.

(** The key handling of a write touches the key fields only. *)
Lemma preparePGP_frame c v :
  UID (preparePGP c v) = UID c /\ IsSelf (preparePGP c v) = IsSelf c /\ PhotoRef (preparePGP c v) = PhotoRef c /\
  CreatedAt (preparePGP c v) = CreatedAt c.
Proof.
  unfold preparePGP, pinPGPKeyFingerprint, keepUnconfirmedAutocrypt, carryPGPProvenance. cbn [UID setPGPKey].
  destruct (getLocked (UID c) v); repeat (case_match; try done).
Qed.

Lemma keepServerFields_frame c e :
  UID (keepServerFields c e) = UID c /\ Rev (keepServerFields c e) = Rev c /\
  Deleted (keepServerFields c e) = Deleted c /\ IsSelf (keepServerFields c e) = IsSelf e.
Proof. unfold keepServerFields. by case_bool_decide. Qed.

(** The server's own identifiers are new, and a contact is not created as the
    user's own card. *)
Definition FreshUpsert (uuid : option gostr) (c : Contact) (v : contactsFile) : Prop :=
  (UID c = [] -> forall id, uuid = Some id -> id ≠ [] /\ id ∉ uids v) /\
  (UID c ∉ uids v -> IsSelf c = false).

Lemma admitted_room c v :
  admitted c v = true ->
  UID c = [] \/ getLocked (UID c) v = None \/ (exists e, getLocked (UID c) v = Some e /\ Deleted e = true) ->
  (liveContactCountLocked v < MaxContactsPerUser)%Z.
Proof.
  unfold admitted. intros [Hc|Hc]%negb_true_iff%andb_false_iff Hn; [exfalso|by to_prop].
  apply orb_false_iff in Hc as [Hc1 Hc2]. to_prop. destruct Hn as [?|[E|(e & E & ?)]]; [done|..]; rewrite E in Hc2; congruence.
Qed.

Lemma applyUpsert_step now uuid c v out v' :
  ContactsOk v -> FreshUpsert uuid c v -> applyUpsertLocked now uuid c v = (Ok out, v') -> cstep v v'.
Proof.
  intros Hok [Hf1 Hf2]. unfold applyUpsertLocked. destruct (admitted c v) eqn:Ha; simpl; [|done].
  destruct (preparePGP_frame c v) as (Eu & Es & _).
  rewrite !Eu. assert (Hne : [] ∉ uids v) by apply Hok. case_bool_decide as Hu.
  - destruct uuid as [id|]; [|done]. intros [= <- <-]. destruct (Hf1 Hu id eq_refl) as [Hid1 Hid2].
    apply CAppend; simpl; try done.
    + rewrite Es. intros Hs. rewrite Hf2 in Hs; [done|by rewrite Hu].
    + eapply admitted_room; eauto.
  - destruct (getLocked (UID c) v) as [e|] eqn:Ee; intros [= <- <-].
    + pose proof (find_first_index _ _ _ Ee) as (i & Hi & Hup). apply getLocked_Some in Ee as HE. destruct HE as [He Heu].
      set (c1 := setUpdatedAt _ _). destruct (keepServerFields_frame c1 e) as (K1 & K2 & K3 & K4).
      rewrite Hup. apply (CReplace v i e); try done.
      * rewrite K1. change (UID c1) with (UID (preparePGP c v)). congruence.
      * by rewrite K3.
      * rewrite K4. by left.
      * intros _ Hd. eapply admitted_room; eauto.
    + apply CAppend; simpl; rewrite ?Eu; try done.
      * by apply getLocked_None.
      * rewrite Es. intros Hs. rewrite Hf2 in Hs; [done|by apply getLocked_None].
      * eapply admitted_room; eauto.
Qed.

Lemma tombstone_scrubbed c now rev into : 
  scrubbed (tombstone c) /\ scrubbed (setUpdatedAt now (setRev rev (tombstone c))) /\
  scrubbed (setUpdatedAt now (setRev rev (setMergedInto into (tombstone c)))).
Proof. done. Qed.

Lemma applyDelete_steps now uid v : rtc cstep v (applyDeleteLocked now uid v).2.
Proof.
  unfold applyDeleteLocked. destruct (getLocked uid v) as [c|] eqn:E; simpl; [|constructor].
  destruct (find_first_index _ _ _ E) as (i & Hi & Hup). rewrite Hup. apply rtc_once.
  eapply CReplace; simpl; try done.
Qed.

(** ** Batches *)

(** The UUIDs a batch draws are new: not in the file, not the name of a
    contact in the batch, and each drawn once. *)
Definition FreshBatch (uuid : nat -> option gostr) (from : nat) (ops : list BatchOp) (v : contactsFile) : Prop :=
  (forall n id, (from <= n)%nat -> uuid n = Some id ->
     id ≠ [] /\ id ∉ uids v /\ id ∉ ((fun o => UID (bContact o)) <$> ops)) /\
  (forall n m id, uuid n = Some id -> uuid m = Some id -> n = m) /\
  Forall (fun o => IsSelf (bContact o) = false) ops.

(** The UIDs after a write: the old ones and at most the written contact's. *)
Lemma applyUpsert_uids now uuid c v out v' u :
  applyUpsertLocked now uuid c v = (Ok out, v') -> u ∈ uids v' -> u ∈ uids v \/ u = UID c \/ uuid = Some u.
Proof.
  unfold applyUpsertLocked. destruct (admitted c v); simpl; [|done]. destruct (preparePGP_frame c v) as (Eu & _).
  rewrite !Eu. unfold uids. case_bool_decide.
  - destruct uuid; [|done]. intros [= <- <-]. simpl. rewrite fmap_app. set_solver.
  - destruct (getLocked (UID c) v) as [e|] eqn:Ee; intros [= <- <-]; simpl.
    + destruct (keepServerFields_frame (setUpdatedAt now (setDeleted false (setRev (cseq v + 1) (preparePGP c v)))) e)
        as (K1 & _).
      intros (x & -> & Hx)%list_elem_of_fmap. apply update_first_elem in Hx as [Hx|(y & _ & ->)].
      * left. by apply list_elem_of_fmap_2.
      * right. left. by rewrite K1.
    + rewrite fmap_app. simpl. rewrite Eu. set_solver.
Qed.

Lemma applyDelete_uids now uid v : uids (applyDeleteLocked now uid v).2 = uids v.
Proof.
  unfold applyDeleteLocked. destruct (getLocked uid v) as [c|] eqn:E; simpl; [|done]. unfold uids. simpl.
  apply update_first_map. intros x Hx. unfold getLocked in E. rewrite Hx in E. by injection E as ->.
Qed.

Lemma batchLoop_steps clock uuid ops : forall i v v',
  ContactsOk v -> FreshBatch uuid i ops v -> batchLoop clock uuid i ops v = (Ok tt, v') -> rtc cstep v v'.
Proof.
  induction ops as [|op ops IH]; intros i v v' Hok (F1 & F2 & F3); simpl; [intros [= <-]; constructor|].
  inversion F3 as [|? ? Fop Fops]; subst. destruct (bDelete op).
  - intros H. pose proof (applyDelete_steps (clock i) (bUID op) v) as Hd. etrans; [exact Hd|].
    eapply IH; [by eapply csteps_ok| |exact H]. split_and!; [|done|done].
    intros n id Hn Hid. rewrite applyDelete_uids. destruct (F1 n id) as (? & ? & ?); [lia|done|]. set_solver.
  - destruct (applyUpsertLocked (clock i) (uuid i) (bContact op) v) as [[out|e] v1] eqn:E; [|done].
    intros H. assert (Hs : cstep v v1).
    { eapply applyUpsert_step; [done| |exact E]. split; [|done]. intros _ id Hid. destruct (F1 i id) as (? & ? & ?); [lia|done|done]. }
    eapply rtc_l; [done|]. eapply IH; [by eapply cstep_ok| |exact H]. split_and!; [|done|done].
    intros n id Hn Hid. destruct (F1 n id) as (? & Hv & Ho); [lia|done|]. split_and!; [done| |set_solver].
    intros Hin. destruct (applyUpsert_uids _ _ _ _ _ _ _ E Hin) as [?|[->|Hi]]; [done|set_solver|].
    pose proof (F2 _ _ _ Hid Hi). lia.
Qed.

(** ** SetSelf *)

Lemma restamp_scrubbed now b r c : scrubbed c -> scrubbed (restamp now b r c).
Proof.
  unfold scrubbed. intros H. change (tombstone (restamp now b r c)) with (setUpdatedAt now (setRev r (tombstone c))).
  change (setIsSelf false (restamp now b r c)) with (setUpdatedAt now (setRev r (setIsSelf false c))). by rewrite H.
Qed.

Lemma clearSelf_steps now idx g gen cs : forall pre seq,
  ContactsOk (mkCF (pre ++ cs) seq g gen) ->
  let r := clearSelf now idx (length pre) cs seq in
  rtc cstep (mkCF (pre ++ cs) seq g gen) (mkCF (pre ++ r.1) r.2 g gen) /\
  forall j c, r.1 !! j = Some c -> (length pre + j)%nat ≠ idx -> IsSelf c = false.
Proof.
  induction cs as [|c cs IH]; intros pre seq Hok; simpl; [split; [constructor|intros j c; by rewrite lookup_nil]|].
  assert (El : forall x : Contact, S (length pre) = length (pre ++ [x])) by (intros; rewrite length_app; simpl; lia).
  destruct (negb (bool_decide (length pre = idx)) && IsSelf c) eqn:Ec.
  - set (c' := restamp now false (seq + 1) c).
    assert (Hs : cstep (mkCF (pre ++ c :: cs) seq g gen) (mkCF ((pre ++ [c']) ++ cs) (seq + 1) g gen)).
    { replace ((pre ++ [c']) ++ cs) with (<[length pre := c']> (pre ++ c :: cs)).
      2: { rewrite <- app_assoc, <- (Nat.add_0_r (length pre)), insert_app_r. done. }
      apply (CReplace (mkCF (pre ++ c :: cs) seq g gen) _ c); simpl; try done; try congruence.
      - by rewrite lookup_app_r, Nat.sub_diag by lia.
      - intros Hd. apply restamp_scrubbed, (ok_scrubbed _ Hok); [simpl; set_solver|done]. }
    rewrite (El c'). pose proof (IH (pre ++ [c']) (seq + 1)%Z (cstep_ok _ _ Hok Hs)) as [H1 H2].
    destruct (clearSelf now idx (length (pre ++ [c'])) cs (seq + 1)) as [out seq']. simpl in *. split.
    + eapply rtc_l; [exact Hs|]. by rewrite <- (app_assoc pre [c'] out) in H1.
    + intros [|j] x; simpl; [by intros [= <-]|]. intros Hx Hj. apply (H2 j x Hx). rewrite length_app. simpl. lia.
  - rewrite (El c). pose proof (IH (pre ++ [c]) seq) as IH'. rewrite <- (app_assoc pre [c] cs) in IH'. destruct (IH' Hok) as [H1 H2].
    destruct (clearSelf now idx (length (pre ++ [c])) cs seq) as [out seq']. simpl in *. split; [by rewrite <- (app_assoc pre [c] out) in H1|].
    intros [|j] x; simpl; [|intros Hx Hj; apply (H2 j x Hx); rewrite length_app; simpl; lia].
    intros [= <-] Hj. rewrite bool_decide_eq_false_2 in Ec by lia. done.
Qed.

Lemma setSelf_keeps now uid self i m0 v :
  ContactsOk v -> exists v', disk (setSelf now uid self i {| mem := m0; disk := FData v |}).2 = FData v' /\ rtc cstep v v'.
Proof.
  intros Hok. apply (lockedUpdate_keeps (rtc cstep v)); [constructor|]. unfold getMem, mbind, SM_bind. simpl.
  destruct (indexOf uid (contacts v)) as [idx|]; [|eexists; split; [done|constructor]].
  set (r1 := if self then _ else _).
  assert (H1 : rtc cstep v (mkCF r1.1 r1.2 (gcHighWaterRev v) (pgpKeyGen v)) /\
    (self = true -> forall j c, r1.1 !! j = Some c -> j ≠ idx -> IsSelf c = false)).
  { destruct self; [|by destruct v].
    destruct (clearSelf_steps now idx (gcHighWaterRev v) (pgpKeyGen v) (contacts v) [] (cseq v)) as [H1 H2]; [by destruct v|].
    split; [by destruct v|intros _; exact H2]. }
  destruct r1 as [cs1 seq1]. simpl in *. destruct H1 as [H1 Hno].
  set (r2 := match cs1 !! idx with Some _ => _ | None => _ end).
  assert (H2 : rtc cstep v (mkCF r2.1 r2.2 (gcHighWaterRev v) (pgpKeyGen v))).
  { etrans; [exact H1|]. unfold r2. destruct (cs1 !! idx) as [c|] eqn:Ec; [|constructor].
    destruct (negb (Bool.eqb (IsSelf c) self)) eqn:Eb; [|constructor]. apply rtc_once.
    pose proof (csteps_ok _ _ Hok H1) as Hok1.
    apply (CReplace (mkCF cs1 seq1 (gcHighWaterRev v) (pgpKeyGen v)) idx c); simpl; try done; try congruence.
    - intros Hd. apply restamp_scrubbed, (ok_scrubbed _ Hok1); [by eapply list_elem_of_lookup_2|done].
    - intros ->. right. intros j x Hj Hx. by apply (Hno eq_refl j). }
  destruct r2 as [cs2 seq2]. simpl in *. case_bool_decide; [eexists; split; [done|constructor]|].
  apply save_keeps; [constructor|done].
Qed.

(** ** GC *)

Lemma mark_spec cs : forall m0, let m := foldl (fun m c => if (m <? Rev c)%Z then Rev c else m) m0 cs in
  (m0 <= m)%Z /\ (forall c, c ∈ cs -> (Rev c <= m)%Z) /\ (m = m0 \/ exists c, c ∈ cs /\ m = Rev c).
Proof.
  induction cs as [|c cs IH]; intros m0; simpl; [split_and!; [lia|set_solver|by left]|].
  destruct (m0 <? Rev c)%Z eqn:E; to_prop.
  - destruct (IH (Rev c)) as (H1 & H2 & H3). split_and!; [lia| |].
    + intros x [->|Hx]%elem_of_cons; [lia|auto].
    + right. destruct H3 as [->|(x & ? & ?)]; [exists c; split; [left|done]|exists x; split; [by right|done]].
  - destruct (IH m0) as (H1 & H2 & H3). split_and!; [lia| |].
    + intros x [->|Hx]%elem_of_cons; [lia|auto].
    + destruct H3 as [->|(x & ? & ?)]; [by left|right; exists x; split; [by right|done]].
Qed.

Lemma gc_keeps now retention i m0 v :
  exists v', disk (gc now retention i {| mem := m0; disk := FData v |}).2 = FData v' /\ rtc cstep v v'.
Proof.
  unfold gc. apply (lockedUpdate_keeps (rtc cstep v)); [constructor|]. unfold getMem, mbind, SM_bind. simpl.
  set (gone := purgeable _). destruct (List.filter gone (contacts v)) as [|c0 l0] eqn:E; [eexists; split; [done|constructor]|].
  rewrite <- E. apply save_keeps; [constructor|]. apply rtc_once.
  destruct (mark_spec (List.filter gone (contacts v)) (gcHighWaterRev v)) as (M1 & M2 & M3).
  apply CPurge; [|done|].
  - intros c Hc Hg. split; [|apply M2; by apply filter_elem]. unfold gone, purgeable in Hg. by to_prop.
  - destruct M3 as [?|(c & [Hc _]%filter_elem & ?)]; [by left|right; by exists c].
Qed.

(** ** Opening *)

Lemma stripLoop_steps now n : forall i v k r v',
  ContactsOk v -> stripLoop now n i v k = (Ok r, v') -> rtc cstep v v'.
Proof.
  induction n as [|n IH]; intros i v k r v' Hok; simpl; [intros [= _ <-]; constructor|].
  destruct (contacts v !! i) as [c|] eqn:Ec; [|intros [= _ <-]; constructor].
  case_match; [by apply IH|].
  destruct (applyUpsertLocked now None c v) as [[out|e] v1] eqn:E; [|done]. intros H1.
  assert (Hs : cstep v v1).
  { eapply applyUpsert_step; [done| |exact E]. split; [done|]. intros Hn. destruct Hn. apply uid_in. by eapply list_elem_of_lookup_2. }
  eapply rtc_l; [done|]. eapply IH; [by eapply cstep_ok|done].
Qed.

Lemma strip_keeps now i m0 v :
  ContactsOk v ->
  exists v', disk (stripPrivatePGPKeys now i {| mem := m0; disk := FData v |}).2 = FData v' /\ rtc cstep v v'.
Proof.
  intros Hok. apply (lockedUpdate_keeps (rtc cstep v)); [constructor|]. unfold getMem, mbind, SM_bind. simpl.
  destruct (stripLoop now (length (contacts v)) 0 v 0) as [[[|n]|e] v1] eqn:E; [eexists; split; [done|constructor]| |eexists; split; [done|constructor]].
  apply save_keeps; [constructor|]. by eapply stripLoop_steps.
Qed.

(** ** Writes *)

Lemma upsertLocked_keeps now uuid c i v :
  ContactsOk v -> FreshUpsert uuid c v ->
  exists v', disk (upsertLocked now uuid c i {| mem := v; disk := FData v |}).2 = FData v' /\ rtc cstep v v'.
Proof.
  intros Hok Hf. unfold upsertLocked, getMem, mbind, SM_bind. simpl.
  destruct (applyUpsertLocked now uuid c v) as [[out|e] v'] eqn:E; [|eexists; split; [done|constructor]].
  apply save_keeps; [constructor|]. apply rtc_once. by eapply applyUpsert_step.
Qed.

Lemma upsertWithPrecondition_keeps now uuid c pre i m0 v :
  ContactsOk v -> FreshUpsert uuid c v ->
  exists v', disk (upsertWithPrecondition now uuid c pre i {| mem := m0; disk := FData v |}).2 = FData v' /\ rtc cstep v v'.
Proof.
  intros Hok Hf. apply (lockedUpdate_keeps (rtc cstep v)); [constructor|]. unfold getMem, mbind at 1, SM_bind at 1. simpl.
  destruct (RequireAbsent pre && _); [eexists; split; [done|constructor]|].
  destruct (negb (RequireETag pre =s? []) && _); [eexists; split; [done|constructor]|].
  apply upsertLocked_keeps; [done|]. destruct (getLocked (UID c) v); [|done]. by destruct (KeepAbsentPGPKey pre && _).
Qed.

Lemma confirmPGPKey_keeps now uid fp i m0 v :
  ContactsOk v ->
  exists v', disk (confirmPGPKey now uid fp i {| mem := m0; disk := FData v |}).2 = FData v' /\ rtc cstep v v'.
Proof.
  intros Hok. apply (lockedUpdate_keeps (rtc cstep v)); [constructor|]. unfold getMem, mbind at 1, SM_bind at 1. simpl.
  destruct (getLocked uid v) as [c|] eqn:Ec; [|eexists; split; [done|constructor]].
  case_match; [eexists; split; [done|constructor]|]. case_match; [eexists; split; [done|constructor]|].
  destruct (upsertLocked_keeps now None (setPGPKeyVerified true c) i v Hok) as (v' & Hd & Hs).
  { split; [done|]. intros Hn. destruct Hn. apply getLocked_Some in Ec as [? _]. by apply (uid_in v c). }
  exists v'. split; [|done]. unfold mbind, SM_bind. by destruct (upsertLocked _ _ _ _ _) as [[?|?] ?].
Qed.

Lemma deleteContact_keeps now uid i m0 v :
  exists v', disk (deleteContact now uid i {| mem := m0; disk := FData v |}).2 = FData v' /\ rtc cstep v v'.
Proof.
  apply (lockedUpdate_keeps (rtc cstep v)); [constructor|]. unfold getMem, mbind, SM_bind. simpl.
  pose proof (applyDelete_steps now uid v) as Hs.
  destruct (applyDeleteLocked now uid v) as [[|] v']; [apply save_keeps; [constructor|done]|eexists; split; [done|constructor]].
Qed.

Lemma applyBatch_keeps clock uuid ops i m0 v :
  ContactsOk v -> FreshBatch uuid 0 ops v ->
  exists v', disk (applyBatch clock uuid ops i {| mem := m0; disk := FData v |}).2 = FData v' /\ rtc cstep v v'.
Proof.
  intros Hok Hf. unfold applyBatch. destruct ops as [|o ops]; [eexists; split; [done|constructor]|].
  apply (lockedUpdate_keeps (rtc cstep v)); [constructor|]. unfold getMem, mbind, SM_bind. cbn [fst snd mem].
  destruct (batchLoop clock uuid 0 (o :: ops) v) as [[[]|e] v'] eqn:E; [|eexists; split; [reflexivity|constructor]].
  unfold saveOrRollback. rewrite save_run. pose proof (batchLoop_steps _ _ _ _ _ _ Hok Hf E).
  destruct (io_write i); eexists; (split; [reflexivity|done || constructor]).
Qed.

(** ** Dedupe *)

Lemma liveFrom_elem cs : forall i j c, (j, c) ∈ liveFrom i cs ->
  (i <= j)%nat /\ cs !! (j - i)%nat = Some c /\ Deleted c = false.
Proof.
  induction cs as [|c cs IH]; intros i j x; simpl; [by intros ?%elem_of_nil|].
  assert (Hrec : (j, x) ∈ liveFrom (S i) cs -> (i <= j)%nat /\ (c :: cs) !! (j - i)%nat = Some x /\ Deleted x = false).
  { intros (H1 & H2 & H3)%IH. split_and!; [lia| |done]. by replace (j - i)%nat with (S (j - S i)) by lia. }
  destruct (Deleted c) eqn:Ed; [done|]. intros [[= -> ->]|?]%elem_of_cons; [|auto].
  by rewrite Nat.sub_diag.
Qed.

Lemma liveFrom_NoDup cs : forall i, NoDup (liveFrom i cs).*1.
Proof.
  induction cs as [|c cs IH]; intros i; simpl; [constructor|]. destruct (Deleted c); [done|]. csimpl. constructor; [|done].
  intros ([j x] & Hj & (H1 & _)%liveFrom_elem)%list_elem_of_fmap. simpl in *. lia.
Qed.

Lemma alter_insert {A} (f : A -> A) (l : list A) i x : l !! i = Some x -> alter f i l = <[i := f x]> l.
Proof.
  revert i. induction l as [|y l IH]; intros [|i]; simpl; [done|done|by intros [= ->]|]. intros H.
  change (y :: alter f i l = y :: <[i := f x]> l). f_equal. by apply IH.
Qed.

Section DedupeSteps.
Context {SL : SortSliceLaws} (now : gostr) (v : contactsFile) (Hok : ContactsOk v).
Let lv := liveFrom 0 (contacts v).
Let at_ (cs : list Contact) (seq : Z) : contactsFile := mkCF cs seq (gcHighWaterRev v) (pgpKeyGen v).

Lemma lv_lookup gi i c : lv !! gi = Some (i, c) -> contacts v !! i = Some c /\ Deleted c = false.
Proof. intros H%list_elem_of_lookup_2. apply liveFrom_elem in H as (_ & H & ?). by rewrite Nat.sub_0_r in H. Qed.

Lemma lv_inj gi gj i c c' : lv !! gi = Some (i, c) -> lv !! gj = Some (i, c') -> gi = gj.
Proof.
  intros H1 H2. apply (NoDup_lookup lv.*1 gi gj i); [apply liveFrom_NoDup|..]; rewrite list_lookup_fmap; [by rewrite H1|by rewrite H2].
Qed.

(** While the groups are processed: the contacts keep their UIDs by position,
    and the members of groups not yet reached are untouched. *)
Definition DInv (done_ : list nat) (cs : list Contact) (seq : Z) : Prop :=
  rtc cstep v (at_ cs seq) /\ UID <$> cs = uids v /\
  forall gi i c, lv !! gi = Some (i, c) -> gi ∉ done_ -> cs !! i = Some c.

Definition membersOf (group : list nat) : list (nat * Contact) := omap (fun gi => lv !! gi) group.

Lemma membersOf_elem group i c : (i, c) ∈ membersOf group -> exists gi, gi ∈ group /\ lv !! gi = Some (i, c).
Proof. intros (gi & ? & ?)%list_elem_of_omap. by exists gi. Qed.

Lemma byUID_Some members uid i : byUID members uid = Some i -> exists c, (i, c) ∈ members /\ UID c = uid.
Proof.
  unfold byUID. intros ([j c] & E & ->)%fmap_Some. apply find_first_Some in E as [Hin Hu]. unfold hasUID in Hu. simpl in *.
  to_prop. by exists c.
Qed.

(** Overwriting one member's position with a contact of the same UID. *)
Lemma DInv_write done_ group cs seq i c new :
  DInv done_ cs seq -> (i, c) ∈ membersOf group -> UID new = UID c -> Rev new = (seq + 1)%Z ->
  (Deleted new = true -> scrubbed new) ->
  (forall old, cs !! i = Some old -> IsSelf new = true -> IsSelf old = true) ->
  (forall old, cs !! i = Some old -> Deleted new = false -> Deleted old = false) ->
  DInv (done_ ++ group) (<[i := new]> cs) (seq + 1).
Proof.
  intros (Hs & Hu & Hrest) Hm Eu Er Hsc Hself Hdel. destruct (membersOf_elem _ _ _ Hm) as (gi & Hgi & Hlv).
  destruct (lv_lookup _ _ _ Hlv) as [Hvi _].
  assert (exists old, cs !! i = Some old /\ UID old = UID c) as (old & Ho & Eo).
  { assert (H : (UID <$> cs) !! i = Some (UID c)) by (rewrite Hu; unfold uids; by rewrite list_lookup_fmap, Hvi).
    rewrite list_lookup_fmap in H. apply fmap_Some in H as (old & ? & ?). by exists old. }
  split_and!.
  - eapply rtc_r; [exact Hs|]. apply (CReplace (at_ cs seq) i old); simpl; try done; [congruence|left; eauto|].
    intros Hn Hd. rewrite (Hdel old Ho Hn) in Hd. done.
  - rewrite <- Hu. eapply insert_fmap_id; [done|congruence].
  - intros gj j x Hj Hnin. rewrite list_lookup_insert_ne; [apply (Hrest gj); [done|set_solver]|].
    intros <-. apply Hnin, elem_of_app. right. by rewrite (lv_inj _ _ _ _ _ Hj Hlv).
Qed.

Lemma DInv_more done_ group cs seq : DInv done_ cs seq -> DInv (done_ ++ group) cs seq.
Proof. intros (H1 & H2 & H3). split_and!; [done|done|]. intros gi i c ? ?. apply (H3 gi); [done|set_solver]. Qed.

Lemma tombstoneLosers_inv done_ group survivor absorbed : forall cs seq,
  DInv (done_ ++ group) cs seq ->
  let r := foldl (tombstoneLoser now (membersOf group) survivor) (cs, seq) absorbed in DInv (done_ ++ group) r.1 r.2.
Proof.
  induction absorbed as [|uid absorbed IH]; intros cs seq H; simpl; [done|].
  destruct (byUID (membersOf group) uid) as [i|] eqn:E; [|by apply IH].
  destruct (byUID_Some _ _ _ E) as (c & Hm & Hc). destruct (membersOf_elem _ _ _ Hm) as (gi & Hgi & Hlv).
  destruct (lv_lookup _ _ _ Hlv) as [Hvi _].
  assert (exists old, cs !! i = Some old /\ UID old = UID c) as (old & Ho & Eo).
  { destruct H as (_ & Hu & _). assert (H : (UID <$> cs) !! i = Some (UID c)) by (rewrite Hu; unfold uids; by rewrite list_lookup_fmap, Hvi).
    rewrite list_lookup_fmap in H. apply fmap_Some in H as (old & ? & ?). by exists old. }
  rewrite (alter_insert _ _ _ _ Ho). apply IH.
  assert (Hw : DInv ((done_ ++ group) ++ group)
    (<[i := setUpdatedAt now (setRev (seq + 1) (setMergedInto survivor (tombstone old)))]> cs) (seq + 1)) by (by eapply DInv_write).
  destruct Hw as (W1 & W2 & W3). split_and!; [done|done|]. intros gj j x Hj Hn. apply (W3 gj); [done|set_solver].
Qed.

(** The survivor mergeGroup builds keeps the identity of a member. *)
Lemma mergeGroup_survivor ms : ms ≠ [] -> exists m, m ∈ ms /\ UID (mergeGroup ms).1 = UID m /\
  IsSelf (mergeGroup ms).1 = IsSelf m /\ Deleted (mergeGroup ms).1 = Deleted m.
Proof.
  intros Hne. unfold mergeGroup. simpl. pose proof (sort_slice_perm _ olderThan ms) as Hp.
  destruct (sort_slice _ olderThan ms) as [|m rest] eqn:E; simpl.
  - destruct Hne. by apply Permutation_nil.
  - exists m. split; [|done]. rewrite <- Hp. left.
Qed.

Lemma members_contact group m : m ∈ (membersOf group).*2 -> m ∈ contacts v.
Proof.
  intros ([i c] & -> & Hic)%list_elem_of_fmap. destruct (membersOf_elem _ _ _ Hic) as (gi & _ & [H _]%lv_lookup).
  by eapply list_elem_of_lookup_2.
Qed.

Lemma dedupeStep_inv done_ group st :
  (forall gi, gi ∈ group -> gi ∉ done_) ->
  DInv done_ (ddContacts st) (ddSeq st) ->
  let st' := dedupeStep now lv st group in DInv (done_ ++ group) (ddContacts st') (ddSeq st').
Proof.
  intros Hdisj H. unfold dedupeStep. fold (membersOf group).
  destruct (groupShouldMerge (membersOf group).*2) eqn:Eg; cbn [negb]; [|by apply DInv_more].
  assert (Hne : (membersOf group).*2 ≠ []) by (intros E; by rewrite E in Eg).
  destruct (mergeGroup_survivor _ Hne) as (m & Hm & Em & Es & Ed).
  destruct (mergeGroup (membersOf group).*2) as [sv ab]. simpl in Em, Es, Ed. cbn [UID setUpdatedAt setRev].
  set (sv' := setUpdatedAt now (setRev (ddSeq st + 1) sv)).
  assert (H1 : exists cs1, match byUID (membersOf group) (UID sv) with Some i => <[i:=sv']> (ddContacts st) | None => ddContacts st end = cs1 /\
    DInv (done_ ++ group) cs1 (ddSeq st + 1)).
  { destruct (byUID (membersOf group) (UID sv)) as [i|] eqn:E.
    - eexists. split; [reflexivity|]. destruct (byUID_Some _ _ _ E) as (c & Hc & Hu).
      destruct (membersOf_elem _ _ _ Hc) as (gi & Hgi & Hlv). destruct (lv_lookup _ _ _ Hlv) as [Hvi Hcd].
      assert (c = m) as ->.
      { eapply uid_inj; [apply Hok|by eapply list_elem_of_lookup_2|by eapply members_contact|congruence]. }
      assert (Hcur : ddContacts st !! i = Some m) by (destruct H as (_ & _ & H); apply (H gi); auto).
      eapply DInv_write; [exact H|exact Hc|done|done|simpl; congruence|simpl; congruence|simpl; congruence].
    - exfalso. unfold byUID in E. apply fmap_None in E. rewrite find_first_None in E.
      apply list_elem_of_fmap in Hm as ([i c] & -> & Hin). specialize (E (i, c) Hin). unfold hasUID in E. simpl in *. by to_prop. }
  destruct H1 as (cs1 & -> & H1). apply (tombstoneLosers_inv done_ group (UID sv) ab) in H1. simpl in H1.
  by destruct (foldl _ (cs1, (ddSeq st + 1)%Z) ab) as [cs2 seq2].
Qed.

Lemma dedupeLoop_inv groups : forall done_ st,
  NoDup (groups ≫= id) -> (forall gi, gi ∈ groups ≫= id -> gi ∉ done_) ->
  DInv done_ (ddContacts st) (ddSeq st) ->
  let st' := foldl (dedupeStep now lv) st groups in rtc cstep v (at_ (ddContacts st') (ddSeq st')).
Proof.
  induction groups as [|g groups IH]; intros done_ st Hnd Hdisj H; simpl; [apply H|].
  csimpl in Hnd. simpl in Hnd. apply NoDup_app in Hnd as (Hg & Hgg & Hnd). csimpl in Hdisj.
  apply (IH (done_ ++ g)); [done| |apply dedupeStep_inv; [|done]].
  - intros gi Hgi [?|?]%elem_of_app; [|by eapply Hgg]. apply (Hdisj gi); [|done]. apply elem_of_app. by right.
  - intros gi Hgi. apply Hdisj, elem_of_app. by left.
Qed.
End DedupeSteps.

Lemma dedupe_keeps {SL : SortSliceLaws} {RL : RangeOrderLaws} now i m0 v :
  ContactsOk v ->
  exists v', disk (dedupe now i {| mem := m0; disk := FData v |}).2 = FData v' /\ rtc cstep v v'.
Proof.
  intros Hok. apply (lockedUpdate_keeps (rtc cstep v)); [constructor|]. unfold getMem, mbind, SM_bind. simpl.
  destruct (ddMerges (dedupeAll now v)); [eexists; split; [done|constructor]|].
  apply save_keeps; [constructor|]. unfold dedupeAll. eapply (dedupeLoop_inv now v Hok _ []); [apply findDuplicateGroups_NoDup|set_solver|].
  split_and!; [|done|]. { simpl. by destruct v. }
  intros gi j c [H _]%lv_lookup _. done.
Qed.

End Refine.
