(* ===== verification/ContactsTheorems.v ===== *)
(** * ContactsTheorems: the address book's guarantees

    The store's operations as one type, and the theorems a client of the
    address book relies on: the invariant of the file, convergence of sync,
    atomic batches, and the life of a pinned PGP key. *)

From S2P Require Import Prelude GoText FileStore ContactsModel UnionFind Dedupe Contacts ContactsSpec ContactsRefine.

Section Theorems.
Context {U : Unicode} {SS : SortSlice} {RO : RangeOrder} {P : OpenPGP} {T : GoTime}.

(** The mutations that draw revisions from the counter. *)
Inductive contact_op :=
  | OUpsert (now : gostr) (uuid : option gostr) (c : Contact)
  | OUpsertPre (now : gostr) (uuid : option gostr) (c : Contact) (pre : ContactPrecondition)
  | OConfirm (now uid fingerprint : gostr)
  | ODelete (now uid : gostr)
  | OSetSelf (now uid : gostr) (self : bool)
  | OGC (now retention : Z)
  | OBatch (clock : nat -> gostr) (uuid : nat -> option gostr) (ops : list BatchOp)
  | ODedupe (now : gostr)
  | OStrip (now : gostr).

Definition runContactOp (o : contact_op) (i : io) (s : fstore contactsFile) : fstore contactsFile :=
  match o with
  | OUpsert now uuid c => (upsertContact now uuid c i s).2
  | OUpsertPre now uuid c pre => (upsertWithPrecondition now uuid c pre i s).2
  | OConfirm now uid fp => (confirmPGPKey now uid fp i s).2
  | ODelete now uid => (deleteContact now uid i s).2
  | OSetSelf now uid self => (setSelf now uid self i s).2
  | OGC now retention => (gc now retention i s).2
  | OBatch clock uuid ops => (applyBatch clock uuid ops i s).2
  | ODedupe now => (dedupe now i s).2
  | OStrip now => (stripPrivatePGPKeys now i s).2
  end.

(** UUIDs are new, and no writer creates a contact marked as the user's own. *)
Definition FreshContactOp (o : contact_op) (v : contactsFile) : Prop :=
  match o with
  | OUpsert _ uuid c | OUpsertPre _ uuid c _ => FreshUpsert uuid c v
  | OBatch _ uuid ops => FreshBatch uuid 0 ops v
  | _ => True
  end.

Lemma contact_op_steps {SL : SortSliceLaws} {RL : RangeOrderLaws} o i m0 v :
  ContactsOk v -> FreshContactOp o v ->
  exists v', disk (runContactOp o i {| mem := m0; disk := FData v |}) = FData v' /\ rtc cstep v v'.
Proof.
  intros Hok Hf. destruct o; simpl in *.
  - apply (lockedUpdate_keeps (rtc cstep v)); [constructor|]. by apply upsertLocked_keeps.
  - by apply upsertWithPrecondition_keeps.
  - by apply confirmPGPKey_keeps.
  - apply deleteContact_keeps.
  - by apply setSelf_keeps.
  - apply gc_keeps.
  - by apply applyBatch_keeps.
  - by apply dedupe_keeps.
  - by apply strip_keeps.
Qed.


(** A history of the file: mutations by processes with arbitrary cached copies. *)
Inductive reaches : contactsFile -> contactsFile -> Prop :=
  | reach_refl v : reaches v v
  | reach_step o i m0 v v1 v2 :
      FreshContactOp o v -> disk (runContactOp o i {| mem := m0; disk := FData v |}) = FData v1 ->
      reaches v1 v2 -> reaches v v2.

Lemma reaches_steps {SL : SortSliceLaws} {RL : RangeOrderLaws} v v' :
  reaches v v' -> ContactsOk v -> rtc cstep v v'.
Proof.
  induction 1 as [v|o i m0 v v1 v2 Hf Hd _ IH]; intros Hok; [constructor|].
  destruct (contact_op_steps o i m0 v Hok Hf) as (v1' & Hd' & Hs). rewrite Hd in Hd'. injection Hd' as <-.
  etrans; [exact Hs|]. apply IH. by eapply csteps_ok.
Qed.


(** ** Batches *)

(** The operations of a batch sent one call at a time. *)
Fixpoint runEach (clock : nat -> gostr) (uuid : nat -> option gostr) (n : nat) (ops : list BatchOp)
    (s : fstore contactsFile) : fstore contactsFile :=
  match ops with
  | [] => s
  | op :: ops' =>
      runEach clock uuid (S n) ops'
        (if bDelete op then (deleteContact (clock n) (bUID op) io_ok s).2
         else (upsertContact (clock n) (uuid n) (bContact op) io_ok s).2)
  end.

Lemma delete_run now uid m0 v :
  disk (deleteContact now uid io_ok {| mem := m0; disk := FData v |}).2 = FData (applyDeleteLocked now uid v).2.
Proof.
  unfold deleteContact. rewrite lockedUpdate_run by done. unfold getMem, mbind, SM_bind. simpl. unfold applyDeleteLocked.
  destruct (getLocked uid v); [by rewrite save_run|done].
Qed.

Lemma upsert_run now uuid c m0 v out v' :
  applyUpsertLocked now uuid c v = (Ok out, v') ->
  upsertContact now uuid c io_ok {| mem := m0; disk := FData v |} = (Ok out, {| mem := v'; disk := FData v' |}).
Proof.
  intros E. unfold upsertContact. rewrite lockedUpdate_run by done. unfold upsertLocked, getMem, mbind, SM_bind. simpl.
  by rewrite E, save_run.
Qed.

Lemma runEach_batch clock uuid ops : forall n m0 v v',
  batchLoop clock uuid n ops v = (Ok tt, v') ->
  disk (runEach clock uuid n ops {| mem := m0; disk := FData v |}) = FData v'.
Proof.
  induction ops as [|op ops IH]; intros n m0 v v'; simpl; [by intros [= ->]|]. destruct (bDelete op).
  - intros H. pose proof (delete_run (clock n) (bUID op) m0 v) as Hd.
    destruct (deleteContact _ _ _ _) as [r [m1 d1]]. simpl in *. subst d1. by apply IH.
  - destruct (applyUpsertLocked _ _ _ v) as [[out|e] v1] eqn:E; [|done]. intros H.
    rewrite (upsert_run _ _ _ m0 _ _ _ E). by apply IH.
Qed.


(** ** Pinned keys *)

(** A writer that says nothing about where the key came from. *)
Definition noProvenance (c : Contact) : Prop :=
  PGPKeyFingerprint c = [] /\ PGPKeySource c = [] /\ PGPKeyVerified c = false.

Lemma keepServerFields_pgp c e :
  PGPKey (keepServerFields c e) = PGPKey c /\ PGPKeyFingerprint (keepServerFields c e) = PGPKeyFingerprint c /\
  PGPKeySource (keepServerFields c e) = PGPKeySource c /\ PGPKeyVerified (keepServerFields c e) = PGPKeyVerified c /\
  PGPKeyRemovedAutocrypt (keepServerFields c e) = PGPKeyRemovedAutocrypt c.
Proof. unfold keepServerFields. by case_bool_decide. Qed.

(** The key fields of the contact an accepted write stores are those
    [preparePGP] computed, and the contact is the one then found. *)
Lemma applyUpsert_stored now uuid c v out v' :
  applyUpsertLocked now uuid c v = (Ok out, v') -> UID c ≠ [] ->
  PGPKey out = PGPKey (preparePGP c v) /\ PGPKeyFingerprint out = PGPKeyFingerprint (preparePGP c v) /\
  PGPKeySource out = PGPKeySource (preparePGP c v) /\ PGPKeyVerified out = PGPKeyVerified (preparePGP c v) /\
  PGPKeyRemovedAutocrypt out = PGPKeyRemovedAutocrypt (preparePGP c v) /\
  getLocked (UID c) v' = Some out.
Proof.
  unfold applyUpsertLocked. destruct (admitted c v); simpl; [|done]. destruct (preparePGP_frame c v) as (Eu & _).
  rewrite !Eu. intros E Hu. rewrite bool_decide_eq_false_2 in E by done.
  destruct (getLocked (UID c) v) as [e|] eqn:Ee; injection E as <- <-.
  - destruct (keepServerFields_pgp (setUpdatedAt now (setDeleted false (setRev (cseq v + 1) (preparePGP c v)))) e)
      as (-> & -> & -> & -> & ->).
    split_and!; try done. unfold getLocked in *. cbn [contacts].
    erewrite find_first_update; [reflexivity|exact Ee|]. unfold hasUID. apply bool_decide_eq_true_2.
    by rewrite (proj1 (keepServerFields_frame _ _)).
  - split_and!; try done. unfold getLocked in *. cbn [contacts]. rewrite find_first_app, Ee. cbn [find_first].
    unfold hasUID. by rewrite bool_decide_eq_true_2.
Qed.

Lemma preparePGP_carried c v e :
  getLocked (UID c) v = Some e -> PGPKey e ≠ [] -> PGPKeyFingerprint e ≠ [] -> noProvenance c ->
  publicPGPKey (PGPKey c) ≠ [] ->
  publicPGPKey (PGPKey c) = PGPKey e \/
    (pgpKeyFingerprint (publicPGPKey (PGPKey c)) ≠ [] /\
     equalFold (pgpKeyFingerprint (publicPGPKey (PGPKey c))) (pgpKeyFingerprint (PGPKey e)) = true) ->
  let out := preparePGP c v in
  PGPKey out = publicPGPKey (PGPKey c) /\ PGPKeyFingerprint out = PGPKeyFingerprint e /\
  PGPKeySource out = PGPKeySource e /\ PGPKeyVerified out = PGPKeyVerified e.
Proof.
  intros He Hk Hpin (N1 & N2 & N3) Hpub Hsame. simpl. unfold preparePGP. cbn [UID setPGPKey]. rewrite He.
  set (c1 := setPGPKey _ c). assert (Ek : PGPKey c1 = publicPGPKey (PGPKey c)) by done.
  assert (Hc : carryPGPProvenance c1 e = setPGPKeyAutocryptDate (PGPKeyAutocryptDate e) (setPGPKeyVerified (PGPKeyVerified e)
    (setPGPKeySource (PGPKeySource e) (setPGPKeyFingerprint (PGPKeyFingerprint e) c1)))).
  { unfold carryPGPProvenance. rewrite Ek, !(bool_decide_eq_false_2 (_ = [])) by done. simpl.
    change (PGPKeyFingerprint c1) with (PGPKeyFingerprint c). change (PGPKeySource c1) with (PGPKeySource c).
    change (PGPKeyVerified c1) with (PGPKeyVerified c). rewrite N1, N2, N3.
    destruct Hsame as [Es|[Hn Es]]; [by rewrite Es, bool_decide_eq_true_2|].
    rewrite Es, (bool_decide_eq_false_2 (pgpKeyFingerprint _ = [])) by done. by rewrite andb_false_r. }
  rewrite Hc. unfold keepUnconfirmedAutocrypt. cbn [PGPKey setPGPKeyRemovedAutocrypt setPGPKeyAutocryptDate setPGPKeyVerified
    setPGPKeySource setPGPKeyFingerprint]. rewrite Ek, !(bool_decide_eq_false_2 (_ = [])) by done. cbn [andb].
  unfold pinPGPKeyFingerprint. cbn [PGPKey PGPKeyFingerprint setPGPKeyRemovedAutocrypt setPGPKeyAutocryptDate setPGPKeyVerified
    setPGPKeySource setPGPKeyFingerprint]. rewrite Ek, !(bool_decide_eq_false_2 (_ = [])) by done. done.
Qed.

(** A pinned key survives a write that does not mention its provenance.
    When a stored contact has a key and a pin, and a writer sends back the same
    key (the same public text, or any armoring, secret part included, with the
    same fingerprint) without fingerprint, source or verified flag, the stored
    contact keeps the pin, the source and the verified flag it had, and no
    secret key material is stored. *)
Lemma pgp_pin_survives_write {PL : OpenPGPLaws} (now : gostr) (uuid : option gostr) (c e out : Contact)
    (v v' : contactsFile) :
  applyUpsertLocked now uuid c v = (Ok out, v') -> UID c ≠ [] ->
  getLocked (UID c) v = Some e -> PGPKey e ≠ [] -> PGPKeyFingerprint e ≠ [] -> noProvenance c -> PGPKey c ≠ [] ->
  PGPKey c = PGPKey e \/ pgpKeyFingerprint (PGPKey c) = pgpKeyFingerprint (PGPKey e) ->
  pgpKeyFingerprint (PGPKey e) ≠ [] ->
  getLocked (UID c) v' = Some out /\
  PGPKeyFingerprint out = PGPKeyFingerprint e /\ PGPKeySource out = PGPKeySource e /\
  PGPKeyVerified out = PGPKeyVerified e /\
  pgpKeyFingerprint (PGPKey out) = pgpKeyFingerprint (PGPKey e) /\
  ((forall k, is_Some (getArmoredPublicKey k)) -> isSecretKey (PGPKey out) = false).
Proof.
  intros E Hu He Hk Hpin Hno Hck Hsame Hfp. destruct (applyUpsert_stored _ _ _ _ _ _ E Hu) as (S1 & S2 & S3 & S4 & _ & S5).
  assert (Hf : pgpKeyFingerprint (PGPKey c) = pgpKeyFingerprint (PGPKey e)) by (destruct Hsame as [->|]; done).
  pose proof (publicPGPKey_fingerprint (PGPKey c) Hck) as Hp.
  destruct (preparePGP_carried c v e He Hk Hpin Hno) as (Q1 & Q2 & Q3 & Q4).
  - by rewrite publicPGPKey_empty.
  - right. rewrite Hp, Hf. split; [done|apply equalFold_refl].
  - rewrite S1, S2, S3, S4, Q1, Q2, Q3, Q4, Hp, Hf. split_and!; try done.
    intros Ha. by apply publicPGPKey_not_secret.
Qed.

(** The address book remembers that the unconfirmed Autocrypt key [fp] was
    removed from the contact [uid]. *)
Definition Remembers (fp uid : gostr) (v : contactsFile) : Prop :=
  exists e, getLocked uid v = Some e /\ PGPKey e = [] /\ PGPKeyRemovedAutocrypt e = fp.

(** Writes to [uid] that carry no key, in order. *)
Inductive keyless_writes (uid : gostr) : contactsFile -> contactsFile -> Prop :=
  | kw_nil v : keyless_writes uid v v
  | kw_cons now uuid c out v v1 v2 :
      UID c = uid -> PGPKey c = [] -> applyUpsertLocked now uuid c v = (Ok out, v1) ->
      keyless_writes uid v1 v2 -> keyless_writes uid v v2.

Lemma keyless_remembers now uuid c e fp v out v' :
  applyUpsertLocked now uuid c v = (Ok out, v') -> UID c ≠ [] -> PGPKey c = [] -> getLocked (UID c) v = Some e ->
  (PGPKey e = [] /\ PGPKeyRemovedAutocrypt e = fp) \/
  (PGPKey e ≠ [] /\ PGPKeySource e = PGPSourceAutocrypt /\ PGPKeyVerified e = false /\ pgpKeyFingerprint (PGPKey e) = fp) ->
  Remembers fp (UID c) v'.
Proof.
  intros E Hu Hk He Hfp. destruct (applyUpsert_stored _ _ _ _ _ _ E Hu) as (S1 & _ & _ & _ & S5 & S6).
  exists out. split; [done|]. rewrite S1, S5. unfold preparePGP. cbn [UID setPGPKey]. rewrite He, Hk.
  unfold carryPGPProvenance, keepUnconfirmedAutocrypt, pinPGPKeyFingerprint. simpl.
  destruct Hfp as [[H1 H2]|(H1 & H2 & H3 & H4)]; [by rewrite H1|].
  by rewrite H2, H3, (bool_decide_eq_false_2 _ H1).
Qed.

Lemma keyless_writes_remember uid fp v v' :
  uid ≠ [] -> Remembers fp uid v -> keyless_writes uid v v' -> Remembers fp uid v'.
Proof.
  intros Hu Hr H. revert Hr. induction H as [v|now uuid c out v v1 v2 <- Hk E _ IH]; [done|].
  intros (e & He & H1 & H2). apply IH. eapply keyless_remembers; eauto.
Qed.

(** Removing an unconfirmed Autocrypt key and pasting it back does not
    launder it: after a write that drops such a key, and any further writes
    without a key, the same key written back without provenance is stored as
    the unconfirmed Autocrypt key it was. *)
Lemma autocrypt_key_not_laundered {PL : OpenPGPLaws} (uid fp : gostr) (e c1 c2 out : Contact)
    (v v1 v2 v3 : contactsFile) (now1 now2 : gostr) (uuid1 uuid2 : option gostr) (r : Contact) :
  uid ≠ [] -> getLocked uid v = Some e -> PGPKey e ≠ [] -> PGPKeySource e = PGPSourceAutocrypt ->
  PGPKeyVerified e = false -> pgpKeyFingerprint (PGPKey e) = fp -> fp ≠ [] ->
  UID c1 = uid -> PGPKey c1 = [] -> applyUpsertLocked now1 uuid1 c1 v = (Ok r, v1) ->
  keyless_writes uid v1 v2 ->
  UID c2 = uid -> PGPKey c2 ≠ [] -> pgpKeyFingerprint (PGPKey c2) = fp -> noProvenance c2 ->
  applyUpsertLocked now2 uuid2 c2 v2 = (Ok out, v3) ->
  getLocked uid v3 = Some out /\ PGPKeySource out = PGPSourceAutocrypt /\ PGPKeyVerified out = false /\
  PGPKeyFingerprint out = fp.
Proof.
  intros Hu He Hk Hs Hv Hfp Hne <- Hk1 E1 Hkw Hu2 Hk2 Hfp2 (N1 & N2 & N3) E2.
  assert (Hr1 : Remembers fp (UID c1) v1) by (eapply keyless_remembers; eauto; right; done).
  destruct (keyless_writes_remember _ _ _ _ Hu Hr1 Hkw) as (e2 & He2 & Hke & Hre).
  rewrite <- Hu2 in He2, Hu |- *. destruct (applyUpsert_stored _ _ _ _ _ _ E2 Hu) as (_ & S2 & S3 & S4 & _ & S6).
  rewrite S2, S3, S4. split; [done|]. unfold preparePGP. cbn [UID setPGPKey]. rewrite He2. unfold carryPGPProvenance. rewrite Hke.
  rewrite (bool_decide_eq_true_2 ([] = [])), orb_true_r by done.
  assert (Hpub : publicPGPKey (PGPKey c2) ≠ []) by (by rewrite publicPGPKey_empty).
  unfold keepUnconfirmedAutocrypt. cbn [PGPKey PGPKeySource PGPKeyVerified setPGPKeyRemovedAutocrypt setPGPKey].
  rewrite Hke, (bool_decide_eq_false_2 _ Hpub), (bool_decide_eq_true_2 ([] = [])) by done. cbn [negb andb].
  rewrite publicPGPKey_fingerprint, Hre, N2, N3, Hfp2, (bool_decide_eq_false_2 _ Hne), equalFold_refl, (bool_decide_eq_true_2 ([] = [])) by done.
  cbn [negb andb]. unfold pinPGPKeyFingerprint. cbn [PGPKeyFingerprint setPGPKeyFingerprint].
  rewrite (bool_decide_eq_false_2 _ Hne), orb_true_r. simpl. by rewrite N3.
Qed.

(** ** Photos *)

(** SetPhotoRef bumps the contact's revision without drawing one from the
    counter.  When another contact was written since, a client that synced just
    before the photo was set asks for the changes since its cursor and is told
    there are none: the photo never reaches it. *)
Lemma setPhotoRef_hidden_from_sync (now uid ref : gostr) (c : Contact) (m0 m1 v : contactsFile) :
  ContactsOk v -> getLocked uid v = Some c -> (Rev c < cseq v)%Z ->
  exists c' v', setPhotoRef now uid ref io_ok {| mem := m0; disk := FData v |} = (Ok (Some c'), {| mem := v'; disk := FData v' |}) /\
    getLocked uid v' = Some c' /\ PhotoRef c' = ref /\
    (changedSince (cseq v) io_ok {| mem := m1; disk := FData v' |}).1 = Ok (mkDelta [] [] (cseq v) false).
Proof.
  intros Hok Hc Hr. unfold setPhotoRef. rewrite lockedUpdate_run by done. unfold getMem, mbind, SM_bind. cbn [fst snd mem].
  rewrite Hc, save_run. cbn [io_write io_ok]. set (c' := setRev _ _). set (v' := mkCF _ _ _ _).
  exists c', v'. split_and!; [done| |done|].
  - unfold getLocked in *. simpl. erewrite find_first_update; [reflexivity|exact Hc|].
    apply find_first_Some in Hc as [_ Hc]. exact Hc.
  - unfold changedSince. rewrite refreshed_run by done. cbn [fst]. f_equal. unfold changedSinceOf.
    assert (Eg : (cseq v <? gcHighWaterRev v')%Z = false) by (apply Z.ltb_ge; simpl; apply Hok). rewrite Eg, andb_false_r.
    assert (List.filter (fun x => negb (Rev x <=? cseq v)%Z) (contacts v') = []) as ->; [|done].
    destruct (List.filter _ (contacts v')) as [|x l] eqn:E; [done|].
    assert (Hx : x ∈ x :: l) by left. rewrite <- E, filter_elem in Hx. destruct Hx as [Hx Hrx]. exfalso. to_prop.
    simpl in Hx. apply update_first_elem in Hx as [Hx|(y & _ & ->)]; [pose proof (ok_rev_bounds _ Hok x Hx); lia|].
    unfold c' in Hrx. simpl in Hrx. lia.
Qed.

End Theorems.

(** ** Deduplication loses no address

    Dedupe tombstones contacts; this file shows that it does so without losing
    an email address or phone number: each is still on a live contact. *)

Section DedupeKeeps.
Context {U : Unicode} {SS : SortSlice} {SL : SortSliceLaws} {RO : RangeOrder} {RL : RangeOrderLaws} {T : GoTime}.
Context (now : gostr) (v : contactsFile) (Hok : ContactsOk v).

(** Every normalized address of a live contact of [v] is on a live contact of [cs]. *)
Definition Covered (cs : list Contact) : Prop :=
  forall c k, c ∈ contacts v -> live c = true -> k ∈ matchKeys c ->
  exists j c', cs !! j = Some c' /\ live c' = true /\ k ∈ matchKeys c'.

Lemma members_lookup group i c : (i, c) ∈ membersOf v group -> contacts v !! i = Some c.
Proof. intros (gi & _ & [? _]%lv_lookup)%membersOf_elem. done. Qed.

Lemma members_NoDup group : NoDup group -> NoDup (membersOf v group).
Proof.
  unfold membersOf. induction 1 as [|gi group Hgi _ IH]; simpl; [constructor|].
  destruct (liveFrom 0 (contacts v) !! gi) as [[i c]|] eqn:E; [|done]. constructor; [|done].
  intros (gj & Hgj & Ej)%list_elem_of_omap. by rewrite (lv_inj v _ _ _ _ _ E Ej) in Hgi.
Qed.

Lemma members_contacts_NoDup group : NoDup group -> NoDup (membersOf v group).*2.
Proof.
  intros H%members_NoDup. apply NoDup_fmap_2_strong; [|done].
  intros [i c] [j c'] H1%members_lookup H2%members_lookup E. simpl in E. subst c'. f_equal.
  apply (NoDup_lookup (uids v) i j (UID c)); [apply Hok|..]; unfold uids; rewrite list_lookup_fmap; [by rewrite H1|by rewrite H2].
Qed.

(** The losers' tombstones touch the losers' positions only. *)
Lemma tombstoneLosers_frame members survivor j absorbed : forall cs seq,
  (forall uid, uid ∈ absorbed -> byUID members uid ≠ Some j) ->
  (foldl (tombstoneLoser now members survivor) (cs, seq) absorbed).1 !! j = cs !! j.
Proof.
  induction absorbed as [|uid absorbed IH]; intros cs seq Hj; simpl; [done|].
  assert (Hrec : forall uid', uid' ∈ absorbed -> byUID members uid' ≠ Some j) by (intros uid' ?; apply Hj; by right).
  destruct (byUID members uid) as [i|] eqn:E; [|by apply IH]. rewrite IH by done.
  apply list_lookup_alter_ne. intros ->. apply (Hj uid); [left|done].
Qed.

(** The survivor is not among the absorbed. *)
Lemma survivor_not_absorbed group :
  NoDup group -> UID (mergeGroup (membersOf v group).*2).1 ∉ (mergeGroup (membersOf v group).*2).2.
Proof.
  intros Hnd%members_contacts_NoDup. unfold mergeGroup. cbn [fst snd UID]. rewrite sortStable_perm.
  pose proof (sort_slice_perm _ olderThan (membersOf v group).*2) as Hp.
  destruct (sort_slice _ olderThan _) as [|m rest]; simpl; [apply not_elem_of_nil|].
  rewrite <- Hp in Hnd. apply NoDup_cons in Hnd as [Hm _]. intros (m' & Eu & Hm')%list_elem_of_fmap.
  assert (m = m') as <-; [|done].
  assert (Hin : forall x, x ∈ m :: rest -> x ∈ contacts v) by (intros x; rewrite Hp; apply members_contact).
  eapply uid_inj; [apply Hok|apply Hin; left|apply Hin; by right|done].
Qed.

Lemma dedupeStep_covered done_ group st :
  NoDup group -> (forall gi, gi ∈ group -> gi ∉ done_) -> DInv v done_ (ddContacts st) (ddSeq st) ->
  Covered (ddContacts st) -> Covered (ddContacts (dedupeStep now (liveFrom 0 (contacts v)) st group)).
Proof.
  intros Hnd Hdisj (_ & _ & Hcur) Hcov. unfold dedupeStep. fold (membersOf v group).
  destruct (groupShouldMerge (membersOf v group).*2) eqn:Eg; cbn [negb]; [|done].
  assert (Hne : (membersOf v group).*2 ≠ []) by (intros E; by rewrite E in Eg).
  destruct (mergeGroup_survivor _ Hne) as (m & Hm & Em & _ & Ed). pose proof (survivor_not_absorbed group Hnd) as Hns.
  pose proof (fun x k => mergeGroup_keys (membersOf v group).*2 x k) as Hkeys.
  destruct (mergeGroup (membersOf v group).*2) as [sv ab]. cbn [fst snd] in *. cbn [UID setUpdatedAt setRev].
  set (sv' := setUpdatedAt now (setRev (ddSeq st + 1) sv)).
  apply list_elem_of_fmap in Hm as ([p m'] & -> & Hpm). cbn [snd] in *. pose proof (members_lookup _ _ _ Hpm) as Hvp.
  destruct (byUID (membersOf v group) (UID sv)) as [ps|] eqn:Ei.
  2: { unfold byUID in Ei. apply fmap_None in Ei. rewrite find_first_None in Ei. specialize (Ei (p, m') Hpm).
       unfold hasUID in Ei. simpl in *. by to_prop. }
  destruct (byUID_Some _ _ _ Ei) as (ms & Hms & Eu). pose proof (members_lookup _ _ _ Hms) as Hvs.
  set (r := foldl _ _ ab).
  assert (Hfr : forall j, (forall c, (j, c) ∉ membersOf v group) -> r.1 !! j = ddContacts st !! j).
  { intros j Hj. unfold r. rewrite tombstoneLosers_frame; [|intros uid _ (c & Hc & _)%byUID_Some; by apply (Hj c)].
    apply list_lookup_insert_ne. intros <-. by apply (Hj ms). }
  assert (Hsv : r.1 !! ps = Some sv').
  { unfold r. rewrite tombstoneLosers_frame.
    - apply list_lookup_insert_eq. destruct (membersOf_elem _ _ _ _ Hms) as (gi & Hgi & Hlv). eapply lookup_lt_Some, (Hcur gi); eauto.
    - intros uid Hab (c & Hc & <-)%byUID_Some. apply members_lookup in Hc. rewrite Hvs in Hc. injection Hc as <-. by rewrite Eu in Hab. }
  assert (Hlive : live sv' = true).
  { unfold live, sv'. simpl. rewrite Ed. destruct (membersOf_elem _ _ _ _ Hpm) as (gi & _ & [_ ->]%lv_lookup). done. }
  destruct r as [cs2 seq2]. simpl in *. intros c k Hc Hl Hk. destruct (Hcov c k Hc Hl Hk) as (j & c' & Hj & Hl' & Hk').
  destruct (decide (Exists (fun e => e.1 = j) (membersOf v group))) as [Hex|Hno].
  - apply Exists_exists in Hex as ([j' x] & Hx & Hjx). simpl in Hjx. subst j'.
    destruct (membersOf_elem _ _ _ _ Hx) as (gi & Hgi & Hlv). rewrite (Hcur gi j x Hlv (Hdisj gi Hgi)) in Hj. injection Hj as ->.
    exists ps, sv'. split_and!; [done|done|]. change (k ∈ matchKeys sv).
    apply (Hkeys c' k); [|done]. by apply (list_elem_of_fmap_2 snd _ (j, c')).
  - exists j, c'. split_and!; [|done|done]. rewrite Hfr; [done|]. intros x Hx. apply Hno, Exists_exists. by exists (j, x).
Qed.

Lemma dedupeLoop_covered groups : forall done_ st,
  NoDup (groups ≫= id) -> (forall gi, gi ∈ groups ≫= id -> gi ∉ done_) ->
  DInv v done_ (ddContacts st) (ddSeq st) -> Covered (ddContacts st) ->
  Covered (ddContacts (foldl (dedupeStep now (liveFrom 0 (contacts v))) st groups)).
Proof.
  induction groups as [|g groups IH]; intros done_ st Hnd Hdisj H Hcov; simpl; [done|].
  csimpl in Hnd. simpl in Hnd. apply NoDup_app in Hnd as (Hg & Hgg & Hnd). csimpl in Hdisj.
  assert (Hgd : forall gi, gi ∈ g -> gi ∉ done_) by (intros gi Hgi; apply Hdisj, elem_of_app; by left).
  apply (IH (done_ ++ g)); [done| |by apply dedupeStep_inv|by eapply dedupeStep_covered].
  intros gi Hgi [?|?]%elem_of_app; [|by eapply Hgg]. apply (Hdisj gi); [|done]. apply elem_of_app. by right.
Qed.

Lemma dedupeAll_covered : Covered (ddContacts (dedupeAll now v)).
Proof.
  apply (dedupeLoop_covered _ []); [apply findDuplicateGroups_NoDup|intros; apply not_elem_of_nil| |].
  - split_and!; [simpl; by destruct v|done|]. intros gi j c [H _]%lv_lookup _. done.
  - intros c k [j Hj]%list_elem_of_lookup Hl Hk. by exists j, c.
Qed.

(** Dedupe loses no address: every normalized email and phone number of a
    live contact before is, after a successful pass, one of a contact that is
    still live in the file, however the contacts were grouped and merged. *)
Lemma dedupe_loses_no_address (i : io) (m0 : contactsFile) (rep : DedupeReport) (s' : fstore contactsFile) :
  dedupe now i {| mem := m0; disk := FData v |} = (Ok rep, s') ->
  exists v', disk s' = FData v' /\
    forall c k, c ∈ contacts v -> Deleted c = false -> k ∈ matchKeys c ->
    exists c', c' ∈ contacts v' /\ Deleted c' = false /\ k ∈ matchKeys c'.
Proof.
  intros H. apply lockedUpdate_ok in H. unfold getMem, mbind, SM_bind in H. cbn [fst snd mem] in H.
  pose proof dedupeAll_covered as Hc.
  destruct (ddMerges (dedupeAll now v)) as [|d l] eqn:Em.
  - injection H as _ <-. exists v. split; [done|]. intros c k ? ? ?. by exists c.
  - apply save_ok in H as (_ & -> & _). eexists. split; [reflexivity|]. intros c k H1 H2 H3.
    destruct (Hc c k H1) as (j & c' & Hj & Hl & Hk); [by unfold live; rewrite H2|done|].
    exists c'. split_and!; [by eapply list_elem_of_lookup_2|by apply negb_true_iff in Hl|done].
Qed.

End DedupeKeeps.
