(* ===== verification/StoreWitness.v ===== *)
(** * StoreWitness: the theorems on stores and tables at concrete instances

    Sample rule, group and alias files, second-factor challenges, the sending
    ledger, the scheduled-mail table and the address book; each lemma applies one theorem. *)

From S2P Require Import Prelude GoText FileStore RulesModel RulesStore Groups SendAs Mfa StateTables ScheduledSends.

(** ** Rules *)

Definition ruleNamed (id : string) (order rev : Z) : Rule :=
  mkRule (lit id) (lit id) true order (mkScope []) (mkGroup ($"allof") []) [mkAction ($"read") []] rev [] [].
Definition twoRules : rulesFile := mkSfile [ruleNamed "a" 0 1; ruleNamed "b" 1 2] 2.
Definition newRule : Rule := ruleNamed "" 0 0.
Definition onDisk {V} (cached v : V) : fstore V := {| mem := cached; disk := FData v |}.

Lemma twoRules_ok : StoreOk twoRules.
Proof.
  split_and!; [| | |repeat constructor; simpl; lia]; apply (bool_decide_unpack _); vm_compute; exact I.
Qed.

Lemma rules_store_invariant_witness :
  exists v, disk (runOp (OpUpsert ($"now") (Some ($"id1")) newRule) io_ok (onDisk emptyFile emptyFile)) = FData v /\ StoreOk v.
Proof.
  apply rules_store_invariant. apply rtc_once.
  apply (step_op (OpUpsert ($"now") (Some ($"id1")) newRule) io_ok emptyFile (FData emptyFile)).
  split; [done|]. intros v [= <-]. apply not_elem_of_nil.
Defined.

Lemma upsert_then_get_witness :
  let r := upsert ($"now") (Some ($"c")) newRule io_ok (onDisk emptyFile twoRules) in
  exists r', r.1 = Ok r' /\ ruleID r' = $"c" /\ Rev r' = 3%Z /\
    (get (ruleID r') io_ok {| mem := emptyFile; disk := disk r.2 |}).1 = Ok (Some r').
Proof.
  intros r. assert (exists r', r.1 = Ok r' /\ ruleID r' = $"c") as (r' & Hr & Hid) by (eexists; split; vm_compute; reflexivity).
  exists r'. destruct (upsert_then_get ($"now") (Some ($"c")) newRule r' emptyFile emptyFile twoRules io_ok io_ok r.2)
    as (H1 & H2 & _).
  - split; [done|]. intros v [= <-]. apply (bool_decide_unpack _). vm_compute. exact I.
  - rewrite <- Hr. unfold r, onDisk. by destruct (upsert _ _ _ _ _).
  - reflexivity.
  - done.
Defined.

Lemma reorder_then_list_witness :
  let s' := (reorder ($"now") [$"b"; $"a"] io_ok (onDisk emptyFile twoRules)).2 in
  exists l, (list_ io_ok {| mem := emptyFile; disk := disk s' |}).1 = Ok l /\ ruleID <$> l = [$"b"; $"a"].
Proof.
  intros s'. apply (reorder_then_list ($"now") [$"b"; $"a"] emptyFile emptyFile twoRules io_ok io_ok s').
  - exact twoRules_ok.
  - vm_compute. apply Permutation_swap.
  - subst s'. vm_compute. reflexivity.
  - reflexivity.
Defined.

(** ** Groups *)

Definition friends : GroupRec := mkGroupRec ($"g1") ($"Friends") 1 [] [].
Definition oneGroup : groupsFile := mkSfile [friends] 1.
Definition drawn (n : nat) : option gostr := Some [Z.of_nat n + 200]%Z.
Definition batch : list gostr := [$" friends "; $"Work"; $"WORK"; $""].

Lemma drawn_fresh : FreshSupply drawn 0 (items oneGroup).
Proof.
  split.
  - intros n id _ [= <-]. split; [done|]. intros (g & Eg & Hg)%list_elem_of_fmap.
    simpl in Hg. apply list_elem_of_singleton in Hg. subst g. simpl in Eg. vm_compute in Eg. discriminate Eg.
  - intros n m id [= <-] [= E]. lia.
Qed.

Lemma oneGroup_ok : StoreOk oneGroup.
Proof. split_and!; [| | |repeat constructor; simpl; lia]; apply (bool_decide_unpack _); vm_compute; exact I. Qed.

(** The batch resolves to the existing group and one new one. *)
Lemma ensureByName_resolves_witness :
  let r := ensureByName drawn ($"now") batch io_ok (onDisk emptyFile oneGroup) in
  r.1 = Ok [$"g1"; [200%Z]] /\
  exists v', disk r.2 = FData v' /\ (exists new, items v' = items oneGroup ++ new) /\ batchKeys ∅ batch = [$"friends"; $"work"].
Proof.
  intros r. assert (E : r.1 = Ok [$"g1"; [200%Z]]) by (vm_compute; reflexivity). split; [exact E|].
  destruct (ensureByName_resolves drawn ($"now") batch io_ok emptyFile oneGroup [$"g1"; [200%Z]] r.2) as (v' & H1 & H2 & _).
  - rewrite <- E. unfold r, onDisk. by destruct (ensureByName _ _ _ _ _).
  - exists v'. split_and!; [exact H1|exact H2|]. vm_compute. reflexivity.
Defined.

Lemma ensureByName_idempotent_witness :
  let s' := (ensureByName drawn ($"now") batch io_ok (onDisk emptyFile oneGroup)).2 in
  let r := ensureByName (fun _ => None) ($"later") batch io_ok {| mem := emptyFile; disk := disk s' |} in
  r.1 = Ok [$"g1"; [200%Z]] /\ disk r.2 = disk s'.
Proof.
  intros s'. apply (ensureByName_idempotent drawn (fun _ => None) ($"now") ($"later") batch io_ok io_ok emptyFile emptyFile oneGroup).
  - subst s'. vm_compute. reflexivity.
  - reflexivity.
  - reflexivity.
Defined.

Lemma groups_store_invariant_witness :
  exists v', disk (runGroupOp (GEnsure drawn ($"now") batch) io_ok (onDisk emptyFile oneGroup)) = FData v' /\
    StoreOk v' /\ Capped v'.
Proof.
  destruct (groups_store_invariant (GEnsure drawn ($"now") batch) io_ok emptyFile oneGroup) as (v' & H1 & H2 & H3).
  - exact oneGroup_ok.
  - exact drawn_fresh.
  - exists v'. split_and!; [exact H1|exact H2|]. apply H3; [vm_compute; discriminate|exact I].
Defined.

(** A file that already holds MaxGroupsPerUser groups. *)
Definition fullGroups : groupsFile :=
  mkSfile ((fun n => mkGroupRec [Z.of_nat n + 200]%Z ($"g") (Z.of_nat n) [] []) <$> seq 0 1000) 1000.

Lemma upsertGroup_unknown_id_bypasses_cap_witness :
  full (items fullGroups) = true /\
  exists g' v', upsertGroup ($"now") None friends io_ok (onDisk emptyFile fullGroups)
    = (Ok g', {| mem := v'; disk := FData v' |}) /\ length (items v') = 1001%nat.
Proof.
  split; [vm_compute; reflexivity|].
  apply (upsertGroup_unknown_id_bypasses_cap ($"now") None friends emptyFile fullGroups).
  - discriminate.
  - apply (bool_decide_unpack _). vm_compute. exact I.
Defined.

(** ** The send-as and second-factor theorems on concrete stores *)

(** ** Send-as *)

Definition pendingAlias : Alias :=
  mkAlias ($"a1") ($"u1") ($"me@example.org") [] ($"kp-00ff") [] 0 ($"pending") (At 100) (At 1900) NoStamp NoStamp [] false.
Definition t200 : Z := 200 * second.

Lemma pendingAlias_NoDup : NoDup (aliasID <$> [pendingAlias]).
Proof. apply NoDup_singleton. Qed.

(** The mailed code, with spaces around it, verifies the alias. *)
Lemma verified_only_by_proof_witness :
  exists a', disk (runSendAs t200 (OConfirm ($"a1") ($" kp-00ff ")) io_ok {| mem := []; disk := FData [pendingAlias] |}).2
      = FData [a'] /\ Status a' = $"verified" /\
    exists a code, find_first (aliasIs ($"a1")) [pendingAlias] = Some a /\
      OConfirm ($"a1") ($" kp-00ff ") = OConfirm ($"a1") code /\ trimSpace code = VerificationCode a /\
      Status a = $"pending" /\ expiresAfter a t200 = true.
Proof.
  eexists. split; [vm_compute; reflexivity|]. split; [reflexivity|].
  pose proof (verified_only_by_proof t200 (OConfirm ($"a1") ($" kp-00ff ")) io_ok [] [pendingAlias]
    [setVerified VerifiedByCode t200 pendingAlias] ($"a1") (setVerified VerifiedByCode t200 pendingAlias)
    pendingAlias_NoDup ltac:(vm_compute; reflexivity) ltac:(vm_compute; reflexivity)) as (H & _).
  destruct H as [H|H]; [reflexivity| |discriminate H|exact H].
  intros a [= <-]. discriminate.
Defined.

(** Seven wrong guesses: five are answered, the rest find the record failed. *)
Definition guess (n : nat) : Z * io * aliasesFile * sendas_op := (t200, io_ok, [], OConfirm ($"a1") ($"guess")).
Lemma confirm_guesses_bounded_witness :
  count_log (wrongCall ($"a1")) (run_trace runCall (guess <$> seq 0 7) (FData [pendingAlias])).1 = 5%Z /\
  (count_log (wrongCall ($"a1")) (run_trace runCall (guess <$> seq 0 7) (FData [pendingAlias])).1 <= maxConfirmAttempts)%Z.
Proof.
  split; [vm_compute; reflexivity|]. apply confirm_guesses_bounded.
  - exact pendingAlias_NoDup.
  - repeat constructor. simpl. lia.
  - simpl. repeat constructor.
Defined.

(** ** Second factor *)

Definition pushChallenge : Challenge :=
  mkChallenge ($"c1") ($"u1") 0 0 challengeTTL 0 0 PushPending [] ($"42") [$"17"; $"63"] 0 ($"s3cret").
Definition oneChallenge : mstore := {[ $"c1" := pushChallenge ]}.

Lemma approved_only_by_number_witness :
  exists c', (runMfa (5%Z, MResolve ($"c1") ($"phone") true ($"42")) oneChallenge).2 !! ($"c1") = Some c' /\
    PushStatus c' = PushApproved /\
    exists c dev, oneChallenge !! ($"c1") = Some c /\ expired 5 c = false /\ isPushResolved (PushStatus c) = false /\
      MResolve ($"c1") ($"phone") true ($"42") = MResolve ($"c1") dev true (MatchDigits c).
Proof.
  eexists. split; [vm_compute; reflexivity|]. split; [reflexivity|].
  apply (proj1 (approved_only_by_number 5 (MResolve ($"c1") ($"phone") true ($"42")) oneChallenge ($"c1")
    (setPush PushApproved ($"phone") 0 pushChallenge) ltac:(vm_compute; reflexivity) ltac:(intros []))); [reflexivity|].
  intros c Hc. vm_compute in Hc. injection Hc as <-. discriminate.
Defined.

(** Approved once, redeemed by the first of two browsers. *)
Definition redeemTwice : list (Z * mop) :=
  [(1, MResolve ($"c1") ($"phone") true ($"42")); (2, MConsumePush ($"c1") ($"s3cret")); (3, MConsumePush ($"c1") ($"s3cret"))]%Z.
Lemma push_redeemed_at_most_once_witness :
  count_log (redeemed ($"c1")) (run_trace runMfa redeemTwice oneChallenge).1 = 1%Z /\
  (count_log (redeemed ($"c1")) (run_trace runMfa redeemTwice oneChallenge).1 <= 1)%Z.
Proof.
  split; [vm_compute; reflexivity|].
  apply (proj1 (push_redeemed_at_most_once redeemTwice oneChallenge ($"c1") ltac:(repeat constructor; intros []))).
Defined.

(** Seven failed codes and two accepted ones: five are counted, one is used. *)
Definition codes : list (Z * mop) :=
  ((fun _ => (1%Z, MRecordTOTP ($"c1"))) <$> seq 0 7) ++ [(2, MConsumeTOTP ($"c1") 9); (3, MConsumeTOTP ($"c1") 10)]%Z.
Lemma totp_bounded_witness :
  count_log (recorded ($"c1")) (run_trace runMfa codes oneChallenge).1 = MaxTOTPAttempts /\
  (count_log (recorded ($"c1")) (run_trace runMfa codes oneChallenge).1 <= MaxTOTPAttempts)%Z /\
  (count_log (stepUsed ($"c1")) (run_trace runMfa codes oneChallenge).1 <= 1)%Z.
Proof.
  split; [vm_compute; reflexivity|]. apply totp_bounded.
  - unfold codes. simpl. repeat (apply Forall_cons_2; [split; [intros []|simpl; exact I || discriminate]|]). constructor.
  - intros c Hc. vm_compute in Hc. injection Hc as <-. simpl. lia.
Defined.

(** ** The quota, scheduled-mail and table theorems on concrete tables *)

(** ** Send quota *)

(** Two messages an hour; the third insert is refused. *)
Definition insertAt (now : Z) (id : string) (t : ledger) : ledger := (insertSend (lit id) ($"u1") 3 2 100 now t).2.
Definition threeSends : ledger := insertAt 12 "m3" (insertAt 11 "m2" (insertAt 10 "m1" [])).


Lemma quota_wait_is_enough_witness :
  exists wait t', admitSend (fun _ => false) ($"m3") ($"u1") 3 2 100 12 threeSends = (OverQuota wait, t') /\
    (0 < wait)%Z /\ (insertSend ($"m3") ($"u1") 3 2 100 (12 + wait) t').1 = 1%Z.
Proof.
  eexists _, _. split; [vm_compute; reflexivity|].
  match goal with |- (0 < ?w)%Z /\ (insertSend _ _ _ _ _ _ ?t').1 = _ =>
    destruct (quota_wait_is_enough (fun _ => false) ($"m3") ($"u1") 3 2 100 12 w threeSends t') as [H1 H2]
  end; [| | |split; [exact H1|apply H2]].
  - repeat constructor; vm_compute; discriminate.
  - lia.
  - vm_compute. reflexivity.
  - lia.
Defined.

(** ** Scheduled mail *)

Definition job (id : string) (at_ : Z) : sched :=
  mkSched (lit id) ($"u1") ($"box") ScheduledWaiting [] at_ 0 0 0 (Some [1; 2; 3]%Z) [].

Lemma oneJob_ok : SchedOk 5 100 [job "s1" 10].
Proof.
  split_and!; [apply NoDup_singleton|apply NoDup_nil_2|repeat constructor; done|].
  intros user. unfold pendingOf, sealedBytes. simpl. destruct (bool_decide _); simpl; lia.
Qed.

(** Two workers claim in turn, the second finds the user busy, then a crash. *)
Definition schedRun : list sched_op :=
  [SAdd (job "s1" 10); SAdd (job "s2" 11); SClaim 20; SClaim 20; SInterrupt; SClaim 30; SFence true; SClaim 40].

Lemma scheduled_invariant_witness :
  length (run_trace (runSched 5 100) schedRun []).2 = 2%nat /\ SchedOk 5 100 (run_trace (runSched 5 100) schedRun []).2.
Proof.
  split; [vm_compute; reflexivity|]. apply scheduled_invariant; [lia|lia|].
  repeat constructor; simpl; eauto.
Defined.

Lemma claimed_at_most_once_witness :
  count_log (claims ($"s1")) (run_trace (runSched 5 100) [SClaim 20; SClaim 20; SInterrupt; SClaim 30] [job "s1" 10]).1 = 1%Z /\
  (count_log (claims ($"s1")) (run_trace (runSched 5 100) [SClaim 20; SClaim 20; SInterrupt; SClaim 30] [job "s1" 10]).1 <= 1)%Z.
Proof.
  split; [vm_compute; reflexivity|].
  apply (proj1 (claimed_at_most_once 5 100 [SClaim 20; SClaim 20; SInterrupt; SClaim 30] [job "s1" 10] ($"s1")
    oneJob_ok ltac:(repeat constructor))).
Defined.

(** ** Snoozes and agent tokens *)

Lemma snooze_contract_witness :
  (Z.of_nat (length (foldl (fun t o => Snoozes.runSnooze o t) [] [Snoozes.OSnooze ($"m1") 5])) <= Snoozes.MaxSnoozes)%Z.
Proof. apply (Snoozes.snooze_contract [Snoozes.OSnooze ($"m1") 5] ($"m2") 7). Defined.

Definition token (id : string) : AgentTokens.AgentToken :=
  AgentTokens.mkToken (lit id) ($"u1") [] [] AgentTokens.AgentScopeRead 1 0.

(** A second token over the limit of one is refused. *)
Lemma agent_tokens_invariant_witness :
  length (foldl (fun l o => AgentTokens.runToken 1 o l) [] [AgentTokens.OCreate (token "t1"); AgentTokens.OCreate (token "t2")]) = 1%nat /\
  AgentTokens.TokensOk 1 (foldl (fun l o => AgentTokens.runToken 1 o l) [] [AgentTokens.OCreate (token "t1"); AgentTokens.OCreate (token "t2")]).
Proof. split; [vm_compute; reflexivity|]. apply AgentTokens.agent_tokens_invariant. lia. Defined.

(** ** The address book theorems on concrete files

    The clock's text is modelled in these samples by one rune, and keys are those
    of the sample keyring of ContactsModel. *)
From S2P Require Import ContactsModel UnionFind Dedupe Contacts ContactsSpec ContactsRefine ContactsTheorems.

#[local] Instance runeClock : GoTime := fun s => match s with [t] => Some t | _ => None end.

Definition person (uid name email key source pin : gostr) (rev : Z) : Contact :=
  mkContact uid rev false ($"1") ($"1") false name [] [] [] [] [] [] [] []
    (if email =s? [] then [] else [mkContactValue [] email]) [] [] [] [] [] [] key source pin false [] [] [] [] []
    [] [] [] [] [] [] [] [] false.

Definition ann : Contact := person ($"a") ($"Doe, Ann") ($"Ann@example.org") [] [] [] 1.
Definition bob : Contact := person ($"b") ($"Bob") ($"bob@example.org") ($"PUB:F1") PGPSourceManual ($"F1") 2.
Definition ann2 : Contact := person ($"c") ($"Ann Doe") ($" ann@example.org") [] [] [] 3.
Definition twoContacts : contactsFile := mkCF [ann; bob] 2 0 0.
Definition withDuplicate : contactsFile := mkCF [ann; bob; ann2] 3 0 0.
Definition file_ (v : contactsFile) : fstore contactsFile := {| mem := emptyContacts; disk := FData v |}.

Lemma sample_ok (v : contactsFile) :
  bool_decide (NoDup (uids v)) = true -> bool_decide ([] ∉ uids v) = true -> bool_decide (NoDup (Rev <$> contacts v)) = true ->
  forallb (fun c => (0 <? Rev c)%Z && (Rev c <=? cseq v)%Z && negb (Deleted c) && negb (IsSelf c)) (contacts v) = true ->
  gcHighWaterRev v = 0%Z -> (0 <= cseq v)%Z -> (Z.of_nat (length (contacts v)) <= 10000)%Z -> ContactsOk v.
Proof.
  intros H1 H2 H3 H4 H5 H6 H7. to_prop. rewrite forallb_forall in H4.
  assert (Hc : forall c, c ∈ contacts v -> (0 < Rev c <= cseq v)%Z /\ Deleted c = false /\ IsSelf c = false).
  { intros c Hc%list_elem_of_In. specialize (H4 c Hc). to_prop. split_and!; try done; lia. }
  split; try done.
  - intros c ?. by apply Hc.
  - lia.
  - intros c ? Hd. destruct (Hc c) as (_ & E & _); [done|congruence].
  - intros i j a b Ha _ Sa. apply list_elem_of_lookup_2 in Ha. destruct (Hc a Ha) as (_ & _ & E). congruence.
  - unfold liveContactCountLocked, MaxContactsPerUser. pose proof (sublist_length _ _ (filter_sublist live (contacts v))). lia.
Qed.

Lemma twoContacts_ok : ContactsOk twoContacts.
Proof. apply sample_ok; try (vm_compute; reflexivity); simpl; lia. Qed.
Lemma withDuplicate_ok : ContactsOk withDuplicate.
Proof. apply sample_ok; try (vm_compute; reflexivity); simpl; lia. Qed.


(** A client that mirrored two contacts; one is then deleted. *)
Definition afterDelete : contactsFile := (applyDeleteLocked ($"9") ($"a") twoContacts).2.

(** Bob's client sends his secret key block back without provenance. *)
Definition bobAgain : Contact := person ($"b") ($"Bob") ($"bob@example.org") ($"SEC:F1") [] [] 0.
Lemma pgp_pin_survives_write_witness :
  exists out v', applyUpsertLocked ($"9") None bobAgain twoContacts = (Ok out, v') /\
    PGPKeyFingerprint out = $"F1" /\ PGPKeySource out = PGPSourceManual /\ isSecretKey (PGPKey out) = false.
Proof.
  destruct (applyUpsertLocked ($"9") None bobAgain twoContacts) as [[out|e] v'] eqn:E; [|vm_compute in E; discriminate E].
  exists out, v'. split; [reflexivity|].
  destruct (pgp_pin_survives_write ($"9") None bobAgain bob out twoContacts v' E) as (_ & H1 & H2 & _ & _ & H3).
  - discriminate.
  - vm_compute. reflexivity.
  - discriminate.
  - discriminate.
  - done.
  - discriminate.
  - right. vm_compute. reflexivity.
  - discriminate.
  - split_and!; [exact H1|exact H2|]. apply H3. intros k. eexists. reflexivity.
Defined.

(** An Autocrypt key dropped and pasted back. *)
Definition eve : Contact := person ($"e") ($"Eve") ($"eve@example.org") ($"PUB:E7") PGPSourceAutocrypt ($"E7") 1.
Definition eveBook : contactsFile := mkCF [eve] 1 0 0.
Definition eveNoKey : Contact := person ($"e") ($"Eve") ($"eve@example.org") [] [] [] 0.
Definition evePasted : Contact := person ($"e") ($"Eve") ($"eve@example.org") ($"PUB:E7") [] [] 0.
Definition eveDropped : contactsFile := (applyUpsertLocked ($"8") None eveNoKey eveBook).2.

Lemma autocrypt_key_not_laundered_witness :
  exists out, (applyUpsertLocked ($"9") None evePasted eveDropped).1 = Ok out /\ PGPKeySource out = PGPSourceAutocrypt /\
    PGPKeyVerified out = false.
Proof.
  destruct (applyUpsertLocked ($"8") None eveNoKey eveBook) as [[r|e] v1] eqn:E1; [|vm_compute in E1; discriminate E1].
  assert (v1 = eveDropped) as -> by (unfold eveDropped; rewrite E1; reflexivity).
  destruct (applyUpsertLocked ($"9") None evePasted eveDropped) as [[out|e] v3] eqn:E2; [|vm_compute in E2; discriminate E2].
  exists out. split; [reflexivity|].
  destruct (autocrypt_key_not_laundered ($"e") ($"E7") eve eveNoKey evePasted out eveBook eveDropped eveDropped v3
    ($"8") ($"9") None None r) as (_ & H1 & H2 & _);
    try discriminate; try (vm_compute; reflexivity); try exact E1; try exact E2; try constructor; try done.
Defined.

Lemma setPhotoRef_hidden_from_sync_witness :
  exists c' v', setPhotoRef ($"9") ($"a") ($"p.png") io_ok (file_ twoContacts) = (Ok (Some c'), {| mem := v'; disk := FData v' |}) /\
    PhotoRef c' = $"p.png" /\
    (changedSince 2 io_ok (file_ v')).1 = Ok (mkDelta [] [] 2 false).
Proof.
  destruct (setPhotoRef_hidden_from_sync ($"9") ($"a") ($"p.png") ann emptyContacts emptyContacts twoContacts twoContacts_ok)
    as (c' & v' & H1 & _ & H3 & H4).
  - vm_compute. reflexivity.
  - simpl. lia.
  - exists c', v'. split_and!; [exact H1|exact H3|exact H4].
Defined.

(** The two Anns share an address up to case and space. *)
Lemma duplicate_groups_are_components_witness :
  findDuplicateGroups (contacts withDuplicate) = [[0; 2]%nat] /\ connected (contacts withDuplicate) 0 2.
Proof.
  assert (E : findDuplicateGroups (contacts withDuplicate) = [[0; 2]%nat]) by (vm_compute; reflexivity). split; [exact E|].
  destruct (duplicate_groups_are_components (contacts withDuplicate)) as (_ & H & _). rewrite E in H.
  apply (H [0; 2]%nat 0%nat 2%nat); [left|left|right; left].
Defined.

Lemma dedupe_loses_no_address_witness :
  exists rep s' v', dedupe ($"9") io_ok (file_ withDuplicate) = (Ok rep, s') /\ MergedCount rep = 1%Z /\ disk s' = FData v' /\
    exists c', c' ∈ contacts v' /\ Deleted c' = false /\ $"e:ann@example.org" ∈ matchKeys c'.
Proof.
  destruct (dedupe ($"9") io_ok (file_ withDuplicate)) as [[rep|e] s'] eqn:E; [|vm_compute in E; discriminate E].
  destruct (dedupe_loses_no_address ($"9") withDuplicate withDuplicate_ok io_ok emptyContacts rep s' E) as (v' & H1 & H2).
  exists rep, s', v'. split_and!; [reflexivity|vm_compute in E; injection E as <- _; reflexivity|exact H1|].
  apply (H2 ann2); [right; right; left|reflexivity|]. vm_compute. left.
Defined.
