(* ===== verification/GoCodec.v ===== *)
(** * GoCodec: encodings of the standard library

    [encoding/base64] (StdEncoding), [encoding/hex], [strconv.ParseUint] and
    [strings.Split], on the code points of a string and the bytes (0 to 255) it
    encodes, with the round trips the callers rely on; the RFC 3339 formatting of
    a time is the class [GoTimeFormat]. *)

From S2P Require Import Prelude GoText.

(** [t.Format(time.RFC3339)] of a Unix time, in UTC. *)
Class GoTimeFormat := formatTime : Z -> gostr.

(** ** Hexadecimal *)

Definition hexValue (c : Z) : option Z :=
  if (Z.leb 48 c && Z.leb c 57)%Z then Some (c - 48)%Z
  else if (Z.leb 97 c && Z.leb c 102)%Z then Some (c - 87)%Z
  else if (Z.leb 65 c && Z.leb c 70)%Z then Some (c - 55)%Z
  else None.

(** [hex.DecodeString]. *)
Fixpoint hexDecode (s : gostr) : option (list Z) :=
  match s with
  | [] => Some []
  | a :: b :: s' =>
      x ← hexValue a; y ← hexValue b; l ← hexDecode s'; Some ((16 * x + y)%Z :: l)
  | [_] => None
  end.

(** ** Base64 *)

Definition b64Char (n : Z) : Z :=
  if (n <? 26)%Z then (65 + n)%Z else if (n <? 52)%Z then (71 + n)%Z
  else if (n <? 62)%Z then (n - 4)%Z else if (n =? 62)%Z then 43%Z else 47%Z.
Definition b64Value (c : Z) : option Z :=
  if (Z.leb 65 c && Z.leb c 90)%Z then Some (c - 65)%Z
  else if (Z.leb 97 c && Z.leb c 122)%Z then Some (c - 71)%Z
  else if (Z.leb 48 c && Z.leb c 57)%Z then Some (c + 4)%Z
  else if (c =? 43)%Z then Some 62%Z else if (c =? 47)%Z then Some 63%Z else None.

(** [StdEncoding.EncodeToString]. *)
Fixpoint base64Encode (l : list Z) : gostr :=
  match l with
  | [] => []
  | [a] => [b64Char (a / 4); b64Char (a mod 4 * 16); 61; 61]%Z
  | [a; b] => [b64Char (a / 4); b64Char (a mod 4 * 16 + b / 16); b64Char (b mod 16 * 4); 61]%Z
  | a :: b :: c :: l' =>
      b64Char (a / 4)%Z :: b64Char (a mod 4 * 16 + b / 16)%Z :: b64Char (b mod 16 * 4 + c / 64)%Z
      :: b64Char (c mod 64)%Z :: base64Encode l'
  end.

(** [StdEncoding.DecodeString]: carriage returns and newlines are skipped, a
    quantum is four characters, padding ends the text, and the unused bits of
    the last quantum are dropped. *)
Fixpoint base64Quanta (s : gostr) : option (list Z) :=
  match s with
  | [] => Some []
  | a :: b :: c :: d :: s' =>
      x ← b64Value a; y ← b64Value b;
      if bool_decide (c = 61%Z) then
        if bool_decide (d = 61%Z) && bool_decide (s' = []) then Some [(4 * x + y / 16)%Z] else None
      else
        z ← b64Value c;
        if bool_decide (d = 61%Z) then
          if bool_decide (s' = []) then Some [(4 * x + y / 16)%Z; (y mod 16 * 16 + z / 4)%Z] else None
        else
          w ← b64Value d; l ← base64Quanta s';
          Some ((4 * x + y / 16)%Z :: (y mod 16 * 16 + z / 4)%Z :: (z mod 4 * 64 + w)%Z :: l)
  | _ => None
  end.
Definition base64Decode (s : gostr) : option (list Z) := base64Quanta (removeAll 10 (removeAll 13 s)).

(** ** Splitting and numbers *)

(** [strings.Split] on a separator of one rune. *)
Fixpoint splitOn (sep : Z) (s : gostr) : list gostr :=
  match s with
  | [] => [[]]
  | c :: s' =>
      if (c =? sep)%Z then [] :: splitOn sep s'
      else match splitOn sep s' with
           | [] => [[c]]
           | w :: l => (c :: w) :: l
           end
  end.

Definition digitValue (c : Z) : option Z := if (Z.leb 48 c && Z.leb c 57)%Z then Some (c - 48)%Z else None.
Fixpoint parseDigits (acc : Z) (s : gostr) : option Z :=
  match s with
  | [] => Some acc
  | c :: s' => d ← digitValue c; parseDigits (10 * acc + d)%Z s'
  end.
(** [strconv.ParseUint(s, 10, bits)]. *)
Definition parseUint (bits : Z) (s : gostr) : option Z :=
  if bool_decide (s = []) then None
  else n ← parseDigits 0 s; if (n <? 2 ^ bits)%Z then Some n else None.

(** ** Signed decimal numbers *)

Definition int64Min : Z := - 2 ^ 63.
Definition int64Max : Z := 2 ^ 63 - 1.
Definition wrap64 (n : Z) : Z := ((n + 2 ^ 63) mod 2 ^ 64 - 2 ^ 63)%Z.
Definition signOf (s : gostr) : bool * gostr := match s with 45%Z :: s' => (true, s') | 43%Z :: s' => (false, s') | _ => (false, s) end.
(** The value of signed decimal text, whatever its size. *)
Definition parseSigned (s : gostr) : option Z :=
  let '(neg, digits) := signOf s in if bool_decide (digits = []) then None else n ← parseDigits 0 digits; Some (if neg : bool then (- n)%Z else n).
(** [strconv.Atoi] and [strconv.ParseInt(s, 10, 64)]; [parseIntValue] is the number both answer beside an error. *)
Definition parseInt (s : gostr) : option Z := n ← parseSigned s; if (int64Min <=? n)%Z && (n <=? int64Max)%Z then Some n else None.
Definition parseIntValue (s : gostr) : Z := match parseSigned s with Some n => Z.max int64Min (Z.min int64Max n) | None => 0%Z end.
(** [fmt.Sscan] into an int64, of decimal text; an error leaves 0. *)
Definition isDecimal (c : Z) : bool := (48 <=? c)%Z && (c <=? 57)%Z.
Fixpoint digitPrefix (s : gostr) : gostr := match s with c :: s' => if isDecimal c then c :: digitPrefix s' else [] | [] => [] end.
Definition sscanInt (s : gostr) : Z :=
  let '(neg, rest) := signOf (trimLeft s) in default 0%Z (parseInt ((if neg : bool then [45%Z] else []) ++ digitPrefix rest)).

(** ** Path components *)

(** [fsutil.SafePathComponent]: filepath.Base is the identity on a text without
    a separator, and one with a separator is refused. *)
Definition safePathComponent (value : gostr) : bool :=
  negb (value =s? []) && negb (value =s? $".") && negb (value =s? $"..")
  && negb (existsb (fun r => bool_decide (r ∈ [47; 92; 0]%Z)) value).

(** ** Round trips *)

Definition byteOK (b : Z) : Prop := (0 <= b < 256)%Z.

Ltac bytes := unfold byteOK in *; Z.div_mod_to_equations; lia.

Lemma b64_value_char (n : Z) : (0 <= n < 64)%Z -> b64Value (b64Char n) = Some n.
Proof. intros H. unfold b64Char, b64Value. break_match; to_prop; f_equal; lia. Qed.

Lemma b64_char_plain (n : Z) : (0 <= n < 64)%Z -> b64Char n ≠ 61%Z /\ b64Char n ≠ 10%Z /\ b64Char n ≠ 13%Z.
Proof. intros H. unfold b64Char. break_match; to_prop; lia. Qed.

(** Three bytes are four sextets. *)
Lemma sextets (a b c : Z) : byteOK a -> byteOK b -> byteOK c ->
  (0 <= a / 4 < 64)%Z /\ (0 <= a mod 4 * 16 < 64)%Z /\ (0 <= a mod 4 * 16 + b / 16 < 64)%Z /\
  (0 <= b mod 16 * 4 < 64)%Z /\ (0 <= b mod 16 * 4 + c / 64 < 64)%Z /\ (0 <= c mod 64 < 64)%Z.
Proof. bytes. Qed.

Lemma list_triples {A} (P : list A -> Prop) :
  P [] -> (forall a, P [a]) -> (forall a b, P [a; b]) -> (forall a b c l, P l -> P (a :: b :: c :: l)) -> forall l, P l.
Proof.
  intros H0 H1 H2 H3 l. enough (P l /\ (forall a, P (a :: l)) /\ forall a b, P (a :: b :: l)) by tauto.
  induction l as [|x l (IH1 & IH2 & IH3)]; repeat split; auto.
Qed.

Lemma removeAll_id r s : r ∉ s -> removeAll r s = s.
Proof.
  unfold removeAll. intros H. induction s as [|c s IH]; simpl; [done|]. apply not_elem_of_cons in H as [H1 H2].
  destruct (Z.eqb_spec c r); [congruence|]. simpl. by rewrite IH.
Qed.

Lemma base64_no_newline l : Forall byteOK l -> 10%Z ∉ base64Encode l /\ 13%Z ∉ base64Encode l.
Proof.
  induction l as [|a|a b|a b c l IH] using list_triples; intros H;
    repeat match goal with H : Forall _ (_ :: _) |- _ => apply Forall_cons in H as [? H] end; cbn [base64Encode].
  1: split; apply not_elem_of_nil.
  1: pose proof (sextets a 0 0) as S. 2: pose proof (sextets a b 0) as S. 3: pose proof (sextets a b c) as S.
  all: destruct S as (S1 & S2 & S3 & S4 & S5 & S6); [done|try done; unfold byteOK; lia..|].
  all: rewrite !not_elem_of_cons.
  all: try (destruct IH as [IH1 IH2]; [done|]).
  all: pose proof (b64_char_plain _ S1); pose proof (b64_char_plain _ S2); pose proof (b64_char_plain _ S3);
       pose proof (b64_char_plain _ S4); pose proof (b64_char_plain _ S5); pose proof (b64_char_plain _ S6).
  all: repeat split; try apply not_elem_of_nil; try done; try lia; intuition congruence.
Qed.

Lemma base64Quanta_encode l : Forall byteOK l -> base64Quanta (base64Encode l) = Some l.
Proof.
  induction l as [|a|a b|a b c l IH] using list_triples; intros H;
    repeat match goal with H : Forall _ (_ :: _) |- _ => apply Forall_cons in H as [? H] end; cbn [base64Encode base64Quanta];
    [done|pose proof (sextets a 0 0) as S|pose proof (sextets a b 0) as S|pose proof (sextets a b c) as S];
    (destruct S as (S1 & S2 & S3 & S4 & S5 & S6); [done|try done; unfold byteOK; lia..|]);
    rewrite ?(b64_value_char _ S1), ?(b64_value_char _ S2), ?(b64_value_char _ S3), ?(b64_value_char _ S4),
      ?(b64_value_char _ S5), ?(b64_value_char _ S6); cbn [mbind option_bind];
    rewrite ?(bool_decide_eq_false_2 (b64Char _ = 61%Z)) by (apply b64_char_plain; assumption);
    cbn [mbind option_bind]; rewrite ?IH by done; cbn [mbind option_bind];
    try rewrite !bool_decide_eq_true_2 by done; cbn [andb];
    repeat (f_equal; try bytes).
Qed.

Lemma base64_roundtrip l : Forall byteOK l -> base64Decode (base64Encode l) = Some l.
Proof.
  intros H. unfold base64Decode. destruct (base64_no_newline l H).
  rewrite !removeAll_id; [by apply base64Quanta_encode|done|by rewrite removeAll_id].
Qed.

Lemma splitOn_ne sep s : splitOn sep s ≠ [].
Proof. induction s as [|c s IH]; simpl; [done|]. destruct (c =? sep)%Z; [done|]. by destruct (splitOn sep s). Qed.

(** A text is its fields put together again. *)
Lemma join_splitOn sep s : join [sep] (splitOn sep s) = s.
Proof.
  induction s as [|c s IH]; simpl; [done|]. pose proof (splitOn_ne sep s).
  destruct (Z.eqb_spec c sep) as [->|]; destruct (splitOn sep s) as [|w [|w' l]]; simplify_eq/=; by rewrite ?IH.
Qed.

Lemma splitOn_plain sep w : sep ∉ w -> splitOn sep w = [w].
Proof.
  induction w as [|c w IH]; simpl; [done|]. intros [H1 H2]%not_elem_of_cons.
  destruct (Z.eqb_spec c sep); [by subst|]. by rewrite IH.
Qed.
Lemma splitOn_app sep w s : sep ∉ w -> splitOn sep (w ++ sep :: s) = w :: splitOn sep s.
Proof.
  induction w as [|c w IH]; simpl; [by rewrite Z.eqb_refl|]. intros [H1 H2]%not_elem_of_cons.
  destruct (Z.eqb_spec c sep); [by subst|]. by rewrite IH.
Qed.

Lemma join_cons sep w l : l ≠ [] -> join sep (w :: l) = w ++ sep ++ join sep l.
Proof. by destruct l. Qed.

Lemma splitOn_join sep l : l ≠ [] -> Forall (fun w => ~ sep ∈ w) l -> splitOn sep (join [sep] l) = l.
Proof.
  induction l as [|w l IH]; [done|]. intros _ [Hw Hl]%Forall_cons. destruct l as [|w2 l]; [by apply splitOn_plain|].
  rewrite join_cons by done. change ([sep] ++ ?x) with (sep :: x).
  rewrite splitOn_app by done. by rewrite IH.
Qed.

Lemma parseDigits_app acc s t : parseDigits acc (s ++ t) = parseDigits acc s ≫= fun n => parseDigits n t.
Proof.
  revert acc. induction s as [|c s IH]; intros acc; simpl; [done|].
  destruct (digitValue c); simpl; [by rewrite IH|done].
Qed.

Lemma digitValue_digit n : (0 <= n < 10)%Z -> digitValue (48 + n) = Some n.
Proof. intros. unfold digitValue. break_match; to_prop; [f_equal; lia|]. rewrite andb_false_iff, !Z.leb_gt in *. lia. Qed.

Lemma decimalFuel_parse fuel n : (0 <= n < 2 ^ Z.of_nat fuel)%Z -> parseDigits 0 (decimalFuel fuel n) = Some n.
Proof.
  revert n. induction fuel as [|fuel IH]; intros n H; [simpl in *; f_equal; lia|].
  cbn [decimalFuel]. rewrite parseDigits_app. rewrite Nat2Z.inj_succ, Z.pow_succ_r in H by lia.
  destruct (Z.ltb_spec n 10); cbn [parseDigits mbind option_bind].
  - rewrite Z.mod_small by lia. rewrite digitValue_digit by lia. simpl. f_equal.
  - rewrite IH by (Z.div_mod_to_equations; lia). simpl.
    rewrite digitValue_digit by (Z.div_mod_to_equations; lia). simpl. f_equal. Z.div_mod_to_equations; lia.
Qed.

Lemma formatInt_parse n : (0 <= n)%Z -> parseDigits 0 (formatInt n) = Some n.
Proof.
  intros H. unfold formatInt. destruct (Z.ltb_spec n 0); [lia|]. apply decimalFuel_parse.
  rewrite Nat2Z.inj_add, Z2Nat.id by apply Z.log2_nonneg. split; [done|].
  destruct (Z.eq_dec n 0) as [->|]; [done|]. apply Z.log2_spec. lia.
Qed.

Lemma formatInt_ne n : formatInt n ≠ [].
Proof.
  unfold formatInt. destruct (n <? 0)%Z; [done|]. rewrite Nat.add_1_r. cbn [decimalFuel].
  by destruct (if (n <? 10)%Z then [] else _).
Qed.

Lemma decimalFuel_digits fuel n : (0 <= n)%Z -> Forall (fun c => 48 <= c <= 57)%Z (decimalFuel fuel n).
Proof.
  revert n. induction fuel as [|fuel IH]; intros n H; cbn [decimalFuel]; [constructor|].
  apply Forall_app. split; [|repeat constructor; Z.div_mod_to_equations; lia].
  destruct (n <? 10)%Z; [constructor|]. apply IH. Z.div_mod_to_equations; lia.
Qed.

(** A natural number is written with digits only. *)
Lemma formatInt_digits n : (0 <= n)%Z -> Forall (fun c => 48 <= c <= 57)%Z (formatInt n).
Proof. intros H. unfold formatInt. destruct (Z.ltb_spec n 0); [lia|]. by apply decimalFuel_digits. Qed.

Lemma parseUint_formatInt bits n : (0 <= n < 2 ^ bits)%Z -> parseUint bits (formatInt n) = Some n.
Proof.
  intros H. unfold parseUint. rewrite bool_decide_eq_false_2 by apply formatInt_ne.
  rewrite formatInt_parse by lia. simpl. destruct (Z.ltb_spec n (2 ^ bits)); [done|lia].
Qed.

Lemma parseUint_range bits s n : parseUint bits s = Some n -> (n < 2 ^ bits)%Z.
Proof.
  unfold parseUint. destruct (bool_decide _); [done|]. destruct (parseDigits 0 s); simpl; [|done].
  destruct (Z.ltb_spec z (2 ^ bits)); intros; by simplify_eq.
Qed.

(** ** Signed numbers read back *)

Lemma isDecimal_formatInt n : (0 <= n)%Z -> Forall (fun c => isDecimal c = true) (formatInt n).
Proof. intros H. eapply Forall_impl; [by apply formatInt_digits|]. intros c Hc. simpl in Hc. unfold isDecimal. lia. Qed.
Lemma signOf_digits s : Forall (fun c => isDecimal c = true) s -> signOf s = (false, s).
Proof. destruct s as [|c s]; [done|]. intros [Hc _]%Forall_cons. unfold isDecimal in Hc. simpl. destruct c as [|p|p]; try done. do 6 (destruct p as [p|p|]; try done). Qed.
Lemma parseInt_formatInt n : (0 <= n <= int64Max)%Z -> parseInt (formatInt n) = Some n.
Proof.
  intros H. unfold parseInt, parseSigned. rewrite (signOf_digits _ (isDecimal_formatInt n ltac:(lia))), bool_decide_false by apply formatInt_ne.
  rewrite formatInt_parse by lia. cbn [mbind option_bind]. destruct (_ && _) eqn:E; [done|]. exfalso. unfold int64Min, int64Max in *. lia.
Qed.
Lemma digitPrefix_id s : Forall (fun c => isDecimal c = true) s -> digitPrefix s = s.
Proof. induction 1 as [|c s Hc _ IH]; [done|]. simpl. by rewrite Hc, IH. Qed.
Lemma sscanInt_formatInt n : (0 <= n <= int64Max)%Z -> sscanInt (formatInt n) = n.
Proof.
  intros H. unfold sscanInt. pose proof (isDecimal_formatInt n ltac:(lia)) as HD. assert (HT : trimLeft (formatInt n) = formatInt n).
  { destruct (formatInt n) as [|c s]; [done|]. apply Forall_cons in HD as [Hc _]. unfold isDecimal in Hc. simpl. unfold isSpace. by replace (_ || _) with false by lia. }
  rewrite HT, (signOf_digits _ HD), (digitPrefix_id _ HD), app_nil_l, parseInt_formatInt by done. done.
Qed.
