(* ===== verification/UsersModel.v ===== *)
(** * UsersModel: the account record (backend/internal/users)

    One record per account in users.json: the role and its activity, the local
    credential, the second factor, the link to a directory identity, the OpenPGP
    identity with its sealings, and two counters that fence prepared work
    ([NativeSendEpoch], [PGPRevision]).

    Timestamps are the texts [Format(time.RFC3339)] writes; formatting and
    parsing are the classes [GoTimeFormat] and [GoTime].  The setters of the
    record's fields are generated from its eta-expansion. *)

From S2P Require Import Prelude GoText GoCodec SendAs.
From S2P Require Import ContactsModel Contacts.

(** ** Data *)

Definition RoleAdmin : gostr := $"admin".
Definition RoleUser : gostr := $"user".

Record WrappedEnvelope := mkEnvelope {
  envSlot : gostr;
  envEnvelope : gostr;
  envAddedAt : gostr;
  envExpiresAt : gostr;
  envVersion : Z;
  envGeneration : Z;
  envFingerprint : gostr;
  envEnrollmentKey : gostr;
}.
#[export] Instance WrappedEnvelope_eq_dec : EqDecision WrappedEnvelope.
Proof. solve_decision. Defined.

Record PGPKeyringState := mkKeyring {
  ringVersion : Z;
  ringGeneration : Z;
  ringPrimaries : list gostr;
  ringFingerprints : list gostr;
}.

Record SendQuotaOverride := mkQuota { MessagesPerHour : Z; RecipientsPerDay : Z }.

Record User := mkUser {
  NativeSendEpoch : Z;
  PGPKeyring : option PGPKeyringState;
  PGPRevision : Z;
  uID : gostr;
  Username : gostr;
  PasswordHash : gostr;
  uRole : gostr;
  Active : bool;
  MustChangePassword : bool;
  uCreatedAt : gostr;
  uUpdatedAt : gostr;
  DeactivatedAt : gostr;
  uSendQuota : option SendQuotaOverride;
  TOTPEnabled : bool;
  TOTPSecretEnc : gostr;
  TOTPConfirmedAt : gostr;
  RecoveryCodesHash : list gostr;
  LastUsedTOTPStep : Z;
  PushMFAEnabled : bool;
  NativeMailboxIssuer : gostr;
  NativeMailboxSource : gostr;
  SSOSub : gostr;
  SSOIssuer : gostr;
  SSOUsername : gostr;
  SSOEmail : gostr;
  SSOLinkedAt : Z;
  SSOLinkRevokedAt : Z;
  AuthDerivation : gostr;
  LoginSalt : gostr;
  LoginIterations : Z;
  PGPFingerprint : gostr;
  PGPKeyID : gostr;
  PGPPublicKey : gostr;
  PGPPrivateKeyEnc : gostr;
  PGPPrivateKeyWrapped : gostr;
  PGPWrappedEnvelopes : list WrappedEnvelope;
  IncomingEncryptionPending : bool;
  PGPKeyProtection : gostr;
  PGPKeySource : gostr;
  PGPKeyCreatedAt : gostr;
}.

Definition User_eta (u : User) : User :=
  mkUser (NativeSendEpoch u) (PGPKeyring u) (PGPRevision u) (uID u) (Username u) (PasswordHash u) (uRole u)
    (Active u) (MustChangePassword u) (uCreatedAt u) (uUpdatedAt u) (DeactivatedAt u) (uSendQuota u)
    (TOTPEnabled u) (TOTPSecretEnc u) (TOTPConfirmedAt u) (RecoveryCodesHash u) (LastUsedTOTPStep u)
    (PushMFAEnabled u) (NativeMailboxIssuer u) (NativeMailboxSource u) (SSOSub u) (SSOIssuer u) (SSOUsername u)
    (SSOEmail u) (SSOLinkedAt u) (SSOLinkRevokedAt u) (AuthDerivation u) (LoginSalt u) (LoginIterations u)
    (PGPFingerprint u) (PGPKeyID u) (PGPPublicKey u) (PGPPrivateKeyEnc u) (PGPPrivateKeyWrapped u)
    (PGPWrappedEnvelopes u) (IncomingEncryptionPending u) (PGPKeyProtection u) (PGPKeySource u) (PGPKeyCreatedAt u).

Definition setNativeSendEpoch (v : Z) : User -> User := ltac:(setter_of User_eta NativeSendEpoch v).
Definition setPGPKeyring (v : option PGPKeyringState) : User -> User := ltac:(setter_of User_eta PGPKeyring v).
Definition setPGPRevision (v : Z) : User -> User := ltac:(setter_of User_eta PGPRevision v).
Definition setPasswordHash (v : gostr) : User -> User := ltac:(setter_of User_eta PasswordHash v).
Definition setuRole (v : gostr) : User -> User := ltac:(setter_of User_eta uRole v).
Definition setActive (v : bool) : User -> User := ltac:(setter_of User_eta Active v).
Definition setMustChangePassword (v : bool) : User -> User := ltac:(setter_of User_eta MustChangePassword v).
Definition setUpdatedAt (v : gostr) : User -> User := ltac:(setter_of User_eta uUpdatedAt v).
Definition setDeactivatedAt (v : gostr) : User -> User := ltac:(setter_of User_eta DeactivatedAt v).
Definition setuSendQuota (v : option SendQuotaOverride) : User -> User := ltac:(setter_of User_eta uSendQuota v).
Definition setTOTPEnabled (v : bool) : User -> User := ltac:(setter_of User_eta TOTPEnabled v).
Definition setTOTPSecretEnc (v : gostr) : User -> User := ltac:(setter_of User_eta TOTPSecretEnc v).
Definition setTOTPConfirmedAt (v : gostr) : User -> User := ltac:(setter_of User_eta TOTPConfirmedAt v).
Definition setRecoveryCodesHash (v : list gostr) : User -> User := ltac:(setter_of User_eta RecoveryCodesHash v).
Definition setLastStep (v : Z) : User -> User := ltac:(setter_of User_eta LastUsedTOTPStep v).
Definition setPushMFA (v : bool) : User -> User := ltac:(setter_of User_eta PushMFAEnabled v).
Definition setSSOSub (v : gostr) : User -> User := ltac:(setter_of User_eta SSOSub v).
Definition setSSOIssuer (v : gostr) : User -> User := ltac:(setter_of User_eta SSOIssuer v).
Definition setSSOUsername (v : gostr) : User -> User := ltac:(setter_of User_eta SSOUsername v).
Definition setSSOEmail (v : gostr) : User -> User := ltac:(setter_of User_eta SSOEmail v).
Definition setSSOLinkedAt (v : Z) : User -> User := ltac:(setter_of User_eta SSOLinkedAt v).
Definition setSSOLinkRevokedAt (v : Z) : User -> User := ltac:(setter_of User_eta SSOLinkRevokedAt v).
Definition setAuthDerivation (v : gostr) : User -> User := ltac:(setter_of User_eta AuthDerivation v).
Definition setLoginSalt (v : gostr) : User -> User := ltac:(setter_of User_eta LoginSalt v).
Definition setLoginIterations (v : Z) : User -> User := ltac:(setter_of User_eta LoginIterations v).
Definition setPGPFingerprint (v : gostr) : User -> User := ltac:(setter_of User_eta PGPFingerprint v).
Definition setPGPKeyID (v : gostr) : User -> User := ltac:(setter_of User_eta PGPKeyID v).
Definition setPGPPublicKey (v : gostr) : User -> User := ltac:(setter_of User_eta PGPPublicKey v).
Definition setPGPPrivateKeyEnc (v : gostr) : User -> User := ltac:(setter_of User_eta PGPPrivateKeyEnc v).
Definition setPGPPrivateKeyWrapped (v : gostr) : User -> User := ltac:(setter_of User_eta PGPPrivateKeyWrapped v).
Definition setPGPWrappedEnvelopes (v : list WrappedEnvelope) : User -> User := ltac:(setter_of User_eta PGPWrappedEnvelopes v).
Definition setIncomingPending (v : bool) : User -> User := ltac:(setter_of User_eta IncomingEncryptionPending v).
Definition setPGPKeyProtection (v : gostr) : User -> User := ltac:(setter_of User_eta PGPKeyProtection v).
Definition setPGPKeySource (v : gostr) : User -> User := ltac:(setter_of User_eta PGPKeySource v).
Definition setPGPKeyCreatedAt (v : gostr) : User -> User := ltac:(setter_of User_eta PGPKeyCreatedAt v).

(** The zero [User] with an identity, as the composite literals of the creating
    operations start from. *)
Definition zeroUser (id username role : gostr) (mustChange : bool) (now : gostr) : User :=
  mkUser 0 None 0 id username [] role true mustChange now now [] None false [] [] [] 0 false [] [] [] [] [] [] 0 0
    [] [] 0 [] [] [] [] [] [] false [] [] [].

Record usersFile := mkUsersFile { ufVersion : Z; ufUsers : list User }.

(** ** Errors *)

Inductive user_error :=
  | ErrNotFound | ErrUsernameTaken | ErrSSOSubTaken | ErrNativeAccountConflict | ErrLastActiveAdmin
  | ErrNotClientProtected | ErrWouldDowngradeCustody | ErrTOTPEnrollmentRestarted | ErrPasswordWeak
  | ErrUsernameInvalid | ErrInvalidEnvelopeSlot | ErrNoPGPIdentity | ErrTooManyEnvelopeSlots
  | ErrWrappedEnvelopeTooLarge | ErrTOTPStepNotNewer | ErrPGPIdentityChanged | ErrPGPRevisionChanged
  | ErrInvalidPGPRevision | ErrPGPKeyringUpgradeRequired | ErrInvalidPGPKeyring | ErrIncomingEncryptionPending
  | ErrAuthSecretMalformed | ErrInvalidDeviceEnvelope | ErrRetiredDeviceEnvelope | ErrDeviceEnvelopeVersion
  | ErrDeviceDeliveryIncomplete | ErrPGPGenerationChanged | ErrKDFBusy | ErrNoChangeNeeded | ErrRecoveryCodeNoMatch
  | ErrPGPRevisionExhausted | ErrAuthorityExhausted | ErrUnsupportedVersion | ErrContext
  | ErrOther.                       (* the remaining errors.New of the package *)
#[export] Instance user_error_eq_dec : EqDecision user_error.
Proof. solve_decision. Defined.

(** ** Bounds *)

Definition MaxUint64 : Z := 2 ^ 64 - 1.
Definition MaxPGPRevision : Z := 2 ^ 53 - 1.
Definition MaxWrappedEnvelopeBytes : Z := 131072.
Definition maxWrappedEnvelopeSlots : Z := 32.
Definition maxDeviceSlotIDLen : Z := 128.
Definition DeviceEnvelopeTTL : Z := 7 * 24 * 3600 * second.
Definition MinPasswordLen : Z := 14.

Definition PGPProtectionClient : gostr := $"client".
Definition PGPProtectionServer : gostr := $"server".
Definition EnvelopeSlotPassword : gostr := $"password".
Definition EnvelopeSlotRecovery : gostr := $"recovery".
Definition EnvelopeSlotDevicePrefix : gostr := $"device:".
Definition AuthDerivationPBKDF2 : gostr := $"pbkdf2-sha256-v1".

(** ** Views of one account *)

Definition protection (u : User) : gostr :=
  if (PGPKeyProtection u =s? PGPProtectionClient) || negb (PGPPrivateKeyWrapped u =s? []) then PGPProtectionClient
  else if negb (PGPPrivateKeyEnc u =s? []) then PGPProtectionServer
  else [].
Definition hasServerReadableKey (u : User) : bool := protection u =s? PGPProtectionServer.

Definition usesDerivedAuth (u : User) : bool := AuthDerivation u =s? AuthDerivationPBKDF2.
Definition ssoLinkRevoked (u : User) : bool := negb (SSOSub u =s? []) && negb (SSOLinkRevokedAt u =? 0)%Z.
Definition hasLocalCredential (u : User) : bool := negb (PasswordHash u =s? []).
Definition needsPasswordReset (u : User) : bool := hasLocalCredential u && negb (usesDerivedAuth u).

(** [strings.CutPrefix]. *)
Definition cutPrefix (s p : gostr) : gostr * bool :=
  if hasPrefix p s then (drop (length p) s, true) else (s, false).

Definition validateWrappedEnvelope (envelope : gostr) : res user_error unit :=
  if (MaxWrappedEnvelopeBytes <? utf8Len envelope)%Z then Err ErrWrappedEnvelopeTooLarge else Ok tt.

Definition validEnvelopeSlot (slot : gostr) : bool :=
  if slot =s? EnvelopeSlotRecovery then true
  else let '(id, ok) := cutPrefix slot EnvelopeSlotDevicePrefix in
       ok && negb (id =s? []) && (utf8Len id <=? maxDeviceSlotIDLen)%Z
       && negb (existsb (fun r => bool_decide (r ∈ [32; 9; 13; 10]%Z)) id).

Section Time.
Context {GT : GoTime}.

Definition envExpired (now : Z) (e : WrappedEnvelope) : bool :=
  if envExpiresAt e =s? [] then false
  else match parseTime (envExpiresAt e) with
       | None => true
       | Some t => (t <? now)%Z
       end.

Definition wrappedEnvelopes (now : Z) (u : User) : list WrappedEnvelope :=
  (if negb (trimSpace (PGPPrivateKeyWrapped u) =s? [])
   then [mkEnvelope EnvelopeSlotPassword (PGPPrivateKeyWrapped u) [] [] 0 0 [] []] else [])
  ++ List.filter (fun e => negb ((envSlot e =s? EnvelopeSlotPassword) || envExpired now e)) (PGPWrappedEnvelopes u).

(** compactExpiredEnvelopes: the record without its expired slots, and whether
    any was dropped. *)
Definition compactExpiredEnvelopes (now : Z) (u : User) : User * bool :=
  let kept := List.filter (fun e => negb (envExpired now e)) (PGPWrappedEnvelopes u) in
  if (length kept =? length (PGPWrappedEnvelopes u))%nat then (u, false)
  else (setPGPWrappedEnvelopes kept u, true).

(** The live-slot count both envelope writers take. *)
Definition liveSlots (now : Z) (l : list WrappedEnvelope) : Z :=
  Z.of_nat (length (List.filter (fun e => negb (envExpired now e)) l)).
End Time.

(** ** Validation *)

Definition validatePassword (password : gostr) : res user_error unit :=
  if (Z.of_nat (length password) <? MinPasswordLen)%Z then Err ErrPasswordWeak else Ok tt.

Definition isAlnumA (r : Z) : bool := isUpperA r || isLowerA r || (Z.leb 48 r && Z.leb r 57)%Z.

(** [^[A-Za-z0-9][A-Za-z0-9._-]{0,63}$]. *)
Definition usernamePattern (s : gostr) : bool :=
  match s with
  | [] => false
  | c :: s' =>
      isAlnumA c && forallb (fun r => isAlnumA r || bool_decide (r ∈ [46; 95; 45]%Z)) s' && (length s' <=? 63)%nat
  end.
Definition validateUsername (username : gostr) : res user_error unit :=
  if usernamePattern (trimSpace username) then Ok tt else Err ErrUsernameInvalid.

Definition normalizeUsername {U : Unicode} (username : gostr) : gostr := toLower (trimSpace username).

(** ** The two fenced views of an account *)

(** nativeSendState: what a change of makes work prepared by the account stale. *)
Definition nativeSendState (u : User) :=
  (Active u, MustChangePassword u, TOTPEnabled u, PushMFAEnabled u, uRole u,
   (PasswordHash u, AuthDerivation u, LoginSalt u, SSOSub u, NativeMailboxIssuer u, NativeMailboxSource u,
    TOTPSecretEnc u), LoginIterations u, SSOLinkRevokedAt u).

(** pgpState: the identity and its recovery material, with the credential. *)
Definition ringState (k : option PGPKeyringState) : Z * Z * gostr * gostr :=
  match k with
  | None => (0%Z, 0%Z, [], [])
  | Some k => (ringVersion k, ringGeneration k, join ($",") (ringFingerprints k), join ($",") (ringPrimaries k))
  end.
Definition pgpState (u : User) :=
  (ringState (PGPKeyring u),
   (PGPFingerprint u, PGPKeyID u, PGPPublicKey u, PGPPrivateKeyEnc u, PGPPrivateKeyWrapped u, PGPKeyProtection u,
    PGPKeySource u, PGPKeyCreatedAt u),
   (PasswordHash u, AuthDerivation u, LoginSalt u, LoginIterations u),
   find_first (fun e => envSlot e =s? EnvelopeSlotRecovery) (PGPWrappedEnvelopes u)).
