(* ===== verification/UsersStore.v ===== *)
(** * UsersStore: users.json, its read cache and its one write path

    Every mutation runs under the mutex and the inter-process lock and is one
    atomic step: [readFileUnlocked] reads the file itself, and [writeFileUnlocked]
    compares the new contents with what is on disk, advances the epochs of the
    accounts whose access changed, and replaces the file.  Reads go through a
    cache that is valid while the file's modification time and size still are
    those recorded with it ([load]). *)

From S2P Require Import Prelude GoText GoCodec FileStore SendAs.
From S2P Require Import ContactsModel Contacts UsersModel.

(** ** The index of a parsed file *)

Record userIndex := mkIndex {
  byID : gmap gostr nat;
  byUsername : gmap gostr nat;
  bySSOSub : gmap gostr nat;
}.

Section Index.
Context {U : Unicode}.

(** One turn of buildUserIndex's loop, on the user at position [i]. *)
Definition indexUser (i : nat) (u : User) (idx : userIndex) : userIndex :=
  let firstWins (key : gostr) (m : gmap gostr nat) :=
    if key =s? [] then m
    else match m !! key with Some _ => m | None => <[key := i]> m end in
  mkIndex (<[uID u := i]> (byID idx))
          (firstWins (normalizeUsername (Username u)) (byUsername idx))
          (firstWins (trimSpace (SSOSub u)) (bySSOSub idx)).

Fixpoint indexFrom (i : nat) (l : list User) (idx : userIndex) : userIndex :=
  match l with
  | [] => idx
  | u :: l' => indexFrom (S i) l' (indexUser i u idx)
  end.
Definition buildUserIndex (f : usersFile) : userIndex := indexFrom 0 (ufUsers f) (mkIndex ∅ ∅ ∅).
End Index.

(** ** State and environment *)

(** What os.Stat reports of the file: modification time and size. *)
Abbreviation fstat := (Z * Z)%type.

Record ustate := mkU {
  uDisk : file usersFile;
  uStat : fstat;                                          (* meaningless while the file is missing *)
  uCache : option (usersFile * userIndex * fstat);        (* None: cacheValid is false *)
}.

(** What one call meets: the clock, the system calls (the write path reads the
    file a second time), the stat of the file it writes. *)
Record env := mkEnv {
  eNow : Z;
  eIO : io;
  eReread : bool;
  eStat : fstat;
}.

Abbreviation uerr := (err user_error).
Definition UM (A : Type) : Type := env -> ustate -> res uerr A * ustate.

#[export] Instance UM_ret : MRet UM := fun A a _ s => (Ok a, s).
#[export] Instance UM_bind : MBind UM := fun A B f m e s =>
  match m e s with
  | (Ok a, s') => f a e s'
  | (Err x, s') => (Err x, s')
  end.

Definition uthrow {A} (x : user_error) : UM A := fun _ s => (Err (ErrApp x), s).
Definition liftRes {A} (r : res user_error A) : UM A := fun _ s =>
  (match r with Ok a => Ok a | Err x => Err (ErrApp x) end, s).
Definition asks : UM env := fun e s => (Ok e, s).

(** [fsutil.WithFileLock] and [LockFileContext] with [lockContext]: a context
    that ends while waiting is a lock that is not obtained. *)
Definition takeLocks : UM unit := fun e s => (if io_lock (eIO e) then Ok tt else Err ErrLock, s).

Definition readFile (ok : bool) (d : file usersFile) : res uerr usersFile :=
  if ok then
    match d with
    | FMissing => Err ErrRead
    | FCorrupt => Err ErrJSON
    | FData f => Ok f
    end
  else Err ErrRead.
Definition readFileUnlocked : UM usersFile := fun e s => (readFile (io_read (eIO e)) (uDisk s), s).

(** ** The write path *)

(** byID of advanceNativeSendEpochs: the last record with an ID. *)
Definition priorByID (l : list User) : gmap gostr User :=
  foldl (fun m u => <[uID u := u]> m) ∅ l.

Definition advanceUser (prior : gmap gostr User) (u : User) : res user_error User :=
  match prior !! uID u with
  | None => Ok (setNativeSendEpoch 0 u)
  | Some old =>
      if bool_decide (nativeSendState u = nativeSendState old) then Ok (setNativeSendEpoch (NativeSendEpoch old) u)
      else if (NativeSendEpoch old =? MaxUint64)%Z then Err ErrAuthorityExhausted
      else Ok (setNativeSendEpoch (NativeSendEpoch old + 1) u)
  end.
Fixpoint advanceUsers (prior : gmap gostr User) (l : list User) : res user_error (list User) :=
  match l with
  | [] => Ok []
  | u :: l' => u' ← advanceUser prior u; l'' ← advanceUsers prior l'; Ok (u' :: l'')
  end.

(** advanceNativeSendEpochs re-reads the file; a missing one advances nothing. *)
Definition advanceNativeSendEpochs (f : usersFile) : UM usersFile := fun e s =>
  if eReread e then
    match uDisk s with
    | FMissing => (Ok f, s)
    | FCorrupt => (Err ErrJSON, s)
    | FData prior =>
        match advanceUsers (priorByID (ufUsers prior)) (ufUsers f) with
        | Ok l => (Ok (mkUsersFile (ufVersion f) l), s)
        | Err x => (Err (ErrApp x), s)
        end
    end
  else (Err ErrRead, s).

(** [fsutil.AtomicWriteFile], then invalidateCacheLocked. *)
Definition atomicWrite (f : usersFile) : UM unit := fun e s =>
  match io_write (eIO e) with
  | WriteOk => (Ok tt, mkU (FData f) (eStat e) None)
  | WriteFailed => (Err ErrWrite, s)
  | WriteSyncFailed => (Err ErrWrite, mkU (FData f) (eStat e) (uCache s))
  end.

Definition writeFileUnlocked (f : usersFile) : UM usersFile :=
  f' ← advanceNativeSendEpochs f;
  let f'' := if (ufVersion f' =? 0)%Z then mkUsersFile 1 (ufUsers f') else f' in
  atomicWrite f'' ;; mret f''.

(** ** The read path *)

Section Reads.
Context {U : Unicode}.

(** Writes of the other process that land while this one reads. *)
Definition interfere (w : option (usersFile * fstat)) (s : ustate) : ustate :=
  match w with
  | None => s
  | Some (f, st) => mkU (FData f) st (uCache s)
  end.

(** load: the file is stat'ed, the cache answers when it carries that stat,
    otherwise the file is read, parsed and indexed, and cached if a second stat
    still agrees with the first.  [w1] and [w2] are the writes of the other
    process between the first stat and the read, and between the read and the
    second stat. *)
Definition cacheAnswers (s : ustate) : option (usersFile * userIndex) :=
  match uCache s with
  | Some (f, idx, st) => if bool_decide (st = uStat s) then Some (f, idx) else None
  | None => None
  end.
Definition loadRacing (w1 w2 : option (usersFile * fstat)) : UM (usersFile * userIndex) := fun e s =>
  match uDisk s with
  | FMissing => (Err ErrRead, s)
  | _ =>
      let info := uStat s in
      match cacheAnswers s with
      | Some r => (Ok r, s)
      | None =>
          let s1 := interfere w1 s in
          match readFile (io_read (eIO e)) (uDisk s1) with
          | Err x => (Err x, s1)
          | Ok f =>
              let idx := buildUserIndex f in
              let s2 := interfere w2 s1 in
              (Ok (f, idx), if bool_decide (uStat s2 = info) then mkU (uDisk s2) (uStat s2) (Some (f, idx, info)) else s2)
          end
      end
  end.
Definition load : UM (usersFile * userIndex) := loadRacing None None.

(** withIndexedUsers, answering with the user found. *)
Definition withIndexedUsers (index : userIndex -> option nat) : UM (option User) :=
  '(f, idx) ← load;
  mret (match index idx with
        | None => None
        | Some pos => ufUsers f !! pos
        end).

Definition orNotFound (r : option User) : UM User :=
  match r with Some u => mret u | None => uthrow ErrNotFound end.

Definition getUser (id : gostr) : UM User := r ← withIndexedUsers (fun idx => byID idx !! id); orNotFound r.
Definition getByUsername (username : gostr) : UM User :=
  r ← withIndexedUsers (fun idx => byUsername idx !! normalizeUsername username); orNotFound r.
Definition getBySSOSub (ssoSub : gostr) : UM User :=
  let sub := trimSpace ssoSub in
  if sub =s? [] then uthrow ErrNotFound
  else r ← withIndexedUsers (fun idx => bySSOSub idx !! sub); orNotFound r.
Definition getBySSOSubIssuer (issuer sub : gostr) : UM User :=
  u ← getBySSOSub sub;
  if (issuer =s? []) || negb (SSOIssuer u =s? issuer)
     || (negb (NativeMailboxSource u =s? []) && negb (NativeMailboxIssuer u =s? issuer))
  then uthrow ErrNativeAccountConflict else mret u.

Definition listUsers `{SortSlice} : UM (list User) :=
  '(f, _) ← load;
  mret (sort_slice User (fun a b => strLtb (normalizeUsername (Username a)) (normalizeUsername (Username b))) (ufUsers f)).

(** firstAdminFrom: the earliest-created active admin; a record without an ID is
    replaced by the next candidate, as the zero [User] the loop starts from. *)
Fixpoint firstAdminFrom (best : option User) (all : list User) : option User :=
  match all with
  | [] => best
  | u :: all' =>
      if negb (uRole u =s? RoleAdmin) || negb (Active u) then firstAdminFrom best all'
      else match best with
           | Some b => if (uID b =s? []) || strLtb (uCreatedAt u) (uCreatedAt b) then firstAdminFrom (Some u) all'
                       else firstAdminFrom best all'
           | None => firstAdminFrom (Some u) all'
           end
  end.
Definition FirstAdminFrom (all : list User) : option User := firstAdminFrom None all.

(** No administrator: [FirstAdminFrom(all).ID == ""]. *)
Definition noAdmin (all : list User) : bool :=
  match FirstAdminFrom all with Some u => uID u =s? [] | None => true end.

Definition firstAdmin `{SortSlice} : UM User :=
  all ← listUsers;
  match FirstAdminFrom all with
  | Some u => if uID u =s? [] then uthrow ErrNotFound else mret u
  | None => uthrow ErrNotFound
  end.
End Reads.

(** ** mutateGuarded *)

Section Mutate.
Context {U : Unicode} {GT : GoTime} {GF : GoTimeFormat}.

(** What a mutation does to the record: the changed record, or an error that
    abandons the call.  [ErrNoChangeNeeded] is the package's private signal. *)
Definition change := User -> res user_error User.

(** The body of the loop on the matching user: the record to write, or nothing
    to write and the record to answer with. *)
Inductive verdict := VWrite (u : User) | VSame (u : User).

(** What follows a change of the record: the checks and the two stamps. *)
Definition finishChange (now : Z) (before u : User) : res user_error verdict :=
  if IncomingEncryptionPending before && negb (equalFold (PGPFingerprint u) (PGPFingerprint before))
  then Err ErrIncomingEncryptionPending
  else
    if bool_decide (pgpState u = pgpState before) then Ok (VWrite (setUpdatedAt (formatTime now) u))
    else if (MaxPGPRevision <=? PGPRevision u)%Z then Err ErrPGPRevisionExhausted
    else Ok (VWrite (setUpdatedAt (formatTime now) (setPGPRevision (PGPRevision u + 1) u))).

Definition mutateOne (now : Z) (fn : change) (before : User) : res user_error verdict :=
  let '(u, compacted) := compactExpiredEnvelopes now before in
  match fn u with
  | Ok u' => finishChange now before u'
  | Err ErrNoChangeNeeded => if compacted then finishChange now before u else Ok (VSame u)
  | Err x => Err x
  end.

Definition hasID (id : gostr) (u : User) : bool := uID u =s? id.

(** The answer is the record as the write left it. *)
Definition mutateGuarded (id : gostr) (guard : list User -> User -> res user_error unit) (fn : change) : UM User :=
  takeLocks ;;
  f ← readFileUnlocked;
  e ← asks;
  match find_first (hasID id) (ufUsers f) with
  | None => uthrow ErrNotFound
  | Some target =>
      liftRes (guard (ufUsers f) target) ;;
      v ← liftRes (mutateOne (eNow e) fn target);
      match v with
      | VSame u => mret u
      | VWrite u =>
          f' ← writeFileUnlocked (mkUsersFile (ufVersion f) (update_first (hasID id) (fun _ => u) (ufUsers f)));
          match find_first (hasID id) (ufUsers f') with
          | Some u' => mret u'
          | None => uthrow ErrNotFound
          end
      end
  end.

Definition noGuard : list User -> User -> res user_error unit := fun _ _ => Ok tt.
Definition mutate (id : gostr) (fn : change) : UM User := mutateGuarded id noGuard fn.

Definition guardNotLastActiveAdmin (all : list User) (target : User) : res user_error unit :=
  if negb (uRole target =s? RoleAdmin) || negb (Active target) then Ok tt
  else if existsb (fun u => negb (uID u =s? uID target) && (uRole u =s? RoleAdmin) && Active u) all then Ok tt
  else Err ErrLastActiveAdmin.

Definition guardPGP (expected : option Z) (_ : list User) (u : User) : res user_error unit :=
  match PGPKeyring u with
  | Some k => if negb (ringVersion k =? 1)%Z || bool_decide (expected = None) then Err ErrPGPKeyringUpgradeRequired
              else match expected with
                   | Some r => if (MaxPGPRevision <? r)%Z then Err ErrInvalidPGPRevision
                               else if negb (r =? PGPRevision u)%Z then Err ErrPGPRevisionChanged else Ok tt
                   | None => Ok tt
                   end
  | None => match expected with
            | Some r => if (MaxPGPRevision <? r)%Z then Err ErrInvalidPGPRevision
                        else if negb (r =? PGPRevision u)%Z then Err ErrPGPRevisionChanged else Ok tt
            | None => Ok tt
            end
  end.
Definition mutatePGP (id : gostr) (expected : option Z) (fn : change) : UM User :=
  mutateGuarded id (guardPGP expected) fn.
End Mutate.

(** ** Epochs *)

Lemma advanceUser_frame prior u u' :
  advanceUser prior u = Ok u' -> u' = setNativeSendEpoch (NativeSendEpoch u') u.
Proof. unfold advanceUser. intros H. repeat case_match; by simplify_eq. Qed.

(** Advancing what was advanced changes nothing: RepairNativeAccounts advances
    before it writes, and the write advances again. *)
Lemma advanceUser_again prior u u' : advanceUser prior u = Ok u' -> advanceUser prior u' = Ok u'.
Proof.
  intros H. pose proof (advanceUser_frame _ _ _ H) as HF. unfold advanceUser in *.
  assert (uID u' = uID u) as -> by (by rewrite HF).
  assert (nativeSendState u' = nativeSendState u) as -> by (by rewrite HF).
  repeat case_match; by simplify_eq.
Qed.

Lemma advanceUsers_Forall2 prior l l' :
  advanceUsers prior l = Ok l' <-> Forall2 (fun u u' => advanceUser prior u = Ok u') l l'.
Proof.
  revert l'. induction l as [|u l IH]; intros l'; simpl.
  - split; [by intros [= <-]|by intros ->%Forall2_nil_inv_l].
  - rewrite res_bind_ok. split.
    + intros (u' & Hu & (l2 & Hl & [= <-])%res_bind_ok). constructor; [done|by apply IH].
    + intros (u' & l2 & Hu & Hl & ->)%Forall2_cons_inv_l. exists u'. split; [done|].
      apply res_bind_ok. exists l2. split; [by apply IH|done].
Qed.

Lemma advanceUsers_again prior l l' : advanceUsers prior l = Ok l' -> advanceUsers prior l' = Ok l'.
Proof. rewrite !advanceUsers_Forall2. induction 1; constructor; eauto using advanceUser_again. Qed.
