(* ===== verification/UsersAuth.v ===== *)
(** * UsersAuth: stored credentials (authsecret_derive.go, users.go)

    The server stores the Argon2id hash of a secret the browser derives from the
    password.  Argon2id itself is github.com/Busnes-app/ky-primitives/password
    and PBKDF2 and HKDF are primitives: the classes [PasswordLib] and
    [KeyDerivation].  Whether a derivation slot came free (kdf.go) is an argument
    of every operation that derives. *)

From S2P Require Import Prelude GoText FileStore GoCodec.
From S2P Require Import SendAs UsersModel.

(** ** The libraries *)

(** [password.Params] and the library's entry points. *)
Record Params := mkParams { Memory : Z; Time : Z; Threads : Z }.
Inductive pw_error := PwBusy | PwMalformed | PwOther.
Class PasswordLib := {
  defaultParams : Params;
  validParams : Params -> bool;
  hashWith : list Z -> gostr -> Params -> res pw_error gostr;      (* random bytes, secret *)
  verifyPw : gostr -> gostr -> res pw_error bool;                  (* candidate, encoded *)
}.
Class KeyDerivation := {
  pbkdf2Key : gostr -> list Z -> Z -> Z -> option (list Z);
  hkdfKey : list Z -> gostr -> Z -> option (list Z);
}.

Definition argon2idPrefix : gostr := $"$argon2id$".
Definition isArgon2idHash (encoded : gostr) : bool := hasPrefix argon2idPrefix encoded.

(** mapBusy. *)
Definition mapBusy {A} (r : res pw_error A) : res user_error A :=
  match r with Ok a => Ok a | Err PwBusy => Err ErrKDFBusy | Err _ => Err ErrOther end.

Section Hashing.
Context {PL : PasswordLib}.

Definition hashParams : Params := defaultParams.

Definition hashPassword (slot : res user_error unit) (draw : list Z) (secret : gostr) : res user_error gostr :=
  slot ;; mapBusy (hashWith draw secret hashParams).

(** ** The cost a stored hash carries *)

Definition argon2VersionSegment : gostr := $"v=19".

Definition renderParams (mem t threads : Z) : gostr :=
  $"m=" ++ formatInt mem ++ $",t=" ++ formatInt t ++ $",p=" ++ formatInt threads.

(** One field of parseArgon2Params: its prefix, then a number of [bits] bits. *)
Definition paramField (prefix : gostr) (bits : Z) (field : gostr) : option Z :=
  if hasPrefix prefix field then parseUint bits (drop (length prefix) field) else None.

Definition parseArgon2Params (segment : gostr) : option (Z * Z * Z) :=
  match splitOn 44 segment with
  | [f0; f1; f2] =>
      mem ← paramField ($"m=") 32 f0; t ← paramField ($"t=") 32 f1; threads ← paramField ($"p=") 8 f2;
      if renderParams mem t threads =s? segment then Some (mem, t, threads) else None
  | _ => None
  end.

Definition needsRehash (encoded : gostr) : bool :=
  match splitOn 36 encoded with
  | [p0; p1; p2; p3; _; _] =>
      if negb (p0 =s? []) || negb (p1 =s? $"argon2id") || negb (p2 =s? argon2VersionSegment) then false
      else match parseArgon2Params p3 with
           | None => false
           | Some (mem, t, threads) =>
               if negb (validParams (mkParams mem t threads)) then false
               else (mem <? Memory hashParams)%Z || (t <? Time hashParams)%Z || (threads <? Threads hashParams)%Z
           end
  | _ => false
  end.

(** ** Verification *)

(** verifyHash: the answer, and the hashes it had the library verify against, in
    order.  [dummy] is what dummyHash returned. *)
Definition verifyHash (dummy : res user_error gostr) (slot : res user_error unit) (encoded candidate : gostr) :
    res user_error bool * list gostr :=
  let known := isArgon2idHash encoded in
  let run (enc pad : gostr) :=
    match slot with
    | Err x => (Err x, [])
    | Ok _ =>
        let r := verifyPw candidate enc in
        let ok := match r with Ok ok => ok | Err _ => false end in
        let log := enc :: if negb (pad =s? []) && negb ok then [pad] else [] in
        match r with
        | Ok ok => (Ok (known && ok), log)
        | Err PwMalformed => (Ok false, log)
        | Err x => (mapBusy (Err x), log)
        end
    end in
  if negb known || needsRehash encoded then
    match dummy with
    | Err x => (Err x, [])
    | Ok h => if known then run encoded h else run h []
    end
  else run encoded [].

Definition verifyAuthSecret (dummy : res user_error gostr) (slot : res user_error unit) (u : User) (candidate : gostr) :
    res user_error bool :=
  if negb (usesDerivedAuth u) then Ok false
  else fst (verifyHash dummy slot (PasswordHash u) candidate).

(** Device secrets: SHA-256 ([sha256]) in lower-case hex, tagged. *)
Definition deviceSecretPrefix : gostr := $"sha256:".
Definition hashDeviceSecret (sha256 : gostr -> list Z) (secret : gostr) : gostr :=
  deviceSecretPrefix ++ hexEncode (sha256 secret).
Definition verifyDeviceSecret (sha256 : gostr -> list Z) (dummy : res user_error gostr) (slot : res user_error unit)
    (stored candidate : gostr) : res user_error bool :=
  let '(encoded, ok) := cutPrefix stored deviceSecretPrefix in
  if negb ok then fst (verifyHash dummy slot stored candidate)
  else match hexDecode encoded with
       | None => Ok false
       | Some want => if negb (length want =? 32)%nat then Ok false
                      else Ok (bool_decide (sha256 candidate = want))
       end.
End Hashing.

(** ** Login parameters *)

Definition MinAuthSecretHexLen : Z := 64.
Definition validateAuthSecret (secret : gostr) : res user_error unit :=
  if (utf8Len secret <? MinAuthSecretHexLen)%Z then Err ErrAuthSecretMalformed
  else match hexDecode secret with None => Err ErrAuthSecretMalformed | Some _ => Ok tt end.

Definition DefaultLoginIterations : Z := 600000.
Definition loginIterations : Z := DefaultLoginIterations.
Definition MinLoginIterations : Z := 100000.
Definition MaxLoginIterations : Z := 12000000.
Definition validateLoginIterations (iterations : Z) : res user_error unit :=
  if (iterations <? Z.min MinLoginIterations loginIterations)%Z then Err ErrOther
  else if (MaxLoginIterations <? iterations)%Z then Err ErrOther
  else Ok tt.

Definition MinLoginSaltBytes : Z := 16.
Definition MaxLoginSaltBytes : Z := 64.
Definition validateLoginSalt (salt : gostr) : res user_error unit :=
  let salt := trimSpace salt in
  if salt =s? [] then Err ErrOther
  else match base64Decode salt with
       | None => Err ErrOther
       | Some raw =>
           if (Z.of_nat (length raw) <? MinLoginSaltBytes)%Z || (MaxLoginSaltBytes <? Z.of_nat (length raw))%Z
           then Err ErrOther else Ok tt
       end.

(** ** Credentials the server derives itself *)

Definition authSecretInfo : gostr := $"kypost/auth/v1".

Record DerivedCredential := mkCredential { credHash : gostr; credSalt : gostr; credIterations : Z }.

Definition applyCredential (c : DerivedCredential) (u : User) : User :=
  setLoginIterations (credIterations c) (setLoginSalt (credSalt c)
    (setAuthDerivation AuthDerivationPBKDF2 (setPasswordHash (credHash c) u))).

Section Derive.
Context {PL : PasswordLib} {KD : KeyDerivation}.

Definition fromOption {A} (o : option A) : res user_error A := match o with Some a => Ok a | None => Err ErrOther end.

Definition deriveAuthSecret (password loginSalt : gostr) (iterations : Z) : res user_error gostr :=
  validateLoginSalt loginSalt ;; validateLoginIterations iterations ;;
  salt ← fromOption (base64Decode loginSalt);
  stretch ← fromOption (pbkdf2Key password salt iterations 32);
  out ← fromOption (hkdfKey stretch authSecretInfo 32);
  Ok (hexEncode out).

(** DeriveCredential: [salt] is what rand.Read filled in, if it succeeded, and
    [draw] the hash's own salt. *)
Definition deriveCredential (slot : res user_error unit) (salt : option (list Z)) (draw : list Z) (password : gostr) :
    res user_error DerivedCredential :=
  raw ← fromOption salt;
  let s := base64Encode raw in
  secret ← deriveAuthSecret password s loginIterations;
  hash ← hashPassword slot draw secret;
  Ok (mkCredential hash s loginIterations).
End Derive.

(** ** Theorems *)

Section Theorems.
Context {PL : PasswordLib}.

(** Parsing the cost segment accepts exactly the canonical text of parameters
    that fit their machine types. *)
Lemma parseArgon2Params_render mem t threads :
  (0 <= mem < 2 ^ 32)%Z -> (0 <= t < 2 ^ 32)%Z -> (0 <= threads < 2 ^ 8)%Z ->
  parseArgon2Params (renderParams mem t threads) = Some (mem, t, threads).
Proof.
  intros H1 H2 H3. unfold parseArgon2Params.
  assert (D : forall n, (0 <= n)%Z -> 44%Z ∉ formatInt n).
  { intros n Hn Hin. pose proof (formatInt_digits n Hn) as HF. rewrite Forall_forall in HF.
    specialize (HF _ Hin). lia. }
  assert (E : splitOn 44 (renderParams mem t threads)
              = [$"m=" ++ formatInt mem; $"t=" ++ formatInt t; $"p=" ++ formatInt threads]).
  { assert (P : forall p n, (0 <= n)%Z -> 44%Z ∉ p -> 44%Z ∉ p ++ formatInt n).
    { intros p n Hn Hp [|]%elem_of_app; [done|by eapply D]. }
    unfold renderParams. rewrite !app_assoc. rewrite <- (app_assoc _ ($",p=")).
    change ($",p=" ++ formatInt threads) with (44%Z :: ($"p=" ++ formatInt threads)).
    rewrite <- (app_assoc _ ($",t=")). rewrite <- !app_assoc. rewrite (app_assoc ($"m=")).
    change ($",t=" ++ formatInt t ++ 44%Z :: $"p=" ++ formatInt threads)
      with (44%Z :: ($"t=" ++ formatInt t ++ 44%Z :: $"p=" ++ formatInt threads)).
    rewrite splitOn_app by (apply P; [lia|compute_done]). rewrite (app_assoc ($"t=")).
    rewrite splitOn_app by (apply P; [lia|compute_done]).
    by rewrite splitOn_plain by (apply P; [lia|compute_done]). }
  rewrite E. unfold paramField.
  assert (F : forall p n b, (0 <= n < 2 ^ b)%Z ->
    (if hasPrefix p (p ++ formatInt n) then parseUint b (drop (length p) (p ++ formatInt n)) else None) = Some n).
  { intros p n b Hn. rewrite (proj2 (hasPrefix_spec p _)) by eauto. by rewrite drop_app_length, parseUint_formatInt. }
  rewrite !F by done. cbn [mbind option_bind]. by rewrite bool_decide_eq_true_2.
Qed.

Lemma paramField_range p b f n : paramField p b f = Some n -> (n < 2 ^ b)%Z.
Proof. unfold paramField. destruct (hasPrefix p f); [apply parseUint_range|done]. Qed.

Lemma parseArgon2Params_canonical segment mem t threads :
  parseArgon2Params segment = Some (mem, t, threads) ->
  segment = renderParams mem t threads /\ (mem < 2 ^ 32)%Z /\ (t < 2 ^ 32)%Z /\ (threads < 2 ^ 8)%Z.
Proof.
  unfold parseArgon2Params. intros H.
  destruct (splitOn 44 segment) as [|f0 [|f1 [|f2 [|]]]]; try done.
  destruct (paramField _ 32 f0) eqn:E0; [|done]. destruct (paramField _ 32 f1) eqn:E1; [|done].
  destruct (paramField _ 8 f2) eqn:E2; [|done]. cbn [mbind option_bind] in H.
  destruct (renderParams _ _ _ =s? segment) eqn:E; simplify_eq. to_prop.
  repeat split; eauto using paramField_range.
Qed.

(** Checking a credential costs the same whoever it is checked for: a
    check that answers no had the library verify against the dummy hash or
    against a stored hash at the current cost, so an unknown account, a hash in
    another format and a cheaper hash cannot be told apart by their time; and a
    check answers yes only where the library matched the candidate against a
    stored Argon2id hash, after that one verification. *)
Lemma verification_costs_alike (d encoded candidate : gostr) (slot : res user_error unit) (b : bool) (log : list gostr) :
  d ≠ [] -> verifyHash (Ok d) slot encoded candidate = (Ok b, log) ->
  if b then isArgon2idHash encoded = true /\ verifyPw candidate encoded = Ok true /\ log = [encoded]
  else d ∈ log \/ (encoded ∈ log /\ isArgon2idHash encoded = true /\ needsRehash encoded = false).
Proof.
  intros Hd. unfold verifyHash. rewrite (bool_decide_eq_false_2 (d = [])) by done. rewrite bool_decide_eq_true_2 by done.
  destruct slot as [[]|]; [|by repeat case_match]. destruct (isArgon2idHash encoded) eqn:Ek; cbn [negb orb andb].
  - destruct (needsRehash encoded) eqn:En; destruct (verifyPw candidate encoded) as [[]|[]] eqn:Ev; cbn [mapBusy negb andb];
      intros [= <- <-]; try done; try (left; right; left); right; (split; [left|done]).
  - destruct (verifyPw candidate d) as [[]|[]] eqn:Ev; cbn [mapBusy negb andb]; intros [= <- <-]; left; left.
Qed.
End Theorems.

(** Hexadecimal text decodes to the bytes it was made from. *)
Lemma hexValue_digit n : (0 <= n < 16)%Z -> hexValue (hexDigit n) = Some n.
Proof. intros H. unfold hexDigit, hexValue. break_match; to_prop; rewrite ?andb_true_iff, ?andb_false_iff, ?Z.leb_le, ?Z.leb_gt in *; f_equal; lia. Qed.
Lemma hexDecode_encode l : Forall byteOK l -> hexDecode (hexEncode l) = Some l.
Proof.
  induction 1 as [|b l Hb _ IH]; [done|].
  change (hexEncode (b :: l)) with (hexDigit (b / 16) :: hexDigit (b mod 16) :: hexEncode l). cbn [hexDecode].
  rewrite !hexValue_digit, IH by bytes. cbn [mbind option_bind]. do 2 f_equal. bytes.
Qed.
