(* ===== verification/UsersPGP.v ===== *)
(** * UsersPGP: the account's OpenPGP identity and its sealings

    users.go, pgp_keyring.go and pgp_device_delivery.go: storing, replacing and
    clearing an identity, the sealings of its private key, the complete keyring
    of a converted account, and deliveries to paired devices.  Key parsing is
    the class [KeyInspection] over [OpenPGP] (gopenpgp), JSON decoding the class
    [EnvelopeJSON]. *)

From S2P Require Import Prelude GoText FileStore GoCodec.
From S2P Require Import SendAs ContactsModel Contacts.
From S2P Require Import UsersModel UsersStore UsersAuth.

(** ** Libraries *)

Class KeyInspection `{OpenPGP} := {
  subkeyFingerprints : pgp_key -> list (list Z);
  canEncrypt : pgp_key -> Z -> bool;
  getHexKeyID : pgp_key -> gostr;
  isRevoked : pgp_key -> Z -> bool;
  isExpired : pgp_key -> Z -> bool;
  unarmor : gostr -> option (list Z);
}.

(** encoding/json on a device envelope: the token stream with whether it ends at
    the end of the text (rather than at a syntax error), the decode of the
    version probe, and of the four fields. *)
Inductive jtoken := JDelim (c : Z) | JString (s : gostr) | JOther.
Class EnvelopeJSON := {
  jsonTokens : gostr -> list jtoken * bool;
  unmarshalVersion : gostr -> option Z;
  unmarshalEnvelope : gostr -> option (Z * gostr * gostr * gostr);      (* v, alg, enc, ct *)
}.

(** [unicode.ToUpper] outside ASCII. *)
Class UnicodeUpper := uni_upper : Z -> Z.
Definition upperRune `{UnicodeUpper} (r : Z) : Z :=
  if (r <? 128)%Z then (if isLowerA r then r - 32 else r)%Z else uni_upper r.
Definition toUpper `{UnicodeUpper} (s : gostr) : gostr := upperRune <$> s.

(** ** Fingerprints *)

Section Fingerprints.
Context {UP : UnicodeUpper}.

Definition MaxPGPKeyringKeys : Z := 16.
Definition MaxPGPKeyringFingerprints : Z := 256.

Fixpoint normalizeEach (values : list gostr) : option (list gostr) :=
  match values with
  | [] => Some []
  | v :: values' =>
      if negb (utf8Len v =? 40)%Z && negb (utf8Len v =? 64)%Z then None
      else match hexDecode v with
           | None => None
           | Some _ => l ← normalizeEach values'; Some (toUpper v :: l)
           end
  end.
Fixpoint adjacentDup (l : list gostr) : bool :=
  match l with
  | a :: ((b :: _) as l') => (a =s? b) || adjacentDup l'
  | _ => false
  end.
Definition normalizeFingerprints (values : list gostr) (limit : Z) : res user_error (list gostr) :=
  if bool_decide (values = []) || (limit <? Z.of_nat (length values))%Z then Err ErrInvalidPGPKeyring
  else match normalizeEach values with
       | None => Err ErrInvalidPGPKeyring
       | Some l => let l := sortStable strLtb l in
                   if adjacentDup l then Err ErrInvalidPGPKeyring else Ok l
       end.
Definition containsFingerprints (inventory required : list gostr) : bool :=
  forallb (fun fp => bool_decide (toUpper fp ∈ inventory)) required.
End Fingerprints.

(** ** pgpmail: identity.go, keystatus.go *)

Record PublicKeyInfo := mkInfo {
  infoCanEncrypt : bool;
  infoKeyFingerprints : list gostr;
  infoFingerprint : gostr;
  infoKeyID : gostr;
  infoArmored : gostr;
}.
Record KeyStatus := mkStatus { statRevoked : bool; statExpired : bool }.
Definition usable (s : KeyStatus) : bool := negb (statRevoked s) && negb (statExpired s).

Section Inspect.
Context {UP : UnicodeUpper} {PG : OpenPGP} {KI : KeyInspection}.

Definition inspectPublicKey (now : Z) (armoredPublicKey : gostr) : option PublicKeyInfo :=
  key ← newKeyFromArmored (trimSpace armoredPublicKey);
  if isPrivate key then None
  else
    armored ← getArmoredPublicKey key;
    Some (mkInfo (canEncrypt key (now / second))
            (toUpper (getFingerprint key) :: ((fun fp => toUpper (hexEncode fp)) <$> subkeyFingerprints key))
            (getFingerprint key) (getHexKeyID key) armored).

Definition keyStatusOf (now : Z) (key : pgp_key) : KeyStatus :=
  mkStatus (isRevoked key (now / second)) (isExpired key (now / second)).
Definition checkKeyStatus (now : Z) (armoredKey : gostr) : option KeyStatus :=
  keyStatusOf now <$> newKeyFromArmored armoredKey.
End Inspect.

(** ** Framing of a device envelope *)

Section Envelope.
Context {EJ : EnvelopeJSON}.

Definition closing (t : jtoken) : bool :=
  match t with JDelim c => bool_decide (c ∈ [125; 93]%Z) | _ => false end.

(** The loop of decodeExact over the keys and their scalar values. *)
Fixpoint exactLoop (keys seen : list gostr) (toks : list jtoken) {struct toks} : option (list gostr * list jtoken) :=
  match toks with
  | [] => Some (seen, [])
  | t :: toks' =>
      if closing t then Some (seen, toks)
      else match t with
           | JString key =>
               if bool_decide (key ∈ seen) || negb (bool_decide (key ∈ keys)) then None
               else match toks' with
                    | [] | JDelim _ :: _ => None
                    | _ :: toks'' => exactLoop keys (key :: seen) toks''
                    end
           | _ => None
           end
  end.
Definition decodeExact (envelope : gostr) (keys : list gostr) : option (Z * gostr * gostr * gostr) :=
  match jsonTokens envelope with
  | (JDelim 123 :: toks, eof) =>
      match exactLoop keys [] toks with
      | Some (seen, [JDelim 125]) =>
          if eof && (length seen =? length keys)%nat then unmarshalEnvelope envelope else None
      | _ => None
      end
  | _ => None
  end.

Definition canonicalBase64 (s : gostr) : option (list Z) :=
  b ← base64Decode s; if base64Encode b =s? s then Some b else None.

Definition hpkeDeviceEnvelopeAlg : gostr := $"HPKE-Base-P256-SHA256-A256GCM".

Definition parseDeviceEnvelopeVersion (envelope : gostr) : res user_error Z :=
  validateWrappedEnvelope envelope ;;
  match unmarshalVersion envelope with
  | None => Err ErrInvalidDeviceEnvelope
  | Some v =>
      if (v =? 2)%Z || (v =? 3)%Z then Err ErrRetiredDeviceEnvelope
      else if (v =? 4)%Z || (v =? 5)%Z then
        match decodeExact envelope [$"v"; $"alg"; $"enc"; $"ct"] with
        | None => Err ErrInvalidDeviceEnvelope
        | Some (_, alg, enc, ct) =>
            if negb (alg =s? hpkeDeviceEnvelopeAlg) then Err ErrInvalidDeviceEnvelope
            else match canonicalBase64 enc with
                 | None => Err ErrInvalidDeviceEnvelope
                 | Some p =>
                     if negb (length p =? 65)%nat || negb (bool_decide (head p = Some 4%Z)) then Err ErrInvalidDeviceEnvelope
                     else match canonicalBase64 ct with
                          | None => Err ErrInvalidDeviceEnvelope
                          | Some c => if (length c <? 16)%nat then Err ErrInvalidDeviceEnvelope else Ok v
                          end
                 end
        end
      else Err ErrInvalidDeviceEnvelope
  end.
End Envelope.

(** ** Operations *)

Section Ops.
Context {U : Unicode} {UP : UnicodeUpper} {GT : GoTime} {GF : GoTimeFormat} {PL : PasswordLib}.
Context {PG : OpenPGP} {KI : KeyInspection} {EJ : EnvelopeJSON}.

Definition blank (s : gostr) : bool := trimSpace s =s? [].

Definition storeServerIdentity (fingerprint keyID armored privateKeyEnc source createdAt : gostr) : change := fun u =>
  if protection u =s? PGPProtectionClient then Err ErrWouldDowngradeCustody
  else Ok (setPGPWrappedEnvelopes [] (setPGPKeyCreatedAt createdAt (setPGPKeySource source
             (setPGPKeyProtection PGPProtectionServer (setPGPPrivateKeyWrapped [] (setPGPPrivateKeyEnc privateKeyEnc
                (setPGPPublicKey armored (setPGPKeyID keyID (setPGPFingerprint fingerprint u))))))))).
Definition setPGPIdentity (id fingerprint keyID armored privateKeyEnc source createdAt : gostr) : UM User :=
  mutate id (storeServerIdentity fingerprint keyID armored privateKeyEnc source createdAt).

Definition storeClientIdentity (fingerprint keyID armored wrapped source createdAt : gostr) : change := fun u =>
  if negb (bool_decide (PGPKeyring u = None)) then Err ErrPGPKeyringUpgradeRequired
  else
    let u' := setPGPKeyCreatedAt createdAt (setPGPKeySource source (setPGPKeyProtection PGPProtectionClient
                (setPGPPrivateKeyEnc [] (setPGPPrivateKeyWrapped wrapped (setPGPPublicKey armored
                   (setPGPKeyID keyID (setPGPFingerprint fingerprint u))))))) in
    Ok (if negb (equalFold (trimSpace (PGPFingerprint u)) (trimSpace fingerprint)) then setPGPWrappedEnvelopes [] u' else u').
Definition setPGPIdentityClientProtected (id fingerprint keyID armored wrapped source createdAt : gostr)
    (expectedRevision : option Z) : UM User :=
  liftRes (validateWrappedEnvelope wrapped) ;;
  if blank wrapped then uthrow ErrOther
  else mutatePGP id expectedRevision (storeClientIdentity fingerprint keyID armored wrapped source createdAt).

(** The guards rewrapPGPPrivateKey and setPGPWrappedEnvelope share: [ring] is
    the caller's claim that the account has a complete keyring. *)
Definition ringReady (expectedFingerprint : gostr) (u : User) : bool :=
  match PGPKeyring u with
  | Some k => (ringVersion k =? 1)%Z && negb (MustChangePassword u) && usesDerivedAuth u && negb (expectedFingerprint =s? [])
  | None => false
  end.
Definition resealGuard (ring : bool) (slotOK : bool) (expectedFingerprint : gostr) (noIdentity : user_error) (u : User) :
    res user_error unit :=
  if (if ring then negb (ringReady expectedFingerprint u && slotOK) else negb (bool_decide (PGPKeyring u = None)))
  then Err ErrPGPKeyringUpgradeRequired
  else if negb (expectedFingerprint =s? []) && negb (equalFold (PGPFingerprint u) expectedFingerprint) then Err ErrPGPIdentityChanged
  else if PGPFingerprint u =s? [] then Err noIdentity
  else if negb (protection u =s? PGPProtectionClient) then Err ErrNotClientProtected
  else Ok tt.

Definition rewrapPGPPrivateKey (id wrapped expectedFingerprint : gostr) (expectedRevision : option Z) (ring : bool) : UM User :=
  liftRes (validateWrappedEnvelope wrapped) ;;
  if blank wrapped then uthrow ErrOther
  else mutatePGP id expectedRevision (fun u =>
    resealGuard ring true expectedFingerprint ErrOther u ;;
    Ok (setPGPKeyProtection PGPProtectionClient (setPGPPrivateKeyWrapped wrapped u))).

(** Replacing the first entry of a slot in place, or appending under the cap. *)
Definition putSlot (now : Z) (slot : gostr) (replace : WrappedEnvelope -> WrappedEnvelope) (fresh : WrappedEnvelope)
    (u : User) : res user_error User :=
  let inSlot e := envSlot e =s? slot in
  match find_first inSlot (PGPWrappedEnvelopes u) with
  | Some _ => Ok (setPGPWrappedEnvelopes (update_first inSlot replace (PGPWrappedEnvelopes u)) u)
  | None =>
      if (maxWrappedEnvelopeSlots <=? liveSlots now (PGPWrappedEnvelopes u))%Z then Err ErrTooManyEnvelopeSlots
      else Ok (setPGPWrappedEnvelopes (PGPWrappedEnvelopes u ++ [fresh]) u)
  end.

Definition reseal (envelope addedAt expiresAt : gostr) (e : WrappedEnvelope) : WrappedEnvelope :=
  mkEnvelope (envSlot e) envelope addedAt expiresAt (envVersion e) (envGeneration e) (envFingerprint e) (envEnrollmentKey e).

(** setPGPWrappedEnvelope; its two callers pass a slot that is not a device's,
    or the recovery slot. *)
Definition sealSlot (id slot envelope addedAt expectedFingerprint : gostr) (expectedRevision : option Z) (ring : bool) : UM User :=
  liftRes (validateWrappedEnvelope envelope) ;;
  if negb (validEnvelopeSlot slot) then uthrow ErrInvalidEnvelopeSlot
  else if blank envelope then uthrow ErrOther
  else
    e ← asks;
    let expiresAt := if hasPrefix EnvelopeSlotDevicePrefix slot then formatTime (eNow e + DeviceEnvelopeTTL) else [] in
    mutatePGP id expectedRevision (fun u =>
      resealGuard ring (slot =s? EnvelopeSlotRecovery) expectedFingerprint ErrNoPGPIdentity u ;;
      putSlot (eNow e) slot (reseal envelope addedAt expiresAt) (mkEnvelope slot envelope addedAt expiresAt 0 0 [] []) u).
Definition setPGPWrappedEnvelope (id slot envelope addedAt expectedFingerprint : gostr) (expectedRevision : option Z) : UM User :=
  if hasPrefix EnvelopeSlotDevicePrefix slot then uthrow ErrInvalidEnvelopeSlot
  else sealSlot id slot envelope addedAt expectedFingerprint expectedRevision false.
Definition setPGPKeyringRecovery (id envelope addedAt expectedFingerprint : gostr) (expectedRevision : option Z) : UM User :=
  sealSlot id EnvelopeSlotRecovery envelope addedAt expectedFingerprint expectedRevision true.

Definition dropSlot (slot : gostr) : change := fun u =>
  let kept := List.filter (fun e => negb (envSlot e =s? slot)) (PGPWrappedEnvelopes u) in
  if (length kept =? length (PGPWrappedEnvelopes u))%nat then Err ErrNoChangeNeeded
  else Ok (setPGPWrappedEnvelopes kept u).
Definition deletePGPWrappedEnvelope (id slot : gostr) (expectedRevision : option Z) : UM User :=
  if negb (validEnvelopeSlot slot) then uthrow ErrInvalidEnvelopeSlot
  else mutatePGP id expectedRevision (dropSlot slot).

Definition clearIdentity (u : User) : User :=
  setPGPWrappedEnvelopes [] (setPGPKeyCreatedAt [] (setPGPKeySource [] (setPGPKeyProtection []
    (setPGPPrivateKeyWrapped [] (setPGPPrivateKeyEnc [] (setPGPPublicKey [] (setPGPKeyID [] (setPGPFingerprint []
       (setPGPKeyring None u))))))))).
Definition clearPGPIdentity (id : gostr) (expectedRevision : option Z) : UM User :=
  mutatePGP id expectedRevision (fun u => Ok (clearIdentity u)).

(** ** A password change, with the key's password sealing *)

Definition changePassword (hash loginSalt : gostr) (iterations : Z) (requireChange : bool) (rewrapped : gostr) (ring : bool) :
    change := fun u =>
  if (if ring then
        match PGPKeyring u with
        | Some k => negb (ringVersion k =? 1)%Z || MustChangePassword u || negb (usesDerivedAuth u) || blank rewrapped
        | None => true
        end
      else negb (bool_decide (PGPKeyring u = None))
           && (negb (rewrapped =s? []) || (negb requireChange && negb (MustChangePassword u))))
  then Err ErrPGPKeyringUpgradeRequired
  else
    u' ← (if negb (rewrapped =s? []) then
            if negb (protection u =s? PGPProtectionClient) then Err ErrNotClientProtected
            else Ok (setPGPKeyProtection PGPProtectionClient (setPGPPrivateKeyWrapped rewrapped u))
          else Ok u);
    Ok (setMustChangePassword requireChange (setLoginIterations iterations (setLoginSalt loginSalt
          (setAuthDerivation AuthDerivationPBKDF2 (setPasswordHash hash u'))))).
Definition setDerivedAuthAndRewrapPGP (slot : res user_error unit) (draw : list Z) (id authSecret loginSalt : gostr)
    (iterations : Z) (requireChange : bool) (rewrapped : gostr) (expectedRevision : option Z) (ring : bool) : UM User :=
  liftRes (validateAuthSecret authSecret) ;;
  liftRes (validateLoginSalt loginSalt) ;;
  liftRes (validateLoginIterations iterations) ;;
  liftRes (validateWrappedEnvelope rewrapped) ;;
  hash ← liftRes (hashPassword slot draw authSecret);
  mutatePGP id expectedRevision (changePassword hash loginSalt iterations requireChange rewrapped ring).

(** ** Incoming encryption *)

Definition reserveIncoming (fingerprint : gostr) (expectedRevision : Z) : change := fun u =>
  if negb (PGPRevision u =? expectedRevision)%Z || negb (equalFold (PGPFingerprint u) fingerprint) then Err ErrPGPRevisionChanged
  else if IncomingEncryptionPending u then Err ErrNoChangeNeeded
  else Ok (setIncomingPending true u).
Definition reserveIncomingEncryption (id fingerprint : gostr) (expectedRevision : Z) : UM User :=
  mutate id (reserveIncoming fingerprint expectedRevision).
Definition releaseIncomingEncryption (id : gostr) : UM User :=
  mutate id (fun u => if negb (IncomingEncryptionPending u) then Err ErrNoChangeNeeded else Ok (setIncomingPending false u)).

(** ** Device deliveries *)

Record DeviceDelivery := mkDelivery {
  ddDeviceID : gostr;
  ddEnvelope : gostr;
  ddAddedAt : gostr;
  ddEnrollmentKey : gostr;
  ddExpectedFingerprint : gostr;
  ddExpectedGeneration : Z;
  ddExpectedRevision : option Z;
}.

Definition deliver (now : Z) (version : Z) (slot expiresAt : gostr) (d : DeviceDelivery) : change := fun u =>
  if PGPFingerprint u =s? [] then Err ErrNoPGPIdentity
  else if negb (equalFold (PGPFingerprint u) (ddExpectedFingerprint d)) then Err ErrPGPIdentityChanged
  else if negb (protection u =s? PGPProtectionClient) then Err ErrNotClientProtected
  else
    let '(generation, want) := match PGPKeyring u with Some k => (ringGeneration k, 5%Z) | None => (0%Z, 4%Z) end in
    if negb (version =? want)%Z then Err ErrDeviceEnvelopeVersion
    else if negb (ddExpectedGeneration d =? generation)%Z then Err ErrPGPGenerationChanged
    else
      let record := mkEnvelope slot (ddEnvelope d) (ddAddedAt d) expiresAt version generation (PGPFingerprint u) (ddEnrollmentKey d) in
      putSlot now slot (fun _ => record) record u.
Definition setPGPDeviceEnvelope (id : gostr) (d : DeviceDelivery) : UM (User * Z) :=
  version ← liftRes (parseDeviceEnvelopeVersion (ddEnvelope d));
  let slot := EnvelopeSlotDevicePrefix ++ ddDeviceID d in
  if negb (validEnvelopeSlot slot) then uthrow ErrInvalidEnvelopeSlot
  else if blank (ddEnrollmentKey d) || blank (ddExpectedFingerprint d) then uthrow ErrDeviceDeliveryIncomplete
  else
    e ← asks;
    u ← mutatePGP id (ddExpectedRevision d) (deliver (eNow e) version slot (formatTime (eNow e + DeviceEnvelopeTTL)) d);
    mret (u, version).

(** ** The complete keyring *)

Record PGPKeyringCredential := mkRingCredential { rcAuthSecret : gostr; rcLoginSalt : gostr; rcIterations : Z }.
Record PGPKeyringUpdate := mkRingUpdate {
  upExpectedRevision : Z;
  upGeneration : Z;
  upPrimaries : list gostr;
  upFingerprints : list gostr;
  upPublicKey : gostr;
  upPasswordEnvelope : gostr;
  upRecoveryEnvelope : gostr;
  upSource : gostr;
  upCredential : option PGPKeyringCredential;
}.

(** What CommitPGPKeyring has established before it takes the lock. *)
Record checkedUpdate := mkChecked {
  ckPrimaries : list gostr;
  ckInventory : list gostr;
  ckInfo : PublicKeyInfo;
  ckStatus : KeyStatus;
  ckHash : gostr;
}.

Definition envelopeGiven (envelope : gostr) : res user_error unit :=
  if blank envelope then Err ErrInvalidPGPKeyring else validateWrappedEnvelope envelope.

(** [Err ErrInvalidPGPKeyring] unless the test holds. *)
Definition require (b : bool) : res user_error unit := if b then Ok tt else Err ErrInvalidPGPKeyring.
Definition given {A} (o : option A) : res user_error A :=
  match o with Some a => Ok a | None => Err ErrInvalidPGPKeyring end.

Definition checkUpdate (now : Z) (slot : res user_error unit) (draw : list Z) (up : PGPKeyringUpdate) : res user_error checkedUpdate :=
  require (negb (upGeneration up =? 0)%Z && (upGeneration up <=? MaxPGPRevision)%Z
           && (utf8Len (upPublicKey up) <=? MaxWrappedEnvelopeBytes)%Z
           && ((upSource up =s? $"generated") || (upSource up =s? $"imported"))) ;;
  envelopeGiven (upPasswordEnvelope up) ;;
  envelopeGiven (upRecoveryEnvelope up) ;;
  primaries ← normalizeFingerprints (upPrimaries up) MaxPGPKeyringKeys;
  inventory ← normalizeFingerprints (upFingerprints up) MaxPGPKeyringFingerprints;
  info ← given (inspectPublicKey now (upPublicKey up));
  let active := toUpper (infoFingerprint info) in
  require (bool_decide (active ∈ primaries) && containsFingerprints inventory primaries
           && containsFingerprints inventory (infoKeyFingerprints info)) ;;
  require (forallb (fun fp => negb (bool_decide (fp ∈ primaries))) (tail (infoKeyFingerprints info))) ;;
  status ← given (checkKeyStatus now (infoArmored info));
  hash ← match upCredential up with
         | None => Ok []
         | Some c => validateAuthSecret (rcAuthSecret c) ;; validateLoginSalt (rcLoginSalt c) ;;
                     validateLoginIterations (rcIterations c) ;; hashPassword slot draw (rcAuthSecret c)
         end;
  Ok (mkChecked primaries inventory info status hash).

(** The public key to store: the new one, or the stored packets when the active
    key stays and the submitted packets are the same. *)
Definition keptPublicKey (changedActive : bool) (up : PGPKeyringUpdate) (c : checkedUpdate) (u : User) : res user_error gostr :=
  if changedActive then Ok (infoArmored (ckInfo c))
  else
    submitted ← given (unarmor (upPublicKey up));
    stored ← given (unarmor (PGPPublicKey u));
    if negb (bool_decide (submitted = stored)) then Err ErrPGPKeyringUpgradeRequired else Ok (PGPPublicKey u).

Definition commitRing (now : Z) (up : PGPKeyringUpdate) (c : checkedUpdate) : change := fun u =>
  let info := ckInfo c in
  let active := toUpper (infoFingerprint info) in
  if negb (protection u =s? PGPProtectionClient) || negb (usesDerivedAuth u) then Err ErrPGPKeyringUpgradeRequired
  else
    previous ← given (inspectPublicKey now (PGPPublicKey u));
    require (equalFold (infoFingerprint previous) (PGPFingerprint u)) ;;
    let conversion := bool_decide (PGPKeyring u = None) in
    '(oldPrimaries, oldInventory, generation) ←
      match PGPKeyring u with
      | None => Ok ([toUpper (infoFingerprint previous)], infoKeyFingerprints previous, 1%Z)
      | Some k => require (negb (ringGeneration k =? 0)%Z && (ringGeneration k <=? MaxPGPRevision)%Z) ;;
                  Ok (ringPrimaries k, ringFingerprints k, ringGeneration k)
      end;
    require (containsFingerprints (ckInventory c) oldInventory && containsFingerprints (ckPrimaries c) oldPrimaries) ;;
    let changedActive := negb (equalFold active (PGPFingerprint u)) in
    require (negb (conversion && changedActive)) ;;
    require (negb (changedActive && (bool_decide (active ∈ oldInventory) || negb (usable (ckStatus c)) || negb (infoCanEncrypt info)))) ;;
    require (forallb (fun p => negb (bool_decide (p ∈ oldInventory) && negb (bool_decide (p ∈ oldPrimaries)))) (ckPrimaries c)) ;;
    publicKey ← keptPublicKey changedActive up c u;
    let grew := negb (length (ckInventory c) =? length oldInventory)%nat || negb (length (ckPrimaries c) =? length oldPrimaries)%nat in
    generation ← (if negb conversion && grew then
                    require (negb (generation =? MaxPGPRevision)%Z) ;; Ok (generation + 1)%Z
                  else Ok generation);
    require (upGeneration up =? generation)%Z ;;
    let stamp := formatTime now in
    let kept := if negb conversion && negb grew && negb changedActive
                then List.filter (fun e => negb (envSlot e =s? EnvelopeSlotRecovery)) (PGPWrappedEnvelopes u) else [] in
    let u1 := setPGPKeyring (Some (mkKeyring 1 generation (ckPrimaries c) (ckInventory c))) u in
    let u2 := setPGPPublicKey publicKey (setPGPKeyID (infoKeyID info) (setPGPFingerprint (infoFingerprint info) u1)) in
    let u3 := setPGPKeyProtection PGPProtectionClient (setPGPPrivateKeyEnc [] (setPGPPrivateKeyWrapped (upPasswordEnvelope up) u2)) in
    let u4 := if changedActive then setPGPKeyCreatedAt stamp (setPGPKeySource (upSource up) u3) else u3 in
    let u5 := setPGPWrappedEnvelopes (kept ++ [mkEnvelope EnvelopeSlotRecovery (upRecoveryEnvelope up) stamp [] 0 0 [] []]) u4 in
    Ok (match upCredential up with
        | None => u5
        | Some cr => setMustChangePassword false (setLoginIterations (rcIterations cr) (setLoginSalt (rcLoginSalt cr)
                       (setAuthDerivation AuthDerivationPBKDF2 (setPasswordHash (ckHash c) u5))))
        end).

Definition commitPGPKeyring (slot : res user_error unit) (draw : list Z) (id : gostr) (up : PGPKeyringUpdate) : UM User :=
  e ← asks;
  c ← liftRes (checkUpdate (eNow e) slot draw up);
  mutatePGP id (Some (upExpectedRevision up)) (commitRing (eNow e) up c).
End Ops.
