(* ===== verification/UsersOps.v ===== *)
(** * UsersOps: accounts, roles, second factor and directory links (users.go)

    The operations of the store that do not touch the OpenPGP identity, with the
    two batch writers of native_recovery.go.  Random draws, the outcome of key
    derivation, and the callbacks a caller passes in are arguments. *)

From S2P Require Import Prelude GoText FileStore GoCodec SendAs ContactsModel Contacts UsersModel UsersStore UsersAuth.

Definition unixSeconds (now : Z) : Z := (now / second)%Z.

(** cmp.Or on two strings. *)
Definition cmpOr (a b : gostr) : gostr := if a =s? [] then b else a.


Section Ops.
Context {U : Unicode} {GT : GoTime} {GF : GoTimeFormat} {PL : PasswordLib} {KD : KeyDerivation}.

(** ** Creating accounts *)

Definition create (slot : res user_error unit) (salt : option (list Z)) (draw : list Z) (uuid : option gostr)
    (username password role : gostr) : UM User :=
  liftRes (validateUsername username) ;;
  liftRes (validatePassword password) ;;
  takeLocks ;;
  f ← readFileUnlocked;
  let username := trimSpace username in
  let want := normalizeUsername username in
  if existsb (fun u => normalizeUsername (Username u) =s? want) (ufUsers f) then uthrow ErrUsernameTaken
  else
    cred ← liftRes (deriveCredential slot salt draw password);
    id ← liftRes (fromOption uuid);
    e ← asks;
    let created := applyCredential cred (zeroUser id username role true (formatTime (eNow e))) in
    writeFileUnlocked (mkUsersFile (ufVersion f) (ufUsers f ++ [created])) ;;
    mret created.

(** The scan of createSSOUser: an account with the reserved ID decides, then a
    taken subject, then a taken username, whichever record comes first. *)
Fixpoint createScan (id username ssoSub nativeIssuer : gostr) (prepare : option (res user_error gostr)) (cancelled : bool)
    (l : list User) : option (res user_error User) :=
  match l with
  | [] => None
  | u :: l' =>
      if negb (id =s? []) && (uID u =s? id) then
        Some (match prepare with
              | None => Err ErrNativeAccountConflict
              | Some p =>
                  if negb (SSOSub u =s? ssoSub) || negb (NativeMailboxIssuer u =s? nativeIssuer) || (NativeMailboxSource u =s? [])
                  then Err ErrNativeAccountConflict
                  else source ← p;
                       if negb (source =s? NativeMailboxSource u) then Err ErrNativeAccountConflict
                       else if cancelled then Err ErrContext else Ok u
              end)
      else if negb (ssoSub =s? []) && (SSOSub u =s? ssoSub) then Some (Err ErrSSOSubTaken)
      else if normalizeUsername (Username u) =s? normalizeUsername username then Some (Err ErrUsernameTaken)
      else createScan id username ssoSub nativeIssuer prepare cancelled l'
  end.

Definition nativePrefix : gostr := $"native:".
Definition validNativeSource (source : gostr) : bool :=
  let '(rest, ok) := cutPrefix source nativePrefix in
  ok && match hexDecode rest with Some hash => (length hash =? 32)%nat | None => false end.

(** What prepare returned, checked. *)
Definition preparedSource (prepare : option (res user_error gostr)) : res user_error gostr :=
  match prepare with
  | None => Ok []
  | Some p => source ← p; if validNativeSource source then Ok source else Err ErrNativeAccountConflict
  end.

Definition ssoUser (id username role ssoSub ssoUsername ssoEmail nativeIssuer source : gostr) (now : Z) : User :=
  let u := zeroUser id username role false (formatTime now) in
  mkUser (NativeSendEpoch u) (PGPKeyring u) (PGPRevision u) (uID u) (Username u) (PasswordHash u) (uRole u)
    (Active u) (MustChangePassword u) (uCreatedAt u) (uUpdatedAt u) (DeactivatedAt u) (uSendQuota u)
    (TOTPEnabled u) (TOTPSecretEnc u) (TOTPConfirmedAt u) (RecoveryCodesHash u) (LastUsedTOTPStep u)
    (PushMFAEnabled u) (if source =s? [] then [] else nativeIssuer) source ssoSub nativeIssuer (trimSpace ssoUsername)
    (trimSpace ssoEmail) (unixSeconds now) (SSOLinkRevokedAt u) (AuthDerivation u) (LoginSalt u) (LoginIterations u)
    (PGPFingerprint u) (PGPKeyID u) (PGPPublicKey u) (PGPPrivateKeyEnc u) (PGPPrivateKeyWrapped u)
    (PGPWrappedEnvelopes u) (IncomingEncryptionPending u) (PGPKeyProtection u) (PGPKeySource u) (PGPKeyCreatedAt u).

Definition createSSOUser (uuid : option gostr) (cancelled : bool)
    (id username role ssoSub ssoUsername ssoEmail nativeIssuer : gostr) (prepare : option (res user_error gostr)) : UM User :=
  liftRes (validateUsername username) ;;
  takeLocks ;;
  f ← readFileUnlocked;
  let username := trimSpace username in
  let ssoSub := trimSpace ssoSub in
  match createScan id username ssoSub nativeIssuer prepare cancelled (ufUsers f) with
  | Some r => liftRes r
  | None =>
      id ← liftRes (if id =s? [] then fromOption uuid else Ok id);
      source ← liftRes (preparedSource prepare);
      if cancelled then uthrow ErrContext
      else
        e ← asks;
        let created := ssoUser id username role ssoSub ssoUsername ssoEmail nativeIssuer source (eNow e) in
        writeFileUnlocked (mkUsersFile (ufVersion f) (ufUsers f ++ [created])) ;;
        mret created
  end.

Definition createSSOUserIssuer (uuid : option gostr) (issuer username role sub ssoUsername email : gostr) : UM User :=
  if issuer =s? [] then uthrow ErrNativeAccountConflict
  else createSSOUser uuid false [] username role sub ssoUsername email issuer None.

Definition publishPreparedSSOUser (cancelled : bool) (id username role issuer sub ssoUsername email : gostr)
    (prepare : option (res user_error gostr)) : UM User :=
  if (trimSpace issuer =s? []) || negb (safePathComponent id) || (sub =s? []) || bool_decide (prepare = None)
  then uthrow ErrNativeAccountConflict
  else createSSOUser None cancelled id username role sub ssoUsername email issuer prepare.

(** ** Directory links *)

(** updateSSOLinks: [fn] answers with the changed record when it changes it. *)
Fixpoint relink (now : Z) (fn : User -> option User) (l : list User) : Z * list User :=
  match l with
  | [] => (0%Z, [])
  | u :: l' =>
      let '(n, l'') := relink now fn l' in
      if negb (SSOSub u =s? []) then
        match fn u with
        | Some u' => ((n + 1)%Z, setUpdatedAt (formatTime now) u' :: l'')
        | None => (n, u :: l'')
        end
      else (n, u :: l'')
  end.
Definition updateSSOLinks (fn : Z -> User -> option User) : UM Z :=
  takeLocks ;;
  f ← readFileUnlocked;
  e ← asks;
  let '(changed, l) := relink (eNow e) (fn (eNow e)) (ufUsers f) in
  if (changed =? 0)%Z then mret 0%Z
  else writeFileUnlocked (mkUsersFile (ufVersion f) l) ;; mret changed.

Definition bindLink (issuer : gostr) (u : User) : option User :=
  if negb (SSOIssuer u =s? []) || ((NativeMailboxIssuer u =s? []) && (issuer =s? [])) then None
  else Some (setSSOIssuer (cmpOr (NativeMailboxIssuer u) issuer) u).
Definition bindUnboundSSOLinks (issuer : gostr) : UM Z := updateSSOLinks (fun _ => bindLink issuer).

Definition revokeLinkNotFrom (issuer : gostr) (now : Z) (u : User) : option User :=
  if (SSOIssuer u =s? issuer) || negb (SSOLinkRevokedAt u =? 0)%Z || negb (NativeMailboxSource u =s? []) then None
  else Some (setSSOLinkRevokedAt (unixSeconds now) u).
Definition revokeSSOLinksNotFrom (issuer : gostr) : UM Z := updateSSOLinks (revokeLinkNotFrom issuer).

Definition linkUser (issuer ssoSub ssoUsername ssoEmail : gostr) (now : Z) (u : User) : User :=
  setUpdatedAt (formatTime now) (setSSOLinkRevokedAt 0 (setSSOLinkedAt (unixSeconds now)
    (setSSOEmail (trimSpace ssoEmail) (setSSOUsername (trimSpace ssoUsername) (setSSOSub (trimSpace ssoSub)
      (setSSOIssuer issuer u)))))).

Definition linkSSO (issuer userID ssoSub ssoUsername ssoEmail : gostr) : UM unit :=
  takeLocks ;;
  f ← readFileUnlocked;
  if existsb (fun u => negb (trimSpace ssoSub =s? []) && negb (uID u =s? userID) && (SSOSub u =s? trimSpace ssoSub)) (ufUsers f)
  then uthrow ErrSSOSubTaken
  else
    match find_first (hasID userID) (ufUsers f) with
    | None => uthrow ErrNotFound
    | Some u =>
        if negb (NativeMailboxSource u =s? [])
           || (negb (SSOIssuer u =s? []) && negb (SSOIssuer u =s? issuer) && (SSOLinkRevokedAt u =? 0)%Z)
        then uthrow ErrNativeAccountConflict
        else
          e ← asks;
          writeFileUnlocked (mkUsersFile (ufVersion f)
            (update_first (hasID userID) (linkUser issuer ssoSub ssoUsername ssoEmail (eNow e)) (ufUsers f))) ;;
          mret tt
    end.
Definition linkSSOIssuer (issuer userID sub username email : gostr) : UM unit :=
  if issuer =s? [] then uthrow ErrNativeAccountConflict else linkSSO issuer userID sub username email.

Definition revokeUser (now : Z) (u : User) : User :=
  setUpdatedAt (formatTime now) (setSSOLinkRevokedAt (unixSeconds now) u).

Definition revokeSSOLink (userID : gostr) : UM unit :=
  takeLocks ;;
  f ← readFileUnlocked;
  match find_first (hasID userID) (ufUsers f) with
  | None => uthrow ErrNotFound
  | Some u =>
      if (SSOSub u =s? []) || negb (SSOLinkRevokedAt u =? 0)%Z then mret tt
      else e ← asks;
           writeFileUnlocked (mkUsersFile (ufVersion f) (update_first (hasID userID) (revokeUser (eNow e)) (ufUsers f))) ;;
           mret tt
  end.

Definition unlinkUser (now : Z) (u : User) : User :=
  if negb (NativeMailboxSource u =s? []) then revokeUser now u
  else setUpdatedAt (formatTime now) (setSSOLinkRevokedAt 0 (setSSOLinkedAt 0 (setSSOEmail [] (setSSOUsername []
         (setSSOSub [] (setSSOIssuer [] u)))))).
Definition unlinkSSO (userID : gostr) : UM unit :=
  takeLocks ;;
  f ← readFileUnlocked;
  match find_first (hasID userID) (ufUsers f) with
  | None => uthrow ErrNotFound
  | Some _ =>
      e ← asks;
      writeFileUnlocked (mkUsersFile (ufVersion f) (update_first (hasID userID) (unlinkUser (eNow e)) (ufUsers f))) ;;
      mret tt
  end.

(** ** Roles and activity *)

Definition setRole (id role : gostr) : UM User :=
  let guard := if role =s? RoleAdmin then noGuard else guardNotLastActiveAdmin in
  mutateGuarded id guard (fun u => Ok (setuRole role u)).
Definition setSendQuota (id : gostr) (q : option SendQuotaOverride) : UM User :=
  mutate id (fun u => Ok (setuSendQuota q u)).
Definition clearMustChangePassword (id : gostr) : UM User := mutate id (fun u => Ok (setMustChangePassword false u)).

Definition deactivateUser (now : Z) (u : User) : User := setDeactivatedAt (formatTime now) (setActive false u).
Definition deactivate (id : gostr) : UM User :=
  e ← asks; mutateGuarded id guardNotLastActiveAdmin (fun u => Ok (deactivateUser (eNow e) u)).
Definition reactivate (id : gostr) : UM User :=
  mutate id (fun u => Ok (setDeactivatedAt [] (setActive true u))).

(** ** Second factor *)

Definition setPendingTOTPSecret (id secretEnc : gostr) : UM User :=
  mutate id (fun u => Ok (setRecoveryCodesHash [] (setTOTPConfirmedAt [] (setTOTPEnabled false (setTOTPSecretEnc secretEnc u))))).

Definition confirmTOTP (expectSecretEnc confirmedAt : gostr) (recoveryHashes : list gostr) : change := fun u =>
  if TOTPSecretEnc u =s? [] then Err ErrOther
  else if negb (TOTPSecretEnc u =s? expectSecretEnc) then Err ErrTOTPEnrollmentRestarted
  else Ok (setRecoveryCodesHash recoveryHashes (setTOTPConfirmedAt confirmedAt (setTOTPEnabled true u))).
Definition enableTOTP (id expectSecretEnc confirmedAt : gostr) (recoveryHashes : list gostr) : UM User :=
  if expectSecretEnc =s? [] then uthrow ErrOther
  else mutate id (confirmTOTP expectSecretEnc confirmedAt recoveryHashes).

Definition disableTOTP (id : gostr) : UM User :=
  mutate id (fun u => Ok (setPushMFA false (setRecoveryCodesHash [] (setTOTPConfirmedAt [] (setTOTPSecretEnc [] (setTOTPEnabled false u)))))).
Definition setPushMFAEnabled (id : gostr) (enabled : bool) : UM User :=
  mutate id (fun u => if Bool.eqb (PushMFAEnabled u) enabled then Err ErrNoChangeNeeded else Ok (setPushMFA enabled u)).
Definition setLastUsedTOTPStep (id : gostr) (step : Z) : UM User :=
  mutate id (fun u => if (step <=? LastUsedTOTPStep u)%Z then Err ErrTOTPStepNotNewer else Ok (setLastStep step u)).

Definition replaceRecoveryCodes (id : gostr) (recoveryHashes : list gostr) : UM User :=
  mutate id (fun u => Ok (setRecoveryCodesHash recoveryHashes u)).

(** [matchCode] is recoverycode.MatchCode with the caller's digest: the position
    of the stored hash the candidate matches. *)
Definition spendCode (matchCode : gostr -> list gostr -> option nat) (candidate : gostr) : change := fun u =>
  match matchCode candidate (RecoveryCodesHash u) with
  | None => Err ErrRecoveryCodeNoMatch
  | Some i => Ok (setRecoveryCodesHash (base.delete i (RecoveryCodesHash u)) u)
  end.
Definition consumeRecoveryCode (matchCode : gostr -> list gostr -> option nat) (id candidate : gostr) :
    UM (option User) := fun e s =>
  match mutate id (spendCode matchCode candidate) e s with
  | (Ok u, s') => (Ok (Some u), s')
  | (Err (ErrApp ErrRecoveryCodeNoMatch), s') => (Ok None, s')
  | (Err x, s') => (Err x, s')
  end.

(** ** Passwords *)

Definition setPassword (slot : res user_error unit) (salt : option (list Z)) (draw : list Z)
    (id newPassword : gostr) (requireChange : bool) (expectedRevision : option Z) : UM User :=
  liftRes (validatePassword newPassword) ;;
  cred ← liftRes (deriveCredential slot salt draw newPassword);
  mutatePGP id expectedRevision (fun u =>
    if negb (bool_decide (PGPKeyring u = None)) && negb requireChange then Err ErrPGPKeyringUpgradeRequired
    else Ok (setMustChangePassword requireChange (applyCredential cred u))).

Definition rehashPassword (slot slot' : res user_error unit) (dummy : res user_error gostr) (draw : list Z)
    (id verifiedCredential : gostr) : UM User :=
  hash ← liftRes (hashPassword slot draw verifiedCredential);
  mutate id (fun u =>
    ok ← verifyAuthSecret dummy slot' u verifiedCredential;
    if negb ok then Err ErrOther
    else if negb (needsRehash (PasswordHash u)) then Ok u
    else Ok (setPasswordHash hash u)).

(** ** Expired sealings *)

Fixpoint sweepUsers (now : Z) (l : list User) : Z * list User :=
  match l with
  | [] => (0%Z, [])
  | u :: l' =>
      let '(n, l'') := sweepUsers now l' in
      let '(u', compacted) := compactExpiredEnvelopes now u in
      ((if compacted then n + Z.of_nat (length (PGPWrappedEnvelopes u)) - Z.of_nat (length (PGPWrappedEnvelopes u')) else n)%Z,
       u' :: l'')
  end.
Definition sweepExpiredEnvelopes : UM Z :=
  takeLocks ;;
  f ← readFileUnlocked;
  e ← asks;
  let '(removed, l) := sweepUsers (eNow e) (ufUsers f) in
  if (removed =? 0)%Z then mret 0%Z
  else writeFileUnlocked (mkUsersFile (ufVersion f) l) ;; mret removed.
End Ops.

(** ** Batch writers and the first users.json

    native_recovery.go (repairing accounts from signed recovery evidence, the
    release of a restore), WithCurrentUsers, and the creation of users.json on
    first boot, which two processes may race for.  The callbacks a caller passes
    are represented by what they return. *)

Section Native.
Context {U : Unicode} {GT : GoTime} {GF : GoTimeFormat}.

(** ** WithCurrentUsers *)

Definition supportedVersion (cancelled : bool) (f : usersFile) : res user_error unit :=
  if negb (ufVersion f =? 1)%Z || cancelled then (if cancelled then Err ErrContext else Err ErrUnsupportedVersion) else Ok tt.
Definition withCurrentUsers {A} (cancelled : bool) (action : list User -> res user_error A) : UM A :=
  takeLocks ;;
  f ← readFileUnlocked;
  liftRes (supportedVersion cancelled f) ;;
  liftRes (action (ufUsers f)).

(** ** RepairNativeAccounts *)

Record NativeAccountRepair := mkRepair {
  repID : gostr; repSubject : gostr; repSource : gostr; repActive : bool; repRole : gostr;
}.

(** The two maps built over the accounts: IDs are present and distinct, subjects
    distinct. *)
Fixpoint ownershipConsistent (ids subjects : list gostr) (l : list User) : bool :=
  match l with
  | [] => true
  | u :: l' =>
      negb (bool_decide (uID u ∈ ids)) && negb (uID u =s? [])
      && (if negb (SSOSub u =s? []) then
            negb (bool_decide (SSOSub u ∈ subjects)) && ownershipConsistent (uID u :: ids) (SSOSub u :: subjects) l'
          else ownershipConsistent (uID u :: ids) subjects l')
  end.

Definition repairUser (now : Z) (r : NativeAccountRepair) (u : User) : User :=
  if Bool.eqb (Active u) (repActive r) && (uRole u =s? repRole r) then u
  else
    let u1 := if negb (Bool.eqb (Active u) (repActive r))
              then setDeactivatedAt (if repActive r then [] else formatTime now) u else u in
    setUpdatedAt (formatTime now) (setuRole (repRole r) (setActive (repActive r) u1)).

Fixpoint repairAll (now : Z) (issuer : gostr) (seen : list gostr) (repairs : list NativeAccountRepair) (l : list User) :
    res user_error (list User) :=
  match repairs with
  | [] => Ok l
  | r :: repairs' =>
      match find_first (hasID (repID r)) l with
      | None => Err ErrNativeAccountConflict
      | Some u =>
          if bool_decide (repID r ∈ seen) || (repSubject r =s? []) || (repSource r =s? [])
             || (negb (repRole r =s? RoleAdmin) && negb (repRole r =s? RoleUser))
          then Err ErrNativeAccountConflict
          else if negb (NativeMailboxIssuer u =s? issuer) || negb (NativeMailboxSource u =s? repSource r)
                  || negb (SSOSub u =s? repSubject r)
          then Err ErrNativeAccountConflict
          else repairAll now issuer (repID r :: seen) repairs' (update_first (hasID (repID r)) (repairUser now r) l)
      end
  end.

(** [cancel1], [cancel2]: ctx.Err() before and after [beforeWrite], which
    answers [intent]. *)
Definition repairNativeAccounts (cancel1 cancel2 : bool) (issuer : gostr) (repairs : list NativeAccountRepair)
    (intent : list User -> list User -> res user_error unit) : UM unit :=
  if (issuer =s? []) || bool_decide (repairs = []) || (256 <? Z.of_nat (length repairs))%Z then uthrow ErrOther
  else
    takeLocks ;;
    f ← readFileUnlocked;
    if negb (ufVersion f =? 1)%Z then uthrow ErrUnsupportedVersion
    else if negb (ownershipConsistent [] [] (ufUsers f)) then uthrow ErrNativeAccountConflict
    else
      e ← asks;
      l ← liftRes (repairAll (eNow e) issuer [] repairs (ufUsers f));
      if noAdmin l then uthrow ErrLastActiveAdmin
      else
        f' ← advanceNativeSendEpochs (mkUsersFile (ufVersion f) l);
        if cancel1 then uthrow ErrContext
        else
          liftRes (intent (ufUsers f) (ufUsers f')) ;;
          if cancel2 then uthrow ErrContext
          else writeFileUnlocked f' ;; mret tt.

(** ** DeactivateForRestoreRelease *)

Definition restoreChange (now : Z) (apply : User -> option User) (id : gostr) (l : list User) : res user_error (list User) :=
  match find_first (hasID id) l with
  | None => Err ErrNativeAccountConflict
  | Some u =>
      if negb (Active u) || negb (NativeMailboxIssuer u =s? []) || negb (NativeMailboxSource u =s? [])
      then Err ErrNativeAccountConflict
      else match apply u with
           | None => Err ErrNativeAccountConflict
           | Some u' => Ok (update_first (hasID id) (fun _ => setUpdatedAt (formatTime now) u') l)
           end
  end.
Fixpoint restoreEach (now : Z) (apply : User -> option User) (ids : list gostr) (l : list User) : res user_error (list User) :=
  match ids with
  | [] => Ok l
  | id :: ids' => l' ← restoreChange now apply id l; restoreEach now apply ids' l'
  end.
Definition switchOff (now : Z) (u : User) : option User := Some (setDeactivatedAt (formatTime now) (setActive false u)).
Definition demoteUser (u : User) : option User := if uRole u =s? RoleAdmin then Some (setuRole RoleUser u) else None.

(** [prepare] answers with the accounts to deactivate and to demote; [commit]
    runs after the write. *)
Definition deactivateForRestoreRelease (cancelled : bool) (prepare : list User -> res user_error (list gostr * list gostr))
    (commit : res user_error unit) : UM unit :=
  takeLocks ;;
  f ← readFileUnlocked;
  if negb (ufVersion f =? 1)%Z then uthrow ErrUnsupportedVersion
  else
    '(off, demote) ← liftRes (prepare (ufUsers f));
    e ← asks;
    l1 ← liftRes (restoreEach (eNow e) (switchOff (eNow e)) off (ufUsers f));
    l ← liftRes (restoreEach (eNow e) demoteUser demote l1);
    if noAdmin l then uthrow ErrLastActiveAdmin
    else if cancelled then uthrow ErrContext
    else
      (if (length off + length demote =? 0)%nat then mret tt
       else writeFileUnlocked (mkUsersFile (ufVersion f) l) ;; mret tt) ;;
      liftRes commit.
End Native.

(** ** The first users.json *)

Section Bootstrap.
Context {PL : PasswordLib} {KD : KeyDerivation} {GF : GoTimeFormat} {U : Unicode}.

(** [strings.SplitN(s, "=", 2)]. *)
Fixpoint splitEq (s : gostr) : option (gostr * gostr) :=
  match s with
  | [] => None
  | c :: s' => if (c =? 61)%Z then Some ([], s') else '(a, b) ← splitEq s'; Some (c :: a, b)
  end.

(** readLegacyAdminEnv: [content] is the file, when it could be read. *)
Definition readLegacyAdminEnv (content : option gostr) : option (gmap gostr gostr) :=
  c ← content;
  let out := foldl (fun m line => match splitEq (trimSpace line) with
                                  | Some (k, v) => <[k := v]> m
                                  | None => m
                                  end) ∅ (splitOn 10 c) in
  if default [] (out !! $"ADMIN_USER") =s? [] then None else Some out.

(** [strconv.Atoi] on a 64-bit platform. *)
Definition atoi (s : gostr) : option Z :=
  let '(neg, d) := match s with 45%Z :: s' => (true, s') | 43%Z :: s' => (false, s') | _ => (false, s) end in
  if bool_decide (d = []) then None
  else n ← parseDigits 0 d;
       if neg then (if (n <=? 2 ^ 63)%Z then Some (- n)%Z else None)
       else (if (n <? 2 ^ 63)%Z then Some n else None).

(** The administrator the first file holds. *)
Definition legacyAdmin (slot : res user_error unit) (salt : option (list Z)) (draw : list Z) (id : gostr) (now : Z)
    (admin : gmap gostr gostr) : res user_error User :=
  let field (k : gostr) := default [] (admin !! k) in
  let hash := field ($"ADMIN_PASS_HASH") in
  let u0 := setPasswordHash hash
              (zeroUser id (field ($"ADMIN_USER")) RoleAdmin (equalFold (field ($"MUST_CHANGE_PASSWORD")) ($"true")) (formatTime now)) in
  u1 ← match atoi (field ($"ADMIN_LOGIN_ITERATIONS")) with
       | Some iterations =>
           if hash =s? [] then Ok u0
           else match validateLoginSalt (field ($"ADMIN_LOGIN_SALT")), validateLoginIterations iterations with
                | Ok _, Ok _ => Ok (applyCredential (mkCredential hash (field ($"ADMIN_LOGIN_SALT")) iterations) u0)
                | _, _ => Err ErrOther
                end
       | None => Ok u0
       end;
  if (PasswordHash u1 =s? []) && negb (field ($"ADMIN_PASS") =s? [])
  then cred ← deriveCredential slot salt draw (field ($"ADMIN_PASS")); Ok (applyCredential cred u1)
  else Ok u1.

Definition freshAdmin (slot : res user_error unit) (salt : option (list Z)) (draw : list Z) (id : gostr) (now : Z)
    (password : gostr) : res user_error User :=
  cred ← deriveCredential slot salt draw password;
  Ok (applyCredential cred (zeroUser id ($"admin") RoleAdmin true (formatTime now))).

(** createInitial: the temporary file is written and synced ([io_write] says how
    that ends), then linked into place, which fails when the file exists. *)
Definition createInitial (f : usersFile) : UM bool := fun e s =>
  let f := if (ufVersion f =? 0)%Z then mkUsersFile 1 (ufUsers f) else f in
  match io_write (eIO e) with
  | WriteFailed => (Err ErrWrite, s)
  | w =>
      match uDisk s with
      | FMissing =>
          let s' := mkU (FData f) (eStat e) (uCache s) in
          match w with
          | WriteSyncFailed => (Err ErrWrite, s')
          | _ => (Ok true, s')
          end
      | _ => (Ok false, s)
      end
  end.

(** LoadOrMigrate, in the two steps another process can come between: what the
    process decides from a first stat (open the file, or create it with this
    administrator), and carrying it out.  [handOver] is the outcome of writing
    the generated password where the operator finds it. *)
Inductive boot_plan :=
  | PlanOpen
  | PlanCreate (admin : User) (generated : bool).

Definition bootPlan (slot : res user_error unit) (salt : option (list Z)) (draw : list Z) (uuid password : option gostr)
    (env_ : option gostr) : UM boot_plan := fun e s =>
  match uDisk s with
  | FMissing =>
      (match
         match readLegacyAdminEnv env_ with
         | Some admin =>
             id ← fromOption uuid;
             u ← legacyAdmin slot salt draw id (eNow e) admin;
             Ok (PlanCreate u false)
         | None =>
             password ← fromOption password;
             id ← fromOption uuid;
             u ← freshAdmin slot salt draw id (eNow e) password;
             Ok (PlanCreate u true)
         end
       with Ok p => Ok p | Err x => Err (ErrApp x) end, s)
  | _ => (Ok PlanOpen, s)
  end.

Definition bootRun (handOver : res user_error unit) (p : boot_plan) : UM unit :=
  match p with
  | PlanOpen => readFileUnlocked ;; mret tt
  | PlanCreate u generated =>
      won ← createInitial (mkUsersFile 1 [u]);
      if generated && won then liftRes handOver else mret tt
  end.
Definition loadOrMigrate (slot : res user_error unit) (salt : option (list Z)) (draw : list Z) (uuid password : option gostr)
    (env_ : option gostr) (handOver : res user_error unit) : UM unit :=
  p ← bootPlan slot salt draw uuid password env_;
  bootRun handOver p.
End Bootstrap.
