(* ===== verification/UsersRun.v ===== *)
(** * UsersRun: the calls on users.json and the shape of what they write

    [runUser] dispatches every call that can change the file.  [Mutates] says
    which change of which account a call asks [mutateGuarded] for, and
    [runUser_shape] that every call leaves the file alone or replaces it by the
    accounts moved one by one, possibly with one created account behind them. *)

From S2P Require Import Prelude GoText FileStore GoCodec.
From S2P Require Import SendAs ContactsModel Contacts.
From S2P Require Import UsersModel UsersStore UsersAuth UsersOps UsersPGP.

Section Run.
Context {U : Unicode} {UP : UnicodeUpper} {GT : GoTime} {GF : GoTimeFormat} {PL : PasswordLib} {KD : KeyDerivation}.
Context {PG : OpenPGP} {KI : KeyInspection} {EJ : EnvelopeJSON}.
(** recoverycode.MatchCode under the server's digest. *)
Context (matchCode : gostr -> list gostr -> option nat).

(** A derivation slot's outcome, the salt and the hash's random bytes. *)
Record kdf := mkKdf { kSlot : res user_error unit; kSalt : option (list Z); kDraw : list Z }.

Inductive uop :=
  (* accounts *)
  | OCreate (k : kdf) (uuid : option gostr) (username password role : gostr)
  | OCreateSSO (uuid : option gostr) (cancelled : bool) (id username role sub ssoUsername email issuer : gostr)
      (prepare : option (res user_error gostr))
  | OBindLinks (issuer : gostr)
  | ORevokeLinksNotFrom (issuer : gostr)
  | OLinkSSO (issuer userID sub username email : gostr)
  | ORevokeLink (userID : gostr)
  | OUnlink (userID : gostr)
  | OSetRole (id role : gostr)
  | OSetSendQuota (id : gostr) (q : option SendQuotaOverride)
  | OClearMustChange (id : gostr)
  | ODeactivate (id : gostr)
  | OReactivate (id : gostr)
  (* second factor *)
  | OSetPendingTOTP (id secretEnc : gostr)
  | OEnableTOTP (id expect confirmedAt : gostr) (hashes : list gostr)
  | ODisableTOTP (id : gostr)
  | OSetPushMFA (id : gostr) (enabled : bool)
  | OSetTOTPStep (id : gostr) (step : Z)
  | OReplaceCodes (id : gostr) (hashes : list gostr)
  | OConsumeCode (id candidate : gostr)
  (* credentials *)
  | OSetPassword (k : kdf) (id password : gostr) (requireChange : bool) (rev : option Z)
  | ORehash (k : kdf) (slot2 : res user_error unit) (dummy : res user_error gostr) (id credential : gostr)
  | OSetDerivedAuth (k : kdf) (id secret salt : gostr) (iterations : Z) (requireChange : bool) (rewrapped : gostr)
      (rev : option Z) (ring : bool)
  (* OpenPGP identity *)
  | OSetIdentity (id fp keyID armored enc source createdAt : gostr)
  | OSetClientIdentity (id fp keyID armored wrapped source createdAt : gostr) (rev : option Z)
  | ORewrap (id wrapped expectedFp : gostr) (rev : option Z) (ring : bool)
  | OSetEnvelope (id slot envelope addedAt expectedFp : gostr) (rev : option Z)
  | OSetRecovery (id envelope addedAt expectedFp : gostr) (rev : option Z)
  | ODeleteEnvelope (id slot : gostr) (rev : option Z)
  | OClearIdentity (id : gostr) (rev : option Z)
  | OReserve (id fp : gostr) (rev : Z)
  | ORelease (id : gostr)
  | ODeliver (id : gostr) (d : DeviceDelivery)
  | OCommitRing (k : kdf) (id : gostr) (up : PGPKeyringUpdate)
  (* batches *)
  | OSweep
  | ORepair (cancel1 cancel2 : bool) (issuer : gostr) (repairs : list NativeAccountRepair)
      (intent : list User -> list User -> res user_error unit)
  | ORestore (cancelled : bool) (prepare : list User -> res user_error (list gostr * list gostr)) (commit : res user_error unit).

Inductive uans := AUser (u : User) | AUnit | ACount (n : Z) | ACode (r : option User) | ADelivered (u : User) (version : Z).

Definition answered {A} (f : A -> uans) (m : UM A) : UM uans := a ← m; mret (f a).

Definition runUser (o : uop) : UM uans :=
  let user := answered AUser in
  let done_ := answered (fun _ : unit => AUnit) in
  let count := answered ACount in
  match o with
  | OCreate k uuid un pw role => user (create (kSlot k) (kSalt k) (kDraw k) uuid un pw role)
  | OCreateSSO uuid c id un role sub su em iss p => user (createSSOUser uuid c id un role sub su em iss p)
  | OBindLinks iss => count (bindUnboundSSOLinks iss)
  | ORevokeLinksNotFrom iss => count (revokeSSOLinksNotFrom iss)
  | OLinkSSO iss id sub un em => done_ (linkSSO iss id sub un em)
  | ORevokeLink id => done_ (revokeSSOLink id)
  | OUnlink id => done_ (unlinkSSO id)
  | OSetRole id role => user (setRole id role)
  | OSetSendQuota id q => user (setSendQuota id q)
  | OClearMustChange id => user (clearMustChangePassword id)
  | ODeactivate id => user (deactivate id)
  | OReactivate id => user (reactivate id)
  | OSetPendingTOTP id x => user (setPendingTOTPSecret id x)
  | OEnableTOTP id x at_ hs => user (enableTOTP id x at_ hs)
  | ODisableTOTP id => user (disableTOTP id)
  | OSetPushMFA id b => user (setPushMFAEnabled id b)
  | OSetTOTPStep id n => user (setLastUsedTOTPStep id n)
  | OReplaceCodes id hs => user (replaceRecoveryCodes id hs)
  | OConsumeCode id c => answered ACode (consumeRecoveryCode matchCode id c)
  | OSetPassword k id pw b rev => user (setPassword (kSlot k) (kSalt k) (kDraw k) id pw b rev)
  | ORehash k slot2 dummy id c => user (rehashPassword (kSlot k) slot2 dummy (kDraw k) id c)
  | OSetDerivedAuth k id x salt n b w rev ring =>
      user (setDerivedAuthAndRewrapPGP (kSlot k) (kDraw k) id x salt n b w rev ring)
  | OSetIdentity id a b c d x y => user (setPGPIdentity id a b c d x y)
  | OSetClientIdentity id a b c w x y rev => user (setPGPIdentityClientProtected id a b c w x y rev)
  | ORewrap id w fp rev ring => user (rewrapPGPPrivateKey id w fp rev ring)
  | OSetEnvelope id slot x at_ fp rev => user (setPGPWrappedEnvelope id slot x at_ fp rev)
  | OSetRecovery id x at_ fp rev => user (setPGPKeyringRecovery id x at_ fp rev)
  | ODeleteEnvelope id slot rev => user (deletePGPWrappedEnvelope id slot rev)
  | OClearIdentity id rev => user (clearPGPIdentity id rev)
  | OReserve id fp rev => user (reserveIncomingEncryption id fp rev)
  | ORelease id => user (releaseIncomingEncryption id)
  | ODeliver id d => answered (fun '(u, v) => ADelivered u v) (setPGPDeviceEnvelope id d)
  | OCommitRing k id up => user (commitPGPKeyring (kSlot k) (kDraw k) id up)
  | OSweep => count sweepExpiredEnvelopes
  | ORepair c1 c2 iss reps intent => done_ (repairNativeAccounts c1 c2 iss reps intent)
  | ORestore c p k => done_ (deactivateForRestoreRelease c p k)
  end.

(** ** What a call asks mutateGuarded for *)

Abbreviation guardT := (list User -> User -> res user_error unit).

Inductive Mutates (now : Z) : uop -> gostr -> guardT -> change -> Prop :=
  | MuRole id role : Mutates now (OSetRole id role) id (if role =s? RoleAdmin then noGuard else guardNotLastActiveAdmin)
                       (fun u => Ok (setuRole role u))
  | MuQuota id q : Mutates now (OSetSendQuota id q) id noGuard (fun u => Ok (setuSendQuota q u))
  | MuClear id : Mutates now (OClearMustChange id) id noGuard (fun u => Ok (setMustChangePassword false u))
  | MuDeactivate id : Mutates now (ODeactivate id) id guardNotLastActiveAdmin (fun u => Ok (deactivateUser now u))
  | MuReactivate id : Mutates now (OReactivate id) id noGuard (fun u => Ok (setDeactivatedAt [] (setActive true u)))
  | MuPending id x : Mutates now (OSetPendingTOTP id x) id noGuard
      (fun u => Ok (setRecoveryCodesHash [] (setTOTPConfirmedAt [] (setTOTPEnabled false (setTOTPSecretEnc x u)))))
  | MuEnable id x at_ hs : Mutates now (OEnableTOTP id x at_ hs) id noGuard (confirmTOTP x at_ hs)
  | MuDisable id : Mutates now (ODisableTOTP id) id noGuard
      (fun u => Ok (setPushMFA false (setRecoveryCodesHash [] (setTOTPConfirmedAt [] (setTOTPSecretEnc [] (setTOTPEnabled false u))))))
  | MuPush id b : Mutates now (OSetPushMFA id b) id noGuard
      (fun u => if Bool.eqb (PushMFAEnabled u) b then Err ErrNoChangeNeeded else Ok (setPushMFA b u))
  | MuStep id n : Mutates now (OSetTOTPStep id n) id noGuard
      (fun u => if (n <=? LastUsedTOTPStep u)%Z then Err ErrTOTPStepNotNewer else Ok (setLastStep n u))
  | MuCodes id hs : Mutates now (OReplaceCodes id hs) id noGuard (fun u => Ok (setRecoveryCodesHash hs u))
  | MuConsume id c : Mutates now (OConsumeCode id c) id noGuard (spendCode matchCode c)
  | MuPassword k id pw b rev cred : deriveCredential (kSlot k) (kSalt k) (kDraw k) pw = Ok cred ->
      Mutates now (OSetPassword k id pw b rev) id (guardPGP rev)
        (fun u => if negb (bool_decide (PGPKeyring u = None)) && negb b then Err ErrPGPKeyringUpgradeRequired
                  else Ok (setMustChangePassword b (applyCredential cred u)))
  | MuRehash k slot2 dummy id c hash : hashPassword (kSlot k) (kDraw k) c = Ok hash ->
      Mutates now (ORehash k slot2 dummy id c) id noGuard
        (fun u => ok ← verifyAuthSecret dummy slot2 u c;
                  if negb ok then Err ErrOther
                  else if negb (needsRehash (PasswordHash u)) then Ok u else Ok (setPasswordHash hash u))
  | MuAuth k id x salt n b w rev ring hash : hashPassword (kSlot k) (kDraw k) x = Ok hash ->
      Mutates now (OSetDerivedAuth k id x salt n b w rev ring) id (guardPGP rev) (changePassword hash salt n b w ring)
  | MuIdentity id a b c d x y : Mutates now (OSetIdentity id a b c d x y) id noGuard (storeServerIdentity a b c d x y)
  | MuClient id a b c w x y rev : blank w = false ->
      Mutates now (OSetClientIdentity id a b c w x y rev) id (guardPGP rev) (storeClientIdentity a b c w x y)
  | MuRewrap id w fp rev ring : blank w = false ->
      Mutates now (ORewrap id w fp rev ring) id (guardPGP rev)
        (fun u => resealGuard ring true fp ErrOther u ;;
                  Ok (setPGPKeyProtection PGPProtectionClient (setPGPPrivateKeyWrapped w u)))
  | MuEnvelope id slot x at_ fp rev : hasPrefix EnvelopeSlotDevicePrefix slot = false -> validEnvelopeSlot slot = true ->
      Mutates now (OSetEnvelope id slot x at_ fp rev) id (guardPGP rev)
        (fun u => resealGuard false (slot =s? EnvelopeSlotRecovery) fp ErrNoPGPIdentity u ;;
                  putSlot now slot (reseal x at_ []) (mkEnvelope slot x at_ [] 0 0 [] []) u)
  | MuRecovery id x at_ fp rev :
      Mutates now (OSetRecovery id x at_ fp rev) id (guardPGP rev)
        (fun u => resealGuard true true fp ErrNoPGPIdentity u ;;
                  putSlot now EnvelopeSlotRecovery (reseal x at_ []) (mkEnvelope EnvelopeSlotRecovery x at_ [] 0 0 [] []) u)
  | MuDelete id slot rev : Mutates now (ODeleteEnvelope id slot rev) id (guardPGP rev) (dropSlot slot)
  | MuClearIdentity id rev : Mutates now (OClearIdentity id rev) id (guardPGP rev) (fun u => Ok (clearIdentity u))
  | MuReserve id fp rev : Mutates now (OReserve id fp rev) id noGuard (reserveIncoming fp rev)
  | MuRelease id : Mutates now (ORelease id) id noGuard
      (fun u => if negb (IncomingEncryptionPending u) then Err ErrNoChangeNeeded else Ok (setIncomingPending false u))
  | MuDeliver id d version :
      validEnvelopeSlot (EnvelopeSlotDevicePrefix ++ ddDeviceID d) = true ->
      Mutates now (ODeliver id d) id (guardPGP (ddExpectedRevision d))
        (deliver now version (EnvelopeSlotDevicePrefix ++ ddDeviceID d) (formatTime (now + DeviceEnvelopeTTL)) d)
  | MuCommit k id up c : checkUpdate now (kSlot k) (kDraw k) up = Ok c ->
      Mutates now (OCommitRing k id up) id (guardPGP (Some (upExpectedRevision up))) (commitRing now up c).

(** A call made through mutateGuarded. *)
Definition isMutation (o : uop) : bool :=
  match o with
  | OCreate _ _ _ _ _ | OCreateSSO _ _ _ _ _ _ _ _ _ _ | OBindLinks _ | ORevokeLinksNotFrom _ | OLinkSSO _ _ _ _ _
  | ORevokeLink _ | OUnlink _ | OSweep | ORepair _ _ _ _ _ | ORestore _ _ _ => false
  | _ => true
  end.

(** ** Running one step *)

Lemma answered_state {A} (f : A -> uans) (m : UM A) e s : (answered f m e s).2 = (m e s).2.
Proof. unfold answered, mbind, UM_bind, mret, UM_ret. by destruct (m e s) as [[?|?] ?]. Qed.

(** Such a call fails before it takes the lock, or is the run of mutateGuarded
    on the change it asks for: [k] turns its answer into the call's, and only a
    recovery code that does not match turns a failure into an answer. *)
Definition faithfulAnswer (o : uop) (k : res uerr User -> res uerr uans) : Prop :=
  (forall r a, k r = Ok a ->
    (exists u, r = Ok u) \/ (a = ACode None /\ r = Err (ErrApp ErrRecoveryCodeNoMatch) /\ exists id c, o = OConsumeCode id c)) /\
  (forall r x, k r = Err x -> r = Err x).

Definition runsMutation (o : uop) (e : env) (s : ustate) : Prop :=
  exists id g fn k, Mutates (eNow e) o id g fn /\ faithfulAnswer o k /\
    runUser o e s = (k (mutateGuarded id g fn e s).1, (mutateGuarded id g fn e s).2).

Lemma answered_run {A} (f : A -> uans) (m : UM A) e s :
  answered f m e s = (match (m e s).1 with Ok a => Ok (f a) | Err x => Err x end, (m e s).2).
Proof. unfold answered, mbind, UM_bind, mret, UM_ret. by destruct (m e s) as [[?|?] ?]. Qed.

Lemma runs_answered o e s id g fn f m :
  runUser o e s = answered f m e s -> Mutates (eNow e) o id g fn -> m e s = mutateGuarded id g fn e s -> runsMutation o e s.
Proof.
  intros HE HM Hm. exists id, g, fn, (fun r => match r with Ok u => Ok (f u) | Err x => Err x end).
  split; [done|]. split; [split; [intros [u|x] a E; [left; eauto|done]|by intros [u|x] y E; simplify_eq]|].
  by rewrite HE, answered_run, Hm.
Qed.

(** Sequencing after a validation. *)
Lemma lift_bind {A B} (r : res user_error A) (k : A -> UM B) e s :
  (liftRes r ≫= k) e s = match r with Ok a => k a e s | Err x => (Err (ErrApp x), s) end.
Proof. by destruct r. Qed.

Lemma runs_early {A} o e s (f : A -> uans) m x :
  runUser o e s = answered f m e s -> m e s = (Err x, s) -> exists x, runUser o e s = (Err x, s).
Proof. intros HE Hm. exists x. by rewrite HE, answered_run, Hm. Qed.

Lemma asks_bind {B} (k : env -> UM B) e s : (asks ≫= k) e s = k e e s.
Proof. done. Qed.

Ltac by_checks := repeat (rewrite ?lift_bind, ?asks_bind; match goal with E : ?x = _ |- context [?x] => rewrite E; cbv beta iota zeta end).

(** The call [op] fails at its next check, or runs its mutation. *)
Tactic Notation "fails" reference(op) := left; eapply runs_early; [reflexivity|unfold op; by_checks; reflexivity].
Tactic Notation "mutates" reference(op) :=
  right; eapply runs_answered; [reflexivity|once (econstructor; eassumption)|unfold op; by_checks; reflexivity].

Tactic Notation "fails_seal" reference(op) :=
  left; eapply runs_early; [reflexivity|unfold op, sealSlot; by_checks; reflexivity].
Tactic Notation "seals" reference(op) :=
  right; eapply runs_answered; [reflexivity|once (econstructor; eassumption)|unfold op, sealSlot; by_checks; reflexivity].

Lemma consume_runs id c e s : runsMutation (OConsumeCode id c) e s.
Proof.
  exists id, noGuard, (spendCode matchCode c), (fun r => match r with
    | Ok u => Ok (ACode (Some u)) | Err (ErrApp ErrRecoveryCodeNoMatch) => Ok (ACode None) | Err x => Err x end).
  split; [constructor|]. split; [split|].
  - intros [u|x] a E; [left; eauto|right]. destruct x as [| | | |x]; try done. destruct x; simplify_eq; eauto.
  - intros [u|x] y E; [done|]. destruct x as [| | | |x]; try by simplify_eq. destruct x; by simplify_eq.
  - cbn [runUser]. rewrite answered_run. unfold consumeRecoveryCode, mutate.
    destruct (mutateGuarded _ _ _ e s) as [[u|x] s']; simpl; [done|]. destruct x as [| | | |x]; try done. by destruct x.
Qed.

Lemma deliver_runs id d e s :
  (exists x, runUser (ODeliver id d) e s = (Err x, s)) \/ runsMutation (ODeliver id d) e s.
Proof.
  destruct (parseDeviceEnvelopeVersion (ddEnvelope d)) as [version|] eqn:E1; [|fails setPGPDeviceEnvelope].
  destruct (validEnvelopeSlot (EnvelopeSlotDevicePrefix ++ ddDeviceID d)) eqn:E2; [|fails setPGPDeviceEnvelope].
  destruct (blank (ddEnrollmentKey d) || blank (ddExpectedFingerprint d)) eqn:E3; [fails setPGPDeviceEnvelope|].
  right. do 3 eexists. exists (fun r => match r with Ok u => Ok (ADelivered u version) | Err x => Err x end).
  split; [by apply (MuDeliver _ _ _ version)|].
  split; [split; [intros [u|x] a E; [left; eauto|done]|by intros [u|x] y E; simplify_eq]|].
  cbn [runUser]. rewrite answered_run. unfold setPGPDeviceEnvelope. by_checks. cbn [negb]. rewrite asks_bind.
  unfold mutatePGP, mbind, UM_bind, mret, UM_ret. by destruct (mutateGuarded _ _ _ e s) as [[u|x] s'].
Qed.

Lemma runUser_mutates o e s :
  isMutation o = true -> (exists x, runUser o e s = (Err x, s)) \/ runsMutation o e s.
Proof.
  destruct o; intros Ho; try discriminate Ho; clear Ho.
  1-6,8-11: (right; eapply runs_answered; [reflexivity|once constructor|reflexivity]).
  - destruct (expect =s? []) eqn:E; [fails enableTOTP|mutates enableTOTP].
  - right. apply consume_runs.
  - destruct (validatePassword password) eqn:E1; [|fails setPassword].
    destruct (deriveCredential (kSlot k) (kSalt k) (kDraw k) password) eqn:E2; [|fails setPassword].
    mutates setPassword.
  - destruct (hashPassword (kSlot k) (kDraw k) credential) eqn:E1; [|fails rehashPassword]. mutates rehashPassword.
  - destruct (validateAuthSecret secret) eqn:E1; [|fails setDerivedAuthAndRewrapPGP].
    destruct (validateLoginSalt salt) eqn:E2; [|fails setDerivedAuthAndRewrapPGP].
    destruct (validateLoginIterations iterations) eqn:E3; [|fails setDerivedAuthAndRewrapPGP].
    destruct (validateWrappedEnvelope rewrapped) eqn:E4; [|fails setDerivedAuthAndRewrapPGP].
    destruct (hashPassword (kSlot k) (kDraw k) secret) eqn:E5; [|fails setDerivedAuthAndRewrapPGP].
    mutates setDerivedAuthAndRewrapPGP.
  - right; eapply runs_answered; [reflexivity|once constructor|reflexivity].
  - destruct (validateWrappedEnvelope wrapped) eqn:E1; [|fails setPGPIdentityClientProtected].
    destruct (blank wrapped) eqn:E2; [fails setPGPIdentityClientProtected|mutates setPGPIdentityClientProtected].
  - destruct (validateWrappedEnvelope wrapped) eqn:E1; [|fails rewrapPGPPrivateKey].
    destruct (blank wrapped) eqn:E2; [fails rewrapPGPPrivateKey|mutates rewrapPGPPrivateKey].
  - destruct (hasPrefix EnvelopeSlotDevicePrefix slot) eqn:E0; [fails setPGPWrappedEnvelope|].
    destruct (validateWrappedEnvelope envelope) eqn:E1; [|fails_seal setPGPWrappedEnvelope].
    destruct (validEnvelopeSlot slot) eqn:E2; [|fails_seal setPGPWrappedEnvelope].
    destruct (blank envelope) eqn:E3; [fails_seal setPGPWrappedEnvelope|seals setPGPWrappedEnvelope].
  - destruct (validateWrappedEnvelope envelope) eqn:E1; [|fails_seal setPGPKeyringRecovery].
    destruct (blank envelope) eqn:E3; [fails_seal setPGPKeyringRecovery|seals setPGPKeyringRecovery].
  - destruct (validEnvelopeSlot slot) eqn:E1; [mutates deletePGPWrappedEnvelope|fails deletePGPWrappedEnvelope].
  - right; eapply runs_answered; [reflexivity|once constructor|reflexivity].
  - right; eapply runs_answered; [reflexivity|once constructor|reflexivity].
  - right; eapply runs_answered; [reflexivity|once constructor|reflexivity].
  - apply deliver_runs.
  - destruct (checkUpdate (eNow e) (kSlot k) (kDraw k) up) eqn:E1; [mutates commitPGPKeyring|fails commitPGPKeyring].
Qed.
End Run.
