(* ===== verification/UsersShape.v ===== *)
(** * UsersShape: what one call does to one account

    [Move] is the list of things a call can do to an account; [runUser_shape]
    says a call leaves the file alone or replaces it by the accounts moved one
    by one, with at most one created account behind them, and their epochs
    advanced.  The frame lemmas say which fields which calls leave alone. *)

From S2P Require Import Prelude GoText FileStore GoCodec.
From S2P Require Import SendAs ContactsModel Contacts.
From S2P Require Import UsersModel UsersStore UsersAuth UsersOps UsersPGP UsersRun.

Lemma res_ok_inj {E A} (a b : A) : @Ok E A a = Ok b -> a = b.
Proof. congruence. Qed.

(** Take a successful computation in the result monad apart. *)
Ltac unbind H :=
  repeat (cbv zeta beta in H;
    match type of H with
    | (_ ≫= _) = Ok _ => let Hx := fresh "E" in apply res_bind_ok in H as (? & Hx & H); unbind Hx
    | (_ ;; _) = Ok _ => let Hx := fresh "E" in apply res_bind_ok in H as (? & Hx & H); unbind Hx
    | (if ?b then _ else _) = Ok _ => destruct b eqn:?
    | match ?x with _ => _ end = Ok _ => destruct x eqn:?
    | Err _ = Ok _ => discriminate H
    | Ok _ = Ok _ => apply res_ok_inj in H
    end).

Lemma putSlot_frame {GT : GoTime} now slot rep fresh u u1 :
  putSlot now slot rep fresh u = Ok u1 -> exists l, u1 = setPGPWrappedEnvelopes l u.
Proof. unfold putSlot. intros H. unbind H; subst; by eexists. Qed.

(** Solve a goal about every change a call can ask for: [Hf] is the change's
    success, [tac] closes the cases. *)
Ltac open_change HM Hf :=
  destruct HM; cbv beta in Hf;
  unfold confirmTOTP, spendCode, changePassword, storeServerIdentity, storeClientIdentity, dropSlot, reserveIncoming,
    deliver, commitRing in Hf; unbind Hf;
  try (apply putSlot_frame in Hf as [? Hf]); subst.
Ltac frame_done := try done; repeat (case_match; try done).

Section Shape.
Context {U : Unicode} {UP : UnicodeUpper} {GT : GoTime} {GF : GoTimeFormat} {PL : PasswordLib} {KD : KeyDerivation}.
Context {PG : OpenPGP} {KI : KeyInspection} {EJ : EnvelopeJSON}.
Context (matchCode : gostr -> list gostr -> option nat).

Abbreviation runU := (runUser matchCode).
Abbreviation Mut := (Mutates matchCode).

(** ** Frames *)

(** The identity of the account and its two counters. *)
Definition core (u : User) :=
  (uID u, Username u, uCreatedAt u, NativeMailboxIssuer u, NativeMailboxSource u, NativeSendEpoch u, PGPRevision u).
Definition links (u : User) := (SSOSub u, SSOIssuer u, SSOUsername u, SSOEmail u, SSOLinkedAt u, SSOLinkRevokedAt u).

(** What a change keeps, whichever change it is. *)
Lemma change_core now o id g fn u u1 :
  Mut now o id g fn -> fn u = Ok u1 -> core u1 = core u /\ links u1 = links u.
Proof. intros HM Hf. open_change HM Hf; frame_done. Qed.

(** Dropping expired sealings touches nothing else. *)
Lemma compact_frame now u : exists l, (compactExpiredEnvelopes now u).1 = u \/ (compactExpiredEnvelopes now u).1 = setPGPWrappedEnvelopes l u.
Proof. unfold compactExpiredEnvelopes. case_match; simpl; eauto. Unshelve. exact []. Qed.

(** ** What one call does to one account *)

(** The calls that write without mutateGuarded, on an account of [all]. *)
Inductive Direct (now : Z) (all : list User) : uop -> User -> User -> Prop :=
  | DBind iss u u1 : SSOSub u ≠ [] -> bindLink iss u = Some u1 ->
      Direct now all (OBindLinks iss) u (setUpdatedAt (formatTime now) u1)
  | DRevokeFrom iss u u1 : SSOSub u ≠ [] -> revokeLinkNotFrom iss now u = Some u1 ->
      Direct now all (ORevokeLinksNotFrom iss) u (setUpdatedAt (formatTime now) u1)
  | DLink iss sub un em u : NativeMailboxSource u = [] ->
      (forall v, v ∈ all -> trimSpace sub ≠ [] -> uID v ≠ uID u -> SSOSub v ≠ trimSpace sub) ->
      Direct now all (OLinkSSO iss (uID u) sub un em) u (linkUser iss sub un em now u)
  | DRevoke u : SSOSub u ≠ [] -> SSOLinkRevokedAt u = 0%Z -> Direct now all (ORevokeLink (uID u)) u (revokeUser now u)
  | DUnlink u : Direct now all (OUnlink (uID u)) u (unlinkUser now u)
  | DSweep u : Direct now all OSweep u (compactExpiredEnvelopes now u).1
  | DRepair c1 c2 iss reps intent r u :
      r ∈ reps -> repID r = uID u -> NativeMailboxIssuer u = iss -> NativeMailboxSource u = repSource r -> SSOSub u = repSubject r ->
      Direct now all (ORepair c1 c2 iss reps intent) u (repairUser now r u)
  | DOff c prep k u : Active u = true -> NativeMailboxIssuer u = [] -> NativeMailboxSource u = [] ->
      Direct now all (ORestore c prep k) u (setUpdatedAt (formatTime now) (setDeactivatedAt (formatTime now) (setActive false u)))
  | DDemote c prep k u : Active u = true -> NativeMailboxIssuer u = [] -> NativeMailboxSource u = [] -> uRole u = RoleAdmin ->
      Direct now all (ORestore c prep k) u (setUpdatedAt (formatTime now) (setuRole RoleUser u)).

Inductive Move (now : Z) (all : list User) (o : uop) (u u' : User) : Prop :=
  | MvDirect : rtc (Direct now all o) u u' -> Move now all o u u'
  | MvMutate g fn : Mut now o (uID u) g fn -> find_first (hasID (uID u)) all = Some u -> g all u = Ok tt ->
      mutateOne now fn u = Ok (VWrite u') -> Move now all o u u'.

Lemma Move_refl now all o u : Move now all o u u.
Proof. by apply MvDirect. Qed.

Lemma Moves_refl now all o l : Forall2 (Move now all o) l l.
Proof. apply Reflexive_instance_0. intros u. apply Move_refl. Qed.

(** The accounts a call may append. *)
Inductive Created (now : Z) (l : list User) : uop -> User -> Prop :=
  | CrLocal k id un pw role cred : deriveCredential (kSlot k) (kSalt k) (kDraw k) pw = Ok cred ->
      validateUsername un = Ok tt -> validatePassword pw = Ok tt ->
      (forall u, u ∈ l -> normalizeUsername (Username u) ≠ normalizeUsername (trimSpace un)) ->
      Created now l (OCreate k (Some id) un pw role) (applyCredential cred (zeroUser id (trimSpace un) role true (formatTime now)))
  | CrSSO uuid c id id' un role sub su em iss p source :
      validateUsername un = Ok tt ->
      createScan id (trimSpace un) (trimSpace sub) iss p c l = None ->
      id' = (if id =s? [] then default [] uuid else id) -> (id = [] -> is_Some uuid) ->
      preparedSource p = Ok source -> c = false ->
      Created now l (OCreateSSO uuid c id un role sub su em iss p)
        (ssoUser id' (trimSpace un) role (trimSpace sub) su em iss source now).

Definition CreatedList (now : Z) (l : list User) (o : uop) (new : list User) : Prop :=
  new = [] \/ exists u, new = [u] /\ Created now l o u.

(** The batches refuse to leave the accounts without an administrator. *)
Definition BatchGuard (o : uop) (l : list User) : Prop :=
  match o with ORepair _ _ _ _ _ | ORestore _ _ _ => noAdmin l = false | _ => True end.

(** The file after a write of [l] over [f]: the same, or [l] with its epochs
    advanced. *)
Definition Wrote (f : usersFile) (l : list User) (s' : ustate) : Prop :=
  uDisk s' = FData f \/
  exists v l', advanceUsers (priorByID (ufUsers f)) l = Ok l' /\ uDisk s' = FData (mkUsersFile v l').

Definition Shape (now : Z) (o : uop) (f : usersFile) (s' : ustate) : Prop :=
  uDisk s' = FData f \/
  exists l new v l', Forall2 (Move now (ufUsers f) o) (ufUsers f) l /\ CreatedList now (ufUsers f) o new /\ BatchGuard o l /\
    advanceUsers (priorByID (ufUsers f)) (l ++ new) = Ok l' /\ uDisk s' = FData (mkUsersFile v l').

(** ** Running the write path *)

Lemma write_run f f0 e s :
  uDisk s = FData f0 ->
  match (writeFileUnlocked f e s).1 with
  | Ok f' => exists v l', advanceUsers (priorByID (ufUsers f0)) (ufUsers f) = Ok l' /\ f' = mkUsersFile v l' /\
               uDisk (writeFileUnlocked f e s).2 = FData f'
  | Err _ => Wrote f0 (ufUsers f) (writeFileUnlocked f e s).2
  end.
Proof.
  intros Hs. unfold writeFileUnlocked, advanceNativeSendEpochs, mbind, UM_bind, mret, UM_ret. rewrite Hs.
  destruct (eReread e); [|by left].
  destruct (advanceUsers (priorByID (ufUsers f0)) (ufUsers f)) as [l'|] eqn:E; [|by left].
  unfold atomicWrite. cbn [ufVersion ufUsers].
  destruct (io_write (eIO e)); cbn [fst snd uDisk].
  - destruct (ufVersion f =? 0)%Z; eauto.
  - left. done.
  - right. destruct (ufVersion f =? 0)%Z; eauto.
Qed.

Lemma write_wrote f f0 e s : uDisk s = FData f0 -> Wrote f0 (ufUsers f) (writeFileUnlocked f e s).2.
Proof.
  intros Hs. pose proof (write_run f f0 e s Hs) as H. destruct (writeFileUnlocked f e s) as [[f'|x] s']; simpl in *; [|done].
  destruct H as (v & l' & H1 & -> & H2). right. eauto.
Qed.

(** Under the lock, on a file that can be read. *)
Lemma locked_read {A} (k : usersFile -> UM A) f e s :
  uDisk s = FData f ->
  (exists x, (takeLocks ;; f ← readFileUnlocked; k f) e s = (Err x, s)) \/
  (takeLocks ;; f ← readFileUnlocked; k f) e s = k f e s.
Proof.
  intros Hs. unfold takeLocks, readFileUnlocked, readFile, mbind, UM_bind. rewrite Hs.
  destruct (io_lock (eIO e)), (io_read (eIO e)); eauto.
Qed.

Lemma bind_state {A B} (m : UM A) (k : A -> UM B) e s :
  (forall a s', (k a e s').2 = s') -> ((m ≫= k) e s).2 = (m e s).2.
Proof. intros H. unfold mbind, UM_bind. destruct (m e s) as [[a|x] s']; [apply H|done]. Qed.

Lemma then_ret {A B} (m : UM A) (b : B) e s : ((m ;; mret b) e s).2 = (m e s).2.
Proof. by apply bind_state. Qed.

Lemma Shape_same now o f s : uDisk s = FData f -> Shape now o f s.
Proof. by left. Qed.

Lemma Shape_wrote now o f l new s :
  Forall2 (Move now (ufUsers f) o) (ufUsers f) l -> CreatedList now (ufUsers f) o new -> BatchGuard o l ->
  Wrote f (l ++ new) s -> Shape now o f s.
Proof. intros H1 H2 H3 [?|(v & l' & ? & ?)]; [by left|]. right. by exists l, new, v, l'. Qed.

Lemma Shape_moves now o f l s :
  Forall2 (Move now (ufUsers f) o) (ufUsers f) l -> BatchGuard o l -> Wrote f l s -> Shape now o f s.
Proof. intros. apply (Shape_wrote _ _ _ l []); [done|by left|done|by rewrite app_nil_r]. Qed.

(** The moved list when the first account with an ID is moved. *)
Lemma moves_update now all o id l u u' :
  find_first (hasID id) l = Some u -> Move now all o u u' -> Forall2 (Move now all o) l (update_first (hasID id) (fun _ => u') l).
Proof.
  intros Hf Hm. induction l as [|w l IH]; simpl in *; [done|]. destruct (hasID id w) eqn:E; simplify_eq.
  - constructor; [done|apply Moves_refl].
  - constructor; [apply Move_refl|auto].
Qed.

Lemma mutateGuarded_shape id g fn e s f o :
  Mut (eNow e) o id g fn -> uDisk s = FData f -> Shape (eNow e) o f (mutateGuarded id g fn e s).2.
Proof.
  intros HM Hs. unfold mutateGuarded.
  match goal with |- context [(takeLocks ;; f ← readFileUnlocked; @?k f) e s] => destruct (locked_read k f e s Hs) as [[x ->]| ->] end;
    [by apply Shape_same|].
  rewrite asks_bind. destruct (find_first (hasID id) (ufUsers f)) as [u|] eqn:Ef; [|by apply Shape_same].
  rewrite lift_bind. destruct (g (ufUsers f) u) as [[]|] eqn:Eg; [|by apply Shape_same].
  rewrite lift_bind. destruct (mutateOne (eNow e) fn u) as [v|] eqn:Em; [|by apply Shape_same].
  destruct v as [u'|u']; [|by apply Shape_same].
  apply find_first_Some in Ef as Hu. destruct Hu as [_ Hu]. unfold hasID in Hu. to_prop.
  eapply (Shape_moves _ _ _ (update_first (hasID id) (fun _ => u') (ufUsers f))).
  - eapply moves_update; [done|]. subst id. by eapply MvMutate.
  - by destruct HM.
  - rewrite bind_state; [by apply write_wrote|]. intros a s'. by case_match.
Qed.

(** Start from the locked, readable file. *)
Ltac from_file Hs :=
  match goal with
  | |- context [(takeLocks ;; f ← readFileUnlocked; @?k f) ?e ?s] =>
      destruct (locked_read k _ e s Hs) as [[x ->]| ->]; [by apply Shape_same|]
  end; rewrite ?asks_bind.
Ltac at_write := match goal with |- context [(?m ≫= ?k) ?e ?s] => rewrite (bind_state m k e s) by (intros; by repeat case_match) end.

Lemma relink_moves now all fn o l :
  (forall u u', SSOSub u ≠ [] -> fn u = Some u' -> Direct now all o u (setUpdatedAt (formatTime now) u')) ->
  Forall2 (Move now all o) l (relink now fn l).2.
Proof.
  intros Hfn. induction l as [|u l IH]; simpl; [constructor|]. destruct (relink now fn l) as [n l'']. simpl in *.
  destruct (SSOSub u =s? []) eqn:E; to_prop; simpl; [by constructor; [apply Move_refl|]|].
  destruct (fn u) as [u'|] eqn:E2; constructor; try done; [|apply Move_refl].
  apply MvDirect, rtc_once. by apply Hfn.
Qed.

Lemma updateSSOLinks_shape fn o e s f :
  (forall l, BatchGuard o l) ->
  (forall u u', SSOSub u ≠ [] -> fn (eNow e) u = Some u' -> Direct (eNow e) (ufUsers f) o u (setUpdatedAt (formatTime (eNow e)) u')) ->
  uDisk s = FData f -> Shape (eNow e) o f (updateSSOLinks fn e s).2.
Proof.
  intros Hb Hfn Hs. unfold updateSSOLinks. from_file Hs.
  pose proof (relink_moves (eNow e) (ufUsers f) (fn (eNow e)) o (ufUsers f) Hfn) as HM.
  destruct (relink (eNow e) (fn (eNow e)) (ufUsers f)) as [n l]. destruct (n =? 0)%Z; [by apply Shape_same|].
  eapply Shape_moves; [exact HM|apply Hb|]. at_write. by apply write_wrote.
Qed.

Lemma sweep_moves now all l : Forall2 (Move now all OSweep) l (sweepUsers now l).2.
Proof.
  induction l as [|u l IH]; simpl; [constructor|]. destruct (sweepUsers now l) as [n l'']. simpl in *.
  destruct (compactExpiredEnvelopes now u) as [u' b] eqn:E. simpl. constructor; [|done].
  apply MvDirect, rtc_once. replace u' with (compactExpiredEnvelopes now u).1 by (by rewrite E). constructor.
Qed.

Lemma direct_update now all o id fn l :
  (forall u, find_first (hasID id) l = Some u -> Direct now all o u (fn u)) ->
  Forall2 (Move now all o) l (update_first (hasID id) fn l).
Proof.
  intros H. destruct (find_first (hasID id) l) as [u|] eqn:E.
  - rewrite (update_first_at _ _ _ _ E). eapply moves_update; [done|]. apply MvDirect, rtc_once. by apply H.
  - rewrite update_first_id by done. apply Moves_refl.
Qed.

Lemma hasID_first id l u : find_first (hasID id) l = Some u -> u ∈ l /\ uID u = id.
Proof. intros [H1 H2]%find_first_Some. unfold hasID in H2. by to_prop. Qed.

Lemma linkSSO_shape iss id sub un em e s f :
  uDisk s = FData f -> Shape (eNow e) (OLinkSSO iss id sub un em) f (linkSSO iss id sub un em e s).2.
Proof.
  intros Hs. unfold linkSSO. from_file Hs. case_match; [by apply Shape_same|].
  destruct (find_first (hasID id) (ufUsers f)) as [u|] eqn:Ef; [|by apply Shape_same].
  destruct (_ || _) eqn:Eg; [by apply Shape_same|]. to_prop. rewrite asks_bind. at_write.
  eapply Shape_moves; [|done|by apply write_wrote]. apply direct_update. intros u0 Hu0. simplify_eq.
  apply hasID_first in Ef as [_ <-]. constructor; [done|]. intros v Hv Hsub Hid Hs'.
  match goal with E : existsb _ _ = false |- _ => apply Bool.not_true_iff_false in E; apply E end.
  apply existsb_exists. exists v. split; [by apply list_elem_of_In|].
  by rewrite !bool_decide_eq_false_2, bool_decide_eq_true_2 by done.
Qed.

Lemma revokeSSOLink_shape id e s f :
  uDisk s = FData f -> Shape (eNow e) (ORevokeLink id) f (revokeSSOLink id e s).2.
Proof.
  intros Hs. unfold revokeSSOLink. from_file Hs.
  destruct (find_first (hasID id) (ufUsers f)) as [u|] eqn:Ef; [|by apply Shape_same].
  destruct (_ || _) eqn:Eg; [by apply Shape_same|]. to_prop. rewrite asks_bind. at_write.
  eapply Shape_moves; [|done|by apply write_wrote]. apply direct_update. intros u0 Hu0. simplify_eq.
  apply hasID_first in Ef as [_ <-]. by constructor.
Qed.

Lemma unlinkSSO_shape id e s f : uDisk s = FData f -> Shape (eNow e) (OUnlink id) f (unlinkSSO id e s).2.
Proof.
  intros Hs. unfold unlinkSSO. from_file Hs.
  destruct (find_first (hasID id) (ufUsers f)) as [u|] eqn:Ef; [|by apply Shape_same]. rewrite asks_bind. at_write.
  eapply Shape_moves; [|done|by apply write_wrote]. apply direct_update. intros u0 Hu0. simplify_eq.
  apply hasID_first in Ef as [_ <-]. constructor.
Qed.

Lemma sweep_shape e s f : uDisk s = FData f -> Shape (eNow e) OSweep f (sweepExpiredEnvelopes e s).2.
Proof.
  intros Hs. unfold sweepExpiredEnvelopes. from_file Hs.
  pose proof (sweep_moves (eNow e) (ufUsers f) (ufUsers f)) as HM. destruct (sweepUsers (eNow e) (ufUsers f)) as [n l].
  destruct (n =? 0)%Z; [by apply Shape_same|]. eapply Shape_moves; [exact HM|done|]. at_write. by apply write_wrote.
Qed.

(** ** Created accounts *)

Lemma create_shape k uuid un pw role e s f :
  uDisk s = FData f ->
  Shape (eNow e) (OCreate k uuid un pw role) f (create (kSlot k) (kSalt k) (kDraw k) uuid un pw role e s).2.
Proof.
  intros Hs. unfold create. rewrite lift_bind. destruct (validateUsername un) as [[]|] eqn:E1; [|by apply Shape_same].
  rewrite lift_bind. destruct (validatePassword pw) as [[]|] eqn:E2; [|by apply Shape_same]. from_file Hs.
  cbv zeta. destruct (existsb _ _) eqn:E3; [by apply Shape_same|]. rewrite lift_bind.
  destruct (deriveCredential _ _ _ pw) as [cred|] eqn:E4; [|by apply Shape_same]. rewrite lift_bind.
  destruct uuid as [id|]; [|by apply Shape_same]. cbn [fromOption]. rewrite asks_bind. at_write.
  eapply Shape_wrote; [apply Moves_refl| |done|by apply (write_wrote (mkUsersFile _ _))].
  right. eexists. split; [done|]. econstructor; try done. intros u Hu E.
  apply Bool.not_true_iff_false in E3. apply E3, existsb_exists. exists u. split; [by apply list_elem_of_In|].
  by apply bool_decide_eq_true.
Qed.

Lemma createSSO_shape uuid c id un role sub su em iss p e s f :
  uDisk s = FData f ->
  Shape (eNow e) (OCreateSSO uuid c id un role sub su em iss p) f (createSSOUser uuid c id un role sub su em iss p e s).2.
Proof.
  intros Hs. unfold createSSOUser. rewrite lift_bind. destruct (validateUsername un) as [[]|] eqn:E1; [|by apply Shape_same].
  from_file Hs. cbv zeta. destruct (createScan _ _ _ _ _ _ _) as [r|] eqn:E2; [by destruct r; apply Shape_same|].
  rewrite lift_bind. destruct (if id =s? [] then fromOption uuid else Ok id) as [id'|] eqn:E3; [|by apply Shape_same].
  rewrite lift_bind. destruct (preparedSource p) as [source|] eqn:E4; [|by apply Shape_same].
  destruct c; [by apply Shape_same|]. rewrite asks_bind. at_write.
  eapply Shape_wrote; [apply Moves_refl| |done|by apply (write_wrote (mkUsersFile _ _))].
  right. eexists. split; [done|]. apply CrSSO; try done.
  - destruct (id =s? []); [destruct uuid|]; by simplify_eq/=.
  - intros ->. rewrite bool_decide_eq_true_2 in E3 by done. destruct uuid; [by eexists|done].
Qed.

(** ** Batches *)

Lemma moves_trans now all o l1 l2 l3 :
  Forall2 (rtc (Direct now all o)) l1 l2 -> Forall2 (rtc (Direct now all o)) l2 l3 -> Forall2 (rtc (Direct now all o)) l1 l3.
Proof. intros H1 H2. eapply Forall2_trans; [|exact H1|exact H2]. intros u v w Hv Hw. by etransitivity. Qed.

Lemma batch_update now all o id u u' l :
  find_first (hasID id) l = Some u -> Direct now all o u u' ->
  Forall2 (rtc (Direct now all o)) l (update_first (hasID id) (fun _ => u') l).
Proof.
  intros Hf Hd. induction l as [|w l IH]; simpl in *; [done|]. destruct (hasID id w) eqn:E; simplify_eq; constructor; auto.
  - by apply rtc_once.
  - apply Reflexive_instance_0. intros w. constructor.
  - constructor.
Qed.

Lemma batch_moves now all o l l' : Forall2 (rtc (Direct now all o)) l l' -> Forall2 (Move now all o) l l'.
Proof. intros H. eapply Forall2_impl; [exact H|]. intros. by apply MvDirect. Qed.

Lemma repair_moves now all c1 c2 iss reps intent todo seen l l' :
  (forall r, r ∈ todo -> r ∈ reps) ->
  repairAll now iss seen todo l = Ok l' -> Forall2 (rtc (Direct now all (ORepair c1 c2 iss reps intent))) l l'.
Proof.
  revert seen l. induction todo as [|r todo IH]; intros seen l Hin; simpl.
  - intros [= ->]. apply Reflexive_instance_0. intros w. constructor.
  - destruct (find_first (hasID (repID r)) l) as [u|] eqn:Ef; [|done].
    case_match; [done|]. case_match; [done|]. intros HR. to_prop.
    eapply moves_trans; [|eapply IH; [|exact HR]; intros; apply Hin; by right].
    rewrite (update_first_at _ _ _ _ Ef). eapply batch_update; [done|].
    apply hasID_first in Ef as [_ Hid]. apply DRepair; try done. apply Hin. left.
Qed.

Lemma repair_shape c1 c2 iss reps intent e s f :
  uDisk s = FData f ->
  Shape (eNow e) (ORepair c1 c2 iss reps intent) f (repairNativeAccounts c1 c2 iss reps intent e s).2.
Proof.
  intros Hs. unfold repairNativeAccounts. case_match; [by apply Shape_same|]. from_file Hs.
  case_match; [by apply Shape_same|]. case_match; [by apply Shape_same|]. rewrite asks_bind, lift_bind.
  destruct (repairAll _ _ _ _ _) as [l|] eqn:ER; [|by apply Shape_same]. case_match; [by apply Shape_same|].
  eapply repair_moves in ER; [|done].
  unfold mbind at 1, UM_bind at 1. unfold advanceNativeSendEpochs. rewrite Hs.
  destruct (eReread e); [|by apply Shape_same]. cbn [ufUsers ufVersion].
  destruct (advanceUsers _ l) as [l1|] eqn:EA; [|by apply Shape_same].
  destruct c1; [by apply Shape_same|]. rewrite lift_bind. destruct (intent _ _) as [[]|]; [|by apply Shape_same].
  destruct c2; [by apply Shape_same|]. at_write.
  eapply Shape_moves; [by eapply batch_moves|done|].
  destruct (write_wrote (mkUsersFile (ufVersion f) l1) f e s Hs) as [?|(v & l2 & Hw1 & Hw2)]; [by left|].
  right. exists v, l1. cbn [ufUsers] in Hw1.
  rewrite (advanceUsers_again _ _ _ EA) in Hw1. injection Hw1 as <-. done.
Qed.

Lemma restore_moves now all o apply_ ids l l' :
  (forall u u', Active u = true -> NativeMailboxIssuer u = [] -> NativeMailboxSource u = [] -> apply_ u = Some u' ->
     Direct now all o u (setUpdatedAt (formatTime now) u')) ->
  restoreEach now apply_ ids l = Ok l' -> Forall2 (rtc (Direct now all o)) l l'.
Proof.
  intros Ha. revert l. induction ids as [|id ids IH]; intros l; cbn [restoreEach].
  - intros [= ->]. apply Reflexive_instance_0. intros w. constructor.
  - intros (l1 & H1 & H2)%res_bind_ok. eapply moves_trans; [|by apply IH]. clear H2.
    unfold restoreChange in H1. destruct (find_first (hasID id) l) as [u|] eqn:Ef; [|done].
    destruct (_ || _ || _) eqn:E1; [done|]. destruct (apply_ u) as [u'|] eqn:E2; [|done]. simplify_eq. to_prop.
    eapply batch_update; [done|]. by apply Ha.
Qed.

Lemma restore_shape c prep k e s f :
  uDisk s = FData f -> Shape (eNow e) (ORestore c prep k) f (deactivateForRestoreRelease c prep k e s).2.
Proof.
  intros Hs. unfold deactivateForRestoreRelease. from_file Hs. case_match; [by apply Shape_same|]. rewrite lift_bind.
  destruct (prep (ufUsers f)) as [[off demote]|]; [|by apply Shape_same]. rewrite asks_bind, lift_bind.
  destruct (restoreEach _ _ off _) as [l1|] eqn:E1; [|by apply Shape_same]. rewrite lift_bind.
  destruct (restoreEach _ _ demote l1) as [l|] eqn:E2; [|by apply Shape_same].
  case_match; [by apply Shape_same|]. destruct c; [by apply Shape_same|].
  assert (HM : Forall2 (Move (eNow e) (ufUsers f) (ORestore false prep k)) (ufUsers f) l).
  { apply batch_moves. eapply moves_trans; eapply restore_moves; try done.
    - intros u u' ??? [= <-]. by constructor.
    - unfold demoteUser. intros u u' ????. case_match; simplify_eq. to_prop. by constructor. }
  rewrite bind_state by (intros; by destruct k). case_match.
  - by apply Shape_same.
  - eapply Shape_moves; [exact HM|done|]. rewrite then_ret. by apply (write_wrote (mkUsersFile _ _)).
Qed.

(** Every call leaves the file alone, or replaces it by the accounts moved one
    by one with at most one new account behind them. *)
Lemma runUser_shape o e s f : uDisk s = FData f -> Shape (eNow e) o f (runU o e s).2.
Proof.
  intros Hs. destruct (isMutation o) eqn:Em.
  { destruct (runUser_mutates matchCode o e s Em) as [[x ->]|(id & g & fn & k & HM & _ & ->)]; [by apply Shape_same|].
    by eapply mutateGuarded_shape. }
  destruct o; try discriminate Em; cbn [runUser]; rewrite answered_state;
    auto using create_shape, createSSO_shape, linkSSO_shape, revokeSSOLink_shape, unlinkSSO_shape, sweep_shape, repair_shape,
      restore_shape; apply updateSSOLinks_shape; try done; intros; by constructor.
Qed.
End Shape.
