(* ===== verification/UsersInvariant.v ===== *)
(** * UsersInvariant: what holds of users.json at all times

    The well-formedness of the accounts, kept by every call whatever the system
    calls do, and the survival of an active administrator.  The lemmas say what
    a move may do to each field a later theorem is about. *)

From S2P Require Import Prelude GoText FileStore GoCodec.
From S2P Require Import SendAs ContactsModel Contacts.
From S2P Require Import UsersModel UsersStore UsersAuth UsersOps UsersPGP UsersRun UsersShape.

Section Invariant.
Context {U : Unicode} {UP : UnicodeUpper} {GT : GoTime} {GF : GoTimeFormat} {PL : PasswordLib} {KD : KeyDerivation}.
Context {PG : OpenPGP} {KI : KeyInspection} {EJ : EnvelopeJSON}.
Context (matchCode : gostr -> list gostr -> option nat).

Abbreviation runU := (runUser matchCode).
Abbreviation Mut := (Mutates matchCode).
Abbreviation MoveU := (Move matchCode).

(** ** The parts of a mutation *)

(** The record between the change and the two stamps. *)
Definition Changed (now : Z) (fn : change) (u u1 : User) : Prop :=
  let c := (compactExpiredEnvelopes now u).1 in fn c = Ok u1 \/ (fn c = Err ErrNoChangeNeeded /\ u1 = c).

Lemma mutateOne_write now fn u u' :
  mutateOne now fn u = Ok (VWrite u') ->
  exists u1, Changed now fn u u1 /\
    (IncomingEncryptionPending u = true -> equalFold (PGPFingerprint u1) (PGPFingerprint u) = true) /\
    ((pgpState u1 = pgpState u /\ u' = setUpdatedAt (formatTime now) u1) \/
     (pgpState u1 ≠ pgpState u /\ (PGPRevision u1 < MaxPGPRevision)%Z /\
      u' = setUpdatedAt (formatTime now) (setPGPRevision (PGPRevision u1 + 1) u1))).
Proof.
  assert (HF : forall u1, finishChange now u u1 = Ok (VWrite u') ->
    (IncomingEncryptionPending u = true -> equalFold (PGPFingerprint u1) (PGPFingerprint u) = true) /\
    ((pgpState u1 = pgpState u /\ u' = setUpdatedAt (formatTime now) u1) \/
     (pgpState u1 ≠ pgpState u /\ (PGPRevision u1 < MaxPGPRevision)%Z /\
      u' = setUpdatedAt (formatTime now) (setPGPRevision (PGPRevision u1 + 1) u1)))).
  { intros u1. unfold finishChange. destruct (IncomingEncryptionPending u && _) eqn:E1; [done|].
    destruct (bool_decide (pgpState u1 = pgpState u)) eqn:E2; [|destruct (_ <=? _)%Z eqn:E3; [done|]];
      intros [= <-]; to_prop; (split; [|by auto]);
      intros Hp; rewrite Hp in E1; simpl in E1; by destruct (equalFold (PGPFingerprint u1) (PGPFingerprint u)). }
  unfold mutateOne, Changed. destruct (compactExpiredEnvelopes now u) as [c b]. cbn [fst].
  destruct (fn c) as [u1|x] eqn:Ef.
  - intros H%HF. exists u1. split; [by left|done].
  - destruct x; try done. destruct b; [|done]. intros H%HF. exists c. split; [by right|done].
Qed.

(** The sealings after dropping the expired ones are some of them. *)
Lemma compact_envelopes now u :
  (compactExpiredEnvelopes now u).1 = u \/
  (compactExpiredEnvelopes now u).1
    = setPGPWrappedEnvelopes (List.filter (fun e => negb (envExpired now e)) (PGPWrappedEnvelopes u)) u.
Proof. unfold compactExpiredEnvelopes. case_match; simpl; eauto. Qed.

Lemma compact_core now u :
  core (compactExpiredEnvelopes now u).1 = core u /\ links (compactExpiredEnvelopes now u).1 = links u.
Proof. destruct (compact_envelopes now u) as [->| ->]; done. Qed.

Lemma Changed_core now o id g fn u u1 : Mut now o id g fn -> Changed now fn u u1 -> core u1 = core u /\ links u1 = links u.
Proof.
  intros HM [Hf|[_ ->]]; [|apply compact_core].
  destruct (change_core _ _ _ _ _ _ _ _ HM Hf) as [-> ->]. apply compact_core.
Qed.

(** ** What no call changes *)

Definition identity (u : User) := (uID u, Username u, uCreatedAt u, NativeMailboxIssuer u, NativeMailboxSource u).

Lemma Direct_identity now all o u u' :
  Direct now all o u u' -> identity u' = identity u /\ NativeSendEpoch u' = NativeSendEpoch u /\ PGPRevision u' = PGPRevision u.
Proof.
  destruct 1; try done.
  - unfold bindLink in *. by case_match; simplify_eq.
  - unfold revokeLinkNotFrom in *. by case_match; simplify_eq.
  - unfold unlinkUser. by case_match.
  - by destruct (compact_envelopes now u) as [->| ->].
  - unfold repairUser. repeat case_match; done.
Qed.

Lemma Directs_identity now all o u u' :
  rtc (Direct now all o) u u' ->
  identity u' = identity u /\ NativeSendEpoch u' = NativeSendEpoch u /\ PGPRevision u' = PGPRevision u.
Proof. induction 1 as [|u v w H _ (IH1 & IH2 & IH3)]; [done|]. apply Direct_identity in H as (? & ? & ?). by repeat split; etransitivity. Qed.

Lemma core_identity u1 u : core u1 = core u -> identity u1 = identity u /\ NativeSendEpoch u1 = NativeSendEpoch u.
Proof. unfold core, identity. intros [= ? ? ? ? ? ? ?]. split; congruence. Qed.

Lemma Move_identity now all o u u' :
  MoveU now all o u u' -> identity u' = identity u /\ NativeSendEpoch u' = NativeSendEpoch u.
Proof.
  destruct 1 as [H|g fn HM _ _ H].
  - apply Directs_identity in H as (? & ? & _). done.
  - apply mutateOne_write in H as (u1 & HC & _ & H). destruct (Changed_core _ _ _ _ _ _ _ HM HC) as [Hc _].
    apply core_identity in Hc. destruct H as [[_ ->]|(_ & _ & ->)]; exact Hc.
Qed.

Lemma Move_id now all o u u' : MoveU now all o u u' -> uID u' = uID u.
Proof. intros [H _]%Move_identity. unfold identity in H. congruence. Qed.

(** ** The sealings of one account *)

Definition isRecovery (e : WrappedEnvelope) : bool := envSlot e =s? EnvelopeSlotRecovery.

(** Slots are distinct and writable ones, a recovery sealing never expires, and
    the cap holds; the keyring commit appends the recovery sealing beside a full
    set of the others. *)
Record slots_ok (l : list WrappedEnvelope) : Prop := {
  slots_nodup : NoDup (envSlot <$> l);
  slots_valid : Forall (fun e => validEnvelopeSlot (envSlot e) = true) l;
  slots_durable : Forall (fun e => envSlot e = EnvelopeSlotRecovery -> envExpiresAt e = []) l;
  slots_cap : (Z.of_nat (length (List.filter (fun e => negb (isRecovery e)) l)) <= maxWrappedEnvelopeSlots)%Z;
}.

Lemma slots_ok_nil : slots_ok [].
Proof. split; try constructor. done. Qed.

Lemma slots_ok_sublist l l' : l' `sublist_of` l -> slots_ok l -> slots_ok l'.
Proof.
  intros Hs [H1 H2 H3 H4]. split.
  - eapply sublist_NoDup; [exact H1|by apply fmap_sublist].
  - by eapply Forall_sub.
  - by eapply Forall_sub.
  - enough (length (List.filter (fun e => negb (isRecovery e)) l') <= length (List.filter (fun e => negb (isRecovery e)) l))%nat by lia.
    clear -Hs. induction Hs as [|e l1 l2 _ IH|e l1 l2 _ IH]; simpl; [done|..]; case_match; simpl; lia.
Qed.

Lemma slots_ok_filter p l : slots_ok l -> slots_ok (List.filter p l).
Proof. apply slots_ok_sublist, filter_sublist. Qed.

(** After dropping the expired sealings every one is live. *)
Lemma filter_full {A} (p : A -> bool) l : length (List.filter p l) = length l -> List.filter p l = l.
Proof.
  induction l as [|x l IH]; simpl; [done|]. destruct (p x); simpl; intros [= H]; [by rewrite IH|].
  pose proof (sublist_length _ _ (filter_sublist p l)). lia.
Qed.

Lemma filter_filter_same {A} (p : A -> bool) l : List.filter p (List.filter p l) = List.filter p l.
Proof. induction l as [|x l IH]; simpl; [done|]. destruct (p x) eqn:E; simpl; [by rewrite E, IH|done]. Qed.

Lemma compact_live now u :
  liveSlots now (PGPWrappedEnvelopes (compactExpiredEnvelopes now u).1)
  = Z.of_nat (length (PGPWrappedEnvelopes (compactExpiredEnvelopes now u).1)).
Proof.
  unfold liveSlots, compactExpiredEnvelopes. case_match eqn:E; cbn [fst].
  - apply Nat.eqb_eq in E. f_equal. done.
  - change (PGPWrappedEnvelopes (setPGPWrappedEnvelopes ?l _)) with l. f_equal. f_equal.
    apply filter_filter_same.
Qed.

Lemma putSlot_ok now slot rep fresh u u1 :
  putSlot now slot rep fresh u = Ok u1 -> slots_ok (PGPWrappedEnvelopes u) ->
  liveSlots now (PGPWrappedEnvelopes u) = Z.of_nat (length (PGPWrappedEnvelopes u)) ->
  validEnvelopeSlot slot = true -> envSlot fresh = slot -> (forall e, envSlot (rep e) = envSlot e \/ envSlot (rep e) = slot) ->
  (slot = EnvelopeSlotRecovery -> envExpiresAt fresh = [] /\ forall e, envExpiresAt (rep e) = []) ->
  slots_ok (PGPWrappedEnvelopes u1).
Proof.
  intros H [H1 H2 H3 H4] Hlive Hv Hf Hr Hexp. unfold putSlot in H. unbind H; subst u1.
  - change (PGPWrappedEnvelopes (setPGPWrappedEnvelopes ?l _)) with l.
    assert (Hmap : forall e, envSlot e = slot -> envSlot (rep e) = slot) by (intros e He; destruct (Hr e); congruence).
    assert (Hat : forall x, find_first (fun e => envSlot e =s? slot) (PGPWrappedEnvelopes u) = Some x -> envSlot x = slot).
    { intros x [_ Hx]%find_first_Some. by to_prop. }
    split.
    + rewrite update_first_map; [done|]. intros x Hx%Hat. by rewrite Hmap, Hx.
    + apply Forall_forall. intros y [Hy|(x & Hx & ->)]%update_first_elem; [by apply (proj1 (Forall_forall _ _) H2)|].
      by rewrite Hmap by eauto.
    + apply Forall_forall. intros y [Hy|(x & Hx & ->)]%update_first_elem; [by apply (proj1 (Forall_forall _ _) H3)|].
      rewrite Hmap by eauto. intros Hs. by apply Hexp.
    + etransitivity; [|exact H4]. apply inj_le, Nat.eq_le_incl.
      clear -Hmap. induction (PGPWrappedEnvelopes u) as [|e l IH]; simpl; [done|].
      destruct (envSlot e =s? slot) eqn:E; to_prop; simpl.
      * unfold isRecovery. rewrite Hmap, E by done. by case_match.
      * case_match; simpl; by rewrite IH.
  - change (PGPWrappedEnvelopes (setPGPWrappedEnvelopes ?l _)) with l. to_prop.
    assert (Hn : forall e, e ∈ PGPWrappedEnvelopes u -> envSlot e ≠ slot).
    { intros e He. rewrite find_first_None in *. specialize (Heqo e He). by to_prop. }
    split.
    + rewrite fmap_app. apply NoDup_app. split; [done|]. split; [|apply NoDup_singleton].
      intros x (e & -> & He)%list_elem_of_fmap Hx. apply list_elem_of_singleton in Hx. by apply (Hn e He); rewrite Hx.
    + apply Forall_app. split; [done|]. repeat constructor. by rewrite Hf.
    + apply Forall_app. split; [done|]. repeat constructor. rewrite Hf. intros Hs. by apply Hexp.
    + rewrite List.filter_app, length_app. simpl.
      enough (length (List.filter (fun e => negb (isRecovery e)) (PGPWrappedEnvelopes u)) <= length (PGPWrappedEnvelopes u))%nat
        by (case_match; simpl; lia).
      apply sublist_length, filter_sublist.
Qed.

(** The commit of a keyring keeps the other sealings, or none, and appends the
    recovery sealing. *)
Lemma slots_ok_commit keep l e :
  slots_ok l -> envSlot e = EnvelopeSlotRecovery -> envExpiresAt e = [] ->
  slots_ok ((if (keep : bool) then List.filter (fun e => negb (isRecovery e)) l else []) ++ [e]).
Proof.
  intros Hl Hs He.
  assert (Hk : slots_ok (if keep then List.filter (fun e => negb (isRecovery e)) l else [])).
  { destruct keep; [by apply slots_ok_filter|apply slots_ok_nil]. }
  assert (Hn : forall x, x ∈ (if keep then List.filter (fun e => negb (isRecovery e)) l else []) -> envSlot x ≠ EnvelopeSlotRecovery).
  { intros x Hx. destruct keep; [|by apply elem_of_nil in Hx]. apply list_elem_of_In, filter_In in Hx as [_ Hx].
    unfold isRecovery in Hx. by to_prop. }
  destruct Hk as [H1 H2 H3 H4]. split.
  - rewrite fmap_app. apply NoDup_app. split; [done|]. split; [|apply NoDup_singleton].
    intros x (y & -> & Hy)%list_elem_of_fmap Hx. apply list_elem_of_singleton in Hx. apply (Hn y Hy). by rewrite Hx.
  - apply Forall_app. split; [done|]. repeat constructor. by rewrite Hs.
  - apply Forall_app. split; [done|]. by repeat constructor.
  - rewrite List.filter_app. simpl. assert (isRecovery e = true) as -> by (unfold isRecovery; by rewrite Hs).
    simpl. by rewrite app_nil_r.
Qed.

Lemma device_slot_not_recovery x : EnvelopeSlotDevicePrefix ++ x ≠ EnvelopeSlotRecovery.
Proof. intros H. by apply (f_equal head) in H. Qed.

Lemma Changed_slots now o id g fn u u1 :
  Mut now o id g fn -> Changed now fn u u1 -> slots_ok (PGPWrappedEnvelopes u) -> slots_ok (PGPWrappedEnvelopes u1).
Proof.
  intros HM HC Hu.
  assert (Hc : slots_ok (PGPWrappedEnvelopes (compactExpiredEnvelopes now u).1)).
  { destruct (compact_envelopes now u) as [->| ->]; [done|]. by apply slots_ok_filter. }
  destruct HC as [Hf|[_ ->]]; [|done]. pose proof (compact_live now u) as Hlive.
  set (c := (compactExpiredEnvelopes now u).1) in *. clearbody c.
  destruct HM; cbv beta in Hf;
    unfold confirmTOTP, spendCode, changePassword, storeServerIdentity, storeClientIdentity, dropSlot, reserveIncoming,
      deliver, commitRing in Hf; unbind Hf;
    try (eapply putSlot_ok in Hf; [exact Hf|done|done|try done..]); subst; try done;
    try apply slots_ok_nil; try (by apply slots_ok_filter); try (by left); try (by right);
    try (by repeat (case_match; try done; try apply slots_ok_nil));
    try (intros He; by apply device_slot_not_recovery in He);
    destruct (upCredential up);
    match goal with |- context [setPGPWrappedEnvelopes ?l _] => change (slots_ok l); by apply slots_ok_commit end.
Qed.

(** ** The accounts *)

Record user_ok (u : User) : Prop := {
  ok_epoch : (0 <= NativeSendEpoch u <= MaxUint64)%Z;
  ok_revision : (0 <= PGPRevision u <= MaxPGPRevision)%Z;
  ok_slots : slots_ok (PGPWrappedEnvelopes u);
}.

(** [f] is a key of the list: two accounts with a non-empty [f] differ in it. *)
Definition keyed (f : User -> gostr) (l : list User) : Prop :=
  forall i j u v, l !! i = Some u -> l !! j = Some v -> i ≠ j -> f u ≠ [] -> f u ≠ f v.

(** No two accounts share an ID, a username up to case, or a directory subject. *)
Record accounts_ok (l : list User) : Prop := {
  acc_ids : NoDup (uID <$> l);
  acc_names : NoDup ((fun u => normalizeUsername (Username u)) <$> l);
  acc_subs : keyed SSOSub l;
  acc_each : Forall user_ok l;
}.

Lemma Direct_slots now all o u u' : Direct now all o u u' -> slots_ok (PGPWrappedEnvelopes u) -> slots_ok (PGPWrappedEnvelopes u').
Proof.
  destruct 1; try done.
  - unfold bindLink in *. by case_match; simplify_eq.
  - unfold revokeLinkNotFrom in *. by case_match; simplify_eq.
  - unfold unlinkUser. by case_match.
  - destruct (compact_envelopes now u) as [->| ->]; [done|]. apply slots_ok_filter.
  - unfold repairUser. repeat case_match; done.
Qed.

Lemma Move_ok now all o u u' : MoveU now all o u u' -> user_ok u -> user_ok u'.
Proof.
  intros HM [H1 H2 H3]. destruct (Move_identity _ _ _ _ _ HM) as [_ He]. destruct HM as [H|g fn HM _ _ H].
  - destruct (Directs_identity _ _ _ _ _ H) as (_ & _ & Hr). split; [by rewrite He|by rewrite Hr|].
    clear -H H3. induction H as [|u v w H _ IH]; [done|]. apply IH. by eapply Direct_slots.
  - apply mutateOne_write in H as (u1 & HC & _ & H). pose proof (Changed_slots _ _ _ _ _ _ _ HM HC H3) as Hs.
    destruct (Changed_core _ _ _ _ _ _ _ HM HC) as [Hc _].
    assert (Hr : PGPRevision u1 = PGPRevision u) by (unfold core in Hc; congruence).
    destruct H as [[_ ->]|(_ & Hlt & ->)].
    + split; [by rewrite He|change (0 <= PGPRevision u1 <= MaxPGPRevision)%Z; lia|exact Hs].
    + split; [by rewrite He|change (0 <= PGPRevision u1 + 1 <= MaxPGPRevision)%Z; lia|exact Hs].
Qed.

(** ** Directory subjects *)

(** The account whose link a call may set. *)
Definition linkTarget (o : uop) : option gostr := match o with OLinkSSO _ id _ _ _ => Some id | _ => None end.

Definition SubMove (o : uop) (all : list User) (u u' : User) : Prop :=
  uID u' = uID u /\
  (SSOSub u' = SSOSub u \/ SSOSub u' = [] \/
   (linkTarget o = Some (uID u) /\ forall v, v ∈ all -> uID v ≠ uID u -> SSOSub v ≠ SSOSub u')).

Lemma Direct_sub now all o u u' : Direct now all o u u' -> SubMove o all u u'.
Proof.
  intros HD. split; [apply Direct_identity in HD as [HD _]; unfold identity in HD; congruence|].
  destruct HD; try (by left).
  - unfold bindLink in *. case_match; simplify_eq. by left.
  - unfold revokeLinkNotFrom in *. case_match; simplify_eq. by left.
  - destruct (decide (trimSpace sub = [])) as [E|E]; [right; by left|]. right; right. split; [done|].
    intros v Hv Hid. by apply H0.
  - unfold unlinkUser. case_match; [by left|]. right. by left.
  - destruct (compact_envelopes now u) as [->| ->]; by left.
  - unfold repairUser. repeat case_match; by left.
Qed.

Lemma Move_sub now all o u u' : MoveU now all o u u' -> SubMove o all u u'.
Proof.
  intros HM. split; [by eapply Move_id|]. destruct HM as [H|g fn HM _ _ H].
  - induction H as [|u v w H _ IH]; [by left|]. apply Direct_sub in H as [Hid H].
    rewrite Hid in IH. destruct IH as [IH|[IH|IH]]; [|by right; left|by right; right].
    rewrite IH. exact H.
  - left. apply mutateOne_write in H as (u1 & HC & _ & H). destruct (Changed_core _ _ _ _ _ _ _ HM HC) as [_ Hl].
    assert (SSOSub u1 = SSOSub u) by (unfold links in Hl; congruence). by destruct H as [[_ ->]|(_ & _ & ->)].
Qed.

Lemma NoDup_ids_ne l i j u v :
  NoDup (uID <$> l) -> l !! i = Some u -> l !! j = Some v -> i ≠ j -> uID u ≠ uID v.
Proof.
  intros Hn Hi Hj Hne E. apply Hne. eapply (NoDup_lookup _ i j (uID u) Hn); rewrite list_lookup_fmap.
  - by rewrite Hi.
  - by rewrite Hj, E.
Qed.

Lemma moves_keyed now o l l1 :
  Forall2 (MoveU now l o) l l1 -> NoDup (uID <$> l) -> keyed SSOSub l -> keyed SSOSub l1.
Proof.
  intros HF Hn Hk i j u' v' Hi Hj Hne Hu E.
  destruct (Forall2_lookup_r _ _ _ _ _ HF Hi) as (u & Hiu & HMu). destruct (Forall2_lookup_r _ _ _ _ _ HF Hj) as (v & Hjv & HMv).
  pose proof (NoDup_ids_ne _ _ _ _ _ Hn Hiu Hjv Hne) as Hid.
  apply Move_sub in HMu as [_ [Hsu|[Hsu|[Htu Hsu]]]], HMv as [_ [Hsv|[Hsv|[Htv Hsv]]]]; try congruence.
  - eapply (Hk i j u v); congruence.
  - apply (Hsv u); [by eapply list_elem_of_lookup_2|done|congruence].
  - apply (Hsu v); [by eapply list_elem_of_lookup_2|congruence|congruence].
Qed.

(** ** Epochs *)

Lemma priorByID_lookup l : NoDup (uID <$> l) -> forall u, u ∈ l -> priorByID l !! uID u = Some u.
Proof.
  unfold priorByID. intros Hn.
  enough (forall m, (forall u, u ∈ l -> foldl (fun m u => <[uID u := u]> m) m l !! uID u = Some u) /\
            forall k, k ∉ uID <$> l -> foldl (fun m u => <[uID u := u]> m) m l !! k = m !! k) as HH by (intros u Hu; by apply (HH ∅)).
  induction l as [|w l IH]; intros m; simpl.
  - split; [intros u Hu; by apply elem_of_nil in Hu|done].
  - apply NoDup_cons in Hn as [Hw Hn]. specialize (IH Hn (<[uID w := w]> m)) as [IH1 IH2]. split.
    + intros u [->|Hu]%elem_of_cons; [|by apply IH1]. rewrite IH2 by done. by rewrite lookup_insert_eq.
    + intros k Hk. csimpl in Hk. apply not_elem_of_cons in Hk as [Hk1 Hk2]. rewrite IH2 by done. by rewrite lookup_insert_ne.
Qed.

Lemma priorByID_elem l k u : priorByID l !! k = Some u -> u ∈ l.
Proof.
  unfold priorByID. enough (forall m : gmap gostr User, foldl (fun m u => <[uID u := u]> m) m l !! k = Some u -> u ∈ l \/ m !! k = Some u) as HH.
  { intros H. by destruct (HH ∅ H). }
  induction l as [|w l IH]; intros m; simpl; [by right|]. intros [H|H]%IH; [left; by right|].
  destruct (decide (uID w = k)) as [<-|Hne]; [rewrite lookup_insert_eq in H; simplify_eq; left; left|].
  rewrite lookup_insert_ne in H by done. by right.
Qed.

Lemma priorByID_None l k : k ∉ uID <$> l -> priorByID l !! k = None.
Proof.
  unfold priorByID. intros Hk. enough (forall m : gmap gostr User, m !! k = None -> foldl (fun m u => <[uID u := u]> m) m l !! k = None) by auto.
  induction l as [|w l IH]; intros m Hm; simpl; [done|]. csimpl in Hk. apply not_elem_of_cons in Hk as [Hk1 Hk2].
  apply IH; [done|]. by rewrite lookup_insert_ne.
Qed.

(** What advancing does to an account: known accounts move to the next epoch
    exactly when their access changed, new ones start at zero. *)
Definition advanced (old : option User) (u u' : User) : Prop :=
  match old with
  | None => u' = setNativeSendEpoch 0 u
  | Some old => (nativeSendState u = nativeSendState old /\ u' = setNativeSendEpoch (NativeSendEpoch old) u) \/
                (nativeSendState u ≠ nativeSendState old /\ NativeSendEpoch old ≠ MaxUint64 /\
                 u' = setNativeSendEpoch (NativeSendEpoch old + 1) u)
  end.
Lemma advanceUser_spec prior u u' : advanceUser prior u = Ok u' <-> advanced (prior !! uID u) u u'.
Proof.
  unfold advanceUser, advanced. destruct (prior !! uID u) as [old|]; [|naive_solver congruence].
  destruct (bool_decide (nativeSendState u = nativeSendState old)) eqn:E1; to_prop.
  - split; [intros [= <-]; by left|]. by intros [[_ ->]|[? _]].
  - destruct (Z.eqb_spec (NativeSendEpoch old) MaxUint64); split; try done.
    + by intros [[? _]|(_ & ? & _)].
    + intros [= <-]. by right.
    + by intros [[? _]|(_ & _ & ->)].
Qed.

Lemma advanced_ok old u u' : (forall o, old = Some o -> user_ok o) -> advanced old u u' -> user_ok u -> user_ok u'.
Proof.
  unfold advanced. intros Ho HA [H1 H2 H3]. destruct old as [old|].
  - destruct (Ho old eq_refl) as [G1 _ _]. destruct HA as [[_ ->]|(_ & Hne & ->)]; split; try done.
    change (0 <= NativeSendEpoch old + 1 <= MaxUint64)%Z. lia.
  - subst u'. by split.
Qed.

Lemma advanced_frame old u u' : advanced old u u' ->
  exists n, u' = setNativeSendEpoch n u.
Proof. unfold advanced. destruct old; [intros [[_ ->]|(_ & _ & ->)]|intros ->]; by eexists. Qed.

(** ** Keeping the accounts well formed *)

(** The UUID a creating call drew is new. *)
Definition drawsFresh (o : uop) (l : list User) : Prop :=
  match o with
  | OCreate _ (Some id) _ _ _ => id ∉ uID <$> l
  | OCreateSSO (Some uuid) _ [] _ _ _ _ _ _ _ => uuid ∉ uID <$> l
  | _ => True
  end.

Lemma createScan_None id un sub iss p c l :
  createScan id un sub iss p c l = None ->
  forall u, u ∈ l -> (id ≠ [] -> uID u ≠ id) /\ (sub ≠ [] -> SSOSub u ≠ sub) /\ normalizeUsername (Username u) ≠ normalizeUsername un.
Proof.
  induction l as [|w l IH]; simpl; intros H u Hu; [by apply elem_of_nil in Hu|].
  destruct (negb (id =s? []) && (uID w =s? id)) eqn:E1; [done|].
  destruct (negb (sub =s? []) && (SSOSub w =s? sub)) eqn:E2; [done|].
  destruct (normalizeUsername (Username w) =s? normalizeUsername un) eqn:E3; [done|].
  apply elem_of_cons in Hu as [->|Hu]; [|by apply IH].
  apply andb_false_iff in E1, E2. rewrite !negb_false_iff in *. to_prop.
  split; [|split]; [intros Hid|intros Hs|done]; [destruct E1|destruct E2]; by to_prop.
Qed.

Lemma Created_new now l o u :
  Created now l o u -> drawsFresh o l ->
  (uID u ∉ (uID <$> l)) /\ (normalizeUsername (Username u) ∉ ((fun u => normalizeUsername (Username u)) <$> l)) /\
  (SSOSub u ≠ [] -> forall v, v ∈ l -> SSOSub v ≠ SSOSub u) /\ user_ok u.
Proof.
  assert (Hz : forall n, (0 <= 0 <= n)%Z <-> (0 <= n)%Z) by lia.
  destruct 1 as [k id un pw role cred _ _ _ Hnames|uuid c id id' un role sub su em iss p source _ Hscan Hid Huuid _ _];
    intros Hfresh.
  - split; [done|]. split.
    { intros (v & E & Hv)%list_elem_of_fmap. by apply (Hnames v Hv). }
    split; [done|]. split; [by vm_compute|by vm_compute|apply slots_ok_nil].
  - pose proof (createScan_None _ _ _ _ _ _ _ Hscan) as HN. split; [|split; [|split]].
    + change (id' ∉ uID <$> l). destruct (decide (id = [])) as [->|Hne].
      * destruct (Huuid eq_refl) as [x ->]. rewrite bool_decide_eq_true_2 in Hid by done. by subst id'.
      * rewrite bool_decide_eq_false_2 in Hid by done. subst id'.
        intros (v & E & Hv)%list_elem_of_fmap. destruct (HN v Hv) as (N1 & N2 & N3); (by apply N1) || (by apply N2) || (by apply N3).
    + intros (v & E & Hv)%list_elem_of_fmap. destruct (HN v Hv) as (N1 & N2 & N3); (by apply N1) || (by apply N2) || (by apply N3).
    + intros Hs v Hv. destruct (HN v Hv) as (N1 & N2 & N3); (by apply N1) || (by apply N2) || (by apply N3).
    + split; [by vm_compute|by vm_compute|apply slots_ok_nil].
Qed.

Lemma advance_same_key {B} (g : User -> B) prior l l' :
  (forall n u, g (setNativeSendEpoch n u) = g u) -> advanceUsers prior l = Ok l' -> g <$> l' = g <$> l.
Proof.
  intros Hg H%advanceUsers_Forall2. induction H as [|u u' l l' Hu _ IH]; [done|]. csimpl. rewrite IH. f_equal.
  apply advanceUser_spec, advanced_frame in Hu as [n ->]. apply Hg.
Qed.

Lemma moves_same_ids now o all l l1 : Forall2 (MoveU now all o) l l1 -> uID <$> l1 = uID <$> l.
Proof. induction 1 as [|u u' l l1 Hu _ IH]; [done|]. csimpl. rewrite IH. f_equal. by eapply Move_id. Qed.

Lemma moves_ok now o all l l1 : Forall2 (MoveU now all o) l l1 -> Forall user_ok l -> Forall user_ok l1.
Proof. induction 1; inversion 1; subst; constructor; eauto using Move_ok. Qed.

Lemma moves_same_names now o all l l1 : Forall2 (MoveU now all o) l l1 -> Username <$> l1 = Username <$> l.
Proof.
  induction 1 as [|u u' l l1 Hu _ IH]; [done|]. csimpl. rewrite IH. f_equal. apply Move_identity in Hu as [Hu _].
  unfold identity in Hu. congruence.
Qed.

Lemma keyed_app f l u :
  keyed f l -> (f u ≠ [] -> forall v, v ∈ l -> f v ≠ f u) -> keyed f (l ++ [u]).
Proof.
  intros Hk Hu i j a b Ha Hb Hne Hfa E.
  apply lookup_app_Some in Ha as [Ha|[Hi Ha]], Hb as [Hb|[Hj Hb]]; try apply list_lookup_singleton_Some in Ha as [Hi0 <-];
    try apply list_lookup_singleton_Some in Hb as [Hj0 <-].
  - by apply (Hk i j a b).
  - apply (Hu ltac:(congruence) a); [by eapply list_elem_of_lookup_2|done].
  - apply (Hu Hfa b); [by eapply list_elem_of_lookup_2|done].
  - lia.
Qed.

Lemma keyed_map f l l' : f <$> l' = f <$> l -> keyed f l -> keyed f l'.
Proof.
  intros Hm Hk i j a b Ha Hb Hne Hfa E.
  assert (G : forall i x, l' !! i = Some x -> exists y, l !! i = Some y /\ f y = f x).
  { intros n x Hx. assert (Hf : (f <$> l) !! n = Some (f x)) by (by rewrite <- Hm, list_lookup_fmap, Hx).
    rewrite list_lookup_fmap in Hf. destruct (l !! n) as [y|]; simplify_eq/=. eauto. }
  destruct (G _ _ Ha) as (x & Hx & Ex), (G _ _ Hb) as (y & Hy & Ey). apply (Hk i j x y); congruence.
Qed.

Lemma shape_accounts_ok now o f s' :
  Shape matchCode now o f s' -> accounts_ok (ufUsers f) -> drawsFresh o (ufUsers f) ->
  exists f', uDisk s' = FData f' /\ accounts_ok (ufUsers f').
Proof.
  intros [Hs|(l1 & new & v & l' & HF & Hnew & _ & HA & Hs)] [I1 I2 I3 I4] Hfresh; [by exists f|].
  exists (mkUsersFile v l'). split; [done|]. cbn [ufUsers].
  pose proof (moves_same_ids _ _ _ _ _ HF) as Eids. pose proof (moves_same_names _ _ _ _ _ HF) as Enames.
  assert (H1 : Forall user_ok l1).
  { by eapply moves_ok. }
  assert (Enames' : ((fun u => normalizeUsername (Username u)) <$> l1) = ((fun u => normalizeUsername (Username u)) <$> ufUsers f)).
  { apply (f_equal (fmap normalizeUsername)) in Enames. by rewrite <- !list_fmap_compose in Enames. }
  assert (H2 : NoDup (uID <$> (l1 ++ new)) /\ NoDup ((fun u => normalizeUsername (Username u)) <$> (l1 ++ new)) /\
               keyed SSOSub (l1 ++ new) /\ Forall user_ok (l1 ++ new)).
  { pose proof (moves_keyed _ _ _ _ HF I1 I3) as Hk.
    destruct Hnew as [->|(u & -> & Hu)]; [by rewrite app_nil_r, Eids, Enames'|].
    destruct (Created_new _ _ _ _ Hu Hfresh) as (C1 & C2 & C3 & C4).
    rewrite !fmap_app, Eids, Enames'. csimpl. repeat split.
    - apply NoDup_app. split; [done|]. split; [|apply NoDup_singleton]. intros x Hx ->%list_elem_of_singleton. done.
    - apply NoDup_app. split; [done|]. split; [|apply NoDup_singleton]. intros x Hx ->%list_elem_of_singleton. done.
    - apply keyed_app; [done|]. intros Hsub w Hw Hw'. apply list_elem_of_lookup in Hw as [i Hi].
      destruct (Forall2_lookup_r _ _ _ _ _ HF Hi) as (w0 & Hi0 & HM).
      apply Move_sub in HM as [_ [E|[E|[E _]]]]; [|congruence|by destruct Hu].
      apply (C3 Hsub w0); [by eapply list_elem_of_lookup_2|congruence].
    - apply Forall_app. split; [done|]. by constructor. }
  destruct H2 as (J1 & J2 & J3 & J4). split.
  - by rewrite (advance_same_key uID _ _ _ (fun _ _ => eq_refl) HA).
  - by rewrite (advance_same_key (fun u => normalizeUsername (Username u)) _ _ _ (fun _ _ => eq_refl) HA).
  - eapply keyed_map; [|exact J3]. exact (advance_same_key SSOSub _ _ _ (fun _ _ => eq_refl) HA).
  - apply advanceUsers_Forall2 in HA. clear -HA J4 I1 I4.
    induction HA as [|u u' l l' Hu _ IH]; inversion J4; subst; constructor; [|by apply IH].
    apply advanceUser_spec in Hu. eapply advanced_ok; [|exact Hu|done]. intros old Hold.
    apply (proj1 (Forall_forall _ _) I4). by apply priorByID_elem in Hold.
Qed.
End Invariant.
