(* ===== verification/UsersSafety.v ===== *)
(** * UsersSafety: what a run of calls on users.json guarantees

    Runs of calls, by any process under any outcome of the system calls, from a
    well-formed file: the file stays well formed, an active administrator
    remains, the counters fence prepared work, a second factor is not replayed,
    a key's custody is never weakened. *)

From S2P Require Import Prelude GoText FileStore GoCodec.
From S2P Require Import SendAs ContactsModel Contacts.
From S2P Require Import UsersModel UsersStore UsersAuth UsersOps UsersPGP UsersRun UsersShape UsersInvariant.

Section Safety.
Context {U : Unicode} {UP : UnicodeUpper} {GT : GoTime} {GF : GoTimeFormat} {PL : PasswordLib} {KD : KeyDerivation}.
Context {PG : OpenPGP} {KI : KeyInspection} {EJ : EnvelopeJSON}.
Context (matchCode : gostr -> list gostr -> option nat).

Abbreviation runU := (runUser matchCode).
Abbreviation Mut := (Mutates matchCode).
Abbreviation MoveU := (Move matchCode).

(** ** Runs *)

Definition call := (env * uop)%type.
Definition stepU (c : call) (s : ustate) : res uerr uans * ustate := runU c.2 c.1 s.
Abbreviation runAll tr s := (run_trace stepU tr s).

(** Every UUID drawn in the run is new when it is drawn. *)
Fixpoint freshRun (tr : list call) (s : ustate) : Prop :=
  match tr with
  | [] => True
  | c :: tr' => (forall f, uDisk s = FData f -> drawsFresh c.2 (ufUsers f)) /\ freshRun tr' (stepU c s).2
  end.

Definition acct (id : gostr) (f : usersFile) : option User := find_first (hasID id) (ufUsers f).
(** The account with an ID in the file as it is. *)
Definition account (id : gostr) (s : ustate) : option User :=
  match uDisk s with FData f => acct id f | _ => None end.
(** A well-formed file. *)
Definition file_ok (s : ustate) : Prop := exists f, uDisk s = FData f /\ accounts_ok (ufUsers f).

Lemma run_cons c tr s : (runAll (c :: tr) s).2 = (runAll tr (stepU c s).2).2.
Proof. simpl. destruct (stepU c s) as [a s']. simpl. by destruct (runAll tr s'). Qed.

Lemma run_cons_log c tr s : (runAll (c :: tr) s).1 = (c, (stepU c s).1) :: (runAll tr (stepU c s).2).1.
Proof. simpl. destruct (stepU c s) as [a s']. simpl. by destruct (runAll tr s'). Qed.

Lemma run_app tr1 tr2 s : (runAll (tr1 ++ tr2) s).2 = (runAll tr2 (runAll tr1 s).2).2.
Proof. revert s. induction tr1 as [|c tr1 IH]; intros s; [done|]. cbn [app]. by rewrite !run_cons, IH. Qed.

Lemma freshRun_app tr1 tr2 s : freshRun (tr1 ++ tr2) s -> freshRun tr1 s /\ freshRun tr2 (runAll tr1 s).2.
Proof.
  revert s. induction tr1 as [|c tr1 IH]; intros s; cbn [app freshRun]; [done|].
  intros [H1 H2]. apply IH in H2 as [H2 H3]. rewrite run_cons. done.
Qed.

Lemma file_ok_step c s : file_ok s -> (forall f, uDisk s = FData f -> drawsFresh c.2 (ufUsers f)) -> file_ok (stepU c s).2.
Proof. intros (f & Hd & Hok) Hf. eapply shape_accounts_ok; [by apply runUser_shape|done|by apply Hf]. Qed.

Lemma file_ok_run tr s : file_ok s -> freshRun tr s -> file_ok (runAll tr s).2.
Proof.
  revert s. induction tr as [|c tr IH]; intros s Hs Hf; [done|]. rewrite run_cons. destruct Hf as [Hf1 Hf2].
  apply IH; [|done]. by apply file_ok_step.
Qed.

(** ** One account through one call *)

Lemma acct_unique l u : NoDup (uID <$> l) -> u ∈ l -> find_first (hasID (uID u)) l = Some u.
Proof.
  induction l as [|w l IH]; simpl; intros Hn Hu; [by apply elem_of_nil in Hu|].
  csimpl in Hn. apply NoDup_cons in Hn as [Hw Hn]. unfold hasID at 1.
  destruct (uID w =s? uID u) eqn:E; to_prop.
  - apply elem_of_cons in Hu as [->|Hu]; [done|]. destruct Hw. rewrite E. by apply list_elem_of_fmap_2.
  - apply elem_of_cons in Hu as [->|Hu]; [done|]. by apply IH.
Qed.

(** What one call does to the account [u] of the file [f]. *)
Definition AcctStep (now : Z) (l : list User) (o : uop) (u u' : User) : Prop :=
  u' = u \/ exists u1, MoveU now l o u u1 /\ advanced (Some u) u1 u'.

Lemma account_step c s f id u :
  uDisk s = FData f -> accounts_ok (ufUsers f) -> drawsFresh c.2 (ufUsers f) -> account id s = Some u ->
  exists u', account id (stepU c s).2 = Some u' /\ AcctStep (eNow c.1) (ufUsers f) c.2 u u' /\ user_ok u /\ uID u = id.
Proof.
  destruct c as [e o]. unfold stepU. cbn [fst snd]. intros Hd Hok Hfresh Hacc. unfold account in Hacc. rewrite Hd in Hacc. unfold acct in Hacc.
  destruct (hasID_first _ _ _ Hacc) as [Hin Hid].
  pose proof (proj1 (Forall_forall _ _) (acc_each _ Hok) _ Hin) as Huok.
  pose proof (runUser_shape matchCode o e s f Hd) as HS. pose proof (shape_accounts_ok _ _ _ _ _ HS Hok Hfresh) as (f2 & Hd2 & Hok2).
  destruct HS as [Hd'|(l1 & new & v & l' & HF & _ & _ & HA & Hd')].
  { exists u. unfold account. rewrite Hd'. split; [done|]. split; [by left|done]. }
  apply list_elem_of_lookup in Hin as [i Hi].
  destruct (Forall2_lookup_l _ _ _ _ _ HF Hi) as (u1 & Hi1 & HM).
  apply advanceUsers_Forall2 in HA as HA2.
  destruct (Forall2_lookup_l _ _ _ i u1 HA2) as (u' & Hi' & Hadv); [by apply lookup_app_l_Some|].
  apply advanceUser_spec in Hadv. rewrite (Move_id matchCode _ _ _ _ _ HM) in Hadv.
  rewrite (priorByID_lookup _ (acc_ids _ Hok)) in Hadv by (by eapply list_elem_of_lookup_2).
  exists u'. split; [|split; [right; by exists u1|done]].
  unfold account. rewrite Hd'. unfold acct. cbn [ufUsers]. assert (f2 = mkUsersFile v l') as -> by congruence.
  assert (Hid' : uID u' = id).
  { apply advanced_frame in Hadv as [n ->]. change (uID u1 = id). rewrite <- Hid. by eapply Move_id. }
  rewrite <- Hid'. apply acct_unique; [apply Hok2|by eapply list_elem_of_lookup_2].
Qed.

(** Induction over a run, for a relation on the states of one account. *)
Lemma account_run (R : User -> User -> Prop) (good : call -> Prop) id tr s u :
  (forall u, R u u) -> (forall u v w, R u v -> R v w -> R u w) ->
  (forall c l v v', good c -> uID v = id -> user_ok v -> AcctStep (eNow c.1) l c.2 v v' -> R v v') ->
  file_ok s -> freshRun tr s -> Forall good tr -> account id s = Some u ->
  exists u', account id (runAll tr s).2 = Some u' /\ R u u'.
Proof.
  intros Hrefl Htrans Hstep. revert s u. induction tr as [|c tr IH]; intros s u Hs Hf Hg Ha; [by exists u|].
  destruct Hf as [Hf1 Hf2]. apply Forall_cons in Hg as [Hg1 Hg2]. destruct Hs as (f & Hd & Hok).
  destruct (account_step c s f id u Hd Hok (Hf1 f Hd) Ha) as (v & Hv & HS & Huok & Hid).
  assert (Hs' : file_ok (stepU c s).2).
  { eapply shape_accounts_ok; [by apply runUser_shape|done|by apply Hf1]. }
  destruct (IH _ v Hs' Hf2 Hg2 Hv) as (u' & Hu' & HR). exists u'. rewrite run_cons. split; [done|].
  eapply Htrans; [|exact HR]. by eapply Hstep.
Qed.

(** (C10) users.json stays well formed: whatever calls the processes make, in
    any order and with any outcome of locks, reads and writes, no two accounts
    share an ID, a username up to case, or a directory subject; each account's
    counters stay within their machine types, its sealings have distinct,
    writable slots within the cap, and its recovery sealing does not expire;
    and no account is ever lost: every ID of the file is there at the end. *)
Theorem accounts_invariant (tr : list call) (s : ustate) :
  file_ok s -> freshRun tr s ->
  file_ok (runAll tr s).2 /\ forall id, is_Some (account id s) -> is_Some (account id (runAll tr s).2).
Proof.
  intros Hs Hf. split; [by apply file_ok_run|]. intros id [u Hu].
  destruct (account_run (fun _ _ => True) (fun _ => True) id tr s u) as (u' & Hu' & _); try done. by apply Forall_true.
Qed.

(** ** The counters *)

Lemma advanced_epoch u u1 u' : NativeSendEpoch u1 = NativeSendEpoch u -> advanced (Some u) u1 u' ->
  (NativeSendEpoch u' = NativeSendEpoch u /\ nativeSendState u' = nativeSendState u) \/
  NativeSendEpoch u' = (NativeSendEpoch u + 1)%Z.
Proof. intros _ [[E ->]|(_ & _ & ->)]; [left; by split|by right]. Qed.

(** (C5) The access epoch fences prepared work: along any run it never
    decreases, and while it stands still nothing the epoch covers (activity,
    role, credential, second factor, directory link) has changed, not even
    there and back: a deactivation followed by a reactivation shows. *)
Theorem access_epoch_fences (tr1 tr2 : list call) (s : ustate) (id : gostr) (u : User) :
  file_ok s -> freshRun (tr1 ++ tr2) s -> account id s = Some u ->
  exists w u', account id (runAll tr1 s).2 = Some w /\ account id (runAll (tr1 ++ tr2) s).2 = Some u' /\
    (NativeSendEpoch u <= NativeSendEpoch w <= NativeSendEpoch u')%Z /\
    (NativeSendEpoch u' = NativeSendEpoch u -> nativeSendState w = nativeSendState u /\ nativeSendState u' = nativeSendState u).
Proof.
  set (R u u' := (NativeSendEpoch u <= NativeSendEpoch u')%Z /\
                 (NativeSendEpoch u' = NativeSendEpoch u -> nativeSendState u' = nativeSendState u)).
  intros Hs [Hf1 Hf2]%freshRun_app Ha.
  assert (HR : forall id tr s u, file_ok s -> freshRun tr s -> account id s = Some u ->
    exists u', account id (runAll tr s).2 = Some u' /\ R u u').
  { intros id' tr s0 u0 H1 H2. eapply (account_run R (fun _ => True)); try done.
    - intros a b c0 [A1 A2] [B1 B2]. split; [lia|]. intros E. rewrite B2, A2 by lia. done.
    - intros c0 l v v' _ _ _ [->|(u1 & HM & HA)]; [done|]. apply Move_identity in HM as [_ HM].
      apply (advanced_epoch _ _ _ HM) in HA as [[H3 H4]|H3]; split; try done; lia.
    - by apply Forall_true. }
  destruct (HR id tr1 s u Hs Hf1 Ha) as (w & Hw & W1 & W2).
  destruct (HR id tr2 _ w (file_ok_run tr1 s Hs Hf1) Hf2 Hw) as (u' & Hu' & V1 & V2).
  exists w, u'. rewrite run_app. split; [done|]. split; [done|]. split; [lia|].
  intros E. assert (nativeSendState w = nativeSendState u) as Ew by (apply W2; lia). split; [done|].
  rewrite V2 by lia. done.
Qed.

(** ** The PGP revision *)

Lemma recovery_kept now l : slots_ok l ->
  find_first isRecovery (List.filter (fun e => negb (envExpired now e)) l) = find_first isRecovery l.
Proof.
  intros Hl. pose proof (slots_durable _ Hl) as Hd. clear Hl. induction l as [|e l IH]; [done|].
  apply Forall_cons in Hd as [He Hd]. cbn [List.filter find_first].
  destruct (isRecovery e) eqn:E.
  - unfold isRecovery in E. to_prop. unfold envExpired. rewrite (He E). cbn [negb bool_decide]. simpl.
    unfold isRecovery at 1. by rewrite bool_decide_eq_true_2.
  - destruct (negb (envExpired now e)); simpl; rewrite ?E; by apply IH.
Qed.

Lemma Direct_pgp now all o u u' : user_ok u -> Direct now all o u u' -> pgpState u' = pgpState u.
Proof.
  intros Hu. destruct 1; try done.
  - unfold bindLink in *. by case_match; simplify_eq.
  - unfold revokeLinkNotFrom in *. by case_match; simplify_eq.
  - unfold unlinkUser. by case_match.
  - destruct (compact_envelopes now u) as [->| ->]; [done|]. unfold pgpState.
    f_equal. apply recovery_kept, Hu.
  - unfold repairUser. repeat case_match; done.
Qed.

Lemma Direct_ok now all o u u' : Direct now all o u u' -> user_ok u -> user_ok u'.
Proof. intros H. apply (Move_ok matchCode now all o). by apply MvDirect, rtc_once. Qed.

Lemma Move_pgp now all o u u' : user_ok u -> MoveU now all o u u' ->
  (PGPRevision u' = PGPRevision u /\ pgpState u' = pgpState u) \/ PGPRevision u' = (PGPRevision u + 1)%Z.
Proof.
  intros Hu HM. destruct HM as [H|g fn HM _ _ H].
  - left. split; [by apply Directs_identity in H as (_ & _ & ?)|].
    induction H as [|u v w H _ IH]; [done|]. rewrite IH by (by eapply Direct_ok). by eapply Direct_pgp.
  - apply mutateOne_write in H as (u1 & HC & _ & H). destruct (Changed_core matchCode _ _ _ _ _ _ _ HM HC) as [Hc _].
    assert (Hr : PGPRevision u1 = PGPRevision u) by (unfold core in Hc; congruence).
    destruct H as [[E ->]|(_ & _ & ->)]; [left|right; by rewrite <- Hr]. by rewrite <- Hr, <- E.
Qed.

(** The revision a call was prepared against, and the account it is for. *)
Definition preparedFrom (o : uop) : option (gostr * Z) :=
  match o with
  | OSetPassword _ id _ _ (Some r) | OSetDerivedAuth _ id _ _ _ _ _ (Some r) _ | OSetClientIdentity id _ _ _ _ _ _ (Some r)
  | ORewrap id _ _ (Some r) _ | OSetEnvelope id _ _ _ _ (Some r) | OSetRecovery id _ _ _ (Some r)
  | ODeleteEnvelope id _ (Some r) | OClearIdentity id (Some r) | OReserve id _ r => Some (id, r)
  | ODeliver id d => (fun r => (id, r)) <$> ddExpectedRevision d
  | OCommitRing _ id up => Some (id, upExpectedRevision up)
  | _ => None
  end.

Lemma guardPGP_revision r l u : guardPGP (Some r) l u = Ok tt -> PGPRevision u = r.
Proof. unfold guardPGP. intros H. repeat case_match; try done; to_prop; simplify_eq; by to_prop. Qed.

Lemma find_first_Forall2 {A} (p : A -> bool) (R : A -> A -> Prop) l l' :
  (forall x y, R x y -> p y = p x) -> Forall2 R l l' ->
  match find_first p l with
  | Some x => exists y, find_first p l' = Some y /\ R x y
  | None => find_first p l' = None
  end.
Proof.
  intros Hp. induction 1 as [|x y l l' Hxy _ IH]; simpl; [done|]. rewrite (Hp _ _ Hxy).
  destruct (p x); [by exists y|exact IH].
Qed.

(** A successful mutation found its account, under its guard, and answers with
    the account the file now holds. *)
Lemma mutateGuarded_ok now o id g fn e s f u' :
  Mut now o id g fn -> now = eNow e -> uDisk s = FData f -> (mutateGuarded id g fn e s).1 = Ok u' ->
  exists u, acct id f = Some u /\ g (ufUsers f) u = Ok tt /\ account id (mutateGuarded id g fn e s).2 = Some u' /\
    ((mutateOne now fn u = Ok (VSame u') /\ u' = u) \/
     exists v n, mutateOne now fn u = Ok (VWrite v) /\ u' = setNativeSendEpoch n v).
Proof.
  intros HM -> Hs. unfold mutateGuarded, acct.
  match goal with |- context [(takeLocks ;; f ← readFileUnlocked; @?k f) e s] => destruct (locked_read k f e s Hs) as [[x ->]| ->] end;
    [done|].
  rewrite asks_bind. destruct (find_first (hasID id) (ufUsers f)) as [u|] eqn:Ef; [|done].
  rewrite lift_bind. destruct (g (ufUsers f) u) as [[]|] eqn:Eg; [|done].
  rewrite lift_bind. destruct (mutateOne (eNow e) fn u) as [v|] eqn:Em; [|done].
  intros H. exists u. split; [done|]. split; [done|]. destruct v as [v|v].
  - assert (Hv : hasID id v = true).
    { unfold hasID. apply bool_decide_eq_true. destruct (hasID_first _ _ _ Ef) as [_ <-].
      eapply (Move_id matchCode (eNow e) (ufUsers f) o). destruct (hasID_first _ _ _ Ef) as [_ Hid].
      eapply MvMutate; rewrite ?Hid; done. }
    unfold mbind, UM_bind in H |- *.
    match type of H with context [writeFileUnlocked ?F e s] => pose proof (write_run F f e s Hs) as HW;
      destruct (writeFileUnlocked F e s) as [[f'|x] s'] end; [|done].
    cbn [fst snd ufUsers] in HW. destruct HW as (ver & l' & HA & -> & Hd). cbn [ufUsers] in *.
    apply advanceUsers_Forall2 in HA. eapply (find_first_Forall2 (hasID id)) in HA.
    2:{ intros x y Hxy%advanceUser_frame. rewrite Hxy. done. }
    rewrite (find_first_update _ _ _ u Ef Hv) in HA. destruct HA as (y & Hy & Hyv).
    rewrite Hy in H |- *. injection H as <-. split.
    + unfold account. cbn [snd mret UM_ret]. rewrite Hd. exact Hy.
    + right. exists v, (NativeSendEpoch y). split; [done|]. by apply advanceUser_frame in Hyv.
  - assert (v = u) as ->.
    { clear -Em. unfold mutateOne in Em. unfold compactExpiredEnvelopes in Em. unfold finishChange in Em.
      repeat case_match; by simplify_eq. }
    injection H as <-. split; [|by left]. unfold account. cbn [snd mret UM_ret]. by rewrite Hs.
Qed.

Lemma prepared_checked c s f id r a :
  uDisk s = FData f -> preparedFrom c.2 = Some (id, r) -> (stepU c s).1 = Ok a -> exists u, acct id f = Some u /\ PGPRevision u = r.
Proof.
  destruct c as [e o]. unfold stepU. cbn [fst snd]. intros Hd Hp Ha.
  assert (Hm : isMutation o = true) by (by destruct o).
  destruct (runUser_mutates matchCode o e s Hm) as [[x Hx]|(id' & g & fn & k & HM & Hk & Hrun)]; [by rewrite Hx in Ha|].
  rewrite Hrun in Ha. cbn [fst] in Ha. destruct (proj1 Hk _ _ Ha) as [[u' Hu']|(_ & _ & ? & ? & ->)]; [|done].
  destruct (mutateGuarded_ok _ _ _ _ _ _ _ _ _ HM eq_refl Hd Hu') as (u & Hacc & Hg & _ & Hone).
  destruct HM; cbn [preparedFrom] in Hp; try done;
    repeat match goal with H : match ?x with _ => _ end = Some _ |- _ => destruct x; [|done] end;
    try (apply fmap_Some in Hp as (r' & Hr' & Hp); rewrite Hr' in Hg);
    simplify_eq; exists u; (split; [done|]); try by eapply guardPGP_revision.
  unfold mutateOne in Hone. destruct (compactExpiredEnvelopes (eNow e) u) as [c b] eqn:Ec.
  assert (PGPRevision c = PGPRevision u) as <-.
  { replace c with (compactExpiredEnvelopes (eNow e) u).1 by (by rewrite Ec). by destruct (compact_envelopes (eNow e) u) as [->| ->]. }
  unfold reserveIncoming in Hone. destruct (negb (PGPRevision c =? r)%Z) eqn:E; [by destruct Hone as [[? ?]|(? & ? & ? & ?)]|]. by to_prop.
Qed.

(** An update prepared from a snapshot is applied only to the material of
    that snapshot: if a call carries the PGP revision of an earlier state of the
    account and succeeds, the account's identity, keyring, recovery sealing and
    credential are still those of the snapshot, whatever ran in between; so of
    two updates prepared from one revision, the second is refused once the first
    has changed anything. *)
Lemma stale_update_refused (tr : list call) (c : call) (s : ustate) (id : gostr) (u : User) (a : uans) :
  file_ok s -> freshRun tr s -> account id s = Some u ->
  preparedFrom c.2 = Some (id, PGPRevision u) -> (stepU c (runAll tr s).2).1 = Ok a ->
  exists w, account id (runAll tr s).2 = Some w /\ PGPRevision w = PGPRevision u /\ pgpState w = pgpState u.
Proof.
  set (R u u' := (PGPRevision u <= PGPRevision u')%Z /\ (PGPRevision u' = PGPRevision u -> pgpState u' = pgpState u)).
  intros Hs Hf Ha Hp Hok.
  assert (HR : exists w, account id (runAll tr s).2 = Some w /\ R u w).
  { eapply (account_run R (fun _ => True)); try done.
    - intros x y z [A1 A2] [B1 B2]. split; [lia|]. intros E. rewrite B2, A2 by lia. done.
    - intros c0 l v v' _ _ Hv [->|(u1 & HM & HA)]; [done|]. apply advanced_frame in HA as [n ->].
      change (R v u1). apply Move_pgp in HM as [[H1 H2]|H1]; [split; [lia|done]|split; lia|done].
    - by apply Forall_true. }
  destruct HR as (w & Hw & _ & W2). exists w. split; [done|].
  destruct (file_ok_run tr s Hs Hf) as (f & Hd & _).
  destruct (prepared_checked _ _ _ _ _ _ Hd Hp Hok) as (w' & Hw' & Hr).
  unfold account in Hw. rewrite Hd in Hw. simplify_eq. split; [done|by apply W2].
Qed.

(** ** Time steps of the second factor *)

Lemma Changed_step now o id g fn u u1 :
  Mut now o id g fn -> Changed now fn u u1 ->
  LastUsedTOTPStep u1 = LastUsedTOTPStep u \/ exists n, o = OSetTOTPStep id n /\ (LastUsedTOTPStep u < n)%Z /\ LastUsedTOTPStep u1 = n.
Proof.
  assert (Hc : LastUsedTOTPStep (compactExpiredEnvelopes now u).1 = LastUsedTOTPStep u).
  { by destruct (compact_envelopes now u) as [->| ->]. }
  intros HM [Hf|[_ ->]]; [|by left]. rewrite <- Hc. set (c := (compactExpiredEnvelopes now u).1) in *. clearbody c. clear Hc.
  open_change HM Hf; try (by left); try (by repeat (case_match; try by left)). to_prop. right. by eexists.
Qed.

Lemma Direct_step now all o u u' : Direct now all o u u' ->
  LastUsedTOTPStep u' = LastUsedTOTPStep u /\ RecoveryCodesHash u' = RecoveryCodesHash u.
Proof.
  destruct 1; try done.
  - unfold bindLink in *. by case_match; simplify_eq.
  - unfold revokeLinkNotFrom in *. by case_match; simplify_eq.
  - unfold unlinkUser. by case_match.
  - by destruct (compact_envelopes now u) as [->| ->].
  - unfold repairUser. repeat case_match; done.
Qed.

Lemma Move_step now all o u u' : MoveU now all o u u' ->
  LastUsedTOTPStep u' = LastUsedTOTPStep u \/
  exists n, o = OSetTOTPStep (uID u) n /\ (LastUsedTOTPStep u < n)%Z /\ LastUsedTOTPStep u' = n.
Proof.
  destruct 1 as [H|g fn HM _ _ H].
  - left. induction H as [|u v w H _ IH]; [done|]. rewrite IH. by apply Direct_step in H as [H _].
  - apply mutateOne_write in H as (u1 & HC & _ & H). apply (Changed_step _ _ _ _ _ _ _ HM) in HC.
    assert (LastUsedTOTPStep u' = LastUsedTOTPStep u1) as -> by (by destruct H as [[_ ->]|(_ & _ & ->)]). done.
Qed.

(** The steps a run accepted for an account, in order. *)
Fixpoint acceptedSteps (id : gostr) (log : list (call * res uerr uans)) : list Z :=
  match log with
  | [] => []
  | ((_, OSetTOTPStep id' n), Ok _) :: log' => if id' =s? id then n :: acceptedSteps id log' else acceptedSteps id log'
  | _ :: log' => acceptedSteps id log'
  end.
Definition acceptedStep (id : gostr) (c : call) (r : res uerr uans) : option Z :=
  match c.2, r with OSetTOTPStep id' n, Ok _ => if id' =s? id then Some n else None | _, _ => None end.
Lemma acceptedSteps_cons id c r log :
  acceptedSteps id ((c, r) :: log) = match acceptedStep id c r with Some n => [n] | None => [] end ++ acceptedSteps id log.
Proof. destruct c as [e o], o; try done. unfold acceptedStep. simpl. destruct r; [|done]. by case_match. Qed.

(** A successful call through mutateGuarded, seen on the account. *)
Lemma stepU_ok c s f id n :
  uDisk s = FData f -> acceptedStep id c (stepU c s).1 = Some n ->
  exists u u', acct id f = Some u /\ account id (stepU c s).2 = Some u' /\ (LastUsedTOTPStep u < n)%Z /\ LastUsedTOTPStep u' = n.
Proof.
  destruct c as [e o]. unfold acceptedStep, stepU. cbn [fst snd]. intros Hd H.
  destruct o; try done. destruct (runU (OSetTOTPStep id0 step) e s).1 as [a|] eqn:Ha; [|done]. case_match; simplify_eq. to_prop. subst id0.
  destruct (runUser_mutates matchCode (OSetTOTPStep id n) e s eq_refl) as [[x Hx]|(id' & g & fn & k & HM & Hk & Hrun)]; [by rewrite Hx in Ha|].
  rewrite Hrun in Ha |- *. cbn [fst snd] in *. destruct (proj1 Hk _ _ Ha) as [[u' Hu']|(_ & _ & ? & ? & ?)]; [|done].
  destruct (mutateGuarded_ok _ _ _ _ _ _ _ _ _ HM eq_refl Hd Hu') as (u & Hacc & _ & Hacc' & Hone).
  inversion HM; subst. exists u, u'. split; [done|]. split; [done|].
  destruct Hone as [[Hone ->]|(v & m & Hone & ->)].
  - exfalso. unfold mutateOne in Hone. destruct (compactExpiredEnvelopes (eNow e) u) as [c b].
    destruct (n <=? LastUsedTOTPStep c)%Z; [done|]. unfold finishChange in Hone. by repeat case_match; simplify_eq.
  - apply mutateOne_write in Hone as (u1 & HC & _ & H). change (LastUsedTOTPStep (setNativeSendEpoch m v)) with (LastUsedTOTPStep v).
    assert (LastUsedTOTPStep v = LastUsedTOTPStep u1) as -> by (by destruct H as [[_ ->]|(_ & _ & ->)]).
    destruct HC as [HC|[HC _]]; cbv beta in HC; (destruct (n <=? _)%Z eqn:E; [done|]); [|done]. to_prop. simplify_eq.
    split; [|done]. by destruct (compact_envelopes (eNow e) u) as [E2|E2]; rewrite E2 in E.
Qed.

(** A one-time code is accepted once: over any run, whichever sign-in
    challenges the codes are presented to, the time steps accepted for an
    account strictly increase, so an accepted code and every older one is
    refused from then on. *)
Lemma totp_step_never_replayed (tr : list call) (s : ustate) (id : gostr) (u : User) :
  file_ok s -> freshRun tr s -> account id s = Some u ->
  StronglySorted Z.lt (LastUsedTOTPStep u :: acceptedSteps id (runAll tr s).1).
Proof.
  revert s u. induction tr as [|c tr IH]; intros s u Hs Hf Ha; [simpl; repeat constructor|].
  destruct Hf as [Hf1 Hf2]. destruct Hs as (f & Hd & Hok).
  destruct (account_step c s f id u Hd Hok (Hf1 f Hd) Ha) as (v & Hv & HS & _ & Hid).
  assert (Hs' : file_ok (stepU c s).2) by (eapply shape_accounts_ok; [by apply runUser_shape|done|by apply Hf1]).
  specialize (IH _ v Hs' Hf2 Hv). rewrite run_cons_log, acceptedSteps_cons.
  apply StronglySorted_inv in IH as [IH1 IH2].
  assert (Hle : (LastUsedTOTPStep u <= LastUsedTOTPStep v)%Z).
  { destruct HS as [->|(u1 & HM & HA)]; [done|]. apply advanced_frame in HA as [m ->].
    change (LastUsedTOTPStep u <= LastUsedTOTPStep u1)%Z. apply Move_step in HM as [->|(n & _ & ? & ->)]; lia. }
  destruct (acceptedStep id c (stepU c s).1) as [n|] eqn:En; cbn [app].
  - destruct (stepU_ok c s f id n Hd En) as (u0 & v0 & Hu0 & Hv0 & Hlt & Hn).
    unfold account in Ha. rewrite Hd in Ha. simplify_eq. constructor.
    + by constructor.
    + constructor; [lia|]. eapply Forall_impl; [exact IH2|]. intros x Hx. simpl in Hx. lia.
  - constructor; [done|]. eapply Forall_impl; [exact IH2|]. intros x Hx. simpl in Hx. lia.
Qed.

(** ** Recovery codes *)

Lemma compact_codes now u : RecoveryCodesHash (compactExpiredEnvelopes now u).1 = RecoveryCodesHash u.
Proof. by destruct (compact_envelopes now u) as [->| ->]. Qed.

(** The call stores new codes for the account. *)
Definition installsCodes (id : gostr) (o : uop) : bool :=
  match o with OEnableTOTP id' _ _ _ | OReplaceCodes id' _ => id' =s? id | _ => false end.

Lemma Changed_codes now o id g fn u u1 :
  Mut now o id g fn -> Changed now fn u u1 ->
  RecoveryCodesHash u1 = RecoveryCodesHash u \/ RecoveryCodesHash u1 = [] \/ installsCodes id o = true \/
  exists cand i, o = OConsumeCode id cand /\ matchCode cand (RecoveryCodesHash u) = Some i /\
    RecoveryCodesHash u1 = base.delete i (RecoveryCodesHash u).
Proof.
  rewrite <- (compact_codes now u). intros HM [Hf|[_ ->]]; [|by left].
  set (c := (compactExpiredEnvelopes now u).1) in *. clearbody c.
  open_change HM Hf; try (by left); try (by right; left); try (by repeat (case_match; try by left));
    try (right; right; left; simpl; by apply bool_decide_eq_true).
  right; right; right. by eexists _, _.
Qed.

Lemma Directs_codes now all o u u' : rtc (Direct now all o) u u' -> RecoveryCodesHash u' = RecoveryCodesHash u.
Proof. induction 1 as [|u v w H _ IH]; [done|]. rewrite IH. by apply Direct_step in H as [_ H]. Qed.

Lemma Move_codes now all o u u' : MoveU now all o u u' -> installsCodes (uID u) o = false ->
  RecoveryCodesHash u' `sublist_of` RecoveryCodesHash u.
Proof.
  destruct 1 as [H|g fn HM _ _ H]; intros Hi.
  - by rewrite (Directs_codes _ _ _ _ _ H).
  - apply mutateOne_write in H as (u1 & HC & _ & H). apply (Changed_codes _ _ _ _ _ _ _ HM) in HC.
    assert (RecoveryCodesHash u' = RecoveryCodesHash u1) as -> by (by destruct H as [[_ ->]|(_ & _ & ->)]).
    destruct HC as [->|[->|[HC|(cand & i & _ & _ & ->)]]]; [done|apply sublist_nil_l|congruence|apply sublist_delete].
Qed.

(** How many stored codes have a digest. *)
Definition occurrences (h : gostr) (l : list gostr) : Z := Z.of_nat (length (List.filter (fun x => x =s? h) l)).

Lemma occurrences_sublist h l l' : l' `sublist_of` l -> (occurrences h l' <= occurrences h l)%Z.
Proof.
  intros H. apply inj_le. induction H as [|x l1 l2 _ IH|x l1 l2 _ IH]; simpl; [done|..]; case_match; simpl; lia.
Qed.

Lemma occurrences_delete h l i : l !! i = Some h -> occurrences h l = (occurrences h (base.delete i l) + 1)%Z.
Proof.
  unfold occurrences. revert i. induction l as [|x l IH]; intros [|i] H; simplify_eq/=.
  - rewrite bool_decide_eq_true_2 by done. simpl. lia.
  - specialize (IH i H). case_match; simpl in *; lia.
Qed.

(** A successful redemption by the account [id] of a code whose digest is [h]. *)
Definition redeems (digest : gostr -> gostr) (id h : gostr) (c : call) (r : res uerr uans) : bool :=
  match c.2, r with
  | OConsumeCode id' cand, Ok (ACode (Some _)) => (id' =s? id) && (digest cand =s? h)
  | _, _ => false
  end.

Lemma redeems_ok digest c s f id h :
  (forall cand l i, matchCode cand l = Some i -> l !! i = Some (digest cand)) ->
  uDisk s = FData f -> redeems digest id h c (stepU c s).1 = true ->
  exists u u', acct id f = Some u /\ account id (stepU c s).2 = Some u' /\
    occurrences h (RecoveryCodesHash u) = (occurrences h (RecoveryCodesHash u') + 1)%Z.
Proof.
  intros Hlaw. destruct c as [e o]. unfold redeems, stepU. cbn [fst snd]. intros Hd H.
  destruct o; try done. destruct (runU (OConsumeCode id0 candidate) e s).1 as [a|] eqn:Ha; [|done].
  destruct a as [| | |[ru|]|]; try done. to_prop. subst id0 h.
  destruct (runUser_mutates matchCode (OConsumeCode id candidate) e s eq_refl) as [[x Hx]|(id' & g & fn & k & HM & Hk & Hrun)];
    [by rewrite Hx in Ha|].
  rewrite Hrun in Ha |- *. cbn [fst snd] in *. destruct (proj1 Hk _ _ Ha) as [[u' Hu']|(? & _)]; [|done].
  destruct (mutateGuarded_ok _ _ _ _ _ _ _ _ _ HM eq_refl Hd Hu') as (u & Hacc & _ & Hacc' & Hone).
  inversion HM; subst. exists u, u'. split; [done|]. split; [done|].
  destruct Hone as [[Hone ->]|(v & m & Hone & ->)].
  - exfalso. unfold mutateOne, spendCode in Hone. destruct (compactExpiredEnvelopes (eNow e) u) as [c b].
    destruct (matchCode _ _); [|done]. unfold finishChange in Hone. by repeat case_match; simplify_eq.
  - apply mutateOne_write in Hone as (u1 & HC & _ & H). change (RecoveryCodesHash (setNativeSendEpoch m v)) with (RecoveryCodesHash v).
    assert (RecoveryCodesHash v = RecoveryCodesHash u1) as -> by (by destruct H as [[_ ->]|(_ & _ & ->)]).
    rewrite <- (compact_codes (eNow e) u). destruct HC as [HC|[HC _]]; unfold spendCode in HC;
      (destruct (matchCode _ _) as [i|] eqn:Em; [|done]); [|done]. simplify_eq.
    apply occurrences_delete. by apply Hlaw.
Qed.

(** A recovery code signs in once: over any run in which no new codes are
    stored for the account, the sign-ins by codes with one digest are at most
    the stored codes with that digest, one for the distinct codes the server
    hands out. *)
Lemma recovery_code_single_use (digest : gostr -> gostr) (tr : list call) (s : ustate) (id h : gostr) (u : User) :
  (forall cand l i, matchCode cand l = Some i -> l !! i = Some (digest cand)) ->
  file_ok s -> freshRun tr s -> Forall (fun c => installsCodes id c.2 = false) tr -> account id s = Some u ->
  (count_log (redeems digest id h) (runAll tr s).1 <= occurrences h (RecoveryCodesHash u))%Z.
Proof.
  intros Hlaw. revert s u. induction tr as [|c tr IH]; intros s u Hs Hf Hg Ha; [unfold occurrences; simpl; lia|].
  destruct Hf as [Hf1 Hf2]. destruct Hs as (f & Hd & Hok). apply Forall_cons in Hg as [Hg1 Hg2].
  destruct (account_step c s f id u Hd Hok (Hf1 f Hd) Ha) as (v & Hv & HS & _ & Hid).
  assert (Hs' : file_ok (stepU c s).2) by (eapply shape_accounts_ok; [by apply runUser_shape|done|by apply Hf1]).
  specialize (IH _ v Hs' Hf2 Hg2 Hv). rewrite run_cons_log. cbn [count_log foldr].
  assert (Hle : (occurrences h (RecoveryCodesHash v) <= occurrences h (RecoveryCodesHash u))%Z).
  { destruct HS as [->|(u1 & HM & HA)]; [done|]. apply advanced_frame in HA as [m ->].
    apply occurrences_sublist. apply Move_codes in HM; [done|by rewrite Hid]. }
  destruct (redeems digest id h c (stepU c s).1) eqn:En.
  - destruct (redeems_ok _ _ _ _ _ _ Hlaw Hd En) as (u0 & v0 & Hu0 & Hv0 & Hlt).
    unfold account in Ha. rewrite Hd in Ha.
    assert (u0 = u) as -> by congruence. assert (v0 = v) as -> by congruence. unfold count_log in IH. lia.
  - unfold count_log in IH. lia.
Qed.
End Safety.
