(* ===== verification/UsersKeys.v ===== *)
(** * UsersKeys: custody of the OpenPGP identity over a run of calls

    A key the browser holds never becomes one the server can open, an identity a
    pending replacement depends on stays, and a converted account's keyring only
    grows: a retired key is not made active again. *)

From S2P Require Import Prelude GoText FileStore GoCodec.
From S2P Require Import SendAs ContactsModel Contacts.
From S2P Require Import UsersModel UsersStore UsersAuth UsersOps UsersPGP UsersRun UsersShape UsersInvariant UsersSafety.

Section Keys.
Context {U : Unicode} {UP : UnicodeUpper} {GT : GoTime} {GF : GoTimeFormat} {PL : PasswordLib} {KD : KeyDerivation}.
Context {PG : OpenPGP} {KI : KeyInspection} {EJ : EnvelopeJSON}.
Context (matchCode : gostr -> list gostr -> option nat).

Abbreviation Mut := (Mutates matchCode).
Abbreviation MoveU := (Move matchCode).
Abbreviation runAll tr s := (run_trace (stepU matchCode) tr s).
Abbreviation freshU := (freshRun matchCode).

(** The call removes the account's identity. *)
Definition clearsIdentity (id : gostr) (o : uop) : bool := match o with OClearIdentity id' _ => id' =s? id | _ => false end.
Definition releasesPending (id : gostr) (o : uop) : bool := match o with ORelease id' => id' =s? id | _ => false end.

(** ** Custody *)

(** What custody is read from, with the pending mark. *)
Definition custody (u : User) :=
  (PGPKeyProtection u, PGPPrivateKeyWrapped u, PGPPrivateKeyEnc u, PGPFingerprint u, IncomingEncryptionPending u, PGPKeyring u).

Lemma compact_custody now u : custody (compactExpiredEnvelopes now u).1 = custody u.
Proof. by destruct (compact_envelopes now u) as [->| ->]. Qed.

Lemma Direct_custody now all o u u' : Direct now all o u u' -> custody u' = custody u.
Proof.
  destruct 1; try done.
  - unfold bindLink in *. by case_match; simplify_eq.
  - unfold revokeLinkNotFrom in *. by case_match; simplify_eq.
  - unfold unlinkUser. by case_match.
  - apply compact_custody.
  - unfold repairUser. repeat case_match; done.
Qed.

Lemma Directs_custody now all o u u' : rtc (Direct now all o) u u' -> custody u' = custody u.
Proof. induction 1 as [|u v w H _ IH]; [done|]. rewrite IH. by eapply Direct_custody. Qed.

Lemma custody_protection u u' : custody u' = custody u -> protection u' = protection u.
Proof. unfold custody, protection. by intros [= -> -> -> _ _ _]. Qed.

Lemma protection_client u : PGPKeyProtection u = PGPProtectionClient -> protection u = PGPProtectionClient.
Proof. unfold protection. intros ->. by rewrite bool_decide_eq_true_2. Qed.

(** Over the change of a mutation, then over a move. *)
Definition held (u u' : User) : Prop :=
  protection u = PGPProtectionClient ->
  protection u' = PGPProtectionClient /\ (PGPPrivateKeyEnc u = [] -> PGPPrivateKeyEnc u' = []).

Lemma change_held now o id g fn c u1 :
  Mut now o id g fn -> clearsIdentity id o = false -> fn c = Ok u1 -> held c u1.
Proof.
  intros HM Hc Hf Hp. open_change HM Hf; try done;
    try (split; [apply protection_client; by repeat case_match|by repeat case_match]);
    simpl in Hc; to_prop; congruence.
Qed.

Lemma Move_held now all o u u' : MoveU now all o u u' -> clearsIdentity (uID u) o = false -> held u u'.
Proof.
  intros HM Hc. destruct HM as [H|g fn HM _ _ H].
  - apply Directs_custody in H. intros Hp. split; [by rewrite (custody_protection _ _ H)|].
    unfold custody in H. intros He. congruence.
  - apply mutateOne_write in H as (u1 & HC & _ & H). pose proof (compact_custody now u) as Hcc.
    set (c := (compactExpiredEnvelopes now u).1) in *.
    assert (Hh : held c u1).
    { destruct HC as [HC|[_ ->]]; [by eapply change_held|]. intros Hp. by split. }
    assert (Hu' : custody u' = custody u1) by (by destruct H as [[_ ->]|(_ & _ & ->)]).
    intros Hp. destruct Hh as [H1 H2]; [by rewrite (custody_protection _ _ Hcc)|].
    split; [by rewrite (custody_protection _ _ Hu')|]. unfold custody in Hu', Hcc. intros He.
    transitivity (PGPPrivateKeyEnc u1); [congruence|]. apply H2. congruence.
Qed.

Lemma advanced_custody o u1 u' : advanced o u1 u' -> custody u' = custody u1 /\ protection u' = protection u1.
Proof. by intros [n ->]%advanced_frame. Qed.

Lemma AcctStep_held c l u u' :
  AcctStep matchCode (eNow c.1) l c.2 u u' -> clearsIdentity (uID u) c.2 = false -> held u u'.
Proof.
  intros [->|(u1 & HM & HA)] Hc; [by split|]. apply advanced_custody in HA as [H1 H2].
  intros Hp. destruct (Move_held _ _ _ _ _ HM Hc Hp) as [H3 H4]. rewrite H2. split; [done|].
  unfold custody in H1. intros He. apply H4 in He. congruence.
Qed.

(** (C9) Custody is never weakened: while nobody clears an account's identity,
    an identity whose private key the browser holds stays one, and once the
    server has no key it can open it never holds one again. *)
Theorem custody_never_downgraded (tr : list call) (s : ustate) (id : gostr) (u : User) :
  file_ok s -> freshU tr s -> Forall (fun c => clearsIdentity id c.2 = false) tr ->
  account id s = Some u -> protection u = PGPProtectionClient ->
  exists u', account id (runAll tr s).2 = Some u' /\ hasServerReadableKey u' = false /\
    protection u' = PGPProtectionClient /\ (PGPPrivateKeyEnc u = [] -> PGPPrivateKeyEnc u' = []).
Proof.
  intros Hs Hf Hg Ha Hp.
  destruct (account_run matchCode held (fun c => clearsIdentity id c.2 = false) id tr s u) as (u' & Hu' & HR); try done.
  - intros a b d H1 H2 Hpa. destruct (H1 Hpa) as [Hb Hb']. destruct (H2 Hb) as [Hd Hd']. auto.
  - intros c l v v' Hc Hid _ HS. eapply AcctStep_held; [done|by rewrite Hid].
  - exists u'. split; [done|]. destruct (HR Hp) as [H1 H2]. unfold hasServerReadableKey. by rewrite H1.
Qed.

(** ** A pending replacement pins the identity *)

Lemma change_pending now o id g fn c u1 :
  Mut now o id g fn -> releasesPending id o = false -> fn c = Ok u1 ->
  IncomingEncryptionPending c = true -> IncomingEncryptionPending u1 = true.
Proof.
  intros HM Hr Hf Hp. open_change HM Hf; try done; try (by repeat case_match); simpl in Hr; to_prop; congruence.
Qed.

Definition pinned (u u' : User) : Prop :=
  IncomingEncryptionPending u = true ->
  IncomingEncryptionPending u' = true /\ equalFold (PGPFingerprint u') (PGPFingerprint u) = true.

Lemma pinned_trans u v w : pinned u v -> pinned v w -> pinned u w.
Proof.
  intros H1 H2 Hp. destruct (H1 Hp) as [Hv Ev]. destruct (H2 Hv) as [Hw Ew]. split; [done|].
  rewrite equalFold_spec in *. congruence.
Qed.

Lemma AcctStep_pinned c l u u' :
  AcctStep matchCode (eNow c.1) l c.2 u u' -> releasesPending (uID u) c.2 = false -> pinned u u'.
Proof.
  intros [->|(u1 & HM & HA)] Hr Hp; [by rewrite equalFold_refl|]. apply advanced_custody in HA as [HA _].
  assert (Hgoal : IncomingEncryptionPending u1 = true /\ equalFold (PGPFingerprint u1) (PGPFingerprint u) = true).
  { destruct HM as [H|g fn HM _ _ H].
    - apply Directs_custody in H. unfold custody in H.
      replace (IncomingEncryptionPending u1) with (IncomingEncryptionPending u) by congruence.
      replace (PGPFingerprint u1) with (PGPFingerprint u) by congruence. by rewrite equalFold_refl.
    - apply mutateOne_write in H as (u2 & HC & Hfp & H).
      assert (Hcu : custody u1 = custody u2) by (by destruct H as [[_ ->]|(_ & _ & ->)]). unfold custody in Hcu.
      replace (IncomingEncryptionPending u1) with (IncomingEncryptionPending u2) by congruence.
      replace (PGPFingerprint u1) with (PGPFingerprint u2) by congruence. split; [|by apply Hfp].
      pose proof (compact_custody (eNow c.1) u) as Hcc. unfold custody in Hcc.
      destruct HC as [HC|[_ ->]]; [eapply change_pending; [done|done|exact HC|]|]; congruence. }
  unfold custody in HA. destruct Hgoal as [G1 G2]. split; [congruence|].
  by replace (PGPFingerprint u') with (PGPFingerprint u1) by congruence.
Qed.

(** (C26) While a replacement of stored mail still depends on an account's key
    and is not released, no call removes or replaces the identity: the
    fingerprint stays the same up to case, and the mark stays. *)
Theorem pending_mail_pins_identity (tr : list call) (s : ustate) (id : gostr) (u : User) :
  file_ok s -> freshU tr s -> Forall (fun c => releasesPending id c.2 = false) tr ->
  account id s = Some u -> IncomingEncryptionPending u = true ->
  exists u', account id (runAll tr s).2 = Some u' /\ IncomingEncryptionPending u' = true /\
    equalFold (PGPFingerprint u') (PGPFingerprint u) = true.
Proof.
  intros Hs Hf Hg Ha Hp.
  destruct (account_run matchCode pinned (fun c => releasesPending id c.2 = false) id tr s u) as (u' & Hu' & HR); try done.
  - intros v Hv. by rewrite equalFold_refl.
  - apply pinned_trans.
  - intros c l v v' Hc Hid _ HS. eapply AcctStep_pinned; [done|by rewrite Hid].
  - exists u'. split; [done|]. by apply HR.
Qed.

(** ** The keyring of a converted account *)

Lemma list_pairs {A} (P : list A -> Prop) : P [] -> (forall a, P [a]) -> (forall a b l, P l -> P (a :: b :: l)) -> forall l, P l.
Proof. intros H0 H1 H2 l. enough (P l /\ forall a, P (a :: l)) by tauto. induction l as [|x l [IH1 IH2]]; split; auto. Qed.

Lemma hexValue_ascii r v : hexValue r = Some v -> (0 <= r < 128)%Z.
Proof. unfold hexValue. intros H. repeat case_match; try done; to_prop; rewrite ?andb_true_iff, ?Z.leb_le in *; lia. Qed.

Lemma hexDecode_ascii s l : hexDecode s = Some l -> Forall (fun r => 0 <= r < 128)%Z s.
Proof.
  revert l. induction s as [|a|a b s IH] using list_pairs; intros l; simpl; [constructor|done|].
  destruct (hexValue a) eqn:Ea; [|done]. destruct (hexValue b) eqn:Eb; [|done]. simpl.
  destruct (hexDecode s) eqn:Es; [|done]. intros _. apply hexValue_ascii in Ea, Eb. eauto.
Qed.

Lemma toUpper_twice s : Forall (fun r => 0 <= r < 128)%Z s -> toUpper (toUpper s) = toUpper s.
Proof.
  induction 1 as [|r s Hr _ IH]; [done|]. unfold toUpper in *. csimpl. rewrite IH. f_equal.
  unfold upperRune, isLowerA. repeat case_match; to_prop; rewrite ?andb_true_iff, ?andb_false_iff, ?Z.leb_le, ?Z.leb_gt in *; lia.
Qed.

(** A normalized list of fingerprints is in upper case. *)
Lemma normalizeEach_upper vs l : normalizeEach vs = Some l -> Forall (fun fp => toUpper fp = fp) l.
Proof.
  revert l. induction vs as [|v vs IH]; intros l; simpl; [intros [= <-]; constructor|].
  case_match; [done|]. destruct (hexDecode v) eqn:E; [|done]. destruct (normalizeEach vs) as [l1|]; [|done]. simpl.
  intros [= <-]. constructor; [by eapply toUpper_twice, hexDecode_ascii|by apply IH].
Qed.

Lemma normalizeFingerprints_upper vs n l : normalizeFingerprints vs n = Ok l -> Forall (fun fp => toUpper fp = fp) l.
Proof.
  unfold normalizeFingerprints. case_match; [done|]. destruct (normalizeEach vs) as [l0|] eqn:E; [|done].
  case_match; [done|]. intros [= <-]. apply normalizeEach_upper in E. by rewrite sortStable_perm.
Qed.

Lemma checkUpdate_inventory now slot draw up c :
  checkUpdate now slot draw up = Ok c -> Forall (fun fp => toUpper fp = fp) (ckInventory c).
Proof. unfold checkUpdate. intros H. unbind H; subst c; by eapply normalizeFingerprints_upper. Qed.

Lemma containsFingerprints_spec inv req : containsFingerprints inv req = true -> forall fp, fp ∈ req -> toUpper fp ∈ inv.
Proof. unfold containsFingerprints. rewrite forallb_forall. intros H fp Hfp%list_elem_of_In. apply H in Hfp. by to_prop. Qed.

(** A converted account: its complete keyring, in upper case. *)
Definition ringed (u : User) (k : PGPKeyringState) : Prop :=
  PGPKeyring u = Some k /\ protection u = PGPProtectionClient /\ Forall (fun fp => toUpper fp = fp) (ringFingerprints k).

(** The active key is the one it was, or one the inventory did not hold. *)
Definition activeKeptOrNew (k : PGPKeyringState) (u u' : User) : Prop :=
  equalFold (PGPFingerprint u') (PGPFingerprint u) = true \/
  exists fp, equalFold (PGPFingerprint u') fp = true /\ toUpper fp ∉ ringFingerprints k.

Definition ringGrows (u u' : User) : Prop :=
  forall k, ringed u k -> exists k', ringed u' k' /\ ringFingerprints k ⊆ ringFingerprints k' /\ activeKeptOrNew k u u'.

Lemma ringGrows_same u u' : custody u' = custody u -> ringGrows u u'.
Proof.
  intros HE k (H1 & H2 & H3). pose proof (custody_protection _ _ HE) as Hp. unfold custody in HE.
  exists k. split; [|split; [done|]].
  - split; [congruence|]. split; [congruence|done].
  - left. replace (PGPFingerprint u') with (PGPFingerprint u) by congruence. apply equalFold_refl.
Qed.

Lemma ringGrows_trans u v w : ringGrows u v -> ringGrows v w -> ringGrows u w.
Proof.
  intros H1 H2 k Hk. destruct (H1 k Hk) as (k1 & Hk1 & Hs1 & A1). destruct (H2 k1 Hk1) as (k2 & Hk2 & Hs2 & A2).
  exists k2. split; [done|]. split; [by etransitivity|]. unfold activeKeptOrNew in *. rewrite !equalFold_spec in *.
  destruct A2 as [A2|(fp & A2 & Hfp)].
  - destruct A1 as [A1|(fp & A1 & Hfp)]; [left; congruence|]. right. exists fp. rewrite equalFold_spec in *. split; [congruence|done].
  - right. exists fp. split; [done|]. intros Hin. apply Hfp. by apply Hs1.
Qed.

Lemma require_ok b x : require b = Ok x -> b = true.
Proof. by destruct b. Qed.

(** gopenpgp writes fingerprints in hexadecimal. *)
Definition HexFingerprints : Prop := forall k, is_Some (hexDecode (getFingerprint k)).

Lemma fold_toUpper s : Forall (fun r => 0 <= r < 128)%Z s -> foldRune <$> toUpper s = foldRune <$> s.
Proof.
  induction 1 as [|r s Hr _ IH]; [done|]. unfold toUpper in *. csimpl. rewrite IH. f_equal.
  unfold foldRune, upperRune, isLowerA. repeat case_match; to_prop; rewrite ?andb_true_iff, ?andb_false_iff, ?Z.leb_le, ?Z.leb_gt in *; lia.
Qed.

Lemma checkUpdate_info now slot draw up c :
  HexFingerprints -> checkUpdate now slot draw up = Ok c ->
  Forall (fun r => 0 <= r < 128)%Z (infoFingerprint (ckInfo c)) /\ toUpper (infoFingerprint (ckInfo c)) ∈ ckPrimaries c.
Proof.
  intros Hex. unfold checkUpdate. intros H. unbind H; subst c; cbn [ckInfo ckPrimaries];
    repeat match goal with E : require _ = Ok _ |- _ => apply require_ok in E end; to_prop; (split; [|done]);
    match goal with E : given (inspectPublicKey ?n ?k) = Ok _ |- _ => unfold given, inspectPublicKey in E end;
    destruct (newKeyFromArmored _) as [key|]; try done; simpl in *; (destruct (isPrivate key); [done|]);
    (destruct (getArmoredPublicKey key); [|done]); simplify_eq/=; (destruct (Hex key) as [d Hd]; by eapply hexDecode_ascii).
Qed.

(** What a commit that succeeds has checked and stored. *)
Lemma commitRing_spec now up c u u1 k :
  commitRing now up c u = Ok u1 -> PGPKeyring u = Some k ->
  containsFingerprints (ckInventory c) (ringFingerprints k) = true /\
  (equalFold (toUpper (infoFingerprint (ckInfo c))) (PGPFingerprint u) = true \/
   toUpper (infoFingerprint (ckInfo c)) ∉ ringFingerprints k) /\
  (exists k', PGPKeyring u1 = Some k' /\ ringFingerprints k' = ckInventory c) /\
  PGPKeyProtection u1 = PGPProtectionClient /\ PGPFingerprint u1 = infoFingerprint (ckInfo c).
Proof.
  intros Hf H1. unfold commitRing in Hf. rewrite H1 in Hf. unbind Hf;
    repeat match goal with E : require _ = Ok _ |- _ => apply require_ok in E end;
    match goal with E : (_, _, _) = (_, _, _) |- _ => injection E as <- <- <- end;
    (split; [by to_prop|]);
    match type of Hf with context [mkKeyring ?a ?b ?x ?y] => set (ring := mkKeyring a b x y) in * end;
    (split; [|split; [exists ring|]; rewrite <- Hf; clear; repeat case_match; done]);
    (destruct (equalFold (toUpper (infoFingerprint (ckInfo c))) (PGPFingerprint u)); [by left|right]);
    cbn [negb andb] in E5; to_prop; tauto.
Qed.

Lemma commitRing_grows now slot draw up c u u1 :
  HexFingerprints -> checkUpdate now slot draw up = Ok c -> commitRing now up c u = Ok u1 -> ringGrows u u1.
Proof.
  intros Hex Hc Hf k (H1 & H2 & H3). destruct (checkUpdate_info _ _ _ _ _ Hex Hc) as [Hasc _].
  pose proof (checkUpdate_inventory _ _ _ _ _ Hc) as Hinv.
  destruct (commitRing_spec _ _ _ _ _ _ Hf H1) as (HS & HA & (k' & HK & HI) & HP & HF). exists k'.
  split; [split; [done|split; [by apply protection_client|by rewrite HI]]|]. split.
  - intros fp Hfp. rewrite HI, <- (proj1 (Forall_forall _ _) H3 fp Hfp). by eapply containsFingerprints_spec.
  - unfold activeKeptOrNew. rewrite HF. destruct HA as [HA|HA].
    + left. rewrite equalFold_spec in *. by rewrite <- HA, fold_toUpper.
    + right. exists (infoFingerprint (ckInfo c)). split; [apply equalFold_refl|done].
Qed.

(** Every other call keeps a ringed account's inventory and active key. *)
Definition ringView (u : User) := (PGPKeyring u, PGPFingerprint u).

Lemma ringGrows_view c u1 :
  ringView u1 = ringView c -> PGPKeyProtection u1 = PGPProtectionClient \/ protection u1 = protection c -> ringGrows c u1.
Proof.
  intros [= HK HF] HP k (H1 & H2 & H3). exists k. unfold ringed, activeKeptOrNew. rewrite HK, HF, equalFold_refl.
  split; [|by split; [|left]]. split; [done|]. split; [|done].
  destruct HP as [HP|HP]; [by apply protection_client|]. by rewrite HP.
Qed.

Lemma change_ring now o id g fn c u1 :
  HexFingerprints -> Mut now o id g fn -> clearsIdentity id o = false -> fn c = Ok u1 -> ringGrows c u1.
Proof.
  intros Hex HM Hc Hf.
  intros kr Hr. enough (ringGrows c u1) by auto. destruct Hr as (H1 & H2 & _).
  destruct HM; try (by eapply commitRing_grows); cbv beta in Hf;
    unfold confirmTOTP, spendCode, changePassword, storeServerIdentity, storeClientIdentity, dropSlot, reserveIncoming,
      deliver in Hf; rewrite ?H1, ?H2 in Hf; unbind Hf; try (apply putSlot_frame in Hf as [? Hf]); subst;
    try done; try (apply ringGrows_view; frame_done); try (by left); try (by right; frame_done);
    simpl in Hc; to_prop; congruence.
Qed.

Lemma AcctStep_ring c l u u' :
  HexFingerprints -> AcctStep matchCode (eNow c.1) l c.2 u u' -> clearsIdentity (uID u) c.2 = false -> ringGrows u u'.
Proof.
  intros Hex [->|(u1 & HM & HA)] Hc; [by apply ringGrows_same|].
  apply advanced_custody in HA as [HA _]. eapply ringGrows_trans; [|by apply ringGrows_same]. destruct HM as [H|g fn HM _ _ H].
  - apply ringGrows_same. by eapply Directs_custody.
  - apply mutateOne_write in H as (u2 & HC & _ & H).
    apply (ringGrows_trans _ u2); [|apply ringGrows_same; by destruct H as [[_ ->]|(_ & _ & ->)]].
    eapply (ringGrows_trans _ (compactExpiredEnvelopes (eNow c.1) u).1); [apply ringGrows_same, compact_custody|].
    destruct HC as [HC|[_ ->]]; [by eapply change_ring|by apply ringGrows_same].
Qed.

(** (C6) A converted account's keyring only grows: while nobody clears its
    identity, every fingerprint once in its inventory stays there along any run,
    and the active key at the end is the one it was or a key the inventory did
    not hold: a key that was retired is never made active again. *)
Theorem retired_key_never_returns (tr : list call) (s : ustate) (id : gostr) (u : User) (k : PGPKeyringState) :
  HexFingerprints -> file_ok s -> freshU tr s -> Forall (fun c => clearsIdentity id c.2 = false) tr ->
  account id s = Some u -> ringed u k ->
  exists u' k', account id (runAll tr s).2 = Some u' /\ ringed u' k' /\ ringFingerprints k ⊆ ringFingerprints k' /\
    activeKeptOrNew k u u'.
Proof.
  intros Hex Hs Hf Hg Ha Hk.
  destruct (account_run matchCode ringGrows (fun c => clearsIdentity id c.2 = false) id tr s u) as (u' & Hu' & HR); try done.
  - intros v. by apply ringGrows_same.
  - apply ringGrows_trans.
  - intros c l v v' Hc Hid _ HS. eapply AcctStep_ring; [done|done|by rewrite Hid].
  - destruct (HR k Hk) as (k' & ? & ? & ?). by exists u', k'.
Qed.
End Keys.
