(* ===== verification/UsersAccess.v ===== *)
(** * UsersAccess: who can still sign in

    An active administrator remains after any run of calls, a call that is
    refused leaves the file as it was, and re-deriving a password hash counts as
    a change of the credential. *)

From S2P Require Import Prelude GoText FileStore GoCodec.
From S2P Require Import SendAs ContactsModel Contacts.
From S2P Require Import UsersModel UsersStore UsersAuth UsersOps UsersPGP UsersRun UsersShape UsersInvariant UsersSafety.

Section Access.
Context {U : Unicode} {UP : UnicodeUpper} {GT : GoTime} {GF : GoTimeFormat} {PL : PasswordLib} {KD : KeyDerivation}.
Context {PG : OpenPGP} {KI : KeyInspection} {EJ : EnvelopeJSON}.
Context (matchCode : gostr -> list gostr -> option nat).

Abbreviation runU := (runUser matchCode).
Abbreviation Mut := (Mutates matchCode).
Abbreviation MoveU := (Move matchCode).
Abbreviation runAll tr s := (run_trace (stepU matchCode) tr s).

(** ** An active administrator *)

Definition isActiveAdmin (u : User) : Prop := uRole u = RoleAdmin /\ Active u = true.
Definition hasAdmin (s : ustate) : Prop := exists f, uDisk s = FData f /\ Exists isActiveAdmin (ufUsers f).

Lemma firstAdminFrom_in l best u :
  firstAdminFrom best l = Some u -> best = Some u \/ Exists isActiveAdmin l.
Proof.
  revert best. induction l as [|v l IH]; intros best; simpl; [by left|].
  assert (HE : Exists isActiveAdmin l -> Exists isActiveAdmin (v :: l)) by by right.
  destruct (negb (uRole v =s? RoleAdmin) || negb (Active v)) eqn:E; [intros H%IH; tauto|]. to_prop.
  intros _. right. by constructor.
Qed.

Lemma noAdmin_false l : noAdmin l = false -> Exists isActiveAdmin l.
Proof.
  unfold noAdmin, FirstAdminFrom. destruct (firstAdminFrom None l) eqn:E; [|done].
  apply firstAdminFrom_in in E as [?|?]; [done|]. done.
Qed.

(** Role and activity. *)
Definition authority (u : User) := (uRole u, Active u).
Lemma authority_admin u u' : authority u' = authority u -> isActiveAdmin u -> isActiveAdmin u'.
Proof. unfold isActiveAdmin. intros [= -> ->]. done. Qed.

Definition isBatch (o : uop) : bool := match o with ORepair _ _ _ _ _ | ORestore _ _ _ => true | _ => false end.

Lemma Direct_authority now all o u u' : Direct now all o u u' -> isBatch o = false -> authority u' = authority u.
Proof.
  destruct 1; try done; intros _.
  - unfold bindLink in *. by case_match; simplify_eq.
  - unfold revokeLinkNotFrom in *. by case_match; simplify_eq.
  - unfold unlinkUser. by case_match.
  - by destruct (compact_envelopes now u) as [->| ->].
Qed.

Lemma Directs_authority now all o u u' : rtc (Direct now all o) u u' -> isBatch o = false -> authority u' = authority u.
Proof. intros H Ho. induction H as [|u v w H _ IH]; [done|]. rewrite IH. by eapply Direct_authority. Qed.

(** The only changes that take the authority of an account ask for the guard. *)
Lemma change_admin now o id g fn c u1 :
  Mut now o id g fn -> fn c = Ok u1 -> isActiveAdmin c -> isActiveAdmin u1 \/ g = guardNotLastActiveAdmin.
Proof.
  intros HM Hf Hc.
  destruct HM; try (by right); cbv beta in Hf;
    unfold confirmTOTP, spendCode, changePassword, storeServerIdentity, storeClientIdentity, dropSlot, reserveIncoming,
      deliver, commitRing in Hf; unbind Hf; try (apply putSlot_frame in Hf as [? Hf]); subst;
    try (left; eapply authority_admin; [|exact Hc]; solve [frame_done]).
  - destruct (role =s? RoleAdmin) eqn:E; [|by right]. left. to_prop. destruct Hc as [_ Hc]. by split.
  - left. by destruct Hc.
Qed.

Lemma Mutates_one now o id g fn id' g' fn' : Mut now o id g fn -> Mut now o id' g' fn' -> id' = id.
Proof. intros H1 H2. destruct H1; by inversion H2. Qed.

Lemma Mutates_not_batch now o id g fn : Mut now o id g fn -> isBatch o = false.
Proof. by destruct 1. Qed.

Lemma Move_admin now all o u u' :
  MoveU now all o u u' -> isBatch o = false -> isActiveAdmin u ->
  isActiveAdmin u' \/
  exists fn v, Mut now o (uID u) guardNotLastActiveAdmin fn /\ v ∈ all /\ uID v ≠ uID u /\ isActiveAdmin v.
Proof.
  intros HM Ho Hu. destruct HM as [H|g fn HM _ Hg H].
  - left. eapply authority_admin; [|exact Hu]. by eapply Directs_authority.
  - apply mutateOne_write in H as (u1 & HC & _ & H).
    assert (HA : authority u' = authority u1) by (by destruct H as [[_ ->]|(_ & _ & ->)]).
    assert (Hcu : isActiveAdmin (compactExpiredEnvelopes now u).1).
    { eapply authority_admin; [|exact Hu]. by destruct (compact_envelopes now u) as [->| ->]. }
    assert (HE : isActiveAdmin u1 \/ g = guardNotLastActiveAdmin).
    { destruct HC as [HC|[_ ->]]; [by eapply change_admin|by left]. }
    destruct HE as [HE| ->]; [left; by eapply authority_admin|right]. exists fn. unfold guardNotLastActiveAdmin in Hg.
    destruct (negb (uRole u =s? RoleAdmin) || negb (Active u)) eqn:E.
    { destruct Hu as [H1 H2]. by rewrite H1, H2 in E. }
    destruct (existsb _ all) eqn:E2; [|done]. apply existsb_exists in E2 as (v & Hv & E2). to_prop.
    exists v. by split; [|split; [apply list_elem_of_In|]].
Qed.

Lemma advanced_admin prior l l' : advanceUsers prior l = Ok l' -> Exists isActiveAdmin l -> Exists isActiveAdmin l'.
Proof.
  intros HA%advanceUsers_Forall2 HE. apply Exists_exists in HE as (u & Hu & Hadm). apply list_elem_of_lookup in Hu as [i Hi].
  destruct (Forall2_lookup_l _ _ _ _ _ HA Hi) as (u' & Hi' & H). apply Exists_exists. exists u'.
  split; [by eapply list_elem_of_lookup_2|]. by rewrite (advanceUser_frame _ _ _ H).
Qed.

Lemma moves_admin now all o l :
  Forall2 (MoveU now all o) all l -> isBatch o = false -> Exists isActiveAdmin all -> Exists isActiveAdmin l.
Proof.
  intros HF Ho (u & Hu & Hadm)%Exists_exists.
  assert (HM : forall u, u ∈ all -> exists u', u' ∈ l /\ MoveU now all o u u').
  { intros v [i Hi]%list_elem_of_lookup. destruct (Forall2_lookup_l _ _ _ _ _ HF Hi) as (u' & Hi' & H).
    exists u'. split; [by eapply list_elem_of_lookup_2|done]. }
  destruct (HM u Hu) as (u' & Hu' & Hmove). destruct (Move_admin _ _ _ _ _ Hmove Ho Hadm) as [Hok|(fn & v & Hmut & Hv & Hid & Hvadm)].
  { apply Exists_exists. by exists u'. }
  destruct (HM v Hv) as (v' & Hv' & HmoveV). apply Exists_exists. exists v'. split; [done|].
  destruct HmoveV as [H|g' fn' HM' _ _ _]; [|by destruct Hid; eapply Mutates_one].
  eapply authority_admin; [|exact Hvadm]. by eapply Directs_authority.
Qed.

(** (C1) The server keeps an administrator: once some account is an active
    administrator, one is after any run of calls, whether they demote, deactivate,
    repair directory bindings or switch accounts off for a restore, in any order
    and with any outcome of the locks, reads and writes. *)
Theorem active_admin_survives (tr : list call) (s : ustate) : hasAdmin s -> hasAdmin (runAll tr s).2.
Proof.
  revert s. induction tr as [|[e o] tr IH]; intros s Hs; [done|]. rewrite run_cons. apply IH. clear IH.
  destruct Hs as (f & Hd & HE). unfold stepU. cbn [fst snd].
  destruct (runUser_shape matchCode o e s f Hd) as [H|(l & new & v & l' & HF & _ & HB & HA & H)]; [by exists f|].
  exists (mkUsersFile v l'). split; [done|]. eapply advanced_admin; [done|]. apply Exists_app. left.
  destruct (isBatch o) eqn:Eo; [|by eapply moves_admin]. apply noAdmin_false. by destruct o.
Qed.
(** ** Refused calls *)

(** An action that leaves the state alone, and one whose failures do, but for a
    replacement of the file whose directory could not be synced. *)
Definition quiet {A} (m : UM A) : Prop := forall e s, (m e s).2 = s.
Definition spares {A} (m : UM A) : Prop := forall e s x s',
  m e s = (Err x, s') -> uDisk s' = uDisk s \/ (x = ErrWrite /\ io_write (eIO e) = WriteSyncFailed).
Definition succeeds {A} (m : UM A) : Prop := forall e s, exists a, m e s = (Ok a, s).

Lemma quiet_spares {A} (m : UM A) : quiet m -> spares m.
Proof. intros H e s x s' E. left. specialize (H e s). rewrite E in H. simpl in H. by rewrite H. Qed.
Lemma spares_after {A B} (m : UM A) (k : A -> UM B) : quiet m -> (forall a, spares (k a)) -> spares (m ≫= k).
Proof.
  intros H1 H2 e s x s'. specialize (H1 e s). unfold mbind, UM_bind. destruct (m e s) as [[a|y] s1]; simpl in H1; subst.
  - apply H2.
  - intros [= _ <-]. by left.
Qed.
Lemma spares_before {A B} (m : UM A) (k : A -> UM B) : spares m -> (forall a, succeeds (k a)) -> spares (m ≫= k).
Proof.
  intros H1 H2 e s x s'. unfold mbind, UM_bind. destruct (m e s) as [[a|y] s1] eqn:E.
  - destruct (H2 a e s1) as [b ->]. done.
  - intros [= <- <-]. by eapply H1.
Qed.

Lemma quiet_throw {A} x : quiet (@uthrow A x).
Proof. done. Qed.
Lemma quiet_ret {A} (a : A) : quiet (mret a).
Proof. done. Qed.
Lemma quiet_lift {A} (r : res user_error A) : quiet (liftRes r).
Proof. done. Qed.
Lemma quiet_asks : quiet asks.
Proof. done. Qed.
Lemma quiet_locks : quiet takeLocks.
Proof. done. Qed.
Lemma quiet_read : quiet readFileUnlocked.
Proof. done. Qed.
Lemma quiet_advance f : quiet (advanceNativeSendEpochs f).
Proof. intros e s. unfold advanceNativeSendEpochs. by repeat case_match. Qed.
Lemma succeeds_ret {A} (a : A) : succeeds (mret a).
Proof. intros e s. by exists a. Qed.

Lemma spares_write f : spares (writeFileUnlocked f).
Proof.
  apply spares_after; [apply quiet_advance|]. intros f1. apply spares_before; [|intros; apply succeeds_ret].
  intros e s x s'. unfold atomicWrite. destruct (io_write (eIO e)) eqn:E; [done|by left; simplify_eq|].
  intros [= <- <-]. by right.
Qed.

(** What a write puts in the file has the IDs it was asked to write. *)
Lemma write_ids f e s f' s' : writeFileUnlocked f e s = (Ok f', s') -> uID <$> ufUsers f' = uID <$> ufUsers f.
Proof.
  unfold writeFileUnlocked, mbind, UM_bind, advanceNativeSendEpochs, atomicWrite, mret, UM_ret. intros H.
  destruct (eReread e); [|done]. destruct (uDisk s) as [| |prior]; [..|].
  - by repeat case_match; simplify_eq.
  - done.
  - destruct (advanceUsers _ _) as [l|] eqn:E; [|done].
    assert (HE : uID <$> l = uID <$> ufUsers f).
    { apply advanceUsers_Forall2 in E. clear H. induction E as [|u u' l1 l2 Hu _ IH]; [done|]. csimpl. f_equal; [|done].
      by rewrite (advanceUser_frame _ _ _ Hu). }
    rewrite <- HE. by repeat case_match; simplify_eq.
Qed.

Lemma find_first_hasID id l : id ∈ (uID <$> l) -> is_Some (find_first (hasID id) l).
Proof.
  induction l as [|u l IH]; csimpl; intros H; [by apply elem_of_nil in H|]. unfold hasID at 1.
  destruct (uID u =s? id) eqn:E; [by eexists|]. to_prop. apply elem_of_cons in H as [->|H]; [done|by apply IH].
Qed.

Lemma spares_lift {A B} (r : res user_error A) (k : A -> UM B) : (forall a, r = Ok a -> spares (k a)) -> spares (liftRes r ≫= k).
Proof. intros H e s x s'. rewrite lift_bind. destruct r as [a|y]; [by apply H|intros [= _ <-]; by left]. Qed.

Lemma spares_mutateGuarded id g fn :
  (forall c u1, fn c = Ok u1 -> uID u1 = uID c) -> spares (mutateGuarded id g fn).
Proof.
  intros Hfn. apply spares_after; [apply quiet_locks|]. intros _. apply spares_after; [apply quiet_read|]. intros f.
  apply spares_after; [apply quiet_asks|]. intros e0.
  destruct (find_first (hasID id) (ufUsers f)) as [u|] eqn:Ef; [|by apply quiet_spares, quiet_throw].
  apply spares_after; [apply quiet_lift|]. intros _. apply spares_lift. intros v Hv.
  destruct v as [u'|u']; [|by apply quiet_spares, quiet_ret].
  assert (Hid : hasID id u' = true).
  { unfold hasID. apply bool_decide_eq_true. apply hasID_first in Ef as [_ <-].
    apply mutateOne_write in Hv as (u1 & HC & _ & H).
    assert (uID u' = uID u1) as -> by (by destruct H as [[_ ->]|(_ & _ & ->)]).
    assert (Hc : uID (compactExpiredEnvelopes (eNow e0) u).1 = uID u) by (by destruct (compact_envelopes (eNow e0) u) as [->| ->]).
    destruct HC as [HC|[_ ->]]; [|done]. by rewrite (Hfn _ _ HC). }
  intros e s x s'. unfold mbind, UM_bind.
  match goal with |- context [writeFileUnlocked ?F e s] =>
    pose proof (spares_write F e s) as HW; pose proof (write_ids F e s) as HI; destruct (writeFileUnlocked F e s) as [[f'|y] s1] end.
  - destruct (find_first_hasID id (ufUsers f')) as [w ->]; [|done]. rewrite (HI _ _ eq_refl). cbn [ufUsers].
    pose proof (find_first_update _ _ _ _ Ef Hid) as HF. apply hasID_first in HF as [HF <-]. by apply list_elem_of_fmap_2.
  - intros [= <- <-]. by eapply HW.
Qed.

Lemma spares_answered {A} (f : A -> uans) (m : UM A) : spares m -> spares (answered f m).
Proof. intros H. apply spares_before; [done|]. intros a. apply succeeds_ret. Qed.

(** The release of a restore whose publication after the write fails. *)
Definition failsAfterWrite (o : uop) : bool := match o with ORestore _ _ (Err _) => true | _ => false end.

(** A body that reads and checks, writes last, and then answers. *)
Ltac spare :=
  repeat match goal with
  | |- spares (writeFileUnlocked _ ;; mret _) => apply spares_before; [apply spares_write|intros; apply succeeds_ret]
  | |- spares (uthrow _) => apply quiet_spares, quiet_throw
  | |- spares (mret _) => apply quiet_spares, quiet_ret
  | |- spares (liftRes _) => apply quiet_spares, quiet_lift
  | |- spares (liftRes _ ≫= _) => apply spares_after; [apply quiet_lift|intros]
  | |- spares (asks ≫= _) => apply spares_after; [apply quiet_asks|intros]
  | |- spares (takeLocks ≫= _) => apply spares_after; [apply quiet_locks|intros]
  | |- spares (readFileUnlocked ≫= _) => apply spares_after; [apply quiet_read|intros]
  | |- spares (advanceNativeSendEpochs _ ≫= _) => apply spares_after; [apply quiet_advance|intros]
  | |- spares (match ?x with _ => _ end) => destruct x
  end.

Lemma runUser_spares o : failsAfterWrite o = false -> spares (runU o).
Proof.
  intros Ho. destruct (isMutation o) eqn:Em.
  { intros e s x s' E. destruct (runUser_mutates matchCode o e s Em) as [[y Hy]|(id & g & fn & k & HM & [_ Hk] & Hr)].
    - left. rewrite Hy in E. by simplify_eq.
    - rewrite Hr in E. injection E as E <-. apply Hk in E. eapply (spares_mutateGuarded id g fn).
      + intros c u1 Hf. destruct (change_core _ _ _ _ _ _ _ _ HM Hf) as [Hc _]. unfold core in Hc. congruence.
      + rewrite <- E. by destruct (mutateGuarded id g fn e s). }
  destruct o; try discriminate Em; cbn [runUser]; apply spares_answered.
  - unfold create. by spare.
  - unfold createSSOUser. by spare.
  - unfold bindUnboundSSOLinks, updateSSOLinks. by spare.
  - unfold revokeSSOLinksNotFrom, updateSSOLinks. by spare.
  - unfold linkSSO. by spare.
  - unfold revokeSSOLink. by spare.
  - unfold unlinkSSO. by spare.
  - unfold sweepExpiredEnvelopes. by spare.
  - unfold repairNativeAccounts. by spare.
  - unfold deactivateForRestoreRelease. destruct commit as [[]|]; [|done]. spare.
    apply spares_before; [spare|intros []; apply succeeds_ret].
Qed.

(** (C25) A refused call changes nothing: when a call on users.json answers
    with an error, the file is exactly as it was, except where the replacement
    itself happened and the sync of its directory then failed, or where the
    publication that follows the release of a restore failed. *)
Theorem refused_call_changes_nothing (o : uop) (e : env) (s : ustate) (x : uerr) :
  failsAfterWrite o = false -> (runU o e s).1 = Err x ->
  uDisk (runU o e s).2 = uDisk s \/ (x = ErrWrite /\ io_write (eIO e) = WriteSyncFailed).
Proof.
  intros Ho Hx. apply (runUser_spares o Ho e s x). rewrite <- Hx. by destruct (runU o e s).
Qed.

(** ** Re-deriving a hash *)

Lemma Directs_hash now all k s2 d id c u u' : rtc (Direct now all (ORehash k s2 d id c)) u u' -> u' = u.
Proof. induction 1 as [|u v w H _ IH]; [done|]. by inversion H. Qed.

(** Both fenced views read the stored hash. *)
Lemma pgpState_hash a b : pgpState a = pgpState b -> PasswordHash a = PasswordHash b.
Proof. unfold pgpState. congruence. Qed.
Lemma sendState_hash a b : nativeSendState a = nativeSendState b -> PasswordHash a = PasswordHash b.
Proof. unfold nativeSendState. congruence. Qed.

(** Re-deriving a password hash at the current cost is a change of the
    credential, not an invisible one: when it replaces the hash, the account's
    access epoch and PGP revision both advance, so work prepared before it (a
    scheduled send, an identity update) is refused afterwards; nothing else of
    the account changes but the time stamp and sealings that had expired. *)
Lemma rehash_fences_prepared_work (k : kdf) (slot2 : res user_error unit) (dummy : res user_error gostr) (id cand : gostr)
    (e : env) (s : ustate) (u u' : User) :
  let c := (e, ORehash k slot2 dummy id cand) in
  file_ok s -> account id s = Some u -> account id (stepU matchCode c s).2 = Some u' -> PasswordHash u' ≠ PasswordHash u ->
  verifyAuthSecret dummy slot2 u cand = Ok true /\ needsRehash (PasswordHash u) = true /\
  hashPassword (kSlot k) (kDraw k) cand = Ok (PasswordHash u') /\
  u' = setNativeSendEpoch (NativeSendEpoch u + 1) (setUpdatedAt (formatTime (eNow e)) (setPGPRevision (PGPRevision u + 1)
         (setPasswordHash (PasswordHash u') (compactExpiredEnvelopes (eNow e) u).1))).
Proof.
  intros c (f & Hd & Hok) Ha Ha' Hne.
  destruct (account_step matchCode c s f id u Hd Hok ltac:(done) Ha) as (u2 & Hu2 & HS & _ & Hid).
  assert (u2 = u') as -> by congruence. clear Hu2.
  destruct HS as [->|(u1 & HM & HA)]; [done|].
  assert (Hh : PasswordHash u' = PasswordHash u1) by (by apply advanced_frame in HA as [n ->]).
  destruct HM as [H|g fn HM _ _ H]; [apply Directs_hash in H; congruence|].
  apply mutateOne_write in H as (u3 & HC & _ & H). subst c. cbn [fst snd] in HM. inversion HM; subst; clear HM.
  assert (Hcf : PasswordHash (compactExpiredEnvelopes (eNow e) u).1 = PasswordHash u /\
                PGPRevision (compactExpiredEnvelopes (eNow e) u).1 = PGPRevision u /\
                verifyAuthSecret dummy slot2 (compactExpiredEnvelopes (eNow e) u).1 cand = verifyAuthSecret dummy slot2 u cand).
  { by destruct (compact_envelopes (eNow e) u) as [->| ->]. }
  destruct Hcf as (Hc1 & Hc2 & Hc3). cbn [fst] in *. set (cu := (compactExpiredEnvelopes (eNow e) u).1) in *.
  assert (H13 : PasswordHash u1 = PasswordHash u3) by (by destruct H as [[_ ->]|(_ & _ & ->)]).
  destruct HC as [HC|[_ ->]]; [|exfalso; apply Hne; by rewrite Hh, H13, <- Hc1].
  cbv beta in HC. fold cu in HC. rewrite Hc3, Hc1 in HC.
  destruct (verifyAuthSecret dummy slot2 u cand) as [[]|] eqn:Ev; try done. cbn [mbind res_bind negb] in HC.
  destruct (needsRehash (PasswordHash u)) eqn:En; cbn [negb] in HC; [|simplify_eq; congruence].
  injection HC as <-. change (PasswordHash (setPasswordHash hash cu)) with hash in H13.
  split; [done|]. split; [done|]. split; [by rewrite Hh, H13|].
  destruct H as [[Hp _]|(_ & _ & ->)]; [by apply pgpState_hash in Hp; destruct Hne; rewrite Hh, H13, <- Hp|].
  destruct HA as [[Hs _]|(_ & _ & HA)]; [by apply sendState_hash in Hs; destruct Hne; rewrite Hh, <- Hs|].
  rewrite Hh. change (PasswordHash (setUpdatedAt _ _)) with hash. rewrite <- Hc2. change (PGPRevision (setPasswordHash hash cu)) with (PGPRevision cu) in HA. exact HA.
Qed.
End Access.
