(* ===== verification/UsersReads.v ===== *)
(** * UsersReads: what a lookup of an account answers

    Lookups go through the index of a cached copy of users.json.  The cache is
    coherent with the file as long as every write leaves the file with a
    modification time and size of its own, and a lookup in a coherent state
    answers as a scan of the file does. *)

From S2P Require Import Prelude GoText FileStore GoCodec.
From S2P Require Import SendAs ContactsModel Contacts.
From S2P Require Import UsersModel UsersStore UsersAuth UsersOps UsersPGP UsersRun UsersShape UsersInvariant UsersSafety UsersAccess.

(** ** Positions *)

Section Positions.
Context {A : Type} (p : A -> bool).

Fixpoint firstPos (l : list A) : option nat :=
  match l with
  | [] => None
  | x :: l' => if p x then Some 0 else S <$> firstPos l'
  end.
Fixpoint lastPos (l : list A) : option nat :=
  match l with
  | [] => None
  | x :: l' => match lastPos l' with Some n => Some (S n) | None => if p x then Some 0 else None end
  end.

Lemma firstPos_find l : (firstPos l ≫= fun n => l !! n) = find_first p l.
Proof.
  induction l as [|x l IH]; [done|]. simpl. destruct (p x); [done|]. rewrite <- IH. by destruct (firstPos l).
Qed.

Lemma lastPos_None l : lastPos l = None <-> Forall (fun x => p x = false) l.
Proof.
  induction l as [|x l IH]; simpl; [by split; [constructor|]|]. rewrite Forall_cons.
  destruct (lastPos l) as [n|]; [split; [done|intros [_ H]; by apply IH in H]|].
  destruct (p x); split; try done; intuition; done.
Qed.
End Positions.

Definition orElse {A} (a b : option A) : option A := match a with Some _ => a | None => b end.

Section Index.
Context {U : Unicode}.

Definition hasName (key : gostr) (u : User) : bool := normalizeUsername (Username u) =s? key.
Definition hasSub (key : gostr) (u : User) : bool := trimSpace (SSOSub u) =s? key.

Lemma byID_from l i idx k :
  byID (indexFrom i l idx) !! k = orElse (Nat.add i <$> lastPos (hasID k) l) (byID idx !! k).
Proof.
  revert i idx. induction l as [|u l IH]; intros i idx; [done|]. cbn [indexFrom lastPos]. rewrite IH.
  destruct (lastPos (hasID k) l) as [n|]; cbn [fmap option_fmap option_map orElse]; [f_equal; lia|].
  unfold indexUser. cbn [byID]. unfold hasID. destruct (uID u =s? k) eqn:E; to_prop.
  - subst. rewrite lookup_insert_eq. simpl. f_equal. lia.
  - by rewrite lookup_insert_ne.
Qed.

(** Both maps whose first entry wins. *)
Lemma firstWins_lookup (m : gmap gostr nat) (key : gostr) (i : nat) k : k ≠ [] ->
  (if key =s? [] then m else match m !! key with Some _ => m | None => <[key:=i]> m end) !! k
  = orElse (m !! k) (if key =s? k then Some i else None).
Proof.
  intros Hk. destruct (key =s? k) eqn:E; to_prop.
  - subst. rewrite (bool_decide_eq_false_2 (k = [])) by done. destruct (m !! k) eqn:Em; [by rewrite Em|].
    by rewrite lookup_insert_eq.
  - assert (orElse (m !! k) None = m !! k) as -> by (by destruct (m !! k)).
    destruct (key =s? []); [done|]. destruct (m !! key); [done|]. by rewrite lookup_insert_ne.
Qed.

Lemma orElse_shift (a : option nat) i (b : bool) (c : option nat) :
  orElse (orElse a (if b then Some i else None)) (Nat.add (S i) <$> c)
  = orElse a (Nat.add i <$> (if b then Some 0 else S <$> c)).
Proof. destruct a, b, c; simpl; try done; f_equal; lia. Qed.

Lemma byUsername_from l i idx k : k ≠ [] ->
  byUsername (indexFrom i l idx) !! k = orElse (byUsername idx !! k) (Nat.add i <$> firstPos (hasName k) l).
Proof.
  intros Hk. revert i idx. induction l as [|u l IH]; intros i idx; cbn [indexFrom firstPos].
  - by destruct (byUsername idx !! k).
  - rewrite IH. unfold indexUser. cbn [byUsername]. rewrite firstWins_lookup by done. apply orElse_shift.
Qed.

Lemma bySSOSub_from l i idx k : k ≠ [] ->
  bySSOSub (indexFrom i l idx) !! k = orElse (bySSOSub idx !! k) (Nat.add i <$> firstPos (hasSub k) l).
Proof.
  intros Hk. revert i idx. induction l as [|u l IH]; intros i idx; cbn [indexFrom firstPos].
  - by destruct (bySSOSub idx !! k).
  - rewrite IH. unfold indexUser. cbn [bySSOSub]. rewrite firstWins_lookup by done. apply orElse_shift.
Qed.

Lemma lastPos_unique k l : NoDup (uID <$> l) -> lastPos (hasID k) l = firstPos (hasID k) l.
Proof.
  induction l as [|u l IH]; csimpl; intros Hn; [done|]. apply NoDup_cons in Hn as [Hu Hn]. rewrite (IH Hn).
  destruct (hasID k u) eqn:E; [|by destruct (firstPos (hasID k) l)].
  assert (lastPos (hasID k) l = None) as HN.
  { apply lastPos_None, Forall_forall. intros v Hv. unfold hasID in *. to_prop. subst k.
    apply bool_decide_eq_false_2. intros HE. apply Hu. rewrite <- HE. by apply list_elem_of_fmap_2. }
  rewrite IH in HN by done. by rewrite HN.
Qed.

(** The index of a file with distinct IDs answers as scans of the file do. *)
Lemma index_by_id f k : NoDup (uID <$> ufUsers f) ->
  (byID (buildUserIndex f) !! k ≫= fun n => ufUsers f !! n) = find_first (hasID k) (ufUsers f).
Proof.
  intros Hn. unfold buildUserIndex. rewrite byID_from, lastPos_unique by done. rewrite <- firstPos_find.
  cbn [byID]. rewrite lookup_empty. by destruct (firstPos (hasID k) (ufUsers f)).
Qed.
Lemma index_by_name f k : k ≠ [] ->
  (byUsername (buildUserIndex f) !! k ≫= fun n => ufUsers f !! n) = find_first (hasName k) (ufUsers f).
Proof.
  intros Hk. unfold buildUserIndex. rewrite byUsername_from by done. rewrite <- firstPos_find.
  cbn [byUsername]. rewrite lookup_empty. by destruct (firstPos (hasName k) (ufUsers f)).
Qed.
Lemma index_by_sub f k : k ≠ [] ->
  (bySSOSub (buildUserIndex f) !! k ≫= fun n => ufUsers f !! n) = find_first (hasSub k) (ufUsers f).
Proof.
  intros Hk. unfold buildUserIndex. rewrite bySSOSub_from by done. rewrite <- firstPos_find.
  cbn [bySSOSub]. rewrite lookup_empty. by destruct (firstPos (hasSub k) (ufUsers f)).
Qed.
Lemma index_no_name f : byUsername (buildUserIndex f) !! [] = None /\ bySSOSub (buildUserIndex f) !! [] = None.
Proof.
  assert (H : forall l i idx, byUsername idx !! [] = None -> bySSOSub idx !! [] = None ->
    byUsername (indexFrom i l idx) !! [] = None /\ bySSOSub (indexFrom i l idx) !! [] = None).
  { induction l as [|u l IH]; intros i idx H1 H2; [done|]. cbn [indexFrom]. apply IH; unfold indexUser; cbn [byUsername bySSOSub];
      (case_match; [done|]); to_prop; (case_match; [done|]); by rewrite lookup_insert_ne. }
  by apply H.
Qed.
End Index.

(** ** Coherence of the cache *)

Section Coherence.
Context {U : Unicode} {UP : UnicodeUpper} {GT : GoTime} {GF : GoTimeFormat} {PL : PasswordLib} {KD : KeyDerivation}.
Context {PG : OpenPGP} {KI : KeyInspection} {EJ : EnvelopeJSON}.
Context (matchCode : gostr -> list gostr -> option nat).

(** What the process and the other one do to the file and this one's cache. *)
Inductive uevent :=
  | EvCall (c : call)
  | EvLoad (e : env) (w1 w2 : option (usersFile * fstat))
  | EvOther (f : usersFile) (st : fstat).

Definition stepE (ev : uevent) (s : ustate) : ustate :=
  match ev with
  | EvCall c => (stepU matchCode c s).2
  | EvLoad e w1 w2 => (loadRacing w1 w2 e s).2
  | EvOther f st => interfere (Some (f, st)) s
  end.
Fixpoint runEvents (evs : list uevent) (s : ustate) : ustate :=
  match evs with [] => s | ev :: evs' => runEvents evs' (stepE ev s) end.

(** A write leaves the file with a stat that is neither the current one nor the
    cached one. *)
Definition freshStat (st : fstat) (s : ustate) : Prop :=
  st ≠ uStat s /\ match uCache s with Some (_, _, st') => st ≠ st' | None => True end.
Definition freshWrite (w : option (usersFile * fstat)) (s : ustate) : Prop :=
  match w with Some (_, st) => freshStat st s | None => True end.
Definition freshEvent (ev : uevent) (s : ustate) : Prop :=
  match ev with
  | EvCall c => freshStat (eStat c.1) s
  | EvLoad _ w1 w2 => freshWrite w1 s /\ freshWrite w2 s
  | EvOther _ st => freshStat st s
  end.
Fixpoint freshEvents (evs : list uevent) (s : ustate) : Prop :=
  match evs with [] => True | ev :: evs' => freshEvent ev s /\ freshEvents evs' (stepE ev s) end.

Definition coherent (s : ustate) : Prop :=
  match uCache s with
  | Some (f, idx, st) => idx = buildUserIndex f /\ (st = uStat s -> uDisk s = FData f)
  | None => True
  end.

(** What a call leaves: the state it found, or a file it wrote. *)
Definition tidy {A} (m : UM A) : Prop := forall e s,
  (m e s).2 = s \/ exists f c, (m e s).2 = mkU (FData f) (eStat e) c /\ (c = None \/ c = uCache s).

Lemma quiet_tidy {A} (m : UM A) : quiet m -> tidy m.
Proof. intros H e s. left. apply H. Qed.
Lemma tidy_after {A B} (m : UM A) (k : A -> UM B) : quiet m -> (forall a, tidy (k a)) -> tidy (m ≫= k).
Proof.
  intros H1 H2 e s. specialize (H1 e s). unfold mbind, UM_bind. destruct (m e s) as [[a|y] s1]; simpl in H1; subst; [apply H2|by left].
Qed.
Lemma tidy_before {A B} (m : UM A) (k : A -> UM B) : tidy m -> (forall a, quiet (k a)) -> tidy (m ≫= k).
Proof.
  intros H1 H2 e s. specialize (H1 e s). unfold mbind, UM_bind. destruct (m e s) as [[a|y] s1]; simpl in *; [|done].
  specialize (H2 a e s1). destruct (k a e s1) as [r s2]. simpl in *. by subst.
Qed.
Lemma tidy_write f : tidy (writeFileUnlocked f).
Proof.
  apply tidy_after; [apply quiet_advance|]. intros f1. apply tidy_before; [|intros; apply quiet_ret].
  intros e s. unfold atomicWrite. destruct (io_write (eIO e)); simpl; [right|by left|right]; eexists _, _; split; [done|by left|done|by right].
Qed.

Ltac tidy_up :=
  repeat match goal with
  | |- tidy (writeFileUnlocked _ ≫= _) => apply tidy_before; [apply tidy_write|intros; try case_match; first [apply quiet_ret|apply quiet_throw]]
  | |- tidy (uthrow _) => apply quiet_tidy, quiet_throw
  | |- tidy (mret _) => apply quiet_tidy, quiet_ret
  | |- tidy (liftRes _) => apply quiet_tidy, quiet_lift
  | |- tidy (liftRes _ ≫= _) => apply tidy_after; [apply quiet_lift|intros]
  | |- tidy (asks ≫= _) => apply tidy_after; [apply quiet_asks|intros]
  | |- tidy (takeLocks ≫= _) => apply tidy_after; [apply quiet_locks|intros]
  | |- tidy (readFileUnlocked ≫= _) => apply tidy_after; [apply quiet_read|intros]
  | |- tidy (advanceNativeSendEpochs _ ≫= _) => apply tidy_after; [apply quiet_advance|intros]
  | |- tidy (match ?x with _ => _ end) => destruct x
  | |- tidy ((match _ with _ => _ end) ≫= _) => apply tidy_before; [|intros; apply quiet_lift]
  end.

Lemma tidy_mutateGuarded id g fn : tidy (mutateGuarded id g fn).
Proof. unfold mutateGuarded. by tidy_up. Qed.

Lemma runUser_tidy o : tidy (runUser matchCode o).
Proof.
  destruct (isMutation o) eqn:Em.
  { intros e s. destruct (runUser_mutates matchCode o e s Em) as [[y ->]|(id & g & fn & k & _ & _ & ->)]; [by left|].
    apply tidy_mutateGuarded. }
  destruct o; try discriminate Em; cbn [runUser]; (apply tidy_before; [|intros; apply quiet_ret]);
    unfold create, createSSOUser, bindUnboundSSOLinks, revokeSSOLinksNotFrom, updateSSOLinks, linkSSO, revokeSSOLink, unlinkSSO,
      sweepExpiredEnvelopes, repairNativeAccounts, deactivateForRestoreRelease; by tidy_up.
Qed.

Lemma coherent_step ev s : freshEvent ev s -> coherent s -> coherent (stepE ev s).
Proof.
  assert (HW : forall f st c, freshStat st s -> (c = None \/ c = uCache s) -> coherent s -> coherent (mkU (FData f) st c)).
  { intros f st c [_ Hst] Hc Hs. unfold coherent in *. cbn [uCache uStat uDisk]. destruct Hc as [->| ->]; [done|].
    destruct (uCache s) as [[[f0 idx] st0]|]; [|done]. split; [apply Hs|]. intros ->. done. }
  intros Hf Hs. destruct ev as [[e o]|e w1 w2|f st]; cbn [stepE freshEvent] in *.
  - destruct (runUser_tidy o e s) as [H|(f & c & H & Hc)]; unfold stepU; cbn [fst snd] in *; rewrite H; [done|by apply HW].
  - destruct Hf as [H1 H2]. unfold loadRacing. destruct (uDisk s) eqn:Hd; [done|..];
      (destruct (cacheAnswers s); [done|]).
    all: assert (Hw : forall w s0, (w = w1 \/ w = w2) -> uCache s0 = uCache s -> coherent s0 -> coherent (interfere w s0) /\
                        uCache (interfere w s0) = uCache s /\ (uStat (interfere w s0) = uStat s -> w = None)).
    1,3: intros w s0 Hw Hc0 Hs0; unfold interfere; destruct w as [[f0 st0]|]; [|done];
         assert (freshStat st0 s) as [Hst Hst2] by (by destruct Hw; subst);
         split; [|split; [by rewrite Hc0|by intros Hst3]];
         unfold coherent in *; cbn [uCache uStat uDisk]; rewrite Hc0 in *;
         destruct (uCache s) as [[[f1 idx1] st1]|]; [|done]; split; [by apply Hs0|by intros ->].
    all: destruct (Hw w1 s ltac:(by left) eq_refl Hs) as (Ha & Hb & Hc); destruct (readFile _ _) as [f|] eqn:Hr; [|done];
         destruct (Hw w2 _ ltac:(by right) Hb Ha) as (Ha' & Hb' & Hc'); cbn [snd]; case_bool_decide as HE; [|done].
    all: specialize (Hc' HE); subst w2; cbn [interfere] in *; specialize (Hc HE); subst w1; cbn [interfere] in *.
    all: unfold coherent; cbn [uCache uStat uDisk]; split; [done|intros _]; unfold readFile in Hr;
         destruct (io_read (eIO e)); [|done]; rewrite Hd in *; by simplify_eq.
  - unfold interfere. apply HW; [done|by right|done].
Qed.

Lemma coherent_run evs s : freshEvents evs s -> coherent s -> coherent (runEvents evs s).
Proof. revert s. induction evs as [|ev evs IH]; intros s; [done|]. intros [H1 H2] Hs. apply IH; [done|]. by apply coherent_step. Qed.

(** ** Lookups *)

Definition found (r : option User) : res uerr User := match r with Some u => Ok u | None => Err (ErrApp ErrNotFound) end.

(** In a coherent state, loading answers with the file and its index. *)
Lemma load_coherent e s f :
  coherent s -> uDisk s = FData f -> io_read (eIO e) = true -> (load e s).1 = Ok (f, buildUserIndex f).
Proof.
  intros Hs Hd Hr. unfold load, loadRacing. rewrite Hd. unfold cacheAnswers, coherent in *. cbn [interfere].
  rewrite Hd. unfold readFile. rewrite Hr.
  destruct (uCache s) as [[[f0 idx] st]|]; [|done]. case_bool_decide as HE; [|done].
  destruct Hs as [-> Hs]. specialize (Hs HE). simpl. congruence.
Qed.

Lemma lookup_coherent e s f (ix : userIndex -> option nat) :
  coherent s -> uDisk s = FData f -> io_read (eIO e) = true ->
  ((r ← withIndexedUsers ix; orNotFound r) e s).1 = found (ix (buildUserIndex f) ≫= fun n => ufUsers f !! n).
Proof.
  intros Hs Hd Hr. pose proof (load_coherent e s f Hs Hd Hr) as HL. unfold withIndexedUsers, mbind, UM_bind.
  destruct (load e s) as [[p|] s']; simpl in HL; [|done]. injection HL as ->. simpl.
  destruct (ix (buildUserIndex f)) as [n|]; simpl; [|done]. by destruct (ufUsers f !! n).
Qed.

(** A lookup answers from the file, never from a stale copy: after any
    run of calls, reads and writes of the other process that land at any point
    of a read, each write leaving a modification time and size of its own,
    finding an account by ID, username or directory subject answers exactly as
    the scan of the file that the mutations use. *)
Lemma lookups_scan_the_file (evs : list uevent) (s : ustate) (e : env) (f : usersFile) (id name sub : gostr) :
  coherent s -> freshEvents evs s -> uDisk (runEvents evs s) = FData f -> NoDup (uID <$> ufUsers f) ->
  io_read (eIO e) = true ->
  (getUser id e (runEvents evs s)).1 = found (find_first (hasID id) (ufUsers f)) /\
  (getByUsername name e (runEvents evs s)).1 =
    found (if normalizeUsername name =s? [] then None else find_first (hasName (normalizeUsername name)) (ufUsers f)) /\
  (getBySSOSub sub e (runEvents evs s)).1 =
    found (if trimSpace sub =s? [] then None else find_first (hasSub (trimSpace sub)) (ufUsers f)).
Proof.
  intros Hs Hf Hd Hn Hr. pose proof (coherent_run evs s Hf Hs) as Hc. set (s' := runEvents evs s) in *.
  split; [|split].
  - unfold getUser. erewrite lookup_coherent by done. by rewrite index_by_id.
  - unfold getByUsername. erewrite lookup_coherent by done. case_bool_decide as E; [by rewrite E, (proj1 (index_no_name f))|].
    by rewrite index_by_name.
  - unfold getBySSOSub. case_bool_decide as E; [done|]. erewrite lookup_coherent by done. by rewrite index_by_sub.
Qed.
End Coherence.
