(* ===== verification/Lockout.v ===== *)
(** * Lockout: strikes and cooldowns (backend/internal/api/login_lockout.go)

    [failureLockout] is an in-memory table from a key (account and address, or an
    address) to the strikes spent on it.  An attempt reserves a strike in the
    critical section that admits it; a success or a cancellation settles the
    reservation, a failure leaves the strike.  Every method is one critical
    section and one step here; the clock is an argument. *)

From S2P Require Import Prelude GoText.

(** ** State *)

(** The zero [time.Time] is [None]. *)
Record loginLockoutEntry := mkEntry { strikes : list Z; lockedUntil : option Z }.

Record failureLockout := mkLockout {
  maxFailures : Z;
  lockoutFor : Z;
  sweepThreshold : Z;
  hardCap : Z;
  entries : gmap gostr loginLockoutEntry;
  lastSweep : option Z;
  saturated : bool;
}.

Record lockoutReservation := mkReservation { resKey : gostr; resAt : Z }.

Definition lastStrike (e : loginLockoutEntry) : option Z := last (strikes e).

(** [now.Sub(t) >= d] for the zero time [t] too, whose difference saturates. *)
Definition sinceAtLeast (now : Z) (t : option Z) (d : Z) : bool :=
  match t with None => true | Some t => (d <=? now - t)%Z end.

Definition sweepMinInterval : Z := 1000000000.

Definition newFailureLockoutSized (maxFailures lockoutFor sweepThreshold hardCap : Z) : failureLockout :=
  mkLockout maxFailures lockoutFor sweepThreshold hardCap ∅ None false.

Definition withEntries (m : gmap gostr loginLockoutEntry) (l : failureLockout) : failureLockout :=
  mkLockout (maxFailures l) (lockoutFor l) (sweepThreshold l) (hardCap l) m (lastSweep l) (saturated l).
Definition withSaturated (b : bool) (l : failureLockout) : failureLockout :=
  mkLockout (maxFailures l) (lockoutFor l) (sweepThreshold l) (hardCap l) (entries l) (lastSweep l) b.
Definition withLastSweep (now : Z) (l : failureLockout) : failureLockout :=
  mkLockout (maxFailures l) (lockoutFor l) (sweepThreshold l) (hardCap l) (entries l) (Some now) (saturated l).

Definition tableSize (l : failureLockout) : Z := Z.of_nat (size (entries l)).

(** [now.Before(e.lockedUntil)]. *)
Definition lockedAt (now : Z) (e : loginLockoutEntry) : bool :=
  match lockedUntil e with Some t => (now <? t)%Z | None => false end.

(** ** Bounding the table *)

Definition sweepKeeps (now lockoutFor : Z) (e : loginLockoutEntry) : bool :=
  lockedAt now e || negb (sinceAtLeast now (lastStrike e) lockoutFor).

Definition sweepIfCrowdedLocked (now : Z) (l : failureLockout) : failureLockout :=
  if (tableSize l <? sweepThreshold l)%Z then l
  else if (tableSize l <? hardCap l)%Z && negb (sinceAtLeast now (lastSweep l) sweepMinInterval) then l
  else
    let l1 := withLastSweep now l in
    let l2 := withEntries (filter (fun ke => sweepKeeps now (lockoutFor l) ke.2 = true) (entries l1)) l1 in
    if (tableSize l2 <? hardCap l)%Z then withSaturated false l2 else l2.

Section Evict.
Context {RO : RangeOrder}.

(** [a.Before(b)] on strike times, the zero time first. *)
Definition timeBefore (a b : option Z) : bool :=
  match a, b with Some a, Some b => (a <? b)%Z | None, Some _ => true | _, None => false end.

Fixpoint victimOf (now : Z) (best : option (gostr * option Z)) (l : list (gostr * loginLockoutEntry)) : option (gostr * option Z) :=
  match l with
  | [] => best
  | (k, e) :: l' =>
      if lockedAt now e then victimOf now best l'
      else match best with
           | Some (_, oldest) => if timeBefore (lastStrike e) oldest then victimOf now (Some (k, lastStrike e)) l' else victimOf now best l'
           | None => victimOf now (Some (k, lastStrike e)) l'
           end
  end.
Definition evictOldestUnlockedLocked (now : Z) (l : failureLockout) : bool * failureLockout :=
  match victimOf now None (range_order _ (map_to_list (entries l))) with
  | Some (victim, _) => (true, withEntries (delete victim (entries l)) l)
  | None => (false, l)
  end.

(** ** The methods *)

(** The strike taken on the entry: [ok], no wait, the reservation. *)
Definition strike (now : Z) (key : gostr) (e : loginLockoutEntry) (l : failureLockout) :
    (bool * Z * option lockoutReservation) * failureLockout :=
  let s := strikes e ++ [now] in
  let until := if (maxFailures l <=? Z.of_nat (length s))%Z then Some (now + lockoutFor l)%Z else lockedUntil e in
  ((true, 0%Z, Some (mkReservation key now)), withEntries (<[key := mkEntry s until]> (entries l)) l).

Definition tryAttempt (now : Z) (key : gostr) (l : failureLockout) :
    (bool * Z * option lockoutReservation) * failureLockout :=
  let l := sweepIfCrowdedLocked now l in
  match entries l !! key with
  | None =>
      if (hardCap l <=? tableSize l)%Z then
        let '(ok, l1) := evictOldestUnlockedLocked now (withSaturated true l) in
        if ok then strike now key (mkEntry [] None) l1 else ((false, lockoutFor l, None), l1)
      else strike now key (mkEntry [] None) l
  | Some e =>
      if lockedAt now e then ((false, default 0%Z (lockedUntil e) - now, None)%Z, l)
      else match lockedUntil e with
           | Some _ => strike now key (mkEntry [] None) l
           | None => if sinceAtLeast now (lastStrike e) (lockoutFor l) then strike now key (mkEntry [] None) l
                     else strike now key e l
           end
  end.
End Evict.

Definition lockedFor (now : Z) (key : gostr) (l : failureLockout) : Z :=
  match entries l !! key with
  | Some e => match lockedUntil e with Some t => Z.max (t - now) 0 | None => 0%Z end
  | None => 0%Z
  end.

(** The strikes from the newest gap of [d] on. *)
Fixpoint afterNewestGap (d : Z) (l : list Z) : list Z :=
  match l with
  | a :: l' =>
      match l' with
      | b :: _ => let rest := afterNewestGap d l' in
                  if negb (length rest =? length l')%nat then rest
                  else if (d <=? b - a)%Z then l' else l
      | [] => l
      end
  | [] => []
  end.

Definition cancelAttempt (res : option lockoutReservation) (l : failureLockout) : failureLockout :=
  match res with
  | None => l
  | Some r =>
      match entries l !! resKey r with
      | None => l
      | Some e =>
          match find_first (fun t => (t =? resAt r)%Z) (strikes e) with
          | None => l
          | Some _ =>
              let s := afterNewestGap (lockoutFor l) (remove_first (fun t => (t =? resAt r)%Z) (strikes e)) in
              let until := if (Z.of_nat (length s) <? maxFailures l)%Z then None else lockedUntil e in
              withEntries (if (length s =? 0)%nat then delete (resKey r) (entries l)
                           else <[resKey r := mkEntry s until]> (entries l)) l
          end
      end
  end.

Definition recordSuccess (key : gostr) (l : failureLockout) : failureLockout := withEntries (delete key (entries l)) l.

(** ** Runs *)

Section Runs.
Context {RO : RangeOrder} {ROL : RangeOrderLaws}.

Inductive lockoutOp :=
  | LTry (key : gostr)
  | LCancel (res : option lockoutReservation)
  | LSuccess (key : gostr).
Abbreviation lcall := (Z * lockoutOp)%type.
Abbreviation lanswer := (option (bool * Z * option lockoutReservation)).

Definition stepL (c : lcall) (l : failureLockout) : lanswer * failureLockout :=
  match c.2 with
  | LTry key => let '(a, l') := tryAttempt c.1 key l in (Some a, l')
  | LCancel res => (None, cancelAttempt res l)
  | LSuccess key => (None, recordSuccess key l)
  end.

(** The attempts of [key] that were admitted and neither cancelled nor followed
    by a success: the wrong guesses, with their times. *)
Definition settle (key : gostr) (g : list Z) (ca : lcall * lanswer) : list Z :=
  match ca with
  | ((now, LTry k), Some (true, _, _)) => if k =s? key then g ++ [now] else g
  | ((_, LCancel (Some r)), _) => if resKey r =s? key then remove_first (fun t => (t =? resAt r)%Z) g else g
  | ((_, LSuccess k), _) => if k =s? key then [] else g
  | _ => g
  end.
Definition guesses (key : gostr) (log : list (lcall * lanswer)) : list Z := foldl (settle key) [] log.

(** An attempt finds the table below its cap. *)
Definition roomy (c : lcall) (l : failureLockout) : Prop :=
  match c.2 with LTry _ => (tableSize l < hardCap l)%Z | _ => True end.
Fixpoint roomyRun (tr : list lcall) (l : failureLockout) : Prop :=
  match tr with [] => True | c :: tr' => roomy c l /\ roomyRun tr' (stepL c l).2 end.

(** ** The table *)

Definition strikesOf (key : gostr) (l : failureLockout) : list Z := default [] (strikes <$> entries l !! key).

Record entryOK (M L now : Z) (e : loginLockoutEntry) : Prop := {
  eo_past : Forall (fun s => s <= now)%Z (strikes e);
  eo_sorted : StronglySorted Z.le (strikes e);
  eo_len : (Z.of_nat (length (strikes e)) <= M)%Z;
  eo_lock : match lockedUntil e with
            | Some t => exists s, last (strikes e) = Some s /\ t = (s + L)%Z
            | None => (Z.of_nat (length (strikes e)) < M)%Z
            end;
}.

Definition tableOK (M L now : Z) (l : failureLockout) : Prop :=
  maxFailures l = M /\ lockoutFor l = L /\ map_Forall (fun _ e => entryOK M L now e) (entries l).

Lemma last_le (l : list Z) s t : StronglySorted Z.le l -> last l = Some t -> s ∈ l -> (s <= t)%Z.
Proof.
  intros Hs Hl Hin. apply last_Some in Hl as [l' ->]. apply elem_of_app in Hin as [Hin|Hin%list_elem_of_singleton]; [|lia].
  clear -Hs Hin. induction l' as [|x l' IH]; [by apply elem_of_nil in Hin|]. simpl in Hs. apply StronglySorted_inv in Hs as [Hs1 Hs2].
  apply elem_of_cons in Hin as [->|Hin]; [|by apply IH]. rewrite Forall_forall in Hs2. apply Hs2. set_solver.
Qed.

Lemma sorted_snoc (l : list Z) x : StronglySorted Z.le l -> Forall (fun s => s <= x)%Z l -> StronglySorted Z.le (l ++ [x]).
Proof.
  induction 1 as [|y l Hs IH Hy]; intros Hf; simpl; [repeat constructor|]. apply Forall_cons in Hf as [Hx Hf].
  constructor; [by apply IH|]. apply Forall_app. split; [done|by repeat constructor].
Qed.

Lemma entryOK_later M L now now' e : (now <= now')%Z -> entryOK M L now e -> entryOK M L now' e.
Proof. intros Hle [H1 H2 H3 H4]. split; try done. eapply Forall_impl; [exact H1|]. simpl. lia. Qed.

Lemma tableOK_later M L now now' l : (now <= now')%Z -> tableOK M L now l -> tableOK M L now' l.
Proof. intros Hle (H1 & H2 & H3). split; [done|]. split; [done|]. intros k e He. eapply entryOK_later; [done|]. by eapply H3. Qed.

Lemma tableOK_strikes M L now l k : tableOK M L now l ->
  Forall (fun s => s <= now)%Z (strikesOf k l) /\ StronglySorted Z.le (strikesOf k l).
Proof.
  intros (_ & _ & H). unfold strikesOf. destruct (entries l !! k) as [e|] eqn:E; [|split; constructor]. by destruct (H k e E).
Qed.

(** ** Strikes inside the window *)

Definition recent (L now s : Z) : Prop := (now - s < L)%Z.
#[local] Instance recent_dec L now s : Decision (recent L now s).
Proof. unfold recent. apply _. Defined.

(** No strike of an idle or expired entry is recent. *)
Lemma idle_not_recent L now (l : list Z) : StronglySorted Z.le l ->
  sinceAtLeast now (last l) L = true -> filter (recent L now) l = [].
Proof.
  intros Hs H. destruct (filter (recent L now) l) as [|s f] eqn:E; [done|].
  assert (Hin : s ∈ filter (recent L now) l) by (rewrite E; left). apply list_elem_of_filter in Hin as [Hr Hin]. exfalso.
  destruct (last l) as [t|] eqn:El; [|apply last_None in El; subst; by apply elem_of_nil in Hin].
  pose proof (last_le _ _ _ Hs El Hin). unfold recent in Hr. simpl in H. apply Z.leb_le in H. lia.
Qed.

Lemma filter_later L now now' (l : list Z) : (now <= now')%Z ->
  filter (recent L now') (filter (recent L now) l) = filter (recent L now') l.
Proof.
  intros Hle. induction l as [|s l IH]; [done|]. rewrite !filter_cons.
  destruct (decide (recent L now s)), (decide (recent L now' s)); rewrite ?filter_cons; repeat case_decide; try done;
    try (by f_equal); unfold recent in *; lia.
Qed.

(** The gap cut drops nothing recent. *)
Lemma afterNewestGap_suffix d l : exists dropped, l = dropped ++ afterNewestGap d l.
Proof.
  induction l as [|a [|b l] IH]; [by exists []|by exists []|]. destruct IH as [p Hp].
  change (afterNewestGap d (a :: b :: l)) with
    (let rest := afterNewestGap d (b :: l) in
     if negb (length rest =? length (b :: l))%nat then rest else if (d <=? b - a)%Z then b :: l else a :: b :: l).
  cbv zeta. case_match; [exists (a :: p); exact (f_equal (cons a) Hp)|]. case_match; [by exists [a]|by exists []].
Qed.

Lemma afterNewestGap_cons d a b l :
  afterNewestGap d (a :: b :: l) =
    if negb (length (afterNewestGap d (b :: l)) =? length (b :: l))%nat then afterNewestGap d (b :: l)
    else if (d <=? b - a)%Z then b :: l else a :: b :: l.
Proof. done. Qed.

(** A cut means a gap among the strikes. *)
Lemma afterNewestGap_gap d l : length (afterNewestGap d l) ≠ length l -> exists u v, u ∈ l /\ v ∈ l /\ (d <= v - u)%Z.
Proof.
  induction l as [|a [|b l] IH]; [done|done|]. rewrite afterNewestGap_cons. intros H.
  destruct (length (afterNewestGap d (b :: l)) =? length (b :: l))%nat eqn:E1; cbn [negb] in H.
  - destruct (d <=? b - a)%Z eqn:E2; [|done]. apply Z.leb_le in E2. exists a, b. set_solver.
  - apply Nat.eqb_neq in E1. destruct (IH E1) as (u & v & ? & ? & ?). exists u, v. set_solver.
Qed.

Lemma afterNewestGap_recent L now l : (0 < L)%Z -> StronglySorted Z.le l -> Forall (fun s => s <= now)%Z l ->
  filter (recent L now) (afterNewestGap L l) = filter (recent L now) l.
Proof.
  intros HL. induction l as [|a [|b l] IH]; intros Hs Hf; [done|done|].
  apply StronglySorted_inv in Hs as [Hs Ha]. apply Forall_cons in Hf as [Hfa Hf]. specialize (IH Hs Hf).
  rewrite afterNewestGap_cons, (filter_cons _ a). rewrite Forall_forall in Ha, Hf.
  destruct (length (afterNewestGap L (b :: l)) =? length (b :: l))%nat eqn:E1; cbn [negb].
  - destruct (L <=? b - a)%Z eqn:E2; [|by rewrite (filter_cons _ a)]. apply Z.leb_le in E2.
    rewrite decide_False; [done|]. unfold recent. specialize (Hf b ltac:(left)). lia.
  - apply Nat.eqb_neq, afterNewestGap_gap in E1 as (u & v & Hu & Hv & HG). rewrite IH, decide_False; [done|].
    unfold recent. pose proof (Ha u Hu). pose proof (Hf v Hv). lia.
Qed.

(** ** One step of the table *)

Lemma sweep_frame now l : maxFailures (sweepIfCrowdedLocked now l) = maxFailures l /\
  lockoutFor (sweepIfCrowdedLocked now l) = lockoutFor l /\ hardCap (sweepIfCrowdedLocked now l) = hardCap l.
Proof. unfold sweepIfCrowdedLocked. repeat case_match; done. Qed.

Lemma sweep_lookup now l k :
  entries (sweepIfCrowdedLocked now l) !! k = entries l !! k \/
  (entries (sweepIfCrowdedLocked now l) !! k = None /\ exists e, entries l !! k = Some e /\ sweepKeeps now (lockoutFor l) e = false).
Proof.
  assert (HF : forall m : gmap gostr loginLockoutEntry,
    let m' := filter (fun ke => sweepKeeps now (lockoutFor l) ke.2 = true) m in
    m' !! k = m !! k \/ (m' !! k = None /\ exists e, m !! k = Some e /\ sweepKeeps now (lockoutFor l) e = false)).
  { intros m. cbv zeta. destruct (m !! k) as [e|] eqn:E.
    - destruct (sweepKeeps now (lockoutFor l) e) eqn:Ek.
      + left. by apply map_lookup_filter_Some_2.
      + right. split; [|by exists e]. apply map_lookup_filter_None_2. right. intros x Hx. cbn [snd]. congruence.
    - left. apply map_lookup_filter_None_2. by left. }
  unfold sweepIfCrowdedLocked. case_match; [by left|]. case_match; [by left|]. case_match; apply HF.
Qed.

Lemma sweep_size now l : (tableSize (sweepIfCrowdedLocked now l) <= tableSize l)%Z.
Proof.
  assert (HF : forall m : gmap gostr loginLockoutEntry,
    (Z.of_nat (size (filter (fun ke => sweepKeeps now (lockoutFor l) ke.2 = true) m)) <= Z.of_nat (size m))%Z).
  { intros m. apply inj_le. rewrite <- !size_dom. apply subseteq_size. apply subseteq_dom. apply map_filter_subseteq. }
  unfold sweepIfCrowdedLocked, tableSize. case_match; [lia|]. case_match; [lia|]. case_match; apply HF.
Qed.

Lemma sweep_ok M L now l : tableOK M L now l -> tableOK M L now (sweepIfCrowdedLocked now l).
Proof.
  intros (H1 & H2 & H3). destruct (sweep_frame now l) as (F1 & F2 & _). split; [congruence|]. split; [congruence|].
  intros k e He. destruct (sweep_lookup now l k) as [E|[E _]]; rewrite E in He; [by eapply H3|done].
Qed.

(** What the sweep drops holds no recent strike. *)
Lemma sweep_recent M L now l k : tableOK M L now l ->
  filter (recent L now) (strikesOf k (sweepIfCrowdedLocked now l)) = filter (recent L now) (strikesOf k l) /\
  strikesOf k (sweepIfCrowdedLocked now l) ⊆+ strikesOf k l.
Proof.
  intros HT. pose proof (tableOK_strikes M L now l k HT) as [_ Hs]. destruct HT as (_ & HL & _).
  unfold strikesOf in *. destruct (sweep_lookup now l k) as [->|[-> (e & He & Hk)]]; [done|]. rewrite He in *. simpl in *.
  split; [|apply submseteq_nil_l]. symmetry. apply idle_not_recent; [done|]. unfold sweepKeeps in Hk. apply orb_false_iff in Hk as [_ Hk].
  apply negb_false_iff in Hk. by rewrite HL in Hk.
Qed.

(** A strike taken on the part [s0] of an unlocked entry. *)
Lemma strike_entry M L now s0 until : (0 < L)%Z -> (1 <= M)%Z ->
  Forall (fun s => s <= now)%Z s0 -> StronglySorted Z.le s0 -> (Z.of_nat (length s0) < M)%Z -> until = None ->
  entryOK M L now (mkEntry (s0 ++ [now]) (if (M <=? Z.of_nat (length (s0 ++ [now])))%Z then Some (now + L)%Z else until)).
Proof.
  intros HL HM Hf Hs Hlen ->. split; cbn [strikes lockedUntil].
  - apply Forall_app. split; [done|]. by repeat constructor.
  - by apply sorted_snoc.
  - rewrite length_app. simpl. lia.
  - destruct (M <=? _)%Z eqn:E; [|by apply Z.leb_gt]. exists now. split; [by rewrite last_snoc|done].
Qed.

(** Admitted on what counts of the key's entry, or refused on a live lockout. *)
Lemma tryAttempt_spec M L now key l : (0 < L)%Z -> (1 <= M)%Z -> tableOK M L now l -> roomy (now, LTry key) l ->
  let l1 := sweepIfCrowdedLocked now l in
  (exists w, tryAttempt now key l = ((false, w, None), l1)) \/
  exists s0 until, tryAttempt now key l =
      ((true, 0%Z, Some (mkReservation key now)), withEntries (<[key := mkEntry (s0 ++ [now]) until]> (entries l1)) l1) /\
    s0 ⊆+ strikesOf key l1 /\ filter (recent L now) s0 = filter (recent L now) (strikesOf key l1) /\
    entryOK M L now (mkEntry (s0 ++ [now]) until).
Proof.
  intros HL HM HT Hroom l1. pose proof (sweep_ok _ _ _ _ HT) as HT1. fold l1 in HT1.
  assert (Hm : maxFailures l1 = M) by apply HT1. assert (Hl : lockoutFor l1 = L) by apply HT1.
  pose proof (tableOK_strikes M L now l1 key HT1) as [Hpast Hsort].
  unfold tryAttempt. fold l1. unfold strikesOf in *. destruct (entries l1 !! key) as [e|] eqn:E; simpl in Hpast, Hsort |- *.
  - destruct (proj2 (proj2 HT1) key e E) as [_ _ Hlen Hlock]. destruct (lockedAt now e) eqn:Ela; [left; by eexists|right].
    assert (Hfresh : sinceAtLeast now (last (strikes e)) L = true ->
      exists s0 until, strike now key (mkEntry [] None) l1 =
        ((true, 0%Z, Some (mkReservation key now)), withEntries (<[key := mkEntry (s0 ++ [now]) until]> (entries l1)) l1) /\
        s0 ⊆+ strikes e /\ filter (recent L now) s0 = filter (recent L now) (strikes e) /\ entryOK M L now (mkEntry (s0 ++ [now]) until)).
    { intros Hidle. exists []. unfold strike. rewrite Hm, Hl. eexists. split; [done|]. split; [apply submseteq_nil_l|].
      split; [symmetry; by apply idle_not_recent|]. apply strike_entry; try done; try constructor. simpl. lia. }
    destruct (lockedUntil e) as [t|] eqn:Elu.
    + apply Hfresh. destruct Hlock as (s & -> & ->). unfold lockedAt in Ela. rewrite Elu in Ela. apply Z.ltb_ge in Ela.
      simpl. apply Z.leb_le. lia.
    + rewrite Hl. destruct (sinceAtLeast now (lastStrike e) L) eqn:Ei; [by apply Hfresh|]. exists (strikes e).
      unfold strike. rewrite Hm, Hl. eexists. split; [done|]. split; [done|]. split; [done|]. by apply strike_entry.
  - right. assert (Hsize : (hardCap l1 <=? tableSize l1)%Z = false).
    { apply Z.leb_gt. pose proof (sweep_size now l) as Hsz. destruct (sweep_frame now l) as (_ & _ & Hc).
      subst l1. rewrite Hc. unfold roomy in Hroom. simpl in Hroom. lia. }
    rewrite Hsize. exists []. unfold strike. rewrite Hm, Hl. eexists. split; [done|]. split; [done|]. split; [done|].
    apply strike_entry; try done; try constructor. simpl. lia.
Qed.

(** ** Guesses in a window *)

(** The strikes of the key's entry that are recent are its recent guesses. *)
Record counts (M L now : Z) (key : gostr) (g : list Z) (l : failureLockout) : Prop := {
  ct_sub : strikesOf key l ⊆+ g;
  ct_recent : filter (recent L now) g ≡ₚ filter (recent L now) (strikesOf key l);
  ct_past : Forall (fun s => s <= now)%Z g;
  ct_window : forall t, (Z.of_nat (length (filter (fun s => t <= s < t + L)%Z g)) <= M)%Z;
}.

Lemma counts_later M L now now' key g l : (now <= now')%Z -> counts M L now key g l -> counts M L now' key g l.
Proof.
  intros Hle [H1 H2 H3 H4]. split; try done.
  - rewrite <- (filter_later L now now' g), H2, filter_later by done. done.
  - eapply Forall_impl; [exact H3|]. simpl. lia.
Qed.

Lemma filter_submseteq {A} (P : A -> Prop) `{!forall x, Decision (P x)} l : filter P l ⊆+ l.
Proof.
  induction l as [|x l IH]; [done|]. rewrite filter_cons. case_decide; [by apply submseteq_skip|by apply submseteq_cons].
Qed.

Lemma recent_filter_mono {A} (P : A -> Prop) `{!forall x, Decision (P x)} l k : l ⊆+ k -> filter P l ⊆+ filter P k.
Proof.
  induction 1 as [|x l k _ IH|x y l|x l k _ IH|l k m _ IH1 _ IH2]; rewrite ?filter_cons.
  - done.
  - case_decide; [by apply submseteq_skip|done].
  - repeat case_decide; try done. apply submseteq_swap.
  - case_decide; [by apply submseteq_cons|done].
  - by etransitivity.
Qed.

Lemma counts_sub M L now key g g' l : counts M L now key g l -> g' ⊆+ g ->
  forall t, (Z.of_nat (length (filter (fun s => t <= s < t + L)%Z g')) <= M)%Z.
Proof.
  intros [_ _ _ H] Hg t. specialize (H t). pose proof (submseteq_length _ _ (recent_filter_mono (fun s => t <= s < t + L)%Z _ _ Hg)). lia.
Qed.

(** An admitted attempt of the key: every guess in a window with it is recent. *)
Lemma counts_strike M L now key g l l' s0 until :
  (0 < L)%Z -> counts M L now key g l -> entries l' !! key = Some (mkEntry (s0 ++ [now]) until) ->
  s0 ⊆+ strikesOf key l -> filter (recent L now) s0 = filter (recent L now) (strikesOf key l) ->
  (Z.of_nat (length (s0 ++ [now])) <= M)%Z -> counts M L now key (g ++ [now]) l'.
Proof.
  intros HL HC He Hs0 Hf Hlen. destruct HC as [H1 H2 H3 H4].
  assert (Hst : strikesOf key l' = s0 ++ [now]) by (unfold strikesOf; by rewrite He).
  assert (Hrec : filter (recent L now) (g ++ [now]) ≡ₚ filter (recent L now) (s0 ++ [now])).
  { rewrite !filter_app. by rewrite H2, Hf. }
  split.
  - rewrite Hst. apply submseteq_app; [|done]. by etransitivity.
  - by rewrite Hst.
  - apply Forall_app. split; [done|]. by repeat constructor.
  - intros t. destruct (decide (t <= now < t + L)%Z) as [Hin|Hout].
    + assert (Hsub : filter (fun s => t <= s < t + L)%Z (g ++ [now]) ⊆+ filter (recent L now) (g ++ [now])).
      { clear -Hin H3. assert (HF : Forall (fun s => s <= now)%Z (g ++ [now])) by (apply Forall_app; split; [done|by repeat constructor]).
        revert HF. generalize (g ++ [now]). intros l HF. induction HF as [|x l Hx _ IH]; [done|]. rewrite !filter_cons.
        repeat case_decide; try (by apply submseteq_skip); try (by apply submseteq_cons); try done. unfold recent in *. lia. }
      apply submseteq_length in Hsub. rewrite (Permutation_length Hrec) in Hsub.
      pose proof (submseteq_length _ _ (filter_submseteq (recent L now) (s0 ++ [now]))). lia.
    + rewrite filter_app, (filter_cons_False _ now) by done. rewrite filter_nil, app_nil_r. apply H4.
Qed.

(** ** Settling a reservation *)

Lemma remove_first_perm (at_ : Z) l t : find_first (fun x => (x =? at_)%Z) l = Some t -> l ≡ₚ at_ :: remove_first (fun x => (x =? at_)%Z) l.
Proof.
  induction l as [|x l IH]; simpl; [done|]. destruct (x =? at_)%Z eqn:E; [apply Z.eqb_eq in E; by subst|].
  intros H. rewrite Permutation_swap. by rewrite <- IH.
Qed.

Lemma remove_first_absent (at_ : Z) l : at_ ∉ l -> remove_first (fun x => (x =? at_)%Z) l = l.
Proof.
  intros H. apply remove_first_id, find_first_None. intros x Hx. apply Z.eqb_neq. by intros ->.
Qed.

Lemma find_at (at_ : Z) l : find_first (fun x => (x =? at_)%Z) l = None <-> at_ ∉ l.
Proof.
  rewrite find_first_None. split.
  - intros H Hin. specialize (H _ Hin). by rewrite Z.eqb_refl in H.
  - intros H x Hx. apply Z.eqb_neq. by intros ->.
Qed.

Lemma sorted_sublist (l l' : list Z) : l' `sublist_of` l -> StronglySorted Z.le l -> StronglySorted Z.le l'.
Proof.
  induction 1 as [|x l1 l2 Hs IH|x l1 l2 _ IH]; intros H; [done|..]; apply StronglySorted_inv in H as [H1 H2]; [|by apply IH].
  constructor; [by apply IH|]. rewrite Forall_forall in *. intros y Hy. apply H2. by eapply elem_of_sublist.
Qed.

(** The strikes a cancellation leaves. *)
Lemma cancel_strikes M L now r l key : (0 < L)%Z -> tableOK M L now l ->
  let l' := cancelAttempt (Some r) l in
  tableOK M L now l' /\
  if resKey r =s? key then
    filter (recent L now) (strikesOf key l') = filter (recent L now) (remove_first (fun x => (x =? resAt r)%Z) (strikesOf key l)) /\
    strikesOf key l' ⊆+ remove_first (fun x => (x =? resAt r)%Z) (strikesOf key l)
  else strikesOf key l' = strikesOf key l.
Proof.
  intros HL HT. unfold cancelAttempt. pose proof (tableOK_strikes M L now l (resKey r) HT) as [Hpast Hsort].
  destruct (entries l !! resKey r) as [e|] eqn:E.
  2:{ split; [done|]. case_bool_decide; [|done]. subst key. unfold strikesOf. rewrite E. done. }
  unfold strikesOf in Hpast, Hsort. rewrite E in Hpast, Hsort. simpl in Hpast, Hsort.
  destruct (find_first _ (strikes e)) as [t|] eqn:Ef.
  2:{ split; [done|]. case_bool_decide; [|done]. subst key. unfold strikesOf. rewrite E. simpl. rewrite remove_first_id by done. done. }
  set (s1 := remove_first (fun x => (x =? resAt r)%Z) (strikes e)) in *.
  pose proof (remove_first_sublist (fun x => (x =? resAt r)%Z) (strikes e)) as Hsub. fold s1 in Hsub.
  assert (Hs1 : StronglySorted Z.le s1) by (by eapply sorted_sublist).
  assert (Hp1 : Forall (fun s => s <= now)%Z s1).
  { rewrite Forall_forall in *. intros x Hx. apply Hpast. by eapply elem_of_sublist. }
  destruct (afterNewestGap_suffix (lockoutFor l) s1) as [dr Hdr]. set (s := afterNewestGap (lockoutFor l) s1) in *.
  assert (Hsuf : s `sublist_of` s1) by (rewrite Hdr; by apply sublist_inserts_l).
  assert (Hlen : (S (length s1) = length (strikes e))%nat) by (by eapply remove_first_length).
  destruct HT as (HM & HLl & HF). pose proof (HF _ _ E) as [_ _ Hle _].
  assert (Hlt : (Z.of_nat (length s) < M)%Z) by (apply sublist_length in Hsuf; lia).
  assert (Hent : entryOK M L now (mkEntry s (if (Z.of_nat (length s) <? maxFailures l)%Z then None else lockedUntil e))).
  { rewrite HM. apply Z.ltb_lt in Hlt as Hltb. rewrite Hltb. split; cbn [strikes lockedUntil]; [|by eapply sorted_sublist|lia|done].
    rewrite Forall_forall in *. intros x Hx. apply Hp1. by eapply elem_of_sublist. }
  set (l' := withEntries _ l).
  assert (HS : strikesOf (resKey r) l' = s).
  { unfold l', strikesOf. simpl. destruct (length s =? 0)%nat eqn:E0; [|by rewrite lookup_insert_eq].
    apply Nat.eqb_eq, length_zero_iff_nil in E0. by rewrite lookup_delete_eq, E0. }
  split.
  - split; [done|]. split; [done|]. intros k e' He'. unfold l' in He'. simpl in He'.
    destruct (length s =? 0)%nat; [apply lookup_delete_Some in He' as [_ He']; by eapply HF|].
    apply lookup_insert_Some in He' as [[_ <-]|[_ He']]; [done|by eapply HF].
  - case_bool_decide as Hk.
    + subst key. rewrite HS. unfold strikesOf. rewrite E. simpl. fold s1. split; [|by apply sublist_submseteq].
      unfold s. rewrite HLl. by apply afterNewestGap_recent.
    + unfold l', strikesOf. simpl. destruct (length s =? 0)%nat; [by rewrite lookup_delete_ne|by rewrite lookup_insert_ne].
Qed.

(** Removing one occurrence from both keeps the counts. *)
Lemma counts_remove M L now key g l l' at_ :
  counts M L now key g l ->
  filter (recent L now) (strikesOf key l') = filter (recent L now) (remove_first (fun x => (x =? at_)%Z) (strikesOf key l)) ->
  strikesOf key l' ⊆+ remove_first (fun x => (x =? at_)%Z) (strikesOf key l) ->
  counts M L now key (remove_first (fun x => (x =? at_)%Z) g) l'.
Proof.
  intros HC Hf Hsub. pose proof HC as [H1 H2 H3 _]. set (st := strikesOf key l) in *. set (rm := remove_first _) in *.
  assert (Hg : rm g ⊆+ g) by (apply sublist_submseteq, remove_first_sublist).
  assert (Hcase : (¬ at_ ∈ g /\ ¬ at_ ∈ st) \/ (at_ ∈ g /\ ¬ at_ ∈ st) \/ (at_ ∈ g /\ at_ ∈ st)).
  { destruct (decide (at_ ∈ st)) as [Hin|Hin], (decide (at_ ∈ g)) as [Hin2|Hin2]; auto.
    destruct Hin2. eapply elem_of_submseteq; [exact Hin|exact H1]. }
  assert (HR : rm st ⊆+ rm g /\ filter (recent L now) (rm g) ≡ₚ filter (recent L now) (rm st)).
  { unfold rm. destruct Hcase as [[Ha Hb]|[[Ha Hb]|[Ha Hb]]].
    - by rewrite !remove_first_absent.
    - rewrite (remove_first_absent _ st) by done. destruct (find_first (fun x => (x =? at_)%Z) g) as [t|] eqn:E; [|by apply find_at in E].
      apply remove_first_perm in E. split.
      + rewrite E in H1. apply submseteq_cons_r in H1 as [H1|(k & Hk & _)]; [done|]. destruct Hb. rewrite Hk. left.
      + rewrite <- H2. symmetry. etransitivity; [exact (filter_Permutation _ _ _ E)|]. rewrite filter_cons_False; [done|]. intros Hr.
        assert (Hin : at_ ∈ filter (recent L now) st) by (rewrite <- H2; by apply list_elem_of_filter).
        by apply list_elem_of_filter in Hin as [_ Hin].
    - destruct (find_first (fun x => (x =? at_)%Z) g) as [t|] eqn:E; [|by apply find_at in E].
      destruct (find_first (fun x => (x =? at_)%Z) st) as [t'|] eqn:E'; [|by apply find_at in E'].
      apply remove_first_perm in E, E'. split.
      + rewrite E, E' in H1. by apply (submseteq_app_inv_l _ _ [at_]) in H1.
      + rewrite (filter_Permutation _ _ _ E), (filter_Permutation _ _ _ E') in H2. rewrite !filter_cons in H2.
        case_decide; [by apply Permutation_cons_inv in H2|done]. }
  destruct HR as [HR1 HR2]. split.
  - by etransitivity.
  - by rewrite Hf.
  - rewrite Forall_forall in *. intros x Hx. apply H3. eapply elem_of_submseteq; [exact Hx|done].
  - by eapply counts_sub.
Qed.

Lemma counts_same M L now key g l l' : strikesOf key l' = strikesOf key l -> counts M L now key g l -> counts M L now key g l'.
Proof. intros HE [H1 H2 H3 H4]. split; rewrite ?HE; done. Qed.

Lemma counts_sweep M L now key g l : tableOK M L now l -> counts M L now key g l -> counts M L now key g (sweepIfCrowdedLocked now l).
Proof.
  intros HT [H1 H2 H3 H4]. destruct (sweep_recent M L now l key HT) as [S1 S2]. split; try done.
  - by etransitivity.
  - by rewrite S1.
Qed.

(** ** Whole runs *)

Lemma step_counts M L now key c g l : (0 < L)%Z -> (1 <= M)%Z -> (now <= c.1)%Z -> roomy c l ->
  tableOK M L now l -> counts M L now key g l ->
  tableOK M L c.1 (stepL c l).2 /\ counts M L c.1 key (settle key g (c, (stepL c l).1)) (stepL c l).2.
Proof.
  intros HL HM Hle Hroom HT HC. apply (tableOK_later _ _ _ _ _ Hle) in HT. apply (counts_later _ _ _ _ _ _ _ Hle) in HC.
  destruct c as [t [k|[r|]|k]]; unfold stepL; cbn [fst snd] in *.
  - pose proof (sweep_ok _ _ _ _ HT) as HT1. pose proof (counts_sweep _ _ _ key _ _ HT HC) as HC1.
    destruct (tryAttempt_spec M L t k l HL HM HT Hroom) as [[w ->]|(s0 & until & -> & H1 & H2 & H3)]; [done|].
    cbn [settle fst snd]. split.
    + destruct HT1 as (E1 & E2 & E3). split; [done|]. split; [done|]. simpl. by apply map_Forall_insert_2.
    + case_bool_decide as Hk.
      * subst k. eapply counts_strike; [done|exact HC1| |exact H1|exact H2|apply H3]. simpl. by rewrite lookup_insert_eq.
      * eapply counts_same; [|exact HC1]. unfold strikesOf. simpl. by rewrite lookup_insert_ne.
  - cbn [settle]. destruct (cancel_strikes M L t r l key HL HT) as [H1 H2]. split; [done|].
    case_bool_decide as Hk; [|by eapply counts_same]. destruct H2 as [H2 H3]. by eapply counts_remove.
  - done.
  - cbn [settle]. unfold recordSuccess. split.
    + destruct HT as (E1 & E2 & E3). split; [done|]. split; [done|]. simpl. by apply map_Forall_delete.
    + case_bool_decide as Hk.
      * subst k. unfold strikesOf. assert (HS : strikesOf key (withEntries (delete key (entries l)) l) = []).
        { unfold strikesOf. simpl. by rewrite lookup_delete_eq. }
        split; rewrite ?HS; try done. intros w. simpl. lia.
      * eapply counts_same; [|exact HC]. unfold strikesOf. simpl. by rewrite lookup_delete_ne.
Qed.

Lemma run_counts M L key tr now g l : (0 < L)%Z -> (1 <= M)%Z ->
  Sorted Z.le (now :: (fst <$> tr)) -> roomyRun tr l -> tableOK M L now l -> counts M L now key g l ->
  forall t, (Z.of_nat (length (filter (fun s => t <= s < t + L)%Z (foldl (settle key) g (run_trace stepL tr l).1))) <= M)%Z.
Proof.
  intros HL HM. revert now g l. induction tr as [|c tr IH]; intros now g l Hs Hroom HT HC; [by apply HC|].
  destruct Hroom as [Hr1 Hr2]. csimpl in Hs. apply Sorted_inv in Hs as [Hs Hd]. apply HdRel_inv in Hd.
  destruct (step_counts M L now key c g l HL HM Hd Hr1 HT HC) as [HT' HC']. simpl.
  destruct (stepL c l) as [a l'] eqn:E. simpl in *. specialize (IH c.1 _ l' Hs Hr2 HT' HC').
  destruct (run_trace stepL tr l') as [log l2] eqn:E2. simpl in *. exact IH.
Qed.

(** The lockout bounds guessing: while the table has room, whatever
    requests interleave on whatever keys, in any window of the lockout's length
    the attempts of one key that were admitted and turned out wrong (not
    cancelled, not followed by a success) are at most the configured number; a
    concurrent burst cannot all pass the check, and refunds never turn into
    extra attempts. *)
Lemma lockout_bounds_guesses (M L threshold cap now : Z) (tr : list lcall) (key : gostr) (t : Z) :
  let l := newFailureLockoutSized M L threshold cap in
  (0 < L)%Z -> (1 <= M)%Z -> Sorted Z.le (now :: (fst <$> tr)) -> roomyRun tr l ->
  (Z.of_nat (length (filter (fun s => t <= s < t + L)%Z (guesses key (run_trace stepL tr l).1))) <= M)%Z.
Proof.
  intros l HL HM Hs Hroom. eapply run_counts; [done|done|exact Hs|done| |].
  - split; [done|]. split; [done|]. apply map_Forall_empty.
  - split; try done. intros w. simpl. lia.
Qed.

(** ** A live lockout *)

(** The operations that may touch the entry of [key]: settling its own
    reservations. *)
Definition settles (key : gostr) (o : lockoutOp) : bool :=
  match o with LSuccess k => k =s? key | LCancel (Some r) => resKey r =s? key | _ => false end.

Lemma victimOf_unlocked now l best k o :
  victimOf now best l = Some (k, o) -> best = Some (k, o) \/ exists e, (k, e) ∈ l /\ lockedAt now e = false.
Proof.
  revert best. induction l as [|[k1 e1] l IH]; intros best H; cbn [victimOf] in H; [by left|].
  assert (Hrec : forall b, victimOf now b l = Some (k, o) -> lockedAt now e1 = false -> b = best \/ b = Some (k1, lastStrike e1) ->
    best = Some (k, o) \/ exists e, (k, e) ∈ (k1, e1) :: l /\ lockedAt now e = false).
  { intros b Hb Hun Hor. apply IH in Hb as [Hb|(e & He & Hl)]; [|right; exists e; split; [by right|done]].
    destruct Hor as [->| ->]; [by left|]. injection Hb as -> _. right. exists e1. split; [left|done]. }
  destruct (lockedAt now e1) eqn:El.
  - apply IH in H as [H|(e & He & Hl)]; [by left|]. right. exists e. split; [by right|done].
  - destruct best as [[kb ob]|]; [destruct (timeBefore _ _)|]; eapply Hrec; eauto.
Qed.

Lemma evict_keeps now l key e : entries l !! key = Some e -> lockedAt now e = true ->
  entries (evictOldestUnlockedLocked now l).2 !! key = Some e.
Proof.
  intros He Hl. unfold evictOldestUnlockedLocked. destruct (victimOf _ _ _) as [[v o]|] eqn:E; [|done]. simpl.
  apply victimOf_unlocked in E as [E|(e' & Hin & Hl')]; [done|]. rewrite range_order_perm in Hin. apply elem_of_map_to_list in Hin.
  rewrite lookup_delete_ne; [done|]. intros ->. congruence.
Qed.

Lemma step_keeps_lock c l key e : entries l !! key = Some e -> lockedAt c.1 e = true -> settles key c.2 = false ->
  entries (stepL c l).2 !! key = Some e /\
  (c.2 = LTry key -> (stepL c l).1 = Some (false, default 0 (lockedUntil e) - c.1, None)%Z).
Proof.
  destruct c as [t [k|[r|]|k]]; unfold stepL; cbn [fst snd settles]; intros He Hl Hset.
  - assert (Hsw : entries (sweepIfCrowdedLocked t l) !! key = Some e).
    { destruct (sweep_lookup t l key) as [->|[_ (e' & He' & Hk)]]; [done|]. simplify_eq. unfold sweepKeeps in Hk. by rewrite Hl in Hk. }
    unfold tryAttempt. destruct (decide (k = key)) as [->|Hne].
    + rewrite Hsw, Hl. done.
    + split; [|by intros [= ->]].
      assert (HS : forall e0 l0, entries l0 !! key = Some e -> entries (strike t k e0 l0).2 !! key = Some e).
      { intros e0 l0 H0. unfold strike. simpl. by rewrite lookup_insert_ne. }
      destruct (entries (sweepIfCrowdedLocked t l) !! k) as [ek|] eqn:Ek.
      * pose proof (HS (mkEntry [] None) _ Hsw) as HS1. pose proof (HS ek _ Hsw) as HS2.
        destruct (lockedAt t ek); [done|]. destruct (lockedUntil ek); [by destruct (strike _ _ _ _)|].
        destruct (sinceAtLeast _ _ _); by destruct (strike _ _ _ _).
      * destruct (hardCap _ <=? _)%Z.
        -- pose proof (evict_keeps t (withSaturated true (sweepIfCrowdedLocked t l)) key e Hsw Hl) as Hev.
           destruct (evictOldestUnlockedLocked _ _) as [[] l1]; simpl in Hev; [|done].
           specialize (HS (mkEntry [] None) l1 Hev). by destruct (strike _ _ _ l1).
        -- specialize (HS (mkEntry [] None) _ Hsw). by destruct (strike _ _ _ _).
  - apply bool_decide_eq_false in Hset. split; [|done]. unfold cancelAttempt. repeat (case_match; try done); simpl;
      by rewrite ?lookup_delete_ne, ?lookup_insert_ne.
  - done.
  - apply bool_decide_eq_false in Hset. split; [|done]. unfold recordSuccess. simpl. by rewrite lookup_delete_ne.
Qed.

(** A live lockout cannot be washed out: until it ends, however many
    other keys flood the table, sweeps and evictions included, every attempt of
    the locked key is refused with the time left, unless a reservation of that
    key is settled. *)
Lemma live_lockout_survives_flood (tr : list lcall) (l : failureLockout) (key : gostr) (e : loginLockoutEntry) (until : Z) :
  entries l !! key = Some e -> lockedUntil e = Some until ->
  Forall (fun c => (c.1 < until)%Z /\ settles key c.2 = false) tr ->
  entries (run_trace stepL tr l).2 !! key = Some e /\
  Forall (fun ca => ca.1.2 = LTry key -> ca.2 = Some (false, until - ca.1.1, None)%Z) (run_trace stepL tr l).1.
Proof.
  intros He Hu HF. revert l He. induction HF as [|c tr [Hlt Hset] _ IH]; intros l He; [split; [done|constructor]|].
  assert (Hl : lockedAt c.1 e = true) by (unfold lockedAt; rewrite Hu; by apply Z.ltb_lt).
  destruct (step_keeps_lock c l key e He Hl Hset) as [H1 H2]. simpl. destruct (stepL c l) as [a l'] eqn:E. simpl in *.
  destruct (IH l' H1) as [H3 H4]. destruct (run_trace stepL tr l') as [log l2]. simpl in *. split; [done|].
  constructor; [|done]. simpl. intros Hc. rewrite (H2 Hc), Hu. done.
Qed.
End Runs.
