(* ===== verification/Pow.v ===== *)
(** * Pow: the proof-of-work login challenge (backend/internal/captcha/pow.go,
    backend/internal/api/pow_escalation.go)

    [PoWVerifier] issues signed challenges and admits each once, at the address
    it was issued to and before it expires; module [Escalation] is the table
    that prices an address by its recent failures.  HMAC-SHA-256 under the
    server's key, SHA-256 and the JSON reader of a solution are parameters; the
    clock (nanoseconds), the random salt and the random number are arguments. *)

From S2P Require Import Prelude GoText GoCodec SendAs.

(** ** Challenges and solutions *)

Record Challenge := mkChallengeP {
  chAlgorithm : gostr; chSalt : gostr; chChallenge : gostr; chMaxNumber : Z; chExpires : Z;
  chClientIP : gostr; chSignature : gostr;
}.
Record solution := mkSolution { solChallenge : Challenge; solNumber : Z }.

Class PowCrypto := {
  hmacKeyed : gostr -> list Z;
  sha256Sum : gostr -> list Z;
  unmarshalSolution : list Z -> option solution;
}.

Inductive powError := ErrChallengeExpired | ErrChallengeWrongClient.

Definition second : Z := 1000000000.
Definition powChallengeTTL : Z := 5 * 60 * second.
Definition defaultPoWMaxNumber : Z := 5000.
Definition algorithmSHA256 : gostr := $"SHA-256".

(** The verifier's configuration and its cache of spent salts, with the Unix
    time each challenge expires at. *)
Record PoWVerifier := mkPoW { powMaxNumber : Z; spent : gmap gostr Z }.

Definition newPoWVerifier (hmacKey : gostr) (maxNumber : Z) : option PoWVerifier :=
  if bool_decide (hmacKey = []) then None
  else Some (mkPoW (if (maxNumber <=? 0)%Z then defaultPoWMaxNumber else maxNumber) ∅).

(** [now.After(time.Unix(expires, 0))]. *)
Definition pastExpiry (now expires : Z) : bool := (expires * second <? now)%Z.

(** The text under the signature: ["%s|%s|%d|%d|%s"]. *)
Definition signText (salt challenge : gostr) (maxNumber expires : Z) (clientIP : gostr) : gostr :=
  join [124%Z] [salt; challenge; formatInt maxNumber; formatInt expires; clientIP].
Definition challengeText (c : Challenge) : gostr :=
  signText (chSalt c) (chChallenge c) (chMaxNumber c) (chExpires c) (chClientIP c).

Section Verifier.
Context {C : PowCrypto}.

Definition sign (salt challenge : gostr) (maxNumber expires : Z) (clientIP : gostr) : gostr :=
  hexEncode (hmacKeyed (signText salt challenge maxNumber expires clientIP)).

Definition solves (salt challenge : gostr) (n : Z) : bool := hexEncode (sha256Sum (salt ++ formatInt n)) =s? challenge.

(** IssueAt: [saltBytes] is what rand.Read filled in, [draw] what rand.Int
    answered for the bound, if it succeeded. *)
Definition issueAt (now : Z) (clientIP : gostr) (maxNumber : Z) (saltBytes : list Z) (draw : Z -> option Z) (v : PoWVerifier) :
    option Challenge :=
  let maxNumber := if (maxNumber <=? 0)%Z then powMaxNumber v else maxNumber in
  let salt := hexEncode saltBytes in
  n ← draw (maxNumber + 1)%Z;
  let challenge := hexEncode (sha256Sum (salt ++ formatInt n)) in
  let expires := ((now + powChallengeTTL) / second)%Z in
  Some (mkChallengeP algorithmSHA256 salt challenge maxNumber expires clientIP (sign salt challenge maxNumber expires clientIP)).

(** consume: check and insert under one lock. *)
Definition consume (salt : gostr) (expires : Z) (v : PoWVerifier) : bool * PoWVerifier :=
  match spent v !! salt with
  | Some _ => (false, v)
  | None => (true, mkPoW (powMaxNumber v) (<[salt := expires]> (spent v)))
  end.

Definition readSolution (token : gostr) : option solution :=
  raw ← base64Decode (trimSpace token); unmarshalSolution raw.

Definition verify (now : Z) (token remoteIP : gostr) (v : PoWVerifier) : (bool * option powError) * PoWVerifier :=
  match base64Decode (trimSpace token) with
  | None => ((false, None), v)
  | Some raw =>
      match unmarshalSolution raw with
      | None => ((false, None), v)
      | Some sol =>
          let c := solChallenge sol in
          if negb (chAlgorithm c =s? algorithmSHA256) then ((false, None), v)
          else if negb (chSignature c =s? sign (chSalt c) (chChallenge c) (chMaxNumber c) (chExpires c) (chClientIP c))
          then ((false, None), v)
          else if pastExpiry now (chExpires c) then ((false, Some ErrChallengeExpired), v)
          else if negb (chClientIP c =s? remoteIP) then ((false, Some ErrChallengeWrongClient), v)
          else if (solNumber sol <? 0)%Z || (chMaxNumber c <? solNumber sol)%Z then ((false, None), v)
          else if negb (solves (chSalt c) (chChallenge c) (solNumber sol)) then ((false, None), v)
          else let '(ok, v') := consume (chSalt c) (chExpires c) v in ((ok, None), v')
      end
  end.

Definition sweepSpent (now : Z) (v : PoWVerifier) : PoWVerifier :=
  mkPoW (powMaxNumber v) (filter (fun se => pastExpiry now se.2 = false) (spent v)).

(** ** Runs *)

Inductive powOp :=
  | PVerify (token remoteIP : gostr)
  | PSweep.
Abbreviation pcall := (Z * powOp)%type.

Definition stepP (c : pcall) (v : PoWVerifier) : option (bool * option powError) * PoWVerifier :=
  match c.2 with
  | PVerify token ip => let '(a, v') := verify c.1 token ip v in (Some a, v')
  | PSweep => (None, sweepSpent c.1 v)
  end.

(** An accepted solution of the challenge with this salt and expiry. *)
Definition spends (salt : gostr) (expires : Z) (c : pcall) (a : option (bool * option powError)) : bool :=
  match c.2, a with
  | PVerify token _, Some (true, _) =>
      match readSolution token with
      | Some sol => (chSalt (solChallenge sol) =s? salt) && (chExpires (solChallenge sol) =? expires)%Z
      | None => false
      end
  | _, _ => false
  end.

(** ** What an accepted solution is *)

Lemma verify_accepts now token ip v e v' : verify now token ip v = ((true, e), v') ->
  exists sol, readSolution token = Some sol /\ let c := solChallenge sol in
    chSignature c = hexEncode (hmacKeyed (challengeText c)) /\ pastExpiry now (chExpires c) = false /\ chClientIP c = ip /\
    (0 <= solNumber sol <= chMaxNumber c)%Z /\ solves (chSalt c) (chChallenge c) (solNumber sol) = true /\
    spent v !! chSalt c = None /\ v' = mkPoW (powMaxNumber v) (<[chSalt c := chExpires c]> (spent v)) /\
    chAlgorithm c = algorithmSHA256.
Proof.
  unfold verify, readSolution. destruct (base64Decode _) as [raw|]; simpl; [|done].
  destruct (unmarshalSolution raw) as [sol|]; [|done]. intros H. exists sol. split; [done|]. cbv zeta in *.
  destruct (chAlgorithm _ =s? _) eqn:E1; cbn [negb] in H; [|done]. destruct (chSignature _ =s? _) eqn:E2; cbn [negb] in H; [|done].
  destruct (pastExpiry _ _) eqn:E3; [done|]. destruct (chClientIP _ =s? ip) eqn:E4; cbn [negb] in H; [|done].
  destruct (_ || _) eqn:E5; [done|]. destruct (solves _ _ _) eqn:E6; cbn [negb] in H; [|done].
  unfold consume in H. destruct (spent v !! _) eqn:E7; [done|]. simplify_eq. to_prop. repeat split; try done; lia.
Qed.

(** ** The signed text has one reading *)

Definition piped (s : gostr) : Prop := 124%Z ∈ s.

Lemma formatInt_no_pipe n : ~ piped (formatInt n).
Proof.
  assert (H : forall m, (0 <= m)%Z -> ~ piped (decimalFuel (Z.to_nat (Z.log2 m) + 1) m)).
  { intros m Hm Hin. pose proof (decimalFuel_digits (Z.to_nat (Z.log2 m) + 1) m Hm) as HF. rewrite Forall_forall in HF.
    apply HF in Hin. lia. }
  unfold formatInt. destruct (Z.ltb_spec n 0); [|by apply H].
  intros Hin%elem_of_cons. destruct Hin as [?|Hin]; [done|]. apply (H (- n)%Z); [lia|done].
Qed.

Lemma formatInt_inj n m : formatInt n = formatInt m -> n = m.
Proof.
  assert (HP : forall k, (0 <= k)%Z -> exists d r, formatInt k = d :: r /\ (48 <= d)%Z).
  { intros k Hk. pose proof (formatInt_digits k Hk) as HF. pose proof (formatInt_ne k).
    destruct (formatInt k) as [|d r]; [done|]. apply Forall_cons in HF as [? _]. exists d, r. split; [done|lia]. }
  assert (HN : forall k, (k < 0)%Z -> formatInt k = 45%Z :: formatInt (- k)).
  { intros k Hk. unfold formatInt. destruct (Z.ltb_spec k 0); [|lia]. by destruct (Z.ltb_spec (- k) 0); [lia|]. }
  intros E. destruct (Z.ltb_spec n 0), (Z.ltb_spec m 0).
  - rewrite (HN n), (HN m) in E by done. injection E as E. assert (Some (- n)%Z = Some (- m)%Z) as [= Hnm]; [|lia].
    rewrite <- !formatInt_parse by lia. by rewrite E.
  - rewrite (HN n) in E by done. destruct (HP m) as (d & r & E2 & ?); [done|]. rewrite E2 in E. injection E as ? _. lia.
  - rewrite (HN m) in E by done. destruct (HP n) as (d & r & E2 & ?); [done|]. rewrite E2 in E. injection E as ? _. lia.
  - assert (Some n = Some m) as [= Hnm]; [|done]. rewrite <- !formatInt_parse by done. by rewrite E.
Qed.

Lemma length_splitOn_app sep s t : length (splitOn sep (s ++ sep :: t)) = (length (splitOn sep s) + length (splitOn sep t))%nat.
Proof.
  induction s as [|c s IH]; simpl; [by rewrite Z.eqb_refl|]. pose proof (splitOn_ne sep s). pose proof (splitOn_ne sep (s ++ sep :: t)).
  destruct (c =? sep)%Z; simpl; [by rewrite IH|]. destruct (splitOn sep s), (splitOn sep (s ++ sep :: t)); simpl in *; done.
Qed.

Lemma splitOn_one sep s : length (splitOn sep s) = 1%nat -> ~ sep ∈ s.
Proof.
  intros H Hin. apply list_elem_of_split in Hin as (s1 & s2 & ->). rewrite length_splitOn_app in H.
  pose proof (splitOn_ne sep s1). pose proof (splitOn_ne sep s2). destruct (splitOn sep s1), (splitOn sep s2); simpl in *; try done; lia.
Qed.

Lemma splitOn_pos sep s : (1 <= length (splitOn sep s))%nat.
Proof. pose proof (splitOn_ne sep s). destruct (splitOn sep s); simpl; [done|lia]. Qed.

(** Only a text of pipe-free fields has five of them. *)
Lemma signText_fields a b m e d a' b' m' e' d' :
  ~ piped a -> ~ piped b -> ~ piped d -> signText a' b' m' e' d' = signText a b m e d ->
  a' = a /\ b' = b /\ m' = m /\ e' = e /\ d' = d.
Proof.
  intros Ha Hb Hd E. unfold signText in E.
  assert (Hfive : forall l, Forall (fun w => ~ piped w) l -> l ≠ [] -> splitOn 124 (join [124%Z] l) = l).
  { intros l Hl Hne. by apply splitOn_join. }
  pose proof (Hfive [a; b; formatInt m; formatInt e; d]) as H1. rewrite <- E in H1.
  assert (Hlen : length (splitOn 124 (join [124%Z] [a'; b'; formatInt m'; formatInt e'; d'])) = 5%nat).
  { rewrite H1; [done| |done]. repeat (constructor; [first [done|apply formatInt_no_pipe]|]). constructor. }
  assert (Hno : ~ piped a' /\ ~ piped b' /\ ~ piped d').
  { rewrite !join_cons in Hlen by done. simpl app in Hlen. cbn [join] in Hlen. rewrite !length_splitOn_app in Hlen.
    pose proof (splitOn_pos 124 a'). pose proof (splitOn_pos 124 b'). pose proof (splitOn_pos 124 (formatInt m')).
    pose proof (splitOn_pos 124 (formatInt e')). pose proof (splitOn_pos 124 d'). repeat split; apply splitOn_one; lia. }
  destruct Hno as (Ha' & Hb' & Hd'). rewrite Hfive in H1; try done.
  2: repeat (constructor; [first [done|apply formatInt_no_pipe]|]); constructor.
  assert (HF : [a'; b'; formatInt m'; formatInt e'; d'] = [a; b; formatInt m; formatInt e; d]).
  { apply H1; [|done]. repeat (constructor; [first [done|apply formatInt_no_pipe]|]). constructor. }
  injection HF as -> -> E1 E2 ->. by rewrite (formatInt_inj _ _ E1), (formatInt_inj _ _ E2).
Qed.

Lemma hexDigit_no_pipe n : (0 <= n < 16)%Z -> hexDigit n ≠ 124%Z.
Proof. intros. unfold hexDigit. destruct (n <? 10)%Z; lia. Qed.
Lemma hexEncode_no_pipe l : Forall byteOK l -> ~ piped (hexEncode l).
Proof.
  unfold piped, hexEncode. intros HF Hin. apply list_elem_of_bind in Hin as (b & Hin & Hb). rewrite Forall_forall in HF.
  apply HF in Hb. rewrite !elem_of_cons, elem_of_nil in Hin.
  destruct Hin as [Hin|[Hin|[]]]; symmetry in Hin; apply hexDigit_no_pipe in Hin; bytes.
Qed.

(** A challenge this server handed out, at some time and with some state. *)
Definition minted (c : Challenge) : Prop :=
  exists now ip maxNumber saltBytes draw v, issueAt now ip maxNumber saltBytes draw v = Some c /\
    ~ piped ip /\ Forall byteOK saltBytes.

Lemma minted_signed c c' : (forall text, Forall byteOK (sha256Sum text)) -> minted c -> challengeText c' = challengeText c ->
  chAlgorithm c' = algorithmSHA256 -> chSignature c' = hexEncode (hmacKeyed (challengeText c')) -> c' = c.
Proof.
  intros Hsha (now & ip & m & sb & dr & v & Hiss & Hnp & Hb) Et Ha Hs. unfold issueAt in Hiss.
  destruct (dr _) as [n|]; [|done]. cbn [mbind option_bind] in Hiss. injection Hiss as <-. destruct c' as [alg a b x e d sg].
  unfold challengeText in *. cbn in *. apply signText_fields in Et as (-> & -> & -> & -> & ->); [|by apply hexEncode_no_pipe..|done].
  by subst.
Qed.

(** A login solution is accepted only for a challenge this server issued,
    unaltered in every field, presented from the address it was issued to,
    before its expiry, with a number within its range that solves it, and never
    twice while remembered, provided a valid signature only exists on texts the
    server signed: the joined text cannot be read as other fields. *)
Lemma pow_accepts_only_issued (now : Z) (token ip : gostr) (e : option powError) (v v' : PoWVerifier) (issued : list Challenge) :
  Forall minted issued -> (forall text, Forall byteOK (sha256Sum text)) ->
  (forall sol, readSolution token = Some sol ->
     chSignature (solChallenge sol) = hexEncode (hmacKeyed (challengeText (solChallenge sol))) ->
     exists c, c ∈ issued /\ challengeText c = challengeText (solChallenge sol)) ->
  verify now token ip v = ((true, e), v') ->
  exists sol, readSolution token = Some sol /\ solChallenge sol ∈ issued /\ chClientIP (solChallenge sol) = ip /\
    (now <= chExpires (solChallenge sol) * second)%Z /\ (0 <= solNumber sol <= chMaxNumber (solChallenge sol))%Z /\
    hexEncode (sha256Sum (chSalt (solChallenge sol) ++ formatInt (solNumber sol))) = chChallenge (solChallenge sol) /\
    spent v !! chSalt (solChallenge sol) = None.
Proof.
  intros HI Hsha HU H. apply verify_accepts in H as (sol & Hr & HH). cbv zeta in HH.
  destruct HH as (Hs & Hx & Hip & Hn & Hh & Hv & _ & Ha). exists sol. split; [done|].
  destruct (HU sol Hr Hs) as (c & Hc & Et). rewrite Forall_forall in HI.
  pose proof (minted_signed _ _ Hsha (HI c Hc) (eq_sym Et) Ha Hs) as Hcs. rewrite <- Hcs in Hc.
  unfold solves in Hh. apply bool_decide_eq_true in Hh. unfold pastExpiry in Hx. apply Z.ltb_ge in Hx. auto 10.
Qed.

(** ** Spending a challenge *)

(** A challenge that was spent stays unusable: its salt is remembered until the
    challenge has expired. *)
Definition dead (salt : gostr) (expires now : Z) (v : PoWVerifier) : Prop :=
  spent v !! salt = Some expires \/ pastExpiry now expires = true.

Lemma pastExpiry_later now now' x : (now <= now')%Z -> pastExpiry now x = true -> pastExpiry now' x = true.
Proof. unfold pastExpiry. rewrite !Z.ltb_lt. lia. Qed.

Lemma stepP_dead salt x c v now : (now <= c.1)%Z -> dead salt x now v ->
  dead salt x c.1 (stepP c v).2 /\ spends salt x c (stepP c v).1 = false.
Proof.
  intros Hle Hd. assert (Hd' : dead salt x c.1 v) by (destruct Hd as [?|?]; [by left|right; by eapply pastExpiry_later]).
  destruct c as [t [token ip|]]; unfold stepP; cbn [fst snd] in *.
  - destruct (verify t token ip v) as [[ok e] v'] eqn:E. cbn [fst snd].
    assert (Hv : v' = v \/ ok = true).
    { unfold verify, consume in E. repeat (case_match; simplify_eq/=; auto). }
    destruct ok; [|by destruct Hv as [->|?]].
    apply verify_accepts in E as (sol & Hr & HH). cbv zeta in HH. destruct HH as (_ & Hx & _ & _ & _ & Hn & -> & _).
    unfold spends. cbn [fst snd]. rewrite Hr. destruct (chSalt _ =s? salt) eqn:Es; to_prop; simpl.
    + subst salt. destruct Hd' as [Hd'|Hd']; [congruence|]. split; [by right|]. apply Z.eqb_neq. intros <-. congruence.
    + split; [|done]. destruct Hd' as [Hd'|]; [left|by right]. simpl. by rewrite lookup_insert_ne.
  - split; [|done]. destruct Hd' as [Hd'|]; [|by right]. destruct (pastExpiry t x) eqn:Ex; [by right|]. left.
    by apply map_lookup_filter_Some_2.
Qed.

Lemma run_dead salt x tr v now : Sorted Z.le (now :: (fst <$> tr)) -> dead salt x now v ->
  count_log (spends salt x) (run_trace stepP tr v).1 = 0%Z.
Proof.
  revert now v. induction tr as [|c tr IH]; intros now v Hs Hd; [done|]. csimpl in Hs.
  apply Sorted_inv in Hs as [Hs Hh]. apply HdRel_inv in Hh. destruct (stepP_dead salt x c v now Hh Hd) as [Hd' Hz].
  simpl. destruct (stepP c v) as [a v'] eqn:E. cbn [fst snd] in *. specialize (IH c.1 v' Hs Hd').
  destruct (run_trace stepP tr v') as [log v2]. simpl in *. by rewrite Hz.
Qed.

(** A challenge buys one attempt: in any run of verifications and sweeps
    along a clock that does not go back, from any cache, the solutions of one
    challenge that are accepted number at most one; a sweep never forgets a salt
    that could still be replayed. *)
Lemma pow_challenge_spent_once (tr : list pcall) (v : PoWVerifier) (now : Z) (salt : gostr) (expires : Z) :
  Sorted Z.le (now :: (fst <$> tr)) -> (count_log (spends salt expires) (run_trace stepP tr v).1 <= 1)%Z.
Proof.
  revert now v. induction tr as [|c tr IH]; intros now v Hs; [done|]. csimpl in Hs. apply Sorted_inv in Hs as [Hs Hh].
  simpl. destruct (stepP c v) as [a v'] eqn:E. destruct (spends salt expires c a) eqn:Ea.
  - assert (Hd : dead salt expires c.1 v').
    { destruct c as [t [token ip|]]; [|done]. unfold stepP in E. cbn [fst snd] in E.
      destruct (verify t token ip v) as [[[] e] v2] eqn:Ev; simplify_eq; left.
      apply verify_accepts in Ev as (sol & Hr & HH). cbv zeta in HH. destruct HH as (_ & _ & _ & _ & _ & _ & -> & _).
      unfold spends in Ea. cbn [fst snd] in Ea. rewrite Hr in Ea. to_prop. subst. simpl. by rewrite lookup_insert_eq. }
    pose proof (run_dead salt expires tr v' c.1 Hs Hd) as H0. destruct (run_trace stepP tr v') as [log v2]. simpl in *.
    rewrite Ea, H0. done.
  - specialize (IH c.1 v' Hs). destruct (run_trace stepP tr v') as [log v2]. simpl in *. by rewrite Ea.
Qed.

(** The honest client gets in: the number the server drew, sent back with
    the challenge from the address that asked, is accepted until the challenge
    expires, whatever difficulty other addresses are at, and its salt is spent. *)
Lemma pow_honest_client_accepted (v v' : PoWVerifier) (now later m : Z) (ip token : gostr) (saltBytes : list Z) (n : Z) (c : Challenge) :
  issueAt now ip m saltBytes (fun bound => Some (n mod bound)%Z) v = Some c -> (0 <= powMaxNumber v)%Z ->
  readSolution token = Some (mkSolution c (n mod (chMaxNumber c + 1))%Z) ->
  (later <= now + powChallengeTTL - second)%Z -> spent v' !! chSalt c = None ->
  verify later token ip v' = ((true, None), mkPoW (powMaxNumber v') (<[chSalt c := chExpires c]> (spent v'))).
Proof.
  intros Hi Hm Hr Hl Hn. unfold readSolution in Hr. unfold verify. destruct (base64Decode _) as [raw|]; [|done].
  cbn [mbind option_bind] in Hr. rewrite Hr. unfold issueAt in Hi. cbn [mbind option_bind] in Hi. injection Hi as <-.
  cbn [solChallenge solNumber chAlgorithm chSignature chSalt chChallenge chMaxNumber chExpires chClientIP] in *.
  rewrite !bool_decide_eq_true_2 by done. cbn [negb]. set (mx := if (m <=? 0)%Z then powMaxNumber v else m) in *.
  assert (Hx : pastExpiry later ((now + powChallengeTTL) / second) = false).
  { unfold pastExpiry. apply Z.ltb_ge. unfold second in *. Z.div_mod_to_equations. lia. }
  assert (Hb : (0 <= n mod (mx + 1) < mx + 1)%Z).
  { apply Z.mod_pos_bound. subst mx. destruct (Z.leb_spec m 0); lia. }
  rewrite Hx. assert (Hr1 : (n mod (mx + 1) <? 0)%Z || (mx <? n mod (mx + 1))%Z = false).
  { apply orb_false_iff. rewrite !Z.ltb_ge. lia. }
  rewrite Hr1. unfold solves. rewrite bool_decide_eq_true_2 by done. cbn [negb]. unfold consume. by rewrite Hn.
Qed.
End Verifier.

(** * The price of an address *)

Module Escalation.

(** The zero time of [expiresAt], which only a new entry has, is [None]. *)
Record powEscalationEntry := mkPE { byAccount : gmap gostr Z; expiresAt : option Z }.
Record powEscalation := mkEsc { escEntries : gmap gostr powEscalationEntry; escSweepThreshold : Z }.

Definition powEscalationFactor : Z := 4.
Definition powMaxNumberCeiling : Z := 1000000.
Definition powEscalationDecay : Z := 15 * 60 * second.
Definition maxPowEscalationAccountsPerIP : Z := 256.

Definition newPowEscalation : powEscalation := mkEsc ∅ 10000.

Definition total (e : powEscalationEntry) : Z := map_fold (fun _ n sum => sum + n)%Z 0%Z (byAccount e).

(** [now.After(e.expiresAt)]; the zero time is before every other. *)
Definition decayed (now : Z) (e : powEscalationEntry) : bool :=
  match expiresAt e with Some x => (x <? now)%Z | None => true end.

Definition sweepExpiredLocked (now : Z) (p : powEscalation) : powEscalation :=
  mkEsc (filter (fun ie => decayed now ie.2 = false) (escEntries p)) (escSweepThreshold p).

(** Counting the failure on the entry [recordFailure] settled on. *)
Definition countFailure (account : gostr) (now : Z) (e : powEscalationEntry) : powEscalationEntry :=
  mkPE (if bool_decide (is_Some (byAccount e !! account)) || (Z.of_nat (size (byAccount e)) <? maxPowEscalationAccountsPerIP)%Z
        then <[account := default 0 (byAccount e !! account) + 1]> (byAccount e) else byAccount e)%Z
       (match expiresAt e with Some x => Some x | None => Some (now + powEscalationDecay)%Z end).

Definition recordFailure (ip account : gostr) (now : Z) (p : powEscalation) : powEscalation :=
  match escEntries p !! ip with
  | Some e =>
      let e := if decayed now e then mkPE ∅ None else e in
      mkEsc (<[ip := countFailure account now e]> (escEntries p)) (escSweepThreshold p)
  | None =>
      let p := if (escSweepThreshold p <=? Z.of_nat (size (escEntries p)))%Z then sweepExpiredLocked now p else p in
      mkEsc (<[ip := countFailure account now (mkPE ∅ None)]> (escEntries p)) (escSweepThreshold p)
  end.

Definition clearAccount (ip account : gostr) (p : powEscalation) : powEscalation :=
  match escEntries p !! ip with
  | None => p
  | Some e =>
      let m := delete account (byAccount e) in
      mkEsc (if bool_decide (size m = 0) then delete ip (escEntries p) else <[ip := mkPE m (expiresAt e)]> (escEntries p))
            (escSweepThreshold p)
  end.

(** The loop of maxNumberFor, once per failure. *)
Fixpoint raise (failures : nat) (maxNumber : Z) : Z :=
  match failures with
  | O => if (powMaxNumberCeiling <? maxNumber)%Z then powMaxNumberCeiling else maxNumber
  | S failures =>
      if (powMaxNumberCeiling / powEscalationFactor <=? maxNumber)%Z then powMaxNumberCeiling
      else raise failures (maxNumber * powEscalationFactor)%Z
  end.
Definition maxNumberFor (ip : gostr) (base now : Z) (p : powEscalation) : Z :=
  match escEntries p !! ip with
  | None => base
  | Some e => if decayed now e then base else raise (Z.to_nat (total e)) base
  end.

(** ** The price *)

Lemma raise_spec n b : (0 < b)%Z -> raise n b = Z.min powMaxNumberCeiling (b * powEscalationFactor ^ Z.of_nat n).
Proof.
  unfold powMaxNumberCeiling, powEscalationFactor. revert b. induction n as [|n IH]; intros b Hb; cbn [raise];
    unfold powMaxNumberCeiling, powEscalationFactor.
  - destruct (Z.ltb_spec 1000000 b); simpl; lia.
  - assert (Hp : (4 ^ Z.of_nat (S n) = 4 * 4 ^ Z.of_nat n)%Z) by (rewrite Nat2Z.inj_succ, Z.pow_succ_r by lia; done).
    assert (Hpos : (1 <= 4 ^ Z.of_nat n)%Z) by (change 1%Z with (4 ^ 0)%Z; apply Z.pow_le_mono_r; lia).
    change (1000000 / 4)%Z with 250000%Z. rewrite Hp. destruct (Z.leb_spec 250000 b); [nia|]. rewrite IH by lia. f_equal. lia.
Qed.

(** Counts are positive. *)
Definition counted (p : powEscalation) : Prop :=
  map_Forall (fun _ e => map_Forall (fun _ n => 0 < n)%Z (byAccount e)) (escEntries p).

Lemma total_insert_fold (m : gmap gostr Z) a n : m !! a = Some n -> map_Forall (fun _ n => 0 < n)%Z m ->
  (n <= map_fold (fun _ n sum => sum + n) 0 m)%Z.
Proof.
  revert n. induction m as [|b x m Hb Hfold IH] using map_first_key_ind; intros n Ha HF; [by rewrite lookup_empty in Ha|].
  assert (Hnn : forall m' : gmap gostr Z, map_Forall (fun _ n => 0 < n)%Z m' -> (0 <= map_fold (fun _ n sum => sum + n) 0 m')%Z).
  { intros m' HF'. apply (map_fold_weak_ind (fun s m => map_Forall (fun _ n => 0 < n)%Z m -> (0 <= s)%Z)); [done| |done].
    intros i y m2 r Hi HI HF2. apply map_Forall_insert in HF2 as [? HF2]; [|done]. specialize (HI HF2). lia. }
  rewrite map_fold_insert_first_key by done. apply map_Forall_insert in HF as [Hx HF]; [|done].
  destruct (decide (a = b)) as [->|Hne].
  - rewrite lookup_insert_eq in Ha. injection Ha as ->. specialize (Hnn m HF). lia.
  - rewrite lookup_insert_ne in Ha by done. specialize (IH n Ha HF). lia.
Qed.

(** ** Runs *)

Inductive escOp :=
  | EFail (ip account : gostr)
  | EClear (ip account : gostr)
  | ESweep.
Definition stepE (c : Z * escOp) (p : powEscalation) : unit * powEscalation :=
  (tt, match c.2 with
       | EFail ip account => recordFailure ip account c.1 p
       | EClear ip account => clearAccount ip account p
       | ESweep => sweepExpiredLocked c.1 p
       end).

(** [ip] has failed against [account] [n] times in a window that ends at [x]. *)
Definition owes (ip account : gostr) (x n : Z) (p : powEscalation) : Prop :=
  exists e, escEntries p !! ip = Some e /\ expiresAt e = Some x /\ exists k, byAccount e !! account = Some k /\ (n <= k)%Z.

Definition hits (ip account : gostr) (c : Z * escOp) (_ : unit) : bool :=
  match c.2 with EFail i a => (i =s? ip) && (a =s? account) | _ => false end.
Definition clears (ip account : gostr) (c : Z * escOp) : bool :=
  match c.2 with EClear i a => (i =s? ip) && (a =s? account) | _ => false end.

Lemma counted_sweep now p : counted p -> counted (sweepExpiredLocked now p).
Proof. intros H i e [He _]%map_lookup_filter_Some. by eapply H. Qed.

Lemma counted_fail account now e : map_Forall (fun _ n => 0 < n)%Z (byAccount e) ->
  map_Forall (fun _ n => 0 < n)%Z (byAccount (countFailure account now e)).
Proof.
  intros H. unfold countFailure. simpl. case_match; [|done]. apply map_Forall_insert_2; [|done].
  destruct (byAccount e !! account) as [k|] eqn:E; simpl; [|lia]. specialize (H _ _ E). simpl in H. lia.
Qed.

Lemma counted_step c p : counted p -> counted (stepE c p).2.
Proof.
  destruct c as [t [ip a|ip a|]]; unfold stepE; cbn [fst snd]; intros H.
  - unfold recordFailure. destruct (escEntries p !! ip) as [e|] eqn:E; unfold counted; simpl; apply map_Forall_insert_2.
    + apply counted_fail. destruct (decayed t e); [apply map_Forall_empty|by eapply H].
    + done.
    + apply counted_fail, map_Forall_empty.
    + case_match; [by apply counted_sweep|done].
  - unfold clearAccount. destruct (escEntries p !! ip) as [e|] eqn:E; [|done]. unfold counted. simpl. case_match.
    + by apply map_Forall_delete.
    + apply map_Forall_insert_2; [|done]. simpl. apply map_Forall_delete. by eapply H.
  - by apply counted_sweep.
Qed.

Lemma owes_countFailure e account a now x n k : expiresAt e = Some x -> byAccount e !! account = Some k -> (n <= k)%Z ->
  expiresAt (countFailure a now e) = Some x /\
  exists k', byAccount (countFailure a now e) !! account = Some k' /\ (n + (if a =s? account then 1 else 0) <= k')%Z.
Proof.
  intros Hx Hk Hn. unfold countFailure. simpl. rewrite Hx. split; [done|]. destruct (decide (a = account)) as [->|Ha].
  - rewrite Hk. rewrite !bool_decide_eq_true_2 by done. simpl. rewrite lookup_insert_eq. eexists. split; [done|]. lia.
  - rewrite (bool_decide_eq_false_2 (a = account)) by done. case_match; [rewrite lookup_insert_ne by done|]; exists k; split; done || lia.
Qed.

Lemma owes_step ip account x n c p : (c.1 <= x)%Z -> clears ip account c = false -> owes ip account x n p ->
  owes ip account x (n + (if hits ip account c tt then 1 else 0)) (stepE c p).2.
Proof.
  destruct c as [t [i a|i a|]]; unfold stepE, hits, clears; cbn [fst snd]; intros Ht Hc (e & He & Hx & k & Hk & Hn).
  - assert (Hd : decayed t e = false) by (unfold decayed; rewrite Hx; apply Z.ltb_ge; lia).
    unfold recordFailure, owes. destruct (decide (i = ip)) as [->|Hne].
    + rewrite He, Hd. simpl. rewrite lookup_insert_eq, bool_decide_eq_true_2 by done. simpl.
      destruct (owes_countFailure e account a t x n k Hx Hk Hn) as (H1 & H2). eauto.
    + rewrite (bool_decide_eq_false_2 (i = ip)) by done. simpl. rewrite Z.add_0_r.
      destruct (escEntries p !! i); simpl; rewrite lookup_insert_ne by done; [eauto 10|].
      case_match; simpl; [|eauto 10]. exists e. split; [|eauto]. by apply map_lookup_filter_Some_2.
  - rewrite Z.add_0_r. unfold clearAccount, owes. destruct (escEntries p !! i) as [e'|] eqn:Ei; [|eauto 10]. simpl.
    destruct (decide (i = ip)) as [->|Hne]; [|case_match; rewrite ?lookup_delete_ne, ?lookup_insert_ne by done; eauto 10].
    simplify_eq. rewrite bool_decide_eq_true_2 in Hc by done. simpl in Hc. to_prop.
    assert (Hl : delete a (byAccount e) !! account = Some k).
    { rewrite lookup_delete_ne; [done|]. by intros ->. }
    rewrite bool_decide_eq_false_2.
    + rewrite lookup_insert_eq. eexists. split; [done|]. eauto.
    + intros H0. apply map_size_empty_inv in H0. by rewrite H0, lookup_empty in Hl.
  - rewrite Z.add_0_r. exists e. split; [|eauto]. apply map_lookup_filter_Some_2; [done|]. unfold decayed. simpl. rewrite Hx.
    apply Z.ltb_ge. lia.
Qed.

Lemma owes_run ip account x tr p n : Forall (fun c => (c.1 <= x)%Z /\ clears ip account c = false) tr ->
  counted p -> owes ip account x n p ->
  counted (run_trace stepE tr p).2 /\ owes ip account x (n + count_log (hits ip account) (run_trace stepE tr p).1) (run_trace stepE tr p).2.
Proof.
  intros HF. revert p n. induction HF as [|c tr [Hx Hc] _ IH]; intros p n Hp Ho; [simpl; by rewrite Z.add_0_r|]. cbn [run_trace].
  pose proof (counted_step c p Hp) as Hp'. apply (owes_step _ _ _ _ c) in Ho; [|done|done].
  destruct (stepE c p) as [[] p'] eqn:E. cbn [snd] in *. destruct (IH p' _ Hp' Ho) as [H1 H2].
  destruct (run_trace stepE tr p') as [log p2]. cbn [fst snd count_log foldr] in *. split; [done|].
  fold (count_log (hits ip account) log). replace (n + _)%Z with (n + (if hits ip account c tt then 1 else 0) + count_log (hits ip account) log)%Z; [done|].
  destruct (hits ip account c tt); lia.
Qed.

(** Guessing has a price a success elsewhere does not lower: while a
    window of failures against an account is open at an address, whatever other
    failures, successes on other accounts, floods of addresses and sweeps
    happen, a challenge for that address costs at least four times more per
    failure counted, up to the ceiling. *)
Lemma escalation_not_washed (ip account : gostr) (x n base now : Z) (tr : list (Z * escOp)) (p : powEscalation) :
  Forall (fun c => (c.1 <= x)%Z /\ clears ip account c = false) tr -> counted p -> owes ip account x n p ->
  (0 < base)%Z -> (now <= x)%Z -> (0 <= n)%Z ->
  let '(log, p') := run_trace stepE tr p in
  (Z.min powMaxNumberCeiling (base * powEscalationFactor ^ (n + count_log (hits ip account) log)) <= maxNumberFor ip base now p'
   <= Z.max base powMaxNumberCeiling)%Z.
Proof.
  intros HF Hp Ho Hb Hnow Hn. pose proof (owes_run ip account x tr p n HF Hp Ho) as [Hp' (e & He & Hx & k & Hk & Hle)].
  destruct (run_trace stepE tr p) as [log p']. simpl in *. unfold maxNumberFor. rewrite He. unfold decayed. rewrite Hx.
  destruct (Z.ltb_spec x now); [lia|]. rewrite raise_spec by done.
  pose proof (total_insert_fold _ _ _ Hk (Hp' _ _ He)) as Ht. fold (total e) in Ht. split; [|lia].
  apply Z.min_le_compat_l, Z.mul_le_mono_nonneg_l; [lia|]. apply Z.pow_le_mono_r; [done|]. lia.
Qed.
End Escalation.
