(* ===== verification/UsersWitness.v ===== *)
(** * UsersWitness: the account theorems on a concrete file

    A file of two accounts, toy libraries (a key is its fingerprint in hex, a
    hash shows its secret, a time is one rune), and short runs of calls. *)

From S2P Require Import Prelude GoText FileStore GoCodec SendAs ContactsModel Contacts UsersModel UsersStore UsersAuth UsersOps UsersPGP UsersRun.
From S2P Require Import UsersShape UsersInvariant UsersSafety UsersKeys UsersAccess UsersReads Lockout Pow.

(** ** Libraries *)

#[local] Instance runeClock2 : GoTime := fun s => match s with [t] => Some t | _ => None end.
#[local] Instance runeFormat : GoTimeFormat := fun t => [t].
#[local] Instance plainUpper : UnicodeUpper := fun r => r.
#[local] Instance openHash : PasswordLib := {|
  defaultParams := mkParams 64 3 4;
  validParams _ := true;
  hashWith _ secret p := Ok ($"$argon2id$v=19$" ++ renderParams (Memory p) (Time p) (Threads p) ++ $"$salt$" ++ secret);
  verifyPw candidate encoded :=
    match splitOn 36 encoded with [_; _; _; _; _; secret] => Ok (bool_decide (secret = candidate)) | _ => Err PwMalformed end;
|}.
#[local] Instance flatKDF : KeyDerivation := {|
  pbkdf2Key _ _ _ n := Some (repeat 7%Z (Z.to_nat n));
  hkdfKey _ _ n := Some (repeat 9%Z (Z.to_nat n));
|}.
#[local] Instance hexPGP : OpenPGP := {|
  pgp_key := list Z;
  newKeyFromArmored := hexDecode;
  getFingerprint k := hexEncode (filter (fun b => 0 <= b < 256)%Z k);
  getArmoredPublicKey k := Some (hexEncode k);
  isPrivate _ := false;
|}.
#[local] Instance plainKeys : KeyInspection := {|
  subkeyFingerprints _ := [];
  canEncrypt _ _ := true;
  getHexKeyID _ := [];
  isRevoked _ _ := false;
  isExpired _ _ := false;
  unarmor := hexDecode;
|}.
#[local] Instance noEnvelopes : EnvelopeJSON := {| jsonTokens _ := ([], false); unmarshalVersion _ := None; unmarshalEnvelope _ := None |}.

(** The position of the stored digest a candidate matches; a code is its own
    digest. *)
Fixpoint matchSelf (c : gostr) (l : list gostr) : option nat :=
  match l with [] => None | x :: l' => if x =s? c then Some 0 else S <$> matchSelf c l' end.
Lemma matchSelf_law cand l i : matchSelf cand l = Some i -> l !! i = Some cand.
Proof.
  revert i. induction l as [|x l IH]; intros i; simpl; [done|]. destruct (x =s? cand) eqn:E; to_prop; [by intros [= <-]; subst|].
  destruct (matchSelf cand l) as [n|]; [|done]. intros [= <-]. by apply IH.
Qed.

(** ** Accounts *)

Definition ada : User := zeroUser ($"a") ($"ada") RoleAdmin false ($"1").
Definition oldHash : gostr := $"$argon2id$v=19$m=32,t=3,p=4$salt$secret".
Definition bob2 : User :=
  setRecoveryCodesHash [$"r1"; $"r2"] (setAuthDerivation AuthDerivationPBKDF2 (setPasswordHash oldHash
    (zeroUser ($"b") ($"Bob") RoleUser false ($"2")))).
Definition accounts2 : usersFile := mkUsersFile 1 [ada; bob2].
Definition on_disk (f : usersFile) : ustate := mkU (FData f) (1, 1)%Z None.
Definition at_ (n : Z) : env := mkEnv n io_ok true (n, n).

Lemma accounts_ok_of l :
  bool_decide (NoDup (uID <$> l)) = true -> bool_decide (NoDup ((fun u => normalizeUsername (Username u)) <$> l)) = true ->
  forallb (fun u => (SSOSub u =s? []) && (0 <=? NativeSendEpoch u)%Z && (NativeSendEpoch u <=? MaxUint64)%Z && (0 <=? PGPRevision u)%Z
                    && (PGPRevision u <=? MaxPGPRevision)%Z && bool_decide (PGPWrappedEnvelopes u = [])) l = true ->
  accounts_ok l.
Proof.
  intros H1 H2 H3. to_prop. rewrite forallb_forall in H3.
  assert (Hu : forall u, u ∈ l -> SSOSub u = [] /\ user_ok u).
  { intros u Hin%list_elem_of_In. specialize (H3 u Hin). to_prop. split; [done|]. split; [lia|lia|].
    match goal with E : PGPWrappedEnvelopes u = [] |- _ => rewrite E end. apply slots_ok_nil. }
  split; [done|done| |by apply Forall_forall; intros; apply Hu].
  intros i j u v Hi _ _ Hs. destruct Hs. apply Hu. by eapply list_elem_of_lookup_2.
Qed.

Lemma accounts2_ok : file_ok (on_disk accounts2).
Proof. eexists. split; [reflexivity|]. by apply accounts_ok_of; vm_compute. Qed.

Abbreviation stepW := (stepU matchSelf).
Abbreviation run := (run_trace stepW).
Definition drawOk : kdf := mkKdf (Ok tt) (Some (repeat 1%Z 16)) [].
Definition create_ (n : Z) : call := (at_ n, OCreate drawOk (Some ($"c")) ($"Cy") ($"a long password") RoleUser).

(** No UUID is drawn. *)
Lemma no_draws tr s : forallb (fun c => match c.2 with OCreate _ _ _ _ _ | OCreateSSO _ _ _ _ _ _ _ _ _ _ => false | _ => true end) tr = true ->
  freshRun matchSelf tr s.
Proof.
  revert s. induction tr as [|[e o] tr IH]; intros s H; [exact I|]. simpl in H. apply andb_true_iff in H as [H1 H2].
  split; [|by apply IH]. intros f _. by destruct o.
Qed.

(** An account is created, promoted, and the last other administrator is then
    switched off. *)
Definition grow : list call := [create_ 5; (at_ 6, OSetRole ($"c") RoleAdmin); (at_ 7, ODeactivate ($"a")); (at_ 8, ODeactivate ($"c"))].

Lemma accounts_invariant_witness :
  file_ok (run grow (on_disk accounts2)).2 /\ is_Some (account ($"b") (run grow (on_disk accounts2)).2) /\
  option_map (fun f => (fun u => (Username u, Active u)) <$> ufUsers f) (match uDisk (run grow (on_disk accounts2)).2 with FData f => Some f | _ => None end)
  = Some [($"ada", false); ($"Bob", true); ($"Cy", true)].
Proof.
  assert (Hf : freshRun matchSelf grow (on_disk accounts2)).
  { split; [|apply no_draws; reflexivity]. intros f Hf. injection Hf as <-.
    change (($"c") ∉ (uID <$> ufUsers accounts2)). compute_done. }
  destruct (accounts_invariant matchSelf grow (on_disk accounts2) accounts2_ok Hf) as [H1 H2].
  split; [exact H1|]. split; [apply H2; by eexists|vm_compute; reflexivity].
Defined.

Lemma active_admin_survives_witness : hasAdmin (run grow (on_disk accounts2)).2.
Proof.
  apply (active_admin_survives matchSelf grow (on_disk accounts2)). exists accounts2. split; [reflexivity|]. left. by split.
Defined.

(** Deactivated and reactivated: the record is as before, the epoch is not. *)
Definition offAndOn : list call := [(at_ 5, ODeactivate ($"b")); (at_ 6, OReactivate ($"b"))].
Lemma access_epoch_fences_witness :
  exists w u', account ($"b") (run [(at_ 5, ODeactivate ($"b"))] (on_disk accounts2)).2 = Some w /\
    account ($"b") (run offAndOn (on_disk accounts2)).2 = Some u' /\ (NativeSendEpoch bob2 <= NativeSendEpoch w <= NativeSendEpoch u')%Z /\
    nativeSendState u' = nativeSendState bob2 /\ NativeSendEpoch u' = 2%Z.
Proof.
  destruct (access_epoch_fences matchSelf [(at_ 5, ODeactivate ($"b"))] [(at_ 6, OReactivate ($"b"))] (on_disk accounts2) ($"b") bob2
    accounts2_ok) as (w & u' & H1 & H2 & H3 & _); [apply no_draws; reflexivity|reflexivity|].
  exists w, u'. split; [exact H1|]. split; [exact H2|]. split; [exact H3|]. vm_compute in H2. injection H2 as <-. split; reflexivity.
Defined.

(** A role change leaves an update prepared before it valid; a new password does
    not. *)
Definition promote : list call := [(at_ 5, OSetRole ($"b") RoleAdmin)].
Definition clear0 : call := (at_ 7, OClearIdentity ($"b") (Some 0%Z)).
Lemma stale_update_refused_witness :
  (exists w, account ($"b") (run promote (on_disk accounts2)).2 = Some w /\ PGPRevision w = 0%Z /\ pgpState w = pgpState bob2) /\
  (stepW clear0 (run [(at_ 5, OSetPassword drawOk ($"b") ($"another password") false None)] (on_disk accounts2)).2).1
  = Err (ErrApp ErrPGPRevisionChanged).
Proof.
  split; [|vm_compute; reflexivity].
  destruct (stepW clear0 (run promote (on_disk accounts2)).2).1 as [a|x] eqn:E; [|vm_compute in E; discriminate E].
  apply (stale_update_refused matchSelf promote clear0 (on_disk accounts2) ($"b") bob2 a accounts2_ok);
    [apply no_draws; reflexivity|reflexivity|reflexivity|exact E].
Defined.

(** One code presented twice, then a later one, then an older one. *)
Definition codes3 : list call :=
  [(at_ 5, OSetTOTPStep ($"b") 5); (at_ 6, OSetTOTPStep ($"b") 5); (at_ 7, OSetTOTPStep ($"b") 9); (at_ 8, OSetTOTPStep ($"b") 7)].
Lemma totp_step_never_replayed_witness :
  StronglySorted Z.lt (0%Z :: acceptedSteps ($"b") (run codes3 (on_disk accounts2)).1) /\
  acceptedSteps ($"b") (run codes3 (on_disk accounts2)).1 = [5; 9]%Z.
Proof.
  split; [|vm_compute; reflexivity].
  apply (totp_step_never_replayed matchSelf codes3 (on_disk accounts2) ($"b") bob2 accounts2_ok); [apply no_draws; reflexivity|reflexivity].
Defined.

Definition twice : list call := [(at_ 5, OConsumeCode ($"b") ($"r1")); (at_ 6, OConsumeCode ($"b") ($"r1"))].
Lemma recovery_code_single_use_witness :
  (count_log (redeems (fun c => c) ($"b") ($"r1")) (run twice (on_disk accounts2)).1 <= 1)%Z /\
  count_log (redeems (fun c => c) ($"b") ($"r1")) (run twice (on_disk accounts2)).1 = 1%Z.
Proof.
  split; [|vm_compute; reflexivity].
  apply (recovery_code_single_use matchSelf (fun c => c) twice (on_disk accounts2) ($"b") ($"r1") bob2 matchSelf_law accounts2_ok);
    [apply no_draws; reflexivity|repeat constructor|reflexivity].
Defined.

(** ** Keys *)

Definition fpA : gostr := $"aaaaaaaaaaaaaaaaaaaaaaaaaaaaaaaaaaaaaaaa".
Definition fpB : gostr := $"bbbbbbbbbbbbbbbbbbbbbbbbbbbbbbbbbbbbbbbb".
Definition ringA : PGPKeyringState := mkKeyring 1 1 [toUpper fpA] [toUpper fpA].
Definition keyed_ (pending : bool) (ring : option PGPKeyringState) : User :=
  setIncomingPending pending (setPGPKeyring ring (setPGPKeyProtection PGPProtectionClient (setPGPPrivateKeyWrapped ($"sealed")
    (setPGPPublicKey fpA (setPGPFingerprint fpA bob2))))).
Definition withKey (pending : bool) (ring : option PGPKeyringState) : ustate := on_disk (mkUsersFile 1 [ada; keyed_ pending ring]).
Lemma withKey_ok pending ring : file_ok (withKey pending ring).
Proof. eexists. split; [reflexivity|]. by apply accounts_ok_of; vm_compute. Qed.

(** A generator on the server is refused, a re-sealing goes through. *)
Definition custodyRun : list call :=
  [(at_ 5, OSetIdentity ($"b") fpB [] fpB ($"secret") ($"generated") ($"5")); (at_ 6, ORewrap ($"b") ($"sealed again") fpA (Some 0%Z) false)].
Lemma custody_never_downgraded_witness :
  exists u', account ($"b") (run custodyRun (withKey false None)).2 = Some u' /\ hasServerReadableKey u' = false /\
    PGPPrivateKeyEnc u' = [] /\ PGPPrivateKeyWrapped u' = $"sealed again".
Proof.
  destruct (custody_never_downgraded matchSelf custodyRun (withKey false None) ($"b") (keyed_ false None) (withKey_ok _ _))
    as (u' & H1 & H2 & _ & H3); [apply no_draws; reflexivity|repeat constructor|vm_compute; reflexivity|vm_compute; reflexivity|].
  exists u'. split; [exact H1|]. split; [exact H2|]. split; [by apply H3|]. vm_compute in H1. injection H1 as <-. reflexivity.
Defined.

Definition clearWhilePending : list call := [(at_ 5, OClearIdentity ($"b") (Some 0%Z)); (at_ 6, ODeactivate ($"b"))].
Lemma pending_mail_pins_identity_witness :
  exists u', account ($"b") (run clearWhilePending (withKey true None)).2 = Some u' /\ PGPFingerprint u' = fpA /\ Active u' = false.
Proof.
  destruct (pending_mail_pins_identity matchSelf clearWhilePending (withKey true None) ($"b") (keyed_ true None) (withKey_ok _ _))
    as (u' & H1 & _ & _); [apply no_draws; reflexivity|repeat constructor|vm_compute; reflexivity|vm_compute; reflexivity|].
  exists u'. split; [exact H1|]. vm_compute in H1. injection H1 as <-. split; reflexivity.
Defined.

Lemma hexFingerprints : HexFingerprints.
Proof.
  intros k. simpl. exists (filter (fun b => 0 <= b < 256)%Z k). apply hexDecode_encode.
  apply Forall_forall. intros b Hb. apply list_elem_of_filter in Hb as [Hb _]. exact Hb.
Qed.

(** A new key joins the ring and becomes active; going back is refused. *)
Definition toB : PGPKeyringUpdate :=
  mkRingUpdate 0 2 [fpA; fpB] [fpA; fpB] fpB ($"sealed B") ($"recovery B") ($"imported") None.
Definition backToA : PGPKeyringUpdate :=
  mkRingUpdate 1 2 [fpA; fpB] [fpA; fpB] fpA ($"sealed A") ($"recovery A") ($"imported") None.
Definition rotate : list call := [(at_ 5, OCommitRing drawOk ($"b") toB); (at_ 6, OCommitRing drawOk ($"b") backToA)].
Lemma retired_key_never_returns_witness :
  exists u' k', account ($"b") (run rotate (withKey false (Some ringA))).2 = Some u' /\ ringed u' k' /\
    ringFingerprints ringA ⊆ ringFingerprints k' /\ PGPFingerprint u' = fpB /\ ringFingerprints k' = [toUpper fpA; toUpper fpB].
Proof.
  destruct (retired_key_never_returns matchSelf rotate (withKey false (Some ringA)) ($"b") (keyed_ false (Some ringA)) ringA
    hexFingerprints (withKey_ok _ _)) as (u' & k' & H1 & H2 & H3 & _);
    [apply no_draws; reflexivity|repeat constructor|vm_compute; reflexivity|split; [reflexivity|split; [vm_compute; reflexivity|repeat constructor]]|].
  exists u', k'. split; [exact H1|]. split; [exact H2|]. split; [exact H3|]. destruct H2 as (H2 & _ & _).
  vm_compute in H1. injection H1 as <-. split; [reflexivity|]. vm_compute in H2. injection H2 as <-. reflexivity.
Defined.

(** ** Refusals, credentials, lookups *)

Lemma refused_call_changes_nothing_witness :
  uDisk (runUser matchSelf (ODeactivate ($"a")) (at_ 5) (on_disk accounts2)).2 = FData accounts2 /\
  (runUser matchSelf (ODeactivate ($"a")) (at_ 5) (on_disk accounts2)).1 = Err (ErrApp ErrLastActiveAdmin).
Proof.
  split; [|vm_compute; reflexivity].
  destruct (refused_call_changes_nothing matchSelf (ODeactivate ($"a")) (at_ 5) (on_disk accounts2) (ErrApp ErrLastActiveAdmin))
    as [H|[H _]]; [reflexivity|vm_compute; reflexivity|exact H|discriminate H].
Defined.

Definition rehash : call := (at_ 5, ORehash drawOk (Ok tt) (Ok ($"dummy")) ($"b") ($"secret")).
Lemma rehash_fences_prepared_work_witness :
  exists u', account ($"b") (stepW rehash (on_disk accounts2)).2 = Some u' /\ NativeSendEpoch u' = 1%Z /\ PGPRevision u' = 1%Z /\
    MustChangePassword u' = false.
Proof.
  destruct (account ($"b") (stepW rehash (on_disk accounts2)).2) as [u'|] eqn:E; [|vm_compute in E; discriminate E].
  destruct (rehash_fences_prepared_work matchSelf drawOk (Ok tt) (Ok ($"dummy")) ($"b") ($"secret") (at_ 5) (on_disk accounts2) bob2 u'
    accounts2_ok) as (_ & _ & _ & ->); [reflexivity|exact E|vm_compute in E; injection E as <-; compute_done|].
  eexists. split; [reflexivity|]. split; [reflexivity|split; reflexivity].
Defined.

Lemma verification_costs_alike_witness :
  verifyHash (Ok ($"dummy")) (Ok tt) [] ($"secret") = (Ok false, [$"dummy"]) /\ $"dummy" ∈ [$"dummy"] /\
  fst (verifyHash (Ok ($"dummy")) (Ok tt) oldHash ($"secret")) = Ok true.
Proof.
  split; [vm_compute; reflexivity|]. split; [|vm_compute; reflexivity].
  destruct (verification_costs_alike ($"dummy") [] ($"secret") (Ok tt) false [$"dummy"]) as [H|[H _]];
    [discriminate|vm_compute; reflexivity|exact H|left].
Defined.

(** The other process replaces the file between this one's two stats; the next
    lookup sees its file. *)
Definition renamed : usersFile := mkUsersFile 1 [ada; zeroUser ($"c") ($"Cy") RoleUser false ($"3")].
Definition race : list uevent := [EvLoad (at_ 5) None (Some (renamed, (7, 7)%Z)); EvLoad (at_ 6) None None].
Lemma lookups_scan_the_file_witness :
  (getByUsername ($" CY ") (at_ 8) (runEvents matchSelf race (on_disk accounts2))).1
  = Ok (zeroUser ($"c") ($"Cy") RoleUser false ($"3")).
Proof.
  assert (HF : freshEvents matchSelf race (on_disk accounts2)).
  { split; [split; [exact I|split; [discriminate|exact I]]|]. split; [split; exact I|exact I]. }
  destruct (lookups_scan_the_file matchSelf race (on_disk accounts2) (at_ 8) renamed ($"c") ($" CY ") [] I HF)
    as (_ & H & _); [vm_compute; reflexivity|cbv [renamed ufUsers]; compute_done|reflexivity|].
  rewrite H. vm_compute. reflexivity.
Defined.

(** ** The sign-in defences on concrete runs

    A three-strike table under a burst, a toy MAC and hash (the text itself,
    byte-wise), one challenge solved and replayed, and an address that fails
    against one account and succeeds on another. *)

(** ** Lockout *)

Definition smallTable : failureLockout := newFailureLockoutSized 3 900 4 8.
Definition burst : list (Z * lockoutOp) :=
  [(10, LTry ($"bob")); (10, LTry ($"bob")); (11, LTry ($"eve")); (12, LTry ($"bob")); (13, LTry ($"bob"));
   (14, LCancel (Some (mkReservation ($"bob") 10))); (15, LTry ($"bob")); (16, LTry ($"bob")); (17, LSuccess ($"eve"))]%Z.

Example burst_admits_three : guesses ($"bob") (run_trace stepL burst smallTable).1 = [10; 12; 15]%Z.
Proof. vm_compute. reflexivity. Qed.

Lemma lockout_bounds_guesses_witness :
  (Z.of_nat (length (filter (fun s => 10 <= s < 10 + 900)%Z (guesses ($"bob") (run_trace stepL burst smallTable).1))) <= 3)%Z.
Proof.
  apply (lockout_bounds_guesses 3 900 4 8 0 burst ($"bob") 10); [done|done| |].
  - repeat constructor; done.
  - vm_compute. repeat split.
Defined.

Definition lockedBob : failureLockout := (run_trace stepL (take 4 burst) smallTable).2.
Definition flood : list (Z * lockoutOp) :=
  ((fun n => (Z.of_nat n + 20, LTry [Z.of_nat n])%Z) <$> seq 0 12) ++ [(40, LTry ($"bob"))%Z].

Lemma live_lockout_survives_flood_witness :
  Forall (fun ca => ca.1.2 = LTry ($"bob") -> ca.2 = Some (false, 912 - ca.1.1, None)%Z) (run_trace stepL flood lockedBob).1.
Proof.
  refine (proj2 (live_lockout_survives_flood flood lockedBob ($"bob") (mkEntry [10; 10; 12]%Z (Some 912%Z)) 912 _ _ _)).
  - vm_compute. reflexivity.
  - reflexivity.
  - apply Forall_forall. intros c Hc. apply list_elem_of_In in Hc. revert c Hc. apply List.Forall_forall. vm_compute. repeat (constructor; [split; reflexivity|]). constructor.
Defined.

(** ** Proof of work *)

Definition echo (s : gostr) : list Z := (fun c => c mod 256)%Z <$> s.
Definition noReader : PowCrypto := {| hmacKeyed := echo; sha256Sum := echo; unmarshalSolution _ := None |}.
Definition verifier0 : PoWVerifier := mkPoW 50 ∅.
Definition challenge0 : Challenge :=
  default (mkChallengeP [] [] [] 0 0 [] []) (issueAt (C := noReader) 1700000000000000000 ($"10.0.0.1") 0 [1; 171]%Z (fun b => Some (70 mod b)%Z) verifier0).
#[local] Instance oneToken : PowCrypto := {|
  hmacKeyed := echo; sha256Sum := echo;
  unmarshalSolution raw := if bool_decide (raw = [1]%Z) then Some (mkSolution challenge0 (70 mod 51)) else None;
|}.
Definition token0 : gostr := $" AQ== ".
Definition at0 : Z := 1700000001000000000.

Lemma echo_bytes text : Forall byteOK (echo text).
Proof. apply Forall_forall. intros b [c [-> _]]%list_elem_of_fmap. apply Z.mod_pos_bound. lia. Qed.

Lemma issued0 : issueAt 1700000000000000000 ($"10.0.0.1") 0 [1; 171]%Z (fun b => Some (70 mod b)%Z) verifier0 = Some challenge0.
Proof. vm_compute. reflexivity. Qed.

Lemma pow_accepts_only_issued_witness : exists sol, readSolution token0 = Some sol /\ solChallenge sol ∈ [challenge0] /\
  chClientIP (solChallenge sol) = $"10.0.0.1" /\ (at0 <= chExpires (solChallenge sol) * second)%Z /\
  (0 <= solNumber sol <= chMaxNumber (solChallenge sol))%Z /\
  hexEncode (sha256Sum (chSalt (solChallenge sol) ++ formatInt (solNumber sol))) = chChallenge (solChallenge sol) /\
  spent verifier0 !! chSalt (solChallenge sol) = None.
Proof.
  apply (pow_accepts_only_issued at0 token0 ($"10.0.0.1") None verifier0 (mkPoW 50 {[chSalt challenge0 := chExpires challenge0]}) [challenge0]).
  - apply Forall_singleton. eexists _, _, _, _, _, _. split; [exact issued0|]. split; [|repeat constructor; done].
    intros H. apply (bool_decide_eq_true_2 _) in H. vm_compute in H. discriminate H.
  - exact echo_bytes.
  - intros sol H _. exists challenge0. split; [left|]. vm_compute in H. injection H as <-. vm_compute. reflexivity.
  - vm_compute. reflexivity.
Defined.

Lemma pow_challenge_spent_once_witness :
  (count_log (spends (chSalt challenge0) (chExpires challenge0))
     (run_trace stepP [(at0, PVerify token0 ($"10.0.0.1")); (at0, PSweep); (at0, PVerify token0 ($"10.0.0.1"))] verifier0).1 <= 1)%Z.
Proof.
  apply (pow_challenge_spent_once [(at0, PVerify token0 ($"10.0.0.1")); (at0, PSweep); (at0, PVerify token0 ($"10.0.0.1"))] verifier0 at0).
  repeat constructor; done.
Defined.

Lemma pow_honest_client_accepted_witness :
  verify at0 token0 ($"10.0.0.1") verifier0 = ((true, None), mkPoW 50 (<[chSalt challenge0 := chExpires challenge0]> ∅)).
Proof.
  apply (pow_honest_client_accepted verifier0 verifier0 1700000000000000000 at0 0 ($"10.0.0.1") token0 [1; 171]%Z 70 challenge0).
  - exact issued0.
  - done.
  - vm_compute. reflexivity.
  - vm_compute. discriminate.
  - reflexivity.
Defined.

(** ** Escalation *)

Module EscalationWitness.
Import Pow.Escalation.

Definition oneFailure : powEscalation := recordFailure ($"ip") ($"ada") 0 newPowEscalation.
Definition spray : list (Z * escOp) :=
  [(1, EFail ($"ip") ($"ada")); (2, EFail ($"ip") ($"own")); (3, EClear ($"ip") ($"own")); (4, ESweep); (5, EFail ($"x") ($"y"))]%Z.

Lemma escalation_not_washed_witness :
  (Z.min 1000000 (5000 * 4 ^ (1 + 1)) <= maxNumberFor ($"ip") 5000 6 (run_trace stepE spray oneFailure).2 <= Z.max 5000 1000000)%Z.
Proof.
  refine (escalation_not_washed ($"ip") ($"ada") powEscalationDecay 1 5000 6 spray oneFailure _ _ _ _ _ _); try done.
  - repeat (constructor; [split; [discriminate|reflexivity]|]). constructor.
  - apply map_Forall_insert_2; [|apply map_Forall_empty]. apply map_Forall_insert_2; [done|apply map_Forall_empty].
  - eexists. split; [vm_compute; reflexivity|]. split; [vm_compute; reflexivity|]. eexists. split; [vm_compute; reflexivity|]. done.
Defined.
End EscalationWitness.
