(* ===== verification/Transaction.v ===== *)
(** * Transaction: transactions on a database

    A transaction is a computation on the database that answers and leaves a new
    database, or fails and leaves the old one.  Weakest preconditions, what a
    transaction keeps, and the tactics that walk through one. *)

From S2P Require Import Prelude.

Definition Txn (S E A : Type) : Type := S -> res E (A * S).

Section Txn.
Context {S E : Type}.

#[export] Instance Tx_ret : MRet (Txn S E) := fun A a d => Ok (a, d).
#[export] Instance Tx_bind : MBind (Txn S E) := fun A B f m d =>
  match m d with Ok (a, d') => f a d' | Err e => Err e end.
Definition raise {A} (e : E) : Txn S E A := fun _ => Err e.
Definition select {A} (q : S -> A) : Txn S E A := fun d => Ok (q d, d).
Definition exec (f : S -> S) : Txn S E unit := fun d => Ok (tt, f d).
Definition assertTx (b : bool) (e : E) : Txn S E unit := if b then mret tt else raise e.

(** Commit on success, roll back on an error.  [up] is whether every statement
    and the commit itself reach the disk, [down] the error when they do not. *)
Definition commit {A} (down : E) (up : bool) (m : Txn S E A) (d : S) : res E A * S :=
  if negb up then (Err down, d)
  else match m d with Ok (a, d') => (Ok a, d') | Err e => (Err e, d) end.

(** ** Weakest preconditions *)

Definition wp {A} (m : Txn S E A) (Q : A -> S -> Prop) (d : S) : Prop :=
  match m d with Ok (a, d') => Q a d' | Err _ => True end.

Lemma wp_ret {A} (a : A) (Q : A -> S -> Prop) d : Q a d -> wp (mret a) Q d.
Proof. done. Qed.
Lemma wp_raise {A} e (Q : A -> S -> Prop) d : wp (raise e) Q d.
Proof. done. Qed.
Lemma wp_bind {A B} (m : Txn S E A) (f : A -> Txn S E B) Q d : wp m (fun a => wp (f a) Q) d -> wp (m ≫= f) Q d.
Proof. unfold wp, mbind, Tx_bind. destruct (m d) as [[a d']|e]; done. Qed.
Lemma wp_select {A} (q : S -> A) Q d : Q (q d) d -> wp (select q) Q d.
Proof. done. Qed.
Lemma wp_exec f Q d : Q tt (f d) -> wp (exec f) Q d.
Proof. done. Qed.
Lemma wp_assert b e Q d : (b = true -> Q tt d) -> wp (assertTx b e) Q d.
Proof. destruct b; intros H; [by apply H|done]. Qed.
Lemma wp_conseq {A} (m : Txn S E A) (P Q : A -> S -> Prop) d : wp m P d -> (forall a d', P a d' -> Q a d') -> wp m Q d.
Proof. unfold wp. destruct (m d) as [[a d']|e]; auto. Qed.

(** Reading a transaction that answered backwards. *)
Lemma bind_ok {A B} (m : Txn S E A) (f : A -> Txn S E B) d b d' : (m ≫= f) d = Ok (b, d') -> exists a d1, m d = Ok (a, d1) /\ f a d1 = Ok (b, d').
Proof. unfold mbind, Tx_bind. destruct (m d) as [[a d1]|]; [eauto|done]. Qed.
Lemma select_ok {A} (q : S -> A) d a d' : select q d = Ok (a, d') -> a = q d /\ d' = d.
Proof. by intros [= <- <-]. Qed.
Lemma assert_ok b e d u d' : assertTx b e d = Ok (u, d') -> b = true /\ d' = d.
Proof. destruct b; [by intros [= _ <-]|done]. Qed.
Lemma ret_ok {A} (a b : A) d d' : mret (M := Txn S E) a d = Ok (b, d') -> b = a /\ d' = d.
Proof. by intros [= <- <-]. Qed.
Lemma exec_ok f d u d' : exec f d = Ok (u, d') -> d' = f d.
Proof. by intros [= _ <-]. Qed.
Lemma commit_ok {A} down up (m : Txn S E A) d r d' : commit down up m d = (r, d') ->
  (exists e, r = Err e /\ d' = d) \/ (exists a, r = Ok a /\ m d = Ok (a, d') /\ up = true).
Proof.
  unfold commit. destruct up; simpl; [|intros [= <- <-]; eauto].
  destruct (m d) as [[a d2]|e]; intros [= <- <-]; eauto 10.
Qed.

(** ** Properties a transaction keeps *)

Definition keeps {A} (I : S -> Prop) (m : Txn S E A) : Prop := forall d, I d -> wp m (fun _ d' => I d') d.

Section Keeps.
Context (I : S -> Prop).

Lemma keeps_ret {A} (a : A) : keeps I (mret a).
Proof. intros d H. by apply wp_ret. Qed.
Lemma keeps_raise {A} e : keeps I (raise (A := A) e).
Proof. done. Qed.
Lemma keeps_select {A} (q : S -> A) : keeps I (select q).
Proof. intros d H. by apply wp_select. Qed.
Lemma keeps_assert b e : keeps I (assertTx b e).
Proof. intros d H. by apply wp_assert. Qed.
Lemma keeps_bind {A B} (m : Txn S E A) (f : A -> Txn S E B) : keeps I m -> (forall a, keeps I (f a)) -> keeps I (m ≫= f).
Proof. intros Hm Hf d H. apply wp_bind. eapply wp_conseq; [by apply Hm|]. intros a d' H'. by apply Hf. Qed.

(** A query whose answer the rest relies on. *)
Lemma keeps_query {A B} (q : S -> A) (f : A -> Txn S E B) : (forall d, keeps I (f (q d))) -> keeps I (select q ≫= f).
Proof. intros Hf d H. apply wp_bind, wp_select. by apply Hf. Qed.
Lemma keeps_commit {A} down up (m : Txn S E A) d : keeps I m -> I d -> I (commit down up m d).2.
Proof.
  intros Hm H. destruct (commit down up m d) as [r d'] eqn:E'. apply commit_ok in E' as [(e & _ & ->)|(a & _ & Ha & _)]; [done|].
  specialize (Hm d H). unfold wp in Hm. by rewrite Ha in Hm.
Qed.
End Keeps.
End Txn.

Create HintDb mbkeeps.
#[export] Hint Resolve keeps_ret keeps_raise keeps_select keeps_assert : mbkeeps.

(** Walk through a transaction, statement by statement. *)
Ltac walk := repeat first
  [ solve [eauto 2 with mbkeeps]
  | apply keeps_bind; [|intros ?]
  | match goal with |- keeps _ (match ?x with _ => _ end) => destruct x end
  | progress cbv zeta ].

(** One step backwards through a transaction that answered. *)
Ltac tx_step :=
  match goal with
  | H : raise _ _ = Ok _ |- _ => discriminate H
  | H : Err _ = Ok _ |- _ => discriminate H
  | H : (_ ≫= _) _ = Ok (_, _) |- _ => apply bind_ok in H as (? & ? & ? & H)
  | H : select _ _ = Ok (_, _) |- _ => apply select_ok in H as [-> ->]
  | H : assertTx _ _ _ = Ok (_, _) |- _ => apply assert_ok in H as [? ->]
  | H : mret _ _ = Ok (_, _) |- _ => apply ret_ok in H as [-> ->]
  | H : exec _ _ = Ok (_, _) |- _ => apply exec_ok in H as ->
  | H : (if ?b then _ else _) _ = Ok (_, _) |- _ => destruct b eqn:?
  | H : (match ?x with _ => _ end) _ = Ok (_, _) |- _ => destruct x eqn:?
  end.
