(* ===== verification/AccountState.v ===== *)
(** * AccountState: an account's state database (backend/internal/state/store.go, sorter.go, mail_source.go, native_send.go)

    The poller's checkpoint, the messages it settled and postponed, the log of
    decisions, push destinations and paired devices, the queue devices poll, the
    sorter's memory, and single values under keys.  A table is a map or the list
    of its rows; a method is one transaction.  Times are Unix seconds, one clock
    reading per call; JSON columns hold the decoded value. *)

From S2P Require Import Prelude GoText GoCodec FileStore Contacts Transaction StateTables.

Inductive stErr :=
  | ErrDB | ErrRegistrationLimit | ErrInvalidEnrollmentVersions | ErrStateSource | ErrNativeSendDevice | ErrUUID | ErrNoDevice | ErrEmptyDevice | ErrVector.

(** ** Rows *)

Record Decision := mkDecision {
  dcMessage : gostr; dcSender : gostr; dcSentTo : gostr; dcSubject : gostr; dcLabel : gostr; dcStatus : gostr; dcDetail : gostr; dcAt : gostr;
}.
Record decisionRow := mkDecRow { drId : Z; drDecision : Decision; drUnix : option Z }.
Record deferral := mkDeferral { dfAttempts : Z; dfFirst : Z; dfLast : Z }.
Record NotificationSubscription := mkSub { nsEndpoint : gostr; nsAuth : gostr; nsP256DH : gostr; nsAgent : gostr; nsUpdated : gostr }.
Record subRow := mkSubRow { srSub : NotificationSubscription; srSeq : Z }.

(** What a delivery named: envelope version, key generation, fingerprint. *)
Record DeviceEnrollment := mkEnrollment { deVersion : Z; deGeneration : Z; deFingerprint : gostr }.
#[export] Instance DeviceEnrollment_eq_dec : EqDecision DeviceEnrollment.
Proof. solve_decision. Defined.
Definition noEnrollment : DeviceEnrollment := mkEnrollment 0 0 [].
Record NativeDevice := mkDevice {
  ndID : gostr; ndPlatform : gostr; ndPushToken : gostr; ndName : gostr; ndAppVersion : gostr; ndAgent : gostr; ndRegisteredAt : gostr; ndUpdatedAt : gostr;
  ndUser : gostr; ndApprover : bool; ndTransport : gostr; ndP256DH : gostr; ndAuth : gostr; ndEnrollKey : gostr; ndEnrollAt : gostr; ndVersions : list Z;
  ndEnrolled : bool; ndEnrollment : DeviceEnrollment; ndSecretHash : gostr;
}.
Record deviceRow := mkDevRow { dvDevice : NativeDevice; dvSeq : Z }.
Definition NativeDevice_eta (d : NativeDevice) : NativeDevice :=
  mkDevice (ndID d) (ndPlatform d) (ndPushToken d) (ndName d) (ndAppVersion d) (ndAgent d) (ndRegisteredAt d) (ndUpdatedAt d) (ndUser d) (ndApprover d)
    (ndTransport d) (ndP256DH d) (ndAuth d) (ndEnrollKey d) (ndEnrollAt d) (ndVersions d) (ndEnrolled d) (ndEnrollment d) (ndSecretHash d).
Definition setID (v : gostr) : NativeDevice -> NativeDevice := ltac:(setter_of NativeDevice_eta ndID v).
Definition setPlatform (v : gostr) : NativeDevice -> NativeDevice := ltac:(setter_of NativeDevice_eta ndPlatform v).
Definition setPushToken (v : gostr) : NativeDevice -> NativeDevice := ltac:(setter_of NativeDevice_eta ndPushToken v).
Definition setRegisteredAt (v : gostr) : NativeDevice -> NativeDevice := ltac:(setter_of NativeDevice_eta ndRegisteredAt v).
Definition setDeviceUpdated (v : gostr) : NativeDevice -> NativeDevice := ltac:(setter_of NativeDevice_eta ndUpdatedAt v).
Definition setUser (v : gostr) : NativeDevice -> NativeDevice := ltac:(setter_of NativeDevice_eta ndUser v).
Definition setApprover (v : bool) : NativeDevice -> NativeDevice := ltac:(setter_of NativeDevice_eta ndApprover v).
Definition setTransport (v : gostr) : NativeDevice -> NativeDevice := ltac:(setter_of NativeDevice_eta ndTransport v).
Definition setP256DH (v : gostr) : NativeDevice -> NativeDevice := ltac:(setter_of NativeDevice_eta ndP256DH v).
Definition setAuth (v : gostr) : NativeDevice -> NativeDevice := ltac:(setter_of NativeDevice_eta ndAuth v).
Definition setEnrollKey (v : gostr) : NativeDevice -> NativeDevice := ltac:(setter_of NativeDevice_eta ndEnrollKey v).
Definition setEnrollAt (v : gostr) : NativeDevice -> NativeDevice := ltac:(setter_of NativeDevice_eta ndEnrollAt v).
Definition setVersions (v : list Z) : NativeDevice -> NativeDevice := ltac:(setter_of NativeDevice_eta ndVersions v).
Definition setEnrolled (v : bool) : NativeDevice -> NativeDevice := ltac:(setter_of NativeDevice_eta ndEnrolled v).
Definition setEnrollment (v : DeviceEnrollment) : NativeDevice -> NativeDevice := ltac:(setter_of NativeDevice_eta ndEnrollment v).
Definition setSecretHash (v : gostr) : NativeDevice -> NativeDevice := ltac:(setter_of NativeDevice_eta ndSecretHash v).
Definition redacted (d : NativeDevice) : NativeDevice := setAuth [] (setSecretHash [] d).

(** [pnDevices = []] addresses every device, as NULL recipients do. *)
Record PullNotification := mkPull { pnSeq : Z; pnTitle : gostr; pnBody : gostr; pnData : option (gmap gostr gostr); pnCreatedAt : gostr; pnDevices : list gostr }.
Record prediction := mkPrediction { pdCheck : gostr; pdModel : gostr; pdVec : list Z; pdLabel : gostr; pdAt : Z }.
Record correction := mkCorrection { crMessage : gostr; crLabel : gostr; crModel : gostr; crVec : list Z; crAt : Z; crRowid : Z }.

(** [acLastDecision] is sqlite_sequence's value for decisions. *)
Record account := mkAccount {
  acMeta : gmap gostr gostr; acProcessed : gmap gostr Z; acDecisions : list decisionRow; acLastDecision : Z; acDeferrals : gmap gostr deferral;
  acSubs : list subRow; acDevices : list deviceRow; acPulls : list PullNotification; acPredictions : gmap gostr prediction; acCorrections : list correction;
  acSnoozes : Snoozes.table;
}.
Definition account_eta (a : account) : account :=
  mkAccount (acMeta a) (acProcessed a) (acDecisions a) (acLastDecision a) (acDeferrals a) (acSubs a) (acDevices a) (acPulls a) (acPredictions a) (acCorrections a) (acSnoozes a).
Definition setMetas (v : gmap gostr gostr) : account -> account := ltac:(setter_of account_eta acMeta v).
Definition setProcessed (v : gmap gostr Z) : account -> account := ltac:(setter_of account_eta acProcessed v).
Definition setDecisions (v : list decisionRow) : account -> account := ltac:(setter_of account_eta acDecisions v).
Definition setLastDecision (v : Z) : account -> account := ltac:(setter_of account_eta acLastDecision v).
Definition setDeferrals (v : gmap gostr deferral) : account -> account := ltac:(setter_of account_eta acDeferrals v).
Definition setSubs (v : list subRow) : account -> account := ltac:(setter_of account_eta acSubs v).
Definition setDevices (v : list deviceRow) : account -> account := ltac:(setter_of account_eta acDevices v).
Definition setPulls (v : list PullNotification) : account -> account := ltac:(setter_of account_eta acPulls v).
Definition setPredictions (v : gmap gostr prediction) : account -> account := ltac:(setter_of account_eta acPredictions v).
Definition setCorrections (v : list correction) : account -> account := ltac:(setter_of account_eta acCorrections v).
Definition setSnoozes (v : Snoozes.table) : account -> account := ltac:(setter_of account_eta acSnoozes v).
Abbreviation AS := (Txn account stErr).

(** ** Single values (meta) *)

Definition metaCheckpoint : gostr := $"checkpoint".
Definition metaSubscriberID : gostr := $"subscriber_id".
Definition metaDeliveryMode : gostr := $"native_delivery_mode".
Definition metaPullSeq : gostr := $"pull_seq".
Definition metaAICreditsExhausted : gostr := $"ai_credits_exhausted".
Definition metaAICreditsAt : gostr := $"ai_credits_exhausted_at".
Definition metaOllamaNotified : gostr := $"ollama_update_notified_version".
Definition metaServerNotified : gostr := $"server_update_notified_version".
Definition metaLastPollTick : gostr := $"last_poll_tick".
Definition metaCheckpointHeldSince : gostr := $"checkpoint_held_since".
Definition metaLastCleanup : gostr := $"last_cleanup_at".
Definition metaDaemonHealth : gostr := $"daemon_health".
Definition metaSorterGeneration : gostr := $"sorter_generation".
Definition metaMailSource : gostr := $"mail_source".

Definition metaOf (key : gostr) (a : account) : gostr := default [] (acMeta a !! key).
Definition metaString (key : gostr) : AS gostr := select (metaOf key).
Definition setMeta (key value : gostr) : AS unit := exec (fun a => setMetas (<[key := value]> (acMeta a)) a).


Section State.
Context {GT : GoTime} {GF : GoTimeFormat}.

(** ** Settled and postponed messages *)

Definition checkpoint : AS gostr := metaString metaCheckpoint.
Definition setCheckpoint (value : gostr) : AS unit := setMeta metaCheckpoint value.
Definition unpinned (z : Snoozes.Snooze) : Snoozes.Snooze :=
  if (0 <? Snoozes.WokenAt z)%Z then Snoozes.mkSnooze (Snoozes.MessageID z) (Snoozes.WakeAt z) [] (Snoozes.WokenAt z) else z.
Definition resetUIDNamespace (cp : gostr) : AS unit :=
  exec (setProcessed ∅);; exec (setDeferrals ∅);; exec (fun a => setSnoozes (unpinned <$> acSnoozes a) a);; setMeta metaCheckpoint cp.

Definition seen (id : gostr) : AS bool := select (fun a => bool_decide (is_Some (acProcessed a !! id))).
Definition markProcessed (id : gostr) (now : Z) : AS unit := exec (fun a => setProcessed (<[id := now]> (acProcessed a)) a).
Definition insertDecision (d : Decision) (now : Z) : AS unit :=
  exec (fun a =>
    let d := mkDecision (dcMessage d) (dcSender d) (dcSentTo d) (dcSubject d) (dcLabel d) (dcStatus d) (dcDetail d) (if dcAt d =s? [] then formatTime now else dcAt d) in
    let id := (acLastDecision a + 1)%Z in setLastDecision id (setDecisions (acDecisions a ++ [mkDecRow id d (parseTime (dcAt d))]) a)).
Definition dropDeferral (id : gostr) : AS unit := exec (fun a => setDeferrals (base.delete id (acDeferrals a)) a).
Definition recordProcessedDecision (d : Decision) (now : Z) : AS unit := insertDecision d now;; markProcessed (dcMessage d) now;; dropDeferral (dcMessage d).
Definition recordReplacementDecision (originalID : gostr) (d : Decision) (now : Z) : AS unit :=
  insertDecision d now;; markProcessed originalID now;; markProcessed (dcMessage d) now;; dropDeferral originalID;; dropDeferral (dcMessage d).
Definition processedSince (since : Z) : AS Z := select (fun a => Z.of_nat (size (base.filter (fun '(_, at_) => (since <= at_)%Z) (acProcessed a)))).
Definition cleanup (keepDays now : Z) : AS unit :=
  let cutoff := (now - keepDays * 86400)%Z in
  exec (fun a => setProcessed (base.filter (fun '(_, at_) => (cutoff <= at_)%Z) (acProcessed a)) a);;
  exec (fun a => setDecisions (List.filter (fun r => match drUnix r with Some t => negb (t <? cutoff)%Z | None => true end) (acDecisions a)) a);;
  exec (fun a => setDeferrals (base.filter (fun '(_, d) => (cutoff <= dfFirst d)%Z) (acDeferrals a)) a);;
  exec (fun a => setPredictions (base.filter (fun '(_, p) => (cutoff <= pdAt p)%Z) (acPredictions a)) a);;
  exec (fun a => setSnoozes (Snoozes.pruneWoken now (acSnoozes a)) a);;
  setMeta metaLastCleanup (formatTime now).
Definition lastCleanup : AS gostr := metaString metaLastCleanup.

Definition attemptsOf (id : gostr) (a : account) : Z := match acDeferrals a !! id with Some d => dfAttempts d | None => 0%Z end.
Definition recordDeferral (id : gostr) (now : Z) : AS Z :=
  exec (fun a => setDeferrals (<[id := match acDeferrals a !! id with Some d => mkDeferral (dfAttempts d + 1) (dfFirst d) now | None => mkDeferral 1 now now end]> (acDeferrals a)) a);;
  select (attemptsOf id).
Definition clearDeferral (id : gostr) : AS unit := dropDeferral id.
Definition deferralAttempts (id : gostr) : AS Z := select (attemptsOf id).
Definition minFirst (m : option Z) (d : deferral) : option Z := match m with Some t => Some (Z.min t (dfFirst d)) | None => Some (dfFirst d) end.
Definition deferralStats : AS (Z * gostr) :=
  select (fun a => (Z.of_nat (size (acDeferrals a)), match foldl minFirst None ((map_to_list (acDeferrals a)).*2) with Some t => formatTime t | None => [] end)).

Definition addDecision (d : Decision) (now : Z) : AS unit := insertDecision d now.
Definition hasDecisionWithStatus (id status : gostr) : AS bool :=
  select (fun a => existsb (fun r => (dcMessage (drDecision r) =s? id) && (dcStatus (drDecision r) =s? status)) (acDecisions a)).
Definition decisionsStrict (limit : Z) : AS (list Decision) :=
  select (fun a => let all := drDecision <$> reverse (acDecisions a) in if (0 <? limit)%Z then take (Z.to_nat limit) all else all).
Definition failedDecisionsSince (since : Z) : AS Z :=
  select (fun a => Z.of_nat (length (List.filter (fun r => (dcStatus (drDecision r) =s? $"failed") && match drUnix r with Some t => (since <=? t)%Z | None => false end) (acDecisions a)))).

(** ** The last tick; its JSON text is a class *)

Record PollTick := mkTick { ptAt : gostr; ptFetched : Z; ptProcessed : Z; ptSkippedSeen : Z; ptFailed : Z; ptDeferred : Z; ptRateLimited : bool; ptHeld : bool }.
Class TickJSON := { tickText : PollTick -> gostr; tickParse : gostr -> option PollTick }.
Definition recordPollTick {TJ : TickJSON} (t : PollTick) (now : Z) : AS unit :=
  let t := if ptAt t =s? [] then mkTick (formatTime now) (ptFetched t) (ptProcessed t) (ptSkippedSeen t) (ptFailed t) (ptDeferred t) (ptRateLimited t) (ptHeld t) else t in
  (if ptHeld t then held ← metaString metaCheckpointHeldSince; if held =s? [] then setMeta metaCheckpointHeldSince (ptAt t) else mret tt
   else setMeta metaCheckpointHeldSince []);;
  setMeta metaLastPollTick (tickText t).
Definition lastPollTick {TJ : TickJSON} : AS (option PollTick * gostr) :=
  raw ← metaString metaLastPollTick; held ← metaString metaCheckpointHeldSince; mret (if trimSpace raw =s? [] then None else tickParse raw, held).

(** ** Subscriber, delivery mode, latches *)

Definition getOrCreateSubscriberID (uuid : option gostr) : AS gostr :=
  existing ← metaString metaSubscriberID;
  if negb (existing =s? []) then mret existing
  else match uuid with Some fresh => setMeta metaSubscriberID fresh;; mret fresh | None => raise ErrUUID end.
Definition rotateSubscriberID (uuid : option gostr) : AS gostr :=
  existing ← metaString metaSubscriberID; match uuid with Some fresh => setMeta metaSubscriberID fresh;; mret existing | None => raise ErrUUID end.

Definition setAICreditsExhausted (at_ : gostr) (now : Z) : AS bool :=
  cur ← metaString metaAICreditsExhausted;
  if cur =s? $"1" then mret false
  else setMeta metaAICreditsExhausted ($"1");; setMeta metaAICreditsAt (if trimSpace at_ =s? [] then formatTime now else at_);; mret true.
Definition clearAICreditsExhausted : AS bool :=
  cur ← metaString metaAICreditsExhausted;
  if negb (cur =s? $"1") then mret false else setMeta metaAICreditsExhausted ($"0");; setMeta metaAICreditsAt [];; mret true.
Definition aiCreditsExhausted : AS (bool * gostr) := flag ← metaString metaAICreditsExhausted; at_ ← metaString metaAICreditsAt; mret (flag =s? $"1", at_).
Definition setDaemonHealth (report : gostr) : AS unit := setMeta metaDaemonHealth report.
Definition daemonHealth : AS gostr := metaString metaDaemonHealth.
(** Outside the transaction a blank version answers false. *)
Definition setUpdateNotified (key version : gostr) : AS bool :=
  let version := trimSpace version in
  if version =s? [] then mret false
  else cur ← metaString key; if cur =s? version then mret false else setMeta key version;; mret true.
End State.

Section Devices.
Context {U : Unicode} {GT : GoTime} {GF : GoTimeFormat}.

(** ** Delivery mode and the queue devices poll *)

Definition DeliveryModePush : gostr := $"push".
Definition DeliveryModePull : gostr := $"pull".
Definition normalizeDeliveryMode (mode : gostr) : gostr := if equalFold (trimSpace mode) DeliveryModePull then DeliveryModePull else DeliveryModePush.
Definition nativeDeliveryMode : AS gostr := v ← metaString metaDeliveryMode; mret (normalizeDeliveryMode v).
Definition setNativeDeliveryMode (mode : gostr) : AS unit := setMeta metaDeliveryMode (normalizeDeliveryMode mode).

Definition maxPullNotifications : Z := 100.
Definition maxSeq (l : list PullNotification) : Z := foldr (fun n m => Z.max (pnSeq n) m) 0%Z l.
(** The INSERT fails on a sequence number already in the table. *)
Definition insertPull (n : PullNotification) : AS unit := fun a =>
  if existsb (fun x => (pnSeq x =? pnSeq n)%Z) (acPulls a) then Err ErrDB else Ok (tt, setPulls (acPulls a ++ [n]) a).
Definition trimPulls : AS unit := exec (fun a => setPulls (List.filter (fun n => negb (pnSeq n <=? maxSeq (acPulls a) - maxPullNotifications)%Z) (acPulls a)) a).
Definition enqueuePullNotification (n : PullNotification) (now : Z) : AS unit :=
  raw ← metaString metaPullSeq;
  let seq := wrap64 (sscanInt raw + 1) in
  insertPull (mkPull seq (pnTitle n) (pnBody n) (pnData n) (if trimSpace (pnCreatedAt n) =s? [] then formatTime now else pnCreatedAt n) (pnDevices n));;
  trimPulls;; setMeta metaPullSeq (formatInt seq).

(** The two reads of [PullNotificationsAfterStrict]: the cursor, then the rows.
    A cursor that cannot be read is 0. *)
Definition pullCursor (readable : bool) (a : account) : Z := if readable then sscanInt (metaOf metaPullSeq a) else 0%Z.
Definition addressedTo (deviceID : gostr) (n : PullNotification) : bool := bool_decide (pnDevices n = []) || bool_decide (deviceID ∈ pnDevices n).
Definition bySeq (a b : PullNotification) : bool := (pnSeq a <? pnSeq b)%Z.
Definition pullRows (deviceID : gostr) (after : Z) (a : account) : list PullNotification :=
  List.filter (addressedTo deviceID) (sortStable bySeq (List.filter (fun n => (after <? pnSeq n)%Z) (acPulls a))).

(** ** Web push subscriptions *)

Definition MaxNotificationSubscriptions : Z := 20.
Definition MaxNativeDevices : Z := 20.
Definition isSub (endpoint : gostr) (r : subRow) : bool := nsEndpoint (srSub r) =s? endpoint.
Definition nextSeq {A} (seq : A -> Z) (l : list A) : Z := (foldr (fun r m => Z.max (seq r) m) (-1) l + 1)%Z.
Definition listNotificationSubscriptions : AS (list NotificationSubscription) :=
  select (fun a => srSub <$> sortStable (fun x y => (srSeq x <? srSeq y)%Z) (acSubs a)).
Definition upsertNotificationSubscription (sub : NotificationSubscription) : AS unit :=
  exists_ ← select (fun a => existsb (isSub (nsEndpoint sub)) (acSubs a));
  n ← select (fun a => Z.of_nat (length (acSubs a)));
  if negb exists_ && (MaxNotificationSubscriptions <=? n)%Z then raise ErrRegistrationLimit
  else exec (fun a =>
    if exists_ then setSubs (update_first (isSub (nsEndpoint sub)) (fun r => mkSubRow sub (srSeq r)) (acSubs a)) a
    else setSubs (acSubs a ++ [mkSubRow sub (nextSeq srSeq (acSubs a))]) a).
Definition removeNotificationSubscription (endpoint : gostr) : AS bool :=
  found ← select (fun a => existsb (isSub endpoint) (acSubs a));
  exec (fun a => setSubs (List.filter (fun r => negb (isSub endpoint r)) (acSubs a)) a);; mret found.

(** ** Paired devices *)

Fixpoint distinctSorted (l : list Z) : bool :=
  match l with
  | [] => true
  | v :: l' => (2 <=? v)%Z && (v <=? 65535)%Z && match l' with w :: _ => negb (v =? w)%Z | [] => true end && distinctSorted l'
  end.
Definition normalizeEnrollmentVersions (versions : list Z) : option (list Z) :=
  if bool_decide (versions = []) then Some []
  else if (16 <? length versions)%nat then None
  else let out := sortStable Z.ltb versions in if distinctSorted out then Some out else None.

Definition isDevice (id : gostr) (r : deviceRow) : bool := ndID (dvDevice r) =s? id.
Definition findDevice (id : gostr) (a : account) : option deviceRow := find_first (isDevice id) (acDevices a).
(** INSERT ... ON CONFLICT(device_id): the row of that id keeps its place. *)
Definition insertDevice (d : NativeDevice) (seq : Z) : AS unit :=
  match normalizeEnrollmentVersions (ndVersions d) with
  | None => raise ErrInvalidEnrollmentVersions
  | Some versions =>
      exec (fun a => let d := setVersions versions d in
        if existsb (isDevice (ndID d)) (acDevices a) then setDevices (update_first (isDevice (ndID d)) (fun r => mkDevRow d (dvSeq r)) (acDevices a)) a
        else setDevices (acDevices a ++ [mkDevRow d seq]) a)
  end.
Definition listNativeDevices : AS (list NativeDevice) := select (fun a => dvDevice <$> sortStable (fun x y => (dvSeq x <? dvSeq y)%Z) (acDevices a)).
Definition getNativeDevice (id : gostr) : AS (option NativeDevice) :=
  select (fun a => if trimSpace id =s? [] then None else dvDevice <$> findDevice (trimSpace id) a).

(** [enrollmentState.applyTo]. *)
Definition applyEnrollment (old d : NativeDevice) : option NativeDevice :=
  versions ← normalizeEnrollmentVersions (ndVersions old);
  Some (setVersions versions (setEnrollment (ndEnrollment old) (setEnrolled (ndEnrolled old) (setEnrollAt (ndEnrollAt old) (setEnrollKey (ndEnrollKey old) d))))).
Definition mustApply (o : option NativeDevice) : AS NativeDevice := match o with Some d => mret d | None => raise ErrInvalidEnrollmentVersions end.
Definition tokenMatch (token platform : gostr) (a : account) : option deviceRow :=
  head (sortStable (fun x y => (dvSeq x <? dvSeq y)%Z) (List.filter (fun r => (ndPushToken (dvDevice r) =s? token) && (ndPlatform (dvDevice r) =s? platform)) (acDevices a))).
Definition withoutDevice (id : gostr) : AS unit := exec (fun a => setDevices (List.filter (fun r => negb (isDevice id r)) (acDevices a)) a).
Definition prepared (id : gostr) (d : NativeDevice) (now : Z) : NativeDevice :=
  let d := setPushToken (trimSpace (ndPushToken d)) (setPlatform (toLower (trimSpace (ndPlatform d))) (setID id d)) in
  let d := setEnrollment noEnrollment (setEnrolled false (setVersions [] (setEnrollAt [] (setEnrollKey [] d)))) in
  setDeviceUpdated (formatTime now) (setRegisteredAt (if trimSpace (ndRegisteredAt d) =s? [] then formatTime now else ndRegisteredAt d) d).
Definition upsertNativeDevice (d : NativeDevice) (uuid : option gostr) (now : Z) : AS unit :=
  id ← (if trimSpace (ndID d) =s? [] then match uuid with Some id => mret id | None => raise ErrUUID end else mret (trimSpace (ndID d)));
  let d := prepared id d now in
  existing ← select (findDevice id);
  match existing with
  | Some r =>
      let old := dvDevice r in
      let d := setApprover (ndApprover old) (if ndRegisteredAt old =s? [] then d else setRegisteredAt (ndRegisteredAt old) d) in
      d ← mustApply (applyEnrollment old d); insertDevice d (dvSeq r)
  | None =>
      found ← select (fun a => if ndPushToken d =s? [] then None else tokenMatch (ndPushToken d) (ndPlatform d) a);
      match found with
      | Some r =>
          let old := dvDevice r in
          withoutDevice (ndID old);;
          let d := setApprover false (setRegisteredAt (ndRegisteredAt old) (setID (ndID old) d)) in
          let d := if trimSpace (ndUser d) =s? [] then setUser (ndUser old) d else d in
          d ← mustApply (applyEnrollment old d); insertDevice d (dvSeq r)
      | None =>
          n ← select (fun a => Z.of_nat (length (acDevices a)));
          if (MaxNativeDevices <=? n)%Z then raise ErrRegistrationLimit
          else seq ← select (fun a => nextSeq dvSeq (acDevices a)); insertDevice d seq
      end
  end.
Definition removeNativeDevice (id : gostr) : AS bool :=
  let id := trimSpace id in
  if id =s? [] then mret false
  else found ← select (fun a => existsb (isDevice id) (acDevices a)); withoutDevice id;; mret found.

(** UPDATE of the rows that satisfy a test; answers how many there were. *)
Definition updateDevices (p : NativeDevice -> bool) (f : NativeDevice -> NativeDevice) : AS Z :=
  n ← select (fun a => Z.of_nat (length (List.filter (fun r => p (dvDevice r)) (acDevices a))));
  exec (fun a => setDevices ((fun r => if p (dvDevice r) then mkDevRow (f (dvDevice r)) (dvSeq r) else r) <$> acDevices a) a);; mret n.
Definition named (id : gostr) (d : NativeDevice) : bool := ndID d =s? id.
Definition requireRow (n : Z) : AS unit := if (n =? 0)%Z then raise ErrNoDevice else mret tt.

(** [versions = None] is an omitted claim.  The record answered is a second read. *)
Definition setNativeDeviceEnrollmentKey (id key at_ : gostr) (versions : option (list Z)) (now : Z) : AS unit :=
  let id := trimSpace id in
  if id =s? [] then raise ErrEmptyDevice
  else if bool_decide (versions = Some []) then raise ErrInvalidEnrollmentVersions
  else match normalizeEnrollmentVersions (default [] versions) with
  | None => raise ErrInvalidEnrollmentVersions
  | Some vs => n ← updateDevices (named id) (fun d => setDeviceUpdated (formatTime now) (setVersions vs (setEnrollAt at_ (setEnrollKey key d)))); requireRow n
  end.
Definition recordNativeDeviceDelivery (id : gostr) (e : DeviceEnrollment) (now : Z) : AS unit :=
  let id := trimSpace id in
  if id =s? [] then raise ErrEmptyDevice
  else n ← updateDevices (named id) (fun d => setDeviceUpdated (formatTime now) (setEnrollment e (setEnrolled false d))); requireRow n.
Definition confirmNativeDeviceEnrollment (id : gostr) (e : DeviceEnrollment) (now : Z) : AS bool :=
  let id := trimSpace id in
  if (id =s? []) || (deVersion e =? 0)%Z || (deFingerprint e =s? []) then mret false
  else n ← updateDevices (fun d => named id d && bool_decide (ndEnrollment d = e)) (fun d => setDeviceUpdated (formatTime now) (setEnrolled true d)); mret (n =? 1)%Z.
Definition setNativeDeviceEncryptionEnrolled (id : gostr) (enrolled : bool) (now : Z) : AS unit :=
  let id := trimSpace id in
  if id =s? [] then raise ErrEmptyDevice
  else n ← updateDevices (named id) (fun d => setDeviceUpdated (formatTime now) (if enrolled then setEnrolled true d else setEnrollment noEnrollment (setEnrolled false d))); requireRow n.
Definition enrollmentLeft (d : NativeDevice) : bool :=
  negb (ndEnrollKey d =s? []) || negb (ndEnrollAt d =s? []) || ndEnrolled d || negb (bool_decide (ndVersions d ∈ [[]; [2]]%Z)) || negb (bool_decide (ndEnrollment d = noEnrollment)).
Definition clearDeviceEnrollments (now : Z) : AS Z :=
  updateDevices enrollmentLeft (fun d => setDeviceUpdated (formatTime now) (setEnrollment noEnrollment (setEnrolled false (setVersions [] (setEnrollAt [] (setEnrollKey [] d)))))).
Definition setNativeDeviceMFAApprover (id : gostr) (approver : bool) (now : Z) : AS bool :=
  let id := trimSpace id in
  if id =s? [] then mret false else n ← updateDevices (named id) (fun d => setDeviceUpdated (formatTime now) (setApprover approver d)); mret (0 <? n)%Z.
Definition setNativeDevicePush (id secretHash transport token p256dh auth : gostr) (now : Z) : AS bool :=
  n ← updateDevices (fun d => named (trimSpace id) d && (ndSecretHash d =s? secretHash))
        (fun d => setDeviceUpdated (formatTime now) (setAuth auth (setP256DH p256dh (setPushToken (trimSpace token) (setTransport transport d))))); mret (0 <? n)%Z.

(** A device's row, read inside the transaction that runs [action]. *)
Definition withNativeSendDevice (id : gostr) (action : NativeDevice -> AS unit) : AS unit :=
  if id =s? [] then raise ErrNativeSendDevice
  else r ← select (findDevice id); match r with Some r => action (dvDevice r) | None => raise ErrNativeSendDevice end.
Definition nativeDeviceWitness (sum : gostr -> gostr) (d : NativeDevice) : gostr := if ndSecretHash d =s? [] then [] else sum (ndSecretHash d).

(** ** Mail source *)

Definition validMailSource (source : gostr) : bool :=
  (source =s? $"imap") || hasPrefix ($"native:") source && match hexDecode (drop 7 source) with Some h => (length h =? 32)%nat | None => false end.
Definition bindMailSource (source : gostr) : AS unit :=
  if negb (validMailSource source) then raise ErrStateSource
  else current ← select (fun a => acMeta a !! metaMailSource);
       match current with Some c => if c =s? source then mret tt else raise ErrStateSource | None => raise ErrDB end.
(** The first open of a database: INSERT OR IGNORE, then the check. *)
Definition initMailSource (source : gostr) : AS unit :=
  exec (fun a => match acMeta a !! metaMailSource with Some _ => a | None => setMetas (<[metaMailSource := source]> (acMeta a)) a end).

(** ** The sorter's memory *)

Definition MaxSorterCorrectionsPerLabel : Z := 1000.
(** A vector is stored as the little-endian words of its float32 bits. *)
Fixpoint encodeVec (v : list Z) : list Z :=
  match v with [] => [] | x :: v' => [x mod 256; x / 256 mod 256; x / 65536 mod 256; x / 16777216 mod 256]%Z ++ encodeVec v' end.
Fixpoint decodeVec (b : list Z) : option (list Z) :=
  match b with
  | [] => Some []
  | b0 :: b1 :: b2 :: b3 :: b' => v ← decodeVec b'; Some ((b0 + 256 * b1 + 65536 * b2 + 16777216 * b3)%Z :: v)
  | _ => None
  end.
Definition recordSorterPrediction (id check model : gostr) (vec : list Z) (label : gostr) (now : Z) : AS unit :=
  exec (fun a => setPredictions (<[id := mkPrediction check model (encodeVec vec) label now]> (acPredictions a)) a).
Definition sorterPrediction (id : gostr) : AS (option (gostr * gostr)) := select (fun a => p ← acPredictions a !! id; Some (pdCheck p, pdLabel p)).
Definition forgetSorterPrediction (id : gostr) : AS unit := exec (fun a => setPredictions (base.delete id (acPredictions a)) a).

Definition isCorrection (id : gostr) (c : correction) : bool := crMessage c =s? id.
Definition newerCorrection (x y : correction) : bool := (crAt y <? crAt x)%Z || (crAt x =? crAt y)%Z && (crRowid y <? crRowid x)%Z.
(** The newest of a label's corrections stay. *)
Definition boundCorrections (label : gostr) (l : list correction) : list correction :=
  let kept := crMessage <$> take (Z.to_nat MaxSorterCorrectionsPerLabel) (sortStable newerCorrection (List.filter (fun c => crLabel c =s? label) l)) in
  List.filter (fun c => negb ((crLabel c =s? label) && negb (bool_decide (crMessage c ∈ kept)))) l.
Definition upsertCorrection (id label model : gostr) (vec : list Z) (now : Z) (l : list correction) : list correction * bool :=
  match find_first (isCorrection id) l with
  | Some c => if crLabel c =s? label then (l, false) else (update_first (isCorrection id) (fun c => mkCorrection id label model vec now (crRowid c)) l, true)
  | None => (l ++ [mkCorrection id label model vec now (Z.max 1 (nextSeq crRowid l))], true)
  end.
Definition bumpSorterGeneration : AS unit := cur ← metaString metaSorterGeneration; setMeta metaSorterGeneration (formatInt (wrap64 (parseIntValue cur + 1))).
Definition recordSorterCorrection (id check label : gostr) (now : Z) : AS bool :=
  p ← select (fun a => acPredictions a !! id);
  match p with
  | None => mret false
  | Some p =>
      if negb (pdCheck p =s? check) then mret false
      else
        changed ← (fun a =>
          let '(l, n) := if label =s? pdLabel p then (List.filter (fun c => negb (isCorrection id c)) (acCorrections a), existsb (isCorrection id) (acCorrections a))
                         else upsertCorrection id label (pdModel p) (pdVec p) now (acCorrections a) in Ok (n, setCorrections l a));
        if negb (changed : bool) then mret false
        else exec (fun a => setCorrections (boundCorrections label (acCorrections a)) a);; bumpSorterGeneration;; mret true
  end.
Definition sorterGeneration : AS gostr := metaString metaSorterGeneration.

Definition olderCorrection (x y : correction) : bool := (crAt x <? crAt y)%Z || (crAt x =? crAt y)%Z && (crRowid x <? crRowid y)%Z.
Definition sorterCorrections (model : gostr) : AS (list (gostr * list Z)) :=
  l ← select (fun a => sortStable olderCorrection (List.filter (fun c => crModel c =s? model) (acCorrections a)));
  match mapM (fun c => v ← decodeVec (crVec c); Some (crLabel c, v)) l with Some l => mret l | None => raise ErrVector end.
End Devices.

Definition newAccount : account := mkAccount ∅ ∅ [] 0 ∅ [] [] [] ∅ [] [].
