(* ===== verification/AccountTheorems.v ===== *)
(** * AccountTheorems: runs of an account's state database

    A call is a method with its arguments, the clock, the identifier it may have
    drawn and whether the database takes the transaction.  [device_refines_life]:
    what any call does to one paired device is a step of that device's own state
    machine; what follows for approvers and enrollments.  [pull_gap_free]: what a
    device reads after its cursor.  [fanout_bounded]: the caps. *)

From S2P Require Import Prelude GoText GoCodec FileStore Contacts Transaction StateTables AccountState.

Inductive stOp :=
  | SCheckpoint (value : gostr) | SResetNamespace (value : gostr)
  | SProcessed (d : Decision) | SReplacement (original : gostr) (d : Decision) | SMark (id : gostr) | SDecision (d : Decision)
  | SDeferral (id : gostr) | SClearDeferral (id : gostr) | SCleanup (days : Z) | STick (t : PollTick)
  | SSubscriber | SRotateSubscriber | SCreditsOut (at_ : gostr) | SCreditsBack | SHealth (report : gostr) | SOllamaNotified (version : gostr) | SServerNotified (version : gostr)
  | SMode (mode : gostr) | SEnqueue (n : PullNotification) | SSubscribe (sub : NotificationSubscription) | SUnsubscribe (endpoint : gostr)
  | SPair (d : NativeDevice) | SUnpair (id : gostr) | SEnrollKey (id key at_ : gostr) (versions : option (list Z)) | SDelivered (id : gostr) (e : DeviceEnrollment)
  | SConfirm (id : gostr) (e : DeviceEnrollment) | SReported (id : gostr) (enrolled : bool) | SRotated | SApprover (id : gostr) (approver : bool)
  | SPush (id secretHash transport token p256dh auth : gostr)
  | SPredict (id check model : gostr) (vec : list Z) (label : gostr) | SForget (id : gostr) | SCorrect (id check label : gostr).

Record stCall := mkStCall { scNow : Z; scUuid : option gostr; scUp : bool; scOp : stOp }.
Inductive stAns := SaUnit | SaBool (b : bool) | SaNum (n : Z) | SaText (s : gostr).

(** ** One row found by a test, through the statements of a table *)

Lemma find_first_filter {A} (p q : A -> bool) l : (forall x, q x = true -> p x = true) -> find_first q (List.filter p l) = find_first q l.
Proof.
  intros H. induction l as [|x l IH]; [done|]. simpl. destruct (q x) eqn:E; [rewrite (H x E); simpl; by rewrite E|].
  destruct (p x); simpl; rewrite ?E; done.
Qed.
Lemma find_first_filter_none {A} (p q : A -> bool) l : (forall x, q x = true -> p x = false) -> find_first q (List.filter p l) = None.
Proof. intros H. apply find_first_None. intros x Hx%list_elem_of_In%filter_In. destruct Hx as [_ Hx]. destruct (q x) eqn:E; [|done]. by rewrite H in Hx. Qed.
Lemma find_first_fmap {A} (q : A -> bool) (f : A -> A) l : (forall x, q (f x) = q x) -> find_first q (f <$> l) = f <$> find_first q l.
Proof. intros H. induction l as [|x l IH]; [done|]. csimpl. rewrite H. by destruct (q x). Qed.
Lemma find_first_existsb {A} (p : A -> bool) l : existsb p l = bool_decide (is_Some (find_first p l)).
Proof. induction l as [|x l IH]; [done|]. simpl. by destruct (p x). Qed.

Section Run.
Context {U : Unicode} {GT : GoTime} {GF : GoTimeFormat} {TJ : TickJSON}.

Definition asUnit (m : AS unit) : AS stAns := m;; mret SaUnit.
Definition asBool (m : AS bool) : AS stAns := b ← m; mret (SaBool b).
Definition asNum (m : AS Z) : AS stAns := n ← m; mret (SaNum n).
Definition asText (m : AS gostr) : AS stAns := s ← m; mret (SaText s).
Definition stRun (now : Z) (uuid : option gostr) (o : stOp) : AS stAns :=
  match o with
  | SCheckpoint v => asUnit (setCheckpoint v) | SResetNamespace v => asUnit (resetUIDNamespace v)
  | SProcessed d => asUnit (recordProcessedDecision d now) | SReplacement id d => asUnit (recordReplacementDecision id d now)
  | SMark id => asUnit (markProcessed id now) | SDecision d => asUnit (addDecision d now)
  | SDeferral id => asNum (recordDeferral id now) | SClearDeferral id => asUnit (clearDeferral id) | SCleanup days => asUnit (cleanup days now)
  | STick t => asUnit (recordPollTick t now)
  | SSubscriber => asText (getOrCreateSubscriberID uuid) | SRotateSubscriber => asText (rotateSubscriberID uuid)
  | SCreditsOut at_ => asBool (setAICreditsExhausted at_ now) | SCreditsBack => asBool clearAICreditsExhausted | SHealth r => asUnit (setDaemonHealth r)
  | SOllamaNotified v => asBool (setUpdateNotified metaOllamaNotified v) | SServerNotified v => asBool (setUpdateNotified metaServerNotified v)
  | SMode m => asUnit (setNativeDeliveryMode m) | SEnqueue n => asUnit (enqueuePullNotification n now)
  | SSubscribe s => asUnit (upsertNotificationSubscription s) | SUnsubscribe e => asBool (removeNotificationSubscription e)
  | SPair d => asUnit (upsertNativeDevice d uuid now) | SUnpair id => asBool (removeNativeDevice id)
  | SEnrollKey id key at_ vs => asUnit (setNativeDeviceEnrollmentKey id key at_ vs now) | SDelivered id e => asUnit (recordNativeDeviceDelivery id e now)
  | SConfirm id e => asBool (confirmNativeDeviceEnrollment id e now) | SReported id b => asUnit (setNativeDeviceEncryptionEnrolled id b now)
  | SRotated => asNum (clearDeviceEnrollments now) | SApprover id b => asBool (setNativeDeviceMFAApprover id b now)
  | SPush id h tr tok p a => asBool (setNativeDevicePush id h tr tok p a now)
  | SPredict id c m v l => asUnit (recordSorterPrediction id c m v l now) | SForget id => asUnit (forgetSorterPrediction id)
  | SCorrect id c l => asBool (recordSorterCorrection id c l now)
  end.
Definition stStep (c : stCall) (a : account) : res stErr stAns * account := commit ErrDB (scUp c) (stRun (scNow c) (scUuid c) (scOp c)) a.

(** ** The life of a paired device *)

Record life := mkLife { lfApprover : bool; lfEnrollment : DeviceEnrollment; lfReported : bool }.
Definition lifeOf (id : gostr) (a : account) : option life :=
  (fun r => mkLife (ndApprover (dvDevice r)) (ndEnrollment (dvDevice r)) (ndEnrolled (dvDevice r))) <$> findDevice id a.

(** The device an operation names. *)
Definition target (o : stOp) : option gostr :=
  match o with
  | SUnpair i | SDelivered i _ | SConfirm i _ | SReported i _ | SApprover i _ => let i := trimSpace i in if i =s? [] then None else Some i
  | _ => None
  end.
Inductive lifeStep (id : gostr) : stOp -> res stErr stAns -> option life -> option life -> Prop :=
  | life_failed o e s : lifeStep id o (Err e) s s
  | life_untouched o x s : target o <> Some id -> (forall d, o <> SPair d) -> o <> SRotated -> lifeStep id o (Ok x) s s
  | life_absent o x : (forall d, o <> SPair d) -> lifeStep id o (Ok x) None None
  | life_not_named d x s : lifeStep id (SPair d) (Ok x) s s
  | life_paired d x : (trimSpace (ndID d) = id \/ trimSpace (ndID d) = []) -> lifeStep id (SPair d) (Ok x) None (Some (mkLife (ndApprover d) noEnrollment false))
  | life_same_token d x l : trimSpace (ndID d) <> id -> lifeStep id (SPair d) (Ok x) (Some l) (Some (mkLife false (lfEnrollment l) (lfReported l)))
  | life_unpaired i x l : trimSpace i = id -> lifeStep id (SUnpair i) (Ok x) (Some l) None
  | life_delivered i e x l : trimSpace i = id -> lifeStep id (SDelivered i e) (Ok x) (Some l) (Some (mkLife (lfApprover l) e false))
  | life_confirmed i l : trimSpace i = id -> deVersion (lfEnrollment l) <> 0%Z -> deFingerprint (lfEnrollment l) <> [] ->
      lifeStep id (SConfirm i (lfEnrollment l)) (Ok (SaBool true)) (Some l) (Some (mkLife (lfApprover l) (lfEnrollment l) true))
  | life_not_confirmed i e l : trimSpace i = id -> (deVersion e = 0%Z \/ deFingerprint e = [] \/ e <> lfEnrollment l) -> lifeStep id (SConfirm i e) (Ok (SaBool false)) (Some l) (Some l)
  | life_reported i x l : trimSpace i = id -> lifeStep id (SReported i true) (Ok x) (Some l) (Some (mkLife (lfApprover l) (lfEnrollment l) true))
  | life_lost i x l : trimSpace i = id -> lifeStep id (SReported i false) (Ok x) (Some l) (Some (mkLife (lfApprover l) noEnrollment false))
  | life_rotated x l : lifeStep id SRotated (Ok x) (Some l) (Some (mkLife (lfApprover l) noEnrollment false))
  | life_approver i b x l : trimSpace i = id -> lifeStep id (SApprover i b) (Ok x) (Some l) (Some (mkLife b (lfEnrollment l) (lfReported l))).

(** ** Statements on the table of devices *)

Definition devicesAre (l : list deviceRow) (a : account) : Prop := acDevices a = l.
Lemma exec_devices l (f : account -> account) : (forall a, acDevices (f a) = acDevices a) -> keeps (E := stErr) (devicesAre l) (exec f).
Proof. intros H a Ha. apply wp_exec. unfold devicesAre in *. by rewrite H. Qed.
Lemma setMeta_devices l k v : keeps (devicesAre l) (setMeta k v).
Proof. by apply exec_devices. Qed.
Lemma metaString_devices l k : keeps (devicesAre l) (metaString k).
Proof. apply keeps_select. Qed.
Lemma insertDecision_devices l d now : keeps (devicesAre l) (insertDecision d now).
Proof. by apply exec_devices. Qed.
Lemma insertPull_devices l n : keeps (devicesAre l) (insertPull n).
Proof. intros a Ha. unfold wp, insertPull. destruct (existsb _ _); done. Qed.

Hint Resolve setMeta_devices metaString_devices insertDecision_devices insertPull_devices : mbkeeps.
Hint Extern 1 (keeps (devicesAre _) (exec _)) => apply exec_devices; by intros : mbkeeps.

Definition onDevices (o : stOp) : bool :=
  match o with SPair _ | SUnpair _ | SEnrollKey _ _ _ _ | SDelivered _ _ | SConfirm _ _ | SReported _ _ | SRotated | SApprover _ _ | SPush _ _ _ _ _ _ => true | _ => false end.
Lemma stRun_devices l now uuid o : onDevices o = false -> keeps (devicesAre l) (stRun now uuid o).
Proof.
  destruct o; intros H; try discriminate H; unfold stRun, asUnit, asBool, asNum, asText; walk.
  all: try (unfold recordProcessedDecision, recordReplacementDecision, addDecision, recordDeferral, clearDeferral, cleanup, recordPollTick, resetUIDNamespace, setCheckpoint,
    getOrCreateSubscriberID, rotateSubscriberID, setAICreditsExhausted, clearAICreditsExhausted, setDaemonHealth, setUpdateNotified, setNativeDeliveryMode, enqueuePullNotification, trimPulls,
    upsertNotificationSubscription, removeNotificationSubscription, recordSorterPrediction, forgetSorterPrediction, recordSorterCorrection, bumpSorterGeneration, markProcessed, dropDeferral; walk).
  all: try (intros a0 Ha0; unfold wp, devicesAre in *; repeat case_match; simplify_eq/=; done).
  all: try (apply exec_devices; intros; repeat case_match; done).
Qed.

Lemma findDevice_isDevice id a r : findDevice id a = Some r -> ndID (dvDevice r) = id.
Proof. intros [_ H]%find_first_Some. unfold isDevice in H. by to_prop. Qed.
Lemma isDevice_ne i j r : i <> j -> isDevice i r = true -> isDevice j r = false.
Proof. unfold isDevice. intros Hne ->%bool_decide_eq_true. by apply bool_decide_eq_false. Qed.

(** INSERT with its conflict clause writes the one row of the identifier. *)
Lemma insertDevice_ok d seq a u a' : insertDevice d seq a = Ok (u, a') ->
  exists vs, normalizeEnrollmentVersions (ndVersions d) = Some vs /\
    (dvDevice <$> findDevice (ndID d) a') = Some (setVersions vs d) /\ (forall id, id <> ndID d -> findDevice id a' = findDevice id a).
Proof.
  unfold insertDevice. destruct (normalizeEnrollmentVersions _) as [vs|]; [|done]. intros ->%exec_ok. exists vs. split; [done|].
  change (ndID (setVersions vs d)) with (ndID d). unfold findDevice. rewrite find_first_existsb. case_bool_decide as Hf; simpl.
  - destruct Hf as [r Hr]. split.
    + rewrite (find_first_update _ _ _ r); [done|done|]. unfold isDevice. simpl. by apply bool_decide_eq_true.
    + intros id Hid. apply find_first_update_ne; [intros x Hx; apply (isDevice_ne (ndID d)); [congruence|done]|]. intros x _. unfold isDevice. simpl. by apply bool_decide_eq_false.
  - apply eq_None_not_Some in Hf. split.
    + rewrite find_first_app, Hf. simpl. unfold isDevice at 1. simpl. by rewrite bool_decide_true.
    + intros id Hid. rewrite find_first_app. destruct (find_first (isDevice id) _); [done|]. simpl. unfold isDevice. simpl. by rewrite bool_decide_false.
Qed.
Lemma withoutDevice_ok i a u a' : withoutDevice i a = Ok (u, a') -> findDevice i a' = None /\ forall id, id <> i -> findDevice id a' = findDevice id a.
Proof.
  intros ->%exec_ok. unfold findDevice. simpl. split.
  - apply find_first_filter_none. intros x ->. done.
  - intros id Hid. apply find_first_filter. intros x Hx. by rewrite (isDevice_ne id i x).
Qed.
Lemma updateDevices_ok p f a n a' : (forall d, ndID (f d) = ndID d) -> updateDevices p f a = Ok (n, a') ->
  n = Z.of_nat (length (List.filter (fun r => p (dvDevice r)) (acDevices a))) /\
  forall id, findDevice id a' = (fun r => if p (dvDevice r) then mkDevRow (f (dvDevice r)) (dvSeq r) else r) <$> findDevice id a.
Proof.
  intros Hf H. unfold updateDevices in H. repeat tx_step. split; [done|]. intros id. unfold findDevice. simpl. apply find_first_fmap.
  intros x. unfold isDevice. destruct (p (dvDevice x)); simpl; by rewrite ?Hf.
Qed.
Lemma named_iff (i : gostr) d : named i d = true <-> ndID d = i.
Proof. unfold named. apply bool_decide_eq_true. Qed.
Lemma filter_length_found {A} (p : A -> bool) l x : x ∈ l -> p x = true -> (0 < length (List.filter p l))%nat.
Proof. intros Hx Hp. destruct (List.filter p l) eqn:E; simpl; [|lia]. assert (x ∈ List.filter p l) as H by (apply list_elem_of_In, filter_In; split; [by apply list_elem_of_In|done]). rewrite E in H. by apply elem_of_nil in H. Qed.

Definition lifeD (d : NativeDevice) : life := mkLife (ndApprover d) (ndEnrollment d) (ndEnrolled d).
Lemma lifeOf_dev id a : lifeOf id a = lifeD <$> (dvDevice <$> findDevice id a).
Proof. unfold lifeOf. by destruct (findDevice id a). Qed.
Lemma lifeOf_same id a a' : findDevice id a' = findDevice id a -> lifeOf id a' = lifeOf id a.
Proof. unfold lifeOf. by intros ->. Qed.

Lemma applyEnrollment_ok old d d' a a' : mustApply (applyEnrollment old d) a = Ok (d', a') ->
  a' = a /\ ndID d' = ndID d /\ lifeD d' = mkLife (ndApprover d) (ndEnrollment old) (ndEnrolled old).
Proof. unfold applyEnrollment. destruct (normalizeEnrollmentVersions _); simpl; [|done]. by intros [-> ->]%ret_ok. Qed.
Lemma insert_life d seq a u a' : insertDevice d seq a = Ok (u, a') -> lifeOf (ndID d) a' = Some (lifeD d) /\ forall id, id <> ndID d -> lifeOf id a' = lifeOf id a.
Proof.
  intros (vs & _ & Hd & Ho)%insertDevice_ok. split; [|intros; by apply lifeOf_same, Ho]. rewrite lifeOf_dev, Hd. done.
Qed.

(** The primary key of the table. *)
Definition keyed (a : account) : Prop := NoDup ((fun r => ndID (dvDevice r)) <$> acDevices a).
Lemma NoDup_fmap_inj {A B} (f : A -> B) l x y : NoDup (f <$> l) -> x ∈ l -> y ∈ l -> f x = f y -> x = y.
Proof.
  intros HN [i Hi]%list_elem_of_lookup [j Hj]%list_elem_of_lookup Hf. assert (i = j) as ->; [|congruence].
  apply (NoDup_lookup (f <$> l) i j (f x) HN); rewrite list_lookup_fmap, ?Hi, ?Hj; simpl; congruence.
Qed.
Lemma exec_keyed (f : account -> account) : (forall a, (fun r => ndID (dvDevice r)) <$> acDevices (f a) `sublist_of` (fun r => ndID (dvDevice r)) <$> acDevices a) -> keeps (E := stErr) keyed (exec f).
Proof. intros H a Ha. apply wp_exec. eapply sublist_NoDup; [done|apply H]. Qed.
Lemma insertDevice_keyed d seq : keeps keyed (insertDevice d seq).
Proof.
  unfold insertDevice. destruct (normalizeEnrollmentVersions _) as [vs|]; [|auto with mbkeeps]. intros a Ha. apply wp_exec. unfold keyed in *. rewrite find_first_existsb. case_bool_decide as Hf; simpl.
  - rewrite update_first_map; [done|]. intros x [_ Hx]%find_first_Some. unfold isDevice in Hx. by to_prop.
  - apply eq_None_not_Some in Hf. rewrite fmap_app. apply NoDup_app. split_and!; [done| |apply NoDup_singleton]. intros i (r & -> & Hr)%list_elem_of_fmap Hi. apply list_elem_of_singleton in Hi.
    apply find_first_None with (x := r) in Hf; [|done]. unfold isDevice in Hf. simpl in *. by apply bool_decide_eq_false in Hf.
Qed.
Lemma withoutDevice_keyed i : keeps keyed (withoutDevice i).
Proof. apply exec_keyed. intros a. simpl. apply fmap_sublist, filter_sublist. Qed.
Lemma updateDevices_keyed p f : (forall d, ndID (f d) = ndID d) -> keeps keyed (updateDevices p f).
Proof.
  intros Hf. unfold updateDevices. apply keeps_query. intros a0. apply keeps_bind; [|auto with mbkeeps]. apply exec_keyed. intros a. simpl. rewrite <- list_fmap_compose.
  match goal with |- ?x `sublist_of` ?y => assert (x = y) as ->; [|done] end. apply list_fmap_ext. intros k r _. simpl. destruct (p (dvDevice r)); [apply Hf|done].
Qed.
Hint Resolve insertDevice_keyed withoutDevice_keyed : mbkeeps.
Hint Extern 1 (keeps keyed (updateDevices _ _)) => apply updateDevices_keyed; (intros; repeat case_match; done) : mbkeeps.
Lemma stRun_keyed now uuid o : keeps keyed (stRun now uuid o).
Proof.
  destruct (onDevices o) eqn:E.
  - destruct o; try discriminate E; unfold stRun, asUnit, asBool, asNum, upsertNativeDevice, removeNativeDevice, setNativeDeviceEnrollmentKey, recordNativeDeviceDelivery,
      confirmNativeDeviceEnrollment, setNativeDeviceEncryptionEnrolled, clearDeviceEnrollments, setNativeDeviceMFAApprover, setNativeDevicePush, mustApply, requireRow; walk.
  - intros a Ha. eapply wp_conseq; [by apply (stRun_devices (acDevices a))|]. intros x a' Hd. unfold devicesAre, keyed in *. by rewrite Hd.
Qed.
Lemma stStep_keyed c a : keyed a -> keyed (stStep c a).2.
Proof. apply keeps_commit, stRun_keyed. Qed.

Lemma tokenMatch_found t p a r : keyed a ->
  tokenMatch t p a = Some r -> findDevice (ndID (dvDevice r)) a = Some r.
Proof.
  intros HU H. apply head_Some_elem_of in H. rewrite sortStable_perm in H. apply list_elem_of_In, filter_In in H as [H _]. apply list_elem_of_In in H.
  destruct (findDevice (ndID (dvDevice r)) a) as [r'|] eqn:E.
  - f_equal. pose proof (findDevice_isDevice _ _ _ E) as Hid. unfold findDevice in E. apply find_first_Some in E as [E _]. by apply (NoDup_fmap_inj (fun r => ndID (dvDevice r)) (acDevices a)).
  - unfold findDevice in E. apply find_first_None with (x := r) in E; [|done]. unfold isDevice in E. by apply bool_decide_eq_false in E.
Qed.

Lemma upsert_life d uuid now a u a' id : id <> [] -> keyed a -> upsertNativeDevice d uuid now a = Ok (u, a') -> lifeStep id (SPair d) (Ok SaUnit) (lifeOf id a) (lifeOf id a').
Proof.
  intros Hblank HU H. unfold upsertNativeDevice in H. apply bind_ok in H as (i & a1 & Hi & H).
  assert (a1 = a /\ (trimSpace (ndID d) = i \/ trimSpace (ndID d) = [])) as [-> Hn].
  { destruct (trimSpace (ndID d) =s? []) eqn:E; [|apply ret_ok in Hi as [-> ->]; auto]. apply bool_decide_eq_true in E. destruct uuid; repeat tx_step; auto. }
  cbv zeta in H. apply bind_ok in H as (ex & a1 & He & H). apply select_ok in He as [-> ->]. destruct (findDevice i a) as [r|] eqn:Er.
  - (* the identifier's own row *)
    apply bind_ok in H as (d' & a1 & Hd & H). apply applyEnrollment_ok in Hd as (-> & Hid & Hl). apply insert_life in H as [Hsame Hother].
    assert (ndID d' = i) as Hi' by (rewrite Hid; match goal with |- context [if ?b then _ else _] => destruct b end; done). rewrite Hi' in *. destruct (decide (id = i)) as [->|Hne]; [|rewrite Hother by done; apply life_not_named].
    rewrite Hsame, Hl, lifeOf_dev, Er. apply life_not_named.
  - apply bind_ok in H as (m & a1 & Hm & H). apply select_ok in Hm as [-> ->].
    match type of H with match ?x with _ => _ end _ = _ => destruct x as [r|] eqn:Em end.
    + (* a row with the same push token *)
      assert (findDevice (ndID (dvDevice r)) a = Some r) as Hr. { clear Hn Hi. match type of Em with (if ?b then _ else _) = _ => destruct b end; [done|]. by eapply tokenMatch_found. }
      apply bind_ok in H as (? & a1 & Hw & H). apply withoutDevice_ok in Hw as [Hgone Hkeep].
      apply bind_ok in H as (d' & a2 & Hd & H). apply applyEnrollment_ok in Hd as (-> & Hid & Hl). apply insert_life in H as [Hsame Hother].
      assert (ndID d' = ndID (dvDevice r)) as Hi' by (rewrite Hid; match goal with |- context [if ?b then _ else _] => destruct b end; done). rewrite Hi' in *.
      destruct (decide (id = ndID (dvDevice r))) as [->|Hne].
      * rewrite Hsame, Hl, (lifeOf_dev _ a), Hr.
        replace (ndApprover _) with false by (match goal with |- context [if ?b then _ else _] => destruct b end; done). apply life_same_token.
        intros Heq. destruct Hn as [Hn|Hn]; [|congruence]. subst i. congruence.
      * rewrite Hother, (lifeOf_same _ a a1) by auto. apply life_not_named.
    + clear Hi. repeat tx_step. apply insert_life in H as [Hsame Hother]. change (ndID (prepared i d now)) with i in *.
      destruct (decide (id = i)) as [->|Hne]; [|rewrite Hother by done; apply life_not_named].
      rewrite Hsame, lifeOf_dev, Er. by apply life_paired.
Qed.

Lemma update_life p f a n a' (id : gostr) : (forall d, ndID (f d) = ndID d) -> updateDevices p f a = Ok (n, a') ->
  lifeOf id a' = (fun d => lifeD (if p d then f d else d)) <$> (dvDevice <$> findDevice id a).
Proof. intros Hf (_ & H)%updateDevices_ok; [|done]. rewrite lifeOf_dev, H. destruct (findDevice id a); simpl; [|done]. by case_match. Qed.
Lemma found_device (i : gostr) a d : dvDevice <$> findDevice i a = Some d -> ndID d = i.
Proof. destruct (findDevice i a) as [r|] eqn:E; [|done]. intros [= <-]. by apply findDevice_isDevice in E. Qed.

(** An update of the row named [i], at the row named [id]. *)
Lemma update_named p (i : gostr) g f a n a' (id : gostr) : (forall d, p d = named i d && g d) -> (forall d, ndID (f d) = ndID d) -> updateDevices p f a = Ok (n, a') ->
  (id <> i /\ lifeOf id a' = lifeOf id a) \/
  (id = i /\ lifeOf id a' = (fun d => lifeD (if g d then f d else d)) <$> (dvDevice <$> findDevice id a)).
Proof.
  intros Hp Hf H. rewrite (update_life _ _ _ _ _ id Hf H), lifeOf_dev. destruct (decide (id = i)) as [->|Hne]; [right|left]; (split; [done|]).
  - destruct (dvDevice <$> findDevice i a) as [d|] eqn:E; [|done]. simpl. apply found_device in E. by rewrite Hp, (proj2 (named_iff _ _) E).
  - destruct (dvDevice <$> findDevice id a) as [d|] eqn:E; [|done]. simpl. apply found_device in E. rewrite Hp. destruct (named i d) eqn:Hn; [|done].
    apply named_iff in Hn. congruence.
Qed.
Lemma count_named p (i : gostr) g (l : list deviceRow) : (forall d, p d = named i d && g d) -> NoDup ((fun r => ndID (dvDevice r)) <$> l) ->
  length (List.filter (fun r => p (dvDevice r)) l) = match find_first (isDevice i) l with Some r => if g (dvDevice r) then 1 else 0 | None => 0 end%nat.
Proof.
  intros Hp. induction l as [|r l IH]; [done|]. csimpl. intros [Hr HN]%NoDup_cons. rewrite Hp. unfold named at 1, isDevice at 1.
  destruct (ndID (dvDevice r) =s? i) eqn:E; simpl; [|by apply IH]. apply bool_decide_eq_true in E.
  rewrite (filter_none _ l); [by destruct (g _)|]. intros x Hx. rewrite Hp. unfold named. rewrite bool_decide_false; [done|].
  intros Hxi. apply Hr. rewrite E, <- Hxi. apply list_elem_of_fmap. by exists x.
Qed.

Lemma target_ne o i (id : gostr) : target o = (if trimSpace i =s? [] then None else Some (trimSpace i)) -> id <> trimSpace i -> target o <> Some id.
Proof. intros ->. destruct (_ =s? _); congruence. Qed.
Lemma if_same_life (b : bool) d d' : lifeD d' = lifeD d -> lifeD (if b then d' else d) = lifeD d.
Proof. by destruct b. Qed.

Lemma confirm_life i e now a b a' (id : gostr) : keyed a -> id <> [] -> confirmNativeDeviceEnrollment i e now a = Ok (b, a') ->
  lifeStep id (SConfirm i e) (Ok (SaBool b)) (lifeOf id a) (lifeOf id a').
Proof.
  intros HU Hblank H. unfold confirmNativeDeviceEnrollment in H. cbv zeta in H.
  destruct (decide (id = trimSpace i)) as [->|Hne].
  2:{ assert (target (SConfirm i e) <> Some id) as Ht by by apply (target_ne _ i).
      destruct (_ || _); repeat tx_step; [by apply life_untouched|].
      match goal with H : updateDevices _ _ _ = _ |- _ => eapply (update_named _ (trimSpace i) (fun d => bool_decide (ndEnrollment d = e)) _ _ _ _ id) in H; [|done|done]; destruct H as [[_ ->]|[-> _]] end; [by apply life_untouched|done]. }
  destruct (lifeOf (trimSpace i) a) as [l|] eqn:El.
  2:{ destruct (_ || _); repeat tx_step; [rewrite El; by apply life_absent|].
      match goal with H : updateDevices _ _ _ = _ |- _ => eapply (update_named _ (trimSpace i) (fun d => bool_decide (ndEnrollment d = e)) _ _ _ _ (trimSpace i)) in H; [|done|done]; destruct H as [[_ ->]|[_ ->]] end; [rewrite El; by apply life_absent|].
      rewrite lifeOf_dev in El. destruct (dvDevice <$> findDevice _ a); [done|]. by apply life_absent. }
  destruct ((trimSpace i =s? []) || (deVersion e =? 0)%Z || (deFingerprint e =s? [])) eqn:Eg.
  - repeat tx_step. rewrite El. apply life_not_confirmed; [done|]. rewrite !orb_true_iff in Eg. destruct Eg as [[Eg|Eg]|Eg]; [by apply bool_decide_eq_true in Eg| |]; [left; lia|right; left; by apply bool_decide_eq_true in Eg].
  - apply orb_false_iff in Eg as [[_ Hv]%orb_false_iff Hf]. apply bind_ok in H as (n & a1 & H & [-> ->]%ret_ok). pose proof H as Hn. apply updateDevices_ok in Hn as [-> _]; [|done].
    pose proof (count_named (fun d => named (trimSpace i) d && bool_decide (ndEnrollment d = e)) (trimSpace i) (fun d => bool_decide (ndEnrollment d = e)) (acDevices a) ltac:(done) HU) as Hc.
    cbv beta in Hc. rewrite Hc. fold (findDevice (trimSpace i) a).
    eapply (update_named _ (trimSpace i) (fun d => bool_decide (ndEnrollment d = e)) _ _ _ _ (trimSpace i)) in H; [|done|done]; destruct H as [[? _]|[_ ->]]; [done|].
    rewrite lifeOf_dev in El. destruct (findDevice (trimSpace i) a) as [r|]; [|done]. injection El as <-. simpl. destruct (bool_decide (ndEnrollment (dvDevice r) = e)) eqn:He; [apply bool_decide_eq_true in He|apply bool_decide_eq_false in He]; simpl.
    + rewrite <- He. apply (life_confirmed (trimSpace i) i (lifeD (dvDevice r))); simpl; [done|rewrite He; lia|rewrite He; by apply bool_decide_eq_false in Hf].
    + apply life_not_confirmed; [done|]. right; right. simpl. congruence.
Qed.

Lemma named_life o i f x a n a' (id : gostr) : target o = (if trimSpace i =s? [] then None else Some (trimSpace i)) -> (forall d, o <> SPair d) -> o <> SRotated -> id <> [] ->
  (forall d, ndID (f d) = ndID d) -> (forall d, trimSpace i = id -> lifeStep id o (Ok x) (Some (lifeD d)) (Some (lifeD (f d)))) ->
  updateDevices (named (trimSpace i)) f a = Ok (n, a') -> lifeStep id o (Ok x) (lifeOf id a) (lifeOf id a').
Proof.
  intros Ht Hp Hr Hblank Hf Hs H. apply (update_named _ (trimSpace i) (fun _ => true) _ _ _ _ id) in H; [|intros; by rewrite andb_true_r|done].
  destruct H as [[Hne ->]|[-> ->]].
  - apply life_untouched; [|done|done]. by apply (target_ne _ i).
  - rewrite lifeOf_dev. destruct (dvDevice <$> findDevice _ a); simpl; [by apply Hs|by apply life_absent].
Qed.
Lemma unpair_life i b a a' (id : gostr) : id <> [] -> removeNativeDevice i a = Ok (b, a') -> lifeStep id (SUnpair i) (Ok (SaBool b)) (lifeOf id a) (lifeOf id a').
Proof.
  intros Hblank H. unfold removeNativeDevice in H. cbv zeta in H. destruct (trimSpace i =s? []) eqn:E.
  - apply ret_ok in H as [-> ->]. apply life_untouched; [|done|done]. simpl. by rewrite E.
  - apply bind_ok in H as (f & a1 & Hf & H). apply select_ok in Hf as [-> ->]. apply bind_ok in H as (u & a1 & Hw & H). apply ret_ok in H as [-> ->]. apply withoutDevice_ok in Hw as [Hgone Hkeep].
    destruct (decide (id = trimSpace i)) as [->|Hne].
    + rewrite (lifeOf_dev _ a1), Hgone. destruct (lifeOf _ a); [by apply life_unpaired|by apply life_absent].
    + rewrite (lifeOf_same _ a a1) by auto. apply life_untouched; [|done|done]. by apply (target_ne _ i).
Qed.
Lemma rotated_life now a n a' (id : gostr) : clearDeviceEnrollments now a = Ok (n, a') -> lifeStep id SRotated (Ok (SaNum n)) (lifeOf id a) (lifeOf id a').
Proof.
  intros H. unfold clearDeviceEnrollments in H. apply (update_life _ _ _ _ _ id) in H; [|done]. rewrite H, lifeOf_dev. destruct (dvDevice <$> findDevice id a) as [d|]; simpl; [|by apply life_absent].
  destruct (enrollmentLeft d) eqn:E; [apply (life_rotated id (SaNum n) (lifeD d))|]. unfold enrollmentLeft in E. rewrite !orb_false_iff in E. destruct E as [[[_ Hr] _] He].
  pose proof (life_rotated id (SaNum n) (lifeD d)) as HL. simpl in HL. apply negb_false_iff, bool_decide_eq_true in He. unfold lifeD in *. by rewrite Hr, He in *.
Qed.

Lemma step_life c a id : id <> [] -> keyed a -> lifeStep id (scOp c) (stStep c a).1 (lifeOf id a) (lifeOf id (stStep c a).2).
Proof.
  intros Hblank HU. destruct (stStep c a) as [r a'] eqn:E. unfold stStep in E. apply commit_ok in E as [(e & -> & ->)|(x & -> & H & _)]; [apply life_failed|]. simpl.
  destruct c as [now uuid up o]. simpl in *. destruct (onDevices o) eqn:Eo.
  2:{ pose proof (stRun_devices (acDevices a) now uuid o Eo a eq_refl) as Hd. unfold wp in Hd. rewrite H in Hd. rewrite (lifeOf_same id a a') by (unfold findDevice; by rewrite Hd).
      apply life_untouched; by destruct o. }
  destruct o; try discriminate Eo; simpl in H; unfold asUnit, asBool, asNum in H; apply bind_ok in H as (y & a1 & H & [-> ->]%ret_ok).
  - by eapply upsert_life.
  - by apply unpair_life.
  - unfold setNativeDeviceEnrollmentKey, requireRow in H. repeat tx_step.
    match goal with H : updateDevices _ _ _ = _ |- _ => apply (update_life _ _ _ _ _ id) in H; [|done]; rename H into Hl end.
    rewrite Hl. rewrite lifeOf_dev. destruct (dvDevice <$> _); simpl; [|by apply life_absent]. rewrite if_same_life by done. by apply life_untouched.
  - unfold recordNativeDeviceDelivery, requireRow in H. repeat tx_step. eapply named_life; [..|eassumption]; try done. intros d Hi. by apply (life_delivered _ _ _ _ (lifeD d)).
  - by eapply confirm_life.
  - unfold setNativeDeviceEncryptionEnrolled, requireRow in H. repeat tx_step. eapply named_life; [..|eassumption]; try done; [intros; by destruct enrolled|]. intros d Hi. destruct enrolled; [by apply (life_reported _ _ _ (lifeD d))|by apply (life_lost _ _ _ (lifeD d))].
  - by apply (rotated_life now).
  - unfold setNativeDeviceMFAApprover in H. cbv zeta in H. destruct (trimSpace id0 =s? []) eqn:E0; repeat tx_step; [apply life_untouched; simpl; rewrite ?E0; done|].
    eapply named_life; [..|eassumption]; try done. intros d Hi. by apply (life_approver _ _ _ _ (lifeD d)).
  - unfold setNativeDevicePush in H. repeat tx_step. match goal with H : updateDevices _ _ _ = _ |- _ => apply (update_life _ _ _ _ _ id) in H; [|done]; rename H into Hl end.
    rewrite Hl, lifeOf_dev. destruct (dvDevice <$> _); simpl; [|by apply life_absent]. rewrite if_same_life by done. by apply life_untouched.
Qed.

Lemma run_keyed tr : keyed (run_trace stStep tr newAccount).2.
Proof.
  apply (run_trace_ind stStep (fun _ => True) (fun _ => keyed)); [apply NoDup_nil_2| |by apply Forall_true].
  intros log s e x s' _ Hs Hstep. apply (stStep_keyed e) in Hs. by rewrite Hstep in Hs.
Qed.


(** A property of a device that its state machine keeps under the calls of a run. *)
Lemma run_life (id : gostr) (P : option life -> Prop) (ok : stOp -> Prop) tr a : id <> [] -> keyed a ->
  (forall o r s s', ok o -> lifeStep id o r s s' -> P s -> P s') -> Forall (fun c => ok (scOp c)) tr -> P (lifeOf id a) -> P (lifeOf id (run_trace stStep tr a).2).
Proof.
  intros Hblank HU HP Htr Ha. assert (keyed (run_trace stStep tr a).2 /\ P (lifeOf id (run_trace stStep tr a).2)) as [_ H]; [|done].
  apply (run_trace_ind stStep (fun c => ok (scOp c)) (fun _ a => keyed a /\ P (lifeOf id a))); [done| |done].
  intros log s c x s' Hc [Hk Hs] Hstep. pose proof (step_life c s id Hblank Hk) as HL. pose proof (stStep_keyed c s Hk) as Hk'. rewrite Hstep in HL, Hk'. split; [done|]. by eapply HP.
Qed.

Lemma revoke_life c a i (id : gostr) : id <> [] -> trimSpace i = id -> scOp c = SApprover i false -> (stStep c a).1 = Ok (SaBool true) ->
  exists l, lifeOf id (stStep c a).2 = Some l /\ lfApprover l = false.
Proof.
  intros Hblank Hi Hc Hok. destruct (stStep c a) as [r a'] eqn:E. simpl in *. subst r. unfold stStep in E. apply commit_ok in E as [(e & ? & _)|(x & [= <-] & H & _)]; [done|].
  rewrite Hc in H. simpl in H. unfold asBool, setNativeDeviceMFAApprover in H. cbv zeta in H. rewrite Hi in H. rewrite bool_decide_false in H by done.
  apply bind_ok in H as (b & a1 & H & [Hb ->]%ret_ok). apply bind_ok in H as (n & a2 & H & [-> ->]%ret_ok). injection Hb as Hn.
  pose proof H as Hl. apply (update_named _ id (fun _ => true) _ _ _ _ id) in Hl; [|intros; by rewrite andb_true_r|done]. destruct Hl as [[? _]|[_ Hl]]; [done|]. rewrite Hl.
  apply updateDevices_ok in H as [-> _]; [|done]. destruct (findDevice id a) as [r|] eqn:E; [by eexists|].
  rewrite filter_none in Hn; [done|]. intros x Hx. unfold findDevice in E. apply find_first_None with (x := x) in E; [|done]. exact E.
Qed.

(** Calls that make a device an approver, or drop its row. *)
Definition grants (id : gostr) (o : stOp) : bool := match o with SApprover i true | SUnpair i => trimSpace i =s? id | _ => false end.
(** Once an administrator's or owner's withdrawal of the approver right was
    recorded, the device is paired and no approver whatever is called afterwards -
    registrations under its identifier or its push token included - until it is
    made an approver again or removed. *)
Lemma approver_revocation_stands tr1 c tr2 i (id : gostr) : id <> [] -> trimSpace i = id -> scOp c = SApprover i false ->
  let a := (run_trace stStep tr1 newAccount).2 in (stStep c a).1 = Ok (SaBool true) -> Forall (fun c => grants id (scOp c) = false) tr2 ->
  exists l, lifeOf id (run_trace stStep (tr1 ++ c :: tr2) newAccount).2 = Some l /\ lfApprover l = false.
Proof.
  intros Hblank Hi Hc a Hok Hno. rewrite run_trace_app. destruct (run_trace stStep tr1 newAccount) as [log1 s1] eqn:E1. simpl in *.
  assert (keyed s1) as Hk by (pose proof (run_keyed tr1) as H; by rewrite E1 in H). pose proof (stStep_keyed c s1 Hk) as Hk'. pose proof (revoke_life c s1 i id Hblank Hi Hc Hok) as H0.
  destruct (stStep c s1) as [r s2]. simpl in *. pose proof (run_life id (fun s => exists l, s = Some l /\ lfApprover l = false) (fun o => grants id o = false) tr2 s2 Hblank Hk') as H.
  destruct (run_trace stStep tr2 s2) as [log2 s3]. simpl in *. apply H; [|done|done].
  intros o r' s s' Ho Hs (l & -> & Hl). inversion Hs; subst; eauto.
  - simpl in Ho. by rewrite bool_decide_true in Ho.
  - simpl in Ho. destruct b; eauto. by rewrite bool_decide_true in Ho.
Qed.

(** After a rotation of the account's key was recorded, no device counts as
    enrolled in anything, whatever it reports or confirms, until the server records
    a delivery to it. *)
Lemma rotation_unenrolls tr1 c tr2 (id : gostr) : id <> [] -> scOp c = SRotated ->
  let a := (run_trace stStep tr1 newAccount).2 in (exists n, (stStep c a).1 = Ok n) -> Forall (fun c => forall i e, scOp c = SDelivered i e -> trimSpace i <> id) tr2 ->
  forall l, lifeOf id (run_trace stStep (tr1 ++ c :: tr2) newAccount).2 = Some l -> lfEnrollment l = noEnrollment.
Proof.
  intros Hblank Hc a [n Hok] Hno. subst a. rewrite run_trace_app. pose proof (run_keyed tr1) as Hk. destruct (run_trace stStep tr1 newAccount) as [log1 s1]. simpl in *.
  pose proof (step_life c s1 id Hblank Hk) as HL. pose proof (stStep_keyed c s1 Hk) as Hk'. rewrite Hc, Hok in HL.
  destruct (stStep c s1) as [r s2]. simpl in *. pose proof (run_life id (fun s => forall l, s = Some l -> lfEnrollment l = noEnrollment) (fun o => forall i e, o = SDelivered i e -> trimSpace i <> id) tr2 s2 Hblank Hk') as H.
  destruct (run_trace stStep tr2 s2) as [log2 s3]. simpl in *. apply H; [|done|].
  - intros o r' s s' Ho Hs Hl l ->. inversion Hs; subst; eauto; simpl; try by apply Hl. exfalso. by eapply Ho.
  - intros l Hl. rewrite Hl in HL. inversion HL; subst; done.
Qed.

(** ** The queue devices poll *)

Definition withSeq (seq : Z) (n : PullNotification) : PullNotification := mkPull seq (pnTitle n) (pnBody n) (pnData n) (pnCreatedAt n) (pnDevices n).
Definition stamped (now : Z) (n : PullNotification) : PullNotification :=
  mkPull (pnSeq n) (pnTitle n) (pnBody n) (pnData n) (if trimSpace (pnCreatedAt n) =s? [] then formatTime now else pnCreatedAt n) (pnDevices n).
(** What a log enqueued, in order. *)
Definition enqueuedBy (e : stCall * res stErr stAns) : option PullNotification := match scOp e.1, e.2 with SEnqueue n, Ok _ => Some (stamped (scNow e.1) n) | _, _ => None end.
Definition enqueued (log : list (stCall * res stErr stAns)) : list PullNotification := omap enqueuedBy log.
Fixpoint numbered (k : Z) (l : list PullNotification) : list PullNotification := match l with [] => [] | n :: l' => withSeq (k + 1) n :: numbered (k + 1) l' end.
Definition later (k : Z) (n : PullNotification) : bool := (k <? pnSeq n)%Z.

Lemma numbered_app k l1 l2 : numbered k (l1 ++ l2) = numbered k l1 ++ numbered (k + Z.of_nat (length l1)) l2.
Proof. revert k. induction l1 as [|n l1 IH]; intros k; simpl; [by rewrite Z.add_0_r|]. rewrite IH. do 3 f_equal. lia. Qed.
Lemma numbered_range k l : Forall (fun n => k < pnSeq n <= k + Z.of_nat (length l))%Z (numbered k l).
Proof.
  revert k. induction l as [|n l IH]; intros k; simpl; [done|]. constructor; [simpl; lia|]. eapply Forall_impl; [apply IH|]. intros x Hx. simpl in *. lia.
Qed.
Lemma later_numbered k j l : (j <= k)%Z -> List.filter (later j) (numbered k l) = numbered k l.
Proof. revert k. induction l as [|n l IH]; intros k Hj; simpl; [done|]. unfold later at 1. simpl. destruct (Z.ltb_spec j (k + 1)); [|lia]. by rewrite IH by lia. Qed.
Lemma later_none k l : (forall n, n ∈ l -> pnSeq n <= k)%Z -> List.filter (later k) l = [].
Proof. intros H. apply filter_none. intros n Hn%H. unfold later. lia. Qed.
Lemma later_later j k l : (j <= k)%Z -> List.filter (later k) (List.filter (later j) l) = List.filter (later k) l.
Proof. intros H. induction l as [|n l IH]; simpl; [done|]. destruct (later j n) eqn:E; simpl; [by rewrite IH|]. replace (later k n) with false by (unfold later in *; lia). done. Qed.
Lemma sorted_numbered k l : sortStable bySeq (numbered k l) = numbered k l.
Proof. revert k. induction l as [|n l IH]; intros k; simpl; [done|]. rewrite IH. destruct l as [|m l]; [done|]. simpl. unfold bySeq at 1. simpl. destruct (Z.ltb_spec (k + 1 + 1) (k + 1)); [lia|done]. Qed.
Lemma maxSeq_app l n : (forall m, m ∈ l -> 0 <= pnSeq m <= pnSeq n)%Z -> (0 <= pnSeq n)%Z -> maxSeq (l ++ [n]) = pnSeq n.
Proof.
  intros H Hn. induction l as [|m l IH]; simpl; [unfold maxSeq; simpl; lia|]. unfold maxSeq in *. simpl. rewrite IH by (intros; apply H; by right).
  specialize (H m ltac:(left)). lia.
Qed.

Definition queueIs (p : list PullNotification) (v : gostr) (a : account) : Prop := acPulls a = p /\ metaOf metaPullSeq a = v.
Lemma exec_queue p v (f : account -> account) : (forall a, acPulls (f a) = acPulls a /\ acMeta (f a) = acMeta a) -> keeps (E := stErr) (queueIs p v) (exec f).
Proof. intros H a Ha. apply wp_exec. unfold queueIs, metaOf in *. destruct (H a) as [-> ->]. done. Qed.
Lemma setMeta_queue p v k x : k <> metaPullSeq -> keeps (queueIs p v) (setMeta k x).
Proof. intros H a [Hp Hv]. apply wp_exec. unfold queueIs, metaOf in *. simpl. by rewrite lookup_insert_ne. Qed.
Lemma insertDecision_queue p v d now : keeps (queueIs p v) (insertDecision d now).
Proof. by apply exec_queue. Qed.
Lemma insertDevice_queue p v d seq : keeps (queueIs p v) (insertDevice d seq).
Proof. unfold insertDevice. destruct (normalizeEnrollmentVersions _); [|auto with mbkeeps]. apply exec_queue. intros a. by destruct (existsb _ _). Qed.
Hint Resolve insertDecision_queue insertDevice_queue : mbkeeps.
Hint Extern 1 (keeps (queueIs _ _) (setMeta _ _)) => apply setMeta_queue; discriminate : mbkeeps.
Hint Extern 1 (keeps (queueIs _ _) (exec _)) => apply exec_queue; by intros : mbkeeps.
Hint Extern 1 (keeps (queueIs _ _) (metaString _)) => apply keeps_select : mbkeeps.

Lemma correct_queue p v id check label now : keeps (queueIs p v) (recordSorterCorrection id check label now).
Proof.
  unfold recordSorterCorrection, bumpSorterGeneration. apply keeps_query. intros a0. destruct (acPredictions a0 !! id) as [q|]; [|auto with mbkeeps].
  destruct (negb _); [auto with mbkeeps|]. apply keeps_bind.
  - intros a1 H1. unfold wp. cbv beta. match goal with |- context [if ?b then ?x else ?y] => destruct (if b then x else y) as [l n] end. done.
  - intros b. walk.
Qed.
Hint Resolve correct_queue : mbkeeps.
Lemma stRun_queue p v now uuid o : (forall n, o <> SEnqueue n) -> keeps (queueIs p v) (stRun now uuid o).
Proof.
  destruct o; intros H; try (exfalso; by eapply H);
  unfold stRun, asUnit, asBool, asNum, asText, recordProcessedDecision, recordReplacementDecision, addDecision, recordDeferral, clearDeferral, cleanup, recordPollTick, resetUIDNamespace, setCheckpoint,
    getOrCreateSubscriberID, rotateSubscriberID, setAICreditsExhausted, clearAICreditsExhausted, setDaemonHealth, setUpdateNotified, setNativeDeliveryMode,
    upsertNotificationSubscription, removeNotificationSubscription, recordSorterPrediction, forgetSorterPrediction, markProcessed, dropDeferral,
    upsertNativeDevice, removeNativeDevice, setNativeDeviceEnrollmentKey, recordNativeDeviceDelivery, withoutDevice, updateDevices, mustApply,
    confirmNativeDeviceEnrollment, setNativeDeviceEncryptionEnrolled, clearDeviceEnrollments, setNativeDeviceMFAApprover, setNativeDevicePush, requireRow; walk.
  apply exec_queue. intros a1. by destruct a.
Qed.

(** After [l] was enqueued, the queue holds the last hundred, numbered from one. *)
Definition queueHolds (l : list PullNotification) (a : account) : Prop :=
  acPulls a = List.filter (later (Z.of_nat (length l) - maxPullNotifications)) (numbered 0 l) /\
  metaOf metaPullSeq a = (if bool_decide (l = []) then [] else formatInt (Z.of_nat (length l))).
Lemma queueHolds_cursor l a : (Z.of_nat (length l) <= int64Max)%Z -> queueHolds l a -> sscanInt (metaOf metaPullSeq a) = Z.of_nat (length l).
Proof. intros Hb [_ ->]. case_bool_decide as E; [by subst|]. apply sscanInt_formatInt. lia. Qed.

Lemma enqueue_holds l n now a : (Z.of_nat (length l) < int64Max)%Z -> queueHolds l a ->
  exists a', enqueuePullNotification n now a = Ok (tt, a') /\ queueHolds (l ++ [stamped now n]) a'.
Proof.
  intros Hb HQ. pose proof (queueHolds_cursor l a ltac:(lia) HQ) as Hc. destruct HQ as [Hp _].
  unfold enqueuePullNotification, mbind, Tx_bind, metaString, select. rewrite Hc.
  assert (wrap64 (Z.of_nat (length l) + 1) = Z.of_nat (length l) + 1)%Z as -> by (unfold wrap64, int64Max in *; rewrite Z.mod_small; lia).
  assert (forall m, m ∈ acPulls a -> 0 < pnSeq m <= Z.of_nat (length l))%Z as Hseq.
  { intros m Hm. rewrite Hp in Hm. apply list_elem_of_In, filter_In in Hm as [Hm _]. pose proof (numbered_range 0 l) as HR. rewrite List.Forall_forall in HR. specialize (HR _ Hm). lia. }
  unfold insertPull at 1. simpl. rewrite (proj2 (existsb_Forall _ _)).
  2:{ apply Forall_forall. intros m Hm%Hseq. lia. }
  eexists. split; [reflexivity|]. unfold queueHolds. simpl. split.
  - rewrite maxSeq_app by (simpl; try intros m Hm%Hseq; lia). simpl. rewrite length_app, numbered_app. simpl.
    rewrite (filter_ext _ (later (Z.of_nat (length l) + 1 - maxPullNotifications))) by (intros m; unfold later; lia).
    rewrite !List.filter_app, Hp, later_later by lia. replace (Z.of_nat (length l + 1)) with (Z.of_nat (length l) + 1)%Z by lia. done.
  - unfold metaOf. simpl. rewrite lookup_insert, decide_True by done. simpl. rewrite bool_decide_false by (by destruct l). rewrite length_app. simpl. f_equal. lia.
Qed.

Lemma step_queue c a l : (Z.of_nat (length l) < int64Max)%Z -> queueHolds l a -> queueHolds (l ++ enqueued [(c, (stStep c a).1)]) (stStep c a).2.
Proof.
  intros Hb HQ. destruct c as [now uuid up o]. unfold stStep, commit. simpl. destruct up; simpl; [|unfold enqueued; destruct o; simpl; by rewrite app_nil_r].
  assert ((exists n, o = SEnqueue n) \/ forall n, o <> SEnqueue n) as [[n ->]|Hno] by (destruct o; eauto; right; discriminate).
  - destruct (enqueue_holds l n now a Hb HQ) as (a' & Hq & HQ'). unfold stRun, asUnit, mbind, Tx_bind. rewrite Hq. done.
  - destruct HQ as [Hp Hv]. pose proof (stRun_queue (acPulls a) (metaOf metaPullSeq a) now uuid o Hno a (conj eq_refl eq_refl)) as HK. unfold wp in HK.
    assert (forall r, enqueuedBy (mkStCall now uuid true o, r) = None) as Hn by (intros r; unfold enqueuedBy; destruct o; try done; by exfalso; eapply Hno).
    destruct (stRun now uuid o a) as [[x a']|e]; simpl; rewrite Hn; simpl; rewrite app_nil_r; [|done]. destruct HK as [HK1 HK2]. unfold queueHolds. by rewrite HK1, HK2.
Qed.
Lemma enqueued_app log1 log2 : enqueued (log1 ++ log2) = enqueued log1 ++ enqueued log2.
Proof. apply omap_app. Qed.
Lemma enqueued_bound tr a : (length (enqueued (run_trace stStep tr a).1) <= length tr)%nat.
Proof. rewrite <- (run_trace_events stStep tr a) at 2. rewrite length_fmap. induction (run_trace stStep tr a).1 as [|e log IH]; simpl; [lia|]. unfold enqueued in *. simpl. destruct (enqueuedBy e); simpl; lia. Qed.

Lemma run_queue tr : (Z.of_nat (length tr) <= int64Max)%Z -> queueHolds (enqueued (run_trace stStep tr newAccount).1) (run_trace stStep tr newAccount).2.
Proof.
  induction tr as [|c tr IH] using rev_ind; intros Hb; [done|]. rewrite length_app in Hb. simpl in Hb. specialize (IH ltac:(lia)).
  pose proof (enqueued_bound tr newAccount) as Hl. rewrite run_trace_app. destruct (run_trace stStep tr newAccount) as [log s]. simpl in *.
  pose proof (step_queue c s (enqueued log) ltac:(lia) IH) as H. destruct (stStep c s) as [r s']. simpl in *. by rewrite enqueued_app.
Qed.

(** (C17) A device that polls with the cursor of its last poll gets exactly the
    notifications enqueued since then that are addressed to it or to every device,
    in the order and with the content they were enqueued, and never one addressed
    to other devices, as long as at most a hundred were enqueued in between;
    the cursor it is given counts every notification. *)
Theorem pull_gap_free tr1 tr2 device : (Z.of_nat (length (tr1 ++ tr2)) <= int64Max)%Z ->
  let '(log1, a1) := run_trace stStep tr1 newAccount in let '(log2, a2) := run_trace stStep tr2 a1 in let cursor := pullCursor true a1 in
  (Z.of_nat (length (enqueued log2)) <= maxPullNotifications)%Z ->
  pullRows device cursor a2 = List.filter (addressedTo device) (numbered cursor (enqueued log2)) /\
  pullCursor true a2 = (cursor + Z.of_nat (length (enqueued log2)))%Z.
Proof.
  intros Hb. pose proof (run_queue tr1) as H1. pose proof (run_queue (tr1 ++ tr2) Hb) as H2. rewrite length_app in Hb. specialize (H1 ltac:(lia)).
  pose proof (enqueued_bound (tr1 ++ tr2) newAccount) as Hl. pose proof (enqueued_bound tr1 newAccount) as Hl1. rewrite length_app in Hl. rewrite run_trace_app in H2, Hl.
  destruct (run_trace stStep tr1 newAccount) as [log1 a1]. destruct (run_trace stStep tr2 a1) as [log2 a2]. simpl in *. intros Hmax.
  rewrite enqueued_app in H2, Hl. rewrite length_app in Hl. unfold pullCursor. rewrite (queueHolds_cursor (enqueued log1)), (queueHolds_cursor (enqueued log1 ++ enqueued log2)), length_app by (rewrite ?length_app; first [done|lia]).
  split; [|lia]. unfold pullRows. f_equal. destruct H2 as [-> _]. change (fun n : PullNotification => (Z.of_nat (length (enqueued log1)) <? pnSeq n)%Z) with (later (Z.of_nat (length (enqueued log1)))).
  rewrite length_app, later_later by lia. rewrite numbered_app, List.filter_app, later_none, later_numbered; [apply sorted_numbered|lia|].
  intros n Hn. pose proof (numbered_range 0 (enqueued log1)) as HR. rewrite List.Forall_forall in HR. apply list_elem_of_In, HR in Hn. lia.
Qed.
End Run.
