(* ===== verification/Poller.v ===== *)
(** * Poller: one poll of a mailbox (backend/internal/processor/poller.go, presort.go; retry/retry.go; ListUnreadInbox and the checkpoints of adapters/imap/client.go; SelectLabelFromText of adapters/classifier/client.go)

    A tick reads the checkpoint, lists and fetches unread mail above it, settles
    each message (rules, label, decision) or leaves it for a later tick, and moves
    the checkpoint.  The state is the mailbox's database, the install-wide one, the
    rate window, the trace of what was written and sent, and the world: the mail
    server, the classifier, clocks, shutdown, and whether the database takes a
    transaction.  The world answers every call as it likes. *)

From S2P Require Import Prelude GoText GoCodec RulesModel RulesPattern RulesEngine RulesApply FileStore Contacts Transaction StateTables AccountState.

Record mailMsg := mkMsg {
  mgID : gostr; mgSubject : gostr; mgSender : gostr; mgSentTo : gostr; mgCC : gostr; mgBCC : gostr; mgBody : gostr; mgKeywords : list gostr;
  mgTooLarge : bool; mgParseError : bool; mgEncrypted : bool;
}.
(** What the server sent for one UID, parsed; its decoded size. *)
Record fetchedMail := mkFetched {
  fmSubject : gostr; fmSender : gostr; fmSentTo : gostr; fmCC : gostr; fmBCC : gostr; fmKeywords : list gostr; fmBody : gostr; fmEnvelope : bool; fmSize : Z;
}.

(** ** Errors *)

Inductive clErr := NoAllowedLabelError (output : gostr) | StatusError (code : Z) | ErrCreditsExhausted | ClassifierFailed (text : gostr).
Inductive incErr := IncRateLimited | IncPermanent | IncOther (text : gostr).
Inductive perr {E : Type} :=
  | PMail (e : E) | PStore (e : stErr) | PCl (e : clErr) | PEmptyLabel | PMalformedMIME | PCtx | PAttempts (n : Z) | PRules (matched : list gostr) (failures : list (gostr * option E))
  | PRetryable (e : perr) | PClassifier (e : perr) | PIncoming (e : incErr) | PGaveUp (attempts : Z) (e : perr) | PLedger (e : perr) | PHeaders (e : perr).
Arguments perr : clear implicits.

(** ** Checkpoints *)

(** [strings.Cut(s, ":")]. *)
Fixpoint cutColon (s : gostr) : option (gostr * gostr) :=
  match s with
  | [] => None
  | c :: s' => if (c =? 58)%Z then Some ([], s') else '(a, b) ← cutColon s'; Some (c :: a, b)
  end.
Definition parseCheckpoint (cp : gostr) : gostr * Z :=
  let s := trimSpace cp in
  let '(ns, v) := match cutColon s with Some (ns, v) => (ns, v) | None => ([], s) end in
  match parseInt v with Some uid => (ns, if (uid <? 0)%Z then 0%Z else uid) | None => (ns, 0%Z) end.
Definition formatCheckpoint (ns : gostr) (uid : Z) : gostr :=
  if negb (ns =s? []) then ns ++ [58%Z] ++ formatInt uid else if (0 <? uid)%Z then formatInt uid else [].
(** [status]: the UIDVALIDITY digits the server's answer holds; [hash]: of the account. *)
Definition pollNamespace (status : option gostr) (hash : gostr) : gostr := match status with Some v => v ++ [46%Z] ++ take 12 hash | None => [] end.
Definition UIDNamespaceReset (prev next : gostr) : option gostr :=
  let prevNS := (parseCheckpoint prev).1 in let nextNS := (parseCheckpoint next).1 in
  if (prevNS =s? []) || (nextNS =s? []) || (prevNS =s? nextNS) then None else Some (formatCheckpoint nextNS 0).

(** The lowest deferred UID; [None] when one does not parse. *)
Fixpoint lowestUID (lowest : Z) (ids : list gostr) : option Z :=
  match ids with
  | [] => Some lowest
  | id :: ids' =>
      match parseInt (trimSpace id) with
      | None => None
      | Some uid => if (uid <=? 0)%Z then None else lowestUID (if (lowest =? 0)%Z || (uid <? lowest)%Z then uid else lowest) ids'
      end
  end.
Definition ClampCheckpoint (prev next : gostr) (deferredIDs : list gostr) : gostr :=
  if bool_decide (deferredIDs = []) then next
  else
    let '(prevNS, prevUID) := parseCheckpoint prev in let '(nextNS, nextUID) := parseCheckpoint next in
    let '(prevUID, prev) := if negb (nextNS =s? []) && negb (prevNS =s? nextNS)
      then let u := if negb (prevNS =s? []) then 0%Z else prevUID in (u, formatCheckpoint nextNS u) else (prevUID, prev) in
    match lowestUID 0 deferredIDs with
    | None => prev
    | Some lowest =>
        let candidate := Z.min (lowest - 1) nextUID in
        if (candidate <=? prevUID)%Z then prev else formatCheckpoint nextNS candidate
    end.

(** ** Labels, keywords, notifications *)

Section Labels.
Context {U : Unicode} {RO : RangeOrder}.

(** Classes of words a label is picked by. *)
Definition SelectLabelFromText (allowed : list gostr) (output : gostr) : gostr :=
  if bool_decide (allowed = []) then []
  else
    let out := toLower output in
    match find_first (fun l => equalFold l ($"Questionable") && contains out ($"questionable")) allowed with
    | Some l => l
    | None =>
        match find_first (fun l => contains out (toLower l)) allowed with
        | Some l => l
        | None => if contains out ($"important") then default [] (find_first (fun l => equalFold l ($"Important")) allowed) else []
        end
    end.
Fixpoint uniqueKeywords (seen : gset gostr) (l : list gostr) : list gostr :=
  match l with
  | [] => []
  | k :: l' =>
      let key := toLower (trimSpace k) in
      if (key =s? []) || bool_decide (key ∈ seen) then uniqueKeywords seen l' else trimSpace k :: uniqueKeywords ({[key]} ∪ seen) l'
  end.
(** The first mapping in the map's range order whose label is the same. *)
Definition keywordsForSelectedLabel (label : gostr) (mappings : gmap gostr (list gostr)) : list gostr :=
  let base := trimSpace label in
  if base =s? [] then []
  else
    let mapped := match find_first (fun '(l, _) => equalFold (trimSpace l) base) (range_order _ (map_to_list mappings)) with
      | Some (_, ks) => List.filter (fun k => negb (k =s? [])) (trimSpace <$> ks) | None => [] end in
    uniqueKeywords ∅ (base :: mapped).
Definition existingLabel (have allowlist : list gostr) (mappings : gmap gostr (list gostr)) : gostr :=
  match find_first (fun l => existsb (fun k => existsb (fun h => equalFold (trimSpace h) k) have) (keywordsForSelectedLabel l mappings)) allowlist with
  | Some l => trimSpace l | None => [] end.
Definition disabledLabelingFallback (allowlist : list gostr) : gostr :=
  match find_first (fun l => equalFold (trimSpace l) ($"Primary")) allowlist with
  | Some l => trimSpace l
  | None => match allowlist with l :: _ => trimSpace l | [] => $"Primary" end
  end.

Record notifySettings := mkNotify { nfMode : gostr; nfKeywords : list gostr; nfPreview : bool }.
Definition shouldSendNotification (st : notifySettings) (selected : gostr) (keywords : list gostr) : bool :=
  let mode := toLower (trimSpace (nfMode st)) in
  if (mode =s? $"none") || (mode =s? []) then false
  else if mode =s? $"all" then true
  else if mode =s? $"keywords" then
    let keywords := if negb (trimSpace selected =s? []) then trimSpace selected :: keywords else keywords in
    let enabled := List.filter (fun k => negb (k =s? [])) ((fun k => toLower (trimSpace k)) <$> nfKeywords st) in
    if bool_decide (enabled = []) then false
    else existsb (fun k => let key := toLower (trimSpace k) in negb (key =s? []) && bool_decide (key ∈ enabled)) keywords
  else false.
Definition nativePushIncludesContent (st : notifySettings) (msg : mailMsg) : bool := nfPreview st && negb (mgEncrypted msg).
Definition buildNativeNotificationText (msg : mailMsg) (includeContent : bool) : gostr * gostr :=
  if negb includeContent then ($"KyPost", $"You have a new email.")
  else (if trimSpace (mgSender msg) =s? [] then $"New Email" else trimSpace (mgSender msg), if trimSpace (mgSubject msg) =s? [] then $"You have a new email." else trimSpace (mgSubject msg)).
Definition buildNativePushData (msg : mailMsg) (keywords : list gostr) (title body : gostr) (includeContent : bool) : gmap gostr gostr :=
  let data := {[ $"messageId" := trimSpace (mgID msg); $"url" := $"/read" ]} in
  if negb includeContent then data
  else <[$"sender" := trimSpace (mgSender msg)]> (<[$"subject" := trimSpace (mgSubject msg)]> (<[$"senderName" := trimSpace (mgSender msg)]> (<[$"emailSubject" := trimSpace (mgSubject msg)]>
    (<[$"Keywords" := join [44%Z] keywords]> (<[$"title" := title]> (<[$"body" := body]> data)))))).

(** ** Pre-sorting *)

Definition presortHeaderNames : list gostr := [$"Auto-Submitted"; $"List-Id"; $"List-Unsubscribe"; $"Precedence"].
Definition headerMap := gmap gostr (list gostr).
Definition headerValues (h : option headerMap) (name : gostr) : list gostr := match h with Some h => default [] (h !! name) | None => [] end.
Definition isBulkOrAutomated (h : option headerMap) : bool :=
  negb (bool_decide (headerValues h ($"List-Id") = [])) || negb (bool_decide (headerValues h ($"List-Unsubscribe") = []))
  || existsb (fun v => let v := toLower (trimSpace v) in (v =s? $"bulk") || (v =s? $"list") || (v =s? $"junk")) (headerValues h ($"Precedence"))
  || existsb (fun v => let v := toLower (trimSpace v) in negb (v =s? []) && negb (v =s? $"no")) (headerValues h ($"Auto-Submitted")).
(** [HeaderMap]: the lines of one message folded by canonical name. *)
Definition HeaderMap (lines : list gostr) : headerMap :=
  foldl (fun h line => match cutColon line with
    | Some (name, value) => let name := trimSpace name in if name =s? [] then h else let key := canonicalMIMEHeaderKey name in <[key := default [] (h !! key) ++ [trimSpace value]]> h
    | None => h end) ∅ lines.
Definition isPrimary (l : gostr) : bool := equalFold (trimSpace l) ($"Primary").
Fixpoint dropPrimary (l : list gostr) : list gostr := match l with [] => [] | x :: l' => if isPrimary x then l' else x :: dropPrimary l' end.
Record presorted := mkPresorted { psLabel : gostr; psAllow : list gostr; psNote : gostr }.
Definition presort (allowlist : list gostr) (headers : option headerMap) (known : bool) (tooLarge : bool) : presorted :=
  if tooLarge then mkPresorted [] allowlist []
  else
    let primary := match find_first isPrimary allowlist with Some l => trimSpace l | None => [] end in
    let rest := dropPrimary allowlist in
    if primary =s? [] then mkPresorted [] allowlist []
    else if isBulkOrAutomated headers then
      if bool_decide (rest = []) then mkPresorted [] allowlist [] else mkPresorted [] rest ($"; Primary excluded by list/automated headers")
    else if known then mkPresorted primary [] [] else mkPresorted [] allowlist [].

(** ** Text bounds *)

Definition truncateRunes (s : gostr) (n : Z) : gostr := if (n <=? 0)%Z then [] else take (Z.to_nat n) s.
Definition maxClassifySenderRunes : Z := 256.
Definition maxClassifySubjectRunes : Z := 512.
Definition maxClassifyBodyRunes : Z := 2000.
Definition maxDecisionDetailBytes : Z := 4096.
(** The longest prefix of whole characters within [n] bytes. *)
Fixpoint clipBytes (n : Z) (s : gostr) : gostr := match s with [] => [] | c :: s' => if (utf8LenRune c <=? n)%Z then c :: clipBytes (n - utf8LenRune c) s' else [] end.
Definition oneLine (s : gostr) : gostr := (fun c => if (c =? 10)%Z || (c =? 13)%Z then 32%Z else c) <$> s.
Definition clipDetail (s : gostr) : gostr :=
  let s := trimSpace s in
  if (maxDecisionDetailBytes <? utf8Len s)%Z then oneLine (clipBytes maxDecisionDetailBytes s) ++ $"...(truncated)" else oneLine s.
End Labels.

(** ** The rate window *)

Definition minuteNs : Z := 60 * 1000000000.
Definition hourNs : Z := 3600 * 1000000000.
(** Times and clock in nanoseconds; the window after the call and whether it was allowed. *)
Definition allowByRate (perMinute perHour now : Z) (window : list Z) : bool * list Z :=
  let trimmed := List.filter (fun t => (now - hourNs <? t)%Z) window in
  let minuteCount := Z.of_nat (length (List.filter (fun t => (now - minuteNs <? t)%Z) trimmed)) in
  if (perMinute <=? minuteCount)%Z || (perHour <=? Z.of_nat (length trimmed))%Z then (false, trimmed) else (true, trimmed ++ [now]).

(** ** A tick's state *)

(** The poller's settings, the user's context of one tick. *)
Record pollConfig := mkPollConfig { pcPerMinute : Z; pcPerHour : Z; pcPatterns : list (gostr * gostr) }.
Record userCtx := mkUserCtx {
  ucTuning : gostr; ucSettings : notifySettings; ucAutoLabel : bool; ucEncrypt : bool; ucExtra : bool; ucAllowlist : list gostr;
  ucMappings : gmap gostr (list gostr); ucRules : list Rule; ucHeaders : gmap Z headerMap; ucKnown : gset gostr;
}.
(** [sgSure]: the confidence reaches the poller's minimum. *)
Record sortGuess := mkGuess { sgVec : option (list Z); sgLabel : gostr; sgSure : bool; sgText : gostr }.
Definition confident (g : sortGuess) : bool := negb (sgLabel g =s? []) && sgSure g.

(** What a tick wrote to the database and sent, with the outcome. *)
Inductive pollEvent :=
  | EvSettled (d : Decision) (ok : bool) | EvLogged (d : Decision) (ok : bool) | EvDeferred (id : gostr) (ok : bool) | EvCheckpoint (value : gostr) (ok : bool)
  | EvReset (value : gostr) (ok : bool) | EvTick (ok : bool) | EvKeyword (id keyword : gostr) (ok : bool) | EvNotify (native : bool) (id : gostr).

(** The world's answers: [W] is all of it that the poller does not keep. *)
Record pollEnv {R : RegexEngine} (E W : Type) := mkEnv {
  eNow : W -> Z * W;                                            (* the clock, nanoseconds *)
  eDB : W -> bool * W;                                          (* whether the database takes the next transaction or query *)
  eCtx : W -> bool * W;                                         (* ctx.Err() != nil *)
  eWait : Z -> W -> bool * W;                                   (* a pause; true: the context ended in it *)
  eContext : W -> context * W;                                  (* the context of one message, for the rules *)
  eClient : client_call -> W -> option E * W; eEnsure : gostr -> W -> option E * W; eUnsafe : E -> bool;
  eNamespace : W -> res E (option gostr) * W; eHash : gostr; eUnseen : W -> res E (list Z) * W; eOversized : W -> res E (list Z) * W;
  eOverviews : list Z -> W -> res E (gmap Z fetchedMail) * W; eEmails : list Z -> W -> res E (gmap Z fetchedMail) * W;
  eHeaders : list Z -> list gostr -> W -> res E (gmap Z (list gostr)) * W; eKnown : W -> gset gostr * W;
  eClassify : list gostr -> gostr -> gostr -> gostr -> gostr -> W -> res clErr gostr * W;
  eGuess : mailMsg -> list gostr -> sortGuess; eReplaceAll : gostr -> gostr -> gostr -> gostr; eSum : gostr -> gostr; eModel : gostr; eFrom : gostr -> gostr;
  eNotice : mailMsg -> W -> option gostr * W; eScan : mailMsg -> W -> option gostr * W; eHarvest : mailMsg -> W -> W;
  eEncrypt : mailMsg -> account -> W -> (option incErr * account) * W;
  eNotify : bool -> mailMsg -> gostr -> list gostr -> W -> W; eText : perr E -> gostr; eQuote : gostr -> gostr; eRegexps : W -> gmap gostr regexp * W;
}.

Record tickState (W : Type) := mkTick_ { tsAccount : account; tsGlobal : account; tsRate : list Z; tsTrace : list pollEvent; tsWorld : W }.
Arguments mkTick_ {W}.
Arguments tsAccount {W}. Arguments tsGlobal {W}. Arguments tsRate {W}. Arguments tsTrace {W}. Arguments tsWorld {W}.
(** A computation of the poller: it answers and leaves a new state. *)
Definition TM (W A : Type) : Type := tickState W -> A * tickState W.
#[export] Instance TM_ret W : MRet (TM W) := fun A a s => (a, s).
#[export] Instance TM_bind W : MBind (TM W) := fun A B f m s => let '(a, s') := m s in f a s'.
(** Go on unless there was an error. *)
Definition tryT {E W A B} (m : TM W (res E A)) (f : A -> TM W (res E B)) : TM W (res E B) := r ← m; match r with Ok a => f a | Err e => mret (Err e) end.
Notation "x ←! m ; k" := (tryT m (fun x => k)) (at level 20, m at level 100, k at level 200, only parsing) : stdpp_scope.
Notation "' x ←! m ; k" := (tryT m (fun x => k)) (at level 20, x pattern, m at level 100, k at level 200, only parsing) : stdpp_scope.
Definition okT {E W A} (a : A) : TM W (res E A) := mret (Ok a).
Definition errT {E W A} (e : E) : TM W (res E A) := mret (Err e).

(** [retry.Loop]: [left] attempts from number [attempt]; [fn] answers the result and whether to try again. *)
Fixpoint retryLoop {E W A} (wait : Z -> TM W bool) (ended : E) (backoff : nat -> Z) (fn : nat -> TM W (res E A * bool)) (left attempt : nat) (failed : res E A) : TM W (res E A) :=
  match left with
  | O => mret failed
  | S left =>
      '(r, again) ← fn attempt;
      if negb again then mret r
      else match left with
      | O => mret r
      | S _ => stop ← wait (backoff attempt); if stop : bool then mret (Err ended) else retryLoop wait ended backoff fn left (S attempt) r
      end
  end.
Definition retry {E W A} (wait : Z -> TM W bool) (ended : E) (refused : E) (attempts : Z) (backoff : nat -> Z) (fn : nat -> TM W (res E A * bool)) : TM W (res E A) :=
  if (attempts <=? 0)%Z then mret (Err refused) else retryLoop wait ended backoff fn (Z.to_nat attempts) 0 (Err refused).

Section Tick.
Context {U : Unicode} {R : RegexEngine} {RO : RangeOrder} {GT : GoTime} {GF : GoTimeFormat} {TJ : TickJSON}.
Context {E W : Type} (env : pollEnv E W) (cfg : pollConfig).
Abbreviation perr' := (perr E).
Abbreviation T := (TM W).

(** ** The world, the database *)

Definition ask {A} (f : W -> A * W) : T A := fun s => let '(a, w) := f (tsWorld s) in (a, mkTick_ (tsAccount s) (tsGlobal s) (tsRate s) (tsTrace s) w).
Definition onAccount {A} (f : account -> A * account) : T A := fun s => let '(r, a) := f (tsAccount s) in (r, mkTick_ a (tsGlobal s) (tsRate s) (tsTrace s) (tsWorld s)).
Definition onGlobal {A} (f : account -> A * account) : T A := fun s => let '(r, a) := f (tsGlobal s) in (r, mkTick_ (tsAccount s) a (tsRate s) (tsTrace s) (tsWorld s)).
Definition onRate {A} (f : list Z -> A * list Z) : T A := fun s => let '(r, l) := f (tsRate s) in (r, mkTick_ (tsAccount s) (tsGlobal s) l (tsTrace s) (tsWorld s)).
Definition emit (e : pollEvent) : T unit := fun s => (tt, mkTick_ (tsAccount s) (tsGlobal s) (tsRate s) (tsTrace s ++ [e]) (tsWorld s)).
Definition now : T Z := ask (eNow _ _ env).
Definition nowUnix : T Z := n ← now; mret (n / 1000000000)%Z.
Definition ctxEnded : T bool := ask (eCtx _ _ env).
(** One transaction on the mailbox's database, at the clock's time. *)
Definition storeTx {A} (m : Z -> AS A) : T (res stErr A) :=
  t ← nowUnix; up ← ask (eDB _ _ env); onAccount (commit ErrDB up (m t)).
Definition globalTx {A} (m : Z -> AS A) : T (res stErr A) :=
  t ← nowUnix; up ← ask (eDB _ _ env); onGlobal (commit ErrDB up (m t)).
Definition isOk {Er A} (r : res Er A) : bool := match r with Ok _ => true | Err _ => false end.
(** A write, noted in the trace. *)
Definition storeWrite (ev : bool -> pollEvent) (m : Z -> AS unit) : T (res stErr unit) := r ← storeTx m; emit (ev (isOk r));; mret r.
Definition settleRow (d : Decision) : T (res stErr unit) := storeWrite (EvSettled d) (recordProcessedDecision d).
Definition logDecision (d : Decision) : T (res stErr unit) := storeWrite (EvLogged d) (addDecision d).
Definition retryable {A} (m : T (res stErr A)) : T (res perr' A) := r ← m; mret (match r with Ok a => Ok a | Err e => Err (PRetryable (PStore e)) end).

(** ** Listing unread mail: ListUnreadInbox of the IMAP client *)

Definition unreadFetchPageSize : nat := 4.
Definition unreadFetchByteBudget : Z := 192 * 2 ^ 20.
Definition maxUnreadMessagesPerCall : nat := 200.
Definition MaxInboundMessageBytes : Z := 25 * 2 ^ 20.
Definition lift {A} (m : T (res E A)) : T (res perr' A) := r ← m; mret (match r with Ok a => Ok a | Err e => Err (PMail e) end).
Definition checkCtx : T (res perr' unit) := c ← ctxEnded; mret (if c : bool then Err PCtx else Ok tt).
Definition partitionUIDsBySize (filtered oversized : list Z) : list Z * list Z :=
  (List.filter (fun u => negb (bool_decide (u ∈ oversized))) filtered, List.filter (fun u => bool_decide (u ∈ oversized)) filtered).
(** overviewFromEmail with or without the message's body. *)
Definition overview (uid : Z) (e : option fetchedMail) (tooLarge : bool) : mailMsg :=
  match e with
  | None => mkMsg (formatInt uid) [] [] [] [] [] [] [] tooLarge false false
  | Some e => mkMsg (formatInt uid) (fmSubject e) (fmSender e) (fmSentTo e) (fmCC e) (fmBCC e) (if tooLarge then [] else fmBody e) (fmKeywords e) tooLarge false (negb tooLarge && fmEnvelope e)
  end.
Fixpoint largeMsgs (uids : list Z) (found : gmap Z fetchedMail) : T (res perr' (list mailMsg)) :=
  match uids with
  | [] => okT []
  | uid :: uids' => _ ←! checkCtx; rest ←! largeMsgs uids' found; okT (overview uid (found !! uid) true :: rest)
  end.
Fixpoint normalMsgs (uids : list Z) (found : gmap Z fetchedMail) : T (res perr' (list mailMsg * Z)) :=
  match uids with
  | [] => okT ([], 0%Z)
  | uid :: uids' =>
      _ ←! checkCtx; p ←! normalMsgs uids' found;
      match found !! uid with
      | None => okT p
      | Some e => okT (overview uid (Some e) (MaxInboundMessageBytes <? fmSize e)%Z :: p.1, (fmSize e + p.2)%Z)
      end
  end.
Definition maxZ (l : list Z) (m : Z) : Z := foldr Z.max m l.
Definition fetchUnreadPage (uids oversizedUIDs : list Z) : T (res perr' (list mailMsg * Z * Z)) :=
  let '(toFetch, tooLarge) := partitionUIDsBySize uids oversizedUIDs in
  large ←! (if bool_decide (tooLarge = []) then okT [] else found ←! lift (ask (eOverviews _ _ env tooLarge)); largeMsgs tooLarge found);
  emails ←! (if bool_decide (toFetch = []) then okT ∅ else lift (ask (eEmails _ _ env toFetch)));
  p ←! normalMsgs toFetch emails;
  okT (large ++ p.1, p.2, maxZ toFetch (maxZ tooLarge 0)).
(** The pages in ascending order, until the budget is spent; [fuel] bounds the number of pages. *)
Fixpoint collectUnreadPages (fuel : nat) (uids : list Z) (out : list mailMsg) (maxUID fetchedBytes : Z) (fetch : list Z -> T (res perr' (list mailMsg * Z * Z))) : T (res perr' (list mailMsg * Z)) :=
  match fuel, uids with
  | S fuel, _ :: _ =>
      _ ←! checkCtx;
      '(page, pageBytes, pageMaxUID) ←! fetch (take unreadFetchPageSize uids);
      let out := out ++ page in let fetchedBytes := (fetchedBytes + pageBytes)%Z in let maxUID := Z.max pageMaxUID maxUID in
      if (unreadFetchByteBudget <=? fetchedBytes)%Z || (maxUnreadMessagesPerCall <=? length out)%nat then okT (out, maxUID)
      else collectUnreadPages fuel (drop unreadFetchPageSize uids) out maxUID fetchedBytes fetch
  | _, _ => okT (out, maxUID)
  end.
Definition ListUnreadInbox (sinceCheckpoint : gostr) : T (res perr' (list mailMsg * gostr)) :=
  _ ←! checkCtx;
  status ←! lift (ask (eNamespace _ _ env));
  let ns := pollNamespace status (eHash _ _ env) in
  let '(prevNS, minUID) := parseCheckpoint sinceCheckpoint in
  let '(ns, minUID) := if ns =s? [] then (prevNS, minUID) else if negb (prevNS =s? []) && negb (ns =s? prevNS) then (ns, 0%Z) else (ns, minUID) in
  let base := formatCheckpoint ns minUID in
  uids ←! lift (ask (eUnseen _ _ env));
  let filtered := sortStable Z.ltb (List.filter (fun uid => (minUID <? uid)%Z) uids) in
  if bool_decide (filtered = []) then okT ([], base)
  else
    oversizedUIDs ←! lift (ask (eOversized _ _ env));
    '(out, maxUID) ←! collectUnreadPages (length filtered) filtered [] minUID 0 (fun page => fetchUnreadPage page oversizedUIDs);
    okT (out, if (minUID <? maxUID)%Z then formatCheckpoint ns maxUID else base).

(** fetchUnread: the checkpoint the tick starts from, the messages, the checkpoint behind them. *)
Definition fetchUnread : T (res perr' (gostr * list mailMsg * gostr)) :=
  checkpoint ←! (r ← storeTx (fun _ => AccountState.checkpoint); mret (match r with Ok c => Ok c | Err e => Err (PStore e) end));
  '(messages, next) ←! ListUnreadInbox checkpoint;
  match UIDNamespaceReset checkpoint next with
  | Some reset => r ← storeWrite (EvReset reset) (fun _ => resetUIDNamespace reset); mret (match r with Ok _ => Ok (reset, messages, next) | Err e => Err (PStore e) end)
  | None => okT (checkpoint, messages, next)
  end.

(** ** Headers and pre-sorting of a batch *)

Definition uidOf (msg : mailMsg) : Z := parseIntValue (trimSpace (mgID msg)).
Fixpoint compact (l : list gostr) : list gostr := match l with x :: (y :: _) as l' => if x =s? y then compact l' else x :: compact l' | _ => l end.
Definition batchHeaders (headers : gmap Z headerMap) (known : gset gostr) (uc : userCtx) : userCtx :=
  mkUserCtx (ucTuning uc) (ucSettings uc) (ucAutoLabel uc) (ucEncrypt uc) (ucExtra uc) (ucAllowlist uc) (ucMappings uc) (ucRules uc) headers known.
Definition loadBatchHeaders (uc : userCtx) (messages : list mailMsg) : T (userCtx * bool * option perr') :=
  let ruleHeaders := headerNames (ucRules uc) in
  let headersNeeded := negb (bool_decide (ruleHeaders = [])) in
  if bool_decide (messages = []) then mret (uc, headersNeeded, None)
  else
    let uids := omap (fun m => if mgTooLarge m then None else parseInt (trimSpace (mgID m))) messages in
    r ← ask (eHeaders _ _ env uids (compact (sortStable strLtb (ruleHeaders ++ presortHeaderNames))));
    known ← ask (eKnown _ _ env);
    mret (match r with
          | Ok lines => (batchHeaders (HeaderMap <$> lines) known uc, headersNeeded, None)
          | Err e => (batchHeaders ∅ known uc, headersNeeded, if headersNeeded then Some (PHeaders (PMail e)) else None)
          end).
Definition presortOf (uc : userCtx) (msg : mailMsg) : presorted :=
  presort (ucAllowlist uc) (ucHeaders uc !! uidOf msg) (bool_decide (eFrom _ _ env (mgSender msg) ∈ ucKnown uc)) (mgTooLarge msg).

(** ** Labels on the server *)

Definition wait (ns : Z) : T bool := ask (eWait _ _ env ns).
Definition secondNs : Z := 1000000000.
Definition applySingleKeywordWithRetry (id keyword : gostr) : T (res perr' unit) :=
  retry wait PCtx (PAttempts 3) 3 (fun _ => (30 * secondNs)%Z) (fun _ =>
    e ← ask (eEnsure _ _ env keyword);
    e ← (match e with None => ask (eClient _ _ env (ApplyLabel id keyword)) | Some _ => mret e end);
    emit (EvKeyword id keyword (match e with None => true | Some _ => false end));;
    mret (match e with None => (Ok tt, false) | Some x => (Err (PMail x), negb (eUnsafe _ _ env x)) end)).
Fixpoint applyKeywordsWithRetry (id : gostr) (keywords : list gostr) : T (res perr' unit) :=
  match keywords with [] => okT tt | k :: ks => _ ←! applySingleKeywordWithRetry id k; applyKeywordsWithRetry id ks end.

(** maybeSendPushNotification and its native counterpart: the delivery itself is the world's. *)
Definition maybeSend (native : bool) (uc : userCtx) (msg : mailMsg) (label : gostr) (keywords : list gostr) : T unit :=
  if shouldSendNotification (ucSettings uc) label keywords then emit (EvNotify native (mgID msg));; ask (fun w => (tt, eNotify _ _ env native msg label keywords w)) else mret tt.
Definition notify (uc : userCtx) (msg : mailMsg) (label : gostr) (keywords : list gostr) : T unit := maybeSend false uc msg label keywords;; maybeSend true uc msg label keywords.

Definition decisionOf (msg : mailMsg) (label status detail : gostr) : Decision := mkDecision (mgID msg) (mgSender msg) (mgSentTo msg) (mgSubject msg) label status detail [].
Definition statusApplied : gostr := $"applied".
Definition statusSkipped : gostr := $"skipped".
Definition statusFailed : gostr := $"failed".
Definition tagWithLabel (uc : userCtx) (msg : mailMsg) (label reason : gostr) : T (res perr' unit) :=
  let keywords := keywordsForSelectedLabel label (ucMappings uc) in
  r ← applyKeywordsWithRetry (mgID msg) keywords;
  match r with
  | Err e => errT (PRetryable e)
  | Ok _ => _ ←! retryable (settleRow (decisionOf msg label statusApplied (reason ++ $"; tagged " ++ label))); notify uc msg label keywords;; okT tt
  end.
Definition tagWithFallbackLabel (uc : userCtx) (msg : mailMsg) (reason : gostr) : T (res perr' unit) :=
  let label := existingLabel (mgKeywords msg) (ucAllowlist uc) (ucMappings uc) in
  tagWithLabel uc msg (if label =s? [] then disabledLabelingFallback (ucAllowlist uc) else label) reason.

(** ** The classifier *)

Definition isPermanentClassifierError (e : perr') : bool :=
  match e with PCl (NoAllowedLabelError _) | PCl ErrCreditsExhausted => true | PCl (StatusError code) => (code =? 422)%Z | _ => false end.
Definition classifyWithRetry (labels : list gostr) (sender subject body tuning : gostr) : T (res perr' gostr) :=
  retry wait PCtx (PAttempts 3) 3 (fun _ => (5 * secondNs)%Z) (fun _ =>
    o ← ask (eClassify _ _ env labels sender subject body tuning);
    mret (match o with
          | Ok out => if negb (out =s? []) then (Ok out, false) else (Err PEmptyLabel, true)
          | Err e => (Err (PCl e), negb (isPermanentClassifierError (PCl e)))
          end)).
Definition flagAICreditsExhausted : T unit := globalTx (fun t => setAICreditsExhausted (formatTime t) t);; mret tt.
Definition clearAICredits : T unit :=
  r ← globalTx (fun _ => aiCreditsExhausted);
  match r with Ok (true, _) => globalTx (fun _ => clearAICreditsExhausted);; mret tt | _ => mret tt end.
(** redaction.Engine.Apply. *)
Definition redactApply (s : gostr) : gostr := foldl (fun s '(re, repl) => eReplaceAll _ _ env re repl s) s (pcPatterns cfg).
Definition classifyMessage (uc : userCtx) (msg : mailMsg) (allowlist : list gostr) : T (res perr' gostr) :=
  let clamp s n := truncateRunes (redactApply (trimSpace s)) n in
  r ← classifyWithRetry allowlist (clamp (mgSender msg) maxClassifySenderRunes) (clamp (mgSubject msg) maxClassifySubjectRunes) (clamp (mgBody msg) maxClassifyBodyRunes) (ucTuning uc);
  match r with
  | Err (PCl (NoAllowedLabelError out)) => clearAICredits;; okT out
  | Err e => (match e with PCl ErrCreditsExhausted => flagAICreditsExhausted | _ => mret tt end);; errT (PClassifier e)
  | Ok label => clearAICredits;; okT label
  end.
Definition rememberPrediction (uc : userCtx) (msg : mailMsg) (g : sortGuess) (applied : gostr) : T unit :=
  match sgVec g with
  | Some vec => if (applied =s? []) || ucExtra uc then mret tt
      else storeTx (recordSorterPrediction (mgID msg) (eSum _ _ env (mgSender msg ++ [0%Z] ++ mgSubject msg)) (eModel _ _ env) vec applied);; mret tt
  | None => mret tt
  end.

(** ** One message *)

Definition rejectOversizedMessage (msg : mailMsg) : T (res perr' unit) :=
  refused ← ask (eNotice _ _ env msg);
  let detail := $"message from " ++ eQuote _ _ env (mgSender msg) ++ $" exceeded the 25 MiB inbound size limit and was not processed"
    ++ match refused with Some e => $"; rejection notice could not be sent: " ++ e | None => [] end in
  r ← settleRow (decisionOf msg [] ($"rejected_too_large") detail); mret (match r with Ok _ => Ok tt | Err e => Err (PStore e) end).
Definition inputOf (uc : userCtx) (msg : mailMsg) : EvalInput := {|
  UID := uidOf msg; MessageID := mgID msg; From := mgSender msg; To := mgSentTo msg; CC := mgCC msg; BCC := mgBCC msg; Subject := mgSubject msg; Body := mgBody msg;
  Keywords := mgKeywords msg; Folder := $"INBOX"; Headers := ucHeaders uc !! uidOf msg |}.
Definition failureOf (r : @ActionResult E) : option (gostr * option E) :=
  match arErr r with None => None | Some (ClientFailed e) => Some (aType (arAction r), Some e) | Some _ => Some (aType (arAction r), None) end.
(** Whether a "stop" rule settled the message. *)
Definition applyFilterRules (uc : userCtx) (msg : mailMsg) : T (res perr' bool) :=
  let input := inputOf uc msg in
  ctx ← ask (eContext _ _ env); patterns ← ask (eRegexps _ _ env);
  let '(outcome, st) := evaluate ctx None input (ucRules uc) patterns in
  if bool_decide (Matched outcome = []) then okT false
  else
    results ← ask (applyOutcome (eClient _ _ env) {| hasDeadline := hasDeadline ctx; ctxLeft := left st |} ($"INBOX") input outcome);
    let failures := omap failureOf results in
    if negb (bool_decide (failures = [])) then errT (PRetryable (PRules (Matched outcome) failures))
    else
      let decision := decisionOf msg [] statusApplied ($"rule(s) applied: " ++ join ($", ") (Matched outcome)) in
      if negb (Stopped outcome) then _ ←! retryable (logDecision decision); okT false
      else _ ←! retryable (settleRow decision); notify uc msg [] [];; okT true.

Definition encryptIncoming (msg : mailMsg) : T (res perr' unit) := fun s =>
  let '((e, a), w) := eEncrypt _ _ env msg (tsAccount s) (tsWorld s) in
  (match e with Some e => Err (PIncoming e) | None => Ok tt end, mkTick_ a (tsGlobal s) (tsRate s) (tsTrace s) w).
Definition handleMessage (uc : userCtx) (msg : mailMsg) : T (res perr' unit) :=
  if mgParseError msg then errT PMalformedMIME
  else if ucEncrypt uc && negb (mgEncrypted msg) && negb (mgTooLarge msg) then encryptIncoming msg
  else if mgTooLarge msg then rejectOversizedMessage msg
  else
    stopped ←! applyFilterRules uc msg;
    if stopped : bool then okT tt
    else if negb (ucAutoLabel uc) then tagWithFallbackLabel uc msg ($"automatic keyword labeling disabled")
    else if mgEncrypted msg then tagWithFallbackLabel uc msg ($"message is encrypted; no readable content to classify")
    else
      let ps := presortOf uc msg in
      let guess := eGuess _ _ env msg (psAllow ps) in
      if negb (psLabel ps =s? []) then _ ←! tagWithLabel uc msg (psLabel ps) ($"sender is a contact"); rememberPrediction uc msg guess (psLabel ps);; okT tt
      else
        '(selected, detail) ←! (if confident guess then okT (sgLabel guess, $"label applied by the embedding sorter (confidence " ++ sgText guess ++ $")" ++ psNote ps)
          else label ←! classifyMessage uc msg (psAllow ps); okT (SelectLabelFromText (psAllow ps) label, $"label applied successfully" ++ psNote ps));
        if negb (confident guess) && (selected =s? []) then
          _ ←! retryable (settleRow (decisionOf msg [] statusSkipped ($"no known label returned"))); notify uc msg [] [];; okT tt
        else
          let keywords := keywordsForSelectedLabel selected (ucMappings uc) in
          r ← applyKeywordsWithRetry (mgID msg) keywords;
          match r with
          | Err e => errT (PRetryable e)
          | Ok _ =>
              _ ←! retryable (settleRow (decisionOf msg selected statusApplied detail));
              rememberPrediction uc msg guess selected;; notify uc msg selected keywords;; okT tt
          end.

(** ** Failures *)

Fixpoint asClassifier (e : perr') : option perr' := match e with PClassifier c => Some c | PRetryable e | PGaveUp _ e | PLedger e | PHeaders e => asClassifier e | _ => None end.
Fixpoint isRetryable (e : perr') : bool := match e with PRetryable _ => true | PClassifier e | PGaveUp _ e | PLedger e | PHeaders e => isRetryable e | _ => false end.
Definition shouldMarkProcessedOnError (e : perr') : bool := match asClassifier e with Some c => isPermanentClassifierError c | None => negb (isRetryable e) end.
Definition maxDeferralAttempts : Z := 120.
Definition recordMessageFailure (uc : userCtx) (msg : mailMsg) (e : perr') (retire : bool) : T unit :=
  let decision := decisionOf msg [] statusFailed (clipDetail (eText _ _ env e)) in
  if retire then settleRow decision;; notify uc msg [] []
  else
    reported ← storeTx (fun _ => hasDecisionWithStatus (mgID msg) statusFailed);
    match reported with Ok false => logDecision decision;; notify uc msg [] [] | _ => mret tt end.

Record tickResult := mkResult { trProcessed : Z; trSkippedSeen : Z; trFailed : Z; trRateLimited : Z; trDeferred : list gostr; trLedger : option perr' }.
Definition deferIDs (ids : list gostr) (r : tickResult) : tickResult := mkResult (trProcessed r) (trSkippedSeen r) (trFailed r) (trRateLimited r) (trDeferred r ++ ids) (trLedger r).
Definition deferFrom (msgs : list mailMsg) (r : tickResult) : tickResult := deferIDs (mgID <$> msgs) r.
Definition ledger (e : perr') (keep : bool) (r : tickResult) : tickResult :=
  mkResult (trProcessed r) (trSkippedSeen r) (trFailed r) (trRateLimited r) (trDeferred r) (match trLedger r with Some x => if keep then Some x else Some e | None => Some e end).
Definition OuterPlaceholderSubject : gostr := $"[Encrypted] Email Sent by KyPost".
Definition settleFailure (uc : userCtx) (msg : mailMsg) (e : perr') (res : tickResult) : T tickResult :=
  match e with
  | PIncoming IncPermanent | PMail _ | PStore _ | PCl _ | PEmptyLabel | PMalformedMIME | PCtx | PAttempts _ | PRules _ _ | PRetryable _ | PClassifier _ | PGaveUp _ _ | PLedger _ | PHeaders _ =>
      let incoming := match e with PIncoming _ => true | _ => false end in
      let msg := if incoming then mkMsg (mgID msg) OuterPlaceholderSubject (mgSender msg) (mgSentTo msg) (mgCC msg) (mgBCC msg) (mgBody msg) (mgKeywords msg) (mgTooLarge msg) (mgParseError msg) true else msg in
      if shouldMarkProcessedOnError e && negb incoming then recordMessageFailure uc msg e true;; mret res
      else
        r ← storeTx (recordDeferral (mgID msg)); emit (EvDeferred (mgID msg) (isOk r));;
        match r with
        | Err x => recordMessageFailure uc msg e false;; mret (ledger (PLedger (PStore x)) true (deferIDs [mgID msg] res))
        | Ok attempts =>
            if (maxDeferralAttempts <=? attempts)%Z then recordMessageFailure uc msg (PGaveUp attempts e) true;; mret res
            else recordMessageFailure uc msg e false;; mret (deferIDs [mgID msg] res)
        end
  | PIncoming _ => mret (ledger e false (deferIDs [mgID msg] res))
  end.

(** ** A batch, a tick *)

Definition allowT : T bool := t ← now; onRate (allowByRate (pcPerMinute cfg) (pcPerHour cfg) t).
(** flagAppImpersonation: the verdict is the world's, the audit row the poller's; then key harvest and invitations. *)
Definition beforeMessage (uc : userCtx) (msg : mailMsg) : T unit :=
  finding ← ask (eScan _ _ env msg);
  (match finding with
   | Some detail => logDecision (mkDecision (mgID msg) (mgSender msg) (mgSentTo msg) (if ucEncrypt uc then OuterPlaceholderSubject else mgSubject msg) [] ($"flagged_phishing") detail []);; mret tt
   | None => mret tt end);;
  ask (fun w => (tt, eHarvest _ _ env msg w)).
Definition tallied (processed skipped failed limited : Z) (r : tickResult) : tickResult :=
  mkResult (trProcessed r + processed) (trSkippedSeen r + skipped) (trFailed r + failed) (trRateLimited r + limited) (trDeferred r) (trLedger r).
Fixpoint messageLoop (uc : userCtx) (total : Z) (headersNeeded : bool) (headersErr : option perr') (messages : list mailMsg) (res : tickResult) : T tickResult :=
  match messages with
  | [] => mret res
  | msg :: rest =>
      let next := messageLoop uc total headersNeeded headersErr rest in
      seen ← storeTx (fun _ => AccountState.seen (mgID msg));
      match seen with
      | Err _ => next (tallied 0 1 0 0 (deferIDs [mgID msg] res))
      | Ok true => next (tallied 0 1 0 0 res)
      | Ok false =>
          beforeMessage uc msg;;
          match headersErr with
          | Some e => next (ledger e true (deferIDs [mgID msg] res))
          | None =>
              if headersNeeded && negb (mgTooLarge msg) && negb (mgParseError msg) && bool_decide (ucHeaders uc !! uidOf msg = None) then next (deferIDs [mgID msg] res)
              else
                let ps := presortOf uc msg in
                allowed ← (if negb (mgParseError msg) && negb (ucEncrypt uc) && (psLabel ps =s? []) && negb (confident (eGuess _ _ env msg (psAllow ps))) then allowT else mret true);
                if negb (allowed : bool) then
                  mret (deferFrom messages (mkResult (trProcessed res) (trSkippedSeen res) (trFailed res) (total - trProcessed res - trSkippedSeen res - trFailed res) (trDeferred res) (trLedger res)))
                else
                  ended ← ctxEnded;
                  if ended : bool then mret (deferFrom messages res)
                  else
                    r ← handleMessage uc msg;
                    match r with
                    | Err (PIncoming IncRateLimited) => next (tallied 0 0 0 1 (deferIDs [mgID msg] res))
                    | Err e => res ← settleFailure uc msg e (tallied 0 0 1 0 res); next res
                    | Ok _ => next (tallied 1 0 0 0 res)
                    end
          end
      end
  end.
Definition processBatch (uc : userCtx) (messages : list mailMsg) (headersNeeded : bool) (headersErr : option perr') : T tickResult :=
  messageLoop uc (Z.of_nat (length messages)) headersNeeded headersErr messages (mkResult 0 0 0 0 [] None).
Definition commitCheckpoint (checkpoint next : gostr) (deferredIDs : list gostr) : T bool :=
  if next =s? [] then mret false
  else
    let clamped := ClampCheckpoint checkpoint next deferredIDs in
    storeWrite (EvCheckpoint clamped) (fun _ => setCheckpoint clamped);; mret (negb (clamped =s? next)).
Definition recordTick (fetched : Z) (res : tickResult) (held : bool) : T unit :=
  t ← nowUnix;
  storeWrite EvTick (recordPollTick (mkTick (formatTime t) fetched (trProcessed res) (trSkippedSeen res) (trFailed res) (Z.of_nat (length (trDeferred res))) (0 <? trRateLimited res)%Z held));; mret tt.
(** tickMailbox once the mailbox is admitted, from the fetch on. *)
Definition tickMailbox (uc : userCtx) : T (res perr' unit) :=
  '(checkpoint, messages, next) ←! fetchUnread;
  '(uc, headersNeeded, headersErr) ← loadBatchHeaders uc messages;
  res ← processBatch uc messages headersNeeded headersErr;
  held ← commitCheckpoint checkpoint next (trDeferred res);
  recordTick (Z.of_nat (length messages)) res held;;
  match trLedger res with Some e => errT e | None => okT tt end.
End Tick.
