(* ===== verification/PollerFetch.v ===== *)
(** * PollerFetch: what a fetch covers

    Checkpoint text read back, the bounds of a clamped checkpoint, and
    [fetch_covers]: between the checkpoint a fetch started from and the one it
    answers, no unread message is missing from the batch. *)

From S2P Require Import Prelude GoText GoCodec RulesModel RulesPattern RulesEngine RulesApply FileStore Contacts Transaction StateTables AccountState Poller.


(** ** Checkpoint text *)

Definition namespaceOK (ns : gostr) : Prop := 58%Z ∉ ns /\ match ns with c :: _ => isSpace c = false | [] => True end.
Lemma cutColon_app ns s : 58%Z ∉ ns -> cutColon (ns ++ 58%Z :: s) = Some (ns, s).
Proof.
  induction ns as [|c ns IH]; intros H; simpl; [done|]. apply not_elem_of_cons in H as [Hc H]. destruct (Z.eqb_spec c 58); [by subst|]. by rewrite IH.
Qed.
Lemma cutColon_none s : 58%Z ∉ s -> cutColon s = None.
Proof. induction s as [|c s IH]; intros H; simpl; [done|]. apply not_elem_of_cons in H as [Hc H]. destruct (Z.eqb_spec c 58); [by subst|]. by rewrite IH. Qed.
Lemma cutColon_fst s a b : cutColon s = Some (a, b) -> 58%Z ∉ a /\ exists t, s = a ++ t.
Proof.
  revert a b. induction s as [|c s IH]; intros a b; simpl; [done|]. destruct (Z.eqb_spec c 58).
  - intros [= <- <-]. split; [apply not_elem_of_nil|]. by eexists.
  - destruct (cutColon s) as [[a' b']|] eqn:E; simpl; [|done]. intros [= <- <-]. destruct (IH a' b' eq_refl) as [H [t ->]]. split; [by apply not_elem_of_cons|]. by exists t.
Qed.

Lemma formatInt_no_colon n : (0 <= n)%Z -> 58%Z ∉ formatInt n /\ Forall (fun c => isSpace c = false) (formatInt n).
Proof.
  intros H. pose proof (isDecimal_formatInt n H) as HD. split.
  - intros Hin. rewrite Forall_forall in HD. specialize (HD _ Hin). done.
  - eapply Forall_impl; [exact HD|]. intros c Hc. unfold isDecimal in Hc. unfold isSpace. by replace (_ || _) with false by lia.
Qed.
Lemma trimLeft_first c s : isSpace c = false -> trimLeft (c :: s) = c :: s.
Proof. intros H. simpl. by rewrite H. Qed.
Lemma trimSpace_id s : (forall c t, s = c :: t -> isSpace c = false) -> (forall c t, s = t ++ [c] -> isSpace c = false) -> trimSpace s = s.
Proof.
  intros H1 H2. unfold trimSpace. assert (trimLeft s = s) as ->. { destruct s as [|c s]; [done|]. apply trimLeft_first. by eapply H1. }
  assert (trimLeft (reverse s) = reverse s) as ->; [|by rewrite reverse_involutive].
  destruct s as [|x l _] using rev_ind; [done|]. rewrite reverse_snoc. apply trimLeft_first. by eapply H2.
Qed.
Lemma formatInt_last n : (0 <= n)%Z -> exists t c, formatInt n = t ++ [c] /\ isSpace c = false.
Proof.
  intros H. destruct (formatInt_no_colon n H) as [_ HS]. destruct (formatInt n) as [|x l _] eqn:E using rev_ind; [by apply formatInt_ne in E|].
  exists l, x. split; [done|]. apply Forall_app in HS as [_ HS]. by apply Forall_cons in HS as [HS _].
Qed.

(** Reading a checkpoint back. *)
Lemma parse_format ns uid : namespaceOK ns -> (0 <= uid <= int64Max)%Z -> parseCheckpoint (formatCheckpoint ns uid) = (ns, uid).
Proof.
  intros [Hc Hf] Hu. destruct (formatInt_last uid ltac:(lia)) as (t & l & Hl & Hsp). unfold formatCheckpoint. destruct (ns =s? []) eqn:En; simpl.
  - apply bool_decide_eq_true in En. subst ns. destruct (Z.ltb_spec 0 uid).
    + unfold parseCheckpoint. destruct (formatInt_no_colon uid ltac:(lia)) as [H1 H2].
      rewrite trimSpace_id, cutColon_none, parseInt_formatInt by (try done; intros c x Hx; rewrite Hx in H2; first [by apply Forall_cons in H2 as [? _]|apply Forall_app in H2 as [_ H2]; by apply Forall_cons in H2 as [? _]]).
      destruct (Z.ltb_spec uid 0); [lia|done].
    + replace uid with 0%Z by lia. done.
  - apply bool_decide_eq_false in En. unfold parseCheckpoint. rewrite trimSpace_id.
    + rewrite cutColon_app, parseInt_formatInt by done. destruct (Z.ltb_spec uid 0); [lia|done].
    + intros c x Hx. destruct ns; [done|]. simpl in Hx. by injection Hx as -> _.
    + intros c x Hx. rewrite Hl in Hx. change (58%Z :: t ++ [l]) with ((58%Z :: t) ++ [l]) in Hx. rewrite app_assoc in Hx. by apply app_inj_tail in Hx as [_ <-].
Qed.
Lemma parseInt_bound s n : parseInt s = Some n -> (int64Min <= n <= int64Max)%Z.
Proof. unfold parseInt. destruct (parseSigned s); simpl; [|done]. destruct (_ && _) eqn:E; [|done]. intros [= <-]. lia. Qed.
Lemma trimSpace_first s c t : trimSpace s = c :: t -> isSpace c = false.
Proof.
  unfold trimSpace. intros H. assert (forall x, match trimLeft x with c :: _ => isSpace c = false | [] => True end) as HL.
  { intros x. induction x as [|y x IH]; [done|]. simpl. destruct (isSpace y) eqn:E; [done|done]. }
  pose proof (HL s) as Hs. set (l := trimLeft s) in *. assert (exists u, reverse l = u ++ trimLeft (reverse l)) as [u Hu].
  { generalize (reverse l). intros x. induction x as [|y x [u IH]]; [by exists []|]. simpl. destruct (isSpace y); [exists (y :: u); simpl; congruence|by exists []]. }
  apply (f_equal reverse) in Hu. rewrite reverse_involutive, reverse_app, H in Hu. by rewrite Hu in Hs.
Qed.
Lemma parse_ok cp : namespaceOK (parseCheckpoint cp).1 /\ (0 <= (parseCheckpoint cp).2 <= int64Max)%Z.
Proof.
  unfold parseCheckpoint. set (p := match cutColon _ with Some (ns, v) => (ns, v) | None => ([], trimSpace cp) end). assert (namespaceOK p.1) as Hp.
  { unfold p. destruct (cutColon (trimSpace cp)) as [[a b]|] eqn:E; [|split; [apply not_elem_of_nil|done]]. apply cutColon_fst in E as [Hn [t Ht]]. split; [done|].
    destruct a as [|c a]; [done|]. simpl in *. by eapply trimSpace_first. }
  destruct p as [ns v]. destruct (parseInt v) as [n|] eqn:E; simpl in *; [|split; [done|unfold int64Max; lia]]. apply parseInt_bound in E. destruct (Z.ltb_spec n 0); unfold int64Max in *; split; try done; lia.
Qed.

Lemma lowest_spec ids low l : lowestUID low ids = Some l -> (0 <= low)%Z ->
  (0 <= l)%Z /\ (low <> 0 -> l <= low)%Z /\ (ids <> [] \/ low <> 0 -> 0 < l)%Z /\ forall id, id ∈ ids -> exists u, parseInt (trimSpace id) = Some u /\ (0 < l <= u)%Z.
Proof.
  revert low. induction ids as [|id ids IH]; intros low; simpl.
  - intros [= <-] Hl. split_and!; [done|lia|intros [?|?]; [done|lia]|]. intros id H. by apply elem_of_nil in H.
  - destruct (parseInt (trimSpace id)) as [u|] eqn:E; [|done]. destruct (Z.leb_spec u 0); [done|]. intros H0 Hl.
    set (low' := if (low =? 0)%Z || (u <? low)%Z then u else low) in *. assert (0 < low' <= u /\ (low <> 0 -> low' <= low))%Z as [Hlow Hle] by (unfold low'; destruct (Z.eqb_spec low 0); simpl; [|destruct (Z.ltb_spec u low)]; lia).
    destruct (IH low' H0 ltac:(lia)) as (H1 & H2 & H3 & H4). split_and!; [done|lia|lia|]. intros id' [->|Hin]%elem_of_cons; [|by apply H4]. exists u. split; [done|]. specialize (H3 ltac:(right; lia)). lia.
Qed.

(** The clamp keeps every deferred message above the checkpoint. *)
Lemma clamp_below prev next ids id u : (forall id, id ∈ ids -> exists u, parseInt (trimSpace id) = Some u /\ ((parseCheckpoint prev).2 < u)%Z /\ (0 < u)%Z) ->
  id ∈ ids -> parseInt (trimSpace id) = Some u -> ((parseCheckpoint (ClampCheckpoint prev next ids)).2 < u)%Z.
Proof.
  intros Hall Hid Hu. unfold ClampCheckpoint. rewrite bool_decide_false by (intros ->; by apply elem_of_nil in Hid).
  destruct (parse_ok prev) as [HP1 HP2]. destruct (parse_ok next) as [HN1 HN2]. destruct (Hall id Hid) as (u' & Hu' & Hpu & Hu0). rewrite Hu in Hu'. injection Hu' as <-.
  destruct (parseCheckpoint prev) as [pns pu] eqn:EP. destruct (parseCheckpoint next) as [nns nu] eqn:EN. simpl in *.
  set (a := if negb (nns =s? []) && negb (pns =s? nns) then _ else _). assert (exists v p, a = (v, p) /\ (0 <= v <= pu)%Z /\ ((parseCheckpoint p).2 <= pu)%Z) as (v & p & -> & Hv & Hp).
  { unfold a. destruct (negb (nns =s? []) && negb (pns =s? nns)); [|exists pu, prev; rewrite EP; simpl; split_and!; try done; lia].
    eexists _, _. split; [reflexivity|]. destruct (negb (pns =s? [])); rewrite parse_format by (unfold int64Max in *; first [done|lia]); simpl; lia. }
  destruct (lowestUID 0 ids) as [l|] eqn:El; [|lia]. apply lowest_spec in El as (_ & _ & _ & Hall'); [|lia]. destruct (Hall' id Hid) as (u' & Hu' & Hl). rewrite Hu in Hu'. injection Hu' as <-.
  destruct (Z.leb_spec (Z.min (l - 1) nu) v); [lia|]. rewrite parse_format by (unfold int64Max in *; first [done|lia]). simpl. lia.
Qed.

Lemma clamp_above prev next ids : ((parseCheckpoint (ClampCheckpoint prev next ids)).2 <= Z.max (parseCheckpoint prev).2 (parseCheckpoint next).2)%Z.
Proof.
  unfold ClampCheckpoint. case_bool_decide; [lia|]. destruct (parse_ok prev) as [HP1 HP2]. destruct (parse_ok next) as [HN1 HN2].
  destruct (parseCheckpoint prev) as [pns pu] eqn:EP. destruct (parseCheckpoint next) as [nns nu] eqn:EN. simpl in *.
  set (a := if negb (nns =s? []) && negb (pns =s? nns) then _ else _). assert (exists v p, a = (v, p) /\ (0 <= v)%Z /\ ((parseCheckpoint p).2 <= pu)%Z) as (v & p & -> & Hv & Hp).
  { unfold a. destruct (negb (nns =s? []) && negb (pns =s? nns)); [|exists pu, prev; rewrite EP; simpl; split_and!; try done; lia].
    eexists _, _. split; [reflexivity|]. destruct (negb (pns =s? [])); rewrite parse_format by (unfold int64Max in *; first [done|lia]); simpl; lia. }
  destruct (lowestUID 0 ids) as [l|]; [|lia]. destruct (Z.leb_spec (Z.min (l - 1) nu) v); [lia|]. rewrite parse_format by (unfold int64Max in *; first [done|lia]). simpl. lia.
Qed.
Lemma parse_uid u : (0 <= u <= int64Max)%Z -> parseInt (trimSpace (formatInt u)) = Some u.
Proof.
  intros H. destruct (formatInt_no_colon u ltac:(lia)) as [_ HS]. rewrite trimSpace_id; [apply parseInt_formatInt; unfold int64Max, int64Min in *; lia|..]; intros c x Hx; rewrite Hx in HS.
  - by apply Forall_cons in HS as [? _].
  - apply Forall_app in HS as [_ HS]. by apply Forall_cons in HS as [? _].
Qed.

Section Tick.
Context {U : Unicode} {R : RegexEngine} {RO : RangeOrder} {GT : GoTime} {GF : GoTimeFormat} {TJ : TickJSON}.
Context {E W : Type} (env : pollEnv E W) (cfg : pollConfig).
Abbreviation T := (TM W).
Abbreviation tickResult' := (tickResult (E := E)).

(** What the mail server and the account's hash look like: UIDs are machine
    integers, UIDVALIDITY is a number, the hash is hexadecimal. *)
Class PollLaws : Prop := {
  unseen_range w l w' : eUnseen _ _ env w = (Ok l, w') -> Forall (fun u => u <= int64Max)%Z l;
  validity_decimal w v w' : eNamespace _ _ env w = (Ok (Some v), w') -> v <> [] /\ Forall (fun c => isDecimal c = true) v;
  hash_no_colon : 58%Z ∉ eHash _ _ env;
}.

(** ** Reading a computation backwards *)

Lemma bindT {A B} (m : T A) (f : A -> T B) s b s' : (m ≫= f) s = (b, s') -> exists a s1, m s = (a, s1) /\ f a s1 = (b, s').
Proof. unfold mbind, TM_bind. destruct (m s) as [a s1]. eauto. Qed.
Lemma tryT_ok {Er A B} (m : T (res Er A)) (f : A -> T (res Er B)) s b s' : tryT m f s = (Ok b, s') -> exists a s1, m s = (Ok a, s1) /\ f a s1 = (Ok b, s').
Proof. unfold tryT. intros (r & s1 & Hr & H)%bindT. destruct r as [a|e]; [eauto|done]. Qed.
Lemma retT {A} (a b : A) (s s' : tickState W) : mret (M := TM W) a s = (b, s') -> b = a /\ s' = s.
Proof. by intros [= <- <-]. Qed.
Lemma okT_ok {Er A} (a : A) (r : res Er A) (s s' : tickState W) : okT a s = (r, s') -> r = Ok a /\ s' = s.
Proof. by intros [= <- <-]. Qed.
Lemma lift_ok {A} (m : T (res E A)) s a s' : lift m s = (Ok a, s') -> m s = (Ok a, s').
Proof. unfold lift. intros (r & s1 & Hr & H)%bindT. apply retT in H as [H ->]. destruct r; [|done]. by injection H as ->. Qed.
Lemma world_ok {A} (f : W -> A * W) (s : tickState W) a s' : ask f s = (a, s') -> exists w w', f w = (a, w').
Proof. unfold ask. destruct (f (tsWorld s)) as [x w] eqn:Ef. intros [= <- <-]. eauto. Qed.

Ltac t_step :=
  match goal with
  | H : (_ ≫= _) _ = (_, _) |- _ => apply bindT in H as (? & ? & ? & H)
  | H : tryT _ _ _ = (Ok _, _) |- _ => apply tryT_ok in H as (? & ? & ? & H)
  | H : mret _ _ = (_, _) |- _ => apply retT in H as [? ?]
  | H : okT _ _ = (_, _) |- _ => apply okT_ok in H as [? ?]
  | H : errT _ _ = (Ok _, _) |- _ => discriminate H
  | H : lift _ _ = (Ok _, _) |- _ => apply lift_ok in H
  end.

(** ** Fetching *)

(** The server answered a fetch of [u] without it. *)
Definition omitted (u : Z) : Prop := exists batch w found w', eEmails _ _ env batch w = (Ok found, w') /\ u ∈ batch /\ found !! u = None.
Definition covers (uids : list Z) (msgs : list mailMsg) : Prop :=
  (forall u, u ∈ uids -> (exists m, m ∈ msgs /\ mgID m = formatInt u) \/ omitted u) /\ (forall m, m ∈ msgs -> exists u, u ∈ uids /\ mgID m = formatInt u).
Lemma covers_app u1 u2 m1 m2 : covers u1 m1 -> covers u2 m2 -> covers (u1 ++ u2) (m1 ++ m2).
Proof.
  intros [A1 B1] [A2 B2]. split.
  - intros u [H|H]%elem_of_app; [destruct (A1 u H) as [(m & Hm & ?)|?]|destruct (A2 u H) as [(m & Hm & ?)|?]]; try (by right); left; exists m; (split; [set_solver|done]).
  - intros m [H|H]%elem_of_app; [destruct (B1 m H) as (u & ? & ?)|destruct (B2 m H) as (u & ? & ?)]; exists u; (split; [set_solver|done]).
Qed.
Lemma covers_perm u1 u2 m : (forall u, u ∈ u1 <-> u ∈ u2) -> covers u1 m -> covers u2 m.
Proof. intros H [A B]. split; [intros u Hu; by apply A, H|]. intros x Hx. destruct (B x Hx) as (u & ? & ?). exists u. split; [by apply H|done]. Qed.
Lemma covers_nil : covers [] [].
Proof. split; intros ? Hx; by apply elem_of_nil in Hx. Qed.
Lemma overview_id u e l : mgID (overview u e l) = formatInt u.
Proof. by destruct e. Qed.

Lemma largeMsgs_covers uids found s ms s' : largeMsgs env uids found s = (Ok ms, s') -> covers uids ms.
Proof.
  revert s ms s'. induction uids as [|u uids IH]; intros s ms s' H; simpl in H.
  - t_step. simplify_eq. split; intros ? Hx; by apply elem_of_nil in Hx.
  - repeat t_step. simplify_eq. apply (covers_app [u] uids [_]); [|by eapply IH]. split.
    + intros u' ->%list_elem_of_singleton. left. eexists. split; [by apply list_elem_of_singleton|first [done|apply overview_id]].
    + intros m ->%list_elem_of_singleton. exists u. split; [by apply list_elem_of_singleton|first [done|apply overview_id]].
Qed.
Lemma normalMsgs_covers uids found s p s' : (forall u, u ∈ uids -> found !! u = None -> omitted u) -> normalMsgs env uids found s = (Ok p, s') -> covers uids p.1.
Proof.
  revert s p s'. induction uids as [|u uids IH]; intros s p s' Ho H; simpl in H.
  - t_step. simplify_eq. split; intros ? Hx; by apply elem_of_nil in Hx.
  - repeat t_step. match goal with H : normalMsgs _ _ _ _ = (Ok ?p0, _) |- _ => rename p0 into q; apply IH in H as Hq; [|set_solver] end.
    destruct (found !! u) as [e|] eqn:Eu; t_step; simplify_eq/=.
    + apply (covers_app [u] uids [_]); [|done]. split.
      * intros u' ->%list_elem_of_singleton. left. eexists. split; [by apply list_elem_of_singleton|first [done|apply overview_id]].
      * intros m ->%list_elem_of_singleton. exists u. split; [by apply list_elem_of_singleton|done].
    + apply (covers_app [u] uids []); [|done]. split; [|intros ? Hx; by apply elem_of_nil in Hx]. intros u' ->%list_elem_of_singleton. right. apply Ho; [left|done].
Qed.

Lemma maxZ_spec l m : (m <= maxZ l m)%Z /\ (forall u, u ∈ l -> u <= maxZ l m)%Z /\ (maxZ l m = m \/ maxZ l m ∈ l).
Proof.
  unfold maxZ. induction l as [|x l (H1 & H2 & H3)]; simpl; [split_and!; [lia|intros u H; by apply elem_of_nil in H|by left]|].
  split_and!; [lia|intros u [->|H]%elem_of_cons; [lia|specialize (H2 u H); lia]|].
  destruct (Z.max_spec x (foldr Z.max m l)) as [[_ ->]|[_ ->]]; [destruct H3 as [H3|H3]; [by left|right; by right]|right; left].
Qed.
Lemma fetchPage_covers uids over s p s' : fetchUnreadPage env uids over s = (Ok p, s') -> covers uids p.1.1 /\ (forall u, u ∈ uids -> u <= p.2)%Z /\ (p.2 = 0%Z \/ p.2 ∈ uids).
Proof.
  unfold fetchUnreadPage, partitionUIDsBySize. set (toFetch := List.filter (fun u => negb (bool_decide (u ∈ over))) uids). set (tooLarge := List.filter (fun u => bool_decide (u ∈ over)) uids). intros H.
  assert (forall u, u ∈ tooLarge ++ toFetch <-> u ∈ uids) as Hpart.
  { intros u. rewrite elem_of_app. unfold toFetch, tooLarge. rewrite !list_elem_of_In, !filter_In. rewrite <- list_elem_of_In. destruct (bool_decide (u ∈ over)); simpl; naive_solver. }
  apply tryT_ok in H as (large & s1 & Hl & H). apply tryT_ok in H as (emails & s2 & He & H). apply tryT_ok in H as (q & s3 & Hn & H). apply okT_ok in H as [H ->]. assert (p = (large ++ q.1, q.2, maxZ toFetch (maxZ tooLarge 0))) as -> by congruence. simpl.
  assert (covers tooLarge large) as HL.
  { destruct (decide (tooLarge = [])) as [El|El]; [rewrite bool_decide_true in Hl by done; apply okT_ok in Hl as [Hl ->]; injection Hl as ->; rewrite El; split; intros ? Hx; by apply elem_of_nil in Hx|].
    rewrite bool_decide_false in Hl by done. apply tryT_ok in Hl as (found & s4 & _ & Hl). by eapply largeMsgs_covers. }
  assert (covers toFetch q.1) as HN.
  { eapply normalMsgs_covers; [|exact Hn]. intros u Hu Hnone. rewrite bool_decide_false in He by (intros Ef; rewrite Ef in Hu; by apply elem_of_nil in Hu).
    apply lift_ok, world_ok in He as (w & w' & He). exists toFetch, w, emails, w'. done. }
  split; [|split].
  - eapply covers_perm; [exact Hpart|]. by apply covers_app.
  - intros u Hu%Hpart. destruct (maxZ_spec toFetch (maxZ tooLarge 0)) as (H1 & H2 & _). destruct (maxZ_spec tooLarge 0) as (_ & H3 & _). apply elem_of_app in Hu as [Hu|Hu]; [specialize (H3 u Hu); lia|by apply H2].
  - destruct (maxZ_spec toFetch (maxZ tooLarge 0)) as (_ & _ & [->|H9]); [|right; apply Hpart; set_solver]. destruct (maxZ_spec tooLarge 0) as (_ & _ & [->|H9]); [by left|right; apply Hpart; set_solver].
Qed.

Lemma collect_covers fuel uids out mx bytes over s r s' : (length uids <= fuel)%nat -> (0 <= mx)%Z -> (forall u, u ∈ uids -> mx <= u)%Z -> StronglySorted Z.le uids ->
  collectUnreadPages env fuel uids out mx bytes (fun page => fetchUnreadPage env page over) s = (Ok r, s') ->
  exists pre post new, uids = pre ++ post /\ r.1 = out ++ new /\ covers pre new /\ (mx <= r.2)%Z /\ (forall u, u ∈ pre -> u <= r.2)%Z /\ (r.2 = mx \/ r.2 ∈ pre).
Proof.
  revert uids out mx bytes s. induction fuel as [|fuel IH]; intros uids out mx bytes s Hf Hm Hall Hsort H.
  - destruct uids; [|simpl in Hf; lia]. simpl in H. t_step. simplify_eq/=. exists [], [], []. rewrite (app_nil_r out). do 2 (split; [done|]). split; [apply covers_nil|]. split; [done|]. split; [intros ? Hx; by apply elem_of_nil in Hx|by left].
  - destruct uids as [|u uids].
    { simpl in H. t_step. simplify_eq/=. exists [], [], []. rewrite (app_nil_r out). do 2 (split; [done|]). split; [apply covers_nil|]. split; [done|]. split; [intros ? Hx; by apply elem_of_nil in Hx|by left]. }
    cbn [collectUnreadPages] in H. set (l := u :: uids) in *. apply tryT_ok in H as (? & s1 & _ & H). apply tryT_ok in H as ([[page pb] pm] & s2 & Hp & H). cbv beta iota zeta in H.
    apply fetchPage_covers in Hp as (Hc & Hle & Hin). simpl in Hc, Hle, Hin.
    assert (u ∈ take unreadFetchPageSize l) as Hu by (unfold l, unreadFetchPageSize; simpl; left). pose proof (Hall u ltac:(left)) as Hmu. specialize (Hle u Hu) as Hup.
    destruct (_ || _).
    + t_step. simplify_eq. exists (take unreadFetchPageSize l), (drop unreadFetchPageSize l), page. simpl. rewrite take_drop. do 2 (split; [done|]). split; [done|]. split; [lia|]. split; [intros v Hv; specialize (Hle v Hv); lia|].
      destruct Hin as [->|Hin]; [left; lia|right]. by rewrite Z.max_l by lia.
    + apply IH in H as (pre & post & new & Hd & Hr & Hcn & Hm2 & Hle2 & Hin2).
      * exists (take unreadFetchPageSize l ++ pre), post, (page ++ new). split; [|split; [|split; [|split; [|split]]]].
        -- rewrite <- app_assoc, <- Hd. by rewrite take_drop.
        -- by rewrite Hr, app_assoc.
        -- by apply covers_app.
        -- lia.
        -- intros v [Hv|Hv]%elem_of_app; [specialize (Hle v Hv); lia|by apply Hle2].
        -- destruct Hin2 as [->|Hin2]; [|right; set_solver]. destruct Hin as [->|Hin]; [left; lia|right]. rewrite Z.max_l by lia. set_solver.
      * unfold l, unreadFetchPageSize. rewrite length_drop. simpl in *. lia.
      * lia.
      * intros v Hx. rewrite <- (take_drop unreadFetchPageSize l) in Hsort. specialize (Hall v). rewrite <- (take_drop unreadFetchPageSize l) in Hall. specialize (Hall ltac:(set_solver)).
        destruct Hin as [->|Hin]; [lia|]. pose proof (StronglySorted_app_1_elem_of _ _ _ _ _ Hsort Hin Hx). lia.
      * rewrite <- (take_drop unreadFetchPageSize l) in Hsort. by apply StronglySorted_app_1_r in Hsort.
Qed.

(** The UID behind which a fetch started. *)
Definition startOf (cp next : gostr) : Z := match UIDNamespaceReset cp next with Some _ => 0%Z | None => (parseCheckpoint cp).2 end.
Definition endOf (next : gostr) : Z := (parseCheckpoint next).2.
Lemma maxZ_bound l m b : (m <= b)%Z -> Forall (fun u => u <= b)%Z l -> (maxZ l m <= b)%Z.
Proof. intros Hm. induction 1; simpl; lia. Qed.
Lemma namespace_ok {L : PollLaws} w status w' : eNamespace _ _ env w = (Ok status, w') -> namespaceOK (pollNamespace status (eHash _ _ env)).
Proof.
  intros H. destruct status as [v|]; [|split; [apply not_elem_of_nil|done]]. apply validity_decimal in H as [Hv HD]. unfold pollNamespace. split.
  - rewrite !not_elem_of_app. split_and!.
    + intros Hin. rewrite Forall_forall in HD. by specialize (HD _ Hin).
    + intros Hx%list_elem_of_singleton. done.
    + intros Hin%elem_of_take. apply hash_no_colon. destruct Hin as (i & Hi & _). by eapply list_elem_of_lookup_2.
  - destruct v as [|c v]; [done|]. simpl. apply Forall_cons in HD as [Hc _]. unfold isDecimal in Hc. unfold isSpace. by replace (_ || _) with false by lia.
Qed.

(** Every message the server reported unread between the checkpoint a fetch
    started from and the one it answers was handed over or left out by the server
    itself, and it hands over no other: whatever the size and number budgets, the
    oversized messages and the order of the answer. *)
Lemma fetch_covers {L : PollLaws} cp msgs next s s' : ListUnreadInbox env cp s = (Ok (msgs, next), s') ->
  exists uids w w', eUnseen _ _ env w = (Ok uids, w') /\ (startOf cp next <= endOf next)%Z /\
    (forall u, u ∈ uids -> (startOf cp next < u <= endOf next)%Z -> (exists m, m ∈ msgs /\ mgID m = formatInt u) \/ omitted u) /\
    (forall m, m ∈ msgs -> exists u, u ∈ uids /\ (startOf cp next < u <= endOf next)%Z /\ mgID m = formatInt u).
Proof.
  intros H. unfold ListUnreadInbox in H. apply tryT_ok in H as (? & s1 & _ & H). apply tryT_ok in H as (status & s2 & Hst & H). apply lift_ok, world_ok in Hst as (w0 & w0' & Hst).
  apply namespace_ok in Hst as HN. set (ns0 := pollNamespace status (eHash _ _ env)) in *. destruct (parse_ok cp) as [HP HPu]. unfold startOf. destruct (parseCheckpoint cp) as [prevNS prevUID] eqn:EP. simpl in HP, HPu.
  set (p := if ns0 =s? [] then (prevNS, prevUID) else _) in H. assert (namespaceOK p.1 /\ (0 <= p.2 <= int64Max)%Z /\ forall u, (0 <= u <= int64Max)%Z -> match UIDNamespaceReset cp (formatCheckpoint p.1 u) with Some _ => 0%Z | None => prevUID end = p.2) as (Hns & Hmin & Hstart).
  { unfold p, UIDNamespaceReset. rewrite EP. destruct (ns0 =s? []) eqn:E0; [|destruct (negb (prevNS =s? []) && negb (ns0 =s? prevNS)) eqn:E1]; simpl; (split; [done|split; [first [done|unfold int64Max; lia]|]]); intros u Hu; rewrite parse_format by done; simpl.
    - destruct (prevNS =s? []); simpl; [done|]. by rewrite bool_decide_true.
    - apply andb_true_iff in E1 as [E1 E2]. apply negb_true_iff in E1, E2. rewrite E1, E0. simpl. apply bool_decide_eq_false in E2. by rewrite bool_decide_false by congruence.
    - rewrite E0, orb_false_r. destruct (prevNS =s? []); simpl in *; [done|]. apply negb_false_iff, bool_decide_eq_true in E1. by rewrite bool_decide_true. }
  destruct p as [ns minUID]. simpl in *. apply tryT_ok in H as (uids & s3 & Hu & H). apply lift_ok, world_ok in Hu as (w & w' & Hu). exists uids, w, w'. split; [done|].
  set (filtered := sortStable Z.ltb _) in H. assert (forall u, u ∈ filtered <-> u ∈ uids /\ (minUID < u)%Z) as Hfil.
  { intros u. unfold filtered. rewrite sortStable_perm. rewrite !list_elem_of_In, filter_In. by rewrite Z.ltb_lt. }
  assert (forall u, u ∈ uids -> (u <= int64Max)%Z) as Hmax by (apply unseen_range in Hu; rewrite Forall_forall in Hu; done).
  assert (StronglySorted Z.le filtered) as Hsort. { apply Sorted_StronglySorted; [intros ???; lia|]. eapply Sorted_weaken; [|apply sortStable_sorted; intros; lia]. intros a b Hab. simpl in Hab. lia. }
  case_bool_decide as Ef.
  - apply okT_ok in H as [H ->]. injection H as -> ->. rewrite (Hstart minUID) by done. unfold endOf. rewrite parse_format by done. simpl. split; [lia|]. split; [intros u _ ?; lia|]. intros m Hm. by apply elem_of_nil in Hm.
  - apply tryT_ok in H as (over & s4 & _ & H). apply tryT_ok in H as ([out mx] & s5 & Hc & H). apply okT_ok in H as [H ->]. injection H as -> ->.
    apply collect_covers in Hc as (pre & post & new & Hpp & Hout & [Hcov1 Hcov2] & Hmx & Hle & Hin); [|done|lia|intros u Hu'%Hfil; lia|done].
    simpl in *. subst out. assert (0 <= mx <= int64Max)%Z as Hmxb by (destruct Hin as [->|Hin]; [lia|]; assert (mx ∈ filtered) as [Hm1 Hm2]%Hfil by (rewrite Hpp; set_solver); specialize (Hmax _ Hm1); lia).
    assert ((if (minUID <? mx)%Z then formatCheckpoint ns mx else formatCheckpoint ns minUID) = formatCheckpoint ns mx) as -> by (destruct (Z.ltb_spec minUID mx); [done|f_equal; lia]).
    rewrite (Hstart mx) by done. unfold endOf. rewrite parse_format by done. simpl. split; [lia|]. split.
    + intros u Hu' [Hlo Hhi]. apply Hcov1. assert (u ∈ filtered) as Hf by (by apply Hfil). rewrite Hpp in Hf. apply elem_of_app in Hf as [Hf|Hf]; [done|].
      destruct Hin as [->|Hin]; [lia|]. rewrite Hpp in Hsort. pose proof (StronglySorted_app_1_elem_of _ _ _ _ _ Hsort Hin Hf). by replace u with mx by lia.
    + intros m Hm. destruct (Hcov2 m Hm) as (u & Hu1 & Hu2). exists u. assert (u ∈ filtered) as [Hf1 Hf2]%Hfil by (rewrite Hpp; set_solver). specialize (Hle u Hu1). split; [done|]. split; [lia|done].
Qed.
End Tick.
