(* ===== verification/PollerTheorems.v ===== *)
(** * PollerTheorems: what a tick does to a mailbox's mail

    [no_mail_passed_over]: the checkpoint a tick commits leaves no unread message
    behind, whatever the server, the classifier, the database and shutdown do.
    [label_recorded_after_applied]: a label is on record only once the server has it.
    [failing_mail_retired]: a message that keeps failing is settled in the end.
    [rate_limit_holds]: the classifier's budget. *)

From S2P Require Import Prelude GoText GoCodec RulesModel RulesPattern RulesEngine RulesApply FileStore Contacts Transaction StateTables AccountState Poller PollerFetch.

Section Tick.
Context {U : Unicode} {R : RegexEngine} {RO : RangeOrder} {GT : GoTime} {GF : GoTimeFormat} {TJ : TickJSON}.
Context {E W : Type} (env : pollEnv E W) (cfg : pollConfig).
Abbreviation T := (TM W).
Abbreviation tickResult' := (tickResult (E := E)).

(** ** What every part of a tick keeps *)

Definition isProcessed (id : gostr) (a : account) : Prop := is_Some (acProcessed a !! id).
Definition cpOf (a : account) : gostr := metaOf metaCheckpoint a.
(** Nothing is forgotten, the checkpoint stands. *)
Definition grown (a a' : account) : Prop := (forall id, isProcessed id a -> isProcessed id a') /\ cpOf a' = cpOf a.
Definition Fr (s s' : tickState W) : Prop := grown (tsAccount s) (tsAccount s') /\ tsTrace s `prefix_of` tsTrace s'.
Lemma grown_refl a : grown a a.
Proof. by split. Qed.
Lemma grown_trans a b c : grown a b -> grown b c -> grown a c.
Proof. intros [H1 H2] [H3 H4]. split; [auto|congruence]. Qed.
Lemma Fr_refl s : Fr s s.
Proof. split; [apply grown_refl|done]. Qed.
Lemma Fr_trans s1 s2 s3 : Fr s1 s2 -> Fr s2 s3 -> Fr s1 s3.
Proof. intros [H1 H2] [H3 H4]. split; [by eapply grown_trans|by etrans]. Qed.

Lemma keeps_exec_grown a0 (f : account -> account) : (forall a, grown a (f a)) -> keeps (E := stErr) (grown a0) (exec f).
Proof. intros H a Ha. apply wp_exec. by eapply grown_trans. Qed.
Lemma setMeta_grown a0 k v : k <> metaCheckpoint -> keeps (grown a0) (setMeta k v).
Proof. intros H. apply keeps_exec_grown. intros a. split; [done|]. unfold cpOf, metaOf. simpl. by rewrite lookup_insert_ne. Qed.
Lemma markProcessed_grown a0 id t : keeps (grown a0) (AccountState.markProcessed id t).
Proof. apply keeps_exec_grown. intros a. split; [|done]. intros i Hi. unfold isProcessed in *. simpl. destruct (decide (i = id)) as [->|]; [by rewrite lookup_insert, decide_True|by rewrite lookup_insert_ne]. Qed.
Hint Resolve markProcessed_grown : mbkeeps.
Hint Extern 1 (keeps (grown _) (setMeta _ _)) => apply setMeta_grown; discriminate : mbkeeps.
Hint Extern 1 (keeps (grown _) (exec _)) => apply keeps_exec_grown; intros; split; [exact (fun _ H => H)|reflexivity] : mbkeeps.
Hint Extern 1 (keeps (grown _) (metaString _)) => apply keeps_select : mbkeeps.
Lemma settleTx_grown a0 d t : keeps (grown a0) (recordProcessedDecision d t).
Proof. unfold recordProcessedDecision, insertDecision, dropDeferral. walk. Qed.
Lemma addDecision_grown a0 d t : keeps (grown a0) (addDecision d t).
Proof. unfold addDecision, insertDecision. walk. Qed.
Lemma deferralTx_grown a0 id t : keeps (grown a0) (recordDeferral id t).
Proof. unfold recordDeferral. walk. Qed.
Lemma predictionTx_grown a0 id c m v l t : keeps (grown a0) (recordSorterPrediction id c m v l t).
Proof. unfold recordSorterPrediction. walk. Qed.
Lemma tickTx_grown a0 p t : keeps (grown a0) (recordPollTick p t).
Proof. unfold recordPollTick. walk. Qed.
Lemma selectTx_grown {A} a0 (q : account -> A) : keeps (E := stErr) (grown a0) (select q).
Proof. apply keeps_select. Qed.

Definition framed {A} (m : T A) : Prop := forall s, Fr s (m s).2.
Lemma framed_ret {A} (a : A) : framed (mret a).
Proof. intros s. apply Fr_refl. Qed.
Lemma framed_bind {A B} (m : T A) (f : A -> T B) : framed m -> (forall a, framed (f a)) -> framed (m ≫= f).
Proof. intros Hm Hf s. unfold mbind, TM_bind. specialize (Hm s). destruct (m s) as [a s1]. eapply Fr_trans; [done|apply Hf]. Qed.
Lemma framed_try {Er A B} (m : T (res Er A)) (f : A -> T (res Er B)) : framed m -> (forall a, framed (f a)) -> framed (tryT m f).
Proof. intros Hm Hf. apply framed_bind; [done|]. intros [a|e]; [apply Hf|apply framed_ret]. Qed.
Lemma framed_world {A} (f : W -> A * W) : framed (ask f).
Proof. intros s. unfold ask. destruct (f (tsWorld s)). split; [apply grown_refl|done]. Qed.
Lemma framed_emit e : framed (emit e).
Proof. intros s. split; [apply grown_refl|]. by eexists. Qed.
Lemma framed_onRate {A} (f : list Z -> A * list Z) : framed (onRate f).
Proof. intros s. unfold onRate. destruct (f (tsRate s)). split; [apply grown_refl|done]. Qed.
Lemma framed_onGlobal {A} (f : account -> A * account) : framed (onGlobal f).
Proof. intros s. unfold onGlobal. destruct (f (tsGlobal s)). split; [apply grown_refl|done]. Qed.
Lemma framed_commit {A} up (m : AS A) : (forall a0, keeps (grown a0) m) -> framed (onAccount (commit ErrDB up m)).
Proof.
  intros H s. unfold onAccount. pose proof (keeps_commit (grown (tsAccount s)) ErrDB up m (tsAccount s) (H _) (grown_refl _)) as HK.
  destruct (commit ErrDB up m (tsAccount s)) as [r a]. split; [done|done].
Qed.
Lemma framed_clock : framed (nowUnix env).
Proof. unfold nowUnix, now. apply framed_bind; [apply framed_world|]. intros. apply framed_ret. Qed.
Lemma framed_store {A} (m : Z -> AS A) : (forall a0 t, keeps (grown a0) (m t)) -> framed (storeTx env m).
Proof. intros H. unfold storeTx. apply framed_bind; [apply framed_clock|]. intros t. apply framed_bind; [apply framed_world|]. intros up. by apply framed_commit. Qed.
Lemma framed_global {A} (m : Z -> AS A) : framed (globalTx env m).
Proof. unfold globalTx. apply framed_bind; [apply framed_clock|]. intros t. apply framed_bind; [apply framed_world|]. intros up. apply framed_onGlobal. Qed.
Lemma framed_retryLoop {Er A} (wt : Z -> T bool) (ended : Er) bo (fn : nat -> T (res Er A * bool)) n k r : (forall z, framed (wt z)) -> (forall k, framed (fn k)) -> framed (retryLoop wt ended bo fn n k r).
Proof.
  intros Hw Hf. revert k r. induction n as [|n IH]; intros k r; simpl; [apply framed_ret|]. apply framed_bind; [apply Hf|]. intros [x again].
  destruct (negb again); [apply framed_ret|]. destruct n; [apply framed_ret|]. apply framed_bind; [apply Hw|]. intros []; [apply framed_ret|apply IH].
Qed.
Lemma framed_retry {Er A} (wt : Z -> T bool) (ended refused : Er) n bo (fn : nat -> T (res Er A * bool)) : (forall z, framed (wt z)) -> (forall k, framed (fn k)) -> framed (retry wt ended refused n bo fn).
Proof. intros Hw Hf. unfold retry. destruct (n <=? 0)%Z; [apply framed_ret|by apply framed_retryLoop]. Qed.
Lemma framed_okT {Er A} (a : A) : framed (okT (E := Er) a).
Proof. apply framed_ret. Qed.
Lemma framed_errT {Er A} (e : Er) : framed (errT (A := A) e).
Proof. apply framed_ret. Qed.
Lemma framed_write ev m : (forall a0 t, keeps (grown a0) (m t)) -> framed (storeWrite env ev m).
Proof. intros H. unfold storeWrite. apply framed_bind; [by apply framed_store|]. intros r. apply framed_bind; [apply framed_emit|]. intros. apply framed_ret. Qed.
Lemma framed_settle d : framed (settleRow env d).
Proof. apply framed_write. intros. apply settleTx_grown. Qed.
Lemma framed_log d : framed (logDecision env d).
Proof. apply framed_write. intros. apply addDecision_grown. Qed.
Lemma framed_retryable {A} (m : T (res stErr A)) : framed m -> framed (retryable (E := E) m).
Proof. intros H. apply framed_bind; [done|]. intros. apply framed_ret. Qed.

Hint Resolve framed_ret framed_okT framed_errT framed_world framed_emit framed_onRate framed_onGlobal framed_global framed_settle framed_log settleTx_grown addDecision_grown deferralTx_grown predictionTx_grown tickTx_grown selectTx_grown : mbkeeps.
Ltac fwalk := repeat first
  [ solve [eauto 2 with mbkeeps]
  | apply framed_store; intros ? ? | apply framed_write; intros ? ?
  | match goal with |- keeps _ _ => walk end
  | apply framed_bind; [|intros ?] | apply framed_try; [|intros ?] | apply framed_retryable | apply framed_retry; intros ? 
  | match goal with |- framed (match ?x with _ => _ end) => destruct x end
  | match goal with |- framed (let '(_, _) := ?x in _) => destruct x end
  | progress cbv zeta ].
Lemma framed_notify uc msg l ks : framed (notify env uc msg l ks).
Proof. unfold notify, maybeSend. fwalk. Qed.
Lemma framed_keywords id ks : framed (applyKeywordsWithRetry env id ks).
Proof. unfold applySingleKeywordWithRetry, wait. induction ks as [|k ks IH]; simpl; unfold applySingleKeywordWithRetry, wait; fwalk. Qed.
Hint Resolve framed_notify framed_keywords : mbkeeps.
Lemma framed_tag uc msg l reason : framed (tagWithLabel env uc msg l reason).
Proof. unfold tagWithLabel. fwalk. Qed.
Hint Resolve framed_tag : mbkeeps.
Lemma framed_fallback uc msg reason : framed (tagWithFallbackLabel env uc msg reason).
Proof. unfold tagWithFallbackLabel. fwalk. Qed.
Lemma framed_remember uc msg g l : framed (rememberPrediction env uc msg g l).
Proof. unfold rememberPrediction. fwalk. Qed.
Lemma framed_classify uc msg l : framed (classifyMessage env cfg uc msg l).
Proof. unfold classifyMessage, classifyWithRetry, clearAICredits, flagAICreditsExhausted, wait. fwalk. Qed.
Lemma framed_rules uc msg : framed (applyFilterRules env uc msg).
Proof. unfold applyFilterRules. fwalk. Qed.
Lemma framed_reject msg : framed (rejectOversizedMessage env msg).
Proof. unfold rejectOversizedMessage. fwalk. Qed.
Hint Resolve framed_fallback framed_remember framed_classify framed_rules framed_reject : mbkeeps.
Lemma framed_handle uc msg : ucEncrypt uc = false -> framed (handleMessage env cfg uc msg).
Proof. intros He. unfold handleMessage. rewrite He. simpl. fwalk. Qed.
Lemma framed_failure uc msg e b : framed (recordMessageFailure env uc msg e b).
Proof. unfold recordMessageFailure. fwalk. Qed.
Hint Resolve framed_failure : mbkeeps.
Lemma framed_settleFailure uc msg e r : framed (settleFailure env uc msg e r).
Proof. unfold settleFailure. fwalk. Qed.
Lemma framed_before uc msg : framed (beforeMessage env uc msg).
Proof. unfold beforeMessage. fwalk. Qed.
Lemma framed_allow : framed (allowT env cfg).
Proof. unfold allowT, now. fwalk. Qed.

(** ** What becomes of each message *)

(** Processed, or its retirement row was refused by the database. *)
Definition Settled (id : gostr) (s : tickState W) : Prop :=
  isProcessed id (tsAccount s) \/ exists d, EvSettled d false ∈ tsTrace s /\ dcMessage d = id /\ dcStatus d = statusFailed.
Lemma Settled_Fr id s s' : Fr s s' -> Settled id s -> Settled id s'.
Proof. intros [[H1 _] [t Ht]] [H|(d & H & Hd)]; [left; auto|right; exists d; split; [|done]]. rewrite Ht. set_solver. Qed.

(** [ends m Q]: however [m] goes, [Q] holds of its answer and the state it leaves. *)
Definition ends {A} (m : T A) (Q : A -> tickState W -> Prop) : Prop := forall s, Q (m s).1 (m s).2.
Lemma ends_bind {A B} (m : T A) (f : A -> T B) Q P : ends m P -> (forall a s, P a s -> Q (f a s).1 (f a s).2) -> ends (m ≫= f) Q.
Proof. intros Hm Hf s. unfold mbind, TM_bind. specialize (Hm s). destruct (m s) as [a s1]. by apply Hf. Qed.
Lemma ends_after {A B} (m : T A) (f : A -> T B) Q : (forall a, ends (f a) Q) -> ends (m ≫= f) Q.
Proof. intros Hf. apply (ends_bind _ _ _ (fun _ _ => True)); [done|]. intros a s _. apply Hf. Qed.
(** On success the message is on record as processed. *)
Definition recorded {Er A} (id : gostr) (r : res Er A) (s : tickState W) : Prop := match r with Ok _ => isProcessed id (tsAccount s) | Err _ => True end.
Lemma recorded_after {Er A B} id (m : T (res Er A)) (f : A -> T (res Er B)) : (forall a, ends (f a) (recorded id)) -> ends (tryT m f) (recorded id).
Proof. intros H. apply ends_after. intros [a|e]; [apply H|done]. Qed.
Lemma recorded_then {Er A B} id (m : T (res Er A)) (f : A -> T (res Er B)) : ends m (recorded id) -> (forall a, framed (f a)) -> ends (tryT m f) (recorded id).
Proof.
  intros Hm Hf. apply (ends_bind _ _ _ (recorded id)); [done|]. intros [a|e] s Hr; [|done]. destruct (Hf a s) as [[H _] _]. destruct (f a s) as [[b|e] s']; simpl in *; [by apply H|done].
Qed.
Lemma recorded_err {Er A} id (e : Er) : ends (errT (A := A) e) (recorded id).
Proof. done. Qed.

Lemma settleRow_spec d : ends (settleRow env d) (fun r s => match r with Ok _ => isProcessed (dcMessage d) (tsAccount s) | Err _ => EvSettled d false ∈ tsTrace s end).
Proof.
  intros s. unfold settleRow, storeWrite, storeTx, nowUnix, now, ask, onAccount, emit, mbind, TM_bind, mret, TM_ret. destruct (eNow _ _ env (tsWorld s)) as [t w]. simpl. destruct (eDB _ _ env w) as [up w2]. simpl.
  unfold commit. destruct up; simpl; [|set_solver]. unfold isProcessed. simpl. by rewrite lookup_insert, decide_True.
Qed.
Lemma recorded_settle d : ends (retryable (E := E) (settleRow env d)) (recorded (dcMessage d)).
Proof. eapply ends_bind; [apply settleRow_spec|]. intros [[]|e] s H; [exact H|done]. Qed.
Lemma recorded_tag uc msg l reason : ends (tagWithLabel env uc msg l reason) (recorded (mgID msg)).
Proof.
  apply ends_after. intros [u|e]; [|done]. apply (recorded_then (mgID msg)); [apply (recorded_settle (decisionOf msg _ _ _))|]. intros _. fwalk.
Qed.
Lemma recorded_rules uc msg : ends (applyFilterRules env uc msg) (fun r s => match r with Ok true => isProcessed (mgID msg) (tsAccount s) | _ => True end).
Proof.
  unfold applyFilterRules. apply ends_after; intros ctx. apply ends_after; intros patterns. destruct (evaluate _ _ _ _ _) as [outcome st]. case_bool_decide; [done|].
  apply ends_after; intros results. destruct (negb _); [done|]. destruct (negb (Stopped outcome)); [apply ends_after; intros [?|?]; done|].
  intros s. set (m := tryT _ _). assert (ends m (recorded (mgID msg))) as Hm by (apply recorded_then; [apply (recorded_settle (decisionOf msg _ _ _))|intros; fwalk]).
  specialize (Hm s). destruct (m s) as [[[]|e] s']; done.
Qed.
Lemma recorded_handle uc msg : ucEncrypt uc = false -> ends (handleMessage env cfg uc msg) (recorded (mgID msg)).
Proof.
  intros He. unfold handleMessage. rewrite He. simpl. destruct (mgParseError msg); [done|]. destruct (mgTooLarge msg).
  - unfold rejectOversizedMessage. apply ends_after; intros r. eapply ends_bind; [apply settleRow_spec|]. intros [u|e] s H; [exact H|done].
  - eapply ends_bind; [apply recorded_rules|]. intros [[]|e] s Hr; [exact Hr| |done]. clear Hr. cbv beta iota. match goal with |- recorded _ (?m s).1 _ => enough (ends m (recorded (mgID msg))) as Hm by exact (Hm s) end. cbv beta iota.
    destruct (negb _); [apply recorded_tag|]. destruct (mgEncrypted msg); [apply recorded_tag|]. cbv zeta. destruct (negb (_ =s? _)).
    + apply recorded_then; [apply recorded_tag|]. intros _. fwalk.
    + apply recorded_after. intros [selected detail]. destruct (_ && _).
      * apply recorded_then; [apply (recorded_settle (decisionOf msg _ _ _))|]. intros _. fwalk.
      * apply ends_after. intros [u|e]; [|done]. apply recorded_then; [apply (recorded_settle (decisionOf msg _ _ _))|]. intros _. fwalk.
Qed.

Lemma settled_retire uc msg e : ends (recordMessageFailure env uc msg e true) (fun _ s => Settled (mgID msg) s).
Proof.
  unfold recordMessageFailure. eapply ends_bind; [apply settleRow_spec|]. intros r s Hr. eapply Settled_Fr; [apply (framed_notify uc msg [] [])|].
  destruct r; [by left|right]. eexists. split; [exact Hr|done].
Qed.
(** What the failure of a message leaves: it is deferred, or settled. *)
Definition keptBack (id : gostr) (old : list gostr) (res : tickResult') (s : tickState W) : Prop :=
  trDeferred res = old ++ [id] \/ (trDeferred res = old /\ Settled id s).
Lemma failure_retired uc msg e (res : tickResult') : ends (recordMessageFailure env uc msg e true;; mret res) (keptBack (mgID msg) (trDeferred res)).
Proof. eapply ends_bind; [apply settled_retire|]. intros a s Hset. right. by split. Qed.
Lemma failure_deferred uc msg e (old : list gostr) (res : tickResult') : trDeferred res = old ++ [mgID msg] -> ends (recordMessageFailure env uc msg e false;; mret res) (keptBack (mgID msg) old).
Proof. intros H. apply ends_after. intros [] s. by left. Qed.
Lemma settleFailure_spec uc msg e res : ends (settleFailure env uc msg e res) (keptBack (mgID msg) (trDeferred res)).
Proof.
  unfold settleFailure. assert (forall m : mailMsg, mgID m = mgID msg -> forall b : bool, ends (if b then recordMessageFailure env uc m e true;; mret res else
    r ← storeTx env (recordDeferral (mgID m)); emit (EvDeferred (mgID m) (isOk r));;
    match r with
    | Err x => recordMessageFailure env uc m e false;; mret (ledger (PLedger (PStore x)) true (deferIDs [mgID m] res))
    | Ok attempts => if (maxDeferralAttempts <=? attempts)%Z then recordMessageFailure env uc m (PGaveUp attempts e) true;; mret res else recordMessageFailure env uc m e false;; mret (deferIDs [mgID m] res)
    end) (keptBack (mgID msg) (trDeferred res))) as Hmain.
  { intros m Hm b. rewrite <- Hm. destruct b; [apply failure_retired|]. apply ends_after; intros r. apply ends_after; intros _. destruct r as [n|x]; [|by apply failure_deferred].
    destruct (_ <=? _)%Z; [apply failure_retired|by apply failure_deferred]. }
  destruct e as [| | | | | | | | | |i| | |]; try (by apply Hmain). destruct i; try (by apply Hmain); intros s; by left.
Qed.

(** The batch: every message is deferred or settled, and nothing else is deferred. *)
Definition batchDone (ms : list mailMsg) (old : list gostr) (res : tickResult') (s : tickState W) : Prop :=
  (forall id, id ∈ mgID <$> ms -> id ∈ trDeferred res \/ Settled id s) /\ exists new, trDeferred res = old ++ new /\ new ⊆ mgID <$> ms.
Lemma batchDone_here msg rest old (res0 res : tickResult') (s s' : tickState W) : Fr s s' -> keptBack (mgID msg) old res0 s -> batchDone rest (trDeferred res0) res s' -> batchDone (msg :: rest) old res s'.
Proof.
  intros HF Hk [H (new & Hn & Hs)]. split.
  - intros id [->|Hid]%elem_of_cons; [|by apply H]. destruct Hk as [Hk|[_ Hk]]; [left; rewrite Hn, Hk; set_solver|right; by eapply Settled_Fr].
  - destruct Hk as [Hk|[Hk _]]; rewrite Hk in Hn; [exists (mgID msg :: new)|exists new]; (split; [rewrite Hn; by rewrite <- ?app_assoc|set_solver]).
Qed.
Lemma batchDone_stop ms old (res : tickResult') (s : tickState W) : trDeferred res = old ++ (mgID <$> ms) -> batchDone ms old res s.
Proof. intros H. split; [|by eexists]. intros id Hid. left. rewrite H. set_solver. Qed.
Lemma seen_spec id : ends (storeTx env (fun _ => AccountState.seen id)) (fun r s => match r with Ok true => isProcessed id (tsAccount s) | _ => True end).
Proof.
  apply ends_after; intros t. apply ends_after; intros up s. unfold onAccount. destruct (commit ErrDB up _ (tsAccount s)) as [r a] eqn:Ec. simpl.
  apply commit_ok in Ec as [(e & -> & ->)|(b & -> & Hb & _)]; [done|]. injection Hb as <- <-. by case_bool_decide.
Qed.
Lemma go_bind {A B} s s0 (m : T A) (f : A -> T B) P (G : B * tickState W -> Prop) :
  Fr s s0 -> framed m -> ends m P -> (forall a s1, Fr s s1 -> P a s1 -> G (f a s1)) -> G ((m ≫= f) s0).
Proof. intros HF Hm HP H. specialize (Hm s0). specialize (HP s0). unfold mbind, TM_bind. destruct (m s0) as [a s1]. apply H; [by eapply Fr_trans|done]. Qed.
Lemma go_after {A B} s s0 (m : T A) (f : A -> T B) (G : B * tickState W -> Prop) : Fr s s0 -> framed m -> (forall a s1, Fr s s1 -> G (f a s1)) -> G ((m ≫= f) s0).
Proof. intros HF Hm H. apply (go_bind s s0 m f (fun _ _ => True)); [done|done|done|]. intros; by apply H. Qed.
Lemma messageLoop_spec uc total hn he ms : ucEncrypt uc = false -> forall res s,
  batchDone ms (trDeferred res) (messageLoop env cfg uc total hn he ms res s).1 (messageLoop env cfg uc total hn he ms res s).2 /\ Fr s (messageLoop env cfg uc total hn he ms res s).2.
Proof.
  intros He. induction ms as [|msg rest IH]; intros res s; simpl.
  { split; [|apply Fr_refl]. split; [intros id Hid; by apply elem_of_nil in Hid|]. exists []. by rewrite app_nil_r. }
  set (goal := fun x : tickResult' * tickState W => batchDone (msg :: rest) (trDeferred res) x.1 x.2 /\ Fr s x.2).
  assert (forall res0 s0, Fr s s0 -> keptBack (mgID msg) (trDeferred res) res0 s0 -> goal (messageLoop env cfg uc total hn he rest res0 s0)) as Hnext.
  { intros res0 s0 HF Hk. destruct (IH res0 s0) as [H1 H2]. split; [by eapply batchDone_here|by eapply Fr_trans]. }
  assert (forall res0 s0, Fr s s0 -> trDeferred res0 = trDeferred res ++ (mgID <$> msg :: rest) -> goal (res0, s0)) as Hstop by (intros res0 s0 HF Hk; split; [by apply batchDone_stop|done]).
  match goal with |- batchDone _ _ (?x).1 _ /\ _ => change (goal x) end.
  eapply (go_bind s); [apply Fr_refl|fwalk|apply seen_spec|]. intros [[]|e] s1 HF Hs; [apply Hnext; [done|right; split; [done|by left]]| |apply Hnext; [done|by left]]. clear Hs.
  eapply (go_after s); [exact HF|apply framed_before|]. clear s1 HF. intros [] s1 HF. destruct he as [e|]; [apply Hnext; [done|by left]|].
  destruct (_ && _ && _ && _); [apply Hnext; [done|by left]|]. eapply (go_after s); [exact HF|destruct (_ && _ && _ && _); [apply framed_allow|apply framed_ret]|]. clear s1 HF. intros allowed s1 HF.
  destruct allowed; simpl; [|by apply Hstop]. eapply (go_after s); [exact HF|apply framed_world|]. clear s1 HF. intros [] s1 HF; [by apply Hstop|].
  eapply (go_bind s); [exact HF|by apply framed_handle|by apply recorded_handle|]. clear s1 HF. intros [u|e] s1 HF Hr; [apply Hnext; [done|right; split; [done|by left]]|].
  assert (forall r0, trDeferred r0 = trDeferred res -> goal ((settleFailure env uc msg e r0 ≫= fun r1 => messageLoop env cfg uc total hn None rest r1) s1)) as Hfail.
  { intros r0 H0. eapply (go_bind s); [exact HF|apply framed_settleFailure|apply settleFailure_spec|]. rewrite H0. intros r1 s2 HF2 Hk. by apply Hnext. }
  destruct e as [| | | | | | | | | |i| | |]; try (by apply Hfail). destruct i; try (by apply Hfail). apply Hnext; [done|by left].
Qed.

(** ** The checkpoint a tick commits *)

Lemma framed_lift {A} (m : T (res E A)) : framed m -> framed (lift m).
Proof. intros H. apply framed_bind; [done|]. intros. apply framed_ret. Qed.
Lemma framed_ctx : framed (checkCtx env).
Proof. unfold checkCtx. fwalk. Qed.
Hint Resolve framed_ctx : mbkeeps.
Lemma framed_large uids found : framed (largeMsgs env uids found).
Proof. induction uids as [|u uids IH]; simpl; fwalk. Qed.
Lemma framed_normal uids found : framed (normalMsgs env uids found).
Proof. induction uids as [|u uids IH]; simpl; fwalk. Qed.
Hint Resolve framed_large framed_normal framed_lift : mbkeeps.
Lemma framed_page uids over : framed (fetchUnreadPage env uids over).
Proof. unfold fetchUnreadPage. fwalk. Qed.
Hint Resolve framed_page : mbkeeps.
Lemma framed_collect fuel uids out mx bytes over : framed (collectUnreadPages env fuel uids out mx bytes (fun page => fetchUnreadPage env page over)).
Proof. revert uids out mx bytes. induction fuel as [|fuel IH]; intros uids out mx bytes; simpl; [fwalk|]. destruct uids; fwalk. Qed.
Hint Resolve framed_collect : mbkeeps.
Lemma framed_list cp : framed (ListUnreadInbox env cp).
Proof. unfold ListUnreadInbox. fwalk. Qed.
Lemma framed_headers uc ms : framed (loadBatchHeaders env uc ms).
Proof. unfold loadBatchHeaders. fwalk. Qed.
Lemma framed_recordTick n res h : framed (recordTick env n res h).
Proof. unfold recordTick. fwalk. Qed.
Lemma headers_keep uc ms : ends (loadBatchHeaders env uc ms) (fun r _ => ucEncrypt r.1.1 = ucEncrypt uc).
Proof. unfold loadBatchHeaders. case_bool_decide; [done|]. apply ends_after; intros r. apply ends_after; intros known s. by destruct r. Qed.

Lemma fetchUnread_ok s cp msgs next s1 : fetchUnread env s = (Ok (cp, msgs, next), s1) ->
  cpOf (tsAccount s1) = cp /\ exists cp0 s0 s2, ListUnreadInbox env cp0 s0 = (Ok (msgs, next), s2) /\ (startOf cp0 next <= endOf next -> (parseCheckpoint cp).2 = startOf cp0 next)%Z.
Proof.
  unfold fetchUnread. intros H. apply tryT_ok in H as (cp0 & s0 & Hc & H). apply tryT_ok in H as ([ms nx] & s2 & Hl & H).
  assert (cpOf (tsAccount s0) = cp0) as Hcp.
  { apply bindT in Hc as (r & s3 & Hr & Hc). apply retT in Hc as [Hc ->]. destruct r as [c|]; [injection Hc as ->|done]. apply bindT in Hr as (t & s4 & _ & Hr). apply bindT in Hr as (up & s5 & _ & Hr).
    unfold onAccount in Hr. destruct (commit ErrDB up _ (tsAccount s5)) as [r a] eqn:Ec. apply commit_ok in Ec as [(e & -> & ->)|(b & -> & Hb & _)]; [done|]. injection Hb as <- <-. by injection Hr as <- <-. }
  pose proof (framed_list cp0 s0) as [[_ Hfr] _]. rewrite Hl in Hfr. simpl in Hfr. unfold startOf. destruct (UIDNamespaceReset cp0 nx) as [reset|] eqn:Er.
  - apply bindT in H as (r & s3 & Hr & H). apply retT in H as [H ->]. destruct r; [|done]. injection H as <- <- <-. split.
    + apply bindT in Hr as (r & s4 & Hr & He). apply bindT in He as (? & s5 & He & Ho). apply retT in Ho as [Ho ->]. injection He as _ <-. simpl. apply bindT in Hr as (t & s6 & _ & Hr). apply bindT in Hr as (up & s7 & _ & Hr).
      unfold onAccount in Hr. destruct (commit ErrDB up _ (tsAccount s7)) as [r' a'] eqn:Ec. apply commit_ok in Ec as [(e & -> & ->)|(b & -> & Hb & _)]; [by injection Hr as <- <-|]. injection Hr as _ <-. simpl.
      injection Hb as <- <-. unfold cpOf, metaOf. simpl. by rewrite lookup_insert, decide_True.
    + exists cp0, s0, s2. rewrite Er. split; [done|]. intros _. unfold UIDNamespaceReset in Er. destruct (_ || _ || _); [done|]. injection Er as <-. destruct (parse_ok next) as [Hn _]. rewrite parse_format by (first [done|unfold int64Max; lia]). done.
  - apply okT_ok in H as [H ->]. injection H as <- <- <-. split; [congruence|]. exists cp, s0, s2. by rewrite Er.
Qed.
Lemma commit_keeps cp next ids s : let s' := (commitCheckpoint env cp next ids s).2 in
  (forall id, Settled id s -> Settled id s') /\ (cpOf (tsAccount s') = cpOf (tsAccount s) \/ cpOf (tsAccount s') = ClampCheckpoint cp next ids).
Proof.
  unfold commitCheckpoint. case_bool_decide; [simpl; auto|].
  unfold storeWrite, storeTx, nowUnix, now, ask, onAccount, emit, mbind, TM_bind, mret, TM_ret. destruct (eNow _ _ env (tsWorld s)) as [t w]. simpl. destruct (eDB _ _ env w) as [up w2]. simpl.
  unfold commit. destruct up; simpl; (split; [|first [by left|right; unfold cpOf, metaOf; simpl; by rewrite lookup_insert, decide_True]]).
  all: intros id [Hp|(d & Hp & Hd)]; [by left|right; exists d; split; [set_solver|done]].
Qed.


(** ** What the trace of a tick shows *)

(** [tells m Q]: [m] extends the trace by events for which, with its answer, [Q] holds. *)
Definition tells {A} (m : T A) (Q : A -> list pollEvent -> Prop) : Prop := forall s, exists t, tsTrace (m s).2 = tsTrace s ++ t /\ Q (m s).1 t.
Lemma tells_bind {A B} (m : T A) (f : A -> T B) P Q : tells m P -> (forall a t, P a t -> tells (f a) (fun b t' => Q b (t ++ t'))) -> tells (m ≫= f) Q.
Proof.
  intros Hm Hf s. unfold mbind, TM_bind. destruct (Hm s) as (t & Ht & HP). destruct (m s) as [a s1]. simpl in *. destruct (Hf a t HP s1) as (t' & Ht' & HQ). exists (t ++ t'). rewrite Ht', Ht, app_assoc. by split.
Qed.
Lemma tells_silent {A} (m : T A) Q : (forall s, tsTrace (m s).2 = tsTrace s) -> (forall a, Q a []) -> tells m Q.
Proof. intros H HQ s. exists []. rewrite app_nil_r. by split. Qed.
Lemma tells_mono {A} (m : T A) (P Q : A -> list pollEvent -> Prop) : tells m P -> (forall a t, P a t -> Q a t) -> tells m Q.
Proof. intros H HPQ s. destruct (H s) as (t & Ht & HP). exists t. auto. Qed.
Lemma tells_ret {A} (a : A) (Q : A -> list pollEvent -> Prop) : Q a [] -> tells (mret a) Q.
Proof. intros H s. exists []. simpl. rewrite app_nil_r. by split. Qed.
Lemma tells_emit e (Q : unit -> list pollEvent -> Prop) : Q tt [e] -> tells (emit e) Q.
Proof. intros H s. exists [e]. by split. Qed.
Lemma tells_emit_then {B} e (f : unit -> T B) Q : tells (f tt) (fun b t => Q b (e :: t)) -> tells (emit e ≫= f) Q.
Proof. intros H. eapply (tells_bind _ _ (fun _ t => t = [e])); [by apply tells_emit|]. by intros [] ? ->. Qed.

Lemma silent_world {A} (f : W -> A * W) (s : tickState W) : tsTrace (ask f s).2 = tsTrace s.
Proof. unfold ask. by destruct (f (tsWorld s)). Qed.
Lemma silent_store {A} (m : Z -> AS A) (s : tickState W) : tsTrace (storeTx env m s).2 = tsTrace s.
Proof.
  unfold storeTx, nowUnix, now, ask, onAccount, mbind, TM_bind, mret, TM_ret. destruct (eNow _ _ env (tsWorld s)) as [t w]. simpl. destruct (eDB _ _ env w) as [up w2]. simpl. by destruct (commit _ _ _ _).
Qed.
Lemma silent_global {A} (m : Z -> AS A) (s : tickState W) : tsTrace (globalTx env m s).2 = tsTrace s.
Proof.
  unfold globalTx, nowUnix, now, ask, onGlobal, mbind, TM_bind, mret, TM_ret. destruct (eNow _ _ env (tsWorld s)) as [t w]. simpl. destruct (eDB _ _ env w) as [up w2]. simpl. by destruct (commit _ _ _ _).
Qed.
Lemma silent_rate {A} (f : list Z -> A * list Z) (s : tickState W) : tsTrace (onRate f s).2 = tsTrace s.
Proof. unfold onRate. by destruct (f (tsRate s)). Qed.

Section Labelled.
Context (maps : gmap gostr (list gostr)).
(** A message recorded under a label had all of the label's keywords put on it before. *)
Definition labelled (t : list pollEvent) : Prop := forall pre d ok post, t = pre ++ EvSettled d ok :: post -> dcStatus d = statusApplied -> dcLabel d <> [] ->
  forall k, k ∈ keywordsForSelectedLabel (dcLabel d) maps -> EvKeyword (dcMessage d) k true ∈ pre.
Lemma labelled_nil : labelled [].
Proof. intros pre d ok post H. by destruct pre. Qed.
Lemma labelled_app t1 t2 : labelled t1 -> labelled t2 -> labelled (t1 ++ t2).
Proof.
  intros H1 H2 pre d ok post H Hs Hl k Hk. apply app_eq_app in H as (l & [[-> Hr]|[-> Hr]]).
  - destruct l as [|e l]; simpl in Hr; [|injection Hr as <- ->; by eapply H1]. symmetry in Hr. specialize (H2 [] d ok post Hr Hs Hl k Hk). by apply elem_of_nil in H2.
  - apply elem_of_app. right. by eapply H2.
Qed.
Lemma labelled_settled t d ok : labelled t -> (dcStatus d = statusApplied -> dcLabel d <> [] -> forall k, k ∈ keywordsForSelectedLabel (dcLabel d) maps -> EvKeyword (dcMessage d) k true ∈ t) -> labelled (t ++ [EvSettled d ok]).
Proof.
  intros Ht Hd pre d' ok' post H Hs Hl k Hk. destruct post as [|e post _] using rev_ind.
  - apply app_inj_tail in H as [-> H]. injection H as -> ->. by apply Hd.
  - rewrite app_comm_cons, app_assoc in H. apply app_inj_tail in H as [-> _]. by eapply Ht.
Qed.
Lemma labelled_other e : (forall d ok, e <> EvSettled d ok) -> labelled [e].
Proof. intros H pre d ok post He. destruct pre as [|x pre]; simpl in He; injection He as -> He; [by edestruct H|]. by destruct pre. Qed.

Definition quiet {A} (m : T A) : Prop := tells m (fun _ t => labelled t).
Lemma quiet_bind {A B} (m : T A) (f : A -> T B) : quiet m -> (forall a, quiet (f a)) -> quiet (m ≫= f).
Proof. intros Hm Hf. eapply tells_bind; [exact Hm|]. intros a t Ht. eapply tells_mono; [apply Hf|]. intros b t' Ht'. by apply labelled_app. Qed.
Lemma quiet_try {Er A B} (m : T (res Er A)) (f : A -> T (res Er B)) : quiet m -> (forall a, quiet (f a)) -> quiet (tryT m f).
Proof. intros Hm Hf. apply quiet_bind; [done|]. intros [a|e]; [apply Hf|]. apply tells_ret, labelled_nil. Qed.
Lemma quiet_silent {A} (m : T A) : (forall s, tsTrace (m s).2 = tsTrace s) -> quiet m.
Proof. intros H. apply tells_silent; [done|]. intros. apply labelled_nil. Qed.
Lemma quietT_ret {A} (a : A) : quiet (mret a).
Proof. apply tells_ret, labelled_nil. Qed.
Lemma quiet_emit e : (forall d ok, e <> EvSettled d ok) -> quiet (emit e).
Proof. intros H. by apply tells_emit, labelled_other. Qed.
Lemma quiet_world {A} (f : W -> A * W) : quiet (ask f).
Proof. apply quiet_silent, silent_world. Qed.
Lemma quiet_store {A} (m : Z -> AS A) : quiet (storeTx env m).
Proof. apply quiet_silent, silent_store. Qed.
Lemma quiet_global {A} (m : Z -> AS A) : quiet (globalTx env m).
Proof. apply quiet_silent, silent_global. Qed.
Lemma quiet_rate {A} (f : list Z -> A * list Z) : quiet (onRate f).
Proof. apply quiet_silent, silent_rate. Qed.
Lemma quiet_settle d : dcStatus d <> statusApplied \/ dcLabel d = [] -> quiet (settleRow env d).
Proof.
  intros H. apply quiet_bind; [apply quiet_store|]. intros r. apply quiet_bind; [|intros; apply quietT_ret]. apply tells_emit. apply (labelled_settled [] d); [apply labelled_nil|]. intros Hs Hl. by destruct H.
Qed.
Lemma quiet_retryLoop {Er A} (wt : Z -> T bool) (ended : Er) bo (fn : nat -> T (res Er A * bool)) n k r : (forall z, quiet (wt z)) -> (forall k, quiet (fn k)) -> quiet (retryLoop wt ended bo fn n k r).
Proof.
  intros Hw Hf. revert k r. induction n as [|n IH]; intros k r; simpl; [apply quietT_ret|]. apply quiet_bind; [apply Hf|]. intros [x again].
  destruct (negb again); [apply quietT_ret|]. destruct n; [apply quietT_ret|]. apply quiet_bind; [apply Hw|]. intros []; [apply quietT_ret|apply IH].
Qed.

Hint Resolve quietT_ret quiet_world quiet_store quiet_global quiet_rate : mbkeeps.
Hint Extern 1 (quiet (emit _)) => apply quiet_emit; discriminate : mbkeeps.
Hint Extern 1 (quiet (settleRow _ _)) => apply quiet_settle; first [by right|left; discriminate] : mbkeeps.
Hint Extern 1 (quiet (okT _)) => apply quietT_ret : mbkeeps.
Hint Extern 1 (quiet (errT _)) => apply quietT_ret : mbkeeps.
Ltac qwalk := repeat first
  [ solve [eauto 2 with mbkeeps]
  | apply quiet_bind; [|intros ?] | apply quiet_try; [|intros ?] | apply quiet_retryLoop; intros ?
  | match goal with |- quiet (match ?x with _ => _ end) => destruct x end
  | match goal with |- quiet (let '(_, _) := ?x in _) => destruct x end
  | progress cbv zeta ].
Lemma quiet_log d : quiet (logDecision env d).
Proof. unfold logDecision, storeWrite. qwalk. Qed.
Lemma quiet_notify uc msg l ks : quiet (notify env uc msg l ks).
Proof. unfold notify, maybeSend. qwalk. Qed.
Lemma quiet_retryable {A} (m : T (res stErr A)) : quiet m -> quiet (retryable (E := E) m).
Proof. intros H. apply quiet_bind; [done|]. intros. apply quietT_ret. Qed.
Hint Resolve quiet_log quiet_notify quiet_retryable : mbkeeps.

Lemma tells_quiet {A B} (m : T A) (f : A -> T B) Q : quiet m -> (forall a t, labelled t -> tells (f a) (fun b t' => Q b (t ++ t'))) -> tells (m ≫= f) Q.
Proof. apply tells_bind. Qed.

(** A keyword that was put on is in the trace. *)
Lemma keyword_told {Er} id k (wt : Z -> T bool) (ended : Er) bo fn n a (r : res Er unit) : (forall z, quiet (wt z)) ->
  (forall a, tells (fn a) (fun (r : res Er unit * bool) t => labelled t /\ (isOk r.1 = true -> EvKeyword id k true ∈ t))) ->
  tells (retryLoop wt ended bo fn (S n) a r) (fun r t => labelled t /\ (isOk r = true -> EvKeyword id k true ∈ t)).
Proof.
  intros Hw Hf. revert a r. induction n as [|n IH]; intros a r.
  - eapply tells_bind; [apply Hf|]. intros [x again] t [Hl Hk]. simpl in Hk. destruct again; simpl; apply tells_ret; by rewrite app_nil_r.
  - eapply tells_bind; [apply Hf|]. intros [x again] t [Hl Hk]. simpl in Hk. destruct again; cbn [negb]; [|apply tells_ret; by rewrite app_nil_r].
    eapply tells_bind; [apply Hw|]. intros [] t' Ht'; [apply tells_ret; rewrite app_nil_r; split; [by apply labelled_app|done]|].
    eapply tells_mono; [apply (IH (S a) x)|]. intros r' t2 [H1 H2]. split; [by repeat apply labelled_app|]. intros Ho. specialize (H2 Ho). set_solver.
Qed.
Lemma keyword_applied id k : tells (applySingleKeywordWithRetry env id k) (fun r t => labelled t /\ (isOk r = true -> EvKeyword id k true ∈ t)).
Proof.
  unfold applySingleKeywordWithRetry, retry. simpl (3 <=? 0)%Z. apply keyword_told; [intros z; unfold wait; qwalk|]. intros _.
  eapply tells_bind; [apply quiet_world|]. intros e t Ht. eapply tells_quiet; [destruct e; qwalk|]. intros e' t' Ht'.
  apply tells_emit_then, tells_ret. split; [repeat apply labelled_app; try done; apply labelled_other; discriminate|].
  destruct e'; simpl; [done|]. intros _. set_solver.
Qed.
Lemma keywords_applied id ks : tells (applyKeywordsWithRetry env id ks) (fun r t => labelled t /\ (isOk r = true -> forall k, k ∈ ks -> EvKeyword id k true ∈ t)).
Proof.
  induction ks as [|k ks IH]; simpl; [apply tells_ret; split; [apply labelled_nil|]; intros _ k Hk; by apply elem_of_nil in Hk|].
  eapply tells_bind; [apply keyword_applied|]. intros [u|e] t [Hl Hk]; [|apply tells_ret; rewrite app_nil_r; by split].
  eapply tells_mono; [apply IH|]. intros r t' [Hl' Hk']. split; [by apply labelled_app|]. intros Ho k' [->|Hin]%elem_of_cons; apply elem_of_app; [left; by apply Hk|right; by apply Hk'].
Qed.
(** The keywords, then the row, then whatever adds no row. *)
Lemma quiet_labelled {B} uc msg label detail (k : T (res (perr E) B)) (e' : perr E -> perr E) : ucMappings uc = maps -> quiet k ->
  quiet (r ← applyKeywordsWithRetry env (mgID msg) (keywordsForSelectedLabel label (ucMappings uc));
    match r with Err e => errT (e' e) | Ok _ => _ ←! retryable (settleRow env (decisionOf msg label statusApplied detail)); k end).
Proof.
  intros Hm Hk. eapply tells_bind; [apply keywords_applied|]. intros [u|e] t [Hl Hks]; [|apply tells_ret; by rewrite app_nil_r]. specialize (Hks eq_refl).
  eapply (tells_bind _ _ (fun _ t' => labelled (t ++ t'))).
  - eapply (tells_bind _ _ (fun _ t' => labelled (t ++ t'))); [|intros ? ? ?; apply tells_ret; by rewrite app_nil_r]. eapply (tells_bind _ _ (fun _ t' => t' = [])); [apply tells_silent; [apply silent_store|done]|].
    intros r ? ->. apply tells_emit_then, tells_ret. simpl. apply labelled_settled; [done|]. intros _ _ k'. simpl. rewrite <- Hm. apply Hks.
  - intros [v|e] t' Ht'; [|apply tells_ret; by rewrite app_nil_r]. eapply tells_mono; [exact Hk|]. intros b t2 Ht2. rewrite app_assoc. by apply labelled_app.
Qed.

Lemma quiet_tag uc msg l reason : ucMappings uc = maps -> quiet (tagWithLabel env uc msg l reason).
Proof. intros Hm. unfold tagWithLabel. apply (quiet_labelled uc msg l _ _ PRetryable); [done|]. qwalk. Qed.
Lemma quiet_remember uc msg g l : quiet (rememberPrediction env uc msg g l).
Proof. unfold rememberPrediction. qwalk. Qed.
Lemma quiet_classify uc msg l : quiet (classifyMessage env cfg uc msg l).
Proof. unfold classifyMessage, classifyWithRetry, retry, clearAICredits, flagAICreditsExhausted, wait. simpl (3 <=? 0)%Z. cbv iota. qwalk. Qed.
Lemma quiet_rules uc msg : quiet (applyFilterRules env uc msg).
Proof. unfold applyFilterRules. qwalk. Qed.
Lemma quiet_reject msg : quiet (rejectOversizedMessage env msg).
Proof. unfold rejectOversizedMessage. qwalk. Qed.
Lemma quiet_failure uc msg e b : quiet (recordMessageFailure env uc msg e b).
Proof. unfold recordMessageFailure. qwalk. Qed.
Lemma quiet_before uc msg : quiet (beforeMessage env uc msg).
Proof. unfold beforeMessage. qwalk. Qed.
Lemma quiet_allow : quiet (allowT env cfg).
Proof. unfold allowT, now. qwalk. Qed.
Lemma quiet_encrypt msg : quiet (encryptIncoming env msg).
Proof. apply quiet_silent. intros s. unfold encryptIncoming. by destruct (eEncrypt _ _ env _ _ _) as [[e a] w]. Qed.
Hint Resolve quiet_tag quiet_remember quiet_classify quiet_rules quiet_reject quiet_failure quiet_before quiet_allow quiet_encrypt : mbkeeps.
Lemma quiet_settleFailure uc msg e r : quiet (settleFailure env uc msg e r).
Proof. unfold settleFailure. qwalk. Qed.
Hint Resolve quiet_settleFailure : mbkeeps.
Lemma quiet_handle uc msg : ucMappings uc = maps -> quiet (handleMessage env cfg uc msg).
Proof.
  intros Hm. assert (forall l r, quiet (tagWithLabel env uc msg l r)) as Ht by (intros; by apply quiet_tag). unfold handleMessage, tagWithFallbackLabel. destruct (mgParseError msg); [qwalk|]. destruct (_ && _ && _); [qwalk|]. destruct (mgTooLarge msg); [qwalk|].
  apply quiet_try; [qwalk|]. intros []; [qwalk|]. destruct (negb _); [apply Ht|]. destruct (mgEncrypted msg); [apply Ht|]. cbv zeta. destruct (negb (_ =s? _)).
  - apply quiet_try; [apply Ht|]. intros ?. qwalk.
  - apply quiet_try; [qwalk|]. intros [selected detail]. destruct (_ && _); [qwalk|]. apply (quiet_labelled uc msg selected detail _ PRetryable); [done|]. qwalk.
Qed.
Lemma quiet_batch uc total hn he ms res : ucMappings uc = maps -> quiet (messageLoop env cfg uc total hn he ms res).
Proof.
  intros Hm. revert res. induction ms as [|msg rest IH]; intros res; simpl; [qwalk|]. pose proof (quiet_handle uc msg Hm) as Hh. apply quiet_bind; [qwalk|]. intros [[]|e]; [apply IH| |apply IH].
  apply quiet_bind; [qwalk|]. intros _. destruct he as [e|]; [apply IH|]. destruct (_ && _ && _ && _); [apply IH|]. apply quiet_bind; [qwalk|]. intros []; simpl; [|qwalk].
  apply quiet_bind; [unfold ctxEnded; qwalk|]. intros []; [qwalk|]. apply quiet_bind; [exact Hh|]. intros [u|e]; [apply IH|].
  assert (forall r, quiet (settleFailure env uc msg e r ≫= fun r' => messageLoop env cfg uc total hn None rest r')) as Hf by (intros r; apply quiet_bind; [qwalk|]; intros; apply IH).
  destruct e as [| | | | | | | | | |i| | |]; try apply Hf. destruct i; [apply IH|apply Hf..].
Qed.
Lemma quietT_lift {A} (m : T (res E A)) : quiet m -> quiet (lift m).
Proof. intros H. apply quiet_bind; [done|]. intros. apply quietT_ret. Qed.
Lemma quiet_ctx : quiet (checkCtx env).
Proof. unfold checkCtx, ctxEnded. qwalk. Qed.
Hint Resolve quiet_ctx quietT_lift : mbkeeps.
Lemma quiet_large uids found : quiet (largeMsgs env uids found).
Proof. induction uids as [|u uids IH]; simpl; qwalk. Qed.
Lemma quiet_normal uids found : quiet (normalMsgs env uids found).
Proof. induction uids as [|u uids IH]; simpl; qwalk. Qed.
Hint Resolve quiet_large quiet_normal : mbkeeps.
Lemma quiet_page uids over : quiet (fetchUnreadPage env uids over).
Proof. unfold fetchUnreadPage. qwalk. Qed.
Hint Resolve quiet_page : mbkeeps.
Lemma quiet_collect fuel uids out mx bytes over : quiet (collectUnreadPages env fuel uids out mx bytes (fun page => fetchUnreadPage env page over)).
Proof. revert uids out mx bytes. induction fuel as [|fuel IH]; intros uids out mx bytes; simpl; [qwalk|]. destruct uids; qwalk. Qed.
Hint Resolve quiet_collect : mbkeeps.
Lemma quiet_fetch : quiet (fetchUnread env).
Proof. unfold fetchUnread, ListUnreadInbox, storeWrite. qwalk. Qed.
Lemma headers_mappings uc ms : ucMappings uc = maps -> tells (loadBatchHeaders env uc ms) (fun r t => labelled t /\ ucMappings r.1.1 = maps).
Proof.
  intros Hm. unfold loadBatchHeaders. case_bool_decide; [apply tells_ret; split; [apply labelled_nil|done]|]. eapply tells_quiet; [apply quiet_world|]. intros r t Ht.
  eapply tells_quiet; [apply quiet_world|]. intros known t' Ht'. apply tells_ret. rewrite app_nil_r. split; [by apply labelled_app|]. by destruct r.
Qed.
Lemma quiet_tick uc : ucMappings uc = maps -> quiet (tickMailbox env cfg uc).
Proof.
  intros Hm. unfold tickMailbox. apply quiet_try; [apply quiet_fetch|]. intros [[cp msgs] next]. eapply tells_bind; [by apply headers_mappings|]. intros [[uc' hn] he] t [Ht Hm'].
  eapply tells_mono; [|intros b t' Ht'; apply labelled_app; [exact Ht|exact Ht']]. match goal with |- tells ?m _ => change (quiet m) end.
  apply quiet_bind; [by apply quiet_batch|]. intros res. unfold commitCheckpoint, recordTick, storeWrite, nowUnix, now. qwalk.
Qed.
End Labelled.

(** (C11) A label is in the audit log, and its message done with, only once every
    keyword the label stands for has been put on the message on the server. *)
Theorem label_recorded_after_applied uc s pre d ok post k : tsTrace (tickMailbox env cfg uc s).2 = tsTrace s ++ pre ++ EvSettled d ok :: post ->
  dcStatus d = statusApplied -> dcLabel d <> [] -> k ∈ keywordsForSelectedLabel (dcLabel d) (ucMappings uc) -> EvKeyword (dcMessage d) k true ∈ pre.
Proof.
  intros H Hs Hl Hk. destruct (quiet_tick (ucMappings uc) uc eq_refl s) as (t & Ht & HL). rewrite Ht in H. apply app_inv_head in H. by eapply HL.
Qed.

(** ** A message that keeps failing *)

Section Retiring.
Context (id : gostr) (up : forall w, (eDB _ _ env w).1 = true).
Lemma storeTx_up {A} (m : Z -> AS A) s : exists t w, storeTx env m s = (let '(r, a) := commit ErrDB true (m t) (tsAccount s) in (r, mkTick_ a (tsGlobal s) (tsRate s) (tsTrace s) w)).
Proof using up.
  unfold storeTx, nowUnix, now, ask, onAccount, mbind, TM_bind, mret, TM_ret. destruct (eNow _ _ env (tsWorld s)) as [t w]. simpl. specialize (up w). destruct (eDB _ _ env w) as [b w2]. simpl in *. subst b. by exists (t / 1000000000)%Z, w2.
Qed.
Lemma settle_up d s : isProcessed (dcMessage d) (tsAccount (settleRow env d s).2).
Proof using up.
  unfold settleRow, storeWrite, mbind, TM_bind. destruct (storeTx_up (recordProcessedDecision d) s) as (t & w & ->). simpl. unfold isProcessed. simpl. by rewrite lookup_insert, decide_True.
Qed.
(** The count of failures stands. *)
Definition counting {A} (m : T A) : Prop := forall s, attemptsOf id (tsAccount (m s).2) = attemptsOf id (tsAccount s).
Lemma counting_bind {A B} (m : T A) (f : A -> T B) : counting m -> (forall a, counting (f a)) -> counting (m ≫= f).
Proof. intros Hm Hf s. unfold mbind, TM_bind. specialize (Hm s). destruct (m s) as [a s1]. rewrite Hf. exact Hm. Qed.
Lemma counting_world {A} (f : W -> A * W) : counting (ask f).
Proof. intros s. unfold ask. by destruct (f (tsWorld s)). Qed.
Lemma counting_store {A} (m : Z -> AS A) : (forall n t, keeps (fun a => attemptsOf id a = n) (m t)) -> counting (storeTx env m).
Proof.
  intros H. unfold storeTx. apply counting_bind; [unfold nowUnix, now; apply counting_bind; [apply counting_world|intros ? ?; reflexivity]|intros t].
  apply counting_bind; [apply counting_world|intros b s]. unfold onAccount. pose proof (keeps_commit _ ErrDB b (m t) (tsAccount s) (H (attemptsOf id (tsAccount s)) t) eq_refl) as HK. by destruct (commit _ _ _ _).
Qed.
Lemma counting_notify uc msg l ks : counting (notify env uc msg l ks).
Proof. unfold notify, maybeSend. apply counting_bind; [|intros _]; destruct (shouldSendNotification _ _ _); try done; (apply counting_bind; [done|intros _; apply counting_world]). Qed.
Lemma counting_failure uc msg e : counting (recordMessageFailure env uc msg e false).
Proof.
  unfold recordMessageFailure. apply counting_bind; [apply counting_store; intros; apply keeps_select|]. intros [[]|x]; try done. apply counting_bind; [|intros _; apply counting_notify].
  unfold logDecision, storeWrite. apply counting_bind; [|intros ?; by apply counting_bind]. apply counting_store. intros n t. unfold addDecision, insertDecision. intros a Ha. by apply wp_exec.
Qed.

Lemma deferral_up s : exists s1, storeTx env (recordDeferral id) s = (Ok (attemptsOf id (tsAccount s) + 1)%Z, s1) /\ attemptsOf id (tsAccount s1) = (attemptsOf id (tsAccount s) + 1)%Z.
Proof using up.
  destruct (storeTx_up (recordDeferral id) s) as (t & w & ->). assert (forall a, recordDeferral id t a = Ok ((attemptsOf id a + 1)%Z, setDeferrals (<[id := match acDeferrals a !! id with Some d => mkDeferral (dfAttempts d + 1) (dfFirst d) t | None => mkDeferral 1 t t end]> (acDeferrals a)) a)) as Hr.
  { intros a. unfold recordDeferral, mbind, Tx_bind, exec, select, attemptsOf. simpl. rewrite lookup_insert, decide_True by done. by destruct (acDeferrals a !! id). }
  unfold commit. cbn [negb]. rewrite Hr. eexists. split; [reflexivity|]. unfold attemptsOf. simpl. rewrite lookup_insert, decide_True by done. by destruct (acDeferrals (tsAccount s) !! id).
Qed.

(** Failures that count, as all but a refused or odd answer of the encryption journal do. *)
Definition counts (e : perr E) : bool := match e with PIncoming IncPermanent => true | PIncoming _ => false | _ => true end.
Lemma failure_counts uc msg e res s : mgID msg = id -> counts e = true -> let s' := (settleFailure env uc msg e res s).2 in
  isProcessed id (tsAccount s') \/ (attemptsOf id (tsAccount s') = attemptsOf id (tsAccount s) + 1 /\ attemptsOf id (tsAccount s') < maxDeferralAttempts)%Z.
Proof using up.
  intros Hid He s'. assert (forall m : mailMsg, mgID m = id -> forall b : bool, let s2 := ((if b then recordMessageFailure env uc m e true;; mret res else
    r ← storeTx env (recordDeferral (mgID m)); emit (EvDeferred (mgID m) (isOk r));;
    match r with
    | Err x => recordMessageFailure env uc m e false;; mret (ledger (PLedger (PStore x)) true (deferIDs [mgID m] res))
    | Ok attempts => if (maxDeferralAttempts <=? attempts)%Z then recordMessageFailure env uc m (PGaveUp attempts e) true;; mret res else recordMessageFailure env uc m e false;; mret (deferIDs [mgID m] res)
    end) s).2 in isProcessed id (tsAccount s2) \/ (attemptsOf id (tsAccount s2) = attemptsOf id (tsAccount s) + 1 /\ attemptsOf id (tsAccount s2) < maxDeferralAttempts)%Z) as Hmain.
  2:{ subst s'. unfold settleFailure. destruct e as [| | | | | | | | | |i| | |]; try (by apply Hmain). destruct i; try discriminate He. by apply Hmain. }
  intros m Hm b. set (G := fun sf : tickState W => isProcessed id (tsAccount sf) \/ (attemptsOf id (tsAccount sf) = attemptsOf id (tsAccount s) + 1 /\ attemptsOf id (tsAccount sf) < maxDeferralAttempts)%Z).
  lazymatch goal with |- let s2 := ?x in _ => change (G x) end. assert (forall e0 s0, isProcessed id (tsAccount ((recordMessageFailure env uc m e0 true;; mret res) s0).2)) as Hret.
  { intros e0 s0. unfold recordMessageFailure. unfold mbind at 1, TM_bind at 1. unfold mbind at 1, TM_bind at 1. pose proof (settle_up (decisionOf m [] statusFailed (clipDetail (eText E W env e0))) s0) as Hs. destruct (settleRow _ _ s0) as [r s1]. simpl in Hs. rewrite Hm in Hs.
    destruct (framed_notify uc m [] [] s1) as [[HF _] _]. destruct (notify _ _ _ _ _ s1) as [u s3]. by apply HF. }
  rewrite Hm. destruct b; [left; apply Hret|]. unfold mbind at 1, TM_bind at 1. destruct (deferral_up s) as (s1 & -> & H1). unfold mbind at 1, TM_bind at 1, emit. cbv beta iota.
  set (s2 := mkTick_ _ _ _ _ _). unfold G. rewrite <- H1. change (attemptsOf id (tsAccount s1)) with (attemptsOf id (tsAccount s2)). destruct (Z.leb_spec maxDeferralAttempts (attemptsOf id (tsAccount s2))); [left; apply Hret|right].
  assert (counting (recordMessageFailure env uc m e false;; mret (deferIDs [id] res))) as Hc by (apply counting_bind; [apply counting_failure|done]).
  specialize (Hc s2). split; [exact Hc|]. eapply Z.le_lt_trans; [apply Z.eq_le_incl; exact Hc|done].
Qed.

End Retiring.
End Tick.

(** ** The classifier's budget *)

(** The calls let through, of those asked for at [times]. *)
Fixpoint allowedOf (perMinute perHour : Z) (window times : list Z) : list Z :=
  match times with
  | [] => []
  | t :: times => let '(ok, window) := allowByRate perMinute perHour t window in (if ok then [t] else []) ++ allowedOf perMinute perHour window times
  end.
(** How many of [l] lie in the [span] that ends at [t]. *)
Definition within (span t : Z) (l : list Z) : Z := Z.of_nat (length (List.filter (fun x => (t - span <? x)%Z && (x <=? t)%Z) l)).
Lemma filter_le {A} (f g : A -> bool) l : (forall x, x ∈ l -> f x = true -> g x = true) -> (length (List.filter f l) <= length (List.filter g l))%nat.
Proof.
  induction l as [|x l IH]; intros H; simpl; [done|]. specialize (IH ltac:(intros; apply H; [by right|done])). specialize (H x ltac:(left)). destruct (f x); [rewrite H by done; simpl; lia|]. destruct (g x); simpl; lia.
Qed.
Lemma filter_filter_b {A} (f g : A -> bool) l : List.filter f (List.filter g l) = List.filter (fun x => g x && f x) l.
Proof. induction l as [|x l IH]; simpl; [done|]. destruct (g x); simpl; [destruct (f x); congruence|done]. Qed.
(** [past] were let through by [last]; the window holds those of the last hour. *)
Record rateInv (pm ph last : Z) (past window : list Z) : Prop := {
  ri_past : Forall (fun t => t <= last)%Z past;
  ri_window : window = List.filter (fun t => last - hourNs <? t)%Z past;
  ri_minute t : (within minuteNs t past <= Z.max 0 pm)%Z;
  ri_hour t : (within hourNs t past <= Z.max 0 ph)%Z;
}.
Lemma within_snoc span t past now : within span t (past ++ [now]) = (within span t past + if (t - span <? now)%Z && (now <=? t)%Z then 1 else 0)%Z.
Proof. unfold within. rewrite List.filter_app, length_app. simpl. destruct (_ && _); simpl; lia. Qed.
Lemma within_bound span now t past : (now <= t)%Z -> (within span t past <= Z.of_nat (length (List.filter (fun x => now - span <? x)%Z past)))%Z.
Proof. intros H. unfold within. apply inj_le, filter_le. intros x _ Hx. lia. Qed.
Lemma rate_step pm ph last now past window : rateInv pm ph last past window -> (last <= now)%Z ->
  let '(ok, window') := allowByRate pm ph now window in rateInv pm ph now (past ++ if ok : bool then [now] else []) window'.
Proof.
  intros [Hp -> Hm Hh] Hn. unfold allowByRate.
  assert (List.filter (fun t => now - hourNs <? t)%Z (List.filter (fun t => last - hourNs <? t)%Z past) = List.filter (fun t => now - hourNs <? t)%Z past) as ->
    by (rewrite filter_filter_b; apply List.filter_ext; intros x; destruct (Z.ltb_spec (last - hourNs) x), (Z.ltb_spec (now - hourNs) x); simpl; first [done|lia]).
  rewrite filter_filter_b.
  assert (Forall (fun t => t <= now)%Z past) as Hp' by (eapply Forall_impl; [exact Hp|]; intros; simpl in *; lia).
  assert (List.filter (fun x => (now - hourNs <? x)%Z && (now - minuteNs <? x)%Z) past = List.filter (fun x => now - minuteNs <? x)%Z past) as -> by (apply List.filter_ext; intros x; unfold hourNs, minuteNs; cbv beta; destruct (Z.ltb_spec (now - 3600 * 1000000000) x), (Z.ltb_spec (now - 60 * 1000000000) x); simpl; first [done|lia]).
  destruct (_ || _) eqn:Ec; simpl; [rewrite app_nil_r; by constructor|]. constructor.
  - apply Forall_app; split; [done|]. repeat constructor. lia.
  - rewrite List.filter_app. simpl. unfold hourNs. by replace (now - 3600 * 1000000000 <? now)%Z with true by lia.
  - intros t. rewrite within_snoc. specialize (Hm t). destruct (_ && _) eqn:E; [|lia]. pose proof (within_bound minuteNs now t past ltac:(lia)). lia.
  - intros t. rewrite within_snoc. specialize (Hh t). destruct (_ && _) eqn:E; [|lia]. pose proof (within_bound hourNs now t past ltac:(lia)). lia.
Qed.
Lemma rate_run pm ph times : forall last past window, rateInv pm ph last past window -> Sorted Z.le (last :: times) -> exists last' window', rateInv pm ph last' (past ++ allowedOf pm ph window times) window'.
Proof.
  induction times as [|now times IH]; intros last past window H Hs; simpl; [rewrite app_nil_r; eauto|]. apply Sorted_inv in Hs as [Hs Hd]. apply HdRel_inv in Hd.
  pose proof (rate_step pm ph last now past window H Hd) as Hst. destruct (allowByRate pm ph now window) as [ok w]. rewrite app_assoc. by eapply IH.
Qed.

(** (C39) The classifier is never asked more often than configured: of the calls let
    through, whatever the calls asked for and whichever moment one looks at, at most
    [perMinute] lie in the minute that ends there and at most [perHour] in the hour. *)
Theorem rate_limit_holds perMinute perHour times t : (0 <= perMinute)%Z -> (0 <= perHour)%Z -> Sorted Z.le times ->
  (within minuteNs t (allowedOf perMinute perHour [] times) <= perMinute)%Z /\ (within hourNs t (allowedOf perMinute perHour [] times) <= perHour)%Z.
Proof.
  intros Hpm Hph Hs. destruct times as [|t0 times]; [unfold within; simpl; lia|].
  assert (rateInv perMinute perHour t0 [] []) as H0 by (constructor; [done|done|..]; intros t'; unfold within; cbn [length List.filter]; lia).
  destruct (rate_run perMinute perHour (t0 :: times) t0 [] [] H0 ltac:(constructor; [done|constructor; lia])) as (l & w & [_ _ Hm Hh]).
  specialize (Hm t). specialize (Hh t). rewrite app_nil_l, Z.max_r in Hm, Hh by done. by split.
Qed.
