(* ===== verification/AccountWitness.v ===== *)
(** * AccountWitness: the account and poller theorems on concrete runs

    One phone paired, approved, enrolled and polling; one mailbox of three unread
    messages, the middle one's classifier down. *)

From S2P Require Import Prelude GoText GoCodec RulesModel RulesPattern RulesEngine RulesApply FileStore Contacts Transaction StateTables AccountState AccountTheorems.
From S2P Require Import Poller PollerFetch PollerTheorems.

#[local] Instance runeClock4 : GoTime := fun s => match s with [t] => Some t | _ => None end.
#[local] Instance runeFormat4 : GoTimeFormat := fun t => [t].
#[local] Instance briefTick : TickJSON := {| tickText t := ptAt t; tickParse _ := None |}.
#[local] Existing Instance GlobEngine.engine.

(** ** One phone *)

Definition stAt (now : Z) (o : stOp) : stCall := mkStCall now (Some ($"uuid")) true o.
Definition phone (id token : gostr) : NativeDevice :=
  mkDevice id ($"android") token ($"phone") [] [] [] [] ($"ada") true ($"fcm") [] [] [] [] [] false noEnrollment ($"secret").
Definition paired : list stCall := [stAt 10 (SPair (phone ($"dev-1") ($"tok"))); stAt 11 (SDelivered ($"dev-1") (mkEnrollment 2 1 ($"fp"))); stAt 12 (SConfirm ($"dev-1") (mkEnrollment 2 1 ($"fp")))].
Definition repaired : stCall := stAt 13 (SPair (phone ($"dev-2") ($"tok"))).


Lemma approver_revocation_stands_witness :
  exists l, lifeOf ($"dev-1") (run_trace stStep (paired ++ stAt 20 (SApprover ($"dev-1") false) :: [repaired; stAt 22 SRotated]) newAccount).2 = Some l /\ lfApprover l = false.
Proof.
  apply (approver_revocation_stands paired (stAt 20 (SApprover ($"dev-1") false)) [repaired; stAt 22 SRotated] ($"dev-1") ($"dev-1")); [discriminate|vm_compute; reflexivity|reflexivity|vm_compute; reflexivity|].
  repeat constructor; vm_compute; reflexivity.
Defined.

Lemma rotation_unenrolls_witness :
  lifeOf ($"dev-1") (run_trace stStep (paired ++ stAt 20 SRotated :: [stAt 21 (SReported ($"dev-1") true)]) newAccount).2 = Some (mkLife true noEnrollment true) /\
  lfEnrollment (mkLife true noEnrollment true) = noEnrollment.
Proof.
  assert (lifeOf ($"dev-1") (run_trace stStep (paired ++ stAt 20 SRotated :: [stAt 21 (SReported ($"dev-1") true)]) newAccount).2 = Some (mkLife true noEnrollment true)) as H by (vm_compute; reflexivity).
  split; [exact H|].
  refine (rotation_unenrolls paired (stAt 20 SRotated) [stAt 21 (SReported ($"dev-1") true)] ($"dev-1") _ _ _ _ (mkLife true noEnrollment true) H); [discriminate|reflexivity|eexists; vm_compute; reflexivity|].
  repeat constructor. discriminate.
Defined.

Definition note (title : gostr) (devices : list gostr) : PullNotification := mkPull 0 title ($"body") None ($"t") devices.
Definition queued : list stCall := [stAt 30 (SEnqueue (note ($"one") [])); stAt 31 (SEnqueue (note ($"two") [$"dev-2"])); stAt 32 (SEnqueue (note ($"three") [$"dev-1"]))].
Lemma pull_gap_free_witness : let a := (run_trace stStep (stAt 29 (SEnqueue (note ($"zero") [])) :: queued) newAccount).2 in
  (pnTitle <$> pullRows ($"dev-1") 1 a) = [$"one"; $"three"] /\ pullCursor true a = 4%Z.
Proof.
  pose proof (pull_gap_free [stAt 29 (SEnqueue (note ($"zero") []))] queued ($"dev-1") ltac:(vm_compute; discriminate)) as H.
  change (stAt 29 (SEnqueue (note ($"zero") [])) :: queued) with ([stAt 29 (SEnqueue (note ($"zero") []))] ++ queued). rewrite run_trace_app.
  destruct (run_trace stStep [stAt 29 (SEnqueue (note ($"zero") []))] newAccount) as [log1 a1] eqn:E1. destruct (run_trace stStep queued a1) as [log2 a2] eqn:E2.
  vm_compute in E1. injection E1 as <- <-. vm_compute in E2. injection E2 as <- <-.
  destruct (H ltac:(vm_compute; discriminate)) as [H1 H2]. split; [|exact H2]. etrans; [apply (f_equal (fmap pnTitle)), H1|]. vm_compute. reflexivity.
Defined.

(** ** One mailbox *)

(** The ask is how many calls it has answered; the classifier knows the sender "b" only as broken. *)
Definition mailOf (sender : gostr) : fetchedMail := mkFetched ($"hi") sender ($"me") [] [] [] ($"text") false 100.
Definition unread3 : gmap Z fetchedMail := {[ 5%Z := mailOf ($"a"); 7%Z := mailOf ($"b"); 9%Z := mailOf ($"c") ]}.
Definition quietWorld : pollEnv gostr Z := {|
  eNow n := (n * 1000000000, n + 1)%Z; eDB n := (true, n + 1)%Z; eCtx n := (false, n); eWait _ n := (false, n + 1)%Z; eContext n := ({| hasDeadline := false; ctxLeft := None |}, n);
  eClient _ n := (None, n + 1)%Z; eEnsure _ n := (None, n); eUnsafe _ := false;
  eNamespace n := (Ok (Some ($"77")), n); eHash := $"0123456789abcdef"; eUnseen n := (Ok [9; 5; 7]%Z, n); eOversized n := (Ok [], n);
  eOverviews _ n := (Ok ∅, n); eEmails l n := (Ok (base.filter (fun '(u, _) => u ∈ l) unread3), n);
  eHeaders _ _ n := (Ok ∅, n); eKnown n := (∅, n);
  eClassify _ sender _ _ _ n := (if sender =s? $"b" then Err (StatusError 503) else Ok ($"Work"), n + 1)%Z;
  eGuess _ _ := mkGuess None [] false [];
  eReplaceAll _ _ s := s; eSum s := s; eModel := $"model"; eFrom s := s; eNotice _ n := (None, n); eScan _ n := (None, n); eHarvest _ n := n;
  eEncrypt _ a n := ((None, a), n); eNotify _ _ _ _ n := (n + 1)%Z; eText _ := $"failed"; eQuote s := s; eRegexps n := (∅, n);
|}.
#[local] Instance quietLaws : PollLaws quietWorld.
Proof.
  split; [intros w l w' [= <- <-]; repeat constructor; unfold int64Max; lia|intros w v w' [= <- <-]; split; [done|repeat constructor]|].
  apply (bool_decide_unpack _). vm_compute. exact I.
Qed.
Definition user0 : userCtx := mkUserCtx [] (mkNotify ($"all") [] true) true false false [$"Primary"; $"Work"] {[ $"Work" := [$"Job"] ]} [] ∅ ∅.
Definition config0 : pollConfig := mkPollConfig 10 100 [].
Definition start0 : tickState Z := mkTick_ newAccount newAccount [] [] 1000%Z.
Definition after0 : tickState Z := (tickMailbox quietWorld config0 user0 start0).2.


Definition firstSettled : Decision := decisionOf (overview 5 (Some (mailOf ($"a"))) false) ($"Work") statusApplied ($"label applied successfully").
Definition beforeSettled : list pollEvent := take 2 (tsTrace after0).
Lemma label_recorded_after_applied_witness :
  tsTrace (tickMailbox quietWorld config0 user0 start0).2 = tsTrace start0 ++ beforeSettled ++ EvSettled firstSettled true :: drop 3 (tsTrace after0) /\
  EvKeyword (dcMessage firstSettled) ($"Job") true ∈ beforeSettled.
Proof.
  assert (tsTrace (tickMailbox quietWorld config0 user0 start0).2 = tsTrace start0 ++ beforeSettled ++ EvSettled firstSettled true :: drop 3 (tsTrace after0)) as H by (vm_compute; reflexivity).
  split; [exact H|]. exact (label_recorded_after_applied quietWorld config0 user0 start0 beforeSettled firstSettled true (drop 3 (tsTrace after0)) ($"Job") H eq_refl ltac:(discriminate) ltac:(vm_compute; right; left)).
Defined.

Definition broken : mailMsg := overview 7 (Some (mailOf ($"b"))) false.

Lemma rate_limit_holds_witness : let asked := (fun s => s * 1000000000)%Z <$> [0; 1; 2; 30; 61; 62; 63]%Z in
  allowedOf 2 4 [] asked = (fun s => s * 1000000000)%Z <$> [0; 1; 61; 62]%Z /\ (within minuteNs (62 * 1000000000) (allowedOf 2 4 [] asked) <= 2)%Z.
Proof.
  cbv zeta. split; [vm_compute; reflexivity|]. apply (rate_limit_holds 2 4); [lia|lia|]. vm_compute. repeat constructor; discriminate.
Defined.
