(* ===== verification/MailboxModel.v ===== *)
(** * MailboxModel: the permanent mail store, its tables (backend/internal/mailbox)

    One SQLite database per native mailbox: messages (rows are never deleted, a
    deleted message keeps its row without bytes), folders, labels, transport
    receipts, the change log, the outbox and the usage counters its triggers
    maintain.  A table is the list of its rows in the order of their keys; a
    transaction is a computation on the database that either answers or leaves
    the database as it was. *)

From S2P Require Export Transaction.
From S2P Require Import Prelude GoText GoCodec SendAs.

(** ** Libraries *)

(** net/mail: the address and the name [ParseAddress] finds; the values of a header of a parsed
    message by canonical name, and its Date.  crypto/sha256.  Whether
    imapadapter.ParseRawContent reads a message as PGP/MIME ciphertext. *)
Class MailLib := {
  parseAddress : gostr -> option gostr;
  addressName : gostr -> gostr;
  readMessage : list Z -> option (gostr -> list gostr);
  headerDate : list Z -> option Z;
  sha256Bytes : list Z -> list Z;
  pgpEncrypted : list Z -> bool;
}.

(** ** Errors *)

Inductive mbErr :=
  | ErrOwnerMB
  | ErrConflictMB
  | ErrCapacityMB
  | ErrNotFoundMB
  | ErrCursor
  | ErrDuplicateMB (id : Z)
  | ErrMessageTooLarge
  | ErrOutbound
  | ErrRead
  | ErrDB
  | ErrNew (msg : gostr).

(** ** Rows *)

Record Limits := mkLimits { MessageBytes : Z; PayloadBytes : Z; Records : Z }.
Record Usage := mkUsage { uBytes : Z; uRecords : Z }.

Record Recipient := mkRecipient { rcptAddress : gostr; rcptGeneration : Z }.
Record Receipt := mkReceipt { rGateway : gostr; rDelivery : gostr; rSender : gostr; rRecipients : list Recipient; rFolder : gostr }.

Record message := mkMessage {
  mID : Z; mFolder : gostr; mRaw : option (list Z); mDigest : gostr;
  mSender : gostr; mSubject : gostr; mTo : gostr; mCc : gostr; mBcc : gostr; mAt : gostr;
  mSeen : bool; mStarred : bool; mDraft : bool; mLabels : list gostr;
}.
Record Change := mkChange { cRevision : Z; cID : Z; cFolder : gostr; cRemoved : bool }.

(** The envelope column is the JSON of the canonical receipt: that receipt. *)
Record receiptRow := mkReceiptRow { rrGateway : gostr; rrDelivery : gostr; rrEnvelope : Receipt; rrDigest : gostr; rrMessage : Z }.
Record replacementRow := mkReplacement { rpSource : Z; rpMarker : gostr; rpSourceHash : gostr; rpCipherHash : gostr; rpReplacement : Z }.

(** AES-GCM envelopes of cryptutil, as the outbox column holds them. *)
Record EncryptedPayload := mkPayload { epVersion : Z; epNonce : gostr; epCiphertext : gostr }.
Record outboxRow := mkOutbox { oID : gostr; oCipher : EncryptedPayload; oSentBytes : Z; oSentReserved : Z; oSentID : option Z; oCreated : Z }.
Record deliveryRow := mkDelivery { dJob : gostr; dSeq : Z; dState : gostr; dClaim : gostr; dAttempts : Z; dNext : Z }.

Record mailbox := mkMailbox {
  folders : list gostr;
  labelNames : list gostr;
  messages : list message;
  importedIDs : list Z;
  receipts : list receiptRow;
  changes : list Change;
  replacements : list replacementRow;
  usage : Usage;
  outbox : list outboxRow;
  deliveries : list deliveryRow;
}.

#[export] Instance Recipient_eq_dec : EqDecision Recipient.
Proof. solve_decision. Defined.
#[export] Instance Receipt_eq_dec : EqDecision Receipt.
Proof. solve_decision. Defined.
#[export] Instance EncryptedPayload_eq_dec : EqDecision EncryptedPayload.
Proof. solve_decision. Defined.

Definition mailbox_eta (d : mailbox) : mailbox :=
  mkMailbox (folders d) (labelNames d) (messages d) (importedIDs d) (receipts d) (changes d) (replacements d) (usage d) (outbox d) (deliveries d).
Definition setFolders (v : list gostr) : mailbox -> mailbox := ltac:(setter_of mailbox_eta folders v).
Definition setLabelNames (v : list gostr) : mailbox -> mailbox := ltac:(setter_of mailbox_eta labelNames v).
Definition setMessages (v : list message) : mailbox -> mailbox := ltac:(setter_of mailbox_eta messages v).
Definition setImportedIDs (v : list Z) : mailbox -> mailbox := ltac:(setter_of mailbox_eta importedIDs v).
Definition setReceipts (v : list receiptRow) : mailbox -> mailbox := ltac:(setter_of mailbox_eta receipts v).
Definition setChanges (v : list Change) : mailbox -> mailbox := ltac:(setter_of mailbox_eta changes v).
Definition setReplacements (v : list replacementRow) : mailbox -> mailbox := ltac:(setter_of mailbox_eta replacements v).
Definition setUsage (v : Usage) : mailbox -> mailbox := ltac:(setter_of mailbox_eta usage v).
Definition setOutbox (v : list outboxRow) : mailbox -> mailbox := ltac:(setter_of mailbox_eta outbox v).
Definition setDeliveries (v : list deliveryRow) : mailbox -> mailbox := ltac:(setter_of mailbox_eta deliveries v).

(** ** Transactions *)

Abbreviation Tx := (Txn mailbox mbErr).

(** Commit on success, roll back on an error.  [up] is whether every statement
    and the commit itself reach the disk. *)
Definition transact {A} (up : bool) (m : Tx A) (d : mailbox) : res mbErr A * mailbox :=
  if negb up then (Err ErrDB, d)
  else match m d with Ok (a, d') => (Ok a, d') | Err e => (Err e, d) end.

(** ** Statements *)

Definition rawSize (m : message) : Z := match mRaw m with Some r => Z.of_nat (length r) | None => 0 end.
Definition live (m : message) : bool := bool_decide (is_Some (mRaw m)).
Definition cipherLen (e : EncryptedPayload) : Z := (40 + utf8Len (epNonce e) + utf8Len (epCiphertext e))%Z.

Definition bump (bytes records : Z) (d : mailbox) : mailbox :=
  setUsage (mkUsage (uBytes (usage d) + bytes) (uRecords (usage d) + records))%Z d.

(** INSERT INTO messages, with the next AUTOINCREMENT key (no row is ever
    deleted), the foreign key on the folder and the trigger mailbox_insert. *)
Definition insertMessage (m : message) : Tx Z := fun d =>
  if bool_decide (mFolder m ∈ folders d) then
    let id := (Z.of_nat (length (messages d)) + 1)%Z in
    let m := mkMessage id (mFolder m) (mRaw m) (mDigest m) (mSender m) (mSubject m) (mTo m) (mCc m) (mBcc m) (mAt m)
                       (mSeen m) (mStarred m) (mDraft m) (mLabels m) in
    Ok (id, bump (rawSize m) 1 (setMessages (messages d ++ [m]) d))
  else Err ErrDB.

Definition updateWhere {A} (p : A -> bool) (f : A -> A) (l : list A) : list A := (fun x => if p x then f x else x) <$> l.

Definition withFolder (folder : gostr) (m : message) : message :=
  mkMessage (mID m) folder (mRaw m) (mDigest m) (mSender m) (mSubject m) (mTo m) (mCc m) (mBcc m) (mAt m) (mSeen m) (mStarred m) (mDraft m) (mLabels m).
Definition withFlags (seen starred : bool) (labels : list gostr) (m : message) : message :=
  mkMessage (mID m) (mFolder m) (mRaw m) (mDigest m) (mSender m) (mSubject m) (mTo m) (mCc m) (mBcc m) (mAt m) seen starred (mDraft m) labels.
Definition emptied (m : message) : message :=
  mkMessage (mID m) (mFolder m) None (mDigest m) [] [] [] [] [] (mAt m) (mSeen m) (mStarred m) (mDraft m) [].

(** UPDATE messages SET folder, with the foreign key. *)
Definition updateFolder (p : message -> bool) (folder : gostr) : Tx unit := fun d =>
  if bool_decide (folder ∈ folders d) || negb (existsb p (messages d)) then
    Ok (tt, setMessages (updateWhere p (withFolder folder) (messages d)) d)
  else Err ErrDB.

Definition isMsg (id : Z) (m : message) : bool := (mID m =? id)%Z.
Definition updateFlags (id : Z) (seen starred : bool) (labels : list gostr) : Tx unit :=
  exec (fun d => setMessages (updateWhere (isMsg id) (withFlags seen starred labels) (messages d)) d).

(** UPDATE messages SET raw=NULL,..., with the trigger mailbox_raw_update of
    every row touched. *)
Definition tombstone (id : Z) : Tx unit :=
  exec (fun d => bump (- foldr (fun m n => (if isMsg id m then rawSize m else 0) + n)%Z 0%Z (messages d)) 0
                      (setMessages (updateWhere (isMsg id) emptied (messages d)) d)).

(** [change]: one row of the change log, under the next revision. *)
Definition change (id : Z) (folder : gostr) (removed : bool) : Tx unit :=
  exec (fun d => setChanges (changes d ++ [mkChange (Z.of_nat (length (changes d)) + 1) id folder removed]) d).

(** INSERT INTO folders; a duplicate name fails. *)
Definition insertFolder (name : gostr) : Tx unit := fun d =>
  if bool_decide (name ∈ folders d) then Err ErrDB else Ok (tt, setFolders (folders d ++ [name]) d).
Definition insertFolderOrIgnore (name : gostr) : Tx unit :=
  exec (fun d => if bool_decide (name ∈ folders d) then d else setFolders (folders d ++ [name]) d).
(** DELETE FROM folders: the number of rows; a message still in the folder
    fails the foreign key. *)
Definition deleteFolderRow (name : gostr) : Tx Z := fun d =>
  if bool_decide (name ∈ folders d) then
    if existsb (fun m => mFolder m =s? name) (messages d) then Err ErrDB
    else Ok (1%Z, setFolders (List.filter (fun f => negb (f =s? name)) (folders d)) d)
  else Ok (0%Z, d).

(** INSERTs into the tables that only grow. *)
Definition insertReceipt (r : receiptRow) : Tx unit := exec (fun d => setReceipts (receipts d ++ [r]) d).
Definition insertImported (id : Z) : Tx unit := exec (fun d => setImportedIDs (importedIDs d ++ [id]) d).
Definition insertLabel (label : gostr) : Tx unit := exec (fun d => setLabelNames (labelNames d ++ [label]) d).
Definition insertReplacement (r : replacementRow) : Tx unit := exec (fun d => setReplacements (replacements d ++ [r]) d).
