(* ===== verification/Mailbox.v ===== *)
(** * Mailbox: the operations of the mail store (backend/internal/mailbox/store.go,
    client_store.go, import.go)

    Each method is one transaction of module MailboxModel.  The clock, the free
    space of the drive and the stored limits are arguments; what a reader yields
    is [None] when it fails.  Reads answer from one snapshot. *)

From S2P Require Import Prelude GoText GoCodec SendAs MailboxModel.

(** ** Validation *)

(** [unicode.IsControl]. *)
Definition isControl (r : Z) : bool := (Z.leb 0 r && Z.ltb r 32) || (Z.leb 127 r && Z.ltb r 160).
Definition validText (value : gostr) (max : Z) : bool :=
  negb (value =s? []) && (utf8Len value <=? max)%Z && forallb (fun r => negb (isControl r)) value.
Definition validFolder (folder : gostr) : bool :=
  validText folder 255 &&
  forallb (fun part => (trimSpace part =s? part) && negb (part =s? []) && negb (part =s? $".") && negb (part =s? $"..")) (splitOn 47 folder).

Definition systemFolders : list gostr := [$"INBOX"; $"Drafts"; $"Sent"; $"Trash"; $"Junk"; $"Archive"].

Definition MaxInboundMessageBytes : Z := Z.shiftl 25 20.
Definition limitsValid (l : Limits) : bool :=
  (0 <? MessageBytes l)%Z && (MessageBytes l <=? MaxInboundMessageBytes)%Z && (MessageBytes l <=? PayloadBytes l)%Z && (0 <? Records l)%Z.
Definition DefaultQuotaBytes : Z := Z.shiftl 5 30.
Definition NativeLimits (quota : Z) : Limits := mkLimits MaxInboundMessageBytes quota 1000000.

Definition fits (u : Usage) (l : Limits) (size : Z) : bool :=
  (uRecords u <? Records l)%Z && (size <=? PayloadBytes l - uBytes u)%Z.

(** fsutil.CheckDriveReserve: [space] is the free and total bytes of the file
    system, if they could be measured. *)
Definition driveReserve (total : Z) : Z := Z.max (total / 10) (Z.shiftl 5 30).
Definition checkDriveReserve (space : option (Z * Z)) (need : Z) : bool :=
  match space with
  | Some (free, total) => negb (free <? Z.max need 0 + driveReserve total)%Z
  | None => false
  end.
Definition checkReserve (space : option (Z * Z)) (n : Z) (exempt : bool) : Tx unit :=
  if exempt then mret tt
  else assertTx (checkDriveReserve space (2 * n + Z.shiftl 1 20)) ErrCapacityMB.

Section Ops.
Context {U : Unicode} {SS : SortSlice} {ML : MailLib} {GF : GoTimeFormat}.

(** initialize on a new database (usage counted over empty tables). *)
Definition newMailbox : mailbox := mkMailbox systemFolders [] [] [] [] [] [] (mkUsage 0 0) [] [].

Fixpoint checkRecipients (prev : option gostr) (l : list Recipient) : bool :=
  match l with
  | [] => true
  | p :: l' =>
      bool_decide (parseAddress (rcptAddress p) = Some (rcptAddress p)) && negb (rcptGeneration p <=? 0)%Z &&
      negb (bool_decide (prev = Some (rcptAddress p))) && checkRecipients (Some (rcptAddress p)) l'
  end.
(** The JSON leaves Folder out. *)
Definition canonicalReceipt (r : Receipt) : option Receipt :=
  let n := Z.of_nat (length (rRecipients r)) in
  if negb (validText (rGateway r) 128) || negb (validText (rDelivery r) 256) || (n =? 0)%Z || (100 <? n)%Z then None
  else if negb (rSender r =s? []) && negb (bool_decide (parseAddress (rSender r) = Some (rSender r))) then None
  else
    let l := sort_slice _ (fun a b => strLtb (rcptAddress a) (rcptAddress b)) (rRecipients r) in
    if checkRecipients None l then Some (mkReceipt (rGateway r) (rDelivery r) (rSender r) l []) else None.

Definition hashIncoming (raw : list Z) : gostr := hexEncode (sha256Bytes raw).

(** rawMetadata: the headers, and the date or [now]. *)
Definition headerGet (h : gostr -> list gostr) (field : gostr) : gostr := default [] (head (h field)).
Definition rawMetadata (now : Z) (raw : list Z) : option ((gostr -> list gostr) * Z) :=
  h ← readMessage raw;
  if forallb (fun f => (utf8Len (headerGet h f) <=? Z.shiftl 64 10)%Z) [$"From"; $"Subject"; $"To"; $"Cc"; $"Bcc"; $"Date"]
  then Some (h, default now (headerDate raw)) else None.

(** The row a message with these bytes becomes; its key is drawn on insertion. *)
Definition messageRow (folder : gostr) (raw : list Z) (h : gostr -> list gostr) (at_ : gostr) (seen starred draft : bool) (labels : list gostr) : message :=
  mkMessage 0 folder (Some raw) (hashIncoming raw) (headerGet h ($"From")) (headerGet h ($"Subject")) (headerGet h ($"To"))
            (headerGet h ($"Cc")) (headerGet h ($"Bcc")) at_ seen starred draft labels.

(** ** Arrival *)

Record ImportMeta := mkImportMeta { imUnseen : bool; imStarred : bool; imReceived : option Z }.

(** mailmsg.BoundedRead. *)
Definition boundedRead (input : option (list Z)) (limit : Z) : res mbErr (list Z) :=
  match input with
  | None => Err ErrRead
  | Some data => if (limit <? Z.of_nat (length data))%Z then Err ErrMessageTooLarge else Ok data
  end.

Definition isReceipt (gateway delivery : gostr) (r : receiptRow) : bool := (rrGateway r =s? gateway) && (rrDelivery r =s? delivery).
Definition holds (folder digest : gostr) (m : message) : bool := (mFolder m =s? folder) && (mDigest m =s? digest) && live m.

(** The new message, once no receipt and no duplicate answered. *)
Definition appendNew (l : Limits) (now : Z) (space : option (Z * Z)) (folder : gostr) (raw : list Z) (receipt : option Receipt)
    (draft : bool) (imported : option ImportMeta) : Tx Z :=
  u ← select usage;
  assertTx (fits u l (Z.of_nat (length raw))) ErrCapacityMB ;;
  checkReserve space (Z.of_nat (length raw)) (bool_decide (is_Some receipt)) ;;
  match rawMetadata now raw with
  | None => raise (ErrNew ($"invalid RFC5322 message; retain holding copy"))
  | Some (h, at_) =>
      let '(seen, starred, at_) :=
        match imported with
        | None => (negb (folder =s? $"INBOX") && negb draft, false, at_)
        | Some meta => (negb (imUnseen meta), imStarred meta, default at_ (imReceived meta))
        end in
      id ← insertMessage (messageRow folder raw h (formatTime at_) seen starred draft []);
      match receipt with
      | Some r => insertReceipt (mkReceiptRow (rGateway r) (rDelivery r) r (hashIncoming raw) id)
      | None => mret tt
      end ;;
      match imported with Some _ => insertImported id | None => mret tt end ;;
      change id folder false ;; mret id
  end.

Definition append_ (l : Limits) (now : Z) (space : option (Z * Z)) (folder : gostr) (input : option (list Z)) (receipt : option Receipt)
    (draft : bool) (imported : option ImportMeta) : Tx Z :=
  match boundedRead input (MessageBytes l) with
  | Err e => raise e
  | Ok raw =>
      old ← select (fun d => match receipt with Some r => find_first (isReceipt (rGateway r) (rDelivery r)) (receipts d) | None => None end);
      dup ← select (fun d => match imported with Some _ => find_first (holds folder (hashIncoming raw)) (messages d) | None => None end);
      match old with
      | Some row =>
          if negb (bool_decide (Some (rrEnvelope row) = receipt)) || negb (rrDigest row =s? hashIncoming raw) then raise ErrConflictMB
          else mret (rrMessage row)
      | None =>
          match dup with
          | Some m => raise (ErrDuplicateMB (mID m))
          | None => appendNew l now space folder raw receipt draft imported
          end
      end
  end.

Definition import (l : Limits) (now : Z) (space : option (Z * Z)) (receipt : Receipt) (input : option (list Z)) : Tx Z :=
  match canonicalReceipt receipt with
  | None => raise (ErrNew ($"invalid mailbox delivery receipt"))
  | Some envelope =>
      if rFolder receipt =s? $"Junk" then append_ l now space ($"Junk") input (Some envelope) false None
      else if negb (rFolder receipt =s? []) && negb (rFolder receipt =s? $"INBOX") then raise (ErrNew ($"invalid delivery folder"))
      else append_ l now space ($"INBOX") input (Some envelope) false None
  end.

(** Append: a local copy without a receipt. *)
Definition appendLocal (l : Limits) (now : Z) (space : option (Z * Z)) (folder : gostr) (input : option (list Z)) (draft : bool) : Tx Z :=
  if negb (validFolder folder) then raise (ErrNew ($"invalid folder"))
  else append_ l now space folder input None draft None.

(** ** Reads *)

Definition rawOf (folder : gostr) (id : Z) : Tx (list Z) :=
  r ← select (fun d => find_first (fun m => (mFolder m =s? folder) && isMsg id m && live m) (messages d));
  match r with Some m => mret (default [] (mRaw m)) | None => raise ErrNotFoundMB end.

Definition listMessages (folder : gostr) (before limit : Z) : Tx (list message) :=
  if negb (validFolder folder) || (before <? 0)%Z || (limit <? 1)%Z || (1000 <? limit)%Z then raise (ErrNew ($"invalid mailbox page"))
  else select (fun d => take (Z.to_nat limit)
         (reverse (List.filter (fun m => (mFolder m =s? folder) && live m && ((before =? 0)%Z || (mID m <? before)%Z)) (messages d)))).

(** Changes: the events after the cursor, and the high-water mark. *)
Definition changesAfter (after limit : Z) : Tx (list Change * Z) :=
  if (after <? 0)%Z || (limit <? 1)%Z || (1000 <? limit)%Z then raise ErrCursor
  else
    high ← select (fun d => foldr (fun c h => Z.max (cRevision c) h) 0%Z (changes d));
    if (high <? after)%Z then raise ErrCursor
    else select (fun d => (take (Z.to_nat limit) (List.filter (fun c => after <? cRevision c)%Z (changes d)), high)).

Definition foldersList : Tx (list gostr) := select (fun d => sortStable strLtb (folders d)).

Definition unreadAfter (after limit : Z) : Tx (list message) :=
  select (fun d => take (Z.to_nat limit)
    (List.filter (fun m => (mFolder m =s? $"INBOX") && negb (mSeen m) && live m && (after <? mID m)%Z
                           && negb (bool_decide (mID m ∈ importedIDs d))) (messages d))).

(** ** Flags and labels *)

(** The collation NOCASE folds ASCII letters. *)
Definition nocase (s : gostr) : gostr := (fun r => if isUpperA r then (r + 32)%Z else r) <$> s.
Definition ensureLabelTx (label : gostr) : Tx unit :=
  names ← select labelNames;
  if existsb (fun n => nocase n =s? nocase label) names then mret tt
  else if (1000 <=? Z.of_nat (length names))%Z then raise (ErrNew ($"mailbox label limit reached"))
  else insertLabel label.
Fixpoint ensureLabels (labels : list gostr) : Tx unit :=
  match labels with [] => mret tt | x :: l => ensureLabelTx x ;; ensureLabels l end.

Fixpoint checkLabels (seen : list gostr) (l : list gostr) : bool :=
  match l with
  | [] => true
  | x :: l' => validText x 128 && (trimSpace x =s? x) && negb (bool_decide (toLower x ∈ seen)) && checkLabels (toLower x :: seen) l'
  end.

Definition update (folder : gostr) (id : Z) (seen starred : bool) (labels : list gostr) : Tx unit :=
  if (100 <? Z.of_nat (length labels))%Z then raise (ErrNew ($"too many mailbox labels"))
  else
    let labels := sortStable strLtb labels in
    if negb (checkLabels [] labels) then raise (ErrNew ($"invalid mailbox label"))
    else
      row ← select (fun d => find_first (fun m => (mFolder m =s? folder) && isMsg id m && live m) (messages d));
      match row with
      | None => raise ErrNotFoundMB
      | Some m =>
          ensureLabels labels ;;
          if eqb (mSeen m) seen && eqb (mStarred m) starred && bool_decide (mLabels m = labels) then mret tt
          else updateFlags id seen starred labels ;; change id folder false
      end.

Definition editLabels (label : gostr) (add : bool) (labels : list gostr) : res mbErr (list gostr) :=
  if label =s? [] then Ok labels
  else
    let same old := equalFold old label in
    let next := if add then labels else List.filter (fun old => negb (same old)) labels in
    if add && negb (existsb same labels) then
      if (100 <=? Z.of_nat (length next))%Z then Err (ErrNew ($"too many mailbox labels")) else Ok (next ++ [label])
    else Ok next.

Definition editFlagsTx (folder : gostr) (id : Z) (seen : option bool) (label : gostr) (add : bool) : Tx unit :=
  row ← select (fun d => find_first (fun m => isMsg id m && ((folder =s? []) || (mFolder m =s? folder)) && live m) (messages d));
  match row with
  | None => raise ErrNotFoundMB
  | Some m =>
      let nextSeen := default (mSeen m) seen in
      match editLabels label add (mLabels m) with
      | Err e => raise e
      | Ok labels =>
          (if negb (label =s? []) && add then ensureLabelTx label else mret tt) ;;
          let labels := sortStable strLtb labels in
          if eqb (mSeen m) nextSeen && bool_decide (mLabels m = labels) then mret tt
          else updateFlags id nextSeen (mStarred m) labels ;; change id (mFolder m) false
      end
  end.

(** ** Moves and deletion *)

(** relocate: [None] is the empty target of Delete. *)
Definition relocate (folder : gostr) (id : Z) (target : option gostr) : Tx unit :=
  row ← select (fun d => find_first (fun m => isMsg id m && (mFolder m =s? folder) && live m) (messages d));
  match row with
  | None => raise ErrNotFoundMB
  | Some _ =>
      match target with
      | None => tombstone id ;; change id folder true
      | Some t =>
          if t =s? folder then mret tt
          else
            known ← select (fun d => bool_decide (t ∈ folders d));
            assertTx known ErrNotFoundMB ;;
            updateFolder (isMsg id) t ;; change id folder true ;; change id t false
      end
  end.
Definition move (folder : gostr) (id : Z) (target : gostr) : Tx unit :=
  if negb (validFolder target) then raise (ErrNew ($"invalid target folder")) else relocate folder id (Some target).
Definition delete_ (folder : gostr) (id : Z) : Tx unit := relocate folder id None.

(** ** Folders *)

Definition createFolderRow (name : gostr) : Tx unit :=
  if negb (validFolder name) then raise (ErrNew ($"invalid folder")) else insertFolder name.

(** [substr(name,1,length(p)+1) = p || '/']. *)
Definition below (p name : gostr) : bool := hasPrefix (p ++ [47%Z]) name.

Definition deleteFolder (name : gostr) : Tx unit :=
  if bool_decide (name ∈ systemFolders) then raise (ErrNew ($"cannot delete system folder"))
  else
    busy ← select (fun d => existsb (fun m => (mFolder m =s? name) && live m) (messages d));
    assertTx (negb busy) (ErrNew ($"folder contains mail; move it before deletion")) ;;
    kids ← select (fun d => existsb (below name) (folders d));
    assertTx (negb kids) (ErrNew ($"folder contains children; remove them first")) ;;
    updateFolder (fun m => (mFolder m =s? name) && negb (live m)) ($"Trash") ;;
    n ← deleteFolderRow name;
    assertTx (negb (n =? 0)%Z) ErrNotFoundMB.

Definition liveIn (folder : gostr) (d : mailbox) : list Z :=
  mID <$> List.filter (fun m => (mFolder m =s? folder) && live m) (messages d).

Fixpoint moved (ids : list Z) (from to : gostr) : Tx unit :=
  match ids with
  | [] => mret tt
  | id :: l => change id from true ;; change id to false ;; moved l from to
  end.

Definition renameOne (folder target name : gostr) : Tx unit :=
  let newName := target ++ drop (length folder) name in
  if negb (validFolder newName) then raise (ErrNew ($"renamed folder path exceeds limit"))
  else
    insertFolder newName ;;
    ids ← select (liveIn name);
    updateFolder (fun m => mFolder m =s? name) newName ;;
    moved ids name newName ;;
    deleteFolderRow name ;; mret tt.
Fixpoint renameAll (folder target : gostr) (names : list gostr) : Tx unit :=
  match names with [] => mret tt | name :: l => renameOne folder target name ;; renameAll folder target l end.

Definition renameFolder (folder target : gostr) : Tx unit :=
  if negb (validFolder folder) || negb (validFolder target) || (folder =s? target) || below folder target
  then raise (ErrNew ($"invalid folder rename"))
  else if bool_decide (folder ∈ systemFolders) then raise (ErrNew ($"cannot rename system folder"))
  else
    names ← select (fun d => sortStable strLtb (List.filter (fun n => (n =s? folder) || below folder n) (folders d)));
    assertTx (bool_decide (head names = Some folder)) ErrNotFoundMB ;;
    renameAll folder target names.

(** createFolder of the client: [parent] may be empty. *)
Definition createFolderUnder (parent target : gostr) : Tx unit :=
  if negb (validFolder target) then raise (ErrNew ($"invalid folder"))
  else
    known ← select (fun d => (parent =s? []) || bool_decide (parent ∈ folders d));
    assertTx known ErrNotFoundMB ;; insertFolderOrIgnore target.

(** [folder[:strings.LastIndex(folder, "/")]], or [None] without a slash. *)
Fixpoint parentOf (s : gostr) : option gostr :=
  match s with
  | [] => None
  | c :: s' => match parentOf s' with Some p => Some (c :: p) | None => if (c =? 47)%Z then Some [] else None end
  end.

(** One page of the loop that moves live mail to the parent. *)
Fixpoint moveEach (ids : list Z) (folder parent : gostr) : Tx unit :=
  match ids with
  | [] => mret tt
  | id :: l => updateFolder (isMsg id) parent ;; change id folder true ;; change id parent false ;; moveEach l folder parent
  end.
Fixpoint moveBatches (fuel : nat) (after : Z) (folder parent : gostr) : Tx unit :=
  ids ← select (fun d => take 200 (List.filter (fun id => after <? id)%Z (liveIn folder d)));
  match ids with
  | [] => mret tt
  | _ => match fuel with
         | O => raise (ErrNew ($"out of fuel"))
         | S fuel => moveEach ids folder parent ;; moveBatches fuel (List.last ids after) folder parent
         end
  end.

Definition deleteFolderToParent (folder : gostr) : Tx unit :=
  match parentOf folder with
  | None => raise (ErrNew ($"folder must have a parent mailbox"))
  | Some parent =>
      kids ← select (fun d => existsb (below folder) (folders d));
      assertTx (negb kids) (ErrNew ($"folder has subfolders; remove them first")) ;;
      known ← select (fun d => bool_decide (parent ∈ folders d));
      assertTx known ErrNotFoundMB ;;
      fuel ← select (fun d => length (messages d));
      moveBatches fuel 0 folder parent ;;
      updateFolder (fun m => (mFolder m =s? folder) && negb (live m)) parent ;;
      n ← deleteFolderRow folder;
      assertTx (negb (n =? 0)%Z) ErrNotFoundMB
  end.
End Ops.
