(* ===== verification/MailboxIncoming.v ===== *)
(** * MailboxIncoming: encrypting mail that arrived
    (backend/internal/mailbox/incoming_encryption.go)

    A message in the INBOX is replaced by its ciphertext in one transaction that
    also records the replacement; the pending action then runs on the verified
    copy.  The account's hash is an argument. *)

From S2P Require Import Prelude GoText GoCodec SendAs MailboxModel Mailbox.

Record IncomingSource := mkSource { srcUID : Z; srcUIDValidity : Z; srcAccount : gostr; srcHash : gostr; srcYear : Z }.

Section Incoming.
Context {U : Unicode} {ML : MailLib}.
Variable account : gostr.

Definition badSource : mbErr := ErrNew ($"native mailbox identity or source changed").
Definition checkIncomingSource (s : IncomingSource) : option mbErr :=
  if (srcUID s <=? 0)%Z || negb (srcUIDValidity s =? 1)%Z || negb (srcAccount s =s? account)
     || match hexDecode (srcHash s) with Some h => negb (Z.of_nat (length h) =? 32)%Z | None => true end
  then Some badSource else None.

Definition markerHeader (marker : gostr) : gostr := $"X-KyPost-Incoming: " ++ marker ++ [13; 10]%Z.
Definition checkIncomingReplacement (l : Limits) (s : IncomingSource) (marker : gostr) (encrypted : list Z) : option mbErr :=
  match checkIncomingSource s with
  | Some e => Some e
  | None =>
      if match hexDecode marker with Some t => negb (Z.of_nat (length t) =? 32)%Z | None => true end
         || negb (hasPrefix (markerHeader marker) encrypted)
      then Some (ErrNew ($"invalid native incoming replacement marker; original preserved"))
      else if (MessageBytes l <? Z.of_nat (length encrypted))%Z then Some ErrMessageTooLarge else None
  end.

(** The join of the replacement with its message: the folder it is in. *)
Definition isReplacement (s : IncomingSource) (uid : Z) (marker : gostr) (encrypted : list Z) (r : replacementRow) : bool :=
  (rpSource r =? srcUID s)%Z && (rpMarker r =s? marker) && (rpSourceHash r =s? srcHash s)
  && (rpCipherHash r =s? hashIncoming encrypted) && (rpReplacement r =? uid)%Z.
Definition verifyIncomingTx (l : Limits) (s : IncomingSource) (uid : Z) (marker : gostr) (encrypted : list Z) : Tx gostr :=
  row ← select (fun d =>
    match find_first (isReplacement s uid marker encrypted) (replacements d) with
    | Some _ => find_first (fun m => isMsg uid m && live m) (messages d)
    | None => None
    end);
  match row with
  | None => raise (ErrNew ($"verified native encrypted copy absent; preserve journal for reconciliation"))
  | Some m =>
      if (MessageBytes l <? rawSize m)%Z || negb (bool_decide (mRaw m = Some encrypted))
      then raise (ErrNew ($"native encrypted copy differs; action paused without modifying mail"))
      else mret (mFolder m)
  end.

(** The write of ReplaceIncoming: the copy takes the current flags, labels and
    date of the original. *)
Definition replaceRows (s : IncomingSource) (m : message) (marker : gostr) (encrypted : list Z) (h : gostr -> list gostr) : Tx Z :=
  id ← insertMessage (messageRow ($"INBOX") encrypted h (mAt m) (mSeen m) (mStarred m) (mDraft m) (mLabels m));
  tombstone (srcUID s) ;;
  insertReplacement (mkReplacement (srcUID s) marker (srcHash s) (hashIncoming encrypted) id) ;;
  change (srcUID s) ($"INBOX") true ;; change id ($"INBOX") false ;; mret id.

(** The UNIQUE constraints of incoming_replacements. *)
Definition replacementUnique (s : IncomingSource) (marker : gostr) (d : mailbox) : bool :=
  negb (existsb (fun r => (rpSource r =? srcUID s)%Z || (rpMarker r =s? marker)) (replacements d)).

Definition replaceIncoming (l : Limits) (now : Z) (s : IncomingSource) (marker : gostr) (encrypted : list Z) : Tx Z :=
  match checkIncomingReplacement l s marker encrypted with
  | Some e => raise e
  | None =>
      match rawMetadata now encrypted with
      | None => raise (ErrNew ($"invalid RFC5322 message; retain holding copy"))
      | Some (h, _) =>
          if negb (pgpEncrypted encrypted) then raise (ErrNew ($"incoming replacement is not readable PGP/MIME ciphertext; original preserved"))
          else
            old ← select (fun d => find_first (fun r => rpSource r =? srcUID s)%Z (replacements d));
            match old with
            | Some r =>
                if negb (rpMarker r =s? marker) || negb (rpSourceHash r =s? srcHash s) || negb (rpCipherHash r =s? hashIncoming encrypted)
                then raise ErrConflictMB
                else verifyIncomingTx l s (rpReplacement r) marker encrypted ;; mret (rpReplacement r)
            | None =>
                row ← select (fun d => find_first (fun m => isMsg (srcUID s) m && (mFolder m =s? $"INBOX") && live m) (messages d));
                match row with
                | None => raise ErrNotFoundMB
                | Some m =>
                    if (MessageBytes l <? rawSize m)%Z then raise ErrMessageTooLarge
                    else if negb (hashIncoming (default [] (mRaw m)) =s? srcHash s) then raise (ErrNew ($"native original changed; encryption paused without deleting mail"))
                    else
                      u ← select usage;
                      if (Records l <=? uRecords u)%Z || (PayloadBytes l - uBytes u <? Z.of_nat (length encrypted) - rawSize m)%Z then raise ErrCapacityMB
                      else
                        unique ← select (replacementUnique s marker);
                        assertTx unique ErrDB ;; replaceRows s m marker encrypted h
                end
            end
      end
  end.

(** ** The pending action *)

Inductive incomingAction :=
  | AKeyword (value : gostr) | AUnkeyword (value : gostr) | ARead | AStop | AMove (target : gostr) | AArchive | ASpam | ADelete.

Definition atomSpecials : gostr := [40; 41; 123; 32; 37; 42; 34; 92; 93]%Z.
Definition validKeyword (label : gostr) : bool :=
  let label := trimSpace label in
  negb (label =s? []) && forallb (fun r => (Z.leb 33 r && Z.leb r 126) && negb (bool_decide (r ∈ atomSpecials))) label.
Definition validMailboxName (name : gostr) : bool :=
  negb (trimSpace name =s? []) && forallb (fun r => negb (Z.ltb r 32 || (r =? 127)%Z) && negb ((r =? 92)%Z || (r =? 34)%Z)) name.

(** strings.SplitN(folder, "/", 2): the first part, and the rest. *)
Fixpoint splitFirst (s : gostr) : gostr * option gostr :=
  match s with
  | [] => ([], None)
  | c :: s' => if (c =? 47)%Z then ([], Some s') else let '(a, b) := splitFirst s' in (c :: a, b)
  end.
Definition normalizeFolder (folder : gostr) : option gostr :=
  let folder := trimSpace folder in
  let folder := if folder =s? [] then $"INBOX" else folder in
  let '(a, b) := splitFirst folder in
  let folder := if equalFold a ($"INBOX") then $"INBOX" ++ match b with Some r => 47%Z :: r | None => [] end else folder in
  if validMailboxName folder && validFolder folder then Some folder else None.

(** The destination of an action, [None] for those that stay. *)
Definition actionTarget (s : IncomingSource) (a : incomingAction) : res mbErr (option gostr) :=
  match a with
  | AKeyword v | AUnkeyword v => if validKeyword v then Ok None else Err (ErrNew ($"invalid keyword"))
  | ARead | AStop => Ok None
  | AMove v =>
      match normalizeFolder v with
      | Some t => if trimSpace v =s? [] then Err (ErrNew ($"invalid encrypted-mail destination")) else Ok (Some t)
      | None => Err (ErrNew ($"invalid encrypted-mail destination"))
      end
  | AArchive => Ok (Some ($"Archive/" ++ formatInt (srcYear s)))
  | ASpam => Ok (Some ($"Junk"))
  | ADelete => Ok (Some ($"Trash"))
  end.

Definition applyIncomingAction (l : Limits) (s : IncomingSource) (uid : Z) (marker : gostr) (encrypted : list Z) (a : incomingAction) : Tx unit :=
  match checkIncomingReplacement l s marker encrypted with
  | Some e => raise e
  | None =>
      if (uid <=? 0)%Z || (uid =? srcUID s)%Z then raise (ErrNew ($"invalid native encrypted action UID"))
      else match actionTarget s a with
      | Err e => raise e
      | Ok target =>
          folder ← verifyIncomingTx l s uid marker encrypted;
          match a with
          | AStop => mret tt
          | _ =>
              if bool_decide (target = Some folder) then mret tt
              else if negb (folder =s? $"INBOX") then raise (ErrNew ($"native encrypted copy moved outside expected folder; reconcile pending action"))
              else match a, target with
                   | AKeyword v, _ => editFlagsTx ($"INBOX") uid None v true
                   | AUnkeyword v, _ => editFlagsTx ($"INBOX") uid None v false
                   | ARead, _ => editFlagsTx ($"INBOX") uid (Some true) [] false
                   | _, Some t =>
                       if negb (validFolder t) then raise (ErrNew ($"invalid encrypted-mail destination"))
                       else insertFolderOrIgnore t ;; updateFolder (isMsg uid) t ;; change uid ($"INBOX") true ;; change uid t false
                   | _, None => mret tt
                   end
          end
      end
  end.
End Incoming.
