(* ===== verification/Outbox.v ===== *)
(** * Outbox: durable submission of outgoing mail
    (backend/internal/mailbox/outbox.go, cryptutil, mailmsg.NormalizeSMTPMessage)

    A job is queued whole and sealed under a key of its own; each delivery is
    claimed, submitted and completed; a finished job is compacted to a receipt.
    AES-GCM, HKDF and encoding/json are classes; the clock, the nonces and the
    claim tokens are arguments. *)

From S2P Require Import Prelude GoText GoCodec SendAs MailboxModel Mailbox.

(** ** Jobs *)

Record OutboundDelivery := mkOD { odRecipients : list gostr; odRaw : list Z }.
Record OutboundJob := mkJob {
  ojFrom : gostr; ojRelayGeneration : gostr; ojDeliveries : list OutboundDelivery; ojSent : list Z;
  ojMaterialGeneration : Z; ojDeviceID : gostr; ojDeviceWitness : gostr; ojNativeSendEpoch : Z; ojPGPRevision : Z;
  ojPGPFingerprint : gostr; ojDirectoryRevision : Z; ojFromGeneration : Z; ojRequiresEnrollment : bool; ojExpiresAt : Z;
  ojIntent : option (list Z);
}.
Record outboundReceipt := mkOR { orReceipt : Z; orFrom : gostr; orRelayGeneration : gostr; orDeliveries : Z; orIntent : list Z; orSent : gostr }.
Record OutboundStatus := mkOS { osSequence : Z; osState : gostr; osAttempts : Z; osNextAttempt : Z }.

Definition maxOutboundBytes : Z := Z.shiftl 128 20.

(** encoding/json on the two plaintexts ([ojIntent] is not written), AES-GCM
    under a key and a nonce, and the key HKDF derives from the master key and
    the job's binding to its mailbox. *)
Class OutboxLib := {
  marshalJob : OutboundJob -> list Z;
  unmarshalJob : list Z -> option OutboundJob;
  marshalReceipt : outboundReceipt -> list Z;
  unmarshalReceipt : list Z -> option outboundReceipt;
  gcmSeal : list Z -> list Z -> list Z -> list Z;
  gcmOpen : list Z -> list Z -> list Z -> option (list Z);
  outboxKDF : list Z -> gostr -> list Z;
}.

Definition outboundID (id : gostr) : bool := (utf8Len id =? 36)%Z && safePathComponent id.
Definition containsAny (s chars : gostr) : bool := existsb (fun r => bool_decide (r ∈ chars)) s.

(** ** NormalizeSMTPMessage *)

Fixpoint crlf (prev : Z) (msg : list Z) : list Z :=
  match msg with
  | [] => []
  | c :: msg' =>
      if (c =? 13)%Z && negb (bool_decide (head msg' = Some 10%Z)) then 13%Z :: 10%Z :: crlf c msg'
      else if (c =? 10)%Z && negb (prev =? 13)%Z then 13%Z :: 10%Z :: crlf c msg'
      else c :: crlf c msg'
  end.
(** No line is longer than 998 bytes, counted up to its line feed. *)
Fixpoint linesFit (n : Z) (msg : list Z) : bool :=
  match msg with
  | [] => (n <=? 998)%Z
  | c :: msg' => if (c =? 10)%Z then (n <=? 998)%Z && linesFit 0 msg' else linesFit (n + 1) msg'
  end.
Definition normalizeSMTPMessage (msg : list Z) : option (list Z) :=
  if bool_decide (0%Z ∈ msg) then None
  else let normalized := crlf 0 msg in if linesFit 0 normalized then Some normalized else None.

Section Outbox.
Context {U : Unicode} {ML : MailLib} {GF : GoTimeFormat} {OL : OutboxLib}.

(** ** cryptutil envelopes *)

Definition seal (payload key : list Z) (nonce : list Z) : option EncryptedPayload :=
  if negb (length key =? 32)%nat then None
  else Some (mkPayload 1 (base64Encode nonce) (base64Encode (gcmSeal key nonce payload))).
Definition parseEnvelope (e : EncryptedPayload) : bool :=
  (epVersion e =? 1)%Z && negb (trimSpace (epNonce e) =s? []) && negb (trimSpace (epCiphertext e) =s? []).
Definition openEnvelope (e : EncryptedPayload) (key : list Z) : option (list Z) :=
  if negb (length key =? 32)%nat then None
  else
    nonce ← base64Decode (epNonce e);
    if negb (length nonce =? 12)%nat then None
    else ct ← base64Decode (epCiphertext e); gcmOpen key nonce ct.

Definition outboundKey (master : list Z) (id : gostr) : option (list Z) :=
  if negb (length master =? 32)%nat || negb (outboundID id) then None else Some (outboxKDF master id).

(** ** validateOutbound *)

Definition singleAddress (h : gostr -> list gostr) (from : gostr) : bool :=
  bool_decide (parseAddress (headerGet h ($"From")) = Some from) && (length (h ($"From")) =? 1)%nat
  && (length (h ($"Bcc")) =? 0)%nat && (length (h ($"Resent-Bcc")) =? 0)%nat
  && (length (h ($"Resent-From")) =? 0)%nat && (length (h ($"Resent-Sender")) =? 0)%nat
  && match h ($"Sender") with [] => true | s :: l => bool_decide (l = []) && bool_decide (parseAddress s = Some from) end.

Fixpoint validRecipients (seen : list gostr) (l : list gostr) : option (list gostr) :=
  match l with
  | [] => Some seen
  | r :: l' =>
      if negb (bool_decide (parseAddress r = Some r)) || containsAny r [13; 10; 0]%Z || bool_decide (toLower r ∈ seen)
         || (100 <=? Z.of_nat (length seen))%Z then None
      else validRecipients (toLower r :: seen) l'
  end.

Definition validDelivery (limit : Z) (from : gostr) (d : OutboundDelivery) (seen : list gostr) : option (list gostr) :=
  let n := Z.of_nat (length (odRecipients d)) in
  if (n =? 0)%Z || (100 <? n)%Z || (limit <? Z.of_nat (length (odRaw d)))%Z then None
  else if negb (bool_decide (normalizeSMTPMessage (odRaw d) = Some (odRaw d))) then None
  else match readMessage (odRaw d) with
       | None => None
       | Some h => if negb (singleAddress h from) then None else validRecipients seen (odRecipients d)
       end.
Fixpoint validDeliveries (limit : Z) (from : gostr) (l : list OutboundDelivery) (seen : list gostr) : bool :=
  match l with
  | [] => true
  | d :: l' => match validDelivery limit from d seen with Some seen' => validDeliveries limit from l' seen' | None => false end
  end.

Definition validateOutbound (l : Limits) (now : Z) (job : OutboundJob) : option mbErr :=
  let n := Z.of_nat (length (ojDeliveries job)) in
  if negb (bool_decide (parseAddress (ojFrom job) = Some (ojFrom job))) || containsAny (ojFrom job) [13; 10; 0]%Z
     || negb (outboundID (ojRelayGeneration job)) || (n =? 0)%Z || (100 <? n)%Z || (512 <? utf8Len (ojDeviceID job))%Z
     || (64 <? utf8Len (ojDeviceWitness job))%Z || (128 <? utf8Len (ojPGPFingerprint job))%Z
     || (ojDirectoryRevision job <? 0)%Z || (ojFromGeneration job <? 0)%Z || (ojExpiresAt job <? 0)%Z
     || negb (bool_decide (64%Z ∈ ojFrom job)) then Some ErrOutbound
  else if (MessageBytes l <? Z.of_nat (length (ojSent job)))%Z then Some ErrMessageTooLarge
  else if negb (bool_decide (ojSent job = [])) && negb (bool_decide (is_Some (rawMetadata now (ojSent job)))) then Some ErrOutbound
  else if negb (validDeliveries (MessageBytes l) (ojFrom job) (ojDeliveries job) []) then Some ErrOutbound
  else if (Z.shiftl 64 20 <? Z.of_nat (length (ojSent job)) + foldr (fun d n => Z.of_nat (length (odRaw d)) + n) 0 (ojDeliveries job))%Z
  then Some ErrMessageTooLarge
  else None.

(** ** Statements *)

Definition isJob (id : gostr) (o : outboxRow) : bool := oID o =s? id.
Definition isDelivery (id : gostr) (seq : Z) (d : deliveryRow) : bool := (dJob d =s? id) && (dSeq d =? seq)%Z.

(** INSERT INTO outbox and outbox_deliveries, with their keys and
    triggers; UPDATE outbox. *)
Definition insertOutbox (o : outboxRow) : Tx unit := fun d =>
  if existsb (isJob (oID o)) (outbox d) then Err ErrDB
  else Ok (tt, bump (cipherLen (oCipher o) + oSentBytes o) (1 + oSentReserved o) (setOutbox (outbox d ++ [o]) d)).
Definition outboxDelta (f : outboxRow -> outboxRow) (o : outboxRow) : Z :=
  (cipherLen (oCipher (f o)) - cipherLen (oCipher o) + oSentBytes (f o) - oSentBytes o)%Z.
Definition updateOutbox (id : gostr) (f : outboxRow -> outboxRow) : Tx unit :=
  exec (fun d =>
    bump (foldr (fun o n => (if isJob id o then outboxDelta f o else 0) + n)%Z 0%Z (outbox d))
         (foldr (fun o n => (if isJob id o then oSentReserved (f o) - oSentReserved o else 0) + n)%Z 0%Z (outbox d))
         (setOutbox (updateWhere (isJob id) f (outbox d)) d)).
Definition insertDelivery (r : deliveryRow) : Tx unit := fun d =>
  if existsb (isDelivery (dJob r) (dSeq r)) (deliveries d) || negb (existsb (isJob (dJob r)) (outbox d)) then Err ErrDB
  else Ok (tt, bump 0 1 (setDeliveries (deliveries d ++ [r]) d)).
Definition updateDelivery (p : deliveryRow -> bool) (f : deliveryRow -> deliveryRow) : Tx unit :=
  exec (fun d => setDeliveries (updateWhere p f (deliveries d)) d).

(** The rows the updates write. *)
Definition claimRow (claim : gostr) (r : deliveryRow) : deliveryRow := mkDelivery (dJob r) (dSeq r) ($"submitting") claim (dAttempts r + 1) 0.
Definition completeRow (outcome : gostr) (retryAt : Z) (r : deliveryRow) : deliveryRow :=
  mkDelivery (dJob r) (dSeq r) outcome (dClaim r) (dAttempts r) retryAt.
Definition quarantineRow (r : deliveryRow) : deliveryRow := mkDelivery (dJob r) (dSeq r) ($"quarantined") (dClaim r) (dAttempts r) 0.
Definition withCipher (e : EncryptedPayload) (o : outboxRow) : outboxRow :=
  mkOutbox (oID o) e (oSentBytes o) (oSentReserved o) (oSentID o) (oCreated o).
Definition withSent (sent : Z) (o : outboxRow) : outboxRow := mkOutbox (oID o) (oCipher o) 0 0 (Some sent) (oCreated o).

(** ** readOutbound *)

Definition filed (sentID : Z) (digest : gostr) (d : mailbox) : bool :=
  match find_first (isMsg sentID) (messages d) with Some m => mDigest m =s? digest | None => false end.

Definition finalState (s : gostr) : bool := (s =s? $"accepted") || (s =s? $"failed").
Definition openState (s : gostr) : bool :=
  (s =s? $"queued") || (s =s? $"submitting") || (s =s? $"retryable") || (s =s? $"uncertain") || (s =s? $"quarantined").

Definition statusOK (compacted : bool) (n : Z) (r : deliveryRow) : bool :=
  negb (negb (dSeq r =? n)%Z || (dAttempts r <? 0)%Z || (6 <? dAttempts r)%Z || (dNext r <? 0)%Z
        || ((dState r =s? $"queued") && (negb (dAttempts r =? 0)%Z || negb (dClaim r =s? [])))
        || (negb (dState r =s? $"queued") && negb (dState r =s? $"quarantined")
            && (negb (outboundID (dClaim r)) || (dAttempts r =? 0)%Z)))
  && (finalState (dState r) || (openState (dState r) && negb compacted)).
Fixpoint readStatuses (compacted : bool) (n : Z) (l : list deliveryRow) : option (list OutboundStatus) :=
  match l with
  | [] => Some []
  | r :: l' =>
      if statusOK compacted n r then cons (mkOS (dSeq r) (dState r) (dAttempts r) (dNext r)) <$> readStatuses compacted (n + 1) l'
      else None
  end.
Definition bySeq (a b : deliveryRow) : bool := (dSeq a <? dSeq b)%Z.
Definition rowsOf (id : gostr) (d : mailbox) : list deliveryRow := sortStable bySeq (List.filter (fun r => dJob r =s? id) (deliveries d)).

Definition receiptPrefix : list Z := [123; 34; 82; 101; 99; 101; 105; 112; 116; 34; 58; 49; 44]%Z.
Definition receiptJob (r : outboundReceipt) : OutboundJob :=
  mkJob (orFrom r) (orRelayGeneration r) (replicate (Z.to_nat (orDeliveries r)) (mkOD [] [])) [] 0 [] [] 0 0 [] 0 0 false 0 (Some (orIntent r)).

(** The plaintext of a row: a receipt, or a valid job whose reservation agrees. *)
Definition readPlain (l : Limits) (now : Z) (o : outboxRow) (plain : list Z) (d : mailbox) : option OutboundJob :=
  if bool_decide (take (length receiptPrefix) plain = receiptPrefix) then
    r ← unmarshalReceipt plain;
    if negb (orReceipt r =? 1)%Z || negb (bool_decide (parseAddress (orFrom r) = Some (orFrom r))) || negb (bool_decide (64%Z ∈ orFrom r))
       || negb (outboundID (orRelayGeneration r)) || (orDeliveries r <? 1)%Z || (100 <? orDeliveries r)%Z
       || negb (length (orIntent r) =? 32)%nat || negb (oSentBytes o =? 0)%Z || negb (oSentReserved o =? 0)%Z
       || negb (eqb (bool_decide (is_Some (oSentID o))) (negb (orSent r =s? [])))
       || match oSentID o with Some sid => negb (filed sid (orSent r) d) | None => false end
    then None else Some (receiptJob r)
  else
    job ← unmarshalJob plain;
    match validateOutbound l now job with
    | Some _ => None
    | None =>
        match oSentID o with
        | Some sid =>
            if negb (oSentBytes o =? 0)%Z || negb (oSentReserved o =? 0)%Z || bool_decide (ojSent job = [])
               || negb (filed sid (hashIncoming (ojSent job)) d) then None else Some job
        | None =>
            if negb (oSentBytes o =? Z.of_nat (length (ojSent job)))%Z
               || negb (oSentReserved o =? (if bool_decide (ojSent job = []) then 0 else 1))%Z then None else Some job
        end
    end.

Definition readOutbound (l : Limits) (now : Z) (master : list Z) (id : gostr) (d : mailbox) : option (OutboundJob * list OutboundStatus * Z) :=
  key ← outboundKey master id;
  o ← find_first (isJob id) (outbox d);
  if (maxOutboundBytes <? cipherLen (oCipher o))%Z || negb (parseEnvelope (oCipher o)) then None
  else
    plain ← openEnvelope (oCipher o) key;
    job ← readPlain l now o plain d;
    statuses ← readStatuses (bool_decide (is_Some (ojIntent job))) 0 (rowsOf id d);
    if negb (length statuses =? length (ojDeliveries job))%nat then None
    else Some (job, statuses, default 0%Z (oSentID o)).

Definition readTx (l : Limits) (now : Z) (master : list Z) (id : gostr) : Tx (OutboundJob * list OutboundStatus * Z) :=
  r ← select (readOutbound l now master id); match r with Some x => mret x | None => raise ErrOutbound end.

(** ** QueueOutbound *)

Definition jobIntent (plain : list Z) : list Z := sha256Bytes plain.

Fixpoint insertDeliveries (id : gostr) (n : nat) (l : list OutboundDelivery) : Tx unit :=
  match l with
  | [] => mret tt
  | _ :: l' => insertDelivery (mkDelivery id (Z.of_nat n) ($"queued") [] 0 0) ;; insertDeliveries id (S n) l'
  end.

Definition queueOutbound (l : Limits) (now : Z) (space : option (Z * Z)) (master nonce : list Z) (id : gostr) (job : OutboundJob) : Tx unit :=
  match validateOutbound l now job with
  | Some e => raise e
  | None =>
      match outboundKey master id ≫= fun key => seal (marshalJob job) key nonce with
      | None => raise ErrOutbound
      | Some sealed =>
          assertTx (cipherLen sealed <=? maxOutboundBytes)%Z ErrOutbound ;;
          exists_ ← select (fun d => existsb (isJob id) (outbox d));
          if (exists_ : bool) then
            '(prior, _, _) ← readTx l now master id;
            let same := match ojIntent prior with
                        | Some intent => bool_decide (intent = jobIntent (marshalJob job))
                        | None => bool_decide (marshalJob prior = marshalJob job) end in
            assertTx same ErrConflictMB
          else
            u ← select usage;
            let sent := Z.of_nat (length (ojSent job)) in
            let reserved := if bool_decide (ojSent job = []) then 0%Z else 1%Z in
            assertTx (negb ((Records l <? uRecords u + (1 + Z.of_nat (length (ojDeliveries job)) + reserved))%Z
                            || (PayloadBytes l - uBytes u <? cipherLen sealed + sent)%Z)) ErrCapacityMB ;;
            checkReserve space (cipherLen sealed + sent) false ;;
            insertOutbox (mkOutbox id sealed sent reserved None now) ;;
            insertDeliveries id 0 (ojDeliveries job)
      end
  end.

(** ** Claim and completion *)

Definition statusAt (seq : Z) (l : list OutboundStatus) : option OutboundStatus := if (seq <? 0)%Z then None else l !! Z.to_nat seq.

(** [token] is what NewUUIDv4 drew, if it succeeded. *)
Definition claimOutbound (l : Limits) (now : Z) (master : list Z) (id : gostr) (seq : Z) (generation : gostr) (token : option gostr) :
    Tx (OutboundDelivery * gostr) :=
  '(job, statuses, _) ← readTx l now master id;
  match statusAt seq statuses, ojDeliveries job !! Z.to_nat seq with
  | Some status, Some delivery =>
      if negb (ojRelayGeneration job =s? generation) || bool_decide (is_Some (ojIntent job)) then raise ErrOutbound
      else if negb ((osState status =s? $"queued") || (osState status =s? $"retryable")) || (now <? osNextAttempt status)%Z
              || (6 <=? osAttempts status)%Z then raise ErrOutbound
      else match token with
           | None => raise (ErrNew ($"uuid"))
           | Some claim =>
               updateDelivery (isDelivery id seq) (claimRow claim) ;;
               mret (delivery, claim)
           end
  | _, _ => raise ErrOutbound
  end.

(** A submission error, as errors.Is and errors.As see it. *)
Record submissionError := mkSubmission { seAccepted : bool; seUncertain : bool; seCode : option Z }.

Definition outcomeOf (now attempts : Z) (submission : option submissionError) : gostr * Z :=
  match submission with
  | None => ($"accepted", 0%Z)
  | Some e =>
      if seAccepted e then ($"accepted", 0%Z)
      else if seUncertain e then ($"uncertain", 0%Z)
      else match seCode e with
           | Some code =>
               if Z.leb 400 code && Z.leb code 599 then
                 if (code <? 500)%Z && (attempts <? 6)%Z then ($"retryable", now + 30 * Z.shiftl 1 (attempts - 1))%Z
                 else ($"failed", 0%Z)
               else ($"uncertain", 0%Z)
           | None => ($"uncertain", 0%Z)
           end
  end.

(** compactOutbound: whatever fails keeps the job whole. *)
Definition receiptOf (job : OutboundJob) (sent : Z) : outboundReceipt :=
  mkOR 1 (ojFrom job) (ojRelayGeneration job) (Z.of_nat (length (ojDeliveries job))) (jobIntent (marshalJob job))
       (if (0 <? sent)%Z then hashIncoming (ojSent job) else []).
Definition compactOutbound (l : Limits) (now : Z) (master nonce : list Z) (id : gostr) : Tx unit :=
  r ← select (readOutbound l now master id);
  match r with
  | None => mret tt
  | Some (job, statuses, sent) =>
      if bool_decide (is_Some (ojIntent job)) || (negb (bool_decide (ojSent job = [])) && (sent =? 0)%Z) then mret tt
      else if negb (forallb (fun s => finalState (osState s)) statuses) then mret tt
      else match outboundKey master id ≫= fun key => seal (marshalReceipt (receiptOf job sent)) key nonce with
           | None => mret tt
           | Some sealed => updateOutbox id (withCipher sealed)
           end
  end.

Definition completeOutbound (l : Limits) (now : Z) (master nonce : list Z) (id : gostr) (seq : Z) (claim : gostr)
    (submission : option submissionError) : Tx unit :=
  if negb (outboundID id) || negb (outboundID claim) then raise ErrOutbound
  else
    row ← select (fun d => find_first (isDelivery id seq) (deliveries d));
    match row with
    | None => raise ErrOutbound
    | Some r =>
        if negb (dState r =s? $"submitting") || negb (dClaim r =s? claim) || (dAttempts r <? 1)%Z || (6 <? dAttempts r)%Z then raise ErrOutbound
        else
          let '(outcome, retryAt) := outcomeOf now (dAttempts r) submission in
          updateDelivery (isDelivery id seq) (completeRow outcome retryAt) ;;
          if finalState outcome then compactOutbound l now master nonce id else mret tt
    end.

(** ** The Sent copy *)

Definition sentRow (job : OutboundJob) (h : gostr -> list gostr) (at_ : Z) : message :=
  messageRow ($"Sent") (ojSent job) h (formatTime at_) true false false [].
Definition fileOutboundSent (l : Limits) (now : Z) (master nonce : list Z) (id : gostr) : Tx Z :=
  '(job, statuses, sent) ← readTx l now master id;
  if (0 <? sent)%Z then mret sent
  else if negb (existsb (fun s => osState s =s? $"accepted") statuses) || bool_decide (ojSent job = []) then raise ErrOutbound
  else match rawMetadata now (ojSent job) with
       | None => raise ErrOutbound
       | Some (h, at_) =>
           sent ← insertMessage (sentRow job h at_);
           updateOutbox id (withSent sent) ;;
           change sent ($"Sent") false ;;
           compactOutbound l now master nonce id ;; mret sent
       end.

(** ** Quarantine and discovery *)

Definition quarantinable (s : gostr) : bool := (s =s? $"queued") || (s =s? $"retryable") || (s =s? $"quarantined").
Definition quarantineOutbound (id : gostr) (seq : Z) : Tx unit :=
  if negb (outboundID id) || (seq <? 0)%Z then raise ErrOutbound
  else
    n ← select (fun d => length (List.filter (fun r => isDelivery id seq r && quarantinable (dState r)) (deliveries d)));
    updateDelivery (fun r => isDelivery id seq r && quarantinable (dState r)) quarantineRow ;;
    assertTx (n =? 1)%nat ErrOutbound.

(** PendingOutbound: jobs with a delivery due whose first delivery was accepted,
    or with an unfiled Sent copy. *)
Definition due (now : Z) (d : mailbox) (o : outboxRow) : bool :=
  existsb (fun r => (dJob r =s? oID o) &&
    (((dState r =s? $"queued") || (dState r =s? $"retryable")) && (dNext r <=? now)%Z
       && ((dSeq r =? 0)%Z || existsb (fun p => isDelivery (oID o) 0 p && (dState p =s? $"accepted")) (deliveries d))
     || (dSeq r =? 0)%Z && (dState r =s? $"accepted") && (oSentReserved o =? 1)%Z)) (deliveries d).
Definition byCreated (a b : outboxRow) : bool :=
  (oCreated a <? oCreated b)%Z || ((oCreated a =? oCreated b)%Z && strLtb (oID a) (oID b)).
Definition pendingOutbound (now limit : Z) : Tx (list gostr) :=
  if (limit <? 1)%Z || (1000 <? limit)%Z then raise ErrOutbound
  else
    rows ← select (fun d => take (Z.to_nat limit) (sortStable byCreated (List.filter (due now d) (outbox d))));
    assertTx (forallb (fun o => outboundID (oID o) && (0 <? oCreated o)%Z) rows) ErrOutbound ;;
    mret (oID <$> rows).
End Outbox.
