(* ===== verification/MailboxRun.v ===== *)
(** * MailboxRun: calls on the mail store, and how invariants pass through them

    A call is a method with its arguments, the clock, the free space and whether
    the database accepts the transaction.  [Frame] collects what it takes for a
    property to survive every statement; it then survives every call. *)

From S2P Require Import Prelude GoText GoCodec SendAs MailboxModel Mailbox MailboxIncoming Outbox.

Inductive mbOp :=
  | OImport (receipt : Receipt) (input : option (list Z))
  | OAppend (folder : gostr) (input : option (list Z)) (draft : bool)
  | OImportMessage (folder : gostr) (raw : list Z) (meta : ImportMeta)
  | OUpdate (folder : gostr) (id : Z) (seen starred : bool) (labels : list gostr)
  | OEditFlags (folder : gostr) (id : Z) (seen : option bool) (label : gostr) (add : bool)
  | OEnsureLabel (label : gostr)
  | OMove (folder : gostr) (id : Z) (target : gostr)
  | ODelete (folder : gostr) (id : Z)
  | OCreateFolder (name : gostr)
  | OCreateFolderUnder (parent target : gostr)
  | ODeleteFolder (name : gostr)
  | ORenameFolder (folder target : gostr)
  | ODeleteToParent (folder : gostr)
  | OReplaceIncoming (s : IncomingSource) (marker : gostr) (encrypted : list Z)
  | OIncomingAction (s : IncomingSource) (uid : Z) (marker : gostr) (encrypted : list Z) (a : incomingAction)
  | OQueue (id : gostr) (job : OutboundJob) (nonce : list Z)
  | OClaim (id : gostr) (seq : Z) (generation : gostr) (token : option gostr)
  | OComplete (id : gostr) (seq : Z) (claim : gostr) (submission : option submissionError) (nonce : list Z)
  | OFileSent (id : gostr) (nonce : list Z)
  | OQuarantine (id : gostr) (seq : Z).

Record mbCall := mkCall { callNow : Z; callSpace : option (Z * Z); callUp : bool; callOp : mbOp }.
Inductive mbAnswer := AnsUnit | AnsID (id : Z) | AnsClaim (d : OutboundDelivery) (claim : gostr).

(** ** Statements, forwards and backwards *)

Lemma wp_insertMessage m Q d :
  (mFolder m ∈ folders d -> Q (Z.of_nat (length (messages d)) + 1)%Z
     (bump (rawSize m) 1 (setMessages (messages d ++ [mkMessage (Z.of_nat (length (messages d)) + 1) (mFolder m) (mRaw m) (mDigest m)
        (mSender m) (mSubject m) (mTo m) (mCc m) (mBcc m) (mAt m) (mSeen m) (mStarred m) (mDraft m) (mLabels m)]) d))) ->
  wp (insertMessage m) Q d.
Proof. unfold wp, insertMessage. case_bool_decide; auto. Qed.

Lemma insertMessage_ok m d id d' : insertMessage m d = Ok (id, d') ->
  mFolder m ∈ folders d /\ id = (Z.of_nat (length (messages d)) + 1)%Z /\
  d' = bump (rawSize m) 1 (setMessages (messages d ++ [mkMessage id (mFolder m) (mRaw m) (mDigest m)
        (mSender m) (mSubject m) (mTo m) (mCc m) (mBcc m) (mAt m) (mSeen m) (mStarred m) (mDraft m) (mLabels m)]) d).
Proof. unfold insertMessage. case_bool_decide; [|done]. by intros [= <- <-]. Qed.

Lemma wp_insertOutbox o Q d :
  (existsb (isJob (oID o)) (outbox d) = false ->
   Q tt (bump (cipherLen (oCipher o) + oSentBytes o) (1 + oSentReserved o) (setOutbox (outbox d ++ [o]) d))) -> wp (insertOutbox o) Q d.
Proof. unfold wp, insertOutbox. destruct (existsb _ _); auto. Qed.
Lemma wp_insertDelivery r Q d :
  (existsb (isDelivery (dJob r) (dSeq r)) (deliveries d) = false -> existsb (isJob (dJob r)) (outbox d) = true ->
   Q tt (bump 0 1 (setDeliveries (deliveries d ++ [r]) d))) ->
  wp (insertDelivery r) Q d.
Proof. unfold wp, insertDelivery. destruct (existsb _ _), (existsb (isJob _) _); simpl; auto. Qed.

(** One step backwards through a transaction that answered. *)
Ltac txstep :=
  match goal with
  | H : insertMessage _ _ = Ok (_, _) |- _ => apply insertMessage_ok in H as (? & -> & ->)
  | _ => tx_step
  end.

(** ** Updates and filters of a table *)

Lemma length_updateWhere {A} (p : A -> bool) f l : length (updateWhere p f l) = length l.
Proof. apply length_fmap. Qed.
Lemma updateWhere_same {A B} (g : A -> B) p f l : (forall x, g (f x) = g x) -> g <$> updateWhere p f l = g <$> l.
Proof. intros H. unfold updateWhere. rewrite <- list_fmap_compose. apply list_fmap_ext. intros i x _. simpl. by destruct (p x). Qed.
Lemma elem_of_updateWhere {A} (p : A -> bool) f l y : y ∈ updateWhere p f l <-> exists x, x ∈ l /\ y = (if p x then f x else x).
Proof. unfold updateWhere. rewrite list_elem_of_fmap. naive_solver. Qed.
Lemma find_first_updateWhere {A} (p q : A -> bool) f l : (forall x, p (f x) = p x) ->
  find_first p (updateWhere q f l) = (fun x => if q x then f x else x) <$> find_first p l.
Proof.
  intros H. induction l as [|x l IH]; [done|]. change (updateWhere q f (x :: l)) with ((if q x then f x else x) :: updateWhere q f l). simpl.
  destruct (q x) eqn:Eq; rewrite ?H; destruct (p x); simpl; rewrite ?Eq; try done; apply IH.
Qed.
Lemma filter_updateWhere {A} (p q : A -> bool) f l : (forall x, p (f x) = p x) -> List.filter p (updateWhere q f l) = updateWhere q f (List.filter p l).
Proof.
  intros H. induction l as [|x l IH]; [done|]. change (updateWhere q f (x :: l)) with ((if q x then f x else x) :: updateWhere q f l). simpl.
  destruct (q x) eqn:Eq; rewrite ?H; destruct (p x); simpl; rewrite ?Eq, ?IH; done.
Qed.
Lemma updateWhere_none {A} (q : A -> bool) f l : (forall x, x ∈ l -> q x = false) -> updateWhere q f l = l.
Proof. intros H. unfold updateWhere. rewrite <- (list_fmap_id l) at 2. apply list_fmap_ext. intros i x Hx%list_elem_of_lookup_2. by rewrite H. Qed.

(** ** Names of folders *)

(** A folder below another one is no system folder. *)
Lemma slash_not_system (f : gostr) : 47%Z ∈ f -> f ∉ systemFolders.
Proof.
  intros Hin Hs. unfold systemFolders in Hs. rewrite !elem_of_cons, elem_of_nil in Hs.
  repeat (destruct Hs as [->|Hs]; [apply (bool_decide_eq_true_2 _) in Hin; by vm_compute in Hin|]). done.
Qed.
Lemma parentOf_slash f p : parentOf f = Some p -> 47%Z ∈ f.
Proof.
  revert p. induction f as [|c f IH]; intros p; simpl; [done|]. destruct (parentOf f) as [q|].
  - intros _. right. by eapply IH.
  - destruct (Z.eqb_spec c 47); [|done]. subst. intros _. left.
Qed.
Lemma parentOf_length s q : parentOf s = Some q -> (length q < length s)%nat.
Proof.
  revert q. induction s as [|c s IH]; intros q; simpl; [done|]. destruct (parentOf s) as [r|] eqn:E.
  - intros [= <-]. simpl. specialize (IH r eq_refl). lia.
  - destruct (c =? 47)%Z; [|done]. intros [= <-]. simpl. lia.
Qed.
Lemma hasPrefix_app p s : hasPrefix p s = true -> exists t, s = p ++ t.
Proof.
  revert s. induction p as [|c p IH]; intros [|c' s]; simpl; try done; [by eexists|by eexists|].
  destruct (Z.eqb_spec c c'); simpl; [|done]. subst. intros [t ->]%IH. by exists t.
Qed.
Lemma below_slash p f : below p f = true -> 47%Z ∈ f.
Proof. intros [t ->]%hasPrefix_app. set_solver. Qed.

Lemma renamed_not_system f d : f ∉ systemFolders ->
  Forall (fun n => n ∉ systemFolders) (sortStable strLtb (List.filter (fun n => (n =s? f) || below f n) (folders d))).
Proof.
  intros Hf. rewrite sortStable_perm. apply Forall_forall. intros n Hn%list_elem_of_In%filter_In. destruct Hn as [_ Hn].
  apply orb_true_iff in Hn as [Hn|Hn]; to_prop; [by subst|]. by eapply slash_not_system, below_slash.
Qed.

Section Run.
Context {U : Unicode} {SS : SortSlice} {ML : MailLib} {GF : GoTimeFormat} {OL : OutboxLib}.
Variable limits : Limits.
Variable account : gostr.
Variable master : list Z.

Definition unitAns (m : Tx unit) : Tx mbAnswer := m ;; mret AnsUnit.
Definition idAns (m : Tx Z) : Tx mbAnswer := id ← m; mret (AnsID id).

Definition runOp (now : Z) (space : option (Z * Z)) (o : mbOp) : Tx mbAnswer :=
  match o with
  | OImport r input => idAns (import limits now space r input)
  | OAppend folder input draft => idAns (appendLocal limits now space folder input draft)
  | OImportMessage folder raw meta => idAns (append_ limits now space folder (Some raw) None false (Some meta))
  | OUpdate folder id seen starred labels => unitAns (update folder id seen starred labels)
  | OEditFlags folder id seen label add => unitAns (editFlagsTx folder id seen label add)
  | OEnsureLabel label => unitAns (ensureLabelTx label)
  | OMove folder id target => unitAns (move folder id target)
  | ODelete folder id => unitAns (delete_ folder id)
  | OCreateFolder name => unitAns (createFolderRow name)
  | OCreateFolderUnder parent target => unitAns (createFolderUnder parent target)
  | ODeleteFolder name => unitAns (deleteFolder name)
  | ORenameFolder folder target => unitAns (renameFolder folder target)
  | ODeleteToParent folder => unitAns (deleteFolderToParent folder)
  | OReplaceIncoming s marker encrypted => idAns (replaceIncoming account limits now s marker encrypted)
  | OIncomingAction s uid marker encrypted a => unitAns (applyIncomingAction account limits s uid marker encrypted a)
  | OQueue id job nonce => unitAns (queueOutbound limits now space master nonce id job)
  | OClaim id seq generation token => '(d, claim) ← claimOutbound limits now master id seq generation token; mret (AnsClaim d claim)
  | OComplete id seq claim submission nonce => unitAns (completeOutbound limits now master nonce id seq claim submission)
  | OFileSent id nonce => idAns (fileOutboundSent limits now master nonce id)
  | OQuarantine id seq => unitAns (quarantineOutbound id seq)
  end.

Definition stepM (c : mbCall) (d : mailbox) : res mbErr mbAnswer * mailbox :=
  transact (callUp c) (runOp (callNow c) (callSpace c) (callOp c)) d.

(** A call that answers did so through its transaction. *)
Lemma stepM_ok c d r d' : stepM c d = (r, d') ->
  (exists e, r = Err e /\ d' = d) \/ (exists a, r = Ok a /\ runOp (callNow c) (callSpace c) (callOp c) d = Ok (a, d') /\ callUp c = true).
Proof.
  unfold stepM, transact. destruct (callUp c); simpl; [|intros [= <- <-]; eauto].
  destruct (runOp _ _ _ d) as [[a d2]|e]; intros [= <- <-]; eauto 10.
Qed.

(** ** Properties every statement keeps

    Grouped by the tables the statements write: edits of what is there, new
    messages, the outbox, its deliveries.  [T] is the messages whose bytes may be
    dropped. *)

Record EditFrame (T : Z -> Prop) (I : mailbox -> Prop) : Prop := {
  fr_updateFolder p f : keeps I (updateFolder p f);
  fr_updateFlags id a b l : keeps I (updateFlags id a b l);
  fr_tombstone id : T id -> keeps I (tombstone id);
  fr_change id f r : keeps I (change id f r);
  fr_insertFolder f : keeps I (insertFolder f);
  fr_insertFolderOrIgnore f : keeps I (insertFolderOrIgnore f);
  fr_deleteFolderRow f : f ∉ systemFolders -> keeps I (deleteFolderRow f);
  fr_insertImported id : keeps I (insertImported id);
  fr_insertLabel n : keeps I (insertLabel n);
  fr_insertReplacement r : keeps I (insertReplacement r);
}.
Record MailFrame (T : Z -> Prop) (I : mailbox -> Prop) : Prop := {
  fr_edit :> EditFrame T I;
  fr_insertMessage m : keeps I (insertMessage m);
  fr_insertReceipt r : keeps I (insertReceipt r);
}.
#[local] Hint Resolve fr_edit fr_insertMessage fr_updateFolder fr_updateFlags fr_tombstone
  fr_change fr_insertFolder fr_insertFolderOrIgnore fr_deleteFolderRow fr_insertReceipt fr_insertImported fr_insertLabel
  fr_insertReplacement : mbkeeps.

(** The message whose bytes a call drops. *)
Definition removes (o : mbOp) (id : Z) : Prop :=
  match o with ODelete _ i => i = id | OReplaceIncoming s _ _ => srcUID s = id | _ => False end.

(** Calls that change no outbox row; those that add no message either. *)
Definition editOp (o : mbOp) : bool :=
  match o with
  | OUpdate _ _ _ _ _ | OEditFlags _ _ _ _ _ | OEnsureLabel _ | OMove _ _ _ | ODelete _ _ | OCreateFolder _ | OCreateFolderUnder _ _
  | ODeleteFolder _ | ORenameFolder _ _ | ODeleteToParent _ | OIncomingAction _ _ _ _ _ => true
  | _ => false
  end.
Definition mailOp (o : mbOp) : bool :=
  match o with
  | OImport _ _ | OAppend _ _ _ | OImportMessage _ _ _ | OReplaceIncoming _ _ _ => true
  | _ => editOp o
  end.

Section Edits.
Context (T : Z -> Prop) (I : mailbox -> Prop) (E : EditFrame T I).

Lemma keeps_ensureLabelTx x : keeps I (ensureLabelTx x).
Proof. unfold ensureLabelTx. walk. Qed.
Lemma keeps_ensureLabels l : keeps I (ensureLabels l).
Proof. induction l; simpl; pose proof keeps_ensureLabelTx; walk. Qed.
Lemma keeps_editFlagsTx f id s x b : keeps I (editFlagsTx f id s x b).
Proof. unfold editFlagsTx. pose proof keeps_ensureLabelTx. walk. Qed.
Lemma keeps_update f id a b l : keeps I (update f id a b l).
Proof. unfold update. pose proof keeps_ensureLabels. walk. Qed.
Lemma keeps_relocate f id t : (t = None -> T id) -> keeps I (relocate f id t).
Proof. intros Ht. unfold relocate. pose proof (fr_tombstone T I E id). destruct t; [|specialize (Ht eq_refl)]; walk. Qed.
Lemma keeps_moved l a b : keeps I (moved l a b).
Proof. induction l; simpl; walk. Qed.
Lemma keeps_renameAll f t l : Forall (fun n => n ∉ systemFolders) l -> keeps I (renameAll f t l).
Proof. induction 1; simpl; unfold renameOne; pose proof keeps_moved; walk. Qed.
Lemma keeps_moveEach l a b : keeps I (moveEach l a b).
Proof. induction l; simpl; walk. Qed.
Lemma keeps_moveBatches n after a b : keeps I (moveBatches n after a b).
Proof. revert after. induction n; intros; simpl; pose proof keeps_moveEach; walk. Qed.

Lemma keeps_deleteFolder f : keeps I (deleteFolder f).
Proof. unfold deleteFolder. case_bool_decide; [eauto with mbkeeps|]. pose proof (fr_deleteFolderRow T I E f). walk. Qed.
Lemma keeps_renameFolder f t : keeps I (renameFolder f t).
Proof.
  unfold renameFolder. destruct (_ || _); [eauto with mbkeeps|]. case_bool_decide; [eauto with mbkeeps|].
  apply keeps_query. intros d. apply keeps_bind; [eauto with mbkeeps|]. intros _. apply keeps_renameAll.
  by apply renamed_not_system.
Qed.
Lemma keeps_deleteFolderToParent f : keeps I (deleteFolderToParent f).
Proof.
  unfold deleteFolderToParent. destruct (parentOf f) as [p|] eqn:Ep; [|auto with mbkeeps].
  pose proof (fr_deleteFolderRow T I E f (slash_not_system _ (parentOf_slash _ _ Ep))). pose proof keeps_moveBatches. walk.
Qed.

Lemma keeps_editOp now space o : (forall id, removes o id -> T id) -> editOp o = true -> keeps I (runOp now space o).
Proof.
  intros HT. assert (forall f id t, o = OMove f id t -> keeps I (relocate f id (Some t))) by (intros; by apply keeps_relocate).
  assert (forall f id, o = ODelete f id -> keeps I (relocate f id None)) by (intros f id ->; apply keeps_relocate; intros _; by apply HT).
  pose proof keeps_ensureLabelTx. pose proof keeps_editFlagsTx. pose proof keeps_update.
  pose proof keeps_deleteFolder. pose proof keeps_renameFolder. pose proof keeps_deleteFolderToParent.
  destruct o; intros Ho; try discriminate Ho;
    unfold runOp, unitAns, idAns, move, delete_, createFolderRow, createFolderUnder, verifyIncomingTx, applyIncomingAction; walk.
Qed.
End Edits.

(** Only a delivery writes a receipt. *)
Definition isImport (o : mbOp) : bool := match o with OImport _ _ => true | _ => false end.

Lemma keeps_copyOp (T : Z -> Prop) (I : mailbox -> Prop) now space o :
  EditFrame T I -> (forall m, keeps I (insertMessage m)) -> (forall id, removes o id -> T id) -> mailOp o = true -> isImport o = false -> keeps I (runOp now space o).
Proof.
  intros E HM HT Ho Hi. destruct (editOp o) eqn:Ee; [by apply (keeps_editOp T)|].
  assert (forall l now sp f i b m, keeps I (append_ l now sp f i None b m)) by (intros; unfold append_, appendNew, checkReserve; walk).
  destruct o; try discriminate Ho; try discriminate Ee; try discriminate Hi; try pose proof (fr_tombstone T I E _ (HT _ eq_refl));
    unfold runOp, idAns, appendLocal, replaceIncoming, replaceRows, verifyIncomingTx; walk.
Qed.
Lemma keeps_mailOp (T : Z -> Prop) (I : mailbox -> Prop) now space o :
  MailFrame T I -> (forall id, removes o id -> T id) -> mailOp o = true -> keeps I (runOp now space o).
Proof.
  intros M HT Ho. destruct (isImport o) eqn:Ei; [|by apply (keeps_copyOp T); [apply M|apply M|..]]. pose proof (fr_edit T I M) as E.
  assert (forall l now sp f i r b m, keeps I (append_ l now sp f i r b m)) by (intros; unfold append_, appendNew, checkReserve; walk).
  destruct o; try discriminate Ei. unfold runOp, idAns, import. walk.
Qed.

(** Statements on the outbox. *)
Record OutFrame (I : mailbox -> Prop) : Prop := {
  fr_insertOutbox o : keeps I (insertOutbox o);
  fr_insertDelivery r : keeps I (insertDelivery r);
  fr_cipher id e : keeps I (updateOutbox id (withCipher e));
  fr_sent id n : keeps I (updateOutbox id (withSent n));
  fr_claim id seq c : keeps I (updateDelivery (isDelivery id seq) (claimRow c));
  fr_complete id seq o n : keeps I (updateDelivery (isDelivery id seq) (completeRow o n));
  fr_quarantine id seq : keeps I (updateDelivery (fun r => isDelivery id seq r && quarantinable (dState r)) quarantineRow);
}.
#[local] Hint Resolve fr_insertOutbox fr_insertDelivery fr_cipher fr_sent fr_claim fr_complete fr_quarantine : mbkeeps.
Record Frame (I : mailbox -> Prop) : Prop := {
  fr_mail :> MailFrame (fun _ => True) I;
  fr_out :> OutFrame I;
}.

Section OutFrames.
Context (I : mailbox -> Prop) (F : OutFrame I).

Lemma keeps_insertDeliveries id n l : keeps I (insertDeliveries id n l).
Proof. revert n. induction l; intros n; simpl; walk. Qed.
Lemma keeps_compact l now k id n : keeps I (compactOutbound l now k n id).
Proof. unfold compactOutbound. walk. Qed.
Lemma keeps_localOp now space o : EditFrame (fun _ => True) I -> (forall m, keeps I (insertMessage m)) -> isImport o = false -> keeps I (runOp now space o).
Proof.
  intros E HM Hi. destruct (mailOp o) eqn:Em; [by apply (keeps_copyOp (fun _ => True))|].
  pose proof keeps_insertDeliveries. pose proof keeps_compact.
  destruct o; try discriminate Em;
    unfold runOp, unitAns, idAns, queueOutbound, readTx, checkReserve, claimOutbound, completeOutbound, fileOutboundSent, quarantineOutbound; walk.
Qed.
End OutFrames.

Section Frames.
Context (I : mailbox -> Prop) (F : Frame I).

Lemma keeps_runOp now space o : keeps I (runOp now space o).
Proof.
  destruct (isImport o) eqn:Ei; [|apply keeps_localOp; [apply F|apply F|apply (fr_insertMessage _ _ F)|done]].
  apply (keeps_mailOp (fun _ => True)); [apply F|done|by destruct o].
Qed.

Lemma keeps_stepM c d : I d -> I (stepM c d).2.
Proof.
  intros H. destruct (stepM c d) as [r d'] eqn:E. apply stepM_ok in E as [(e & -> & ->)|(a & -> & E & _)]; [done|].
  pose proof (keeps_runOp (callNow c) (callSpace c) (callOp c) d H) as HK. unfold wp in HK. by rewrite E in HK.
Qed.

Lemma keeps_run tr d : I d -> I (run_trace stepM tr d).2.
Proof.
  revert d. induction tr as [|c tr IH]; intros d H; simpl; [done|]. apply (keeps_stepM c) in H.
  destruct (stepM c d) as [r d']. specialize (IH d' H). by destruct (run_trace stepM tr d').
Qed.
End Frames.
End Run.
