(* ===== verification/MailboxFeed.v ===== *)
(** * MailboxFeed: the change log tells where the mail is

    A client holds a set of (folder, message) pairs and applies the events of
    the change log; what it holds after all of them is where live mail is. *)

From stdpp Require Import gmap.
From S2P Require Import Prelude GoText GoCodec SendAs MailboxModel Mailbox MailboxIncoming Outbox MailboxRun MailboxInvariant.

(** ** Mirrors *)

Abbreviation mirror := (gset (gostr * Z)).
Definition applyChange (s : mirror) (c : Change) : mirror :=
  if cRemoved c then s ∖ {[(cFolder c, cID c)]} else {[(cFolder c, cID c)]} ∪ s.
Definition applyChanges (s : mirror) (l : list Change) : mirror := foldl applyChange s l.

Definition placement (d : mailbox) : mirror := list_to_set ((fun m => (mFolder m, mID m)) <$> List.filter live (messages d)).
Definition told (d : mailbox) : mirror := applyChanges ∅ (changes d).

Lemma placement_spec d f i : (f, i) ∈ placement d <-> exists m, m ∈ messages d /\ mFolder m = f /\ mID m = i /\ live m = true.
Proof.
  unfold placement. rewrite elem_of_list_to_set, list_elem_of_fmap. split.
  - intros (m & [= -> ->] & Hm%list_elem_of_In%filter_In). rewrite <- list_elem_of_In in Hm. naive_solver.
  - intros (m & Hm & <- & <- & Hl). exists m. split; [done|]. apply list_elem_of_In, filter_In. by rewrite <- list_elem_of_In.
Qed.

Section Feed.
Context {U : Unicode} {SS : SortSlice} {ML : MailLib} {GF : GoTimeFormat} {OL : OutboxLib}.

(** ** What each statement does to the two sides *)

Definition sameFeed (d d' : mailbox) : Prop := messages d' = messages d /\ changes d' = changes d.

Lemma told_change d id f r :
  told (setChanges (changes d ++ [mkChange (Z.of_nat (length (changes d)) + 1) id f r]) d)
  = if r then told d ∖ {[(f, id)]} else {[(f, id)]} ∪ told d.
Proof. unfold told, applyChanges. simpl. by rewrite foldl_app. Qed.

Lemma placement_insert d m :
  placement (bump (rawSize m) 1 (setMessages (messages d ++ [m]) d)) = if live m then {[(mFolder m, mID m)]} ∪ placement d else placement d.
Proof.
  apply set_eq. intros [f i]. destruct (live m) eqn:E.
  - rewrite elem_of_union, elem_of_singleton, !placement_spec. simpl. split.
    + intros (x & [Hx|Hx%list_elem_of_singleton]%elem_of_app & ? & ? & ?); [right; eauto|]. subst. by left.
    + intros [[= -> ->]|(x & Hx & ? & ? & ?)]; [exists m|exists x]; set_solver.
  - rewrite !placement_spec. simpl. split.
    + intros (x & [Hx|Hx%list_elem_of_singleton]%elem_of_app & ? & ? & ?); [eauto|]. subst. congruence.
    + intros (x & Hx & ? & ? & ?). exists x. set_solver.
Qed.

Lemma placement_update d d' p g :
  messages d' = updateWhere p g (messages d) ->
  forall f i, (f, i) ∈ placement d' <->
    exists m, m ∈ messages d /\ mFolder (if p m then g m else m) = f /\ mID (if p m then g m else m) = i /\ live (if p m then g m else m) = true.
Proof.
  intros E f i. rewrite placement_spec, E. split.
  - intros (y & (x & Hx & ->)%elem_of_updateWhere & ?). eauto.
  - intros (x & Hx & ?). exists (if p x then g x else x). split; [|done]. apply elem_of_updateWhere. eauto.
Qed.

(** Updates that touch neither folders nor bytes, or only rows without bytes. *)
Lemma placement_quiet d d' p g :
  messages d' = updateWhere p g (messages d) ->
  (forall m, m ∈ messages d -> p m = true -> mID (g m) = mID m /\ live (g m) = live m /\ (live m = true -> mFolder (g m) = mFolder m)) ->
  placement d' = placement d.
Proof.
  intros E H. apply set_eq. intros [f i]. rewrite (placement_update d d' p g E), placement_spec. split; intros (m & Hm & Hf & Hi & Hl);
    exists m; (split; [done|]); destruct (p m) eqn:Hp; try done; destruct (H m Hm Hp) as (H1 & H2 & H3).
  - rewrite H2 in Hl. rewrite H3 in Hf by done. by rewrite H1 in Hi.
  - rewrite H1, H2, H3 by done. done.
Qed.

(** One live message moved. *)
Lemma placement_move d d' id f t m :
  tablesOK d -> m ∈ messages d -> mID m = id -> mFolder m = f -> live m = true ->
  messages d' = updateWhere (isMsg id) (withFolder t) (messages d) ->
  placement d' = {[(t, id)]} ∪ (placement d ∖ {[(f, id)]}).
Proof.
  intros HT Hm Hid Hf Hl E. apply set_eq. intros [g i]. rewrite (placement_update d d' _ _ E).
  rewrite elem_of_union, elem_of_difference, !elem_of_singleton, placement_spec. split.
  - intros (x & Hx & H1 & H2 & H3). destruct (isMsg id x) eqn:Ex.
    + apply isMsg_spec in Ex. simpl in *. left. congruence.
    + right. split; [eauto|]. intros [= -> ->]. apply isMsg_spec in H2. congruence.
  - intros [[= -> ->]|[(x & Hx & H1 & H2 & H3) Hne]].
    + exists m. split; [done|]. rewrite (proj2 (isMsg_spec id m)) by done. done.
    + exists x. split; [done|]. destruct (isMsg id x) eqn:Ex; [|done]. apply isMsg_spec in Ex. exfalso. apply Hne.
      rewrite (ids_unique d x m HT Hx Hm) in H1, H2 by congruence. congruence.
Qed.

(** One live message deleted. *)
Lemma placement_delete d d' id f m :
  tablesOK d -> m ∈ messages d -> mID m = id -> mFolder m = f ->
  messages d' = updateWhere (isMsg id) emptied (messages d) -> placement d' = placement d ∖ {[(f, id)]}.
Proof.
  intros HT Hm Hid Hf E. apply set_eq. intros [g i]. rewrite (placement_update d d' _ _ E).
  rewrite elem_of_difference, elem_of_singleton, placement_spec. split.
  - intros (x & Hx & H1 & H2 & H3). destruct (isMsg id x) eqn:Ex; [done|]. split; [eauto|]. intros [= -> ->].
    apply isMsg_spec in H2. congruence.
  - intros [(x & Hx & H1 & H2 & H3) Hne]. exists x. split; [done|]. destruct (isMsg id x) eqn:Ex; [|done].
    apply isMsg_spec in Ex. exfalso. apply Hne. rewrite (ids_unique d x m HT Hx Hm) in H1, H2 by congruence. congruence.
Qed.

(** ** Events owed

    Inside a transaction the rows are ahead of the log: the pairs [A] have
    arrived and the pairs [R] left without an event yet. *)

Definition owes (A R : mirror) (d : mailbox) : Prop := tablesOK d /\ placement d = A ∪ (told d ∖ R).
Definition inStep : mailbox -> Prop := owes ∅ ∅.

Lemma inStep_spec d : inStep d <-> tablesOK d /\ told d = placement d.
Proof. unfold inStep, owes. assert (∅ ∪ told d ∖ ∅ = told d) as -> by set_solver. naive_solver. Qed.

(** A statement that keeps the tables' invariant, the mail's places and the log. *)
Definition quiet {A} (m : Tx A) : Prop := forall d, wp m (fun _ d' => placement d' = placement d /\ changes d' = changes d) d.

Lemma quiet_keeps {A} (m : Tx A) X R : keeps tablesOK m -> quiet m -> keeps (owes X R) m.
Proof.
  intros Hk Hq d [HT HP]. specialize (Hk d HT). specialize (Hq d). unfold wp in *. destruct (m d) as [[a d']|e]; [|done].
  destruct Hq as [E1 E2]. split; [done|]. unfold told. by rewrite E1, E2.
Qed.

Ltac quietly := intros d; unfold wp; cbn; try done.
Lemma quiet_insertFolderOrIgnore f : quiet (insertFolderOrIgnore f).
Proof. intros d. apply wp_exec. by case_bool_decide. Qed.
Lemma quiet_insertFolder f : quiet (insertFolder f).
Proof. intros d. unfold wp, insertFolder. by case_bool_decide. Qed.
Lemma quiet_deleteFolderRow f : quiet (deleteFolderRow f).
Proof. intros d. unfold wp, deleteFolderRow. case_bool_decide; [|done]. by destruct (existsb _ _). Qed.
Lemma quiet_updateFlags id a b l : quiet (updateFlags id a b l).
Proof. intros d. apply wp_exec. split; [|done]. by eapply placement_quiet. Qed.
Lemma quiet_updateOutbox id f : quiet (updateOutbox id f).
Proof. done. Qed.
Lemma quiet_insertOutbox o : quiet (insertOutbox o).
Proof. intros d. by apply wp_insertOutbox. Qed.
Lemma quiet_insertDelivery r : quiet (insertDelivery r).
Proof. intros d. by apply wp_insertDelivery. Qed.
Lemma quiet_tombstoneFolders name t : quiet (updateFolder (fun m => (mFolder m =s? name) && negb (live m)) t).
Proof.
  intros d. unfold wp, updateFolder. destruct (_ || _); [|done]. split; [|done]. eapply placement_quiet; [done|].
  intros m _ [_ Hl]%andb_true_iff. apply negb_true_iff in Hl. split; [done|]. split; [done|]. congruence.
Qed.

Lemma keeps_owes_quiet A R :
  (forall f, keeps (owes A R) (insertFolderOrIgnore f)) /\ (forall f, keeps (owes A R) (insertFolder f)) /\
  (forall f, f ∉ systemFolders -> keeps (owes A R) (deleteFolderRow f)) /\ (forall id a b l, keeps (owes A R) (updateFlags id a b l)) /\
  (forall r, keeps (owes A R) (insertReceipt r)) /\ (forall r, keeps (owes A R) (insertImported r)) /\
  (forall r, keeps (owes A R) (insertLabel r)) /\ (forall r, keeps (owes A R) (insertReplacement r)) /\
  (forall o, keeps (owes A R) (insertOutbox o)) /\ (forall o, keeps (owes A R) (insertDelivery o)) /\
  (forall id e, keeps (owes A R) (updateOutbox id (withCipher e))) /\ (forall id n, keeps (owes A R) (updateOutbox id (withSent n))) /\
  (forall id seq c, keeps (owes A R) (updateDelivery (isDelivery id seq) (claimRow c))) /\
  (forall id seq o n, keeps (owes A R) (updateDelivery (isDelivery id seq) (completeRow o n))) /\
  (forall id seq, keeps (owes A R) (updateDelivery (fun r => isDelivery id seq r && quarantinable (dState r)) quarantineRow)) /\
  (forall name t, keeps (owes A R) (updateFolder (fun m => (mFolder m =s? name) && negb (live m)) t)).
Proof.
  destruct tablesOK_frame as [[[] ? ?] []]. repeat match goal with |- _ /\ _ => split end; intros; (apply quiet_keeps; [by auto|]);
    first [apply quiet_insertOutbox|apply quiet_insertDelivery|apply quiet_insertFolderOrIgnore|apply quiet_insertFolder|apply quiet_deleteFolderRow|apply quiet_updateFlags|apply quiet_tombstoneFolders|done].
Qed.

(** An event settles what is owed. *)
Lemma owes_left A R id f d : (f, id) ∈ R -> owes A R d -> wp (change id f true) (fun _ => owes A (R ∖ {[(f, id)]})) d.
Proof.
  intros Hx [HT HP]. pose proof (fr_change _ _ tablesOK_frame id f true d HT) as HT'. unfold wp, change, exec in *. split; [done|].
  rewrite told_change. change (placement _) with (placement d). rewrite HP. clear HT HT' HP. generalize (told d). intros T.
  apply set_eq. intros x.
  rewrite !elem_of_union, !elem_of_difference, ?elem_of_union, !elem_of_singleton. destruct (decide (x = (f, id))) as [->|]; tauto.
Qed.
Lemma owes_arrived A R id f d : (f, id) ∉ R -> (f, id) ∈ A \/ (f, id) ∈ told d -> owes A R d -> wp (change id f false) (fun _ => owes (A ∖ {[(f, id)]}) R) d.
Proof.
  intros Hx Hy [HT HP]. pose proof (fr_change _ _ tablesOK_frame id f false d HT) as HT'. unfold wp, change, exec in *. split; [done|].
  rewrite told_change. change (placement _) with (placement d). rewrite HP. clear HT HT' HP. revert Hy. generalize (told d). intros T Hy.
  apply set_eq. intros x.
  rewrite !elem_of_union, !elem_of_difference, ?elem_of_union, !elem_of_singleton. destruct (decide (x = (f, id))) as [->|]; tauto.
Qed.

(** ** One step, then the rest *)

Lemma wp_step {A B} (I : mailbox -> Prop) (m : Tx A) (f : A -> Tx B) Q d :
  keeps I m -> I d -> (forall a d', I d' -> wp (f a) Q d') -> wp (m ≫= f) Q d.
Proof. intros Hk H Hf. apply wp_bind. eapply wp_conseq; [by apply Hk|]. intros a d' H'. by apply Hf. Qed.

Lemma owes_insert d m : inStep d -> live m = true -> wp (insertMessage m) (fun id => owes {[(mFolder m, id)]} ∅) d.
Proof.
  intros H Hl. pose proof H as [HT _]%inStep_spec. pose proof (fr_insertMessage _ _ tablesOK_frame m d HT) as HT'.
  apply inStep_spec in H as [_ HP]. unfold wp, insertMessage in *. case_bool_decide; [|done]. split; [done|].
  set (m' := mkMessage _ _ _ _ _ _ _ _ _ _ _ _ _ _). assert (Hl' : live m' = live m) by done.
  change (placement _) with (placement (bump (rawSize m') 1 (setMessages (messages d ++ [m']) d))). rewrite placement_insert, Hl', Hl.
  change (told (bump _ _ _)) with (told d). rewrite HP. unfold m'. cbn [mFolder mID]. clear. generalize (placement d). intros P. set_solver.
Qed.

Lemma owes_arrived_last f id d : owes {[(f, id)]} ∅ d -> wp (change id f false) (fun _ => inStep) d.
Proof.
  intros H. eapply wp_conseq; [apply (owes_arrived {[(f, id)]} ∅ id f d); [set_solver|left; set_solver|done]|].
  intros ? d' H'. unfold inStep. by replace (∅ : mirror) with ({[(f, id)]} ∖ {[(f, id)]} : mirror) at 1 by set_solver.
Qed.

(** A message that is announced again. *)
Lemma inStep_again f id d : (f, id) ∈ placement d -> inStep d -> wp (change id f false) (fun _ => inStep) d.
Proof.
  intros Hin H. pose proof H as [_ E]%inStep_spec. eapply wp_conseq; [apply (owes_arrived ∅ ∅ id f d); [set_solver|right; by rewrite E|done]|].
  intros ? d' H'. unfold inStep. by replace (∅ : mirror) with (∅ ∖ {[(f, id)]} : mirror) at 1 by set_solver.
Qed.

Lemma owes_left_last f id d : owes ∅ {[(f, id)]} d -> wp (change id f true) (fun _ => inStep) d.
Proof.
  intros H. eapply wp_conseq; [apply (owes_left ∅ {[(f, id)]} id f d); [set_solver|done]|].
  intros ? d' H'. unfold inStep. by replace (∅ : mirror) with ({[(f, id)]} ∖ {[(f, id)]} : mirror) at 2 by set_solver.
Qed.

Lemma owes_left_then A f id d : owes A {[(f, id)]} d -> wp (change id f true) (fun _ => owes A ∅) d.
Proof.
  intros H. eapply wp_conseq; [apply (owes_left A {[(f, id)]} id f d); [set_solver|done]|].
  intros ? d' H'. by replace (∅ : mirror) with ({[(f, id)]} ∖ {[(f, id)]} : mirror) by set_solver.
Qed.

Lemma owes_move d id f t m : inStep d -> m ∈ messages d -> mID m = id -> mFolder m = f -> live m = true ->
  wp (updateFolder (isMsg id) t) (fun _ => owes {[(t, id)]} {[(f, id)]}) d.
Proof.
  intros H Hm Hid Hf Hl. apply inStep_spec in H as [HT E]. pose proof (fr_updateFolder _ _ tablesOK_frame (isMsg id) t d HT) as HT'.
  unfold wp, updateFolder in *. destruct (_ || _); [|done]. split; [done|]. change (told _) with (told d). rewrite E.
  by eapply placement_move.
Qed.

Lemma owes_delete d id f m : inStep d -> m ∈ messages d -> mID m = id -> mFolder m = f -> wp (tombstone id) (fun _ => owes ∅ {[(f, id)]}) d.
Proof.
  intros H Hm Hid Hf. apply inStep_spec in H as [HT E]. pose proof (fr_tombstone _ _ tablesOK_frame id I d HT) as HT'.
  unfold wp, tombstone, exec in *. split; [done|]. change (told _) with (told d). rewrite E.
  rewrite (placement_delete d _ id f m); try done. clear. generalize (placement d). set_solver.
Qed.

(** A live message found by a query. *)
Lemma found_live (d : mailbox) p m : find_first (fun m => p m && live m) (messages d) = Some m ->
  m ∈ messages d /\ p m = true /\ live m = true.
Proof. intros [? [? ?]%andb_true_iff]%find_first_Some. done. Qed.
Lemma placed m d : m ∈ messages d -> live m = true -> (mFolder m, mID m) ∈ placement d.
Proof. intros. apply placement_spec. eauto. Qed.

(** ** The methods *)

#[local] Ltac quietAll A R :=
  destruct (keeps_owes_quiet A R) as (?Qq & ?Qq & ?Qq & ?Qq & ?Qq & ?Qq & ?Qq & ?Qq & ?Qq & ?Qq & ?Qq & ?Qq & ?Qq & ?Qq & ?Qq & ?Qq).
#[local] Ltac ids := to_prop; repeat match goal with H : isMsg _ _ = true |- _ => apply isMsg_spec in H end; subst.
#[local] Ltac skip H := eapply wp_step; [|exact H|clear H; intros ?a ?d H].

Lemma feed_appendNew l now sp f raw r b i : keeps inStep (appendNew l now sp f raw r b i).
Proof.
  intros d H. unfold appendNew, checkReserve. skip H; [auto with mbkeeps|]. skip H; [auto with mbkeeps|].
  skip H; [walk|]. destruct (rawMetadata now raw) as [[h at_]|]; [|done].
  destruct (match i with Some _ => _ | None => _ end) as [[seen starred] at1]. apply wp_bind.
  eapply wp_conseq; [by apply owes_insert|]. cbn [mFolder messageRow]. clear H. intros id d' H; cbv beta in H.
  quietAll ({[(f, id)]} : mirror) (∅ : mirror). skip H; [walk|]. skip H; [walk|]. apply wp_bind.
  eapply wp_conseq; [by apply owes_arrived_last|]. auto.
Qed.
Lemma feed_append l now sp f i r b m : keeps inStep (append_ l now sp f i r b m).
Proof. unfold append_. pose proof feed_appendNew. walk. Qed.

Lemma feed_ensureLabelTx x : keeps inStep (ensureLabelTx x).
Proof. unfold ensureLabelTx. quietAll (∅ : mirror) (∅ : mirror). walk. Qed.
Lemma feed_ensureLabels l : keeps inStep (ensureLabels l).
Proof. induction l; simpl; pose proof feed_ensureLabelTx; walk. Qed.

(** Labels and flags leave the mail where it is. *)
Definition sits (x : gostr * Z) (d : mailbox) : Prop := inStep d /\ x ∈ placement d.
Lemma sits_quiet {A} (m : Tx A) x : keeps inStep m -> (forall d, wp m (fun _ d' => placement d' = placement d) d) -> keeps (sits x) m.
Proof.
  intros Hk Hq d [H Hx]. specialize (Hk d H). specialize (Hq d). unfold wp in *. destruct (m d) as [[a d']|]; [|done].
  split; [done|]. by rewrite Hq.
Qed.
Lemma sits_ensureLabelTx x n : keeps (sits x) (ensureLabelTx n).
Proof.
  apply sits_quiet; [apply feed_ensureLabelTx|]. intros d. unfold ensureLabelTx. apply wp_bind, wp_select. by repeat case_match.
Qed.
Lemma sits_ensureLabels x l : keeps (sits x) (ensureLabels l).
Proof. induction l; simpl; pose proof sits_ensureLabelTx; walk. Qed.
Lemma sits_updateFlags x id a b l : keeps (sits x) (updateFlags id a b l).
Proof.
  apply sits_quiet; [|intros d; apply quiet_updateFlags]. by quietAll (∅ : mirror) (∅ : mirror).
Qed.
Lemma sits_change f id d : sits (f, id) d -> wp (change id f false) (fun _ => inStep) d.
Proof. intros [H Hx]. by apply inStep_again. Qed.

Lemma feed_editFlagsTx f id s x b : keeps inStep (editFlagsTx f id s x b).
Proof.
  intros d H. unfold editFlagsTx. apply wp_bind, wp_select. destruct (find_first _ _) as [m|] eqn:E; [|done].
  apply found_live in E as (Hm & E & Hl). ids. destruct (editLabels _ _ _) as [labels|]; [|done].
  assert (HS : sits (mFolder m, mID m) d) by (split; [done|]; by apply placed).
  pose proof (sits_ensureLabelTx (mFolder m, mID m)). pose proof (sits_updateFlags (mFolder m, mID m)). clear H. skip HS; [walk|].
  destruct (_ && _); [by apply wp_ret, HS|]. skip HS; [done|]. by apply sits_change.
Qed.
Lemma feed_update f id a b l : keeps inStep (update f id a b l).
Proof.
  intros d H. unfold update. destruct (_ <? _)%Z; [done|]. cbv zeta. destruct (negb _); [done|].
  apply wp_bind, wp_select. destruct (find_first _ _) as [m|] eqn:E; [|done]. apply found_live in E as (Hm & E & Hl). ids.
  assert (HS : sits (mFolder m, mID m) d) by (split; [done|]; by apply placed).
  pose proof (sits_ensureLabels (mFolder m, mID m)). pose proof (sits_updateFlags (mFolder m, mID m)). clear H. skip HS; [done|].
  destruct (_ && _); [by apply wp_ret, HS|]. skip HS; [done|]. by apply sits_change.
Qed.

Lemma feed_relocate f id t : keeps inStep (relocate f id t).
Proof.
  intros d H. unfold relocate. apply wp_bind, wp_select. destruct (find_first _ _) as [m|] eqn:E; [|done].
  apply found_live in E as (Hm & E & Hl). ids. destruct t as [t|].
  - destruct (t =s? mFolder m) eqn:Et; [by apply wp_ret|]. to_prop. apply wp_bind, wp_select. apply wp_bind, wp_assert. intros _.
    apply wp_bind. eapply wp_conseq; [by eapply owes_move|]. clear H. intros ? d2 H; cbv beta in H.
    apply wp_bind. eapply wp_conseq; [by apply owes_left_then|]. clear H. intros ? d3 H; cbv beta in H. by apply owes_arrived_last.
  - apply wp_bind. eapply wp_conseq; [by eapply owes_delete|]. clear H. intros ? d2 H; cbv beta in H. by apply owes_left_last.
Qed.

(** ** What statements leave alone *)

Lemma wp_and {A} (m : Tx A) (P Q : A -> mailbox -> Prop) d : wp m P d -> wp m Q d -> wp m (fun a d' => P a d' /\ Q a d') d.
Proof. unfold wp. destruct (m d) as [[a d']|]; auto. Qed.
Lemma told_updateFolder p t d : wp (updateFolder p t) (fun _ d' => told d' = told d) d.
Proof. unfold wp, updateFolder. by destruct (_ || _). Qed.
Lemma placement_change id f r d : wp (change id f r) (fun _ d' => placement d' = placement d) d.
Proof. done. Qed.
Lemma rows_insert d m :
  wp (insertMessage m) (fun id d' => id = (Z.of_nat (length (messages d)) + 1)%Z /\ forall x, x ∈ messages d -> x ∈ messages d') d.
Proof. apply wp_insertMessage. intros _. split; [done|]. simpl. set_solver. Qed.
Lemma rows_folder t d : wp (insertFolderOrIgnore t) (fun _ d' => messages d' = messages d) d.
Proof. apply wp_exec. by case_bool_decide. Qed.

(** ** Renaming and removing folders *)

Definition pairs (f : gostr) (ids : list Z) : mirror := list_to_set ((fun i => (f, i)) <$> ids).
Lemma pairs_spec f ids x : x ∈ pairs f ids <-> exists i, i ∈ ids /\ x = (f, i).
Proof. unfold pairs. rewrite elem_of_list_to_set, list_elem_of_fmap. naive_solver. Qed.
Lemma pairs_cons f i ids : pairs f (i :: ids) = {[(f, i)]} ∪ pairs f ids.
Proof. done. Qed.

Lemma liveIn_spec f d i : i ∈ liveIn f d <-> (f, i) ∈ placement d.
Proof.
  unfold liveIn. rewrite placement_spec, list_elem_of_fmap. split.
  - intros (m & -> & Hm%list_elem_of_In%filter_In). rewrite <- list_elem_of_In in Hm. destruct Hm as [Hm [? ?]%andb_true_iff]. to_prop. eauto.
  - intros (m & Hm & <- & <- & Hl). exists m. split; [done|]. apply list_elem_of_In, filter_In. rewrite <- list_elem_of_In. split; [done|].
    rewrite Hl, bool_decide_eq_true_2; done.
Qed.

Lemma liveIn_NoDup f d : tablesOK d -> NoDup (liveIn f d).
Proof.
  intros HT. assert (HN : NoDup (mID <$> messages d)).
  { rewrite (tk_ids d HT). unfold keysFrom. apply NoDup_fmap_2; [apply _|]. apply NoDup_seq. }
  eapply sublist_NoDup; [exact HN|]. unfold liveIn. apply fmap_sublist, filter_sublist.
Qed.

Lemma owes_moved ids from to d : from ≠ to -> NoDup ids -> owes (pairs to ids) (pairs from ids) d ->
  wp (moved ids from to) (fun _ => inStep) d.
Proof.
  intros Hne HN. revert d. induction HN as [|i ids Hi HN IH]; intros d H; cbn [moved]; [by apply wp_ret|].
  rewrite !pairs_cons in H. assert (H1 : (from, i) ∉ pairs from ids) by (rewrite pairs_spec; naive_solver).
  assert (H2 : (to, i) ∉ pairs to ids) by (rewrite pairs_spec; naive_solver).
  apply wp_bind. eapply wp_conseq; [eapply owes_left; [|exact H]; set_solver|]. clear H. intros ? d2 H; cbv beta in H.
  replace (({[(from, i)]} ∪ pairs from ids) ∖ {[(from, i)]}) with (pairs from ids) in H by set_solver.
  apply wp_bind. eapply wp_conseq; [eapply owes_arrived; [| |exact H]|]; [rewrite pairs_spec; naive_solver|left; set_solver|].
  clear H. intros ? d3 H; cbv beta in H. replace (({[(to, i)]} ∪ pairs to ids) ∖ {[(to, i)]}) with (pairs to ids) in H by set_solver.
  by apply IH.
Qed.

Lemma owes_rename d name t : inStep d ->
  wp (updateFolder (fun m => mFolder m =s? name) t) (fun _ => owes (pairs t (liveIn name d)) (pairs name (liveIn name d))) d.
Proof.
  intros H. apply inStep_spec in H as [HT E]. pose proof (fr_updateFolder _ _ tablesOK_frame (fun m => mFolder m =s? name) t d HT) as HT'.
  unfold wp, updateFolder in *. destruct (_ || _); [|done]. split; [done|]. change (told _) with (told d). rewrite E.
  apply set_eq. intros [f i]. set (d' := setMessages _ d).
  rewrite (placement_update d d' (fun m => mFolder m =s? name) (withFolder t) eq_refl), elem_of_union, elem_of_difference, !pairs_spec.
  setoid_rewrite liveIn_spec. rewrite (placement_spec d f i). split.
  - intros (m & Hm & H1 & H2 & H3). case_bool_decide as Ef.
    + left. exists i. simpl in *. split; [|congruence]. apply placement_spec. exists m. naive_solver.
    + right. split; [eauto|]. intros (? & _ & [= -> _]). congruence.
  - intros [(j & Hj & [= -> ->])|[(m & Hm & H1 & H2 & H3) Hne]].
    + apply placement_spec in Hj as (m & Hm & H1 & H2 & H3). exists m. split; [done|]. by rewrite bool_decide_eq_true_2.
    + exists m. split; [done|]. rewrite bool_decide_eq_false_2; [done|]. intros Eq. apply Hne. exists i. split; [|congruence].
      apply placement_spec. exists m. naive_solver.
Qed.

Lemma feed_renameOne f t name d : name ∉ systemFolders -> inStep d -> wp (renameOne f t name) (fun _ => inStep) d.
Proof.
  intros Hs H. unfold renameOne. destruct (negb _); [done|]. set (new := t ++ _).
  pose proof (keeps_owes_quiet ∅ ∅) as (_ & Q2 & Q3 & _). fold inStep in *.
  apply wp_bind. unfold wp at 1. unfold insertFolder. case_bool_decide as Hn; [done|].
  (* the new name is new: no mail is in it yet *)
  assert (H2 : inStep (setFolders (folders d ++ [new]) d)).
  { specialize (Q2 new d H). unfold wp, insertFolder in Q2. by rewrite bool_decide_eq_false_2 in Q2. }
  set (d2 := setFolders _ d) in *. apply wp_bind, wp_select. apply wp_bind.
  eapply wp_conseq; [by apply owes_rename|]. intros ? d3 H3; cbv beta in H3. apply wp_bind.
  assert (Hd : liveIn name d2 = [] \/ name ≠ new).
  { destruct (decide (name = new)) as [Enew|]; [left|by right]. destruct (liveIn name d2) as [|i l] eqn:El; [done|]. exfalso. apply Hn.
    assert (Hi : i ∈ liveIn name d2) by (rewrite El; left). rewrite <- Enew. apply liveIn_spec, placement_spec in Hi as (m & Hm & Hmf & _).
    apply inStep_spec in H as [HT _]. pose proof (proj1 (Forall_forall _ _) (tk_fk d HT) m Hm) as Hk. simpl in Hk. by rewrite Hmf in Hk. }
  eapply wp_conseq with (P := fun _ => inStep).
  - destruct Hd as [Hd|Hne]; [rewrite Hd in *; by apply wp_ret|].
    apply owes_moved; [done| |done]. apply liveIn_NoDup. by apply inStep_spec in H2 as [? _].
  - intros ? d4 H4; cbv beta in H4. eapply wp_step; [by apply Q3|exact H4|]. intros. by apply wp_ret.
Qed.
Lemma feed_renameAll f t l : Forall (fun n => n ∉ systemFolders) l -> keeps inStep (renameAll f t l).
Proof.
  induction 1 as [|n l Hn _ IH]; cbn [renameAll]; [apply keeps_ret|]. intros d H. apply wp_bind.
  eapply wp_conseq; [by apply feed_renameOne|]. intros ? d2 H2. by apply IH.
Qed.
Lemma feed_renameFolder f t : keeps inStep (renameFolder f t).
Proof.
  unfold renameFolder. destruct (_ || _); [apply keeps_raise|]. case_bool_decide as Hs; [apply keeps_raise|].
  apply keeps_query. intros d. apply keeps_bind; [apply keeps_assert|]. intros _. apply feed_renameAll.
  by apply renamed_not_system.
Qed.

Lemma feed_deleteFolder f : keeps inStep (deleteFolder f).
Proof.
  unfold deleteFolder. case_bool_decide as Hs; [apply keeps_raise|]. quietAll (∅ : mirror) (∅ : mirror).
  match goal with H : forall f, f ∉ systemFolders -> _ |- _ => specialize (H f Hs) end. walk.
Qed.

Lemma feed_moveEach ids f p d : f ≠ p -> NoDup ids -> (forall i, i ∈ ids -> (f, i) ∈ placement d) -> inStep d ->
  wp (moveEach ids f p) (fun _ => inStep) d.
Proof.
  intros Hne HN. revert d. induction HN as [|i ids Hi HN IH]; intros d Hin H; cbn [moveEach]; [by apply wp_ret|].
  assert (Hx : (f, i) ∈ placement d) by (apply Hin; left). apply placement_spec in Hx as (m & Hm & H1 & H2 & H3).
  pose proof (owes_move d i f p m H Hm H2 H1 H3) as Hmv.
  pose proof (told_updateFolder (isMsg i) p d) as Ht.
  assert (HT : told d = placement d) by (by apply inStep_spec in H as [_ ?]).
  apply wp_bind. eapply wp_conseq; [exact (wp_and _ _ _ _ Hmv Ht)|]. intros ? d2 [H4 Ht2]; cbv beta in *.
  assert (Hp : forall j, j ∈ ids -> (f, j) ∈ placement d2).
  { intros j Hj. destruct H4 as [_ ->]. rewrite Ht2, HT. assert ((f, j) ∈ placement d) by (apply Hin; by right).
    rewrite elem_of_union, elem_of_difference, elem_of_singleton. right. split; [done|]. intros [= ->]%elem_of_singleton. done. }
  apply wp_bind. eapply wp_conseq; [exact (wp_and _ _ _ _ (owes_left_then _ _ _ _ H4) (placement_change i f true d2))|].
  intros ? d3 [H5 E5]; cbv beta in *. apply wp_bind.
  eapply wp_conseq; [exact (wp_and _ _ _ _ (owes_arrived_last _ _ _ H5) (placement_change i p false d3))|].
  intros ? d4 [H6 E6]; cbv beta in *. apply IH; [|done]. rewrite E6, E5. exact Hp.
Qed.

Lemma feed_moveBatches fuel after f p : f ≠ p -> keeps inStep (moveBatches fuel after f p).
Proof.
  intros Hne. revert after. induction fuel as [|fuel IH]; intros after d H; cbn [moveBatches]; apply wp_bind, wp_select.
  - by destruct (take 200 _).
  - destruct (take 200 _) as [|i l] eqn:E; [done|]. apply wp_bind. eapply wp_conseq; [apply feed_moveEach; [done| | |exact H]|].
    + rewrite <- E. eapply sublist_NoDup; [apply (liveIn_NoDup f d); by apply inStep_spec in H as [? _]|].
      etransitivity; [apply sublist_take|apply filter_sublist].
    + intros j Hj. apply liveIn_spec. rewrite <- E in Hj. apply elem_of_take in Hj as (k & Hk & _).
      apply list_elem_of_lookup_2 in Hk. apply list_elem_of_In, filter_In in Hk as [Hk _]. by apply list_elem_of_In.
    + intros ? d2 H2; cbv beta in H2. by apply IH.
Qed.
Lemma feed_deleteFolderToParent f : keeps inStep (deleteFolderToParent f).
Proof.
  unfold deleteFolderToParent. destruct (parentOf f) as [p|] eqn:E; [|apply keeps_raise]. quietAll (∅ : mirror) (∅ : mirror).
  match goal with H : forall f, f ∉ systemFolders -> _ |- _ => specialize (H f (slash_not_system _ (parentOf_slash _ _ E))) end.
  assert (f ≠ p) by (intros ->; apply parentOf_length in E; lia). pose proof feed_moveBatches. walk.
Qed.

(** ** Encryption in place *)

Lemma owes_replaced d A id f m : (f, id) ∉ A -> owes A ∅ d -> m ∈ messages d -> mID m = id -> mFolder m = f ->
  wp (tombstone id) (fun _ => owes A {[(f, id)]}) d.
Proof.
  intros Hx [HT HP] Hm Hid Hf. pose proof (fr_tombstone _ _ tablesOK_frame id I d HT) as HT'.
  unfold wp, tombstone, exec in *. split; [done|]. change (told _) with (told d).
  rewrite (placement_delete d _ id f m) by done. rewrite HP. clear -Hx. generalize (told d). set_solver.
Qed.

Lemma feed_replaceRows s m marker enc h d : inStep d -> m ∈ messages d -> mID m = srcUID s -> mFolder m = $"INBOX" -> live m = true ->
  wp (replaceRows s m marker enc h) (fun _ => inStep) d.
Proof.
  intros H Hm Hid Hf Hl. unfold replaceRows. set (row := messageRow _ _ _ _ _ _ _ _). apply wp_bind.
  assert (Hle : (mID m <= Z.of_nat (length (messages d)))%Z).
  { apply inStep_spec in H as [HT _]. assert (Hin : mID m ∈ mID <$> messages d) by (apply list_elem_of_fmap; eauto).
    rewrite (tk_ids d HT) in Hin. unfold keysFrom in Hin. apply list_elem_of_fmap in Hin as (k & -> & Hk%elem_of_seq). lia. }
  eapply wp_conseq; [exact (wp_and _ _ _ _ (owes_insert d row H eq_refl) (rows_insert d row))|].
  intros id d2 [H2 [Hnew Hrows]]; cbv beta in *. change (mFolder row) with ($"INBOX") in H2. subst id.
  pose proof (keeps_owes_quiet {[($"INBOX", (Z.of_nat (length (messages d)) + 1)%Z)]} {[($"INBOX", srcUID s)]}) as (_ & _ & _ & _ & _ & _ & _ & Q & _).
  apply wp_bind. eapply wp_conseq; [eapply (owes_replaced d2 _ (srcUID s) ($"INBOX") m); [|exact H2|by apply Hrows|done|done]|].
  { rewrite elem_of_singleton. intros [= E]. lia. }
  intros ? d3 H3; cbv beta in *. eapply wp_step; [apply Q|exact H3|]. intros ? d4 H4.
  apply wp_bind. eapply wp_conseq; [by apply owes_left_then|]. intros ? d5 H5; cbv beta in *.
  apply wp_bind. eapply wp_conseq; [by apply owes_arrived_last|]. intros ? d6 H6. by apply wp_ret.
Qed.

Lemma feed_verify l s uid marker enc : keeps inStep (verifyIncomingTx l s uid marker enc).
Proof. unfold verifyIncomingTx. walk. Qed.

Lemma feed_replaceIncoming acc l now s marker enc : keeps inStep (replaceIncoming acc l now s marker enc).
Proof.
  intros d H. unfold replaceIncoming. destruct (checkIncomingReplacement _ _ _ _ _); [done|].
  destruct (rawMetadata now enc) as [[h at_]|]; [|done]. destruct (negb _); [done|]. apply wp_bind, wp_select.
  destruct (find_first _ (replacements d)) as [r|].
  - destruct (_ || _); [done|]. eapply wp_step; [apply feed_verify|exact H|]. intros. by apply wp_ret.
  - apply wp_bind, wp_select. destruct (find_first _ _) as [m|] eqn:E; [|done]. apply found_live in E as (Hm & E & Hl). to_prop.
    match goal with H : isMsg _ _ = true |- _ => apply isMsg_spec in H end.
    destruct (_ <? _)%Z; [done|]. destruct (negb _); [done|]. apply wp_bind, wp_select. destruct (_ || _); [done|].
    apply wp_bind, wp_select. apply wp_bind, wp_assert. intros _. by apply feed_replaceRows.
Qed.

(** The verified copy sits in the folder the check answers. *)
Lemma verify_found l s uid marker enc d : inStep d ->
  wp (verifyIncomingTx l s uid marker enc) (fun folder d' => d' = d /\ exists m, m ∈ messages d /\ mID m = uid /\ mFolder m = folder /\ live m = true) d.
Proof.
  intros H. unfold verifyIncomingTx. apply wp_bind, wp_select. destruct (find_first _ (replacements d)); [|done].
  destruct (find_first _ (messages d)) as [m|] eqn:E; [|done]. apply found_live in E as (Hm & E & Hl). apply isMsg_spec in E.
  destruct (_ || _); [done|]. apply wp_ret. eauto 10.
Qed.

Lemma feed_moveAction uid t d m : inStep d -> m ∈ messages d -> mID m = uid -> mFolder m = $"INBOX" -> live m = true ->
  wp (insertFolderOrIgnore t ;; updateFolder (isMsg uid) t ;; change uid ($"INBOX") true ;; change uid t false) (fun _ => inStep) d.
Proof.
  intros H Hm Hid Hf Hl. pose proof (keeps_owes_quiet ∅ ∅) as (Q1 & _). apply wp_bind.
  eapply wp_conseq; [exact (wp_and _ _ _ _ (Q1 t d H) (rows_folder t d))|]. intros ? d2 [H2 E2]; cbv beta in *.
  apply wp_bind. eapply wp_conseq; [eapply (owes_move d2 uid ($"INBOX") t m); [exact H2|by rewrite E2|done..]|].
  intros ? d3 H3; cbv beta in *. apply wp_bind. eapply wp_conseq; [by apply owes_left_then|]. intros ? d4 H4; cbv beta in *.
  by apply owes_arrived_last.
Qed.

Lemma feed_applyIncomingAction acc l s uid marker enc a : keeps inStep (applyIncomingAction acc l s uid marker enc a).
Proof.
  intros d H. unfold applyIncomingAction. destruct (checkIncomingReplacement _ _ _ _ _); [done|]. destruct (_ || _); [done|].
  destruct (actionTarget s a) as [t|]; [|done]. apply wp_bind. eapply wp_conseq; [by apply verify_found|].
  intros folder d2 [-> (m & Hm & Hid & Hf & Hl)]; cbv beta in *. pose proof feed_editFlagsTx as HE.
  destruct a; try (by apply wp_ret); (case_bool_decide; [by apply wp_ret|]);
    (destruct (folder =s? $"INBOX") eqn:Ei; cbn [negb]; [apply bool_decide_eq_true in Ei; rewrite Ei in Hf|done]);
    try (by apply HE); (destruct t as [t|]; [|by apply wp_ret]); (destruct (negb _); [done|]); by eapply feed_moveAction.
Qed.

(** ** The outbox *)

Lemma feed_compact l now k n id : keeps inStep (compactOutbound l now k n id).
Proof. unfold compactOutbound. quietAll (∅ : mirror) (∅ : mirror). walk. Qed.

Lemma feed_fileOutboundSent l now k n id : keeps inStep (fileOutboundSent l now k n id).
Proof.
  intros d H. unfold fileOutboundSent, readTx. apply wp_bind, wp_bind, wp_select. destruct (readOutbound _ _ _ _ _) as [[[job statuses] sent]|]; [|done].
  apply wp_ret. destruct (0 <? sent)%Z; [by apply wp_ret|]. destruct (_ || _); [done|]. destruct (rawMetadata _ _) as [[h at_]|]; [|done].
  apply wp_bind. eapply wp_conseq; [by apply owes_insert|]. intros sid d2 H2; cbv beta in *. change (mFolder _) with ($"Sent") in H2.
  pose proof (keeps_owes_quiet {[($"Sent", sid)]} ∅) as (_ & _ & _ & _ & _ & _ & _ & _ & _ & _ & _ & Q & _).
  eapply wp_step; [apply Q|exact H2|]. intros ? d3 H3. apply wp_bind. eapply wp_conseq; [by apply owes_arrived_last|].
  intros ? d4 H4; cbv beta in *. eapply wp_step; [apply feed_compact|exact H4|]. intros. by apply wp_ret.
Qed.

Lemma feed_insertDeliveries id n l : keeps inStep (insertDeliveries id n l).
Proof. revert n. quietAll (∅ : mirror) (∅ : mirror). fold inStep in *. induction l; intros n; simpl; walk. Qed.

Context (limits : Limits) (account : gostr) (master : list Z).

Lemma feed_runOp now space o : keeps inStep (runOp limits account master now space o).
Proof.
  pose proof feed_append. pose proof feed_ensureLabelTx. pose proof feed_editFlagsTx. pose proof feed_update. pose proof feed_relocate.
  pose proof feed_deleteFolder. pose proof feed_renameFolder. pose proof feed_deleteFolderToParent. pose proof feed_replaceIncoming.
  pose proof feed_applyIncomingAction. pose proof feed_insertDeliveries. pose proof feed_compact. pose proof feed_fileOutboundSent.
  quietAll (∅ : mirror) (∅ : mirror). fold inStep in *.
  destruct o; unfold runOp, unitAns, idAns, import, appendLocal, move, delete_, createFolderRow, createFolderUnder,
    queueOutbound, readTx, checkReserve, claimOutbound, completeOutbound, quarantineOutbound; walk.
Qed.

Lemma feed_run tr d : inStep d -> inStep (run_trace (stepM limits account master) tr d).2.
Proof.
  revert d. induction tr as [|c tr IH]; intros d H; simpl; [done|].
  assert (H' : inStep (stepM limits account master c d).2).
  { destruct (stepM limits account master c d) as [r d'] eqn:E. apply stepM_ok in E as [(e & -> & ->)|(a & -> & E & _)]; [done|].
    pose proof (feed_runOp (callNow c) (callSpace c) (callOp c) d H) as HK. unfold wp in HK. by rewrite E in HK. }
  destruct (stepM limits account master c d) as [r d']. specialize (IH d' H'). by destruct (run_trace _ tr d').
Qed.

Lemma inStep_new : inStep newMailbox.
Proof. apply inStep_spec. split; [apply tablesOK_new|done]. Qed.

(** ** The log only grows *)

Lemma log_frame l0 : Frame (fun d => l0 `prefix_of` changes d).
Proof.
  split; [split; [split|..]|split]; intros; intros d0 Hd; unfold wp, insertMessage, updateFolder, insertFolder, insertFolderOrIgnore, deleteFolderRow,
    updateFlags, tombstone, change, insertReceipt, insertImported, insertLabel, insertReplacement, insertOutbox, insertDelivery,
    updateOutbox, updateDelivery, exec;
    repeat case_match; simplify_eq/=; try done; by apply prefix_app_r.
Qed.

(** ** A client that follows the log *)

(** What a client holds after the first [n] events. *)
Definition follows (cursor : Z) (s : mirror) (d : mailbox) : Prop :=
  exists k, cursor = Z.of_nat k /\ (k <= length (changes d))%nat /\ s = applyChanges ∅ (take k (changes d)).

(** One poll: the page after the cursor is applied, the cursor advances to the
    last event of the page. *)
Definition poll (limit cursor : Z) (s : mirror) (d : mailbox) : option (Z * mirror * bool) :=
  match changesAfter cursor limit d with
  | Ok ((page, _), _) => Some (default cursor (cRevision <$> last page), applyChanges s page, bool_decide (page = []))
  | Err _ => None
  end.

Lemma revision_at d k c : tablesOK d -> changes d !! k = Some c -> cRevision c = (Z.of_nat k + 1)%Z.
Proof.
  intros HT Hk. assert (HL : (cRevision <$> changes d) !! k = Some (cRevision c)) by by rewrite list_lookup_fmap, Hk.
  rewrite (tk_revisions d HT) in HL. unfold keysFrom in HL. rewrite list_lookup_fmap in HL.
  apply fmap_Some in HL as (x & Hx & ->). apply lookup_seq in Hx as [-> _]. lia.
Qed.

Lemma max_revision d : tablesOK d -> foldr (fun c h => Z.max (cRevision c) h) 0%Z (changes d) = Z.of_nat (length (changes d)).
Proof.
  intros HT. assert (HG : forall l (k : nat), (cRevision <$> l) = Z.of_nat <$> seq (S k) (length l) -> l ≠ [] ->
    foldr (fun c h => Z.max (cRevision c) h) 0%Z l = Z.of_nat (k + length l)).
  { induction l as [|c l IH]; intros k H Hne; [done|]. simpl in *. injection H as Hc H. destruct l as [|c2 l].
    - simpl. rewrite Hc. lia.
    - rewrite (IH (S k) H) by done. rewrite Hc. simpl. lia. }
  destruct (changes d) as [|c l] eqn:E; [done|]. rewrite (HG _ 0%nat); [done| |done]. rewrite <- E. apply (tk_revisions d HT).
Qed.

Lemma events_after d k : tablesOK d -> (k <= length (changes d))%nat ->
  List.filter (fun c => Z.of_nat k <? cRevision c)%Z (changes d) = drop k (changes d).
Proof.
  intros HT Hk. rewrite <- (take_drop k (changes d)) at 1. rewrite List.filter_app.
  assert (H1 : List.filter (fun c => Z.of_nat k <? cRevision c)%Z (take k (changes d)) = []).
  { destruct (List.filter _ _) as [|c l] eqn:E; [done|]. assert (Hc : c ∈ c :: l) by left. rewrite <- E in Hc.
    apply list_elem_of_In, filter_In in Hc as [Hc Hr]. apply list_elem_of_In, list_elem_of_lookup in Hc as [j Hj].
    apply lookup_take_Some in Hj as [Hj Hlt]. rewrite (revision_at d j c HT Hj) in Hr. apply Z.ltb_lt in Hr. lia. }
  assert (H2 : forall l, (forall c, c ∈ l -> (Z.of_nat k <? cRevision c)%Z = true) -> List.filter (fun c => Z.of_nat k <? cRevision c)%Z l = l).
  { induction l as [|c l IH]; intros H; simpl; [done|]. rewrite H by left. rewrite IH; [done|]. intros x Hx. apply H. by right. }
  rewrite H1, H2; [done|]. intros c [j Hj]%list_elem_of_lookup. rewrite lookup_drop in Hj. rewrite (revision_at d _ c HT Hj). apply Z.ltb_lt. lia.
Qed.

Lemma poll_follows limit cursor s d : (1 <= limit <= 1000)%Z -> tablesOK d -> follows cursor s d ->
  exists cursor' s' idle, poll limit cursor s d = Some (cursor', s', idle) /\ follows cursor' s' d /\
    (cursor' = Z.min (cursor + limit) (Z.of_nat (length (changes d)))) /\ (idle = true <-> cursor = Z.of_nat (length (changes d))) /\
    (idle = true -> s' = told d).
Proof.
  intros Hl HT (k & -> & Hk & ->). unfold poll, changesAfter.
  destruct (_ || _) eqn:E; [rewrite !orb_true_iff, !Z.ltb_lt in E; lia|]. unfold select, mbind, Tx_bind.
  rewrite max_revision by done. destruct (Z.ltb_spec (Z.of_nat (length (changes d))) (Z.of_nat k)); [lia|].
  rewrite events_after by done. set (page := take _ (drop k (changes d))).
  set (k' := (k + length page)%nat). assert (Hlen : length page = Nat.min (Z.to_nat limit) (length (changes d) - k)%nat).
  { unfold page. by rewrite length_take, length_drop. }
  assert (Hmin : Z.of_nat k' = Z.min (Z.of_nat k + limit) (Z.of_nat (length (changes d)))) by (unfold k'; lia).
  assert (Hs' : applyChanges (applyChanges ∅ (take k (changes d))) page = applyChanges ∅ (take k' (changes d))).
  { unfold applyChanges. rewrite <- foldl_app. f_equal. unfold page. rewrite take_take_drop.
    destruct (decide (k + Z.to_nat limit <= length (changes d))%nat); [f_equal; unfold k'; lia|].
    rewrite !take_ge by (unfold k'; lia). done. }
  assert (Hcur : default (Z.of_nat k) (cRevision <$> last page) = Z.of_nat k').
  { rewrite last_lookup. destruct (page !! pred (length page)) as [c|] eqn:Ec; simpl.
    - assert (Hpos : (length page ≠ 0)%nat) by (apply lookup_lt_Some in Ec; lia).
      unfold page in Ec. apply lookup_take_Some in Ec as [Ec _]. rewrite lookup_drop in Ec. fold page in Ec.
      rewrite (revision_at d _ c HT Ec). unfold k'. lia.
    - apply lookup_ge_None in Ec. unfold k'. lia. }
  rewrite Hs', Hcur. eexists _, _, _. split; [done|]. split; [exists k'; split; [done|]; split; [lia|done]|]. split; [done|].
  rewrite bool_decide_eq_true. split; [|intros Hp; unfold told; by rewrite take_ge by (unfold k'; rewrite Hp in *; simpl in *; lia)].
  split; [intros Hp; rewrite Hp in *; simpl in *; lia|]. intros Hc. apply length_zero_iff_nil. lia.
Qed.
End Feed.

(** ** Convergence *)

Section Theorems.
Context {U : Unicode} {SS : SortSlice} {ML : MailLib} {GF : GoTimeFormat} {OL : OutboxLib}.

(** Polls and calls interleave. *)
Inductive feedEvent := FCall (c : mbCall) | FPoll (limit : Z).
Fixpoint followRun (limits : Limits) (account : gostr) (master : list Z) (tr : list feedEvent) (st : Z * mirror * mailbox) : Z * mirror * mailbox :=
  match tr with
  | [] => st
  | FCall c :: tr' => followRun limits account master tr' (st.1, (stepM limits account master c st.2).2)
  | FPoll limit :: tr' =>
      followRun limits account master tr'
        match poll limit st.1.1 st.1.2 st.2 with Some (cursor, s, _) => (cursor, s, st.2) | None => st end
  end.

(** (C32) The change log is a faithful feed: a client that starts with nothing
    and polls now and then, in pages of any size, while any calls arrive,
    rename, move, encrypt and delete mail, never has its cursor refused, never
    misses or invents an event, and once a poll comes back empty it holds exactly
    the live messages with their folders. *)
Theorem change_feed_converges (limits : Limits) (account : gostr) (master : list Z) (tr : list feedEvent) (limit : Z) :
  (1 <= limit <= 1000)%Z -> Forall (fun e => match e with FPoll n => (1 <= n <= 1000)%Z | FCall _ => True end) tr ->
  let '(cursor, s, d) := followRun limits account master tr (0%Z, ∅, newMailbox) in
  exists cursor' s' idle, poll limit cursor s d = Some (cursor', s', idle) /\
    (cursor <= cursor')%Z /\ (idle = true <-> cursor = Z.of_nat (length (changes d))) /\ (idle = true -> s' = placement d).
Proof.
  intros Hl HF. set (st := (0%Z, (∅ : mirror), newMailbox)).
  assert (H : inStep st.2 /\ follows st.1.1 st.1.2 st.2).
  { split; [apply inStep_new|]. exists 0%nat. split; [done|]. split; [simpl; lia|done]. }
  clearbody st. revert st H. induction HF as [|e tr He _ IH]; intros [[cursor s] d] [Hd Hf]; cbn [fst snd] in Hd, Hf.
  - simpl. pose proof Hd as [HT E]%inStep_spec. destruct (poll_follows limit cursor s d Hl HT Hf) as (c' & s' & idle & HP & Hf' & Hc & Hi & Hs).
    exists c', s', idle. split; [done|]. destruct Hf as (k & -> & Hk & _). split; [lia|]. split; [done|]. intros Hid. rewrite <- E. by apply Hs.
  - simpl. destruct e as [c|n].
    + apply IH. split; simpl.
      * pose proof (feed_run limits account master [c] d Hd) as HK. simpl in HK. by destruct (stepM _ _ _ c d).
      * destruct Hf as (k & -> & Hk & ->). assert (Hpre : changes d `prefix_of` changes d) by done.
        pose proof (keeps_run limits account master _ (log_frame (changes d)) [c] d Hpre) as [t Ht].
        simpl in Ht. destruct (stepM limits account master c d) as [r d']. simpl in *. exists k. split; [done|]. rewrite Ht, length_app. split; [lia|].
        by rewrite take_app_le.
    + pose proof Hd as [HT _]%inStep_spec.
      destruct (poll_follows n cursor s d He HT Hf) as (c' & s' & idle & HP & Hf' & _).
      simpl in *. rewrite HP. by apply IH.
Qed.
End Theorems.
