(* ===== verification/MailboxHistory.v ===== *)
(** * MailboxHistory: what later calls cannot take back

    Rows are never removed and keep their key and digest; receipts, replacements
    and the change log only grow.  A delivery is therefore taken in exactly once
    and mail loses its bytes only to the calls that say so. *)

From S2P Require Import Prelude GoText GoCodec SendAs MailboxModel Mailbox MailboxIncoming Outbox MailboxRun MailboxInvariant.

(** The same message later: its bytes are unchanged or gone. *)
Definition aged (m m' : message) : Prop := mID m' = mID m /\ mDigest m' = mDigest m /\ (mRaw m' = mRaw m \/ mRaw m' = None).

Record history (d d' : mailbox) : Prop := {
  hy_messages i m : messages d !! i = Some m -> exists m', messages d' !! i = Some m' /\ aged m m';
  hy_receipts : receipts d `prefix_of` receipts d';
  hy_replacements : replacements d `prefix_of` replacements d';
}.

Lemma aged_refl m : aged m m.
Proof. repeat split. by left. Qed.
Lemma aged_trans m m' m'' : aged m m' -> aged m' m'' -> aged m m''.
Proof. intros (A & B & C) (A' & B' & C'). split; [congruence|]. split; [congruence|]. destruct C' as [->|]; [done|by right]. Qed.
Lemma history_refl d : history d d.
Proof. split; [|done|done]. intros i m H. exists m. split; [done|apply aged_refl]. Qed.
Lemma history_trans d d' d'' : history d d' -> history d' d'' -> history d d''.
Proof.
  intros [H1 H2 H3] [K1 K2 K3]. split; [|by etransitivity..]. intros i m (m' & Hm' & Ha)%H1. apply K1 in Hm' as (m'' & Hm'' & Ha').
  exists m''. split; [done|by eapply aged_trans].
Qed.

Lemma find_first_prefix {A} (p : A -> bool) l k x : l `prefix_of` k -> find_first p l = Some x -> find_first p k = Some x.
Proof. intros [t ->] H. by rewrite find_first_app, H. Qed.

Section History.
Context {U : Unicode} {SS : SortSlice} {ML : MailLib} {GF : GoTimeFormat} {OL : OutboxLib}.

Lemma history_same d d' : messages d' = messages d -> receipts d' = receipts d -> replacements d' = replacements d -> history d d'.
Proof. intros E1 E2 E3. split; rewrite ?E1, ?E2, ?E3; [|done..]. intros i m H. exists m. split; [done|apply aged_refl]. Qed.
Lemma history_update d d' p g : (forall m, aged m (g m)) ->
  messages d' = updateWhere p g (messages d) -> receipts d' = receipts d -> replacements d' = replacements d -> history d d'.
Proof.
  intros Hg E1 E2 E3. split; rewrite ?E1, ?E2, ?E3; [|done..]. intros i m H. unfold updateWhere. rewrite list_lookup_fmap, H. simpl.
  eexists. split; [done|]. destruct (p m); [apply Hg|apply aged_refl].
Qed.

Lemma history_frame d0 : Frame (history d0).
Proof.
  assert (HT : forall d d', history d0 d -> history d d' -> history d0 d') by (intros; by eapply history_trans).
  split; [split; [split|..]|split]; intros; intros d Hd; unfold wp, insertMessage, updateFolder, insertFolder, insertFolderOrIgnore, deleteFolderRow,
    updateFlags, tombstone, change, insertReceipt, insertImported, insertLabel, insertReplacement, insertOutbox, insertDelivery,
    updateOutbox, updateDelivery, exec; repeat case_match; simplify_eq/=; try done;
    apply (HT d _ Hd); try (by apply history_same).
  - eapply (history_update d); [|done..]. intros m. repeat split. by left.
  - eapply (history_update d); [|done..]. intros m. repeat split. by left.
  - eapply (history_update d); [|done..]. intros m. repeat split. by right.
  - split; simpl; [|done|by apply prefix_app_r]. intros i m Hm. exists m. split; [done|apply aged_refl].
  - split; simpl; [|done..]. intros i m' Hm. exists m'. split; [by apply lookup_app_l_Some|apply aged_refl].
  - split; simpl; [|by apply prefix_app_r|done]. intros i m Hm. exists m. split; [done|apply aged_refl].
Qed.

Lemma history_run limits account master tr d : history d (run_trace (stepM limits account master) tr d).2.
Proof. apply keeps_run; [apply history_frame|apply history_refl]. Qed.

(** ** Bytes that stay *)

(** The [i]-th row is live message [id] with these bytes. *)
Definition keepsBytes (i : nat) (id : Z) (raw : list Z) (d : mailbox) : Prop :=
  exists m, messages d !! i = Some m /\ mID m = id /\ mRaw m = Some raw.

Lemma keepsBytes_update i id raw p g d d' : (forall m, mID m = id -> p m = true -> mID (g m) = mID m /\ mRaw (g m) = mRaw m) ->
  messages d' = updateWhere p g (messages d) -> keepsBytes i id raw d -> keepsBytes i id raw d'.
Proof.
  intros Hg E (m & Hm & Hi & Hr). unfold keepsBytes. rewrite E. unfold updateWhere. rewrite list_lookup_fmap, Hm. simpl.
  eexists. split; [done|]. destruct (p m) eqn:Ep; [|done]. destruct (Hg m Hi Ep) as [-> ->]. done.
Qed.

Lemma keepsBytes_mail i id raw : MailFrame (fun j => j ≠ id) (keepsBytes i id raw).
Proof.
  split; [split|..]; intros; intros d Hd; unfold wp, insertMessage, updateFolder, insertFolder, insertFolderOrIgnore, deleteFolderRow,
    updateFlags, tombstone, change, insertReceipt, insertImported, insertLabel, insertReplacement, exec;
    repeat case_match; simplify_eq/=; try done; try (by eapply keepsBytes_update; [|done..]).
  - eapply keepsBytes_update; [|done..]. intros m Hm Hp%Z.eqb_eq. congruence.
  - destruct Hd as (m' & Hm & ?). exists m'. simpl. split; [by apply lookup_app_l_Some|done].
Qed.

Lemma keepsBytes_elsewhere i id raw f : (forall d, messages (f d) = messages d) -> keeps (keepsBytes i id raw) (exec f : Tx unit).
Proof. intros Hf d H. apply wp_exec. unfold keepsBytes. by rewrite Hf. Qed.
Lemma keepsBytes_compact i id raw l now master nonce job : keeps (keepsBytes i id raw) (compactOutbound l now master nonce job).
Proof. assert (forall e, keeps (keepsBytes i id raw) (updateOutbox job (withCipher e))) by (intros; by apply keepsBytes_elsewhere). unfold compactOutbound. walk. Qed.

Lemma keepsBytes_step limits account master c d i id raw : ~ removes (callOp c) id -> keepsBytes i id raw d ->
  keepsBytes i id raw (stepM limits account master c d).2.
Proof.
  intros Hc H. destruct (stepM limits account master c d) as [r d'] eqn:E. apply stepM_ok in E as [(e & -> & ->)|(a & -> & E & _)]; [done|].
  assert (HK : keeps (keepsBytes i id raw) (runOp limits account master (callNow c) (callSpace c) (callOp c))).
  { destruct (mailOp (callOp c)) eqn:Em.
    { eapply keeps_mailOp; [apply keepsBytes_mail| |done]. intros j Hj Hji. subst. by apply Hc. }
    pose proof (fr_insertMessage _ _ (keepsBytes_mail i id raw)). pose proof (fr_change _ _ (keepsBytes_mail i id raw)).
    pose proof (keepsBytes_compact i id raw).
    assert (forall j f, keeps (keepsBytes i id raw) (updateOutbox j f)) by (intros; by apply keepsBytes_elsewhere).
    assert (forall p f, keeps (keepsBytes i id raw) (updateDelivery p f)) by (intros; by apply keepsBytes_elsewhere).
    assert (forall r, keeps (keepsBytes i id raw) (insertDelivery r)) by (intros r d0 Hd0; by apply wp_insertDelivery).
    assert (forall r, keeps (keepsBytes i id raw) (insertOutbox r)) by (intros r d0 Hd0; by apply wp_insertOutbox).
    assert (forall j n l, keeps (keepsBytes i id raw) (insertDeliveries j n l)) by (intros j n l; revert n; induction l; intros; simpl; walk).
    destruct (callOp c); try discriminate Em;
      unfold runOp, unitAns, idAns, queueOutbound, readTx, checkReserve, claimOutbound, completeOutbound, fileOutboundSent, quarantineOutbound; walk. }
  specialize (HK d H). unfold wp in HK. by rewrite E in HK.
Qed.

Lemma keepsBytes_run limits account master tr d i id raw : Forall (fun c => ~ removes (callOp c) id) tr -> keepsBytes i id raw d ->
  keepsBytes i id raw (run_trace (stepM limits account master) tr d).2.
Proof.
  intros HF. revert d. induction HF as [|c tr Hc _ IH]; intros d H; simpl; [done|].
  apply (keepsBytes_step limits account master c) in H; [|done]. destruct (stepM _ _ _ c d) as [r d'].
  specialize (IH d' H). by destruct (run_trace _ tr d').
Qed.

(** ** A delivery *)

(** A new message has the next key, its digest and its bytes. *)
Lemma appendNew_ok l now space folder raw receipt draft imported d id d' :
  appendNew l now space folder raw receipt draft imported d = Ok (id, d') ->
  fits (usage d) l (Z.of_nat (length raw)) = true /\ id = (Z.of_nat (length (messages d)) + 1)%Z /\ 
  (exists m, messages d' = (messages d ++ [m]) /\ mID m = id /\ mFolder m = folder /\ mRaw m = Some raw /\ mDigest m = hashIncoming raw) /\ 
  receipts d' = receipts d ++ match receipt with Some r => [mkReceiptRow (rGateway r) (rDelivery r) r (hashIncoming raw) id] | None => [] end /\ 
  usage d' = mkUsage (uBytes (usage d) + Z.of_nat (length raw)) (uRecords (usage d) + 1).
Proof.
  intros H. unfold appendNew, checkReserve, insertReceipt, insertImported, change in H. cbv zeta in H. repeat txstep.
  all: subst; simpl; (split; [done|]); (split; [done|]); (split; [by eexists; split; [reflexivity|]|]); split; (reflexivity || by rewrite app_nil_r).
Qed.

(** What a receipt's first hit says survives. *)
Lemma receipt_kept limits account master tr d g k row :
  find_first (isReceipt g k) (receipts d) = Some row -> find_first (isReceipt g k) (receipts (run_trace (stepM limits account master) tr d).2) = Some row.
Proof. apply find_first_prefix, (history_run limits account master tr d). Qed.
(** An accepted delivery leaves its receipt, and a message on the first hit. *)
Lemma import_ok l now space r input d id d' : import l now space r input d = Ok (id, d') ->
  exists e raw row, canonicalReceipt r = Some e /\ input = Some raw /\ (Z.of_nat (length raw) <= MessageBytes l)%Z /\
    find_first (isReceipt (rGateway r) (rDelivery r)) (receipts d') = Some row /\
    rrEnvelope row = e /\ rrDigest row = hashIncoming raw /\ rrMessage row = id /\
    (find_first (isReceipt (rGateway r) (rDelivery r)) (receipts d) = None ->
     exists k, id = (Z.of_nat k + 1)%Z /\ exists m, messages d' !! k = Some m /\ mID m = id /\ mRaw m = Some raw /\ mDigest m = hashIncoming raw).
Proof.
  unfold import. destruct (canonicalReceipt r) as [e|] eqn:Ee; [|done].
  assert (Hid : rGateway e = rGateway r /\ rDelivery e = rDelivery r).
  { unfold canonicalReceipt in Ee. by repeat case_match; simplify_eq. }
  assert (HA : forall folder, append_ l now space folder input (Some e) false None d = Ok (id, d') -> exists raw row, input = Some raw /\
    (Z.of_nat (length raw) <= MessageBytes l)%Z /\ find_first (isReceipt (rGateway e) (rDelivery e)) (receipts d') = Some row /\
    rrEnvelope row = e /\ rrDigest row = hashIncoming raw /\ rrMessage row = id /\
    (find_first (isReceipt (rGateway e) (rDelivery e)) (receipts d) = None ->
     exists k, id = (Z.of_nat k + 1)%Z /\ exists m, messages d' !! k = Some m /\ mID m = id /\ mRaw m = Some raw /\ mDigest m = hashIncoming raw)).
  { intros folder H. unfold append_, boundedRead in H. destruct input as [raw|]; [|done]. destruct (MessageBytes l <? _)%Z eqn:El; [done|].
    apply Z.ltb_ge in El. exists raw. repeat txstep.
    - apply orb_false_iff in Heqb as [Hb1 Hb2]. rewrite negb_false_iff, bool_decide_eq_true in Hb1. rewrite negb_false_iff, bool_decide_eq_true in Hb2.
      injection Hb1 as Hb1. exists r0. by repeat split.
    - apply appendNew_ok in H as (_ & -> & (m & Hm & Hmi & _ & Hr & Hd) & Hrec & _). simpl in Hrec. eexists. split; [done|]. split; [done|].
      split; [rewrite Hrec, find_first_app, Heqo; simpl; unfold isReceipt; simpl; by rewrite !bool_decide_true|].
      do 3 (split; [done|]). intros _. exists (length (messages d)). split; [done|]. exists m. by rewrite Hm, list_lookup_middle. }
  destruct Hid as [H1 H2]. rewrite H1, H2 in HA.
  intros H. repeat txstep; apply HA in H as (raw & row & ?); by exists e, raw, row.
Qed.

(** A later delivery under the same receipt. *)
Lemma import_replay l now space r raw d e row :
  canonicalReceipt r = Some e -> rFolder r ∈ [[]; $"INBOX"; $"Junk"] -> (Z.of_nat (length raw) <= MessageBytes l)%Z ->
  find_first (isReceipt (rGateway r) (rDelivery r)) (receipts d) = Some row ->
  import l now space r (Some raw) d =
    if bool_decide (rrEnvelope row = e) && (rrDigest row =s? hashIncoming raw) then Ok (rrMessage row, d) else Err ErrConflictMB.
Proof.
  intros He Hf Hl Hrow. assert (Hid : rGateway e = rGateway r /\ rDelivery e = rDelivery r).
  { unfold canonicalReceipt in He. by repeat case_match; simplify_eq. }
  destruct Hid as [H1 H2]. unfold import. rewrite He.
  assert (HA : forall folder, append_ l now space folder (Some raw) (Some e) false None d =
    if bool_decide (rrEnvelope row = e) && (rrDigest row =s? hashIncoming raw) then Ok (rrMessage row, d) else Err ErrConflictMB).
  { intros folder. unfold append_, boundedRead. rewrite (proj2 (Z.ltb_ge _ _) Hl). unfold mbind, Tx_bind, select. rewrite H1, H2, Hrow.
    rewrite (bool_decide_ext (Some (rrEnvelope row) = Some e) (rrEnvelope row = e)) by naive_solver.
    by destruct (bool_decide (rrEnvelope row = e)), (rrDigest row =s? hashIncoming raw). }
  rewrite !elem_of_cons in Hf. destruct Hf as [Hf|[Hf|[Hf|[]%elem_of_nil]]]; rewrite Hf; exact (HA _).
Qed.

(** Encryption in place, backwards: the first time, or the copy again. *)
Lemma replaceIncoming_ok account l now s marker enc d id d' : replaceIncoming account l now s marker enc d = Ok (id, d') ->
  pgpEncrypted enc = true /\
  ((d' = d /\ exists r, find_first (fun r => rpSource r =? srcUID s)%Z (replacements d) = Some r /\ rpReplacement r = id) \/
   exists m0 h copy, m0 ∈ messages d /\ mID m0 = srcUID s /\ mFolder m0 = $"INBOX" /\ live m0 = true /\
     hashIncoming (default [] (mRaw m0)) = srcHash s /\
     messages d' = updateWhere (isMsg (srcUID s)) emptied (messages d ++ [copy]) /\
     mID copy = id /\ id = (Z.of_nat (length (messages d)) + 1)%Z /\
     copy = mkMessage id ($"INBOX") (Some enc) (hashIncoming enc) (headerGet h ($"From")) (headerGet h ($"Subject")) (headerGet h ($"To"))
              (headerGet h ($"Cc")) (headerGet h ($"Bcc")) (mAt m0) (mSeen m0) (mStarred m0) (mDraft m0) (mLabels m0)).
Proof.
  intros H. unfold replaceIncoming in H. repeat txstep.
  - split; [by apply negb_false_iff|]. left.
    split; [|by eauto].
    match goal with H : verifyIncomingTx _ _ _ _ _ _ = _ |- _ => unfold verifyIncomingTx in H end. by repeat txstep.
  - split; [by apply negb_false_iff|]. right. unfold replaceRows, tombstone, insertReplacement, change in H. repeat txstep. subst.
    match goal with H : find_first _ (messages d) = Some _ |- _ => apply find_first_Some in H as [Hin Hp] end.
    apply andb_true_iff in Hp as [[Hi%isMsg_spec Hf]%andb_true_iff Hl]. to_prop.
    eexists _, _, _. split; [exact Hin|]. split; [done|]. split; [done|]. split; [done|].
    split; [done|].
    split; [reflexivity|]. by repeat split.
Qed.

(** ** Receipts *)

Definition receiptKey (r : receiptRow) : gostr * gostr := (rrGateway r, rrDelivery r).
(** One row per delivery, naming a message with its digest. *)
Record receiptsOK (d : mailbox) : Prop := {
  rc_keys : NoDup (receiptKey <$> receipts d);
  rc_messages : Forall (fun r => exists n m, messages d !! n = Some m /\ mID m = rrMessage r /\ mDigest m = rrDigest r) (receipts d);
}.
Lemma receiptsOK_new : receiptsOK newMailbox.
Proof. split; constructor. Qed.
Lemma isReceipt_spec g k r : isReceipt g k r = true <-> receiptKey r = (g, k).
Proof. unfold isReceipt, receiptKey. rewrite andb_true_iff, !bool_decide_eq_true. naive_solver. Qed.

Lemma receipts_edit R0 : EditFrame (fun _ => True) (fun d => receipts d = R0).
Proof.
  split; intros; intros d Hd; unfold wp, updateFolder, insertFolder, insertFolderOrIgnore, deleteFolderRow, updateFlags, tombstone, change, insertImported,
    insertLabel, insertReplacement, exec; repeat case_match; simplify_eq/=; done.
Qed.
Lemma receipts_out R0 : OutFrame (fun d => receipts d = R0).
Proof. split; intros; intros d Hd; unfold wp, insertOutbox, insertDelivery, updateOutbox, updateDelivery, exec; repeat case_match; simplify_eq/=; done. Qed.
Lemma receipts_local limits account master now space o d a d' : isImport o = false -> runOp limits account master now space o d = Ok (a, d') -> receipts d' = receipts d.
Proof.
  intros Hi H. assert (HK : keeps (fun x => receipts x = receipts d) (runOp limits account master now space o)).
  { apply keeps_localOp; [apply receipts_out|apply receipts_edit| |done]. intros m x Hx. apply wp_insertMessage. by intros _. }
  specialize (HK d eq_refl). unfold wp in HK. by rewrite H in HK.
Qed.
(** A delivery that is known writes nothing; a new one adds its receipt. *)
Lemma import_receipts l now space r input d id d' : import l now space r input d = Ok (id, d') ->
  d' = d /\ is_Some (find_first (isReceipt (rGateway r) (rDelivery r)) (receipts d)) \/
  exists row, receipts d' = receipts d ++ [row] /\ isReceipt (rGateway r) (rDelivery r) row = true /\ find_first (isReceipt (rGateway r) (rDelivery r)) (receipts d) = None.
Proof.
  unfold import. destruct (canonicalReceipt r) as [e|] eqn:Ee; [|done].
  assert (Hid : rGateway e = rGateway r /\ rDelivery e = rDelivery r) by (unfold canonicalReceipt in Ee; by repeat case_match; simplify_eq).
  destruct Hid as [<- <-].
  assert (HA : forall folder, append_ l now space folder input (Some e) false None d = Ok (id, d') ->
    d' = d /\ is_Some (find_first (isReceipt (rGateway e) (rDelivery e)) (receipts d)) \/
    exists row, receipts d' = receipts d ++ [row] /\ isReceipt (rGateway e) (rDelivery e) row = true /\ find_first (isReceipt (rGateway e) (rDelivery e)) (receipts d) = None).
  { intros folder H. unfold append_, boundedRead in H. destruct input as [raw|]; [|done]. destruct (MessageBytes l <? _)%Z eqn:El; [done|]. repeat txstep.
    - by left; eauto.
    - right. match goal with H : appendNew _ _ _ _ _ _ _ _ _ = _ |- _ => apply appendNew_ok in H as (_ & _ & _ & Hrec & _) end. eexists. split; [exact Hrec|].
      split; [|done]. unfold isReceipt. simpl. by rewrite !bool_decide_true. }
  intros H. repeat txstep; by eapply HA.
Qed.
Lemma known_import_writes_nothing limits account master c r input d : callOp c = OImport r input ->
  is_Some (find_first (isReceipt (rGateway r) (rDelivery r)) (receipts d)) -> (stepM limits account master c d).2 = d.
Proof.
  intros Hop [row Hrow]. destruct (stepM limits account master c d) as [a d'] eqn:E. apply stepM_ok in E as [(e & _ & ->)|(x & _ & E & _)]; [done|].
  rewrite Hop in E. cbn [runOp] in E. unfold idAns in E. apply bind_ok in E as (id & d1 & E & [_ ->]%ret_ok).
  apply import_receipts in E as [[-> _]|(row' & _ & _ & Hn)]; [done|congruence].
Qed.

Lemma receiptsOK_step limits account master c d : receiptsOK d -> receiptsOK (stepM limits account master c d).2.
Proof.
  intros [HK HM]. destruct (stepM limits account master c d) as [r d'] eqn:E. pose proof (history_run limits account master [c] d) as [HM' _ _]. simpl in HM'. rewrite E in HM'. simpl in HM'.
  apply stepM_ok in E as [(e & -> & ->)|(a & -> & E & _)]; [by split|]. simpl.
  assert (HO : Forall (fun r => exists n m, messages d' !! n = Some m /\ mID m = rrMessage r /\ mDigest m = rrDigest r) (receipts d)).
  { eapply Forall_impl; [exact HM|]. intros x (n & m & Hn & Hi & Hd). destruct (HM' n m Hn) as (m' & Hn' & Ei & Ed & _). exists n, m'. split; [done|]. split; congruence. }
  destruct (isImport (callOp c)) eqn:Ei; [|apply receipts_local in E; [split; by rewrite E|done]].
  destruct (callOp c) as [r input| | | | | | | | | | | | | | | | | | |]; try discriminate Ei. cbn [runOp] in E. unfold idAns in E.
  apply bind_ok in E as (id & d1 & E & [_ ->]%ret_ok). pose proof (import_ok _ _ _ _ _ _ _ _ E) as (e & raw & row & _ & _ & _ & Hrow & _ & Hdg & Hmsg & Hnew).
  apply import_receipts in E as [[-> _]|(row' & Hrec & Hr & Hn)]; [by split|].
  assert (row = row') as ->. { rewrite Hrec, find_first_app, Hn in Hrow. simpl in Hrow. rewrite Hr in Hrow. by injection Hrow. }
  split; rewrite Hrec.
  - rewrite fmap_app. apply NoDup_app. split; [done|]. split; [|apply NoDup_singleton]. intros k (x & -> & Hx)%list_elem_of_fmap Hk%list_elem_of_singleton.
    apply isReceipt_spec in Hr. rewrite find_first_None in Hn. specialize (Hn x Hx). assert (isReceipt (rGateway r) (rDelivery r) x = true); [|congruence]. apply isReceipt_spec. congruence.
  - apply Forall_app. split; [done|]. constructor; [|constructor]. destruct (Hnew Hn) as (k & -> & m & Hm & Hi & _ & Hd). exists k, m. split; [done|]. split; congruence.
Qed.
End History.

(** ** Theorems *)

Section Theorems.
Context {U : Unicode} {SS : SortSlice} {ML : MailLib} {GF : GoTimeFormat} {OL : OutboxLib}.

(** (C34) A delivery is taken in exactly once: whatever happens after it was
    accepted, the same receipt with the same bytes answers the first message's
    ID and writes nothing, even when that message was moved or deleted since and
    even on a full mailbox, and the receipt with another envelope or other bytes
    is a conflict; the message's row stays, with those bytes or none. *)
Theorem import_exactly_once limits account master d c r input id d1 tr c' r' raw' :
  callOp c = OImport r input -> stepM limits account master c d = (Ok (AnsID id), d1) ->
  callUp c' = true -> callOp c' = OImport r' (Some raw') -> rGateway r' = rGateway r -> rDelivery r' = rDelivery r ->
  is_Some (canonicalReceipt r') -> rFolder r' ∈ [[]; $"INBOX"; $"Junk"] -> (Z.of_nat (length raw') <= MessageBytes limits)%Z ->
  let d2 := (run_trace (stepM limits account master) tr d1).2 in
  exists raw, input = Some raw /\
    stepM limits account master c' d2 =
      (if bool_decide (canonicalReceipt r' = canonicalReceipt r) && (hashIncoming raw' =s? hashIncoming raw) then Ok (AnsID id) else Err ErrConflictMB, d2) /\
    (find_first (isReceipt (rGateway r) (rDelivery r)) (receipts d) = None ->
     exists k m, id = (Z.of_nat k + 1)%Z /\ messages d2 !! k = Some m /\ mID m = id /\ mDigest m = hashIncoming raw /\
       (mRaw m = Some raw \/ mRaw m = None)).
Proof.
  intros Hop Hs Hup Hop' Hg Hk [e' He'] Hf Hl. cbv zeta. pose proof (history_run limits account master tr d1) as Hh.
  pose proof (receipt_kept limits account master tr d1 (rGateway r) (rDelivery r)) as Hrk.
  set (d2 := (run_trace _ tr d1).2) in *. clearbody d2.
  apply stepM_ok in Hs as [(e & [=] & _)|(a & Ha & Hs & _)]. injection Ha as <-. rewrite Hop in Hs. unfold runOp, idAns in Hs.
  apply bind_ok in Hs as (i & d3 & HI & [= <- <-]). apply import_ok in HI as (e & raw & row & He & -> & _ & Hrow & Hen & Hdg & Hmsg & Hnew).
  exists raw. split; [done|]. split.
  - apply Hrk in Hrow. unfold stepM, transact. rewrite Hup, Hop'. cbn [negb runOp]. unfold idAns, mbind, Tx_bind.
    rewrite (import_replay _ _ _ r' raw' d2 e' row He' Hf Hl) by (by rewrite Hg, Hk). rewrite He, He', Hdg, Hen, Hmsg.
    rewrite (bool_decide_ext (Some e' = Some e) (e = e')) by naive_solver.
    assert ((hashIncoming raw =s? hashIncoming raw') = (hashIncoming raw' =s? hashIncoming raw)) as -> by (by apply bool_decide_ext).
    by destruct (bool_decide (e = e')), (hashIncoming raw' =s? hashIncoming raw).
  - intros Hn. destruct (Hnew Hn) as (k & Hid & m & Hm & Hi & Hr & Hd). apply (hy_messages _ _ Hh) in Hm as (m' & Hm' & Hi' & Hd' & Hr').
    exists k, m'. rewrite Hi', Hd', Hi, Hd. rewrite Hr in Hr'. done.
Qed.

(** (C30) Mail loses its bytes only on request: a call after which a live
    message no longer holds its bytes was a deletion of that very message, from
    the folder it is in, or it encrypted the message in place: then the source's
    hash was that of the bytes, and the same transaction stored the ciphertext
    as a live INBOX message that kept flags, labels and date. *)
Theorem mail_lost_only_on_request limits account master tr c k m raw :
  let d := (run_trace (stepM limits account master) tr newMailbox).2 in
  let '(r, d') := stepM limits account master c d in
  messages d !! k = Some m -> mRaw m = Some raw ->
  keepsBytes k (mID m) raw d' \/
  (callOp c = ODelete (mFolder m) (mID m) /\ r = Ok AnsUnit) \/
  exists s marker enc copy, callOp c = OReplaceIncoming s marker enc /\ r = Ok (AnsID (mID copy)) /\
    srcUID s = mID m /\ srcHash s = hashIncoming raw /\ mFolder m = $"INBOX" /\
    last (messages d') = Some copy /\ mRaw copy = Some enc /\ pgpEncrypted enc = true /\ mFolder copy = $"INBOX" /\
    mSeen copy = mSeen m /\ mStarred copy = mStarred m /\ mDraft copy = mDraft m /\ mLabels copy = mLabels m /\ mAt copy = mAt m.
Proof.
  cbv zeta. pose proof (tablesOK_run limits account master tr) as HT. set (d := (run_trace _ tr newMailbox).2) in *. clearbody d.
  destruct (stepM limits account master c d) as [r d'] eqn:E. intros Hm Hr.
  assert (HB : keepsBytes k (mID m) raw d) by (by exists m).
  assert (Hk : ~ removes (callOp c) (mID m) -> keepsBytes k (mID m) raw d').
  { intros Hn. pose proof (keepsBytes_step limits account master c d k (mID m) raw Hn HB) as HK. by rewrite E in HK. }
  pose proof (list_elem_of_lookup_2 _ _ _ Hm) as Hin.
  apply stepM_ok in E as [(e & -> & ->)|(a & -> & E & _)]; [by left|].
  destruct (callOp c) eqn:Eop; try (left; apply Hk; by intros []); cbn [runOp] in E; unfold unitAns, idAns, delete_ in E.
  - destruct (decide (id = mID m)) as [->|Hne]; [|left; apply Hk; simpl; congruence].
    apply bind_ok in E as ([] & d1 & E & [= <- <-]). unfold relocate in E. apply bind_ok in E as (row & d2 & [-> ->]%select_ok & E).
    destruct (find_first _ _) as [m0|] eqn:Ef; [|done]. apply find_first_Some in Ef as [Hin0 Hp]. right; left.
    apply andb_true_iff in Hp as [[Hi%isMsg_spec Hf]%andb_true_iff _]. to_prop. rewrite (ids_unique d m m0 HT Hin Hin0) by done. by subst.
  - destruct (decide (srcUID s = mID m)) as [Hs|Hne]; [|left; by apply Hk].
    apply bind_ok in E as (id & d1 & E & [= <- <-]). apply replaceIncoming_ok in E as [Hpgp [[-> _]|(m0 & h & copy & Hin0 & Hi & Hf & Hl & Hh & Hms & Hc & Hid & Ecopy)]]; [by left|].
    right; right. assert (m0 = m) as -> by (apply (ids_unique d); [done..|congruence]). rewrite Hr in Hh. simpl in Hh.
    exists s, marker, encrypted, copy. rewrite Hc. do 5 (split; [done|]). split; [|by subst copy].
    rewrite Hms. unfold updateWhere. rewrite fmap_app. cbn [fmap list_fmap]. rewrite last_snoc. f_equal. unfold isMsg. rewrite Hc.
    assert (Hlt : (mID m < id)%Z).
    { subst id. pose proof (tk_ids d HT) as Hids. assert (HL : (mID <$> messages d) !! k = Some (mID m)) by by rewrite list_lookup_fmap, Hm.
      rewrite Hids in HL. unfold keysFrom in HL. rewrite list_lookup_fmap in HL. apply fmap_Some in HL as (x & Hx & ->).
      apply lookup_seq in Hx as [-> Hx]. lia. }
    rewrite (proj2 (Z.eqb_neq _ _)) by lia. done.
Qed.
End Theorems.

(** ** Deleting a folder into its parent

    The loop moves live mail in pages of 200 and stops at an empty page; the
    fuel, the number of rows, is always enough. *)

(** Messages that satisfy [q] are moved to [p]. *)
Definition moveWhere (q : message -> bool) (p : gostr) (l : list message) : list message := (fun m => if q m then withFolder p m else m) <$> l.

Lemma moveWhere_ids q p l : mID <$> moveWhere q p l = mID <$> l.
Proof. unfold moveWhere. rewrite <- list_fmap_compose. apply list_fmap_ext. intros i m _. simpl. by destruct (q m). Qed.
Lemma moveWhere_ext q r p l : (forall m, m ∈ l -> q m = r m) -> moveWhere q p l = moveWhere r p l.
Proof. intros H. apply list_fmap_ext. intros i m Hm%list_elem_of_lookup_2. by rewrite H. Qed.
Lemma moveWhere_twice q r p l : moveWhere r p (moveWhere q p l) = moveWhere (fun m => q m || (if q m then r (withFolder p m) else r m)) p l.
Proof.
  unfold moveWhere. rewrite <- list_fmap_compose. apply list_fmap_ext. intros i m _. simpl. destruct (q m); simpl; [|done].
  by destruct (r (withFolder p m)).
Qed.

Section Folders.
Context {U : Unicode} {SS : SortSlice} {ML : MailLib} {GF : GoTimeFormat} {OL : OutboxLib}.

Lemma moveEach_runs ids f p d : p ∈ folders d -> exists d', moveEach ids f p d = Ok (tt, d') /\ folders d' = folders d /\
  messages d' = moveWhere (fun m => bool_decide (mID m ∈ ids)) p (messages d).
Proof.
  revert d. induction ids as [|i ids IH]; intros d Hp; cbn [moveEach].
  - exists d. split; [done|]. split; [done|]. unfold moveWhere. rewrite <- (list_fmap_id (messages d)) at 1. by apply list_fmap_ext.
  - unfold mbind, Tx_bind, updateFolder. rewrite bool_decide_true by done. cbn [orb]. unfold change, exec.
    match goal with |- exists d', moveEach _ _ _ ?d1 = _ /\ _ => destruct (IH d1 Hp) as (d' & E & Hf & Hm) end.
    exists d'. split; [exact E|]. split; [exact Hf|].
    transitivity (moveWhere (fun m => bool_decide (mID m ∈ ids)) p (moveWhere (isMsg i) p (messages d))); [exact Hm|].
    rewrite moveWhere_twice.
    apply moveWhere_ext. intros m _. unfold isMsg. simpl. destruct (Z.eqb_spec (mID m) i) as [->|Hne]; simpl.
    + symmetry. apply bool_decide_true. left.
    + apply bool_decide_ext. rewrite elem_of_cons. naive_solver.
Qed.

(** Keys ascend. *)
Lemma keysFrom_sorted n : StronglySorted Z.lt (keysFrom n).
Proof.
  unfold keysFrom. generalize 1%nat. induction n as [|n IH]; intros k; simpl; constructor; [apply IH|].
  apply Forall_forall. intros x (y & -> & Hy%elem_of_seq)%list_elem_of_fmap. lia.
Qed.
Lemma StronglySorted_sublist {A} (R : A -> A -> Prop) l k : l `sublist_of` k -> StronglySorted R k -> StronglySorted R l.
Proof.
  induction 1 as [|x l k Hs IH|x l k Hs IH]; intros HS; [done| |]; apply StronglySorted_inv in HS as [HS HF]; [|by apply IH].
  constructor; [by apply IH|]. rewrite Forall_forall in HF |- *. intros y Hy. apply HF. by eapply elem_of_sublist.
Qed.
Lemma liveIn_sorted f d : StronglySorted Z.lt (mID <$> messages d) -> StronglySorted Z.lt (liveIn f d).
Proof. intros H. eapply StronglySorted_sublist; [|exact H]. unfold liveIn. apply fmap_sublist, filter_sublist. Qed.
Lemma elem_of_liveIn f d i : i ∈ liveIn f d <-> exists m, m ∈ messages d /\ mFolder m = f /\ live m = true /\ mID m = i.
Proof.
  unfold liveIn. rewrite list_elem_of_fmap. split.
  - intros (m & -> & Hm%list_elem_of_In%filter_In). destruct Hm as [Hm [Hf Hl]%andb_true_iff]. to_prop. exists m. by rewrite list_elem_of_In.
  - intros (m & Hm & Hf & Hl & <-). exists m. split; [done|]. apply list_elem_of_In, filter_In. rewrite <- list_elem_of_In, Hl. split; [done|].
    by rewrite bool_decide_true.
Qed.
Lemma sorted_id_unique d m m' : StronglySorted Z.lt (mID <$> messages d) -> m ∈ messages d -> m' ∈ messages d -> mID m = mID m' -> m = m'.
Proof.
  intros HS. induction (messages d) as [|x l IH]; [set_solver|]. simpl in HS. apply StronglySorted_inv in HS as [HS HF].
  rewrite Forall_forall in HF. assert (HN : forall y, y ∈ l -> mID x ≠ mID y).
  { intros y Hy E. assert (mID y ∈ mID <$> l) as Hi by (apply list_elem_of_fmap; eauto). apply HF in Hi. lia. }
  intros [->|Hm]%elem_of_cons [->|Hm']%elem_of_cons E; [done|by apply HN in Hm'|symmetry in E; by apply HN in Hm|by apply IH].
Qed.

Lemma ascending_NoDup l : StronglySorted Z.lt l -> NoDup l.
Proof.
  induction 1 as [|x l _ IH HF]; constructor; [|done]. intros Hx. rewrite Forall_forall in HF. apply HF in Hx. lia.
Qed.

(** The loop moves all that is live, with fuel for as many pages as messages. *)
Lemma moveBatches_runs fuel after f p d :
  StronglySorted Z.lt (mID <$> messages d) -> p ∈ folders d -> f ≠ p -> Forall (fun i => after < i)%Z (liveIn f d) -> (length (liveIn f d) <= fuel)%nat ->
  exists d', moveBatches fuel after f p d = Ok (tt, d') /\ folders d' = folders d /\
    messages d' = moveWhere (fun m => (mFolder m =s? f) && live m) p (messages d).
Proof.
  revert after d. induction fuel as [|fuel IH]; intros after d HS Hp Hne HF Hlen; cbn [moveBatches]; unfold mbind at 1, Tx_bind at 1, select.
  all: assert (List.filter (fun id => after <? id)%Z (liveIn f d) = liveIn f d) as -> by
    (clear -HF; induction HF as [|i l Hi _ IH]; simpl; [done|]; by rewrite (proj2 (Z.ltb_lt _ _) Hi), IH).
  all: assert (H0 : liveIn f d = [] -> exists d', mret (M := Tx) tt d = Ok (tt, d') /\ folders d' = folders d /\
    messages d' = moveWhere (fun m => (mFolder m =s? f) && live m) p (messages d)) by
    (intros E0; exists d; do 2 (split; [done|]); unfold moveWhere; rewrite <- (list_fmap_id (messages d)) at 1; apply list_fmap_ext;
     intros k m Hm%list_elem_of_lookup_2; destruct (_ && _) eqn:Eb; [|done]; to_prop; exfalso;
     assert (mID m ∈ liveIn f d) as Hin by (apply elem_of_liveIn; eauto); rewrite E0 in Hin; by apply elem_of_nil in Hin).
  - assert (E0 : liveIn f d = []) by (apply length_zero_iff_nil; lia). rewrite E0. by apply H0.
  - destruct (take 200 (liveIn f d)) as [|i ids] eqn:Et.
    { apply H0. destruct (liveIn f d); [done|discriminate Et]. }
    unfold mbind, Tx_bind. destruct (moveEach_runs (i :: ids) f p d Hp) as (d1 & -> & Hf1 & Hm1).
    pose proof (liveIn_sorted f d HS) as HSl.
    assert (Hl1 : forall j, j ∈ liveIn f d1 <-> j ∈ liveIn f d /\ j ∉ i :: ids).
    { intros j. rewrite !elem_of_liveIn, Hm1. unfold moveWhere. split.
      - intros (m & (x & -> & Hx)%list_elem_of_fmap & Hmf & Hl & Hj). case_bool_decide; simpl in *; [congruence|]. subst j. eauto 10.
      - intros [(m & Hm & Hmf & Hl & <-) Hn]. exists m. split; [|done]. apply list_elem_of_fmap. exists m. by rewrite bool_decide_false by done. }
    assert (HS1 : StronglySorted Z.lt (mID <$> messages d1)) by (rewrite Hm1; by rewrite moveWhere_ids).
    assert (Hsplit : liveIn f d = (i :: ids) ++ drop 200 (liveIn f d)) by (by rewrite <- Et, take_drop).
    destruct (IH (List.last (i :: ids) after) d1) as (d' & E' & Hf' & Hm'); [done|by rewrite Hf1|done| | |].
    + apply Forall_forall. intros j Hj. apply Hl1 in Hj as [Hj Hn]. rewrite Hsplit in Hj, HSl. apply elem_of_app in Hj as [Hj|Hj]; [done|].
      refine (StronglySorted_app_1_elem_of Z.lt _ _ _ _ HSl _ Hj).
      destruct (exists_last (l := i :: ids)) as (k & z & ->); [done|]. rewrite last_last. apply elem_of_app. right. left.
    + assert (Hlt : (length (liveIn f d1) < length (liveIn f d))%nat); [|lia].
      assert (HND : NoDup (liveIn f d1)) by (apply ascending_NoDup; by apply liveIn_sorted).
      assert (Hsub : liveIn f d1 ⊆+ drop 200 (liveIn f d)).
      { apply NoDup_submseteq; [done|]. intros j [Hj Hn]%Hl1. rewrite Hsplit in Hj. apply elem_of_app in Hj as [Hj|Hj]; done. }
      apply submseteq_length in Hsub. rewrite Hsplit, length_app. simpl. lia.
    + exists d'. split; [exact E'|]. split; [congruence|]. rewrite Hm', Hm1, moveWhere_twice. apply moveWhere_ext. intros m Hm. simpl.
      destruct (bool_decide (mID m ∈ i :: ids)) eqn:Eb; [|done]. to_prop. simpl. symmetry. apply andb_true_iff.
      assert (Hin : mID m ∈ liveIn f d) by (rewrite Hsplit; apply elem_of_app; by left).
      apply elem_of_liveIn in Hin as (m' & Hm'' & Hff & Hll & E). rewrite (sorted_id_unique d m' m HS Hm'' Hm E) in *. split; [by apply bool_decide_eq_true|done].
Qed.

(** Deleting a folder into its parent always gets there: on any store the
    calls can produce, if the folder and its parent exist and it has no
    subfolders, the paging loop ends, every message of the folder, live or
    deleted, is then in the parent, no other message moved, and exactly that
    folder is gone. *)
Lemma delete_to_parent_moves_all limits account master tr c folder parent :
  let d := (run_trace (stepM limits account master) tr newMailbox).2 in
  callOp c = ODeleteToParent folder -> callUp c = true -> parentOf folder = Some parent ->
  folder ∈ folders d -> parent ∈ folders d -> existsb (below folder) (folders d) = false ->
  exists d', stepM limits account master c d = (Ok AnsUnit, d') /\
    messages d' = moveWhere (fun m => mFolder m =s? folder) parent (messages d) /\
    (forall g, g ∈ folders d' <-> g ∈ folders d /\ g ≠ folder).
Proof.
  cbv zeta. pose proof (tablesOK_run limits account master tr) as HT. set (d := (run_trace _ tr newMailbox).2) in *. clearbody d.
  intros Hop Hup Hpar Hf Hp Hk. assert (Hne : folder ≠ parent) by (intros ->; apply parentOf_length in Hpar; lia).
  assert (HS : StronglySorted Z.lt (mID <$> messages d)) by (rewrite (tk_ids d HT); apply keysFrom_sorted).
  destruct (moveBatches_runs (length (messages d)) 0 folder parent d) as (d1 & E1 & Hf1 & Hm1); [done..| | |].
  { eapply Forall_forall. intros j (m & Hm & _ & _ & <-)%elem_of_liveIn. assert (Hj : mID m ∈ mID <$> messages d) by (apply list_elem_of_fmap; eauto).
    rewrite (tk_ids d HT) in Hj. apply list_elem_of_fmap in Hj as (x & -> & Hx%elem_of_seq). lia. }
  { unfold liveIn. rewrite length_fmap. apply List.filter_length_le. }
  set (d2 := setMessages (updateWhere (fun m => (mFolder m =s? folder) && negb (live m)) (withFolder parent) (messages d1)) d1).
  assert (Hm2 : messages d2 = moveWhere (fun m => mFolder m =s? folder) parent (messages d)).
  { change (messages d2) with (moveWhere (fun m => (mFolder m =s? folder) && negb (live m)) parent (messages d1)). rewrite Hm1, moveWhere_twice.
    apply moveWhere_ext. intros m _. simpl. rewrite (bool_decide_false (parent = folder)) by done.
    destruct (mFolder m =s? folder), (live m); done. }
  set (d3 := setFolders (List.filter (fun f => negb (f =s? folder)) (folders d2)) d2).
  assert (E : deleteFolderToParent folder d = Ok (tt, d3)).
  { unfold deleteFolderToParent. rewrite Hpar. unfold mbind, Tx_bind, select. rewrite Hk. simpl. rewrite bool_decide_true by done. simpl.
    rewrite E1. unfold updateFolder. rewrite Hf1, bool_decide_true by done. cbn [orb]. fold d2. unfold deleteFolderRow.
    rewrite (bool_decide_true (folder ∈ folders d2)) by (change (folders d2) with (folders d1); by rewrite Hf1).
    assert (existsb (fun m => mFolder m =s? folder) (messages d2) = false) as ->; [|done].
    apply not_true_is_false. intros (m & Hm & Hb)%existsb_exists. to_prop. apply list_elem_of_In in Hm. rewrite Hm2 in Hm.
    apply list_elem_of_fmap in Hm as (x & -> & _). destruct (mFolder x =s? folder) eqn:Ex; [simpl in Hb; congruence|]. to_prop. congruence. }
  exists d3. split; [unfold stepM, transact; rewrite Hup, Hop; cbn [negb runOp]; unfold unitAns, mbind, Tx_bind; by rewrite E|].
  split; [done|]. intros g. change (folders d3) with (List.filter (fun f => negb (f =s? folder)) (folders d1)).
  rewrite list_elem_of_In, filter_In, <- list_elem_of_In, Hf1, negb_true_iff, bool_decide_eq_false. done.
Qed.
End Folders.
