(* ===== verification/OutboxDelivery.v ===== *)
(** * OutboxDelivery: a delivery's life

    The contract of one delivery is a small automaton over the claims,
    completions and quarantines that answered; every run of the store follows
    it, so no message is submitted again after the relay took it, refused it for
    good or left the outcome unknown. *)

From S2P Require Import Prelude GoText GoCodec SendAs MailboxModel Mailbox MailboxIncoming Outbox MailboxRun MailboxInvariant.

(** ** The contract *)

Inductive deliveryEvent :=
  | EvClaim (now : Z) (token : gostr)
  | EvDone (now : Z) (token : gostr) (submission : option submissionError)
  | EvQuarantine.
Inductive phase :=
  | Waiting (attempts next : Z)
  | Submitting (token : gostr) (attempts : Z)
  | Final (state : gostr)
  | Quarantined.

(** The relay definitely refused for now: a 4xx reply, nothing accepted and
    nothing uncertain. *)
Definition refusedForNow (submission : option submissionError) : bool :=
  match submission with
  | Some e => negb (seAccepted e) && negb (seUncertain e)
              && match seCode e with Some code => Z.leb 400 code && (code <? 500)%Z | None => false end
  | None => false
  end.

(** How a completion ends that is not tried again. *)
Definition finalOutcome (submission : option submissionError) : gostr :=
  match submission with
  | None => $"accepted"
  | Some e =>
      if seAccepted e then $"accepted"
      else if seUncertain e then $"uncertain"
      else match seCode e with
           | Some code => if Z.leb 400 code && Z.leb code 599 then $"failed" else $"uncertain"
           | None => $"uncertain"
           end
  end.

Definition deliver (p : phase) (e : deliveryEvent) : option phase :=
  match p, e with
  | Waiting attempts next, EvClaim now token =>
      if (next <=? now)%Z && (attempts <? 6)%Z then Some (Submitting token (attempts + 1)) else None
  | Submitting token attempts, EvDone now token' submission =>
      if token =s? token' then
        Some (if refusedForNow submission && (attempts <? 6)%Z then Waiting attempts (now + 30 * Z.shiftl 1 (attempts - 1))
              else Final (finalOutcome submission))
      else None
  | Waiting _ _, EvQuarantine | Quarantined, EvQuarantine => Some Quarantined
  | _, _ => None
  end.
Fixpoint deliverAll (p : phase) (l : list deliveryEvent) : option phase :=
  match l with [] => Some p | e :: l' => p' ← deliver p e; deliverAll p' l' end.

Lemma deliverAll_app p l k : deliverAll p (l ++ k) = deliverAll p l ≫= fun p' => deliverAll p' k.
Proof. revert p. induction l as [|e l IH]; intros p; simpl; [done|]. destruct (deliver p e); simpl; [apply IH|done]. Qed.

(** What the contract itself promises: a second claim needs a refusal for now
    of the first, and there are at most six. *)
Definition isClaim (e : deliveryEvent) : bool := match e with EvClaim _ _ => true | _ => false end.
Lemma over_no_claim p l p' : (p = Quarantined \/ exists s, p = Final s) -> deliverAll p l = Some p' -> Forall (fun e => isClaim e = false) l.
Proof.
  revert p. induction l as [|e l IH]; intros p Hp; simpl; [constructor|].
  destruct Hp as [->|[s ->]], e; simpl; try done. intros H. constructor; [done|]. eapply IH; [by left|done].
Qed.
Lemma claims_separated p t0 token l t1 token' k p' :
  deliverAll p (EvClaim t0 token :: l ++ EvClaim t1 token' :: k) = Some p' ->
  exists now submission l', l = EvDone now token submission :: l' /\ refusedForNow submission = true.
Proof.
  simpl. destruct p as [n next| | |]; simpl; try done. destruct (_ && _); [|done]. simpl.
  destruct l as [|e l]; [done|]. simpl. destruct e as [|now token0 sub|]; try done. simpl. case_bool_decide as Et; [|done]. subst token0. simpl.
  destruct (refusedForNow sub) eqn:Er; [eauto|]. simpl. intros H. apply over_no_claim in H; [|right; by eexists].
  apply Forall_app in H as [_ H]. apply Forall_cons in H as [H _]. done.
Qed.
Definition claimsLeft (p : phase) : nat :=
  match p with Waiting n _ | Submitting _ n => Z.to_nat (6 - n) | _ => 0 end.
Lemma claims_bounded p l p' : deliverAll p l = Some p' -> (length (List.filter isClaim l) <= claimsLeft p)%nat.
Proof.
  revert p. induction l as [|e l IH]; intros p; simpl; [lia|]. destruct (deliver p e) as [p1|] eqn:E; [|done]. simpl. intros H%IH.
  destruct p as [n next|tok n|s|], e; simpl in E; simplify_eq; simpl in *; try lia.
  - destruct (_ && _) eqn:Eb in E; [|done]. to_prop. injection E as <-. simpl in H. lia.
  - case_bool_decide; [|done]. injection E as <-. destruct (_ && _); simpl in H; lia.
Qed.

(** The events of delivery [seq] of job [id] in a log. *)
Definition eventOf (id : gostr) (seq : Z) (entry : mbCall * res mbErr mbAnswer) : list deliveryEvent :=
  match callOp entry.1, entry.2 with
  | OClaim i s _ _, Ok (AnsClaim _ token) => if (i =s? id) && (s =? seq)%Z then [EvClaim (callNow entry.1) token] else []
  | OComplete i s token submission _, Ok _ => if (i =s? id) && (s =? seq)%Z then [EvDone (callNow entry.1) token submission] else []
  | OQuarantine i s, Ok _ => if (i =s? id) && (s =? seq)%Z then [EvQuarantine] else []
  | _, _ => []
  end.
Definition eventsOf (id : gostr) (seq : Z) (log : list (mbCall * res mbErr mbAnswer)) : list deliveryEvent := concat (eventOf id seq <$> log).

(** The phase a row is in; a delivery not queued yet waits. *)
Definition rowPhase (r : option deliveryRow) : phase :=
  match r with
  | None => Waiting 0 0
  | Some r =>
      if (dState r =s? $"queued") || (dState r =s? $"retryable") then Waiting (dAttempts r) (dNext r)
      else if dState r =s? $"submitting" then Submitting (dClaim r) (dAttempts r)
      else if dState r =s? $"quarantined" then Quarantined
      else Final (dState r)
  end.
Definition phaseIn (id : gostr) (seq : Z) (d : mailbox) : phase := rowPhase (find_first (isDelivery id seq) (deliveries d)).

(** ** Rows *)


Lemma isDelivery_spec id seq r : isDelivery id seq r = true <-> dJob r = id /\ dSeq r = seq.
Proof. unfold isDelivery. by rewrite andb_true_iff, bool_decide_eq_true, Z.eqb_eq. Qed.

(** The primary keys of the outbox. *)
Definition deliveryKey (r : deliveryRow) : gostr * Z := (dJob r, dSeq r).
Record keysOK (d : mailbox) : Prop := {
  ky_jobs : NoDup (oID <$> outbox d);
  ky_deliveries : NoDup (deliveryKey <$> deliveries d);
  ky_foreign : Forall (fun r => dJob r ∈ oID <$> outbox d) (deliveries d);
}.
Lemma isJob_In id d : existsb (isJob id) (outbox d) = true <-> id ∈ oID <$> outbox d.
Proof.
  rewrite existsb_exists, list_elem_of_fmap. split.
  - intros (o & Ho & Hb). apply bool_decide_eq_true in Hb. exists o. by rewrite list_elem_of_In.
  - intros (o & -> & Ho). exists o. rewrite <- list_elem_of_In. split; [done|]. by apply bool_decide_eq_true.
Qed.
Lemma keysOK_frame : Frame keysOK.
Proof.
  assert (HU : forall d d', oID <$> outbox d' = oID <$> outbox d -> deliveryKey <$> deliveries d' = deliveryKey <$> deliveries d -> keysOK d -> keysOK d').
  { intros d d' E1 E2 [H1 H2 H3]. split; rewrite ?E1, ?E2; [done..|].
    rewrite Forall_forall in H3 |- *. intros r Hr. apply (list_elem_of_fmap_2 deliveryKey) in Hr. rewrite E2 in Hr.
    apply list_elem_of_fmap in Hr as (r' & [= -> _] & Hr'). by apply H3. }
  split; [split; [split|..]|split]; intros; intros d0 HK; unfold wp, insertMessage, updateFolder, insertFolder, insertFolderOrIgnore, deleteFolderRow,
    updateFlags, tombstone, change, insertReceipt, insertImported, insertLabel, insertReplacement, insertOutbox, insertDelivery,
    updateOutbox, updateDelivery, exec; repeat case_match; simplify_eq/=; try done;
    try (eapply HU; [| |exact HK]; simpl; rewrite ?updateWhere_same by done; done); destruct HK as [H1 H2 H3]; split; simpl; try done.
  - rewrite fmap_app. apply NoDup_app. split; [done|]. split; [|apply NoDup_singleton]. intros x Hx ->%list_elem_of_singleton.
    apply isJob_In in Hx. congruence.
  - eapply Forall_impl; [exact H3|]. intros r Hr. rewrite fmap_app. apply elem_of_app. by left.
  - to_prop. rewrite fmap_app. apply NoDup_app. split; [done|]. split; [|apply NoDup_singleton]. intros x (r' & -> & Hr)%list_elem_of_fmap Hx%list_elem_of_singleton.
    assert (existsb (isDelivery (dJob r) (dSeq r)) (deliveries d0) = true); [|congruence]. apply existsb_exists. exists r'. rewrite <- list_elem_of_In.
    split; [done|]. injection Hx as ? ?. by apply isDelivery_spec.
  - to_prop. apply Forall_app. split; [done|]. constructor; [|constructor]. by apply isJob_In.
Qed.
Lemma keysOK_new : keysOK newMailbox.
Proof. split; constructor. Qed.
Lemma delivery_unique d r r' : keysOK d -> r ∈ deliveries d -> r' ∈ deliveries d -> deliveryKey r = deliveryKey r' -> r = r'.
Proof. intros HK Hr Hr' E. exact (NoDup_key deliveryKey _ r r' (ky_deliveries d HK) Hr Hr' E). Qed.

(** The statuses are the rows, in order. *)
Lemma readStatuses_lookup c n l sts k : readStatuses c n l = Some sts -> length sts = length l /\
  forall st, sts !! k = Some st -> exists r, l !! k = Some r /\ dSeq r = (n + Z.of_nat k)%Z /\
    st = mkOS (dSeq r) (dState r) (dAttempts r) (dNext r) /\ statusOK c (n + Z.of_nat k) r = true.
Proof.
  revert n sts k. induction l as [|r l IH]; intros n sts k; simpl; [intros [= <-]; by split|].
  destruct (statusOK c n r) eqn:Es; [|done]. destruct (readStatuses c (n + 1) l) as [sts'|] eqn:Er; [|done]. simpl. intros [= <-].
  assert (Hs : dSeq r = n) by (unfold statusOK in Es; to_prop; done).
  split; [simpl; f_equal; exact (proj1 (IH _ _ 0%nat Er))|]. intros st. destruct k as [|k]; simpl.
  - intros [= <-]. exists r. rewrite Z.add_0_r. done.
  - intros (r' & H1 & H2 & H3 & H4)%(IH _ _ k Er). exists r'. replace (n + Z.of_nat (S k))%Z with (n + 1 + Z.of_nat k)%Z by lia. done.
Qed.

Lemma elem_of_rowsOf id d r : r ∈ rowsOf id d <-> r ∈ deliveries d /\ dJob r = id.
Proof.
  unfold rowsOf. rewrite (sortStable_perm _ _). rewrite list_elem_of_In, filter_In, <- list_elem_of_In, bool_decide_eq_true. done.
Qed.

(** The status at a position is the row of that delivery. *)
Lemma statusAt_row c id d sts seq st : readStatuses c 0 (rowsOf id d) = Some sts -> statusAt seq sts = Some st ->
  exists r, find_first (isDelivery id seq) (deliveries d) = Some r /\ st = mkOS (dSeq r) (dState r) (dAttempts r) (dNext r).
Proof.
  intros Hr Hst. unfold statusAt in Hst. destruct (seq <? 0)%Z eqn:E0; [done|]. apply Z.ltb_ge in E0.
  destruct (readStatuses_lookup _ _ _ _ (Z.to_nat seq) Hr) as [Hlen HL]. destruct (HL st Hst) as (r & Hl & Hs & -> & _).
  exists r. split; [|done]. simpl in Hs. rewrite Z2Nat.id in Hs by lia.
  pose proof (list_elem_of_lookup_2 _ _ _ Hl) as [Hin Hj]%elem_of_rowsOf.
  destruct (find_first (isDelivery id seq) (deliveries d)) as [r'|] eqn:Ef.
  - apply find_first_Some in Ef as [Hin' [Hj' Hs']%isDelivery_spec]. f_equal.
    assert (Hin2 : r' ∈ rowsOf id d) by (by apply elem_of_rowsOf). apply list_elem_of_lookup in Hin2 as [j Hlj].
    destruct (readStatuses_lookup _ _ _ _ j Hr) as [_ HLj].
    destruct (lookup_lt_is_Some_2 sts j) as [st' Hst']; [rewrite Hlen; by eapply lookup_lt_Some|].
    destruct (HLj st' Hst') as (r2 & Hl2 & Hs2 & _). rewrite Hlj in Hl2. injection Hl2 as <-.
    assert (j = Z.to_nat seq) as -> by lia. congruence.
  - rewrite find_first_None in Ef. specialize (Ef r Hin). rewrite (proj2 (isDelivery_spec id seq r)) in Ef; done.
Qed.

(** ** The store follows the contract *)

Section Delivery.
Context {U : Unicode} {SS : SortSlice} {ML : MailLib} {GF : GoTimeFormat} {OL : OutboxLib}.
Variable limits : Limits.
Variable account : gostr.
Variable master : list Z.

Lemma readOutbound_statuses l now id d job sts sent : readOutbound l now master id d = Some (job, sts, sent) ->
  exists c, readStatuses c 0 (rowsOf id d) = Some sts /\ length sts = length (ojDeliveries job).
Proof.
  unfold readOutbound. intros H. apply bind_Some in H as (key & _ & H). apply bind_Some in H as (o & _ & H).
  destruct (_ || _); [done|]. apply bind_Some in H as (plain & _ & H). apply bind_Some in H as (job' & _ & H).
  apply bind_Some in H as (sts' & Hs & H). destruct (negb (length sts' =? _)%nat) eqn:E; [done|]. injection H as <- <- _.
  apply negb_false_iff, Nat.eqb_eq in E. eauto.
Qed.

(** Statements on other tables. *)
Lemma keeps_other D (f : mailbox -> mailbox) : (forall d, deliveries (f d) = deliveries d) -> keeps (fun d => deliveries d = D) (exec f : Tx unit).
Proof. intros Hf d H. apply wp_exec. by rewrite Hf. Qed.
Lemma deliveries_mail D : MailFrame (fun _ => True) (fun d => deliveries d = D).
Proof.
  split; [split|..]; intros; try (by apply keeps_other); intros d Hd; unfold wp, insertMessage, updateFolder, insertFolder, insertFolderOrIgnore,
    deleteFolderRow, exec; repeat case_match; simplify_eq/=; done.
Qed.
Lemma deliveries_compact D now nonce id : keeps (fun d => deliveries d = D) (compactOutbound limits now master nonce id).
Proof. assert (forall e, keeps (fun d => deliveries d = D) (updateOutbox id (withCipher e))) by (intros; by apply keeps_other). unfold compactOutbound. walk. Qed.
Lemma deliveries_fileSent D now nonce id : keeps (fun d => deliveries d = D) (fileOutboundSent limits now master nonce id).
Proof.
  assert (forall n, keeps (fun d => deliveries d = D) (updateOutbox id (withSent n))) by (intros; by apply keeps_other).
  pose proof (fr_insertMessage _ _ (deliveries_mail D)). pose proof (fr_change _ _ (deliveries_mail D)). pose proof (deliveries_compact D).
  unfold fileOutboundSent, readTx. walk.
Qed.

(** Queueing only adds rows, and a new row waits. *)
Lemma phase_insert id seq j n d : phaseIn id seq (bump 0 1 (setDeliveries (deliveries d ++ [mkDelivery j n ($"queued") [] 0 0]) d)) = phaseIn id seq d.
Proof. unfold phaseIn. simpl. rewrite find_first_app. destruct (find_first _ (deliveries d)); [done|]. simpl. by destruct (isDelivery _ _ _). Qed.
Lemma phase_insertDeliveries id seq p j n l : keeps (fun d => phaseIn id seq d = p) (insertDeliveries j n l).
Proof.
  revert n. induction l; intros n; simpl; [apply keeps_ret|]. apply keeps_bind; [|by intros].
  intros d H. apply wp_insertDelivery. by rewrite phase_insert.
Qed.
Lemma phase_queue id seq p now space nonce j job : keeps (fun d => phaseIn id seq d = p) (queueOutbound limits now space master nonce j job).
Proof.
  pose proof (phase_insertDeliveries id seq p). assert (forall o, keeps (fun d => phaseIn id seq d = p) (insertOutbox o)) by (intros o d0 Hd0; by apply wp_insertOutbox).
  unfold queueOutbound, readTx, checkReserve. walk.
Qed.

(** An update of one delivery's row, seen from another. *)
Lemma phase_update_other id seq i s q f d : (i, s) ≠ (id, seq) -> (forall r, dJob (f r) = dJob r /\ dSeq (f r) = dSeq r) ->
  (forall r, q r = true -> isDelivery i s r = true) ->
  find_first (isDelivery id seq) (updateWhere q f (deliveries d)) = find_first (isDelivery id seq) (deliveries d).
Proof.
  intros Hne Hf Hq. rewrite find_first_updateWhere by (intros r; unfold isDelivery; by destruct (Hf r) as [-> ->]).
  destruct (find_first _ (deliveries d)) as [r|] eqn:E; [|done]. simpl. apply find_first_Some in E as [_ [H1 H2]%isDelivery_spec].
  destruct (q r) eqn:Eq; [|done]. apply Hq, isDelivery_spec in Eq as [H3 H4]. congruence.
Qed.
Lemma phase_update_this id seq q f d r : (forall r, dJob (f r) = dJob r /\ dSeq (f r) = dSeq r) ->
  find_first (isDelivery id seq) (deliveries d) = Some r -> q r = true ->
  find_first (isDelivery id seq) (updateWhere q f (deliveries d)) = Some (f r).
Proof.
  intros Hf E Hq. rewrite find_first_updateWhere by (intros r'; unfold isDelivery; by destruct (Hf r') as [-> ->]). rewrite E. simpl. by rewrite Hq.
Qed.

(** A completion ends as the contract says. *)
Lemma outcome_contract now attempts submission : (attempts <= 6)%Z ->
  let '(s, retryAt) := outcomeOf now attempts submission in
  (if refusedForNow submission && (attempts <? 6)%Z then s = $"retryable" /\ retryAt = (now + 30 * Z.shiftl 1 (attempts - 1))%Z
   else s = finalOutcome submission /\ s ∈ [$"accepted"; $"failed"; $"uncertain"]).
Proof.
  intros Ha. unfold outcomeOf, refusedForNow, finalOutcome. destruct submission as [[[] u c]|]; simpl; [set_solver| |set_solver].
  destruct u; simpl; [set_solver|]. destruct c as [c|]; simpl; [|set_solver].
  destruct (Z.leb_spec 400 c), (Z.leb_spec c 599); simpl; try (rewrite ?(proj2 (Z.ltb_ge c 500)) by lia; simpl; set_solver).
  destruct (Z.ltb_spec c 500); simpl; [|set_solver]. destruct (Z.ltb_spec attempts 6); [done|]. set_solver.
Qed.
(** What the three calls did to the row they name. *)
Lemma claim_ok now i s generation token d dl claim d' : claimOutbound limits now master i s generation token d = Ok ((dl, claim), d') ->
  exists r, find_first (isDelivery i s) (deliveries d) = Some r /\ (dState r = $"queued" \/ dState r = $"retryable") /\
    (dNext r <= now)%Z /\ (dAttempts r < 6)%Z /\ token = Some claim /\
    d' = setDeliveries (updateWhere (isDelivery i s) (claimRow claim) (deliveries d)) d.
Proof.
  intros H. unfold claimOutbound in H. apply bind_ok in H as ([[job sts] sent] & d1 & HR & H). unfold readTx in HR.
  apply bind_ok in HR as (x & d2 & [-> ->]%select_ok & HR). destruct (readOutbound _ _ _ _ _) as [p|] eqn:ER; [|done].
  apply ret_ok in HR as [<- ->]. apply readOutbound_statuses in ER as (c & Hs & _). unfold updateDelivery in H. repeat txstep.
  apply ret_ok in H as [[= -> ->] ->].
  match goal with E : statusAt _ _ = Some _ |- _ => destruct (statusAt_row _ _ _ _ _ _ Hs E) as (r & Hr & ->) end.
  exists r. split; [done|]. simpl in *. to_prop. split; [|done].
  match goal with E : (_ =s? _) || _ = true |- _ => apply orb_true_iff in E as [E|E]; to_prop; [by left|by right] end.
Qed.
Lemma complete_ok now nonce i s claim submission d d' : completeOutbound limits now master nonce i s claim submission d = Ok (tt, d') ->
  exists r, find_first (isDelivery i s) (deliveries d) = Some r /\ dState r = $"submitting" /\ dClaim r = claim /\ (1 <= dAttempts r <= 6)%Z /\
    deliveries d' = updateWhere (isDelivery i s) (completeRow (outcomeOf now (dAttempts r) submission).1 (outcomeOf now (dAttempts r) submission).2) (deliveries d).
Proof.
  intros H. unfold completeOutbound in H. destruct (_ || _); [done|]. apply bind_ok in H as (row & d1 & [-> ->]%select_ok & H).
  destruct (find_first _ _) as [r|] eqn:E; [|done]. destruct (_ || _) eqn:Eb; [done|]. to_prop.
  destruct (outcomeOf now (dAttempts r) submission) as [outcome retryAt] eqn:Eo. apply bind_ok in H as ([] & d1 & ->%exec_ok & H).
  exists r. do 3 (split; [done|]). split; [lia|]. rewrite Eo. cbn [fst snd].
  destruct (finalState outcome); [|by apply ret_ok in H as [_ ->]].
  pose proof (deliveries_compact (updateWhere (isDelivery i s) (completeRow outcome retryAt) (deliveries d)) now nonce i
    (setDeliveries (updateWhere (isDelivery i s) (completeRow outcome retryAt) (deliveries d)) d) eq_refl) as HC.
  unfold wp in HC. by rewrite H in HC.
Qed.
Lemma quarantine_ok i s d d' : quarantineOutbound i s d = Ok (tt, d') ->
  deliveries d' = updateWhere (fun r => isDelivery i s r && quarantinable (dState r)) quarantineRow (deliveries d) /\
  exists r, List.filter (fun r => isDelivery i s r && quarantinable (dState r)) (deliveries d) = [r].
Proof.
  intros H. unfold quarantineOutbound in H. destruct (_ || _); [done|]. apply bind_ok in H as (n & d1 & [-> ->]%select_ok & H).
  apply bind_ok in H as ([] & d1 & ->%exec_ok & H). apply assert_ok in H as [H%Nat.eqb_eq ->]. split; [done|].
  destruct (List.filter _ (deliveries d)) as [|r []]; [done|by exists r|done].
Qed.

(** ** One call, one contract step *)

Ltac asRow H := unfold rowPhase; rewrite ?H; cbn [dState dClaim dAttempts dNext claimRow completeRow quarantineRow].

Lemma deliver_claim now p token r : rowPhase (Some r) = p -> (dState r = $"queued" \/ dState r = $"retryable") -> (dNext r <= now)%Z -> (dAttempts r < 6)%Z ->
  deliver p (EvClaim now token) = Some (rowPhase (Some (claimRow token r))).
Proof.
  intros <- Hs Hn Ha. unfold rowPhase. assert ((dState r =s? $"queued") || (dState r =s? $"retryable") = true) as ->.
  { destruct Hs as [->| ->]; by vm_compute. }
  cbn [deliver]. by rewrite (proj2 (Z.leb_le _ _) Hn), (proj2 (Z.ltb_lt _ _) Ha).
Qed.
Lemma deliver_done now token submission r : dState r = $"submitting" -> dClaim r = token -> (1 <= dAttempts r <= 6)%Z ->
  deliver (rowPhase (Some r)) (EvDone now token submission) =
  Some (rowPhase (Some (completeRow (outcomeOf now (dAttempts r) submission).1 (outcomeOf now (dAttempts r) submission).2 r))).
Proof.
  intros Hs Hc Ha. unfold rowPhase at 1. rewrite Hs. change (($"submitting" =s? $"queued") || ($"submitting" =s? $"retryable")) with false.
  change ($"submitting" =s? $"submitting") with true. cbn [deliver]. rewrite bool_decide_true by done.
  pose proof (outcome_contract now (dAttempts r) submission ltac:(lia)) as HO. destruct (outcomeOf now (dAttempts r) submission) as [st at_].
  f_equal. cbn [fst snd]. unfold rowPhase. cbn [dState dClaim dAttempts dNext completeRow]. destruct (_ && _).
  - destruct HO as [-> ->]. done.
  - destruct HO as [-> HO]. rewrite !elem_of_cons in HO. by destruct HO as [->|[->|[->|[]%elem_of_nil]]].
Qed.
Lemma deliver_quarantine r : quarantinable (dState r) = true -> deliver (rowPhase (Some r)) EvQuarantine = Some Quarantined.
Proof.
  unfold quarantinable, rowPhase. intros [[->| ->]%orb_true_iff|H]%orb_true_iff; [done|by rewrite orb_true_r|].
  to_prop. rewrite H. done.
Qed.

Lemma deliver_step id seq c d : keysOK d -> let '(r, d') := stepM limits account master c d in
  deliverAll (phaseIn id seq d) (eventOf id seq (c, r)) = Some (phaseIn id seq d').
Proof.
  intros HU. destruct (stepM limits account master c d) as [r d'] eqn:E. apply stepM_ok in E as [(e & -> & ->)|(a & -> & E & _)].
  { unfold eventOf. simpl. by destruct (callOp c). }
  assert (HD : forall d'', deliveries d'' = deliveries d -> phaseIn id seq d'' = phaseIn id seq d) by (intros d'' H; unfold phaseIn; by rewrite H).
  assert (HN : forall m : Tx mbAnswer, keeps (fun d0 => deliveries d0 = deliveries d) m -> m d = Ok (a, d') -> phaseIn id seq d' = phaseIn id seq d).
  { intros m Hk Hm. specialize (Hk d eq_refl). unfold wp in Hk. rewrite Hm in Hk. by apply HD. }
  destruct (mailOp (callOp c)) eqn:Em.
  { rewrite (HN _ (keeps_mailOp limits account master (fun _ => True) _ _ _ _ (deliveries_mail _) (fun _ _ => I) Em) E).
    unfold eventOf. simpl. by destruct (callOp c). }
  unfold eventOf. cbn [fst snd]. destruct (callOp c) eqn:Eop; try discriminate Em; cbn [runOp] in E; unfold unitAns, idAns in E.
  - apply bind_ok in E as ([] & d1 & E & [= <- <-]). pose proof (phase_queue id seq _ (callNow c) (callSpace c) nonce id0 job d eq_refl) as HQ.
    unfold wp in HQ. rewrite E in HQ. simpl. by rewrite HQ.
  - apply bind_ok in E as ([dl claim] & d1 & E & [= <- <-]). apply claim_ok in E as (r & Hr & Hs & Hn & Ha & -> & ->).
    destruct (_ && _) eqn:Eb; [apply andb_true_iff in Eb as [Ei Es]; to_prop; subst|].
    + unfold phaseIn at 1. rewrite Hr. cbn [deliverAll]. rewrite (deliver_claim _ _ claim r eq_refl Hs Hn Ha). simpl. f_equal. unfold phaseIn. simpl.
      f_equal. by erewrite phase_update_this by (done || by apply isDelivery_spec; apply find_first_Some in Hr as [_ ?%isDelivery_spec]).
    + simpl. f_equal. unfold phaseIn. simpl. erewrite (phase_update_other id seq); [done| |done|done].
      intros [= -> ->]. by rewrite bool_decide_true, Z.eqb_refl in Eb.
  - apply bind_ok in E as ([] & d1 & E & [= <- <-]). apply complete_ok in E as (r & Hr & Hs & Hc & Ha & Hd).
    destruct (_ && _) eqn:Eb; [apply andb_true_iff in Eb as [Ei Es]; to_prop; subst|].
    + unfold phaseIn. rewrite Hr, Hd. cbn [deliverAll]. rewrite (deliver_done (callNow c) (dClaim r) submission r Hs eq_refl Ha). simpl. do 2 f_equal.
      by erewrite phase_update_this by (done || by apply isDelivery_spec; apply find_first_Some in Hr as [_ ?%isDelivery_spec]).
    + simpl. f_equal. unfold phaseIn. rewrite Hd. erewrite (phase_update_other id seq); [done| |done|done].
      intros [= -> ->]. by rewrite bool_decide_true, Z.eqb_refl in Eb.
  - apply bind_ok in E as (n & d1 & E & [= <- <-]). simpl. f_equal. symmetry. apply HD.
    pose proof (deliveries_fileSent (deliveries d) (callNow c) nonce id0 d eq_refl) as HF. unfold wp in HF. by rewrite E in HF.
  - apply bind_ok in E as ([] & d1 & E & [= <- <-]). apply quarantine_ok in E as [Hd [r HF]].
    destruct (_ && _) eqn:Eb; [apply andb_true_iff in Eb as [Ei Es]; to_prop; subst|].
    + assert (Hr : r ∈ deliveries d /\ (isDelivery id seq r && quarantinable (dState r)) = true).
      { assert (Hin : In r (List.filter (fun r => isDelivery id seq r && quarantinable (dState r)) (deliveries d))) by (rewrite HF; by left).
        apply filter_In in Hin as [? ?]. by rewrite list_elem_of_In. }
      destruct Hr as [Hr Hq]. pose proof Hq as [Hi Hqs]%andb_true_iff.
      assert (Hff : find_first (isDelivery id seq) (deliveries d) = Some r).
      { destruct (find_first _ _) as [r'|] eqn:Ef; [|rewrite find_first_None in Ef; by rewrite Ef in Hi].
        f_equal. apply find_first_Some in Ef as [Hr' [H1 H2]%isDelivery_spec]. apply isDelivery_spec in Hi as [H3 H4].
        apply (delivery_unique d); [done..|]. unfold deliveryKey. congruence. }
      unfold phaseIn. rewrite Hff, Hd. cbn [deliverAll]. rewrite (deliver_quarantine r Hqs). simpl. f_equal.
      rewrite (phase_update_this id seq _ quarantineRow d r) by done. done.
    + simpl. f_equal. unfold phaseIn. rewrite Hd. rewrite (phase_update_other id seq id0 seq0); [done| |done|].
      * intros [= -> ->]. by rewrite bool_decide_true, Z.eqb_refl in Eb.
      * by intros r' [? _]%andb_true_iff.
Qed.

Lemma deliver_run id seq tr d : keysOK d -> let '(log, d') := run_trace (stepM limits account master) tr d in
  deliverAll (phaseIn id seq d) (eventsOf id seq log) = Some (phaseIn id seq d').
Proof.
  revert d. induction tr as [|c tr IH]; intros d HK; simpl; [done|]. pose proof (deliver_step id seq c d HK) as HS.
  pose proof (keeps_stepM limits account master _ keysOK_frame c d HK) as HK'. destruct (stepM limits account master c d) as [r d1]. simpl in HK'.
  specialize (IH d1 HK'). destruct (run_trace _ tr d1) as [log d2]. unfold eventsOf. rewrite fmap_cons. simpl. rewrite deliverAll_app, HS. done.
Qed.
End Delivery.

(** ** Theorems *)

Section Theorems.
Context {U : Unicode} {SS : SortSlice} {ML : MailLib} {GF : GoTimeFormat} {OL : OutboxLib}.

(** (C31) Every delivery follows its contract: in any run of the store, from the
    empty one, the claims, completions and quarantines of a delivery that
    answered are a path of the delivery automaton, and the delivery's row is in
    the phase that path leads to, attempts, claim and retry time included. *)
Theorem delivery_refines_contract limits account master tr id seq :
  let '(log, d) := run_trace (stepM limits account master) tr newMailbox in
  deliverAll (Waiting 0 0) (eventsOf id seq log) = Some (phaseIn id seq d).
Proof. exact (deliver_run limits account master id seq tr newMailbox keysOK_new). Qed.

(** (C29) A message is not submitted twice: between two claims of a delivery the
    first one was completed with a definite 4xx refusal, nothing accepted and
    nothing uncertain; a delivery is claimed at most six times; and once it was
    accepted, failed for good, left uncertain or quarantined it is never claimed
    again, whatever is called. *)
Theorem delivery_submitted_at_most_once limits account master tr id seq :
  let '(log, d) := run_trace (stepM limits account master) tr newMailbox in
  (forall l1 t token l2 t' token' l3, eventsOf id seq log = l1 ++ EvClaim t token :: l2 ++ EvClaim t' token' :: l3 ->
     exists now submission l, l2 = EvDone now token submission :: l /\ refusedForNow submission = true) /\
  (length (List.filter isClaim (eventsOf id seq log)) <= 6)%nat /\
  forall tr', (phaseIn id seq d = Quarantined \/ exists s, phaseIn id seq d = Final s) ->
    Forall (fun e => isClaim e = false) (eventsOf id seq (run_trace (stepM limits account master) tr' d).1).
Proof.
  pose proof (deliver_run limits account master id seq tr newMailbox keysOK_new) as H.
  pose proof (keeps_run limits account master _ keysOK_frame tr newMailbox keysOK_new) as HK.
  destruct (run_trace _ tr newMailbox) as [log d]. cbn [snd] in HK. change (phaseIn id seq newMailbox) with (Waiting 0 0) in H. split; [|split].
  - intros l1 t token l2 t' token' l3 E. rewrite E, deliverAll_app in H. destruct (deliverAll _ l1) as [p|]; [|done]. by eapply claims_separated.
  - exact (claims_bounded _ _ _ H).
  - intros tr' Hp. pose proof (deliver_run limits account master id seq tr' d HK) as H'. destruct (run_trace _ tr' d) as [log' d']. by eapply over_no_claim.
Qed.
End Theorems.
