(* ===== verification/OutboxDurable.v ===== *)
(** * OutboxDurable: a queued job is kept

    What a row of the outbox holds about the job it was queued with, sealed
    whole or compacted to a receipt, and that every call keeps it readable.  From
    the call that queued a job on, its replay is recognised, another intent is
    refused, and its Sent copy is filed once, without asking for capacity again. *)

From S2P Require Import Prelude GoText GoCodec SendAs MailboxModel Mailbox MailboxIncoming Outbox MailboxRun MailboxInvariant MailboxHistory OutboxDelivery.

(** ** Encodings *)

Lemma b64_char_text n : (0 <= n < 64)%Z -> isSpace (b64Char n) = false /\ (b64Char n < 128)%Z.
Proof. intros H. unfold b64Char, isSpace. break_match; to_prop; split; try lia; repeat (apply orb_false_iff; split); try apply andb_false_iff; lia. Qed.

Lemma base64_text l : Forall byteOK l -> forallb (fun r => negb (isSpace r)) (base64Encode l) = true /\
  utf8Len (base64Encode l) = (4 * ((Z.of_nat (length l) + 2) / 3))%Z.
Proof.
  induction l as [|a|a b|a b c l IH] using list_triples; intros H;
    repeat match goal with H : Forall _ (_ :: _) |- _ => apply Forall_cons in H as [? H] end; cbn [base64Encode];
    [done|pose proof (sextets a 0 0) as S|pose proof (sextets a b 0) as S|pose proof (sextets a b c) as S];
    (destruct S as (S1 & S2 & S3 & S4 & S5 & S6); [done|try done; unfold byteOK; lia..|]);
    destruct (b64_char_text _ S1) as [T1 U1], (b64_char_text _ S2) as [T2 U2], (b64_char_text _ S3) as [T3 U3],
      (b64_char_text _ S4) as [T4 U4], (b64_char_text _ S5) as [T5 U5], (b64_char_text _ S6) as [T6 U6];
    try (destruct IH as [IH1 IH2]; [done|]); cbn [forallb utf8Len foldr];
    rewrite ?T1, ?T2, ?T3, ?T4, ?T5, ?T6, ?IH1; (split; [done|]); unfold utf8LenRune;
    rewrite ?(proj2 (Z.ltb_lt _ _) U1), ?(proj2 (Z.ltb_lt _ _) U2), ?(proj2 (Z.ltb_lt _ _) U3),
      ?(proj2 (Z.ltb_lt _ _) U4), ?(proj2 (Z.ltb_lt _ _) U5), ?(proj2 (Z.ltb_lt _ _) U6);
    [done|done|]. change (foldr _ 0%Z (base64Encode l)) with (utf8Len (base64Encode l)). rewrite IH2.
  cbn [length]. replace (Z.of_nat (S (S (S (length l)))) + 2)%Z with (Z.of_nat (length l) + 2 + 1 * 3)%Z by lia.
  rewrite Z.div_add by lia. lia.
Qed.
Lemma base64_not_blank l : Forall byteOK l -> l ≠ [] -> (trimSpace (base64Encode l) =s? []) = false.
Proof.
  intros HF Hl. rewrite trimSpace_nospace by by apply base64_text. apply bool_decide_eq_false. intros E.
  destruct (base64_text l HF) as [_ HU]. rewrite E in HU. destruct l as [|x l]; [done|]. cbn [length utf8Len foldr] in HU.
  assert (1 <= (Z.of_nat (S (length l)) + 2) / 3)%Z by (apply Z.div_le_lower_bound; lia). lia.
Qed.

(** Rows in order stay in order. *)
Lemma insert_front {A} (less : A -> A -> bool) x l : (forall y, y ∈ l -> less y x = false) -> insert_stable less x l = x :: l.
Proof. destruct l as [|y l]; [done|]. intros H. simpl. by rewrite H by left. Qed.

Section Ledger.
Context {U : Unicode} {SS : SortSlice} {ML : MailLib} {GF : GoTimeFormat} {OL : OutboxLib}.
Variable limits : Limits.
Variable account : gostr.
Variable master : list Z.
Variable id : gostr.
Variable job : OutboundJob.

Definition jobKey : list Z := outboxKDF master id.
Definition nonceOK (nonce : list Z) : Prop := length nonce = 12%nat /\ Forall byteOK nonce.
Definition sealedWith (nonce plain : list Z) : EncryptedPayload := mkPayload 1 (base64Encode nonce) (base64Encode (gcmSeal jobKey nonce plain)).
Definition receiptPlain (sent : Z) : list Z := marshalReceipt (receiptOf job sent).

(** What the libraries do with this job: HKDF yields 32 bytes, AES-GCM opens
    what it sealed and adds a 16-byte tag, SHA-256 yields 32 bytes, and
    encoding/json reads back the job and its receipts, which begin differently
    and are no longer than the job. *)
Record JobLaws : Prop := {
  jl_key : length jobKey = 32%nat;
  jl_bytes plain nonce : plain = marshalJob job \/ (exists sent, plain = receiptPlain sent) -> Forall byteOK (gcmSeal jobKey nonce plain);
  jl_open plain nonce : nonceOK nonce -> gcmOpen jobKey nonce (gcmSeal jobKey nonce plain) = Some plain;
  jl_tag plain nonce : length (gcmSeal jobKey nonce plain) = (length plain + 16)%nat;
  jl_job : unmarshalJob (marshalJob job) = Some job;
  jl_job_first : take (length receiptPrefix) (marshalJob job) ≠ receiptPrefix;
  jl_receipt sent : unmarshalReceipt (receiptPlain sent) = Some (receiptOf job sent);
  jl_receipt_first sent : take (length receiptPrefix) (receiptPlain sent) = receiptPrefix;
  jl_short sent : (length (receiptPlain sent) <= length (marshalJob job))%nat;
  jl_intent : length (sha256Bytes (marshalJob job)) = 32%nat;
  jl_digest : hashIncoming (ojSent job) ≠ [];
}.
Context (JL : JobLaws).

(** What queueing the job checked. *)
Record Queueable : Prop := {
  qb_master : length master = 32%nat;
  qb_id : outboundID id = true;
  qb_intent : ojIntent job = None;
  qb_valid now : validateOutbound limits now job = None;
  qb_fits nonce : nonceOK nonce -> (cipherLen (sealedWith nonce (marshalJob job)) <= maxOutboundBytes)%Z;
}.
Context (QB : Queueable).

Lemma key_ok : outboundKey master id = Some jobKey.
Proof. unfold outboundKey. by rewrite (qb_master QB), (qb_id QB). Qed.

Lemma sealed_reads nonce plain : nonceOK nonce -> plain = marshalJob job \/ (exists sent, plain = receiptPlain sent) ->
  parseEnvelope (sealedWith nonce plain) = true /\ openEnvelope (sealedWith nonce plain) jobKey = Some plain /\
  (cipherLen (sealedWith nonce plain) <= maxOutboundBytes)%Z.
Proof.
  intros Hn Hp. pose proof (jl_bytes JL plain nonce Hp) as HB. pose proof Hn as [Hl HF].
  assert (Hne : gcmSeal jobKey nonce plain ≠ []) by (intros E; pose proof (jl_tag JL plain nonce) as HT; rewrite E in HT; simpl in HT; lia).
  split; [|split].
  - unfold parseEnvelope, sealedWith. simpl. by rewrite !base64_not_blank by (done || by intros ->).
  - unfold openEnvelope, sealedWith. rewrite (jl_key JL). simpl. rewrite !base64_roundtrip by done. simpl. rewrite Hl. simpl. by apply (jl_open JL).
  - etransitivity; [|exact (qb_fits QB nonce Hn)]. unfold cipherLen, sealedWith. simpl.
    rewrite (proj2 (base64_text _ HB)), (proj2 (base64_text _ (jl_bytes JL _ nonce (or_introl eq_refl)))), !(jl_tag JL).
    assert (Hle : (length plain <= length (marshalJob job))%nat) by (destruct Hp as [->|[sent ->]]; [done|apply (jl_short JL)]).
    assert ((Z.of_nat (length plain + 16) + 2) / 3 <= (Z.of_nat (length (marshalJob job) + 16) + 2) / 3)%Z by (apply Z.div_le_mono; lia). lia.
Qed.

(** ** What the row holds *)

Definition rows (d : mailbox) : list deliveryRow := List.filter (fun r => dJob r =s? id) (deliveries d).
Record rowsOK (compacted : bool) (d : mailbox) : Prop := {
  ro_length : length (rows d) = length (ojDeliveries job);
  ro_each k r : rows d !! k = Some r -> statusOK compacted (Z.of_nat k) r = true;
}.

(** Sealed whole, with the Sent copy reserved or filed; or a receipt. *)
Definition sentOK (d : mailbox) (o : outboxRow) : Prop :=
  match oSentID o with
  | None => True
  | Some sid => (0 < sid)%Z /\ ojSent job ≠ [] /\ oSentBytes o = 0%Z /\ oSentReserved o = 0%Z /\ filed sid (hashIncoming (ojSent job)) d = true
  end.
Definition wholeRow (d : mailbox) (o : outboxRow) : Prop :=
  (exists nonce, nonceOK nonce /\ oCipher o = sealedWith nonce (marshalJob job)) /\ sentOK d o /\
  (oSentID o = None -> oSentBytes o = Z.of_nat (length (ojSent job)) /\ oSentReserved o = (if bool_decide (ojSent job = []) then 0 else 1)%Z).
Definition compactRow (d : mailbox) (o : outboxRow) : Prop :=
  (exists nonce, nonceOK nonce /\ oCipher o = sealedWith nonce (receiptPlain (default 0%Z (oSentID o)))) /\ sentOK d o /\
  (oSentID o = None -> ojSent job = [] /\ oSentBytes o = 0%Z /\ oSentReserved o = 0%Z).
Definition held (d : mailbox) : Prop :=
  exists o compacted, find_first (isJob id) (outbox d) = Some o /\ rowsOK compacted d /\ (if compacted : bool then compactRow d o else wholeRow d o).

Lemma rowsOf_rows compacted d : rowsOK compacted d -> rowsOf id d = rows d.
Proof.
  intros [_ H]. unfold rowsOf. fold (rows d). assert (HS : forall k r, rows d !! k = Some r -> dSeq r = Z.of_nat k).
  { intros k r Hr. apply H in Hr. unfold statusOK in Hr. to_prop. done. }
  clear H. change 0%Z with (Z.of_nat 0) in *. assert (HS' : forall k r, rows d !! k = Some r -> dSeq r = Z.of_nat (0 + k)) by (intros; by apply HS).
  clear HS. revert HS'. generalize 0%nat. induction (rows d) as [|r l IH]; intros n HS; [done|]. unfold sortStable in *. simpl.
  rewrite (IH (S n)) by (intros k x Hx; rewrite (HS (S k) x) by done; f_equal; lia).
  apply insert_front. intros y [k Hy]%list_elem_of_lookup. unfold bySeq. apply Z.ltb_ge.
  rewrite (HS 0%nat r) by done. rewrite (HS (S k) y) by done. lia.
Qed.
Definition statusOf (r : deliveryRow) : OutboundStatus := mkOS (dSeq r) (dState r) (dAttempts r) (dNext r).
Lemma readStatuses_rows compacted n l : (forall k r, l !! k = Some r -> statusOK compacted (n + Z.of_nat k) r = true) ->
  readStatuses compacted n l = Some (statusOf <$> l).
Proof.
  revert n. induction l as [|r l IH]; intros n H; [done|]. cbn [readStatuses]. pose proof (H 0%nat r eq_refl) as H0. rewrite Z.add_0_r in H0. rewrite H0.
  rewrite IH; [done|]. intros k x Hx. replace (n + 1 + Z.of_nat k)%Z with (n + Z.of_nat (S k))%Z by lia. by apply H.
Qed.

Lemma receiptJob_intent sent : ojIntent (receiptJob (receiptOf job sent)) = Some (jobIntent (marshalJob job)).
Proof. done. Qed.

(** The row reads back: the job, or what its receipt says. *)
Definition viewOf (compacted : bool) (sent : Z) : OutboundJob := if compacted then receiptJob (receiptOf job sent) else job.
Lemma held_reads_at now d o compacted : find_first (isJob id) (outbox d) = Some o -> rowsOK compacted d ->
  (if compacted : bool then compactRow d o else wholeRow d o) ->
  readOutbound limits now master id d = Some (viewOf compacted (default 0%Z (oSentID o)), statusOf <$> rows d, default 0%Z (oSentID o)).
Proof.
  intros Ho HR Hrow. unfold readOutbound. rewrite key_ok. cbn [mbind option_bind]. rewrite Ho. cbn [mbind option_bind].
  set (plain := if compacted then receiptPlain (default 0%Z (oSentID o)) else marshalJob job).
  assert (HP : plain = marshalJob job \/ exists sent, plain = receiptPlain sent) by (unfold plain; destruct compacted; eauto).
  assert (HC : exists nonce, nonceOK nonce /\ oCipher o = sealedWith nonce plain) by (unfold plain; destruct compacted; apply Hrow).
  destruct HC as (nonce & Hn & HC). destruct (sealed_reads nonce plain Hn HP) as (H1 & H2 & H3). rewrite HC, H1, H2.
  rewrite (proj2 (Z.ltb_ge _ _) H3). cbn [orb negb mbind option_bind].
  assert (HD : (1 <= length (ojDeliveries job) <= 100)%nat /\ parseAddress (ojFrom job) = Some (ojFrom job) /\ 64%Z ∈ ojFrom job /\ outboundID (ojRelayGeneration job) = true).
  { pose proof (qb_valid QB 0) as HV. unfold validateOutbound in HV. destruct (_ || _) eqn:Eb in HV; [done|]. to_prop. split; [lia|done]. }
  destruct HD as (HD & HA & Hat & HG).
  assert (HPL : readPlain limits now o plain d = Some (viewOf compacted (default 0%Z (oSentID o)))).
  { unfold readPlain, plain. destruct compacted; cbn [viewOf].
    - rewrite bool_decide_true by apply (jl_receipt_first JL). rewrite (jl_receipt JL). cbn [mbind option_bind].
      unfold receiptOf. cbn [orReceipt orFrom orRelayGeneration orDeliveries orIntent orSent]. rewrite !bool_decide_true by done. rewrite HG.
      rewrite (proj2 (Z.ltb_ge _ _)) by lia. rewrite (proj2 (Z.ltb_ge _ _)) by lia. unfold jobIntent. rewrite (jl_intent JL).
      destruct Hrow as (_ & HS & HN). unfold sentOK in HS. destruct (oSentID o) as [sid|]; cbn [default from_option].
      + destruct HS as (Hsid & Hne & -> & -> & Hfil). cbn [Datatypes.id]. rewrite (proj2 (Z.ltb_lt _ _) Hsid), Hfil. rewrite (bool_decide_false (hashIncoming _ = [])) by apply (jl_digest JL).
        by rewrite bool_decide_true by (by eexists).
      + destruct (HN eq_refl) as (_ & -> & ->). done.
    - rewrite bool_decide_false by apply (jl_job_first JL). rewrite (jl_job JL). cbn [mbind option_bind]. rewrite (qb_valid QB).
      destruct Hrow as (_ & HS & HN). unfold sentOK in HS. destruct (oSentID o) as [sid|].
      + destruct HS as (Hsid & Hne & -> & -> & Hfil). rewrite Hfil. by rewrite bool_decide_false by done.
      + destruct (HN eq_refl) as (-> & ->). by rewrite !Z.eqb_refl. }
  rewrite HPL. cbn [mbind option_bind].
  assert (HI : bool_decide (is_Some (ojIntent (viewOf compacted (default 0%Z (oSentID o))))) = compacted).
  { destruct compacted; cbn [viewOf]; [apply bool_decide_true; by eexists|]. rewrite (qb_intent QB). apply bool_decide_false. by intros [? ?]. }
  rewrite HI, (rowsOf_rows compacted d HR), readStatuses_rows by (intros k r Hr; rewrite Z.add_0_l; by apply (ro_each _ _ HR)). cbn [mbind option_bind].
  assert (HL : length (ojDeliveries (viewOf compacted (default 0%Z (oSentID o)))) = length (ojDeliveries job)).
  { destruct compacted; cbn [viewOf]; [|done]. unfold receiptJob, receiptOf. cbn [ojDeliveries orDeliveries]. by rewrite length_replicate, Nat2Z.id. }
  rewrite length_fmap, (ro_length _ _ HR), HL, Nat.eqb_refl. done.
Qed.

(** ** Every call keeps it *)

Lemma find_first_mapped {A} (p : A -> bool) f l : (forall x, p (f x) = p x) -> find_first p (f <$> l) = f <$> find_first p l.
Proof. intros H. induction l as [|x l IH]; simpl; [done|]. rewrite H. by destruct (p x). Qed.
Lemma filed_update sid g d d' p f : (forall m, mID (f m) = mID m /\ mDigest (f m) = mDigest m) -> messages d' = updateWhere p f (messages d) ->
  filed sid g d' = filed sid g d.
Proof.
  intros Hf E. unfold filed. rewrite E. rewrite find_first_updateWhere by (intros m; unfold isMsg; by destruct (Hf m) as [-> _]).
  destruct (find_first _ _) as [m|]; [|done]. simpl. destruct (p m); [|done]. by destruct (Hf m) as [_ ->].
Qed.
Lemma filed_append sid g d d' m : messages d' = messages d ++ [m] -> filed sid g d = true -> filed sid g d' = true.
Proof. intros E. unfold filed. rewrite E, find_first_app. by destruct (find_first _ (messages d)). Qed.

Lemma rowsOK_same c d d' : rows d' = rows d -> rowsOK c d -> rowsOK c d'.
Proof. intros E [H1 H2]. split; by rewrite E. Qed.
Lemma held_same d d' : find_first (isJob id) (outbox d') = find_first (isJob id) (outbox d) -> rows d' = rows d ->
  (forall s g, filed s g d = true -> filed s g d' = true) -> held d -> held d'.
Proof.
  intros E1 E2 E3 (o & c & Ho & [HR1 HR2] & Hrow). exists o, c. rewrite E1. split; [done|]. split; [by split; rewrite ?E2|].
  assert (HS : sentOK d o -> sentOK d' o) by (unfold sentOK; destruct (oSentID o); [naive_solver|done]).
  destruct c; destruct Hrow as (H1 & H2 & H3); split; auto.
Qed.

Lemma held_mail : MailFrame (fun _ => True) held.
Proof.
  split; [split|..]; intros; intros d Hd; unfold wp, insertMessage, updateFolder, insertFolder, insertFolderOrIgnore, deleteFolderRow,
    updateFlags, tombstone, change, insertReceipt, insertImported, insertLabel, insertReplacement, exec;
    repeat case_match; simplify_eq/=; try done; eapply held_same; try exact Hd; try done.
  - intros s g Hg. erewrite filed_update; [exact Hg| |reflexivity]. done.
  - intros s g Hg. erewrite filed_update; [exact Hg| |reflexivity]. done.
  - intros s g Hg. erewrite filed_update; [exact Hg| |reflexivity]. done.
  - intros s g Hg. eapply filed_append; [reflexivity|done].
Qed.

Lemma elem_of_rows d r : r ∈ rows d <-> r ∈ deliveries d /\ dJob r = id.
Proof. unfold rows. rewrite list_elem_of_In, filter_In, <- list_elem_of_In, bool_decide_eq_true. done. Qed.

(** Statements on other jobs. *)
Lemma held_updateOutbox_other j f : j ≠ id -> (forall o, oID (f o) = oID o) -> keeps held (updateOutbox j f).
Proof.
  intros Hne Hf d H. apply wp_exec. eapply held_same; [| | |exact H]; [|done|done]. simpl.
  rewrite find_first_updateWhere by (intros o; unfold isJob; by rewrite Hf). destruct (find_first (isJob id) (outbox d)) as [o|] eqn:E; [|done].
  simpl. apply find_first_Some in E as [_ E]. unfold isJob in *. apply bool_decide_eq_true in E. rewrite bool_decide_false by congruence. done.
Qed.
Lemma held_updateDelivery_other q f : (forall r, dJob (f r) = dJob r) -> (forall r, q r = true -> dJob r ≠ id) -> keeps held (updateDelivery q f).
Proof.
  intros Hf Hq d H. apply wp_exec. eapply held_same; [| | |exact H]; [done| |done]. unfold rows. simpl.
  rewrite filter_updateWhere by (intros r; by rewrite Hf). apply updateWhere_none. intros r Hr%list_elem_of_In%filter_In. destruct Hr as [_ Hr]. to_prop.
  apply not_true_is_false. by intros ?%Hq.
Qed.
Lemma held_insertOutbox o : keeps held (insertOutbox o).
Proof.
  intros d H. apply wp_insertOutbox. intros _. eapply held_same; [| | |exact H]; [|done|done]. simpl. rewrite find_first_app.
  destruct H as (o' & c & -> & _). done.
Qed.
Lemma held_insertDelivery r : dJob r ≠ id -> keeps held (insertDelivery r).
Proof.
  intros Hr d H. apply wp_insertDelivery. intros _ _. eapply held_same; [| | |exact H]; [done| |done]. unfold rows. simpl.
  rewrite List.filter_app. simpl. rewrite bool_decide_false by done. by rewrite app_nil_r.
Qed.

(** The rows of this job after an update of one of them. *)
Lemma held_row c d s r k r' : rowsOK c d -> find_first (isDelivery id s) (deliveries d) = Some r -> rows d !! k = Some r' -> isDelivery id s r' = true -> r' = r.
Proof.
  intros HR Hf Hk [_ Hs]%isDelivery_spec. apply find_first_Some in Hf as [Hin [Hj Hs']%isDelivery_spec].
  assert (Hr : r ∈ rows d) by (by apply elem_of_rows). apply list_elem_of_lookup in Hr as [k' Hk'].
  pose proof (ro_each _ _ HR _ _ Hk) as H1. pose proof (ro_each _ _ HR _ _ Hk') as H2. unfold statusOK in H1, H2. to_prop.
  assert (k = k') as -> by lia. congruence.
Qed.
Lemma held_update c d q s r f : (forall x, dJob (f x) = dJob x) -> (forall x, q x = true -> isDelivery id s x = true) ->
  find_first (isDelivery id s) (deliveries d) = Some r -> rowsOK c d ->
  (forall k, statusOK c k r = true -> statusOK c k (f r) = true) ->
  rowsOK c (setDeliveries (updateWhere q f (deliveries d)) d).
Proof.
  intros Hf Hq Hr HR Hok. pose proof HR as [H1 H2].
  assert (E : rows (setDeliveries (updateWhere q f (deliveries d)) d) = updateWhere q f (rows d)).
  { unfold rows. simpl. apply filter_updateWhere. intros x. by rewrite Hf. }
  split; rewrite E; [by rewrite length_updateWhere|]. intros k x Hx. unfold updateWhere in Hx. rewrite list_lookup_fmap in Hx.
  apply fmap_Some in Hx as (y & Hy & ->). destruct (q y) eqn:Eq; [|by apply H2]. apply Hq in Eq.
  pose proof (held_row c d s r k y HR Hr Hy Eq) as Ey. rewrite Ey in Hy |- *. by apply Hok, H2.
Qed.

Lemma held_compact now nonce i : nonceOK nonce -> keeps held (compactOutbound limits now master nonce i).
Proof.
  intros Hn. destruct (decide (i = id)) as [->|Hne].
  2:{ pose proof (fun e => held_updateOutbox_other i (withCipher e) Hne (fun o => eq_refl)). unfold compactOutbound. walk. }
  intros d H. pose proof H as (o & c & Ho & HR & Hrow). unfold compactOutbound. apply wp_bind, wp_select. rewrite (held_reads_at now d o c Ho HR Hrow).
  destruct c; cbn [viewOf]; [rewrite receiptJob_intent, bool_decide_true by (by eexists); by apply wp_ret|]. rewrite (qb_intent QB). rewrite bool_decide_false by (by intros [? ?]). cbn [orb].
  destruct (negb (bool_decide (ojSent job = [])) && (default 0%Z (oSentID o) =? 0)%Z) eqn:Es; [by apply wp_ret|].
  destruct (forallb (fun s => finalState (osState s)) (statusOf <$> rows d)) eqn:Ef; cbn [negb]; [|by apply wp_ret].
  rewrite key_ok. cbn [mbind option_bind]. unfold seal. rewrite (jl_key JL). cbn [Nat.eqb negb].
  apply wp_exec. exists (withCipher (sealedWith nonce (receiptPlain (default 0%Z (oSentID o)))) o), true.
  destruct Hrow as (_ & HS & HN). split; [|split; [|split; [|split]]].
  - simpl. rewrite find_first_updateWhere by done. rewrite Ho. simpl. apply find_first_Some in Ho as [_ Ho]. by rewrite Ho.
  - destruct HR as [HR1 HR2]. split; [done|]. intros k r Hr. change (rows _) with (rows d) in Hr. pose proof (HR2 k r Hr) as Hok.
    assert (Hfin : finalState (dState r) = true).
    { rewrite forallb_forall in Ef. apply (Ef (statusOf r)). apply list_elem_of_In, list_elem_of_fmap_2. by eapply list_elem_of_lookup_2. }
    unfold statusOK in *. apply andb_true_iff in Hok as [-> _]. by rewrite Hfin.
  - eauto.
  - exact HS.
  - intros Hs. simpl in Hs. destruct (HN Hs) as [H1 H2]. rewrite Hs in Es. simpl in Es. rewrite andb_true_r in Es. to_prop. simpl. rewrite H1, H2, Es. done.
Qed.

Lemma held_exists d : held d -> existsb (isJob id) (outbox d) = true.
Proof. intros (o & c & Ho & _). apply find_first_Some in Ho as [Hin Ho]. apply existsb_exists. exists o. by rewrite <- list_elem_of_In. Qed.

Lemma held_insertDeliveries j n l : j ≠ id -> keeps held (insertDeliveries j n l).
Proof. intros Hne. revert n. induction l; intros n; simpl; [apply keeps_ret|]. apply keeps_bind; [by apply held_insertDelivery|by intros]. Qed.
Lemma held_queue now space nonce j job' : keeps held (queueOutbound limits now space master nonce j job').
Proof.
  destruct (decide (j = id)) as [->|Hne].
  - unfold queueOutbound. destruct (validateOutbound _ _ _); [apply keeps_raise|]. destruct (outboundKey _ _ ≫= _) as [sealed|]; [|apply keeps_raise].
    apply keeps_bind; [apply keeps_assert|]. intros _ d H. apply wp_bind, wp_select. rewrite (held_exists d H).
    revert d H. unfold readTx. apply keeps_bind; [|intros [[prior sts] sent]; apply keeps_assert].
    apply keeps_bind; [apply keeps_select|]. intros [x|]; [apply keeps_ret|apply keeps_raise].
  - pose proof held_insertOutbox. pose proof (fun n l => held_insertDeliveries j n l Hne). unfold queueOutbound, readTx, checkReserve. walk.
Qed.

(** A claimed, a completed and a quarantined row still read. *)
Lemma statusOK_claim k token r : outboundID token = true -> (dAttempts r < 6)%Z -> statusOK false k r = true -> statusOK false k (claimRow token r) = true.
Proof.
  intros Ht Ha H. unfold statusOK in *. cbn [claimRow dSeq dAttempts dNext dState dClaim]. to_prop. rewrite Ht.
  change ($"submitting" =s? $"queued") with false. change ($"submitting" =s? $"quarantined") with false. change (openState ($"submitting")) with true.
  rewrite orb_true_r, andb_true_r. rewrite negb_true_iff. cbn [negb andb orb]. rewrite !orb_false_iff. repeat split; try (by apply Z.ltb_ge; lia); try apply Z.eqb_neq; try lia.
Qed.
Lemma outcome_next now attempts submission : (0 <= now)%Z -> (0 <= (outcomeOf now attempts submission).2)%Z.
Proof.
  intros H. assert (0 <= Z.shiftl 1 (attempts - 1))%Z by (apply Z.shiftl_nonneg; lia). unfold outcomeOf. repeat case_match; simpl; lia.
Qed.
Lemma statusOK_submitting compacted k r : dState r = $"submitting" -> statusOK compacted k r = true ->
  compacted = false /\ dSeq r = k /\ outboundID (dClaim r) = true /\ (1 <= dAttempts r <= 6)%Z.
Proof.
  intros Hs H. unfold statusOK in H. rewrite Hs in H. change ($"submitting" =s? $"queued") with false in H. change ($"submitting" =s? $"quarantined") with false in H.
  change (finalState ($"submitting")) with false in H. change (openState ($"submitting")) with true in H. cbn [negb andb orb] in H. to_prop.
  destruct compacted; [done|]. repeat split; try done; lia.
Qed.
Lemma statusOK_complete now k r submission : (0 <= now)%Z -> dState r = $"submitting" -> statusOK false k r = true ->
  statusOK false k (completeRow (outcomeOf now (dAttempts r) submission).1 (outcomeOf now (dAttempts r) submission).2 r) = true.
Proof.
  intros Hn Hs H. destruct (statusOK_submitting _ _ _ Hs H) as (_ & Hseq & Hc & Ha). pose proof (outcome_next now (dAttempts r) submission Hn) as Hnext.
  pose proof (outcome_contract now (dAttempts r) submission ltac:(lia)) as HO. destruct (outcomeOf now (dAttempts r) submission) as [st t]. cbn [fst snd] in *.
  assert (Hst : st ∈ [$"accepted"; $"failed"; $"uncertain"; $"retryable"]) by (destruct (_ && _) in HO; [destruct HO as [-> _]|destruct HO as [_ HO]]; set_solver).
  unfold statusOK. cbn [completeRow dSeq dAttempts dNext dState dClaim]. rewrite Hc, Hseq, Z.eqb_refl.
  rewrite (proj2 (Z.ltb_ge _ _)) by lia. rewrite (proj2 (Z.ltb_ge _ _)) by lia. rewrite (proj2 (Z.ltb_ge _ _)) by lia. rewrite (proj2 (Z.eqb_neq (dAttempts r) 0)) by lia.
  rewrite !elem_of_cons in Hst. destruct Hst as [->|[->|[->|[->|[]%elem_of_nil]]]]; done.
Qed.
Lemma statusOK_quarantine k r : quarantinable (dState r) = true -> statusOK false k r = true -> statusOK false k (quarantineRow r) = true.
Proof.
  intros Hq H. unfold statusOK in *. cbn [quarantineRow dSeq dAttempts dNext dState dClaim]. to_prop.
  change ($"quarantined" =s? $"queued") with false. change ($"quarantined" =s? $"quarantined") with true. change (openState ($"quarantined")) with true.
  rewrite orb_true_r, andb_true_r, negb_true_iff. cbn [negb andb orb]. rewrite !orb_false_iff. repeat split; try done; try (by apply Z.ltb_ge; lia).
  by apply negb_false_iff, Z.eqb_eq.
Qed.
Lemma compacted_final k r : statusOK true k r = true -> finalState (dState r) = true.
Proof. unfold statusOK. intros [_ [H|[_ H]%andb_true_iff]%orb_true_iff]%andb_true_iff; [done|done]. Qed.

(** Updating one delivery's row of this job. *)
Lemma held_updateRow d q s r f : held d -> (forall x, dJob (f x) = dJob x) -> (forall x, q x = true -> isDelivery id s x = true) ->
  find_first (isDelivery id s) (deliveries d) = Some r -> finalState (dState r) = false ->
  (forall k, statusOK false k r = true -> statusOK false k (f r) = true) ->
  held (setDeliveries (updateWhere q f (deliveries d)) d).
Proof.
  intros (o & c & Ho & HR & Hrow) Hf Hq Hr Hfin Hok. exists o, c. split; [done|]. assert (c = false) as ->.
  { destruct c; [|done]. pose proof Hr as [Hin [Hj _]%isDelivery_spec]%find_first_Some. assert (Hm : r ∈ rows d) by (by apply elem_of_rows).
    apply list_elem_of_lookup in Hm as [k Hk]. apply (ro_each _ _ HR) in Hk. apply compacted_final in Hk. congruence. }
  split; [|exact Hrow]. by eapply held_update.
Qed.

Lemma held_claim now i s generation token : (forall t, token = Some t -> outboundID t = true) ->
  keeps held (claimOutbound limits now master i s generation token).
Proof.
  intros Ht d H. unfold wp. destruct (claimOutbound _ _ _ _ _ _ _ d) as [[[dl claim] d']|] eqn:E; [|done].
  apply claim_ok in E as (r & Hr & Hs & _ & Ha & -> & ->). destruct (decide (i = id)) as [->|Hne].
  - apply (held_updateRow d _ s r); [done|done|done|done| |].
    + destruct Hs as [->| ->]; done.
    + intros k Hk. apply statusOK_claim; [by apply Ht|done|done].
  - apply (held_updateDelivery_other (isDelivery i s) (claimRow claim) ltac:(done)); [|done]. intros r' [H1 _]%isDelivery_spec. congruence.
Qed.
Lemma held_quarantine i s : keeps held (quarantineOutbound i s).
Proof.
  destruct (decide (i = id)) as [->|Hne].
  2:{ assert (keeps held (updateDelivery (fun r => isDelivery i s r && quarantinable (dState r)) quarantineRow)).
      { apply held_updateDelivery_other; [done|]. intros r [[H1 _]%isDelivery_spec _]%andb_true_iff. congruence. }
      unfold quarantineOutbound. walk. }
  intros d H. unfold quarantineOutbound. destruct (_ || _); [done|]. apply wp_bind, wp_select, wp_bind, wp_exec, wp_assert. intros _.
  destruct (List.filter (fun r => isDelivery id s r && quarantinable (dState r)) (deliveries d)) as [|r l] eqn:EF.
  - rewrite (updateWhere_none _ quarantineRow (deliveries d)); [by destruct d|]. intros x Hx. apply not_true_is_false. intros Hq.
    assert (Hin : In x []) by (rewrite <- EF; apply filter_In; by rewrite <- list_elem_of_In). done.
  - pose proof H as (o & c & Ho & HR & Hrow).
    assert (Hin : In r (r :: l)) by by left. rewrite <- EF in Hin. apply filter_In in Hin as [Hin [Hi Hq]%andb_true_iff]. apply list_elem_of_In in Hin.
    assert (Hrr : find_first (isDelivery id s) (deliveries d) = Some r).
    { destruct (find_first (isDelivery id s) (deliveries d)) as [r0|] eqn:E0; [|rewrite find_first_None in E0; by rewrite E0 in Hi].
      f_equal. symmetry. pose proof Hi as [Hj _]%isDelivery_spec. assert (Hm : r ∈ rows d) by (by apply elem_of_rows).
      apply list_elem_of_lookup in Hm as [k Hk]. by eapply held_row. }
    apply (held_updateRow d _ s r); [done|done| |done| |].
    + by intros x [? _]%andb_true_iff.
    + unfold quarantinable in Hq. apply orb_true_iff in Hq as [[Hq|Hq]%orb_true_iff|Hq]; to_prop; by rewrite Hq.
    + intros k. by apply statusOK_quarantine.
Qed.
Lemma held_complete now nonce i s claim submission : (0 <= now)%Z -> nonceOK nonce ->
  keeps held (completeOutbound limits now master nonce i s claim submission).
Proof.
  intros Hn Hno d H. unfold completeOutbound. destruct (_ || _); [done|]. apply wp_bind, wp_select.
  destruct (find_first (isDelivery i s) (deliveries d)) as [r|] eqn:Hr; [|done]. destruct (_ || _) eqn:Eb; [done|]. to_prop.
  pose proof (fun k => statusOK_complete now k r submission Hn) as HSC. destruct (outcomeOf now (dAttempts r) submission) as [outcome retryAt]. cbn [fst snd] in HSC.
  apply wp_bind, wp_exec. assert (HK : held (setDeliveries (updateWhere (isDelivery i s) (completeRow outcome retryAt) (deliveries d)) d)).
  { destruct (decide (i = id)) as [->|Hne].
    - apply (held_updateRow d _ s r); [done|done|done|done| |].
      + match goal with E : dState r = _ |- _ => rewrite E end. done.
      + intros k. by apply HSC.
    - apply (held_updateDelivery_other (isDelivery i s) (completeRow outcome retryAt) ltac:(done)); [|done]. intros r' [Hj _]%isDelivery_spec. congruence. }
  destruct (finalState outcome); [|by apply wp_ret]. by apply held_compact.
Qed.

(** ** The Sent copy *)

Lemma filed_new d m : tablesOK d -> filed (Z.of_nat (length (messages d)) + 1) (mDigest m) (bump (rawSize m) 1 (setMessages (messages d ++
    [mkMessage (Z.of_nat (length (messages d)) + 1) (mFolder m) (mRaw m) (mDigest m) (mSender m) (mSubject m) (mTo m) (mCc m) (mBcc m) (mAt m)
       (mSeen m) (mStarred m) (mDraft m) (mLabels m)]) d)) = true.
Proof.
  intros HT. unfold filed. simpl. rewrite find_first_app.
  assert (find_first (isMsg (Z.of_nat (length (messages d)) + 1)) (messages d) = None) as ->.
  { apply find_first_None. intros x Hx. apply Z.eqb_neq. intros E. assert (Hi : mID x ∈ mID <$> messages d) by by apply list_elem_of_fmap_2.
    rewrite (tk_ids d HT) in Hi. apply list_elem_of_fmap in Hi as (n & Hn & Hs%elem_of_seq). lia. }
  simpl. unfold isMsg. simpl. rewrite Z.eqb_refl. by apply bool_decide_true.
Qed.

(** Filing the Sent copy of this job, once: the row then names it. *)
Lemma fileSent_id now nonce d o compacted : tablesOK d -> nonceOK nonce ->
  find_first (isJob id) (outbox d) = Some o -> rowsOK compacted d -> (if compacted : bool then compactRow d o else wholeRow d o) ->
  wp (fileOutboundSent limits now master nonce id) (fun sid d' => held d' /\ (0 < sid)%Z /\
     (exists o', find_first (isJob id) (outbox d') = Some o' /\ oSentID o' = Some sid) /\ (forall s, oSentID o = Some s -> s = sid /\ d' = d)) d.
Proof.
  intros HT Hn Ho HR Hrow. unfold fileOutboundSent, readTx. apply wp_bind, wp_bind, wp_select. rewrite (held_reads_at now d o compacted Ho HR Hrow).
  apply wp_ret. assert (HS : sentOK d o) by (destruct compacted; apply Hrow). unfold sentOK in HS.
  assert (HH : held d) by (by exists o, compacted).
  destruct (oSentID o) as [sid|] eqn:Es; cbn [default from_option Datatypes.id].
  - destruct HS as (Hsid & _). rewrite (proj2 (Z.ltb_lt _ _) Hsid). apply wp_ret. do 2 (split; [done|]). split; [by exists o|]. by intros s [= <-].
  - change (0 <? 0)%Z with false. cbn [Datatypes.id]. destruct (negb _ || _) eqn:Eb; [done|]. to_prop.
    destruct compacted; cbn [viewOf] in *; [exfalso; by match goal with H : ojSent (receiptJob _) ≠ [] |- _ => apply H end|].
    destruct (rawMetadata now (ojSent job)) as [[h at_]|]; [|done]. apply wp_bind, wp_insertMessage. intros _.
    set (m := sentRow job h at_). pose proof (filed_new d m HT) as HF. set (d1 := bump _ 1 _) in *. set (sid := (Z.of_nat (length (messages d)) + 1)%Z) in *.
    apply wp_bind, wp_exec. set (d2 := bump _ _ _).
    assert (Ho2 : find_first (isJob id) (outbox d2) = Some (withSent sid o)).
    { unfold d2. simpl. rewrite find_first_updateWhere by done. rewrite Ho. simpl. apply find_first_Some in Ho as [_ Ho]. by rewrite Ho. }
    assert (HH2 : held d2).
    { exists (withSent sid o), false. split; [exact Ho2|]. split; [by apply (rowsOK_same _ d)|]. destruct Hrow as ((n0 & Hn0 & Hc0) & _ & _). split; [by exists n0|].
      split; [|done]. unfold sentOK. simpl. split; [unfold sid; lia|]. do 3 (split; [done|]). exact HF. }
    apply wp_bind. pose proof (fr_change _ _ held_mail sid ($"Sent") false d2 HH2) as HC.
    assert (HC2 : wp (change sid ($"Sent") false) (fun _ d' => outbox d' = outbox d2) d2) by done.
    unfold wp in HC, HC2. unfold wp at 1. destruct (change sid ($"Sent") false d2) as [[[] d3]|e]; [|done].
    apply wp_bind. eapply (wp_conseq _ (fun _ d' => held d' /\ exists o', find_first (isJob id) (outbox d') = Some o' /\ oSentID o' = Some sid)).
    + pose proof (held_compact now nonce id Hn d3 HC) as HC3.
      assert (HS3 : keeps (fun d' => exists o', find_first (isJob id) (outbox d') = Some o' /\ oSentID o' = Some sid) (compactOutbound limits now master nonce id)).
      { assert (forall e, keeps (fun d' => exists o', find_first (isJob id) (outbox d') = Some o' /\ oSentID o' = Some sid) (updateOutbox id (withCipher e))).
        { intros e d' (o' & Ho' & Hs'). apply wp_exec. exists (withCipher e o'). split; [|done]. simpl. rewrite find_first_updateWhere by done. rewrite Ho'.
          simpl. apply find_first_Some in Ho' as [_ Ho']. by rewrite Ho'. }
        unfold compactOutbound. walk. }
      specialize (HS3 d3 ltac:(exists (withSent sid o); by rewrite HC2)). unfold wp in *. destruct (compactOutbound _ _ _ _ _ d3) as [[[] d4]|]; done.
    + intros [] d4 [H4 H5]. apply wp_ret. split; [done|]. split; [unfold sid; lia|]. split; [done|]. by intros s [=].
Qed.
Lemma held_fileSent now nonce i : nonceOK nonce -> keeps (fun d => tablesOK d /\ held d) (fileOutboundSent limits now master nonce i).
Proof.
  intros Hn d [HT H]. assert (HT' : keeps tablesOK (fileOutboundSent limits now master nonce i)).
  { pose proof (fr_mail _ tablesOK_frame) as M. pose proof (fr_sent _ tablesOK_frame). pose proof (keeps_compact tablesOK tablesOK_frame) as HC.
    pose proof (fr_insertMessage _ _ M). pose proof (fr_change _ _ M). unfold fileOutboundSent, readTx. walk. }
  specialize (HT' d HT). assert (HH : wp (fileOutboundSent limits now master nonce i) (fun _ d' => held d') d).
  { destruct (decide (i = id)) as [->|Hne].
    - destruct H as (o & c & Ho & HR & Hrow). eapply wp_conseq; [by eapply fileSent_id|]. by intros sid d' [? _].
    - pose proof (fun n => held_updateOutbox_other i (withSent n) Hne (fun o => eq_refl)). pose proof (fr_insertMessage _ _ held_mail). pose proof (fr_change _ _ held_mail).
      pose proof (fun now i => held_compact now nonce i Hn). revert d H HT HT'. change (forall d, held d -> tablesOK d -> wp (fileOutboundSent limits now master nonce i) (fun _ => tablesOK) d -> wp (fileOutboundSent limits now master nonce i) (fun _ d' => held d') d).
      assert (HK : keeps held (fileOutboundSent limits now master nonce i)) by (unfold fileOutboundSent, readTx; walk). intros d H' _ _. by apply HK. }
  unfold wp in *. destruct (fileOutboundSent _ _ _ _ _ d) as [[sid d']|]; done.
Qed.

(** ** Runs *)

(** What the system draws: a clock after 1970, 12-byte nonces, UUID tokens. *)
Definition drawn (c : mbCall) : Prop :=
  (0 <= callNow c)%Z /\
  match callOp c with
  | OQueue _ _ nonce | OComplete _ _ _ _ nonce | OFileSent _ nonce => nonceOK nonce
  | OClaim _ _ _ token => forall t, token = Some t -> outboundID t = true
  | _ => True
  end.

Lemma held_step c d : drawn c -> tablesOK d -> held d -> held (stepM limits account master c d).2.
Proof.
  intros [Hn Hd] HT H. destruct (stepM limits account master c d) as [r d'] eqn:E.
  apply stepM_ok in E as [(e & -> & ->)|(a & -> & E & _)]; [done|]. simpl.
  assert (HK : wp (runOp limits account master (callNow c) (callSpace c) (callOp c)) (fun _ d'' => held d'') d); [|unfold wp in HK; by rewrite E in HK].
  destruct (mailOp (callOp c)) eqn:Em; [by apply (keeps_mailOp limits account master (fun _ => True) _ _ _ _ held_mail (fun _ _ => I) Em)|].
  destruct (callOp c); try discriminate Em; cbn [runOp]; unfold unitAns, idAns; apply wp_bind.
  - eapply wp_conseq; [by apply held_queue|]. by intros.
  - eapply wp_conseq; [by apply held_claim|]. intros [dl cl] d2 H2. by apply wp_ret.
  - eapply wp_conseq; [by apply held_complete|]. by intros.
  - eapply wp_conseq; [by apply held_fileSent|]. by intros ? ? [_ ?].
  - eapply wp_conseq; [by apply held_quarantine|]. by intros.
Qed.
Lemma held_run tr d : Forall drawn tr -> tablesOK d -> held d ->
  let d' := (run_trace (stepM limits account master) tr d).2 in tablesOK d' /\ held d'.
Proof.
  intros HF. revert d. induction HF as [|c tr Hc _ IH]; intros d HT H; simpl; [done|].
  pose proof (keeps_stepM limits account master _ tablesOK_frame c d HT) as HT'. pose proof (held_step c d Hc HT H) as H'.
  destruct (stepM limits account master c d) as [r d1]. specialize (IH d1 HT' H'). by destruct (run_trace _ tr d1).
Qed.

(** The row names its Sent copy for good. *)
Definition namesSent (sid : Z) (d : mailbox) : Prop := exists o, find_first (isJob id) (outbox d) = Some o /\ oSentID o = Some sid.
Lemma namesSent_exec sid (f : mailbox -> mailbox) : (forall d, outbox (f d) = outbox d) -> keeps (namesSent sid) (exec f : Tx unit).
Proof. intros Hf d H. apply wp_exec. unfold namesSent. by rewrite Hf. Qed.
Lemma namesSent_cipher sid j e : keeps (namesSent sid) (updateOutbox j (withCipher e)).
Proof.
  intros d (o & Ho & Hs). apply wp_exec. exists (if isJob j o then withCipher e o else o). simpl. rewrite find_first_updateWhere by done. rewrite Ho.
  split; [done|]. by destruct (isJob j o).
Qed.
Lemma namesSent_mail sid : MailFrame (fun _ => True) (namesSent sid).
Proof.
  split; [split|..]; intros; try (by apply namesSent_exec); intros d Hd; unfold wp, insertMessage, updateFolder, insertFolder, insertFolderOrIgnore,
    deleteFolderRow, exec; repeat case_match; simplify_eq/=; done.
Qed.
Lemma namesSent_step sid c d : drawn c -> tablesOK d -> held d -> namesSent sid d -> namesSent sid (stepM limits account master c d).2.
Proof.
  intros [_ Hdr] HT H HN. destruct (stepM limits account master c d) as [r d'] eqn:E.
  apply stepM_ok in E as [(e & -> & ->)|(a & -> & E & _)]; [done|]. simpl.
  assert (HK : wp (runOp limits account master (callNow c) (callSpace c) (callOp c)) (fun _ d'' => namesSent sid d'') d); [|unfold wp in HK; by rewrite E in HK].
  destruct (mailOp (callOp c)) eqn:Em; [by apply (keeps_mailOp limits account master (fun _ => True) _ _ _ _ (namesSent_mail sid) (fun _ _ => I) Em)|].
  pose proof (namesSent_cipher sid) as Hci. assert (Hde : forall p f, keeps (namesSent sid) (updateDelivery p f)) by (intros; by apply namesSent_exec).
  assert (Hid : forall r, keeps (namesSent sid) (insertDelivery r)) by (intros r0 d0 H0; by apply wp_insertDelivery).
  assert (Hio : forall o, keeps (namesSent sid) (insertOutbox o)).
  { intros o0 d0 (o1 & H0 & H1). apply wp_insertOutbox. intros _. exists o1. simpl. by rewrite find_first_app, H0. }
  assert (Hds : forall j n l, keeps (namesSent sid) (insertDeliveries j n l)) by (intros j n l; revert n; induction l; intros; simpl; walk).
  assert (Hco : forall l now k n j, keeps (namesSent sid) (compactOutbound l now k n j)) by (intros; unfold compactOutbound; walk).
  destruct (callOp c) as [| | | | | | | | | | | | | | |j jb nc|j sq g tk|j sq cl sb nc|j nc|j sq]; try discriminate Em; cbn [runOp]; unfold unitAns, idAns.
  1,2,3,5: match goal with |- wp ?m _ _ => enough (keeps (namesSent sid) m) as HM by (by apply HM) end;
    unfold queueOutbound, readTx, checkReserve, claimOutbound, completeOutbound, quarantineOutbound; walk.
  apply wp_bind. destruct (decide (j = id)) as [->|Hne].
  - destruct H as (o & k & Ho & HR & Hrow). eapply wp_conseq; [by apply (fileSent_id _ _ d o k)|]. intros s d1 (_ & _ & _ & Hs). apply wp_ret.
    destruct HN as (o' & Ho' & Hs'). rewrite Ho in Ho'. injection Ho' as <-. destruct (Hs sid Hs') as [_ ->]. by exists o.
  - assert (Hse : forall n, keeps (namesSent sid) (updateOutbox j (withSent n))).
    { intros n d0 (o & Ho & Hs). apply wp_exec. exists o. simpl. rewrite find_first_updateWhere by done. rewrite Ho. split; [|done]. simpl.
      apply find_first_Some in Ho as [_ Ho]. unfold isJob in *. to_prop. by rewrite bool_decide_false by congruence. }
    pose proof (fr_insertMessage _ _ (namesSent_mail sid)). pose proof (fr_change _ _ (namesSent_mail sid)).
    enough (keeps (namesSent sid) (fileOutboundSent limits (callNow c) master nc j)) as HM by (eapply wp_conseq; [by apply HM|by intros]).
    unfold fileOutboundSent, readTx. walk.
Qed.
Lemma namesSent_run sid tr d : Forall drawn tr -> tablesOK d -> held d -> namesSent sid d ->
  namesSent sid (run_trace (stepM limits account master) tr d).2.
Proof.
  intros HF. revert d. induction HF as [|c tr Hc _ IH]; intros d HT H HN; simpl; [done|].
  pose proof (keeps_stepM limits account master _ tablesOK_frame c d HT) as HT'. pose proof (held_step c d Hc HT H) as H'. pose proof (namesSent_step sid c d Hc HT H HN) as HN'.
  destruct (stepM limits account master c d) as [r d1]. specialize (IH d1 HT' H' HN'). by destruct (run_trace _ tr d1).
Qed.
End Ledger.

(** ** Queued mail is never lost or doubled

    From the call that queued a job on, the job stays readable whatever is
    called: its replay is recognised, another intent is refused, and its Sent
    copy is filed once, without asking for capacity again. *)

Section Durable.
Context {U : Unicode} {SS : SortSlice} {ML : MailLib} {GF : GoTimeFormat} {OL : OutboxLib}.
Variable limits : Limits.
Variable account : gostr.
Variable master : list Z.
Variable id : gostr.
Variable job : OutboundJob.

(** Validation does not depend on the clock. *)
Lemma validate_now now now' j : validateOutbound limits now j = validateOutbound limits now' j.
Proof.
  unfold validateOutbound. rewrite (bool_decide_ext (is_Some (rawMetadata now (ojSent j))) (is_Some (rawMetadata now' (ojSent j)))); [done|].
  unfold rawMetadata. destruct (readMessage (ojSent j)) as [h|]; simpl; [|done]. by case_match.
Qed.

Lemma insertDeliveries_ok n l d u d' : insertDeliveries id n l d = Ok (u, d') ->
  outbox d' = outbox d /\ messages d' = messages d /\
  deliveries d' = deliveries d ++ ((fun k => mkDelivery id (Z.of_nat k) ($"queued") [] 0 0) <$> seq n (length l)).
Proof.
  revert n d. induction l as [|x l IH]; intros n d; simpl.
  - intros [= _ <-]. by rewrite app_nil_r.
  - intros H. apply bind_ok in H as ([] & d1 & H1 & H2). unfold insertDelivery in H1. destruct (_ || _); [done|]. injection H1 as <-.
    apply IH in H2 as (-> & -> & ->). simpl. by rewrite <- app_assoc.
Qed.

(** The call that queued the job: what it checked, and the row it left. *)
Lemma queue_ok now space nonce d d' : JobLaws master id job -> ojIntent job = None -> nonceOK nonce -> keysOK d -> existsb (isJob id) (outbox d) = false ->
  queueOutbound limits now space master nonce id job d = Ok (tt, d') -> Queueable limits master id job /\ held master id job d'.
Proof.
  intros JL HI Hn HK Hne H. unfold queueOutbound in H. destruct (validateOutbound limits now job) eqn:HV; [done|].
  destruct (outboundKey master id) as [key|] eqn:Hkey; [|done]. unfold outboundKey in Hkey. destruct (_ || _) eqn:Eb in Hkey; [done|]. injection Hkey as <-. to_prop.
  cbn [mbind option_bind] in H. unfold seal in H. change (outboxKDF master id) with (jobKey master id) in H. rewrite (jl_key _ _ _ JL) in H. cbn [Nat.eqb negb] in H.
  change (mkPayload 1 _ _) with (sealedWith master id nonce (marshalJob job)) in H.
  apply bind_ok in H as ([] & d1 & [Hfit ->]%assert_ok & H). apply bind_ok in H as (b & d1 & [-> ->]%select_ok & H). rewrite Hne in H.
  apply bind_ok in H as (u & d1 & [-> ->]%select_ok & H). apply bind_ok in H as ([] & d1 & [_ ->]%assert_ok & H).
  assert (HR : exists d0, checkReserve space (cipherLen (sealedWith master id nonce (marshalJob job)) + Z.of_nat (length (ojSent job))) false d = Ok (tt, d0) /\ d0 = d).
  { unfold checkReserve in *. apply bind_ok in H as ([] & d0 & HA & _). exists d0. split; [done|]. by apply assert_ok in HA as [_ ->]. }
  destruct HR as (d0 & HR & ->). apply bind_ok in H as ([] & d1 & HR' & H). rewrite HR in HR'. injection HR' as <-.
  apply bind_ok in H as ([] & d1 & Hins & Hdel). unfold insertOutbox in Hins. simpl in Hins. rewrite Hne in Hins. injection Hins as <-.
  apply insertDeliveries_ok in Hdel as (Ho & Hm & Hd). apply Z.leb_le in Hfit. split.
  - split; [by apply Nat.eqb_eq|done|done| |].
    + intros now'. by rewrite (validate_now now' now).
    + intros nonce' Hn'. etransitivity; [|exact Hfit]. unfold cipherLen, sealedWith. simpl.
      pose proof (jl_bytes _ _ _ JL (marshalJob job) nonce (or_introl eq_refl)) as B1. pose proof (jl_bytes _ _ _ JL (marshalJob job) nonce' (or_introl eq_refl)) as B2.
      rewrite (proj2 (base64_text _ B1)), (proj2 (base64_text _ B2)), !(jl_tag _ _ _ JL).
      rewrite (proj2 (base64_text _ (proj2 Hn))), (proj2 (base64_text _ (proj2 Hn'))), (proj1 Hn), (proj1 Hn'). lia.
  - exists (mkOutbox id (sealedWith master id nonce (marshalJob job)) (Z.of_nat (length (ojSent job))) (if bool_decide (ojSent job = []) then 0 else 1)%Z None now), false.
    split; [|split; [|split; [|split]]].
    + rewrite Ho. simpl. rewrite find_first_app. destruct (find_first (isJob id) (outbox d)) as [o|] eqn:E.
      * apply find_first_Some in E as [Hin E]. exfalso. assert (existsb (isJob id) (outbox d) = true); [|congruence]. apply existsb_exists. exists o.
        by rewrite <- list_elem_of_In.
      * simpl. unfold isJob. simpl. by rewrite bool_decide_true.
    + assert (E : rows id d' = (fun k => mkDelivery id (Z.of_nat k) ($"queued") [] 0 0) <$> seq 0 (length (ojDeliveries job))).
      { unfold rows. rewrite Hd. simpl. rewrite List.filter_app.
        assert (List.filter (fun r => dJob r =s? id) (deliveries d) = []) as ->.
        { destruct (List.filter _ (deliveries d)) as [|r l] eqn:E; [done|]. exfalso. assert (Hr : In r (r :: l)) by by left. rewrite <- E in Hr.
          apply filter_In in Hr as [Hr%list_elem_of_In Hj]. to_prop. pose proof (proj1 (Forall_forall _ _) (ky_foreign d HK) r Hr) as HF. simpl in HF. rewrite Hj in HF.
          apply isJob_In in HF. congruence. }
        simpl. generalize (seq 0 (length (ojDeliveries job))). intros l. induction l as [|k l IH]; simpl; [done|]. rewrite bool_decide_true by done. by f_equal. }
      split; rewrite E; [by rewrite length_fmap, length_seq|]. intros k r Hr. rewrite list_lookup_fmap in Hr. apply fmap_Some in Hr as (x & [-> _]%lookup_seq & ->).
      unfold statusOK. simpl. by rewrite Z.eqb_refl.
    + by exists nonce.
    + done.
    + done.
Qed.

(** A replay of the intent, or another one under the same ID. *)
Lemma queue_again now space nonce job' d : JobLaws master id job -> Queueable limits master id job -> held master id job d ->
  validateOutbound limits now job' = None ->
  (forall sealed, seal (marshalJob job') (outboxKDF master id) nonce = Some sealed -> (cipherLen sealed <= maxOutboundBytes)%Z) ->
  (sha256Bytes (marshalJob job') = sha256Bytes (marshalJob job) -> marshalJob job' = marshalJob job) ->
  queueOutbound limits now space master nonce id job' d =
    if bool_decide (marshalJob job' = marshalJob job) then Ok (tt, d) else Err ErrConflictMB.
Proof.
  intros JL QB H HV Hfit Hcol. unfold queueOutbound. rewrite HV, (key_ok _ _ _ _ QB). cbn [mbind option_bind].
  change (jobKey master id) with (outboxKDF master id). destruct (seal _ _ nonce) as [sealed|] eqn:Es.
  2:{ unfold seal in Es. change (outboxKDF master id) with (jobKey master id) in Es. by rewrite (jl_key _ _ _ JL) in Es. }
  unfold mbind, Tx_bind, assertTx. rewrite (proj2 (Z.leb_le _ _) (Hfit _ eq_refl)). unfold select. cbn [mret Tx_ret]. rewrite (held_exists _ _ _ d H).
  destruct H as (o & c & Ho & HR & Hrow). unfold readTx, mbind, Tx_bind, select.
  rewrite (held_reads_at limits master id job JL QB now d o c Ho HR Hrow). cbn [mret Tx_ret].
  destruct c; cbn [viewOf].
  - rewrite receiptJob_intent. unfold jobIntent. rewrite (bool_decide_ext (sha256Bytes (marshalJob job) = sha256Bytes (marshalJob job')) (marshalJob job' = marshalJob job)) by (split; intros E; [by apply Hcol|by rewrite E]).
    by destruct (bool_decide _).
  - rewrite (qb_intent _ _ _ _ QB), (bool_decide_ext (marshalJob job = marshalJob job') (marshalJob job' = marshalJob job)) by done. by destruct (bool_decide _).
Qed.

(** From the queueing call on. *)
Lemma queued_held tr0 c nonce d1 tr : let d := (run_trace (stepM limits account master) tr0 newMailbox).2 in
  JobLaws master id job -> ojIntent job = None -> callOp c = OQueue id job nonce -> nonceOK nonce -> existsb (isJob id) (outbox d) = false ->
  stepM limits account master c d = (Ok AnsUnit, d1) -> Forall drawn tr ->
  Queueable limits master id job /\ tablesOK d1 /\ held master id job d1 /\
  let d2 := (run_trace (stepM limits account master) tr d1).2 in tablesOK d2 /\ held master id job d2.
Proof.
  cbv zeta. intros JL HI Hop Hn Hne Hs HF. pose proof (tablesOK_run limits account master tr0) as HT.
  pose proof (keeps_run limits account master _ keysOK_frame tr0 newMailbox keysOK_new) as HK. set (d := (run_trace _ tr0 newMailbox).2) in *. clearbody d.
  pose proof (keeps_stepM limits account master _ tablesOK_frame c d HT) as HT1. rewrite Hs in HT1. cbn [snd] in HT1.
  apply stepM_ok in Hs as [(e & [=] & _)|(a & _ & Hs & _)]. rewrite Hop in Hs. cbn [runOp] in Hs. unfold unitAns in Hs.
  apply bind_ok in Hs as ([] & d' & Hs & [= <- <-]). destruct (queue_ok _ _ _ _ _ JL HI Hn HK Hne Hs) as [QB H].
  split; [done|]. split; [done|]. split; [done|]. by apply (held_run limits account master id job JL QB).
Qed.
End Durable.

(** ** Filing the copy succeeds *)

Section Filing.
Context {U : Unicode} {SS : SortSlice} {ML : MailLib} {GF : GoTimeFormat} {OL : OutboxLib}.

Lemma compact_total l now master nonce id d : exists d', compactOutbound l now master nonce id d = Ok (tt, d').
Proof. unfold compactOutbound, mbind, Tx_bind, select. repeat case_match; eauto. Qed.
Lemma accepted_status id d : existsb (fun r => (dJob r =s? id) && (dState r =s? $"accepted")) (deliveries d) = true ->
  existsb (fun s => osState s =s? $"accepted") (statusOf <$> rows id d) = true.
Proof.
  intros (r & Hin & [Hj Hs]%andb_true_iff)%existsb_exists. apply existsb_exists. exists (statusOf r). split; [|done].
  apply list_elem_of_In, list_elem_of_fmap_2, elem_of_rows. apply list_elem_of_In in Hin. by to_prop.
Qed.
Lemma sent_metadata limits now job : validateOutbound limits now job = None -> ojSent job ≠ [] -> exists h at_, rawMetadata now (ojSent job) = Some (h, at_).
Proof.
  intros HV Hs. unfold validateOutbound in HV. destruct (_ || _) in HV; [done|]. destruct (_ <? _)%Z in HV; [done|].
  rewrite (bool_decide_false _ Hs) in HV. cbn [negb andb] in HV. case_bool_decide as Hm; [|done]. destruct Hm as [[h at_] Hm]. eauto.
Qed.
End Filing.

(** ** Theorems *)

Section Theorems.
Context {U : Unicode} {SS : SortSlice} {ML : MailLib} {GF : GoTimeFormat} {OL : OutboxLib}.

(** (C27) A queued job is never lost: from the call that queued it on, whatever
    is called, the job can be read, whole, or compacted once every delivery was
    accepted or refused for good; queueing the same intent again succeeds and
    changes nothing, compacted or not, even on a full mailbox; another intent
    under the same ID is a conflict. *)
Theorem queued_job_is_durable limits account master tr0 c id job nonce d1 tr :
  let d := (run_trace (stepM limits account master) tr0 newMailbox).2 in
  JobLaws master id job -> ojIntent job = None -> callOp c = OQueue id job nonce -> nonceOK nonce -> existsb (isJob id) (outbox d) = false ->
  stepM limits account master c d = (Ok AnsUnit, d1) -> Forall drawn tr ->
  let d2 := (run_trace (stepM limits account master) tr d1).2 in
  (forall now, exists view sts sent, readOutbound limits now master id d2 = Some (view, sts, sent) /\
     (view = job \/ ojIntent view = Some (jobIntent (marshalJob job)) /\ Forall (fun s => finalState (osState s) = true) sts)) /\
  forall c' job' nonce', callUp c' = true -> callOp c' = OQueue id job' nonce' -> validateOutbound limits (callNow c') job' = None ->
    (forall sealed, seal (marshalJob job') (outboxKDF master id) nonce' = Some sealed -> (cipherLen sealed <= maxOutboundBytes)%Z) ->
    (sha256Bytes (marshalJob job') = sha256Bytes (marshalJob job) -> marshalJob job' = marshalJob job) ->
    stepM limits account master c' d2 = (if bool_decide (marshalJob job' = marshalJob job) then Ok AnsUnit else Err ErrConflictMB, d2).
Proof.
  cbv zeta. intros JL HI Hop Hn Hne Hs HF. destruct (queued_held limits account master id job tr0 c nonce d1 tr JL HI Hop Hn Hne Hs HF) as (QB & _ & _ & _ & H).
  set (d2 := (run_trace _ tr d1).2) in *. clearbody d2. split.
  - intros now. destruct H as (o & k & Ho & HR & Hrow). rewrite (held_reads_at limits master id job JL QB now d2 o k Ho HR Hrow). do 3 eexists. split; [done|].
    destruct k; cbn [viewOf]; [right|by left]. split; [done|]. apply Forall_forall. intros s (r & -> & Hr)%list_elem_of_fmap.
    apply list_elem_of_lookup in Hr as [n Hr]. apply (ro_each _ _ _ _ HR) in Hr. by eapply compacted_final.
  - intros c' job' nonce' Hup Hop' HV Hfit Hcol. unfold stepM, transact. rewrite Hup, Hop'. cbn [negb runOp]. unfold unitAns, mbind, Tx_bind.
    rewrite (queue_again limits master id job _ _ _ _ _ JL QB H HV Hfit Hcol). by destruct (bool_decide _).
Qed.

(** The Sent copy of a queued job is filed exactly once: as soon as one
    delivery was accepted, filing it succeeds however full the mailbox is (the
    space was set aside when the job was queued); every later filing answers
    the same message and writes nothing, whatever happened to that message. *)
Lemma sent_copy_filed_once limits account master tr0 c id job nonce d1 tr c' nonce' :
  let d := (run_trace (stepM limits account master) tr0 newMailbox).2 in
  JobLaws master id job -> ojIntent job = None -> callOp c = OQueue id job nonce -> nonceOK nonce -> existsb (isJob id) (outbox d) = false ->
  stepM limits account master c d = (Ok AnsUnit, d1) -> Forall drawn tr ->
  callUp c' = true -> callOp c' = OFileSent id nonce' -> nonceOK nonce' ->
  let d2 := (run_trace (stepM limits account master) tr d1).2 in
  ojSent job ≠ [] -> existsb (fun r => (dJob r =s? id) && (dState r =s? $"accepted")) (deliveries d2) = true ->
  exists sid d3, stepM limits account master c' d2 = (Ok (AnsID sid), d3) /\
    forall tr' c'' nonce'', Forall drawn tr' -> callUp c'' = true -> callOp c'' = OFileSent id nonce'' -> nonceOK nonce'' ->
      let d4 := (run_trace (stepM limits account master) tr' d3).2 in stepM limits account master c'' d4 = (Ok (AnsID sid), d4).
Proof.
  cbv zeta. intros JL HI Hop Hn Hne Hs HF Hup Hop' Hn'. destruct (queued_held limits account master id job tr0 c nonce d1 tr JL HI Hop Hn Hne Hs HF) as (QB & _ & _ & HT & H).
  set (d2 := (run_trace _ tr d1).2) in *. clearbody d2. intros Hsent Hacc.
  assert (HOK : exists sid d3, fileOutboundSent limits (callNow c') master nonce' id d2 = Ok (sid, d3)).
  { destruct H as (o & k & Ho & HR & Hrow). unfold fileOutboundSent, readTx, mbind, Tx_bind, select.
    rewrite (held_reads_at limits master id job JL QB (callNow c') d2 o k Ho HR Hrow). cbn [mret Tx_ret].
    destruct (0 <? default 0 (oSentID o))%Z eqn:E0; [by eexists _, _|].
    assert (Hnone : oSentID o = None).
    { assert (HS : sentOK job d2 o) by (destruct k; apply Hrow). unfold sentOK in HS. destruct (oSentID o) as [s|]; [|done]. destruct HS as [Hs0 _].
      cbn [default from_option Datatypes.id] in E0. apply Z.ltb_ge in E0. lia. }
    destruct k; [exfalso; destruct Hrow as (_ & _ & HN); by destruct (HN Hnone)|]. cbn [viewOf].
    rewrite (bool_decide_false _ Hsent), (accepted_status id d2 Hacc). cbn [negb orb].
    destruct (sent_metadata limits (callNow c') job (qb_valid _ _ _ _ QB _) Hsent) as (h & at_ & ->).
    unfold insertMessage. rewrite bool_decide_true by (apply (tk_system d2 HT); set_solver). unfold updateOutbox, change, exec.
    match goal with |- context [compactOutbound ?l ?n ?m ?k ?i ?x] => destruct (compact_total l n m k i x) as [d3 ->] end. by eexists _, _. }
  destruct HOK as (sid & d3 & HOK). exists sid, d3.
  split; [unfold stepM, transact; rewrite Hup, Hop'; cbn [negb runOp]; unfold idAns, mbind, Tx_bind; by rewrite HOK|].
  pose proof H as (o & k & Ho & HR & Hrow). pose proof (fileSent_id limits master id job JL QB (callNow c') nonce' d2 o k HT Hn' Ho HR Hrow) as HW.
  assert (HT3 : tablesOK d3).
  { pose proof (held_fileSent limits master id job JL QB (callNow c') nonce' id Hn' d2 (conj HT H)) as HK. unfold wp in HK. rewrite HOK in HK. apply HK. }
  unfold wp in HW. rewrite HOK in HW. destruct HW as (H3 & _ & HN & _).
  intros tr' c'' nonce'' HF' Hup2 Hop2 Hn2. destruct (held_run limits account master id job JL QB tr' d3 HF' HT3 H3) as [HT4 H4].
  pose proof (namesSent_run limits account master id job JL QB sid tr' d3 HF' HT3 H3 HN) as HN4. set (d4 := (run_trace _ tr' d3).2) in *. clearbody d4.
  destruct H4 as (o4 & k4 & Ho4 & HR4 & Hrow4). destruct HN4 as (o4' & Ho4' & Hs4). rewrite Ho4 in Ho4'. injection Ho4' as <-.
  assert (HF4 : fileOutboundSent limits (callNow c'') master nonce'' id d4 = Ok (sid, d4)).
  { unfold fileOutboundSent, readTx, mbind, Tx_bind, select. rewrite (held_reads_at limits master id job JL QB (callNow c'') d4 o4 k4 Ho4 HR4 Hrow4). cbn [mret Tx_ret].
    assert (HS : sentOK job d4 o4) by (destruct k4; apply Hrow4). unfold sentOK in HS. rewrite Hs4 in *. destruct HS as [Hsid _].
    cbn [default from_option Datatypes.id]. by rewrite (proj2 (Z.ltb_lt _ _) Hsid). }
  unfold stepM, transact. rewrite Hup2, Hop2. cbn [negb runOp]. unfold idAns, mbind, Tx_bind. by rewrite HF4.
Qed.
End Theorems.
