(* ===== verification/ScheduledWorker.v ===== *)
(** * ScheduledWorker: scheduled mail on its way out (backend/internal/api/scheduled_send.go, deliverIMAP of pgp_send_client.go, the authority checks of sso/native_outbound.go)

    The sweeper's workers, the cancel handler and the draft savers are programs
    over the shared table, in continuation style: one constructor of [prog] per
    call that leaves the process, the rest of the program as a function of its
    answer.  The system runs any number of them, one call at a time in any order,
    and may stop at any moment.  A [reply] is all the world may answer. *)

From S2P Require Import Prelude GoText UsersModel Outbox StateTables ScheduledSends Transaction AccountState.

(** ** The frozen job *)

Record scheduledJob := mkSJob {
  sjID : gostr; sjUser : gostr; sjMailbox : gostr; sjNative : bool; sjJob : OutboundJob; sjUsername : gostr; sjRequestedFrom : gostr; sjSent : bool; sjDraft : list Z;
}.
Definition scheduledMinLead : Z := 60.
Definition scheduledMaxLead : Z := 366 * 24 * 3600.
Definition scheduledRetryWindow : Z := 3600.
Definition scheduledRetryDelay : Z := 300.
Definition scheduledReturnFor : Z := 7 * 24 * 3600.
Definition maxScheduledPending : Z := 50.
Definition scheduledMaxUserBytes : Z := 256 * 2 ^ 20.
Definition scheduledMaxRowBytes : Z := 128 * 2 ^ 20.
Definition second : Z := 1000000000.

Definition reasonCanceled : gostr := $"canceled".
Definition reasonAccount : gostr := $"account security changed (password, two-factor, role or sign-in); review it and send again".
Definition reasonKeys : gostr := $"your PGP keys changed; review it and send again".
Definition reasonDevice : gostr := $"the device that scheduled it was removed or paired again".
Definition reasonFrom : gostr := $"the From address is no longer one you may send as".
Definition reasonSender : gostr := $"sending authority for this address changed (address, domain or relay); review it and send again".
Definition reasonMail : gostr := $"the mail account settings changed".
Definition reasonFull : gostr := $"the mailbox is full".
Definition reasonLate : gostr := $"it could not be sent within an hour of its send time".
Definition reasonLost : gostr := $"the scheduled message could not be opened; nothing was sent".
Definition reasonGone : gostr := $"the account was removed; nothing was sent".
Definition reasonNoDraft : gostr := $"it could not be saved to Drafts for a week; nothing was sent".
Definition reasonQuota : gostr := $"your sending quota was reached".
Definition reasonTooLarge : gostr := $"this message has more recipients than the daily sending quota allows".

(** [parseSendAt] on a parsed time, in nanoseconds; [None] refuses it. *)
Definition acceptSendAt (at_ now : Z) : bool := negb (at_ <? now + scheduledMinLead * second)%Z && negb (now + scheduledMaxLead * second <? at_)%Z.

(** ** Authority *)

Definition SenderAuthorityCurrent (u : User) (job : OutboundJob) : bool :=
  (ojNativeSendEpoch job =? NativeSendEpoch u)%Z && (ojPGPRevision job =? PGPRevision u)%Z && (ojPGPFingerprint job =s? PGPFingerprint u)
  && match PGPKeyring u with Some k => (ojMaterialGeneration job =? ringGeneration k)%Z | None => (ojMaterialGeneration job =? 0)%Z end.
Definition DeviceAuthorityCurrent {UC : Unicode} (sum : gostr -> gostr) (u : User) (job : OutboundJob) (d : NativeDevice) : bool :=
  negb (ojDeviceWitness job =s? []) && (ojDeviceWitness job =s? nativeDeviceWitness sum d) && ((ndUser d =s? []) || (ndUser d =s? uID u))
  && negb (ojRequiresEnrollment job && bool_decide (is_Some (PGPKeyring u))
           && (negb (ndEnrolled d) || negb (deGeneration (ndEnrollment d) =? ojMaterialGeneration job)%Z || negb (equalFold (deFingerprint (ndEnrollment d)) (PGPFingerprint u)))).

(** ** What a program calls *)

Inductive userAnswer := GotUser (u : User) | UserNotFound | UserUnread.
Inductive deviceAnswer := GotDevice (d : NativeDevice) | NoDevice | DeviceUnread.
Inductive relayAnswer := RelayAccepted | RelayAcceptedThenFailed | RelayUncertain | RelayRefused.
(** [QueueUnconfirmed]: the outbox has the job, but the device's own transaction around it fails to commit, so Queue answers an error. *)
Inductive queueAnswer := QueueOk | QueueStale | QueueDevice | QueueCapacity | QueueFailed | QueueUnconfirmed.
(** The account's mail settings: unreadable, changed, without a target, the alias store unreadable, another From, or usable. *)
Inductive smtpAnswer := SmtpUnread | SmtpMail | SmtpFrom | SmtpReady.

Inductive prog :=
  | Stop
  | Now (k : Z -> prog)
  | Claim (now : Z) (k : option (option sched) -> prog)
  | Move (id from to reason : gostr) (next : Z) (k : option bool -> prog)
  | Get (id : gostr) (k : option (option sched) -> prog)
  | Returns (now : Z) (k : option (list sched) -> prog)
  | Key (k : bool -> prog)
  | AskUser (id : gostr) (k : userAnswer -> prog)
  | AskDevice (user id : gostr) (k : deviceAnswer -> prog)
  | Charge (id user : gostr) (recipients now : Z) (k : admit_answer -> prog)
  | Queue (mailbox id : gostr) (job : OutboundJob) (k : queueAnswer -> prog)
  | AskSmtp (j : scheduledJob) (k : smtpAnswer -> prog)
  | Prepare (raws : list (list Z)) (k : bool -> prog)
  | Relay (id : gostr) (i : nat) (d : OutboundDelivery) (k : relayAnswer -> prog)
  | SaveSent (id : gostr) (k : bool -> prog)
  | SaveDraft (id : gostr) (draft : list Z) (k : bool -> prog).

Section Worker.
Context {UC : Unicode} {SS : SortSlice}.
(** Opening a sealed job, the hash of a device's secret, the text of a warning: cryptography and fmt. *)
Context (openSealed : list Z -> option scheduledJob) (sum : gostr -> gostr) (warningText : nat -> nat -> bool -> gostr).

Definition openScheduledRow (r : sched) : option scheduledJob :=
  j ← Sealed r ≫= openSealed;
  if (sjID j =s? schID r) && (sjUser j =s? schUser r) && (sjMailbox j =s? schMailbox r) then Some j else None.

(** ** Saving the draft of a returning row *)

Definition saveScheduledDraft (row : sched) (k : bool -> prog) : prog :=
  let move to reason next := Move (schID row) ScheduledReturning to reason next in
  match openScheduledRow row with
  | None => move ($"failed") reasonLost 0%Z (fun _ => k false)
  | Some j =>
      AskUser (sjUser j) (fun u =>
      match u with
      | UserNotFound => move ($"failed") reasonGone 0%Z (fun _ => k false)
      | _ => SaveDraft (schID row) (sjDraft j) (fun saved =>
          if saved then move ($"returned") (schReason row) 0%Z (fun _ => k true)
          else
            let later := Now (fun t => move ScheduledReturning (schReason row) (t / second + scheduledRetryDelay)%Z (fun _ => k false)) in
            if (0 <? ReturningSince row)%Z then
              Now (fun t => if (scheduledReturnFor * second <? t - ReturningSince row * second)%Z then move ($"failed") reasonNoDraft 0%Z (fun _ => k false) else later)
            else later)
      end)
  end.

(** ** Sending *)

Definition scheduledAuthority (j : scheduledJob) (k : userAnswer + gostr -> prog) : prog :=
  AskUser (sjUser j) (fun a =>
  match a with
  | GotUser u =>
      if negb (Active u) || MustChangePassword u || negb (NativeSendEpoch u =? ojNativeSendEpoch (sjJob j))%Z then k (inr reasonAccount)
      else if negb (SenderAuthorityCurrent u (sjJob j)) then k (inr reasonKeys)
      else if ojDeviceID (sjJob j) =s? [] then k (inr [])
      else AskDevice (sjUser j) (ojDeviceID (sjJob j)) (fun d =>
        match d with
        | GotDevice d => if DeviceAuthorityCurrent sum u (sjJob j) d then k (inr []) else k (inr reasonDevice)
        | NoDevice => k (inr reasonDevice)
        | DeviceUnread => k (inl UserUnread)
        end)
  | x => k (inl x)
  end).

Definition mayHaveArrived (a : relayAnswer) : bool := match a with RelayRefused => false | _ => true end.
Definition relayed (a : relayAnswer) : bool := match a with RelayAccepted | RelayAcceptedThenFailed => true | _ => false end.
(** The groups after the first: best effort, counted. *)
Fixpoint relayRest (id : gostr) (i : nat) (ds : list OutboundDelivery) (failed : nat) (k : nat -> prog) : prog :=
  match ds with
  | [] => k failed
  | d :: ds => Relay id i d (fun a => relayRest id (S i) ds (if relayed a then failed else S failed) k)
  end.
(** [deliverIMAP]: the answer of the first group, or how many copies failed and whether Sent has one. *)
Definition deliverIMAP (id : gostr) (ds : list OutboundDelivery) (withSent : bool) (k : relayAnswer + nat * bool -> prog) : prog :=
  let finish failed := if withSent then SaveSent id (fun ok => k (inr (failed, ok))) else k (inr (failed, false)) in
  match ds with
  | [] => finish 0
  | d :: ds => Relay id 0 d (fun a => if relayed a then relayRest id 1 ds 0 finish else k (inl a))
  end.

Definition recipientsOf (j : scheduledJob) : Z := foldr (fun d n => Z.of_nat (length (odRecipients d)) + n)%Z 0%Z (ojDeliveries (sjJob j)).
Definition dispatchScheduled (j : scheduledJob) (k : gostr * gostr -> prog) : prog :=
  let retry reason := k (ScheduledWaiting, reason) in
  scheduledAuthority j (fun a =>
  match a with
  | inl UserNotFound => k ($"failed", reasonGone)
  | inl _ => retry []
  | inr reason =>
      if negb (reason =s? []) then k (ScheduledReturning, reason)
      else Now (fun t => Charge (sjID j) (sjUser j) (recipientsOf j) (t / second)%Z (fun c =>
        match c with
        | OverQuota _ => retry reasonQuota
        | TooLarge => k (ScheduledReturning, reasonTooLarge)
        | DBError => retry []
        | SendAdmitted =>
            if sjNative j then
              Queue (sjMailbox j) (sjID j) (sjJob j) (fun q =>
              match q with
              | QueueOk => k ($"queued", $"handed to the outbox for delivery")
              | QueueStale => k (ScheduledReturning, reasonSender)
              | QueueDevice => k (ScheduledReturning, reasonDevice)
              | QueueCapacity => k (ScheduledReturning, reasonFull)
              | QueueFailed | QueueUnconfirmed => retry []
              end)
            else
              AskSmtp j (fun s =>
              match s with
              | SmtpUnread => retry []
              | SmtpMail => k (ScheduledReturning, reasonMail)
              | SmtpFrom => k (ScheduledReturning, reasonFrom)
              | SmtpReady =>
                  Prepare (odRaw <$> ojDeliveries (sjJob j)) (fun ok =>
                  if negb ok then k (ScheduledReturning, reasonLost)
                  else deliverIMAP (sjID j) (ojDeliveries (sjJob j)) (sjSent j) (fun r =>
                    match r with
                    | inr (failed, saved) => k ($"sent", warningText failed (length (ojDeliveries (sjJob j)) - 1) (sjSent j && negb saved))
                    | inl RelayUncertain => k ($"uncertain", $"delivery could not be confirmed; check with your recipients before sending again")
                    | inl _ => retry []
                    end))
              end)
        end))
  end).

Definition withReason (reason : gostr) (r : sched) : sched :=
  mkSched (schID r) (schUser r) (schMailbox r) (schStatus r) reason (SendAt r) (schCreatedAt r) (ReturningSince r) (NextAttempt r) (Sealed r) (Summary r).
Definition runScheduled (row : sched) : prog :=
  let move to reason next := Move (schID row) ScheduledSending to reason next in
  match openScheduledRow row with
  | None => move ($"failed") reasonLost 0%Z (fun _ => Stop)
  | Some j =>
      let deadline := ((SendAt row + scheduledRetryWindow) * second)%Z in
      let late := if schReason row =s? reasonQuota then reasonQuota else reasonLate in
      let finish next reason := move next reason 0%Z (fun _ =>
        if next =s? ScheduledReturning then saveScheduledDraft (withReason reason row) (fun _ => Stop) else Stop) in
      Now (fun t =>
        if (deadline <? t)%Z then finish ScheduledReturning late
        else dispatchScheduled j (fun '(next, reason) =>
          if next =s? ScheduledWaiting then
            Now (fun t => if (t + scheduledRetryDelay * second <? deadline)%Z then move ScheduledWaiting reason (t / second + scheduledRetryDelay)%Z (fun _ => Stop)
              else finish ScheduledReturning (if reason =s? [] then reasonLate else reason))
          else finish next reason))
  end.

(** One claim of a worker; one row of a sweep's returns; a cancel request of [user] for [mailbox]. *)
Definition claimScheduled : prog := Key (fun ok => if negb ok then Stop else Now (fun t => Claim (t / second)%Z (fun r => match r with Some (Some row) => runScheduled row | _ => Stop end))).
Definition saveReturn (i : nat) : prog :=
  Key (fun ok => if negb ok then Stop else Now (fun t => Returns (t / second)%Z (fun rows => match rows ≫= (.!! i) with Some row => saveScheduledDraft row (fun _ => Stop) | None => Stop end))).
Definition handleScheduledCancel (user mailbox id : gostr) : prog :=
  Get id (fun r =>
  match r with
  | Some (Some row) =>
      if negb (schUser row =s? user) || negb (schMailbox row =s? mailbox) then Stop
      else Now (fun t => Move (schID row) ScheduledWaiting ScheduledReturning reasonCanceled (t / second + 120)%Z (fun hit =>
        match hit with
        | Some true => Key (fun ok => if ok : bool then saveScheduledDraft (withReason reasonCanceled row) (fun _ => Stop) else Stop)
        | _ => Stop
        end))
  | _ => Stop
  end).

(** ** The system *)

Record reply := mkReply {
  rpTime : Z; rpUp : bool; rpKey : bool; rpUser : userAnswer; rpDevice : deviceAnswer; rpFails : stmt -> bool; rpQuota : option (Z * Z); rpQueue : queueAnswer;
  rpSmtp : smtpAnswer; rpPrepared : bool; rpRelay : relayAnswer; rpSaved : bool;
}.
(** The table, the sending ledger, what relays and the outbox may have taken, what Drafts has. *)
Record system := mkSystem { sysTable : schedTable; sysLedger : ledger; sysSent : list (gostr * nat); sysQueued : list gostr; sysDrafts : list gostr }.
Definition onTable (t : schedTable) (s : system) : system := mkSystem t (sysLedger s) (sysSent s) (sysQueued s) (sysDrafts s).

(** ScheduledReturns: of each user the returning row with the earliest send time that is due. *)
Definition dueReturns (now : Z) (t : schedTable) : schedTable := List.filter (fun r => (schStatus r =s? ScheduledReturning) && (NextAttempt r <=? now)%Z) t.
Definition earliest (rows : schedTable) (r : sched) : bool := forallb (fun x => negb (schUser x =s? schUser r) || negb (SendAt x <? SendAt r)%Z) rows.
Fixpoint onePerUser (seen : list gostr) (rows : schedTable) : schedTable :=
  match rows with [] => [] | r :: rows => if bool_decide (schUser r ∈ seen) then onePerUser seen rows else r :: onePerUser (schUser r :: seen) rows end.
Definition scheduledReturns (now : Z) (t : schedTable) : schedTable :=
  let rows := dueReturns now t in take 100 (onePerUser [] (List.filter (earliest rows) rows)).

(** One call of a program, answered. *)
Definition perform (w : reply) (p : prog) (s : system) : prog * system :=
  match p with
  | Stop => (Stop, s)
  | Now k => (k (rpTime w), s)
  | Claim now k => if rpUp w then let '(r, t) := claimScheduledSend now (sysTable s) in (k (Some r), onTable t s) else (k None, s)
  | Move id from to reason next k =>
      if rpUp w then let '(hit, t) := moveScheduledSend id from to reason next (rpTime w / second)%Z (sysTable s) in (k (Some hit), onTable t s) else (k None, s)
  | Get id k => (k (if rpUp w then Some (getScheduledSend id (sysTable s)) else None), s)
  | Returns now k => (k (if rpUp w then Some (scheduledReturns now (sysTable s)) else None), s)
  | Key k => (k (rpKey w), s)
  | AskUser _ k => (k (rpUser w), s)
  | AskDevice _ _ k => (k (rpDevice w), s)
  | Charge id user recipients now k =>
      match rpQuota w with
      | None => (k DBError, s)
      | Some (perHour, perDay) => let '(a, l) := admitSend (rpFails w) id user recipients perHour perDay now (sysLedger s) in
          (k a, mkSystem (sysTable s) l (sysSent s) (sysQueued s) (sysDrafts s))
      end
  | Queue _ id _ k => (k (rpQueue w), match rpQueue w with QueueOk | QueueUnconfirmed => mkSystem (sysTable s) (sysLedger s) (sysSent s) (id :: sysQueued s) (sysDrafts s) | _ => s end)
  | AskSmtp _ k => (k (rpSmtp w), s)
  | Prepare _ k => (k (rpPrepared w), s)
  | Relay id i _ k => (k (rpRelay w), if mayHaveArrived (rpRelay w) then mkSystem (sysTable s) (sysLedger s) ((id, i) :: sysSent s) (sysQueued s) (sysDrafts s) else s)
  | SaveSent _ k => (k (rpSaved w), s)
  | SaveDraft id _ k => (k (rpSaved w), if rpSaved w then mkSystem (sysTable s) (sysLedger s) (sysSent s) (sysQueued s) (id :: sysDrafts s) else s)
  end.

(** A program starts, one makes its next call, a message is scheduled, rows are
    pruned, the process ends and starts again (with its recovery, or without when
    the database refuses it). *)
Inductive event := Start (p : prog) | Call (n : nat) (w : reply) | Schedule (r : sched) | Prune (before : Z) | Restart_ (recovered : bool).
Definition world : Type := list prog * system.
Definition happen (e : event) (x : world) : world :=
  let '(ps, s) := x in
  match e with
  | Start p => (ps ++ [p], s)
  | Call n w => match ps !! n with Some p => let '(p, s) := perform w p s in (<[n := p]> ps, s) | None => x end
  | Schedule r => (ps, onTable (addScheduledSend r maxScheduledPending scheduledMaxUserBytes (sysTable s)).2 s)
  | Prune before => (ps, onTable (pruneScheduledSends before (sysTable s)) s)
  | Restart_ recovered => ([], if recovered then onTable (interruptScheduledSends (sysTable s)) s else s)
  end.
Definition history (es : list event) : world := foldl (fun x e => happen e x) ([], mkSystem [] [] [] [] []) es.

(** A program on its own for [n] calls, the [i]-th answered by [ws i]. *)
Fixpoint alone (n : nat) (ws : nat -> reply) (p : prog) (s : system) : prog * system :=
  match n with O => (p, s) | S n => let '(p, s) := perform (ws 0) p s in alone n (fun i => ws (S i)) p s end.
End Worker.
