(* ===== verification/ScheduledWorkerTheorems.v ===== *)
(** * ScheduledWorkerTheorems: what becomes of a scheduled message

    [ok x c p] types a program by what it may still do to message [x]: nothing,
    send it, give it back, send the rest of its copies.  Every program of the
    server has such a type, and the types of the running programs and the table
    together say what has become of [x].  [scheduled_sent_or_returned]: each copy
    goes out at most once, and a message that went out is not in Drafts.
    [claimed_row_leaves_sending]: a worker settles the row it claimed. *)

From S2P Require Import Prelude GoText UsersModel Outbox StateTables ScheduledSends Transaction AccountState ScheduledWorker.

Inductive cls := CNone | COpen | CBack (saved : bool) | CSent (n : nat) | CQueued.
#[global] Instance cls_eq_dec : EqDecision cls.
Proof. solve_decision. Defined.

Section Worker.
Context {UC : Unicode} {SS : SortSlice}.
Context (openSealed : list Z -> option scheduledJob) (sum : gostr -> gostr) (warningText : nat -> nat -> bool -> gostr).

(** ** What a program may still do *)

Section Typing.
Context (x : gostr).
Definition idOf (r : sched) : Prop := schID r = x.
Definition moveOk (from to : gostr) (c : cls) : list cls :=
  match c with
  | COpen => if negb (from =s? ScheduledSending) then [] else if to =s? ScheduledWaiting then [CNone] else if to =s? ScheduledReturning then [CBack false] else if to =s? $"failed" then [CNone] else []
  | CBack b => if negb (from =s? ScheduledReturning) then [] else if to =s? ScheduledReturning then [CBack b] else if (to =s? $"failed") || ((to =s? $"returned") && b) then [CNone] else []
  | CSent _ => if (from =s? ScheduledSending) && ((to =s? $"sent") || (to =s? $"uncertain")) then [CNone] else []
  | CQueued => if (from =s? ScheduledSending) && (to =s? $"queued") then [CNone] else []
  | CNone => []
  end.
Fixpoint ok (c : cls) (p : prog) : Prop :=
  match p with
  | Stop => True
  | Now k => forall t, ok c (k t)
  | Claim _ k => c = CNone /\ ok CNone (k None) /\ ok CNone (k (Some None)) /\ forall r, ok (if decide (schID r = x) then COpen else CNone) (k (Some (Some r)))
  | Move id from to _ _ k =>
      if decide (id = x) then
        (exists c', c' ∈ moveOk from to c /\ forall b, ok c' (k b)) \/
        (c = CNone /\ from = ScheduledWaiting /\ to = ScheduledReturning /\ ok (CBack false) (k (Some true)) /\ ok CNone (k (Some false)) /\ ok CNone (k None))
      else forall b, ok c (k b)
  | Get _ k => forall r, ok c (k r)
  | Returns _ k => c = CNone /\ forall rows, ok (if match rows with Some rows => bool_decide (x ∈ schID <$> rows) | None => false end then CBack false else CNone) (k rows)
  | Key k => forall b, ok c (k b)
  | AskUser _ k => forall a, ok c (k a)
  | AskDevice _ _ k => forall a, ok c (k a)
  | Charge _ _ _ _ k => forall a, ok c (k a)
  | Queue _ id _ k => if decide (id = x) then c = COpen /\ forall a, ok (match a with QueueOk => CQueued | _ => COpen end) (k a) else forall a, ok c (k a)
  | AskSmtp _ k => forall a, ok c (k a)
  | Prepare _ k => forall b, ok c (k b)
  | Relay id i _ k =>
      if decide (id = x) then
        match c with
        | COpen => i = 0 /\ forall a, ok (if mayHaveArrived a then CSent 1 else COpen) (k a)
        | CSent n => (n <= i)%nat /\ (0 < n)%nat /\ forall a, ok (CSent (S i)) (k a)
        | _ => False
        end
      else forall a, ok c (k a)
  | SaveSent _ k => forall b, ok c (k b)
  | SaveDraft id _ k => if decide (id = x) then exists b, c = CBack b /\ ok (CBack true) (k true) /\ ok (CBack b) (k false) else forall b, ok c (k b)
  end.

(** The typing rules. *)
Lemma ok_own from to reason next k c c' id : id = x -> c' ∈ moveOk from to c -> (forall b, ok c' (k b)) -> ok c (Move id from to reason next k).
Proof. intros -> Hc Hk. cbn [ok]. rewrite decide_True by done. left. eauto. Qed.
Lemma ok_cancel reason next k id : id = x -> ok (CBack false) (k (Some true)) -> (forall b, b <> Some true -> ok CNone (k b)) -> ok CNone (Move id ScheduledWaiting ScheduledReturning reason next k).
Proof. intros -> H1 H2. cbn [ok]. rewrite decide_True by done. right. split_and!; try done; by apply H2. Qed.
Lemma ok_draft id d k b : id = x -> ok (CBack true) (k true) -> ok (CBack b) (k false) -> ok (CBack b) (SaveDraft id d k).
Proof. intros -> H1 H2. cbn [ok]. rewrite decide_True by done. eauto. Qed.
Lemma ok_queue m id j k : id = x -> (forall a, ok (match a with QueueOk => CQueued | _ => COpen end) (k a)) -> ok COpen (Queue m id j k).
Proof. intros -> H. cbn [ok]. by rewrite decide_True by done. Qed.
Lemma ok_relay_first id d k : id = x -> (forall a, ok (if mayHaveArrived a then CSent 1 else COpen) (k a)) -> ok COpen (Relay id 0 d k).
Proof. intros -> H. cbn [ok]. by rewrite decide_True by done. Qed.
Lemma ok_relay_next id i n d k : id = x -> (0 < n <= i)%nat -> (forall a, ok (CSent (S i)) (k a)) -> ok (CSent n) (Relay id i d k).
Proof. intros -> Hn H. cbn [ok]. rewrite decide_True by done. split_and!; [lia|lia|done]. Qed.
Lemma ok_move_other id from to reason next k c : id <> x -> (forall b, ok c (k b)) -> ok c (Move id from to reason next k).
Proof. intros Hx Hk. cbn [ok]. by rewrite decide_False by done. Qed.
Lemma ok_draft_other id d k c : id <> x -> (forall b, ok c (k b)) -> ok c (SaveDraft id d k).
Proof. intros Hx Hk. cbn [ok]. by rewrite decide_False by done. Qed.
Lemma ok_queue_other m id j k c : id <> x -> (forall b, ok c (k b)) -> ok c (Queue m id j k).
Proof. intros Hx Hk. cbn [ok]. by rewrite decide_False by done. Qed.
Lemma ok_relay_other id i d k c : id <> x -> (forall b, ok c (k b)) -> ok c (Relay id i d k).
Proof. intros Hx Hk. cbn [ok]. by rewrite decide_False by done. Qed.
Ltac ok_step :=
  match goal with
  | |- ok _ Stop => exact I
  | |- ok ?c (Now ?k) => change (forall t, ok c (k t)); intros ?; cbv beta
  | |- ok ?c (Get _ ?k) => change (forall t, ok c (k t)); intros ?; cbv beta
  | |- ok ?c (Key ?k) => change (forall t, ok c (k t)); intros ?; cbv beta
  | |- ok ?c (AskUser _ ?k) => change (forall t, ok c (k t)); intros ?; cbv beta
  | |- ok ?c (AskDevice _ _ ?k) => change (forall t, ok c (k t)); intros ?; cbv beta
  | |- ok ?c (Charge _ _ _ _ ?k) => change (forall t, ok c (k t)); intros ?; cbv beta
  | |- ok ?c (AskSmtp _ ?k) => change (forall t, ok c (k t)); intros ?; cbv beta
  | |- ok ?c (Prepare _ ?k) => change (forall t, ok c (k t)); intros ?; cbv beta
  | |- ok ?c (SaveSent _ ?k) => change (forall t, ok c (k t)); intros ?; cbv beta
  | H : ?id <> x |- ok _ (Move ?id _ _ _ _ _) => apply ok_move_other; [done|]; intros ?; cbv beta
  | H : ?id <> x |- ok _ (SaveDraft ?id _ _) => apply ok_draft_other; [done|]; intros ?; cbv beta
  | H : ?id <> x |- ok _ (Queue _ ?id _ _) => apply ok_queue_other; [done|]; intros ?; cbv beta
  | H : ?id <> x |- ok _ (Relay ?id _ _ _) => apply ok_relay_other; [done|]; intros ?; cbv beta
  | |- ok _ (if ?b then _ else _) => destruct b
  | |- ok _ (match ?b with _ => _ end) => destruct b
  | |- ok _ (let _ := _ in _) => cbv zeta
  end.
Ltac ok_walk := repeat ok_step.
Hint Extern 1 (_ ∈ moveOk _ _ _) => vm_compute; left : mbkeeps.
Lemma ok_save row k c : (forall c b, ok c (k b)) -> (schID row = x -> exists s, c = CBack s) -> ok c (saveScheduledDraft openSealed row k).
Proof.
  intros Hk Hc. unfold saveScheduledDraft. destruct (decide (schID row = x)) as [Hx|Hx].
  - destruct (Hc Hx) as [s ->]. assert (CNone ∈ moveOk ScheduledReturning ($"failed") (CBack s) /\ CBack s ∈ moveOk ScheduledReturning ScheduledReturning (CBack s)) as [Hf Hs] by (destruct s; split; vm_compute; left).
    destruct (openScheduledRow openSealed row) as [j|]; [|by eapply ok_own]. ok_step.
    assert (forall t, ok (CBack s) (Move (schID row) ScheduledReturning ScheduledReturning (schReason row) t (fun _ => k false))) as Hlater by (intros; by eapply ok_own).
    ok_step; [|by eapply ok_own|]; (apply ok_draft; [done|by eapply (ok_own _ _ _ _ _ _ CNone); [|vm_compute; left|]|]); ok_walk; try apply Hlater; by eapply ok_own.
  - destruct (openScheduledRow openSealed row) as [j|]; ok_walk; apply Hk.
Qed.
Lemma ok_authority j k c : (forall a, ok c (k a)) -> ok c (scheduledAuthority sum j k).
Proof. intros Hk. unfold scheduledAuthority. ok_walk; apply Hk. Qed.
Lemma ok_rest id ds : forall i n failed k, (0 < n <= i)%nat -> id = x -> (forall m f, (0 < m)%nat -> ok (CSent m) (k f)) -> ok (CSent n) (relayRest id i ds failed k).
Proof.
  induction ds as [|d ds IH]; intros i n failed k Hn Hid Hk; cbn [relayRest]; [by apply Hk; lia|]. apply ok_relay_next; [done|done|]. intros a. by apply IH; [lia|..].
Qed.
Lemma ok_rest_other id ds c : forall i failed k, id <> x -> (forall f, ok c (k f)) -> ok c (relayRest id i ds failed k).
Proof. induction ds as [|d ds IH]; intros i failed k Hid Hk; cbn [relayRest]; [done|]. ok_step. by apply IH. Qed.
(** Where a dispatch of [x] may go on. *)
Definition outcomeOk (r : gostr * gostr) (c : cls) : Prop :=
  match c with
  | COpen => r.1 = ScheduledWaiting \/ r.1 = ScheduledReturning \/ r.1 = $"failed"
  | CSent n => r.1 = $"sent" \/ r.1 = $"uncertain"
  | CQueued => r.1 = $"queued"
  | _ => False
  end.
Lemma ok_dispatch j k : sjID j = x -> ojDeliveries (sjJob j) <> [] -> (forall r c, outcomeOk r c -> ok c (k r)) -> ok COpen (dispatchScheduled sum warningText j k).
Proof.
  intros Hid Hne Hk. unfold dispatchScheduled. cbv zeta. apply ok_authority. intros a.
  assert (forall reason, ok COpen (k (ScheduledWaiting, reason))) as Hretry by (intros; apply Hk; by left). assert (forall reason, ok COpen (k (ScheduledReturning, reason))) as Hback by (intros; apply Hk; right; by left).
  destruct a as [[]|reason]; try apply Hretry; [apply Hk; right; by right|]. ok_step; [apply Hback|]. do 3 ok_step; try apply Hretry; try apply Hback. ok_step.
  - apply ok_queue; [done|]. intros []; try apply Hretry; try apply Hback. by apply Hk.
  - do 2 ok_step; try apply Hretry; try apply Hback. do 2 ok_step; [apply Hback|]. unfold deliverIMAP. destruct (ojDeliveries (sjJob j)) as [|d ds]; [done|]. apply ok_relay_first; [done|]. intros a.
    assert (forall m f, (0 < m)%nat -> ok (CSent m) (if sjSent j then SaveSent (sjID j) (fun okb => k ($"sent", warningText f (length (d :: ds) - 1) (sjSent j && negb okb))) else k ($"sent", warningText f (length (d :: ds) - 1) (sjSent j && negb false)))) as Hfin by (intros; ok_walk; apply Hk; by left).
    destruct a; cbn [relayed mayHaveArrived]; [by apply ok_rest; [lia|..]|by apply ok_rest; [lia|..]|apply Hk; by right|apply Hretry].
Qed.
Lemma ok_dispatch_other j k c : sjID j <> x -> (forall r, ok c (k r)) -> ok c (dispatchScheduled sum warningText j k).
Proof.
  intros Hid Hk. unfold dispatchScheduled. cbv zeta. apply ok_authority. intros a. destruct a as [[]|reason]; ok_walk; try apply Hk.
  unfold deliverIMAP. destruct (ojDeliveries (sjJob j)) as [|d ds]; ok_walk; try apply Hk; apply ok_rest_other; try done; intros; ok_walk; apply Hk.
Qed.
Context (sealsDeliveries : forall b j, openSealed b = Some j -> ojDeliveries (sjJob j) <> []).
Lemma openRow_id row j : openScheduledRow openSealed row = Some j -> sjID j = schID row /\ ojDeliveries (sjJob j) <> [].
Proof using sealsDeliveries.
  unfold openScheduledRow. destruct (Sealed row) as [b|]; simpl; [|done]. destruct (openSealed b) as [j'|] eqn:E; simpl; [|done]. destruct (_ && _) eqn:Ec; [|done]. intros [= <-]. to_prop. split; [done|by eapply sealsDeliveries].
Qed.
Lemma ok_run row : ok (if decide (schID row = x) then COpen else CNone) (runScheduled openSealed sum warningText row).
Proof using sealsDeliveries.
  unfold runScheduled. cbv zeta. destruct (decide (schID row = x)) as [Hx|Hx].
  - destruct (openScheduledRow openSealed row) as [j|] eqn:Ej; [|by eapply (ok_own _ _ _ _ _ _ CNone); [|vm_compute; left|intros; exact I]].
    apply openRow_id in Ej as [Hj Hne].
    assert (forall next reason c, outcomeOk (next, reason) c -> next <> ScheduledWaiting -> ok c (Move (schID row) ScheduledSending next reason 0%Z (fun _ => if next =s? ScheduledReturning then saveScheduledDraft openSealed (withReason reason row) (fun _ => Stop) else Stop))) as Hfin.
    { intros next reason c Ho Hw. destruct c; simpl in Ho; try done.
      - destruct Ho as [?|[->| ->]]; [done| |].
        + eapply (ok_own _ _ _ _ _ _ (CBack false)); [done|vm_compute; left|]. intros _. rewrite bool_decide_true by done. apply ok_save; [intros; exact I|]. by eexists.
        + eapply (ok_own _ _ _ _ _ _ CNone); [done|vm_compute; left|]. intros _. exact I.
      - destruct Ho as [-> | ->]; (eapply (ok_own _ _ _ _ _ _ CNone); [done|vm_compute; left|]); intros _; exact I.
      - subst next. eapply (ok_own _ _ _ _ _ _ CNone); [done|vm_compute; left|]. intros _. exact I. }
    ok_step. ok_step; [apply Hfin; [right; by left|discriminate]|]. apply ok_dispatch; [congruence|done|]. intros [next reason] c Ho. cbv beta iota. case_bool_decide as Hw.
    + subst next. destruct c; simpl in Ho; try (by repeat destruct Ho as [Ho|Ho]); try discriminate Ho; try (destruct Ho as [Ho|Ho]; discriminate Ho). ok_step. ok_step.
      * eapply (ok_own _ _ _ _ _ _ CNone); [done|vm_compute; left|]. intros _. exact I.
      * apply Hfin; [right; by left|discriminate].
    + by apply Hfin.
  - assert (forall r c, (forall s, c <> CBack s) -> schID r <> x -> ok c (saveScheduledDraft openSealed r (fun _ => Stop))) as Hs by (intros r c _ Hr; apply ok_save; [intros; exact I|done]).
    destruct (openScheduledRow openSealed row) as [j|] eqn:Ej; [|ok_walk]. apply openRow_id in Ej as [Hj _]. ok_walk; try (by apply Hs). apply ok_dispatch_other; [congruence|]. intros [next reason]. ok_walk; by apply Hs.
Qed.
Lemma ok_claim : ok CNone (claimScheduled openSealed sum warningText).
Proof using sealsDeliveries. unfold claimScheduled. do 3 ok_step. cbn [ok]. split_and!; [done|done|done|]. intros r. apply ok_run. Qed.
Lemma ok_saveReturn i : ok CNone (saveReturn openSealed i).
Proof.
  unfold saveReturn. do 3 ok_step. cbn [ok]. split; [done|]. intros [rows|]; cbn [mbind option_bind]; [|exact I]. destruct (rows !! i) as [row|] eqn:Er; [|exact I].
  apply ok_save; [intros; exact I|]. intros Hx. case_bool_decide as Hin; [by eexists|]. exfalso. apply Hin. rewrite <- Hx. apply list_elem_of_fmap. exists row. split; [done|]. by eapply list_elem_of_lookup_2.
Qed.
Lemma ok_cancelled user mailbox id : ok CNone (handleScheduledCancel openSealed user mailbox id).
Proof.
  unfold handleScheduledCancel. ok_step. match goal with |- ok _ (match ?r with _ => _ end) => destruct r as [[row|]|] end; [|exact I|exact I]. ok_step; [exact I|]. ok_step. destruct (decide (schID row = x)) as [Hx|Hx].
  - apply ok_cancel; [done| |].
    + do 2 ok_step; [|exact I]. apply ok_save; [intros; exact I|]. by eexists.
    + intros [[]|] Hb; done.
  - ok_walk. by apply ok_save; [intros; exact I|].
Qed.

(** ** What has become of [x] *)

Inductive phase := PNone | POpen | PBack | PSent.
Definition weight (c : cls) : Z := match c with COpen | CSent _ | CQueued => 1 | _ => 0 end.
Definition total (cs : list cls) : Z := foldr (fun c n => weight c + n)%Z 0%Z cs.
Definition clsOk (ph : phase) (s : system) (c : cls) : Prop :=
  match c with
  | CNone => True
  | COpen => ph = POpen
  | CBack saved => ph = PBack /\ (saved = true -> x ∈ sysDrafts s)
  | CSent n => ph = PSent /\ (x, 0) ∈ sysSent s /\ forall i, (x, i) ∈ sysSent s -> (i < n)%nat
  | CQueued => ph = PSent /\ x ∈ sysQueued s
  end.
Definition rowOk (ph : phase) (s : system) (status : gostr) : Prop :=
  (status = ScheduledWaiting -> ph = POpen) /\ (status = ScheduledReturning -> ph = PBack) /\
  (status = $"sent" -> (x, 0) ∈ sysSent s) /\ (status = $"queued" -> x ∈ sysQueued s) /\ (status = $"returned" -> x ∈ sysDrafts s).
Definition ofX (e : gostr * nat) : bool := e.1 =s? x.
Record fate (ph : phase) (cs : list cls) (s : system) : Prop := {
  f_ids : NoDup (schID <$> sysTable s);
  f_one : (total cs + waiting x (sysTable s) <= 1)%Z;
  f_cls : Forall (clsOk ph s) cs;
  f_rows r : r ∈ sysTable s -> schID r = x -> rowOk ph s (schStatus r);
  f_drafts : x ∈ sysDrafts s -> ph = PBack;
  f_sent i : (x, i) ∈ sysSent s -> ph = PSent;
  f_queued : x ∈ sysQueued s -> ph = PSent;
  f_nodup : NoDup (List.filter ofX (sysSent s));
  f_once : NoDup (List.filter (fun id => id =s? x) (sysQueued s));
}.
Lemma weight_pos c : (0 <= weight c <= 1)%Z.
Proof. destruct c; simpl; lia. Qed.
Lemma total_pos cs : (0 <= total cs)%Z.
Proof. induction cs as [|c cs IH]; simpl; [lia|]. pose proof (weight_pos c). lia. Qed.
Lemma total_insert cs n c c' : cs !! n = Some c -> total (<[n := c']> cs) = (total cs - weight c + weight c')%Z.
Proof. revert n. induction cs as [|c0 cs IH]; intros [|n] H; simplify_eq/=; [lia|]. rewrite (IH n) by done. lia. Qed.
Lemma total_two cs n m c c0 : cs !! n = Some c -> cs !! m = Some c0 -> n <> m -> (weight c + weight c0 <= total cs)%Z.
Proof.
  revert n m. induction cs as [|c1 cs IH]; intros [|n] [|m] Hn Hm Hne; simplify_eq/=; try done.
  - enough (weight c0 <= total cs)%Z by lia. clear -Hm. revert m Hm. induction cs as [|c1 cs IH]; intros [|m] Hm; simplify_eq/=; [pose proof (total_pos cs); lia|]. specialize (IH m Hm). pose proof (weight_pos c1). lia.
  - enough (weight c <= total cs)%Z by lia. clear -Hn. revert n Hn. induction cs as [|c1 cs IH]; intros [|n] Hn; simplify_eq/=; [pose proof (total_pos cs); lia|]. specialize (IH n Hn). pose proof (weight_pos c1). lia.
  - specialize (IH n m Hn Hm ltac:(lia)). pose proof (weight_pos c1). lia.
Qed.
Lemma waiting_pos t : (0 <= waiting x t)%Z.
Proof. unfold waiting. lia. Qed.
(** A program that may send is the only one that may do anything. *)
Lemma others_none ph cs s n c m c0 : fate ph cs s -> cs !! n = Some c -> weight c = 1%Z -> cs !! m = Some c0 -> n <> m -> c0 = CNone.
Proof.
  intros F Hn Hw Hm Hne. pose proof (total_two _ _ _ _ _ Hn Hm Hne) as Ht. pose proof (f_one _ _ _ F) as Ho. pose proof (waiting_pos (sysTable s)) as Hp.
  pose proof (proj1 (Forall_lookup _ _) (f_cls _ _ _ F) n c Hn) as Hcn. pose proof (proj1 (Forall_lookup _ _) (f_cls _ _ _ F) m c0 Hm) as Hcm.
  destruct c0; simpl in *; try lia; [done|]. destruct c; simpl in *; try lia; destruct Hcm as [-> _]; [done|by destruct Hcn|by destruct Hcn].
Qed.
Lemma fate_thread ph ph' cs s s' n c c' : fate ph cs s -> cs !! n = Some c ->
  NoDup (schID <$> sysTable s') -> (weight c' + waiting x (sysTable s') <= weight c + waiting x (sysTable s))%Z ->
  (forall m c0, cs !! m = Some c0 -> m <> n -> clsOk ph' s' c0) -> clsOk ph' s' c' -> (forall r, r ∈ sysTable s' -> schID r = x -> rowOk ph' s' (schStatus r)) ->
  (x ∈ sysDrafts s' -> ph' = PBack) -> (forall i, (x, i) ∈ sysSent s' -> ph' = PSent) -> (x ∈ sysQueued s' -> ph' = PSent) -> NoDup (List.filter ofX (sysSent s')) -> NoDup (List.filter (fun id => id =s? x) (sysQueued s')) -> fate ph' (<[n := c']> cs) s'.
Proof.
  intros F Hn Hids Hw Ho Hc Hr Hd Hs Hq Hnd Hon. constructor; try done.
  - rewrite (total_insert _ _ _ _ Hn). pose proof (f_one _ _ _ F). lia.
  - apply Forall_lookup. intros m c0 Hm. destruct (decide (m = n)) as [->|Hne]; [|rewrite list_lookup_insert_ne in Hm by done; by eapply Ho].
    rewrite list_lookup_insert in Hm. rewrite decide_True in Hm by (split; [done|by eapply lookup_lt_Some]). by injection Hm as <-.
Qed.
(** A call that changes nothing. *)
Lemma fate_stay ph cs s n c c' : fate ph cs s -> cs !! n = Some c -> clsOk ph s c' -> (weight c' <= weight c)%Z -> fate ph (<[n := c']> cs) s.
Proof.
  intros F Hn Hc Hw. eapply fate_thread; eauto; try apply F; [lia|]. intros m c0 Hm _. by apply (proj1 (Forall_lookup _ _) (f_cls _ _ _ F) m).
Qed.

(** ** One call *)

Lemma waiting_one t : NoDup (schID <$> t) -> (waiting x t <= 1)%Z.
Proof.
  unfold waiting. induction t as [|r t IH]; csimpl; intros Hn; [lia|]. apply NoDup_cons in Hn as [Hr Hn]. specialize (IH Hn). destruct (schID r =s? x) eqn:E; simpl; [|done]. to_prop. subst x.
  assert (List.filter (fun r0 => (schID r0 =s? schID r) && (schStatus r0 =s? ScheduledWaiting)) t = []) as Hf.
  { apply filter_none. intros r0 Hin. rewrite bool_decide_false; [done|]. intros He. apply Hr. rewrite <- He. apply list_elem_of_fmap. eauto. }
  rewrite Hf in *. destruct (schStatus r =s? ScheduledWaiting); simpl; rewrite ?Hf; simpl; lia.
Qed.
Lemma waiting_in t r : r ∈ t -> schID r = x -> schStatus r = ScheduledWaiting -> (0 < waiting x t)%Z.
Proof.
  intros Hin Hx Hs. unfold waiting. assert (r ∈ List.filter (fun r => (schID r =s? x) && (schStatus r =s? ScheduledWaiting)) t) as Hf; [|destruct (List.filter _ t); [by apply elem_of_nil in Hf|simpl; lia]].
  apply list_elem_of_In, filter_In. split; [by apply list_elem_of_In|]. by rewrite !bool_decide_true by done.
Qed.
Lemma move_effect id from to reason next clock t hit t' : NoDup (schID <$> t) -> moveScheduledSend id from to reason next clock t = (hit, t') ->
  schID <$> t' = schID <$> t /\
  (forall r, r ∈ t' -> (r ∈ t /\ ~ (schID r = id /\ schStatus r = from)) \/ (schID r = id /\ schStatus r = to /\ exists r0, r0 ∈ t /\ schID r0 = id /\ schStatus r0 = from)) /\
  (hit = true -> exists r0, r0 ∈ t /\ schID r0 = id /\ schStatus r0 = from) /\ (id <> x \/ to <> ScheduledWaiting -> (waiting x t' <= waiting x t)%Z).
Proof.
  unfold moveScheduledSend. intros Hn [= <- <-]. split_and!.
  - rewrite <- list_fmap_compose. apply list_fmap_ext. intros i r _. simpl. by destruct (_ && _).
  - intros r Hr. apply list_elem_of_fmap in Hr as (r0 & -> & Hr0). destruct ((schID r0 =s? id) && (schStatus r0 =s? from)) eqn:E.
    + apply andb_true_iff in E as [E1%bool_decide_eq_true E2%bool_decide_eq_true]. right. simpl. split_and!; [done|done|by exists r0].
    + left. split; [done|]. intros [H1 H2]. by rewrite !bool_decide_true in E by done.
  - intros Hh. apply Nat.eqb_eq in Hh. destruct (List.filter _ t) as [|r0 l] eqn:E; [done|]. assert (r0 ∈ List.filter (fun r => (schID r =s? id) && (schStatus r =s? from)) t) as Hin by (rewrite E; left).
    apply list_elem_of_In, filter_In in Hin as [Hin Hc]. apply list_elem_of_In in Hin. to_prop. eauto.
  - intros Hw. apply waiting_fmap. intros r. destruct (_ && _) eqn:E; [|by split]. to_prop. simpl. split; [done|]. intros Hx Ht. destruct Hw as [Hw|Hw]; congruence.
Qed.
Lemma move_none id from to reason next clock t t' : NoDup (schID <$> t) -> moveScheduledSend id from to reason next clock t = (false, t') -> t' = t.
Proof.
  unfold moveScheduledSend. intros Hn [= Hh <-]. apply Nat.eqb_neq in Hh. induction t as [|r t IH]; csimpl in *; [done|]. apply NoDup_cons in Hn as [Hr Hn].
  destruct (schID r =s? id) eqn:Ei; simpl in *.
  - to_prop. subst id. assert (forall t', (forall r0, r0 ∈ t' -> schID r0 <> schID r) -> List.filter (fun r0 => (schID r0 =s? schID r) && (schStatus r0 =s? from)) t' = [] /\
      ((fun r0 => if (schID r0 =s? schID r) && (schStatus r0 =s? from) then moved from to reason next clock r0 else r0) <$> t') = t') as Hskip.
    { clear. induction t' as [|r0 t' IH]; intros H; csimpl; [done|]. rewrite !(bool_decide_false (schID r0 = schID r)) by (apply H; left). simpl. destruct IH as [-> ->]; [intros; apply H; by right|done]. }
    destruct (Hskip t) as [Hf Hm]; [intros r0 Hin He; apply Hr; rewrite <- He; apply list_elem_of_fmap; eauto|]. destruct (schStatus r =s? from); simpl in *; [by rewrite Hf in Hh|]. by rewrite Hm.
  - f_equal. by apply IH.
Qed.
Lemma clsOk_table ph s t c : clsOk ph s c -> clsOk ph (onTable t s) c.
Proof. by destruct c. Qed.
Lemma rowOk_table ph s t st : rowOk ph s st -> rowOk ph (onTable t s) st.
Proof. done. Qed.

(** A statement that leaves the rows of [x] and their number in waiting alone, or takes them further. *)
Lemma fate_table ph ph' cs s t n c c' : fate ph cs s -> cs !! n = Some c -> NoDup (schID <$> t) -> (weight c' + waiting x t <= weight c + waiting x (sysTable s))%Z ->
  (forall m c0, cs !! m = Some c0 -> m <> n -> clsOk ph' s c0) -> clsOk ph' s c' -> (forall r, r ∈ t -> schID r = x -> rowOk ph' s (schStatus r)) ->
  (ph = PBack \/ ph = PSent -> ph' = ph) -> fate ph' (<[n := c']> cs) (onTable t s).
Proof.
  intros F Hn Hids Hw Ho Hc Hr Hph. eapply fate_thread; eauto; simpl; try apply F.
  - intros H. pose proof (f_drafts _ _ _ F H). rewrite Hph; auto.
  - intros i H. pose proof (f_sent _ _ _ F i H). rewrite Hph; auto.
  - intros H. pose proof (f_queued _ _ _ F H). rewrite Hph; auto.
Qed.
Definition advances (ph : phase) (cs : list cls) (n : nat) (p' : prog) (s' : system) : Prop := exists ph' c', ok c' p' /\ fate ph' (<[n := c']> cs) s' /\ (ph = PNone -> ph' = PNone).
Lemma same_cls ph cs s n m c0 : fate ph cs s -> cs !! m = Some c0 -> m <> n -> clsOk ph s c0.
Proof. intros F Hm _. by apply (proj1 (Forall_lookup _ _) (f_cls _ _ _ F) m). Qed.
Lemma own_cls ph cs s n c : fate ph cs s -> cs !! n = Some c -> clsOk ph s c.
Proof. intros F Hn. by apply (proj1 (Forall_lookup _ _) (f_cls _ _ _ F) n). Qed.
Lemma call_stay ph cs s n c p' : fate ph cs s -> cs !! n = Some c -> ok c p' -> advances ph cs n p' s.
Proof. intros F Hn Hok. exists ph, c. split; [done|]. split; [|done]. eapply fate_stay; eauto; [by eapply own_cls|lia]. Qed.
Lemma call_claim {L : SortSliceLaws} ph cs s n now k w : fate ph cs s -> cs !! n = Some CNone -> ok CNone (Claim now k) -> advances ph cs n (perform w (Claim now k) s).1 (perform w (Claim now k) s).2.
Proof.
  intros F Hn (_ & Hk0 & Hk1 & Hk). unfold perform. destruct (rpUp w); [|by eapply call_stay]. destruct (claimScheduledSend now (sysTable s)) as [[r|] t'] eqn:E.
  - destruct (claim_effect now _ _ _ (f_ids _ _ _ F) E) as (t1 & r0 & t2 & Ht & -> & -> & Hw & _). simpl. specialize (Hk (setStatus ScheduledSending r0)). simpl in Hk.
    assert (rowOk ph s (schStatus r0) \/ schID r0 <> x) as Hr0 by (destruct (decide (schID r0 = x)); [left; apply (f_rows _ _ _ F); [rewrite Ht; set_solver|done]|by right]).
    exists ph, (if decide (schID r0 = x) then COpen else CNone). split; [exact Hk|]. split; [|done]. apply (fate_table ph ph _ _ _ _ CNone); try done.
    + pose proof (f_ids _ _ _ F) as Hids. rewrite Ht in Hids. by rewrite fmap_app, fmap_cons in *.
    + rewrite Ht, !waiting_app. unfold waiting at 2 4. cbn [List.filter]. change (schID (setStatus ScheduledSending r0)) with (schID r0). change (schStatus (setStatus ScheduledSending r0)) with ScheduledSending. rewrite Hw.
      destruct (decide (schID r0 = x)) as [Hx|Hx]; [rewrite (bool_decide_true (schID r0 = x)) by done|rewrite (bool_decide_false (schID r0 = x)) by done]; simpl; lia.
    + intros m c0 Hm Hne. by eapply same_cls.
    + destruct (decide (schID r0 = x)); [|done]. destruct Hr0 as [Hr0|Hr0]; [|done]. by apply Hr0.
    + intros r Hr Hx. rewrite elem_of_app, elem_of_cons in Hr. destruct Hr as [Hr|[->|Hr]]; [apply (f_rows _ _ _ F); [rewrite Ht; set_solver|done]| |apply (f_rows _ _ _ F); [rewrite Ht; set_solver|done]]. simpl. split_and!; intros; discriminate.
  - simpl. assert (t' = sysTable s) as -> by (unfold claimScheduledSend in E; destruct (sort_slice _ _ _); [by injection E|done]). destruct s. by eapply call_stay.
Qed.
(** What a move of [x] by a program of class [c] leaves. *)
Definition movedPhase (ph : phase) (c c' : cls) : phase := match c, c' with COpen, CBack _ => PBack | _, _ => ph end.
Lemma moveOk_cases from to c c' : c' ∈ moveOk from to c ->
  match c with
  | COpen => from = ScheduledSending /\ ((to = ScheduledWaiting /\ c' = CNone) \/ (to = ScheduledReturning /\ c' = CBack false) \/ (to = $"failed" /\ c' = CNone))
  | CBack b => from = ScheduledReturning /\ ((to = ScheduledReturning /\ c' = CBack b) \/ (to = $"failed" /\ c' = CNone) \/ (to = $"returned" /\ b = true /\ c' = CNone))
  | CSent _ => from = ScheduledSending /\ (to = $"sent" \/ to = $"uncertain") /\ c' = CNone
  | CQueued => from = ScheduledSending /\ to = $"queued" /\ c' = CNone
  | CNone => False
  end.
Proof.
  destruct c; simpl; [by intros ?%elem_of_nil|..]; repeat case_bool_decide; simpl; try (by intros ?%elem_of_nil); try (intros ->%list_elem_of_singleton; by eauto 10).
  - destruct saved; simpl; [intros ->%list_elem_of_singleton; eauto 10|by intros ?%elem_of_nil].
Qed.
Lemma call_move_own ph cs s n c c' from to t' : fate ph cs s -> cs !! n = Some c -> c' ∈ moveOk from to c -> schID <$> t' = schID <$> sysTable s ->
  (forall r, r ∈ t' -> schID r = x -> r ∈ sysTable s \/ schStatus r = to) -> (to <> ScheduledWaiting -> (waiting x t' <= waiting x (sysTable s))%Z) ->
  exists ph', fate ph' (<[n := c']> cs) (onTable t' s) /\ (ph = PNone -> ph' = PNone).
Proof.
  intros F Hn Hc Hids Hrows Hw. apply moveOk_cases in Hc. pose proof (own_cls _ _ _ _ _ F Hn) as Hcn.
  assert (weight c = 1 -> waiting x (sysTable s) = 0)%Z as Hw0. { intros H1. pose proof (f_one _ _ _ F). pose proof (waiting_pos (sysTable s)). pose proof (total_insert cs n c CNone Hn) as Ht. pose proof (total_pos (<[n := CNone]> cs)). simpl in Ht. lia. }
  assert (NoDup (schID <$> t')) as Hnd by (rewrite Hids; apply F). pose proof (waiting_one t' Hnd) as Hw1.
  assert (weight c' + waiting x t' <= weight c + waiting x (sysTable s))%Z as Hweight.
  { destruct c; [done|..]; destruct Hc as [-> Hc]; simpl; simpl in Hw0.
    - destruct Hc as [[-> ->]|[[-> ->]|[-> ->]]]; simpl; try lia; (specialize (Hw ltac:(discriminate)); lia).
    - destruct Hc as [[-> ->]|[[-> ->]|(-> & -> & ->)]]; simpl; specialize (Hw ltac:(discriminate)); lia.
    - destruct Hc as [[-> | ->] ->]; simpl; specialize (Hw ltac:(discriminate)); lia.
    - destruct Hc as [-> ->]; simpl; specialize (Hw ltac:(discriminate)); lia. }
  assert (c <> COpen \/ to <> ScheduledReturning -> c' <> CBack false \/ c <> COpen -> fate ph (<[n := c']> cs) (onTable t' s)) as Hsame.
  { intros Hcase Hcase2. apply (fate_table ph ph _ _ _ _ c); try done; [intros m c0 Hm' Hne; by eapply same_cls| |].
    - destruct c; [done|..]; destruct Hc as [-> Hc].
      + destruct Hc as [[-> ->]|[[-> ->]|[-> ->]]]; try done. by destruct Hcase.
      + destruct Hc as [[-> ->]|[[-> ->]|(-> & -> & ->)]]; done.
      + by destruct Hc as [_ ->].
      + by destruct Hc as [_ ->].
    - intros r Hr Hx. destruct (Hrows r Hr Hx) as [Hr0|Hst]; [by apply (f_rows _ _ _ F)|]. rewrite Hst. unfold rowOk.
      destruct c; [done|..]; destruct Hc as [-> Hc]; simpl in Hcn.
      + destruct Hc as [[-> ->]|[[-> ->]|[-> ->]]]; [|by destruct Hcase|]; split_and!; try discriminate; by intros.
      + destruct Hcn as [-> Hsv]. destruct Hc as [[-> ->]|[[-> ->]|(-> & -> & ->)]]; split_and!; try discriminate; intros; try done; by apply Hsv.
      + destruct Hcn as (-> & H0 & _). destruct Hc as [[-> | ->] ->]; split_and!; try discriminate; by intros.
      + destruct Hcn as (-> & H0). destruct Hc as [-> ->]; split_and!; try discriminate; by intros. }
  destruct (decide (c = COpen /\ to = ScheduledReturning)) as [[-> ->]|Hne].
  - destruct Hc as [-> [[? _]|[[_ ->]|[? _]]]]; try done. simpl in Hcn. subst ph. exists PBack. split; [|done]. apply (fate_table POpen PBack _ _ _ _ COpen); try done.
    + intros m c0 Hm0 Hne. by rewrite (others_none _ _ _ _ _ _ _ F Hn eq_refl Hm0) by done.
    + intros r Hr Hx. destruct (Hrows r Hr Hx) as [Hr0|Hst].
      * destruct (f_rows _ _ _ F r Hr0 Hx) as (H1 & H2 & H3 & H4 & H5). split_and!; try done. intros Hst. pose proof (waiting_in _ _ Hr0 Hx Hst). specialize (Hw0 eq_refl). lia.
      * rewrite Hst. split_and!; by intros.
    + by intros [?|?].
  - exists ph. split; [|done]. apply Hsame; [destruct c; try (by left); right; intros ->; by apply Hne|].
    destruct c; try (by right). left. destruct Hc as [-> [[-> ->]|[[-> ->]|[-> ->]]]]; try done. intros _. by apply Hne.
Qed.
Lemma call_move_other ph cs s n c id from to reason next clock hit t' : fate ph cs s -> cs !! n = Some c -> id <> x ->
  moveScheduledSend id from to reason next clock (sysTable s) = (hit, t') -> fate ph (<[n := c]> cs) (onTable t' s).
Proof.
  intros F Hn Hid Hm. destruct (move_effect _ _ _ _ _ _ _ _ _ (f_ids _ _ _ F) Hm) as (Hids & Hrows & _ & Hw). apply (fate_table ph ph _ _ _ _ c); try done.
  - rewrite Hids. apply F.
  - specialize (Hw ltac:(by left)). lia.
  - intros m c0 Hm0 Hne. by eapply same_cls.
  - by eapply own_cls.
  - intros r Hr Hx. destruct (Hrows r Hr) as [[Hr0 _]|(Hr0 & _)]; [by apply (f_rows _ _ _ F)|congruence].
Qed.
Lemma call_move_cancel ph cs s n reason next clock t' : fate ph cs s -> cs !! n = Some CNone -> moveScheduledSend x ScheduledWaiting ScheduledReturning reason next clock (sysTable s) = (true, t') ->
  fate PBack (<[n := CBack false]> cs) (onTable t' s) /\ ph = POpen.
Proof.
  intros F Hn Hm. destruct (move_effect _ _ _ _ _ _ _ _ _ (f_ids _ _ _ F) Hm) as (Hids & Hrows & Hhit & Hw). destruct (Hhit eq_refl) as (r0 & Hr0 & Hx0 & Hs0).
  assert (ph = POpen) as -> by (by apply (f_rows _ _ _ F r0)). split; [|done]. pose proof (waiting_in _ _ Hr0 Hx0 Hs0) as Hwt.
  apply (fate_table POpen PBack _ _ _ _ CNone); try done.
  - rewrite Hids. apply F.
  - simpl. specialize (Hw ltac:(right; discriminate)). lia.
  - intros m c0 Hm0 Hne. pose proof (same_cls _ _ _ _ _ _ F Hm0 Hne) as Hc0. assert (weight c0 = 0)%Z as H0.
    { pose proof (f_one _ _ _ F). pose proof (total_insert cs m c0 CNone Hm0) as Ht. pose proof (total_pos (<[m := CNone]> cs)). pose proof (weight_pos c0). simpl in Ht. lia. }
    destruct c0; simpl in *; try done; by destruct Hc0.
  - intros r Hr Hx. destruct (Hrows r Hr) as [[Hr1 Hnot]|(_ & Hst & _)].
    + destruct (f_rows _ _ _ F r Hr1 Hx) as (H1 & H2 & H3 & H4 & H5). split_and!; try done. intros Hst. by destruct Hnot.
    + rewrite Hst. split_and!; by intros.
  - by intros [?|?].
Qed.
Lemma onTable_id s : onTable (sysTable s) s = s.
Proof. by destruct s. Qed.
Lemma call_move ph cs s n c id from to reason next k w : fate ph cs s -> cs !! n = Some c -> ok c (Move id from to reason next k) ->
  advances ph cs n (perform w (Move id from to reason next k) s).1 (perform w (Move id from to reason next k) s).2.
Proof.
  intros F Hn Hok. cbn [ok] in Hok. unfold perform. destruct (decide (id = x)) as [->|Hid].
  - destruct Hok as [(c' & Hc & Hk)|(-> & -> & -> & Hk1 & Hk2 & Hk3)].
    + destruct (rpUp w); [destruct (moveScheduledSend _ _ _ _ _ _ _) as [hit t'] eqn:E; destruct (move_effect _ _ _ _ _ _ _ _ _ (f_ids _ _ _ F) E) as (Hids & Hrows & _ & Hw)|]; simpl.
      * destruct (call_move_own ph cs s n c c' from to t' F Hn Hc Hids) as (ph' & F' & Hph); [|intros; apply Hw; by right|by exists ph', c'].
        intros r Hr _. destruct (Hrows r Hr) as [[? _]|(_ & ? & _)]; [by left|by right].
      * destruct (call_move_own ph cs s n c c' from to (sysTable s) F Hn Hc) as (ph' & F' & Hph); [done|by left|done|]. rewrite onTable_id in F'. by exists ph', c'.
    + destruct (rpUp w); [|by eapply call_stay]. destruct (moveScheduledSend _ _ _ _ _ _ _) as [[] t'] eqn:E; simpl.
      * destruct (call_move_cancel _ _ _ _ _ _ _ _ F Hn E) as [F' ->]. by exists PBack, (CBack false).
      * apply move_none in E as ->; [|apply F]. rewrite onTable_id. by eapply call_stay.
  - destruct (rpUp w); [|eapply call_stay; eauto; apply Hok]. destruct (moveScheduledSend _ _ _ _ _ _ _) as [hit t'] eqn:E; simpl. exists ph, c. split; [apply Hok|]. split; [|done]. by eapply call_move_other.
Qed.
(** A call that adds to what left the server nothing of [x]. *)
Lemma fate_other ph cs s s' n c : fate ph cs s -> cs !! n = Some c -> sysTable s' = sysTable s -> (x ∈ sysDrafts s' <-> x ∈ sysDrafts s) -> (forall i, (x, i) ∈ sysSent s' <-> (x, i) ∈ sysSent s) ->
  (x ∈ sysQueued s' <-> x ∈ sysQueued s) -> List.filter ofX (sysSent s') = List.filter ofX (sysSent s) -> List.filter (fun id => id =s? x) (sysQueued s') = List.filter (fun id => id =s? x) (sysQueued s) -> fate ph (<[n := c]> cs) s'.
Proof.
  intros F Hn Ht Hd Hs Hq Hfs Hfq. assert (forall c0, clsOk ph s c0 -> clsOk ph s' c0) as Hcls by (intros []; simpl; rewrite ?Hd, ?Hs, ?Hq; try done; intros (? & ? & Hi); split_and!; [done|done|]; intros i Hin; by apply Hi, Hs).
  apply (fate_thread ph ph cs s s' n c c F Hn); rewrite ?Ht, ?Hfs, ?Hfq; try apply F; try lia.
  - intros m c0 Hm Hne. by eapply Hcls, same_cls.
  - by eapply Hcls, own_cls.
  - intros r Hr Hx. destruct (f_rows _ _ _ F r Hr Hx) as (H1 & H2 & H3 & H4 & H5). unfold rowOk. by rewrite Hd, Hs, Hq.
  - rewrite Hd. apply F.
  - intros i. rewrite Hs. apply F.
  - rewrite Hq. apply F.
Qed.
(** Of a message one program may send, no row waits or returns. *)
Lemma sender_rows cs s n c r : fate POpen cs s -> cs !! n = Some c -> weight c = 1%Z -> r ∈ sysTable s -> schID r = x -> schStatus r <> ScheduledWaiting /\ schStatus r <> ScheduledReturning.
Proof.
  intros F Hn Hw Hr Hx. split; intros Hs; [|by destruct (f_rows _ _ _ F r Hr Hx) as (_ & H & _); specialize (H Hs)].
  pose proof (waiting_in _ _ Hr Hx Hs). pose proof (f_one _ _ _ F). pose proof (total_insert cs n c CNone Hn). pose proof (total_pos (<[n := CNone]> cs)). simpl in *. lia.
Qed.
(** The first thing of [x] to leave. *)
Lemma fate_leaves cs s s' n c' : fate POpen cs s -> cs !! n = Some COpen -> sysTable s' = sysTable s -> sysDrafts s' = sysDrafts s -> weight c' = 1%Z -> clsOk PSent s' c' ->
  (forall i, (x, i) ∈ sysSent s -> (x, i) ∈ sysSent s') -> (x ∈ sysQueued s -> x ∈ sysQueued s') -> NoDup (List.filter ofX (sysSent s')) -> NoDup (List.filter (fun id => id =s? x) (sysQueued s')) -> fate PSent (<[n := c']> cs) s'.
Proof.
  intros F Hn Ht Hd Hw Hc Hs Hq Hns Hnq. apply (fate_thread POpen PSent cs s s' n COpen c' F Hn); rewrite ?Ht, ?Hd; try done; try apply F.
  - rewrite Hw. simpl. lia.
  - intros m c0 Hm Hne. by rewrite (others_none _ _ _ _ _ _ _ F Hn eq_refl Hm) by done.
  - intros r Hr Hx. destruct (sender_rows _ _ _ _ _ F Hn eq_refl Hr Hx). destruct (f_rows _ _ _ F r Hr Hx) as (_ & _ & H3 & H4 & H5). split_and!; intros; try done; rewrite ?Hd; auto.
  - intros H. by apply (f_drafts _ _ _ F) in H.
Qed.
Lemma none_sent cs s : fate POpen cs s -> List.filter ofX (sysSent s) = [].
Proof. intros F. apply filter_none. intros [y i] Hin. unfold ofX. apply bool_decide_false. simpl. intros ->. by apply (f_sent _ _ _ F) in Hin. Qed.
Lemma none_queued cs s : fate POpen cs s -> List.filter (fun id => id =s? x) (sysQueued s) = [].
Proof. intros F. apply filter_none. intros y Hin. apply bool_decide_false. intros ->. by apply (f_queued _ _ _ F) in Hin. Qed.
Lemma call_queue ph cs s n c m id j k w : rpQueue w <> QueueUnconfirmed -> fate ph cs s -> cs !! n = Some c -> ok c (Queue m id j k) -> advances ph cs n (perform w (Queue m id j k) s).1 (perform w (Queue m id j k) s).2.
Proof.
  intros Hw F Hn Hok. cbn [ok] in Hok. unfold perform. cbn [fst snd]. destruct (decide (id = x)) as [->|Hid].
  - destruct Hok as [-> Hk]. specialize (Hk (rpQueue w)). destruct (rpQueue w); try by eapply call_stay. pose proof (own_cls _ _ _ _ _ F Hn) as Hph. simpl in Hph. subst ph. exists PSent, CQueued. split; [done|]. split; [|done].
    eapply fate_leaves; eauto; simpl; [split; [done|left]|by right|by rewrite (none_sent _ _ F); constructor|]. rewrite bool_decide_true, (none_queued _ _ F) by done. apply NoDup_singleton.
  - specialize (Hok (rpQueue w)). destruct (rpQueue w); try by eapply call_stay. exists ph, c. split; [done|]. split; [|done]. eapply fate_other; eauto; simpl; [|by rewrite bool_decide_false by done]. set_solver.
Qed.
Lemma call_relay ph cs s n c id i d k w : fate ph cs s -> cs !! n = Some c -> ok c (Relay id i d k) -> advances ph cs n (perform w (Relay id i d k) s).1 (perform w (Relay id i d k) s).2.
Proof.
  intros F Hn Hok. cbn [ok] in Hok. unfold perform. cbn [fst snd]. pose proof (own_cls _ _ _ _ _ F Hn) as Hph. destruct (decide (id = x)) as [->|Hid].
  - destruct c; try done.
    + destruct Hok as [-> Hk]. specialize (Hk (rpRelay w)). simpl in Hph. subst ph. destruct (mayHaveArrived (rpRelay w)); [|by eapply call_stay]. exists PSent, (CSent 1). split; [done|]. split; [|done].
      eapply fate_leaves; eauto; simpl; [|by right| |by rewrite (none_queued _ _ F); constructor].
      * split_and!; [done|left|]. intros i [[= ->]|Hi%(f_sent _ _ _ F)]%elem_of_cons; [lia|done].
      * unfold ofX at 1. simpl. rewrite bool_decide_true by done. rewrite (none_sent _ _ F). apply NoDup_singleton.
    + destruct Hok as (Hi & Hpos & Hk). specialize (Hk (rpRelay w)). destruct Hph as (-> & H0 & Hlt). exists PSent, (CSent (S i)). split; [done|]. split; [|done]. destruct (mayHaveArrived (rpRelay w)).
      * apply (fate_thread PSent PSent cs s _ n (CSent n0) _ F Hn); simpl; try apply F; try done.
        -- intros m c0 Hm Hne. by rewrite (others_none _ _ _ _ _ _ _ F Hn eq_refl Hm) by done.
        -- split_and!; [done|by right|]. intros i' [[= ->]|Hi'%Hlt]%elem_of_cons; lia.
        -- intros r Hr Hx. destruct (f_rows _ _ _ F r Hr Hx) as (H1 & H2 & H3 & H4 & H5). split_and!; try done. intros. right. auto.
        -- unfold ofX at 1. simpl. rewrite bool_decide_true by done. constructor; [|apply F]. intros Hin. apply list_elem_of_In, filter_In in Hin as [Hin%list_elem_of_In _]. apply Hlt in Hin. lia.
      * eapply fate_stay; eauto; simpl; [|lia]. split_and!; [done|done|]. intros i' Hi'%Hlt. lia.
  - specialize (Hok (rpRelay w)). destruct (mayHaveArrived _); [|by eapply call_stay]. exists ph, c. split; [done|]. split; [|done]. apply (fate_other ph cs s _ n c F Hn); simpl; try done; [set_solver|unfold ofX at 1; simpl; by rewrite bool_decide_false by done].
Qed.
Lemma call_draft ph cs s n c id d k w : fate ph cs s -> cs !! n = Some c -> ok c (SaveDraft id d k) -> advances ph cs n (perform w (SaveDraft id d k) s).1 (perform w (SaveDraft id d k) s).2.
Proof.
  intros F Hn Hok. cbn [ok] in Hok. unfold perform. cbn [fst snd]. pose proof (own_cls _ _ _ _ _ F Hn) as Hph. destruct (decide (id = x)) as [->|Hid].
  - destruct Hok as (b & -> & Hk1 & Hk2). destruct Hph as [-> Hsv]. destruct (rpSaved w); [|by eapply call_stay]. exists PBack, (CBack true). split; [done|]. split; [|done].
    apply (fate_thread PBack PBack cs s _ n (CBack b) _ F Hn); simpl; try apply F; try done.
    + intros m c0 Hm Hne. pose proof (same_cls _ _ _ _ _ _ F Hm Hne) as H0. destruct c0; simpl in *; try done. destruct H0 as [_ H0]. split; [done|]. intros. by left.
    + split; [done|]. by left.
    + intros r Hr Hx. destruct (f_rows _ _ _ F r Hr Hx) as (H1 & H2 & H3 & H4 & H5). split_and!; try done. intros. by left.
  - specialize (Hok (rpSaved w)). destruct (rpSaved w); [|by eapply call_stay]. exists ph, c. split; [done|]. split; [|done]. apply (fate_other ph cs s _ n c F Hn); simpl; try done. set_solver.
Qed.
Lemma returns_rows now t r : r ∈ scheduledReturns now t -> r ∈ t /\ schStatus r = ScheduledReturning.
Proof.
  unfold scheduledReturns. intros Hr. apply elem_of_take in Hr as (i & Hi & _). apply list_elem_of_lookup_2 in Hi. assert (forall seen rows, r ∈ onePerUser seen rows -> r ∈ rows) as Hone.
  { intros seen rows. revert seen. induction rows as [|r0 rows IH]; intros seen; simpl; [done|]. case_bool_decide; [intros ?%IH; by right|]. rewrite !elem_of_cons. intros [?|?%IH]; auto. }
  apply Hone in Hi. apply list_elem_of_In, filter_In in Hi as [Hi _]. unfold dueReturns in Hi. apply filter_In in Hi as [Hi Hc]. to_prop. by apply list_elem_of_In in Hi.
Qed.
Lemma call_returns ph cs s n c now k w : fate ph cs s -> cs !! n = Some c -> ok c (Returns now k) -> advances ph cs n (perform w (Returns now k) s).1 (perform w (Returns now k) s).2.
Proof.
  intros F Hn (-> & Hk). unfold perform. cbn [fst snd]. specialize (Hk (if rpUp w then Some (scheduledReturns now (sysTable s)) else None)). destruct (rpUp w); [|by eapply call_stay]. case_bool_decide as Hin; [|by eapply call_stay].
  apply list_elem_of_fmap in Hin as (r & Hx & [Hr Hst]%returns_rows). exists ph, (CBack false). split; [done|]. split; [|done]. eapply fate_stay; eauto; [|simpl; lia]. split; [|done]. destruct (f_rows _ _ _ F r Hr (eq_sym Hx)) as (_ & H & _). by apply H.
Qed.
Lemma call_any {L : SortSliceLaws} ph cs s n c p w : rpQueue w <> QueueUnconfirmed -> fate ph cs s -> cs !! n = Some c -> ok c p -> advances ph cs n (perform w p s).1 (perform w p s).2.
Proof.
  intros Hw F Hn Hok. destruct p.
  - by eapply call_stay.
  - eapply call_stay; eauto. apply Hok.
  - pose proof Hok as [-> _]. by eapply call_claim.
  - by eapply call_move.
  - eapply call_stay; eauto. apply Hok.
  - by eapply call_returns.
  - eapply call_stay; eauto. apply Hok.
  - eapply call_stay; eauto. apply Hok.
  - eapply call_stay; eauto. apply Hok.
  - unfold perform. destruct (rpQuota w) as [[h d]|]; [|eapply call_stay; eauto; apply Hok]. destruct (admitSend _ _ _ _ _ _ _ _) as [a l]. exists ph, c. split; [apply Hok|]. split; [|done]. by apply (fate_other ph cs s _ n c F Hn).
  - by eapply call_queue.
  - eapply call_stay; eauto. apply Hok.
  - eapply call_stay; eauto. apply Hok.
  - by eapply call_relay.
  - eapply call_stay; eauto. apply Hok.
  - by eapply call_draft.
Qed.

(** ** Events *)

Lemma fate_rows ph ph' cs s t : fate ph cs s -> NoDup (schID <$> t) -> (total cs + waiting x t <= 1)%Z -> Forall (clsOk ph' s) cs ->
  (forall r, r ∈ t -> schID r = x -> rowOk ph' s (schStatus r)) -> (ph <> PNone -> ph' = ph) -> fate ph' cs (onTable t s).
Proof.
  intros F Hids Hw Hc Hr Hph. constructor; simpl; try done; try apply F.
  - intros H. pose proof (f_drafts _ _ _ F H) as H0. rewrite Hph; [done|by rewrite H0].
  - intros i H. pose proof (f_sent _ _ _ F i H) as H0. rewrite Hph; [done|by rewrite H0].
  - intros H. pose proof (f_queued _ _ _ F H) as H0. rewrite Hph; [done|by rewrite H0].
Qed.
Lemma fate_spawn ph cs s : fate ph cs s -> fate ph (cs ++ [CNone]) s.
Proof.
  intros F. constructor; try apply F.
  - enough (total (cs ++ [CNone]) = total cs) as -> by apply F. clear. induction cs as [|c cs IH]; simpl; lia.
  - apply Forall_app. split; [apply F|]. by constructor.
Qed.
Lemma fate_forget ph cs s : fate ph cs s -> fate ph [] s.
Proof. intros F. constructor; try apply F; [|constructor]. pose proof (f_one _ _ _ F). pose proof (total_pos cs). simpl. lia. Qed.
Lemma none_total s cs : Forall (clsOk PNone s) cs -> total cs = 0%Z /\ Forall (clsOk POpen s) cs.
Proof.
  induction 1 as [|c cs Hc Hcs [IH1 IH2]]; simpl; [by split|]. rewrite IH1. destruct c; simpl in Hc; try done; [by split; [|constructor]|by destruct Hc..].
Qed.
Lemma waiting_none t : x ∉ schID <$> t -> waiting x t = 0%Z.
Proof.
  intros Hx. unfold waiting. rewrite filter_none; [done|]. intros r Hr. rewrite bool_decide_false; [done|]. intros He. apply Hx. rewrite <- He. apply list_elem_of_fmap. eauto.
Qed.
Lemma fate_schedule ph cs s r : fate ph cs s -> (schID r = x -> ph = PNone) -> exists ph', fate ph' cs (onTable (addScheduledSend r maxScheduledPending scheduledMaxUserBytes (sysTable s)).2 s) /\ (schID r <> x -> ph' = ph).
Proof.
  intros F Hfresh. unfold addScheduledSend. destruct (_ && _); [|exists ph; simpl; by rewrite onTable_id]. destruct (existsb _ _) eqn:E; [exists ph; simpl; by rewrite onTable_id|]. simpl.
  assert (schID r ∉ schID <$> sysTable s) as Hnew.
  { intros (r0 & He & Hr0)%list_elem_of_fmap. apply not_true_iff_false in E. apply E, existsb_exists. exists r0. split; [by apply list_elem_of_In|]. by rewrite bool_decide_true. }
  set (row := mkSched _ _ _ _ _ _ _ _ _ _ _). assert (NoDup (schID <$> sysTable s ++ [row])) as Hids.
  { rewrite fmap_app. apply NoDup_app. split; [apply F|]. split; [|apply NoDup_singleton]. intros y Hy ->%list_elem_of_singleton. by apply Hnew. }
  destruct (decide (schID r = x)) as [Hx|Hx].
  - rewrite (Hfresh Hx) in *. destruct (none_total _ _ (f_cls _ _ _ F)) as [H0 Hc]. exists POpen. split; [|done]. apply (fate_rows PNone); try done.
    + rewrite H0, waiting_app, waiting_none by (by rewrite <- Hx). unfold waiting, row. simpl. rewrite !bool_decide_true by done. done.
    + intros r0 [Hr0| ->%list_elem_of_singleton]%elem_of_app Hx0; [|by split_and!]. destruct Hnew. rewrite Hx, <- Hx0. apply list_elem_of_fmap. eauto.
  - exists ph. split; [|done]. apply (fate_rows ph); try done; [|apply F|].
    + rewrite waiting_app. unfold waiting at 2, row. simpl. rewrite bool_decide_false by done. simpl. pose proof (f_one _ _ _ F). lia.
    + intros r0 [Hr0| ->%list_elem_of_singleton]%elem_of_app Hx0; [by apply (f_rows _ _ _ F)|done].
Qed.
Lemma fate_prune ph cs s before : fate ph cs s -> fate ph cs (onTable (pruneScheduledSends before (sysTable s)) s).
Proof.
  intros F. unfold pruneScheduledSends. apply (fate_rows ph); try done; [| |apply F|].
  - pose proof (f_ids _ _ _ F) as H. revert H. generalize (sysTable s) as t. clear. induction t as [|r t IH]; csimpl; [done|]. intros [Hr Hn]%NoDup_cons. destruct (negb _); csimpl; [|by apply IH]. apply NoDup_cons. split; [|by apply IH].
    intros (r0 & He & Hr0)%list_elem_of_fmap. apply list_elem_of_In, filter_In in Hr0 as [Hr0 _]. apply Hr. rewrite He. apply list_elem_of_fmap. exists r0. by rewrite list_elem_of_In.
  - pose proof (f_one _ _ _ F) as H1. enough (waiting x (pruneScheduledSends before (sysTable s)) <= waiting x (sysTable s))%Z as H2 by (unfold pruneScheduledSends in H2; lia). clear. unfold waiting, pruneScheduledSends.
    induction (sysTable s) as [|r t IH]; simpl; [lia|]. destruct (negb _); simpl; destruct (_ && _); simpl; lia.
  - intros r Hr Hx. apply list_elem_of_In, filter_In in Hr as [Hr _]. by apply (f_rows _ _ _ F); [apply list_elem_of_In|].
Qed.
Lemma fate_interrupt ph cs s : fate ph cs s -> fate ph cs (onTable (interruptScheduledSends (sysTable s)) s).
Proof.
  intros F. unfold interruptScheduledSends. apply (fate_rows ph); try done; [| |apply F|].
  - rewrite <- list_fmap_compose. rewrite (list_fmap_ext _ schID) by (intros i r _; simpl; unfold interrupted; by destruct (_ =s? _)). apply F.
  - pose proof (f_one _ _ _ F). enough (waiting x (interrupted <$> sysTable s) <= waiting x (sysTable s))%Z by lia. apply waiting_fmap. intros r. unfold interrupted. destruct (_ =s? _); split; done.
  - intros r (r0 & -> & Hr0)%list_elem_of_fmap Hx. unfold interrupted in *. destruct (schStatus r0 =s? ScheduledSending); [by split_and!|]. by apply (f_rows _ _ _ F).
Qed.

(** ** Histories *)

Definition eventIds (e : event) : list gostr := match e with Schedule r => [schID r] | _ => [] end.
Definition serverEvent (e : event) : Prop :=
  match e with
  | Start p => p = claimScheduled openSealed sum warningText \/ (exists i, p = saveReturn openSealed i) \/ (exists user mailbox id, p = handleScheduledCancel openSealed user mailbox id)
  | Call _ w => rpQueue w <> QueueUnconfirmed
  | _ => True
  end.
Definition accounted (ever : list gostr) (wd : world) : Prop := exists ph cs, Forall2 ok cs wd.1 /\ fate ph cs wd.2 /\ (x ∉ ever -> ph = PNone).
Lemma accounted_step {L : SortSliceLaws} e ever wd : serverEvent e -> (forall id, id ∈ eventIds e -> id ∉ ever) -> accounted ever wd -> accounted (ever ++ eventIds e) (happen e wd).
Proof using sealsDeliveries.
  intros He Hfresh (ph & cs & Hok & F & Hph). destruct wd as [ps s]. simpl in *. assert (x ∉ ever ++ eventIds e -> ph = PNone) as Hph' by (intros H; apply Hph; set_solver). destruct e as [p|n w|r|before|recovered]; simpl in *.
  - exists ph, (cs ++ [CNone]). split_and!; [|by apply fate_spawn|done]. apply Forall2_app; [done|]. constructor; [|constructor].
    destruct He as [-> |[[i ->]|(u & m & id & ->)]]; [apply ok_claim|apply ok_saveReturn|apply ok_cancelled].
  - destruct (ps !! n) as [p|] eqn:Ep; [|by exists ph, cs]. destruct (Forall2_lookup_r _ _ _ _ _ Hok Ep) as (c & Hn & Hp). destruct (call_any ph cs s n c p w He F Hn Hp) as (ph' & c' & Hp' & F' & Hk).
    destruct (perform w p s) as [p' s']. exists ph', (<[n := c']> cs). split_and!; [by apply Forall2_insert|done|auto].
  - destruct (fate_schedule ph cs s r F) as (ph' & F' & Hk); [intros <-; apply Hph, Hfresh; left|]. exists ph', cs. split_and!; [done|done|]. intros H. rewrite Hk; [auto|]. set_solver.
  - exists ph, cs. split_and!; [done|by apply fate_prune|done].
  - exists ph, []. split_and!; [constructor| |done]. apply fate_forget in F. destruct recovered; [by apply fate_interrupt|done].
Qed.
Lemma accounted_history {L : SortSliceLaws} es : NoDup (es ≫= eventIds) -> Forall serverEvent es -> accounted (es ≫= eventIds) (history es).
Proof using sealsDeliveries.
  induction es as [|e es IH] using rev_ind; intros Hn Hs.
  - exists PNone, []. split_and!; [constructor| |done]. constructor; simpl; try apply NoDup_nil_2; try done; try constructor; intros; set_solver.
  - rewrite bind_app in *. apply Forall_app in Hs as [Hs He]. apply Forall_inv in He. unfold history. rewrite foldl_app. simpl. rewrite app_nil_r in *. apply NoDup_app in Hn as (Hn & Hd & _). apply accounted_step; [done| |by apply IH]. intros id Hi Hi'. apply (Hd id Hi'). simpl. by rewrite app_nil_r.
Qed.
End Typing.
Lemma NoDup_by_key (l : list (gostr * nat)) : (forall x, NoDup (List.filter (ofX x) l)) -> NoDup l.
Proof.
  induction l as [|[y i] l IH]; intros H; constructor.
  - intros Hin. specialize (H y). cbn [List.filter] in H. unfold ofX at 1 in H. simpl in H. rewrite bool_decide_true in H by done. apply NoDup_cons in H as [H _]. apply H. apply list_elem_of_In, filter_In. split; [by apply list_elem_of_In|]. unfold ofX. by rewrite bool_decide_true.
  - apply IH. intros x. specialize (H x). cbn [List.filter] in H. destruct (ofX x (y, i)); [by apply NoDup_cons in H as [_ H]|done].
Qed.
Lemma NoDup_by_id (l : list gostr) : (forall x, NoDup (List.filter (fun id => id =s? x) l)) -> NoDup l.
Proof.
  induction l as [|y l IH]; intros H; constructor.
  - intros Hin. specialize (H y). cbn [List.filter] in H. rewrite bool_decide_true in H by done. apply NoDup_cons in H as [H _]. apply H. apply list_elem_of_In, filter_In. split; [by apply list_elem_of_In|]. by rewrite bool_decide_true.
  - apply IH. intros x. specialize (H x). cbn [List.filter] in H. destruct (y =s? x); [by apply NoDup_cons in H as [_ H]|done].
Qed.

(** What may be read off a row: a message still waiting or on its way back has
    not gone out, one shown as sent, queued or returned has. *)
Definition truthful (s : system) (r : sched) : Prop :=
  (schStatus r = ScheduledWaiting \/ schStatus r = ScheduledReturning -> (forall i, (schID r, i) ∉ sysSent s) /\ schID r ∉ sysQueued s) /\
  (schStatus r = $"sent" -> (schID r, 0) ∈ sysSent s) /\ (schStatus r = $"queued" -> schID r ∈ sysQueued s) /\ (schStatus r = $"returned" -> schID r ∈ sysDrafts s).

(** (C8) Whatever workers, sweeps and cancellations run at once, one call at a
    time in any order, with whatever answers of the relay, the database and the
    account store, and wherever the process stops, as long as the outbox answers
    an error only for what it did not take: no copy of a
    scheduled message leaves twice, no message that left (or may have) is given
    back to Drafts, and the status of a row is true. *)
Theorem scheduled_sent_or_returned {L : SortSliceLaws} es :
  (forall b j, openSealed b = Some j -> ojDeliveries (sjJob j) <> []) -> NoDup (es ≫= eventIds) -> Forall serverEvent es ->
  let s := (history es).2 in
  NoDup (sysSent s) /\ NoDup (sysQueued s) /\ (forall id, id ∈ sysDrafts s -> id ∉ sysQueued s /\ forall i, (id, i) ∉ sysSent s) /\ Forall (truthful s) (sysTable s).
Proof.
  intros Hd Hn Hs s. assert (forall x, exists ph cs, fate x ph cs s) as Hf. { intros x. destruct (accounted_history x Hd es Hn Hs) as (ph & cs & _ & F & _). eauto. }
  split_and!.
  - apply NoDup_by_key. intros x. destruct (Hf x) as (? & ? & F). apply F.
  - apply NoDup_by_id. intros x. destruct (Hf x) as (? & ? & F). apply F.
  - intros x Hx. destruct (Hf x) as (ph & ? & F). pose proof (f_drafts _ _ _ _ F Hx) as ->. split; [intros H; by apply (f_queued _ _ _ _ F) in H|intros i H; by apply (f_sent _ _ _ _ F) in H].
  - apply Forall_forall. intros r Hr. destruct (Hf (schID r)) as (ph & ? & F). destruct (f_rows _ _ _ _ F r Hr eq_refl) as (H1 & H2 & H3). split; [|done].
    intros Hst. assert (ph <> PSent) as Hne by (destruct Hst as [Hst|Hst]; [rewrite (H1 Hst)|rewrite (H2 Hst)]; done). split; [intros i Hi; by apply Hne, (f_sent _ _ _ _ F i)|intros Hi; by apply Hne, (f_queued _ _ _ _ F)].
Qed.

(** ** A claimed row, worked alone *)

Section Alone.
Context (x : gostr).
(** [calm]: the program never takes a row into sending.  [leaves]: on every path
    it takes [x] out of sending. *)
Fixpoint calm (p : prog) : Prop :=
  match p with
  | Stop => True
  | Claim _ _ => False
  | Move _ _ to _ _ k => to <> ScheduledSending /\ forall b, calm (k b)
  | Now k => forall a, calm (k a)
  | Get _ k => forall a, calm (k a)
  | Returns _ k => forall a, calm (k a)
  | AskUser _ k => forall a, calm (k a)
  | AskDevice _ _ k => forall a, calm (k a)
  | Charge _ _ _ _ k => forall a, calm (k a)
  | Queue _ _ _ k => forall a, calm (k a)
  | AskSmtp _ k => forall a, calm (k a)
  | Relay _ _ _ k => forall a, calm (k a)
  | Key k | Prepare _ k | SaveSent _ k | SaveDraft _ _ k => forall a, calm (k a)
  end.
Fixpoint leaves (p : prog) : Prop :=
  match p with
  | Stop | Claim _ _ => False
  | Move id from to _ _ k => to <> ScheduledSending /\ ((id = x /\ from = ScheduledSending /\ forall b, calm (k b)) \/ forall b, leaves (k b))
  | Now k => forall a, leaves (k a)
  | Get _ k => forall a, leaves (k a)
  | Returns _ k => forall a, leaves (k a)
  | AskUser _ k => forall a, leaves (k a)
  | AskDevice _ _ k => forall a, leaves (k a)
  | Charge _ _ _ _ k => forall a, leaves (k a)
  | Queue _ _ _ k => forall a, leaves (k a)
  | AskSmtp _ k => forall a, leaves (k a)
  | Relay _ _ _ k => forall a, leaves (k a)
  | Key k | Prepare _ k | SaveSent _ k | SaveDraft _ _ k => forall a, leaves (k a)
  end.
Definition stuck (s : system) : Prop := exists r, r ∈ sysTable s /\ schID r = x /\ schStatus r = ScheduledSending.
Lemma move_stuck from to reason next id clock s : to <> ScheduledSending -> stuck (onTable (moveScheduledSend id from to reason next clock (sysTable s)).2 s) -> stuck s /\ ~ (id = x /\ from = ScheduledSending).
Proof.
  intros Hto (r & Hr & Hx & Hs). simpl in Hr. apply list_elem_of_fmap in Hr as (r0 & -> & Hr0). destruct ((schID r0 =s? id) && (schStatus r0 =s? from)) eqn:E; [done|].
  split; [by exists r0|]. intros [-> ->]. by rewrite !bool_decide_true in E by done.
Qed.
Lemma perform_calm w p s : calm p -> calm (perform w p s).1 /\ (stuck (perform w p s).2 -> stuck s).
Proof.
  destruct p; simpl; intros Hp; try done; try (by split; [apply Hp|]); try (by split; [apply Hp|]; repeat case_match).
  - destruct Hp as [Hto Hk]. destruct (rpUp w); simpl; (split; [apply Hk|]); [|done]. by intros [? _]%move_stuck.
  - destruct (rpQuota w) as [[h d]|]; [destruct (admitSend _ _ _ _ _ _ _ _)|]; simpl; (split; [apply Hp|done]).
Qed.
Lemma perform_leaves w p s : leaves p -> rpUp w = true -> leaves (perform w p s).1 \/ (calm (perform w p s).1 /\ ~ stuck (perform w p s).2).
Proof.
  destruct p; simpl; intros Hp Hw; try done; try (by left); rewrite ?Hw.
  - destruct Hp as [Hto [(-> & -> & Hk)|Hk]]; [right; split; [apply Hk|]|left; apply Hk]. intros [_ H]%move_stuck; [by apply H|done].
  - left. destruct (rpQuota w) as [[h d]|]; [destruct (admitSend _ _ _ _ _ _ _ _)|]; apply Hp.
Qed.
Lemma alone_calm n : forall ws p s, calm p -> ~ stuck s -> ~ stuck (alone n ws p s).2.
Proof.
  induction n as [|n IH]; intros ws p s Hp Hs; simpl; [done|]. pose proof (perform_calm (ws 0) p s Hp) as [H1 H2]. destruct (perform (ws 0) p s) as [p' s']. apply IH; [done|]. auto.
Qed.
Lemma alone_leaves n : forall ws p s, leaves p -> (forall i, rpUp (ws i) = true) -> (alone n ws p s).1 = Stop -> ~ stuck (alone n ws p s).2.
Proof.
  induction n as [|n IH]; intros ws p s Hp Hw Hstop; simpl in *; [by rewrite Hstop in Hp|]. pose proof (perform_leaves (ws 0) p s Hp (Hw 0)) as Hl. destruct (perform (ws 0) p s) as [p' s']. destruct Hl as [Hl|[Hc Hs]]; [by apply IH|by apply alone_calm].
Qed.
Lemma alone_stops p : forall ws s, exists n, (alone n ws p s).1 = Stop.
Proof.
  induction p; intros ws s; [by exists 0|..];
    match goal with |- exists n, (alone n ws ?p s).1 = Stop =>
      destruct (perform (ws 0) p s) as [p' s'] eqn:E; enough (exists n, (alone n (fun i => ws (S i)) p' s').1 = Stop) as [n Hn] by (exists (S n); cbn [alone]; by rewrite E) end.
  all: simpl in E; repeat case_match; simplify_eq/=; eauto.
Qed.
Ltac leaf_step :=
  match goal with
  | |- forall _, _ => intros ?; cbv beta
  | |- calm Stop => exact I
  | |- _ <> ScheduledSending => discriminate
  | |- _ (if ?b then _ else _) => destruct b
  | |- _ (match ?b with _ => _ end) => destruct b
  | |- _ /\ _ => split
  | |- True => exact I
  | |- calm _ => progress cbn [calm]
  | |- leaves _ => progress cbn [leaves]
  end.
Lemma calm_save row : calm (saveScheduledDraft openSealed row (fun _ => Stop)).
Proof. unfold saveScheduledDraft. cbv zeta. destruct (openScheduledRow openSealed row); repeat leaf_step. Qed.
Lemma leaves_rest id ds : forall i failed k, (forall f, leaves (k f)) -> leaves (relayRest id i ds failed k).
Proof. induction ds as [|d ds IH]; intros i failed k Hk; cbn [relayRest leaves]; [apply Hk|]. intros a. by apply IH. Qed.
Lemma leaves_deliver id ds withSent k : (forall r, leaves (k r)) -> leaves (deliverIMAP id ds withSent k).
Proof.
  intros Hk. unfold deliverIMAP. cbv zeta. destruct ds as [|d ds]; [destruct withSent; [intros ?|]; apply Hk|]. cbn [leaves]. intros ans. destruct (relayed ans); [|apply Hk]. apply leaves_rest. intros f. destruct withSent; [intros ?|]; apply Hk.
Qed.
Lemma leaves_dispatch j k : (forall r, r.1 <> ScheduledSending -> leaves (k r)) -> leaves (dispatchScheduled sum warningText j k).
Proof.
  intros Hk. assert (forall next reason, next <> ScheduledSending -> leaves (k (next, reason))) as Hn by (intros; by apply Hk).
  unfold dispatchScheduled, scheduledAuthority. cbv zeta. repeat leaf_step; try (by apply Hn); apply leaves_deliver; intros r; repeat leaf_step; by apply Hn.
Qed.
Lemma leaves_run row : schID row = x -> leaves (runScheduled openSealed sum warningText row).
Proof.
  intros Hx. unfold runScheduled. cbv zeta.
  assert (forall to reason next k, to <> ScheduledSending -> (forall b, calm (k b)) -> leaves (Move (schID row) ScheduledSending to reason next k)) as Hm by (intros; cbn [leaves]; split; [done|by left]).
  destruct (openScheduledRow openSealed row) as [j|]; [|by apply Hm].
  assert (forall to reason r, to <> ScheduledSending -> leaves (Move (schID row) ScheduledSending to reason 0 (fun _ => if to =s? ScheduledReturning then saveScheduledDraft openSealed (withReason r row) (fun _ => Stop) else Stop))) as Hfin by (intros; apply Hm; [done|intros _; case_match; [apply calm_save|exact I]]).
  cbn [leaves]. intros t. destruct (_ <? t)%Z; [by apply Hfin|]. apply leaves_dispatch. intros [next reason] Hnext. cbv beta iota. case_bool_decide; [|by apply Hfin]. cbn [leaves]. intros t'. destruct (_ <? _)%Z; [by apply Hm|by apply Hfin].
Qed.
End Alone.

(** (C38) A worker whose database answers settles the row it claimed: whatever
    else fails, it comes to an end, and the row is no longer in sending, so the
    user's next message may be claimed. *)
Theorem claimed_row_leaves_sending row ws s : (forall i, rpUp (ws i) = true) ->
  exists n, (alone n ws (runScheduled openSealed sum warningText row) s).1 = Stop /\
    Forall (fun r => schID r = schID row -> schStatus r <> ScheduledSending) (sysTable (alone n ws (runScheduled openSealed sum warningText row) s).2).
Proof.
  intros Hw. destruct (alone_stops (runScheduled openSealed sum warningText row) ws s) as [n Hn]. exists n. split; [done|]. apply Forall_forall. intros r Hr Hx Hs.
  apply (alone_leaves (schID row) n ws (runScheduled openSealed sum warningText row) s (leaves_run _ row eq_refl) Hw Hn). by exists r.
Qed.
End Worker.
