(* ===== verification/MailboxWitness.v ===== *)
(** * MailboxWitness: the mail store on concrete runs

    Toy libraries (a message is its bytes, its sender is fixed, the hash is the
    text cut to 32 bytes), one delivery redelivered after its message moved and
    was deleted, one message encrypted in place, one folder deleted into its parent, one
    feed followed across calls; and scheduled mail of two users, sent and cancelled
    around a restart. *)

From stdpp Require Import gmap.
From S2P Require Import Prelude GoText GoCodec SendAs MailboxModel Mailbox MailboxIncoming Outbox MailboxRun MailboxInvariant MailboxFeed.
From S2P Require Import MailboxHistory OutboxDelivery OutboxDurable.
From S2P Require Import UsersModel StateTables ScheduledSends Transaction AccountState ScheduledWorker ScheduledWorkerTheorems.

#[local] Instance runeFormat3 : GoTimeFormat := fun t => [t].
Definition pad32 (l : list Z) : list Z := take 32 (((fun c => c mod 256)%Z <$> l) ++ replicate 32 0%Z).
#[local] Instance toyMail : MailLib := {|
  parseAddress s := if bool_decide (64%Z ∈ s) then Some s else None;
  addressName _ := [];
  readMessage raw := if bool_decide (raw = []) then None else Some (fun h => if h =s? $"From" then [$"a@b"] else []);
  headerDate _ := None;
  sha256Bytes := pad32;
  pgpEncrypted _ := true;
|}.
Definition generation0 : gostr := $"0123456789abcdef0123456789abcdef0123".
Definition job0 : OutboundJob :=
  mkJob ($"a@b") generation0 [mkOD [$"c@d"] [65; 13; 10]%Z; mkOD [$"e@f"] [66; 13; 10]%Z] [83; 69; 78; 84]%Z 0 [] [] 0 0 [] 0 0 false 0 None.
Definition receipt1 (sent : gostr) : outboundReceipt := mkOR 1 (ojFrom job0) generation0 2 (pad32 (replicate 40 7%Z)) sent.
#[local] Instance toyOutbox : OutboxLib := {|
  marshalJob j := if bool_decide (ojFrom j = ojFrom job0) then replicate 40 7%Z else replicate 40 9%Z;
  unmarshalJob _ := Some job0;
  marshalReceipt r := receiptPrefix ++ [if bool_decide (orSent r = []) then 0 else 1]%Z;
  unmarshalReceipt p := Some (receipt1 (if bool_decide (last p = Some 1%Z) then hashIncoming (ojSent job0) else []));
  gcmSeal _ _ p := p ++ replicate 16 0%Z;
  gcmOpen _ _ c := Some (take (length c - 16) c);
  outboxKDF _ _ := replicate 32 1%Z;
|}.

Definition limits0 : Limits := mkLimits 1000 100000 100.
Definition space0 : option (Z * Z) := Some (Z.shiftl 1 40, Z.shiftl 1 41).
Definition call0 (o : mbOp) : mbCall := mkCall 1700000000 space0 true o.
Definition run0 (l : list mbOp) (d : mailbox) := run_trace (stepM limits0 ($"acct") (replicate 32 5%Z)) (call0 <$> l) d.

Definition delivery0 : Receipt := mkReceipt ($"gw") ($"d-1") [] [mkRecipient ($"me@here") 3] ($"INBOX").
Definition arrives : mbOp := OImport delivery0 (Some [65; 66]%Z).
Definition otherBytes : mbOp := OImport delivery0 (Some [65; 67]%Z).
Definition meanwhile : list mbOp :=
  [OCreateFolder ($"Work"); OMove ($"INBOX") 1 ($"Work"); ODelete ($"Work") 1; OAppend ($"Work") (Some [70]%Z) false; ODeleteToParent ($"Work")].

Definition arrived : mailbox := (run0 [arrives] newMailbox).2.
Lemma arrives_ok : stepM limits0 ($"acct") (replicate 32 5%Z) (call0 arrives) newMailbox = (Ok (AnsID 1), arrived).
Proof. vm_compute. reflexivity. Qed.

Lemma import_exactly_once_witness :
  (stepM limits0 ($"acct") (replicate 32 5%Z) (call0 arrives) (run0 meanwhile arrived).2).1 = Ok (AnsID 1) /\
  (stepM limits0 ($"acct") (replicate 32 5%Z) (call0 otherBytes) (run0 meanwhile arrived).2).1 = Err ErrConflictMB.
Proof.
  split.
  - destruct (import_exactly_once limits0 ($"acct") (replicate 32 5%Z) newMailbox (call0 arrives) delivery0 (Some [65; 66]%Z) 1 arrived
      (call0 <$> meanwhile) (call0 arrives) delivery0 [65; 66]%Z eq_refl arrives_ok eq_refl eq_refl eq_refl eq_refl) as (raw & [= <-] & H & _);
      [vm_compute; by eexists|vm_compute; set_solver|done|]. unfold run0. rewrite H. vm_compute. reflexivity.
  - destruct (import_exactly_once limits0 ($"acct") (replicate 32 5%Z) newMailbox (call0 arrives) delivery0 (Some [65; 66]%Z) 1 arrived
      (call0 <$> meanwhile) (call0 otherBytes) delivery0 [65; 67]%Z eq_refl arrives_ok eq_refl eq_refl eq_refl eq_refl) as (raw & [= <-] & H & _);
      [vm_compute; by eexists|vm_compute; set_solver|done|]. unfold run0. rewrite H. vm_compute. reflexivity.
Defined.

(** One live message, encrypted in place. *)
Definition marker0 : gostr := hexEncode (replicate 32 171%Z).
Definition source0 : IncomingSource := mkSource 1 1 ($"acct") (hashIncoming [65; 66]%Z) 2024.
Definition encrypts : mbOp := OReplaceIncoming source0 marker0 (markerHeader marker0 ++ [69]%Z).

Lemma mail_lost_only_on_request_witness :
  exists copy, (stepM limits0 ($"acct") (replicate 32 5%Z) (call0 encrypts) arrived).1 = Ok (AnsID (mID copy)) /\
    last (messages (stepM limits0 ($"acct") (replicate 32 5%Z) (call0 encrypts) arrived).2) = Some copy /\ mID copy = 2%Z.
Proof.
  pose proof (mail_lost_only_on_request limits0 ($"acct") (replicate 32 5%Z) [call0 arrives] (call0 encrypts) 0
    (mkMessage 1 ($"INBOX") (Some [65; 66]%Z) (hashIncoming [65; 66]%Z) ($"a@b") [] [] [] [] [1700000000%Z] false false false []) [65; 66]%Z) as H.
  change ((run_trace (stepM limits0 ($"acct") (replicate 32 5%Z)) [call0 arrives] newMailbox).2) with arrived in H. cbv zeta in H.
  destruct (stepM limits0 ($"acct") (replicate 32 5%Z) (call0 encrypts) arrived) as [r d'] eqn:E.
  destruct (H ltac:(vm_compute; reflexivity) eq_refl) as [(m & Hm & _ & Hr)|[[[=] _]|(s & mk & enc & copy & [= <- <- <-] & -> & _ & _ & _ & Hl & _)]].
  - exfalso. vm_compute in E. injection E as _ <-. vm_compute in Hm. injection Hm as <-. discriminate Hr.
  - exists copy. split; [done|]. split; [exact Hl|]. vm_compute in E. injection E as _ <-. vm_compute in Hl. by injection Hl as <-.
Defined.

(** Two messages, one of them deleted, in a folder below another. *)
Definition nested : list mbOp :=
  [OCreateFolder ($"Work"); OCreateFolderUnder ($"Work") ($"Work/Old"); OAppend ($"Work/Old") (Some [70]%Z) false;
   OAppend ($"Work/Old") (Some [71]%Z) false; ODelete ($"Work/Old") 1].
Lemma delete_to_parent_moves_all_witness :
  exists d', stepM limits0 ($"acct") (replicate 32 5%Z) (call0 (ODeleteToParent ($"Work/Old"))) (run0 nested newMailbox).2 = (Ok AnsUnit, d') /\
    messages d' = moveWhere (fun m => mFolder m =s? $"Work/Old") ($"Work") (messages (run0 nested newMailbox).2).
Proof.
  destruct (delete_to_parent_moves_all limits0 ($"acct") (replicate 32 5%Z) (call0 <$> nested) (call0 (ODeleteToParent ($"Work/Old"))) ($"Work/Old") ($"Work"))
    as (d' & H1 & H2 & _); [done|done|by vm_compute| | |by vm_compute|by exists d'].
  - apply (bool_decide_eq_true_1 _). by vm_compute.
  - apply (bool_decide_eq_true_1 _). by vm_compute.
Defined.

Definition followed : list feedEvent :=
  [FCall (call0 arrives); FPoll 10; FCall (call0 (OCreateFolder ($"Work"))); FCall (call0 (OMove ($"INBOX") 1 ($"Work"))); FPoll 1;
   FCall (call0 (ORenameFolder ($"Work") ($"Play"))); FPoll 5; FPoll 5]%Z.
Lemma change_feed_converges_witness :
  (1 <= 3 <= 1000)%Z /\
  let '(cursor, s, d) := followRun limits0 ($"acct") (replicate 32 5%Z) followed (0%Z, ∅, newMailbox) in
  exists cursor' s', poll 3 cursor s d = Some (cursor', s', true) /\ s' = placement d.
Proof.
  split; [lia|].
  pose proof (change_feed_converges limits0 ($"acct") (replicate 32 5%Z) followed 3 ltac:(lia) ltac:(unfold followed; repeat constructor; lia)) as H.
  assert (Hi : let '(cursor, s, d) := followRun limits0 ($"acct") (replicate 32 5%Z) followed (0%Z, ∅, newMailbox) in cursor = Z.of_nat (length (changes d)))
    by (vm_compute; reflexivity).
  destruct (followRun _ _ _ _ _) as [[cursor s] d]. destruct H as (c' & s' & idle & HP & _ & Hid & Hs). rewrite (proj2 Hid Hi) in HP. exists c', s'.
  split; [exact HP|]. by apply Hs, Hid.
Defined.

(** ** One message from the outbox to its Sent copy

    The toy libraries of MailboxWitness, a job of two deliveries, the first
    accepted, the second refused for good, the job compacted to its receipt. *)

#[local] Existing Instances toyMail toyOutbox runeFormat3.

Definition master0 : list Z := replicate 32 5%Z.
Definition nonce0 : list Z := replicate 12 3%Z.
Definition jobID0 : gostr := $"00000000-1111-4222-8333-444444444444".
Definition token0 : gostr := $"99999999-1111-4222-8333-444444444444".

Lemma toy_laws : JobLaws master0 jobID0 job0.
Proof.
  split; try (vm_compute; done).
  - intros plain nonce [->|[sent ->]]; [by apply (bool_decide_eq_true_1 _); vm_compute|].
    unfold receiptPlain, marshalReceipt, toyOutbox, gcmSeal. destruct (bool_decide _); by apply (bool_decide_eq_true_1 _); vm_compute.
  - intros plain nonce _. unfold gcmOpen, gcmSeal, toyOutbox. by rewrite length_app, length_replicate, Nat.add_sub, take_app_le, take_ge by done.
  - intros plain nonce. unfold gcmSeal, toyOutbox. by rewrite length_app, length_replicate.
  - intros sent. unfold receiptPlain, receiptOf, marshalReceipt, unmarshalReceipt, toyOutbox. cbn [orSent]. rewrite last_snoc.
    destruct (0 <? sent)%Z; vm_compute; done.
  - intros sent. change (length (receiptPlain job0 sent)) with 14%nat. vm_compute. lia.
Qed.

Definition queues : mbCall := call0 (OQueue jobID0 job0 nonce0).
Definition delivers : list mbCall :=
  call0 <$> [OClaim jobID0 0 generation0 (Some token0); OComplete jobID0 0 token0 None nonce0].
Definition refuses : list mbCall :=
  call0 <$> [OClaim jobID0 1 generation0 (Some token0); OComplete jobID0 1 token0 (Some (mkSubmission false false (Some 550%Z))) nonce0].
Definition queued0 : mailbox := (stepM limits0 ($"acct") master0 queues newMailbox).2.
Definition files : mbCall := call0 (OFileSent jobID0 nonce0).

Lemma queued0_ok : stepM limits0 ($"acct") master0 queues newMailbox = (Ok AnsUnit, queued0).
Proof. vm_compute. reflexivity. Qed.
Lemma nonce0_ok : nonceOK nonce0.
Proof. split; [done|]. apply (bool_decide_eq_true_1 _). by vm_compute. Qed.
Lemma drawn0 : Forall drawn (delivers ++ files :: refuses).
Proof.
  pose proof nonce0_ok as Hn. repeat (apply List.Forall_cons || apply List.Forall_nil); (split; [done|]); cbn [callOp call0 files]; try exact Hn;
    intros t [= <-]; by vm_compute.
Qed.

(** Compacted, the job is still recognised: a replay is accepted, another
    intent under its ID is not. *)
Lemma queued_job_is_durable_witness :
  (stepM limits0 ($"acct") master0 queues (run_trace (stepM limits0 ($"acct") master0) (delivers ++ files :: refuses) queued0).2).1 = Ok AnsUnit /\
  (exists o, find_first (isJob jobID0) (outbox (run_trace (stepM limits0 ($"acct") master0) (delivers ++ files :: refuses) queued0).2) = Some o /\
     oCipher o = sealedWith master0 jobID0 nonce0 (receiptPlain job0 1)).
Proof.
  split; [|eexists; split; vm_compute; reflexivity].
  destruct (queued_job_is_durable limits0 ($"acct") master0 [] queues jobID0 job0 nonce0 queued0 (delivers ++ files :: refuses)
    toy_laws eq_refl eq_refl nonce0_ok eq_refl queued0_ok drawn0) as [_ H].
  rewrite (H queues job0 nonce0 eq_refl eq_refl); [by rewrite bool_decide_true|by vm_compute| |done].
  intros sealed Hs. vm_compute in Hs. injection Hs as <-. by vm_compute.
Defined.

Lemma sent_copy_filed_once_witness :
  exists d3, stepM limits0 ($"acct") master0 files (run_trace (stepM limits0 ($"acct") master0) delivers queued0).2 = (Ok (AnsID 1), d3) /\
    let d4 := (run_trace (stepM limits0 ($"acct") master0) refuses d3).2 in stepM limits0 ($"acct") master0 files d4 = (Ok (AnsID 1), d4).
Proof.
  pose proof drawn0 as HD. apply Forall_app in HD as [HD1 [_ HD2]%Forall_cons].
  destruct (sent_copy_filed_once limits0 ($"acct") master0 [] queues jobID0 job0 nonce0 queued0 delivers files nonce0
    toy_laws eq_refl eq_refl nonce0_ok eq_refl queued0_ok HD1 eq_refl eq_refl nonce0_ok) as (sid & d3 & H1 & H2).
  - done.
  - by vm_compute.
  - assert (sid = 1%Z) as ->; [|exists d3; split; [exact H1|by apply (H2 refuses files nonce0 HD2 eq_refl eq_refl nonce0_ok)]].
    assert (E : (stepM limits0 ($"acct") master0 files (run_trace (stepM limits0 ($"acct") master0) delivers queued0).2).1 = Ok (AnsID 1)) by (vm_compute; reflexivity).
    rewrite H1 in E. by injection E.
Defined.

(** ** Scheduled mail *)

(** Two users, one message each; the first goes to two groups of recipients.  A
    worker is stopped after it handed over the first copy, while the second user
    cancels; after the restart the sweep saves the cancelled message. *)
Definition sealed0 (id : gostr) : list Z := id.
Definition open0 (blob : list Z) : option scheduledJob := Some (mkSJob blob blob blob (blob =s? $"n1") job0 ($"a@b") [] true [68]%Z).
Definition warning0 (failed groups : nat) (sent : bool) : gostr := [].
Definition scheduledRow0 (id : gostr) (at_ : Z) : sched := mkSched id id id [] [] at_ 0 0 0 (Some (sealed0 id)) [].
Definition sender0 : User := mkUser 0 None 0 [] [] [] [] true false [] [] [] None false [] [] [] 0 false [] [] [] [] [] [] 0 0 [] [] 0 [] [] [] [] [] [] false [] [] [].
Definition reply0 (seconds : Z) : reply := mkReply (seconds * second)%Z true true (GotUser sender0) NoDevice (fun _ => false) (Some (10, 100)%Z) QueueOk SmtpReady true RelayAccepted true.
Definition calls0 (n k : nat) (seconds : Z) : list event := replicate k (Call n (reply0 seconds)).
Definition stopped0 : list event :=
  [Schedule (scheduledRow0 ($"m1") 10); Schedule (scheduledRow0 ($"m2") 10); Start (claimScheduled open0 id warning0); Start (handleScheduledCancel open0 ($"m2") ($"m2") ($"m2"))]
  ++ calls0 0 6 20 ++ calls0 1 3 20 ++ calls0 0 4 21 ++ [Restart_ true; Start (saveReturn open0 0); Start (claimScheduled open0 id warning0)] ++ calls0 0 6 400 ++ calls0 1 20 400.
Lemma open0_delivers b j : open0 b = Some j -> ojDeliveries (sjJob j) <> [].
Proof. by intros [= <-]. Qed.
Lemma stopped0_legal : Forall (serverEvent open0 id warning0) stopped0.
Proof. repeat (apply List.Forall_cons || apply List.Forall_nil); cbn [serverEvent]; try exact I; try done; eauto 10. Qed.
Lemma stopped0_fresh : NoDup (stopped0 ≫= eventIds).
Proof. by apply (bool_decide_eq_true_1 _); vm_compute. Qed.

Lemma scheduled_sent_or_returned_witness :
  let s := (history stopped0).2 in
  (schStatus <$> sysTable s) = [$"uncertain"; $"returned"] /\ sysSent s = [($"m1", 0)] /\ sysDrafts s = [$"m2"] /\
  NoDup (sysSent s) /\ NoDup (sysQueued s) /\ (forall id, id ∈ sysDrafts s -> id ∉ sysQueued s /\ forall i, (id, i) ∉ sysSent s) /\ Forall (truthful s) (sysTable s).
Proof.
  intros s. split; [vm_compute; reflexivity|]. split; [vm_compute; reflexivity|]. split; [vm_compute; reflexivity|].
  exact (scheduled_sent_or_returned open0 id warning0 stopped0 open0_delivers stopped0_fresh stopped0_legal).
Defined.

(** An error of Queue after its commit: retried too late, the mail is given back
    to Drafts and the outbox sends it. *)
Definition unconfirmed0 (seconds : Z) : reply :=
  mkReply (seconds * second)%Z true true (GotUser sender0) NoDevice (fun _ => false) (Some (10, 100)%Z) QueueUnconfirmed SmtpReady true RelayAccepted true.
Lemma queue_error_returns_queued_mail :
  let s := (history ([Schedule (scheduledRow0 ($"n1") 10); Start (claimScheduled open0 id warning0)] ++ replicate 13 (Call 0 (unconfirmed0 3400)))).2 in
  sysQueued s = [$"n1"] /\ sysDrafts s = [$"n1"] /\ (schStatus <$> sysTable s) = [$"returned"].
Proof. vm_compute. split_and!; reflexivity. Qed.

Definition claimed0 (at_ : Z) : sched := setStatus ScheduledSending (scheduledRow0 ($"m1") at_).
Definition system0 (rows : schedTable) : system := mkSystem rows [] [] [] [].
Lemma claimed_row_leaves_sending_witness :
  (forall i : nat, rpUp ((fun _ => reply0 20) i) = true) /\
  exists n, (alone n (fun _ => reply0 20) (runScheduled open0 id warning0 (claimed0 10)) (system0 [claimed0 10])).1 = Stop /\
    Forall (fun r => schID r = schID (claimed0 10) -> schStatus r <> ScheduledSending) (sysTable (alone n (fun _ => reply0 20) (runScheduled open0 id warning0 (claimed0 10)) (system0 [claimed0 10])).2).
Proof.
  split; [intros; reflexivity|]. exact (claimed_row_leaves_sending open0 id warning0 (claimed0 10) (fun _ => reply0 20) (system0 [claimed0 10]) (fun _ => eq_refl)).
Defined.

(** The database refuses the last statement: the mail is out, its row stays in
    sending, and the user's next message is not claimed. *)
Definition lastRefused0 (i : nat) : reply :=
  let r := reply0 20 in mkReply (rpTime r) (i <? 9)%nat true (rpUser r) NoDevice (fun _ => false) (rpQuota r) QueueOk SmtpReady true RelayAccepted true.
Lemma refused_move_leaves_sending :
  let next := mkSched ($"m3") ($"m1") ($"m1") ScheduledWaiting [] 10 0 0 0 (Some (sealed0 ($"m3"))) [] in
  let '(p, s) := alone 10 lastRefused0 (runScheduled open0 id warning0 (claimed0 10)) (system0 [claimed0 10; next]) in
  p = Stop /\ sysSent s = [($"m1", 1); ($"m1", 0)] /\ (schStatus <$> sysTable s) = [ScheduledSending; ScheduledWaiting] /\ (claimScheduledSend 100 (sysTable s)).1 = None.
Proof. vm_compute. split_and!; reflexivity. Qed.
