(* ===== verification/Wire.v ===== *)
(** * Wire: the receiving contract with the Worker (backend/internal/cfreceiving/wire.go)

    Senders and addresses the contract admits, the routing table with its block
    list, and the size of their JSON, measured on the text encoding/json writes.
    Signing and HTTP are outside. *)

From S2P Require Import Prelude GoText GoCodec SendAs.

(** ** encoding/json on strings and integers *)

Definition hex4 (r : Z) : gostr := [hexDigit (r / 4096 mod 16); hexDigit (r / 256 mod 16); hexDigit (r / 16 mod 16); hexDigit (r mod 16)].
Definition jsonRune (r : Z) : gostr :=
  if bool_decide (r ∈ [34; 92]%Z) then [92; r]%Z
  else if (r =? 8)%Z then $"\b" else if (r =? 12)%Z then $"\f" else if (r =? 10)%Z then $"\n" else if (r =? 13)%Z then $"\r" else if (r =? 9)%Z then $"\t"
  else if (r <? 32)%Z || bool_decide (r ∈ [38; 60; 62; 8232; 8233]%Z) then $"\u" ++ hex4 r
  else [r].
Definition jsonString (s : gostr) : gostr := [34%Z] ++ (r ← s; jsonRune r) ++ [34%Z].
Definition jsonObject (fields : list (gostr * gostr)) : gostr :=
  $"{" ++ join ($",") ((fun '(k, v) => jsonString k ++ $":" ++ v) <$> fields) ++ $"}".
Definition jsonArray (items : list gostr) : gostr := $"[" ++ join ($",") items ++ $"]".
Definition jsonOption (o : option Z) : gostr := match o with Some n => formatInt n | None => $"null" end.

(** ** Senders *)

Definition lowerA (c : Z) : Z := if isUpperA c then (c + 32)%Z else c.
Definition LowerASCII (s : gostr) : gostr := lowerA <$> s.

(** The text before and after the last '@'. *)
Fixpoint cutLastAt (s : gostr) : option (gostr * gostr) :=
  match s with
  | [] => None
  | c :: s' => match cutLastAt s' with
               | Some (a, b) => Some (c :: a, b)
               | None => if (c =? 64)%Z then Some ([], s') else None
               end
  end.
(** [s[strings.LastIndexByte(s, '@')+1:]]. *)
Definition domainOf (s : gostr) : gostr := match cutLastAt s with Some (_, d) => d | None => s end.

Definition validRune (c : Z) : bool := (0 <=? c)%Z && (c <=? 1114111)%Z && negb ((55296 <=? c)%Z && (c <=? 57343)%Z).
Definition atoms (s : gostr) (ok : Z -> bool) : bool := forallb (fun atom => negb (atom =s? []) && forallb ok atom) (splitOn 46 s).
Definition atext (c : Z) : bool :=
  isLowerA c || isUpperA c || ((48 <=? c)%Z && (c <=? 57)%Z) || bool_decide (c ∈ $"!#$%&'*+/=?^_`{|}~-").
Definition ValidSender (s : gostr) : bool :=
  (s =s? []) ||
  match cutLastAt s with
  | None => false
  | Some (local, domain) =>
      forallb validRune s && (utf8Len s <=? 320)%Z && negb (local =s? []) && atoms local (fun c => atext c || (128 <=? c)%Z)
      && atoms (LowerASCII domain) (fun c => atext c && negb (isUpperA c))
  end.

(** [Until] is in milliseconds, [None] for ever; an absent field is empty. *)
Record Block := mkBlock { blAddress : gostr; blDomain : gostr; blUntil : option Z }.
Definition ValidBlock (b : Block) : bool :=
  let value := if blDomain b =s? [] then blAddress b else blDomain b in
  let sender := if blDomain b =s? [] then blAddress b else $"x@" ++ blDomain b in
  xorb (blAddress b =s? []) (blDomain b =s? []) && (value =s? LowerASCII value) && negb (sender =s? []) && ValidSender sender
  && match blUntil b with None => true | Some u => (1 <=? u)%Z end.

(** ** The routing table *)

Definition wireMessageBytes : Z := Z.shiftl 25 20.
Definition maxRoutes : Z := 5000.
Definition maxBlocks : Z := 5000.
Definition maxTableBytes : Z := Z.shiftl 1 20.

Record WireRoute := mkWireRoute { wrAddress : gostr; wrGeneration : Z; wrMaxBytes : Z; wrIssuer : gostr; wrSubject : gostr; wrMailbox : gostr }.

Fixpoint cutAt (s : gostr) : option (gostr * gostr) :=
  match s with
  | [] => None
  | c :: s' => if (c =? 64)%Z then Some ([], s') else (fun '(a, b) => (c :: a, b)) <$> cutAt s'
  end.
Section Table.
Context {U : Unicode}.

Definition ValidAddress (a : gostr) : bool :=
  match cutAt a with
  | None => false
  | Some (local, domain) =>
      negb ((254 <? utf8Len a)%Z || (utf8Len local =? 0)%Z || (64 <? utf8Len local)%Z || (domain =s? []) || negb (a =s? toLower a))
      && forallb (fun c => negb ((c <? 33)%Z || (126 <? c)%Z || (c =? 64)%Z)) (local ++ domain)
  end.

(** The routes of the signed table, in its form. *)
Fixpoint wireRoutes (seen : list gostr) (routes : list WireRoute) : option (list WireRoute) :=
  match routes with
  | [] => Some []
  | r :: routes' =>
      if negb (ValidAddress (wrAddress r)) || bool_decide (wrAddress r ∈ seen) || (wrGeneration r <? 1)%Z || (wrMaxBytes r <? 1)%Z || (wireMessageBytes <? wrMaxBytes r)%Z
      then None else (r ::.) <$> wireRoutes (wrAddress r :: seen) routes'
  end.
Definition newWireTable (routes : list WireRoute) : option (list WireRoute) :=
  l ← wireRoutes [] routes; if (maxRoutes <? Z.of_nat (length routes))%Z then None else Some l.

Definition routeJSON (r : WireRoute) : gostr :=
  jsonObject [($"address", jsonString (wrAddress r)); ($"generation", formatInt (wrGeneration r)); ($"maxBytes", formatInt (wrMaxBytes r))].
Definition blockJSON (b : Block) : gostr :=
  jsonObject ((if blAddress b =s? [] then [] else [($"address", jsonString (blAddress b))]) ++
              (if blDomain b =s? [] then [] else [($"domain", jsonString (blDomain b))]) ++ [($"until", jsonOption (blUntil b))]).
Definition tableJSON (revision issuedAt : Z) (routes : list WireRoute) (blocks : list Block) : gostr :=
  jsonObject [($"revision", formatInt revision); ($"issuedAt", formatInt issuedAt); ($"routes", jsonArray (routeJSON <$> routes));
              ($"blockedSenders", jsonArray (blockJSON <$> blocks))].

Definition BlockWireBytes (b : Block) : Z := (utf8Len (blockJSON b) + 1)%Z.

(** The widest revision and time the Worker accepts. *)
Definition safeInteger : Z := 2 ^ 53 - 1.
Fixpoint fitLoop (i size : Z) (blocks : list Block) : list Block :=
  match blocks with
  | [] => []
  | b :: blocks' =>
      let size := (size + BlockWireBytes b)%Z in
      if (i =? maxBlocks)%Z || (maxTableBytes <? size)%Z then [] else b :: fitLoop (i + 1) size blocks'
  end.
Definition FitBlocks (routes : list WireRoute) (blocks : list Block) : option (list Block) :=
  table ← newWireTable routes;
  let base := tableJSON safeInteger safeInteger table [] in
  if (maxTableBytes <? utf8Len base)%Z then None else Some (fitLoop 0 (utf8Len base - 1) blocks).

(** The payload [SignTable] signs. *)
Definition signTable (revision issuedAt : Z) (routes : list WireRoute) (blocks : list Block) : option gostr :=
  table ← newWireTable routes;
  if negb (forallb ValidBlock blocks) then None
  else
    let payload := tableJSON revision issuedAt table blocks in
    if (revision <? 1)%Z || (issuedAt <? 1)%Z || (maxBlocks <? Z.of_nat (length blocks))%Z || (maxTableBytes <? utf8Len payload)%Z then None else Some payload.
End Table.

(** ** Keys of captured objects *)

Definition lowerHex (c : Z) : bool := ((48 <=? c)%Z && (c <=? 57)%Z) || ((97 <=? c)%Z && (c <=? 102)%Z).
Definition ValidKey (k : gostr) : bool :=
  (length k =? 36)%nat && bool_decide (k !! 14%nat = Some 55%Z) && match k !! 19%nat with Some c => bool_decide (c ∈ $"89ab") | None => false end
  && forallb (fun '(i, c) => if bool_decide (i ∈ [8; 13; 18; 23]%nat) then (c =? 45)%Z else lowerHex c) (imap pair k).
Definition KeyTime (k : gostr) : Z := foldl (fun ms b => Z.lor (Z.shiftl ms 8) b) 0%Z (default [] (hexDecode (take 8 k ++ take 4 (drop 9 k)))).
Definition validDigest (d : gostr) : bool :=
  match hexDecode d with Some raw => (length raw =? 32)%nat && (hexEncode raw =s? d) | None => false end.

(** ** Sizes *)

Lemma length_decimalFuel fuel n k : (0 <= n < 10 ^ Z.of_nat k)%Z -> (1 <= k)%nat -> (length (decimalFuel fuel n) <= k)%nat.
Proof.
  revert n k. induction fuel as [|fuel IH]; intros n k Hn Hk; simpl; [lia|]. rewrite length_app. simpl. destruct (n <? 10)%Z eqn:E; [simpl; lia|]. to_prop.
  destruct k as [|[|k]]; [lia|change (10 ^ Z.of_nat 1)%Z with 10%Z in Hn; lia|]. specialize (IH (n / 10)%Z (S k)). rewrite (Nat2Z.inj_succ (S k)), Z.pow_succ_r in Hn by lia.
  assert (0 <= n / 10 < 10 ^ Z.of_nat (S k))%Z; [|lia]. split; [apply Z.div_pos; lia|apply Z.div_lt_upper_bound; lia].
Qed.
Lemma utf8Len_ascii s : Forall (fun c => c < 128)%Z s -> utf8Len s = Z.of_nat (length s).
Proof. induction 1 as [|c s Hc _ IH]; [done|]. simpl. rewrite IH. unfold utf8LenRune. destruct (c <? 128)%Z eqn:E; to_prop; lia. Qed.
Lemma utf8Len_formatInt n k : (0 <= n < 10 ^ Z.of_nat k)%Z -> (1 <= k)%nat -> (utf8Len (formatInt n) <= Z.of_nat k)%Z.
Proof.
  intros Hn Hk. rewrite utf8Len_ascii by (eapply Forall_impl; [apply formatInt_digits; lia|intros c Hc; simpl in Hc; lia]).
  unfold formatInt. destruct (n <? 0)%Z eqn:E; to_prop; [lia|]. pose proof (length_decimalFuel (Z.to_nat (Z.log2 n) + 1) n k Hn Hk). lia.
Qed.
Lemma utf8Len_safe n : (1 <= n <= safeInteger)%Z -> (utf8Len (formatInt n) <= utf8Len (formatInt safeInteger))%Z.
Proof.
  intros Hn. change (utf8Len (formatInt safeInteger)) with (Z.of_nat 16). apply utf8Len_formatInt; [|lia]. unfold safeInteger in Hn.
  change (10 ^ Z.of_nat 16)%Z with 10000000000000000%Z. lia.
Qed.

(** The sum of the sizes, each with a comma. *)
Definition commaSizes (l : list gostr) : Z := foldr (fun s n => utf8Len s + 1 + n)%Z 0%Z l.
Lemma commaSizes_app l l' : commaSizes (l ++ l') = (commaSizes l + commaSizes l')%Z.
Proof. induction l as [|s l IH]; simpl; [done|]. rewrite IH. lia. Qed.
Lemma utf8Len_join l : l ≠ [] -> utf8Len (join ($",") l) = (commaSizes l - 1)%Z.
Proof.
  induction l as [|s l IH]; [done|]. intros _. destruct l as [|s2 l]; [simpl; lia|]. rewrite join_cons by done. rewrite !utf8Len_app, IH by done. change (utf8Len ($",")) with 1%Z. cbn [commaSizes foldr]. lia.
Qed.
Lemma utf8Len_array l : utf8Len (jsonArray l) = (commaSizes l + if decide (l = []) then 2 else 1)%Z.
Proof.
  unfold jsonArray. rewrite !utf8Len_app. destruct (decide (l = [])) as [-> |Hne]; [done|]. rewrite utf8Len_join by done.
  change (utf8Len ($"[")) with 1%Z. change (utf8Len ($"]")) with 1%Z. lia.
Qed.
Lemma commaSizes_nonneg l : (0 <= commaSizes l)%Z.
Proof. induction l as [|s l IH]; simpl; [done|]. pose proof (utf8Len_nonneg s). lia. Qed.

Section Publish.
Context {U : Unicode}.

(** What the table adds to the JSON of its routes. *)
Definition tableSize (revision issuedAt : Z) (routes : list WireRoute) (blocks : gostr) : Z :=
  utf8Len (formatInt revision) + utf8Len (formatInt issuedAt) + utf8Len (jsonArray (routeJSON <$> routes)) + utf8Len blocks + 53.
Lemma tableJSON_size revision issuedAt routes blocks :
  utf8Len (tableJSON revision issuedAt routes blocks) = tableSize revision issuedAt routes (jsonArray (blockJSON <$> blocks)).
Proof.
  unfold tableJSON, jsonObject, tableSize. cbn [fmap list_fmap join]. rewrite !utf8Len_app.
  change (utf8Len (jsonString ($"revision"))) with 10%Z. change (utf8Len (jsonString ($"issuedAt"))) with 10%Z. change (utf8Len (jsonString ($"routes"))) with 8%Z.
  change (utf8Len (jsonString ($"blockedSenders"))) with 16%Z. change (utf8Len ($"{")) with 1%Z. change (utf8Len ($"}")) with 1%Z. change (utf8Len ($":")) with 1%Z. change (utf8Len ($",")) with 1%Z. lia.
Qed.
Lemma tableJSON_blocks revision issuedAt routes blocks : blocks ≠ [] ->
  utf8Len (tableJSON revision issuedAt routes blocks) = (utf8Len (tableJSON revision issuedAt routes []) - 1 + commaSizes (blockJSON <$> blocks))%Z.
Proof.
  intros Hne. rewrite !tableJSON_size. unfold tableSize. rewrite !utf8Len_array. rewrite (decide_False (P := blockJSON <$> blocks = [])) by (by destruct blocks). simpl. lia.
Qed.
Lemma tableJSON_widest revision issuedAt routes blocks : (1 <= revision <= safeInteger)%Z -> (1 <= issuedAt <= safeInteger)%Z ->
  (utf8Len (tableJSON revision issuedAt routes blocks) <= utf8Len (tableJSON safeInteger safeInteger routes blocks))%Z.
Proof. intros Hr Hi. rewrite !tableJSON_size. unfold tableSize. pose proof (utf8Len_safe _ Hr). pose proof (utf8Len_safe _ Hi). lia. Qed.

Lemma commaSizes_cons b bs : commaSizes (blockJSON <$> b :: bs) = (BlockWireBytes b + commaSizes (blockJSON <$> bs))%Z.
Proof. done. Qed.
Lemma fitLoop_spec blocks : forall i size, (0 <= i <= maxBlocks)%Z -> (size <= maxTableBytes)%Z -> let l := fitLoop i size blocks in
  (i + Z.of_nat (length l) <= maxBlocks)%Z /\ (size + commaSizes (blockJSON <$> l) <= maxTableBytes)%Z /\
  exists rest, blocks = l ++ rest /\ (forall b rest', rest = b :: rest' ->
    (i + Z.of_nat (length l) = maxBlocks)%Z \/ (maxTableBytes < size + commaSizes (blockJSON <$> l ++ [b]))%Z).
Proof.
  induction blocks as [|b blocks IH]; intros i size Hi Hs; cbv zeta; [split; [simpl; lia|split; [simpl; lia|by exists []]]|].
  cbn [fitLoop]. destruct (_ || _) eqn:E.
  - split; [simpl; lia|]. split; [simpl; lia|]. exists (b :: blocks). split; [done|]. intros ? ? [= <- <-]. unfold BlockWireBytes in E. apply orb_true_iff in E as [E|E]; [left|right]; simpl in *; lia.
  - apply orb_false_iff in E as [E1 E2]. destruct (IH (i + 1)%Z (size + BlockWireBytes b)%Z ltac:(lia) ltac:(lia)) as (H1 & H2 & rest & Hr & H3). cbn [length]. rewrite commaSizes_cons. split; [lia|]. split; [lia|].
    exists rest. split; [by rewrite Hr at 1|]. intros b' rest' Er. rewrite <- app_comm_cons, commaSizes_cons. destruct (H3 b' rest' Er) as [H|H]; [left|right]; lia.
Qed.

(** (C40) Blocks can never stop route publication: if the routes alone can be
    published, FitBlocks answers a prefix of the blocks that SignTable accepts
    beside them under any revision and time the Worker does, and the next block
    would break the Worker's count or its table size; it refuses exactly the
    routes that cannot be published without blocks. *)
Theorem fit_blocks_publishable routes blocks : Forall (fun b => ValidBlock b = true) blocks ->
  match FitBlocks routes blocks with
  | Some fitted => exists rest, blocks = fitted ++ rest /\
      (forall revision issuedAt, (1 <= revision <= safeInteger)%Z -> (1 <= issuedAt <= safeInteger)%Z ->
         exists payload, signTable revision issuedAt routes fitted = Some payload) /\
      (forall b rest', rest = b :: rest' -> signTable safeInteger safeInteger routes (fitted ++ [b]) = None)
  | None => signTable safeInteger safeInteger routes [] = None
  end.
Proof.
  intros HV. unfold FitBlocks, signTable. destruct (newWireTable routes) as [table|]; [|done]. cbn [mbind option_bind]. destruct (maxTableBytes <? _)%Z eqn:EB.
  - cbn [forallb negb length]. to_prop. replace (maxTableBytes <? utf8Len (tableJSON safeInteger safeInteger table []))%Z with true by lia. by rewrite !orb_true_r.
  - to_prop. destruct (fitLoop_spec blocks 0 (utf8Len (tableJSON safeInteger safeInteger table []) - 1)) as (H1 & H2 & rest & Hr & H3); [unfold maxBlocks; lia|lia|].
    set (l := fitLoop _ _ blocks) in *. exists rest. split; [done|]. rewrite Hr in HV. apply Forall_app in HV as [HV HV']. split.
    + intros rev at_ Hrev Hat. replace (forallb ValidBlock l) with true by (symmetry; apply forallb_forall; intros b Hb; apply list_elem_of_In in Hb; by apply (proj1 (Forall_forall _ _) HV b)).
      cbn [negb]. pose proof (tableJSON_widest rev at_ table l Hrev Hat) as HW. assert (HS : (utf8Len (tableJSON safeInteger safeInteger table l) <= maxTableBytes)%Z).
      { destruct (decide (l = [])) as [-> |Hne]; [done|]. rewrite tableJSON_blocks by done. lia. }
      eexists. replace (_ || _ || _ || _) with false by (symmetry; repeat (apply orb_false_iff; split); lia). done.
    + intros b rest' ->. destruct (negb _); [done|]. assert (l ++ [b] ≠ []) as Hne by (by destruct l). rewrite (tableJSON_blocks _ _ _ (l ++ [b])), length_app by done. cbn [length].
      rewrite Nat2Z.inj_add. destruct (H3 b rest' eq_refl) as [H|H].
      * replace (maxBlocks <? Z.of_nat (length l) + Z.of_nat 1)%Z with true by (symmetry; apply Z.ltb_lt; lia). by rewrite orb_true_r.
      * replace (maxTableBytes <? _)%Z with true by (symmetry; apply Z.ltb_lt; lia). by rewrite orb_true_r.
Qed.
End Publish.
