(* ===== verification/IngressModel.v ===== *)
(** * IngressModel: the holding store of incoming mail, its tables (backend/internal/ingress)

    Accepted mail waits in one SQLite database until an importer has committed
    every mailbox delivery: routes (who owns an address, at which generation),
    deliveries (a receiver's message, staged before its bytes arrive), bindings
    (a recipient frozen to the owner its address had), and archived tombstones
    that recognise a replay for good.  The measurements of the file system an
    admission takes are arguments. *)

From S2P Require Export Transaction.
From S2P Require Import Prelude GoText GoCodec SendAs MailboxModel Mailbox Outbox.

Inductive ingErr :=
  | ErrConflictIn
  | ErrCapacityIn
  | ErrRoute
  | ErrRoutingStale
  | ErrLease
  | ErrNotQuarantined
  | errLimits
  | ErrNoRows
  | ErrStorage
  | ErrContext
  | ErrReadIn
  | ErrSQL
  | ErrMailbox (e : mbErr)
  | ErrResolve.

(** ** Rows *)

Record holdLimits := mkHold { hlMessageBytes : Z; hlPayloadBytes : Z; hlRecords : Z }.
#[export] Instance holdLimits_eq_dec : EqDecision holdLimits.
Proof. solve_decision. Defined.

(** [rtValidUntil] is in Unix seconds, [None] the zero time. *)
Record Route := mkRoute { rtAddress : gostr; rtIssuer : gostr; rtSubject : gostr; rtMailbox : gostr; rtGeneration : Z; rtActive : bool; rtValidUntil : option Z }.
Record Binding := mkBinding { bAddress : gostr; bIssuer : gostr; bSubject : gostr; bMailbox : gostr; bGeneration : Z }.
#[export] Instance Binding_eq_dec : EqDecision Binding.
Proof. solve_decision. Defined.

Record bindingRow := mkBindingRow { brGateway : gostr; brID : gostr; brBinding : Binding }.
(** [hRow] is the rowid of the table. *)
Record heldRow := mkHeld {
  hRow : Z; hGateway : gostr; hID : gostr; hSender : gostr; hCreated : Z; hDigest : gostr; hRaw : option (list Z);
  hState : gostr; hLease : gostr; hLeaseUntil : Z;
}.
Record tombRow := mkTomb { tGateway : gostr; tID : gostr; tSender : gostr; tDigest : gostr; tRecipients : gostr; tAt : Z; tDisposition : gostr }.

Record Delivery := mkHeldDelivery {
  dvGateway : gostr; dvID : gostr; dvSender : gostr; dvDigest : gostr; dvRaw : list Z; dvState : gostr;
  dvBindings : list Binding; dvLease : gostr; dvDisposition : gostr;
}.
Record Quarantined := mkQuarantined { qSequence : Z; qGateway : gostr; qID : gostr; qSender : gostr; qReceived : Z; qSize : Z; qBindings : list Binding }.
Record Summary := mkSummary { smSequence : Z; smID : gostr; smState : gostr }.

Record spool := mkSpool {
  spLimits : holdLimits;
  spRoutes : list Route;
  spHeld : list heldRow;
  spBindings : list bindingRow;
  spArchived : list tombRow;
}.

Definition spool_eta (d : spool) : spool := mkSpool (spLimits d) (spRoutes d) (spHeld d) (spBindings d) (spArchived d).
Definition setSpLimits (v : holdLimits) : spool -> spool := ltac:(setter_of spool_eta spLimits v).
Definition setRoutes (v : list Route) : spool -> spool := ltac:(setter_of spool_eta spRoutes v).
Definition setHeld (v : list heldRow) : spool -> spool := ltac:(setter_of spool_eta spHeld v).
Definition setBindings (v : list bindingRow) : spool -> spool := ltac:(setter_of spool_eta spBindings v).
Definition setArchived (v : list tombRow) : spool -> spool := ltac:(setter_of spool_eta spArchived v).

Abbreviation Ing := (Txn spool ingErr).

(** ** Statements *)

Definition isRoute (address : gostr) (r : Route) : bool := rtAddress r =s? address.
Definition isHeld (gateway id : gostr) (r : heldRow) : bool := (hGateway r =s? gateway) && (hID r =s? id).
Definition isBound (gateway id : gostr) (r : bindingRow) : bool := (brGateway r =s? gateway) && (brID r =s? id).
Definition isTomb (gateway id : gostr) (t : tombRow) : bool := (tGateway t =s? gateway) && (tID t =s? id).

(** INSERT INTO routes ... ON CONFLICT(address) DO UPDATE. *)
Definition upsertRoute (r : Route) : Ing unit :=
  exec (fun d => if existsb (isRoute (rtAddress r)) (spRoutes d) then setRoutes (updateWhere (isRoute (rtAddress r)) (fun _ => r) (spRoutes d)) d
                 else setRoutes (spRoutes d ++ [r]) d).

(** The rowid SQLite draws: one more than the largest in the table. *)
Definition nextRow (l : list heldRow) : Z := foldr (fun r n => Z.max (hRow r + 1) n) 1%Z l.
(** INSERT INTO deliveries, with its primary key. *)
Definition insertHeld (gateway id sender : gostr) (created : Z) (digest : gostr) (raw : option (list Z)) (state : gostr) : Ing unit := fun d =>
  if existsb (isHeld gateway id) (spHeld d) then Err ErrSQL
  else Ok (tt, setHeld (spHeld d ++ [mkHeld (nextRow (spHeld d)) gateway id sender created digest raw state [] 0]) d).
(** INSERT INTO bindings, with its primary and its foreign key. *)
Definition insertBinding (gateway id : gostr) (b : Binding) : Ing unit := fun d =>
  if existsb (fun r => isBound gateway id r && (bAddress (brBinding r) =s? bAddress b)) (spBindings d) || negb (existsb (isHeld gateway id) (spHeld d))
  then Err ErrSQL
  else Ok (tt, setBindings (spBindings d ++ [mkBindingRow gateway id b]) d).

Definition filled (digest : gostr) (raw : list Z) (state : gostr) (r : heldRow) : heldRow :=
  mkHeld (hRow r) (hGateway r) (hID r) (hSender r) (hCreated r) digest (Some raw) state (hLease r) (hLeaseUntil r).
Definition unleased (r : heldRow) : heldRow :=
  mkHeld (hRow r) (hGateway r) (hID r) (hSender r) (hCreated r) (hDigest r) (hRaw r) ($"quarantined") [] 0.
Definition leased (lease : gostr) (until : Z) (r : heldRow) : heldRow :=
  mkHeld (hRow r) (hGateway r) (hID r) (hSender r) (hCreated r) (hDigest r) (hRaw r) (hState r) lease until.
Definition updateHeld (p : heldRow -> bool) (f : heldRow -> heldRow) : Ing unit := exec (fun d => setHeld (updateWhere p f (spHeld d)) d).

Definition byAddress (a b : Binding) : bool := strLtb (bAddress a) (bAddress b).
(** SELECT ... FROM bindings WHERE gateway=? AND id=? ORDER BY address. *)
Definition readBindings (gateway id : gostr) (d : spool) : list Binding :=
  sortStable byAddress (brBinding <$> List.filter (isBound gateway id) (spBindings d)).

(** group_concat over the recipients, NULL when there is none. *)
Definition recipientsText (gateway id : gostr) (d : spool) : option gostr :=
  match bAddress <$> readBindings gateway id d with [] => None | l => Some (join [10]%Z l) end.

(** [archive]: INSERT ... SELECT, row by row, then DELETE with its cascade.  A
    row without recipients breaks NOT NULL, one archived before the primary
    key; INSERT OR IGNORE skips either. *)
Fixpoint insertTombs (orIgnore : bool) (now : Z) (disposition : gostr) (l : list heldRow) : Ing unit :=
  match l with
  | [] => mret tt
  | r :: l' =>
      text ← select (recipientsText (hGateway r) (hID r));
      dup ← select (fun d => existsb (isTomb (hGateway r) (hID r)) (spArchived d));
      match text with
      | Some text =>
          if dup : bool then if orIgnore then mret tt else raise ErrSQL
          else exec (fun d => setArchived (spArchived d ++ [mkTomb (hGateway r) (hID r) (hSender r) (hDigest r) text now disposition]) d)
      | None => if orIgnore then mret tt else raise ErrSQL
      end ;;
      insertTombs orIgnore now disposition l'
  end.
Definition archive (orIgnore : bool) (now : Z) (disposition : gostr) (where_ : heldRow -> bool) : Ing unit :=
  l ← select (fun d => List.filter where_ (spHeld d));
  insertTombs orIgnore now disposition l ;;
  exec (fun d => setBindings (List.filter (fun b => negb (existsb (isHeld (brGateway b) (brID b)) l)) (spBindings d))
                   (setHeld (List.filter (fun r => negb (where_ r)) (spHeld d)) d)).

Definition archivedDelivery (gateway id : gostr) (d : spool) : option tombRow := find_first (isTomb gateway id) (spArchived d).
Definition tombRecipients (t : tombRow) : list gostr := splitOn 10 (tRecipients t).

(** ** The file system as an admission finds it *)

Inductive fileStat := StatMissing | StatFailed | StatFile (regular : bool) (size : Z).
(** The context, the page size, the database file, its WAL and shared memory,
    block size and available blocks, free and total bytes of the drive. *)
Record diskState := mkDisk {
  dkContext : bool; dkPage : option Z; dkDB : fileStat; dkWal : fileStat; dkShm : fileStat; dkFree : option (Z * Z); dkDrive : option (Z * Z);
}.

Definition maxInt64 : Z := 9223372036854775807.
Definition physicalLimit (l : holdLimits) : Z := Z.max (Z.shiftl 32 20) (4 * hlPayloadBytes l + hlRecords l * Z.shiftl 32 10).
Definition limitsOK (l : holdLimits) : bool :=
  negb ((hlMessageBytes l <=? 0)%Z || (Z.shiftl 64 20 <? hlMessageBytes l)%Z || (hlPayloadBytes l <? hlMessageBytes l)%Z || (hlRecords l <=? 0)%Z
        || (maxInt64 / 4 <? hlPayloadBytes l)%Z || ((maxInt64 - 4 * hlPayloadBytes l) / Z.shiftl 32 10 <? hlRecords l)%Z).

Definition addStat (required : bool) (st : fileStat) (total : Z) : option Z :=
  match st with
  | StatMissing => if required then None else Some total
  | StatFailed => None
  | StatFile regular size => if negb regular || (size <? 0)%Z || (maxInt64 - total <? size)%Z then None else Some (total + size)%Z
  end.
Definition physicalBytes (k : diskState) : option Z :=
  total ← addStat true (dkDB k) 0; total ← addStat false (dkWal k) total; addStat false (dkShm k) total.

Definition receivingFreeSpace (k : diskState) (required : Z) : option ingErr :=
  match dkFree k with
  | None => Some ErrStorage
  | Some (bsize, bavail) =>
      if (bsize <=? 0)%Z then Some ErrStorage
      else
        let blocks := (required / bsize)%Z in
        let blocks := if (required mod bsize =? 0)%Z then blocks else (blocks + 1)%Z in
        if (bavail <? blocks)%Z then Some ErrCapacityIn else None
  end.
Definition checkpointHeadroom (k : diskState) : option ingErr :=
  match dkWal k with
  | StatMissing => receivingFreeSpace k (Z.shiftl 16 20)
  | StatFailed => Some ErrStorage
  | StatFile regular size => if negb regular || (size <? 0)%Z then Some ErrStorage else receivingFreeSpace k (size + Z.shiftl 16 20)
  end.

(** Whether the files have grown near the limit of these limits. *)
Definition nearLimit (l : holdLimits) (used : Z) : bool := (physicalLimit l - 2 * hlMessageBytes l - Z.shiftl 2 20 <=? used)%Z.
Definition powerOfTwo (n : Z) : bool := (Z.land n (n - 1) =? 0)%Z.
Definition checkAdmission (l : holdLimits) (k : diskState) (payload : Z) : option ingErr :=
  if negb (dkContext k) then Some ErrContext
  else match dkPage k with
  | None => Some ErrSQL
  | Some pageSize =>
      if (pageSize <? 512)%Z || (65536 <? pageSize)%Z || negb (powerOfTwo pageSize) || (payload <? 0)%Z || (hlMessageBytes l <? payload)%Z then Some ErrStorage
      else
        let growth := (32 * pageSize + 2 * payload)%Z in
        match physicalBytes k with
        | None => Some ErrStorage
        | Some used =>
            if (physicalLimit l - growth <? used)%Z then Some ErrCapacityIn
            else match (if nearLimit l used then checkpointHeadroom k else None) with
            | Some e => Some e
            | None =>
                match receivingFreeSpace k (Z.shiftl 16 20 + growth) with
                | Some e => Some e
                | None => if checkDriveReserve (dkDrive k) growth then None else Some ErrCapacityIn
                end
            end
        end
  end.

(** Before the transaction begins: the checkpoint, which fails, or answers
    whether a reader was busy. *)
Definition admissionTx (l : holdLimits) (k : diskState) (checkpoint : option bool) : option ingErr :=
  match physicalBytes k with
  | None => Some ErrStorage
  | Some used =>
      if nearLimit l used && bool_decide (checkpointHeadroom k = None) then
        match checkpoint with
        | None => Some ErrStorage
        | Some busy => if busy && negb (dkContext k) then Some ErrContext else None
        end
      else None
  end.
