(* ===== verification/Ingress.v ===== *)
(** * Ingress: the operations of the holding store (backend/internal/ingress/store.go)

    Each method is one transaction of module IngressModel, preceded, where it
    admits new mail, by the measurements of [admissionTx].  The clock is in
    nanoseconds; the limits are those of the opened handle. *)

From S2P Require Import Prelude GoText GoCodec SendAs MailboxModel Mailbox Outbox IngressModel.

Section Ops.
Context {ML : MailLib} {RO : RangeOrder}.

(** ** Validation *)

Definition address (v : gostr) (allowEmpty : bool) : bool :=
  if allowEmpty && (v =s? []) then true
  else if (320 <? utf8Len v)%Z || containsAny v [13; 10; 0]%Z then false
  else bool_decide (parseAddress v = Some v) && (addressName v =s? []).
Definition identifier (v : gostr) : bool := negb (v =s? []) && (utf8Len v <=? 256)%Z && negb (containsAny v [0; 13; 10]%Z).
Definition Unresolved (b : Binding) : bool := (bIssuer b =s? []) && (bSubject b =s? []) && (bMailbox b =s? []).

Definition unix (now : Z) : Z := (now / 1000000000)%Z.

(** What an admitting call measured before and inside its transaction. *)
Record admission := mkAdmission { adBefore : diskState; adCheckpoint : option bool; adInside : diskState }.
Definition refuse (e : option ingErr) : Ing unit := match e with Some e => raise e | None => mret tt end.
Definition beginAdmission (l : holdLimits) (ad : admission) : Ing unit := refuse (admissionTx l (adBefore ad) (adCheckpoint ad)).
Definition admit_ (l : holdLimits) (ad : admission) (payload : Z) : Ing unit := refuse (checkAdmission l (adInside ad) payload).

(** ** Opening *)

Definition raisableTo (l c : holdLimits) : bool :=
  (hlMessageBytes l <=? hlMessageBytes c)%Z && (hlPayloadBytes l <=? hlPayloadBytes c)%Z && (hlRecords l <=? hlRecords c)%Z.
Definition adoptLimits (limits : holdLimits) : Ing unit :=
  persisted ← select spLimits;
  if bool_decide (persisted = limits) then mret tt
  else if negb (raisableTo persisted limits) then raise errLimits
  else exec (setSpLimits limits).

Definition migrateArchive (now : Z) : Ing unit := archive true now ($"imported") (fun r => hState r =s? $"imported").

(** [Open] on a directory without a database, and on one with; whether the two
    transactions and the sync of the directory succeed. *)
Definition emptySpool (limits : holdLimits) : spool := mkSpool limits [] [] [] [].
Definition openStore (existing : bool) (limits : holdLimits) (now : Z) (up1 up2 synced : bool) (db : option spool) : res ingErr unit * option spool :=
  if negb (limitsOK limits) then (Err errLimits, db)
  else
    match (match db with
           | None => if existing || negb up1 then (Err ErrSQL, None) else (Ok tt, Some (emptySpool limits))
           | Some d => let '(r, d) := commit ErrSQL up1 (adoptLimits limits) d in (r, Some d)
           end) with
    | (Ok _, Some d) =>
        match commit ErrSQL up2 (migrateArchive (unix now)) d with
        | (Ok _, d) => (if existing || synced then Ok tt else Err ErrStorage, Some d)
        | (Err e, d) => (Err e, Some d)
        end
    | (Ok _, None) => (Err ErrSQL, None)
    | (Err e, db) => (Err e, db)
    end.

(** ** Routes *)

Definition sameOwner (r old : Route) : bool :=
  (rtIssuer r =s? rtIssuer old) && (rtSubject r =s? rtSubject old) && (rtMailbox r =s? rtMailbox old).
Definition setRoute (l : holdLimits) (ad : admission) (recovery : bool) (r : Route) : Ing unit :=
  if negb (address (rtAddress r) false) || negb (identifier (rtIssuer r)) || negb (identifier (rtSubject r)) || negb (identifier (rtMailbox r))
     || (rtGeneration r <=? 0)%Z || bool_decide (rtValidUntil r = None)
  then raise ErrRoute
  else
    (if recovery then mret tt else beginAdmission l ad) ;;
    old ← select (fun d => find_first (isRoute (rtAddress r)) (spRoutes d));
    match old with
    | Some old =>
        if (rtGeneration r <? rtGeneration old)%Z
           || (rtGeneration r =? rtGeneration old)%Z && (negb (sameOwner r old) || negb (Bool.eqb (rtActive r) (rtActive old)))
        then raise ErrConflictIn else mret tt
    | None => mret tt
    end ;;
    if recovery && match old with
                   | Some old => negb (sameOwner r old) || negb (rtGeneration r =? rtGeneration old)%Z || negb (Bool.eqb (rtActive r) (rtActive old))
                   | None => true
                   end
    then raise ErrConflictIn
    else
      (if recovery then mret tt else admit_ l ad 0) ;;
      match old with
      | None => count ← select (fun d => Z.of_nat (length (spRoutes d))); if (hlRecords l <=? count)%Z then raise ErrCapacityIn else mret tt
      | Some _ => mret tt
      end ;;
      upsertRoute r.

Fixpoint deactivateEach (l : list (gostr * Z)) : Ing unit :=
  match l with
  | [] => mret tt
  | (a, generation) :: l' =>
      old ← select (fun d => find_first (isRoute a) (spRoutes d));
      match old with
      | None => mret tt
      | Some old =>
          if (rtGeneration old =? generation)%Z && negb (rtActive old) then mret tt
          else if (generation <? rtGeneration old)%Z then raise ErrConflictIn
          else exec (fun d => setRoutes (updateWhere (isRoute a)
                 (fun r => mkRoute (rtAddress r) (rtIssuer r) (rtSubject r) (rtMailbox r) generation false (rtValidUntil r)) (spRoutes d)) d)
      end ;;
      deactivateEach l'
  end.
Definition deactivateRoutes (generations : gmap gostr Z) : Ing unit := deactivateEach (range_order _ (map_to_list generations)).

(** ** Admission *)

(** [Bind], once neither the binding nor a tombstone answered. *)
Definition bindNew (l : holdLimits) (ad : admission) (now : Z) (known : bool) (gateway id sender recipient : gostr) : Ing unit :=
  admit_ l ad 0 ;;
  route ← select (fun d => find_first (isRoute recipient) (spRoutes d));
  match route with
  | None => raise ErrRoute
  | Some r =>
      if negb (rtActive r) then raise ErrRoute
      else if (default 0 (rtValidUntil r) <=? unix now)%Z then raise ErrRoutingStale
      else
        (if known then mret tt
         else count ← select (fun d => Z.of_nat (length (spHeld d)));
              if (hlRecords l <=? count)%Z then raise ErrCapacityIn else insertHeld gateway id sender (unix now) [] None ($"staged")) ;;
        count ← select (fun d => Z.of_nat (length (List.filter (isBound gateway id) (spBindings d))));
        if (100 <=? count)%Z then raise ErrCapacityIn
        else insertBinding gateway id (mkBinding recipient (rtIssuer r) (rtSubject r) (rtMailbox r) (rtGeneration r))
  end.
Definition bindRecipient (l : holdLimits) (ad : admission) (now : Z) (gateway id sender recipient : gostr) : Ing unit :=
  if negb (identifier gateway) || negb (identifier id) || negb (address sender true) || negb (address recipient false) then raise ErrConflictIn
  else
    beginAdmission l ad ;;
    old ← select (fun d => find_first (isHeld gateway id) (spHeld d));
    match old with
    | None =>
        t ← select (archivedDelivery gateway id);
        match t with
        | Some t => assertTx ((tSender t =s? sender) && bool_decide (recipient ∈ tombRecipients t)) ErrConflictIn
        | None => bindNew l ad now false gateway id sender recipient
        end
    | Some r =>
        if negb (hSender r =s? sender) then raise ErrConflictIn
        else
          bound ← select (fun d => existsb (fun b => isBound gateway id b && (bAddress (brBinding b) =s? recipient)) (spBindings d));
          if bound : bool then mret tt
          else if negb (hState r =s? $"staged") then raise ErrConflictIn
          else bindNew l ad now true gateway id sender recipient
    end.

Definition heldSize (r : heldRow) : Z := match hRaw r with Some raw => Z.of_nat (length raw) | None => 0 end.
Definition payloadUsed (d : spool) : Z := foldr (fun r n => heldSize r + n)%Z 0%Z (spHeld d).
Definition admitPayload (l : holdLimits) (ad : admission) (size : Z) : Ing unit :=
  admit_ l ad size ;;
  used ← select payloadUsed;
  if (hlPayloadBytes l - used <? size)%Z then raise ErrCapacityIn else mret tt.

(** What the reader yields, [None] when it fails; one byte past the limit is
    enough to refuse. *)
Definition accept (l : holdLimits) (ad : admission) (gateway id sender : gostr) (raw : option (list Z)) : Ing unit :=
  if negb (identifier gateway) || negb (identifier id) || negb (address sender true) then raise ErrConflictIn
  else match raw with
  | None => raise ErrReadIn
  | Some raw =>
      let data := take (Z.to_nat (hlMessageBytes l + 1)) raw in
      if bool_decide (data = []) || (hlMessageBytes l <? Z.of_nat (length data))%Z then raise ErrCapacityIn
      else
        let digest := hashIncoming data in
        beginAdmission l ad ;;
        old ← select (fun d => find_first (isHeld gateway id) (spHeld d));
        match old with
        | None =>
            t ← select (archivedDelivery gateway id);
            assertTx match t with Some t => (tSender t =s? sender) && (tDigest t =s? digest) | None => false end ErrConflictIn
        | Some r =>
            if negb (hSender r =s? sender) then raise ErrConflictIn
            else if negb (hState r =s? $"staged") then assertTx (hDigest r =s? digest) ErrConflictIn
            else admitPayload l ad (Z.of_nat (length data)) ;; updateHeld (isHeld gateway id) (filled digest data ($"pending"))
        end
  end.

Definition quarantine (l : holdLimits) (ad : admission) (now : Z) (gateway id sender : gostr) (b : Binding) (raw : list Z) : Ing unit :=
  if negb (identifier gateway) || negb (identifier id) || negb (address sender true) || negb (address (bAddress b) false) || (bGeneration b <=? 0)%Z
     || negb (Unresolved b) && (negb (identifier (bIssuer b)) || negb (identifier (bSubject b)) || negb (identifier (bMailbox b)))
  then raise ErrConflictIn
  else if bool_decide (raw = []) || (hlMessageBytes l <? Z.of_nat (length raw))%Z then raise ErrCapacityIn
  else
    let digest := hashIncoming raw in
    beginAdmission l ad ;;
    old ← select (fun d => find_first (isHeld gateway id) (spHeld d));
    match old with
    | None =>
        t ← select (archivedDelivery gateway id);
        match t with
        | Some t => assertTx ((tSender t =s? sender) && (tDigest t =s? digest)) ErrConflictIn
        | None =>
            count ← select (fun d => Z.of_nat (length (spHeld d)));
            if (hlRecords l <=? count)%Z then raise ErrCapacityIn
            else
              admitPayload l ad (Z.of_nat (length raw)) ;;
              insertHeld gateway id sender (unix now) digest (Some raw) ($"quarantined") ;;
              insertBinding gateway id b
        end
    | Some r =>
        if negb (hSender r =s? sender) then raise ErrConflictIn
        else if hState r =s? $"quarantined" then assertTx (hDigest r =s? digest) ErrConflictIn
        else
          bindings ← select (readBindings gateway id);
          if negb (hState r =s? $"staged") || negb (bool_decide (bindings = [b])) then raise ErrConflictIn
          else
            admitPayload l ad (Z.of_nat (length raw)) ;;
            updateHeld (isHeld gateway id) (fun r => unleased (filled digest raw ($"quarantined") r))
    end.

(** ** Reading *)

(** A deliveries row, or what its tombstone says. *)
Definition readDelivery (gateway id : gostr) : Ing Delivery :=
  row ← select (fun d => find_first (isHeld gateway id) (spHeld d));
  match row with
  | None =>
      t ← select (archivedDelivery gateway id);
      match t with
      | None => raise ErrNoRows
      | Some t => mret (mkHeldDelivery gateway id (tSender t) (tDigest t) [] ($"archived") [] [] (tDisposition t))
      end
  | Some r =>
      bindings ← select (readBindings gateway id);
      mret (mkHeldDelivery gateway id (hSender r) (hDigest r) (default [] (hRaw r)) (hState r) bindings (hLease r) [])
  end.

(** The first [limit] rows past [after] in the order of their rowids. *)
Definition byRow (a b : heldRow) : bool := (hRow a <? hRow b)%Z.
Definition page (after : Z) (limit : Z) (p : heldRow -> bool) (d : spool) : list heldRow :=
  take (Z.to_nat limit) (sortStable byRow (List.filter (fun r => p r && (after <? hRow r)%Z) (spHeld d))).
Definition pageable (after limit : Z) : bool := negb ((after <? 0)%Z || (limit <? 1)%Z || (100 <? limit)%Z).
Definition list_ (gateway : gostr) (after limit : Z) : Ing (list Summary) :=
  if negb (identifier gateway) || negb (pageable after limit) then raise ErrConflictIn
  else select (fun d => (fun r => mkSummary (hRow r) (hID r) (hState r)) <$> page after limit (fun r => hGateway r =s? gateway) d).
Definition listQuarantined (after limit : Z) : Ing (list Quarantined) :=
  if negb (pageable after limit) then raise ErrConflictIn
  else select (fun d => (fun r => mkQuarantined (hRow r) (hGateway r) (hID r) (hSender r) (hCreated r) (heldSize r) (readBindings (hGateway r) (hID r) d))
                          <$> page after limit (fun r => hState r =s? $"quarantined") d).
(** The bytes a mailbox will hold once its pending mail is imported: one count
    for each of its bindings. *)
Definition heldBytes (mailbox : gostr) (d : spool) : Z :=
  foldr (fun b n => (if bMailbox (brBinding b) =s? mailbox then
                       match find_first (isHeld (brGateway b) (brID b)) (spHeld d) with
                       | Some r => if hState r =s? $"pending" then heldSize r else 0
                       | None => 0
                       end
                     else 0) + n)%Z 0%Z (spBindings d).

(** ** Leases *)

(** Every binding names the current owner and generation of its address. *)
Definition routeCovers (now : Z) (r : Route) (b : Binding) : bool :=
  rtActive r && (unix now <? default 0 (rtValidUntil r))%Z && (rtIssuer r =s? bIssuer b) && (rtSubject r =s? bSubject b)
  && (rtMailbox r =s? bMailbox b) && (rtGeneration r =? bGeneration b)%Z.
Definition currentBindings (now : Z) (gateway id : gostr) (d : spool) : bool :=
  let l := readBindings gateway id d in
  negb (bool_decide (l = []))
  && forallb (fun b => match find_first (isRoute (bAddress b)) (spRoutes d) with Some r => routeCovers now r b | None => false end) l.

(** Transactions that commit and may still answer an error. *)
Definition quarantinePending (now : Z) (gateway id : gostr) : Ing (res ingErr unit) :=
  let due r := isHeld gateway id r && (hState r =s? $"pending") && ((hLease r =s? []) || (hLeaseUntil r <=? unix now)%Z) in
  n ← select (fun d => length (List.filter due (spHeld d)));
  updateHeld due unleased ;;
  mret (if (n =? 1)%nat then Ok tt else Err ErrLease).

Definition claim (now duration : Z) (release : bool) (token : option gostr) (gateway id : gostr) : Ing (res ingErr Delivery) :=
  let want := if release then $"quarantined" else $"pending" in
  if (duration <? 1000000000)%Z || (300000000000 <? duration)%Z then raise ErrLease
  else
    dv ← readDelivery gateway id;
    if negb (dvState dv =s? want) then raise ErrLease
    else
      until ← select (fun d => match find_first (isHeld gateway id) (spHeld d) with Some r => hLeaseUntil r | None => 0%Z end);
      if (unix now <? until)%Z then raise ErrLease
      else
        current ← select (currentBindings now gateway id);
        if negb current && negb release then updateHeld (isHeld gateway id) unleased ;; mret (Err ErrRoute)
        else match token with
        | None => raise ErrStorage
        | Some lease =>
            updateHeld (isHeld gateway id) (leased lease (unix (now + duration))) ;;
            mret (Ok (mkHeldDelivery gateway id (dvSender dv) (dvDigest dv) (dvRaw dv) (dvState dv) (dvBindings dv) lease []))
        end.

Definition acknowledge (now : Z) (release : bool) (gateway id lease digest : gostr) : Ing (res ingErr unit) :=
  let want := if release then $"quarantined" else $"pending" in
  let disposition := if release then $"released" else $"imported" in
  if (lease =s? []) || (digest =s? []) then raise ErrLease
  else
    old ← select (fun d => find_first (isHeld gateway id) (spHeld d));
    match old with
    | None =>
        t ← select (archivedDelivery gateway id);
        assertTx match t with Some t => (tDigest t =s? digest) && (tDisposition t =s? disposition) | None => false end ErrLease ;;
        mret (Ok tt)
    | Some r =>
        if negb (hDigest r =s? digest) || negb (hLease r =s? lease) then raise ErrLease
        else if negb (hState r =s? want) || (hLeaseUntil r <=? unix now)%Z then raise ErrLease
        else
          current ← select (currentBindings now gateway id);
          if negb current && negb release then updateHeld (isHeld gateway id) unleased ;; mret (Err ErrRoute)
          else archive false (unix now) disposition (fun r => isHeld gateway id r && (hState r =s? want)) ;; mret (Ok tt)
    end.

(** ** Quarantine *)

Definition discard (now : Z) (gateway id : gostr) : Ing gostr :=
  old ← select (fun d => find_first (isHeld gateway id) (spHeld d));
  match old with
  | None =>
      t ← select (archivedDelivery gateway id);
      match t with
      | None => raise ErrNoRows
      | Some t => if negb (tDisposition t =s? $"discarded") && negb (tDisposition t =s? $"partially_released") then raise ErrNotQuarantined
                  else mret (tDisposition t)
      end
  | Some r =>
      if negb (hState r =s? $"quarantined") || (unix now <? hLeaseUntil r)%Z then raise ErrNotQuarantined
      else
        let disposition := if negb (hLease r =s? []) then $"partially_released" else $"discarded" in
        archive false (unix now) disposition (fun r => isHeld gateway id r && (hState r =s? $"quarantined")) ;; mret disposition
  end.

Definition resolveQuarantined (now : Z) (gateway id : gostr) (b : Binding) : Ing unit :=
  if Unresolved b || negb (identifier (bIssuer b)) || negb (identifier (bSubject b)) || negb (identifier (bMailbox b)) || (bGeneration b <=? 0)%Z
  then raise ErrConflictIn
  else
    old ← select (fun d => find_first (isHeld gateway id) (spHeld d));
    match old with
    | None => raise ErrNotQuarantined
    | Some r =>
        if negb (hState r =s? $"quarantined") || (unix now <? hLeaseUntil r)%Z then raise ErrNotQuarantined
        else
          bindings ← select (readBindings gateway id);
          match bindings with
          | [b0] =>
              if negb (bAddress b0 =s? bAddress b) || negb (Unresolved b0) && negb (bool_decide (b0 = b)) then raise ErrConflictIn
              else exec (fun d => setBindings (updateWhere (isBound gateway id)
                     (fun x => mkBindingRow (brGateway x) (brID x) (mkBinding (bAddress (brBinding x)) (bIssuer b) (bSubject b) (bMailbox b) (bGeneration b)))
                     (spBindings d)) d)
          | _ => raise ErrConflictIn
          end
    end.
End Ops.
