(* ===== verification/Blocks.v ===== *)
(** * Blocks: the sender block list and the evidence for automatic blocks (backend/internal/ingress/blocks.go, autoblocks.go)

    Two JSON files beside the holding store, each under its own lock.
    Administrators block and unblock senders; reject verdicts on authenticated
    mail block an address for a while, and several blocked addresses their
    domain.  Times are Unix milliseconds.  The first eight bytes of SHA-256 and
    the size of the evidence's JSON are a class. *)

From stdpp Require Import gmap.
From S2P Require Import Prelude GoText FileStore GoCodec SendAs MailboxModel Outbox IngressModel Ingress Wire.

Inductive blkErr :=
  | ErrBlockInvalid | ErrBlockOwn | ErrBlockFull | ErrBlockStore | ErrAutomaticFull | errManualCovers
  | ErrListMalformed | errEvidence | ErrIO | ErrNilPointer | ErrFuel | ErrUnblockNotRecorded (e : blkErr).

Record SenderBlock := mkSB {
  sbID : gostr; sbKind : gostr; sbValue : gostr; sbUntil : option Z; sbSource : gostr; sbLevel : Z; sbCreatedAt : Z; sbActor : gostr; sbReason : gostr;
}.
#[export] Instance SenderBlock_eq_dec : EqDecision SenderBlock.
Proof. solve_decision. Defined.
Record blocksDoc := mkBlocksDoc { bdVersion : Z; bdBlocks : list SenderBlock }.

(** The directory, the lock of the file, its read, its replacement. *)
Record fileIO := mkFileIO { fiDir : bool; fiLock : bool; fiRead : bool; fiWrite : write_outcome }.
Definition fileIO_ok : fileIO := mkFileIO true true true WriteOk.

Definition MaxBlocks : Z := 5000.
Definition maxBlockWire : Z := Z.shiftl 512 10.
Definition maxOneBlockWire : Z := 2048.
Definition blockReasons : list gostr := [$"spam"; $"phishing"; $"abuse"; $"other"].
Definition manual (b : SenderBlock) : bool := sbSource b =s? $"manual".
Definition automatic (b : SenderBlock) : bool := sbSource b =s? $"automatic".

Definition active (now : Z) (b : SenderBlock) : bool := match sbUntil b with None => true | Some u => (now <? u)%Z end.
Definition WireBlock (b : SenderBlock) : Block :=
  if sbKind b =s? $"domain" then mkBlock [] (sbValue b) (sbUntil b) else mkBlock (sbValue b) [] (sbUntil b).
Definition NormalizeBlock (kind value : gostr) : option gostr :=
  let v := LowerASCII value in
  if (kind =s? $"address") && ValidBlock (mkBlock v [] None) || (kind =s? $"domain") && ValidBlock (mkBlock [] v None) then Some v else None.
Definition wireSize (l : list SenderBlock) : Z := foldr (fun b n => BlockWireBytes (WireBlock b) + n)%Z 0%Z l.

(** ** Evidence records *)

Record evidenceRecord := mkEvRec { erDomain : gostr; erHits : list Z; erLevel : Z; erLast : Z; erBlocked : Z }.
Record evidenceDoc := mkEvDoc {
  edVersion : Z; edAddresses : gmap gostr evidenceRecord; edDomains : gmap gostr evidenceRecord; edGood : gmap gostr Z; edParents : gmap gostr Z;
  edGoodSince : Z; edUnblocked : gmap gostr Z; edResetAt : Z;
}.
Definition evidenceDoc_eta (d : evidenceDoc) : evidenceDoc :=
  mkEvDoc (edVersion d) (edAddresses d) (edDomains d) (edGood d) (edParents d) (edGoodSince d) (edUnblocked d) (edResetAt d).
Definition setAddresses (v : gmap gostr evidenceRecord) : evidenceDoc -> evidenceDoc := ltac:(setter_of evidenceDoc_eta edAddresses v).
Definition setDomains (v : gmap gostr evidenceRecord) : evidenceDoc -> evidenceDoc := ltac:(setter_of evidenceDoc_eta edDomains v).
Definition setGood (v : gmap gostr Z) : evidenceDoc -> evidenceDoc := ltac:(setter_of evidenceDoc_eta edGood v).
Definition setParents (v : gmap gostr Z) : evidenceDoc -> evidenceDoc := ltac:(setter_of evidenceDoc_eta edParents v).
Definition setGoodSince (v : Z) : evidenceDoc -> evidenceDoc := ltac:(setter_of evidenceDoc_eta edGoodSince v).
Definition setUnblocked (v : gmap gostr Z) : evidenceDoc -> evidenceDoc := ltac:(setter_of evidenceDoc_eta edUnblocked v).
Definition noRecord : evidenceRecord := mkEvRec [] [] 0 0 0.
Definition newEvidence (resetAt : Z) : evidenceDoc := mkEvDoc 1 ∅ ∅ ∅ ∅ 0 ∅ resetAt.

Class BlockLib := { sum8 : gostr -> list Z; evidenceSize : evidenceDoc -> Z; }.
Class BlockLibLaws `{BlockLib} : Prop := sum8_bytes s : length (sum8 s) = 8%nat /\ Forall byteOK (sum8 s).

Section List.
Context {BL : BlockLib}.

Definition BlockID (kind value : gostr) : gostr := hexEncode (sum8 (kind ++ $":" ++ value)).
Definition validID (id : gostr) : bool := match hexDecode id with Some raw => (length raw =? 8)%nat && (hexEncode raw =s? id) | None => false end.
Definition validSB (b : SenderBlock) : bool :=
  bool_decide (NormalizeBlock (sbKind b) (sbValue b) = Some (sbValue b)) && (sbID b =s? BlockID (sbKind b) (sbValue b))
  && match sbUntil b with None => true | Some u => (1 <=? u)%Z && (u <=? safeInteger)%Z end
  && (manual b && (sbLevel b =? 0)%Z || automatic b && (1 <=? sbLevel b)%Z) && (1 <=? sbCreatedAt b)%Z
  && identifier (sbActor b) && (utf8Len (sbActor b) <=? 128)%Z && bool_decide (sbReason b ∈ blockReasons).

(** ** Reading *)

Fixpoint parseLoop (seen : list gostr) (wire : Z) (l : list SenderBlock) : bool :=
  match l with
  | [] => true
  | b :: l' =>
      let wire := (wire + BlockWireBytes (WireBlock b))%Z in
      if negb (validSB b) || bool_decide (sbID b ∈ seen) || (maxBlockWire <? wire)%Z then false else parseLoop (sbID b :: seen) wire l'
  end.
Definition ParseBlocks (doc : blocksDoc) : res blkErr (list SenderBlock) :=
  if negb (bdVersion doc =? 1)%Z || (MaxBlocks <? Z.of_nat (length (bdBlocks doc)))%Z || negb (parseLoop [] 0 (bdBlocks doc)) then Err ErrListMalformed
  else Ok (bdBlocks doc).
Definition loadBlocks (readable : bool) (f : file blocksDoc) : res blkErr (list SenderBlock) :=
  match f with
  | FMissing => Ok []
  | _ => if negb readable then Err ErrIO else match f with FData doc => ParseBlocks doc | _ => Err ErrListMalformed end
  end.
Definition blockLess (a b : SenderBlock) : bool := strLtb (sbKind a ++ $":" ++ sbValue a) (sbKind b ++ $":" ++ sbValue b).
Definition listBlocks (now : Z) (readable : bool) (f : file blocksDoc) : res blkErr (list SenderBlock) :=
  match loadBlocks readable f with Ok all => Ok (sortStable blockLess (List.filter (active now) all)) | Err e => Err e end.

Definition blocks (address : gostr) (b : SenderBlock) : bool :=
  (sbKind b =s? $"address") && (sbValue b =s? address) || (sbKind b =s? $"domain") && (sbValue b =s? domainOf address).
Definition Blocked (sender : gostr) (now : Z) (readable : bool) (f : file blocksDoc) : res blkErr bool :=
  if (sender =s? []) || bool_decide (cutLastAt sender = None) then Ok false
  else match listBlocks now readable f with Ok l => Ok (existsb (blocks (LowerASCII sender)) l) | Err e => Err e end.

(** ** Changing *)

Definition changeBlocks {A} (now : Z) (io : fileIO) (edit : list SenderBlock -> res blkErr (A * list SenderBlock)) (f : file blocksDoc) : res blkErr A * file blocksDoc :=
  if negb (fiDir io) then (Err ErrBlockStore, f)
  else if negb (fiLock io) then (Err ErrIO, f)
  else match listBlocks now (fiRead io) f with
  | Err e => (Err e, f)
  | Ok l =>
      match edit l with
      | Err e => (Err e, f)
      | Ok (a, l) =>
          let f' := FData (mkBlocksDoc 1 l) in
          match fiWrite io with WriteOk => (Ok a, f') | WriteFailed => (Err ErrIO, f) | WriteSyncFailed => (Err ErrIO, f') end
      end
  end.

Definition automatics (l : list SenderBlock) : list SenderBlock := List.filter automatic l.
Definition fits (l : list SenderBlock) : bool :=
  (Z.of_nat (length l) <=? MaxBlocks)%Z && (wireSize l <=? maxBlockWire)%Z
  && (Z.of_nat (length (automatics l)) <=? MaxBlocks / 2)%Z && (wireSize (automatics l) <=? maxBlockWire / 2)%Z.
Definition automaticFull (l : list SenderBlock) : bool :=
  (MaxBlocks / 2 <=? Z.of_nat (length (automatics l)))%Z || (maxBlockWire / 2 - maxOneBlockWire <? wireSize (automatics l))%Z.

(** The automatic block that expires first; a nil [Until] among two is a panic. *)
Fixpoint victimLoop (i : nat) (victim : option (nat * option Z)) (l : list SenderBlock) : res blkErr (option nat) :=
  match l with
  | [] => Ok (fst <$> victim)
  | x :: l' =>
      if automatic x then
        match victim with
        | None => victimLoop (S i) (Some (i, sbUntil x)) l'
        | Some (_, best) =>
            match sbUntil x, best with
            | Some u, Some v => victimLoop (S i) (if (u <? v)%Z then Some (i, sbUntil x) else victim) l'
            | _, _ => Err ErrNilPointer
            end
        end
      else victimLoop (S i) victim l'
  end.
Fixpoint evict (fuel : nat) (auto : bool) (l : list SenderBlock) : res blkErr (list SenderBlock) :=
  if fits l then Ok l
  else if auto then Err ErrAutomaticFull
  else match fuel with
  | O => Err ErrFuel
  | S fuel =>
      match victimLoop 0 None l with
      | Err e => Err e
      | Ok None => Err ErrBlockFull
      | Ok (Some i) => evict fuel auto (delete i l)
      end
  end.

(** A manual block that covers [b]: its own, or its domain's. *)
Definition covers (b x : SenderBlock) : bool :=
  manual x && ((sbID x =s? sbID b) || match cutLastAt (sbValue b) with Some (_, d) => (sbKind x =s? $"domain") && (sbValue x =s? d) | None => false end).
Definition without (id : gostr) (l : list SenderBlock) : list SenderBlock := List.filter (fun x => negb (sbID x =s? id)) l.
Definition putEdit (b : SenderBlock) (l : list SenderBlock) : res blkErr (unit * list SenderBlock) :=
  if automatic b && existsb (covers b) l then Err errManualCovers
  else let l := without (sbID b) l ++ [b] in
       match evict (length l) (automatic b) l with Ok l => Ok (tt, l) | Err e => Err e end.
Definition normalized (now : Z) (b : SenderBlock) (value : gostr) : SenderBlock :=
  mkSB (BlockID (sbKind b) value) (sbKind b) value (sbUntil b) (sbSource b) (sbLevel b) now (sbActor b) (if sbReason b =s? [] then $"other" else sbReason b).
Definition Put (b : SenderBlock) (own : list gostr) (now : Z) (io : fileIO) (f : file blocksDoc) : res blkErr SenderBlock * file blocksDoc :=
  match NormalizeBlock (sbKind b) (sbValue b) with
  | None => (Err ErrBlockInvalid, f)
  | Some value =>
      let b := normalized now b value in
      if negb (validSB b) || negb (active now b) then (Err ErrBlockInvalid, f)
      else if bool_decide (domainOf value ∈ own) then (Err ErrBlockOwn, f)
      else match changeBlocks now io (putEdit b) f with (Ok _, f) => (Ok b, f) | (Err e, f) => (Err e, f) end
  end.

(** The deletion of [Remove]. *)
Definition deleteBlock (id : gostr) (now : Z) (io : fileIO) (f : file blocksDoc) : res blkErr bool * file blocksDoc :=
  changeBlocks now io (fun l => Ok (existsb (fun x => sbID x =s? id) l, without id l)) f.
End List.

(** ** Evidence *)

Definition autoHits : nat := 5.
Definition domainHits : nat := 5.
Definition hour : Z := 3600000.
Definition autoWindow : Z := hour.
Definition domainWindow : Z := (24 * hour)%Z.
Definition cleanPeriod : Z := (30 * 24 * hour)%Z.
Definition UnblockWindow : Z := cleanPeriod.
Definition domainWarmUp : Z := (30 * 24 * hour)%Z.
Definition MaxEvidence : Z := 4096.
Definition MaxGoodDomains : Z := 50000.
Definition maxGoodPerParent : Z := 50.
Definition MaxEvidenceBytes : Z := Z.shiftl 8 20.
Definition autoCooldown : list Z := [hour; 24 * hour; 7 * 24 * hour]%Z.

Record Authentication := mkAuth { auSender : gostr; auFrom : gostr; auSPF : bool; auDKIM : list gostr }.
Definition Identity (a : Authentication) : option gostr :=
  let sender := LowerASCII (auSender a) in
  match cutLastAt sender with
  | Some (_ :: _, domain) =>
      if negb (auSPF a) || negb (ValidSender (auSender a)) || negb (sender =s? LowerASCII (auFrom a)) || negb (bool_decide (domain ∈ auDKIM a)) then None else Some sender
  | _ => None
  end.

(** The evidence file's calls; [eiRename] sets a damaged file aside. *)
Record evIO := mkEvIO { eiFile : fileIO; eiRename : bool }.
Definition evIO_ok : evIO := mkEvIO fileIO_ok true.
Record receiving := mkReceiving { rcBlocks : file blocksDoc; rcEvidence : file evidenceDoc; rcDamaged : bool }.

Section Evidence.
Context {BL : BlockLib} {RO : RangeOrder}.

Definition recordOK (address : bool) (id : gostr) (r : evidenceRecord) : bool :=
  negb (negb (validID id) || negb (Bool.eqb address (validID (erDomain r))) || negb address && negb (erDomain r =s? []) || (autoHits <=? length (erHits r))%nat || (erLevel r <? 0)%Z
        || (Z.of_nat (length autoCooldown) <? erLevel r)%Z || (erLast r <? 1)%Z || (erBlocked r <? 0)%Z || existsb (fun t => t <? 1)%Z (erHits r)).
Definition mapAll {V} (p : gostr -> V -> bool) (m : gmap gostr V) : bool := bool_decide (map_Forall (fun k v => p k v = true) m).
Definition mapSize {V} (m : gmap gostr V) : Z := Z.of_nat (size m).
(** Bytes longer than [MaxEvidenceBytes] count as corrupt. *)
Definition parseEvidence (doc : evidenceDoc) : bool :=
  negb (negb (edVersion doc =? 1)%Z || (edGoodSince doc <? 0)%Z || (edResetAt doc <? 0)%Z || (MaxEvidence <? mapSize (edAddresses doc))%Z || (MaxEvidence <? mapSize (edDomains doc))%Z
        || (MaxEvidence <? mapSize (edUnblocked doc))%Z || (MaxGoodDomains <? mapSize (edGood doc))%Z || (MaxGoodDomains <? mapSize (edParents doc))%Z)
  && mapAll (fun id n => validID id && (1 <=? n)%Z && (n <=? maxGoodPerParent)%Z) (edParents doc)
  && mapAll (recordOK true) (edAddresses doc) && mapAll (recordOK false) (edDomains doc)
  && mapAll (fun id t => validID id && (1 <=? t)%Z) (edGood doc) && mapAll (fun id t => validID id && (1 <=? t)%Z) (edUnblocked doc).
Definition loadEvidence (readable : bool) (f : file evidenceDoc) : res blkErr evidenceDoc :=
  match f with
  | FMissing => Ok (newEvidence 0)
  | _ => if negb readable then Err ErrIO else match f with FData doc => if parseEvidence doc then Ok doc else Err errEvidence | _ => Err errEvidence end
  end.

(** [trim]: the loop over the map, then the deletion, until it fits. *)
Definition trimVictim {V} (keep : V -> Z) (l : list (gostr * V)) : option (gostr * V) :=
  foldl (fun victim '(id, v) => match victim with None => Some (id, v) | Some (_, w) => if (keep v <? keep w)%Z then Some (id, v) else victim end) None l.
Fixpoint trim {V} (fuel : nat) (limit : Z) (keep : V -> Z) (m : gmap gostr V) : gmap gostr V :=
  if (mapSize m <=? limit)%Z then m
  else match fuel, trimVictim keep (range_order _ (map_to_list m)) with
  | S fuel, Some (id, _) => trim fuel limit keep (base.delete id m)
  | _, _ => m
  end.
Definition keepRecord (r : evidenceRecord) : Z := (erLast r + Z.shiftl (Z.min (erLevel r) 1) 61)%Z.

Definition dropClean (now : Z) (m : gmap gostr evidenceRecord) : gmap gostr evidenceRecord := base.filter (fun '(_, r) => (now - cleanPeriod < erLast r)%Z) m.
Definition swept (now : Z) (doc : evidenceDoc) : evidenceDoc :=
  setUnblocked (base.filter (fun '(_, until) => (now < until)%Z) (edUnblocked doc)) (setDomains (dropClean now (edDomains doc)) (setAddresses (dropClean now (edAddresses doc)) doc)).
Definition trimmed (doc : evidenceDoc) : evidenceDoc :=
  setUnblocked (trim (size (edUnblocked doc)) MaxEvidence (fun u => u) (edUnblocked doc))
    (setDomains (trim (size (edDomains doc)) MaxEvidence keepRecord (edDomains doc))
      (setAddresses (trim (size (edAddresses doc)) MaxEvidence keepRecord (edAddresses doc)) doc)).

(** [change]: the edit may itself change the block list. *)
Definition changeEvidence {A} (now : Z) (io : evIO) (edit : evidenceDoc -> file blocksDoc -> A * evidenceDoc * file blocksDoc) (nothing : A) (s : receiving) :
    A * option blkErr * receiving :=
  if negb (fiDir (eiFile io)) then (nothing, Some ErrBlockStore, s)
  else if negb (fiLock (eiFile io)) then (nothing, Some ErrIO, s)
  else
    match (match loadEvidence (fiRead (eiFile io)) (rcEvidence s) with
           | Ok doc => Ok (doc, s)
           | Err errEvidence => if eiRename io then Ok (newEvidence now, mkReceiving (rcBlocks s) FMissing true) else Err ErrIO
           | Err e => Err e
           end) with
    | Err e => (nothing, Some e, s)
    | Ok (doc, s) =>
        let '(a, doc, f) := edit (swept now doc) (rcBlocks s) in
        let doc := trimmed doc in
        let s := mkReceiving f (rcEvidence s) (rcDamaged s) in
        let s' := mkReceiving f (FData doc) (rcDamaged s) in
        if (MaxEvidenceBytes <? evidenceSize doc)%Z then (a, Some errEvidence, s)
        else match fiWrite (eiFile io) with WriteOk => (a, None, s') | WriteFailed => (a, Some ErrIO, s) | WriteSyncFailed => (a, Some ErrIO, s') end
    end.

(** ** Verdicts *)

(** Administrators block and unblock while an evidence change is under way. *)
Inductive blockCall :=
  | BPut (kind value : gostr) (until : option Z) (actor reason : gostr) (own : list gostr) (now : Z) (io : fileIO)
  | BDelete (id : gostr) (now : Z) (io : fileIO).
Definition manualBlock (kind value : gostr) (until : option Z) (actor reason : gostr) : SenderBlock := mkSB [] kind value until ($"manual") 0 0 actor reason.
Definition runBlock (c : blockCall) (f : file blocksDoc) : file blocksDoc :=
  match c with
  | BPut kind value until actor reason own now io => (Put (manualBlock kind value until actor reason) own now io f).2
  | BDelete id now io => (deleteBlock id now io f).2
  end.
Definition runBlocks (l : list blockCall) (f : file blocksDoc) : file blocksDoc := foldl (fun f c => runBlock c f) f l.

(** [escalate]; [mid] is what others do to the list before it gets the lock. *)
Definition escalate (r : evidenceRecord) (kind value : gostr) (own : list gostr) (now : Z) (mid : list blockCall) (io : fileIO) (f : file blocksDoc) :
    evidenceRecord * list SenderBlock * option blkErr * file blocksDoc :=
  let level := Z.min (erLevel r + 1) (Z.of_nat (length autoCooldown)) in
  let until := (now + nth (Z.to_nat (level - 1)) autoCooldown 0)%Z in
  let r := mkEvRec (erDomain r) [] (erLevel r) now (erBlocked r) in
  match Put (mkSB [] kind value (Some until) ($"automatic") level 0 ($"automatic") ($"abuse")) own now io (runBlocks mid f) with
  | (Ok b, f) => (mkEvRec (erDomain r) (erHits r) level (erLast r) now, [b], None, f)
  | (Err errManualCovers, f) => (r, [], None, f)
  | (Err e, f) => (r, [], Some e, f)
  end.

Record rejectIO := mkRejectIO { riEvidence : evIO; riMid1 : list blockCall; riPut1 : fileIO; riMid2 : list blockCall; riPut2 : fileIO }.
Definition rejectEdit (address domain : gostr) (own : list gostr) (now : Z) (io : rejectIO) (doc : evidenceDoc) (f : file blocksDoc) :
    (list SenderBlock * option blkErr) * evidenceDoc * file blocksDoc :=
  let addressID := BlockID ($"address") address in
  let domainID := BlockID ($"domain") domain in
  if (now <? default 0 (edUnblocked doc !! addressID))%Z then (([], None), doc, f)
  else
    let r := default noRecord (edAddresses doc !! addressID) in
    let hits := List.filter (fun t => negb (t <=? now - autoWindow)%Z) (erHits r) ++ [now] in
    let r := mkEvRec domainID hits (erLevel r) now (erBlocked r) in
    let '(r, made, putErr, f) := if (autoHits <=? length hits)%nat then escalate r ($"address") address own now (riMid1 io) (riPut1 io) f else (r, [], None, f) in
    let doc := setAddresses (<[addressID := r]> (edAddresses doc)) doc in
    if negb (erBlocked r =? now)%Z then ((made, putErr), doc, f)
    else
      let d := default noRecord (edDomains doc !! domainID) in
      let since := Z.max (now - domainWindow) (erBlocked d) in
      let count := length (List.filter (fun '(_, x) => (erDomain x =s? domainID) && (since <? erBlocked x)%Z) (map_to_list (edAddresses doc))) in
      if (count <? domainHits)%nat || bool_decide (is_Some (edGood doc !! domainID)) || (edGoodSince doc =? 0)%Z || (now <? edGoodSince doc + domainWarmUp)%Z
         || (now <? default 0 (edUnblocked doc !! domainID))%Z
      then ((made, putErr), doc, f)
      else
        let '(d, made2, putErr2, f) := escalate d ($"domain") domain own now (riMid2 io) (riPut2 io) f in
        ((made ++ made2, match putErr2 with Some _ => putErr2 | None => putErr end), setDomains (<[domainID := d]> (edDomains doc)) doc, f).
Definition Reject (auth : Authentication) (own : list gostr) (now : Z) (io : rejectIO) (s : receiving) : list SenderBlock * option blkErr * receiving :=
  match Identity auth with
  | None => ([], None, s)
  | Some address =>
      let domain := domainOf address in
      if bool_decide (domain ∈ own) then ([], None, s)
      else
        let '((made, putErr), e, s) := changeEvidence now (riEvidence io) (rejectEdit address domain own now io) ([], None) s in
        (made, match e with Some _ => e | None => putErr end, s)
  end.

(** The good domains; the first read is without the lock. *)
Definition acceptEdit (id parent : gostr) (now : Z) (doc : evidenceDoc) : evidenceDoc :=
  let doc := if (edGoodSince doc =? 0)%Z then setGoodSince now doc else doc in
  if (0 <? default 0 (edGood doc !! id))%Z || (MaxGoodDomains <=? mapSize (edGood doc))%Z || (maxGoodPerParent <=? default 0 (edParents doc !! parent))%Z then doc
  else setParents (<[parent := (default 0 (edParents doc !! parent) + 1)%Z]> (edParents doc)) (setGood (<[id := now]> (edGood doc)) doc).
Definition parentDomain (domain : gostr) : gostr := let labels := splitOn 46 domain in join ($".") (drop (length labels - 2) labels).
Definition Accepted (auth : Authentication) (now : Z) (readable : bool) (io : evIO) (s : receiving) : option blkErr * receiving :=
  match Identity auth with
  | None => (None, s)
  | Some address =>
      let domain := domainOf address in
      let id := BlockID ($"domain") domain in
      let known := match loadEvidence readable (rcEvidence s) with Ok doc => (0 <? default 0 (edGood doc !! id))%Z | Err _ => false end in
      if known then (None, s)
      else let '(_, e, s) := changeEvidence now io (fun doc f => (tt, acceptEdit id (BlockID ($"domain") (parentDomain domain)) now doc, f)) tt s in (e, s)
  end.

Definition unblocked (id : gostr) (now : Z) (io : evIO) (s : receiving) : option blkErr * receiving :=
  let '(_, e, s) := changeEvidence now io (fun doc f => (tt, setUnblocked (<[id := (now + UnblockWindow)%Z]> (edUnblocked doc)) doc, f)) tt s in (e, s).

(** [Remove], uninterrupted. *)
Definition Remove (id : gostr) (now : Z) (readable : bool) (eio : evIO) (io : fileIO) (s : receiving) : res blkErr bool * receiving :=
  if negb (validID id) then (Err ErrBlockInvalid, s)
  else
    let inForce := match listBlocks now readable (rcBlocks s) with Ok l => existsb (fun x => sbID x =s? id) l | Err _ => false end in
    let '(suppressed, s) := if inForce then unblocked id now eio s else (None, s) in
    match deleteBlock id now io (rcBlocks s) with
    | (Ok found, f) => (match suppressed with Some e => if found : bool then Err (ErrUnblockNotRecorded e) else Ok found | None => Ok found end, mkReceiving f (rcEvidence s) (rcDamaged s))
    | (Err e, f) => (Err e, mkReceiving f (rcEvidence s) (rcDamaged s))
    end.

Record EvidenceStatus := mkStatus { esDamaged : bool; esResetAt : option Z; esDomainBlocksFrom : option Z; esGoodFull : bool; esAutomaticFull : bool }.
Definition Status (now : Z) (readable : bool) (s : receiving) : EvidenceStatus :=
  let full := match listBlocks now readable (rcBlocks s) with Ok l => automaticFull l | Err _ => false end in
  match loadEvidence readable (rcEvidence s) with
  | Err _ => mkStatus true None None false full
  | Ok doc => mkStatus false (if (0 <? edResetAt doc)%Z then Some (edResetAt doc) else None)
                (if (0 <? edGoodSince doc)%Z then Some (edGoodSince doc + domainWarmUp)%Z else None) (MaxGoodDomains <=? mapSize (edGood doc))%Z full
  end.

(** ** Runs *)

Inductive rcvEvent :=
  | VBlock (c : blockCall)
  | VUnblock (id : gostr) (now : Z) (io : evIO)
  | VReject (auth : Authentication) (own : list gostr) (now : Z) (io : rejectIO)
  | VAccepted (auth : Authentication) (now : Z) (readable : bool) (io : evIO).
(** What an event made, and its error. *)
Definition stepV (e : rcvEvent) (s : receiving) : (list SenderBlock * option blkErr) * receiving :=
  match e with
  | VBlock c => (([], None), mkReceiving (runBlock c (rcBlocks s)) (rcEvidence s) (rcDamaged s))
  | VUnblock id now io => if validID id then let '(e, s) := unblocked id now io s in (([], e), s) else (([], Some ErrBlockInvalid), s)
  | VReject auth own now io => Reject auth own now io s
  | VAccepted auth now readable io => let '(e, s) := Accepted auth now readable io s in (([], e), s)
  end.
Definition newReceiving : receiving := mkReceiving FMissing FMissing false.
End Evidence.
