(* ===== verification/BlocksTheorems.v ===== *)
(** * BlocksTheorems: what the block list and its evidence promise *)

From stdpp Require Import gmap.
From S2P Require Import Prelude GoText FileStore GoCodec SendAs MailboxModel MailboxRun Outbox IngressModel Ingress Wire Blocks.

Section List.
Context {BL : BlockLib}.

(** ** Lists that read back *)

Record listOK (l : list SenderBlock) : Prop := {
  lk_valid : Forall (fun b => validSB b = true) l;
  lk_ids : NoDup (sbID <$> l);
  lk_fits : fits l = true;
  lk_until : Forall (fun b => automatic b = true -> is_Some (sbUntil b)) l;
}.
Definition blocksOK (f : file blocksDoc) : Prop := f = FMissing \/ exists l, f = FData (mkBlocksDoc 1 l) /\ listOK l.
Definition entries (f : file blocksDoc) : list SenderBlock := match f with FData doc => bdBlocks doc | _ => [] end.

Lemma BlockWireBytes_pos b : (0 <= BlockWireBytes b)%Z.
Proof. unfold BlockWireBytes. pose proof (utf8Len_nonneg (blockJSON b)). lia. Qed.
Lemma wireSize_nonneg l : (0 <= wireSize l)%Z.
Proof. induction l as [|b l IH]; simpl; [done|]. pose proof (BlockWireBytes_pos (WireBlock b)). lia. Qed.
Lemma wireSize_sublist l l' : l `sublist_of` l' -> (wireSize l <= wireSize l')%Z.
Proof. induction 1 as [|b l l' _ IH|b l l' _ IH]; simpl; [done|lia|]. pose proof (BlockWireBytes_pos (WireBlock b)). lia. Qed.
Lemma wireSize_perm l l' : l ≡ₚ l' -> wireSize l = wireSize l'.
Proof. induction 1; simpl; lia. Qed.
Lemma automatics_sublist l l' : l `sublist_of` l' -> automatics l `sublist_of` automatics l'.
Proof.
  induction 1 as [|b l l' _ IH|b l l' _ IH]; [done| |]; unfold automatics in *; cbn [List.filter]; destruct (automatic b); [by constructor|done|by constructor|done].
Qed.
Lemma automatics_perm l l' : l ≡ₚ l' -> automatics l ≡ₚ automatics l'.
Proof.
  induction 1 as [|b l l' _ IH|b c l|l1 l2 l3 _ IH1 _ IH2]; [done| | |by etrans]; unfold automatics in *; cbn [List.filter].
  - destruct (automatic b); [by constructor|done].
  - destruct (automatic b), (automatic c); try done. apply perm_swap.
Qed.
Lemma fits_sublist l l' : l `sublist_of` l' -> fits l' = true -> fits l = true.
Proof.
  intros H HF. unfold fits in *. to_prop. pose proof (sublist_length _ _ H). pose proof (wireSize_sublist _ _ H). pose proof (automatics_sublist _ _ H) as HA.
  pose proof (sublist_length _ _ HA). pose proof (wireSize_sublist _ _ HA). repeat (apply andb_true_iff; split); apply Z.leb_le; lia.
Qed.
Lemma fits_perm l l' : l ≡ₚ l' -> fits l = fits l'.
Proof. intros H. unfold fits. pose proof (automatics_perm _ _ H) as HA. by rewrite (Permutation_length H), (wireSize_perm _ _ H), (Permutation_length HA), (wireSize_perm _ _ HA). Qed.

Lemma listOK_sublist l l' : l `sublist_of` l' -> listOK l' -> listOK l.
Proof.
  intros H [H1 H2 H3 H4]. split.
  - by eapply Forall_sub.
  - eapply sublist_NoDup; [exact H2|by apply fmap_sublist].
  - by eapply fits_sublist.
  - by eapply Forall_sub.
Qed.
Lemma listOK_perm l l' : l ≡ₚ l' -> listOK l' -> listOK l.
Proof.
  intros H [H1 H2 H3 H4]. split; [by rewrite H|by rewrite H| |by rewrite H]. by rewrite (fits_perm _ _ H).
Qed.
Lemma parseLoop_ok l : forall seen wire, Forall (fun b => validSB b = true) l -> NoDup (sbID <$> l) -> (forall b, b ∈ l -> sbID b ∉ seen) ->
  (wire + wireSize l <= maxBlockWire)%Z -> parseLoop seen wire l = true.
Proof.
  induction l as [|b l IH]; intros seen wire HV HN HS HW; [done|]. apply Forall_cons in HV as [Hb HV]. apply NoDup_cons in HN as [Hn HN]. cbn [parseLoop wireSize foldr] in *.
  fold (wireSize l) in HW. pose proof (wireSize_nonneg l). rewrite Hb, bool_decide_false by (apply HS; by left). cbn [negb orb].
  replace (maxBlockWire <? _)%Z with false by (symmetry; apply Z.ltb_ge; lia). apply IH; [done|done| |lia].
  intros c Hc. rewrite not_elem_of_cons. split; [|apply HS; by right]. intros E. apply Hn. rewrite <- E. by apply list_elem_of_fmap_2.
Qed.
Lemma ParseBlocks_ok l : listOK l -> ParseBlocks (mkBlocksDoc 1 l) = Ok l.
Proof.
  intros [H1 H2 H3 _]. unfold ParseBlocks. cbn [bdVersion bdBlocks]. unfold fits in H3. to_prop. rewrite (parseLoop_ok l [] 0) by (done || lia || (intros; apply not_elem_of_nil)).
  by replace (MaxBlocks <? _)%Z with false by (symmetry; apply Z.ltb_ge; lia).
Qed.
Lemma load_ok f : blocksOK f -> loadBlocks true f = Ok (entries f).
Proof. intros [->|(l & -> & H)]; [done|]. by apply ParseBlocks_ok. Qed.
Lemma listBlocks_ok now f : blocksOK f -> exists l, listBlocks now true f = Ok l /\ l ≡ₚ List.filter (active now) (entries f).
Proof. intros H. unfold listBlocks. rewrite load_ok by done. eexists. split; [done|]. apply sortStable_perm. Qed.
Lemma listBlocks_some now rd f l : blocksOK f -> listBlocks now rd f = Ok l -> l ≡ₚ List.filter (active now) (entries f).
Proof.
  intros HB H. unfold listBlocks in H. assert (E : loadBlocks rd f = Ok (entries f) \/ exists e, loadBlocks rd f = Err e).
  { destruct rd; [left; by apply load_ok|]. destruct HB as [->|(l' & -> & _)]; [by left|right; by eexists]. }
  destruct E as [E|[e E]]; rewrite E in H; [|done]. injection H as <-. apply sortStable_perm.
Qed.
Lemma entries_ok f : blocksOK f -> listOK (entries f).
Proof. intros [->|(l & -> & H)]; [|done]. split; [done|constructor|by vm_compute|done]. Qed.
Lemma filtered_ok now f l : blocksOK f -> l ≡ₚ List.filter (active now) (entries f) -> listOK l.
Proof. intros HB H. eapply listOK_perm; [exact H|]. eapply listOK_sublist; [apply filter_sublist|by apply entries_ok]. Qed.

Lemma manual_automatic b : manual b = true -> automatic b = false.
Proof. unfold manual, automatic. intros H%bool_decide_eq_true. by rewrite H. Qed.

(** ** Eviction *)

Definition kept (l : list SenderBlock) : list SenderBlock := List.filter (fun b => negb (automatic b)) l.
Definition untilOK (l : list SenderBlock) : Prop := Forall (fun b => automatic b = true -> is_Some (sbUntil b)) l.
Lemma victimLoop_spec l : forall i victim, untilOK l -> (forall j o, victim = Some (j, o) -> is_Some o) ->
  exists r, victimLoop i victim l = Ok r /\ (r = None -> victim = None /\ automatics l = []) /\
    forall k, r = Some k -> (exists o, victim = Some (k, o)) \/ (i <= k)%nat /\ exists b, l !! (k - i)%nat = Some b /\ automatic b = true.
Proof.
  induction l as [|x l IH]; intros i victim HU HV; simpl.
  - exists (fst <$> victim). split; [done|]. split; [by destruct victim|]. intros k Hk. left. destruct victim as [[j o]|]; [|done]. injection Hk as ->. by exists o.
  - apply Forall_cons in HU as [Hx HU]. unfold automatics. cbn [List.filter]. fold (automatics l).
    assert (HN : forall v2, (forall j o, v2 = Some (j, o) -> is_Some o) -> (v2 = victim \/ automatic x = true /\ exists o, v2 = Some (i, o)) -> (v2 = None -> automatic x = false) ->
      exists r, victimLoop (S i) v2 l = Ok r /\ (r = None -> victim = None /\ (if automatic x then x :: automatics l else automatics l) = []) /\
      forall k, r = Some k -> (exists o, victim = Some (k, o)) \/ (i <= k)%nat /\ exists b, (x :: l) !! (k - i)%nat = Some b /\ automatic b = true).
    { intros v2 Hv2 Hv Hn. destruct (IH (S i) v2 HU Hv2) as (r & Er & H1 & H2). exists r. split; [done|]. split.
      - intros Hr. destruct (H1 Hr) as [E1 E2]. rewrite (Hn E1). destruct Hv as [<-|(_ & o & E)]; [done|congruence].
      - intros k Hk. destruct (H2 k Hk) as [[o E]|(Hle & b & Hb & Ha)].
        + destruct Hv as [->|(Ha & o' & E')]; [left; by exists o|]. right. assert (k = i) as -> by congruence. split; [lia|]. exists x. by rewrite Nat.sub_diag.
        + right. split; [lia|]. exists b. replace (k - i)%nat with (S (k - S i)) by lia. done. }
    destruct (automatic x) eqn:Ex; [|apply HN; [done|by left|done]]. destruct (Hx eq_refl) as [u Hu]. rewrite Hu. destruct victim as [[j o]|].
    + destruct (HV j o eq_refl) as [v ->]. destruct (u <? v)%Z; apply HN; try done; [intros ? ? [= <- <-]; by eexists|right; eauto|by left].
    + apply HN; [intros ? ? [= <- <-]; by eexists|right; eauto|done].
Qed.
Lemma delete_sublist {A} (l : list A) i : base.delete i l `sublist_of` l.
Proof. revert i. induction l as [|x l IH]; intros [|i]; simpl; [done|done|by constructor|by constructor]. Qed.
Lemma kept_delete l i b : l !! i = Some b -> automatic b = true -> kept (base.delete i l) = kept l.
Proof.
  revert i. induction l as [|x l IH]; intros [|i] H Ha; try done; simpl in *.
  - injection H as ->. by rewrite Ha.
  - by rewrite (IH i).
Qed.
Lemma kept_all l : automatics l = [] -> kept l = l.
Proof.
  induction l as [|x l IH]; [done|]. unfold automatics, kept in *. cbn [List.filter]. destruct (automatic x); [done|]. intros H. cbn [negb]. by rewrite IH.
Qed.
Lemma kept_sublist l : kept l `sublist_of` l.
Proof. apply filter_sublist. Qed.
Lemma elem_of_kept_blocks l b : b ∈ kept l <-> b ∈ l /\ automatic b = false.
Proof. unfold kept. rewrite !list_elem_of_In, filter_In. by rewrite negb_true_iff. Qed.

(** A manual block makes room by the automatic ones, and only by them. *)
Lemma evict_manual fuel : forall l, (length l <= fuel)%nat -> untilOK l ->
  if fits (kept l) then exists l', evict fuel false l = Ok l' /\ l' `sublist_of` l /\ fits l' = true /\ kept l' = kept l else evict fuel false l = Err ErrBlockFull.
Proof.
  induction fuel as [|fuel IH]; intros l Hlen HU.
  - destruct l; [|simpl in Hlen; lia]. assert (E : fits [] = true) by (vm_compute; done). change (kept []) with (@nil SenderBlock). cbn [evict]. rewrite E. by exists [].
  - cbn [evict]. destruct (fits l) eqn:EF.
    + rewrite (fits_sublist (kept l) l) by (done || apply kept_sublist). exists l. done.
    + destruct (victimLoop_spec l 0 None HU ltac:(done)) as (r & -> & H1 & H2). destruct r as [k|].
      * destruct (H2 k eq_refl) as [[o [=]]|(_ & b & Hb & Ha)]. rewrite Nat.sub_0_r in Hb.
        specialize (IH (base.delete k l)). rewrite (kept_delete l k b Hb Ha) in IH. pose proof (lookup_lt_Some _ _ _ Hb).
        assert (HD : (length (base.delete k l) <= fuel)%nat) by (rewrite length_delete by (by eexists); lia).
        specialize (IH HD (Forall_sub _ _ _ (delete_sublist l k) HU)). destruct (fits (kept l)); [|done].
        destruct IH as (l' & HE & HS & HF & HK). exists l'. split; [done|]. split; [|done]. etrans; [exact HS|apply delete_sublist].
      * destruct (H1 eq_refl) as [_ HA]. rewrite (kept_all l HA), EF. done.
Qed.
Lemma evict_automatic fuel l : evict (S fuel) true l = if fits l then Ok l else Err ErrAutomaticFull.
Proof. done. Qed.

(** ** Put *)

Lemma without_sublist id l : without id l `sublist_of` l.
Proof. apply filter_sublist. Qed.
Lemma elem_of_without id l b : b ∈ without id l <-> b ∈ l /\ sbID b ≠ id.
Proof. unfold without. rewrite !list_elem_of_In, filter_In, negb_true_iff. by rewrite bool_decide_eq_false. Qed.
Lemma without_append_ok l b : listOK l -> validSB b = true -> (automatic b = true -> is_Some (sbUntil b)) ->
  Forall (fun x => validSB x = true) (without (sbID b) l ++ [b]) /\ NoDup (sbID <$> without (sbID b) l ++ [b]) /\ untilOK (without (sbID b) l ++ [b]).
Proof.
  intros HL HV HU. destruct (listOK_sublist _ _ (without_sublist (sbID b) l) HL) as [H1 H2 _ H4]. split; [apply Forall_app; by split; [|constructor]|]. split.
  - rewrite fmap_app. apply NoDup_app. split; [done|]. split; [|by apply NoDup_singleton]. intros x (y & -> & Hy)%list_elem_of_fmap. apply elem_of_without in Hy as [_ Hy].
    simpl. by rewrite list_elem_of_singleton.
  - apply Forall_app. split; [done|]. by constructor.
Qed.
Lemma putEdit_ok b l l' : listOK l -> validSB b = true -> (automatic b = true -> is_Some (sbUntil b)) -> putEdit b l = Ok (tt, l') ->
  listOK l' /\ l' `sublist_of` without (sbID b) l ++ [b] /\ b ∈ l' /\ kept l' = kept (without (sbID b) l ++ [b]) /\
  (automatic b = true -> existsb (covers b) l = false /\ l' = without (sbID b) l ++ [b]).
Proof.
  intros HL HV HU H. unfold putEdit in H. destruct (_ && _) eqn:EC in H; [done|]. destruct (without_append_ok l b HL HV HU) as (H1 & H2 & H3).
  set (m := without (sbID b) l ++ [b]) in *. destruct (evict _ _ m) as [l2|] eqn:EV; [|done]. injection H as ->. destruct (automatic b) eqn:EA.
  - assert (exists n, length m = S n) as [n Hn] by (unfold m; rewrite length_app; simpl; exists (length (without (sbID b) l)); lia).
    rewrite Hn, evict_automatic in EV. destruct (fits m) eqn:EF; [|done]. injection EV as <-. split; [by split|]. split; [done|]. split; [unfold m; set_solver|]. split; [done|]. done.
  - pose proof (evict_manual (length m) m ltac:(done) H3) as HE. destruct (fits (kept m)); [|congruence]. destruct HE as (l2 & E & HS & HF & HK).
    assert (l2 = l') as -> by congruence. split.
    + split; [by eapply Forall_sub|eapply sublist_NoDup; [exact H2|by apply fmap_sublist]|done|by eapply Forall_sub].
    + split; [done|]. split; [|done]. assert (Hb : b ∈ kept m) by (apply elem_of_kept_blocks; split; [unfold m; set_solver|done]).
      rewrite <- HK in Hb. by apply elem_of_kept_blocks in Hb as [? _].
Qed.

Lemma changeBlocks_cases {A} now io (edit : list SenderBlock -> res blkErr (A * list SenderBlock)) f r f' : blocksOK f -> changeBlocks now io edit f = (r, f') ->
  (f' = f /\ exists e, r = Err e) \/
  exists l a l', l ≡ₚ List.filter (active now) (entries f) /\ edit l = Ok (a, l') /\ f' = FData (mkBlocksDoc 1 l') /\ (r = Ok a \/ r = Err ErrIO).
Proof.
  intros HB H. unfold changeBlocks in H. destruct (negb (fiDir io)); [injection H as <- <-; eauto|]. destruct (negb (fiLock io)); [injection H as <- <-; eauto|].
  destruct (listBlocks now (fiRead io) f) as [l|e] eqn:EL; [|injection H as <- <-; eauto]. apply listBlocks_some in EL; [|done].
  destruct (edit l) as [[a l']|e] eqn:EE; [|injection H as <- <-; eauto]. destruct (fiWrite io); injection H as <- <-; [right; eauto 10|left; eauto|right; eauto 10].
Qed.
Lemma Put_cases b own now io f r f' : blocksOK f -> Put b own now io f = (r, f') ->
  (f' = f /\ exists e, r = Err e) \/
  exists value l l', NormalizeBlock (sbKind b) (sbValue b) = Some value /\ validSB (normalized now b value) = true /\ active now (normalized now b value) = true /\
    domainOf value ∉ own /\ l ≡ₚ List.filter (active now) (entries f) /\ putEdit (normalized now b value) l = Ok (tt, l') /\ f' = FData (mkBlocksDoc 1 l') /\
    (r = Ok (normalized now b value) \/ r = Err ErrIO).
Proof.
  intros HB H. unfold Put in H. destruct (NormalizeBlock _ _) as [value|]; [|injection H as <- <-; eauto]. destruct (_ || _) eqn:EV in H; [injection H as <- <-; eauto|].
  case_bool_decide as EO; [injection H as <- <-; eauto|]. destruct (changeBlocks now io _ f) as [r1 f1] eqn:EC. apply changeBlocks_cases in EC; [|done].
  destruct EC as [(-> & e & ->)|(l & [] & l' & HL & HE & -> & HR)]; [injection H as <- <-; eauto|]. right. exists value, l, l'. apply orb_false_iff in EV as [EV1 EV2]. apply negb_false_iff in EV1, EV2.
  destruct HR as [-> | ->]; injection H as <- <-; repeat (split; [done|]); [by left|by right].
Qed.

(** ** One change of the list *)

Definition callsOf (e : rcvEvent) : list blockCall := match e with VBlock c => [c] | VReject _ _ _ io => riMid1 io ++ riMid2 io | _ => [] end.
Definition callTime (c : blockCall) : Z := match c with BPut _ _ _ _ _ _ now _ | BDelete _ now _ => now end.
Definition callID (c : blockCall) : option gostr := match c with BPut kind value _ _ _ _ _ _ => BlockID kind <$> NormalizeBlock kind value | BDelete id _ _ => Some id end.
(** When an event changes the list, and the deployment's own domains it is told. *)
Definition timesOf (e : rcvEvent) : list Z := (callTime <$> callsOf e) ++ match e with VReject _ _ now _ => [now] | _ => [] end.
Definition ownsOf (e : rcvEvent) : list (list gostr) :=
  omap (fun c => match c with BPut _ _ _ _ _ own _ _ => Some own | _ => None end) (callsOf e) ++ match e with VReject _ own _ _ => [own] | _ => [] end.

Inductive blkStep (e : rcvEvent) (f : file blocksDoc) : file blocksDoc -> Prop :=
  | bs_delete id now io : BDelete id now io ∈ callsOf e -> blkStep e f (deleteBlock id now io f).2
  | bs_put b own now io : (manual b = true /\ (exists kind value until actor reason, b = manualBlock kind value until actor reason /\
        BPut kind value until actor reason own now io ∈ callsOf e)) \/
      (automatic b = true /\ is_Some (sbUntil b) /\ exists auth rio, e = VReject auth own now rio) -> blkStep e f (Put b own now io f).2.

Lemma blkStep_ok e f f' : blocksOK f -> blkStep e f f' -> blocksOK f'.
Proof.
  intros HB HS. destruct HS as [id now io _|b own now io Hb].
  - destruct (deleteBlock id now io f) as [r f'] eqn:E. apply changeBlocks_cases in E as [(-> & _)|(l & a & l' & HL & [= _ <-] & -> & _)]; [done| |done]. right. eexists. split; [done|].
    eapply listOK_sublist; [apply without_sublist|by eapply filtered_ok].
  - destruct (Put b own now io f) as [r f'] eqn:E. apply Put_cases in E as [(-> & _)|(value & l & l' & _ & HV & _ & _ & HL & HE & -> & _)]; [done| |done]. right. eexists. split; [done|].
    eapply putEdit_ok; [by eapply filtered_ok|done| |done]. cbn. intros Ha. destruct Hb as [(Hm & _)|(_ & Hu & _)]; [|done]. by rewrite (manual_automatic b Hm : automatic (normalized now b value) = false) in Ha.
Qed.
Lemma blkSteps_ok e f f' : blocksOK f -> rtc (blkStep e) f f' -> blocksOK f'.
Proof. intros HB HS. induction HS as [|f f1 f2 H1 _ IH]; [done|]. apply IH. by eapply blkStep_ok. Qed.

Lemma runBlocks_steps e l f : (forall c, c ∈ l -> c ∈ callsOf e) -> rtc (blkStep e) f (runBlocks l f).
Proof.
  revert f. induction l as [|c l IH]; intros f Hin; [done|]. eapply rtc_l; [|apply IH; set_solver]. specialize (Hin c ltac:(by left)).
  destruct c as [kind value until actor reason own now io|id now io]; [|by eapply bs_delete]. eapply bs_put. left. split; [done|]. by exists kind, value, until, actor, reason.
Qed.
Context {RO : RangeOrder}.
Lemma escalate_steps auth rio r kind value own now mid io f r' made pe f' : (forall c, c ∈ mid -> c ∈ callsOf (VReject auth own now rio)) ->
  escalate r kind value own now mid io f = (r', made, pe, f') -> rtc (blkStep (VReject auth own now rio)) f f'.
Proof.
  intros Hmid H. eapply rtc_r; [by apply (runBlocks_steps _ mid)|]. unfold escalate in H. set (b := mkSB _ _ _ _ _ _ _ _ _) in H. replace f' with (Put b own now io (runBlocks mid f)).2.
  - apply bs_put. right. split; [done|]. split; [by eexists|]. by eexists _, _.
  - destruct (Put b own now io (runBlocks mid f)) as [[b'|e] f1]; [|destruct e]; by injection H as _ _ _ ->.
Qed.
Lemma rejectEdit_steps auth rio address domain own now doc f made pe doc' f' :
  rejectEdit address domain own now rio doc f = ((made, pe), doc', f') -> rtc (blkStep (VReject auth own now rio)) f f'.
Proof.
  intros H. unfold rejectEdit in H. destruct (_ <? _)%Z; [by injection H as _ _ _ <-|]. set (r := mkEvRec _ _ _ _ _) in H. set (hits := _ ++ _) in H.
  destruct (if (autoHits <=? length hits)%nat then _ else _) as [[[r1 made1] pe1] f1] eqn:E1. assert (H1 : rtc (blkStep (VReject auth own now rio)) f f1).
  { destruct (_ <=? _)%nat; [|by injection E1 as _ _ _ <-]. eapply escalate_steps; [|exact E1]. intros c Hc. cbn. set_solver. }
  destruct (negb _); [by injection H as _ _ _ <-|]. destruct (_ || _); [by injection H as _ _ _ <-|]. set (d := default _ _) in H.
  destruct (escalate d _ _ _ _ _ _ f1) as [[[d1 made2] pe2] f2] eqn:E2. injection H as _ _ _ <-. etrans; [exact H1|]. eapply escalate_steps; [|exact E2]. intros c Hc. cbn. set_solver.
Qed.
Lemma changeEvidence_blocks {A} now io (edit : evidenceDoc -> file blocksDoc -> A * evidenceDoc * file blocksDoc) nothing s a e s' (R : file blocksDoc -> file blocksDoc -> Prop) :
  (forall f, R f f) -> (forall doc f a doc' f', edit doc f = (a, doc', f') -> R f f') -> changeEvidence now io edit nothing s = (a, e, s') -> R (rcBlocks s) (rcBlocks s').
Proof.
  intros HR HE H. unfold changeEvidence in H. destruct (negb _); [by injection H as _ _ <-|]. destruct (negb _); [by injection H as _ _ <-|].
  destruct (match loadEvidence _ _ with Ok _ => _ | Err _ => _ end) as [[doc s1]|er] eqn:EL; [|by injection H as _ _ <-].
  assert (HS : rcBlocks s1 = rcBlocks s) by (destruct (loadEvidence _ _) as [|[]]; try (by injection EL as _ <-); try done; destruct (eiRename io); [by injection EL as _ <-|done]).
  rewrite <- HS. destruct (edit _ _) as [[a1 doc1] f1] eqn:EE. apply HE in EE. destruct (_ <? _)%Z; [by injection H as _ _ <-|]. by destruct (fiWrite _); injection H as _ _ <-.
Qed.
Lemma stepV_blocks e s : rtc (blkStep e) (rcBlocks s) (rcBlocks (stepV e s).2).
Proof.
  destruct e as [c|id now io|auth own now io|auth now rd io]; cbn [stepV].
  - by apply (runBlocks_steps (VBlock c) [c]).
  - destruct (validID id); [|done]. unfold unblocked. destruct (changeEvidence now io _ tt s) as [[a er] s'] eqn:E. cbn [snd].
    eapply (changeEvidence_blocks _ _ _ _ _ _ _ _ (rtc (blkStep _))); [done| |exact E]. by intros ? ? ? ? ? [= _ _ <-].
  - unfold Reject. destruct (Identity auth) as [address|]; [|done]. case_bool_decide; [done|].
    destruct (changeEvidence now _ _ _ s) as [[[made pe] er] s'] eqn:E. cbn [snd].
    eapply (changeEvidence_blocks _ _ _ _ _ _ _ _ (rtc (blkStep _))); [done| |exact E]. intros doc f [m p] doc' f' HE. by eapply rejectEdit_steps.
  - unfold Accepted. destruct (Identity auth) as [address|]; [|done]. cbv zeta. destruct (match loadEvidence _ _ with Ok _ => _ | Err _ => _ end); [done|].
    destruct (changeEvidence now io _ tt s) as [[a er] s'] eqn:E. cbn [snd].
    eapply (changeEvidence_blocks _ _ _ _ _ _ _ _ (rtc (blkStep _))); [done| |exact E]. by intros ? ? ? ? ? [= _ _ <-].
Qed.
Lemma runV_keeps (P : file blocksDoc -> Prop) tr : forall s, (forall e f f', e ∈ tr -> blocksOK f -> P f -> blkStep e f f' -> P f') ->
  blocksOK (rcBlocks s) -> P (rcBlocks s) -> blocksOK (rcBlocks (run_trace stepV tr s).2) /\ P (rcBlocks (run_trace stepV tr s).2).
Proof.
  induction tr as [|e tr IH]; intros s HP HB H0; simpl; [done|]. pose proof (stepV_blocks e s) as HS. destruct (stepV e s) as [r s1]. simpl in HS.
  assert (H1 : blocksOK (rcBlocks s1) /\ P (rcBlocks s1)).
  { revert HS HB H0. generalize (rcBlocks s) (rcBlocks s1). induction 1 as [f|f f1 f2 H1 _ IH2]; intros HB H0; [done|]. apply IH2; [by eapply blkStep_ok|]. eapply HP; [by left|done..]. }
  specialize (IH s1 ltac:(intros; eapply HP; [right|..]; done) (proj1 H1) (proj2 H1)). by destruct (run_trace stepV tr s1).
Qed.
Lemma newReceiving_ok : blocksOK (rcBlocks newReceiving).
Proof. by left. Qed.

(** ** What administrators rely on *)

Lemma entries_data v l : entries (FData (mkBlocksDoc v l)) = l.
Proof. done. Qed.
Lemma elem_of_filtered now f l b : l ≡ₚ List.filter (active now) (entries f) -> b ∈ l <-> b ∈ entries f /\ active now b = true.
Proof. intros ->. by rewrite !list_elem_of_In, filter_In. Qed.
Lemma Blocked_in_force sender now f b : blocksOK f -> b ∈ entries f -> active now b = true -> sender ≠ [] -> is_Some (cutLastAt sender) ->
  blocks (LowerASCII sender) b = true -> Blocked sender now true f = Ok true.
Proof.
  intros HB Hb Ha Hs [p Hp] HM. unfold Blocked. rewrite (bool_decide_false (sender = [])), (bool_decide_false (cutLastAt sender = None)) by (done || congruence). cbn [orb].
  destruct (listBlocks_ok now f HB) as (l & -> & HL). f_equal. apply existsb_exists. exists b. split; [|done]. apply list_elem_of_In. by apply (elem_of_filtered _ _ _ _ HL).
Qed.

(** The block list always reads back: after any blocks, removals, verdicts
    and failed writes its file is missing or satisfies the rule every reader
    enforces; no ID twice, at most 5000 entries and half the Worker's table,
    automatic blocks within half of that and never without an expiry. *)
Lemma block_list_stays_readable tr : let f := rcBlocks (run_trace stepV tr newReceiving).2 in
  loadBlocks true f = Ok (entries f) /\ listOK (entries f).
Proof.
  cbv zeta. destruct (runV_keeps (fun _ => True) tr newReceiving ltac:(done) newReceiving_ok I) as [H _]. split; [by apply load_ok|by apply entries_ok].
Qed.

(** A manual block stands: while no administrator blocks or unblocks the
    same sender and its time has not come, it stays in the list and refuses the
    sender it names, whatever verdicts arrive and however many automatic blocks
    they earn. *)
Lemma manual_blocks_stand tr tr' b : let s := (run_trace stepV tr newReceiving).2 in let s' := (run_trace stepV tr' s).2 in
  b ∈ entries (rcBlocks s) -> manual b = true ->
  (forall e c, e ∈ tr' -> c ∈ callsOf e -> callID c ≠ Some (sbID b)) -> (forall e t, e ∈ tr' -> t ∈ timesOf e -> active t b = true) ->
  b ∈ entries (rcBlocks s') /\
  forall sender now, sender ≠ [] -> is_Some (cutLastAt sender) -> blocks (LowerASCII sender) b = true -> active now b = true -> Blocked sender now true (rcBlocks s') = Ok true.
Proof.
  cbv zeta. destruct (runV_keeps (fun _ => True) tr newReceiving ltac:(done) newReceiving_ok I) as [HB _]. set (s := (run_trace stepV tr newReceiving).2) in *. clearbody s. intros Hb Hm HC HT.
  destruct (runV_keeps (fun f => b ∈ entries f) tr' s) as [HB' Hb']; [|done|done|split; [done|]; intros; by eapply Blocked_in_force].
  clear HB Hb s. intros e f f' He HB Hb HS. destruct HS as [id now io Hc|b0 own now io Hb0].
  - destruct (deleteBlock id now io f) as [r f'] eqn:E. apply changeBlocks_cases in E as [(-> & _)|(l & a & l' & HL & [= _ <-] & -> & _)]; [done| |done]. cbn [snd]. rewrite entries_data.
    apply elem_of_without. split; [|intros E; by apply (HC e _ He Hc); rewrite E]. apply (elem_of_filtered _ _ _ _ HL). split; [done|]. apply (HT e); [done|]. apply elem_of_app. left. apply list_elem_of_fmap. by exists (BDelete id now io).
  - destruct (Put b0 own now io f) as [r f'] eqn:E. apply Put_cases in E as [(-> & _)|(value & l & l' & HN & HV & _ & _ & HL & HE & -> & _)]; [done| |done]. cbn [snd]. rewrite entries_data.
    assert (Ht : active now b = true).
    { apply (HT e); [done|]. apply elem_of_app. destruct Hb0 as [(_ & kind & v & u & a & rs & -> & Hc)|(_ & _ & auth & rio & ->)]; [left; apply list_elem_of_fmap; eexists; split; [|exact Hc]; done|right; by apply list_elem_of_singleton]. }
    assert (Hl : b ∈ l) by (by apply (elem_of_filtered _ _ _ _ HL)).
    apply putEdit_ok in HE as (_ & _ & _ & HK & HA); [|by eapply filtered_ok|done|].
    + assert (Hk : b ∈ kept l'); [|by apply elem_of_kept_blocks in Hk as [? _]]. rewrite HK. apply elem_of_kept_blocks. split; [|by apply manual_automatic]. apply elem_of_app. left. apply elem_of_without. split; [done|].
      intros E. destruct Hb0 as [(_ & kind & v & u & a & rs & -> & Hc)|(Ha & _)].
      * apply (HC e _ He Hc). cbn [callID]. cbn [sbKind sbValue manualBlock] in HN. rewrite HN. cbn. by f_equal.
      * destruct (HA Ha) as [Hcov _]. apply not_true_iff_false in Hcov. apply Hcov. apply existsb_exists. exists b. split; [by apply list_elem_of_In|]. unfold covers. rewrite Hm. cbn [andb].
        by rewrite (bool_decide_true _ E).
    + cbn. intros Ha. destruct Hb0 as [(Hm' & _)|(_ & Hu & _)]; [|done]. by rewrite (manual_automatic b0 Hm' : automatic (normalized now b0 value) = false) in Ha.
Qed.

(** Automatic blocks never cost an administrator a block: a valid manual
    block on a readable list is entered exactly when it fits beside the other
    manual blocks in force, keeping all of those, and refused as full, with the
    list as it was, only when they do not leave room. *)
Lemma manual_put_exact f kind value v until actor reason own now : blocksOK f -> NormalizeBlock kind value = Some v ->
  let b := normalized now (manualBlock kind value until actor reason) v in
  validSB b = true -> active now b = true -> domainOf v ∉ own ->
  let manuals := kept (without (sbID b) (List.filter (active now) (entries f)) ++ [b]) in
  let out := Put (manualBlock kind value until actor reason) own now fileIO_ok f in
  if fits manuals then out.1 = Ok b /\ blocksOK out.2 /\ kept (entries out.2) ≡ₚ manuals else out = (Err ErrBlockFull, f).
Proof.
  intros HB HN. cbv zeta. set (b := normalized _ _ _). intros HV HA HO. destruct (listBlocks_ok now f HB) as (l & EL & HL). pose proof (filtered_ok now f l HB HL) as HLO.
  assert (Hma : automatic b = false) by (by apply manual_automatic). destruct (without_append_ok l b HLO HV ltac:(by rewrite Hma)) as (H1 & H2 & H3).
  assert (HP : without (sbID b) l ++ [b] ≡ₚ without (sbID b) (List.filter (active now) (entries f)) ++ [b]).
  { apply Permutation_app_tail. unfold without. clear -HL. induction HL as [|x l l' _ IH|x y l|l1 l2 l3 _ IH1 _ IH2]; [done| | |by etrans]; cbn [List.filter]; repeat case_match; by (constructor || auto using Permutation). }
  assert (HK : kept (without (sbID b) l ++ [b]) ≡ₚ kept (without (sbID b) (List.filter (active now) (entries f)) ++ [b])).
  { unfold kept. clear -HP. revert HP. generalize (without (sbID b) l ++ [b]) (without (sbID b) (List.filter (active now) (entries f)) ++ [b]).
    induction 1 as [|x l1 l2 _ IH|x y l1|l1 l2 l3 _ IH1 _ IH2]; [done| | |by etrans]; cbn [List.filter]; repeat case_match; by (constructor || auto using Permutation). }
  pose proof (evict_manual (length (without (sbID b) l ++ [b])) (without (sbID b) l ++ [b]) ltac:(done) H3) as HE. rewrite (fits_perm _ _ HK) in HE.
  unfold Put. cbn [sbKind sbValue manualBlock]. rewrite HN. fold b. rewrite HV, HA, bool_decide_false by done. cbn [negb orb]. unfold changeBlocks. cbn [fiDir fiLock fiRead fiWrite fileIO_ok negb]. rewrite EL.
  unfold putEdit. rewrite Hma. cbn [andb]. destruct (fits (kept (without (sbID b) (List.filter (active now) (entries f)) ++ [b]))).
  - destruct HE as (l' & -> & HS & HF & HK'). cbn [fst snd]. split; [done|]. split; [|rewrite entries_data, HK'; exact HK]. right. eexists. split; [done|].
    split; [by eapply Forall_sub|eapply sublist_NoDup; [exact H2|by apply fmap_sublist]|done|by eapply Forall_sub].
  - by rewrite HE.
Qed.

Lemma cutLastAt_Some s a d : cutLastAt s = Some (a, d) -> 64%Z ∉ d /\ s = a ++ 64%Z :: d.
Proof.
  revert a d. induction s as [|c s IH]; intros a d H; [done|]. simpl in H. destruct (cutLastAt s) as [[a' d']|] eqn:E.
  - injection H as <- <-. destruct (IH _ _ eq_refl) as [H1 ->]. done.
  - destruct (c =? 64)%Z eqn:Ec; [|done]. injection H as <- <-. to_prop. subst c. split; [|done]. clear IH. intros Hin. induction s as [|x s IH]; [by apply elem_of_nil in Hin|].
    simpl in E. destruct (cutLastAt s) as [[? ?]|] eqn:E'; [done|]. destruct (x =? 64)%Z eqn:Ex; [done|]. to_prop. apply elem_of_cons in Hin as [?|Hin]; [done|by apply IH].
Qed.
Lemma cutLastAt_None s : 64%Z ∉ s -> cutLastAt s = None.
Proof.
  induction s as [|c s IH]; intros H; [done|]. simpl. apply not_elem_of_cons in H as [Hc Hs]. rewrite (IH Hs). by replace (c =? 64)%Z with false by lia.
Qed.
Lemma domainOf_idem s : domainOf (domainOf s) = domainOf s.
Proof.
  unfold domainOf at 2 3. destruct (cutLastAt s) as [[a d]|] eqn:E; [|unfold domainOf; by rewrite E]. apply cutLastAt_Some in E as [E _]. unfold domainOf. by rewrite cutLastAt_None.
Qed.

(** The deployment's own mail is never refused: while every change of the
    list is told that a domain is the deployment's own, no sender at that domain
    is ever reported blocked, and neither is the null sender. *)
Lemma own_senders_never_blocked tr d : (forall e own, e ∈ tr -> own ∈ ownsOf e -> d ∈ own) ->
  let f := rcBlocks (run_trace stepV tr newReceiving).2 in
  forall sender now readable, sender = [] \/ domainOf (LowerASCII sender) = d -> Blocked sender now readable f ≠ Ok true.
Proof.
  intros HO. cbv zeta. destruct (runV_keeps (fun f => Forall (fun b => domainOf (sbValue b) ≠ d) (entries f)) tr newReceiving) as [HB HF]; [|apply newReceiving_ok|by constructor|].
  - intros e f f' He HB HF HS. destruct HS as [id now io Hc|b own now io Hb].
    + destruct (deleteBlock id now io f) as [r f'] eqn:E. apply changeBlocks_cases in E as [(-> & _)|(l & a & l' & HL & [= _ <-] & -> & _)]; [done| |done]. cbn [snd]. rewrite entries_data.
      eapply Forall_sub; [apply without_sublist|]. rewrite HL. eapply Forall_sub; [apply filter_sublist|done].
    + destruct (Put b own now io f) as [r f'] eqn:E. apply Put_cases in E as [(-> & _)|(value & l & l' & HN & HV & _ & Ho & HL & HE & -> & _)]; [done| |done]. cbn [snd]. rewrite entries_data.
      apply putEdit_ok in HE as (_ & HS & _); [|by eapply filtered_ok|done|].
      * eapply Forall_sub; [exact HS|]. apply Forall_app. split; [|constructor; [|done]].
        -- eapply Forall_sub; [apply without_sublist|]. rewrite HL. eapply Forall_sub; [apply filter_sublist|done].
        -- cbn. intros <-. apply Ho. apply (HO e own He). apply elem_of_app. destruct Hb as [(_ & kind & v & u & a & rs & -> & Hc)|(_ & _ & auth & rio & ->)]; [left|right; by apply list_elem_of_singleton].
           apply list_elem_of_omap. by exists (BPut kind v u a rs own now io).
      * cbn. intros Ha. destruct Hb as [(Hm & _)|(_ & Hu & _)]; [|done]. by rewrite (manual_automatic b Hm : automatic (normalized now b value) = false) in Ha.
  - intros sender now rd Hs. unfold Blocked. destruct (decide (sender = [])) as [-> |Hne]; [done|]. rewrite (bool_decide_false (sender = [])) by done. cbn [orb]. case_bool_decide; [done|].
    destruct Hs as [Hs|Hs]; [done|]. destruct (listBlocks now rd _) as [l|] eqn:EL; [|done]. apply listBlocks_some in EL; [|done]. intros [= H1]. apply existsb_exists in H1 as (b & Hb & HM).
    apply list_elem_of_In in Hb. apply (elem_of_filtered _ _ _ _ EL) in Hb as [Hb _]. pose proof (proj1 (Forall_forall _ _) HF b Hb) as Hd. simpl in Hd. apply Hd.
    unfold blocks in HM. apply orb_true_iff in HM as [HM|HM]; apply andb_true_iff in HM as [_ HM]; apply bool_decide_eq_true in HM; rewrite HM; [done|]. by rewrite domainOf_idem.
Qed.
End List.
