(* ===== verification/BlocksEvidence.v ===== *)
(** * BlocksEvidence: automatic blocks are earned, and suppressed where they must be *)

From stdpp Require Import gmap.
From S2P Require Import UsersAuth.
From S2P Require Import Prelude GoText FileStore GoCodec SendAs MailboxModel MailboxRun Outbox IngressModel Ingress Wire Blocks BlocksTheorems.

(** ** Trimming *)

Section Trim.
Context {RO : RangeOrder} {ROL : RangeOrderLaws} {V : Type}.
Implicit Types (m : gmap gostr V) (keep : V -> Z).

Lemma trimVictim_in keep l x : trimVictim keep l = Some x -> x ∈ l.
Proof.
  unfold trimVictim. set (step := fun _ _ => _). assert (H : forall l' v, (forall y, v = Some y -> y ∈ l) -> (forall y, y ∈ l' -> y ∈ l) -> foldl step v l' = Some x -> x ∈ l); [|by apply (H l None)].
  induction l' as [|[id w] l' IH]; intros v Hv Hl' H; simpl in H; [by apply Hv|]. eapply IH; [|intros; apply Hl'; by right|exact H].
  intros y Hy. unfold step in Hy. destruct v as [[i0 w0]|]; [destruct (_ <? _)%Z|]; first [injection Hy as <-; apply Hl'; by left|by apply Hv].
Qed.
Lemma trimVictim_some keep l : l ≠ [] -> is_Some (trimVictim keep l).
Proof.
  unfold trimVictim. destruct l as [|[id v] l]; [done|]. intros _. simpl. generalize (id, v). clear id v. induction l as [|[id v] l IH]; intros x; simpl; [by eexists|].
  destruct x as [i0 w0]. destruct (_ <? _)%Z; apply IH.
Qed.
Lemma trim_spec fuel limit keep : forall m, (size m <= fuel)%nat -> (0 <= limit)%Z ->
  let m' := trim fuel limit keep m in m' ⊆ m /\ (mapSize m' <= limit)%Z /\ ((mapSize m <= limit)%Z -> m' = m).
Proof.
  induction fuel as [|fuel IH]; intros m Hs Hl; cbv zeta; cbn [trim]; destruct (mapSize m <=? limit)%Z eqn:E; to_prop; try done.
  - unfold mapSize in E. lia.
  - destruct (trimVictim_some keep (range_order _ (map_to_list m))) as [[id v] Hv].
    { intros E0. pose proof (range_order_perm _ (map_to_list m)) as HP. rewrite E0 in HP. apply Permutation_nil_l in HP. symmetry in HP. apply map_to_list_empty_iff in HP. subst m. unfold mapSize in E. rewrite map_size_empty in E. lia. }
    rewrite Hv. apply trimVictim_in in Hv. rewrite (range_order_perm _ _) in Hv. apply elem_of_map_to_list in Hv.
    assert (HD : (S (size (base.delete id m)) = size m)%nat) by (rewrite map_size_delete_Some by (by eexists); pose proof (map_size_ne_0_lookup_2 m id ltac:(by eexists)); lia).
    destruct (IH (base.delete id m) ltac:(lia) Hl) as (H1 & H2 & _). split; [|split; [done|]].
    + etrans; [exact H1|apply delete_subseteq].
    + intros. lia.
Qed.
Lemma trim_lookup fuel limit keep m i x : (size m <= fuel)%nat -> (0 <= limit)%Z -> trim fuel limit keep m !! i = Some x -> m !! i = Some x.
Proof. intros Hs Hl H. destruct (trim_spec fuel limit keep m Hs Hl) as (HS & _). by eapply lookup_weaken. Qed.
End Trim.

(** ** Evidence that reads back *)

Section Evidence.
Context {BL : BlockLib} {BLL : BlockLibLaws} {RO : RangeOrder} {ROL : RangeOrderLaws}.

Lemma BlockID_valid kind value : validID (BlockID kind value) = true.
Proof. unfold validID, BlockID. destruct (sum8_bytes (kind ++ $":" ++ value)) as [H1 H2]. rewrite hexDecode_encode by done. by rewrite H1, bool_decide_true. Qed.

Record docShape (doc : evidenceDoc) : Prop := {
  ds_version : edVersion doc = 1%Z;
  ds_since : (0 <= edGoodSince doc)%Z;
  ds_reset : (0 <= edResetAt doc)%Z;
  ds_good : (mapSize (edGood doc) <= MaxGoodDomains)%Z;
  ds_counts : (mapSize (edParents doc) <= mapSize (edGood doc))%Z;
  ds_addresses : map_Forall (fun k v => recordOK true k v = true) (edAddresses doc);
  ds_domains : map_Forall (fun k v => recordOK false k v = true) (edDomains doc);
  ds_parents : map_Forall (fun id n => validID id && (1 <=? n)%Z && (n <=? maxGoodPerParent)%Z = true) (edParents doc);
  ds_times : map_Forall (fun id t => validID id && (1 <=? t)%Z = true) (edGood doc);
  ds_unblocked : map_Forall (fun id t => validID id && (1 <=? t)%Z = true) (edUnblocked doc);
}.
Record docOK (doc : evidenceDoc) : Prop := {
  do_shape : docShape doc;
  do_addresses : (mapSize (edAddresses doc) <= MaxEvidence)%Z;
  do_domains : (mapSize (edDomains doc) <= MaxEvidence)%Z;
  do_unblocked : (mapSize (edUnblocked doc) <= MaxEvidence)%Z;
}.
Lemma docOK_parse doc : docOK doc -> parseEvidence doc = true.
Proof.
  intros [[H1 H2 H3 H4 H5 H6 H7 H8 H9 H10] S1 S2 S3]. unfold parseEvidence, mapAll. rewrite !bool_decide_true by done. rewrite !andb_true_r. apply negb_true_iff.
  rewrite H1. repeat (apply orb_false_iff; split); try (apply Z.ltb_ge; lia). done.
Qed.
Lemma newEvidence_ok now : (0 <= now)%Z -> docOK (newEvidence now).
Proof. intros H. split; [split|..]; cbn; try done; try apply map_Forall_empty; unfold mapSize; rewrite ?map_size_empty; done. Qed.

Lemma map_Forall_filtered {V} (P : gostr -> V -> Prop) (Q : gostr * V -> Prop) `{!forall x, Decision (Q x)} (m : gmap gostr V) : map_Forall P m -> map_Forall P (base.filter Q m).
Proof. intros HF i x [Hx _]%map_lookup_filter_Some. by apply HF. Qed.
Lemma swept_shape now doc : docShape doc -> docShape (swept now doc).
Proof. intros [H1 H2 H3 H4 H5 H6 H7 H8 H9 H10]. split; cbn; try done; by apply map_Forall_filtered. Qed.
Lemma map_Forall_trim {V} (P : gostr -> V -> Prop) (keep : V -> Z) (m : gmap gostr V) : map_Forall P m -> map_Forall P (trim (size m) MaxEvidence keep m).
Proof. intros H i x Hx. apply H. eapply trim_lookup; [done| |exact Hx]. done. Qed.
Lemma trimmed_ok doc : docShape doc -> docOK (trimmed doc).
Proof.
  intros [H1 H2 H3 H4 H5 H6 H7 H8 H9 H10]. split; [split|..]; cbn; try done; try by apply map_Forall_trim.
  all: by match goal with |- (mapSize (trim _ _ ?k ?m) <= _)%Z => destruct (trim_spec (size m) MaxEvidence k m) as (_ & ? & _) end.
Qed.

(** ** The edits *)

Lemma Put_made b own now io f b' f' : Put b own now io f = (Ok b', f') -> exists value, NormalizeBlock (sbKind b) (sbValue b) = Some value /\ b' = normalized now b value.
Proof.
  unfold Put. destruct (NormalizeBlock _ _) as [value|]; [|done]. destruct (_ || _); [done|]. case_bool_decide; [done|]. destruct (changeBlocks _ _ _ f) as [[a|e] f1]; [|done].
  intros [= <- <-]. eauto.
Qed.
(** What an escalation made of a record: nothing, or the next level's block. *)
Definition escalated (now : Z) (kind value : gostr) (r r' : evidenceRecord) (made : list SenderBlock) : Prop :=
  (made = [] /\ r' = mkEvRec (erDomain r) [] (erLevel r) now (erBlocked r)) \/
  exists level v b, level = Z.min (erLevel r + 1) 3 /\ NormalizeBlock kind value = Some v /\ made = [b] /\ r' = mkEvRec (erDomain r) [] level now now /\
    b = normalized now (mkSB [] kind value (Some (now + nth (Z.to_nat (level - 1)) autoCooldown 0)%Z) ($"automatic") level 0 ($"automatic") ($"abuse")) v.
Lemma escalate_ok r kind value own now mid io f r' made pe f' : escalate r kind value own now mid io f = (r', made, pe, f') -> escalated now kind value r r' made.
Proof.
  unfold escalate. set (b := mkSB _ _ _ _ _ _ _ _ _). destruct (Put b own now io (runBlocks mid f)) as [[b'|e] f1] eqn:E.
  - intros [= <- <- _ _]. right. apply Put_made in E as (v & HN & ->). eexists _, v, _. split; [reflexivity|]. split; [done|]. by repeat split.
  - intros H. left. destruct e; injection H as <- <- _ _; done.
Qed.
Definition hitsAt (now : Z) (r : evidenceRecord) : list Z := List.filter (fun t => negb (t <=? now - autoWindow)%Z) (erHits r) ++ [now].
Definition domainDue (domainID : gostr) (now : Z) (doc : evidenceDoc) : Prop :=
  edGood doc !! domainID = None /\ edGoodSince doc ≠ 0%Z /\ (edGoodSince doc + domainWarmUp <= now)%Z /\ (default 0 (edUnblocked doc !! domainID) <= now)%Z /\
  (5 <= length (List.filter (fun '(_, x) => (erDomain x =s? domainID) && (Z.max (now - domainWindow) (erBlocked (default noRecord (edDomains doc !! domainID))) <? erBlocked x)%Z)
           (map_to_list (edAddresses doc))))%nat.
Lemma rejectEdit_spec address domain own now io doc f made pe doc' f' : rejectEdit address domain own now io doc f = ((made, pe), doc', f') ->
  let aid := BlockID ($"address") address in let did := BlockID ($"domain") domain in let r := default noRecord (edAddresses doc !! aid) in
  ((now < default 0 (edUnblocked doc !! aid))%Z /\ made = [] /\ doc' = doc) \/
  (default 0 (edUnblocked doc !! aid) <= now)%Z /\ exists r1 made1, let doc1 := setAddresses (<[aid := r1]> (edAddresses doc)) doc in
    ((length (hitsAt now r) < 5)%nat /\ made1 = [] /\ r1 = mkEvRec did (hitsAt now r) (erLevel r) now (erBlocked r) \/
     (5 <= length (hitsAt now r))%nat /\ escalated now ($"address") address (mkEvRec did (hitsAt now r) (erLevel r) now (erBlocked r)) r1 made1) /\
    (made = made1 /\ doc' = doc1 \/
     exists d1 made2, domainDue did now doc1 /\ escalated now ($"domain") domain (default noRecord (edDomains doc !! did)) d1 made2 /\
       made = made1 ++ made2 /\ doc' = setDomains (<[did := d1]> (edDomains doc1)) doc1).
Proof.
  intros H. cbv zeta. unfold rejectEdit in H. destruct (_ <? _)%Z eqn:EU in H; [left; to_prop; by injection H as <- _ <- _|]. right. split; [to_prop; lia|].
  fold (hitsAt now (default noRecord (edAddresses doc !! BlockID ($"address") address))) in H. set (aid := BlockID ($"address") address) in *. set (did := BlockID ($"domain") domain) in *.
  set (r := default noRecord (edAddresses doc !! aid)) in *. set (r0 := mkEvRec did (hitsAt now r) (erLevel r) now (erBlocked r)) in *.
  destruct (if (autoHits <=? length (hitsAt now r))%nat then _ else _) as [[[r1 made1] pe1] f1] eqn:E1. exists r1, made1. split.
  - destruct (autoHits <=? length (hitsAt now r))%nat eqn:EH.
    + right. split; [by apply Nat.leb_le in EH|]. by eapply escalate_ok.
    + left. apply Nat.leb_gt in EH. injection E1 as <- <- _ _. done.
  - destruct (negb _); [left; by injection H as <- _ <- _|]. destruct (_ || _) eqn:ED in H; [left; by injection H as <- _ <- _|]. right.
    destruct (escalate _ _ _ _ _ _ _ f1) as [[[d1 made2] pe2] f2] eqn:E2. injection H as <- _ <- _. exists d1, made2. split; [|split; [by eapply escalate_ok|done]].
    apply orb_false_iff in ED as [ED E5]. apply orb_false_iff in ED as [ED E4]. apply orb_false_iff in ED as [ED E3]. apply orb_false_iff in ED as [E1' E2'].
    split; [|split; [|split; [|split]]]; cbn [setAddresses edGood edGoodSince edUnblocked edDomains edAddresses] in *.
    + apply bool_decide_eq_false in E2'. by apply eq_None_not_Some.
    + by apply Z.eqb_neq in E3.
    + by apply Z.ltb_ge in E4.
    + by apply Z.ltb_ge in E5.
    + by apply Nat.ltb_ge in E1'.
Qed.

(** ** One event *)

Definition evTime (e : rcvEvent) : option Z := match e with VBlock _ => None | VUnblock _ now _ | VReject _ _ now _ | VAccepted _ now _ _ => Some now end.
Definition timed (e : rcvEvent) : Prop := forall t, evTime e = Some t -> (1 <= t)%Z.
(** What an event does to the document it read. *)
Definition edits (e : rcvEvent) (doc doc' : evidenceDoc) (made : list SenderBlock) : Prop :=
  match e with
  | VBlock _ => False
  | VUnblock id now _ => validID id = true /\ made = [] /\ doc' = setUnblocked (<[id := (now + UnblockWindow)%Z]> (edUnblocked doc)) doc
  | VReject auth own now io => exists address f pe f', Identity auth = Some address /\ domainOf address ∉ own /\ rejectEdit address (domainOf address) own now io doc f = ((made, pe), doc', f')
  | VAccepted auth now _ _ => exists address, Identity auth = Some address /\ made = [] /\
      doc' = acceptEdit (BlockID ($"domain") (domainOf address)) (BlockID ($"domain") (parentDomain (domainOf address))) now doc
  end.
Definition evdoc (f : file evidenceDoc) : evidenceDoc := match f with FData doc => doc | _ => newEvidence 0 end.
Definition evOK (f : file evidenceDoc) : Prop := f = FMissing \/ exists doc, f = FData doc /\ docOK doc.

Lemma evdoc_ok f : evOK f -> docOK (evdoc f).
Proof. intros [->|(doc & -> & H)]; [by apply newEvidence_ok|done]. Qed.
Lemma loadEvidence_ok rd f : evOK f -> loadEvidence rd f = Ok (evdoc f) \/ rd = false /\ loadEvidence rd f = Err ErrIO.
Proof. intros [->|(doc & -> & H)]; [by left|]. cbn [loadEvidence]. destruct rd; [left|by right]. cbn [negb]. by rewrite docOK_parse. Qed.
Lemma changeEvidence_cases {A} now io (edit : evidenceDoc -> file blocksDoc -> A * evidenceDoc * file blocksDoc) nothing s a e s' : evOK (rcEvidence s) ->
  changeEvidence now io edit nothing s = (a, e, s') -> rcDamaged s' = rcDamaged s /\
  ((a = nothing /\ is_Some e /\ rcEvidence s' = rcEvidence s) \/
   exists doc' f', edit (swept now (evdoc (rcEvidence s))) (rcBlocks s) = (a, doc', f') /\ (rcEvidence s' = FData (trimmed doc') \/ is_Some e /\ rcEvidence s' = rcEvidence s)).
Proof.
  intros HE H. unfold changeEvidence in H. destruct (negb _); [injection H as <- <- <-; split; [done|left; split; [done|split; [by eexists|done]]]|].
  destruct (negb _); [injection H as <- <- <-; split; [done|left; split; [done|split; [by eexists|done]]]|].
  destruct (loadEvidence_ok (fiRead (eiFile io)) _ HE) as [EL|[_ EL]]; rewrite EL in H; [|injection H as <- <- <-; split; [done|left; split; [done|split; [by eexists|done]]]].
  destruct (edit _ _) as [[a1 doc1] f1]. destruct (_ <? _)%Z; [injection H as <- <- <-; split; [done|right; eauto 6]|].
  destruct (fiWrite _); injection H as <- <- <-; split; [done|right; eauto 6|done|right; eauto 6|done|right; eauto 6].
Qed.
Lemma stepV_evidence e s made er s' : evOK (rcEvidence s) -> stepV e s = ((made, er), s') -> rcDamaged s' = rcDamaged s /\
  ((made = [] /\ rcEvidence s' = rcEvidence s) \/
   exists t doc', evTime e = Some t /\ edits e (swept t (evdoc (rcEvidence s))) doc' made /\ (rcEvidence s' = FData (trimmed doc') \/ is_Some er /\ rcEvidence s' = rcEvidence s)).
Proof.
  intros HE H. destruct e as [c|id now io|auth own now io|auth now rd io]; cbn [stepV] in H.
  - injection H as <- <- <-. split; [done|]. by left.
  - destruct (validID id) eqn:EI; [|injection H as <- <- <-; split; [done|by left]]. unfold unblocked in H. destruct (changeEvidence now io _ tt s) as [[a e1] s1] eqn:EC. injection H as <- <- <-.
    apply changeEvidence_cases in EC as [HD [(_ & _ & ?)|(doc' & f' & [= <- <- <-] & HR)]]; [|split; [done|]; right; exists now; eexists; split; [done|]; split; [by repeat split|done]|done].
    split; [done|by left].
  - unfold Reject in H. destruct (Identity auth) as [address|] eqn:EI; [|injection H as <- <- <-; split; [done|by left]].
    case_bool_decide as EO; [injection H as <- <- <-; split; [done|by left]|]. destruct (changeEvidence now _ _ _ s) as [[[m pe] e1] s1] eqn:EC. injection H as <- <- <-.
    apply changeEvidence_cases in EC as [HD [([= -> ->] & _ & ?)|(doc' & f' & ER & HR)]]; [|split; [done|]; right; exists now, doc'; split; [done|]|done]; [split; [done|by left]|].
    split; [by exists address, (rcBlocks s), pe, f'|]. destruct HR as [?|[[x ->] ?]]; [by left|right; split; [by eexists|done]].
  - unfold Accepted in H. destruct (Identity auth) as [address|] eqn:EI; [|injection H as <- <- <-; split; [done|by left]]. cbv zeta in H.
    destruct (match loadEvidence _ _ with Ok _ => _ | Err _ => _ end); [injection H as <- <- <-; split; [done|by left]|].
    destruct (changeEvidence now io _ tt s) as [[a e1] s1] eqn:EC. injection H as <- <- <-.
    apply changeEvidence_cases in EC as [HD [(_ & _ & ?)|(doc' & f' & [= <- <- <-] & HR)]]; [|split; [done|]; right; exists now; eexists; split; [done|]; split; [by eexists|done]|done].
    split; [done|by left].
Qed.

(** ** Shape is kept *)

Record sane (r : evidenceRecord) : Prop := {
  sn_level : (0 <= erLevel r <= 3)%Z;
  sn_blocked : (0 <= erBlocked r)%Z;
  sn_hits : Forall (fun t => 1 <= t)%Z (erHits r);
}.
Lemma recordOK_spec address id r : recordOK address id r = true <->
  validID id = true /\ address = validID (erDomain r) /\ (address = false -> erDomain r = []) /\ (length (erHits r) < 5)%nat /\ (1 <= erLast r)%Z /\ sane r.
Proof.
  unfold recordOK. change (Z.of_nat (length autoCooldown)) with 3%Z. change autoHits with 5%nat. rewrite negb_true_iff, !orb_false_iff, !Z.ltb_ge, Nat.leb_gt, !negb_false_iff, existsb_Forall.
  assert (HF : Forall (fun t => (t <? 1)%Z = false) (erHits r) <-> Forall (fun t => 1 <= t)%Z (erHits r)) by (rewrite !Forall_forall; by setoid_rewrite Z.ltb_ge).
  rewrite HF, eqb_true_iff. split.
  - intros [[[[[[[[? ?] HD] ?] ?] ?] ?] ?] ?]. repeat (split; try done). intros ->. cbn in HD. by rewrite negb_false_iff, bool_decide_eq_true in HD.
  - intros (? & ? & HD & ? & ? & [[? ?] ? ?]). repeat (split; try done). destruct address; [done|]. cbn. by rewrite HD.
Qed.
Lemma noRecord_sane : sane noRecord.
Proof. split; cbn; [lia|lia|constructor]. Qed.
Lemma default_sane (address : bool) (m : gmap gostr evidenceRecord) (id : gostr) : map_Forall (fun k v => recordOK address k v = true) m -> sane (default noRecord (m !! id)).
Proof.
  intros H. destruct (m !! id) as [r|] eqn:E; [|apply noRecord_sane]. specialize (H id r E). cbn. by apply recordOK_spec in H as (_ & _ & _ & _ & _ & ?).
Qed.
Lemma hitsAt_ok now r : (1 <= now)%Z -> Forall (fun t => 1 <= t)%Z (erHits r) -> Forall (fun t => 1 <= t)%Z (hitsAt now r).
Proof. intros Hn H. apply Forall_app. split; [|by constructor]. eapply Forall_sub; [apply filter_sublist|done]. Qed.
Lemma escalated_record now kind value r r' made : escalated now kind value r r' made -> sane r -> (1 <= now)%Z ->
  sane r' /\ erHits r' = [] /\ erDomain r' = erDomain r /\ erLast r' = now.
Proof.
  intros [[_ ->]|(level & v & b & -> & _ & _ & -> & _)] [H1 H2 H3] Hn; (split; [|done]); split; cbn; try lia; constructor.
Qed.
Lemma escalated_ok (address : bool) now kind value id r r' made : escalated now kind value r r' made -> sane r -> (1 <= now)%Z -> validID id = true ->
  address = validID (erDomain r) -> (address = false -> erDomain r = []) -> recordOK address id r' = true.
Proof.
  intros H HS Hn HI HA HD. destruct (escalated_record _ _ _ _ _ _ H HS Hn) as (Hs & Hh & Hd & Hl). apply recordOK_spec. rewrite Hh, Hd, Hl. cbn. repeat (split; [done || lia|]). done.
Qed.
Lemma default_domain (m : gmap gostr evidenceRecord) (id : gostr) : map_Forall (fun k v => recordOK false k v = true) m -> erDomain (default noRecord (m !! id)) = [].
Proof. intros H. destruct (m !! id) as [r|] eqn:E; [|done]. specialize (H id r E). cbn. apply recordOK_spec in H as (_ & _ & HD & _). by apply HD. Qed.

Lemma rejectEdit_shape address domain own now io doc f made pe doc' f' : docShape doc -> (1 <= now)%Z ->
  rejectEdit address domain own now io doc f = ((made, pe), doc', f') -> docShape doc'.
Proof.
  intros HS Hn H. apply rejectEdit_spec in H. cbv zeta in H. destruct H as [(_ & _ & ->)|(_ & r1 & made1 & H1 & H2)]; [done|]. pose proof HS as [D1 D2 D3 D4 D5 D6 D7 D8 D9 D10].
  pose proof (default_sane true _ (BlockID ($"address") address) D6) as [S1 S2 S3]. set (r := default noRecord _) in *.
  assert (HD : docShape (setAddresses (<[BlockID ($"address") address := r1]> (edAddresses doc)) doc)).
  { split; cbn; try done. apply map_Forall_insert_2; [|done]. pose proof (hitsAt_ok now r Hn S3) as HH. destruct H1 as [(Hlt & _ & ->)|[_ H1]].
    - apply recordOK_spec. cbn. rewrite !BlockID_valid. repeat (split; [done || lia|]). done.
    - eapply escalated_ok; [exact H1|by split|done|apply BlockID_valid|cbn; symmetry; apply BlockID_valid|done]. }
  destruct H2 as [[_ ->]|(d1 & made2 & _ & H2 & _ & ->)]; [done|]. destruct HD as [E1 E2 E3 E4 E5 E6 E7 E8 E9 E10]. split; cbn; try done. apply map_Forall_insert_2; [|done].
  eapply escalated_ok; [exact H2|by eapply default_sane|done|apply BlockID_valid| |]; rewrite default_domain by done; done.
Qed.
Lemma mapSize_insert {V} (m : gmap gostr V) i x : (mapSize m <= mapSize (<[i := x]> m) <= mapSize m + 1)%Z.
Proof. unfold mapSize. destruct (m !! i) eqn:E; [rewrite map_size_insert_Some by (by eexists)|rewrite map_size_insert_None by done]; lia. Qed.
Lemma acceptEdit_shape id parent now doc : docShape doc -> (1 <= now)%Z -> validID id = true -> validID parent = true -> docShape (acceptEdit id parent now doc).
Proof.
  intros HS Hn HI HP. unfold acceptEdit. set (doc0 := if (edGoodSince doc =? 0)%Z then _ else _).
  assert (HD : docShape doc0) by (unfold doc0; destruct (_ =? _)%Z; [destruct HS; split; cbn; (done || lia)|done]). clearbody doc0. clear HS doc.
  destruct (_ || _) eqn:E; [done|]. apply orb_false_iff in E as [E E3]. apply orb_false_iff in E as [E1 E2]. destruct HD as [D1 D2 D3 D4 D5 D6 D7 D8 D9 D10].
  assert (HN : edGood doc0 !! id = None).
  { destruct (edGood doc0 !! id) as [t|] eqn:Et; [|done]. specialize (D9 id t Et). cbn in *. to_prop. lia. }
  apply Z.leb_gt in E2, E3. split; cbn; try done.
  - unfold mapSize in *. rewrite map_size_insert_None by done. lia.
  - pose proof (mapSize_insert (edParents doc0) parent (default 0 (edParents doc0 !! parent) + 1)%Z). unfold mapSize at 2. rewrite map_size_insert_None by done. unfold mapSize in *. lia.
  - apply map_Forall_insert_2; [|done]. rewrite HP. cbn. destruct (edParents doc0 !! parent) as [n|] eqn:En; cbn in *; [|done]. specialize (D8 parent n En). cbn in D8. to_prop. apply andb_true_iff; split; apply Z.leb_le; lia.
  - apply map_Forall_insert_2; [|done]. rewrite HI. cbn. by apply Z.leb_le.
Qed.
Lemma edits_shape e doc doc' made t : docShape doc -> evTime e = Some t -> (1 <= t)%Z -> edits e doc doc' made -> docShape doc'.
Proof.
  intros HS Ht Hp H. destruct e as [c|id now io|auth own now io|auth now rd io]; cbn in *; [done| | |]; injection Ht as ->.
  - destruct H as (HI & _ & ->). destruct HS. split; cbn; try done. apply map_Forall_insert_2; [|done]. rewrite HI. cbn. apply Z.leb_le. unfold UnblockWindow, cleanPeriod, hour. lia.
  - destruct H as (address & f & pe & f' & _ & _ & H). by eapply rejectEdit_shape.
  - destruct H as (address & _ & _ & ->). apply acceptEdit_shape; try done; apply BlockID_valid.
Qed.
Lemma stepV_evOK e s a s' : evOK (rcEvidence s) -> timed e -> stepV e s = (a, s') -> evOK (rcEvidence s') /\ rcDamaged s' = rcDamaged s.
Proof.
  intros HE Ht H. destruct a as [made er]. apply stepV_evidence in H as [-> [[_ ->]|(t & doc' & He & Hd & HR)]]; [done| |done]. split; [|done].
  destruct HR as [->|[_ ->]]; [|done]. right. eexists. split; [done|]. apply trimmed_ok. eapply edits_shape; [|done|by apply Ht|exact Hd]. apply swept_shape. by apply evdoc_ok.
Qed.

(** ** Runs *)

Definition rcvLog := list (rcvEvent * (list SenderBlock * option blkErr)).
Lemma run_evidence (Q : rcvEvent -> Prop) (P : rcvLog -> evidenceDoc -> Prop) s0 tr : evOK (rcEvidence s0) -> P [] (evdoc (rcEvidence s0)) ->
  (forall log e a doc, P log doc -> P (log ++ [(e, a)]) doc) ->
  (forall log e made er t doc doc', Q e -> P log doc -> docOK doc -> evTime e = Some t -> (1 <= t)%Z -> edits e (swept t doc) doc' made ->
     P (log ++ [(e, (made, er))]) (trimmed doc')) ->
  Forall (fun e => timed e /\ Q e) tr ->
  evOK (rcEvidence (run_trace stepV tr s0).2) /\ rcDamaged (run_trace stepV tr s0).2 = rcDamaged s0 /\ P (run_trace stepV tr s0).1 (evdoc (rcEvidence (run_trace stepV tr s0).2)).
Proof.
  intros HE H0 HM HS. apply (run_trace_ind stepV (fun e => timed e /\ Q e) (fun log s => evOK (rcEvidence s) /\ rcDamaged s = rcDamaged s0 /\ P log (evdoc (rcEvidence s))) s0); [done|].
  intros log s e [made er] s' [Ht HQ] (HE1 & HD1 & HP) Hs. pose proof (stepV_evOK e s _ s' HE1 Ht Hs) as [HE2 HD2]. split; [done|]. split; [congruence|].
  apply stepV_evidence in Hs as [_ [[_ ->]|(t & doc' & He & Hd & HR)]]; [by apply HM| |done]. destruct HR as [->|[_ ->]]; [|by apply HM]. cbn.
  eapply HS; [done|exact HP|by apply evdoc_ok|exact He|by apply Ht|exact Hd].
Qed.
Lemma newReceiving_evOK : evOK (rcEvidence newReceiving).
Proof. by left. Qed.

(** The evidence never spoils itself: after any verdicts, unblocks and
    failed writes the evidence file is missing or passes the rule its reader
    enforces, within its caps, so it is never set aside and counting never
    restarts. *)
Lemma evidence_stays_readable tr : Forall timed tr -> let s := (run_trace stepV tr newReceiving).2 in
  rcDamaged s = false /\ exists doc, loadEvidence true (rcEvidence s) = Ok doc /\ docOK doc.
Proof.
  intros HT. cbv zeta. destruct (run_evidence (fun _ => True) (fun _ _ => True) newReceiving tr newReceiving_evOK I) as (HE & HD & _); [done..|by eapply Forall_impl; [exact HT|]|].
  split; [done|]. eexists. split; [|by apply evdoc_ok]. by destruct (loadEvidence_ok true _ HE) as [?|[? _]].
Qed.

(** ** Unblocks that stand *)

Definition atLeast (u0 : Z) (m : gmap gostr Z) : nat := size (base.filter (fun '(_, u) => (u0 <= u)%Z) m).
Lemma atLeast_mono u0 m m' : m ⊆ m' -> (atLeast u0 m <= atLeast u0 m')%nat.
Proof.
  intros H. apply map_subseteq_size. apply map_subseteq_spec. intros i x [Hx Hu]%map_lookup_filter_Some. apply map_lookup_filter_Some. split; [|done]. by eapply lookup_weaken.
Qed.
Lemma atLeast_insert u0 m i u : (atLeast u0 (<[i := u]> m) <= atLeast u0 m + (if (u0 <=? u)%Z then 1 else 0))%nat.
Proof.
  unfold atLeast. rewrite map_filter_insert. case_decide as E.
  - replace (u0 <=? u)%Z with true by (symmetry; by apply Z.leb_le). pose proof (mapSize_insert (base.filter (fun '(_, u) => (u0 <= u)%Z) m) i u) as H. unfold mapSize in H. lia.
  - etrans; [apply (atLeast_mono u0 (base.delete i m) m), delete_subseteq|]. unfold atLeast. lia.
Qed.
Lemma trimVictim_least (keep : Z -> Z) l i x : trimVictim keep l = Some (i, x) -> forall j y, (j, y) ∈ l -> (keep x <= keep y)%Z.
Proof.
  unfold trimVictim. set (step := fun _ _ => _). assert (H : forall l' v, foldl step v l' = Some (i, x) ->
    (forall j y, (j, y) ∈ l' -> (keep x <= keep y)%Z) /\ (forall j y, v = Some (j, y) -> (keep x <= keep y)%Z)); [|intros E; by apply (H l None)].
  induction l' as [|[k w] l' IH]; intros v H; simpl in H.
  - subst v. split; [intros j y Hy; by apply elem_of_nil in Hy|]. intros j y [= _ ->]. done.
  - apply IH in H as [H1 H2]. assert (HB : (keep x <= keep w)%Z /\ (forall j y, v = Some (j, y) -> (keep x <= keep y)%Z)).
    { unfold step in H2. destruct v as [[j0 w0]|].
      - destruct (keep w <? keep w0)%Z eqn:E; specialize (H2 _ _ eq_refl); to_prop; (split; [lia|]); intros j y [= _ <-]; lia.
      - split; [by eapply H2|done]. }
    split; [|by apply HB]. intros j y [[= -> ->]|Hy]%elem_of_cons; [by apply HB|by eapply H1].
Qed.
Lemma trim_keeps fuel limit u0 i x : forall m, (size m <= fuel)%nat -> (0 <= limit)%Z -> (Z.of_nat (atLeast u0 m) <= limit)%Z -> m !! i = Some x -> (u0 <= x)%Z ->
  trim fuel limit (fun u => u) m !! i = Some x.
Proof.
  induction fuel as [|fuel IH]; intros m Hs Hl HA Hm Hx; cbn [trim]; destruct (mapSize m <=? limit)%Z eqn:E; to_prop; try done.
  destruct (trimVictim _ _) as [[k v]|] eqn:EV; [|done]. assert (Hv : m !! k = Some v).
  { pose proof (trimVictim_in _ _ _ EV) as Hk. rewrite (range_order_perm _ _) in Hk. by apply elem_of_map_to_list in Hk. }
  assert (Hlt : (v < u0)%Z).
  { destruct (decide (u0 <= v)%Z) as [Hge|]; [|lia]. exfalso. assert (HF : base.filter (fun '(_, u) => (u0 <= u)%Z) m = m).
    { apply map_filter_id. intros j y Hy. pose proof (trimVictim_least _ _ _ _ EV j y) as HL. rewrite (range_order_perm _ _) in HL. specialize (HL ltac:(by apply elem_of_map_to_list)). cbn in HL. lia. }
    unfold atLeast in HA. rewrite HF in HA. unfold mapSize in E. lia. }
  assert (HD : (S (size (base.delete k m)) = size m)%nat) by (rewrite map_size_delete_Some by (by eexists); pose proof (map_size_ne_0_lookup_2 m k ltac:(by eexists)); lia).
  apply IH; [lia|done| |by rewrite lookup_delete_ne by (intros ->; congruence || (rewrite Hv in Hm; injection Hm as ->; lia))|done].
  pose proof (atLeast_mono u0 (base.delete k m) m (delete_subseteq _ _)). lia.
Qed.

Lemma edits_unblocked e doc doc' made : edits e doc doc' made ->
  edUnblocked doc' = match e with VUnblock id now _ => <[id := (now + UnblockWindow)%Z]> (edUnblocked doc) | _ => edUnblocked doc end.
Proof.
  intros H. destruct e as [c|id now io|auth own now io|auth now rd io]; cbn in H; [done|by destruct H as (_ & _ & ->)| |].
  - destruct H as (address & f & pe & f' & _ & _ & H). apply rejectEdit_spec in H. cbv zeta in H. destruct H as [(_ & _ & ->)|(_ & r1 & made1 & _ & [[_ ->]|(d1 & made2 & _ & _ & _ & ->)])]; done.
  - destruct H as (address & _ & _ & ->). unfold acceptEdit. destruct (edGoodSince doc =? 0)%Z; by destruct (_ || _).
Qed.
Definition unblocksSince (u0 : Z) (e : rcvEvent) : bool := match e with VUnblock _ now _ => (u0 <=? now + UnblockWindow)%Z | _ => false end.
Definition unblockCount (u0 : Z) (tr : list rcvEvent) : nat := length (List.filter (unblocksSince u0) tr).
Lemma unblockCount_snoc u0 (log : rcvLog) e a : unblockCount u0 (log ++ [(e, a)]).*1 = (unblockCount u0 log.*1 + if unblocksSince u0 e then 1 else 0)%nat.
Proof. unfold unblockCount. rewrite fmap_app. cbn. rewrite List.filter_app, length_app. cbn. by destruct (unblocksSince u0 e). Qed.
Lemma edits_atLeast u0 e t doc doc' made : edits e (swept t doc) doc' made ->
  (atLeast u0 (edUnblocked doc') <= atLeast u0 (edUnblocked doc) + if unblocksSince u0 e then 1 else 0)%nat.
Proof.
  intros H. rewrite (edits_unblocked _ _ _ _ H). assert (HS : (atLeast u0 (edUnblocked (swept t doc)) <= atLeast u0 (edUnblocked doc))%nat) by (apply atLeast_mono, map_filter_subseteq).
  destruct e as [c|id now io|auth own now io|auth now rd io]; cbn [unblocksSince]; try lia. pose proof (atLeast_insert u0 (edUnblocked (swept t doc)) id (now + UnblockWindow)). lia.
Qed.
Lemma trimmed_unblocked u0 doc i x : (Z.of_nat (atLeast u0 (edUnblocked doc)) <= MaxEvidence)%Z -> edUnblocked doc !! i = Some x -> (u0 <= x)%Z -> edUnblocked (trimmed doc) !! i = Some x.
Proof. intros HA Hi Hx. cbn. by eapply trim_keeps. Qed.
Lemma trimmed_atLeast u0 doc : (atLeast u0 (edUnblocked (trimmed doc)) <= atLeast u0 (edUnblocked doc))%nat.
Proof. cbn. apply atLeast_mono. by destruct (trim_spec (size (edUnblocked doc)) MaxEvidence (fun u => u) (edUnblocked doc)). Qed.

Lemma LowerASCII_idem s : LowerASCII (LowerASCII s) = LowerASCII s.
Proof. unfold LowerASCII. rewrite <- list_fmap_compose. apply list_fmap_ext. intros i c _. cbn. unfold lowerA, isUpperA. destruct ((65 <=? c)%Z && (c <=? 90)%Z) eqn:E; [|by rewrite E].
  destruct ((65 <=? c + 32)%Z && (c + 32 <=? 90)%Z) eqn:E'; [|done]. apply andb_true_iff in E as [E _], E' as [_ E']. apply Z.leb_le in E, E'. lia.
Qed.
Lemma Identity_lower a address : Identity a = Some address -> LowerASCII address = address /\ exists user, cutLastAt address = Some (user, domainOf address).
Proof.
  unfold Identity. cbv zeta. destruct (cutLastAt (LowerASCII (auSender a))) as [[user domain]|] eqn:E; [|done]. destruct user as [|c user]; [done|]. destruct (_ || _); [done|]. intros [= <-].
  split; [apply LowerASCII_idem|]. exists (c :: user). unfold domainOf. by rewrite E.
Qed.
Lemma domainOf_lower a address : Identity a = Some address -> LowerASCII (domainOf address) = domainOf address.
Proof.
  intros [HL [user HC]]%Identity_lower. apply cutLastAt_Some in HC as [_ HC]. unfold LowerASCII in *. revert HL HC. generalize (domainOf address). intros d HL ->. rewrite fmap_app, fmap_cons in HL.
  apply app_inj_1 in HL as [_ HL]; [by injection HL|by rewrite length_fmap].
Qed.
Lemma escalated_block now kind value r r' made b : escalated now kind value r r' made -> LowerASCII value = value -> sane r -> b ∈ made ->
  sbKind b = kind /\ sbValue b = value /\ sbID b = BlockID kind value /\ automatic b = true /\ (1 <= sbLevel b <= 3)%Z /\ sbCreatedAt b = now /\ erBlocked r' = now /\
  sbUntil b = Some (now + nth (Z.to_nat (sbLevel b - 1)) autoCooldown 0)%Z /\ sbLevel b = Z.min (erLevel r + 1) 3.
Proof.
  intros [[-> _]|(level & v & b' & -> & HN & -> & -> & Hb)] HL [H1 _ _] Hin; [by apply elem_of_nil in Hin|]. apply list_elem_of_singleton in Hin as ->. subst b'.
  assert (v = value) as -> by (unfold NormalizeBlock in HN; rewrite HL in HN; destruct (_ || _); [by injection HN|done]). cbn. repeat (split; [done || lia|]). done.
Qed.

(** Why a verdict made a block. *)
Definition earned (address : gostr) (now : Z) (doc doc' : evidenceDoc) (b : SenderBlock) : Prop :=
  (sbKind b = $"address" /\ sbValue b = address /\ sbID b = BlockID ($"address") address /\ (5 <= length (hitsAt now (default noRecord (edAddresses doc !! sbID b))))%nat) \/
  (sbKind b = $"domain" /\ sbValue b = domainOf address /\ sbID b = BlockID ($"domain") (domainOf address) /\ edGood doc !! sbID b = None /\
   edGoodSince doc ≠ 0%Z /\ (edGoodSince doc + domainWarmUp <= now)%Z /\
   exists k, (now - domainWindow <= k)%Z /\ (0 <= k)%Z /\
     (5 <= length (List.filter (fun '(_, x) => (erDomain x =s? sbID b) && (k <? erBlocked x)%Z) (map_to_list (edAddresses doc'))))%nat).
Lemma reject_made auth address own now io f doc doc' made pe f' b : docShape doc -> (1 <= now)%Z -> Identity auth = Some address ->
  rejectEdit address (domainOf address) own now io doc f = ((made, pe), doc', f') -> b ∈ made ->
  automatic b = true /\ (1 <= sbLevel b <= 3)%Z /\ sbCreatedAt b = now /\ sbUntil b = Some (now + nth (Z.to_nat (sbLevel b - 1)) autoCooldown 0)%Z /\
  (default 0 (edUnblocked doc !! sbID b) <= now)%Z /\ earned address now doc doc' b.
Proof.
  intros HS Hn HI H Hb. apply rejectEdit_spec in H. cbv zeta in H. destruct H as [(_ & -> & _)|(HU & r1 & made1 & H1 & H2)]; [by apply elem_of_nil in Hb|].
  pose proof (default_sane true _ (BlockID ($"address") address) (ds_addresses _ HS)) as [S1 S2 S3]. pose proof (Identity_lower _ _ HI) as [HL _]. pose proof (domainOf_lower _ _ HI) as HLd.
  assert (HB1 : b ∈ made1 -> automatic b = true /\ (1 <= sbLevel b <= 3)%Z /\ sbCreatedAt b = now /\ sbUntil b = Some (now + nth (Z.to_nat (sbLevel b - 1)) autoCooldown 0)%Z /\
    (default 0 (edUnblocked doc !! sbID b) <= now)%Z /\ earned address now doc doc' b).
  { intros Hin. destruct H1 as [(_ & -> & _)|[H5 H1]]; [by apply elem_of_nil in Hin|].
    destruct (escalated_block _ _ _ _ _ _ b H1 HL) as (E1 & E2 & E3 & E4 & E5 & E6 & _ & E7 & _); [split; [done|done|by apply hitsAt_ok]|done|]. repeat (split; [done || by rewrite E3|]).
    left. rewrite E3. done. }
  destruct H2 as [[-> _]|(d1 & made2 & HD & H2 & -> & ->)]; [by apply HB1|]. apply elem_of_app in Hb as [Hb|Hb]; [by apply HB1|]. clear HB1.
  pose proof (default_sane false _ (BlockID ($"domain") (domainOf address)) (ds_domains _ HS)) as Hs.
  destruct (escalated_block _ _ _ _ _ _ b H2 HLd Hs Hb) as (E1 & E2 & E3 & E4 & E5 & E6 & _ & E7 & _). destruct HD as (D1 & D2 & D3 & D4 & D5).
  repeat (split; [done || by rewrite E3|]). right. rewrite E3. repeat (split; [done|]). destruct Hs as [_ Hs _]. exists (Z.max (now - domainWindow) (erBlocked (default noRecord (edDomains doc !! BlockID ($"domain") (domainOf address))))).
  split; [lia|]. split; [lia|exact D5].
Qed.

Lemma unblock_recorded id now io s m s' : evOK (rcEvidence s) -> stepV (VUnblock id now io) s = ((m, None), s') ->
  exists doc', edits (VUnblock id now io) (swept now (evdoc (rcEvidence s))) doc' [] /\ rcEvidence s' = FData (trimmed doc').
Proof.
  intros HE H. cbn [stepV] in H. destruct (validID id) eqn:EI; [|done]. unfold unblocked in H. destruct (changeEvidence now io _ tt s) as [[a e1] s1] eqn:EC. injection H as <- -> <-.
  apply changeEvidence_cases in EC as [_ [(_ & [? ?] & _)|(doc' & f' & [= _ <- _] & [HR|[[? ?] _]])]]; [done| |done|done]. eexists. split; [|exact HR]. by repeat split.
Qed.
Lemma unblocked_until u0 tr : Forall timed tr -> forall s, evOK (rcEvidence s) -> evOK (rcEvidence (run_trace stepV tr s).2) /\
  (atLeast u0 (edUnblocked (evdoc (rcEvidence (run_trace stepV tr s).2))) <= atLeast u0 (edUnblocked (evdoc (rcEvidence s))) + unblockCount u0 tr)%nat.
Proof.
  intros HT s HE. destruct (run_evidence (fun _ => True) (fun log doc => (atLeast u0 (edUnblocked doc) <= atLeast u0 (edUnblocked (evdoc (rcEvidence s))) + unblockCount u0 log.*1)%nat) s tr HE) as (H1 & _ & H2).
  - cbn. lia.
  - intros log e a doc H. rewrite unblockCount_snoc. destruct (unblocksSince u0 e); lia.
  - intros log e made er t doc doc' _ H _ _ _ Hd. rewrite unblockCount_snoc. pose proof (edits_atLeast u0 _ _ _ _ _ Hd). pose proof (trimmed_atLeast u0 doc'). lia.
  - by eapply Forall_impl; [exact HT|].
  - by rewrite run_trace_events in H2.
Qed.
Lemma unblockCount_app u0 tr tr' : unblockCount u0 (tr ++ tr') = (unblockCount u0 tr + unblockCount u0 tr')%nat.
Proof. unfold unblockCount. by rewrite List.filter_app, length_app. Qed.

Lemma swept_keeps t doc i u : edUnblocked doc !! i = Some u -> (t < u)%Z -> edUnblocked (swept t doc) !! i = Some u.
Proof. intros H Ht. cbn. by apply map_lookup_filter_Some. Qed.
Lemma edits_suppressed e t doc doc' made id u b : docShape doc -> evTime e = Some t -> (1 <= t)%Z -> edits e (swept t doc) doc' made -> edUnblocked doc !! id = Some u -> (t < u)%Z ->
  b ∈ made -> sbID b ≠ id.
Proof.
  intros HS Ht H1 Hd Hu Hlt Hb ->%eq_sym. destruct e as [c|id' now io|auth own now io|auth now rd io]; cbn in Hd, Ht; [done|by destruct Hd as (_ & -> & _); apply elem_of_nil in Hb| |].
  - injection Ht as ->. destruct Hd as (address & f & pe & f' & HI & _ & Hd). destruct (reject_made _ _ _ _ _ _ _ _ _ _ _ b (swept_shape t doc HS) H1 HI Hd Hb) as (_ & _ & _ & _ & HU & _).
    rewrite (swept_keeps t doc _ _ Hu Hlt) in HU. cbn in HU. lia.
  - destruct Hd as (address & _ & -> & _). by apply elem_of_nil in Hb.
Qed.
Lemma unblock_kept id now u0 tr : u0 = (now + UnblockWindow)%Z -> forall s, Forall timed tr -> (forall e t, e ∈ tr -> evTime e = Some t -> (now <= t < u0)%Z) -> evOK (rcEvidence s) ->
  (exists u, edUnblocked (evdoc (rcEvidence s)) !! id = Some u /\ (u0 <= u)%Z) -> (atLeast u0 (edUnblocked (evdoc (rcEvidence s))) + unblockCount u0 tr <= 4096)%nat ->
  forall e made er b, (e, (made, er)) ∈ (run_trace stepV tr s).1 -> b ∈ made -> sbID b ≠ id.
Proof.
  intros Hu0. induction tr as [|e tr IH]; intros s HT HW HE HU HC e' made er b Hin Hb; [by apply elem_of_nil in Hin|]. apply Forall_cons in HT as [HT0 HT].
  simpl in Hin. destruct (stepV e s) as [[m1 er1] s1] eqn:E. change (e :: tr) with ([e] ++ tr) in HC. rewrite unblockCount_app in HC.
  assert (Hce : unblockCount u0 [e] = if unblocksSince u0 e then 1%nat else 0%nat) by (unfold unblockCount; cbn [List.filter]; by destruct (unblocksSince u0 e)).
  pose proof (stepV_evOK _ _ _ _ HE HT0 E) as [HE1 _]. pose proof (stepV_evidence _ _ _ _ _ HE E) as [_ HR]. destruct HU as (u & HU & Hle).
  assert (HN : (forall b, b ∈ m1 -> sbID b ≠ id) /\ (exists u, edUnblocked (evdoc (rcEvidence s1)) !! id = Some u /\ (u0 <= u)%Z) /\
    (atLeast u0 (edUnblocked (evdoc (rcEvidence s1))) <= atLeast u0 (edUnblocked (evdoc (rcEvidence s))) + unblockCount u0 [e])%nat).
  { destruct HR as [[-> ->]|(t & doc' & Ht & Hd & HR)]; [split; [by intros ? ?%elem_of_nil|split; [by exists u|lia]]|].
    pose proof (HW e t ltac:(by left) Ht) as Hwt. assert (Hlt : (t < u)%Z) by lia. split; [intros b0; by apply (edits_suppressed e t (evdoc (rcEvidence s)) doc' m1 id u b0 (do_shape _ (evdoc_ok _ HE)) Ht (HT0 t Ht) Hd HU Hlt)|].
    destruct HR as [->|[_ ->]]; [|split; [by exists u|lia]]. cbn [evdoc]. pose proof (edits_atLeast u0 _ _ _ _ _ Hd) as HA. rewrite <- Hce in HA. pose proof (trimmed_atLeast u0 doc').
    split; [|lia]. assert (HI : exists u, edUnblocked doc' !! id = Some u /\ (u0 <= u)%Z).
    { rewrite (edits_unblocked _ _ _ _ Hd). pose proof (swept_keeps t _ _ _ HU Hlt) as HK. destruct e as [c|id' now' io'|auth own now' io'|auth now' rd io']; try (by exists u).
      cbn in Ht. injection Ht as ->. destruct (decide (id' = id)) as [-> |]; [rewrite lookup_insert_eq|rewrite lookup_insert_ne by done; by exists u]. eexists. split; [done|]. lia. }
    destruct HI as (u' & HI & Hle'). exists u'. split; [|done]. apply (trimmed_unblocked u0); [unfold MaxEvidence; lia|done|done]. }
  destruct HN as (HN1 & HN2 & HN3). destruct (run_trace stepV tr s1) as [log s2] eqn:ER. simpl in Hin. apply elem_of_cons in Hin as [[= -> <- <-]|Hin]; [by apply HN1|].
  eapply (IH s1); [done|intros; eapply HW; [by right|done]|done|done|lia|by rewrite ER|done].
Qed.


(** ** Blocks that are earned *)

(** The verdicts a log holds against an ID, and the address blocks it made. *)
Definition rejectAt (id : gostr) (e : rcvEvent) : option Z :=
  match e with VReject auth _ now _ => match Identity auth with Some address => if BlockID ($"address") address =s? id then Some now else None | None => None end | _ => None end.
Definition rejectTimes (id : gostr) (log : rcvLog) : list Z := omap (fun '(e, _) => rejectAt id e) log.
Definition blockedIn (log : rcvLog) (id : gostr) (t : Z) : Prop := exists e made er b, (e, (made, er)) ∈ log /\ b ∈ made /\ sbKind b = $"address" /\ sbID b = id /\ sbCreatedAt b = t.
Record backed (log : rcvLog) (doc : evidenceDoc) : Prop := {
  bk_hits id r : edAddresses doc !! id = Some r -> erHits r `sublist_of` rejectTimes id log;
  bk_blocked id r : edAddresses doc !! id = Some r -> (0 < erBlocked r)%Z -> blockedIn log id (erBlocked r);
  bk_since : edGoodSince doc = 0%Z \/ exists auth rd io a, (VAccepted auth (edGoodSince doc) rd io, a) ∈ log /\ is_Some (Identity auth);
}.
Lemma rejectTimes_snoc id log e a : rejectTimes id (log ++ [(e, a)]) = rejectTimes id log ++ match rejectAt id e with Some t => [t] | None => [] end.
Proof. unfold rejectTimes. rewrite omap_app. cbn. by destruct (rejectAt id e). Qed.
Lemma blockedIn_snoc log x id t : blockedIn log id t -> blockedIn (log ++ [x]) id t.
Proof. intros (e & made & er & b & H & H'). exists e, made, er, b. split; [|done]. apply elem_of_app. by left. Qed.
Lemma backed_snoc log x doc : backed log doc -> backed (log ++ [x]) doc.
Proof.
  intros [H1 H2 H3]. destruct x as [e a]. split.
  - intros id r Hr. rewrite rejectTimes_snoc. etrans; [by apply H1|]. apply sublist_inserts_r. done.
  - intros id r Hr Hp. by apply blockedIn_snoc, H2.
  - destruct H3 as [?|(auth & rd & io & a' & H & HI)]; [by left|]. right. exists auth, rd, io, a'. split; [|done]. apply elem_of_app. by left.
Qed.
Lemma backed_sub log doc doc' : backed log doc -> edAddresses doc' ⊆ edAddresses doc -> edGoodSince doc' = edGoodSince doc -> backed log doc'.
Proof. intros [H1 H2 H3] HS HG. split; [intros id r Hr; by eapply H1, lookup_weaken|intros id r Hr; by eapply H2, lookup_weaken|by rewrite HG]. Qed.
Lemma backed_swept log t doc : backed log doc -> backed log (swept t doc).
Proof. intros H. eapply backed_sub; [exact H| |done]. cbn. apply map_filter_subseteq. Qed.
Lemma backed_trimmed log doc : backed log doc -> backed log (trimmed doc).
Proof. intros H. eapply backed_sub; [exact H| |done]. cbn. by destruct (trim_spec (size (edAddresses doc)) MaxEvidence keepRecord (edAddresses doc)). Qed.
Lemma hitsAt_backed log doc id now e a : backed log doc -> rejectAt id e = Some now ->
  hitsAt now (default noRecord (edAddresses doc !! id)) `sublist_of` List.filter (fun t => negb (t <=? now - autoWindow)%Z) (rejectTimes id (log ++ [(e, a)])).
Proof.
  intros [H1 _ _] He. rewrite rejectTimes_snoc, He, List.filter_app. cbn [List.filter]. replace (now <=? now - autoWindow)%Z with false by (symmetry; apply Z.leb_gt; unfold autoWindow, hour; lia).
  unfold hitsAt. apply sublist_app; [|done]. destruct (edAddresses doc !! id) as [r|] eqn:E; [|apply sublist_nil_l]. cbn. specialize (H1 id r E). revert H1. generalize (rejectTimes id log) (erHits r).
  intros l1 l2 HSub. induction HSub as [|t l l' _ IH|t l l' _ IH]; cbn [List.filter]; [done| |]; destruct (negb _); try done; by constructor.
Qed.
Lemma backed_reject auth address own now io f pe f' log doc doc' made er : docShape doc -> (1 <= now)%Z -> backed log doc -> Identity auth = Some address ->
  rejectEdit address (domainOf address) own now io doc f = ((made, pe), doc', f') -> backed (log ++ [(VReject auth own now io, (made, er))]) doc'.
Proof.
  intros HS Hn HB HI H. pose proof H as HR. apply rejectEdit_spec in HR. cbv zeta in HR. destruct HR as [(_ & _ & ->)|(_ & r1 & made1 & H1 & H2)]; [by apply backed_snoc|].
  set (x := (VReject auth own now io, (made, er))). set (aid := BlockID ($"address") address) in *. assert (HAt : rejectAt aid (VReject auth own now io) = Some now) by (cbn; rewrite HI; by rewrite bool_decide_true).
  pose proof (default_sane true _ aid (ds_addresses _ HS)) as HSr. pose proof (Identity_lower _ _ HI) as [HL _]. pose proof (hitsAt_backed log doc aid now _ (made, er) HB HAt) as HH. fold x in HH.
  assert (HA : edAddresses doc' = <[aid := r1]> (edAddresses doc) /\ edGoodSince doc' = edGoodSince doc) by (by destruct H2 as [[_ ->]|(? & ? & _ & _ & _ & ->)]). destruct HA as [HA HG].
  destruct (backed_snoc log x doc HB) as [B1 B2 B3]. split; [| |by rewrite HG].
  - intros id r. rewrite HA. destruct (decide (id = aid)) as [-> |]; [rewrite lookup_insert_eq|rewrite lookup_insert_ne by done; by apply B1]. intros [= <-].
    destruct H1 as [(_ & _ & ->)|[_ H1]]; cbn.
    + etrans; [exact HH|apply filter_sublist].
    + eapply escalated_record in H1 as (_ & -> & _); [apply sublist_nil_l| |done]. destruct HSr. split; [done|done|by apply hitsAt_ok].
  - intros id r. rewrite HA. destruct (decide (id = aid)) as [-> |]; [rewrite lookup_insert_eq|rewrite lookup_insert_ne by done; by apply B2]. intros [= <-] Hp.
    assert (Hold : erBlocked r1 = erBlocked (default noRecord (edAddresses doc !! aid)) -> blockedIn (log ++ [x]) aid (erBlocked r1)).
    { intros E. rewrite E in *. destruct (edAddresses doc !! aid) as [r|] eqn:Er; [by apply B2|]. cbn in Hp. lia. }
    destruct H1 as [(_ & _ & ->)|[_ [[_ ->]|(level & v & b & Hlv & HN & Hm & -> & Hb)]]]; [by apply Hold..|]. cbn.
    exists (VReject auth own now io), made, er, b. split; [apply elem_of_app; right; by apply list_elem_of_singleton|]. split.
    { destruct H2 as [[-> _]|(d1 & made2 & _ & _ & -> & _)]; rewrite Hm; [by apply list_elem_of_singleton|by left]. }
    subst b. cbn. split; [done|]. split; [|done]. unfold NormalizeBlock in HN. rewrite HL in HN. destruct (_ || _); [by injection HN as <-|done].
Qed.
Lemma backed_step log e made er t doc doc' : backed log doc -> docOK doc -> evTime e = Some t -> (1 <= t)%Z -> edits e (swept t doc) doc' made -> backed (log ++ [(e, (made, er))]) (trimmed doc').
Proof.
  intros HB HD Ht H1 Hd. apply backed_trimmed. pose proof (backed_swept _ t _ HB) as HB1. pose proof (swept_shape t _ (do_shape _ HD)) as HS. revert HB1 HS Hd. generalize (swept t doc). clear HB HD doc. intros doc HB HS Hd.
  destruct e as [c|id now io|auth own now io|auth now rd io]; cbn in Hd; [done| | |]; injection Ht as ->.
  - destruct Hd as (_ & _ & ->). eapply backed_sub; [by apply backed_snoc|done|done].
  - destruct Hd as (address & f & pe & f' & HI & _ & Hd). by eapply backed_reject.
  - destruct Hd as (address & HI & _ & ->). destruct (backed_snoc log (VAccepted auth t rd io, (made, er)) doc HB) as [B1 B2 B3]. unfold acceptEdit. destruct (edGoodSince doc =? 0)%Z eqn:EG.
    + assert (HX : forall doc2, edAddresses doc2 = edAddresses doc -> edGoodSince doc2 = t -> backed (log ++ [(VAccepted auth t rd io, (made, er))]) doc2); [|by destruct (_ || _); apply HX].
      intros doc2 E1 E2. split; rewrite ?E1, ?E2; [done|done|]. right. exists auth, rd, io, (made, er). split; [apply elem_of_app; right; by apply list_elem_of_singleton|by eexists].
    + destruct (_ || _); [by split|]. eapply backed_sub; [by split|done|done].
Qed.

(** Five records of a domain blocked since [k] name five IDs blocked since. *)
Lemma blocked_ids log doc (p : gostr * evidenceRecord -> bool) k now : backed log doc -> (now - domainWindow <= k)%Z -> (0 <= k)%Z -> (forall id x, p (id, x) = true -> (k < erBlocked x)%Z) ->
  (5 <= length (List.filter p (map_to_list (edAddresses doc))))%nat ->
  exists ids, NoDup ids /\ length ids = 5%nat /\ forall id, id ∈ ids -> exists t, (now - domainWindow < t)%Z /\ blockedIn log id t.
Proof.
  intros HB Hk H0 Hp H5. set (l := List.filter p (map_to_list (edAddresses doc))) in *. exists (take 5 (l.*1)). split; [|split].
  - eapply sublist_NoDup; [|apply sublist_take]. eapply sublist_NoDup; [apply (NoDup_fst_map_to_list (edAddresses doc))|]. apply fmap_sublist, filter_sublist.
  - rewrite length_take, length_fmap. lia.
  - intros id Hid. eapply elem_of_sublist in Hid; [|apply sublist_take]. apply list_elem_of_fmap in Hid as ([id' x] & -> & Hx). unfold l in Hx. rewrite list_elem_of_In, filter_In, <- list_elem_of_In in Hx.
    destruct Hx as [Hx Hpx]. apply elem_of_map_to_list in Hx. pose proof (Hp _ _ Hpx). exists (erBlocked x). split; [lia|]. eapply bk_blocked; [exact HB|exact Hx|lia].
Qed.


Lemma edits_good e doc doc' made d : edits e doc doc' made -> is_Some (edGood doc !! d) -> is_Some (edGood doc' !! d).
Proof.
  intros H HG. destruct e as [c|id now io|auth own now io|auth now rd io]; cbn in H; [done|by destruct H as (_ & _ & ->)| |].
  - destruct H as (address & f & pe & f' & _ & _ & H). apply rejectEdit_spec in H. cbv zeta in H. destruct H as [(_ & _ & ->)|(_ & r1 & made1 & _ & [[_ ->]|(d1 & made2 & _ & _ & _ & ->)])]; done.
  - destruct H as (address & _ & _ & ->). unfold acceptEdit. destruct (edGoodSince doc =? 0)%Z; (destruct (_ || _); [done|]); cbn; by apply lookup_insert_is_Some'; right.
Qed.
Lemma good_kept d tr : forall s, Forall timed tr -> evOK (rcEvidence s) -> is_Some (edGood (evdoc (rcEvidence s)) !! d) ->
  forall e made er b, (e, (made, er)) ∈ (run_trace stepV tr s).1 -> b ∈ made -> sbKind b = $"domain" -> sbID b ≠ d.
Proof.
  induction tr as [|e tr IH]; intros s HT HE HG e' made er b Hin Hb Hk; [by apply elem_of_nil in Hin|]. apply Forall_cons in HT as [HT0 HT]. simpl in Hin. destruct (stepV e s) as [[m1 er1] s1] eqn:E.
  pose proof (stepV_evOK _ _ _ _ HE HT0 E) as [HE1 _]. pose proof (stepV_evidence _ _ _ _ _ HE E) as [_ HR].
  assert (HN : (forall b, b ∈ m1 -> sbKind b = $"domain" -> sbID b ≠ d) /\ is_Some (edGood (evdoc (rcEvidence s1)) !! d)).
  { destruct HR as [[-> ->]|(t & doc' & Ht & Hd & HR)]; [split; [by intros ? ?%elem_of_nil|done]|]. split; [|destruct HR as [->|[_ ->]]; [by apply (edits_good _ _ _ _ _ Hd HG)|done]].
    intros b0 Hb0 Hk0 Hid. destruct e as [c|id now io|auth own now io|auth now rd io]; cbn in Hd, Ht; [done|by destruct Hd as (_ & -> & _); apply elem_of_nil in Hb0| |].
    - injection Ht as ->. destruct Hd as (address & f & pe & f' & HI & _ & Hd).
      destruct (reject_made _ _ _ _ _ _ _ _ _ _ _ b0 (swept_shape t _ (do_shape _ (evdoc_ok _ HE))) (HT0 t eq_refl) HI Hd Hb0) as (_ & _ & _ & _ & _ & [(Ha & _)|(_ & _ & _ & Hg & _)]); [by rewrite Hk0 in Ha|].
      cbn in Hg. rewrite Hid in Hg. by apply eq_None_not_Some in Hg.
    - destruct Hd as (address & _ & -> & _). by apply elem_of_nil in Hb0. }
  destruct HN as [HN1 HN2]. destruct (run_trace stepV tr s1) as [log s2] eqn:ER. simpl in Hin. apply elem_of_cons in Hin as [[= -> <- <-]|Hin]; [by apply HN1|].
  eapply (IH s1); [done..|by rewrite ER|done|done].
Qed.
Lemma accepted_recorded auth now rd io address s m s' : evOK (rcEvidence s) -> Identity auth = Some address -> let doc := evdoc (rcEvidence s) in
  (mapSize (edGood doc) < MaxGoodDomains)%Z -> (default 0 (edParents doc !! BlockID ($"domain") (parentDomain (domainOf address))) < maxGoodPerParent)%Z ->
  stepV (VAccepted auth now rd io) s = ((m, None), s') -> is_Some (edGood (evdoc (rcEvidence s')) !! BlockID ($"domain") (domainOf address)).
Proof.
  intros HE HI doc HS HP H. set (did := BlockID ($"domain") (domainOf address)). cbn [stepV] in H. unfold Accepted in H. rewrite HI in H. cbv zeta in H. fold did in H.
  assert (HK : (0 <? default 0 (edGood doc !! did))%Z = true -> is_Some (edGood doc !! did)) by (destruct (edGood doc !! did); [by eexists|done]).
  assert (HD : (match loadEvidence rd (rcEvidence s) with Ok doc => (0 <? default 0 (edGood doc !! did))%Z | Err _ => false end) = true -> is_Some (edGood doc !! did)).
  { destruct (loadEvidence_ok rd _ HE) as [-> |[_ ->]]; [apply HK|done]. }
  destruct (match loadEvidence _ _ with Ok _ => _ | Err _ => _ end); [injection H as _ <-; by apply HD|]. clear HD.
  destruct (changeEvidence now io _ tt s) as [[a e1] s1] eqn:EC. injection H as _ -> <-.
  apply changeEvidence_cases in EC as [_ [(_ & [? ?] & _)|(doc' & f' & [= _ <- _] & [-> |[[? ?] _]])]]; [done| |done|done]. fold doc. cbn [evdoc]. unfold acceptEdit.
  set (doc1 := if (edGoodSince (swept now doc) =? 0)%Z then _ else _). assert (E1 : edGood doc1 = edGood doc /\ edParents doc1 = edParents doc) by (unfold doc1; by destruct (_ =? _)%Z).
  destruct E1 as [E1 E2]. rewrite E1, E2. destruct (0 <? default 0 (edGood doc !! did))%Z eqn:EK.
  - cbn [orb]. cbn. rewrite E1. by apply HK.
  - cbn [orb]. apply Z.leb_gt in HS, HP. rewrite HS, HP. cbn. rewrite lookup_insert_eq. by eexists.
Qed.

(** Accepted domains are safe: once a domain's authenticated mail was accepted
    and recorded, which it is while fewer than 50000 domains and fewer than fifty of
    its parent are, no verdict ever makes an automatic block of the domain. *)
Lemma accepted_domain_safe tr1 auth now rd io address tr2 : let e0 := VAccepted auth now rd io in Forall timed (tr1 ++ e0 :: tr2) ->
  let s1 := (run_trace stepV tr1 newReceiving).2 in let doc := evdoc (rcEvidence s1) in Identity auth = Some address ->
  (mapSize (edGood doc) < MaxGoodDomains)%Z -> (default 0 (edParents doc !! BlockID ($"domain") (parentDomain (domainOf address))) < maxGoodPerParent)%Z ->
  (stepV e0 s1).1.2 = None ->
  forall e made er b, (e, (made, er)) ∈ (run_trace stepV tr2 (stepV e0 s1).2).1 -> b ∈ made -> sbKind b = $"domain" -> sbID b ≠ BlockID ($"domain") (domainOf address).
Proof.
  intros e0 HT s1 doc HI HS HP H0. apply Forall_app in HT as [HT1 HT]. apply Forall_cons in HT as [HT0 HT2].
  assert (HE1 : evOK (rcEvidence s1)) by (apply (unblocked_until 0 tr1 HT1), newReceiving_evOK). destruct (stepV e0 s1) as [[m0 er0] s2] eqn:E0. cbn [fst snd] in *. subst er0.
  apply good_kept; [done|by eapply stepV_evOK|]. by eapply (accepted_recorded auth now rd io address s1 m0 s2).
Qed.
End Evidence.
