(* ===== verification/IngressRun.v ===== *)
(** * IngressRun: calls on the holding store, and the moves they make

    A call is a method of an opened handle, the clock and whether the database
    accepts the transaction.  [moves] lists what a call can do to the tables;
    every call makes one move, so a property of the tables is proved once per
    move. *)

From S2P Require Import Prelude GoText GoCodec SendAs MailboxModel Mailbox Outbox IngressModel Ingress.

Inductive ingOp :=
  | ISetRoute (ad : admission) (recovery : bool) (r : Route)
  | IDeactivate (generations : gmap gostr Z)
  | IBind (ad : admission) (gateway id sender recipient : gostr)
  | IAccept (ad : admission) (gateway id sender : gostr) (raw : option (list Z))
  | IQuarantine (ad : admission) (gateway id sender : gostr) (b : Binding) (raw : list Z)
  | IQuarantinePending (gateway id : gostr)
  | IClaim (duration : Z) (release : bool) (token : option gostr) (gateway id : gostr)
  | IAcknowledge (release : bool) (gateway id lease digest : gostr)
  | IDiscard (gateway id : gostr)
  | IResolve (gateway id : gostr) (b : Binding).
Inductive ingAnswer := AUnit | ADelivery (d : Delivery) | ADisposition (s : gostr).

(** The store and the limits of its open handles. *)
Record holding := mkHolding { hoSpool : spool; hoHandles : list holdLimits }.
Inductive ingCall :=
  | Reopen (existing : bool) (limits : holdLimits) (now : Z) (up1 up2 synced : bool)
  | Call (handle : nat) (now : Z) (up : bool) (op : ingOp).

Section Run.
Context {ML : MailLib} {RO : RangeOrder}.

Definition plain (m : Ing unit) : Ing (res ingErr ingAnswer) := m ;; mret (Ok AUnit).
Definition graded {A} (f : A -> ingAnswer) (m : Ing (res ingErr A)) : Ing (res ingErr ingAnswer) :=
  r ← m; mret (match r with Ok a => Ok (f a) | Err e => Err e end).
Definition runIng (l : holdLimits) (now : Z) (o : ingOp) : Ing (res ingErr ingAnswer) :=
  match o with
  | ISetRoute ad recovery r => plain (setRoute l ad recovery r)
  | IDeactivate generations => plain (deactivateRoutes generations)
  | IBind ad gateway id sender recipient => plain (bindRecipient l ad now gateway id sender recipient)
  | IAccept ad gateway id sender raw => plain (accept l ad gateway id sender raw)
  | IQuarantine ad gateway id sender b raw => plain (quarantine l ad now gateway id sender b raw)
  | IQuarantinePending gateway id => graded (fun _ => AUnit) (quarantinePending now gateway id)
  | IClaim duration release token gateway id => graded ADelivery (claim now duration release token gateway id)
  | IAcknowledge release gateway id lease digest => graded (fun _ => AUnit) (acknowledge now release gateway id lease digest)
  | IDiscard gateway id => s ← discard now gateway id; mret (Ok (ADisposition s))
  | IResolve gateway id b => plain (resolveQuarantined now gateway id b)
  end.
Definition callIng (l : holdLimits) (now : Z) (up : bool) (o : ingOp) (d : spool) : res ingErr ingAnswer * spool :=
  match commit ErrSQL up (runIng l now o) d with (Ok r, d') => (r, d') | (Err e, d') => (Err e, d') end.

Definition stepI (c : ingCall) (s : holding) : res ingErr ingAnswer * holding :=
  match c with
  | Reopen existing limits now up1 up2 synced =>
      match openStore existing limits now up1 up2 synced (Some (hoSpool s)) with
      | (Ok _, Some d) => (Ok AUnit, mkHolding d (hoHandles s ++ [limits]))
      | (Err e, Some d) => (Err e, mkHolding d (hoHandles s))
      | (_, None) => (Err ErrSQL, s)
      end
  | Call h now up op =>
      match hoHandles s !! h with
      | None => (Err ErrSQL, s)
      | Some l => let '(r, d) := callIng l now up op (hoSpool s) in (r, mkHolding d (hoHandles s))
      end
  end.

(** ** Moves *)

Definition keyOf (r : heldRow) : gostr * gostr := (hGateway r, hID r).
Definition bindKey (b : bindingRow) : gostr * gostr * gostr := (brGateway b, brID b, bAddress (brBinding b)).
Definition tombKey (t : tombRow) : gostr * gostr := (tGateway t, tID t).
Definition routeBinding (recipient : gostr) (r : Route) : Binding := mkBinding recipient (rtIssuer r) (rtSubject r) (rtMailbox r) (rtGeneration r).
Definition bindingsOf (g i : gostr) (d : spool) : list bindingRow := List.filter (isBound g i) (spBindings d).

(** A route may change owner or come back only under a higher generation. *)
Definition advances (old new : Route) : Prop :=
  rtAddress new = rtAddress old /\
  ((rtGeneration old < rtGeneration new)%Z \/
   rtGeneration old = rtGeneration new /\ sameOwner new old = true /\ (rtActive new = true -> rtActive old = true)).
Definition routesAdvance (l l' : list Route) : Prop :=
  forall a r, find_first (isRoute a) l = Some r -> exists r', find_first (isRoute a) l' = Some r' /\ (r' = r \/ advances r r').

(** The delivery a call may fence, and the mark a call archives it under. *)
Definition fences (g i : gostr) (o : ingOp) : Prop :=
  match o with
  | IQuarantinePending g' i' | IClaim _ false _ g' i' | IAcknowledge false g' i' _ _ => g' = g /\ i' = i
  | _ => False
  end.
Definition archives (g i : gostr) (row : heldRow) (disposition : gostr) (o : ingOp) : Prop :=
  match o with
  | IAcknowledge release g' i' lease digest =>
      g' = g /\ i' = i /\ hDigest row = digest /\ hLease row = lease /\ lease ≠ [] /\
      disposition = (if release then $"released" else $"imported") /\ hState row = (if release then $"quarantined" else $"pending")
  | IDiscard g' i' => g' = g /\ i' = i /\ hState row = $"quarantined" /\ disposition = (if hLease row =s? [] then $"discarded" else $"partially_released")
  | _ => False
  end.

Inductive moves (l : holdLimits) (now : Z) (o : ingOp) (d : spool) : spool -> Prop :=
  | MvSame : moves l now o d d
  | MvRoutes rs : routesAdvance (spRoutes d) rs -> NoDup (rtAddress <$> rs) -> moves l now o d (setRoutes rs d)
  | MvStage g i s a r : find_first (isHeld g i) (spHeld d) = None -> archivedDelivery g i d = None ->
      address a false = true -> find_first (isRoute a) (spRoutes d) = Some r -> rtActive r = true -> (unix now < default 0 (rtValidUntil r))%Z ->
      (Z.of_nat (length (spHeld d)) < hlRecords l)%Z -> (exists ad, o = IBind ad g i s a) ->
      moves l now o d (setBindings (spBindings d ++ [mkBindingRow g i (routeBinding a r)])
        (setHeld (spHeld d ++ [mkHeld (nextRow (spHeld d)) g i s (unix now) [] None ($"staged") [] 0]) d))
  | MvBind g i a row r : find_first (isHeld g i) (spHeld d) = Some row -> hState row = $"staged" ->
      existsb (fun b => isBound g i b && (bAddress (brBinding b) =s? a)) (spBindings d) = false -> (length (bindingsOf g i d) < 100)%nat ->
      address a false = true -> find_first (isRoute a) (spRoutes d) = Some r -> rtActive r = true -> (unix now < default 0 (rtValidUntil r))%Z ->
      (exists ad, o = IBind ad g i (hSender row) a) ->
      moves l now o d (setBindings (spBindings d ++ [mkBindingRow g i (routeBinding a r)]) d)
  | MvFill g i row raw : find_first (isHeld g i) (spHeld d) = Some row -> hState row = $"staged" -> raw ≠ [] ->
      (Z.of_nat (length raw) <= hlMessageBytes l)%Z -> (payloadUsed d + Z.of_nat (length raw) <= hlPayloadBytes l)%Z ->
      (exists ad, o = IAccept ad g i (hSender row) (Some raw)) ->
      moves l now o d (setHeld (updateWhere (isHeld g i) (filled (hashIncoming raw) raw ($"pending")) (spHeld d)) d)
  | MvHold g i s b raw : find_first (isHeld g i) (spHeld d) = None -> archivedDelivery g i d = None -> address (bAddress b) false = true -> raw ≠ [] ->
      (Z.of_nat (length raw) <= hlMessageBytes l)%Z -> (payloadUsed d + Z.of_nat (length raw) <= hlPayloadBytes l)%Z -> (Z.of_nat (length (spHeld d)) < hlRecords l)%Z ->
      (exists ad, o = IQuarantine ad g i s b raw) ->
      moves l now o d (setBindings (spBindings d ++ [mkBindingRow g i b])
        (setHeld (spHeld d ++ [mkHeld (nextRow (spHeld d)) g i s (unix now) (hashIncoming raw) (Some raw) ($"quarantined") [] 0]) d))
  | MvHoldStaged g i row b raw : find_first (isHeld g i) (spHeld d) = Some row -> hState row = $"staged" -> readBindings g i d = [b] -> raw ≠ [] ->
      (Z.of_nat (length raw) <= hlMessageBytes l)%Z -> (payloadUsed d + Z.of_nat (length raw) <= hlPayloadBytes l)%Z ->
      (exists ad, o = IQuarantine ad g i (hSender row) b raw) ->
      moves l now o d (setHeld (updateWhere (isHeld g i) (fun r => unleased (filled (hashIncoming raw) raw ($"quarantined") r)) (spHeld d)) d)
  | MvFence g i row : find_first (isHeld g i) (spHeld d) = Some row -> hState row = $"pending" -> fences g i o ->
      moves l now o d (setHeld (updateWhere (isHeld g i) unleased (spHeld d)) d)
  | MvLease g i row lease until : find_first (isHeld g i) (spHeld d) = Some row ->
      (hState row = $"pending" /\ currentBindings now g i d = true \/ hState row = $"quarantined") ->
      (exists dur release, o = IClaim dur release (Some lease) g i) ->
      moves l now o d (setHeld (updateWhere (isHeld g i) (leased lease until) (spHeld d)) d)
  | MvArchive g i row text disposition : find_first (isHeld g i) (spHeld d) = Some row ->
      (hState row = $"pending" /\ disposition = $"imported" /\ currentBindings now g i d = true \/
       hState row = $"quarantined" /\ disposition ∈ [$"released"; $"discarded"; $"partially_released"]) ->
      recipientsText g i d = Some text -> archives g i row disposition o ->
      moves l now o d (setBindings (List.filter (fun b => negb (isBound g i b)) (spBindings d))
        (setHeld (List.filter (fun r => negb (isHeld g i r)) (spHeld d))
          (setArchived (spArchived d ++ [mkTomb g i (hSender row) (hDigest row) text (unix now) disposition]) d)))
  | MvResolve g i row b0 b : find_first (isHeld g i) (spHeld d) = Some row -> hState row = $"quarantined" ->
      readBindings g i d = [b0] -> bAddress b0 = bAddress b -> Unresolved b0 = true -> Unresolved b = false ->
      o = IResolve g i b ->
      moves l now o d (setBindings (updateWhere (isBound g i) (fun x => mkBindingRow (brGateway x) (brID x) b) (spBindings d)) d).
End Run.
