(* ===== verification/IngressInvariant.v ===== *)
(** * IngressInvariant: what the tables of the holding store always satisfy *)

From S2P Require Import Prelude GoText GoCodec SendAs MailboxModel Mailbox Outbox MailboxRun IngressModel Ingress IngressRun.

Section Invariant.
Context {ML : MailLib} {RO : RangeOrder} {ROL : RangeOrderLaws}.

(** A staged row has no bytes, no digest and no lease; any other holds bytes
    under their digest. *)
Definition rowOK (r : heldRow) : Prop :=
  (hState r = $"staged" /\ hRaw r = None /\ hDigest r = [] /\ hLease r = []) \/
  (hState r ∈ [$"pending"; $"quarantined"] /\ exists raw, hRaw r = Some raw /\ raw ≠ [] /\ hDigest r = hashIncoming raw).

Record spoolOK (d : spool) : Prop := {
  sp_keys : NoDup (keyOf <$> spHeld d);
  sp_ids : NoDup (hRow <$> spHeld d);
  sp_binds : NoDup (bindKey <$> spBindings d);
  sp_fk : Forall (fun b => existsb (isHeld (brGateway b) (brID b)) (spHeld d) = true) (spBindings d);
  sp_bound : Forall (fun r => 1 <= length (bindingsOf (hGateway r) (hID r) d) <= 100)%nat (spHeld d);
  sp_addresses : Forall (fun b => address (bAddress (brBinding b)) false = true) (spBindings d);
  sp_tombs : NoDup (tombKey <$> spArchived d);
  sp_fresh : Forall (fun t => existsb (isHeld (tGateway t) (tID t)) (spHeld d) = false) (spArchived d);
  sp_routes : NoDup (rtAddress <$> spRoutes d);
  sp_rows : Forall rowOK (spHeld d);
  sp_records : (Z.of_nat (length (spHeld d)) <= hlRecords (spLimits d))%Z;
  sp_payload : (payloadUsed d <= hlPayloadBytes (spLimits d))%Z;
  sp_capacity : (0 <= hlMessageBytes (spLimits d))%Z;
  sp_sizes : Forall (fun r => heldSize r <= hlMessageBytes (spLimits d))%Z (spHeld d);
}.

Lemma spoolOK_empty l : limitsOK l = true -> spoolOK (emptySpool l).
Proof.
  intros H. unfold limitsOK in H. to_prop. split; cbn; try done; try by constructor; try lia. all: cbn in *; lia.
Qed.

(** ** Keys *)

Lemma isHeld_spec g i r : isHeld g i r = true <-> keyOf r = (g, i).
Proof. unfold isHeld, keyOf. rewrite andb_true_iff, !bool_decide_eq_true. naive_solver. Qed.
Lemma isBound_spec g i b : isBound g i b = true <-> brGateway b = g /\ brID b = i.
Proof. unfold isBound. by rewrite andb_true_iff, !bool_decide_eq_true. Qed.
Lemma isTomb_spec g i t : isTomb g i t = true <-> tombKey t = (g, i).
Proof. unfold isTomb, tombKey. rewrite andb_true_iff, !bool_decide_eq_true. naive_solver. Qed.

Lemma key_unique {A K} (key : A -> K) (l : list A) x y : NoDup (key <$> l) -> x ∈ l -> y ∈ l -> key x = key y -> x = y.
Proof.
  intros HN [i Hi]%list_elem_of_lookup [j Hj]%list_elem_of_lookup E.
  assert (i = j) as ->; [|congruence]. eapply NoDup_lookup; [exact HN| |]; rewrite list_lookup_fmap, ?Hi, ?Hj; simpl; by rewrite ?E.
Qed.
Lemma held_unique d g i row r : spoolOK d -> find_first (isHeld g i) (spHeld d) = Some row -> r ∈ spHeld d -> isHeld g i r = true -> r = row.
Proof.
  intros HS [Hin Hk]%find_first_Some Hr Hkr. apply isHeld_spec in Hk, Hkr. eapply key_unique; [apply (sp_keys d HS)|done..|congruence].
Qed.
Lemma held_exists_spec g i l : existsb (isHeld g i) l = true <-> (g, i) ∈ keyOf <$> l.
Proof.
  rewrite existsb_exists, list_elem_of_fmap. setoid_rewrite <- list_elem_of_In. setoid_rewrite isHeld_spec. naive_solver.
Qed.
Lemma held_none g i l : find_first (isHeld g i) l = None <-> existsb (isHeld g i) l = false.
Proof.
  rewrite find_first_None. split.
  - intros H. apply not_true_is_false. intros (r & Hr & Hk)%existsb_exists. rewrite H in Hk; [done|by apply list_elem_of_In].
  - intros H r Hr. apply not_true_is_false. intros Hk. assert (existsb (isHeld g i) l = true); [|congruence].
    apply existsb_exists. exists r. by rewrite <- list_elem_of_In.
Qed.
Lemma heldRow_ok d g i row : spoolOK d -> find_first (isHeld g i) (spHeld d) = Some row -> rowOK row.
Proof. intros HS [Hin _]%find_first_Some. by apply (proj1 (Forall_forall _ _) (sp_rows d HS)). Qed.
Lemma held_bindings d g i row : spoolOK d -> find_first (isHeld g i) (spHeld d) = Some row -> (1 <= length (bindingsOf g i d) <= 100)%nat.
Proof.
  intros HS Hf. pose proof Hf as [Hin [= <- <-]%isHeld_spec]%find_first_Some. by apply (proj1 (Forall_forall _ _) (sp_bound d HS)).
Qed.

Lemma readBindings_perm g i d : readBindings g i d ≡ₚ brBinding <$> bindingsOf g i d.
Proof. apply sortStable_perm. Qed.
Lemma elem_of_bindingsOf g i d b : b ∈ bindingsOf g i d <-> b ∈ spBindings d /\ brGateway b = g /\ brID b = i.
Proof. unfold bindingsOf. by rewrite list_elem_of_In, filter_In, <- list_elem_of_In, isBound_spec. Qed.
Lemma recipientsText_Some g i d : (1 <= length (bindingsOf g i d))%nat -> recipientsText g i d = Some (join [10]%Z (bAddress <$> readBindings g i d)).
Proof.
  intros H. unfold recipientsText. pose proof (Permutation_length (readBindings_perm g i d)) as HL. rewrite length_fmap in HL.
  destruct (readBindings g i d); simpl in *; [lia|done].
Qed.

(** ** Lists of rows *)

Lemma exists_updateHeld p f g i l : (forall r, keyOf (f r) = keyOf r) -> existsb (isHeld g i) (updateWhere p f l) = existsb (isHeld g i) l.
Proof. intros H. apply eq_true_iff_eq. by rewrite !held_exists_spec, updateWhere_same. Qed.
Lemma exists_appHeld g i l r : existsb (isHeld g i) (l ++ [r]) = existsb (isHeld g i) l || isHeld g i r.
Proof. rewrite existsb_app. simpl. by rewrite orb_false_r. Qed.
Lemma nextRow_fresh l r : r ∈ l -> (hRow r < nextRow l)%Z.
Proof. induction l as [|x l IH]; [by intros ?%elem_of_nil|]. intros [->|Hr]%elem_of_cons; simpl; [lia|]. specialize (IH Hr). lia. Qed.

Lemma payload_app l r : foldr (fun r n => heldSize r + n)%Z 0%Z (l ++ [r]) = (foldr (fun r n => heldSize r + n)%Z 0%Z l + heldSize r)%Z.
Proof. induction l as [|x l IH]; simpl; [lia|]. rewrite IH. lia. Qed.
Lemma payload_update p f l (k : Z) : (0 <= k)%Z -> NoDup (keyOf <$> l) -> (forall x y, x ∈ l -> y ∈ l -> p x = true -> p y = true -> keyOf x = keyOf y) ->
  (forall x, x ∈ l -> p x = true -> (heldSize (f x) <= heldSize x + k)%Z) ->
  (foldr (fun r n => heldSize r + n)%Z 0%Z (updateWhere p f l) <= foldr (fun r n => heldSize r + n)%Z 0%Z l + k)%Z.
Proof.
  intros Hk. induction l as [|x l IH]; intros HN Hp Hf; [simpl; lia|].
  change (updateWhere p f (x :: l)) with ((if p x then f x else x) :: updateWhere p f l). apply NoDup_cons in HN as [Hx HN].
  specialize (IH HN ltac:(intros; apply Hp; set_solver) ltac:(intros; apply Hf; set_solver)). destruct (p x) eqn:E; simpl; [|lia].
  assert (updateWhere p f l = l) as Hl.
  { unfold updateWhere. rewrite <- (list_fmap_id l) at 2. apply list_fmap_ext. intros j y Hy%list_elem_of_lookup_2. destruct (p y) eqn:Ey; [|done].
    exfalso. apply Hx. rewrite (Hp x y) by set_solver. by apply list_elem_of_fmap_2. }
  rewrite Hl. specialize (Hf x ltac:(set_solver) E). lia.
Qed.
Lemma payload_filter p l : (foldr (fun r n => heldSize r + n)%Z 0%Z (List.filter p l) <= foldr (fun r n => heldSize r + n)%Z 0%Z l)%Z.
Proof.
  assert (forall r, 0 <= heldSize r)%Z by (intros r; unfold heldSize; destruct (hRaw r); lia).
  induction l as [|x l IH]; simpl; [lia|]. specialize (H x). destruct (p x); simpl; lia.
Qed.

Lemma limits_le l d : raisableTo l (spLimits d) = true ->
  (hlMessageBytes l <= hlMessageBytes (spLimits d) /\ hlPayloadBytes l <= hlPayloadBytes (spLimits d) /\ hlRecords l <= hlRecords (spLimits d))%Z.
Proof. unfold raisableTo. intros H. to_prop. lia. Qed.

(** ** The moves keep it *)

(** One row changes, not its key. *)
Lemma spoolOK_update d g i row f size : spoolOK d -> find_first (isHeld g i) (spHeld d) = Some row ->
  (forall r, keyOf (f r) = keyOf r) -> (forall r, hRow (f r) = hRow r) -> rowOK (f row) ->
  heldSize (f row) = (heldSize row + size)%Z -> (0 <= size)%Z -> (heldSize row + size <= hlMessageBytes (spLimits d))%Z -> (payloadUsed d + size <= hlPayloadBytes (spLimits d))%Z ->
  spoolOK (setHeld (updateWhere (isHeld g i) f (spHeld d)) d).
Proof.
  intros HS Hrow Hk Hr Hok Hsz Hs0 Hsm Hsp. pose proof (fun r => held_unique d g i row r HS Hrow) as HU.
  split; simpl; try apply HS.
  - rewrite updateWhere_same by done. apply HS.
  - rewrite updateWhere_same by done. apply HS.
  - eapply Forall_impl; [apply HS|]. intros b Hb. simpl in Hb. by rewrite exists_updateHeld.
  - apply Forall_forall. intros r (x & Hx & ->)%elem_of_updateWhere. pose proof (proj1 (Forall_forall _ _) (sp_bound d HS) x Hx) as HB. simpl in HB.
    assert (keyOf (if isHeld g i x then f x else x) = keyOf x) as [= -> ->] by (destruct (isHeld g i x); [apply Hk|done]). done.
  - eapply Forall_impl; [apply HS|]. intros t Ht. simpl in Ht. by rewrite exists_updateHeld.
  - apply Forall_forall. intros r (x & Hx & ->)%elem_of_updateWhere. destruct (isHeld g i x) eqn:E; [by rewrite (HU x Hx E)|].
    by apply (proj1 (Forall_forall _ _) (sp_rows d HS)).
  - unfold updateWhere. rewrite length_fmap. apply HS.
  - etransitivity; [|exact Hsp]. apply payload_update; [done|apply HS| |].
    + intros x y _ _ Hx%isHeld_spec Hy%isHeld_spec. congruence.
    + intros x Hx E. rewrite (HU x Hx E), Hsz. lia.
  - apply Forall_forall. intros r (x & Hx & ->)%elem_of_updateWhere. destruct (isHeld g i x) eqn:E; [by rewrite (HU x Hx E), Hsz|].
    by apply (proj1 (Forall_forall _ _) (sp_sizes d HS)).
Qed.

(** Another recipient of a delivery that is there. *)
Lemma bindingsOf_app g i g' i' b d : bindingsOf g i (setBindings (spBindings d ++ [mkBindingRow g' i' b]) d) =
  bindingsOf g i d ++ (if bool_decide ((g', i') = (g, i)) then [mkBindingRow g' i' b] else []).
Proof.
  unfold bindingsOf. simpl. rewrite List.filter_app. f_equal. simpl. destruct (isBound g i (mkBindingRow g' i' b)) eqn:E.
  - apply isBound_spec in E as [<- <-]. by rewrite bool_decide_true.
  - rewrite bool_decide_false; [done|]. intros [= -> ->]. assert (isBound g i (mkBindingRow g i b) = true) by by apply isBound_spec. congruence.
Qed.
Lemma spoolOK_bind d g i row b : spoolOK d -> find_first (isHeld g i) (spHeld d) = Some row ->
  existsb (fun x => isBound g i x && (bAddress (brBinding x) =s? bAddress b)) (spBindings d) = false -> (length (bindingsOf g i d) < 100)%nat ->
  address (bAddress b) false = true -> spoolOK (setBindings (spBindings d ++ [mkBindingRow g i b]) d).
Proof.
  intros HS Hrow Hne Hlt Ha. split; simpl; try apply HS.
  - rewrite fmap_app. apply NoDup_app. split; [apply HS|]. split; [|apply NoDup_singleton]. simpl. intros k Hk ->%list_elem_of_singleton.
    apply list_elem_of_fmap in Hk as (x & Hx & Hin). assert (existsb (fun x => isBound g i x && (bAddress (brBinding x) =s? bAddress b)) (spBindings d) = true); [|congruence].
    apply existsb_exists. exists x. rewrite <- list_elem_of_In. split; [done|]. unfold bindKey in Hx. simpl in Hx. injection Hx as Eg Ei E.
    apply andb_true_iff. split; [by apply isBound_spec|]. by apply bool_decide_eq_true.
  - apply Forall_app. split; [apply HS|]. constructor; [|done]. simpl. apply find_first_Some in Hrow as [Hin Hk]. apply existsb_exists. exists row.
    by rewrite <- list_elem_of_In.
  - apply Forall_forall. intros r Hr. pose proof (proj1 (Forall_forall _ _) (sp_bound d HS) r Hr) as HB. simpl in HB. rewrite bindingsOf_app.
    case_bool_decide as E; [|by rewrite app_nil_r]. injection E as -> ->. rewrite length_app. simpl. lia.
  - apply Forall_app. split; [apply HS|]. by constructor.
Qed.

(** A delivery under a new key, with its first recipient. *)
Lemma spoolOK_insert d g i s now digest raw st b : spoolOK d -> find_first (isHeld g i) (spHeld d) = None -> archivedDelivery g i d = None ->
  address (bAddress b) false = true -> let r := mkHeld (nextRow (spHeld d)) g i s now digest raw st [] 0 in
  rowOK r -> (Z.of_nat (length (spHeld d)) < hlRecords (spLimits d))%Z -> (heldSize r <= hlMessageBytes (spLimits d))%Z ->
  (payloadUsed d + heldSize r <= hlPayloadBytes (spLimits d))%Z ->
  spoolOK (setBindings (spBindings d ++ [mkBindingRow g i b]) (setHeld (spHeld d ++ [r]) d)).
Proof.
  intros HS Hne Hna Ha r Hok Hlt Hsz Hp. pose proof Hne as HX%held_none.
  assert (Hnb : bindingsOf g i d = []).
  { destruct (bindingsOf g i d) as [|x l] eqn:E; [done|]. exfalso. assert (Hx : x ∈ bindingsOf g i d) by (rewrite E; set_solver).
    apply elem_of_bindingsOf in Hx as (Hx & <- & <-). pose proof (proj1 (Forall_forall _ _) (sp_fk d HS) x Hx) as HF. simpl in HF. congruence. }
  split; simpl; try apply HS.
  - rewrite fmap_app. apply NoDup_app. split; [apply HS|]. split; [|apply NoDup_singleton]. simpl. intros k Hk ->%list_elem_of_singleton.
    change ((g, i) ∈ keyOf <$> spHeld d) in Hk. apply held_exists_spec in Hk. congruence.
  - rewrite fmap_app. apply NoDup_app. split; [apply HS|]. split; [|apply NoDup_singleton]. simpl. intros k Hk ->%list_elem_of_singleton.
    apply list_elem_of_fmap in Hk as (x & Hx & Hin%nextRow_fresh). lia.
  - rewrite fmap_app. apply NoDup_app. split; [apply HS|]. split; [|apply NoDup_singleton]. simpl. intros k Hk ->%list_elem_of_singleton.
    apply list_elem_of_fmap in Hk as (x & Hx & Hin). unfold bindKey in Hx. simpl in Hx. injection Hx as E1 E2 _. assert (x ∈ bindingsOf g i d) by by apply elem_of_bindingsOf.
    rewrite Hnb in *. by eapply elem_of_nil.
  - apply Forall_app. split.
    + eapply Forall_impl; [apply HS|]. intros x Hx. simpl in Hx. by rewrite exists_appHeld, Hx.
    + constructor; [|done]. simpl. rewrite exists_appHeld. apply orb_true_iff. right. by apply isHeld_spec.
  - apply Forall_app. split.
    + apply Forall_forall. intros x Hx. pose proof (proj1 (Forall_forall _ _) (sp_bound d HS) x Hx) as HB. simpl in HB.
      change (bindingsOf (hGateway x) (hID x) (setBindings _ _)) with (bindingsOf (hGateway x) (hID x) (setBindings (spBindings d ++ [mkBindingRow g i b]) d)).
      rewrite bindingsOf_app, bool_decide_false, app_nil_r; [done|]. intros E. assert (existsb (isHeld g i) (spHeld d) = true); [|congruence].
      apply held_exists_spec. rewrite E. by apply (list_elem_of_fmap_2 keyOf).
    + constructor; [|done]. simpl. change (bindingsOf g i (setBindings _ _)) with (bindingsOf g i (setBindings (spBindings d ++ [mkBindingRow g i b]) d)).
      rewrite bindingsOf_app, Hnb, bool_decide_true by done. simpl. lia.
  - apply Forall_app. split; [apply HS|]. by constructor.
  - apply Forall_forall. intros t Ht. rewrite exists_appHeld, (proj1 (Forall_forall _ _) (sp_fresh d HS) t Ht). simpl. apply not_true_is_false.
    intros E%isHeld_spec. unfold archivedDelivery in Hna. rewrite find_first_None in Hna. pose proof (Hna t Ht) as HT.
    assert (isTomb g i t = true); [|congruence]. apply isTomb_spec. unfold tombKey. by injection E as <- <-.
  - apply Forall_app. split; [apply HS|]. by constructor.
  - rewrite length_app. simpl. lia.
  - unfold payloadUsed in *. simpl. rewrite payload_app. lia.
  - apply Forall_app. split; [apply HS|]. by constructor.
Qed.

(** A delivery leaves for its tombstone, and its bindings with it. *)
Definition archived_ (g i text disposition : gostr) (now : Z) (row : heldRow) (d : spool) : spool :=
  setBindings (List.filter (fun b => negb (isBound g i b)) (spBindings d))
    (setHeld (List.filter (fun r => negb (isHeld g i r)) (spHeld d))
      (setArchived (spArchived d ++ [mkTomb g i (hSender row) (hDigest row) text (unix now) disposition]) d)).
Lemma elem_of_kept {A} (p : A -> bool) l x : x ∈ List.filter (fun y => negb (p y)) l <-> x ∈ l /\ p x = false.
Proof. by rewrite !list_elem_of_In, filter_In, negb_true_iff. Qed.
Lemma exists_kept g i g' i' l : (g', i') ≠ (g, i) -> existsb (isHeld g' i') (List.filter (fun r => negb (isHeld g i r)) l) = existsb (isHeld g' i') l.
Proof.
  intros Hne. apply eq_true_iff_eq. rewrite !existsb_exists. setoid_rewrite <- list_elem_of_In. setoid_rewrite elem_of_kept. split.
  - intros (r & [Hr _] & Hk). by exists r.
  - intros (r & Hr & Hk). exists r. split; [|done]. split; [done|]. apply not_true_is_false. intros Hk'%isHeld_spec. apply isHeld_spec in Hk. congruence.
Qed.
Lemma bindingsOf_archived g i text disp now row d g' i' : (g', i') ≠ (g, i) -> bindingsOf g' i' (archived_ g i text disp now row d) = bindingsOf g' i' d.
Proof.
  intros Hne. unfold bindingsOf, archived_. simpl. induction (spBindings d) as [|b l IH]; [done|]. simpl.
  destruct (isBound g i b) eqn:E; simpl; [|by rewrite IH]. rewrite IH. destruct (isBound g' i' b) eqn:E'; [|done].
  apply isBound_spec in E as [<- <-], E' as [<- <-]. done.
Qed.
Lemma spoolOK_archive d g i row text disp now : spoolOK d -> find_first (isHeld g i) (spHeld d) = Some row -> spoolOK (archived_ g i text disp now row d).
Proof.
  intros HS Hrow. pose proof Hrow as [Hin Hk]%find_first_Some.
  assert (HH : existsb (isHeld g i) (spHeld d) = true) by (apply existsb_exists; exists row; by rewrite <- list_elem_of_In).
  split; simpl; try apply HS.
  - eapply sublist_NoDup; [apply HS|]. apply fmap_sublist, filter_sublist.
  - eapply sublist_NoDup; [apply HS|]. apply fmap_sublist, filter_sublist.
  - eapply sublist_NoDup; [apply HS|]. apply fmap_sublist, filter_sublist.
  - apply Forall_forall. intros b [Hb Hbk]%elem_of_kept. rewrite exists_kept; [by apply (proj1 (Forall_forall _ _) (sp_fk d HS))|].
    intros E. assert (isBound g i b = true); [|congruence]. apply isBound_spec. by injection E.
  - apply Forall_forall. intros r [Hr Hrk]%elem_of_kept. change (setBindings _ _) with (archived_ g i text disp now row d). rewrite bindingsOf_archived.
    + by apply (proj1 (Forall_forall _ _) (sp_bound d HS)).
    + intros E. assert (isHeld g i r = true); [|congruence]. by apply isHeld_spec.
  - apply Forall_forall. intros b [Hb _]%elem_of_kept. by apply (proj1 (Forall_forall _ _) (sp_addresses d HS)).
  - rewrite fmap_app. apply NoDup_app. split; [apply HS|]. split; [|apply NoDup_singleton]. simpl. intros k Hk' ->%list_elem_of_singleton.
    apply list_elem_of_fmap in Hk' as (t & Ht & Hin'). pose proof (proj1 (Forall_forall _ _) (sp_fresh d HS) t Hin') as HF. simpl in HF.
    unfold tombKey in Ht. simpl in Ht. injection Ht as Eg Ei. rewrite <- Eg, <- Ei in HF. congruence.
  - apply Forall_app. split; [|constructor; [|done]].
    + apply Forall_forall. intros t Ht. pose proof (proj1 (Forall_forall _ _) (sp_fresh d HS) t Ht) as HF. simpl in HF. rewrite exists_kept; [done|]. intros [= Eg Ei]. rewrite Eg, Ei in HF. congruence.
    + simpl. apply not_true_is_false. intros (r & Hr & Hrk)%existsb_exists. apply list_elem_of_In, elem_of_kept in Hr as [_ Hr]. congruence.
  - apply Forall_forall. intros r [Hr _]%elem_of_kept. by apply (proj1 (Forall_forall _ _) (sp_rows d HS)).
  - etransitivity; [|apply (sp_records d HS)]. pose proof (sublist_length _ _ (filter_sublist (fun r => negb (isHeld g i r)) (spHeld d))). lia.
  - etransitivity; [|apply (sp_payload d HS)]. apply payload_filter.
  - apply Forall_forall. intros r [Hr _]%elem_of_kept. by apply (proj1 (Forall_forall _ _) (sp_sizes d HS)).
Qed.

(** The one binding of a delivery gets an owner. *)
Lemma spoolOK_resolve d g i b0 b : spoolOK d -> readBindings g i d = [b0] -> bAddress b0 = bAddress b ->
  spoolOK (setBindings (updateWhere (isBound g i) (fun x => mkBindingRow (brGateway x) (brID x) b) (spBindings d)) d).
Proof.
  intros HS Hb Ha. assert (HU : forall x, x ∈ bindingsOf g i d -> brBinding x = b0).
  { intros x Hx. assert (Hm : brBinding x ∈ readBindings g i d) by (rewrite readBindings_perm; by apply list_elem_of_fmap_2).
    rewrite Hb in Hm. by apply list_elem_of_singleton in Hm. }
  assert (HI : forall x, x ∈ spBindings d -> isBound g i x = true -> brBinding x = b0).
  { intros x Hx [Hg Hi]%isBound_spec. by apply HU, elem_of_bindingsOf. }
  assert (HK : bindKey <$> updateWhere (isBound g i) (fun x => mkBindingRow (brGateway x) (brID x) b) (spBindings d) = bindKey <$> spBindings d).
  { unfold updateWhere. rewrite <- list_fmap_compose. apply list_fmap_ext. intros _ x Hx%list_elem_of_lookup_2. simpl. destruct (isBound g i x) eqn:E; [|done].
    unfold bindKey. simpl. by rewrite (HI x Hx E), Ha. }
  split; simpl; try apply HS.
  - rewrite HK. apply HS.
  - apply Forall_forall. intros x (y & Hy & ->)%elem_of_updateWhere. pose proof (proj1 (Forall_forall _ _) (sp_fk d HS) y Hy) as HF. simpl in HF. by destruct (isBound g i y).
  - apply Forall_forall. intros r Hr. pose proof (proj1 (Forall_forall _ _) (sp_bound d HS) r Hr) as HB. simpl in HB. unfold bindingsOf in *. simpl.
    assert (E : length (List.filter (isBound (hGateway r) (hID r)) (updateWhere (isBound g i) (fun x => mkBindingRow (brGateway x) (brID x) b) (spBindings d)))
      = length (List.filter (isBound (hGateway r) (hID r)) (spBindings d))); [|by rewrite E].
    clear. induction (spBindings d) as [|x l IH]; [done|].
    change (updateWhere ?p ?f (x :: l)) with ((if p x then f x else x) :: updateWhere p f l). cbn [List.filter].
    assert (E : isBound (hGateway r) (hID r) (if isBound g i x then mkBindingRow (brGateway x) (brID x) b else x) = isBound (hGateway r) (hID r) x) by by destruct (isBound g i x).
    rewrite E. destruct (isBound (hGateway r) (hID r) x); cbn [length]; by rewrite IH.
  - apply Forall_forall. intros x (y & Hy & ->)%elem_of_updateWhere. pose proof (proj1 (Forall_forall _ _) (sp_addresses d HS) y Hy) as HF. simpl in HF.
    destruct (isBound g i y) eqn:E; [|done]. simpl. by rewrite <- Ha, <- (HI y Hy E).
Qed.

Lemma moves_keep l now o d d' : raisableTo l (spLimits d) = true -> spoolOK d -> moves l now o d d' -> spoolOK d' /\ spLimits d' = spLimits d.
Proof.
  intros HL HS HM. apply limits_le in HL as (HLm & HLp & HLr). pose proof (sp_payload d HS) as HP.
  assert (Hsz : forall row, row ∈ spHeld d -> (heldSize row <= hlMessageBytes (spLimits d))%Z) by (apply Forall_forall, (sp_sizes d HS)).
  assert (Hst : forall row, rowOK row -> hState row = $"staged" -> hRaw row = None /\ heldSize row = 0%Z /\ hLease row = []).
  { intros row [(_ & H & _ & H')|[H _]] Hs; [unfold heldSize; by rewrite H|]. rewrite Hs in H. exfalso. by apply (bool_decide_eq_true_2 _) in H. }
  destruct HM; (split; [|done]).
  - done.
  - destruct HS. by split.
  - apply spoolOK_insert; try done; [by left|lia|unfold heldSize; simpl..]; [|lia]. pose proof (sp_capacity d HS). lia.
  - by eapply spoolOK_bind.
  - destruct (Hst row) as (Hs1 & Hs2 & Hs3); [by eapply heldRow_ok|done|]. eapply (spoolOK_update d g i row _ (Z.of_nat (length raw))); try done; try lia.
    + right. split; [by left|]. by exists raw.
    + by rewrite Hs2.
  - apply spoolOK_insert; try done; unfold heldSize; simpl; try lia. right. split; [by right; left|]. by exists raw.
  - destruct (Hst row) as (Hs1 & Hs2 & Hs3); [by eapply heldRow_ok|done|]. eapply (spoolOK_update d g i row _ (Z.of_nat (length raw))); try done; try lia.
    + right. split; [by right; left|]. by exists raw.
    + by rewrite Hs2.
  - pose proof (heldRow_ok d g i row HS ltac:(done)) as HR. pose proof (find_first_Some _ _ _ H) as [Hin _]. specialize (Hsz row Hin).
    eapply (spoolOK_update d g i row _ 0%Z); try done; try (unfold heldSize in *; simpl; lia).
    destruct HR as [(E & _)|[_ HR]]; [by rewrite H0 in E|]. right. split; [by right; left|done].
  - pose proof (heldRow_ok d g i row HS ltac:(done)) as HR. pose proof (find_first_Some _ _ _ H) as [Hin _]. specialize (Hsz row Hin).
    eapply (spoolOK_update d g i row _ 0%Z); try done; try (unfold heldSize in *; simpl; lia).
    destruct HR as [(E & _)|[E HR]]; [destruct H0 as [[E' _]|E']; by rewrite E' in E|]. by right.
  - by eapply spoolOK_archive.
  - by eapply spoolOK_resolve.
Qed.
End Invariant.
