(* ===== verification/IngressMoves.v ===== *)
(** * IngressMoves: every call on the holding store makes one move *)

From S2P Require Import Prelude GoText GoCodec SendAs MailboxModel Mailbox Outbox MailboxRun IngressModel Ingress IngressRun IngressInvariant.

Section Moves.
Context {ML : MailLib} {RO : RangeOrder} {ROL : RangeOrderLaws}.

Lemma refuse_ok e d u d' : refuse e d = Ok (u, d') -> e = None /\ d' = d.
Proof. destruct e; [done|]. by intros [= _ <-]. Qed.

(** ** Routes *)

Lemma find_route_update a b f l : (forall r, rtAddress (f r) = rtAddress r) ->
  find_first (isRoute a) (updateWhere (isRoute b) f l) = (fun r => if isRoute b r then f r else r) <$> find_first (isRoute a) l.
Proof. intros H. apply find_first_updateWhere. intros x. unfold isRoute. by rewrite H. Qed.
Lemma advances_refl r : advances r r.
Proof. split; [done|]. right. split; [done|]. split; [|done]. unfold sameOwner. by rewrite !bool_decide_true. Qed.
Lemma advances_trans r1 r2 r3 : advances r1 r2 -> advances r2 r3 -> advances r1 r3.
Proof.
  intros [Ha1 H1] [Ha2 H2]. split; [congruence|]. unfold sameOwner in *.
  destruct H1 as [H1|(H1 & O1 & A1)], H2 as [H2|(H2 & O2 & A2)]; [left; lia|left; lia|left; lia|]. right. split; [congruence|].
  to_prop. split; [|auto]. repeat (apply andb_true_iff; split); apply bool_decide_eq_true; congruence.
Qed.
Lemma routesAdvance_refl l : routesAdvance l l.
Proof. intros a r H. exists r. auto. Qed.
Lemma routesAdvance_trans l1 l2 l3 : routesAdvance l1 l2 -> routesAdvance l2 l3 -> routesAdvance l1 l3.
Proof.
  intros H1 H2 a r Hr. destruct (H1 a r Hr) as (r' & Hr' & E1). destruct (H2 a r' Hr') as (r'' & Hr'' & E2). exists r''. split; [done|].
  destruct E1 as [->|E1], E2 as [->|E2]; auto. right. by eapply advances_trans.
Qed.

Lemma upsert_advances r l : NoDup (rtAddress <$> l) ->
  (forall old, find_first (isRoute (rtAddress r)) l = Some old -> advances old r) ->
  let l' := if existsb (isRoute (rtAddress r)) l then updateWhere (isRoute (rtAddress r)) (fun _ => r) l else l ++ [r] in
  routesAdvance l l' /\ NoDup (rtAddress <$> l').
Proof.
  intros HN Hadv. cbv zeta. destruct (existsb _ l) eqn:E.
  - assert (HA : forall x, isRoute (rtAddress r) x = true -> rtAddress r = rtAddress x) by (intros x Hx; unfold isRoute in Hx; by to_prop).
    assert (HE : updateWhere (isRoute (rtAddress r)) (fun _ => r) l = updateWhere (isRoute (rtAddress r)) (fun x => mkRoute (rtAddress x) (rtIssuer r) (rtSubject r) (rtMailbox r) (rtGeneration r) (rtActive r) (rtValidUntil r)) l).
    { unfold updateWhere. apply list_fmap_ext. intros _ x _. destruct (isRoute (rtAddress r) x) eqn:Ex; [|done]. rewrite <- (HA x Ex). by destruct r. }
    rewrite HE. split.
    + intros a x Hx. rewrite find_route_update, Hx by done. simpl. eexists. split; [done|]. destruct (isRoute (rtAddress r) x) eqn:Ex; [|by left].
      right. assert (Hxa : a = rtAddress r). { apply find_first_Some in Hx as [_ Hx]. unfold isRoute in Hx, Ex. to_prop. congruence. }
      subst a. rewrite <- (HA x Ex). pose proof (Hadv x Hx) as HX. by destruct r.
    + rewrite updateWhere_same by done. done.
  - assert (HF : find_first (isRoute (rtAddress r)) l = None).
    { apply find_first_None. intros x Hx. apply not_true_is_false. intros Hk. assert (existsb (isRoute (rtAddress r)) l = true); [|congruence].
      apply existsb_exists. exists x. by rewrite <- list_elem_of_In. }
    split.
    + intros a x Hx. exists x. rewrite find_first_app, Hx. auto.
    + rewrite fmap_app. apply NoDup_app. split; [done|]. split; [|apply NoDup_singleton]. intros a (x & -> & Hx)%list_elem_of_fmap Ha%list_elem_of_singleton.
      rewrite find_first_None in HF. specialize (HF x Hx). unfold isRoute in HF. to_prop. congruence.
Qed.

Lemma setRoute_moves l now o ad recovery r d u d' : spoolOK d -> setRoute l ad recovery r d = Ok (u, d') -> moves l now o d d'.
Proof.
  intros HS H. unfold setRoute in H. destruct (_ || _) in H; [done|]. apply bind_ok in H as (u1 & d1 & H1 & H).
  assert (d1 = d) as -> by (destruct recovery; [by apply ret_ok in H1 as [_ ->]|by apply refuse_ok in H1 as [_ ->]]).
  apply bind_ok in H as (old & d1 & [-> ->]%select_ok & H). apply bind_ok in H as (u2 & d1 & H2 & H).
  assert (d1 = d /\ forall old, find_first (isRoute (rtAddress r)) (spRoutes d) = Some old -> advances old r) as [-> Hadv].
  { destruct (find_first _ (spRoutes d)) as [old|] eqn:E; [|by apply ret_ok in H2 as [_ ->]]. destruct (_ || _) eqn:Eb in H2; [done|]. apply ret_ok in H2 as [_ ->].
    split; [done|]. intros old' [= <-]. pose proof (find_first_Some _ _ _ E) as [_ Ha]. unfold isRoute in Ha. to_prop. split; [done|].
    destruct (Z.eq_dec (rtGeneration old) (rtGeneration r)) as [Eg|Eg]; [right|left; lia]. rewrite Eg, Z.eqb_refl in *. split; [done|].
    match goal with H : true && _ = false |- _ => cbn [andb] in H end. to_prop. split; [done|].
    match goal with H : Bool.eqb _ _ = true |- _ => apply Bool.eqb_prop in H as -> end. done. }
  destruct (recovery && _); [done|]. apply bind_ok in H as (u3 & d1 & H3 & H).
  assert (d1 = d) as -> by (destruct recovery; [by apply ret_ok in H3 as [_ ->]|by apply refuse_ok in H3 as [_ ->]]).
  apply bind_ok in H as (u4 & d1 & H4 & H).
  assert (d1 = d) as ->.
  { destruct (find_first _ (spRoutes d)); [by apply ret_ok in H4 as [_ ->]|]. apply bind_ok in H4 as (n & d2 & [-> ->]%select_ok & H4). by destruct (_ <=? _)%Z; [|apply ret_ok in H4 as [_ ->]]. }
  apply exec_ok in H as ->. destruct (upsert_advances r (spRoutes d) (sp_routes d HS) Hadv) as [HA HN]. destruct (existsb _ _); by apply MvRoutes.
Qed.

Lemma deactivateEach_ok gs : forall d u d', NoDup (rtAddress <$> spRoutes d) -> deactivateEach gs d = Ok (u, d') ->
  exists rs, d' = setRoutes rs d /\ routesAdvance (spRoutes d) rs /\ NoDup (rtAddress <$> rs).
Proof.
  induction gs as [|[a n] gs IH]; intros d u d' HN H; simpl in H.
  - apply ret_ok in H as [_ ->]. exists (spRoutes d). split; [by destruct d|]. split; [apply routesAdvance_refl|done].
  - apply bind_ok in H as (old & d1 & [-> ->]%select_ok & H). apply bind_ok in H as (u1 & d1 & H1 & H).
    assert (exists rs, d1 = setRoutes rs d /\ routesAdvance (spRoutes d) rs /\ NoDup (rtAddress <$> rs)) as (rs & -> & HA & HN').
    { assert (Hid : exists rs, d = setRoutes rs d /\ routesAdvance (spRoutes d) rs /\ NoDup (rtAddress <$> rs)).
      { exists (spRoutes d). split; [by destruct d|]. split; [apply routesAdvance_refl|done]. }
      destruct (find_first _ (spRoutes d)) as [old|] eqn:E; [|by apply ret_ok in H1 as [_ ->]].
      destruct (_ && _) eqn:E1 in H1; [by apply ret_ok in H1 as [_ ->]|]. destruct (_ <? _)%Z eqn:E2 in H1; [done|]. apply exec_ok in H1 as ->.
      eexists. split; [done|]. split; [|rewrite updateWhere_same; done]. intros b x Hx. rewrite find_route_update, Hx by done. simpl. eexists. split; [done|].
      destruct (isRoute a x) eqn:Ex; [|by left]. right. assert (x = old) as ->.
      { apply find_first_Some in Hx as [Hin Hb]. unfold isRoute in Hb, Ex. to_prop. apply find_first_Some in E as [Hin' Ha]. unfold isRoute in Ha. to_prop.
        eapply key_unique; [exact HN|done|done|congruence]. }
      split; [done|]. simpl. apply Z.ltb_ge in E2. destruct (Z.eq_dec (rtGeneration old) n) as [En|En]; [right|left; lia]. split; [done|].
      split; [unfold sameOwner; simpl; by rewrite !bool_decide_true|done]. }
    apply IH in H as (rs' & -> & HA' & HN''); [|done]. exists rs'. split; [done|]. split; [|done]. by eapply routesAdvance_trans.
Qed.
Lemma deactivate_moves l now o gens d u d' : spoolOK d -> deactivateRoutes gens d = Ok (u, d') -> moves l now o d d'.
Proof. intros HS H. apply deactivateEach_ok in H as (rs & -> & HA & HN); [|apply HS]. by apply MvRoutes. Qed.

(** ** Deliveries *)

Lemma bindNew_ok l ad now known g i s a d u d' : bindNew l ad now known g i s a d = Ok (u, d') ->
  exists r, find_first (isRoute a) (spRoutes d) = Some r /\ rtActive r = true /\ (unix now < default 0 (rtValidUntil r))%Z /\
    exists d1, (if known then d1 = d else (Z.of_nat (length (spHeld d)) < hlRecords l)%Z /\ insertHeld g i s (unix now) [] None ($"staged") d = Ok (tt, d1)) /\
      (length (bindingsOf g i d1) < 100)%nat /\ insertBinding g i (routeBinding a r) d1 = Ok (tt, d').
Proof.
  unfold bindNew. intros H. apply bind_ok in H as (u1 & d1 & [_ ->]%refuse_ok & H). apply bind_ok in H as (r & d1 & [-> ->]%select_ok & H).
  destruct (find_first _ (spRoutes d)) as [r|]; [|done]. destruct (negb (rtActive r)) eqn:Ea; [done|]. destruct (_ <=? _)%Z eqn:Ev in H; [done|]. to_prop.
  exists r. do 3 (split; [done|]). apply bind_ok in H as (u2 & d1 & H1 & H). apply bind_ok in H as (n & d2 & [-> ->]%select_ok & H).
  destruct (_ <=? _)%Z eqn:En in H; [done|]. apply Z.leb_gt in En. exists d1. split; [|split; [unfold bindingsOf; lia|by destruct u]]. destruct known; [by apply ret_ok in H1 as [_ ->]|].
  apply bind_ok in H1 as (n & d2 & [-> ->]%select_ok & H1). destruct (_ <=? _)%Z eqn:Er in H1; [done|]. to_prop. by destruct u2.
Qed.
Lemma insertBinding_ok g i b d u d' : insertBinding g i b d = Ok (u, d') ->
  existsb (fun r => isBound g i r && (bAddress (brBinding r) =s? bAddress b)) (spBindings d) = false /\ d' = setBindings (spBindings d ++ [mkBindingRow g i b]) d.
Proof. unfold insertBinding. destruct (existsb _ (spBindings d)); [done|]. destruct (negb _); [done|]. by intros [= _ <-]. Qed.
Lemma insertHeld_ok g i s t dg raw st d u d' : insertHeld g i s t dg raw st d = Ok (u, d') ->
  d' = setHeld (spHeld d ++ [mkHeld (nextRow (spHeld d)) g i s t dg raw st [] 0]) d.
Proof. unfold insertHeld. destruct (existsb _ _); [done|]. by intros [= _ <-]. Qed.

Lemma bind_moves l ad now g i s a d u d' : spoolOK d -> bindRecipient l ad now g i s a d = Ok (u, d') -> moves l now (IBind ad g i s a) d d'.
Proof.
  intros HS H. unfold bindRecipient in H. destruct (_ || _) eqn:Eb in H; [done|]. to_prop.
  apply bind_ok in H as (u1 & d1 & [_ ->]%refuse_ok & H). apply bind_ok in H as (old & d1 & [-> ->]%select_ok & H).
  destruct (find_first (isHeld g i) (spHeld d)) as [row|] eqn:Ef.
  - destruct (negb (hSender row =s? s)) eqn:Esd; [done|]. apply bind_ok in H as (bound & d1 & [-> ->]%select_ok & H).
    destruct (existsb _ (spBindings d)) eqn:Ex; [apply ret_ok in H as [_ ->]; constructor|]. destruct (negb (hState row =s? _)) eqn:Es; [done|]. to_prop.
    apply bindNew_ok in H as (r & Hr & Hact & Hv & d1 & -> & Hn & [_ ->]%insertBinding_ok). subst s. eapply MvBind; eauto.
  - apply bind_ok in H as (t & d1 & [-> ->]%select_ok & H). destruct (archivedDelivery g i d) as [t|] eqn:Et.
    + apply assert_ok in H as [_ ->]. constructor.
    + apply bindNew_ok in H as (r & Hr & Hact & Hv & d1 & [Hc Hi%insertHeld_ok] & Hn & [_ ->]%insertBinding_ok). subst d1. apply (MvStage l now _ d g i s a r); eauto.
Qed.

Lemma admitPayload_ok l ad n d u d' : admitPayload l ad n d = Ok (u, d') -> d' = d /\ (payloadUsed d + n <= hlPayloadBytes l)%Z.
Proof.
  unfold admitPayload. intros H. apply bind_ok in H as (u1 & d1 & [_ ->]%refuse_ok & H). apply bind_ok in H as (k & d1 & [-> ->]%select_ok & H).
  destruct (_ <? _)%Z eqn:E in H; [done|]. apply ret_ok in H as [_ ->]. to_prop. split; [done|]. lia.
Qed.

Lemma accept_moves l ad now g i s raw d u d' : spoolOK d -> accept l ad g i s raw d = Ok (u, d') -> moves l now (IAccept ad g i s raw) d d'.
Proof.
  intros HS H. unfold accept in H. destruct (_ || _) in H; [done|]. destruct raw as [raw|]; [|done]. destruct (_ || _) eqn:Eb in H; [done|]. to_prop.
  assert (Hraw : take (Z.to_nat (hlMessageBytes l + 1)) raw = raw) by (apply take_ge; rewrite length_take in *; lia). rewrite Hraw in *.
  apply bind_ok in H as (u1 & d1 & [_ ->]%refuse_ok & H). apply bind_ok in H as (old & d1 & [-> ->]%select_ok & H).
  destruct (find_first (isHeld g i) (spHeld d)) as [row|] eqn:Ef.
  - destruct (negb (hSender row =s? s)) eqn:Esd; [done|]. destruct (negb (hState row =s? _)) eqn:Es; [apply assert_ok in H as [_ ->]; constructor|]. to_prop.
    apply bind_ok in H as (u2 & d1 & [-> Hp]%admitPayload_ok & ->%exec_ok). subst s. eapply MvFill; eauto.
  - apply bind_ok in H as (t & d1 & [-> ->]%select_ok & [_ ->]%assert_ok). constructor.
Qed.

Lemma quarantine_moves l ad now g i s b raw d u d' : spoolOK d -> quarantine l ad now g i s b raw d = Ok (u, d') -> moves l now (IQuarantine ad g i s b raw) d d'.
Proof.
  intros HS H. unfold quarantine in H. destruct (_ || _) eqn:Ea in H; [done|]. destruct (_ || _) eqn:Eb in H; [done|]. to_prop.
  apply bind_ok in H as (u1 & d1 & [_ ->]%refuse_ok & H). apply bind_ok in H as (old & d1 & [-> ->]%select_ok & H).
  destruct (find_first (isHeld g i) (spHeld d)) as [row|] eqn:Ef.
  - destruct (negb (hSender row =s? s)) eqn:Esd; [done|]. destruct (hState row =s? _) eqn:Eq; [apply assert_ok in H as [_ ->]; constructor|].
    apply bind_ok in H as (bs & d1 & [-> ->]%select_ok & H). destruct (_ || _) eqn:Es in H; [done|]. to_prop.
    apply bind_ok in H as (u2 & d1 & [-> Hp]%admitPayload_ok & ->%exec_ok). subst s. eapply MvHoldStaged; eauto.
  - apply bind_ok in H as (t & d1 & [-> ->]%select_ok & H). destruct (archivedDelivery g i d) as [t|] eqn:Et; [apply assert_ok in H as [_ ->]; constructor|].
    apply bind_ok in H as (n & d1 & [-> ->]%select_ok & H). destruct (_ <=? _)%Z eqn:En in H; [done|]. to_prop.
    apply bind_ok in H as (u2 & d1 & [-> Hp]%admitPayload_ok & H). apply bind_ok in H as (u3 & d1 & ->%insertHeld_ok & [_ ->]%insertBinding_ok). apply (MvHold l now _ d g i s b raw); eauto.
Qed.

(** ** Leases *)

(** A statement on one delivery in a given state is one on the delivery. *)
Lemma updateHeld_one d g i row p f : spoolOK d -> find_first (isHeld g i) (spHeld d) = Some row -> p row = true -> (forall r, p r = true -> isHeld g i r = true) ->
  updateWhere p f (spHeld d) = updateWhere (isHeld g i) f (spHeld d) /\ List.filter p (spHeld d) = [row] /\
  List.filter (fun r => negb (p r)) (spHeld d) = List.filter (fun r => negb (isHeld g i r)) (spHeld d).
Proof.
  intros HS Hrow Hp Himp. pose proof (fun r => held_unique d g i row r HS Hrow) as HU.
  assert (HE : forall r, r ∈ spHeld d -> p r = isHeld g i r).
  { intros r Hr. destruct (isHeld g i r) eqn:E; [by rewrite (HU r Hr E)|]. apply not_true_is_false. intros Hpr%Himp. congruence. }
  split; [|split].
  - unfold updateWhere. apply list_fmap_ext. intros _ r Hr%list_elem_of_lookup_2. by rewrite HE.
  - pose proof (sp_keys d HS) as HN. pose proof Hrow as [Hin Hk]%find_first_Some. clear Hrow HS. induction (spHeld d) as [|x l IH]; [by apply elem_of_nil in Hin|].
    apply NoDup_cons in HN as [Hx HN]. simpl. rewrite (HE x) by set_solver. destruct (isHeld g i x) eqn:E.
    + rewrite (HU x) by (set_solver || done). f_equal. apply filter_none. intros y Hy. apply not_true_is_false. intros Hpy.
      apply Hx, list_elem_of_fmap. exists y. split; [|done]. apply Himp, isHeld_spec in Hpy. apply isHeld_spec in E. congruence.
    + apply elem_of_cons in Hin as [->|Hin]; [congruence|]. apply IH; try done; intros; [apply HU|apply HE]; set_solver.
  - apply filter_ext_in. intros r Hr%list_elem_of_In. by rewrite HE.
Qed.

Lemma quarantinePending_moves l now g i d r d' : spoolOK d -> quarantinePending now g i d = Ok (r, d') ->
  moves l now (IQuarantinePending g i) d d' /\ (r = Ok tt -> exists row, find_first (isHeld g i) (spHeld d) = Some row /\ hState row = $"pending" /\ d' = setHeld (updateWhere (isHeld g i) unleased (spHeld d)) d).
Proof.
  intros HS H. unfold quarantinePending in H. set (due := fun r => _ && _) in H.
  apply bind_ok in H as (n & d1 & [-> ->]%select_ok & H). apply bind_ok in H as (u & d1 & ->%exec_ok & [-> ->]%ret_ok).
  assert (Himp : forall r, due r = true -> isHeld g i r = true) by (intros x Hx; unfold due in Hx; by to_prop).
  destruct (find_first (isHeld g i) (spHeld d)) as [row|] eqn:Ef; [destruct (due row) eqn:Ed|].
  - destruct (updateHeld_one d g i row due unleased HS Ef Ed Himp) as (-> & HF & _). assert (Hst : hState row = $"pending") by (unfold due in Ed; by to_prop).
    split; [by eapply MvFence|]. intros _. by exists row.
  - assert (HE : forall r, r ∈ spHeld d -> due r = false).
    { intros x Hx. apply not_true_is_false. intros Hd. rewrite (held_unique d g i row x HS Ef Hx (Himp x Hd)) in Hd. congruence. }
    rewrite (filter_none _ _ HE), (updateWhere_none _ _ _ HE). split; [|done]. destruct d. constructor.
  - assert (HE : forall r, r ∈ spHeld d -> due r = false).
    { intros x Hx. apply not_true_is_false. intros Hd%Himp. rewrite find_first_None in Ef. rewrite Ef in Hd; done. }
    rewrite (filter_none _ _ HE), (updateWhere_none _ _ _ HE). split; [|done]. destruct d. constructor.
Qed.

(** What a lease answers, and what leaving for the archive does. *)
Lemma claimHeld_ok l now dur release tok g i d r d' : spoolOK d -> claim now dur release tok g i d = Ok (r, d') ->
  exists row, find_first (isHeld g i) (spHeld d) = Some row /\ moves l now (IClaim dur release tok g i) d d' /\ hState row = (if release then $"quarantined" else $"pending") /\
    (hLeaseUntil row <= unix now)%Z /\
    (r = Err ErrRoute /\ release = false /\ currentBindings now g i d = false /\ d' = setHeld (updateWhere (isHeld g i) unleased (spHeld d)) d \/
     exists lease raw, tok = Some lease /\ hRaw row = Some raw /\ (release = false -> currentBindings now g i d = true) /\
       d' = setHeld (updateWhere (isHeld g i) (leased lease (unix (now + dur))) (spHeld d)) d /\
       r = Ok (mkHeldDelivery g i (hSender row) (hDigest row) raw (hState row) (readBindings g i d) lease [])).
Proof.
  intros HS H. unfold claim in H. destruct (_ || _) in H; [done|]. apply bind_ok in H as (dv & d1 & Hdv & H). unfold readDelivery in Hdv.
  apply bind_ok in Hdv as (row & d2 & [-> ->]%select_ok & Hdv). destruct (find_first (isHeld g i) (spHeld d)) as [row|] eqn:Ef.
  2:{ apply bind_ok in Hdv as (t & d2 & [-> ->]%select_ok & Hdv). destruct (archivedDelivery g i d) as [t|]; [|done]. apply ret_ok in Hdv as [-> ->].
      cbn [dvState] in H. by destruct release. }
  apply bind_ok in Hdv as (bs & d2 & [-> ->]%select_ok & [-> ->]%ret_ok). cbn [dvState dvSender dvDigest dvRaw dvBindings] in H.
  destruct (negb _) eqn:Est in H; [done|]. to_prop. apply bind_ok in H as (until & d2 & [-> ->]%select_ok & H). rewrite Ef in H. destruct (_ <? _)%Z eqn:Eu in H; [done|].
  apply bind_ok in H as (cur & d2 & [-> ->]%select_ok & H). to_prop. exists row. split; [done|].
  assert (HST : hState row = (if release then $"quarantined" else $"pending")) by by destruct release.
  destruct (negb (currentBindings now g i d) && negb release) eqn:Ec.
  - apply bind_ok in H as (u & d2 & ->%exec_ok & [-> ->]%ret_ok). to_prop. subst release. split; [by eapply MvFence|]. do 2 (split; [done|]). by left.
  - destruct tok as [lease|]; [|done]. apply bind_ok in H as (u & d2 & ->%exec_ok & [-> ->]%ret_ok).
    assert (Hcur : release = false -> currentBindings now g i d = true) by (intros ->; by destruct (currentBindings now g i d)).
    split; [|do 2 (split; [done|])].
    + eapply MvLease; [done| |eauto]. destruct release; [by right|left; auto].
    + right. pose proof (heldRow_ok d g i row HS Ef) as [(E & _)|(_ & raw & Hraw & _)]; [rewrite HST in E; by destruct release|].
      exists lease, raw. rewrite Hraw. auto.
Qed.

Lemma archive_one d g i row now disp p u d' : spoolOK d -> find_first (isHeld g i) (spHeld d) = Some row -> p row = true -> (forall r, p r = true -> isHeld g i r = true) ->
  archive false now disp p d = Ok (u, d') ->
  exists text, recipientsText g i d = Some text /\
    d' = setBindings (List.filter (fun b => negb (isBound g i b)) (spBindings d))
      (setHeld (List.filter (fun r => negb (isHeld g i r)) (spHeld d))
        (setArchived (spArchived d ++ [mkTomb g i (hSender row) (hDigest row) text now disp]) d)).
Proof.
  intros HS Hrow Hp Himp H. destruct (updateHeld_one d g i row p (fun r => r) HS Hrow Hp Himp) as (_ & HF & HK). unfold archive in H.
  apply bind_ok in H as (l & d1 & [-> ->]%select_ok & H). rewrite HF in H. cbn [insertTombs] in H.
  pose proof Hrow as [Hin [= Hg Hi]%isHeld_spec]%find_first_Some. rewrite Hg, Hi in H.
  apply bind_ok in H as (u1 & d1 & H1 & ->%exec_ok). apply bind_ok in H1 as (text & d2 & [-> ->]%select_ok & H1). apply bind_ok in H1 as (dup & d2 & [-> ->]%select_ok & H1).
  apply bind_ok in H1 as (u2 & d2 & H2 & [_ ->]%ret_ok). destruct (recipientsText g i d) as [text|]; [|done]. destruct (existsb _ (spArchived d)); [done|].
  apply exec_ok in H2 as ->. exists text. split; [done|]. simpl. rewrite HK. unfold setBindings, setHeld, setArchived. simpl. f_equal.
  apply filter_ext. intros b. rewrite orb_false_r. f_equal. unfold isHeld, isBound. rewrite Hg, Hi. f_equal; apply bool_decide_ext; done.
Qed.

Lemma acknowledge_ok l now release g i lease digest d r d' : spoolOK d -> acknowledge now release g i lease digest d = Ok (r, d') ->
  let disp := if release then $"released" else $"imported" in
  moves l now (IAcknowledge release g i lease digest) d d' /\
  ((find_first (isHeld g i) (spHeld d) = None /\ d' = d /\ r = Ok tt /\
     exists t, archivedDelivery g i d = Some t /\ tDigest t = digest /\ tDisposition t = disp) \/
   exists row, find_first (isHeld g i) (spHeld d) = Some row /\ hDigest row = digest /\ hLease row = lease /\ (unix now < hLeaseUntil row)%Z /\
     hState row = (if release then $"quarantined" else $"pending") /\
     (r = Err ErrRoute /\ release = false /\ currentBindings now g i d = false /\ d' = setHeld (updateWhere (isHeld g i) unleased (spHeld d)) d \/
      exists text, r = Ok tt /\ (release = false -> currentBindings now g i d = true) /\ recipientsText g i d = Some text /\ d' = archived_ g i text disp now row d)).
Proof.
  intros HS H. cbv zeta. unfold acknowledge in H. destruct (_ || _) eqn:E0 in H; [done|]. apply bind_ok in H as (old & d1 & [-> ->]%select_ok & H).
  destruct (find_first (isHeld g i) (spHeld d)) as [row|] eqn:Ef.
  - destruct (_ || _) eqn:E1 in H; [done|]. destruct (_ || _) eqn:E2 in H; [done|]. to_prop. apply bind_ok in H as (cur & d1 & [-> ->]%select_ok & H).
    assert (HST : hState row = (if release then $"quarantined" else $"pending")) by by destruct release.
    destruct (negb (currentBindings now g i d) && negb release) eqn:Ec.
    + apply bind_ok in H as (u & d2 & ->%exec_ok & [-> ->]%ret_ok). to_prop. subst release. split; [by eapply MvFence|]. right. exists row. do 5 (split; [done|]). by left.
    + assert (Hcur : release = false -> currentBindings now g i d = true) by (intros ->; by destruct (currentBindings now g i d)).
      apply bind_ok in H as (u & d2 & HA & [-> ->]%ret_ok).
      apply (archive_one d g i row) in HA as (text & Ht & ->); [|done|done| |].
      * split; [|right; exists row; do 5 (split; [done|]); right; by exists text].
        eapply MvArchive; [done| |done|]; [destruct release; [right; split; [done|by left]|left; auto]|]. by repeat split.
      * apply andb_true_iff. split; [by apply find_first_Some in Ef as [_ ?]|]. destruct release; by apply bool_decide_eq_true.
      * by intros x [? _]%andb_true_iff.
  - apply bind_ok in H as (t & d1 & [-> ->]%select_ok & H). apply bind_ok in H as (u & d1 & [HT ->]%assert_ok & [-> ->]%ret_ok). split; [constructor|].
    left. destruct (archivedDelivery g i d) as [t|]; [|done]. to_prop. do 3 (split; [done|]). exists t. split; [done|]. by destruct release.
Qed.

Lemma discard_ok l now g i d s d' : spoolOK d -> discard now g i d = Ok (s, d') ->
  moves l now (IDiscard g i) d d' /\
  ((find_first (isHeld g i) (spHeld d) = None /\ d' = d /\ exists t, archivedDelivery g i d = Some t /\ tDisposition t = s) \/
   exists row text, find_first (isHeld g i) (spHeld d) = Some row /\ hState row = $"quarantined" /\ (hLeaseUntil row <= unix now)%Z /\
     s = (if hLease row =s? [] then $"discarded" else $"partially_released") /\ recipientsText g i d = Some text /\ d' = archived_ g i text s now row d).
Proof.
  intros HS H. unfold discard in H. apply bind_ok in H as (old & d1 & [-> ->]%select_ok & H). destruct (find_first (isHeld g i) (spHeld d)) as [row|] eqn:Ef.
  - destruct (_ || _) eqn:E1 in H; [done|]. to_prop. apply bind_ok in H as (u & d2 & HA & [-> ->]%ret_ok).
    apply (archive_one d g i row) in HA as (text & Ht & ->); [|done|done| |by intros x [? _]%andb_true_iff].
    + assert (Hs : (if negb (hLease row =s? []) then $"partially_released" else $"discarded") = (if hLease row =s? [] then $"discarded" else $"partially_released")) by by destruct (hLease row =s? []).
      split; [|right; exists row, text; rewrite Hs; by repeat split]. eapply MvArchive; [done| |done|by rewrite Hs]. right. split; [done|]. rewrite Hs. destruct (hLease row =s? []); set_solver.
    + apply andb_true_iff. split; [by apply find_first_Some in Ef as [_ ?]|]. by apply bool_decide_eq_true.
  - apply bind_ok in H as (t & d1 & [-> ->]%select_ok & H). destruct (archivedDelivery g i d) as [t|] eqn:Et; [|done]. destruct (_ && _) in H; [done|]. apply ret_ok in H as [-> ->].
    split; [constructor|]. left. eauto.
Qed.

Lemma resolve_moves l now g i b d u d' : spoolOK d -> resolveQuarantined now g i b d = Ok (u, d') -> moves l now (IResolve g i b) d d'.
Proof.
  intros HS H. unfold resolveQuarantined in H. destruct (_ || _) eqn:E0 in H; [done|]. apply bind_ok in H as (old & d1 & [-> ->]%select_ok & H).
  destruct (find_first (isHeld g i) (spHeld d)) as [row|] eqn:Ef; [|done]. destruct (_ || _) eqn:E1 in H; [done|]. apply bind_ok in H as (bs & d1 & [-> ->]%select_ok & H).
  destruct (readBindings g i d) as [|b0 [|? ?]] eqn:Eb; [done| |done]. destruct (_ || _) eqn:E2 in H; [done|]. apply exec_ok in H as ->. to_prop.
  assert (HU : forall x, x ∈ spBindings d -> isBound g i x = true -> brBinding x = b0).
  { intros x Hx Hk. assert (Hm : brBinding x ∈ readBindings g i d).
    { rewrite readBindings_perm. apply list_elem_of_fmap_2, elem_of_bindingsOf. by apply isBound_spec in Hk. }
    rewrite Eb in Hm. by apply list_elem_of_singleton in Hm. }
  assert (HE : updateWhere (isBound g i) (fun x => mkBindingRow (brGateway x) (brID x) (mkBinding (bAddress (brBinding x)) (bIssuer b) (bSubject b) (bMailbox b) (bGeneration b))) (spBindings d)
    = updateWhere (isBound g i) (fun x => mkBindingRow (brGateway x) (brID x) b) (spBindings d)).
  { unfold updateWhere. apply list_fmap_ext. intros _ x Hx%list_elem_of_lookup_2. destruct (isBound g i x) eqn:Ex; [|done]. rewrite (HU x Hx Ex).
    match goal with H : bAddress b0 = _ |- _ => rewrite H end. by destruct b. }
  rewrite HE. destruct (Unresolved b0) eqn:Eu; [by eapply MvResolve|].
  match goal with H : negb false && _ = false |- _ => cbn [negb andb] in H end. to_prop. subst b0.
  assert (updateWhere (isBound g i) (fun x => mkBindingRow (brGateway x) (brID x) b) (spBindings d) = spBindings d) as ->; [|destruct d; constructor].
  unfold updateWhere. rewrite <- (list_fmap_id (spBindings d)) at 2. apply list_fmap_ext. intros _ x Hx%list_elem_of_lookup_2. destruct (isBound g i x) eqn:Ex; [|done].
  rewrite <- (HU x Hx Ex). by destruct x.
Qed.

(** ** Calls *)

Lemma runIng_moves l now o d r d' : spoolOK d -> runIng l now o d = Ok (r, d') -> moves l now o d d'.
Proof.
  intros HS H. destruct o; cbn [runIng] in H; unfold plain, graded in H; apply bind_ok in H as (a & d1 & H & [-> ->]%ret_ok).
  - by eapply setRoute_moves.
  - by eapply deactivate_moves.
  - by eapply bind_moves.
  - by eapply accept_moves.
  - by eapply quarantine_moves.
  - by eapply quarantinePending_moves.
  - apply (claimHeld_ok l) in H as (? & ? & ? & _); done.
  - by apply (acknowledge_ok l) in H as [? _].
  - by apply (discard_ok l) in H as [? _].
  - by eapply resolve_moves.
Qed.
End Moves.
