(* ===== verification/IngressFate.v ===== *)
(** * IngressFate: what becomes of one delivery

    Seen from one receiver identity the holding store is an automaton: absent,
    staged, held (pending or quarantined), gone under its tombstone.  Every call
    makes one of its steps, or none. *)

From S2P Require Import Prelude GoText GoCodec SendAs MailboxModel Mailbox Outbox MailboxRun IngressModel Ingress IngressRun IngressInvariant.
From S2P Require Import IngressMoves.

Inductive fate :=
  | Absent
  | StagedAs (sender : gostr) (bs : list Binding)
  | HeldAs (sender : gostr) (quarantined : bool) (raw : list Z) (bs : list Binding)
  | GoneAs (sender digest : gostr) (recipients : list gostr) (disposition : gostr).

Section Fate.
Context {ML : MailLib} {RO : RangeOrder} {ROL : RangeOrderLaws}.

Definition boundTo (g i : gostr) (d : spool) : list Binding := brBinding <$> bindingsOf g i d.
Definition fateOf (g i : gostr) (d : spool) : fate :=
  match find_first (isHeld g i) (spHeld d) with
  | Some r => match hRaw r with
              | None => StagedAs (hSender r) (boundTo g i d)
              | Some raw => HeldAs (hSender r) (hState r =s? $"quarantined") raw (boundTo g i d)
              end
  | None => match archivedDelivery g i d with
            | Some t => GoneAs (tSender t) (tDigest t) (tombRecipients t) (tDisposition t)
            | None => Absent
            end
  end.

Inductive fstep (g i : gostr) (o : ingOp) : fate -> fate -> Prop :=
  | fs_stay f : fstep g i o f f
  | fs_stage ad s b : o = IBind ad g i s (bAddress b) -> fstep g i o Absent (StagedAs s [b])
  | fs_bind ad s b bs : o = IBind ad g i s (bAddress b) -> fstep g i o (StagedAs s bs) (StagedAs s (bs ++ [b]))
  | fs_fill ad s bs raw : o = IAccept ad g i s (Some raw) -> fstep g i o (StagedAs s bs) (HeldAs s false raw bs)
  | fs_hold ad s b raw : o = IQuarantine ad g i s b raw -> fstep g i o Absent (HeldAs s true raw [b])
  | fs_hold_staged ad s b raw : o = IQuarantine ad g i s b raw -> fstep g i o (StagedAs s [b]) (HeldAs s true raw [b])
  | fs_fence s raw bs : fences g i o -> fstep g i o (HeldAs s false raw bs) (HeldAs s true raw bs)
  | fs_import s raw bs rs lease : o = IAcknowledge false g i lease (hashIncoming raw) -> rs ≡ₚ bAddress <$> bs ->
      fstep g i o (HeldAs s false raw bs) (GoneAs s (hashIncoming raw) rs ($"imported"))
  | fs_release s raw bs rs lease : o = IAcknowledge true g i lease (hashIncoming raw) -> rs ≡ₚ bAddress <$> bs ->
      fstep g i o (HeldAs s true raw bs) (GoneAs s (hashIncoming raw) rs ($"released"))
  | fs_discard s raw bs rs disposition : o = IDiscard g i -> disposition ∈ [$"discarded"; $"partially_released"] -> rs ≡ₚ bAddress <$> bs ->
      fstep g i o (HeldAs s true raw bs) (GoneAs s (hashIncoming raw) rs disposition)
  | fs_resolve s raw b0 b : o = IResolve g i b -> Unresolved b0 = true -> Unresolved b = false -> bAddress b0 = bAddress b ->
      fstep g i o (HeldAs s true raw [b0]) (HeldAs s true raw [b]).

(** ** One key and the tables *)

Lemma isHeld_other g i g' i' r : (g, i) ≠ (g', i') -> keyOf r = (g', i') -> isHeld g i r = false.
Proof. intros Hne Hk. apply not_true_is_false. intros E%isHeld_spec. congruence. Qed.
Lemma find_app_other g i l r : keyOf r ≠ (g, i) -> find_first (isHeld g i) (l ++ [r]) = find_first (isHeld g i) l.
Proof.
  intros Hne. rewrite find_first_app. destruct (find_first _ l); [done|]. simpl. destruct (isHeld g i r) eqn:E; [|done]. by apply isHeld_spec in E.
Qed.
Lemma find_update_held g i g' i' f l : (forall r, keyOf (f r) = keyOf r) ->
  find_first (isHeld g i) (updateWhere (isHeld g' i') f l) = (fun r => if isHeld g' i' r then f r else r) <$> find_first (isHeld g i) l.
Proof.
  intros Hf. apply find_first_updateWhere. intros r. apply eq_true_iff_eq. by rewrite !isHeld_spec, Hf.
Qed.
Lemma find_update_other g i g' i' f l : (g, i) ≠ (g', i') -> (forall r, keyOf (f r) = keyOf r) ->
  find_first (isHeld g i) (updateWhere (isHeld g' i') f l) = find_first (isHeld g i) l.
Proof.
  intros Hne Hf. rewrite find_update_held by done. destruct (find_first _ l) as [r|] eqn:E; [|done]. simpl. apply find_first_Some in E as [_ E%isHeld_spec].
  destruct (isHeld g' i' r) eqn:E'; [|done]. apply isHeld_spec in E'. congruence.
Qed.
Lemma find_kept_other g i g' i' l : (g, i) ≠ (g', i') ->
  find_first (isHeld g i) (List.filter (fun r => negb (isHeld g' i' r)) l) = find_first (isHeld g i) l.
Proof.
  intros Hne. induction l as [|r l IH]; [done|]. simpl. destruct (isHeld g' i' r) eqn:E; simpl; [|by rewrite IH].
  rewrite (isHeld_other g i g' i') by (done || by apply isHeld_spec). done.
Qed.
Lemma find_kept_same g i l : find_first (isHeld g i) (List.filter (fun r => negb (isHeld g i r)) l) = None.
Proof. apply find_first_None. intros r [_ Hr]%elem_of_kept. done. Qed.

Lemma boundTo_app g i d g' i' b : boundTo g i (setBindings (spBindings d ++ [mkBindingRow g' i' b]) d) = boundTo g i d ++ (if bool_decide ((g', i') = (g, i)) then [b] else []).
Proof. unfold boundTo. rewrite bindingsOf_app, fmap_app. f_equal. by case_bool_decide. Qed.
Lemma boundTo_held g i v d : boundTo g i (setHeld v d) = boundTo g i d.
Proof. done. Qed.
Lemma boundTo_resolve_other g i g' i' b d : (g, i) ≠ (g', i') ->
  boundTo g i (setBindings (updateWhere (isBound g' i') (fun x => mkBindingRow (brGateway x) (brID x) b) (spBindings d)) d) = boundTo g i d.
Proof.
  intros Hne. unfold boundTo, bindingsOf. simpl. induction (spBindings d) as [|x l IH]; [done|].
  change (updateWhere ?p ?f (x :: l)) with ((if p x then f x else x) :: updateWhere p f l). cbn [List.filter]. destruct (isBound g' i' x) eqn:E.
  - apply isBound_spec in E as [Eg Ei]. assert (isBound g i x = false) as Hx by (apply not_true_is_false; intros [? ?]%isBound_spec; congruence).
    assert (isBound g i (mkBindingRow (brGateway x) (brID x) b) = isBound g i x) as -> by done. by rewrite Hx.
  - destruct (isBound g i x); simpl; [f_equal|]; done.
Qed.
Lemma boundTo_one d g i b : readBindings g i d = [b] -> boundTo g i d = [b].
Proof. intros H. apply Permutation_singleton_r. change (brBinding <$> bindingsOf g i d ≡ₚ [b]). by rewrite <- readBindings_perm, H. Qed.
Lemma boundTo_nil d g i : spoolOK d -> find_first (isHeld g i) (spHeld d) = None -> boundTo g i d = [].
Proof.
  intros HS HN. unfold boundTo. destruct (bindingsOf g i d) as [|x l] eqn:E; [done|]. exfalso. assert (Hx : x ∈ bindingsOf g i d) by (rewrite E; set_solver).
  apply elem_of_bindingsOf in Hx as (Hx & Eg & Ei). pose proof (proj1 (Forall_forall _ _) (sp_fk d HS) x Hx) as HF. simpl in HF. rewrite Eg, Ei in HF.
  apply held_none in HN. congruence.
Qed.

Lemma address_no_newline a e : a ≠ [] \/ e = false -> address a e = true -> 10%Z ∉ a.
Proof.
  intros Ha H Hin. unfold address in H. destruct (e && _) eqn:Ee; [destruct e; [|done]; cbn in Ee; apply bool_decide_eq_true in Ee; naive_solver|].
  destruct (_ || _) eqn:Eb in H; [done|]. apply orb_false_iff in Eb as [_ Eb]. unfold containsAny in Eb.
  assert (existsb (fun r => bool_decide (r ∈ [13; 10; 0]%Z)) a = true); [|congruence]. apply existsb_exists. exists 10%Z. split; [by apply list_elem_of_In|done].
Qed.
Lemma archived_recipients d g i text t : spoolOK d -> recipientsText g i d = Some text -> tRecipients t = text -> tombRecipients t ≡ₚ bAddress <$> boundTo g i d.
Proof.
  intros HS Ht Hr. unfold recipientsText in Ht. destruct (bAddress <$> readBindings g i d) as [|a l] eqn:E; [done|]. assert (text = join [10]%Z (a :: l)) as Htx by congruence.
  unfold tombRecipients. rewrite Hr, Htx, splitOn_join; [|done|]; rewrite <- E; [by rewrite readBindings_perm|].
  apply Forall_forall. intros x (b & -> & Hb)%list_elem_of_fmap. rewrite readBindings_perm in Hb. apply list_elem_of_fmap in Hb as (y & -> & Hy).
  apply elem_of_bindingsOf in Hy as [Hy _]. pose proof (proj1 (Forall_forall _ _) (sp_addresses d HS) y Hy) as HA. simpl in HA. by eapply address_no_newline; [right|].
Qed.

(** ** Every move is a step *)

Lemma fateOf_staged g i d r : find_first (isHeld g i) (spHeld d) = Some r -> rowOK r -> hState r = $"staged" -> fateOf g i d = StagedAs (hSender r) (boundTo g i d).
Proof.
  intros Hf HR Hs. unfold fateOf. rewrite Hf. destruct HR as [(_ & -> & _)|[HR _]]; [done|]. rewrite Hs in HR. by apply (bool_decide_eq_true_2 _) in HR.
Qed.
Lemma fateOf_held g i d r raw (q : bool) : find_first (isHeld g i) (spHeld d) = Some r -> hRaw r = Some raw -> hState r = (if q then $"quarantined" else $"pending") ->
  fateOf g i d = HeldAs (hSender r) q raw (boundTo g i d).
Proof. intros Hf Hr Hs. unfold fateOf. rewrite Hf, Hr, Hs. by destruct q. Qed.
Lemma rowOK_held r (q : bool) : rowOK r -> hState r = (if q then $"quarantined" else $"pending") -> exists raw, hRaw r = Some raw /\ raw ≠ [] /\ hDigest r = hashIncoming raw.
Proof. intros [(E & _)|[_ H]] Hs; [rewrite Hs in E; by destruct q|done]. Qed.
Lemma moves_fate l now o d d' g i : spoolOK d -> moves l now o d d' -> fstep g i o (fateOf g i d) (fateOf g i d').
Proof.
  intros HS HM. destruct HM as [|rs _ _|g' i' s a r Hn Ha _ _ _ _ _ [ad ->]|g' i' a row r Hf Hs _ _ _ _ _ _ [ad ->]|g' i' row raw Hf Hs _ _ _ [ad ->]
    |g' i' s b raw Hn Ha _ _ _ _ _ [ad ->]|g' i' row b raw Hf Hs Hb _ _ _ [ad ->]|g' i' row Hf Hs Hfe|g' i' row lease until Hf Hs _|g' i' row text disp Hf Hs Ht Har
    |g' i' row b0 b Hf Hs Hb Hab Hu Hu' ->]; [constructor|constructor|..]; destruct (decide ((g, i) = (g', i'))) as [[= <- <-]|Hne];
    try match goal with Hf : find_first (isHeld g i) (spHeld d) = Some row |- _ => pose proof (heldRow_ok d g i row HS Hf) as HR end.
  - assert (fateOf g i d = Absent) as -> by (unfold fateOf; by rewrite Hn, Ha). unfold fateOf. simpl. rewrite find_first_app, Hn. simpl. unfold isHeld. simpl.
    rewrite !bool_decide_true by done. cbn [andb hRaw hSender]. change (boundTo g i (setBindings _ _)) with (boundTo g i (setBindings (spBindings d ++ [mkBindingRow g i (routeBinding a r)]) d)).
    rewrite boundTo_app, bool_decide_true, boundTo_nil by done. by apply (fs_stage _ _ _ ad).
  - unfold fateOf at 2. simpl. rewrite find_app_other by (unfold keyOf; simpl; congruence). change (boundTo g i (setBindings _ _)) with (boundTo g i (setBindings (spBindings d ++ [mkBindingRow g' i' (routeBinding a r)]) d)).
    rewrite boundTo_app, bool_decide_false, app_nil_r by congruence. constructor.
  - rewrite (fateOf_staged g i d row) by done. unfold fateOf. simpl. rewrite Hf. destruct HR as [(_ & -> & _)|[HR _]]; [|rewrite Hs in HR; by apply (bool_decide_eq_true_2 _) in HR].
    rewrite boundTo_app, bool_decide_true by done. by apply (fs_bind _ _ _ ad).
  - unfold fateOf at 2. simpl. rewrite boundTo_app, bool_decide_false, app_nil_r by congruence. constructor.
  - rewrite (fateOf_staged g i d row) by done. unfold fateOf. simpl. rewrite find_update_held, Hf by done. simpl. pose proof Hf as [_ ->]%find_first_Some. simpl. by apply (fs_fill _ _ _ ad).
  - unfold fateOf at 2. simpl. rewrite find_update_other by done. constructor.
  - assert (fateOf g i d = Absent) as -> by (unfold fateOf; by rewrite Hn, Ha). unfold fateOf. simpl. rewrite find_first_app, Hn. simpl. unfold isHeld. simpl.
    rewrite !bool_decide_true by done. cbn [andb hRaw hSender hState]. change (boundTo g i (setBindings _ _)) with (boundTo g i (setBindings (spBindings d ++ [mkBindingRow g i b]) d)).
    rewrite boundTo_app, !bool_decide_true, boundTo_nil by done. by apply (fs_hold _ _ _ ad).
  - unfold fateOf at 2. simpl. rewrite find_app_other by (unfold keyOf; simpl; congruence). change (boundTo g i (setBindings _ _)) with (boundTo g i (setBindings (spBindings d ++ [mkBindingRow g' i' b]) d)).
    rewrite boundTo_app, bool_decide_false, app_nil_r by congruence. constructor.
  - rewrite (fateOf_staged g i d row) by done. unfold fateOf. simpl. rewrite find_update_held, Hf by done. simpl. pose proof Hf as [_ ->]%find_first_Some. simpl.
    rewrite boundTo_held, (boundTo_one d g i b Hb). by apply (fs_hold_staged _ _ _ ad).
  - unfold fateOf at 2. simpl. rewrite find_update_other by done. constructor.
  - destruct (rowOK_held row false HR Hs) as (raw & Hraw & _). rewrite (fateOf_held g i d row raw false) by done. unfold fateOf. simpl. rewrite find_update_held, Hf by done. simpl.
    pose proof Hf as [_ ->]%find_first_Some. simpl. rewrite Hraw. by constructor.
  - unfold fateOf at 2. simpl. rewrite find_update_other by done. constructor.
  - unfold fateOf. simpl. rewrite find_update_held, Hf by done. simpl. pose proof Hf as [_ ->]%find_first_Some. simpl. constructor.
  - unfold fateOf at 2. simpl. rewrite find_update_other by done. constructor.
  - assert (HG : fateOf g i (archived_ g i text disp now row d) = GoneAs (hSender row) (hDigest row) (tombRecipients (mkTomb g i (hSender row) (hDigest row) text (unix now) disp)) disp).
    { unfold fateOf, archived_. simpl. rewrite find_kept_same. unfold archivedDelivery. simpl. rewrite find_first_app.
      assert (find_first (isTomb g i) (spArchived d) = None) as ->.
      { apply find_first_None. intros t Htm. apply not_true_is_false. intros [= Eg Ei]%isTomb_spec. pose proof (proj1 (Forall_forall _ _) (sp_fresh d HS) t Htm) as HF. simpl in HF.
        rewrite Eg, Ei in HF. apply held_none in HF. congruence. }
      simpl. unfold isTomb. simpl. by rewrite !bool_decide_true. }
    change (setBindings _ _) with (archived_ g i text disp now row d). rewrite HG. pose proof (archived_recipients d g i text (mkTomb g i (hSender row) (hDigest row) text (unix now) disp) HS Ht eq_refl) as HP.
    destruct o as [| | | | | | |rel g1 i1 lease dg|g1 i1|]; try done; cbn [archives] in Har.
    + destruct Har as (-> & -> & <- & _ & _ & -> & Hst). destruct (rowOK_held row rel HR Hst) as (raw & Hraw & _ & Hdg). rewrite (fateOf_held g i d row raw rel) by done. rewrite Hdg in *.
      destruct rel; [by eapply fs_release|by eapply fs_import].
    + destruct Har as (-> & -> & Hst & ->). destruct (rowOK_held row true HR Hst) as (raw & Hraw & _ & Hdg). rewrite (fateOf_held g i d row raw true), Hdg by done.
      rewrite Hdg in HP. apply fs_discard; [done| |done]. destruct (hLease row =s? []); set_solver.
  - unfold fateOf at 2. change (setBindings _ _) with (archived_ g' i' text disp now row d). unfold boundTo. rewrite bindingsOf_archived by congruence. simpl. rewrite find_kept_other by done.
    unfold archivedDelivery. simpl. rewrite find_first_app. destruct (find_first (isTomb g i) (spArchived d)) eqn:E; [|simpl; unfold isTomb; simpl].
    + unfold fateOf, archivedDelivery. rewrite E. constructor.
    + assert (bool_decide (g' = g) && bool_decide (i' = i) = false) as -> by (apply not_true_is_false; intros [?%bool_decide_eq_true ?%bool_decide_eq_true]%andb_true_iff; congruence).
      unfold fateOf, archivedDelivery. rewrite E. constructor.
  - destruct (rowOK_held row true HR Hs) as (raw & Hraw & _). rewrite (fateOf_held g i d row raw true) by done. unfold fateOf. simpl. rewrite Hf, Hraw, Hs.
    assert (HB : boundTo g i (setBindings (updateWhere (isBound g i) (fun x => mkBindingRow (brGateway x) (brID x) b) (spBindings d)) d) = [b]).
    { pose proof (boundTo_one d g i b0 Hb) as H1. unfold boundTo, bindingsOf in *. simpl. rewrite filter_updateWhere by done. destruct (List.filter _ (spBindings d)) as [|x [|? ?]] eqn:E; [done| |done].
      assert (Hx : isBound g i x = true) by (assert (Hin : In x [x]) by (by left); rewrite <- E in Hin; by apply filter_In in Hin as [_ ?]).
      unfold updateWhere. csimpl. by rewrite Hx. }
    rewrite HB, (boundTo_one d g i b0 Hb), bool_decide_true by done. by eapply fs_resolve.
  - unfold fateOf at 2. simpl. rewrite boundTo_resolve_other by done. constructor.
Qed.
End Fate.

(** ** Accepted mail is kept, and never imported for a stale owner *)

Section Reach.
Context {ML : MailLib} {RO : RangeOrder} {ROL : RangeOrderLaws}.

(** The durable limits never fall below those of an open handle. *)
Record holdingOK (s : holding) : Prop := {
  ho_spool : spoolOK (hoSpool s);
  ho_limits : limitsOK (spLimits (hoSpool s)) = true;
  ho_handles : Forall (fun l => raisableTo l (spLimits (hoSpool s)) = true) (hoHandles s);
}.
Definition newHolding (l : holdLimits) : holding := mkHolding (emptySpool l) [l].

Lemma raisable_refl l : raisableTo l l = true.
Proof. unfold raisableTo. by rewrite !Z.leb_refl. Qed.
Lemma raisable_trans l1 l2 l3 : raisableTo l1 l2 = true -> raisableTo l2 l3 = true -> raisableTo l1 l3 = true.
Proof. unfold raisableTo. intros H1 H2. to_prop. repeat (apply andb_true_iff; split); apply Z.leb_le; lia. Qed.
Lemma newHolding_ok l : limitsOK l = true -> holdingOK (newHolding l).
Proof. intros H. split; [by apply spoolOK_empty|done|]. constructor; [apply raisable_refl|done]. Qed.

Lemma raise_ok l d : spoolOK d -> raisableTo (spLimits d) l = true -> spoolOK (setSpLimits l d).
Proof.
  intros HS HL. unfold raisableTo in HL. to_prop. destruct HS. split; simpl; try done; try lia; [unfold payloadUsed in *; simpl; lia|].
  eapply Forall_impl; [done|]. intros r Hr. simpl in *. lia.
Qed.
Lemma migrate_same now d u d' : spoolOK d -> migrateArchive now d = Ok (u, d') -> d' = d.
Proof.
  intros HS H. unfold migrateArchive, archive in H. assert (HF : List.filter (fun r => hState r =s? $"imported") (spHeld d) = []).
  { apply filter_none. intros r Hr. pose proof (proj1 (Forall_forall _ _) (sp_rows d HS) r Hr) as HR. simpl in HR.
    destruct HR as [(-> & _)|[HR _]]; [done|]. rewrite !elem_of_cons in HR. destruct HR as [->|[->|[]%elem_of_nil]]; done. }
  apply bind_ok in H as (l & d1 & [-> ->]%select_ok & H). rewrite HF in H. apply bind_ok in H as (u1 & d1 & [_ ->]%ret_ok & ->%exec_ok).
  destruct d as [ls rs hs bs ts]. simpl in *. unfold setBindings, setHeld. simpl. f_equal.
  - rewrite <- (List.filter_ext_in (fun _ => true) _ hs); [by rewrite List.filter_true|]. intros r Hr. symmetry. apply negb_true_iff. apply not_true_is_false. intros E.
    assert (Hin : In r []) by (rewrite <- HF; by apply filter_In). done.
  - apply List.filter_true.
Qed.

(** What one call does to the store. *)
Lemma stepI_cases c s r s' : holdingOK s -> stepI c s = (r, s') -> holdingOK s' /\
  (hoSpool s' = hoSpool s \/
   (exists l, hoSpool s' = setSpLimits l (hoSpool s) /\ exists e n u1 u2 y, c = Reopen e l n u1 u2 y) \/
   exists h now op l, c = Call h now true op /\ hoHandles s !! h = Some l /\ moves l now op (hoSpool s) (hoSpool s')).
Proof.
  intros [HS HL HH] H. destruct c as [ex l now up1 up2 sy|h now up op]; simpl in H.
  - unfold openStore in H. destruct (limitsOK l) eqn:Hl; simpl in H; [|injection H as _ <-; split; [by split|by left]].
    destruct (commit ErrSQL up1 (adoptLimits l) (hoSpool s)) as [r1 d1] eqn:E1. apply commit_ok in E1 as [(e & -> & ->)|(u & -> & E1 & _)].
    { injection H as _ <-. split; [by split|by left]. }
    assert (HD : spoolOK d1 /\ limitsOK (spLimits d1) = true /\ Forall (fun l => raisableTo l (spLimits d1) = true) (hoHandles s ++ [l]) /\
      (d1 = hoSpool s \/ d1 = setSpLimits l (hoSpool s))).
    { unfold adoptLimits in E1. apply bind_ok in E1 as (p & d2 & [-> ->]%select_ok & E1). case_bool_decide as Ep.
      - apply ret_ok in E1 as [_ ->]. split; [done|]. split; [done|]. split; [|by left]. apply Forall_app. split; [done|]. constructor; [rewrite Ep; apply raisable_refl|done].
      - destruct (negb _) eqn:Er in E1; [done|]. to_prop. apply exec_ok in E1 as ->. split; [by apply raise_ok|]. split; [done|]. split; [|by right].
        apply Forall_app. split; [|constructor; [apply raisable_refl|done]]. eapply Forall_impl; [done|]. intros x Hx. simpl in *. by eapply raisable_trans. }
    destruct HD as (HS1 & HL1 & HH1 & HD). destruct (commit ErrSQL up2 (migrateArchive (unix now)) d1) as [r2 d2] eqn:E2.
    assert (d2 = d1) as -> by (apply commit_ok in E2 as [(e & -> & ->)|(u2 & -> & E2 & _)]; [done|by eapply migrate_same]).
    assert (HF : Forall (fun l => raisableTo l (spLimits d1) = true) (hoHandles s)) by by apply Forall_app in HH1 as [? _].
    assert (hoSpool s' = d1 /\ holdingOK s') as [E HO].
    { destruct r2; [|by injection H as _ <-]. by destruct (ex || sy); injection H as _ <-. }
    split; [done|]. rewrite E. destruct HD as [->| ->]; [by left|]. right. left. exists l. split; [done|]. by exists ex, now, up1, up2, sy.
  - destruct (hoHandles s !! h) as [l|] eqn:Eh; [|injection H as _ <-; split; [by split|by left]].
    destruct (callIng l now up op (hoSpool s)) as [r1 d1] eqn:E1. injection H as _ <-. unfold callIng in E1.
    destruct (commit ErrSQL up (runIng l now op) (hoSpool s)) as [r2 d2] eqn:E2. assert (d2 = d1) as -> by (destruct r2; by injection E1).
    apply commit_ok in E2 as [(e & -> & ->)|(a & -> & E2 & ->)]; [split; [by split|by left]|].
    apply runIng_moves in E2; [|done]. pose proof (proj1 (Forall_forall _ _) HH l ltac:(by eapply list_elem_of_lookup_2)) as Hl. simpl in Hl.
    destruct (moves_keep l now op _ _ Hl HS E2) as [HS' HL']. split; [split; simpl; by rewrite ?HL'|]. right. right. by exists h, now, op, l.
Qed.
Lemma stepI_ok c s : holdingOK s -> holdingOK (stepI c s).2.
Proof. intros H. destruct (stepI c s) as [r s'] eqn:E. by apply stepI_cases in E as [? _]. Qed.
Lemma run_ok tr : forall s, holdingOK s -> holdingOK (run_trace stepI tr s).2.
Proof.
  induction tr as [|c tr IH]; intros s H; simpl; [done|]. pose proof (stepI_ok c s H) as H1. destruct (stepI c s) as [r s1]. specialize (IH s1 H1).
  by destruct (run_trace stepI tr s1).
Qed.

Definition opOf (c : ingCall) : option ingOp := match c with Call _ _ true o => Some o | _ => None end.
Lemma stepI_fate c s r s' g i : holdingOK s -> stepI c s = (r, s') ->
  fateOf g i (hoSpool s') = fateOf g i (hoSpool s) \/ exists o, opOf c = Some o /\ fstep g i o (fateOf g i (hoSpool s)) (fateOf g i (hoSpool s')).
Proof.
  intros HO H. destruct (stepI_cases c s r s' HO H) as [_ [->|[(l & -> & _)|(h & now & op & l & -> & _ & HM)]]]; [by left|by left|]. right. exists op. split; [done|].
  eapply moves_fate; [apply HO|done].
Qed.

(** ** Held mail *)

(** The calls that take a delivery out of the store. *)
Definition removal (g i digest disposition : gostr) (o : ingOp) : Prop :=
  match o with
  | IAcknowledge release g' i' _ dg => g' = g /\ i' = i /\ dg = digest /\ disposition = (if release then $"released" else $"imported")
  | IDiscard g' i' => g' = g /\ i' = i /\ disposition ∈ [$"discarded"; $"partially_released"]
  | _ => False
  end.
(** Bindings stay, except that an administrator may give an unresolved one its owner. *)
Definition sameBindings (bs bs' : list Binding) : Prop :=
  bs' = bs \/ exists b0 b, bs = [b0] /\ bs' = [b] /\ Unresolved b0 = true /\ Unresolved b = false /\ bAddress b = bAddress b0.
Lemma sameBindings_addresses bs bs' : sameBindings bs bs' -> bAddress <$> bs' = bAddress <$> bs.
Proof. intros [->|(b0 & b & -> & -> & _ & _ & E)]; [done|]. csimpl. by rewrite E. Qed.

Lemma gone_stays tr : forall s g i sd dg rs disp, holdingOK s -> fateOf g i (hoSpool s) = GoneAs sd dg rs disp ->
  fateOf g i (hoSpool (run_trace stepI tr s).2) = GoneAs sd dg rs disp.
Proof.
  induction tr as [|c tr IH]; intros s g i sd dg rs disp HO HF; simpl; [done|]. destruct (stepI c s) as [r s1] eqn:E.
  pose proof (stepI_cases c s r s1 HO E) as [HO1 _]. assert (HF1 : fateOf g i (hoSpool s1) = GoneAs sd dg rs disp).
  { destruct (stepI_fate c s r s1 g i HO E) as [->|(o & _ & HSt)]; [done|]. rewrite HF in HSt. by inversion HSt. }
  specialize (IH s1 g i _ _ _ _ HO1 HF1). by destruct (run_trace stepI tr s1).
Qed.

Lemma held_kept tr : forall s g i sd q raw bs, holdingOK s -> fateOf g i (hoSpool s) = HeldAs sd q raw bs ->
  let s' := (run_trace stepI tr s).2 in
  (exists q' bs', fateOf g i (hoSpool s') = HeldAs sd q' raw bs' /\ (q = true -> q' = true) /\ sameBindings bs bs') \/
  exists rs disp c o, fateOf g i (hoSpool s') = GoneAs sd (hashIncoming raw) rs disp /\ rs ≡ₚ bAddress <$> bs /\ c ∈ tr /\ opOf c = Some o /\
    removal g i (hashIncoming raw) disp o /\ (q = true -> disp ≠ $"imported").
Proof.
  induction tr as [|c tr IH]; intros s g i sd q raw bs HO HF; cbv zeta; simpl.
  - left. exists q, bs. split; [done|]. split; [done|by left].
  - destruct (stepI c s) as [r s1] eqn:E. pose proof (stepI_cases c s r s1 HO E) as [HO1 _].
    assert (HX : (exists q' bs', fateOf g i (hoSpool s1) = HeldAs sd q' raw bs' /\ (q = true -> q' = true) /\ sameBindings bs bs') \/
      exists rs disp o, fateOf g i (hoSpool s1) = GoneAs sd (hashIncoming raw) rs disp /\ rs ≡ₚ bAddress <$> bs /\ opOf c = Some o /\ removal g i (hashIncoming raw) disp o /\
        (q = true -> disp ≠ $"imported")).
    { destruct (stepI_fate c s r s1 g i HO E) as [Eq|(o & Ho & HSt)]; [left; exists q, bs; rewrite Eq, HF; split; [done|]; split; [done|by left]|].
      rewrite HF in HSt. inversion HSt; subst.
      - left. exists q, bs. split; [done|]. split; [done|by left].
      - left. exists true, bs. split; [done|]. split; [done|by left].
      - right. do 3 eexists. split; [done|]. split; [done|]. split; [done|]. split; [|done]. by repeat split.
      - right. do 3 eexists. split; [done|]. split; [done|]. split; [done|]. split; [by repeat split|done].
      - right. do 3 eexists. split; [done|]. split; [done|]. split; [done|]. split; [by repeat split|]. intros _ ->. by match goal with H : $"imported" ∈ _ |- _ => apply (bool_decide_eq_true_2 _) in H end.
      - left. do 2 eexists. split; [done|]. split; [done|]. right. by exists b0, b. }
    destruct HX as [(q1 & bs1 & HF1 & Hq1 & HB1)|(rs & disp & o & HF1 & Hrs & Ho & HR & Hd)].
    + specialize (IH s1 g i sd q1 raw bs1 HO1 HF1). cbv zeta in IH. destruct (run_trace stepI tr s1) as [log s2]. simpl in *.
      destruct IH as [(q2 & bs2 & HF2 & Hq2 & HB2)|(rs & disp & c' & o & HF2 & Hrs & Hc & Ho & HR & Hd)].
      * left. exists q2, bs2. split; [done|]. split; [auto|]. destruct HB1 as [->|(b0 & b & -> & -> & Hu & Hu' & Ea)]; [done|]. right.
        destruct HB2 as [->|(b1 & b2 & [= <-] & _ & Hu2 & _)]; [by exists b0, b|congruence].
      * right. exists rs, disp, c', o. split; [done|]. split; [by rewrite Hrs, (sameBindings_addresses _ _ HB1)|]. split; [by right|]. split; [done|]. split; [done|auto].
    + right. pose proof (gone_stays tr s1 g i _ _ _ _ HO1 HF1) as HG. destruct (run_trace stepI tr s1) as [log s2]. exists rs, disp, c, o. simpl in *.
      split; [done|]. split; [done|]. split; [by left|]. done.
Qed.
End Reach.
