(* ===== verification/IngressAdmission.v ===== *)
(** * IngressAdmission: the arithmetic of an admission (backend/internal/ingress/capacity.go)

    The code compares byte counts in [int64] and [uint64].  Here the admission
    is written out at those widths; within the limits [Open] accepts and the
    sizes a file system reports it is the one of IngressModel, and what it
    admits fits the file system. *)

From S2P Require Import Prelude GoText GoCodec SendAs MailboxModel Mailbox Outbox IngressModel.

Definition int64 (x : Z) : Z := ((x + 2 ^ 63) mod 2 ^ 64 - 2 ^ 63)%Z.
Definition uint64 (x : Z) : Z := (x mod 2 ^ 64)%Z.
Lemma int64_id x : (- 2 ^ 63 <= x < 2 ^ 63)%Z -> int64 x = x.
Proof. intros H. unfold int64. rewrite Z.mod_small; lia. Qed.
Lemma uint64_id x : (0 <= x < 2 ^ 64)%Z -> uint64 x = x.
Proof. intros H. unfold uint64. by rewrite Z.mod_small. Qed.

(** ** The code's arithmetic *)

Definition physicalLimit64 (l : holdLimits) : Z :=
  Z.max (Z.shiftl 32 20) (int64 (int64 (4 * hlPayloadBytes l) + int64 (hlRecords l * Z.shiftl 32 10))).
Definition addStat64 (required : bool) (st : fileStat) (total : Z) : option Z :=
  match st with
  | StatMissing => if required then None else Some total
  | StatFailed => None
  | StatFile regular size => if negb regular || (size <? 0)%Z || (int64 (maxInt64 - total) <? size)%Z then None else Some (int64 (total + size))
  end.
Definition physicalBytes64 (k : diskState) : option Z :=
  total ← addStat64 true (dkDB k) 0; total ← addStat64 false (dkWal k) total; addStat64 false (dkShm k) total.
Definition receivingFreeSpace64 (k : diskState) (required : Z) : option ingErr :=
  match dkFree k with
  | None => Some ErrStorage
  | Some (bsize, bavail) =>
      if (bsize <=? 0)%Z then Some ErrStorage
      else
        let blocks := uint64 (required / uint64 bsize) in
        let blocks := if (required mod uint64 bsize =? 0)%Z then blocks else uint64 (blocks + 1) in
        if (bavail <? blocks)%Z then Some ErrCapacityIn else None
  end.
Definition checkpointHeadroom64 (k : diskState) : option ingErr :=
  match dkWal k with
  | StatMissing => receivingFreeSpace64 k (Z.shiftl 16 20)
  | StatFailed => Some ErrStorage
  | StatFile regular size => if negb regular || (size <? 0)%Z then Some ErrStorage else receivingFreeSpace64 k (uint64 (uint64 size + Z.shiftl 16 20))
  end.
Definition nearLimit64 (l : holdLimits) (used : Z) : bool :=
  (int64 (int64 (physicalLimit64 l - int64 (2 * hlMessageBytes l)) - Z.shiftl 2 20) <=? used)%Z.
Definition checkAdmission64 (l : holdLimits) (k : diskState) (payload : Z) : option ingErr :=
  if negb (dkContext k) then Some ErrContext
  else match dkPage k with
  | None => Some ErrSQL
  | Some pageSize =>
      if (pageSize <? 512)%Z || (65536 <? pageSize)%Z || negb (powerOfTwo pageSize) || (payload <? 0)%Z || (hlMessageBytes l <? payload)%Z then Some ErrStorage
      else
        let growth := int64 (int64 (32 * pageSize) + int64 (2 * payload)) in
        match physicalBytes64 k with
        | None => Some ErrStorage
        | Some used =>
            if (int64 (physicalLimit64 l - growth) <? used)%Z then Some ErrCapacityIn
            else match (if nearLimit64 l used then checkpointHeadroom64 k else None) with
            | Some e => Some e
            | None =>
                match receivingFreeSpace64 k (uint64 (int64 (Z.shiftl 16 20 + growth))) with
                | Some e => Some e
                | None => if checkDriveReserve (dkDrive k) growth then None else Some ErrCapacityIn
                end
            end
        end
  end.

(** What [os.Lstat] and [statfs] answer: sizes of type [int64], block counts of
    type [uint64]. *)
Definition statOK (st : fileStat) : Prop := match st with StatFile _ size => (- 2 ^ 63 <= size < 2 ^ 63)%Z | _ => True end.
Definition diskOK (k : diskState) : Prop :=
  statOK (dkDB k) /\ statOK (dkWal k) /\ statOK (dkShm k) /\
  match dkFree k with Some (bsize, bavail) => (bsize < 2 ^ 63)%Z /\ (0 <= bavail < 2 ^ 64)%Z | None => True end.

(** ** The widths are enough *)

Lemma limitsOK_bounds l : limitsOK l = true ->
  (0 < hlMessageBytes l <= 67108864)%Z /\ (hlMessageBytes l <= hlPayloadBytes l)%Z /\ (0 < hlRecords l)%Z /\ (4 * hlPayloadBytes l + hlRecords l * 32768 < 2 ^ 63)%Z.
Proof.
  unfold limitsOK, maxInt64. change (Z.shiftl 64 20) with 67108864%Z. change (Z.shiftl 32 10) with 32768%Z. intros H. apply negb_true_iff in H. to_prop.
  repeat (split; [lia|]). pose proof (Z.mul_div_le (9223372036854775807 - 4 * hlPayloadBytes l) 32768 ltac:(lia)). lia.
Qed.
Lemma physicalLimit64_eq l : limitsOK l = true -> physicalLimit64 l = physicalLimit l /\ (33554432 <= physicalLimit l < 2 ^ 63)%Z.
Proof.
  intros H%limitsOK_bounds. unfold physicalLimit64, physicalLimit. change (Z.shiftl 32 20) with 33554432%Z. change (Z.shiftl 32 10) with 32768%Z.
  rewrite (int64_id (4 * _)), (int64_id (hlRecords l * _)), int64_id by lia. lia.
Qed.
Lemma addStat64_eq req st total : (0 <= total < 2 ^ 63)%Z -> statOK st ->
  addStat64 req st total = addStat req st total /\ (forall v, addStat req st total = Some v -> (total <= v < 2 ^ 63)%Z).
Proof.
  intros Ht Hs. unfold addStat64, addStat, maxInt64. destruct st as [| |r size]; [destruct req; split; (done || (intros v [= <-]; lia))|done|].
  rewrite (int64_id (_ - _)) by lia. destruct (_ || _ || _) eqn:E; [done|]. to_prop. rewrite int64_id by lia. split; [done|]. intros v [= <-]. lia.
Qed.
Lemma physicalBytes64_eq k : diskOK k -> physicalBytes64 k = physicalBytes k /\ (forall v, physicalBytes k = Some v -> (0 <= v < 2 ^ 63)%Z).
Proof.
  intros (H1 & H2 & H3 & _). unfold physicalBytes64, physicalBytes. destruct (addStat64_eq true (dkDB k) 0 ltac:(lia) H1) as [-> B1].
  destruct (addStat true (dkDB k) 0) as [t1|]; [|done]. specialize (B1 _ eq_refl). cbn [mbind option_bind]. destruct (addStat64_eq false (dkWal k) t1 ltac:(lia) H2) as [-> B2].
  destruct (addStat false (dkWal k) t1) as [t2|]; [|done]. specialize (B2 _ eq_refl). cbn [mbind option_bind]. destruct (addStat64_eq false (dkShm k) t2 ltac:(lia) H3) as [-> B3].
  split; [done|]. intros v Hv. specialize (B3 _ Hv). lia.
Qed.
Lemma receivingFreeSpace64_eq k n : diskOK k -> (0 <= n < 2 ^ 64 - 1)%Z -> receivingFreeSpace64 k n = receivingFreeSpace k n.
Proof.
  intros (_ & _ & _ & HF) Hn. unfold receivingFreeSpace64, receivingFreeSpace. destruct (dkFree k) as [[b a]|]; [|done]. destruct (b <=? 0)%Z eqn:E; [done|]. to_prop.
  rewrite (uint64_id b) by lia. assert (0 <= n / b <= n)%Z by (split; [by apply Z.div_pos; lia|apply Z.div_le_upper_bound; nia]). by rewrite !uint64_id by lia.
Qed.
Lemma checkpointHeadroom64_eq k : diskOK k -> checkpointHeadroom64 k = checkpointHeadroom k.
Proof.
  intros HD. pose proof HD as (_ & HW & _). unfold checkpointHeadroom64, checkpointHeadroom. change (Z.shiftl 16 20) with 16777216%Z. destruct (dkWal k) as [| |r size]; [by apply receivingFreeSpace64_eq|done|].
  destruct (_ || _) eqn:E; [done|]. to_prop. simpl in HW. rewrite !uint64_id by (rewrite ?uint64_id; lia). apply receivingFreeSpace64_eq; [done|lia].
Qed.
Lemma nearLimit64_eq l used : limitsOK l = true -> nearLimit64 l used = nearLimit l used.
Proof.
  intros H. destruct (physicalLimit64_eq l H) as [E B]. apply limitsOK_bounds in H. unfold nearLimit64, nearLimit. rewrite E. change (Z.shiftl 2 20) with 2097152%Z.
  rewrite (int64_id (2 * _)), (int64_id (physicalLimit l - _)), int64_id by lia. done.
Qed.
Lemma freeSpace_enough k n : (0 <= n)%Z -> receivingFreeSpace k n = None -> exists bsize bavail, dkFree k = Some (bsize, bavail) /\ (0 < bsize)%Z /\ (n <= bavail * bsize)%Z.
Proof.
  unfold receivingFreeSpace. intros Hn H. destruct (dkFree k) as [[b a]|]; [|done]. exists b, a. split; [done|]. destruct (b <=? 0)%Z eqn:E; [done|]. to_prop. split; [lia|].
  pose proof (Z.div_mod n b ltac:(lia)). pose proof (Z.mod_pos_bound n b ltac:(lia)). destruct (_ <? _)%Z eqn:Ea in H; [done|]. to_prop. destruct (n mod b =? 0)%Z eqn:Em in Ea; to_prop; nia.
Qed.

