(* ===== verification/IngressWorld.v ===== *)
(** * IngressWorld: importing held mail into the mailboxes (backend/internal/ingress/import.go)

    [deliver] claims a delivery, imports one copy per frozen owner and then
    acknowledges it: three kinds of transactions on different databases, with
    anything in between.  Each is an event of the world of the holding store,
    the mailboxes and the importers under way, so the theorems hold for every
    interleaving, crash and retry. *)

From stdpp Require Import gmap.
From S2P Require Import Prelude GoText GoCodec SendAs MailboxModel Mailbox MailboxIncoming Outbox MailboxRun MailboxHistory IngressModel Ingress.
From S2P Require Import IngressRun IngressInvariant IngressMoves IngressFate.

Record Owner := mkOwner { owIssuer : gostr; owSubject : gostr; owMailbox : gostr }.
#[export] Instance Owner_eq_dec : EqDecision Owner.
Proof. solve_decision. Defined.
#[export] Instance Owner_countable : Countable Owner.
Proof. refine (inj_countable' (fun o => (owIssuer o, owSubject o, owMailbox o)) (fun '(i, s, m) => mkOwner i s m) _). by intros []. Defined.

(** mailbox.open: who may own a mailbox. *)
Definition validOwner (o : Owner) : bool := validText (owIssuer o) 2048 && validText (owSubject o) 512 && safePathComponent (owMailbox o).

(** An importer between its transactions: the claimed delivery, and the owners
    still to serve. *)
Record task := mkTask { tkDelivery : Delivery; tkRelease : bool; tkFolder : gostr; tkTodo : list (Owner * list Recipient) }.
Record world := mkWorld { wStore : holding; wBoxes : gmap Owner mailbox; wTasks : gmap nat task }.

(** What [resolve] answers: an error, nil, or the store of an owner. *)
Inductive resolution := RFailed | RNone | RStore (o : Owner).

Inductive event :=
  | EvStore (c : ingCall)
  | EvCreate (o : Owner)
  | EvMailbox (o : Owner) (l : Limits) (account : gostr) (master : list Z) (c : mbCall)
  | EvStart (k handle : nat) (now : Z) (up release : bool) (folder : gostr) (token : option gostr) (gateway id : gostr)
  | EvImport (k : nat) (r : resolution) (l : Limits) (now : Z) (space : option (Z * Z)) (up : bool)
  | EvFinish (k handle : nat) (now : Z) (up : bool)
  | EvCrash (k : nat).

Section World.
Context {U : Unicode} {SS : SortSlice} {SSL : SortSliceLaws} {ML : MailLib} {GF : GoTimeFormat} {OL : OutboxLib} {RO : RangeOrder} {ROL : RangeOrderLaws}.

(** ** deliver *)

Definition ownerOf (b : Binding) : Owner := mkOwner (bIssuer b) (bSubject b) (bMailbox b).
Definition recipientOf (b : Binding) : Recipient := mkRecipient (bAddress b) (bGeneration b).
(** [groups[owner] = append(groups[owner], ...)]. *)
Definition addRecipient (groups : gmap Owner (list Recipient)) (b : Binding) : gmap Owner (list Recipient) :=
  <[ownerOf b := default [] (groups !! ownerOf b) ++ [recipientOf b]]> groups.
Definition ownerLess (a b : Owner) : bool :=
  if negb (owIssuer a =s? owIssuer b) then strLtb (owIssuer a) (owIssuer b)
  else if negb (owSubject a =s? owSubject b) then strLtb (owSubject a) (owSubject b)
  else strLtb (owMailbox a) (owMailbox b).
Definition ownersOf (bs : list Binding) : list (Owner * list Recipient) :=
  let groups := foldl addRecipient ∅ bs in
  let owners := sort_slice _ ownerLess (range_order _ (fst <$> map_to_list groups)) in
  (fun o => (o, default [] (groups !! o))) <$> owners.

Definition startTask (release : bool) (folder : gostr) (d : Delivery) : res ingErr task :=
  if negb (hashIncoming (dvRaw d) =s? dvDigest d) then Err ErrConflictIn
  else Ok (mkTask d release folder (ownersOf (dvBindings d))).
Definition taskReceipt (t : task) (rcpts : list Recipient) : Receipt :=
  mkReceipt (dvGateway (tkDelivery t)) (dvID (tkDelivery t)) (dvSender (tkDelivery t)) rcpts (tkFolder t).
Definition fiveMinutes : Z := 300000000000.

Definition setStore (s : holding) (w : world) : world := mkWorld s (wBoxes w) (wTasks w).
Definition setBox (o : Owner) (b : mailbox) (w : world) : world := mkWorld (wStore w) (<[o := b]> (wBoxes w)) (wTasks w).
Definition setTask (k : nat) (t : option task) (w : world) : world := mkWorld (wStore w) (wBoxes w) (partial_alter (fun _ => t) k (wTasks w)).

(** Import the copy of the next owner; an error ends the importer. *)
Definition importNext (k : nat) (r : resolution) (l : Limits) (now : Z) (space : option (Z * Z)) (up : bool) (t : task) (w : world) : res ingErr unit * world :=
  match tkTodo t with
  | [] => (Err ErrStorage, w)
  | (owner, rcpts) :: todo =>
      match r with
      | RFailed => (Err ErrResolve, setTask k None w)
      | RNone => (Err ErrStorage, setTask k None w)
      | RStore o =>
          if negb (bool_decide (o = owner)) then (Err (ErrMailbox ErrOwnerMB), setTask k None w)
          else match wBoxes w !! owner with
          | None => (Err ErrResolve, setTask k None w)
          | Some box =>
              match stepM l [] [] (mkCall now space up (OImport (taskReceipt t rcpts) (Some (dvRaw (tkDelivery t))))) box with
              | (Err e, box) => (Err (ErrMailbox e), setTask k None (setBox owner box w))
              | (Ok _, box) => (Ok tt, setTask k (Some (mkTask (tkDelivery t) (tkRelease t) (tkFolder t) todo)) (setBox owner box w))
              end
          end
      end
  end.

Definition stepW (e : event) (w : world) : res ingErr unit * world :=
  match e with
  | EvStore c => let '(r, s) := stepI c (wStore w) in (match r with Ok _ => Ok tt | Err e => Err e end, setStore s w)
  | EvCreate o => if validOwner o && bool_decide (wBoxes w !! o = None) then (Ok tt, setBox o newMailbox w) else (Err ErrStorage, w)
  | EvMailbox o l account master c =>
      match wBoxes w !! o with
      | None => (Err ErrStorage, w)
      | Some box => let '(r, box) := stepM l account master c box in (match r with Ok _ => Ok tt | Err e => Err (ErrMailbox e) end, setBox o box w)
      end
  | EvStart k h now up release folder token g i =>
      match wTasks w !! k with
      | Some _ => (Err ErrStorage, w)
      | None =>
          match stepI (Call h now up (IClaim fiveMinutes release token g i)) (wStore w) with
          | (Ok (ADelivery d), s) => match startTask release folder d with
                                     | Ok t => (Ok tt, setTask k (Some t) (setStore s w))
                                     | Err e => (Err e, setStore s w)
                                     end
          | (Err e, s) => (Err e, setStore s w)
          | (_, s) => (Err ErrSQL, setStore s w)
          end
      end
  | EvImport k r l now space up => match wTasks w !! k with Some t => importNext k r l now space up t w | None => (Err ErrStorage, w) end
  | EvFinish k h now up =>
      match wTasks w !! k with
      | Some t =>
          if bool_decide (tkTodo t = []) then
            let d := tkDelivery t in
            let '(r, s) := stepI (Call h now up (IAcknowledge (tkRelease t) (dvGateway d) (dvID d) (dvLease d) (dvDigest d))) (wStore w) in
            (match r with Ok _ => Ok tt | Err e => Err e end, setTask k None (setStore s w))
          else (Err ErrStorage, w)
      | None => (Err ErrStorage, w)
      end
  | EvCrash k => (Ok tt, setTask k None w)
  end.

(** [deliver], nothing in between: how each owner resolves, and the clocks. *)
Definition deliver (k handle : nat) (clock : nat -> Z) (limits : Owner -> Limits) (release : bool) (folder : gostr) (token : option gostr)
    (gateway id : gostr) (owners : list Owner) : list event :=
  EvStart k handle (clock 0%nat) true release folder token gateway id
  :: (imap (fun n o => EvImport k (RStore o) (limits o) (clock (S n)) None true) owners ++ [EvFinish k handle (clock (S (length owners))) true]).

Definition newWorld (l : holdLimits) : world := mkWorld (newHolding l) ∅ ∅.
End World.
