(* ===== verification/IngressDeliver.v ===== *)
(** * IngressDeliver: every frozen owner gets its copy, once *)

From stdpp Require Import gmap.
From S2P Require Import Prelude GoText GoCodec SendAs MailboxModel Mailbox MailboxIncoming Outbox MailboxRun MailboxInvariant MailboxHistory.
From S2P Require Import IngressModel Ingress IngressRun IngressInvariant IngressMoves IngressFate IngressWorld.

Section Deliver.
Context {U : Unicode} {SS : SortSlice} {SSL : SortSliceLaws} {ML : MailLib} {GF : GoTimeFormat} {OL : OutboxLib} {RO : RangeOrder} {ROL : RangeOrderLaws}.

(** ** Grouping *)

Definition grouped (groups : gmap Owner (list Recipient)) (b : Binding) : Prop := exists rs, groups !! ownerOf b = Some rs /\ recipientOf b ∈ rs.
Lemma grouped_add groups b b' : grouped groups b \/ b = b' -> grouped (addRecipient groups b') b.
Proof.
  unfold grouped, addRecipient. destruct (decide (ownerOf b = ownerOf b')) as [E|E].
  - rewrite E, lookup_insert, decide_True by done. intros H. eexists. split; [done|]. apply elem_of_app. destruct H as [(rs & -> & Hr)| ->]; [by left|right; set_solver].
  - rewrite lookup_insert_ne by done. intros [H| ->]; done.
Qed.
Lemma grouped_all bs : forall groups b, grouped groups b \/ b ∈ bs -> grouped (foldl addRecipient groups bs) b.
Proof.
  induction bs as [|b' bs IH]; intros groups b H; simpl; [destruct H as [H|[]%elem_of_nil]; done|]. apply IH.
  destruct H as [H|[->|H]%elem_of_cons]; [left; apply grouped_add; by left|left; apply grouped_add; by right|by right].
Qed.
Lemma ownersOf_covers bs b : b ∈ bs -> exists rs, (ownerOf b, rs) ∈ ownersOf bs /\ recipientOf b ∈ rs.
Proof.
  intros Hb. destruct (grouped_all bs ∅ b (or_intror Hb)) as (rs & Hrs & Hr). exists rs. split; [|done]. unfold ownersOf.
  apply list_elem_of_fmap. exists (ownerOf b). rewrite Hrs. split; [done|]. rewrite sort_slice_perm, (range_order_perm _ _). apply list_elem_of_fmap. exists (ownerOf b, rs).
  split; [done|]. by apply elem_of_map_to_list.
Qed.

(** ** The invariant of the world *)

(** A binding whose owner's mailbox holds the delivery. *)
Definition served (w : world) (g i digest : gostr) (b : Binding) : Prop :=
  exists box row, wBoxes w !! ownerOf b = Some box /\ find_first (isReceipt g i) (receipts box) = Some row /\
    rrDigest row = digest /\ recipientOf b ∈ rRecipients (rrEnvelope row).
Record taskOK (w : world) (t : task) : Prop := {
  tk_hash : hashIncoming (dvRaw (tkDelivery t)) = dvDigest (tkDelivery t);
  tk_fate : exists bs, dvBindings (tkDelivery t) ≡ₚ bs /\
    ((exists q bs', fateOf (dvGateway (tkDelivery t)) (dvID (tkDelivery t)) (hoSpool (wStore w)) = HeldAs (dvSender (tkDelivery t)) q (dvRaw (tkDelivery t)) bs' /\ sameBindings bs bs') \/
     exists dg rs disp, fateOf (dvGateway (tkDelivery t)) (dvID (tkDelivery t)) (hoSpool (wStore w)) = GoneAs (dvSender (tkDelivery t)) dg rs disp);
  tk_cover b : b ∈ dvBindings (tkDelivery t) -> (exists rs, (ownerOf b, rs) ∈ tkTodo t /\ recipientOf b ∈ rs) \/
    served w (dvGateway (tkDelivery t)) (dvID (tkDelivery t)) (dvDigest (tkDelivery t)) b;
}.
Record worldOK (w : world) : Prop := {
  wo_store : holdingOK (wStore w);
  wo_boxes o box : wBoxes w !! o = Some box -> validOwner o = true /\ receiptsOK box;
  wo_tasks k t : wTasks w !! k = Some t -> taskOK w t;
}.

Lemma newWorld_ok l : limitsOK l = true -> worldOK (newWorld l).
Proof. intros H. split; [by apply newHolding_ok|intros ? ? H1; simpl in H1; by rewrite lookup_empty in H1..]. Qed.

Lemma sameBindings_trans a b c : sameBindings a b -> sameBindings b c -> sameBindings a c.
Proof.
  intros [->|(x & y & -> & -> & Hx & Hy & E)] H; [done|]. right. destruct H as [->|(y' & z & [= <-] & _ & Hy' & _)]; [by exists x, y|congruence].
Qed.

(** The world moved on: boxes only gained, the store made calls. *)
Definition later (w w' : world) : Prop :=
  (forall o box, wBoxes w !! o = Some box -> exists box', wBoxes w' !! o = Some box' /\ history box box') /\
  (wStore w' = wStore w \/ exists c, wStore w' = (stepI c (wStore w)).2).
Lemma served_later w w' g i dg b : later w w' -> served w g i dg b -> served w' g i dg b.
Proof.
  intros [HB _] (box & row & Hb & Hr & Hd & He). destruct (HB _ _ Hb) as (box' & Hb' & HH). exists box', row. split; [done|]. split; [|done].
  eapply find_first_prefix; [apply HH|done].
Qed.
Lemma taskOK_later w w' t : holdingOK (wStore w) -> later w w' -> taskOK w t -> taskOK w' t.
Proof.
  intros HO HL [H1 (bs & HP & H2) H3]. split; [done| |].
  - exists bs. split; [done|]. destruct HL as [_ [->|[c ->]]]; [done|]. pose proof (held_kept [c] (wStore w)) as HK. pose proof (gone_stays [c] (wStore w)) as HG.
    simpl in HK, HG. destruct (stepI c (wStore w)) as [r s1]. simpl in *. destruct H2 as [(q & bs' & Hf & Hs)|(dg & rs & disp & Hf)].
    + destruct (HK _ _ _ _ _ _ HO Hf) as [(q' & bs'' & Hf' & _ & Hs')|(rs & disp & _ & _ & Hf' & _)]; [left|right; eauto].
      exists q', bs''. split; [done|]. by eapply sameBindings_trans.
    + right. specialize (HG _ _ _ _ _ _ HO Hf). eauto.
  - intros b Hb. destruct (H3 b Hb) as [H|H]; [by left|right; by eapply served_later].
Qed.

(** Boxes and store after an event; the tasks that remain are old ones or the
    ones shown. *)
Lemma worldOK_step w w' : worldOK w -> later w w' -> holdingOK (wStore w') ->
  (forall o box, wBoxes w' !! o = Some box -> validOwner o = true /\ receiptsOK box) ->
  (forall k t, wTasks w' !! k = Some t -> wTasks w !! k = Some t \/ taskOK w' t) -> worldOK w'.
Proof.
  intros [HS HB HT] HL HS' HB' HT'. split; [done|done|]. intros k t Hk. destruct (HT' k t Hk) as [H|H]; [|done]. apply (taskOK_later w w'); [done|done|by eapply HT].
Qed.
Lemma later_store c w : later w (setStore (stepI c (wStore w)).2 w).
Proof. split; [|right; by exists c]. intros o box H. exists box. split; [done|apply history_refl]. Qed.
Lemma later_task k t w : later w (setTask k t w).
Proof. split; [|by left]. intros o box H. exists box. split; [done|apply history_refl]. Qed.
Lemma later_box o box box' w : wBoxes w !! o = Some box -> history box box' -> later w (setBox o box' w).
Proof.
  intros Hb HH. split; [|by left]. intros o' b Ho'. simpl. destruct (decide (o = o')) as [<-|Hne]; [|rewrite lookup_insert_ne by done; exists b; split; [done|apply history_refl]].
  rewrite lookup_insert, decide_True by done. eexists. split; [done|]. rewrite Hb in Ho'. by injection Ho' as <-.
Qed.
Lemma later_trans_box w w1 w2 : later w w1 -> wBoxes w2 = wBoxes w1 -> wStore w2 = wStore w1 -> later w w2.
Proof. intros [H1 H2] E1 E2. split; [by rewrite E1|by rewrite E2]. Qed.

Lemma task_lookup k k' t t' w : wTasks (setTask k t w) !! k' = Some t' -> (k' = k /\ t = Some t') \/ (k' ≠ k /\ wTasks w !! k' = Some t').
Proof. simpl. destruct (decide (k' = k)) as [->|Hne]; [rewrite lookup_partial_alter, decide_True by done; auto|]. rewrite lookup_partial_alter_ne by done. auto. Qed.

(** A claimed delivery starts an importer. *)
Lemma start_task w s1 h now up release folder token g i d t : worldOK w ->
  stepI (Call h now up (IClaim fiveMinutes release token g i)) (wStore w) = (Ok (ADelivery d), s1) -> startTask release folder d = Ok t ->
  taskOK (setStore s1 w) t /\ tkDelivery t = d /\ dvGateway d = g /\ dvID d = i /\ tkRelease t = release.
Proof.
  intros HW E HT. unfold startTask in HT. destruct (negb _) eqn:Eh in HT; [done|]. injection HT as <-. to_prop. simpl.
  pose proof (stepI_cases _ _ _ _ (wo_store w HW) E) as [HO1 _]. simpl in E. destruct (hoHandles (wStore w) !! h) as [l|]; [|done].
  destruct (callIng l now up _ (hoSpool (wStore w))) as [r1 d1] eqn:E1. injection E as -> <-. unfold callIng in E1.
  destruct (commit ErrSQL up _ (hoSpool (wStore w))) as [r2 d2] eqn:E2. destruct r2 as [r2|e]; [|done]. injection E1 as -> ->.
  apply commit_ok in E2 as [(e & [=] & _)|(a & [= <-] & E2 & _)]. cbn [runIng] in E2. unfold graded in E2.
  apply bind_ok in E2 as (r & d2 & E2 & [Er ->]%ret_ok). apply (claimHeld_ok l) in E2 as (row & Hf & HM & Hst & Hu & Hc); [|apply HW].
  destruct Hc as [(-> & _)|(lease & raw & Htok & Hraw & Hcur & -> & ->)]; [done|]. injection Er as ->. simpl. split; [|done].
  split; simpl; [done| |].
  - exists (boundTo g i (hoSpool (wStore w))). split; [apply readBindings_perm|]. left. exists release, (boundTo g i (hoSpool (wStore w))). split; [|by left].
    unfold fateOf. simpl. rewrite find_update_held, Hf by done. simpl. pose proof Hf as [_ ->]%find_first_Some. simpl. rewrite Hraw, Hst. by destruct release.
  - intros b Hb. left. by apply ownersOf_covers.
Qed.

Lemma import_task w k o rcpts todo t box box' l now space up a : worldOK w -> wTasks w !! k = Some t -> tkTodo t = (o, rcpts) :: todo -> wBoxes w !! o = Some box ->
  stepM l [] [] (mkCall now space up (OImport (taskReceipt t rcpts) (Some (dvRaw (tkDelivery t))))) box = (Ok a, box') ->
  taskOK (setTask k (Some (mkTask (tkDelivery t) (tkRelease t) (tkFolder t) todo)) (setBox o box' w)) (mkTask (tkDelivery t) (tkRelease t) (tkFolder t) todo).
Proof.
  intros HW Hk Ht Hb E. set (w' := setTask _ _ _). pose proof (wo_tasks w HW k t Hk) as HT.
  assert (HH : history box box') by (pose proof (history_run l [] [] [mkCall now space up (OImport (taskReceipt t rcpts) (Some (dvRaw (tkDelivery t))))] box) as HH; simpl in HH; by rewrite E in HH).
  assert (HL : later w w') by (eapply later_trans_box; [by eapply later_box|done|done]). destruct (taskOK_later w w' t (wo_store w HW) HL HT) as [H1 H2 H3].
  split; [done|done|]. cbn [tkDelivery tkTodo] in *. intros b Hb0. destruct (H3 b Hb0) as [(rs & Hin & Hr)|HS]; [|by right].
  rewrite Ht in Hin. apply elem_of_cons in Hin as [[= Ho ->]|Hin]; [|left; eauto]. right.
  apply stepM_ok in E as [(e & [=] & _)|(x & _ & E & _)]. cbn [callOp callNow callSpace runOp] in E. unfold idAns in E. apply bind_ok in E as (id & d1 & E & [_ ->]%ret_ok).
  apply import_ok in E as (e & raw & row & He & [= <-] & _ & Hrow & Hen & Hdg & _). cbn [taskReceipt rGateway rDelivery] in Hrow.
  exists d1, row. split; [rewrite Ho; unfold w'; simpl; by rewrite lookup_insert, decide_True|]. split; [done|]. split; [congruence|]. rewrite Hen.
  unfold canonicalReceipt in He. cbn [taskReceipt rGateway rDelivery rSender rRecipients] in He. destruct (_ || _) in He; [done|]. destruct (_ && _) in He; [done|].
  destruct (checkRecipients _ _) in He; [|done]. injection He as <-. simpl. by rewrite sort_slice_perm.
Qed.

Lemma stepW_ok e w : worldOK w -> worldOK (stepW e w).2 /\ later w (stepW e w).2.
Proof.
  intros HW. assert (HR : worldOK w /\ later w w) by (split; [done|]; split; [|by left]; intros o box H; exists box; split; [done|apply history_refl]).
  assert (HST : forall c, worldOK (setStore (stepI c (wStore w)).2 w) /\ later w (setStore (stepI c (wStore w)).2 w)).
  { intros c. pose proof (later_store c w) as HL. split; [|done]. eapply worldOK_step; [done|done|by apply stepI_ok, HW|by apply HW|]. intros k t Hk. by left. }
  assert (HDR : forall k w1, worldOK w1 /\ later w w1 -> worldOK (setTask k None w1) /\ later w (setTask k None w1)).
  { intros k w1 [H1 H2]. split; [|by eapply later_trans_box]. eapply worldOK_step; [done|apply later_task|apply H1|apply H1|].
    intros k' t [[_ [=]]|[_ H]]%task_lookup. by left. }
  assert (HBX : forall o box l ac ms c, wBoxes w !! o = Some box -> worldOK (setBox o (stepM l ac ms c box).2 w) /\ later w (setBox o (stepM l ac ms c box).2 w)).
  { intros o box l ac ms c Hb. assert (HH : history box (stepM l ac ms c box).2) by (pose proof (history_run l ac ms [c] box) as HH; simpl in HH; by destruct (stepM l ac ms c box)).
    pose proof (later_box o box _ w Hb HH) as HL. split; [|done]. eapply worldOK_step; [done|done|apply HW| |intros k t Hk; by left]. intros o' b Ho'. simpl in Ho'.
    destruct (decide (o = o')) as [<-|Hne]; [|rewrite lookup_insert_ne in Ho' by done; by apply (wo_boxes w HW)]. rewrite lookup_insert, decide_True in Ho' by done. injection Ho' as <-.
    split; [by apply (wo_boxes w HW o box)|]. apply receiptsOK_step. by apply (wo_boxes w HW o box). }
  destruct e as [c|o|o l ac ms c|k h now up release folder token g i|k r l now space up|k h now up|k]; cbn [stepW].
  - specialize (HST c). by destruct (stepI c (wStore w)).
  - destruct (_ && _) eqn:E; [|done]. to_prop. assert (HL : later w (setBox o newMailbox w)).
    { split; [|by left]. intros o' b Ho'. simpl. rewrite lookup_insert_ne by congruence. exists b. split; [done|apply history_refl]. }
    split; [|done]. eapply worldOK_step; [done|done|apply HW| |intros k t Hk; by left]. intros o' b Ho'. simpl in Ho'.
    destruct (decide (o = o')) as [<-|Hne]; [|rewrite lookup_insert_ne in Ho' by done; by apply (wo_boxes w HW)]. rewrite lookup_insert, decide_True in Ho' by done. injection Ho' as <-.
    split; [done|apply receiptsOK_new].
  - destruct (wBoxes w !! o) as [box|] eqn:Hb; [|done]. specialize (HBX o box l ac ms c Hb). by destruct (stepM l ac ms c box).
  - destruct (wTasks w !! k) eqn:Hk; [done|]. specialize (HST (Call h now up (IClaim fiveMinutes release token g i))).
    destruct (stepI _ (wStore w)) as [r s1] eqn:E. cbn [snd] in HST. destruct r as [[| |]|]; [done| |done|done].
    destruct (startTask release folder d) as [t|] eqn:Et; [|done]. destruct (start_task w s1 h now up release folder token g i d t HW E Et) as (HT & _).
    assert (HL : later w (setTask k (Some t) (setStore s1 w))) by (eapply later_trans_box; [apply HST|done|done]).
    split; [|done]. destruct HST as [HS1 _]. eapply worldOK_step; [exact HW|done|apply HS1|apply HS1|].
    intros k' t' [[_ [= <-]]|[_ H]]%task_lookup; [right|by left]. destruct HT as [H1 H2 H3]. by split.
  - destruct (wTasks w !! k) as [t|] eqn:Hk; [|done]. unfold importNext. destruct (tkTodo t) as [|[o rcpts] todo] eqn:Ht; [done|].
    destruct r as [| |o']; [by apply HDR|by apply HDR|]. destruct (negb _); [by apply HDR|]. destruct (wBoxes w !! o) as [box|] eqn:Hb; [|by apply HDR].
    specialize (HBX o box l [] [] (mkCall now space up (OImport (taskReceipt t rcpts) (Some (dvRaw (tkDelivery t))))) Hb).
    destruct (stepM _ _ _ _ box) as [r box'] eqn:E. cbn [snd] in HBX. destruct r as [a|e]; [|by apply HDR].
    pose proof (import_task w k o rcpts todo t box box' l now space up a HW Hk Ht Hb E) as HT. destruct HBX as [HB1 HL1].
    assert (HL : later w (setTask k (Some (mkTask (tkDelivery t) (tkRelease t) (tkFolder t) todo)) (setBox o box' w))) by (eapply later_trans_box; done).
    split; [|done]. eapply worldOK_step; [exact HW|done|apply HB1|apply HB1|]. intros k' t' [[-> [= <-]]|[_ H]]%task_lookup; [by right|by left].
  - destruct (wTasks w !! k) as [t|] eqn:Hk; [|done]. case_bool_decide; [|done].
    specialize (HST (Call h now up (IAcknowledge (tkRelease t) (dvGateway (tkDelivery t)) (dvID (tkDelivery t)) (dvLease (tkDelivery t)) (dvDigest (tkDelivery t))))).
    destruct (stepI _ (wStore w)) as [r s1]. by apply HDR.
  - by apply HDR.
Qed.
Lemma runW_ok evs : forall w, worldOK w -> worldOK (run_trace stepW evs w).2.
Proof.
  induction evs as [|e evs IH]; intros w H; simpl; [done|]. pose proof (stepW_ok e w H) as [H1 _]. destruct (stepW e w) as [r w1]. specialize (IH w1 H1).
  by destruct (run_trace stepW evs w1).
Qed.
Lemma served_run evs : forall w g i dg b, worldOK w -> served w g i dg b -> served (run_trace stepW evs w).2 g i dg b.
Proof.
  induction evs as [|e evs IH]; intros w g i dg b HW H; simpl; [done|]. pose proof (stepW_ok e w HW) as [H1 HL]. destruct (stepW e w) as [r w1].
  specialize (IH w1 g i dg b H1 (served_later _ _ _ _ _ _ HL H)). by destruct (run_trace stepW evs w1).
Qed.
End Deliver.

(** ** An undisturbed delivery completes (backend/internal/ingress/import.go)

    With a lease free, bindings current, and mailboxes that take the import,
    [deliver] runs to its end: nothing in its own steps can leave the mail behind. *)

Section Live.
Context {U : Unicode} {SS : SortSlice} {SSL : SortSliceLaws} {ML : MailLib} {GF : GoTimeFormat} {OL : OutboxLib} {RO : RangeOrder} {ROL : RangeOrderLaws}.

Lemma claim_runs now dur (q : bool) lease g i d row raw : find_first (isHeld g i) (spHeld d) = Some row -> hRaw row = Some raw ->
  hState row = (if q then $"quarantined" else $"pending") -> (hLeaseUntil row <= unix now)%Z -> (1000000000 <= dur <= 300000000000)%Z ->
  (q = false -> currentBindings now g i d = true) ->
  claim now dur q (Some lease) g i d = Ok (Ok (mkHeldDelivery g i (hSender row) (hDigest row) raw (hState row) (readBindings g i d) lease []),
    setHeld (updateWhere (isHeld g i) (leased lease (unix (now + dur))) (spHeld d)) d).
Proof.
  intros Hf Hr Hs Hu Hd Hc. unfold claim. replace ((dur <? 1000000000)%Z || (300000000000 <? dur)%Z) with false by lia.
  unfold readDelivery, mbind, Tx_bind, select, mret, Tx_ret, updateHeld, exec. rewrite Hf. cbn [dvState dvSender dvDigest dvRaw dvBindings]. rewrite Hr.
  rewrite (bool_decide_eq_true_2 (hState row = _) Hs). cbn [negb]. rewrite Hf. replace (unix now <? hLeaseUntil row)%Z with false by lia.
  replace (negb (currentBindings now g i d) && negb q) with false by (destruct q; [by rewrite andb_false_r|by rewrite Hc]). done.
Qed.

(** One row satisfies an update's condition; a delivery has recipients, and no
    tombstone while it is held. *)
Lemma archive_runs d g i row now disp p : spoolOK d -> find_first (isHeld g i) (spHeld d) = Some row -> p row = true -> (forall r, p r = true -> isHeld g i r = true) ->
  exists d', archive false now disp p d = Ok (tt, d').
Proof.
  intros HS Hrow Hp Himp. destruct (updateHeld_one d g i row p (fun r => r) HS Hrow Hp Himp) as (_ & HF & _). unfold archive, mbind, Tx_bind, select. rewrite HF. cbn [insertTombs].
  pose proof Hrow as [Hin [= Hg Hi]%isHeld_spec]%find_first_Some. rewrite Hg, Hi. unfold mbind, Tx_bind, select, exec, mret, Tx_ret.
  assert (HT : recipientsText g i d <> None).
  { unfold recipientsText. pose proof (proj1 (Forall_forall _ _) (sp_bound d HS) row Hin) as HB. simpl in HB. rewrite Hg, Hi in HB.
    destruct (bAddress <$> readBindings g i d) as [|a l] eqn:E; [|done]. apply (f_equal length) in E. rewrite length_fmap, readBindings_perm, length_fmap in E. simpl in E. exfalso. lia. }
  destruct (recipientsText g i d) as [text|]; [|done]. assert (existsb (isTomb g i) (spArchived d) = false) as ->.
  { apply not_true_is_false. intros (t & Ht & E)%existsb_exists. apply list_elem_of_In in Ht. pose proof (proj1 (Forall_forall _ _) (sp_fresh d HS) t Ht) as HF2. simpl in HF2.
    apply isTomb_spec in E. injection E as Eg Ei. rewrite Eg, Ei in HF2. apply held_none in HF2. congruence. }
  eexists. reflexivity.
Qed.
Lemma acknowledge_runs now (q : bool) g i lease digest d row : spoolOK d -> find_first (isHeld g i) (spHeld d) = Some row ->
  hState row = (if q then $"quarantined" else $"pending") -> hDigest row = digest -> hLease row = lease -> lease ≠ [] -> digest ≠ [] -> (unix now < hLeaseUntil row)%Z ->
  (q = false -> currentBindings now g i d = true) -> exists d', acknowledge now q g i lease digest d = Ok (Ok tt, d').
Proof.
  intros HS Hf Hs Hd Hl Hne Hdn Hu Hc. unfold acknowledge. rewrite !bool_decide_false by done. unfold mbind at 1, Tx_bind at 1, select at 1. cbn [orb]. rewrite Hf.
  rewrite Hd, Hl, !bool_decide_true by done. cbn [negb orb]. replace (hLeaseUntil row <=? unix now)%Z with false by lia.
  unfold mbind at 1, Tx_bind at 1, select at 1. replace (negb (currentBindings now g i d) && negb q) with false by (destruct q; [by rewrite andb_false_r|by rewrite Hc]).
  unfold mbind, Tx_bind. edestruct (archive_runs d g i row) as [d' Hd']; [done|done| | |exists d'; by rewrite Hd'].
  - apply andb_true_iff. split; [by apply find_first_Some in Hf as [_ ?]|by apply bool_decide_eq_true].
  - by intros r [? _]%andb_true_iff.
Qed.
Lemma hash_nonempty raw : length (sha256Bytes raw) = 32%nat -> hashIncoming raw ≠ [].
Proof. unfold hashIncoming. by destruct (sha256Bytes raw). Qed.

Lemma call_runs l h now o s a d' : hoHandles s !! h = Some l -> runIng l now o (hoSpool s) = Ok (Ok a, d') ->
  stepI (Call h now true o) s = (Ok a, mkHolding d' (hoHandles s)).
Proof. intros Hh Hr. cbn [stepI]. rewrite Hh. unfold callIng, commit. cbn [negb]. by rewrite Hr. Qed.

(** ** The imports *)

Lemma imports_run k (limits : Owner -> Limits) dv q folder todo : forall (clock : nat -> Z) w,
  wTasks w !! k = Some (mkTask dv q folder todo) -> NoDup (fst <$> todo) ->
  (forall n o rcpts, todo !! n = Some (o, rcpts) -> exists box a box', wBoxes w !! o = Some box /\ stepM (limits o) [] [] (mkCall (clock n) None true (OImport (mkReceipt (dvGateway dv) (dvID dv) (dvSender dv) rcpts folder) (Some (dvRaw dv)))) box = (Ok a, box')) ->
  let out := run_trace stepW (imap (fun n o => EvImport k (RStore o) (limits o) (clock n) None true) (fst <$> todo)) w in
  Forall (fun x => x.2 = Ok tt) out.1 /\ wStore out.2 = wStore w /\ wTasks out.2 !! k = Some (mkTask dv q folder []).
Proof.
  induction todo as [|[o rcpts] todo IH]; intros clock w Hk HN Hin; [done|]. rewrite fmap_cons in *. cbn [fst] in *. rewrite imap_cons. apply NoDup_cons in HN as [Ho HN].
  destruct (Hin 0%nat o rcpts eq_refl) as (box & a & box' & Hb & E). cbn [run_trace stepW]. rewrite Hk. unfold importNext. cbn [tkTodo].
  rewrite bool_decide_true by done. cbn [negb]. rewrite Hb. unfold taskReceipt. cbn [tkDelivery tkFolder tkRelease]. rewrite E. set (w1 := setTask _ _ _).
  specialize (IH (fun n => clock (S n)) w1). cbv zeta in IH. destruct IH as (HF & HS & HT); [|done| |].
  - simpl. by rewrite lookup_partial_alter, decide_True.
  - intros n o' rcpts' Hin'. destruct (Hin (S n) o' rcpts' Hin') as (b' & a' & c' & Hb' & E'). exists b', a', c'. split; [|done]. simpl. rewrite lookup_insert_ne; [done|].
    intros <-. apply Ho. apply list_elem_of_fmap. exists (o, rcpts'). split; [done|]. by eapply list_elem_of_lookup_2.
  - match goal with |- context [run_trace stepW ?l w1] => change l with (imap (fun n o => EvImport k (RStore o) (limits o) (clock (S n)) None true) (fst <$> todo)) end.
    destruct (run_trace stepW _ w1) as [log w2]. simpl in *. split; [by constructor|]. by rewrite HS.
Qed.
Lemma ownersOf_NoDup bs : NoDup (fst <$> ownersOf bs).
Proof.
  unfold ownersOf. rewrite <- list_fmap_compose. rewrite (list_fmap_ext _ id) by done. rewrite list_fmap_id, sort_slice_perm, (range_order_perm _ _). apply NoDup_fst_map_to_list.
Qed.
(** (C33) An undisturbed delivery completes: once nobody holds the lease and the
    bindings stay current (for an import), [deliver] runs to its end within its
    lease when the owners' mailboxes take their copies, every step answers no
    error, the importer is gone, and the tombstone says imported or released. *)
Theorem deliver_completes l0 evs k h l (clock : nat -> Z) (limits : Owner -> Limits) (q : bool) folder lease g i row raw : limitsOK l0 = true ->
  let w := (run_trace stepW evs (newWorld l0)).2 in let d := hoSpool (wStore w) in let owners := ownersOf (readBindings g i d) in
  wTasks w !! k = None -> hoHandles (wStore w) !! h = Some l ->
  find_first (isHeld g i) (spHeld d) = Some row -> hRaw row = Some raw -> hState row = (if q then $"quarantined" else $"pending") ->
  (hLeaseUntil row <= unix (clock 0%nat))%Z -> (unix (clock (S (length owners))) < unix (clock 0%nat + fiveMinutes))%Z -> lease ≠ [] ->
  length (sha256Bytes raw) = 32%nat -> (q = false -> currentBindings (clock 0%nat) g i d = true /\ currentBindings (clock (S (length owners))) g i d = true) ->
  (forall n o rcpts, owners !! n = Some (o, rcpts) -> exists box a box', wBoxes w !! o = Some box /\
     stepM (limits o) [] [] (mkCall (clock (S n)) None true (OImport (mkReceipt g i (hSender row) rcpts folder) (Some raw))) box = (Ok a, box')) ->
  let out := run_trace stepW (deliver k h clock limits q folder (Some lease) g i (fst <$> owners)) w in
  Forall (fun x => x.2 = Ok tt) out.1 /\ wTasks out.2 !! k = None /\
  exists rs, fateOf g i (hoSpool (wStore out.2)) = GoneAs (hSender row) (hDigest row) rs (if q then $"released" else $"imported").
Proof.
  intros HL. cbv zeta. pose proof (runW_ok evs _ (newWorld_ok l0 HL)) as HW. set (w := (run_trace stepW evs (newWorld l0)).2) in *. clearbody w. set (d := hoSpool (wStore w)) in *.
  intros Hk Hh Hf Hr Hs Hu Hclock Hne Hsha Hcur Hboxes. pose proof (rowOK_held row q (heldRow_ok d g i row (ho_spool _ (wo_store w HW)) Hf) Hs) as (raw' & Hr' & _ & Hdg).
  assert (raw' = raw) as -> by congruence. clear Hr'. set (dv := mkHeldDelivery g i (hSender row) (hDigest row) raw (hState row) (readBindings g i d) lease []).
  set (d1 := setHeld (updateWhere (isHeld g i) (leased lease (unix (clock 0%nat + fiveMinutes))) (spHeld d)) d). set (s1 := mkHolding d1 (hoHandles (wStore w))).
  assert (EC : stepI (Call h (clock 0%nat) true (IClaim fiveMinutes q (Some lease) g i)) (wStore w) = (Ok (ADelivery dv), s1)).
  { apply (call_runs l); [done|]. cbn [runIng]. unfold graded, mbind, Tx_bind.
    rewrite (claim_runs _ fiveMinutes q lease g i (hoSpool (wStore w)) row raw); [done|done|done|done|done|by unfold fiveMinutes|intros E; by apply Hcur]. }
  set (todo := ownersOf (readBindings g i d)) in *. set (w1 := setTask k (Some (mkTask dv q folder todo)) (setStore s1 w)).
  assert (E1 : stepW (EvStart k h (clock 0%nat) true q folder (Some lease) g i) w = (Ok tt, w1)).
  { cbn [stepW]. rewrite Hk, EC. unfold startTask. rewrite bool_decide_true by done. done. }
  pose proof (imports_run k limits dv q folder todo (fun n => clock (S n)) w1) as HI. cbv zeta in HI. destruct HI as (HF & HS2 & HT2); [|apply ownersOf_NoDup|exact Hboxes|].
  { simpl. by rewrite lookup_partial_alter, decide_True. }
  unfold deliver. cbn [run_trace]. rewrite E1. rewrite run_trace_app, length_fmap. destruct (run_trace stepW _ w1) as [log w2] eqn:E2. cbn [fst snd] in *. cbn [run_trace stepW].
  rewrite HT2. cbn [tkTodo tkRelease tkDelivery dvGateway dvID dvLease dvDigest]. rewrite bool_decide_true by done. rewrite HS2. cbn [wStore setTask setStore w1].
  assert (HO1 : holdingOK s1) by (pose proof (stepI_ok (Call h (clock 0%nat) true (IClaim fiveMinutes q (Some lease) g i)) _ (wo_store w HW)) as HO1; by rewrite EC in HO1).
  set (row1 := leased lease (unix (clock 0%nat + fiveMinutes)) row). assert (Hf1 : find_first (isHeld g i) (spHeld d1) = Some row1).
  { simpl. rewrite find_update_held, Hf by done. simpl. pose proof Hf as [_ ->]%find_first_Some. done. }
  destruct (acknowledge_runs (clock (S (length todo))) q g i lease (hDigest row) d1 row1) as [d2 Hd2]; [apply HO1|done|done|done|done|done|rewrite Hdg; by apply hash_nonempty|done|intros E; by apply Hcur|].
  change (dvGateway dv) with g. change (dvID dv) with i. change (dvLease dv) with lease. change (dvDigest dv) with (hDigest row).
  rewrite (call_runs l h (clock (S (length todo))) (IAcknowledge q g i lease (hDigest row)) s1 AUnit d2); [|done|cbn [runIng]; unfold graded, mbind, Tx_bind; cbn [s1 hoSpool]; by rewrite Hd2].
  cbn [fst snd]. split; [constructor; [done|]; apply Forall_app; split; [done|by constructor]|]. split; [simpl; by rewrite lookup_partial_alter, decide_True|].
  apply (acknowledge_ok l) in Hd2 as [_ [(Hn & _)|(r & Hfr & _ & _ & _ & Hst & [(_ & -> & Hc & _)|(text & _ & _ & Ht & ->)])]]; [congruence| | |apply HO1].
  - assert (E : currentBindings (clock (S (length todo))) g i d1 = true) by by apply Hcur. congruence.
  - assert (r = row1) as -> by congruence. eexists. unfold fateOf, archived_. simpl. rewrite find_kept_same. unfold archivedDelivery. simpl. rewrite find_first_app.
    assert (find_first (isTomb g i) (spArchived d) = None) as ->.
    { apply find_first_None. intros t Htm. apply not_true_is_false. intros [= Eg Ei]%isTomb_spec. pose proof (proj1 (Forall_forall _ _) (sp_fresh d (ho_spool _ (wo_store w HW))) t Htm) as HF2. simpl in HF2.
      rewrite Eg, Ei in HF2. apply held_none in HF2. congruence. }
    simpl. unfold isTomb. simpl. rewrite !bool_decide_true by done. done.
Qed.
End Live.
