(* ===== verification/IngressClaims.v ===== *)
(** * IngressClaims: what the holding store promises *)

From stdpp Require Import gmap.
From S2P Require Import Prelude GoText GoCodec SendAs MailboxModel Mailbox MailboxIncoming Outbox MailboxRun MailboxInvariant MailboxHistory.
From S2P Require Import IngressModel Ingress IngressRun IngressInvariant IngressMoves IngressFate IngressWorld IngressDeliver.

Section Claims.
Context {U : Unicode} {SS : SortSlice} {SSL : SortSliceLaws} {ML : MailLib} {GF : GoTimeFormat} {OL : OutboxLib} {RO : RangeOrder} {ROL : RangeOrderLaws}.

(** ** Delivery *)

Lemma filter_unique g i l row : NoDup (receiptKey <$> l) -> find_first (isReceipt g i) l = Some row -> List.filter (isReceipt g i) l = [row].
Proof.
  intros HN Hf. induction l as [|x l IH]; [done|]. apply NoDup_cons in HN as [Hx HN]. simpl in *. destruct (isReceipt g i x) eqn:E; [|by apply IH].
  injection Hf as <-. f_equal. apply filter_none. intros y Hy. apply not_true_is_false. intros Ey%isReceipt_spec. apply isReceipt_spec in E.
  apply Hx. rewrite E, <- Ey. by apply list_elem_of_fmap_2.
Qed.

(** (C16) A delivery leaves the holding store as imported or released only after
    every owner it was frozen for has it, and each owner has it once: whatever
    the importers, crashes, retries and other calls before, when [deliver]
    succeeds the mailbox of every binding's owner holds one receipt of the
    delivery, for its digest and that recipient, and the message it names; and
    that stays so. *)
Theorem delivered_exactly_once l0 evs k h now up w' : limitsOK l0 = true ->
  let w := (run_trace stepW evs (newWorld l0)).2 in
  stepW (EvFinish k h now up) w = (Ok tt, w') ->
  exists t, wTasks w !! k = Some t /\ let g := dvGateway (tkDelivery t) in let i := dvID (tkDelivery t) in
  ((find_first (isHeld g i) (spHeld (hoSpool (wStore w))) = None /\ hoSpool (wStore w') = hoSpool (wStore w)) \/
   exists row rs, find_first (isHeld g i) (spHeld (hoSpool (wStore w))) = Some row /\
     fateOf g i (hoSpool (wStore w')) = GoneAs (hSender row) (hDigest row) rs (if tkRelease t then $"released" else $"imported") /\
     forall b, b ∈ boundTo g i (hoSpool (wStore w)) -> bAddress b ∈ rs /\ forall evs', let w2 := (run_trace stepW evs' w').2 in
       exists box receipt n m, wBoxes w2 !! ownerOf b = Some box /\ List.filter (isReceipt g i) (receipts box) = [receipt] /\
         rrDigest receipt = hDigest row /\ recipientOf b ∈ rRecipients (rrEnvelope receipt) /\
         messages box !! n = Some m /\ mID m = rrMessage receipt /\ mDigest m = hDigest row).
Proof.
  intros HL. cbv zeta. pose proof (runW_ok evs _ (newWorld_ok l0 HL)) as HW. set (w := (run_trace stepW evs (newWorld l0)).2) in *. clearbody w. intros H.
  pose proof (stepW_ok (EvFinish k h now up) w HW) as [HW' _]. rewrite H in HW'. cbn [snd] in HW'. cbn [stepW] in H.
  destruct (wTasks w !! k) as [t|] eqn:Hk; [|done]. case_bool_decide as Htodo; [|done]. exists t. split; [done|]. pose proof (wo_tasks w HW k t Hk) as [Hhash (bs & HP & HF) Hcov].
  set (g := dvGateway (tkDelivery t)) in *. set (i := dvID (tkDelivery t)) in *. destruct (stepI _ (wStore w)) as [r s1] eqn:E. destruct r as [ans|]; [|done]. injection H as <-.
  cbn [stepI] in E. destruct (hoHandles (wStore w) !! h) as [l|]; [|done]. destruct (callIng l now up _ _) as [r1 d1] eqn:E1. injection E as -> <-. unfold callIng in E1.
  destruct (commit ErrSQL up _ (hoSpool (wStore w))) as [r2 d2] eqn:E2. destruct r2 as [r2|e]; [|done]. injection E1 as -> ->.
  apply commit_ok in E2 as [(e & [=] & _)|(a & [= <-] & E2 & _)]. cbn [runIng] in E2. unfold graded in E2. apply bind_ok in E2 as (r & d2 & E2 & [Er ->]%ret_ok).
  apply (acknowledge_ok l) in E2 as [HM HA]; [|apply HW]. pose proof (moves_fate _ _ _ _ _ g i (ho_spool _ (wo_store w HW)) HM) as HSt.
  destruct HA as [(Hn & -> & _)|(row & Hf & Hdg & Hls & Hun & Hst & HA)]; [by left|]. right.
  destruct HA as [(-> & _)|(text & -> & Hcur & Htext & Hd2)]; [done|].
  pose proof (heldRow_ok _ g i row (ho_spool _ (wo_store w HW)) Hf) as HR. destruct (rowOK_held row (tkRelease t) HR Hst) as (raw & Hraw & _ & Hdr).
  pose proof (fateOf_held g i _ row raw (tkRelease t) Hf Hraw Hst) as Hfate. rewrite Hfate in HSt, HF.
  destruct HF as [(q & bs' & [= E1 E2 E3 E4] & HSB)|(dg & rs & disp & [=])].
  assert (HG : exists rs, fateOf g i d2 = GoneAs (hSender row) (hDigest row) rs (if tkRelease t then $"released" else $"imported") /\ rs ≡ₚ bAddress <$> boundTo g i (hoSpool (wStore w))).
  { assert (HNE : forall s0 q0 x0 bs0, fateOf g i d2 ≠ HeldAs s0 q0 x0 bs0).
    { intros s0 q0 x0 bs0. rewrite Hd2. unfold fateOf, archived_. simpl. rewrite find_kept_same. by destruct (archivedDelivery _ _ _). }
    
    inversion HSt; try (exfalso; eapply HNE; symmetry; eassumption); try done; eexists; (split; [rewrite Hdr; reflexivity|done]). }
  destruct HG as (rs & HG & Hrs). exists row, rs. split; [done|]. split; [exact HG|]. intros b Hb. split; [rewrite Hrs; by apply list_elem_of_fmap_2|]. intros evs'.
  assert (HSV : served w g i (hDigest row) b).
  { rewrite Hdg. assert (HC : forall b', b' ∈ dvBindings (tkDelivery t) -> served w g i (dvDigest (tkDelivery t)) b').
    { intros b' Hb'. destruct (Hcov b' Hb') as [(rs' & Hin & _)|HS]; [|done]. rewrite Htodo in Hin. by apply elem_of_nil in Hin. }
    rewrite E4 in Hb. destruct HSB as [->|(b0 & b1 & -> & -> & Hu & _)]; [apply HC; by rewrite HP|].
    exfalso. destruct (HC b0) as (box & rc & Hbox & _); [rewrite HP; set_solver|]. destruct (wo_boxes w HW _ _ Hbox) as [HV _].
    assert (HI : bIssuer b0 = []) by (unfold Unresolved in Hu; by to_prop). unfold validOwner, ownerOf in HV. cbn [owIssuer] in HV. by rewrite HI in HV. }
  assert (HSV' : served (setTask k None (setStore (mkHolding d2 (hoHandles (wStore w))) w)) g i (hDigest row) b) by exact HSV.
  apply (served_run evs' _ _ _ _ _ HW') in HSV'. pose proof (runW_ok evs' _ HW') as HW2. destruct HSV' as (box & rc & Hbox & Hrc & Hdc & Hrcp).
  destruct (wo_boxes _ HW2 _ _ Hbox) as [_ [HN HMs]]. pose proof Hrc as [Hin _]%find_first_Some. destruct (proj1 (Forall_forall _ _) HMs rc Hin) as (n & m & Hn & Hm & Hmd).
  exists box, rc, n, m. split; [done|]. split; [by apply filter_unique|]. split; [done|]. split; [done|]. split; [done|]. split; [done|]. congruence.
Qed.

(** ** Accepted mail *)

Lemma call_ok h now up op s r s' : stepI (Call h now up op) s = (Ok r, s') ->
  exists l, hoHandles s !! h = Some l /\ up = true /\ runIng l now op (hoSpool s) = Ok (Ok r, hoSpool s') /\ hoHandles s' = hoHandles s.
Proof.
  intros H. cbn [stepI] in H. destruct (hoHandles s !! h) as [l|]; [|done]. exists l. split; [done|]. destruct (callIng l now up op (hoSpool s)) as [r1 d1] eqn:E1.
  injection H as -> <-. unfold callIng in E1. destruct (commit ErrSQL up _ (hoSpool s)) as [r2 d2] eqn:E2. destruct r2 as [r2|e]; [|done]. injection E1 as -> ->.
  by apply commit_ok in E2 as [(e & [=] & _)|(a & [= <-] & E2 & Hup)].
Qed.
Lemma accept_ok l ad g i sd raw d u d' : spoolOK d -> accept l ad g i sd (Some raw) d = Ok (u, d') ->
  (exists bs, fateOf g i d = StagedAs sd bs /\ fateOf g i d' = HeldAs sd false raw bs) \/
  d' = d /\ ((exists q raw' bs, fateOf g i d = HeldAs sd q raw' bs /\ hashIncoming raw' = hashIncoming raw) \/
             exists rs disp, fateOf g i d = GoneAs sd (hashIncoming raw) rs disp).
Proof.
  intros HS H. unfold accept in H. destruct (_ || _) in H; [done|]. destruct (_ || _) eqn:Eb in H; [done|]. to_prop.
  assert (Hraw : take (Z.to_nat (hlMessageBytes l + 1)) raw = raw) by (apply take_ge; rewrite length_take in *; lia). rewrite Hraw in *.
  apply bind_ok in H as (u1 & d1 & [_ ->]%refuse_ok & H). apply bind_ok in H as (old & d1 & [-> ->]%select_ok & H).
  destruct (find_first (isHeld g i) (spHeld d)) as [row|] eqn:Ef.
  - destruct (negb (hSender row =s? sd)) eqn:Esd; [done|]. to_prop. subst sd. pose proof (heldRow_ok d g i row HS Ef) as HR. destruct (negb (hState row =s? _)) eqn:Es; to_prop.
    + apply assert_ok in H as [Hd ->]. to_prop. right. split; [done|]. left. destruct HR as [(E & _)|(HR & raw' & Hr & _ & Hdg)]; [done|].
      exists (hState row =s? $"quarantined"), raw', (boundTo g i d). split; [|congruence]. unfold fateOf. by rewrite Ef, Hr.
    + left. exists (boundTo g i d). split; [by apply fateOf_staged|]. apply bind_ok in H as (u2 & d1 & [-> _]%admitPayload_ok & ->%exec_ok).
      unfold fateOf. simpl. rewrite find_update_held, Ef by done. simpl. pose proof Ef as [_ ->]%find_first_Some. done.
  - apply bind_ok in H as (t & d1 & [-> ->]%select_ok & [HT ->]%assert_ok). right. split; [done|]. right. destruct (archivedDelivery g i d) as [t|] eqn:Et; [|done]. to_prop.
    subst sd. exists (tombRecipients t), (tDisposition t). unfold fateOf. rewrite Ef, Et. congruence.
Qed.

(** (C28) Mail the receiver was told is accepted is never lost: whatever is
    called later, its bytes stay under its identity, sender and recipients,
    until a call acknowledges an import or release of exactly those bytes or an
    administrator discards it, and then its tombstone says so for good.
    Accepting it again changes nothing and succeeds only for the same sender
    and digest. *)
Theorem accepted_mail_kept l0 tr0 h now ad g i sd raw s1 tr : limitsOK l0 = true ->
  let s := (run_trace stepI tr0 (newHolding l0)).2 in
  stepI (Call h now true (IAccept ad g i sd (Some raw))) s = (Ok AUnit, s1) ->
  (exists bs, fateOf g i (hoSpool s) = StagedAs sd bs /\
     let s2 := (run_trace stepI tr s1).2 in
     ((exists q bs', fateOf g i (hoSpool s2) = HeldAs sd q raw bs' /\ sameBindings bs bs') \/
      exists rs disp c o, fateOf g i (hoSpool s2) = GoneAs sd (hashIncoming raw) rs disp /\ rs ≡ₚ bAddress <$> bs /\
        c ∈ tr /\ opOf c = Some o /\ removal g i (hashIncoming raw) disp o)) \/
  hoSpool s1 = hoSpool s /\ ((exists q raw' bs, fateOf g i (hoSpool s) = HeldAs sd q raw' bs /\ hashIncoming raw' = hashIncoming raw) \/
                            exists rs disp, fateOf g i (hoSpool s) = GoneAs sd (hashIncoming raw) rs disp).
Proof.
  intros HL. cbv zeta. pose proof (run_ok tr0 _ (newHolding_ok l0 HL)) as HO. set (s := (run_trace stepI tr0 (newHolding l0)).2) in *. clearbody s. intros H.
  pose proof (stepI_cases _ _ _ _ HO H) as [HO1 _]. apply call_ok in H as (l & _ & _ & H & _). cbn [runIng] in H. unfold plain in H.
  apply bind_ok in H as (u & d1 & H & [_ Hs1]%ret_ok). rewrite <- Hs1 in H. destruct (accept_ok _ _ _ _ _ _ _ _ _ (ho_spool s HO) H) as [(bs & Hf & Hf')|HX]; [left|by right].
  exists bs. split; [done|]. destruct (held_kept tr s1 g i sd false raw bs HO1 Hf') as [(q & bs' & HF & _ & HB)|(rs & disp & c & o & HF & Hrs & Hc & Ho & HR & _)]; [left; eauto|].
  right. exists rs, disp, c, o. done.
Qed.

(** (C24) The holding store stays well formed under any calls of any handles,
    reopened with other limits or not: one row and one tombstone per receiver
    identity, never both, one route per address; bindings belong to a held row
    and every held row has between one and a hundred; a staged row holds no
    bytes, any other one exactly the bytes of its digest; records, message sizes
    and the sum of the payloads stay within the persisted limits, which no open
    handle exceeds. *)
Theorem holding_store_well_formed l0 tr : limitsOK l0 = true ->
  let s := (run_trace stepI tr (newHolding l0)).2 in spoolOK (hoSpool s) /\
  limitsOK (spLimits (hoSpool s)) = true /\ Forall (fun l => raisableTo l (spLimits (hoSpool s)) = true) (hoHandles s).
Proof. intros HL. cbv zeta. by destruct (run_ok tr _ (newHolding_ok l0 HL)). Qed.

(** ** Stale owners *)

(** The address has moved on: its route is at a later generation than the
    binding, or was deactivated at its generation. *)
Definition outdated (d : spool) (b : Binding) : Prop :=
  exists r, find_first (isRoute (bAddress b)) (spRoutes d) = Some r /\
    ((bGeneration b < rtGeneration r)%Z \/ bGeneration b = rtGeneration r /\ rtActive r = false).
Lemma outdated_not_current now g i d b : b ∈ boundTo g i d -> outdated d b -> currentBindings now g i d = false.
Proof.
  intros Hb (r & Hr & Hg). apply not_true_is_false. unfold currentBindings. intros [_ H]%andb_true_iff. rewrite forallb_forall in H.
  specialize (H b). rewrite Hr in H. rewrite <- list_elem_of_In, readBindings_perm in H. specialize (H Hb). unfold routeCovers in H. to_prop.
  destruct Hg as [Hg|[_ Hg]]; [lia|congruence].
Qed.
Lemma outdated_advances d d' b : routesAdvance (spRoutes d) (spRoutes d') -> outdated d b -> outdated d' b.
Proof.
  intros HA (r & Hr & Hg). destruct (HA _ _ Hr) as (r' & Hr' & [->|[_ HD]]); [by exists r|]. exists r'. split; [done|].
  destruct HD as [HD|(HD & _ & Ha)]; [left; lia|]. destruct Hg as [Hg|[Hg Hi]]; [left; lia|right]. split; [lia|]. destruct (rtActive r'); [by rewrite Ha in Hi|done].
Qed.
Lemma moves_routes l now o d d' : moves l now o d d' -> routesAdvance (spRoutes d) (spRoutes d').
Proof. intros HM. destruct HM; simpl; try apply routesAdvance_refl. done. Qed.

Definition neverImported (g i : gostr) (d : spool) : Prop :=
  (exists b, b ∈ boundTo g i d /\ outdated d b) \/
  (exists sd raw bs, fateOf g i d = HeldAs sd true raw bs) \/
  exists sd dg rs disp, fateOf g i d = GoneAs sd dg rs disp /\ disp ≠ $"imported".
Lemma fate_bound g i d b : spoolOK d -> b ∈ boundTo g i d ->
  (exists sd bs, fateOf g i d = StagedAs sd bs /\ boundTo g i d = bs) \/ exists sd q raw bs, fateOf g i d = HeldAs sd q raw bs /\ boundTo g i d = bs.
Proof.
  intros HS Hb. unfold fateOf. destruct (find_first _ _) as [r|] eqn:E; [|rewrite (boundTo_nil d g i HS E) in Hb; by apply elem_of_nil in Hb].
  destruct (hRaw r); [right|left]; eauto 10.
Qed.
Lemma fate_binds g i d f : fateOf g i d = f -> match f with StagedAs _ bs | HeldAs _ _ _ bs => boundTo g i d = bs | _ => True end.
Proof. intros <-. unfold fateOf. destruct (find_first _ _) as [r|]; [by destruct (hRaw r)|by destruct (archivedDelivery _ _ _)]. Qed.

Lemma import_needs_current l now o d d' g i sd dg rs : moves l now o d d' -> (forall sd dg rs disp, fateOf g i d ≠ GoneAs sd dg rs disp) ->
  fateOf g i d' = GoneAs sd dg rs ($"imported") -> fstep g i o (fateOf g i d) (fateOf g i d') -> currentBindings now g i d = true.
Proof.
  intros HM HN HF HSt. rewrite HF in HSt. assert (HO : exists lease dg, o = IAcknowledge false g i lease dg).
  { inversion HSt; subst; try congruence; first [eauto; fail|exfalso; by eapply HN|match goal with H : $"imported" ∈ _ |- _ => by apply (bool_decide_eq_true_2 _) in H end]. }
  destruct HO as (lease & dg' & ->).
  destruct HM as [|rs' _ _|? ? ? ? ? _ _ _ _ _ _ _ [? [=]]|? ? ? ? ? _ _ _ _ _ _ _ _ [? [=]]|? ? ? ? _ _ _ _ _ [? [=]]|? ? ? ? ? _ _ _ _ _ _ _ [? [=]]
    |? ? ? ? ? _ _ _ _ _ _ [? [=]]|g' i' row Hf Hst Hfe|? ? ? ? ? _ _ (? & ? & [=])|g' i' row text disp Hf Hst Ht Har|? ? ? ? ? _ _ _ _ _ _ [=]].
  - by apply HN in HF.
  - by apply HN in HF.
  - cbn [fences] in Hfe. destruct Hfe as [<- <-]. unfold fateOf in HF. simpl in HF. rewrite find_update_held, Hf in HF by done. simpl in HF. pose proof Hf as [_ E]%find_first_Some. rewrite E in HF.
    simpl in HF. by destruct (hRaw row).
  - cbn [archives] in Har. destruct Har as (<- & <- & _ & _ & _ & -> & Hs). by destruct Hst as [(_ & _ & Hc)|[Hq _]]; [|rewrite Hs in Hq].
Qed.
Lemma quarantined_fate g i o sd raw bs f : fstep g i o (HeldAs sd true raw bs) f ->
  (exists sd raw bs, f = HeldAs sd true raw bs) \/ exists sd dg rs disp, f = GoneAs sd dg rs disp /\ disp ≠ $"imported".
Proof.
  inversion 1 as [| | | | | | | |? ? ? ? ? ? _|? ? ? ? ? _ Hd _|]; subst; [left; eauto|right..|left; eauto]; do 4 eexists; (split; [done|]); [done|].
  intros ->. by apply (bool_decide_eq_true_2 _) in Hd.
Qed.
Lemma neverImported_step c s g i : holdingOK s -> neverImported g i (hoSpool s) -> neverImported g i (hoSpool (stepI c s).2).
Proof.
  intros HO HN. destruct (stepI c s) as [r s'] eqn:E. simpl. destruct (stepI_cases c s r s' HO E) as [_ [->|[(l & -> & _)|(h & now & o & l & _ & _ & HM)]]]; [done|done|].
  pose proof (moves_fate _ _ _ _ _ g i (ho_spool s HO) HM) as HSt. pose proof (moves_routes _ _ _ _ _ HM) as HA. set (d := hoSpool s) in *. set (d' := hoSpool s') in *.
  destruct HN as [(b & Hb & Hd)|[(sd & raw & bs & Hf)|(sd & dg & rs & disp & Hf & Hd)]].
  - assert (HNG : forall sd dg rs disp, fateOf g i d ≠ GoneAs sd dg rs disp).
    { intros ? ? ? ? HG. destruct (fate_bound g i d b (ho_spool s HO) Hb) as [(? & ? & E1 & _)|(? & ? & ? & ? & E1 & _)]; congruence. }
    assert (HNI : forall sd dg rs, fateOf g i d' ≠ GoneAs sd dg rs ($"imported")).
    { intros ? ? ? HG. pose proof (import_needs_current _ _ _ _ _ _ _ _ _ _ HM HNG HG HSt) as HC. by rewrite (outdated_not_current now g i d b Hb Hd) in HC. }
    apply (outdated_advances d d' b HA) in Hd.
    destruct (fateOf g i d') as [| | |sd' dg' rs' disp'] eqn:Ef'; [| | |right; right; exists sd', dg', rs', disp'; split; [done|]; intros ->; by eapply HNI].
    + destruct (fate_bound g i d b (ho_spool s HO) Hb) as [(? & ? & E1 & _)|(? & ? & ? & ? & E1 & _)]; rewrite E1 in HSt; inversion HSt.
    + left. exists b. split; [|done]. pose proof (fate_binds g i d' _ Ef') as ->.
      destruct (fate_bound g i d b (ho_spool s HO) Hb) as [(? & ? & E1 & E2)|(? & ? & ? & ? & E1 & E2)]; rewrite E1 in HSt; rewrite E2 in Hb; inversion HSt; subst; set_solver.
    + destruct quarantined; [right; left; eauto|]. left. exists b. split; [|done]. pose proof (fate_binds g i d' _ Ef') as ->.
      destruct (fate_bound g i d b (ho_spool s HO) Hb) as [(? & ? & E1 & E2)|(? & ? & ? & ? & E1 & E2)]; rewrite E1 in HSt; rewrite E2 in Hb; inversion HSt; subst; set_solver.
  - rewrite Hf in HSt. right. by apply quarantined_fate in HSt.
  - rewrite Hf in HSt. right. right. inversion HSt. exists sd, dg, rs, disp. split; [congruence|done].
Qed.
Lemma neverImported_run tr : forall s g i, holdingOK s -> neverImported g i (hoSpool s) -> neverImported g i (hoSpool (run_trace stepI tr s).2).
Proof.
  induction tr as [|c tr IH]; intros s g i HO HN; simpl; [done|]. pose proof (stepI_ok c s HO) as HO1. pose proof (neverImported_step c s g i HO HN) as HN1.
  destruct (stepI c s) as [r s1]. specialize (IH s1 g i HO1 HN1). by destruct (run_trace stepI tr s1).
Qed.

(** (C36) Mail bound to an address that has since changed hands is never
    imported by itself: once the route of one of its recipients is at a later
    generation than the binding, or was deactivated, no import of the delivery
    can claim it and it is never archived as imported, whatever is called later;
    it waits in quarantine for an administrator. *)
Theorem reassigned_mail_never_imported l0 tr0 g i b tr : limitsOK l0 = true ->
  let s := (run_trace stepI tr0 (newHolding l0)).2 in
  b ∈ boundTo g i (hoSpool s) -> outdated (hoSpool s) b ->
  let s2 := (run_trace stepI tr s).2 in
  (forall sd dg rs, fateOf g i (hoSpool s2) ≠ GoneAs sd dg rs ($"imported")) /\
  forall h now up dur tok, exists e, (stepI (Call h now up (IClaim dur false tok g i)) s2).1 = Err e.
Proof.
  intros HL. cbv zeta. pose proof (run_ok tr0 _ (newHolding_ok l0 HL)) as HO. set (s := (run_trace stepI tr0 (newHolding l0)).2) in *. clearbody s. intros Hb Hd.
  pose proof (run_ok tr s HO) as HO2. pose proof (neverImported_run tr s g i HO ltac:(left; eauto)) as HN. set (s2 := (run_trace stepI tr s).2) in *. clearbody s2. split.
  - intros sd dg rs HF. destruct HN as [(b' & Hb' & _)|[(? & ? & ? & E)|(? & ? & ? & ? & E & HX)]]; [|congruence|congruence].
    destruct (fate_bound g i (hoSpool s2) b' (ho_spool s2 HO2) Hb') as [(? & ? & E1 & _)|(? & ? & ? & ? & E1 & _)]; congruence.
  - intros h now up dur tok. destruct (stepI _ s2) as [r s3] eqn:E. destruct r as [a|e]; [exfalso|by exists e]. apply call_ok in E as (l & _ & _ & E & _).
    cbn [runIng] in E. unfold graded in E. apply bind_ok in E as (r & d2 & E & [Er _]%ret_ok). apply (claimHeld_ok l) in E as (row & Hf & _ & Hst & _ & Hc); [|apply HO2].
    destruct Hc as [(-> & _)|(lease & raw & _ & Hraw & Hcur & _ & ->)]; [done|]. specialize (Hcur eq_refl).
    pose proof (fateOf_held g i _ row raw false Hf Hraw Hst) as Hfate. destruct HN as [(b' & Hb' & Hd')|[(? & ? & ? & E)|(? & ? & ? & ? & E & HX)]]; [|congruence|congruence].
    by rewrite (outdated_not_current now g i _ b' Hb' Hd') in Hcur.
Qed.
End Claims.
