(* ===== verification/IngressWitness.v ===== *)
(** * IngressWitness: the holding store on concrete runs

    One address, its owner with a mailbox, one message: accepted and delivered;
    accepted while the address moves on; discarded from quarantine. *)

From stdpp Require Import gmap.
From S2P Require Import Prelude GoText GoCodec SendAs MailboxModel Mailbox MailboxIncoming Outbox MailboxRun MailboxHistory MailboxWitness.
From S2P Require Import IngressModel Ingress IngressRun IngressInvariant IngressMoves IngressFate IngressAdmission IngressWorld IngressDeliver.
From S2P Require Import IngressClaims FileStore Wire Blocks BlocksTheorems BlocksEvidence.

#[local] Existing Instances toyMail runeFormat3 toyOutbox.

Definition hold0 : holdLimits := mkHold 1000 100000 10.
Definition disk0 : diskState := mkDisk true (Some 4096%Z) (StatFile true 8192) (StatFile true 4096) StatMissing (Some (4096, Z.shiftl 1 40)%Z) (Some (Z.shiftl 1 40, Z.shiftl 1 41)).
Definition ad0 : admission := mkAdmission disk0 (Some false) disk0.
Definition owner0 : Owner := mkOwner ($"https://id.example") ($"subject-1") ($"box-1").
Definition route0 : Route := mkRoute ($"me@here") (owIssuer owner0) (owSubject owner0) (owMailbox owner0) 3 true (Some 2000000000%Z).
Definition route1 : Route := mkRoute ($"me@here") (owIssuer owner0) ($"subject-2") ($"box-2") 4 true (Some 2000000000%Z).
Definition gw : gostr := $"gw".
Definition id0 : gostr := $"d-1".
Definition raw0 : list Z := [65; 66]%Z.
Definition t0 : Z := 1700000000000000000.
Definition icall (o : ingOp) : ingCall := Call 0 t0 true o.
Definition routed : list ingCall := icall <$> [ISetRoute ad0 false route0; IBind ad0 gw id0 [] ($"me@here")].
Definition accepts : ingOp := IAccept ad0 gw id0 [] (Some raw0).
Definition binding0 : Binding := mkBinding ($"me@here") (owIssuer owner0) (owSubject owner0) (owMailbox owner0) 3.

Definition staged0 : holding := (run_trace stepI routed (newHolding hold0)).2.
Definition accepted0 : holding := (stepI (icall accepts) staged0).2.

(** Accepted, quarantined when its address moved on, discarded. *)
Definition afterwards : list ingCall := icall <$> [ISetRoute ad0 false route1; IClaim fiveMinutes false (Some ($"tok")) gw id0; IDiscard gw id0].

Lemma accepted_mail_kept_witness :
  exists rs disp, fateOf gw id0 (hoSpool (run_trace stepI afterwards accepted0).2) = GoneAs [] (hashIncoming raw0) rs disp /\ disp = $"discarded".
Proof.
  assert (E : stepI (Call 0 t0 true (IAccept ad0 gw id0 [] (Some raw0))) staged0 = (Ok AUnit, accepted0)) by (vm_compute; reflexivity).
  destruct (accepted_mail_kept hold0 routed 0 t0 ad0 gw id0 [] raw0 accepted0 afterwards eq_refl E) as [(bs & _ & H)|(H & _)]; [|by vm_compute in H].
  destruct H as [(q & bs' & H & _)|(rs & disp & c & o & H & _)]; [by vm_compute in H|]. exists rs, disp. split; [exact H|]. vm_compute in H. by injection H as _ <-.
Defined.

Lemma holding_store_well_formed_witness : exists row, spHeld (hoSpool accepted0) = [row] /\ rowOK row.
Proof.
  destruct (holding_store_well_formed hold0 (routed ++ [icall accepts]) eq_refl) as [H _]. eexists. split; [vm_compute; reflexivity|].
  pose proof (sp_rows _ H) as HR. by apply Forall_cons in HR as [? _].
Defined.

(** The address changed hands after the mail was accepted for its old owner. *)
Definition moved : list ingCall := routed ++ (icall <$> [accepts; ISetRoute ad0 false route1]).
Lemma reassigned_mail_never_imported_witness :
  exists e, (stepI (icall (IClaim fiveMinutes false (Some ($"tok")) gw id0)) (run_trace stepI moved (newHolding hold0)).2).1 = Err e /\ e = ErrRoute.
Proof.
  destruct (reassigned_mail_never_imported hold0 moved gw id0 binding0 [] eq_refl) as [_ H].
  - vm_compute. by left.
  - exists route1. split; [vm_compute; reflexivity|]. left. vm_compute. reflexivity.
  - destruct (H 0%nat t0 true fiveMinutes (Some ($"tok"))) as [e He]. exists e. split; [exact He|]. vm_compute in He. by injection He as <-.
Defined.


(** The owner has a mailbox; the delivery runs, undisturbed. *)
Definition arrival : list event := EvCreate owner0 :: (EvStore <$> (routed ++ [icall accepts])).
Definition world0 : world := (run_trace stepW arrival (newWorld hold0)).2.
Definition clock0 (n : nat) : Z := t0 + 1000000000 * Z.of_nat n.
Definition row0 : heldRow := mkHeld 1 gw id0 [] 1700000000 (hashIncoming raw0) (Some raw0) ($"pending") [] 0.

Lemma deliver_completes_witness :
  exists rs, fateOf gw id0 (hoSpool (wStore (run_trace stepW (deliver 7 0 clock0 (fun _ => limits0) false ($"INBOX") (Some ($"tok")) gw id0 [owner0]) world0).2)) =
    GoneAs [] (hashIncoming raw0) rs ($"imported") /\ rs = [$"me@here"].
Proof.
  destruct (deliver_completes hold0 arrival 7 0 hold0 clock0 (fun _ => limits0) false ($"INBOX") ($"tok") gw id0 row0 raw0 eq_refl) as (_ & _ & rs & H).
  - vm_compute. reflexivity.
  - vm_compute. reflexivity.
  - vm_compute. reflexivity.
  - reflexivity.
  - reflexivity.
  - vm_compute. done.
  - vm_compute. reflexivity.
  - done.
  - vm_compute. reflexivity.
  - intros _. split; vm_compute; reflexivity.
  - intros [|[|n]] o rcpts Hin; vm_compute in Hin; [|discriminate Hin..]. injection Hin as <- <-. do 3 eexists.
    split; vm_compute; reflexivity.
  - exists rs. split; [exact H|]. vm_compute in H. by injection H as <-.
Defined.

(** Up to the acknowledgement; then it is redelivered and acknowledged again. *)
Definition imported : list event := arrival ++ [EvStart 7 0 t0 true false ($"INBOX") (Some ($"tok")) gw id0; EvImport 7 (RStore owner0) limits0 t0 None true].
Definition world1 : world := (run_trace stepW imported (newWorld hold0)).2.
Definition world2 : world := (stepW (EvFinish 7 0 t0 true) world1).2.
Definition later0 : list event := [EvStore (icall accepts); EvMailbox owner0 limits0 [] [] (mkCall (t0 / 1000000000) None true (OImport delivery0 (Some raw0)))].

Lemma delivered_exactly_once_witness :
  exists box receipt, wBoxes (run_trace stepW later0 world2).2 !! owner0 = Some box /\ List.filter (isReceipt gw id0) (receipts box) = [receipt] /\
    length (messages box) = 1%nat.
Proof.
  assert (E : stepW (EvFinish 7 0 t0 true) world1 = (Ok tt, world2)) by (vm_compute; reflexivity).
  destruct (delivered_exactly_once hold0 imported 7 0 t0 true world2 eq_refl E) as (t & Ht & H).
  assert (Eg : dvGateway (tkDelivery t) = gw /\ dvID (tkDelivery t) = id0) by (vm_compute in Ht; injection Ht as <-; split; vm_compute; reflexivity).
  destruct Eg as [Eg Ei]. cbv zeta in H. rewrite Eg, Ei in H. destruct H as [[H _]|(row & rs & _ & _ & H)]; [by vm_compute in H|].
  destruct (H binding0) as [_ H2]; [vm_compute; by left|]. destruct (H2 later0) as (box & rc & n & m & Hb & Hr & _). exists box, rc. split; [exact Hb|]. split; [exact Hr|].
  vm_compute in Hb. injection Hb as <-. vm_compute. reflexivity.
Defined.

(** ** Sender blocks and their evidence on concrete runs

    Five senders of one domain, five reject verdicts each, one accepted domain,
    an administrator who blocks and unblocks. *)

(** Eight polynomial sums in place of SHA-256's first bytes. *)
Definition toySum (s : gostr) : list Z := (fun k => foldl (fun h c => (h * k + c) mod 256)%Z 7%Z s) <$> [31; 33; 35; 37; 39; 41; 43; 45]%Z.
#[local] Instance toyBlocks : BlockLib := { sum8 := toySum; evidenceSize _ := 1000%Z }.
#[local] Instance toyBlocksLaws : BlockLibLaws.
Proof.
  intros s. split; [done|]. unfold sum8, toyBlocks, toySum. apply Forall_fmap, Forall_forall. intros k _. cbn. unfold byteOK.
  assert (H : forall l h, (0 <= h < 256)%Z -> (0 <= foldl (fun h c => (h * k + c) mod 256)%Z h l < 256)%Z); [|apply H; lia].
  induction l as [|c l IH]; intros h Hh; [done|]. cbn. apply IH. apply Z.mod_pos_bound. lia.
Qed.

Definition T0 : Z := 1700000000000.
Definition day : Z := (24 * hour)%Z.
Definition authOf (sender domain : gostr) : Authentication := mkAuth sender sender true [domain].
Definition badAuth (n : Z) : Authentication := authOf ([(97 + n)%Z] ++ $"@Bad.example") ($"bad.example").
Definition rio0 : rejectIO := mkRejectIO evIO_ok [] fileIO_ok [] fileIO_ok.
Definition ours : list gostr := [$"here.example"].
Definition rejects (n k : nat) (t : Z) : list rcvEvent := (fun i => VReject (badAuth (Z.of_nat n)) ours (t + Z.of_nat i)%Z rio0) <$> seq 0 k.
Definition acceptance : rcvEvent := VAccepted (authOf ($"bob@good.example") ($"good.example")) (T0 - 31 * day)%Z true evIO_ok.
(** An acceptance a month before, then one reject verdict short of a domain block. *)
Definition campaign : list rcvEvent :=
  acceptance :: rejects 0 5 T0 ++ rejects 1 5 (T0 + 100)%Z ++ rejects 2 5 (T0 + 200)%Z ++ rejects 3 5 (T0 + 300)%Z ++ rejects 4 4 (T0 + 400)%Z.
Definition idA : gostr := BlockID ($"address") ($"a@bad.example").
Definition unblockA : rcvEvent := VUnblock idA (T0 + 1000)%Z evIO_ok.
Definition manualDomain (value : gostr) (t : Z) : rcvEvent := VBlock (BPut ($"domain") value None ($"root") [] ours t fileIO_ok).
Definition madeIn (log : rcvLog) : list (gostr * gostr) := log ≫= (fun '(_, (made, _)) => (fun b => (sbKind b, sbValue b)) <$> made).

Example campaign_blocks : madeIn (run_trace stepV campaign newReceiving).1 = [($"address", $"a@bad.example"); ($"address", $"b@bad.example"); ($"address", $"c@bad.example"); ($"address", $"d@bad.example")].
Proof. vm_compute. reflexivity. Qed.
Ltac timed_trace := repeat (apply Forall_cons; split; [intros ? [= <-]; vm_compute; congruence|]); apply Forall_nil_2.
Lemma campaign_timed : Forall timed campaign.
Proof. unfold campaign, rejects. cbn [seq fmap list_fmap app]. timed_trace. Qed.

Definition lastReject : rcvEvent := VReject (badAuth 4) ours (T0 + 404)%Z rio0.

Definition again : list rcvEvent := rejects 0 6 (T0 + 2000)%Z.

(** The same campaign against a domain whose mail was accepted makes no domain block. *)
Definition goodAuth : Authentication := authOf ($"friend@bad.example") ($"bad.example").
Lemma accepted_domain_safe_witness : let s1 := (run_trace stepV [acceptance] newReceiving).2 in
  let s2 := (stepV (VAccepted goodAuth (T0 - 30 * day)%Z true evIO_ok) s1).2 in
  forall e made er b, (e, (made, er)) ∈ (run_trace stepV (campaign ++ [lastReject]) s2).1 -> b ∈ made -> sbKind b = $"domain" -> sbID b ≠ BlockID ($"domain") ($"bad.example").
Proof.
  apply (accepted_domain_safe [acceptance] goodAuth (T0 - 30 * day)%Z true evIO_ok ($"friend@bad.example") (campaign ++ [lastReject])).
  - unfold campaign, rejects. cbn [seq fmap list_fmap app]. timed_trace.
  - vm_compute. reflexivity.
  - vm_compute. reflexivity.
  - vm_compute. reflexivity.
  - vm_compute. reflexivity.
Defined.
Lemma evidence_stays_readable_witness : let s := (run_trace stepV campaign newReceiving).2 in
  rcDamaged s = false /\ exists doc, loadEvidence true (rcEvidence s) = Ok doc /\ docOK doc.
Proof. apply (evidence_stays_readable campaign), campaign_timed. Defined.

(** ** The block list *)

Definition badDomain : SenderBlock := normalized T0 (manualBlock ($"domain") ($"Bad.example") None ($"root") []) ($"bad.example").
Lemma manual_blocks_stand_witness : let s := (run_trace stepV [manualDomain ($"Bad.example") T0] newReceiving).2 in let s' := (run_trace stepV (rejects 0 6 (T0 + 1)) s).2 in
  badDomain ∈ entries (rcBlocks s') /\ Blocked ($"z@BAD.example") (T0 + 10)%Z true (rcBlocks s') = Ok true.
Proof.
  destruct (manual_blocks_stand [manualDomain ($"Bad.example") T0] (rejects 0 6 (T0 + 1)) badDomain) as [H1 H2].
  - apply list_elem_of_In. vm_compute. by left.
  - vm_compute. reflexivity.
  - intros e c He. unfold rejects in He. cbn [seq fmap list_fmap] in He. repeat (apply elem_of_cons in He as [-> |He]; [intros Hc; by apply elem_of_nil in Hc|]). by apply elem_of_nil in He.
  - intros e t _ _. reflexivity.
  - split; [exact H1|]. apply H2; [done|eexists; vm_compute; reflexivity|vm_compute; reflexivity|reflexivity].
Defined.
Lemma manual_put_exact_witness : let out := Put (manualBlock ($"domain") ($"Bad.example") None ($"root") []) ours T0 fileIO_ok FMissing in
  out.1 = Ok badDomain /\ blocksOK out.2 /\ kept (entries out.2) ≡ₚ [badDomain].
Proof.
  apply (manual_put_exact FMissing ($"domain") ($"Bad.example") ($"bad.example") None ($"root") [] ours T0); [by left|vm_compute; reflexivity..|].
  intros H. vm_compute in H. apply list_elem_of_singleton in H. discriminate H.
Defined.
Lemma own_senders_never_blocked_witness : let f := rcBlocks (run_trace stepV (manualDomain ($"bad.example") T0 :: rejects 0 6 (T0 + 1)) newReceiving).2 in
  Blocked ($"a@bad.example") (T0 + 10)%Z true f = Ok true /\ Blocked ($"me@HERE.example") (T0 + 10)%Z true f ≠ Ok true.
Proof.
  split; [vm_compute; reflexivity|]. apply (own_senders_never_blocked (manualDomain ($"bad.example") T0 :: rejects 0 6 (T0 + 1)) ($"here.example")); [|right; vm_compute; reflexivity].
  intros e own He Ho. unfold rejects in He. cbn [seq fmap list_fmap] in He. repeat (apply elem_of_cons in He as [-> |He]; [vm_compute in Ho; apply list_elem_of_singleton in Ho as ->; by left|]). by apply elem_of_nil in He.
Defined.
(** Two blocks beside one route: both fit. *)
Definition wire0 : list WireRoute := [mkWireRoute ($"me@here.example") 3 1000 ($"https://id.example") ($"subject-1") ($"box-1")].
Definition blocks0 : list Block := [mkBlock ($"a@bad.example") [] None; mkBlock [] ($"worse.example") (Some T0)].
Lemma fit_blocks_publishable_witness : FitBlocks wire0 blocks0 = Some blocks0 /\ exists fitted rest, blocks0 = fitted ++ rest /\ exists payload, signTable 1 T0 wire0 fitted = Some payload.
Proof.
  split; [vm_compute; reflexivity|]. pose proof (fit_blocks_publishable wire0 blocks0 ltac:(by repeat constructor)) as H. destruct (FitBlocks wire0 blocks0) as [fitted|] eqn:E; [|vm_compute in E; discriminate E].
  destruct H as (rest & H1 & H2 & _). exists fitted, rest. split; [exact H1|]. apply H2; vm_compute; split; congruence.
Defined.
